(* ===== verification/_CoqProject ===== *)
-Q . S2P
Prelude.v
OrdMap.v
InternalKey.v
Versions.v
Utf8.v
Wal.v
SSTable.v
ObjectStore.v
Manifest.v
Lsm.v
LsmRead.v
LsmCompact.v
LsmRefine.v
LsmRaces.v
LsmRecover.v
LsmReplica.v
Lease.v
Cache.v
Txn.v
Compress.v
Flux.v
BTree.v
Hpack.v
Rows.v
Roles.v
Ast.v
Decimal.v
Auth.v
Rbac.v
Jsonb.v
Graph.v
GraphAlgo.v
GraphIndex.v
Lexer.v
Parser.v
ParserEnds.v
ParserPrint.v
Float.v
Values.v
JsonOps.v
Eval.v
Joins.v
Sorting.v
Windows.v
Planner.v
ExprEq.v
Select.v
SelectWidths.v
SelectFacts.v
WindowFacts.v
SelectExamples.v
JsonSchema.v
Dml.v
DmlFacts.v
DmlRows.v
DmlExamples.v
Pgwire.v
StmtCache.v
Copy.v
Executor.v
Session.v
SessionFacts.v
SessionExamples.v
Ddl.v
DdlFacts.v
DdlRows.v
DdlExamples.v
Guard.v
Chronos.v
Mirror.v
Agents.v
Replay.v
