(* ===== verification/Prelude.v ===== *)
(** * A verification of the Keystone database

    Keystone ([src/tpt-keystone]) is a database server: SQL and other front
    ends over a row store with snapshot transactions, which is kept in an LSM
    tree on an object store with a local write-ahead log. This library models
    the server's own logic from the Rust sources, function by function, and
    proves what makes it correct. Paths below are relative to
    [src/tpt-keystone/src].

    ** The parts and how they interact

    A commit of a transaction ([storage/database]) becomes one batch of the LSM
    engine ([storage/lsm.rs]): the batch is appended to the write-ahead log
    ([storage/wal.rs]), then inserted into the memtable. A full memtable is
    frozen and written as an SSTable object ([storage/sstable.rs]) to the
    object store ([storage/objectstore.rs], behind the cache of
    [storage/cache.rs]); a compare-and-swap of the manifest object
    ([storage/manifest.rs]) publishes it, and compaction merges tables the same
    way. One node at a time holds the write lease ([storage/lease.rs]); the
    other nodes refresh from the manifest. Beside the rows the database keeps
    event topics ([storage/flux.rs]), secondary indexes ([storage/btree.rs],
    graphs in [storage/graph_index.rs]), binary JSON ([storage/jsonb.rs]) and
    compressed time series ([storage/compress.rs]). A connection authenticates
    against the role catalogue ([wire/roles.rs], [wire/scram.rs]) and every
    statement passes the check of [executor/rbac.rs] before it runs; the
    catalogues are rows of the same store. Its text is lexed and parsed
    ([sql/lexer.rs], [sql/parser.rs]); a query is planned
    ([executor/planner.rs]) and runs as a pipeline of joins, filters, groups,
    windows, sorting and projections ([executor/select.rs],
    [executor/join.rs]) over the evaluation of expressions
    ([executor/eval.rs]); INSERT, UPDATE and DELETE check the constraints of
    their table ([executor/dml.rs]) and write rows. [executor/mod.rs] sends a
    statement to its component, and a session ([wire/session.rs]) speaks the
    PostgreSQL protocol ([wire/codec.rs], [wire/messages.rs]) with its client.

    ** Files

    - [Prelude]: results, machine integers, bytes, big-endian encodings, list
      lemmas and the development's tactics and hints. [OrdMap]: the ordered
      containers of the standard library. [Utf8]: UTF-8 strings.
    - [InternalKey], [Versions]: [storage/internal_key.rs], and the versions of
      a key that a snapshot sees, the vocabulary of every later specification.
    - [Wal]: [storage/wal.rs] and the portable backend of
      [storage/io_backend.rs]. [SSTable]: [storage/sstable.rs].
      [ObjectStore]: the trait of [storage/objectstore.rs] as a class with its
      laws, and the local store as an instance that meets them. [Manifest]:
      [storage/manifest.rs].
    - [Lsm]: every operation of [storage/lsm.rs]; [LsmRead], [LsmCompact]: its
      reads and merges against version lists; [LsmRefine]: the engine as a
      transition system and its refinement of an append-only log;
      [LsmRecover]: crashes and recovery; [LsmReplica]: reader nodes;
      [LsmRaces]: interleavings that the engine does not exclude.
    - [Lease], [Cache]: [storage/lease.rs] and [storage/cache.rs].
    - [Txn]: [storage/database/txn.rs], the transaction methods of
      [storage/database/mod.rs] and the row operations of
      [storage/database/storage_engine.rs].
    - [Compress], [Flux], [BTree]: the codecs, the topics and the indexes.
    - [Hpack]: [wire/grpc/hpack.rs]. [Jsonb]: [storage/jsonb.rs]. [Rows]: the
      row cells of [synapse/mod.rs] and the row store as an interface.
    - [Roles]: [wire/role_members.rs] and [wire/privileges.rs]; [Auth]:
      [wire/scram.rs] and [wire/roles.rs]; [Rbac]: [executor/rbac.rs], over the
      syntax trees of [Ast] ([sql/ast.rs]). [Decimal]: decimal numerals.
    - [Graph], [GraphAlgo]: [graph/mod.rs] and [graph/algorithms.rs];
      [GraphIndex]: [storage/graph_index.rs], [storage/database/graph.rs], the
      graph part of [storage/database/storage_engine.rs] and of
      [Database::open], and the MATCH statement of [executor/gql.rs].
    - [Lexer]: [sql/lexer.rs]; [Parser]: [sql/parser.rs] and [sql/mod.rs];
      [ParserEnds]: the parser ends; [ParserPrint]: printing and parsing.
    - [Float]: the arithmetic and the text of [f64], on its bits; [Values],
      [JsonOps]: the values, operators, casts and JSON functions of
      [executor/eval.rs]; [Eval]: column resolution, expressions, functions and
      aggregates of [executor/eval.rs]; [ExprEq]: equality of expressions.
    - [Joins]: [executor/join.rs]; [Sorting]: [slice::sort_by] as a class;
      [Windows], [WindowFacts]: the window functions of [executor/select.rs];
      [Planner]: [executor/planner.rs] over the class [Catalog];
      [Select]: the rest of [executor/select.rs] and the query part of
      [executor/mod.rs]; [SelectWidths], [SelectFacts]: its theorems;
      [SelectExamples]: queries run from their text, and the witnesses.
    - [JsonSchema]: [storage/json_schema.rs]; [Dml]: [executor/dml.rs] over the
      classes [RowStore] and [Schemas]; [DmlFacts], [DmlRows]: its theorems;
      [DmlExamples]: statements run from their text, and the witnesses.
    - [Pgwire]: [wire/messages.rs] and [wire/codec.rs]; [StmtCache]:
      [sql/cache.rs]; [Copy]: [executor/copy.rs]; [Executor]: the statements of
      [executor/mod.rs]; [Session]: [wire/session.rs]; [SessionFacts]: its
      theorems; [SessionExamples]: sessions run from their messages, and the
      witnesses.
    - [Ddl]: [executor/ddl.rs] and [storage/database/catalog.rs] over the store
      and the rows below the indexes; [DdlFacts]: schemas and sequences of a
      server that crashes and restarts; [DdlRows]: ALTER TABLE and the rows;
      [DdlExamples]: statements run from their text, and the witnesses.
    - [Guard]: [storage/guard.rs], the breaker and the bound in front of an
      object store, an instance of the class [ObjectStore] with its laws.
    - [Chronos]: [storage/ts_index.rs] and [storage/database/time.rs].
    - [Mirror]: [mirror/audit.rs] and [mirror/provenance.rs]; [Agents]: the
      files of [synapse/], over the row store, the topics and [Mirror]'s clock.
    - [Replay]: [mirror/trace.rs] and [mirror/replay.rs], over the topics.
    ** How the code is modelled

    A struct is a record, an enum an inductive type, and a method a function
    from the state to the state and its result; a method that fails returns
    the state too, so the effects it had before failing are kept. [Result]
    carries the source's messages. Integers are [Z] with the wrap-around of a
    release build written out where it can happen. What two locks or two nodes
    can do between each other's steps is a step relation over these functions
    ([LsmRefine.step], [LsmRecover.sstep], [Lease.lstep], [Cache.cstep],
    [Txn.tstep], [Flux.fstep]); theorems over all reachable states are proved
    by induction on it. Failures of the object store and of the disk are part
    of the model, as laws that leave the outcome open or as an explicit list of
    outcomes: the log's file fails after a given number of bytes of a call
    ([Wal.io_faults]), and an allocation that is refused aborts ([Wal.Allocator]).
    A state that the theorems need and the program does not keep is a ghost
    beside it: the log of committed versions, the frozen commit numbers of
    [LsmRecover.ghost], the keys in doubt of [Cache.cstep].

    Third-party crates are parameters with their documented behaviour as laws:
    [crossbeam_skiplist] ([SkipMap]), [bloomfilter] ([Bloom]), [bincode]
    ([Bincode]), [sha2], [hmac] and [base64], [serde_json] ([Json]), [hex],
    [regex], the standard library's hasher. Each has a concrete instance on
    which the witnesses run, so the laws can be met. The query pipeline reads
    the database through the class [Planner.Catalog] and calls the functions
    of the engines that are not modelled (geometry, vectors, sequences, user
    functions) through [Eval.World]; the GPU's join is a parameter of [Joins].
    The changing statements run over [Rows.RowStore] and [Dml.Schemas], and
    sessions over [Executor.Engine]: the row store with its transactions, the
    tables' schemas and the statements that are not modelled. [SessionExamples]
    has instances of all of them and runs whole sessions.

    Loops over a buffer carry as fuel the length of the buffer plus one; every
    round consumes a byte, so the fuel never runs out, and the round-trip
    theorems prove results, not only properties of results. [BTree] has fuel
    for the depth because a damaged file can make the program recurse forever.
    The parser's fuel is bounded by its tokens ([ParserEnds]). A query calls
    itself for its derived tables, CTEs and subqueries; its fuel bounds the
    nesting of these calls, and [None] is a run that has not ended.

    ** What the theorems show

    - Storage: reads at a live snapshot are those of the log of committed
      batches, across flushes, compactions, failed and torn appends and store
      failures, as long as one flush or compaction is under way at a time and
      none begins behind a flush that failed, which the engine leaves to its
      callers; what a crash takes from the log is exact ([LsmRecover.survivors]):
      the batches acknowledged while the last flush was under way; batches are
      atomic; recovery succeeds unless the log was written on behind bytes of a
      failed append; replicas converge; fencing tokens are unique; the cache is
      transparent but for keys whose last change failed, and keeps its bound.
    - Transactions: reads see the snapshot and the transaction's own writes,
      are repeatable, commits are atomic, snapshots are counted exactly.
    - Formats: what the log, the tables, the manifest, the codecs and the
      topic logs write is what they read back.
    - Defects: where the code does not do what it means to, the theorem states
      what it does instead ([LsmRaces], and theorems of [Wal], [Lease],
      [Flux], [BTree], [Hpack], [Roles], [Auth], [Rbac], [Jsonb], [GraphAlgo],
      [GraphIndex], [Lexer], [ParserEnds], [ParserPrint], [Values], [Eval],
      [Joins], [SelectFacts], [SelectExamples], [DmlExamples], [Pgwire],
      [Copy], [Executor], [SessionExamples], [DdlExamples], [Guard],
      [Chronos], [Mirror] and [Agents]).
    - Access control: role memberships are the closure of the rows and stay
      acyclic, a privilege is held exactly when it was granted; what each
      statement demands of the check, and what the check leaves out (derived
      tables, subqueries, COPY); the right password passes SCRAM and a recorded
      answer does not.
    - Protocol and documents: HPACK decoding inverts the encoder and the RFC's
      Huffman code, ends on every input and keeps its table within its limit;
      binary JSON round trips.
    - Graphs: traversal, shortest paths, components, triangles and MATCH answer
      by the edges of the rows, and an index opens again as it was left.
    - SQL: the lexer and the parser end on every text (one loop of CREATE TABLE
      apart), text made from tokens lexes to them, a printed query, WITH clauses
      included, parses back to its syntax tree, and operators bind by their
      powers.
    - Queries: integer arithmetic is exact or refused, casts give their type,
      LIKE is a matching of pieces; aggregates are those of the column; hash
      joins return what nested loops return; the planner's join order is a
      schedule; a query returns the projections of the rows that satisfy its
      predicate, in a stable order, cut; groups partition the rows, RANK counts
      the rows before, frames lie in their partition, a recursive CTE collects
      its steps, and every row of a result fits the announced fields.
    - Changes: whatever INSERT, UPDATE and DELETE statements run, UNIQUE
      constraints and references hold;
      INSERT, UPDATE and DELETE change the rows they should and nothing else;
      row keys are injective; strict JSON Schema validation is conformance.
    - Connections: the messages of both sides are read as they were sent; a
      query is answered by the results of its statements, the first error or
      the exchange of a COPY, and one ReadyForQuery; transactions are bracketed in
      every session, and statements run in them but for the queries of cursors
      and COPY; cursors give their rows in order; where
      roles exist nobody gets in without the proof of a password; COPY reads
      what it wrote, however it is cut; the statement cache is transparent.
    - Schemas: whatever statements, failures, crashes and restarts, keys and
      constraints of a schema are on columns it has; ADD and DROP COLUMN change
      every row by one cell and leave constraints on their columns; calls of
      nextval on a growing sequence that is not set give no value twice.
    - Guard: the store behind the guard sees the admitted calls and no others;
      calls in flight are bounded; calls that come often keep the breaker open.
    - Time indexes: range queries are exact up to the retention, rollups cover
      evicted samples, a new index answers as a scan, a reopened one has every
      sample again.
    - Agents: an untouched audit trail verifies and a changed one needs a
      collision; tasks are handed out in order; a checkpoint survives a restart;
      an actor runs its behaviour; garbage collection takes what has expired;
      a session is replayed as it was recorded.
    ** Not modelled

    - ANALYZE and the virtual catalogues, which sessions reach through the class
      [Executor.Engine]; the HTTP, WebSocket and gRPC front ends;
    - floating-point engines: geometry, vector search, PageRank and GPU code;
    - sockets, TLS, cryptography, asynchronous tasks and timers; the cloud
      object stores, which are network clients;
    - the clients: dashboard, command line, operator, migration tool, SDKs. *)

From Stdlib Require Import Strings.Byte Strings.String Strings.Ascii Sorted ZArith Lia.
From stdpp Require Import base list gmap strings sorting.

Open Scope Z_scope.

Declare Scope keystone_scope.
Open Scope keystone_scope.

(** ** Results and errors

    [anyhow::Result] is a sum whose error side is the message of the source
    ([bail!], [ensure!], [anyhow!]); functions with a typed error
    ([CasError]) use [result] at that type. *)
Inductive result (E A : Type) : Type :=
| Ok (a : A)
| Err (e : E).
Arguments Ok {E A} a.
Arguments Err {E A} e.

Abbreviation Result := (result string).

Notation "'let?' x ':=' r 'in' k" :=
  (match r with Ok x => k | Err e => Err e end)
  (at level 10, x binder, r at level 100, k at level 200) : keystone_scope.

Definition ok_or {A : Type} (o : option A) (e : string) : Result A :=
  match o with Some a => Ok a | None => Err e end.

Lemma result_bind_Ok {E A B : Type} (r : result E A) (k : A -> result E B) (b : B) :
  (let? x := r in k x) = Ok b -> exists a, r = Ok a /\ k a = Ok b.
Proof. destruct r as [a|e]; [eauto | discriminate]. Qed.

(** ** Lengths as machine integers *)

(** [v.len()] as the unbounded value behind the [usize]. *)
Definition zlen {A : Type} (l : list A) : Z := Z.of_nat (length l).

Lemma zlen_nil {A : Type} : zlen (@nil A) = 0.
Proof. reflexivity. Qed.
Lemma zlen_cons {A : Type} (x : A) (l : list A) : zlen (x :: l) = 1 + zlen l.
Proof. unfold zlen; simpl length; lia. Qed.
Lemma zlen_app {A : Type} (l1 l2 : list A) : zlen (l1 ++ l2) = zlen l1 + zlen l2.
Proof. unfold zlen; rewrite length_app; lia. Qed.
Lemma zlen_nonneg {A : Type} (l : list A) : 0 <= zlen l.
Proof. unfold zlen; lia. Qed.

Create Rewrite HintDb zlen.
#[export] Hint Rewrite @zlen_nil @zlen_cons @zlen_app : zlen.
#[export] Hint Resolve zlen_nonneg : core.

(** Normalise lengths and close the arithmetic that is left. *)
Ltac zlen_solve :=
  autorewrite with zlen in *; unfold zlen in *; simpl length in *; lia.

(** ** Fixed-width integers

    A [w]-bit unsigned integer is a [Z] in [0, 2^w); arithmetic that the
    release build wraps is written with the [mod]. *)
Definition U32_MAX : Z := 2 ^ 32 - 1.
Definition U64_MAX : Z := 2 ^ 64 - 1.
Definition is_u8 (z : Z) : Prop := 0 <= z < 2 ^ 8.
Definition is_u32 (z : Z) : Prop := 0 <= z < 2 ^ 32.
Definition is_u64 (z : Z) : Prop := 0 <= z < 2 ^ 64.

Definition u64_add (a b : Z) : Z := (a + b) mod 2 ^ 64.
Definition u64_sub (a b : Z) : Z := (a - b) mod 2 ^ 64.

Lemma u64_add_small (a b : Z) : 0 <= a -> 0 <= b -> a + b < 2 ^ 64 -> u64_add a b = a + b.
Proof. intros; unfold u64_add; apply Z.mod_small; lia. Qed.
Lemma u64_sub_small (a b : Z) : is_u64 a -> 0 <= b <= a -> u64_sub a b = a - b.
Proof. unfold is_u64; intros; unfold u64_sub; apply Z.mod_small; lia. Qed.

(** ** Bytes *)
Abbreviation byte := Byte.byte.
Abbreviation bytes := (list byte).

Definition Z_of_byte (b : byte) : Z := Z.of_N (Byte.to_N b).

(** [x as u8]: the low eight bits. *)
Definition byte_of_Z (z : Z) : byte :=
  match Byte.of_N (Z.to_N (z mod 2 ^ 8)) with Some b => b | None => Byte.x00 end.

Lemma Z_of_byte_range (b : byte) : 0 <= Z_of_byte b < 256.
Proof. unfold Z_of_byte. pose proof (Byte.to_N_bounded b). lia. Qed.

Lemma Z_of_byte_of_Z (z : Z) : Z_of_byte (byte_of_Z z) = z mod 2 ^ 8.
Proof.
  unfold byte_of_Z, Z_of_byte.
  assert (0 <= z mod 2 ^ 8 < 2 ^ 8) as Hr by (apply Z.mod_pos_bound; lia).
  destruct (Byte.of_N (Z.to_N (z mod 2 ^ 8))) eqn:E.
  - apply Byte.to_of_N in E. rewrite E. lia.
  - apply Byte.of_N_None_iff in E. lia.
Qed.

Lemma byte_of_Z_of_byte (b : byte) : byte_of_Z (Z_of_byte b) = b.
Proof.
  unfold byte_of_Z. pose proof (Z_of_byte_range b).
  rewrite Z.mod_small by lia. unfold Z_of_byte. rewrite N2Z.id, Byte.of_to_N. done.
Qed.

Lemma Z_of_byte_inj (a b : byte) : Z_of_byte a = Z_of_byte b -> a = b.
Proof. intros H. rewrite <- (byte_of_Z_of_byte a), H. apply byte_of_Z_of_byte. Qed.

#[export] Instance byte_eq_dec : EqDecision byte := Byte.byte_eq_dec.

Definition byte_eqb (a b : byte) : bool := bool_decide (a = b).

Lemma byte_eqb_true (a b : byte) : byte_eqb a b = true <-> a = b.
Proof. unfold byte_eqb. apply bool_decide_eq_true. Qed.

Lemma byte_eqb_refl (a : byte) : byte_eqb a a = true.
Proof. by apply byte_eqb_true. Qed.

(** ** Big-endian encodings ([to_be_bytes] and [from_be_bytes]) *)

Fixpoint to_be (n : nat) (z : Z) : bytes :=
  match n with
  | O => []
  | S n' => byte_of_Z (Z.shiftr z (8 * Z.of_nat n')) :: to_be n' z
  end.

Definition from_be (bs : bytes) : Z :=
  fold_left (fun acc b => acc * 256 + Z_of_byte b) bs 0.

Definition u32_to_be (z : Z) : bytes := to_be 4 z.
Definition u64_to_be (z : Z) : bytes := to_be 8 z.

Lemma length_to_be (n : nat) (z : Z) : length (to_be n z) = n.
Proof. induction n; simpl; congruence. Qed.

Lemma zlen_u32_to_be (z : Z) : zlen (u32_to_be z) = 4.
Proof. unfold zlen, u32_to_be. rewrite length_to_be. done. Qed.
Lemma zlen_u64_to_be (z : Z) : zlen (u64_to_be z) = 8.
Proof. unfold zlen, u64_to_be. rewrite length_to_be. done. Qed.
#[export] Hint Rewrite zlen_u32_to_be zlen_u64_to_be : zlen.

Lemma from_be_acc (bs : bytes) (acc : Z) :
  fold_left (fun acc b => acc * 256 + Z_of_byte b) bs acc
  = acc * 256 ^ zlen bs + from_be bs.
Proof.
  unfold from_be. revert acc. induction bs as [|b bs IH]; intros acc; simpl fold_left.
  - rewrite zlen_nil. lia.
  - rewrite (IH (acc * 256 + _)), (IH (0 * 256 + _)), zlen_cons.
    rewrite Z.pow_add_r by (auto; lia). lia.
Qed.

Lemma from_be_cons (b : byte) (bs : bytes) :
  from_be (b :: bs) = Z_of_byte b * 256 ^ zlen bs + from_be bs.
Proof. unfold from_be at 1. simpl fold_left. rewrite from_be_acc. lia. Qed.

Lemma from_be_range (bs : bytes) : 0 <= from_be bs < 256 ^ zlen bs.
Proof.
  induction bs as [|b bs IH].
  - unfold zlen, from_be. simpl. lia.
  - rewrite from_be_cons, zlen_cons, Z.pow_add_r by (auto; lia).
    pose proof (Z_of_byte_range b). nia.
Qed.

Lemma from_to_be (n : nat) (z : Z) : from_be (to_be n z) = z mod 2 ^ (8 * Z.of_nat n).
Proof.
  induction n as [|n IH].
  - simpl. rewrite Z.mod_1_r. done.
  - cbn [to_be]. rewrite from_be_cons, IH, Z_of_byte_of_Z.
    unfold zlen. rewrite length_to_be, Z.shiftr_div_pow2 by lia.
    replace 256 with (2 ^ 8) by done. rewrite <- Z.pow_mul_r by lia.
    replace (8 * Z.of_nat (S n)) with (8 * Z.of_nat n + 8) by lia.
    rewrite Z.pow_add_r by lia.
    rewrite Z.rem_mul_r by lia. lia.
Qed.

Lemma from_u32_to_be (z : Z) : is_u32 z -> from_be (u32_to_be z) = z.
Proof. intros. unfold u32_to_be. rewrite from_to_be. apply Z.mod_small, H. Qed.
Lemma from_u64_to_be (z : Z) : is_u64 z -> from_be (u64_to_be z) = z.
Proof. intros. unfold u64_to_be. rewrite from_to_be. apply Z.mod_small, H. Qed.

(** ** Bit operations and seven-bit groups *)

(** Or-ing bits above those already there. *)
Lemma lor_high (a b n : Z) : 0 <= n -> 0 <= a < 2 ^ n -> Z.lor a (b * 2 ^ n) = a + b * 2 ^ n.
Proof.
  intros Hn Ha. assert (Z.land a (b * 2 ^ n) = 0) as H0.
  { apply Z.bits_inj'. intros i Hi. rewrite Z.land_spec, Z.bits_0.
    destruct (decide (i < n)) as [Hlt|Hge].
    - rewrite Z.mul_pow2_bits_low by lia. apply andb_false_r.
    - destruct (decide (a = 0)) as [->|]; [by rewrite Z.bits_0|].
      rewrite (Z.bits_above_log2 a i); [done | lia |]. apply Z.lt_le_trans with n; [|lia].
      apply Z.log2_lt_pow2; lia. }
  rewrite <- Z.lxor_lor by done. symmetry. by apply Z.add_nocarry_lxor.
Qed.

Lemma lor_b2z (v : Z) (b : bool) : Z.lor (2 * v) (Z.b2z b) = 2 * v + Z.b2z b.
Proof.
  rewrite Z.lor_comm, Z.mul_comm. change 2 with (2 ^ 1) at 1. rewrite lor_high; [|lia|by destruct b].
  change (2 ^ 1) with 2. lia.
Qed.

Lemma byte_bit7 (b : byte) : Z.land (Z_of_byte b) 128 = if Z_of_byte b <? 128 then 0 else 128.
Proof. destruct b; reflexivity. Qed.

Lemma land_127 (v : Z) : Z.land v 127 = v mod 128.
Proof. apply (Z.land_ones v 7). lia. Qed.

(** The byte of a group, with and without the continuation bit. *)
Lemma varint_byte (v : Z) (more : bool) :
  let b := byte_of_Z (if more then Z.lor (Z.land v 127) 128 else Z.land v 127) in
  Z.land (Z_of_byte b) 127 = v mod 128 /\ (Z.land (Z_of_byte b) 128 =? 0) = negb more.
Proof.
  pose proof (Z.mod_pos_bound v 128 ltac:(lia)) as Hb. rewrite land_127. simpl.
  assert (Z.lor (v mod 128) 128 = v mod 128 + 128) as Hlor by apply (lor_high (v mod 128) 1 7 ltac:(lia) Hb).
  rewrite byte_bit7, land_127, Z_of_byte_of_Z, Hlor. change (2 ^ 8) with 256.
  destruct more; rewrite (Z.mod_small _ 256) by lia.
  - rewrite (proj2 (Z.ltb_ge _ 128)) by lia. split; [|done].
    replace (v mod 128 + 128) with (v mod 128 + 1 * 128) by lia. rewrite Z.mod_add by lia. by rewrite Z.mod_mod by lia.
  - rewrite (proj2 (Z.ltb_lt _ 128)) by lia. split; [by rewrite Z.mod_mod by lia | done].
Qed.

(** ** Bit lists *)

(** The [n] low bits of a value, most significant first. *)
Fixpoint be_bits (n : nat) (v : Z) : list bool :=
  match n with O => [] | S i => Z.testbit v (Z.of_nat i) :: be_bits i v end.

(** The bits of a buffer, the highest of each byte first. *)
Definition bits_of_bytes (buf : bytes) : list bool :=
  concat (map (fun b => be_bits 8 (Z_of_byte b)) buf).

Lemma length_be_bits (n : nat) (v : Z) : length (be_bits n v) = n.
Proof. induction n; simpl; congruence. Qed.

Lemma be_bits_ext (n : nat) (v w : Z) :
  (forall i, 0 <= i < Z.of_nat n -> Z.testbit v i = Z.testbit w i) -> be_bits n v = be_bits n w.
Proof.
  induction n as [|n IH]; intros H; simpl; [done|]. rewrite H by lia. f_equal. apply IH. intros; apply H; lia.
Qed.

(** Shifting a bit in at the end. *)
Lemma be_bits_snoc (n : nat) (v : Z) (b : bool) :
  be_bits (S n) (2 * v + Z.b2z b) = be_bits n v ++ [b].
Proof.
  induction n as [|n IH].
  - cbn [be_bits app]. change (Z.of_nat 0) with 0. by rewrite Z.testbit_0_r.
  - cbn [be_bits app] in *. rewrite <- IH. f_equal.
    replace (Z.of_nat (S n)) with (Z.succ (Z.of_nat n)) by lia. by rewrite Z.testbit_succ_r by lia.
Qed.

Lemma bits_of_bytes_app (a b : bytes) : bits_of_bytes (a ++ b) = bits_of_bytes a ++ bits_of_bytes b.
Proof. unfold bits_of_bytes. by rewrite map_app, concat_app. Qed.

Lemma bits_of_byte_of_Z (z : Z) : 0 <= z < 2 ^ 8 -> bits_of_bytes [byte_of_Z z] = be_bits 8 z.
Proof.
  intros Hz. unfold bits_of_bytes. cbn [map concat].
  by rewrite Z_of_byte_of_Z, Z.mod_small, app_nil_r by done.
Qed.

(** ** Slices *)

(** [&buf[pos..pos+n]], for a range already known to lie inside [buf]. *)
Definition slice (buf : bytes) (pos n : Z) : bytes :=
  take (Z.to_nat n) (drop (Z.to_nat pos) buf).

Lemma take_zlen_app {A : Type} (l1 l2 : list A) : take (Z.to_nat (zlen l1)) (l1 ++ l2) = l1.
Proof. unfold zlen. rewrite Nat2Z.id. apply take_app_length. Qed.
Lemma drop_zlen_app {A : Type} (l1 l2 : list A) : drop (Z.to_nat (zlen l1)) (l1 ++ l2) = l2.
Proof. unfold zlen. rewrite Nat2Z.id. apply drop_app_length. Qed.

Lemma slice_app_mid (a b c : bytes) (pos n : Z) :
  pos = zlen a -> n = zlen b -> slice (a ++ b ++ c) pos n = b.
Proof. intros -> ->. unfold slice. rewrite drop_zlen_app, take_zlen_app. done. Qed.

#[global] Arguments to_be : simpl never.
#[global] Arguments u32_to_be : simpl never.
#[global] Arguments u64_to_be : simpl never.
#[global] Arguments from_be : simpl never.
#[global] Arguments slice : simpl never.
#[global] Arguments zlen : simpl never.

(** ** Searching lists *)

Lemma find_None_iff {A : Type} (f : A -> bool) (l : list A) :
  List.find f l = None <-> forall x, In x l -> f x = false.
Proof.
  split; [intros H x; by apply List.find_none|].
  intros H. induction l as [|y l IH]; simpl; [done|].
  rewrite (H y) by by left. apply IH. intros x Hx. apply H. by right.
Qed.

Lemma find_app {A : Type} (f : A -> bool) (l1 l2 : list A) :
  List.find f (l1 ++ l2) =
  match List.find f l1 with Some x => Some x | None => List.find f l2 end.
Proof. induction l1 as [|x l1 IH]; simpl; [done|]. destruct (f x); auto. Qed.

(** ** Sorted lists *)

Lemma StronglySorted_weaken {A : Type} (R R' : A -> A -> Prop) (l : list A) :
  (forall a b, R a b -> R' a b) -> StronglySorted R l -> StronglySorted R' l.
Proof.
  intros HR. induction 1 as [|a l Hl IH Ha]; constructor; [done|].
  eapply Forall_impl; eauto.
Qed.

(** ** Strings *)

(** [str::starts_with] *)
Definition str_starts_with (s prefix : string) : bool := String.prefix prefix s.

(** [str::to_ascii_lowercase] *)
Definition ascii_lower (c : ascii) : ascii :=
  let n := N_of_ascii c in
  if (65 <=? n)%N && (n <=? 90)%N then ascii_of_N (n + 32) else c.

Fixpoint to_ascii_lowercase (s : string) : string :=
  match s with
  | EmptyString => EmptyString
  | String c s' => String (ascii_lower c) (to_ascii_lowercase s')
  end.
