(* ===== verification/OrdMap.v ===== *)
(** Ordered containers of the Rust standard library.

    - [Ord K]: a type with a three-way comparison and the laws of [std::cmp::Ord];
    - the byte-wise order of [Vec<u8>] ([bytes_cmp]) and its laws;
    - [BTreeMap<K, V>] as the association list its iteration yields, strictly
      increasing in the key: [om_get], [om_insert], [om_remove], [om_lower]
      ([range(k..).next()]);
    - [slice::sort_by] (stable) and [slice::partition_point]. *)

From Stdlib Require Import Strings.Byte Sorted ZArith Lia.
From stdpp Require Import base list sorting.
From S2P Require Import Prelude.

Open Scope Z_scope.

(** ** Total orders *)

Class Ord (K : Type) := {
  cmp : K -> K -> comparison;
  cmp_eq : forall a b, cmp a b = Eq <-> a = b;
  cmp_antisym : forall a b, cmp b a = CompOpp (cmp a b);
  cmp_lt_trans : forall a b c, cmp a b = Lt -> cmp b c = Lt -> cmp a c = Lt;
}.

Section OrdFacts.
  Context {K : Type} `{!Ord K}.

Definition lt_cmp (a b : K) : Prop := cmp a b = Lt.

Lemma cmp_refl (a : K) : cmp a a = Eq.
Proof. by apply cmp_eq. Qed.

Lemma cmp_gt_lt (a b : K) : cmp a b = Gt <-> cmp b a = Lt.
Proof. rewrite (cmp_antisym a b). destruct (cmp a b); simpl; split; congruence. Qed.

Lemma lt_cmp_irrefl (a : K) : lt_cmp a a -> False.
Proof. unfold lt_cmp. rewrite cmp_refl. discriminate. Qed.

#[export] Instance lt_cmp_trans : Transitive lt_cmp.
Proof. intros a b c. apply cmp_lt_trans. Qed.

Lemma lt_cmp_neq (a b : K) : lt_cmp a b -> a <> b.
Proof. intros H ->. by apply lt_cmp_irrefl in H. Qed.

#[export] Instance ord_eq_dec : EqDecision K.
Proof.
  intros a b. destruct (cmp a b) eqn:E; [left; by apply cmp_eq | right | right];
    intros ->; rewrite cmp_refl in E; discriminate.
Defined.

Definition keqb (a b : K) : bool := match cmp a b with Eq => true | _ => false end.

Lemma keqb_true (a b : K) : keqb a b = true <-> a = b.
Proof. unfold keqb. rewrite <- cmp_eq. destruct (cmp a b); split; congruence. Qed.

Lemma keqb_false (a b : K) : keqb a b = false <-> a <> b.
Proof. rewrite <- keqb_true. destruct (keqb a b); split; congruence. Qed.

End OrdFacts.

(** Case analysis on a comparison, turning [Eq] into an equation. *)
Ltac case_cmp a b :=
  let E := fresh "Ecmp" in
  destruct (cmp a b) eqn:E;
  [ apply cmp_eq in E; try subst | | ].

(** ** The order of [u64] *)

Definition Z_cmp (a b : Z) : comparison := Z.compare a b.

#[export] Program Instance Z_ord : Ord Z := {| cmp := Z_cmp |}.
Next Obligation. intros. apply Z.compare_eq_iff. Qed.
Next Obligation. intros. apply Z.compare_antisym. Qed.
Next Obligation. unfold Z_cmp; intros a b c ??. rewrite Z.compare_lt_iff in *. lia. Qed.

Lemma Z_lt_cmp (a b : Z) : lt_cmp a b <-> a < b.
Proof. apply Z.compare_lt_iff. Qed.

(** ** The lexicographic order of [Vec<u8>] *)

Fixpoint bytes_cmp (a b : bytes) : comparison :=
  match a, b with
  | [], [] => Eq
  | [], _ :: _ => Lt
  | _ :: _, [] => Gt
  | x :: a', y :: b' =>
      match Z.compare (Z_of_byte x) (Z_of_byte y) with
      | Eq => bytes_cmp a' b'
      | c => c
      end
  end.

Lemma bytes_cmp_eq (a b : bytes) : bytes_cmp a b = Eq <-> a = b.
Proof.
  revert b. induction a as [|x a IH]; intros [|y b]; simpl; try (split; congruence).
  destruct (Z.compare_spec (Z_of_byte x) (Z_of_byte y)) as [E|E|E].
  - apply Z_of_byte_inj in E as ->. rewrite IH. split; congruence.
  - split; [discriminate | intros [= -> ->]; lia].
  - split; [discriminate | intros [= -> ->]; lia].
Qed.

Lemma bytes_cmp_antisym (a b : bytes) : bytes_cmp b a = CompOpp (bytes_cmp a b).
Proof.
  revert b. induction a as [|x a IH]; intros [|y b]; simpl; try done.
  rewrite Z.compare_antisym. destruct (Z_of_byte x ?= Z_of_byte y) eqn:E; simpl; auto.
Qed.

Lemma bytes_cmp_trans (a b c : bytes) :
  bytes_cmp a b = Lt -> bytes_cmp b c = Lt -> bytes_cmp a c = Lt.
Proof.
  revert b c. induction a as [|x a IH]; intros [|y b] [|z c]; simpl; try done.
  destruct (Z.compare_spec (Z_of_byte x) (Z_of_byte y)) as [E|E|E]; try done;
  destruct (Z.compare_spec (Z_of_byte y) (Z_of_byte z)) as [F|F|F]; try done;
  destruct (Z.compare_spec (Z_of_byte x) (Z_of_byte z)) as [G|G|G]; try lia; eauto.
Qed.

#[export] Instance bytes_ord : Ord bytes := {|
  cmp := bytes_cmp;
  cmp_eq := bytes_cmp_eq;
  cmp_antisym := bytes_cmp_antisym;
  cmp_lt_trans := bytes_cmp_trans;
|}.

(** ** [BTreeMap<K, V>] *)

Section OrdMap.
  Context {K V : Type} `{!Ord K}.

Fixpoint om_get (k : K) (m : list (K * V)) : option V :=
  match m with
  | [] => None
  | (k', v) :: m' => if keqb k k' then Some v else om_get k m'
  end.

Fixpoint om_insert (k : K) (v : V) (m : list (K * V)) : list (K * V) :=
  match m with
  | [] => [(k, v)]
  | (k', v') :: m' =>
      match cmp k k' with
      | Lt => (k, v) :: m
      | Eq => (k, v) :: m'
      | Gt => (k', v') :: om_insert k v m'
      end
  end.

Fixpoint om_remove (k : K) (m : list (K * V)) : list (K * V) :=
  match m with
  | [] => []
  | (k', v') :: m' => if keqb k k' then m' else (k', v') :: om_remove k m'
  end.

(** [m.range(k..).next()]: the first entry whose key is not below [k]. *)
Definition om_lower (k : K) (m : list (K * V)) : option (K * V) :=
  List.find (fun e => match cmp (fst e) k with Lt => false | _ => true end) m.

Definition om_sorted (m : list (K * V)) : Prop :=
  StronglySorted (fun a b => lt_cmp (fst a) (fst b)) m.

Lemma om_sorted_cons (e : K * V) (m : list (K * V)) :
  om_sorted (e :: m) <-> Forall (fun a => lt_cmp (fst e) (fst a)) m /\ om_sorted m.
Proof. apply StronglySorted_cons. Qed.

Lemma om_get_Some_In (k : K) (v : V) (m : list (K * V)) : om_get k m = Some v -> In (k, v) m.
Proof.
  induction m as [|[k' v'] m IH]; simpl; [done|].
  destruct (keqb k k') eqn:E; [|auto].
  apply keqb_true in E as ->. intros [= ->]. auto.
Qed.

Lemma om_get_In (k : K) (v : V) (m : list (K * V)) :
  om_sorted m -> In (k, v) m -> om_get k m = Some v.
Proof.
  induction m as [|[k' v'] m IH]; simpl; [done|].
  rewrite om_sorted_cons. intros [Hall Hs] [[= -> ->]|Hin].
  - destruct (keqb k k) eqn:E; [done|]. by apply keqb_false in E.
  - rewrite Forall_forall in Hall.
    specialize (Hall (k, v)). simpl in Hall.
    destruct (keqb k k') eqn:E; [|auto].
    apply keqb_true in E as ->. exfalso. eapply lt_cmp_irrefl, Hall.
    by apply list_elem_of_In.
Qed.

Lemma om_get_In_iff (k : K) (v : V) (m : list (K * V)) :
  om_sorted m -> om_get k m = Some v <-> In (k, v) m.
Proof. intros; split; [apply om_get_Some_In | by apply om_get_In]. Qed.

Lemma om_insert_Forall (P : K * V -> Prop) (k : K) (v : V) (m : list (K * V)) :
  P (k, v) -> Forall P m -> Forall P (om_insert k v m).
Proof.
  intros Hp. induction 1 as [|[k' v'] m Hx Hm IH]; simpl; [by constructor|].
  destruct (cmp k k'); repeat constructor; auto.
Qed.

Lemma om_insert_sorted (k : K) (v : V) (m : list (K * V)) :
  om_sorted m -> om_sorted (om_insert k v m).
Proof.
  induction m as [|[k' v'] m IH]; simpl.
  - intros _. repeat constructor.
  - intros Hs. pose proof Hs as [Hall Hm]%om_sorted_cons.
    case_cmp k k'.
    + by rewrite om_sorted_cons.
    + rewrite om_sorted_cons. split; [|done].
      constructor; [done|]. eapply Forall_impl; [exact Hall|].
      simpl. intros ? ?. etransitivity; eauto.
    + rewrite om_sorted_cons. split; [|auto].
      apply om_insert_Forall; [|done]. by apply cmp_gt_lt.
Qed.

Lemma om_insert_In (k : K) (v : V) (m : list (K * V)) (e : K * V) :
  om_sorted m ->
  In e (om_insert k v m) <-> e = (k, v) \/ (fst e <> k /\ In e m).
Proof.
  induction m as [|[k' v'] m IH]; simpl.
  - intros _. intuition congruence.
  - intros Hs. pose proof Hs as [Hall Hm]%om_sorted_cons.
    assert (forall k0, cmp k0 k' <> Gt -> In e m -> fst e <> k0) as Hne.
    { intros k0 Hk Hin Heq. rewrite Forall_forall in Hall.
      specialize (Hall e ltac:(by apply list_elem_of_In)). simpl in Hall.
      apply Hk, cmp_gt_lt. by rewrite <- Heq. }
    case_cmp k k'; simpl.
    + assert (In e m -> fst e <> k') by (apply Hne; rewrite cmp_refl; done).
      destruct e as [ek ev]. simpl in *. intuition congruence.
    + assert (In e m -> fst e <> k) by (apply Hne; congruence).
      assert (k' <> k) by (intros ->; by apply lt_cmp_irrefl in Ecmp).
      destruct e as [ek ev]. simpl in *. intuition congruence.
    + rewrite IH by done.
      assert (k' <> k) by (intros ->; rewrite cmp_refl in Ecmp; done).
      destruct e as [ek ev]. simpl in *. intuition congruence.
Qed.

Lemma om_get_insert (k k' : K) (v : V) (m : list (K * V)) :
  om_sorted m ->
  om_get k' (om_insert k v m) = if keqb k' k then Some v else om_get k' m.
Proof.
  intros Hs. apply option_eq. intros w.
  rewrite om_get_In_iff by by apply om_insert_sorted.
  rewrite om_insert_In by done. simpl.
  destruct (keqb k' k) eqn:E.
  - apply keqb_true in E as ->. split; [intros [[=]|[]]; congruence | intros [= ->]; auto].
  - apply keqb_false in E. rewrite om_get_In_iff by done.
    split; [intros [[=]|[]]; congruence | auto].
Qed.

Lemma om_remove_In (k : K) (m : list (K * V)) (e : K * V) :
  om_sorted m -> In e (om_remove k m) <-> fst e <> k /\ In e m.
Proof.
  induction m as [|[k' v'] m IH]; simpl; [intuition|].
  rewrite om_sorted_cons. intros [Hall Hm].
  destruct (keqb k k') eqn:E; simpl.
  - apply keqb_true in E as ->. split.
    + intros Hin. split; [|auto]. rewrite Forall_forall in Hall.
      specialize (Hall e ltac:(by apply list_elem_of_In)).
      intros <-. by apply lt_cmp_irrefl in Hall.
    + intros [Hne [<-|Hin]]; [done | done].
  - apply keqb_false in E. rewrite IH by done.
    destruct e as [ek ev]; simpl. intuition congruence.
Qed.

Lemma om_remove_sorted (k : K) (m : list (K * V)) : om_sorted m -> om_sorted (om_remove k m).
Proof.
  induction m as [|[k' v'] m IH]; simpl; [done|].
  intros Hs. pose proof Hs as [Hall Hm]%om_sorted_cons.
  destruct (keqb k k'); [done|]. rewrite om_sorted_cons. split; [|auto].
  rewrite Forall_forall in *. intros e He. apply Hall.
  rewrite list_elem_of_In in *. by apply om_remove_In in He as [_ ?].
Qed.

Lemma om_get_remove (k k' : K) (m : list (K * V)) :
  om_sorted m -> om_get k' (om_remove k m) = if keqb k' k then None else om_get k' m.
Proof.
  intros Hs. apply option_eq. intros w.
  rewrite om_get_In_iff by by apply om_remove_sorted.
  rewrite om_remove_In by done. simpl.
  destruct (keqb k' k) eqn:E.
  - apply keqb_true in E as ->. split; [intros []; done | done].
  - apply keqb_false in E. rewrite om_get_In_iff by done. intuition.
Qed.

Lemma om_ext (m1 m2 : list (K * V)) :
  om_sorted m1 -> om_sorted m2 -> (forall k, om_get k m1 = om_get k m2) -> m1 = m2.
Proof.
  intros H1 H2 Hget.
  assert (forall e, In e m1 <-> In e m2) as Hin.
  { intros [k v]. rewrite <- !om_get_In_iff by done. by rewrite Hget. }
  clear Hget. revert m2 H2 Hin. induction m1 as [|e1 m1 IH]; intros [|e2 m2] H2 Hin.
  - done.
  - exfalso. by apply (Hin e2); left.
  - exfalso. by apply (Hin e1); left.
  - apply om_sorted_cons in H1 as [Ha1 Hs1]. apply om_sorted_cons in H2 as [Ha2 Hs2].
    rewrite Forall_forall in Ha1, Ha2. setoid_rewrite list_elem_of_In in Ha1.
    setoid_rewrite list_elem_of_In in Ha2.
    assert (e1 = e2) as ->.
    { destruct (proj1 (Hin e1)) as [->|H1]; [by left|done|].
      destruct (proj2 (Hin e2)) as [->|H2]; [by left|done|].
      exfalso. eapply lt_cmp_irrefl. etransitivity; [exact (Ha1 _ H2) | exact (Ha2 _ H1)]. }
    f_equal. apply IH; [done..|]. intros e.
    specialize (Hin e). simpl in Hin. split; intros He.
    + destruct (proj1 Hin (or_intror He)) as [<-|?]; [|done].
      exfalso. by eapply lt_cmp_irrefl, Ha1.
    + destruct (proj2 Hin (or_intror He)) as [<-|?]; [|done].
      exfalso. by eapply lt_cmp_irrefl, Ha2.
Qed.

Lemma om_lower_spec (k : K) (m : list (K * V)) (e : K * V) :
  om_sorted m ->
  om_lower k m = Some e ->
  In e m /\ ~ lt_cmp (fst e) k
  /\ (forall e', In e' m -> ~ lt_cmp (fst e') k -> e' = e \/ lt_cmp (fst e) (fst e')).
Proof.
  unfold om_lower. induction m as [|e0 m IH]; simpl; [done|].
  rewrite om_sorted_cons, Forall_forall. intros [Hall Hs].
  setoid_rewrite list_elem_of_In in Hall.
  destruct (cmp (fst e0) k) eqn:E.
  1,3: intros [= ->]; unfold lt_cmp at 1; split_and!; [auto | congruence |];
    intros e' [->|Hin] Hnlt; [auto | right; auto].
  intros Hf. destruct (IH Hs Hf) as (Hin & Hn & Hmin). split_and!; [auto | done |].
  intros e' [->|Hin'] Hnlt; [by exfalso | auto].
Qed.

Lemma om_lower_None (k : K) (m : list (K * V)) (e : K * V) :
  om_lower k m = None -> In e m -> lt_cmp (fst e) k.
Proof.
  unfold om_lower, lt_cmp. intros H Hin. eapply List.find_none in H; [|exact Hin].
  by destruct (cmp (fst e) k).
Qed.

End OrdMap.

#[export] Hint Resolve om_insert_sorted om_remove_sorted : core.

(** ** Stable sorting and partition points *)

Section Sort.
  Context {A : Type} (le : A -> A -> bool).

(** Insert before the first strictly greater element, so equal elements keep
    their order. *)
Fixpoint insert_by (x : A) (l : list A) : list A :=
  match l with
  | [] => [x]
  | y :: l' => if le x y then x :: l else y :: insert_by x l'
  end.

(** [l.sort_by(..)] with the comparison given as "not greater than". *)
Fixpoint sort_by (l : list A) : list A :=
  match l with
  | [] => []
  | x :: l' => insert_by x (sort_by l')
  end.

Lemma insert_by_perm (x : A) (l : list A) : insert_by x l ≡ₚ x :: l.
Proof.
  induction l as [|y l IH]; simpl; [done|].
  destruct (le x y); [done|]. rewrite IH. apply Permutation_swap.
Qed.

Lemma sort_by_perm (l : list A) : sort_by l ≡ₚ l.
Proof. induction l as [|x l IH]; simpl; [done|]. rewrite insert_by_perm, IH. done. Qed.

Lemma sort_by_In (l : list A) (x : A) : In x (sort_by l) <-> In x l.
Proof. rewrite <- !list_elem_of_In. by rewrite sort_by_perm. Qed.

Lemma sort_by_sorted (l : list A) :
  (forall a b, le a b = true \/ le b a = true) ->
  (forall a b c, le a b = true -> le b c = true -> le a c = true) ->
  StronglySorted (fun a b => le a b = true) (sort_by l).
Proof.
  intros Htot Htr. induction l as [|x l IH]; simpl; [constructor|].
  revert IH. generalize (sort_by l). intros s Hs. induction Hs as [|y s Hs IHs Hy]; simpl.
  - repeat constructor.
  - destruct (le x y) eqn:E.
    + constructor; [by constructor|]. constructor; [done|].
      eapply Forall_impl; [exact Hy|]. simpl. eauto.
    + constructor; [done|]. rewrite insert_by_perm. constructor; [|done].
      destruct (Htot x y); congruence.
Qed.

End Sort.

(** [l.partition_point(p)] for a slice that is partitioned by [p]: the length
    of its longest prefix satisfying [p]. *)
Fixpoint partition_point {A : Type} (p : A -> bool) (l : list A) : nat :=
  match l with
  | [] => O
  | x :: l' => if p x then S (partition_point p l') else O
  end.

Lemma partition_point_find {A : Type} (p : A -> bool) (l : list A) :
  l !! partition_point p l = List.find (fun x => negb (p x)) l.
Proof. induction l as [|x l IH]; simpl; [done|]. destruct (p x); simpl; auto. Qed.
