(* ===== verification/InternalKey.v ===== *)
(** [storage/internal_key.rs]: user keys tagged with a commit sequence number
    and a put/delete tag, their order, and what a sorted list of such entries
    makes visible to a snapshot. *)

From Stdlib Require Import Strings.Byte Sorted ZArith Lia.
From stdpp Require Import base list sorting.
From S2P Require Import Prelude OrdMap.

Open Scope Z_scope.

Definition PUT_TAG : byte := Byte.x00.
Definition DELETE_TAG : byte := Byte.x02.

Record InternalKey := mkInternalKey {
  user_key : bytes;
  seq : Z;
  tag : byte;
}.

(** [InternalKey::seek] *)
Definition seek (user_key : bytes) (snapshot_seq : Z) : InternalKey :=
  mkInternalKey user_key snapshot_seq PUT_TAG.

(** [InternalKey::is_delete] *)
Definition is_delete (k : InternalKey) : bool := byte_eqb (tag k) DELETE_TAG.

Definition then_with (c : comparison) (d : comparison) : comparison :=
  match c with Eq => d | _ => c end.

(** [impl Ord for InternalKey]: user key ascending, then seq descending, then tag. *)
Definition ikey_cmp (a b : InternalKey) : comparison :=
  then_with (bytes_cmp (user_key a) (user_key b))
    (then_with (Z.compare (seq b) (seq a))
       (Z.compare (Z_of_byte (tag a)) (Z_of_byte (tag b)))).

Lemma ikey_cmp_eq (a b : InternalKey) : ikey_cmp a b = Eq <-> a = b.
Proof.
  unfold ikey_cmp, then_with. destruct a as [ka sa ta], b as [kb sb tb]; simpl.
  destruct (bytes_cmp ka kb) eqn:E1.
  - apply bytes_cmp_eq in E1 as ->.
    destruct (Z.compare_spec sb sa) as [->|H|H].
    + rewrite Z.compare_eq_iff. split; [intros ->%Z_of_byte_inj; done | congruence].
    + split; [done | intros [= ]; lia].
    + split; [done | intros [= ]; lia].
  - split; [done | intros [= -> -> ->]]. by rewrite (proj2 (bytes_cmp_eq kb kb)) in E1.
  - split; [done | intros [= -> -> ->]]. by rewrite (proj2 (bytes_cmp_eq kb kb)) in E1.
Qed.

Lemma ikey_cmp_antisym (a b : InternalKey) : ikey_cmp b a = CompOpp (ikey_cmp a b).
Proof.
  unfold ikey_cmp, then_with. rewrite bytes_cmp_antisym.
  destruct (bytes_cmp (user_key a) (user_key b)); simpl; try done.
  rewrite (Z.compare_antisym (seq b)). destruct (seq b ?= seq a); simpl; try done.
  by rewrite Z.compare_antisym.
Qed.

Lemma ikey_cmp_trans (a b c : InternalKey) :
  ikey_cmp a b = Lt -> ikey_cmp b c = Lt -> ikey_cmp a c = Lt.
Proof.
  unfold ikey_cmp, then_with.
  destruct (bytes_cmp (user_key a) (user_key b)) eqn:E1; try done.
  - apply bytes_cmp_eq in E1 as ->.
    destruct (bytes_cmp (user_key b) (user_key c)) eqn:E2; try done.
    destruct (Z.compare_spec (seq b) (seq a)); try done;
    destruct (Z.compare_spec (seq c) (seq b)); try done;
    destruct (Z.compare_spec (seq c) (seq a)); try lia; try done;
    rewrite !Z.compare_lt_iff; lia.
  - intros _. destruct (bytes_cmp (user_key b) (user_key c)) eqn:E2; try done.
    + apply bytes_cmp_eq in E2 as <-. by rewrite E1.
    + by rewrite (bytes_cmp_trans _ _ _ E1 E2).
Qed.

#[export] Instance ikey_ord : Ord InternalKey := {|
  cmp := ikey_cmp;
  cmp_eq := ikey_cmp_eq;
  cmp_antisym := ikey_cmp_antisym;
  cmp_lt_trans := ikey_cmp_trans;
|}.

(** The order seen through its fields. *)
Lemma ikey_lt_iff (a b : InternalKey) :
  lt_cmp a b <->
  lt_cmp (user_key a) (user_key b)
  \/ user_key a = user_key b /\ (seq b < seq a
     \/ seq a = seq b /\ Z_of_byte (tag a) < Z_of_byte (tag b)).
Proof.
  unfold lt_cmp; simpl. unfold ikey_cmp, then_with.
  destruct (bytes_cmp (user_key a) (user_key b)) eqn:E.
  - apply bytes_cmp_eq in E. rewrite E.
    destruct (Z.compare_spec (seq b) (seq a)) as [H|H|H].
    + rewrite Z.compare_lt_iff. intuition (try congruence; try lia).
    + intuition (try congruence; try lia).
    + split; [done|]. intros [?|[_ [?|[? ?]]]]; [done | lia | lia].
  - intuition.
  - split; [done|]. intros [?|[Heq _]]; [done|].
    apply bytes_cmp_eq in Heq. congruence.
Qed.

(** ** Versions and visibility *)

Abbreviation entry := (InternalKey * bytes)%type.

Definition ekey (e : entry) : bytes := user_key (fst e).
Definition eseq (e : entry) : Z := seq (fst e).

(** The value an entry stands for: [None] is a tombstone. *)
Definition evalue (e : entry) : option bytes :=
  if is_delete (fst e) then None else Some (snd e).

(** [e] is a version of [k] that a snapshot at [s] may see. *)
Definition in_view (k : bytes) (s : Z) (e : entry) : bool :=
  keqb (ekey e) k && (eseq e <=? s).

Lemma in_view_true (k : bytes) (s : Z) (e : entry) :
  in_view k s e = true <-> ekey e = k /\ eseq e <= s.
Proof. unfold in_view. rewrite andb_true_iff, keqb_true, Z.leb_le. done. Qed.

(** The entry a snapshot resolves [k] to, read off a list in key order. *)
Definition resolve (es : list entry) (k : bytes) (s : Z) : option entry :=
  List.find (in_view k s) es.

Definition visible (es : list entry) (k : bytes) (s : Z) : option (option bytes) :=
  evalue <$> resolve es k s.

(** [e] is the newest version of [k] at or below [s] among those satisfying [P]. *)
Definition newest (P : entry -> Prop) (k : bytes) (s : Z) (e : entry) : Prop :=
  P e /\ ekey e = k /\ eseq e <= s
  /\ forall e', P e' -> ekey e' = k -> eseq e' <= s -> eseq e' <= eseq e.

(** No two entries share a user key and a sequence number. *)
Definition uniq_versions (es : list entry) : Prop :=
  forall e e', In e es -> In e' es -> ekey e = ekey e' -> eseq e = eseq e' -> e = e'.

Lemma resolve_None (es : list entry) (k : bytes) (s : Z) (e : entry) :
  resolve es k s = None -> In e es -> ekey e = k -> s < eseq e.
Proof.
  intros Hf Hin Hk. eapply List.find_none in Hf; [|exact Hin].
  unfold in_view in Hf. rewrite (proj2 (keqb_true _ _)) in Hf by done. simpl in Hf. lia.
Qed.

Lemma newest_unique (P : entry -> Prop) (es : list entry) k s e e' :
  uniq_versions es -> (forall x, P x -> In x es) ->
  newest P k s e -> newest P k s e' -> e = e'.
Proof.
  intros Hu Hin (H1 & H2 & H3 & H4) (G1 & G2 & G3 & G4).
  apply Hu; auto; [congruence|]. specialize (H4 e'). specialize (G4 e).
  assert (eseq e' <= eseq e) by auto. assert (eseq e <= eseq e') by auto. lia.
Qed.

(** Entries in key order, as tables hold them; equal keys may repeat. *)
Definition ikey_le (a b : entry) : Prop := cmp (fst a) (fst b) <> Gt.
Definition ikey_sorted (es : list entry) : Prop := StronglySorted ikey_le es.

Lemma ikey_le_iff (a b : entry) : ikey_le a b <-> lt_cmp (fst a) (fst b) \/ fst a = fst b.
Proof.
  unfold ikey_le, lt_cmp. rewrite <- (cmp_eq (fst a) (fst b)).
  destruct (cmp (fst a) (fst b)); intuition congruence.
Qed.

Lemma ikey_sorted_cons (e : entry) (es : list entry) :
  ikey_sorted (e :: es) <-> (forall x, In x es -> ikey_le e x) /\ ikey_sorted es.
Proof.
  unfold ikey_sorted. rewrite StronglySorted_cons, Forall_forall.
  by setoid_rewrite list_elem_of_In.
Qed.

Lemma om_sorted_ikey (es : list entry) : om_sorted es -> ikey_sorted es.
Proof.
  apply StronglySorted_weaken. intros a b H. apply ikey_le_iff. by left.
Qed.

(** User keys ascend along the list. *)
Lemma ikey_le_ekey (a b : entry) : ikey_le a b -> ~ lt_cmp (ekey b) (ekey a).
Proof.
  intros [[Hlt|[Heq _]]%ikey_lt_iff|Heq]%ikey_le_iff Hgt; unfold ekey in *.
  - exact (lt_cmp_irrefl _ (transitivity Hlt Hgt)).
  - rewrite Heq in Hgt. by apply lt_cmp_irrefl in Hgt.
  - rewrite Heq in Hgt. by apply lt_cmp_irrefl in Hgt.
Qed.

(** A seek lands on the entry the snapshot resolves to, or past the key. *)
Lemma seek_resolves (es : list entry) (k : bytes) (s : Z) :
  ikey_sorted es ->
  resolve es k s =
    match om_lower (seek k s) es with
    | Some e => if keqb (ekey e) k then Some e else None
    | None => None
    end.
Proof.
  unfold resolve, om_lower. induction es as [|x es IH]; intros Hs; simpl; [done|].
  apply ikey_sorted_cons in Hs as [Hall Hs].
  unfold in_view at 1. unfold ikey_cmp, then_with. simpl. fold (ekey x) (eseq x).
  destruct (bytes_cmp (ekey x) k) eqn:E.
  - apply bytes_cmp_eq in E. assert (keqb (ekey x) k = true) as Hkx by by apply keqb_true.
    rewrite Hkx. simpl.
    destruct (Z.compare_spec s (eseq x)) as [Hc|Hc|Hc].
    + rewrite (proj2 (Z.leb_le _ _)) by lia.
      destruct (Z_of_byte (tag (fst x)) ?= Z_of_byte PUT_TAG) eqn:F; rewrite ?Hkx; [done| |done].
      rewrite Z.compare_lt_iff in F. pose proof (Z_of_byte_range (tag (fst x))).
      change (Z_of_byte PUT_TAG) with 0 in F. lia.
    + rewrite (proj2 (Z.leb_gt _ _)) by lia. auto.
    + rewrite (proj2 (Z.leb_le _ _)) by lia. by rewrite Hkx.
  - unfold keqb at 1. simpl. rewrite E. simpl. auto.
  - unfold keqb at 1 2. simpl. rewrite E. simpl.
    apply find_None_iff. intros y Hy. specialize (Hall y Hy).
    apply not_true_iff_false. rewrite in_view_true. intros [Hk _].
    apply (ikey_le_ekey _ _ Hall). rewrite Hk. by apply cmp_gt_lt.
Qed.
