(* ===== verification/Versions.v ===== *)
(** Version lists: what a list of entries in read order makes visible to a
    snapshot, independently of how the engine lays the entries out.

    A list is in [version_order] when, of two versions of one key, the newer
    one comes first. Every layer of the engine is such a list, and so is the
    concatenation of its layers, newest first. Lists in version order with the
    same entries answer every read alike, which is what the proofs about
    writing, flushing and recovery rest on; [compacts] is the contract of a
    compaction in the same terms. Layers can also repeat each other's entries,
    when a log is replayed whose batches are in a table already; all that is
    asked of them then is that a read finds the newest version
    ([reads_newest]). *)

From Stdlib Require Import Strings.Byte Sorted ZArith Lia.
From stdpp Require Import base list sorting.
From S2P Require Import Prelude OrdMap InternalKey.

Open Scope Z_scope.

Definition newer_or_same (a b : entry) : Prop :=
  ekey a = ekey b -> eseq b < eseq a \/ b = a.

Definition version_order (l : list entry) : Prop := StronglySorted newer_or_same l.

(** The value a snapshot at [s] reads for [k]: [None] for a tombstone or no version. *)
Definition look (l : list entry) (k : bytes) (s : Z) : option bytes :=
  default None (visible l k s).

(** ** Order *)

Lemma version_order_nil : version_order [].
Proof. constructor. Qed.

Lemma version_order_cons (e : entry) (l : list entry) :
  version_order (e :: l) <-> (forall x, In x l -> newer_or_same e x) /\ version_order l.
Proof.
  unfold version_order. split.
  - intros H. inversion_clear H as [|? ? Hs Hf]. split; [|done].
    rewrite Forall_forall in Hf. intros x Hx. apply Hf. by apply list_elem_of_In.
  - intros [Hf Hs]. constructor; [done|]. apply Forall_forall.
    intros x Hx. apply Hf. by apply list_elem_of_In.
Qed.

Lemma version_order_app (l1 l2 : list entry) :
  version_order (l1 ++ l2) <->
  version_order l1 /\ version_order l2
  /\ forall a b, In a l1 -> In b l2 -> newer_or_same a b.
Proof.
  induction l1 as [|e l1 IH]; simpl.
  - split; [intros H; split_and!; [apply version_order_nil | done | done] | tauto].
  - rewrite !version_order_cons, IH. setoid_rewrite in_app_iff. clear IH.
    split.
    + intros (H1 & H2 & H3 & H4). split_and!; [auto | done | done |].
      intros a b [<-|Ha] Hb; auto.
    + intros ((H1 & H2) & H3 & H4). split_and!; auto.
      intros x [Hx|Hx]; auto.
Qed.

Lemma version_order_uniq (l : list entry) : version_order l -> uniq_versions l.
Proof.
  induction l as [|e l IH]; [intros _ ? ? []|].
  intros (Hall & Hl)%version_order_cons e1 e2 [->|H1] [->|H2] Hk Hs; auto.
  - destruct (Hall _ H2 Hk); [lia | done].
  - symmetry in Hk. destruct (Hall _ H1 Hk); [lia | done].
  - by apply IH.
Qed.

Lemma sorted_version_order (l : list entry) :
  ikey_sorted l -> uniq_versions l -> version_order l.
Proof.
  induction l as [|e l IH]; intros Hs Hu; [apply version_order_nil|].
  apply ikey_sorted_cons in Hs as [Hall Hs]. apply version_order_cons. split.
  - intros x Hx Hk.
    assert (eseq x = eseq e -> x = e) as Heq by (intros; apply Hu; [by right | by left | done | done]).
    specialize (Hall x Hx). apply ikey_le_iff in Hall as [[Hlt|[_ [Hlt|[Hseq _]]]]%ikey_lt_iff|Hf].
    + fold (ekey e) (ekey x) in Hlt. rewrite Hk in Hlt. by apply lt_cmp_irrefl in Hlt.
    + by left.
    + right. by apply Heq.
    + right. apply Heq. unfold eseq. by rewrite Hf.
  - apply IH; [done|]. intros ? ? ? ?. apply Hu; by right.
Qed.

(** ** Resolution *)

Lemma resolve_app (l1 l2 : list entry) (k : bytes) (s : Z) :
  resolve (l1 ++ l2) k s =
    match resolve l1 k s with Some e => Some e | None => resolve l2 k s end.
Proof. apply find_app. Qed.

Lemma visible_app (l1 l2 : list entry) (k : bytes) (s : Z) :
  visible (l1 ++ l2) k s =
    match visible l1 k s with Some r => Some r | None => visible l2 k s end.
Proof. unfold visible. rewrite resolve_app. by destruct (resolve l1 k s). Qed.

Lemma look_app (l1 l2 : list entry) (k : bytes) (s : Z) :
  look (l1 ++ l2) k s =
    match visible l1 k s with Some r => r | None => look l2 k s end.
Proof. unfold look. rewrite visible_app. by destruct (visible l1 k s). Qed.

Lemma resolve_Some_In (l : list entry) (k : bytes) (s : Z) (e : entry) :
  resolve l k s = Some e -> In e l /\ ekey e = k /\ eseq e <= s.
Proof. intros H. apply List.find_some in H as [? ?%in_view_true]. tauto. Qed.

Lemma resolve_None_iff (l : list entry) (k : bytes) (s : Z) :
  resolve l k s = None <-> forall e, In e l -> ekey e = k -> s < eseq e.
Proof.
  split; [intros ? ? ? ?; by eapply resolve_None|].
  intros H. apply find_None_iff. intros e Hin. apply not_true_iff_false.
  rewrite in_view_true. intros [Hk Hle]. specialize (H e Hin Hk). lia.
Qed.

Lemma version_order_resolve (l : list entry) (k : bytes) (s : Z) (e : entry) :
  version_order l -> resolve l k s = Some e -> newest (fun x => In x l) k s e.
Proof.
  unfold resolve. induction l as [|x l IH]; simpl; [done|].
  intros [Hall Hl]%version_order_cons Hf. destruct (in_view k s x) eqn:E.
  - injection Hf as ->. apply in_view_true in E as [<- Hle].
    split_and!; [by left | done | done |].
    intros e' [->|Hin] Hk Hle'; [lia|]. destruct (Hall e' Hin (eq_sym Hk)); [lia | by subst].
  - destruct (IH Hl Hf) as (Hin & Hk & Hle & Hmax). split_and!; [by right | done | done |].
    intros e' [->|Hin'] Hk' Hle'; [|auto].
    assert (in_view k s e' = true) by by apply in_view_true. congruence.
Qed.

Lemma version_order_newest (l : list entry) (k : bytes) (s : Z) (e : entry) :
  version_order l -> newest (fun x => In x l) k s e -> resolve l k s = Some e.
Proof.
  intros Ho Hn. destruct (resolve l k s) as [e'|] eqn:E.
  - f_equal. eapply newest_unique; [by apply version_order_uniq | | |exact Hn]; [done|].
    by apply version_order_resolve.
  - destruct Hn as (Hin & Hk & Hle & _). eapply resolve_None in E; eauto. lia.
Qed.

(** Two lists in version order with the same entries resolve every read alike. *)
Lemma same_entries_resolve (l1 l2 : list entry) (k : bytes) (s : Z) :
  version_order l1 -> version_order l2 -> (forall e, In e l1 <-> In e l2) ->
  resolve l1 k s = resolve l2 k s.
Proof.
  intros H1 H2 Hsame. destruct (resolve l1 k s) as [e|] eqn:E.
  - symmetry. apply version_order_newest; [done|].
    apply version_order_resolve in E as (Hin & Hk & Hle & Hmax); [|done].
    split_and!; [by apply Hsame | done | done |]. intros e' Hin'%Hsame. by apply Hmax.
  - symmetry. apply resolve_None_iff. intros e Hin%Hsame. by eapply resolve_None.
Qed.

Lemma same_entries_look (l1 l2 : list entry) (k : bytes) (s : Z) :
  version_order l1 -> version_order l2 -> (forall e, In e l1 <-> In e l2) ->
  look l1 k s = look l2 k s.
Proof. intros. unfold look, visible. by rewrite (same_entries_resolve l1 l2). Qed.

(** Reordering the front of a list keeps it in version order. *)
Lemma version_order_front (l1 l1' l2 : list entry) :
  version_order l1' -> (forall e, In e l1' -> In e l1) ->
  version_order (l1 ++ l2) -> version_order (l1' ++ l2).
Proof. rewrite !version_order_app. intros ? Hsub (? & ? & ?). split_and!; auto. Qed.

Lemma version_order_back (l1 l2 l2' : list entry) :
  version_order l2' -> (forall e, In e l2' -> In e l2) ->
  version_order (l1 ++ l2) -> version_order (l1 ++ l2').
Proof. rewrite !version_order_app. intros ? Hsub (? & ? & ?). split_and!; auto. Qed.

(** Entries above the snapshot are invisible. *)
Lemma resolve_above (l1 l2 : list entry) (k : bytes) (s : Z) :
  (forall e, In e l1 -> s < eseq e) -> resolve (l1 ++ l2) k s = resolve l2 k s.
Proof.
  intros H. rewrite resolve_app. rewrite (proj2 (resolve_None_iff l1 k s)); auto.
Qed.

Lemma look_above (l1 l2 : list entry) (k : bytes) (s : Z) :
  (forall e, In e l1 -> s < eseq e) -> look (l1 ++ l2) k s = look l2 k s.
Proof. intros H. unfold look, visible. by rewrite resolve_above. Qed.

(** ** Lists whose reads find the newest version *)

Definition reads_newest (l : list entry) : Prop :=
  forall k s e, resolve l k s = Some e -> newest (fun x => In x l) k s e.

Lemma version_order_reads_newest (l : list entry) : version_order l -> reads_newest l.
Proof. intros H k s e. by apply version_order_resolve. Qed.

Lemma reads_newest_resolve (l : list entry) (k : bytes) (s : Z) (e : entry) :
  reads_newest l -> uniq_versions l -> newest (fun x => In x l) k s e -> resolve l k s = Some e.
Proof.
  intros Ho Hu Hn. destruct (resolve l k s) as [e'|] eqn:E.
  - f_equal. eapply newest_unique; [exact Hu | | by apply Ho | exact Hn]. done.
  - destruct Hn as (Hin & Hk & Hle & _). eapply resolve_None in E; eauto. lia.
Qed.

Lemma reads_newest_ext (l l' : list entry) :
  (forall k s, resolve l' k s = resolve l k s) -> (forall x, In x l' <-> In x l) ->
  reads_newest l -> reads_newest l'.
Proof.
  intros Hr Hin H k s e He. rewrite Hr in He. destruct (H k s e He) as (H1 & H2 & H3 & H4).
  split_and!; [by apply Hin | done | done |]. intros x Hx%Hin. by apply H4.
Qed.

(** A front layer in front of another: every version of the latter that is newer
    than a version of the former is in the former too. *)
Lemma reads_newest_app (l1 l2 : list entry) :
  reads_newest l1 -> reads_newest l2 ->
  (forall a b, In a l1 -> In b l2 -> ekey a = ekey b -> eseq a < eseq b -> In b l1) ->
  reads_newest (l1 ++ l2).
Proof.
  intros H1 H2 Hcov k s e. rewrite resolve_app. destruct (resolve l1 k s) as [x|] eqn:E.
  - intros [= ->]. destruct (H1 _ _ _ E) as (Hin & Hk & Hle & Hmax).
    split_and!; [by apply in_app_iff; left | done | done |]. intros y [Hy|Hy]%in_app_iff Hky Hys; [auto|].
    destruct (decide (eseq y <= eseq e)); [done|]. apply Hmax; [|done|done].
    apply (Hcov e); [done | done | congruence | lia].
  - intros (Hin & Hk & Hle & Hmax)%H2. split_and!; [by apply in_app_iff; right | done | done |].
    intros y [Hy|Hy]%in_app_iff Hky Hys; [|auto]. eapply resolve_None in E; eauto. lia.
Qed.

(** A smaller back layer. *)
Lemma reads_newest_back (l1 l2 l2' : list entry) :
  reads_newest (l1 ++ l2) -> reads_newest l2' -> (forall x, In x l2' -> In x l2) ->
  reads_newest (l1 ++ l2').
Proof.
  intros H H2 Hsub k s e. specialize (H k s e). rewrite !resolve_app in *.
  destruct (resolve l1 k s) as [x|] eqn:E.
  - intros Hx. destruct (H Hx) as (Hin & Hk & Hle & Hmax). injection Hx as ->.
    apply resolve_Some_In in E as (E1 & _). split_and!; [by apply in_app_iff; left | done | done |].
    intros y Hy. apply Hmax. rewrite in_app_iff in *. intuition auto.
  - intros (Hin & Hk & Hle & Hmax)%H2. split_and!; [by apply in_app_iff; right | done | done |].
    intros y [Hy|Hy]%in_app_iff Hky Hys; [|auto]. eapply resolve_None in E; eauto. lia.
Qed.

(** ** Parts of a list *)

Lemma version_order_filter (f : entry -> bool) (l : list entry) :
  version_order l -> version_order (List.filter f l).
Proof.
  induction l as [|x l IH]; [done|]. intros [Hall Hl]%version_order_cons. simpl.
  destruct (f x); [|auto]. apply version_order_cons. split; [|auto].
  intros y [Hy _]%filter_In. auto.
Qed.

(** Filters that agree on the versions a read can see give it the same result. *)
Lemma resolve_filter_ext (f g : entry -> bool) (l : list entry) (k : bytes) (s : Z) :
  (forall x, In x l -> ekey x = k -> eseq x <= s -> f x = g x) ->
  resolve (List.filter f l) k s = resolve (List.filter g l) k s.
Proof.
  induction l as [|x l IH]; intros H; [done|]. simpl.
  assert (resolve (List.filter f l) k s = resolve (List.filter g l) k s) as Hl
    by (apply IH; intros; apply H; [by right | done | done]).
  destruct (in_view k s x) eqn:E.
  - pose proof E as [Hk Hs]%in_view_true. rewrite (H x (or_introl eq_refl) Hk Hs).
    destruct (g x); [|done]. unfold resolve. simpl. by rewrite E.
  - unfold resolve in *. destruct (f x), (g x); simpl; rewrite ?E; done.
Qed.

(** The versions below a commit number. *)
Definition below (b : Z) (l : list entry) : list entry := List.filter (fun x => eseq x <? b) l.

Lemma below_In (b : Z) (l : list entry) (x : entry) : In x (below b l) <-> In x l /\ eseq x < b.
Proof. unfold below. by rewrite filter_In, Z.ltb_lt. Qed.

Lemma below_app (b : Z) (l1 l2 : list entry) : below b (l1 ++ l2) = below b l1 ++ below b l2.
Proof. apply List.filter_app. Qed.

Lemma filter_all {A : Type} (f : A -> bool) (l : list A) : (forall x, In x l -> f x = true) -> List.filter f l = l.
Proof.
  induction l as [|x l IH]; intros H; [done|]. simpl. rewrite H by by left. f_equal. apply IH. auto using in_cons.
Qed.

Lemma below_all (b : Z) (l : list entry) : (forall x, In x l -> eseq x < b) -> below b l = l.
Proof. intros H. apply filter_all. intros x Hx%H. by apply Z.ltb_lt. Qed.

Lemma below_none (b : Z) (l : list entry) : (forall x, In x l -> b <= eseq x) -> below b l = [].
Proof.
  induction l as [|x l IH]; intros H; [done|]. simpl. rewrite (proj2 (Z.ltb_ge _ _)) by (apply H; by left).
  apply IH. auto using in_cons.
Qed.

(** What is left of a list when the versions from number [a] up to, and without,
    number [b] are taken out. *)
Definition without (a b : Z) (l : list entry) : list entry :=
  List.filter (fun x => (eseq x <? a) || (b <=? eseq x)) l.

Lemma without_In (a b : Z) (l : list entry) (x : entry) :
  In x (without a b l) <-> In x l /\ (eseq x < a \/ b <= eseq x).
Proof. unfold without. by rewrite filter_In, orb_true_iff, Z.ltb_lt, Z.leb_le. Qed.

Lemma without_none (a b : Z) (l : list entry) : b <= a -> without a b l = l.
Proof. intros H. apply filter_all. intros x _. rewrite orb_true_iff, Z.ltb_lt, Z.leb_le. lia. Qed.

Lemma below_without (a b : Z) (l : list entry) : a <= b -> below a (without a b l) = below a l.
Proof.
  intros H. unfold below, without. induction l as [|x l IH]; [done|]. simpl.
  destruct (Z.ltb_spec (eseq x) a); simpl.
  - rewrite (proj2 (Z.ltb_lt _ _)) by done. by rewrite IH.
  - destruct (b <=? eseq x); simpl; [|done]. by rewrite (proj2 (Z.ltb_ge _ _)) by done.
Qed.

(** A layer [B] of all versions from [b] on in front of a layer that reads like
    the versions below [a] reads like both together. *)
Lemma layers_look (a b : Z) (log B T : list entry) (k : bytes) (s : Z) :
  version_order log -> version_order B -> (forall x, In x B <-> In x log /\ b <= eseq x) ->
  look T k s = look (below a log) k s ->
  look (B ++ T) k s = look (without a b log) k s.
Proof.
  intros Hlog HB Hin HT. rewrite look_app. unfold visible.
  destruct (resolve B k s) as [e|] eqn:E; simpl.
  - apply version_order_resolve in E as (H1 & H2 & H3 & H4); [|done]. unfold look, visible.
    apply Hin in H1 as [H1 Hb]. rewrite (version_order_newest (without a b log) k s e); [done | |].
    + by apply version_order_filter.
    + split_and!; [apply without_In; auto | done | done |]. intros x [Hx _]%without_In Hk Hs.
      destruct (decide (b <= eseq x)); [|lia]. apply H4; [by apply Hin | done | done].
  - rewrite HT. unfold look, visible, below, without. do 2 f_equal. apply resolve_filter_ext.
    intros x Hx Hk Hs. destruct (Z.leb_spec b (eseq x)); [|by rewrite orb_false_r].
    eapply resolve_None in E; [|by apply Hin|done]. lia.
Qed.

(** ** The contract of a compaction *)

(** [C] keeps of [T], for a watermark [w]: every version at or above [w], and
    per key the newest version below it, unless no snapshot is open
    ([w = U64_MAX]) and that version is a tombstone. *)
Record compacts (w : Z) (T C : list entry) : Prop := {
  compacts_sub : forall e, In e C -> In e T;
  compacts_above : forall e, In e T -> w <= eseq e -> In e C;
  compacts_below : forall k e, newest (fun x => In x T /\ eseq x < w) k w e ->
    In e C \/ (is_delete (fst e) = true
               /\ forall e', In e' C -> ekey e' = k -> w <= eseq e');
}.

(** A compaction is invisible to every snapshot at or above the watermark, and
    to every snapshot at or above all the versions it merged. *)
Lemma compacts_look (w : Z) (T C : list entry) (k : bytes) (s : Z) :
  reads_newest T -> version_order C -> compacts w T C ->
  (w <= s \/ forall e, In e T -> eseq e <= s) ->
  look C k s = look T k s.
Proof.
  intros HT HC [Hsub Habove Hbelow] Hs. unfold look, visible.
  destruct (resolve T k s) as [e|] eqn:E; cycle 1.
  { rewrite (proj2 (resolve_None_iff C k s)); [done|].
    intros e Hin Hk. eapply resolve_None in E; eauto. }
  apply HT in E as (Hin & Hk & Hle & Hmax).
  assert (In e C -> resolve C k s = Some e) as Hkeep.
  { intros HinC. apply version_order_newest; [done|]. split_and!; auto. }
  destruct (decide (w <= eseq e)) as [Hw|Hw]; [by rewrite Hkeep by auto|].
  destruct (Hbelow k e) as [HinC|[Hdel Hnone]]; [| by rewrite Hkeep |].
  - split_and!; [done | lia | done | lia |].
    intros e' [Hin' Hlt] Hk' _. apply Hmax; auto. destruct Hs as [Hs|Hs]; [lia | auto].
  - rewrite (proj2 (resolve_None_iff C k s)); simpl.
    + unfold evalue. by rewrite Hdel.
    + intros e' Hin' Hk'. specialize (Hnone e' Hin' Hk').
      destruct (decide (s < eseq e')); [done|]. specialize (Hmax e' (Hsub _ Hin') Hk'). lia.
Qed.
