(* ===== verification/Utf8.v ===== *)
(** UTF-8 validation and lossy decoding of the Rust standard library
    ([str::from_utf8], [String::from_utf8_lossy]). A [String] is the list of
    its UTF-8 bytes, carried as a Rocq [string]. *)

From Stdlib Require Import Strings.Byte Strings.String ZArith Lia.
From stdpp Require Import base list strings.
From S2P Require Import Prelude.

Open Scope Z_scope.

(** [s.as_bytes()] *)
Definition as_bytes (s : string) : bytes := list_byte_of_string s.

Lemma as_bytes_inj (a b : string) : as_bytes a = as_bytes b -> a = b.
Proof.
  unfold as_bytes. intros H.
  rewrite <- (string_of_list_byte_of_string a), H. apply string_of_list_byte_of_string.
Qed.

Definition in_range (lo hi : Z) (b : byte) : bool :=
  (lo <=? Z_of_byte b) && (Z_of_byte b <=? hi).

(** Bytes past the end read as 0, which continues no sequence. *)
Definition byte_at (i : nat) (bs : bytes) : byte := nth i bs Byte.x00.

(** The first sequence of [bs]: whether it is well formed, and its length
    (for an ill-formed one, the length of its maximal ill-formed prefix). *)
Definition utf8_head (bs : bytes) : bool * nat :=
  let b0 := byte_at 0 bs in
  let cont i := in_range 128 191 (byte_at i bs) in
  let b1 := byte_at 1 bs in
  if in_range 0 127 b0 then (true, 1%nat)
  else if in_range 194 223 b0 then
    if cont 1%nat then (true, 2%nat) else (false, 1%nat)
  else if in_range 224 239 b0 then
    let second_ok :=
      if Z_of_byte b0 =? 224 then in_range 160 191 b1
      else if Z_of_byte b0 =? 237 then in_range 128 159 b1
      else cont 1%nat in
    if negb second_ok then (false, 1%nat)
    else if cont 2%nat then (true, 3%nat) else (false, 2%nat)
  else if in_range 240 244 b0 then
    let second_ok :=
      if Z_of_byte b0 =? 240 then in_range 144 191 b1
      else if Z_of_byte b0 =? 244 then in_range 128 143 b1
      else cont 1%nat in
    if negb second_ok then (false, 1%nat)
    else if negb (cont 2%nat) then (false, 2%nat)
    else if cont 3%nat then (true, 4%nat) else (false, 3%nat)
  else (false, 1%nat).

(** U+FFFD, the replacement character. *)
Definition REPLACEMENT : bytes := [Byte.xef; Byte.xbf; Byte.xbd].

Fixpoint utf8_valid_fuel (fuel : nat) (bs : bytes) : bool :=
  match fuel, bs with
  | _, [] => true
  | O, _ => false
  | S fuel', _ =>
      let '(ok, n) := utf8_head bs in
      ok && utf8_valid_fuel fuel' (drop n bs)
  end.

(** [std::str::from_utf8(bs).is_ok()]; each sequence takes at least one byte,
    so the length bounds the number of sequences. *)
Definition utf8_valid (bs : bytes) : bool := utf8_valid_fuel (length bs) bs.

Fixpoint utf8_lossy_fuel (fuel : nat) (bs : bytes) : bytes :=
  match fuel, bs with
  | _, [] => []
  | O, _ => []
  | S fuel', _ =>
      let '(ok, n) := utf8_head bs in
      (if ok then take n bs else REPLACEMENT) ++ utf8_lossy_fuel fuel' (drop n bs)
  end.

Definition from_utf8_lossy (bs : bytes) : string :=
  string_of_list_byte (utf8_lossy_fuel (length bs) bs).

(** [std::str::from_utf8(bs).ok()] *)
Definition from_utf8 (bs : bytes) : option string :=
  if utf8_valid bs then Some (string_of_list_byte bs) else None.

(** A [String] of the program holds valid UTF-8. *)
Definition is_string (s : string) : Prop := utf8_valid (as_bytes s) = true.

Lemma utf8_lossy_valid (fuel : nat) (bs : bytes) :
  utf8_valid_fuel fuel bs = true -> utf8_lossy_fuel fuel bs = bs.
Proof.
  revert bs. induction fuel as [|fuel IH]; intros [|b bs]; simpl; try done.
  destruct (utf8_head (b :: bs)) as [ok n].
  rewrite andb_true_iff. intros [-> H]. rewrite (IH _ H). apply take_drop.
Qed.

Lemma from_utf8_lossy_as_bytes (s : string) :
  is_string s -> from_utf8_lossy (as_bytes s) = s.
Proof.
  intros H. unfold from_utf8_lossy. rewrite utf8_lossy_valid by exact H.
  apply string_of_list_byte_of_string.
Qed.

Lemma from_utf8_as_bytes (s : string) : is_string s -> from_utf8 (as_bytes s) = Some s.
Proof.
  unfold is_string, from_utf8. intros ->. by rewrite string_of_list_byte_of_string.
Qed.

Lemma from_utf8_Some (bs : bytes) (s : string) : from_utf8 bs = Some s -> as_bytes s = bs.
Proof.
  unfold from_utf8. destruct (utf8_valid bs); [|done]. intros [= <-].
  apply list_byte_of_string_of_list_byte.
Qed.

(** ** Concatenation *)

Ltac destruct_ifs :=
  repeat match goal with
  | H : context [if ?b then _ else _] |- _ => destruct b eqn:?; simpl in H
  end.

Lemma utf8_head_le (bs : bytes) (ok : bool) (n : nat) : utf8_head bs = (ok, n) -> (1 <= n <= 4)%nat.
Proof. unfold utf8_head. intros H. destruct_ifs; injection H; intros; subst; lia. Qed.

(** A head that is well formed does not look past the bytes it takes. *)
Lemma utf8_head_app (bs tl : bytes) (n : nat) :
  bs <> [] -> utf8_head bs = (true, n) -> (n <= length bs)%nat /\ utf8_head (bs ++ tl) = (true, n).
Proof.
  intros Hne H. pose proof (utf8_head_le _ _ _ H) as Hn.
  destruct bs as [|b0 [|b1 [|b2 [|b3 rest]]]]; [done|..|split; [cbn [length]; lia | exact H]];
    unfold utf8_head in *; cbn [app byte_at nth length] in *;
    change (in_range 128 191 Byte.x00) with false in H;
    change (in_range 160 191 Byte.x00) with false in H; change (in_range 128 159 Byte.x00) with false in H;
    change (in_range 144 191 Byte.x00) with false in H; change (in_range 128 143 Byte.x00) with false in H;
    destruct_ifs; try discriminate; injection H as <-;
    repeat match goal with Hb : ?b = _ |- context [?b] => rewrite Hb end; cbn [negb]; split; (lia || done).
Qed.

Lemma utf8_valid_fuel_mono (f1 f2 : nat) (bs : bytes) :
  (f1 <= f2)%nat -> utf8_valid_fuel f1 bs = true -> utf8_valid_fuel f2 bs = true.
Proof.
  revert f2 bs. induction f1 as [|f1 IH]; intros [|f2] [|b bs] Hle; cbn [utf8_valid_fuel]; try done; [lia|].
  destruct (utf8_head (b :: bs)) as [ok n]. rewrite !andb_true_iff. intros [Hok Hv]. split; [done|]. apply IH; [lia | done].
Qed.

Lemma utf8_valid_fuel_app (f1 f2 : nat) (a b : bytes) :
  utf8_valid_fuel f1 a = true -> utf8_valid_fuel f2 b = true -> utf8_valid_fuel (f1 + f2) (a ++ b) = true.
Proof.
  revert a. induction f1 as [|f1 IH]; intros [|x a] Ha Hb; try done.
  - cbn [app]. eapply utf8_valid_fuel_mono; [|done]. lia.
  - cbn [utf8_valid_fuel] in Ha. destruct (utf8_head (x :: a)) as [ok n] eqn:E. apply andb_true_iff in Ha as [-> Ha].
    destruct (utf8_head_app (x :: a) b n ltac:(done) E) as [Hn Happ]. cbn [app Nat.add utf8_valid_fuel] in *.
    rewrite Happ. cbn [andb]. change (x :: a ++ b) with ((x :: a) ++ b). rewrite drop_app_le by done. by apply IH.
Qed.

Lemma utf8_valid_app (a b : bytes) : utf8_valid a = true -> utf8_valid b = true -> utf8_valid (a ++ b) = true.
Proof. unfold utf8_valid. rewrite length_app. apply utf8_valid_fuel_app. Qed.

(** ASCII text is valid. *)
Lemma utf8_ascii (bs : bytes) : Forall (fun b => Z_of_byte b < 128) bs -> utf8_valid bs = true.
Proof.
  unfold utf8_valid. induction 1 as [|b bs Hb _ IH]; [done|]. cbn [length utf8_valid_fuel].
  unfold utf8_head, in_range. cbn [byte_at nth]. pose proof (Z_of_byte_range b).
  rewrite (proj2 (Z.leb_le 0 _)), (proj2 (Z.leb_le _ 127)) by lia. done.
Qed.
