(* ===== verification/Wal.v ===== *)
(** [storage/wal.rs] and the portable backend of [storage/io_backend.rs]: the
    batch-framed write-ahead log, its on-disk format, appends and replay.

    The log file is a list of bytes. The read position [pos] of [replay] and
    [parse_record] is carried as the unread suffix [&buf[pos..]]: a test
    [pos + n > buf.len()] is [zlen rest <? n].

    Writes to the file can fail. What becomes of the coming ones is a plan that
    is part of the backend's state ([io_faults]): an append that fails leaves an
    arbitrary prefix of its buffer behind the offset, which stays where it was;
    a crash during an append is such a failure and then the crash. A truncation
    fails before or after the file was cut. Opening and reading the file succeed.
    Memory is only taken to run out where the amount is read from the file: the
    allocator is a parameter there ([Allocator]), and a refusal aborts the
    process. *)

From Stdlib Require Import Strings.Byte Strings.String Sorted ZArith Lia.
From stdpp Require Import base list strings.
From S2P Require Import Prelude OrdMap Utf8.

Open Scope Z_scope.

Definition BATCH_MARKER : byte := Byte.xff.

Record WalRecord := mkWalRecord {
  w_seq : Z;
  w_table : string;
  w_key : bytes;
  w_value : bytes;
  w_type : byte;
}.

(** One element of the slice [append_batch] takes: table, key, value, type. *)
Abbreviation wal_entry := (string * bytes * bytes * byte)%type.

(** A commit number and the entries committed under it. *)
Abbreviation batch := (Z * list wal_entry)%type.

(** ** [StdWalIo] *)

(** [io_faults]: of the coming calls, in order, [None] succeeds, and [Some n]
    fails after [n] bytes of an append, or before ([n = 0]) or after a truncation
    cut the file. Past its end every call succeeds. *)
Record StdWalIo := mkStdWalIo { io_file : bytes; io_offset : Z; io_faults : list (option nat) }.

(** Writing [buf] at [pos], extending the file (with zeroes if it is shorter);
    writing nothing leaves the file alone. *)
Definition write_at (file : bytes) (pos : Z) (buf : bytes) : bytes :=
  match buf with
  | [] => file
  | _ =>
      take (Z.to_nat pos) file
      ++ replicate (Z.to_nat (pos - zlen file)) Byte.x00
      ++ buf ++ drop (Z.to_nat (pos + zlen buf)) file
  end.

Definition io_append (io : StdWalIo) (buf : bytes) : StdWalIo * Result unit :=
  match io_faults io with
  | Some n :: faults =>
      (mkStdWalIo (write_at (io_file io) (io_offset io) (take n buf)) (io_offset io) faults,
       Err "wal append failed"%string)
  | faults =>
      (mkStdWalIo (write_at (io_file io) (io_offset io) buf) (io_offset io + zlen buf) (tail faults), Ok tt)
  end.

Definition io_truncate (io : StdWalIo) : StdWalIo * Result unit :=
  match io_faults io with
  | Some n :: faults =>
      (mkStdWalIo (match n with O => io_file io | _ => [] end) (io_offset io) faults,
       Err "truncating wal file"%string)
  | faults => (mkStdWalIo [] 0 (tail faults), Ok tt)
  end.

Definition io_len (io : StdWalIo) : Z := io_offset io.

(** ** [Wal] *)

Record Wal := mkWal { wal_io : StdWalIo; wal_bytes_written : Z }.

(** [Wal::open]: the backend appends at the current end of the file. *)
Definition wal_open (file : bytes) : Wal :=
  mkWal (mkStdWalIo file (zlen file) []) (zlen file).

Definition encode_record (e : wal_entry) : bytes :=
  let '(table, key, value, record_type) := e in
  let table_bytes := as_bytes table in
  u32_to_be (zlen table_bytes) ++ table_bytes
  ++ u32_to_be (zlen key) ++ key
  ++ u32_to_be (zlen value) ++ value
  ++ [record_type].

Definition encode_records (es : list wal_entry) : bytes := concat (map encode_record es).

Definition encode_batch (commit_seq : Z) (entries : list wal_entry) : bytes :=
  [BATCH_MARKER] ++ u64_to_be commit_seq ++ u32_to_be (zlen entries)
  ++ encode_records entries.

Definition record_of (commit_seq : Z) (e : wal_entry) : WalRecord :=
  let '(table, key, value, record_type) := e in
  mkWalRecord commit_seq table key value record_type.

(** [Wal::append_batch] *)
Definition append_batch (commit_seq : Z) (entries : list wal_entry) (w : Wal)
    : Wal * Result (list WalRecord) :=
  let buf := encode_batch commit_seq entries in
  match io_append (wal_io w) buf with
  | (io, Err e) => (mkWal io (wal_bytes_written w), Err e)
  | (io, Ok _) =>
      (mkWal io (wal_bytes_written w + zlen buf), Ok (map (record_of commit_seq) entries))
  end.

Definition read_all_bytes (w : Wal) : bytes := io_file (wal_io w).

(** [Wal::truncate] *)
Definition wal_truncate (w : Wal) : Wal * Result unit :=
  match io_truncate (wal_io w) with
  | (io, Err e) => (mkWal io (wal_bytes_written w), Err e)
  | (io, Ok _) => (mkWal io 0, Ok tt)
  end.

(** ** Replay *)

Definition take_n (n : Z) (rest : bytes) : option (bytes * bytes) :=
  if zlen rest <? n then None
  else Some (take (Z.to_nat n) rest, drop (Z.to_nat n) rest).

Definition take_u32 (rest : bytes) : option (Z * bytes) :=
  match take_n 4 rest with
  | None => None
  | Some (b, rest') => Some (from_be b, rest')
  end.

(** [Wal::parse_record] *)
Definition parse_record (rest : bytes) (seq : Z) : option (WalRecord * bytes) :=
  match take_u32 rest with
  | None => None
  | Some (table_len, rest) =>
  match take_n table_len rest with
  | None => None
  | Some (table, rest) =>
  match take_u32 rest with
  | None => None
  | Some (key_len, rest) =>
  match take_n key_len rest with
  | None => None
  | Some (key, rest) =>
  match take_u32 rest with
  | None => None
  | Some (value_len, rest) =>
  if zlen rest <? value_len + 1 then None else
  match take_n value_len rest with
  | None => None
  | Some (value, rest) =>
  match rest with
  | [] => None
  | record_type :: rest =>
      Some (mkWalRecord seq (from_utf8_lossy table) key value record_type, rest)
  end end end end end end end.

(** [for _ in 0..count { parse_record .. }] *)
Fixpoint parse_records (count : nat) (rest : bytes) (seq : Z)
    : option (list WalRecord * bytes) :=
  match count with
  | O => Some ([], rest)
  | S count' =>
      match parse_record rest seq with
      | None => None
      | Some (r, rest) =>
          match parse_records count' rest seq with
          | None => None
          | Some (rs, rest) => Some (r :: rs, rest)
          end
      end
  end.

(** Whether [Vec::with_capacity(count)] gets room for [count] records. *)
Class Allocator := { grants : Z -> bool }.

Section Replay.
  Context {al : Allocator}.

(** The [while] loop of [replay]: the highest sequence number seen and the
    records handed to [f], in order; [None] when the allocator refuses the room
    for the records a batch header announces, which aborts the process. Every
    completed iteration consumes at least the 13 bytes of a batch header. *)
Fixpoint replay_loop (fuel : nat) (rest : bytes) (max_seq : Z) : option (Z * list WalRecord) :=
  match fuel with
  | O => Some (max_seq, [])
  | S fuel' =>
      if (zlen rest <? 1 + 8 + 4)
         || negb (byte_eqb (byte_at 0 rest) BATCH_MARKER) then Some (max_seq, [])
      else
        let commit_seq := from_be (slice rest 1 8) in
        let count := from_be (slice rest 9 4) in
        let max_seq := Z.max max_seq commit_seq in
        if negb (grants count) then None else
        match parse_records (Z.to_nat count) (drop 13 rest) commit_seq with
        | None => Some (max_seq, [])
        | Some (records, rest') =>
            match replay_loop fuel' rest' max_seq with
            | None => None
            | Some (m, rs) => Some (m, records ++ rs)
            end
        end
  end.

(** [Wal::replay] on the bytes of the log file; [None] is an abort. *)
Definition replay_bytes (buf : bytes) : option (Result (Z * list WalRecord)) :=
  match buf with
  | [] => Some (Ok (0, []))
  | b :: _ =>
      if negb (byte_eqb b BATCH_MARKER)
      then Some (Err "WAL does not start with a batch marker"%string)
      else Ok <$> replay_loop (S (length buf)) buf 0
  end.

Definition replay (w : Wal) : option (Result (Z * list WalRecord)) :=
  replay_bytes (io_file (wal_io w)).

(** ** The format decodes what was encoded *)

Definition entry_ok (e : wal_entry) : Prop :=
  let '(table, key, value, _) := e in
  is_string table /\ zlen (as_bytes table) < 2 ^ 32 /\ zlen key < 2 ^ 32 /\ zlen value < 2 ^ 32.

(** A batch that fits the format, and for whose records there is room. *)
Definition batch_ok (b : batch) : Prop :=
  is_u64 (fst b) /\ zlen (snd b) < 2 ^ 32 /\ Forall entry_ok (snd b) /\ grants (zlen (snd b)) = true.

Definition encode_log (bs : list batch) : bytes :=
  concat (map (fun b => encode_batch (fst b) (snd b)) bs).

Definition log_records (bs : list batch) : list WalRecord :=
  concat (map (fun b => map (record_of (fst b)) (snd b)) bs).

Definition log_max_seq (bs : list batch) (m : Z) : Z :=
  fold_left (fun m b => Z.max m (fst b)) bs m.

Lemma zlen_is_u32 {A : Type} (l : list A) : zlen l < 2 ^ 32 -> is_u32 (zlen l).
Proof. split; [apply zlen_nonneg | done]. Qed.
#[local] Hint Resolve zlen_is_u32 : core.

Lemma take_n_app (a r : bytes) (n : Z) : n = zlen a -> take_n n (a ++ r) = Some (a, r).
Proof.
  intros ->. unfold take_n. rewrite zlen_app.
  rewrite (proj2 (Z.ltb_ge _ _)) by (pose proof (zlen_nonneg r); lia).
  by rewrite take_zlen_app, drop_zlen_app.
Qed.

Lemma take_u32_app (z : Z) (r : bytes) : is_u32 z -> take_u32 (u32_to_be z ++ r) = Some (z, r).
Proof.
  intros H. unfold take_u32. rewrite take_n_app by by rewrite zlen_u32_to_be.
  by rewrite from_u32_to_be.
Qed.

Lemma parse_record_encode (e : wal_entry) (r : bytes) (s : Z) :
  entry_ok e -> parse_record (encode_record e ++ r) s = Some (record_of s e, r).
Proof.
  destruct e as [[[t k] v] ty]. intros (Hs & Ht & Hk & Hv).
  unfold parse_record, encode_record, record_of.
  rewrite <- !app_assoc, take_u32_app by auto. rewrite take_n_app by done.
  rewrite take_u32_app by auto. rewrite take_n_app by done.
  rewrite take_u32_app by auto.
  rewrite (proj2 (Z.ltb_ge _ _)) by (autorewrite with zlen; pose proof (zlen_nonneg r); lia).
  rewrite take_n_app by done. simpl. by rewrite from_utf8_lossy_as_bytes.
Qed.

Lemma parse_records_encode (es : list wal_entry) (r : bytes) (s : Z) :
  Forall entry_ok es ->
  parse_records (length es) (encode_records es ++ r) s = Some (map (record_of s) es, r).
Proof.
  unfold encode_records. induction 1 as [|e es He Hes IH]; simpl; [done|].
  rewrite <- app_assoc, parse_record_encode by done. by rewrite IH.
Qed.

Lemma encode_batch_header (s : Z) (es : list wal_entry) (r : bytes) :
  is_u64 s -> zlen es < 2 ^ 32 ->
  let buf := encode_batch s es ++ r in
  13 <= zlen buf /\ byte_at 0 buf = BATCH_MARKER
  /\ from_be (slice buf 1 8) = s /\ from_be (slice buf 9 4) = zlen es
  /\ drop 13 buf = encode_records es ++ r.
Proof.
  intros Hs Hn. unfold encode_batch. rewrite <- !app_assoc.
  split_and!; [|done| | |].
  - autorewrite with zlen. pose proof (zlen_nonneg r).
    pose proof (zlen_nonneg (encode_records es)). lia.
  - rewrite slice_app_mid by (try rewrite zlen_u64_to_be; done). by apply from_u64_to_be.
  - rewrite (app_assoc [_]), slice_app_mid by (autorewrite with zlen; done).
    by apply from_u32_to_be, zlen_is_u32.
  - rewrite !app_assoc, <- (app_assoc _ (encode_records es)).
    change 13%nat with (length ([BATCH_MARKER] ++ u64_to_be s ++ u32_to_be (zlen es))).
    rewrite <- (app_assoc [_]). apply drop_app_length.
Qed.

Lemma marker_eqb : negb (byte_eqb BATCH_MARKER BATCH_MARKER) = false.
Proof. reflexivity. Qed.

Lemma replay_loop_batch (fuel : nat) (b : batch) (r : bytes) (m : Z) :
  batch_ok b ->
  replay_loop (S fuel) (encode_batch (fst b) (snd b) ++ r) m =
  match replay_loop fuel r (Z.max m (fst b)) with
  | None => None
  | Some (m', rs) => Some (m', map (record_of (fst b)) (snd b) ++ rs)
  end.
Proof.
  intros (Hs & Hn & Hes & Hg).
  destruct (encode_batch_header (fst b) (snd b) r Hs Hn) as (H13 & H0 & Hseq & Hcnt & Hd).
  cbn [replay_loop]. rewrite (proj2 (Z.ltb_ge _ _)) by lia.
  rewrite H0, marker_eqb. cbn [orb].
  rewrite Hseq, Hcnt, Hd, Hg. cbn [negb]. unfold zlen. rewrite Nat2Z.id, parse_records_encode by done. done.
Qed.

Lemma replay_loop_log (bs : list batch) (fuel : nat) (r : bytes) (m : Z) :
  Forall batch_ok bs ->
  replay_loop (length bs + fuel) (encode_log bs ++ r) m =
  match replay_loop fuel r (log_max_seq bs m) with
  | None => None
  | Some (m', rs) => Some (m', log_records bs ++ rs)
  end.
Proof.
  intros H. revert m. induction H as [|b bs Hb Hbs IH]; intros m.
  - simpl. by destruct (replay_loop fuel r m) as [[??]|].
  - change (encode_log (b :: bs)) with (encode_batch (fst b) (snd b) ++ encode_log bs).
    change (length (b :: bs) + fuel)%nat with (S (length bs + fuel)).
    rewrite <- app_assoc, replay_loop_batch, IH by done. simpl.
    destruct (replay_loop fuel r _) as [[m' rs]|]; [|done]. unfold log_records; simpl.
    by rewrite app_assoc.
Qed.

(** ** Parsers only look at what they consume *)

Lemma take_n_mono (n : Z) (rest a b ext : bytes) :
  take_n n rest = Some (a, b) -> take_n n (rest ++ ext) = Some (a, b ++ ext).
Proof.
  unfold take_n. rewrite zlen_app. pose proof (zlen_nonneg ext).
  destruct (Z.ltb_spec (zlen rest) n) as [Hlt|Hge]; [done|].
  rewrite (proj2 (Z.ltb_ge _ _)) by lia. intros [= <- <-].
  unfold zlen in *. rewrite take_app_le, drop_app_le by lia. done.
Qed.

Lemma take_u32_mono (rest b ext : bytes) (z : Z) :
  take_u32 rest = Some (z, b) -> take_u32 (rest ++ ext) = Some (z, b ++ ext).
Proof.
  unfold take_u32. destruct (take_n 4 rest) as [[a b']|] eqn:E; [|done].
  rewrite (take_n_mono _ _ _ _ ext E). by intros [= <- <-].
Qed.

Lemma parse_record_mono (rest rest' ext : bytes) (s : Z) (r : WalRecord) :
  parse_record rest s = Some (r, rest') ->
  parse_record (rest ++ ext) s = Some (r, rest' ++ ext).
Proof.
  unfold parse_record.
  destruct (take_u32 rest) as [[tl r1]|] eqn:E1; [|done]. rewrite (take_u32_mono _ _ ext _ E1).
  destruct (take_n tl r1) as [[t r2]|] eqn:E2; [|done]. rewrite (take_n_mono _ _ _ _ ext E2).
  destruct (take_u32 r2) as [[kl r3]|] eqn:E3; [|done]. rewrite (take_u32_mono _ _ ext _ E3).
  destruct (take_n kl r3) as [[k r4]|] eqn:E4; [|done]. rewrite (take_n_mono _ _ _ _ ext E4).
  destruct (take_u32 r4) as [[vl r5]|] eqn:E5; [|done]. rewrite (take_u32_mono _ _ ext _ E5).
  destruct (Z.ltb_spec (zlen r5) (vl + 1)) as [|Hge]; [done|].
  rewrite zlen_app, (proj2 (Z.ltb_ge _ _)) by (pose proof (zlen_nonneg ext); lia).
  destruct (take_n vl r5) as [[v r6]|] eqn:E6; [|done]. rewrite (take_n_mono _ _ _ _ ext E6).
  destruct r6 as [|ty r6]; [done|]. by intros [= <- <-].
Qed.

Lemma parse_records_mono (n : nat) (rest rest' ext : bytes) (s : Z) (rs : list WalRecord) :
  parse_records n rest s = Some (rs, rest') ->
  parse_records n (rest ++ ext) s = Some (rs, rest' ++ ext).
Proof.
  revert rest rest' rs. induction n as [|n IH]; intros rest rest' rs; simpl;
    [by intros [= <- <-]|].
  destruct (parse_record rest s) as [[r r1]|] eqn:E; [|done].
  rewrite (parse_record_mono _ _ ext _ _ E).
  destruct (parse_records n r1 s) as [[rs1 r2]|] eqn:E2; [|done].
  rewrite (IH _ _ _ E2). by intros [= <- <-].
Qed.

(** A strict prefix of an encoded batch's records does not parse. *)
Lemma parse_records_torn (es : list wal_entry) (p q : bytes) (s : Z) :
  Forall entry_ok es -> q <> [] -> encode_records es = p ++ q ->
  parse_records (length es) p s = None.
Proof.
  intros Hes Hq Heq. destruct (parse_records (length es) p s) as [[rs rest]|] eqn:E; [|done].
  exfalso. apply (parse_records_mono _ _ _ q) in E. rewrite <- Heq in E.
  pose proof (parse_records_encode es [] s Hes) as Hfull. rewrite app_nil_r, E in Hfull.
  injection Hfull as _ Hnil. by apply app_eq_nil in Hnil as [_ ?].
Qed.

(** A torn trailing batch contributes no record; its sequence number counts
    towards the watermark exactly when its 13-byte header survived. *)
Lemma replay_loop_torn (fuel : nat) (b : batch) (n : nat) (m : Z) :
  batch_ok b -> (n < length (encode_batch (fst b) (snd b)))%nat ->
  replay_loop (S fuel) (take n (encode_batch (fst b) (snd b))) m =
  Some (if (n <? 13)%nat then m else Z.max m (fst b), []).
Proof.
  intros (Hs & Hn & Hes & Hg) Hlt. set (enc := encode_batch (fst b) (snd b)) in *.
  cbn [replay_loop].
  assert (zlen (take n enc) = Z.of_nat n) as Hlen.
  { unfold zlen. rewrite length_take. lia. }
  destruct (Nat.ltb_spec n 13) as [H13|H13].
  { rewrite (proj2 (Z.ltb_lt _ _)) by lia. done. }
  rewrite (proj2 (Z.ltb_ge _ _)) by lia. simpl orb.
  destruct (encode_batch_header (fst b) (snd b) [] Hs Hn) as (_ & H0 & Hseq & Hcnt & Hd).
  rewrite app_nil_r in H0, Hseq, Hcnt, Hd. rewrite (app_nil_r (encode_records _)) in Hd.
  fold enc in H0, Hseq, Hcnt, Hd.
  assert (forall pos k, 0 <= pos -> 0 <= k -> pos + k <= 13 ->
            slice (take n enc) pos k = slice enc pos k) as Hslice.
  { intros pos k ???.
    replace (slice enc pos k) with (slice (take n enc ++ drop n enc) pos k)
      by by rewrite take_drop.
    unfold slice. rewrite drop_app_le by (rewrite length_take; lia).
    rewrite take_app_le by (rewrite length_drop, length_take; lia). done. }
  assert (byte_at 0 (take n enc) = BATCH_MARKER) as Hb0.
  { rewrite <- H0. unfold byte_at. destruct n; [lia|]. by destruct enc. }
  rewrite Hb0, marker_eqb. rewrite !Hslice by lia. rewrite Hseq, Hcnt, Hg. cbn [negb].
  unfold zlen. rewrite Nat2Z.id.
  rewrite (parse_records_torn (snd b) _ (drop n enc)); [done|done| |].
  - intros Hnil. apply (f_equal length) in Hnil. rewrite length_drop in Hnil. change (length []) with 0%nat in Hnil. lia.
  - rewrite <- Hd. rewrite <- (take_drop n enc) at 1.
    rewrite drop_app_le by (rewrite length_take; lia). done.
Qed.

(** ** Fuel *)

Lemma take_n_length (n : Z) (rest a b : bytes) :
  take_n n rest = Some (a, b) -> (length b <= length rest)%nat.
Proof.
  unfold take_n. destruct (zlen rest <? n); [done|]. intros [= _ <-].
  rewrite length_drop. lia.
Qed.

Lemma take_u32_length (rest b : bytes) (z : Z) :
  take_u32 rest = Some (z, b) -> (length b <= length rest)%nat.
Proof.
  unfold take_u32. destruct (take_n 4 rest) as [[a b']|] eqn:E; [|done].
  intros [= _ <-]. by eapply take_n_length.
Qed.

Lemma parse_record_length (rest rest' : bytes) (s : Z) (r : WalRecord) :
  parse_record rest s = Some (r, rest') -> (length rest' <= length rest)%nat.
Proof.
  unfold parse_record. intros H.
  repeat match type of H with
  | match ?t with Some _ => _ | None => _ end = _ =>
      let E := fresh "E" in destruct t as [[? ?]|] eqn:E; [|done];
      first [apply take_u32_length in E | apply take_n_length in E]
  | (if ?c then _ else _) = _ => destruct c; [done|]
  | match ?l with [] => _ | _ :: _ => _ end = _ => destruct l as [|ty l']; [done|]
  end.
  injection H as _ <-. simpl in *. lia.
Qed.

Lemma parse_records_length (n : nat) (rest rest' : bytes) (s : Z) (rs : list WalRecord) :
  parse_records n rest s = Some (rs, rest') -> (length rest' <= length rest)%nat.
Proof.
  revert rest rest' rs. induction n as [|n IH]; intros rest rest' rs; simpl; [by intros [= _ <-]|].
  destruct (parse_record rest s) as [[r r1]|] eqn:E; [|done].
  destruct (parse_records n r1 s) as [[rs1 r2]|] eqn:E2; [|done].
  intros [= _ <-]. apply parse_record_length in E. apply IH in E2. lia.
Qed.

(** Any fuel above the length of the unread log gives the same replay, so the
    fuel of [replay_bytes] never cuts a replay short. *)
Lemma replay_loop_fuel (f1 f2 : nat) (rest : bytes) (m : Z) :
  (length rest < f1)%nat -> (length rest < f2)%nat ->
  replay_loop f1 rest m = replay_loop f2 rest m.
Proof.
  revert f2 rest m. induction f1 as [|f1 IH]; intros [|f2] rest m H1 H2; try lia.
  cbn [replay_loop]. destruct (Z.ltb_spec (zlen rest) (1 + 8 + 4)) as [|H13]; [done|].
  destruct (negb (byte_eqb _ _)); [done|]. cbn [orb]. destruct (negb (grants _)); [done|].
  destruct (parse_records _ (drop 13 rest) _) as [[rs r']|] eqn:E; [|done].
  apply parse_records_length in E. rewrite length_drop in E. unfold zlen in H13.
  by rewrite (IH f2) by lia.
Qed.

(** ** Appending to an open log *)

(** The backend's offset is the end of its file. *)
Definition wal_wf (w : Wal) : Prop := io_offset (wal_io w) = zlen (io_file (wal_io w)).

(** Writing over a tail [t] behind the offset leaves what sticks out of it. *)
Lemma write_at_over (file t buf : bytes) :
  write_at (file ++ t) (zlen file) buf = file ++ buf ++ drop (length buf) t.
Proof.
  destruct buf as [|b buf]; [done|]. unfold write_at.
  rewrite zlen_app, (Z2Nat.nonpos (_ - _)) by (pose proof (zlen_nonneg t); lia).
  replace (Z.to_nat (zlen file)) with (length file) by (unfold zlen; lia).
  replace (Z.to_nat (zlen file + zlen (b :: buf))) with (length file + length (b :: buf))%nat by (unfold zlen; lia).
  by rewrite take_app_length, drop_app_add.
Qed.

Lemma write_at_end (file buf : bytes) : write_at file (zlen file) buf = file ++ buf.
Proof. rewrite <- (app_nil_r file) at 1. by rewrite write_at_over, drop_nil, app_nil_r. Qed.

(** What an append leaves behind: the whole buffer and a new offset, or a part
    of it and the old one. *)
Lemma append_batch_cases (s : Z) (es : list wal_entry) (w w' : Wal) r :
  append_batch s es w = (w', r) ->
  (r = Ok (map (record_of s) es)
   /\ io_file (wal_io w') = write_at (io_file (wal_io w)) (io_offset (wal_io w)) (encode_batch s es)
   /\ io_offset (wal_io w') = io_offset (wal_io w) + zlen (encode_batch s es))
  \/ exists n err, r = Err err
   /\ io_file (wal_io w') = write_at (io_file (wal_io w)) (io_offset (wal_io w)) (take n (encode_batch s es))
   /\ io_offset (wal_io w') = io_offset (wal_io w).
Proof.
  unfold append_batch, io_append. destruct (io_faults (wal_io w)) as [|[n|] fs]; intros [= <- <-];
    [left | right; exists n; eexists | left]; done.
Qed.

(** A truncation empties the file, or fails and leaves it alone or empty. *)
Lemma wal_truncate_cases (w w' : Wal) r :
  wal_truncate w = (w', r) ->
  (r = Ok tt /\ io_file (wal_io w') = [] /\ io_offset (wal_io w') = 0)
  \/ (exists err, r = Err err) /\ io_offset (wal_io w') = io_offset (wal_io w)
     /\ (io_file (wal_io w') = io_file (wal_io w) \/ io_file (wal_io w') = []).
Proof.
  unfold wal_truncate, io_truncate. destruct (io_faults (wal_io w)) as [|[n|] fs]; intros [= <- <-];
    [left | right | left]; try done.
  split_and!; [by eexists | done |]. destruct n; [by left | by right].
Qed.

Lemma append_batch_file (s : Z) (es : list wal_entry) (w : Wal) :
  wal_wf w -> io_faults (wal_io w) = [] ->
  read_all_bytes (fst (append_batch s es w)) = read_all_bytes w ++ encode_batch s es
  /\ wal_wf (fst (append_batch s es w)) /\ io_faults (wal_io (fst (append_batch s es w))) = [].
Proof.
  unfold wal_wf, read_all_bytes, append_batch, io_append. intros Hw ->. generalize (encode_batch s es). intros buf.
  simpl. rewrite Hw, write_at_end.
  split_and!; [done | by rewrite zlen_app | done].
Qed.

Definition append_all (bs : list batch) (w : Wal) : Wal :=
  fold_left (fun w b => fst (append_batch (fst b) (snd b) w)) bs w.

Lemma append_all_file (bs : list batch) (w : Wal) :
  wal_wf w -> io_faults (wal_io w) = [] ->
  read_all_bytes (append_all bs w) = read_all_bytes w ++ encode_log bs /\ wal_wf (append_all bs w).
Proof.
  revert w. induction bs as [|b bs IH]; intros w Hw Hf; simpl.
  - unfold encode_log. simpl. by rewrite app_nil_r.
  - destruct (append_batch_file (fst b) (snd b) w Hw Hf) as (Hb & Hw' & Hf').
    destruct (IH _ Hw' Hf') as [Hf2 Hw2]. split; [|exact Hw2].
    etransitivity; [exact Hf2|]. rewrite Hb, <- app_assoc. done.
Qed.

Lemma replay_bytes_loop (buf tl : bytes) :
  buf = BATCH_MARKER :: tl -> replay_bytes buf = Ok <$> replay_loop (S (length buf)) buf 0.
Proof. intros ->. unfold replay_bytes. by rewrite marker_eqb. Qed.

(** What replay makes of a log of complete batches followed by [tail]. *)
Lemma replay_bytes_log (bs : list batch) (tail : bytes) :
  Forall batch_ok bs ->
  (tail = [] \/ exists tl, tail = BATCH_MARKER :: tl) ->
  replay_bytes (encode_log bs ++ tail) =
  match replay_loop (S (length tail)) tail (log_max_seq bs 0) with
  | None => None
  | Some (m, rs) => Some (Ok (m, log_records bs ++ rs))
  end.
Proof.
  intros Hbs Htail.
  assert (length bs <= length (encode_log bs))%nat as Hlen.
  { clear. induction bs as [|b bs IH]; [done|].
    change (encode_log (b :: bs)) with (encode_batch (fst b) (snd b) ++ encode_log bs).
    rewrite length_app. unfold encode_batch. cbn [length app]. lia. }
  set (F := (S (length (encode_log bs ++ tail)) - length bs)%nat).
  assert (length tail < F)%nat as HF by (unfold F; rewrite length_app; lia).
  assert (S (length (encode_log bs ++ tail)) = length bs + F)%nat as Hfuel
    by (unfold F; rewrite length_app; lia).
  pose proof (replay_loop_log bs F tail 0 Hbs) as Hlog.
  rewrite (replay_loop_fuel F (S (length tail)) tail) in Hlog by lia.
  assert (encode_log bs ++ tail = [] \/ exists tl, encode_log bs ++ tail = BATCH_MARKER :: tl)
    as [Hnil|[tl Htl]].
  { destruct bs as [|b bs]; [exact Htail|]. right. by eexists. }
  - rewrite Hnil in *. apply app_eq_nil in Hnil as [Hnil ->].
    destruct bs as [|b bs]; [done|]. by apply (f_equal length) in Hnil.
  - rewrite (replay_bytes_loop _ tl Htl), Hfuel, Hlog.
    by destruct (replay_loop (S (length tail)) tail _) as [[??]|].
Qed.

(** A batch cut short behind complete ones contributes no record; its number
    still counts when its header is there. *)
Lemma replay_bytes_torn (bs : list batch) (b : batch) (n : nat) :
  Forall batch_ok bs -> batch_ok b -> (n < length (encode_batch (fst b) (snd b)))%nat ->
  replay_bytes (encode_log bs ++ take n (encode_batch (fst b) (snd b))) =
  Some (Ok (if (n <? 13)%nat then log_max_seq bs 0 else Z.max (log_max_seq bs 0) (fst b), log_records bs)).
Proof.
  intros Hbs Hb Hn. rewrite replay_bytes_log; [|done | destruct n; [by left | right; by eexists]].
  rewrite replay_loop_torn by done. by rewrite app_nil_r.
Qed.

Lemma replay_bytes_encoded (bs : list batch) :
  Forall batch_ok bs -> replay_bytes (encode_log bs) = Some (Ok (log_max_seq bs 0, log_records bs)).
Proof.
  intros H. pose proof (replay_bytes_log bs [] H (or_introl eq_refl)) as Hr.
  rewrite app_nil_r in Hr. rewrite Hr. simpl. by rewrite app_nil_r.
Qed.

(** ** Properties *)

(** Replaying a log yields exactly the records of every appended batch, in
    order, and the highest commit sequence number among them. *)
Theorem wal_replay_roundtrip (bs : list batch) :
  Forall batch_ok bs ->
  replay (append_all bs (wal_open [])) = Some (Ok (log_max_seq bs 0, log_records bs)).
Proof.
  intros Hbs. unfold replay.
  destruct (append_all_file bs (wal_open []) eq_refl eq_refl) as [Hf _].
  unfold read_all_bytes in Hf. rewrite Hf. by apply replay_bytes_encoded.
Qed.

(** A failed append is all or nothing: when an append fails after [n] bytes of
    its batch, a replay of the file delivers every earlier batch in full, and
    no record of the failed one or, when all of its bytes were written, all of
    them; its number is counted once its header is on disk, so it is never
    issued again. *)
Theorem wal_failed_append_is_atomic (bs : list batch) (b : batch) (n : nat) :
  Forall batch_ok bs -> batch_ok b ->
  let w := append_all bs (wal_open []) in
  let w := mkWal (mkStdWalIo (io_file (wal_io w)) (io_offset (wal_io w)) [Some n]) (wal_bytes_written w) in
  let failed := append_batch (fst b) (snd b) w in
  (exists err, snd failed = Err err)
  /\ replay (wal_open (read_all_bytes (fst failed))) =
     Some (Ok (if (n <? 13)%nat then log_max_seq bs 0 else Z.max (log_max_seq bs 0) (fst b),
               if (n <? length (encode_batch (fst b) (snd b)))%nat then log_records bs else log_records (bs ++ [b]))).
Proof.
  intros Hbs Hb w w1 failed. split; [by eexists|].
  destruct (append_all_file bs (wal_open []) eq_refl eq_refl) as [Hf Hwf].
  fold w in Hf, Hwf.
  assert (read_all_bytes (fst failed) = encode_log bs ++ take n (encode_batch (fst b) (snd b))) as Hfile.
  { unfold failed, read_all_bytes, append_batch in *. generalize (encode_batch b.1 b.2). intros buf.
    simpl. rewrite Hwf, write_at_end, Hf. done. }
  change (replay (wal_open (read_all_bytes (fst failed)))) with (replay_bytes (read_all_bytes (fst failed))).
  rewrite Hfile. destruct (Nat.ltb_spec n (length (encode_batch (fst b) (snd b)))) as [Hn|Hn].
  { by rewrite replay_bytes_torn. }
  rewrite take_ge by done. replace (encode_log bs ++ _) with (encode_log (bs ++ [b])).
  - rewrite replay_bytes_encoded by (apply Forall_app; by split; [|constructor]).
    unfold log_max_seq at 1. rewrite fold_left_app. simpl.
    destruct (Nat.ltb_spec n 13) as [H13|H13]; [|done]. exfalso. unfold encode_batch in Hn.
    apply Nat2Z.inj_le in Hn. fold (zlen ([BATCH_MARKER] ++ u64_to_be b.1 ++ u32_to_be (zlen b.2) ++ encode_records b.2)) in Hn.
    autorewrite with zlen in Hn. pose proof (zlen_nonneg (encode_records b.2)). lia.
  - unfold encode_log. by rewrite map_app, concat_app, <- (app_nil_r (encode_batch _ _)).
Qed.

(** A log that does not start with a batch marker is refused, and no record
    is delivered from it. *)
Theorem wal_replay_refuses_foreign_log (b : byte) (rest : bytes) :
  b <> BATCH_MARKER ->
  replay (wal_open (b :: rest)) = Some (Err "WAL does not start with a batch marker"%string).
Proof.
  intros Hb. unfold replay. simpl. unfold byte_eqb.
  by rewrite bool_decide_eq_false_2.
Qed.

End Replay.

(** An allocator with room for a million records, and a batch of one put, for
    the witnesses. *)
#[export] Instance roomy : Allocator := {| grants n := n <? 2 ^ 20 |}.

Definition demo_batch (s : Z) (k v : byte) : batch := (s, [("t"%string, [k], [v], Byte.x00)]).

Lemma demo_batch_ok (s : Z) (k v : byte) : is_u64 s -> batch_ok (demo_batch s k v).
Proof. intros. split_and!; [done | done | | done]. repeat constructor. Qed.

Ltac demo_batches :=
  repeat first [apply Forall_nil_2 | apply Forall_cons_2
               | apply demo_batch_ok; unfold is_u64; lia].

Lemma wal_replay_roundtrip_witness :
  replay (append_all [demo_batch 1 Byte.x6b Byte.x76; demo_batch 2 Byte.x6c Byte.x77]
            (wal_open []))
  = Some (Ok (2, [mkWalRecord 1 "t" [Byte.x6b] [Byte.x76] Byte.x00;
                  mkWalRecord 2 "t" [Byte.x6c] [Byte.x77] Byte.x00])).
Proof.
  apply (wal_replay_roundtrip [demo_batch 1 Byte.x6b Byte.x76; demo_batch 2 Byte.x6c Byte.x77]).
  by demo_batches.
Defined.

(** The second put fails after 20 of its bytes. *)
Lemma wal_failed_append_is_atomic_witness :
  let w := append_all [demo_batch 1 Byte.x6b Byte.x76] (wal_open []) in
  let w := mkWal (mkStdWalIo (io_file (wal_io w)) (io_offset (wal_io w)) [Some 20%nat]) (wal_bytes_written w) in
  replay (wal_open (read_all_bytes (fst (append_batch 2 (snd (demo_batch 2 Byte.x6c Byte.x77)) w))))
  = Some (Ok (2, [mkWalRecord 1 "t" [Byte.x6b] [Byte.x76] Byte.x00])).
Proof.
  apply (wal_failed_append_is_atomic [demo_batch 1 Byte.x6b Byte.x76] (demo_batch 2 Byte.x6c Byte.x77) 20);
    by demo_batches.
Defined.

Lemma wal_replay_refuses_foreign_log_witness :
  replay (al := roomy) (wal_open [Byte.x00; Byte.x01]) = Some (Err "WAL does not start with a batch marker"%string).
Proof. apply wal_replay_refuses_foreign_log. discriminate. Defined.

(** The append of batch [b] fails after [n] bytes. *)
Definition append_failing (n : nat) (b : batch) (w : Wal) : Wal :=
  fst (append_batch (fst b) (snd b)
         (mkWal (mkStdWalIo (io_file (wal_io w)) (io_offset (wal_io w)) [Some n]) (wal_bytes_written w))).

(** A log reopened after a torn append is not cut back to its last complete
    batch: the next commit is written behind the torn bytes, is acknowledged as
    durable, and is lost by the following replay. Here batch 2 is torn inside
    its record, batch 3 is appended in full after the restart, and the replay
    after that delivers batch 1 only. *)
Theorem wal_append_behind_torn_tail_is_lost :
  let b1 := demo_batch 1 Byte.x6b Byte.x76 in
  let b2 := demo_batch 2 Byte.x6c Byte.x77 in
  let b3 := demo_batch 3 Byte.x6d Byte.x78 in
  let crashed := read_all_bytes (append_failing 20 b2 (append_all [b1] (wal_open []))) in
  let '(w, r) := append_batch (fst b3) (snd b3) (wal_open crashed) in
  read_all_bytes w = crashed ++ encode_batch (fst b3) (snd b3)
  /\ r = Ok (log_records [b3])
  /\ replay (wal_open (read_all_bytes w)) = Some (Ok (2, [mkWalRecord 1 "t" [Byte.x6b] [Byte.x76] Byte.x00])).
Proof. vm_compute. split_and!; reflexivity. Qed.

(** The bytes behind a torn header are read as the count of its records: where
    12 bytes of batch 2 reached the file, the batch appended behind them after
    the restart supplies the last byte of the count, 255. An allocator that has
    no room for as many records then aborts every further start. *)
Theorem wal_garbage_count_aborts_replay :
  let b1 := demo_batch 1 Byte.x6b Byte.x76 in
  let b2 := demo_batch 2 Byte.x6c Byte.x77 in
  let b3 := demo_batch 3 Byte.x6d Byte.x78 in
  let crashed := read_all_bytes (append_failing 12 b2 (append_all [b1] (wal_open []))) in
  let w := fst (append_batch (fst b3) (snd b3) (wal_open crashed)) in
  replay (al := {| grants n := n <? 255 |}) (wal_open (read_all_bytes w)) = None.
Proof. vm_compute. reflexivity. Qed.

(** A truncation that fails after the file was cut leaves the backend's offset
    behind the end of the file: the next append leaves a gap of zeroes in front
    of its batch, is acknowledged, and the log is refused at the next start. *)
Theorem wal_append_after_failed_truncate_is_refused :
  let b1 := demo_batch 1 Byte.x6b Byte.x76 in
  let b2 := demo_batch 2 Byte.x6c Byte.x77 in
  let w := append_all [b1] (wal_open []) in
  let w := fst (wal_truncate (mkWal (mkStdWalIo (io_file (wal_io w)) (io_offset (wal_io w)) [Some 1%nat]) (wal_bytes_written w))) in
  let '(w, r) := append_batch (fst b2) (snd b2) w in
  r = Ok (log_records [b2])
  /\ replay (wal_open (read_all_bytes w)) = Some (Err "WAL does not start with a batch marker"%string).
Proof. vm_compute. split; reflexivity. Qed.
