(* ===== verification/SSTable.v ===== *)
(** [storage/sstable.rs]: the immutable sorted table blob, its builder,
    its decoder, and point reads against the decoded index.

    The Bloom filter comes from the [bloomfilter] crate and is a parameter:
    [Bloom] lists the calls the code makes, [BloomLaws] what the crate
    documents of them (no false negatives, and a filter restored from its
    parts answers like the original). *)

From Stdlib Require Import Strings.Byte Strings.String Sorted ZArith Lia.
From stdpp Require Import base list strings sorting.
From S2P Require Import Prelude OrdMap InternalKey Versions.

Open Scope Z_scope.

Class Bloom := {
  bloom_t : Type;
  bloom_new : Z -> bloom_t;
  bloom_set : bloom_t -> bytes -> bloom_t;
  bloom_check : bloom_t -> bytes -> bool;
  bloom_bitmap : bloom_t -> bytes;
  bloom_num_bits : bloom_t -> Z;
  bloom_num_hashes : bloom_t -> Z;
  bloom_sip_keys : bloom_t -> (Z * Z) * (Z * Z);
  bloom_from_existing : bytes -> Z -> Z -> (Z * Z) * (Z * Z) -> bloom_t;
}.

Class BloomLaws {bloom_ops : Bloom} : Prop := {
  bloom_check_set : forall b k, bloom_check (bloom_set b k) k = true;
  bloom_check_mono : forall b k k', bloom_check b k = true -> bloom_check (bloom_set b k') k = true;
  bloom_restore : forall b k,
    bloom_check (bloom_from_existing (bloom_bitmap b) (bloom_num_bits b)
                   (bloom_num_hashes b) (bloom_sip_keys b)) k = bloom_check b k;
  bloom_num_bits_u64 : forall b, is_u64 (bloom_num_bits b);
  bloom_num_hashes_u32 : forall b, is_u32 (bloom_num_hashes b);
  bloom_sip_keys_u64 : forall b, let '((a, c), (d, e)) := bloom_sip_keys b in
    is_u64 a /\ is_u64 c /\ is_u64 d /\ is_u64 e;
}.

Definition FOOTER_LEN : Z := 32.

(** [*b"TPTSST02"] *)
Definition SSTABLE_FORMAT_MAGIC : bytes := list_byte_of_string "TPTSST02".

Record IndexEntry := mkIndexEntry {
  ie_key : bytes;
  ie_seq : Z;
  ie_tag : byte;
  ie_offset : Z;
  ie_value_len : Z;
}.

(** A scanned version: user key, seq, tag, value or tombstone. *)
Abbreviation version := (bytes * Z * byte * option bytes)%type.

Definition read_u32 (buf : bytes) (pos : Z) : Result Z :=
  if pos + 4 >? zlen buf then Err "truncated sstable buffer (want u32)"%string
  else Ok (from_be (slice buf pos 4)).

Definition read_u64 (buf : bytes) (pos : Z) : Result Z :=
  if pos + 8 >? zlen buf then Err "truncated sstable buffer (want u64)"%string
  else Ok (from_be (slice buf pos 8)).

Definition read_value_at (buf : bytes) (entry : IndexEntry) : Result bytes :=
  let pos := ie_offset entry in
  let? key_len := read_u32 buf pos in
  let pos := pos + (4 + key_len) in
  let? value_len := read_u32 buf pos in
  let pos := pos + 4 in
  if pos + value_len >? zlen buf then Err "truncated sstable data record"%string
  else Ok (slice buf pos value_len).

Section SSTable.
  Context {bloom_ops : Bloom}.

Record SSTable := mkSSTable {
  sst_key : string;
  sst_id : Z;
  sst_index : list IndexEntry;
  sst_bloom : bloom_t;
  sst_data : bytes;
}.

(** ** [SSTable::build_bytes] *)

(** The data record of one live entry. *)
Definition data_record (ikey : InternalKey) (value : bytes) : bytes :=
  u32_to_be (zlen (user_key ikey)) ++ user_key ikey ++ u32_to_be (zlen value) ++ value.

#[global] Arguments data_record : simpl never.

(** The loop over [entries], on the accumulators [index], [bloom], [data_buf]. *)
Fixpoint build_loop (entries : list entry) (index : list IndexEntry) (bloom : bloom_t)
    (data_buf : bytes) : list IndexEntry * bloom_t * bytes :=
  match entries with
  | [] => (index, bloom, data_buf)
  | (ikey, value) :: entries' =>
      let bloom := bloom_set bloom (user_key ikey) in
      let offset := zlen data_buf in
      if byte_eqb (tag ikey) DELETE_TAG then
        build_loop entries'
          (index ++ [mkIndexEntry (user_key ikey) (seq ikey) (tag ikey) offset 0]) bloom data_buf
      else
        build_loop entries'
          (index ++ [mkIndexEntry (user_key ikey) (seq ikey) (tag ikey) offset
                      (zlen value mod 2 ^ 32)])
          bloom (data_buf ++ data_record ikey value)
  end.

Definition encode_index_entry (e : IndexEntry) : bytes :=
  u32_to_be (zlen (ie_key e)) ++ ie_key e ++ u64_to_be (ie_seq e) ++ [ie_tag e]
  ++ u64_to_be (ie_offset e) ++ u32_to_be (ie_value_len e).

Definition encode_index (index : list IndexEntry) : bytes :=
  u32_to_be (zlen index) ++ concat (map encode_index_entry index).

Definition encode_bloom (bloom : bloom_t) : bytes :=
  let '((a, b), (c, d)) := bloom_sip_keys bloom in
  u32_to_be (zlen (bloom_bitmap bloom)) ++ bloom_bitmap bloom
  ++ u64_to_be (bloom_num_bits bloom) ++ u32_to_be (bloom_num_hashes bloom)
  ++ u64_to_be a ++ u64_to_be b ++ u64_to_be c ++ u64_to_be d.

Definition encode_footer (index_offset bloom_offset : Z) : bytes :=
  u64_to_be 0 ++ u64_to_be index_offset ++ u64_to_be bloom_offset ++ SSTABLE_FORMAT_MAGIC.

Definition build_bytes (entries : list entry) : bytes :=
  let '(index, bloom, data_buf) :=
    build_loop entries [] (bloom_new (Z.max (zlen entries) 1)) [] in
  let index_offset := zlen data_buf in
  let buf := data_buf ++ encode_index index in
  let bloom_offset := zlen buf in
  buf ++ encode_bloom bloom ++ encode_footer index_offset bloom_offset.

(** ** [SSTable::decode] *)

(** [for _ in 0..count] over the index section. *)
Fixpoint decode_index (count : nat) (buf : bytes) (pos : Z) : Result (list IndexEntry) :=
  match count with
  | O => Ok []
  | S count' =>
      let? key_len := read_u32 buf pos in
      let pos := pos + 4 in
      let end_ := pos + key_len in
      if end_ >? zlen buf then Err "truncated sstable index entry"%string else
      let entry_key := slice buf pos key_len in
      let pos := end_ in
      let? seq := read_u64 buf pos in
      let pos := pos + 8 in
      if pos >=? zlen buf then Err "truncated sstable index entry (tag)"%string else
      let tag := nth (Z.to_nat pos) buf Byte.x00 in
      let pos := pos + 1 in
      let? offset := read_u64 buf pos in
      let pos := pos + 8 in
      let? value_len := read_u32 buf pos in
      let pos := pos + 4 in
      let? rest := decode_index count' buf pos in
      Ok (mkIndexEntry entry_key seq tag offset value_len :: rest)
  end.

Definition decode_bloom (buf : bytes) (bloom_offset : Z) : Result bloom_t :=
  let pos := bloom_offset in
  let? bits_len := read_u32 buf pos in
  let pos := pos + 4 in
  let bits_end := pos + bits_len in
  if bits_end >? zlen buf then Err "truncated sstable bloom bitmap"%string else
  let bits := slice buf pos bits_len in
  let pos := bits_end in
  let? num_bits := read_u64 buf pos in
  let pos := pos + 8 in
  let? num_hashes := read_u32 buf pos in
  let pos := pos + 4 in
  let? a := read_u64 buf pos in
  let? b := read_u64 buf (pos + 8) in
  let? c := read_u64 buf (pos + 16) in
  let? d := read_u64 buf (pos + 24) in
  Ok (bloom_from_existing bits num_bits num_hashes ((a, b), (c, d))).

Definition decode (key : string) (id : Z) (data : bytes) : Result SSTable :=
  if (zlen data <? FOOTER_LEN)
     || negb (bool_decide (slice data (zlen data - 8) 8 = SSTABLE_FORMAT_MAGIC))
  then Err "sstable is not in the current format (missing format marker)"%string else
  let footer_start := zlen data - FOOTER_LEN in
  let? index_offset := read_u64 data (footer_start + 8) in
  let? bloom_offset := read_u64 data (footer_start + 16) in
  let? count := read_u32 data index_offset in
  let? index := decode_index (Z.to_nat count) data (index_offset + 4) in
  let? bloom := decode_bloom data bloom_offset in
  Ok (mkSSTable key id index bloom data).

(** ** Reads *)

(** The predicate [read_at] hands to [partition_point]. *)
Definition before_seek (key : bytes) (snapshot_seq : Z) (e : IndexEntry) : bool :=
  match bytes_cmp (ie_key e) key with
  | Lt => true
  | Eq => ie_seq e >? snapshot_seq
  | Gt => false
  end.

(** [SSTable::read_at] *)
Definition sst_read_at (t : SSTable) (key : bytes) (snapshot_seq : Z)
    : Result (option (option bytes)) :=
  if negb (bloom_check (sst_bloom t) key) then Ok None else
  let idx := partition_point (before_seek key snapshot_seq) (sst_index t) in
  match sst_index t !! idx with
  | None => Ok None
  | Some entry =>
      if negb (keqb (ie_key entry) key) then Ok None
      else if byte_eqb (ie_tag entry) DELETE_TAG then Ok (Some None)
      else let? v := read_value_at (sst_data t) entry in Ok (Some (Some v))
  end.

(** [SSTable::max_seq] *)
Definition sst_max_seq (t : SSTable) : Z :=
  fold_left (fun m e => Z.max m (ie_seq e)) (sst_index t) 0.

Fixpoint scan_index (buf : bytes) (index : list IndexEntry) : Result (list version) :=
  match index with
  | [] => Ok []
  | entry :: index' =>
      if byte_eqb (ie_tag entry) DELETE_TAG then
        let? rest := scan_index buf index' in
        Ok ((ie_key entry, ie_seq entry, ie_tag entry, None) :: rest)
      else
        let? value := read_value_at buf entry in
        let? rest := scan_index buf index' in
        Ok ((ie_key entry, ie_seq entry, ie_tag entry, Some value) :: rest)
  end.

(** [SSTable::scan_all_versions] *)
Definition scan_all_versions (t : SSTable) : Result (list version) :=
  scan_index (sst_data t) (sst_index t).

Definition blob_size (t : SSTable) : Z := zlen (sst_data t).

End SSTable.
Arguments mkSSTable {_}.

(** ** Reading at a position

    [holds_at buf pos xs]: the bytes [xs] stand at [pos] in [buf]. *)
Definition holds_at (buf : bytes) (pos : Z) (xs : bytes) : Prop :=
  exists pre post, buf = pre ++ xs ++ post /\ pos = zlen pre.

Lemma holds_at_app (buf xs ys : bytes) (pos : Z) :
  holds_at buf pos (xs ++ ys) -> holds_at buf pos xs /\ holds_at buf (pos + zlen xs) ys.
Proof.
  intros (pre & post & -> & ->). split.
  - exists pre, (ys ++ post). by rewrite <- app_assoc.
  - exists (pre ++ xs), post. split; [by rewrite <- !app_assoc | by rewrite zlen_app].
Qed.

Lemma holds_at_slice (buf xs : bytes) (pos n : Z) :
  holds_at buf pos xs -> n = zlen xs ->
  slice buf pos n = xs /\ 0 <= pos /\ pos + n <= zlen buf.
Proof.
  intros (pre & post & -> & ->) ->. split; [by apply slice_app_mid|].
  autorewrite with zlen. pose proof (zlen_nonneg post). pose proof (zlen_nonneg pre). lia.
Qed.

Lemma holds_at_u32 (buf xs : bytes) (pos z : Z) :
  is_u32 z -> holds_at buf pos (u32_to_be z ++ xs) ->
  read_u32 buf pos = Ok z /\ holds_at buf (pos + 4) xs.
Proof.
  intros Hz [H1 H2]%holds_at_app. rewrite zlen_u32_to_be in H2. split; [|done].
  destruct (holds_at_slice _ _ pos 4 H1) as (Hs & _ & Hb); [by rewrite zlen_u32_to_be|].
  unfold read_u32. rewrite Z.gtb_ltb, (proj2 (Z.ltb_ge _ _)) by lia.
  by rewrite Hs, from_u32_to_be.
Qed.

Lemma holds_at_u64 (buf xs : bytes) (pos z : Z) :
  is_u64 z -> holds_at buf pos (u64_to_be z ++ xs) ->
  read_u64 buf pos = Ok z /\ holds_at buf (pos + 8) xs.
Proof.
  intros Hz [H1 H2]%holds_at_app. rewrite zlen_u64_to_be in H2. split; [|done].
  destruct (holds_at_slice _ _ pos 8 H1) as (Hs & _ & Hb); [by rewrite zlen_u64_to_be|].
  unfold read_u64. rewrite Z.gtb_ltb, (proj2 (Z.ltb_ge _ _)) by lia.
  by rewrite Hs, from_u64_to_be.
Qed.

Lemma holds_at_bytes (buf b xs : bytes) (pos : Z) :
  holds_at buf pos (b ++ xs) ->
  slice buf pos (zlen b) = b /\ (pos + zlen b >? zlen buf) = false
  /\ holds_at buf (pos + zlen b) xs.
Proof.
  intros [H1 H2]%holds_at_app. destruct (holds_at_slice _ _ pos _ H1 eq_refl) as (Hs & _ & Hb).
  split_and!; [done | | done]. rewrite Z.gtb_ltb, (proj2 (Z.ltb_ge _ _)) by lia. done.
Qed.

Lemma holds_at_byte (buf xs : bytes) (b : byte) (pos : Z) :
  holds_at buf pos (b :: xs) ->
  nth (Z.to_nat pos) buf Byte.x00 = b /\ (pos >=? zlen buf) = false
  /\ holds_at buf (pos + 1) xs.
Proof.
  intros (pre & post & -> & ->). split_and!.
  - unfold zlen. rewrite Nat2Z.id, app_nth2, Nat.sub_diag by lia. done.
  - rewrite Z.geb_leb. autorewrite with zlen. pose proof (zlen_nonneg (xs ++ post)).
    rewrite zlen_app in *. apply Z.leb_gt. cbn [app]. autorewrite with zlen. lia.
  - exists (pre ++ [b]), post. split; [by rewrite <- app_assoc | by rewrite zlen_app].
Qed.

Lemma read_value_at_holds (buf k v xs : bytes) (e : IndexEntry) :
  zlen k < 2 ^ 32 -> zlen v < 2 ^ 32 ->
  holds_at buf (ie_offset e) ((u32_to_be (zlen k) ++ k ++ u32_to_be (zlen v) ++ v) ++ xs) ->
  read_value_at buf e = Ok v.
Proof.
  intros Hk Hv H. rewrite <- !app_assoc in H. unfold read_value_at.
  apply holds_at_u32 in H as [-> H]; [|split; auto].
  apply holds_at_bytes in H as (_ & _ & H).
  replace (ie_offset e + (4 + zlen k)) with (ie_offset e + 4 + zlen k) by lia.
  apply holds_at_u32 in H as [-> H]; [|split; auto].
  by apply holds_at_bytes in H as (-> & -> & _).
Qed.

(** ** What the builder lays out *)

Section Build.
  Context {bloom_ops : Bloom}.

(** The data section of [es]. *)
Fixpoint data_of (es : list entry) : bytes :=
  match es with
  | [] => []
  | (k, v) :: es' => (if is_delete k then [] else data_record k v) ++ data_of es'
  end.

(** The index of [es] when the data section already holds [off] bytes. *)
Fixpoint index_of (off : Z) (es : list entry) : list IndexEntry :=
  match es with
  | [] => []
  | (k, v) :: es' =>
      if is_delete k
      then mkIndexEntry (user_key k) (seq k) (tag k) off 0 :: index_of off es'
      else mkIndexEntry (user_key k) (seq k) (tag k) off (zlen v mod 2 ^ 32)
           :: index_of (off + zlen (data_record k v)) es'
  end.

Definition bloom_of (es : list entry) (b : bloom_t) : bloom_t :=
  fold_left (fun b e => bloom_set b (ekey e)) es b.

Definition table_bloom (es : list entry) : bloom_t :=
  bloom_of es (bloom_new (Z.max (zlen es) 1)).

Lemma build_loop_spec (es : list entry) (index : list IndexEntry) (b : bloom_t) (data : bytes) :
  build_loop es index b data =
  (index ++ index_of (zlen data) es, bloom_of es b, data ++ data_of es).
Proof.
  revert index b data. induction es as [|[k v] es IH]; intros index b data.
  - simpl. by rewrite !app_nil_r.
  - cbn [build_loop index_of data_of]. fold (is_delete k). destruct (is_delete k).
    + rewrite IH, <- app_assoc. done.
    + rewrite IH, zlen_app, <- !app_assoc. done.
Qed.

Lemma build_bytes_layout (es : list entry) :
  build_bytes es =
  data_of es ++ encode_index (index_of 0 es) ++ encode_bloom (table_bloom es)
  ++ encode_footer (zlen (data_of es)) (zlen (data_of es) + zlen (encode_index (index_of 0 es))).
Proof.
  unfold build_bytes. rewrite build_loop_spec. simpl. rewrite zlen_app, <- app_assoc. done.
Qed.

Definition index_entry_ok (e : IndexEntry) : Prop :=
  zlen (ie_key e) < 2 ^ 32 /\ is_u64 (ie_seq e) /\ is_u64 (ie_offset e) /\ is_u32 (ie_value_len e).

Lemma decode_index_holds (buf : bytes) (index : list IndexEntry) (pos : Z) (xs : bytes) :
  Forall index_entry_ok index ->
  holds_at buf pos (concat (map encode_index_entry index) ++ xs) ->
  decode_index (length index) buf pos = Ok index.
Proof.
  intros Hok. revert pos. induction Hok as [|e index (Hk & Hs & Ho & Hv) Hok IH]; intros pos H;
    [done|].
  cbn [map concat] in H. unfold encode_index_entry in H. rewrite <- !app_assoc in H.
  cbn [length decode_index].
  apply holds_at_u32 in H as [-> H]; [|split; auto].
  apply holds_at_bytes in H as (-> & -> & H).
  apply holds_at_u64 in H as [-> H]; [|done].
  apply holds_at_byte in H as (-> & -> & H).
  apply holds_at_u64 in H as [-> H]; [|done].
  apply holds_at_u32 in H as [-> H]; [|done].
  rewrite (IH _ H). by destruct e.
Qed.

Context {bloom_laws : BloomLaws}.

Lemma decode_bloom_holds (buf : bytes) (b : bloom_t) (pos : Z) (xs : bytes) :
  zlen (bloom_bitmap b) < 2 ^ 32 ->
  holds_at buf pos (encode_bloom b ++ xs) ->
  decode_bloom buf pos =
  Ok (bloom_from_existing (bloom_bitmap b) (bloom_num_bits b) (bloom_num_hashes b)
        (bloom_sip_keys b)).
Proof.
  intros Hb H. unfold encode_bloom in H. pose proof (bloom_sip_keys_u64 b) as Hs.
  destruct (bloom_sip_keys b) as [[x y] [z w]]. destruct Hs as (? & ? & ? & ?).
  rewrite <- !app_assoc in H. unfold decode_bloom.
  apply holds_at_u32 in H as [-> H]; [|split; auto].
  apply holds_at_bytes in H as (-> & -> & H).
  apply holds_at_u64 in H as [-> H]; [|apply bloom_num_bits_u64].
  apply holds_at_u32 in H as [-> H]; [|apply bloom_num_hashes_u32].
  set (p := pos + 4 + zlen (bloom_bitmap b) + 8 + 4) in *.
  apply holds_at_u64 in H as [-> H]; [|done].
  apply holds_at_u64 in H as [-> H]; [|done].
  replace (p + 8 + 8) with (p + 16) in H by lia.
  apply holds_at_u64 in H as [-> H]; [|done].
  replace (p + 16 + 8) with (p + 24) in H by lia.
  by apply holds_at_u64 in H as [-> H].
Qed.

(** The sizes at which the format's 32- and 64-bit fields hold a table. *)
Record table_fits (es : list entry) : Prop := {
  fits_count : zlen es < 2 ^ 32;
  fits_entry : Forall (fun e => zlen (ekey e) < 2 ^ 32 /\ zlen (snd e) < 2 ^ 32 /\ is_u64 (eseq e)) es;
  fits_bitmap : zlen (bloom_bitmap (table_bloom es)) < 2 ^ 32;
  fits_blob : zlen (build_bytes es) < 2 ^ 64;
}.

Lemma index_of_length (off : Z) (es : list entry) : length (index_of off es) = length es.
Proof.
  revert off. induction es as [|[k v] es IH]; intros off; simpl; [done|].
  destruct (is_delete k); simpl; by rewrite IH.
Qed.

Lemma index_of_ok (off : Z) (es : list entry) :
  0 <= off -> off + zlen (data_of es) < 2 ^ 64 ->
  Forall (fun e => zlen (ekey e) < 2 ^ 32 /\ zlen (snd e) < 2 ^ 32 /\ is_u64 (eseq e)) es ->
  Forall index_entry_ok (index_of off es).
Proof.
  intros Hoff Hlen Hes. revert off Hoff Hlen.
  induction Hes as [|[k v] es (Hk & Hv & Hs) Hes IH]; intros off Hoff Hlen; simpl in *; [done|].
  unfold ekey, eseq in *. simpl in *. pose proof (zlen_nonneg (data_of es)).
  destruct (is_delete k); rewrite ?zlen_app, ?zlen_nil in Hlen;
    try pose proof (zlen_nonneg (data_record k v)).
  - constructor; [|apply IH; lia]. unfold index_entry_ok, is_u64, is_u32; simpl.
    unfold is_u64 in Hs. split_and!; lia.
  - constructor; [|apply IH; lia]. unfold index_entry_ok, is_u64, is_u32; simpl.
    unfold is_u64 in Hs. pose proof (Z.mod_pos_bound (zlen v) (2 ^ 32)).
    split_and!; lia.
Qed.

(** Decoding a built table gives back its index, data and filter. *)
Lemma decode_build_bytes (key : string) (id : Z) (es : list entry) :
  table_fits es ->
  exists b, decode key id (build_bytes es) = Ok (mkSSTable key id (index_of 0 es) b (build_bytes es))
    /\ forall k, bloom_check b k = bloom_check (table_bloom es) k.
Proof.
  intros [Hcnt Hent Hbm Hblob]. eexists. split; [|intros k; apply bloom_restore].
  rewrite build_bytes_layout in *.
  set (D := data_of es) in *. set (I := encode_index (index_of 0 es)) in *.
  set (B := encode_bloom (table_bloom es)) in *.
  set (F := encode_footer (zlen D) (zlen D + zlen I)) in *.
  set (buf := D ++ I ++ B ++ F) in *.
  assert (zlen F = 32) as HF by (unfold F, encode_footer; autorewrite with zlen; done).
  assert (zlen buf = zlen D + zlen I + zlen B + 32) as Hbuf
    by (unfold buf; autorewrite with zlen; lia).
  pose proof (zlen_nonneg D). pose proof (zlen_nonneg I). pose proof (zlen_nonneg B).
  assert (holds_at buf (zlen buf - 32) (F ++ [])) as HholdF.
  { exists (D ++ I ++ B), []. split; [by rewrite <- !app_assoc, !app_nil_r|].
    autorewrite with zlen. lia. }
  assert (holds_at buf (zlen D) (I ++ [])) as HholdI.
  { exists D, (B ++ F). split; [by rewrite app_nil_r | done]. }
  assert (holds_at buf (zlen D + zlen I) (B ++ [])) as HholdB.
  { exists (D ++ I), F. split; [by rewrite app_nil_r, <- app_assoc | by rewrite zlen_app]. }
  unfold F, encode_footer in HholdF. rewrite <- !app_assoc in HholdF.
  apply holds_at_u64 in HholdF as [_ HholdF]; [|unfold is_u64; lia].
  apply holds_at_u64 in HholdF as [Hio HholdF]; [|unfold is_u64; lia].
  apply holds_at_u64 in HholdF as [Hbo HholdF]; [|unfold is_u64; lia].
  apply holds_at_bytes in HholdF as (Hmagic & _ & _).
  unfold decode, FOOTER_LEN.
  rewrite (proj2 (Z.ltb_ge _ _)) by lia.
  replace (slice buf (zlen buf - 8) 8) with SSTABLE_FORMAT_MAGIC
    by (rewrite <- Hmagic at 1; f_equal; lia).
  rewrite bool_decide_eq_true_2 by done. cbn [negb orb].
  rewrite Hio. replace (zlen buf - 32 + 16) with (zlen buf - 32 + 8 + 8) by lia. rewrite Hbo.
  unfold I, encode_index in HholdI. rewrite <- !app_assoc in HholdI.
  assert (zlen (index_of 0 es) = zlen es) as Hil by (unfold zlen; by rewrite index_of_length).
  apply holds_at_u32 in HholdI as [-> HholdI]; [|rewrite Hil; split; auto].
  rewrite Hil. unfold zlen at 1. rewrite Nat2Z.id, <- (index_of_length 0 es).
  erewrite decode_index_holds; [|apply index_of_ok; [lia|fold D; lia|done]|exact HholdI].
  by erewrite decode_bloom_holds.
Qed.

End Build.

(** ** A table and the entries it holds *)

Section Represents.
  Context {bloom_ops : Bloom} {bloom_laws : BloomLaws}.

(** [t] is a decoded table over the sorted entries [es]. *)
Record sst_rep (t : SSTable) (es : list entry) : Prop := {
  rep_sorted : ikey_sorted es;
  rep_fits : table_fits es;
  rep_index : sst_index t = index_of 0 es;
  rep_data : sst_data t = build_bytes es;
  rep_bloom : forall k, bloom_check (sst_bloom t) k = bloom_check (table_bloom es) k;
}.

(** The version [scan_all_versions] and the memtable iteration yield for an entry. *)
Definition version_of (e : entry) : version :=
  (ekey e, eseq e, tag (fst e), evalue e).

Lemma bloom_of_check (es : list entry) (b : bloom_t) (k : bytes) :
  bloom_check b k = true \/ (exists e, In e es /\ ekey e = k) ->
  bloom_check (bloom_of es b) k = true.
Proof.
  revert b. induction es as [|e es IH]; intros b; unfold bloom_of; simpl.
  - intros [?|(? & [] & _)]; done.
  - intros [H|(e' & [->|Hin] & <-)]; apply IH; [left|left|right; eauto].
    + by apply bloom_check_mono.
    + apply bloom_check_set.
Qed.

Lemma table_bloom_check (es : list entry) (e : entry) :
  In e es -> bloom_check (table_bloom es) (ekey e) = true.
Proof. intros. apply bloom_of_check. right. eauto. Qed.

(** An index entry carries the key, seq and tag of an entry, and leads to its value. *)
Definition describes (buf : bytes) (e : entry) (ie : IndexEntry) : Prop :=
  ie_key ie = ekey e /\ ie_seq ie = eseq e /\ ie_tag ie = tag (fst e)
  /\ (is_delete (fst e) = false -> read_value_at buf ie = Ok (snd e)).

(** Element [i] of the index describes element [i] of the entries, whose value
    the data section holds at the recorded offset. *)
Lemma index_of_values (es : list entry) (pre post : bytes) :
  Forall (fun e => zlen (ekey e) < 2 ^ 32 /\ zlen (snd e) < 2 ^ 32 /\ is_u64 (eseq e)) es ->
  Forall2 (describes (pre ++ data_of es ++ post)) es (index_of (zlen pre) es).
Proof.
  intros Hes. revert pre post. induction Hes as [|[k v] es (Hk & Hv & Hs) Hes IH]; intros pre post;
    [constructor|].
  cbn [index_of data_of]. unfold ekey, eseq in *. cbn [fst snd] in *.
  destruct (is_delete k) eqn:Ed.
  - constructor; [|apply IH]. unfold describes. simpl. by rewrite Ed.
  - constructor.
    + unfold describes. cbn [fst snd ie_key ie_seq ie_tag]. split_and!; try done. intros _.
      eapply (read_value_at_holds _ (user_key k) v (data_of es)); [done|done|].
      exists pre, post. done.
    + rewrite <- zlen_app.
      specialize (IH (pre ++ data_record k v) post). rewrite <- (app_assoc pre) in IH.
      rewrite <- (app_assoc (data_record k v)). exact IH.
Qed.

Lemma rep_values (t : SSTable) (es : list entry) :
  sst_rep t es ->
  Forall2 (describes (sst_data t)) es (sst_index t).
Proof.
  intros [Hs Hf -> -> _]. rewrite build_bytes_layout.
  apply (index_of_values es [] _), Hf.
Qed.

Lemma before_seek_lt (k : bytes) (s : Z) (e : entry) (ie : IndexEntry) :
  ie_key ie = ekey e -> ie_seq ie = eseq e ->
  before_seek k s ie = match cmp (fst e) (seek k s) with Lt => true | _ => false end.
Proof.
  intros Hk Hs. unfold before_seek. simpl. unfold ikey_cmp, then_with. simpl.
  fold (ekey e) (eseq e). rewrite Hk, Hs.
  destruct (bytes_cmp (ekey e) k); try done. rewrite Z.gtb_ltb.
  destruct (Z.compare_spec s (eseq e)) as [<-|Hlt|Hlt].
  - rewrite Z.ltb_irrefl. pose proof (Z_of_byte_range (tag (fst e))).
    destruct (Z.compare_spec (Z_of_byte (tag (fst e))) (Z_of_byte PUT_TAG)) as [| Hc |]; try done.
    change (Z_of_byte PUT_TAG) with 0 in Hc. lia.
  - by apply Z.ltb_lt.
  - apply Z.ltb_ge. lia.
Qed.

Lemma find_Forall2 {A B : Type} (R : A -> B -> Prop) (p : A -> bool) (q : B -> bool) l1 l2 :
  Forall2 R l1 l2 -> (forall a b, R a b -> p a = q b) ->
  match List.find p l1, List.find q l2 with
  | Some a, Some b => R a b
  | None, None => True
  | _, _ => False
  end.
Proof.
  intros H Hpq. induction H as [|a b l1 l2 Hab H IH]; simpl; [done|].
  rewrite (Hpq _ _ Hab). by destruct (q b).
Qed.

Lemma rep_read_at (t : SSTable) (es : list entry) (k : bytes) (s : Z) :
  sst_rep t es -> sst_read_at t k s = Ok (visible es k s).
Proof.
  intros Hrep. unfold sst_read_at, visible.
  destruct (bloom_check (sst_bloom t) k) eqn:Eb.
  - cbn [negb]. rewrite partition_point_find, seek_resolves by apply Hrep. unfold om_lower.
    pose proof (find_Forall2 _
      (fun e => match cmp (fst e) (seek k s) with Lt => false | _ => true end)
      (fun ie => negb (before_seek k s ie)) _ _ (rep_values _ _ Hrep)) as Hf.
    destruct (List.find _ es) as [e|], (List.find _ (sst_index t)) as [ie|];
      try (exfalso; apply Hf; intros a b (Hk & Hs & _);
           rewrite (before_seek_lt k s a b Hk Hs); by destruct (cmp _ _)).
    + destruct Hf as (Hk & Hs & Ht & Hv).
      { intros a b (Hk & Hs & _). rewrite (before_seek_lt k s a b Hk Hs). by destruct (cmp _ _). }
      rewrite Hk, Ht. destruct (keqb (ekey e) k); [|done]. simpl. unfold evalue.
      fold (is_delete (fst e)). destruct (is_delete (fst e)); [done|]. by rewrite Hv.
    + done.
  - simpl. destruct (resolve es k s) as [e|] eqn:Er; [|done].
    apply resolve_Some_In in Er as (Hin & <- & _).
    rewrite (rep_bloom _ _ Hrep), table_bloom_check in Eb by done. done.
Qed.

Lemma scan_index_describes (buf : bytes) (es : list entry) (idx : list IndexEntry) :
  Forall2 (describes buf) es idx -> scan_index buf idx = Ok (map version_of es).
Proof.
  induction 1 as [|e ie es idx (Hk & Hs & Ht & Hval) Hv IH]; [done|].
  cbn [scan_index map]. unfold version_of at 1, evalue. rewrite Hk, Hs, Ht.
  fold (is_delete (fst e)). destruct (is_delete (fst e)).
  - by rewrite IH.
  - by rewrite Hval, IH.
Qed.

Lemma rep_scan (t : SSTable) (es : list entry) :
  sst_rep t es -> scan_all_versions t = Ok (map version_of es).
Proof. intros Hrep. by apply scan_index_describes, rep_values. Qed.

Lemma fold_max_ge (l : list Z) (m : Z) :
  m <= fold_left Z.max l m /\ Forall (fun x => x <= fold_left Z.max l m) l.
Proof.
  revert m. induction l as [|x l IH]; intros m; simpl; [split; [lia|done]|].
  destruct (IH (Z.max m x)) as [H1 H2]. split; [lia|]. constructor; [lia|done].
Qed.

Lemma rep_max_seq (t : SSTable) (es : list entry) :
  sst_rep t es -> sst_max_seq t = fold_left Z.max (map eseq es) 0.
Proof.
  intros Hrep. unfold sst_max_seq. pose proof (rep_values _ _ Hrep) as Hv.
  generalize 0. clear Hrep. revert Hv. generalize (sst_index t), (sst_data t). intros idx buf Hv.
  induction Hv as [|e ie es idx (_ & Hs & _) Hv IH]; intros m; simpl; [done|].
  by rewrite IH, Hs.
Qed.

Lemma rep_max_seq_ge (t : SSTable) (es : list entry) (e : entry) :
  sst_rep t es -> In e es -> eseq e <= sst_max_seq t.
Proof.
  intros Hrep Hin. rewrite (rep_max_seq _ _ Hrep).
  destruct (fold_max_ge (map eseq es) 0) as [_ H]. rewrite Forall_forall in H.
  apply H. apply list_elem_of_In, in_map_iff. eauto.
Qed.

Lemma decode_rep (key : string) (id : Z) (es : list entry) :
  ikey_sorted es -> table_fits es ->
  exists t, decode key id (build_bytes es) = Ok t /\ sst_rep t es /\ sst_id t = id /\ sst_key t = key.
Proof.
  intros Hs Hf. destruct (decode_build_bytes key id es Hf) as (b & Hd & Hb).
  eexists. split; [exact Hd|]. split; [|done]. by split.
Qed.

(** C9. Build, store, decode: a table built from entries in key order decodes,
    every point read at a snapshot returns the newest version at or below it
    (a tombstone included), the full scan returns every version in order, and
    [max_seq] bounds every stored sequence number. *)
Theorem sstable_build_decode_read (key : string) (id : Z) (es : list entry) :
  ikey_sorted es -> table_fits es ->
  exists t, decode key id (build_bytes es) = Ok t
    /\ sst_id t = id
    /\ (forall k s, sst_read_at t k s = Ok (visible es k s))
    /\ scan_all_versions t = Ok (map version_of es)
    /\ (forall e, In e es -> eseq e <= sst_max_seq t).
Proof.
  intros Hs Hf. destruct (decode_rep key id es Hs Hf) as (t & Hd & Hrep & Hid & _).
  exists t. split_and!; [done | done | | |].
  - intros. by apply rep_read_at.
  - by apply rep_scan.
  - intros. by eapply rep_max_seq_ge.
Qed.

(** A blob whose last eight bytes are not the format marker is refused. *)
Theorem sstable_decode_refuses_unmarked (key : string) (id : Z) (data : bytes) :
  slice data (zlen data - 8) 8 <> SSTABLE_FORMAT_MAGIC ->
  decode key id data = Err "sstable is not in the current format (missing format marker)"%string.
Proof.
  intros H. unfold decode. rewrite (bool_decide_eq_false_2 _ H). by rewrite orb_true_r.
Qed.

End Represents.

(** ** A concrete filter

    Eight bits, one hash (the sum of the key's bytes), used by the witnesses. *)
Section DemoBloom.

Definition demo_hash (k : bytes) : Z := fold_right (fun b z => (Z_of_byte b + z) mod 8) 0 k.

Definition demo_mask (b : byte) (h : Z) : byte :=
  byte_of_Z (Z.lor (Z_of_byte b) (Z.shiftl 1 h)).

#[export] Instance demo_bloom : Bloom := {|
  bloom_t := byte;
  bloom_new _ := Byte.x00;
  bloom_set b k := demo_mask b (demo_hash k);
  bloom_check b k := Z.testbit (Z_of_byte b) (demo_hash k);
  bloom_bitmap b := [b];
  bloom_num_bits _ := 8;
  bloom_num_hashes _ := 1;
  bloom_sip_keys _ := ((0, 0), (0, 0));
  bloom_from_existing bs _ _ _ := nth 0 bs Byte.x00;
|}.

Lemma demo_hash_range (k : bytes) : 0 <= demo_hash k < 8.
Proof. destruct k; simpl; [lia|]. apply Z.mod_pos_bound. lia. Qed.

Lemma demo_mask_testbit (b : byte) (h i : Z) :
  0 <= h < 8 -> 0 <= i < 8 ->
  Z.testbit (Z_of_byte (demo_mask b h)) i = Z.testbit (Z_of_byte b) i || (i =? h).
Proof.
  intros Hh Hi. unfold demo_mask. rewrite Z_of_byte_of_Z.
  rewrite Z.mod_pow2_bits_low by lia. rewrite Z.lor_spec. f_equal.
  rewrite Z.shiftl_1_l, Z.pow2_bits_eqb by lia. by rewrite Z.eqb_sym.
Qed.

#[export] Instance demo_bloom_laws : BloomLaws.
Proof.
  split; simpl.
  - intros b k. pose proof (demo_hash_range k). rewrite demo_mask_testbit by done.
    by rewrite Z.eqb_refl, orb_true_r.
  - intros b k k'. pose proof (demo_hash_range k). pose proof (demo_hash_range k').
    rewrite demo_mask_testbit by done. by intros ->.
  - done.
  - done.
  - done.
  - done.
Qed.

End DemoBloom.

(** Two keys, the first with a deleted version above a live one. *)
Definition demo_entries : list entry :=
  [ (mkInternalKey [Byte.x61] 5 DELETE_TAG, []);
    (mkInternalKey [Byte.x61] 3 PUT_TAG, [Byte.x31]);
    (mkInternalKey [Byte.x62] 4 PUT_TAG, [Byte.x32; Byte.x33]) ].

Lemma demo_entries_sorted : ikey_sorted demo_entries.
Proof. repeat constructor; done. Qed.

Lemma demo_entries_fit : table_fits demo_entries.
Proof.
  split; [done | | done | done].
  repeat (apply Forall_cons; split); try apply Forall_nil_2; split_and!; done.
Qed.

Lemma sstable_build_decode_read_witness :
  exists t, decode "sst/1" 1 (build_bytes demo_entries) = Ok t
    /\ sst_read_at t [Byte.x61] 4 = Ok (Some (Some [Byte.x31]))
    /\ sst_read_at t [Byte.x61] 9 = Ok (Some None)
    /\ sst_read_at t [Byte.x62] 3 = Ok None.
Proof.
  destruct (sstable_build_decode_read "sst/1" 1 demo_entries demo_entries_sorted demo_entries_fit)
    as (t & Hd & _ & Hr & _).
  exists t. split; [exact Hd|]. rewrite !Hr. done.
Defined.

Lemma sstable_decode_refuses_unmarked_witness :
  decode "sst/old" 1 [] = Err "sstable is not in the current format (missing format marker)"%string.
Proof. apply sstable_decode_refuses_unmarked. vm_compute. discriminate. Defined.
