(* ===== verification/ObjectStore.v ===== *)
(** [storage/objectstore.rs]: the [ObjectStore] trait, what its clients rely
    on, and the local-filesystem implementation.

    - [ObjectStore S]: the trait, as operations on a store state [S];
    - [StoreLaws S]: the contract. [os_objects] is the abstract content (bytes
      and ETag per key); every operation either behaves as documented or
      reports an error, after which the write it attempted may or may not have
      taken effect;
    - [LocalFs]: [LocalFsObjectStore] over a flat file map, with a stream of
      faults that makes any system call fail; [local_fs_laws] shows it meets
      the contract.

    SHA-256 is the [sha2] crate, a parameter ([Sha256]). *)

From Stdlib Require Import Strings.Byte Strings.String ZArith Lia.
From stdpp Require Import base list gmap strings.
From S2P Require Import Prelude.

Open Scope Z_scope.

Record ObjectMeta := mkObjectMeta { etag : string; osize : Z }.

Inductive CasError :=
| Conflict (current_etag : option string)
| Other (e : string).

Class ObjectStore (S : Type) := {
  os_get : string -> S -> S * Result (option (bytes * ObjectMeta));
  os_put : string -> bytes -> S -> S * Result ObjectMeta;
  os_put_if_match : string -> bytes -> option string -> S -> S * result CasError ObjectMeta;
  os_delete : string -> S -> S * Result unit;
  os_list : string -> S -> S * Result (list string);
}.

(** ** The contract *)

(** The content of a store: per key, the object's bytes and its ETag. *)
Abbreviation objects := (gmap string (bytes * string)).

Definition meta_of (o : bytes * string) : bytes * ObjectMeta :=
  (fst o, mkObjectMeta (snd o) (zlen (fst o))).

Definition etag_of (objs : objects) (k : string) : option string := snd <$> objs !! k.

(** A failed write of [d] under [k] left the store alone or wrote the object. *)
Definition maybe_written (objs objs' : objects) (k : string) (d : bytes) : Prop :=
  objs' = objs \/ exists e, objs' = <[k := (d, e)]> objs.

Class StoreLaws (S : Type) `{!ObjectStore S} := {
  os_wf : S -> Prop;
  os_objects : S -> objects;
  os_key_ok : string -> Prop;

  os_get_law : forall k s s' r, os_wf s -> os_key_ok k -> os_get k s = (s', r) ->
    os_wf s' /\ os_objects s' = os_objects s
    /\ forall o, r = Ok o -> o = meta_of <$> os_objects s !! k;

  os_put_law : forall k d s s' r, os_wf s -> os_key_ok k -> os_put k d s = (s', r) ->
    os_wf s'
    /\ match r with
       | Ok m => os_objects s' = <[k := (d, etag m)]> (os_objects s)
       | Err _ => maybe_written (os_objects s) (os_objects s') k d
       end;

  os_cas_law : forall k d expected s s' r, os_wf s -> os_key_ok k ->
    os_put_if_match k d expected s = (s', r) ->
    os_wf s'
    /\ match r with
       | Ok m => etag_of (os_objects s) k = expected
                 /\ os_objects s' = <[k := (d, etag m)]> (os_objects s)
       | Err (Conflict cur) => os_objects s' = os_objects s
                 /\ cur = etag_of (os_objects s) k /\ cur <> expected
       | Err (Other _) => os_objects s' = os_objects s
                 \/ etag_of (os_objects s) k = expected
                    /\ maybe_written (os_objects s) (os_objects s') k d
       end;

  os_delete_law : forall k s s' r, os_wf s -> os_key_ok k -> os_delete k s = (s', r) ->
    os_wf s'
    /\ match r with
       | Ok _ => os_objects s' = delete k (os_objects s)
       | Err _ => os_objects s' = os_objects s \/ os_objects s' = delete k (os_objects s)
       end;

  os_put_size : forall k d s s' m, os_put k d s = (s', Ok m) -> osize m = zlen d;
  os_cas_size : forall k d expected s s' m, os_put_if_match k d expected s = (s', Ok m) -> osize m = zlen d;
}.

(** ** [LocalFsObjectStore] *)

Class Sha256 := sha256_hex : bytes -> string.

(** The files below [root], by path, and whether each coming system call fails. *)
Record LocalFs := mkLocalFs { fs_files : gmap string bytes; fs_faults : list bool }.

(** Consume one system call: whether it fails, and the filesystem after it. *)
Definition fs_call (s : LocalFs) : LocalFs * bool :=
  match fs_faults s with
  | [] => (s, false)
  | b :: fs => (mkLocalFs (fs_files s) fs, b)
  end.

Definition ch_backslash : Ascii.ascii := Ascii.ascii_of_nat 92.
Definition ch_slash : Ascii.ascii := Ascii.ascii_of_nat 47.

(** [key.replace('\\', "/")] *)
Fixpoint path_for (key : string) : string :=
  match key with
  | EmptyString => EmptyString
  | String c key' =>
      String (if Ascii.eqb c ch_backslash then ch_slash else c) (path_for key')
  end.

Section LocalFsOps.
  Context {sha : Sha256}.

Definition fs_get (key : string) (s : LocalFs) : LocalFs * Result (option (bytes * ObjectMeta)) :=
  let '(s, failed) := fs_call s in
  if failed then (s, Err "reading object"%string) else
  match fs_files s !! path_for key with
  | Some data => (s, Ok (Some (data, mkObjectMeta (sha256_hex data) (zlen data))))
  | None => (s, Ok None)
  end.

(** Create the parent directory, write and sync a temporary file, rename it
    into place, sync the directory. The temporary file has a fresh name that no
    key denotes and is not part of the modelled file map. *)
Definition fs_put (key : string) (data : bytes) (s : LocalFs) : LocalFs * Result ObjectMeta :=
  let '(s, failed) := fs_call s in
  if failed then (s, Err "creating parent dir for object"%string) else
  let '(s, failed) := fs_call s in
  if failed then (s, Err "writing temp object"%string) else
  let '(s, failed) := fs_call s in
  if failed then (s, Err "renaming temp object into place"%string) else
  let s := mkLocalFs (<[path_for key := data]> (fs_files s)) (fs_faults s) in
  let '(s, failed) := fs_call s in
  if failed then (s, Err "syncing directory for object"%string) else
  (s, Ok (mkObjectMeta (sha256_hex data) (zlen data))).

(** Conditional writes hold [cas_lock], so [get] and [put] run with no other
    conditional write in between. *)
Definition fs_put_if_match (key : string) (data : bytes) (expected_etag : option string)
    (s : LocalFs) : LocalFs * result CasError ObjectMeta :=
  match fs_get key s with
  | (s, Err e) => (s, Err (Other e))
  | (s, Ok current) =>
      let current_etag := (fun o => etag (snd o)) <$> current in
      let matches :=
        match expected_etag, current_etag with
        | None, None => true
        | Some exp, Some cur => String.eqb exp cur
        | _, _ => false
        end in
      if negb matches then (s, Err (Conflict current_etag))
      else match fs_put key data s with
           | (s, Err e) => (s, Err (Other e))
           | (s, Ok m) => (s, Ok m)
           end
  end.

Definition fs_delete (key : string) (s : LocalFs) : LocalFs * Result unit :=
  let '(s, failed) := fs_call s in
  if failed then (s, Err "deleting object"%string)
  else (mkLocalFs (delete (path_for key) (fs_files s)) (fs_faults s), Ok tt).

(** Whether [needle] occurs in [hay] ([str::contains]). *)
Fixpoint str_contains (needle hay : string) : bool :=
  String.prefix needle hay
  || match hay with EmptyString => false | String _ hay' => str_contains needle hay' end.

Definition fs_list (prefix : string) (s : LocalFs) : LocalFs * Result (list string) :=
  let '(s, failed) := fs_call s in
  if failed then (s, Err "reading directory"%string)
  else (s, Ok (List.filter (fun k => String.prefix prefix k)
                 (List.filter (fun k => negb (str_contains ".tmp-" k))
                    (map fst (map_to_list (fs_files s)))))).

#[export] Instance local_fs_store : ObjectStore LocalFs := {|
  os_get := fs_get;
  os_put := fs_put;
  os_put_if_match := fs_put_if_match;
  os_delete := fs_delete;
  os_list := fs_list;
|}.

(** ** The filesystem store meets the contract *)

Lemma fs_call_files (s s' : LocalFs) (b : bool) :
  fs_call s = (s', b) -> fs_files s' = fs_files s.
Proof. unfold fs_call. destruct (fs_faults s); by intros [= <- <-]. Qed.

Definition fs_objects (s : LocalFs) : objects := (fun d => (d, sha256_hex d)) <$> fs_files s.

(** A key the store keeps as it is (it has no backslash). *)
Definition fs_key_ok (k : string) : Prop := path_for k = k.

Ltac fs_step :=
  match goal with
  | |- context [fs_call ?s] =>
      let E := fresh "Ecall" in
      destruct (fs_call s) as [? []] eqn:E; apply fs_call_files in E
  end.

Lemma fs_get_spec (k : string) (s s' : LocalFs) r :
  fs_key_ok k -> fs_get k s = (s', r) ->
  fs_files s' = fs_files s /\ forall o, r = Ok o -> o = meta_of <$> fs_objects s !! k.
Proof.
  intros Hk. unfold fs_get. fs_step; [intros [= <- <-]; done|].
  rewrite Hk, Ecall. unfold fs_objects. rewrite lookup_fmap.
  destruct (fs_files s !! k); intros [= <- <-]; (split; [done|]); by intros o [= <-].
Qed.

Lemma fs_put_spec (k : string) (d : bytes) (s s' : LocalFs) r :
  fs_key_ok k -> fs_put k d s = (s', r) ->
  match r with
  | Ok m => etag m = sha256_hex d /\ fs_files s' = <[k := d]> (fs_files s)
  | Err _ => fs_files s' = fs_files s \/ fs_files s' = <[k := d]> (fs_files s)
  end.
Proof.
  intros Hk. unfold fs_put.
  fs_step; [intros [= <- <-]; by left; rewrite Ecall|].
  fs_step; [intros [= <- <-]; left; congruence|].
  fs_step; [intros [= <- <-]; left; congruence|].
  rewrite Hk. fs_step; simpl in *; intros [= <- <-]; [right | split; [done|]]; congruence.
Qed.

Lemma fs_objects_insert (s s' : LocalFs) (k : string) (d : bytes) :
  fs_files s' = <[k := d]> (fs_files s) ->
  fs_objects s' = <[k := (d, sha256_hex d)]> (fs_objects s).
Proof. intros H. unfold fs_objects. by rewrite H, fmap_insert. Qed.

Lemma fs_objects_same (s s' : LocalFs) : fs_files s' = fs_files s -> fs_objects s' = fs_objects s.
Proof. intros H. unfold fs_objects. by rewrite H. Qed.

#[export] Program Instance local_fs_laws : StoreLaws LocalFs := {|
  os_wf _ := True;
  os_objects := fs_objects;
  os_key_ok := fs_key_ok;
|}.
Next Obligation.
  simpl. intros k s s' r _ Hk H. apply fs_get_spec in H as [Hf Ho]; [|done].
  split_and!; [done | by apply fs_objects_same | done].
Qed.
Next Obligation.
  simpl. intros k d s s' r _ Hk H. apply fs_put_spec in H; [|done]. split; [done|].
  destruct r as [m|e].
  - destruct H as [-> H]. by apply fs_objects_insert.
  - destruct H as [H|H]; [left; by apply fs_objects_same | right; eexists].
    by apply fs_objects_insert.
Qed.
Next Obligation.
  simpl. intros k d expected s s' r _ Hk. unfold fs_put_if_match.
  destruct (fs_get k s) as [s1 [current|e]] eqn:Eg; apply fs_get_spec in Eg as [Hf Hcur]; try done.
  - specialize (Hcur _ eq_refl).
    assert ((fun o => etag (snd o)) <$> current = etag_of (fs_objects s) k) as Het.
    { rewrite Hcur. unfold etag_of. by destruct (fs_objects s !! k). }
    rewrite Het. destruct (negb _) eqn:Em.
    + intros [= <- <-]. split_and!; [done | by apply fs_objects_same | done |].
      intros Heq. rewrite Heq in Em. destruct expected; [by rewrite String.eqb_refl in Em | done].
    + assert (etag_of (fs_objects s) k = expected) as Hexp.
      { destruct expected, (etag_of (fs_objects s) k); try done.
        apply negb_false_iff, String.eqb_eq in Em. congruence. }
      destruct (fs_put k d s1) as [s2 [m|e]] eqn:Ep; apply fs_put_spec in Ep; try done;
        rewrite Hf in Ep; intros [= <- <-]; (split; [done|]).
      * destruct Ep as [Hm Ep]. split; [done|]. rewrite Hm. by apply fs_objects_insert.
      * destruct Ep as [Ep|Ep]; [left; by apply fs_objects_same | right; split; [done|]].
        right. eexists. by apply fs_objects_insert.
  - intros [= <- <-]. split; [done|]. left. by apply fs_objects_same.
Qed.
Next Obligation.
  simpl. intros k s s' r _ Hk. unfold fs_delete. fs_step; intros [= <- <-].
  - split; [done|]. left. by apply fs_objects_same.
  - split; [done|]. unfold fs_objects. simpl. by rewrite Ecall, Hk, fmap_delete.
Qed.

Next Obligation.
  simpl. intros k d s s' m. unfold fs_put. repeat fs_step; by intros [= _ <-].
Qed.
Next Obligation.
  simpl. intros k d expected s s' m. unfold fs_put_if_match.
  destruct (fs_get k s) as [s1 [o|e]]; [|done]. case_match; [done|].
  unfold fs_put. repeat fs_step; by intros [= _ <-].
Qed.

End LocalFsOps.

(** A stand-in for the digest, used by the witnesses: the content itself. *)
Definition demo_sha : Sha256 := string_of_list_byte.
