(* ===== verification/Manifest.v ===== *)
(** [storage/manifest.rs]: the manifest object, loaded and saved by
    compare-and-swap.

    Serialisation is the [bincode] crate, a parameter ([Bincode], with
    [BincodeLaws] for what it documents: a value whose fields fit their types
    decodes to itself). *)

From Stdlib Require Import Strings.Byte Strings.String ZArith Lia.
From stdpp Require Import base list gmap strings.
From S2P Require Import Prelude ObjectStore.

Open Scope Z_scope.

(** [bincode::serialize] / [bincode::deserialize] at a type. *)
Class Bincode (A : Type) := {
  bc_serialize : A -> bytes;
  bc_deserialize : bytes -> option A;
}.

Class BincodeLaws (A : Type) {bc : Bincode A} := {
  bc_in_range : A -> Prop;
  bc_roundtrip : forall a, bc_in_range a -> bc_deserialize (bc_serialize a) = Some a;
}.

Record Manifest := mkManifest {
  sstable_ids : list Z;
  wal_segment_seq : Z;
  writer_fencing_token : Z;
  max_commit_seq : Z;
}.

(** [impl Default for Manifest] *)
Definition manifest_default : Manifest := mkManifest [] 0 0 0.

(** The shape written before [max_commit_seq] existed. *)
Record ManifestV0 := mkManifestV0 {
  v0_sstable_ids : list Z;
  v0_wal_segment_seq : Z;
  v0_writer_fencing_token : Z;
}.

Definition manifest_from_v0 (v0 : ManifestV0) : Manifest :=
  mkManifest (v0_sstable_ids v0) (v0_wal_segment_seq v0) (v0_writer_fencing_token v0) 0.

Definition MANIFEST_KEY : string := "manifest.bin".

Section Manifest.
  Context {S : Type} {st : ObjectStore S}.
  Context {bc : Bincode Manifest} {bc0 : Bincode ManifestV0}.

(** The decoder of [Manifest::load]: the current shape, else the old one. *)
Definition manifest_decode (data : bytes) : option Manifest :=
  match bc_deserialize data with
  | Some m => Some m
  | None => manifest_from_v0 <$> bc_deserialize data
  end.

(** [Manifest::load] *)
Definition manifest_load (s : S) : S * Result (option (Manifest * string)) :=
  match os_get MANIFEST_KEY s with
  | (s, Err e) => (s, Err e)
  | (s, Ok None) => (s, Ok None)
  | (s, Ok (Some (data, meta))) =>
      match manifest_decode data with
      | Some m => (s, Ok (Some (m, etag meta)))
      | None => (s, Err "deserializing manifest"%string)
      end
  end.

(** [Manifest::save_cas] *)
Definition manifest_save_cas (m : Manifest) (expected_etag : option string) (s : S)
    : S * result CasError string :=
  match os_put_if_match MANIFEST_KEY (bc_serialize m) expected_etag s with
  | (s, Ok meta) => (s, Ok (etag meta))
  | (s, Err e) => (s, Err e)
  end.

Context {laws : StoreLaws S}.

(** The manifest a store holds, with its ETag. *)
Definition stored_manifest (objs : objects) : option (option Manifest * string) :=
  (fun o => (manifest_decode (fst o), snd o)) <$> objs !! MANIFEST_KEY.

Lemma manifest_load_spec (s s' : S) r :
  os_wf s -> os_key_ok MANIFEST_KEY -> manifest_load s = (s', r) ->
  os_wf s' /\ os_objects s' = os_objects s
  /\ match r with
     | Ok None => stored_manifest (os_objects s) = None
     | Ok (Some (m, e)) => stored_manifest (os_objects s) = Some (Some m, e)
     | Err _ => True
     end.
Proof.
  intros Hwf Hk. unfold manifest_load, stored_manifest.
  destruct (os_get MANIFEST_KEY s) as [s1 [[[data meta]|]|e]] eqn:Eg;
    destruct (os_get_law _ _ _ _ Hwf Hk Eg) as (Hwf1 & Hobj & Ho).
  - specialize (Ho _ eq_refl). symmetry in Ho. apply fmap_Some in Ho as ([d e] & Hl & Hm).
    injection Hm as -> ->. rewrite Hl. simpl.
    destruct (manifest_decode d); intros [= <- <-]; done.
  - intros [= <- <-]. specialize (Ho _ eq_refl). symmetry in Ho.
    apply fmap_None in Ho. by rewrite Ho.
  - by intros [= <- <-].
Qed.

Lemma manifest_save_cas_spec (m : Manifest) (expected : option string) (s s' : S) r :
  os_wf s -> os_key_ok MANIFEST_KEY -> manifest_save_cas m expected s = (s', r) ->
  os_wf s'
  /\ match r with
     | Ok e => etag_of (os_objects s) MANIFEST_KEY = expected
               /\ os_objects s' = <[MANIFEST_KEY := (bc_serialize m, e)]> (os_objects s)
     | Err (Conflict cur) => os_objects s' = os_objects s
               /\ cur = etag_of (os_objects s) MANIFEST_KEY /\ cur <> expected
     | Err (Other _) => os_objects s' = os_objects s
               \/ etag_of (os_objects s) MANIFEST_KEY = expected
                  /\ maybe_written (os_objects s) (os_objects s') MANIFEST_KEY (bc_serialize m)
     end.
Proof.
  intros Hwf Hk. unfold manifest_save_cas.
  destruct (os_put_if_match MANIFEST_KEY (bc_serialize m) expected s) as [s1 [meta|[cur|e]]] eqn:Ec;
    destruct (os_cas_law _ _ _ _ _ _ Hwf Hk Ec) as [Hwf1 H]; by intros [= <- <-].
Qed.

Context {bcl : BincodeLaws Manifest}.

(** Saving and loading a manifest whose fields fit their types. *)
Lemma manifest_decode_serialize (m : Manifest) :
  bc_in_range m -> manifest_decode (bc_serialize m) = Some m.
Proof. intros H. unfold manifest_decode. by rewrite bc_roundtrip. Qed.

(** A manifest saved by compare-and-swap is the one the next successful
    load returns, under the ETag the save reported; and the save succeeded only
    because the expected ETag was the stored one. *)
Theorem manifest_save_then_load (m : Manifest) (expected : option string) (s s1 s2 : S) e r :
  os_wf s -> os_key_ok MANIFEST_KEY -> bc_in_range m ->
  manifest_save_cas m expected s = (s1, Ok e) ->
  manifest_load s1 = (s2, Ok r) ->
  r = Some (m, e) /\ etag_of (os_objects s) MANIFEST_KEY = expected.
Proof.
  intros Hwf Hk Hm Hsave Hload.
  apply manifest_save_cas_spec in Hsave as (Hwf1 & Hexp & Hobj); [|done..].
  apply manifest_load_spec in Hload as (_ & _ & Hr); [|done..].
  unfold stored_manifest in Hr. rewrite Hobj, lookup_insert_eq in Hr. simpl in Hr.
  rewrite manifest_decode_serialize in Hr by done.
  destruct r as [[m' e']|]; [|done]. by injection Hr as <- <-.
Qed.

(** Split-brain is impossible at the manifest: of two writers that both
    expect the stored ETag, once the first one's save has gone through (under a
    new ETag) the second one's is refused and changes nothing. *)
Theorem manifest_stale_writer_is_refused (m1 m2 : Manifest) (expected : option string)
    (s s1 s2 : S) e r :
  os_wf s -> os_key_ok MANIFEST_KEY ->
  manifest_save_cas m1 expected s = (s1, Ok e) ->
  Some e <> expected ->
  manifest_save_cas m2 expected s1 = (s2, r) ->
  (exists err, r = Err err) /\ os_objects s2 = os_objects s1.
Proof.
  intros Hwf Hk H1 Hne H2.
  apply manifest_save_cas_spec in H1 as (Hwf1 & _ & Hobj); [|done..].
  apply manifest_save_cas_spec in H2 as (_ & H2); [|done..].
  assert (etag_of (os_objects s1) MANIFEST_KEY = Some e) as Het.
  { rewrite Hobj. unfold etag_of. by rewrite lookup_insert_eq. }
  rewrite Het in H2. destruct r as [e'|[cur|err]]; (split; [eauto|]).
  - exfalso. by destruct H2.
  - exfalso. by destruct H2.
  - apply H2.
  - destruct H2 as [H2|[H2 _]]; done.
Qed.

End Manifest.

(** ** A concrete serialisation, for the witnesses

    The fields as eight-byte integers, the list preceded by its length. *)
Definition demo_ser (zs : list Z) : bytes := concat (map u64_to_be zs).

Fixpoint demo_de (n : nat) (bs : bytes) : option (list Z) :=
  match n with
  | O => match bs with [] => Some [] | _ => None end
  | S n' => if (length bs <? 8)%nat then None
            else cons (from_be (take 8 bs)) <$> demo_de n' (drop 8 bs)
  end.

Lemma demo_de_ser (zs : list Z) : Forall is_u64 zs -> demo_de (length zs) (demo_ser zs) = Some zs.
Proof.
  unfold demo_ser. induction 1 as [|z zs Hz H IH]; [done|].
  assert (length (u64_to_be z) = 8%nat) as Hl by apply length_to_be.
  cbn [length map concat demo_de]. rewrite length_app, Hl. simpl Nat.ltb.
  rewrite take_app_length', drop_app_length' by done. by rewrite IH, from_u64_to_be.
Qed.

#[export] Instance demo_bincode_manifest : Bincode Manifest := {|
  bc_serialize m := demo_ser (zlen (sstable_ids m) :: wal_segment_seq m
                      :: writer_fencing_token m :: max_commit_seq m :: sstable_ids m);
  bc_deserialize bs :=
    match demo_de (length bs / 8) bs with
    | Some (n :: w :: t :: c :: ids) => if n =? zlen ids then Some (mkManifest ids w t c) else None
    | _ => None
    end;
|}.

Lemma length_demo_ser (zs : list Z) : length (demo_ser zs) = (8 * length zs)%nat.
Proof.
  unfold demo_ser. induction zs as [|z zs IH]; [done|]. cbn [map concat length].
  rewrite length_app, IH. change (length (u64_to_be z)) with 8%nat. lia.
Qed.

#[export] Program Instance demo_bincode_manifest_laws : BincodeLaws Manifest := {|
  bc_in_range m := Forall is_u64 (zlen (sstable_ids m) :: wal_segment_seq m
                      :: writer_fencing_token m :: max_commit_seq m :: sstable_ids m);
|}.
Next Obligation.
  intros [ids w t c] H. unfold bc_deserialize, bc_serialize, demo_bincode_manifest. cbn beta iota.
  rewrite length_demo_ser, (Nat.mul_comm 8), Nat.div_mul, demo_de_ser by done.
  by rewrite Z.eqb_refl.
Qed.

#[export] Instance demo_bincode_manifest_v0 : Bincode ManifestV0 := {|
  bc_serialize m := demo_ser (zlen (v0_sstable_ids m) :: v0_wal_segment_seq m
                      :: v0_writer_fencing_token m :: v0_sstable_ids m);
  bc_deserialize bs :=
    match demo_de (length bs / 8) bs with
    | Some (n :: w :: t :: ids) => if n =? zlen ids then Some (mkManifestV0 ids w t) else None
    | _ => None
    end;
|}.

Definition demo_manifest (c : Z) : Manifest := mkManifest [1; 2; 3] 5 1 c.

Lemma manifest_save_then_load_witness :
  let s := mkLocalFs ∅ [] in
  let '(s1, r1) := @manifest_save_cas _ (@local_fs_store demo_sha) _ (demo_manifest 42) None s in
  let '(s2, r2) := @manifest_load _ (@local_fs_store demo_sha) _ _ s1 in
  exists e, r1 = Ok e /\ r2 = Ok (Some (demo_manifest 42, e)).
Proof.
  intros s.
  destruct (@manifest_save_cas _ (@local_fs_store demo_sha) _ (demo_manifest 42) None s)
    as [s1 [e|err]] eqn:E1; [|exfalso; by vm_compute in E1].
  destruct (@manifest_load _ (@local_fs_store demo_sha) _ _ s1) as [s2 [r|err]] eqn:E2;
    [|exfalso; vm_compute in E1; injection E1 as <- <-; by vm_compute in E2].
  exists e. split; [done|]. f_equal.
  refine (proj1 (@manifest_save_then_load _ (@local_fs_store demo_sha) _ _
            (@local_fs_laws demo_sha) _ (demo_manifest 42) None s s1 s2 e r I eq_refl _ E1 E2)).
  repeat (apply Forall_cons; split); try apply Forall_nil_2; split; vm_compute; congruence.
Defined.

Lemma manifest_stale_writer_is_refused_witness :
  let s := mkLocalFs ∅ [] in
  let '(s1, _) := @manifest_save_cas _ (@local_fs_store demo_sha) _ (demo_manifest 42) None s in
  let '(s2, r2) := @manifest_save_cas _ (@local_fs_store demo_sha) _ (demo_manifest 43) None s1 in
  (exists err, r2 = Err err) /\ fs_files s2 = fs_files s1.
Proof.
  intros s.
  destruct (@manifest_save_cas _ (@local_fs_store demo_sha) _ (demo_manifest 42) None s)
    as [s1 r1] eqn:E1.
  destruct (@manifest_save_cas _ (@local_fs_store demo_sha) _ (demo_manifest 43) None s1)
    as [s2 r2] eqn:E2.
  destruct r1 as [e|err]; [|exfalso; by vm_compute in E1].
  destruct (@manifest_stale_writer_is_refused _ (@local_fs_store demo_sha) _
              (@local_fs_laws demo_sha) (demo_manifest 42) (demo_manifest 43) None s s1 s2 e r2
              I eq_refl E1 ltac:(discriminate) E2) as [H1 H2].
  split; [exact H1|]. vm_compute in E1. injection E1 as <- <-. vm_compute in E2.
  injection E2 as <- <-. reflexivity.
Defined.
