(* ===== verification/Lsm.v ===== *)
(** [storage/lsm.rs]: the memtable and the LSM engine, operation by operation.

    [LsmEngine] bundles what the engine's two locks protect ([WriteState],
    [EngineView]) with the object store and the lease handle it was opened on.
    An operation is a function on that bundle; it stands for the critical
    section(s) of the Rust method, and returns the bundle even when it fails,
    so partial effects of failed operations are kept. Appends to the WAL, its
    truncation and object store operations may fail.

    The memtable's lock-free map is the [crossbeam_skiplist] crate, a parameter
    ([SkipMap]); environment variables are the fields of [Env]. *)

From Stdlib Require Import Strings.Byte Strings.String Sorted ZArith Lia.
From stdpp Require Import base list gmap strings sorting.
From S2P Require Import Prelude OrdMap InternalKey Utf8 Wal SSTable ObjectStore Manifest.

Open Scope Z_scope.

(** ** [crossbeam_skiplist::SkipMap<InternalKey, Vec<u8>>] *)

Class SkipMap := {
  skipmap : Type;
  sk_new : skipmap;
  sk_insert : InternalKey -> bytes -> skipmap -> skipmap;
  sk_iter : skipmap -> list entry;
  sk_range_next : InternalKey -> skipmap -> option entry;
}.

Class SkipMapLaws {sk : SkipMap} : Prop := {
  sk_iter_new : sk_iter sk_new = [];
  sk_iter_insert : forall k v m, sk_iter (sk_insert k v m) = om_insert k v (sk_iter m);
  sk_range_next_iter : forall k m, sk_range_next k m = om_lower k (sk_iter m);
}.

(** ** [MemTable] *)

Definition MEMTABLE_MAX_SIZE : Z := 4 * 1024 * 1024.

Section MemTable.
  Context {sk : SkipMap}.

Record MemTable := mkMemTable {
  mt_data : skipmap;
  mt_size_bytes : Z;
  mt_max_size : Z;
}.

Definition mt_new (max_size : Z) : MemTable := mkMemTable sk_new 0 max_size.

Definition mt_insert (user_key : bytes) (seq : Z) (value : bytes) (tag : byte) (m : MemTable)
    : MemTable :=
  let entry_size := zlen user_key + zlen value + 8 + 1 in
  mkMemTable (sk_insert (mkInternalKey user_key seq tag) value (mt_data m))
    (u64_add (mt_size_bytes m) entry_size) (mt_max_size m).

Definition mt_get_at (key : bytes) (snapshot_seq : Z) (m : MemTable) : option (option bytes) :=
  match sk_range_next (seek key snapshot_seq) (mt_data m) with
  | None => None
  | Some (k, v) =>
      if negb (keqb (user_key k) key) then None
      else if is_delete k then Some None else Some (Some v)
  end.

Definition mt_is_full (m : MemTable) : bool := mt_size_bytes m >=? mt_max_size m.

Definition mt_to_entries (m : MemTable) : list entry := sk_iter (mt_data m).

Definition mt_len (m : MemTable) : Z := zlen (sk_iter (mt_data m)).

Definition mt_iter_versions (m : MemTable) : list version :=
  map (fun e : entry => (user_key (fst e), seq (fst e), tag (fst e),
                         if is_delete (fst e) then None else Some (snd e)))
    (sk_iter (mt_data m)).

End MemTable.

(** The loop of [first_visible_per_key]; [resolved_key] is its local variable. *)
Fixpoint first_visible_loop (entries : list version) (snapshot_seq : Z)
    (resolved_key : option bytes) : list (bytes * option bytes) :=
  match entries with
  | [] => []
  | (key, seq, _, value) :: entries' =>
      if match resolved_key with Some rk => keqb rk key | None => false end then
        first_visible_loop entries' snapshot_seq resolved_key
      else if seq <=? snapshot_seq then
        (key, value) :: first_visible_loop entries' snapshot_seq (Some key)
      else first_visible_loop entries' snapshot_seq resolved_key
  end.

Definition first_visible_per_key (entries : list version) (snapshot_seq : Z)
    : list (bytes * option bytes) :=
  first_visible_loop entries snapshot_seq None.

(** ** Object keys *)

(** [TPT_SST_SHARD_COUNT] and [TPT_COMPACTION_SSTABLE_THRESHOLD], when set to a number. *)
Record Env := mkEnv { env_shard_count : option Z; env_threshold : option Z }.

Definition DEFAULT_SST_SHARD_COUNT : Z := 256.
Definition DEFAULT_COMPACTION_SSTABLE_THRESHOLD : Z := 4.

Definition digit (d : Z) : Ascii.ascii :=
  Ascii.ascii_of_N (Z.to_N (if d <? 10 then 48 + d else 87 + d)).

(** The [n] lowest digits of [z] in [base], most significant first. *)
Fixpoint digits (base : Z) (n : nat) (z : Z) : string :=
  match n with
  | O => EmptyString
  | S n' => String (digit (z / base ^ Z.of_nat n' mod base)) (digits base n' z)
  end.

(** The number of digits of [z > 0] in [base], searched up to [fuel]. *)
Fixpoint digit_count (base : Z) (fuel : nat) (z : Z) : nat :=
  match fuel with
  | O => 1
  | S fuel' => if z <? base then 1 else S (digit_count base fuel' (z / base))
  end.

Definition sst_shard (env : Env) (id : Z) : string :=
  let n := default DEFAULT_SST_SHARD_COUNT (env_shard_count env) in
  if n <=? 1 then EmptyString
  else
    let width := digit_count 10 20 (Z.max (n - 1) 1) in
    let shard := (id mod n) mod 2 ^ 32 in
    (digits 16 (Nat.max width (digit_count 16 8 shard)) shard ++ "/")%string.

Definition sstable_key (env : Env) (id : Z) : string :=
  ("sst/" ++ sst_shard env id ++ digits 10 20 id)%string.

Definition wal_segment_key (env : Env) (id : Z) : string :=
  ("wal/" ++ sst_shard env id ++ "seg_" ++ digits 10 20 id)%string.

Definition compaction_sstable_threshold (env : Env) : Z :=
  default DEFAULT_COMPACTION_SSTABLE_THRESHOLD (env_threshold env).

(** ** The engine *)

(** One row of a batch: table, key, and the value or [None] for a delete. *)
Abbreviation batch_row := (string * bytes * option bytes)%type.

(** A version inside [finish_compact]: seq, tag, value. *)
Abbreviation cversion := (Z * byte * option bytes)%type.

Section Engine.
  Context {sk : SkipMap} {bl : Bloom} {S : Type} {st : ObjectStore S}.
  Context {bc : Bincode Manifest} {bc0 : Bincode ManifestV0}.
  Context (env : Env).

Record PendingFlush := mkPendingFlush {
  pf_entries : list entry;
  pf_sstable_id : Z;
  pf_sst_key : string;
}.

Record PendingCompaction := mkPendingCompaction {
  pc_sstables : list SSTable;
  pc_watermark : Z;
  pc_new_id : Z;
  pc_new_key : string;
}.

Record WriteState := mkWriteState {
  ws_wal : Wal;
  ws_sstable_id : Z;
  ws_wal_seg_id : Z;
  ws_manifest_etag : option string;
  ws_committed_wal_segment_seq : Z;
  ws_next_commit_seq : Z;
  ws_open_snapshots : list (Z * Z);
}.

Record EngineView := mkEngineView {
  v_memtable : MemTable;
  v_immutable : option MemTable;
  v_sstables : list SSTable;
}.

(** [lease] is the shared [LeaseHandle]: its validity flag and fencing token. *)
Record LsmEngine := mkLsmEngine {
  e_write : WriteState;
  e_view : EngineView;
  e_store : S;
  e_lease_valid : bool;
  e_lease_token : Z;
}.

Definition set_write (w : WriteState) (e : LsmEngine) : LsmEngine :=
  mkLsmEngine w (e_view e) (e_store e) (e_lease_valid e) (e_lease_token e).
Definition set_view (v : EngineView) (e : LsmEngine) : LsmEngine :=
  mkLsmEngine (e_write e) v (e_store e) (e_lease_valid e) (e_lease_token e).
Definition set_store (s : S) (e : LsmEngine) : LsmEngine :=
  mkLsmEngine (e_write e) (e_view e) s (e_lease_valid e) (e_lease_token e).

(** *** Opening *)

(** Replayed records go into the memtable in order. *)
Definition replay_into (rs : list WalRecord) (m : MemTable) : MemTable :=
  fold_left (fun m r => mt_insert (w_key r) (w_seq r) (w_value r) (w_type r) m) rs m.

(** [SSTable::open_from_store] *)
Definition open_from_store (key : string) (id : Z) (s : S) : S * Result SSTable :=
  match os_get key s with
  | (s, Err e) => (s, Err e)
  | (s, Ok None) => (s, Err "sstable object not found"%string)
  | (s, Ok (Some (data, _))) => (s, decode key id data)
  end.

(** [SSTable::create_in_store] *)
Definition create_in_store (key : string) (id : Z) (entries : list entry) (s : S)
    : S * Result SSTable :=
  let data := build_bytes entries in
  match os_put key data s with
  | (s, Err e) => (s, Err e)
  | (s, Ok _) => (s, decode key id data)
  end.

(** The loop that loads the manifest's tables; one that fails to load is
    logged and skipped. *)
Fixpoint load_sstables (ids : list Z) (s : S) : S * list SSTable :=
  match ids with
  | [] => (s, [])
  | id :: ids' =>
      let '(s, r) := open_from_store (sstable_key env id) id s in
      let '(s, rest) := load_sstables ids' s in
      match r with
      | Ok t => (s, t :: rest)
      | Err _ => (s, rest)
      end
  end.

Definition max_of (zs : list Z) : option Z :=
  match zs with [] => None | z :: zs' => Some (fold_left Z.max zs' z) end.

(** [LsmEngine::open], from the bytes of the local WAL file; [None] when the
    replay aborts the process. *)
Definition lsm_open {al : Allocator} (wal_file : bytes) (s : S) (lease_valid : bool) (lease_token : Z)
    : S * option (Result LsmEngine) :=
  let wal := wal_open wal_file in
  match replay wal with
  | None => (s, None)
  | Some (Err e) => (s, Some (Err e))
  | Some (Ok (wal_max_seq, records)) =>
      let memtable := replay_into records (mt_new MEMTABLE_MAX_SIZE) in
      match manifest_load s with
      | (s, Err e) => (s, Some (Err e))
      | (s, Ok loaded) =>
          let '(manifest, manifest_etag) :=
            match loaded with
            | Some (m, etag) => (m, Some etag)
            | None => (manifest_default, None)
            end in
          let '(s, sstables) := load_sstables (sstable_ids manifest) s in
          let sstable_max_seq := fold_left (fun m t => Z.max m (sst_max_seq t)) sstables 0 in
          let sstables := sort_by (fun a b => sst_id a <=? sst_id b) sstables in
          let sstable_id :=
            match max_of (sstable_ids manifest) with
            | Some m => u64_add m 1
            | None => 1
            end in
          let next_commit_seq :=
            u64_add (Z.max (Z.max wal_max_seq sstable_max_seq) (max_commit_seq manifest)) 1 in
          (s, Some (Ok (mkLsmEngine
                    (mkWriteState wal sstable_id (u64_add (wal_segment_seq manifest) 1)
                       manifest_etag (wal_segment_seq manifest) next_commit_seq [])
                    (mkEngineView memtable None sstables) s lease_valid lease_token)))
      end
  end.

(** *** Snapshots *)

Definition current_seq (e : LsmEngine) : Z := u64_sub (ws_next_commit_seq (e_write e)) 1.

Definition set_snapshots (m : list (Z * Z)) (w : WriteState) : WriteState :=
  mkWriteState (ws_wal w) (ws_sstable_id w) (ws_wal_seg_id w) (ws_manifest_etag w)
    (ws_committed_wal_segment_seq w) (ws_next_commit_seq w) m.

(** [*open_snapshots.entry(seq).or_insert(0) += 1] *)
Definition bump_snapshot (seq : Z) (m : list (Z * Z)) : list (Z * Z) :=
  om_insert seq (default 0 (om_get seq m) + 1) m.

Definition register_snapshot (seq : Z) (e : LsmEngine) : LsmEngine :=
  let w := e_write e in
  set_write (set_snapshots (bump_snapshot seq (ws_open_snapshots w)) w) e.

Definition snapshot_now (e : LsmEngine) : LsmEngine * Z :=
  let seq := current_seq e in (register_snapshot seq e, seq).

Definition release_snapshot (seq : Z) (e : LsmEngine) : LsmEngine :=
  let w := e_write e in
  let m := ws_open_snapshots w in
  match om_get seq m with
  | None => e
  | Some count =>
      let count := count - 1 in
      let m := if count =? 0 then om_remove seq m else om_insert seq count m in
      set_write (set_snapshots m w) e
  end.

(** *** Flush, part one *)

(** [LsmEngine::begin_flush] *)
Definition begin_flush (e : LsmEngine) : LsmEngine * Result (option PendingFlush) :=
  if negb (e_lease_valid e)
  then (e, Err "fenced off: this node no longer holds the write lease"%string)
  else
    let old_view := e_view e in
    let e := set_view (mkEngineView (mt_new MEMTABLE_MAX_SIZE) (Some (v_memtable old_view))
                         (v_sstables old_view)) e in
    match mt_to_entries (v_memtable old_view) with
    | [] => (e, Ok None)
    | entries =>
        let w := e_write e in
        let sstable_id := ws_sstable_id w in
        let e := set_write (mkWriteState (ws_wal w) (u64_add sstable_id 1) (ws_wal_seg_id w)
                              (ws_manifest_etag w) (ws_committed_wal_segment_seq w)
                              (ws_next_commit_seq w) (ws_open_snapshots w)) e in
        (e, Ok (Some (mkPendingFlush entries sstable_id (sstable_key env sstable_id))))
    end.

(** *** Writes *)

Definition wal_entry_of (row : batch_row) : wal_entry :=
  let '(table, key, value) := row in
  match value with
  | Some v => (table, key, v, PUT_TAG)
  | None => (table, key, [], DELETE_TAG)
  end.

Definition insert_row (commit_seq : Z) (m : MemTable) (row : batch_row) : MemTable :=
  let '(_, key, value) := row in
  match value with
  | Some v => mt_insert key commit_seq v PUT_TAG m
  | None => mt_insert key commit_seq [] DELETE_TAG m
  end.

(** [LsmEngine::write_batch]: the commit number is used up before the append,
    whose failure ends the call with nothing applied. *)
Definition write_batch (entries : list batch_row) (e : LsmEngine)
    : LsmEngine * Result (Z * option PendingFlush) :=
  let w := e_write e in
  let commit_seq := ws_next_commit_seq w in
  let '(wal, appended) := append_batch commit_seq (map wal_entry_of entries) (ws_wal w) in
  let e := set_write (mkWriteState wal (ws_sstable_id w) (ws_wal_seg_id w) (ws_manifest_etag w)
                        (ws_committed_wal_segment_seq w) (u64_add commit_seq 1)
                        (ws_open_snapshots w)) e in
  match appended with
  | Err err => (e, Err err)
  | Ok _ =>
      let v := e_view e in
      let memtable := fold_left (insert_row commit_seq) entries (v_memtable v) in
      let e := set_view (mkEngineView memtable (v_immutable v) (v_sstables v)) e in
      if mt_is_full memtable then
        match begin_flush e with
        | (e, Ok pending) => (e, Ok (commit_seq, pending))
        | (e, Err err) => (e, Err err)
        end
      else (e, Ok (commit_seq, None))
  end.

(** [LsmEngine::write] and [LsmEngine::delete] *)
Definition lsm_write (table : string) (key value : bytes) (e : LsmEngine)
    : LsmEngine * Result (option PendingFlush) :=
  match write_batch [(table, key, Some value)] e with
  | (e, Ok (_, pending)) => (e, Ok pending)
  | (e, Err err) => (e, Err err)
  end.

Definition lsm_delete (table : string) (key : bytes) (e : LsmEngine)
    : LsmEngine * Result (option PendingFlush) :=
  match write_batch [(table, key, None)] e with
  | (e, Ok (_, pending)) => (e, Ok pending)
  | (e, Err err) => (e, Err err)
  end.

(** *** Reads *)

(** The SSTables, newest first, until one has a visible version. *)
Fixpoint read_sstables (ssts : list SSTable) (key : bytes) (snapshot_seq : Z)
    : Result (option bytes) :=
  match ssts with
  | [] => Ok None
  | t :: ssts' =>
      let? r := sst_read_at t key snapshot_seq in
      match r with
      | Some v => Ok v
      | None => read_sstables ssts' key snapshot_seq
      end
  end.

(** [LsmEngine::read_at] against the view it cloned. *)
Definition view_read_at (v : EngineView) (key : bytes) (snapshot_seq : Z) : Result (option bytes) :=
  match mt_get_at key snapshot_seq (v_memtable v) with
  | Some r => Ok r
  | None =>
      match (match v_immutable v with
             | Some imm => mt_get_at key snapshot_seq imm
             | None => None
             end) with
      | Some r => Ok r
      | None => read_sstables (reverse (v_sstables v)) key snapshot_seq
      end
  end.

Definition read_at (key : bytes) (snapshot_seq : Z) (e : LsmEngine) : Result (option bytes) :=
  view_read_at (e_view e) key snapshot_seq.

Definition lsm_read (key : bytes) (e : LsmEngine) : Result (option bytes) :=
  read_at key (current_seq e) e.

Definition merge_into (kvs : list (bytes * option bytes)) (m : list (bytes * option bytes))
    : list (bytes * option bytes) :=
  fold_left (fun m kv => om_insert (fst kv) (snd kv) m) kvs m.

Fixpoint scan_sstables (ssts : list SSTable) (snapshot_seq : Z)
    (merged : list (bytes * option bytes)) : Result (list (bytes * option bytes)) :=
  match ssts with
  | [] => Ok merged
  | t :: ssts' =>
      let? versions := scan_all_versions t in
      scan_sstables ssts' snapshot_seq
        (merge_into (first_visible_per_key versions snapshot_seq) merged)
  end.

(** [LsmEngine::scan_at] against the view it cloned. *)
Definition view_scan_at (v : EngineView) (snapshot_seq : Z) : Result (list (bytes * bytes)) :=
  let? merged := scan_sstables (v_sstables v) snapshot_seq [] in
  let merged :=
    match v_immutable v with
    | Some imm => merge_into (first_visible_per_key (mt_iter_versions imm) snapshot_seq) merged
    | None => merged
    end in
  let merged :=
    merge_into (first_visible_per_key (mt_iter_versions (v_memtable v)) snapshot_seq) merged in
  Ok (omap (fun kv : bytes * option bytes => (fun v => (fst kv, v)) <$> snd kv) merged).

Definition scan_at (snapshot_seq : Z) (e : LsmEngine) : Result (list (bytes * bytes)) :=
  view_scan_at (e_view e) snapshot_seq.

Definition lsm_scan (e : LsmEngine) : Result (list (bytes * bytes)) :=
  scan_at (current_seq e) e.

(** *** Compaction, part one *)

(** [LsmEngine::begin_compact] *)
Definition begin_compact (e : LsmEngine) : LsmEngine * Result (option PendingCompaction) :=
  let view := e_view e in
  if zlen (v_sstables view) <? 2 then (e, Ok None)
  else if negb (e_lease_valid e)
  then (e, Err "fenced off: this node no longer holds the write lease"%string)
  else
    let w := e_write e in
    let watermark := match ws_open_snapshots w with (s, _) :: _ => s | [] => U64_MAX end in
    let new_id := ws_sstable_id w in
    let e := set_write (mkWriteState (ws_wal w) (u64_add new_id 1) (ws_wal_seg_id w)
                          (ws_manifest_etag w) (ws_committed_wal_segment_seq w)
                          (ws_next_commit_seq w) (ws_open_snapshots w)) e in
    (e, Ok (Some (mkPendingCompaction (v_sstables view) watermark new_id (sstable_key env new_id)))).

(** *** Flush, parts two and three *)

(** [LsmEngine::finish_flush] *)
Definition finish_flush (pf : PendingFlush) (s : S) : S * Result SSTable :=
  create_in_store (pf_sst_key pf) (pf_sstable_id pf) (pf_entries pf) s.

(** The manifest writers record in it: the live tables, the sealed WAL segment,
    the fencing token and the last commit number. *)
Definition manifest_for (ids : list Z) (wal_seg : Z) (e : LsmEngine) : Manifest :=
  mkManifest ids wal_seg (e_lease_token e) (u64_sub (ws_next_commit_seq (e_write e)) 1).

(** Ship the sealed WAL segment, unless the WAL is empty. *)
Definition ship_wal (e : LsmEngine) : LsmEngine * Result unit :=
  let wal_bytes := read_all_bytes (ws_wal (e_write e)) in
  match wal_bytes with
  | [] => (e, Ok tt)
  | _ =>
      match os_put (wal_segment_key env (ws_wal_seg_id (e_write e))) wal_bytes (e_store e) with
      | (s, Ok _) => (set_store s e, Ok tt)
      | (s, Err err) => (set_store s e, Err err)
      end
  end.

(** CAS the manifest that lists the new table too. *)
Definition flush_manifest (pf : PendingFlush) (e : LsmEngine) : LsmEngine * Result unit :=
  let w := e_write e in
  let m := manifest_for (map sst_id (v_sstables (e_view e)) ++ [pf_sstable_id pf])
             (ws_wal_seg_id w) e in
  match manifest_save_cas m (ws_manifest_etag w) (e_store e) with
  | (s, Err _) =>
      (set_store s e, Err "updating manifest after flush: another writer may be active"%string)
  | (s, Ok new_etag) =>
      (set_write (mkWriteState (ws_wal w) (ws_sstable_id w) (u64_add (ws_wal_seg_id w) 1)
                    (Some new_etag) (ws_wal_seg_id w) (ws_next_commit_seq w)
                    (ws_open_snapshots w)) (set_store s e), Ok tt)
  end.

(** Splice the new table into the view and drop the frozen memtable. *)
Definition publish_flush (sst : SSTable) (e : LsmEngine) : LsmEngine :=
  let v := e_view e in
  set_view (mkEngineView (v_memtable v) None (v_sstables v ++ [sst])) e.

Definition truncate_wal (e : LsmEngine) : LsmEngine * Result unit :=
  let w := e_write e in
  let '(wal, r) := wal_truncate (ws_wal w) in
  (set_write (mkWriteState wal (ws_sstable_id w) (ws_wal_seg_id w)
                (ws_manifest_etag w) (ws_committed_wal_segment_seq w) (ws_next_commit_seq w)
                (ws_open_snapshots w)) e, r).

(** [LsmEngine::commit_flush] *)
Definition commit_flush (pf : PendingFlush) (sst : SSTable) (e : LsmEngine)
    : LsmEngine * Result (option PendingCompaction) :=
  match ship_wal e with
  | (e, Err err) => (e, Err err)
  | (e, Ok _) =>
      match flush_manifest pf e with
      | (e, Err err) => (e, Err err)
      | (e, Ok _) =>
          match truncate_wal (publish_flush sst e) with
          | (e, Err err) => (e, Err err)
          | (e, Ok _) =>
              if zlen (v_sstables (e_view e)) >=? compaction_sstable_threshold env
              then begin_compact e
              else (e, Ok None)
          end
      end
  end.

(** *** Compaction, parts two and three *)

(** [by_key.entry(key).or_default().push(..)] over one table's versions. *)
Definition group_versions (vs : list version) (by_key : list (bytes * list cversion))
    : list (bytes * list cversion) :=
  fold_left (fun m (v : version) =>
               let '(key, seq, tag, value) := v in
               om_insert key (default [] (om_get key m) ++ [(seq, tag, value)]) m) vs by_key.

Fixpoint group_sstables (ssts : list SSTable) (by_key : list (bytes * list cversion))
    : Result (list (bytes * list cversion)) :=
  match ssts with
  | [] => Ok by_key
  | t :: ssts' =>
      let? vs := scan_all_versions t in group_sstables ssts' (group_versions vs by_key)
  end.

(** The inner loop over one key's versions, newest first. *)
Fixpoint keep_versions (watermark : Z) (key : bytes) (versions : list cversion) : list entry :=
  match versions with
  | [] => []
  | (seq, tag, value) :: versions' =>
      let e := (mkInternalKey key seq tag, default [] value) in
      if seq >=? watermark then e :: keep_versions watermark key versions'
      else if negb ((watermark =? U64_MAX) && byte_eqb tag DELETE_TAG) then [e] else []
  end.

Definition newest_first (a b : cversion) : bool :=
  let '(sa, _, _) := a in let '(sb, _, _) := b in sb <=? sa.

Definition entry_le (a b : entry) : bool :=
  match ikey_cmp (fst a) (fst b) with Gt => false | _ => true end.

(** The entries of the merged table. *)
Definition merge_entries (watermark : Z) (by_key : list (bytes * list cversion)) : list entry :=
  sort_by entry_le
    (concat (map (fun kv : bytes * list cversion =>
                    keep_versions watermark (fst kv) (sort_by newest_first (snd kv))) by_key)).

(** [LsmEngine::finish_compact] *)
Definition finish_compact (pc : PendingCompaction) (s : S) : S * Result SSTable :=
  match group_sstables (pc_sstables pc) [] with
  | Err e => (s, Err e)
  | Ok by_key =>
      create_in_store (pc_new_key pc) (pc_new_id pc) (merge_entries (pc_watermark pc) by_key) s
  end.

(** Delete the consumed objects; a failure is logged and ignored. *)
Fixpoint delete_all (keys : list string) (s : S) : S :=
  match keys with
  | [] => s
  | k :: keys' => delete_all keys' (fst (os_delete k s))
  end.

(** [LsmEngine::commit_compact] *)
Definition commit_compact (pc : PendingCompaction) (new_sst : SSTable) (e : LsmEngine)
    : LsmEngine * Result unit :=
  let consumed := map sst_id (pc_sstables pc) in
  let v := e_view e in
  let new_sstables :=
    List.filter (fun t => negb (existsb (Z.eqb (sst_id t)) consumed)) (v_sstables v) ++ [new_sst] in
  let w := e_write e in
  let m := manifest_for (map sst_id new_sstables) (ws_committed_wal_segment_seq w) e in
  match manifest_save_cas m (ws_manifest_etag w) (e_store e) with
  | (s, Err _) =>
      (set_store s e, Err "updating manifest after compaction: another writer may be active"%string)
  | (s, Ok new_etag) =>
      let w := mkWriteState (ws_wal w) (ws_sstable_id w) (ws_wal_seg_id w) (Some new_etag)
                 (ws_committed_wal_segment_seq w) (ws_next_commit_seq w) (ws_open_snapshots w) in
      let v := mkEngineView (v_memtable v) (v_immutable v) new_sstables in
      let s := delete_all (map sst_key (pc_sstables pc)) s in
      (set_store s (set_view v (set_write w e)), Ok tt)
  end.

(** Drive a pending compaction to completion. *)
Definition drive_compact (pc : PendingCompaction) (e : LsmEngine) : LsmEngine * Result unit :=
  match finish_compact pc (e_store e) with
  | (s, Err err) => (set_store s e, Err err)
  | (s, Ok sst) => commit_compact pc sst (set_store s e)
  end.

(** [LsmEngine::compact_all] *)
Definition compact_all (e : LsmEngine) : LsmEngine * Result unit :=
  match begin_compact e with
  | (e, Err err) => (e, Err err)
  | (e, Ok None) => (e, Ok tt)
  | (e, Ok (Some pc)) => drive_compact pc e
  end.

(** Drive a pending flush, and the compaction it may trigger, to completion. *)
Definition drive_flush (pf : PendingFlush) (e : LsmEngine) : LsmEngine * Result unit :=
  match finish_flush pf (e_store e) with
  | (s, Err err) => (set_store s e, Err err)
  | (s, Ok sst) =>
      match commit_flush pf sst (set_store s e) with
      | (e, Err err) => (e, Err err)
      | (e, Ok None) => (e, Ok tt)
      | (e, Ok (Some pc)) => drive_compact pc e
      end
  end.

(** [LsmEngine::flush] *)
Definition flush (e : LsmEngine) : LsmEngine * Result unit :=
  match begin_flush e with
  | (e, Err err) => (e, Err err)
  | (e, Ok None) => (e, Ok tt)
  | (e, Ok (Some pf)) => drive_flush pf e
  end.

(** *** Reader refresh *)

(** Fetch the listed tables that are not known yet; the first failure aborts. *)
Fixpoint fetch_missing (ids : list Z) (known : list Z) (s : S) : S * Result (list SSTable) :=
  match ids with
  | [] => (s, Ok [])
  | id :: ids' =>
      if existsb (Z.eqb id) known then fetch_missing ids' known s
      else
        match open_from_store (sstable_key env id) id s with
        | (s, Err e) => (s, Err e)
        | (s, Ok t) =>
            match fetch_missing ids' known s with
            | (s, Err e) => (s, Err e)
            | (s, Ok rest) => (s, Ok (t :: rest))
            end
        end
  end.

(** [LsmEngine::refresh] *)
Definition refresh (e : LsmEngine) : LsmEngine * Result bool :=
  match manifest_load (e_store e) with
  | (s, Err err) => (set_store s e, Err err)
  | (s, Ok None) => (set_store s e, Ok false)
  | (s, Ok (Some (manifest, etag))) =>
      let e := set_store s e in
      let w := e_write e in
      if bool_decide (Some etag = ws_manifest_etag w) then (e, Ok false) else
      let v := e_view e in
      let known := map sst_id (v_sstables v) in
      match fetch_missing (sstable_ids manifest) known (e_store e) with
      | (s, Err err) => (set_store s e, Err err)
      | (s, Ok fetched) =>
          let kept :=
            List.filter (fun t => existsb (Z.eqb (sst_id t)) (sstable_ids manifest))
              (v_sstables v) in
          let dropped := zlen (v_sstables v) - zlen kept in
          let new_sstables := sort_by (fun a b => sst_id a <=? sst_id b) (kept ++ fetched) in
          let w := mkWriteState (ws_wal w) (ws_sstable_id w) (ws_wal_seg_id w) (Some etag)
                     (ws_committed_wal_segment_seq w)
                     (Z.max (ws_next_commit_seq w) (u64_add (max_commit_seq manifest) 1))
                     (ws_open_snapshots w) in
          let v := mkEngineView (v_memtable v) (v_immutable v) new_sstables in
          (set_store s (set_view v (set_write w e)), Ok ((0 <? zlen fetched) || (0 <? dropped)))
      end
  end.

(** *** Statistics *)

Record StorageStats := mkStorageStats {
  wal_bytes_written_stat : Z;
  memtable_entries : Z;
  sstable_count : Z;
  total_disk_bytes : Z;
  open_snapshot_count : Z;
}.

Definition stats (e : LsmEngine) : StorageStats :=
  mkStorageStats (wal_bytes_written (ws_wal (e_write e))) (mt_len (v_memtable (e_view e)))
    (zlen (v_sstables (e_view e)))
    (fold_right (fun t z => blob_size t + z) 0 (v_sstables (e_view e)))
    (zlen (ws_open_snapshots (e_write e))).

End Engine.
