(* ===== verification/LsmRead.v ===== *)
(** Reads and scans of the LSM engine ([storage/lsm.rs], [MemTable::get_at],
    [read_at], [scan_at]) against the version lists of [Versions].

    [view_rep v ess] says that the view's memtables are in key order and that
    its SSTables are decoded tables over the entry lists [ess]; [flat v ess] is
    all of the view's entries, newest layer first. A point read is [look] on
    that list, and a scan is the sorted list of everything [look] finds. *)

From Stdlib Require Import Strings.Byte Strings.String Sorted ZArith Lia.
From stdpp Require Import base list gmap strings sorting.
From S2P Require Import Prelude OrdMap InternalKey Versions Utf8 Wal SSTable ObjectStore Manifest Lsm.

Open Scope Z_scope.

(** ** A concrete skip list: the sorted list of its entries *)

#[export] Instance list_skipmap : SkipMap := {|
  skipmap := list entry;
  sk_new := [];
  sk_insert := om_insert;
  sk_iter m := m;
  sk_range_next := om_lower;
|}.

#[export] Instance list_skipmap_laws : SkipMapLaws.
Proof. by split. Qed.

(** ** The memtable *)

Section MemTable.
  Context {sk : SkipMap} {sk_laws : SkipMapLaws}.

Definition mt_ok (m : MemTable) : Prop := om_sorted (mt_to_entries m).

Lemma mt_new_entries (n : Z) : mt_to_entries (mt_new n) = [].
Proof. apply sk_iter_new. Qed.

Lemma mt_new_ok (n : Z) : mt_ok (mt_new n).
Proof. unfold mt_ok. rewrite mt_new_entries. constructor. Qed.

Lemma mt_insert_entries (k : bytes) (s : Z) (v : bytes) (t : byte) (m : MemTable) :
  mt_to_entries (mt_insert k s v t m) = om_insert (mkInternalKey k s t) v (mt_to_entries m).
Proof. apply sk_iter_insert. Qed.

Lemma mt_get_at_visible (k : bytes) (s : Z) (m : MemTable) :
  mt_ok m -> mt_get_at k s m = visible (mt_to_entries m) k s.
Proof.
  intros Hok. unfold mt_get_at, visible. rewrite sk_range_next_iter, seek_resolves by by apply om_sorted_ikey.
  fold (mt_to_entries m). destruct (om_lower (seek k s) (mt_to_entries m)) as [[ik v]|]; [|done].
  unfold ekey; simpl. destruct (keqb (user_key ik) k); [|done]. simpl. unfold evalue; simpl.
  by destruct (is_delete ik).
Qed.

Lemma mt_iter_versions_of (m : MemTable) :
  mt_iter_versions m = map version_of (mt_to_entries m).
Proof. done. Qed.

End MemTable.

(** ** [first_visible_per_key] and the merge of layers *)

Lemma merge_into_sorted kvs m : om_sorted m -> om_sorted (merge_into kvs m).
Proof.
  unfold merge_into. revert m. induction kvs as [|[k v] kvs IH]; intros m Hm; simpl; auto.
Qed.

(** What the loop adds for a key, when [rk] is the key it resolved last. *)
Lemma first_visible_loop_get (es : list entry) (s : Z) (rk : option bytes) (k : bytes) m :
  ikey_sorted es -> om_sorted m ->
  (forall x e, rk = Some x -> In e es -> ~ lt_cmp (ekey e) x) ->
  om_get k (merge_into (first_visible_loop (map version_of es) s rk) m) =
    if bool_decide (rk = Some k) then om_get k m
    else match visible es k s with Some r => Some r | None => om_get k m end.
Proof.
  revert rk m. induction es as [|e es IH]; intros rk m Hes Hm Hrk.
  { unfold visible; simpl. by destruct (bool_decide _). }
  pose proof Hes as [Hall Hes']%ikey_sorted_cons.
  assert (forall e', In e' es -> ~ lt_cmp (ekey e') (ekey e)) as Hup
    by (intros e' Hin; by apply ikey_le_ekey, Hall).
  assert (forall x e', rk = Some x -> In e' es -> ~ lt_cmp (ekey e') x) as Hrk'.
  { intros x e' Hx Hin. eapply Hrk; [done|]. by right. }
  unfold visible, resolve in *; cbn [map version_of first_visible_loop List.find].
  unfold version_of at 1. unfold in_view at 1.
  destruct (match rk with Some rk => keqb rk (ekey e) | None => false end) eqn:Esk.
  - destruct rk as [x|]; [|done]. apply keqb_true in Esk as ->.
    rewrite IH by done. case_bool_decide as Hk; [done|].
    rewrite (proj2 (keqb_false (ekey e) k)) by congruence. done.
  - destruct (eseq e <=? s) eqn:Es.
    + unfold merge_into; cbn [fold_left fst snd]. fold (merge_into
        (first_visible_loop (map version_of es) s (Some (ekey e))) (om_insert (ekey e) (evalue e) m)).
      rewrite IH by (auto; intros x e' [= <-]; auto). rewrite om_get_insert by done.
      destruct (keqb (ekey e) k) eqn:Ek.
      * apply keqb_true in Ek as <-. rewrite bool_decide_eq_true_2 by done.
        rewrite (proj2 (keqb_true _ _) eq_refl). rewrite bool_decide_eq_false_2; [done|].
        intros ->. by rewrite (proj2 (keqb_true _ _) eq_refl) in Esk.
      * rewrite bool_decide_eq_false_2 by (apply keqb_false in Ek; congruence).
        rewrite (proj2 (keqb_false k (ekey e))) by (apply keqb_false in Ek; congruence).
        simpl. case_bool_decide as Hk; [|done]. subst rk.
        replace (List.find (in_view k s) es) with (None : option entry); [done|]. symmetry.
        apply find_None_iff. intros e' Hin. apply not_true_iff_false. rewrite in_view_true.
        intros [Hk _]. apply keqb_false in Ek. destruct (cmp (ekey e) k) eqn:C.
        -- by apply cmp_eq in C.
        -- eapply (Hrk k e); [done | by left | done].
        -- apply (Hup e' Hin). rewrite Hk. by apply cmp_gt_lt.
    + rewrite andb_false_r. by apply IH.
Qed.

Lemma merge_layer_get (es : list entry) (s : Z) (k : bytes) m :
  ikey_sorted es -> om_sorted m ->
  om_get k (merge_into (first_visible_per_key (map version_of es) s) m) =
    match visible es k s with Some r => Some r | None => om_get k m end.
Proof.
  intros Hes Hm. unfold first_visible_per_key. rewrite first_visible_loop_get by done.
  by rewrite bool_decide_eq_false_2.
Qed.

(** The final filter drops tombstones and keeps the order. *)
Definition drop_tombstones (m : list (bytes * option bytes)) : list (bytes * bytes) :=
  omap (fun kv : bytes * option bytes => (fun v => (fst kv, v)) <$> snd kv) m.

Lemma drop_tombstones_In m k v : In (k, v) (drop_tombstones m) <-> In (k, Some v) m.
Proof.
  unfold drop_tombstones. induction m as [|[k' [v'|]] m IH]; simpl; [done| |].
  - rewrite IH. split; (intros [H|H]; [left; congruence | by right]).
  - rewrite IH. split; [by right|]. intros [?|?]; [congruence | done].
Qed.

Lemma drop_tombstones_sorted m : om_sorted m -> om_sorted (drop_tombstones m).
Proof.
  induction m as [|[k o] m IH]; intros Hs; [constructor|].
  apply om_sorted_cons in Hs as [Hall Hs]. unfold drop_tombstones in *; simpl.
  destruct o as [v|]; simpl; [|by apply IH]. apply om_sorted_cons. split; [|by apply IH].
  rewrite Forall_forall in Hall. apply Forall_forall. intros [k' v'] Hin%list_elem_of_In.
  apply (Hall (k', Some v')). apply list_elem_of_In, drop_tombstones_In. done.
Qed.

(** ** The view *)

Section View.
  Context {sk : SkipMap} {sk_laws : SkipMapLaws} {bl : Bloom} {bl_laws : BloomLaws}.

Definition imm_entries (v : EngineView) : list entry :=
  match v_immutable v with Some m => mt_to_entries m | None => [] end.

Definition flat (v : EngineView) (ess : list (list entry)) : list entry :=
  mt_to_entries (v_memtable v) ++ imm_entries v ++ concat (reverse ess).

Record view_rep (v : EngineView) (ess : list (list entry)) : Prop := {
  vr_mem : mt_ok (v_memtable v);
  vr_imm : om_sorted (imm_entries v);
  vr_ssts : Forall2 sst_rep (v_sstables v) ess;
}.

Lemma concat_reverse_cons (es : list entry) (ess : list (list entry)) :
  concat (reverse (es :: ess)) = concat (reverse ess) ++ es.
Proof. rewrite reverse_cons, concat_app. simpl. by rewrite app_nil_r. Qed.

Lemma concat_reverse_snoc (es : list entry) (ess : list (list entry)) :
  concat (reverse (ess ++ [es])) = es ++ concat (reverse ess).
Proof. by rewrite reverse_app. Qed.

Lemma read_sstables_look (ts : list SSTable) (ess : list (list entry)) (k : bytes) (s : Z) :
  Forall2 sst_rep ts ess -> read_sstables ts k s = Ok (look (concat ess) k s).
Proof.
  induction 1 as [|t es ts ess Hrep H IH]; [done|]. cbn [read_sstables concat].
  rewrite (rep_read_at _ _ _ _ Hrep), look_app. by destruct (visible es k s).
Qed.

Lemma view_read_at_look (v : EngineView) (ess : list (list entry)) (k : bytes) (s : Z) :
  view_rep v ess -> view_read_at v k s = Ok (look (flat v ess) k s).
Proof.
  intros [Hm Hi Ht]. unfold view_read_at, flat. rewrite look_app, mt_get_at_visible by done.
  destruct (visible (mt_to_entries (v_memtable v)) k s) as [r|]; [done|].
  rewrite look_app. unfold imm_entries in *.
  rewrite (read_sstables_look _ (reverse ess)).
  - destruct (v_immutable v) as [imm|]; [|done]. rewrite mt_get_at_visible by done.
    by destruct (visible (mt_to_entries imm) k s).
  - by apply Forall2_reverse.
Qed.

Lemma scan_sstables_get (ts : list SSTable) (ess : list (list entry)) (s : Z) m :
  Forall2 sst_rep ts ess -> om_sorted m ->
  exists m', scan_sstables ts s m = Ok m' /\ om_sorted m' /\
    forall k, om_get k m' =
      match visible (concat (reverse ess)) k s with Some r => Some r | None => om_get k m end.
Proof.
  intros H. revert m. induction H as [|t es ts ess Hrep H IH]; intros m Hm; [by exists m|].
  cbn [scan_sstables]. rewrite (rep_scan _ _ Hrep). cbn iota beta.
  destruct (IH (merge_into (first_visible_per_key (map version_of es) s) m))
    as (m' & -> & Hs & Hget); [by apply merge_into_sorted|].
  exists m'. split_and!; [done|done|]. intros k.
  rewrite Hget, concat_reverse_cons, visible_app, merge_layer_get; [|apply Hrep|done].
  by destruct (visible (concat (reverse ess)) k s).
Qed.

(** A scan returns, in key order, exactly what point reads find. *)
Lemma view_scan_at_look (v : EngineView) (ess : list (list entry)) (s : Z) :
  view_rep v ess ->
  exists kvs, view_scan_at v s = Ok kvs /\ om_sorted kvs /\
    forall k x, In (k, x) kvs <-> look (flat v ess) k s = Some x.
Proof.
  intros [Hm Hi Ht]. unfold view_scan_at.
  destruct (scan_sstables_get _ _ s [] Ht ltac:(constructor)) as (m & -> & Hs & Hget).
  cbn iota beta. rewrite mt_iter_versions_of. fold drop_tombstones.
  set (m1 := match v_immutable v with Some imm => _ | None => m end).
  assert (om_sorted m1 /\ forall k, om_get k m1 =
    match visible (imm_entries v) k s with Some r => Some r | None => om_get k m end) as [Hs1 Hget1].
  { unfold m1, imm_entries in *. destruct (v_immutable v) as [imm|]; [|done].
    rewrite mt_iter_versions_of. split; [by apply merge_into_sorted|].
    intros k. by apply merge_layer_get; [apply om_sorted_ikey|]. }
  eexists. split; [done|]. split; [by apply drop_tombstones_sorted, merge_into_sorted|].
  intros k x. rewrite drop_tombstones_In, <- om_get_In_iff by by apply merge_into_sorted.
  rewrite merge_layer_get, Hget1, Hget; [|by apply om_sorted_ikey|done]. unfold look, flat. rewrite !visible_app.
  destruct (visible (mt_to_entries _) k s) as [r|]; simpl; [split; congruence|].
  destruct (visible (imm_entries v) k s) as [r|]; simpl; [split; congruence|].
  destruct (visible _ k s) as [r|]; simpl; [split; congruence|done].
Qed.

End View.
