(* ===== verification/LsmCompact.v ===== *)
(** [LsmEngine::finish_compact] ([storage/lsm.rs]): grouping the versions of
    the captured tables by key, choosing the versions to keep, and the order of
    the merged table. The result is that the merged entries satisfy the
    contract [Versions.compacts] and form a well-sorted table. *)

From Stdlib Require Import Strings.Byte Strings.String Sorted ZArith Lia.
From stdpp Require Import base list gmap strings sorting.
From S2P Require Import Prelude OrdMap InternalKey Versions Utf8 Wal SSTable ObjectStore Manifest Lsm LsmRead.

Open Scope Z_scope.

(** What [finish_compact] keeps of an entry besides its key. *)
Definition cv_of (e : entry) : cversion := (eseq e, tag (fst e), evalue e).
Definition cv_seq (c : cversion) : Z := c.1.1.
Definition entry_of (k : bytes) (c : cversion) : entry :=
  (mkInternalKey k c.1.1 c.1.2, default [] c.2).

(** Tombstones carry no bytes. *)
Definition plain (e : entry) : Prop := is_delete (fst e) = true -> snd e = [].

Lemma entry_of_cv_of (e : entry) : plain e -> entry_of (ekey e) (cv_of e) = e.
Proof.
  destruct e as [[k s t] v]. unfold plain, entry_of, cv_of, evalue, is_delete, ekey, eseq; simpl.
  destruct (byte_eqb t DELETE_TAG); simpl; [intros -> | ]; auto.
Qed.

(** ** Grouping *)

Definition versions_of (k : bytes) (es : list entry) : list cversion :=
  map cv_of (List.filter (fun e => keqb (ekey e) k) es).

Lemma versions_of_app (k : bytes) (es1 es2 : list entry) :
  versions_of k (es1 ++ es2) = versions_of k es1 ++ versions_of k es2.
Proof. unfold versions_of. by rewrite List.filter_app, map_app. Qed.

Lemma versions_of_In (k : bytes) (es : list entry) (c : cversion) :
  In c (versions_of k es) <-> exists e, In e es /\ ekey e = k /\ c = cv_of e.
Proof.
  unfold versions_of. rewrite in_map_iff. split.
  - intros (e & <- & [Hin Hk%keqb_true]%filter_In). eauto.
  - intros (e & Hin & Hk%keqb_true & ->). exists e. by rewrite filter_In.
Qed.

Abbreviation groups := (list (bytes * list cversion)).

Definition grouped (es : list entry) (m : groups) : Prop :=
  om_sorted m /\ forall k, default [] (om_get k m) = versions_of k es.

Lemma group_versions_grouped (es done_es : list entry) (m : groups) :
  grouped done_es m -> grouped (done_es ++ es) (group_versions (map version_of es) m).
Proof.
  unfold group_versions. revert done_es m.
  induction es as [|e es IH]; intros d m [Hs Hget]; simpl; [by rewrite app_nil_r|].
  replace (d ++ e :: es) with ((d ++ [e]) ++ es) by by rewrite <- app_assoc.
  apply IH. split; [auto|]. intros k. rewrite om_get_insert by done.
  rewrite versions_of_app, <- Hget. unfold versions_of; simpl.
  destruct (keqb k (ekey e)) eqn:E.
  - apply keqb_true in E as ->. by rewrite (proj2 (keqb_true _ _) eq_refl).
  - rewrite (proj2 (keqb_false (ekey e) k)) by (apply keqb_false in E; congruence).
    by rewrite app_nil_r.
Qed.

Lemma group_sstables_grouped {bl : Bloom} {bl_laws : BloomLaws}
    (ts : list SSTable) (ess : list (list entry)) (d : list entry) (m : groups) :
  Forall2 sst_rep ts ess -> grouped d m ->
  exists m', group_sstables ts m = Ok m' /\ grouped (d ++ concat ess) m'.
Proof.
  intros H. revert d m. induction H as [|t es ts ess Hrep H IH]; intros d m Hg.
  - exists m. by rewrite app_nil_r.
  - cbn [group_sstables concat]. rewrite (rep_scan _ _ Hrep). cbn iota beta.
    rewrite app_assoc. apply IH. by apply group_versions_grouped.
Qed.

(** ** Choosing versions *)

Abbreviation cv_desc := (StronglySorted (fun a b : cversion => cv_seq b <= cv_seq a)).

Lemma newest_first_sorted (vs : list cversion) : cv_desc (sort_by newest_first vs).
Proof.
  eapply StronglySorted_weaken; [|apply (sort_by_sorted newest_first)].
  - intros [[??]?] [[??]?]. unfold cv_seq; simpl. lia.
  - intros [[??]?] [[??]?]; simpl. lia.
  - intros [[??]?] [[??]?] [[??]?]; simpl. lia.
Qed.

Lemma keep_versions_sub (w : Z) (k : bytes) (vs : list cversion) (e : entry) :
  In e (keep_versions w k vs) -> exists c, In c vs /\ e = entry_of k c.
Proof.
  induction vs as [|[[s t] v] vs IH]; simpl; [done|]. case_match.
  - intros [<-|Hin]; [exists (s, t, v); auto|]. destruct (IH Hin) as (c & ? & ?). eauto.
  - case_match; [|done]. intros [<-|[]]. exists (s, t, v); auto.
Qed.

Lemma keep_versions_above (w : Z) (k : bytes) (vs : list cversion) (c : cversion) :
  cv_desc vs -> In c vs -> w <= cv_seq c -> In (entry_of k c) (keep_versions w k vs).
Proof.
  induction vs as [|[[s t] v] vs IH]; simpl; [done|]. intros Hs Hin Hw.
  inversion_clear Hs as [|? ? Hs' Hall]. case_match.
  - destruct Hin as [<-|Hin]; [by left | right; auto].
  - destruct Hin as [<-|Hin]; unfold cv_seq in *; simpl in *; [lia|].
    rewrite Forall_forall in Hall. specialize (Hall c ltac:(by apply list_elem_of_In)).
    simpl in Hall. lia.
Qed.

(** Either the newest version below the watermark is kept, or it is a
    tombstone and nothing below the watermark is kept. *)
Lemma keep_versions_below (w : Z) (k : bytes) (vs : list cversion) (c : cversion) :
  cv_desc vs -> (forall c', In c' vs -> cv_seq c' = cv_seq c -> c' = c) ->
  In c vs -> cv_seq c < w ->
  (forall c', In c' vs -> cv_seq c' < w -> cv_seq c' <= cv_seq c) ->
  In (entry_of k c) (keep_versions w k vs)
  \/ c.1.2 = DELETE_TAG /\ forall e, In e (keep_versions w k vs) -> w <= eseq e.
Proof.
  induction vs as [|[[s t] v] vs IH]; simpl; [done|]. intros Hs Hu Hin Hw Hmax.
  inversion_clear Hs as [|? ? Hs' Hall]. case_match eqn:Es.
  - destruct Hin as [<-|Hin]; [unfold cv_seq in Hw; simpl in Hw; lia|].
    destruct IH as [?|[Hd Hk]]; [done | auto | done | done | auto | left; by right |].
    right. split; [done|]. intros e [<-|He]; [unfold eseq; simpl; lia | auto].
  - assert ((s, t, v) = c) as <-.
    { destruct Hin as [->|Hin]; [done|]. apply Hu; [by left|].
      rewrite Forall_forall in Hall. specialize (Hall c ltac:(by apply list_elem_of_In)).
      specialize (Hmax (s, t, v)). unfold cv_seq in *; simpl in *.
      assert (s <= c.1.1) by (apply Hmax; [by left | lia]). lia. }
    unfold entry_of; simpl. destruct (byte_eqb t DELETE_TAG) eqn:Et.
    + apply bool_decide_eq_true in Et as ->. destruct (w =? U64_MAX); simpl; [right; done | auto].
    + rewrite andb_false_r. simpl. auto.
Qed.

(** ** The merged table *)

Section Merge.
  Context (w : Z) (T : list entry) (m : groups).
  Hypothesis Hgrouped : grouped T m.
  Hypothesis Huniq : uniq_versions T.
  Hypothesis Hplain : forall e, In e T -> plain e.

Definition kept (kv : bytes * list cversion) : list entry :=
  keep_versions w kv.1 (sort_by newest_first kv.2).

Lemma group_get (kv : bytes * list cversion) : In kv m -> kv.2 = versions_of kv.1 T.
Proof.
  destruct kv as [k vs]. destruct Hgrouped as [Hs Hget]. intros Hin.
  rewrite <- Hget. apply om_get_In in Hin; [|done]. simpl. by rewrite Hin.
Qed.

Lemma group_has (e : entry) : In e T -> In (ekey e, versions_of (ekey e) T) m.
Proof.
  intros Hin. destruct Hgrouped as [Hs Hget]. apply om_get_In_iff; [done|].
  specialize (Hget (ekey e)). destruct (om_get (ekey e) m) as [vs|]; simpl in Hget; [by f_equal|].
  assert (In (cv_of e) (versions_of (ekey e) T)) as Hv by (apply versions_of_In; eauto).
  by rewrite <- Hget in Hv.
Qed.

Lemma merge_entries_In (e : entry) :
  In e (merge_entries w m) <-> exists kv, In kv m /\ In e (kept kv).
Proof.
  unfold merge_entries. rewrite sort_by_In, in_concat. setoid_rewrite in_map_iff. split.
  - intros (l & (kv & <- & Hkv) & Hin). eauto.
  - intros (kv & Hkv & Hin). eauto.
Qed.

Lemma kept_from (kv : bytes * list cversion) (e : entry) :
  In kv m -> In e (kept kv) -> In e T /\ ekey e = kv.1.
Proof.
  intros Hkv (c & Hc & ->)%keep_versions_sub. rewrite sort_by_In, group_get in Hc by done.
  apply versions_of_In in Hc as (x & Hin & Hk & ->). rewrite <- Hk.
  by rewrite entry_of_cv_of by auto.
Qed.

Lemma merge_entries_kept (e : entry) :
  In e T -> (In e (merge_entries w m) <-> In e (kept (ekey e, versions_of (ekey e) T))).
Proof.
  intros Hin. rewrite merge_entries_In. split; [|eauto using group_has].
  intros ([k vs] & Hkv & He). pose proof (kept_from _ _ Hkv He) as [_ Hk].
  apply group_get in Hkv. simpl in *. by subst.
Qed.

Lemma merge_entries_compacts : compacts w T (merge_entries w m).
Proof.
  split.
  - intros e (kv & Hkv & Hin)%merge_entries_In. by apply (kept_from kv).
  - intros e Hin Hw. apply merge_entries_kept; [done|].
    rewrite <- (entry_of_cv_of e) at 1 by auto. apply keep_versions_above; simpl.
    + apply newest_first_sorted.
    + rewrite sort_by_In, versions_of_In. eauto.
    + done.
  - intros k e ([Hin Hlt] & Hk & _ & Hmax).
    destruct (keep_versions_below w k (sort_by newest_first (versions_of k T)) (cv_of e))
      as [He|[Hd Hnone]].
    + apply newest_first_sorted.
    + intros c' (x & Hx & Hkx & ->)%sort_by_In%versions_of_In Hs.
      f_equal. apply Huniq; [done | done | congruence | done].
    + rewrite sort_by_In, versions_of_In. eauto.
    + done.
    + intros c' (x & Hx & Hkx & ->)%sort_by_In%versions_of_In Hs. change (cv_seq (cv_of x)) with (eseq x) in *.
      apply (Hmax x); [done | done | lia].
    + left. apply merge_entries_kept; [done|]. rewrite Hk.
      rewrite <- Hk in He at 1. by rewrite entry_of_cv_of in He by auto.
    + right. split; [by apply bool_decide_eq_true|].
      intros e' He' Hk'. apply Hnone. assert (In e' T) as Hin'.
      { apply merge_entries_In in He' as (kv & Hkv & He'). by apply (kept_from kv). }
      apply merge_entries_kept in He'; [|done]. unfold kept in He'; simpl in He'.
      by rewrite Hk' in He'.
Qed.

Lemma merge_entries_sorted : ikey_sorted (merge_entries w m).
Proof.
  eapply StronglySorted_weaken; [|apply (sort_by_sorted entry_le)].
  - intros a b. unfold entry_le, ikey_le; simpl. by destruct (ikey_cmp a.1 b.1).
  - intros a b. unfold entry_le. rewrite (ikey_cmp_antisym a.1).
    destruct (ikey_cmp a.1 b.1); auto.
  - intros a b c. unfold entry_le. destruct (ikey_cmp a.1 b.1) eqn:E1; [| |done].
    + apply ikey_cmp_eq in E1 as ->. done.
    + destruct (ikey_cmp b.1 c.1) eqn:E2; [| |done].
      * apply ikey_cmp_eq in E2 as <-. by rewrite E1.
      * by rewrite (ikey_cmp_trans _ _ _ E1 E2).
Qed.

End Merge.
