(* ===== verification/LsmRefine.v ===== *)
(** The LSM engine refines an append-only log of versions.

    The abstract state is a log: the list of every committed version, newest
    first; a snapshot at [s] reads the first version of a key at or below [s].
    The concrete system is the engine of [Lsm] together with the phase of the
    maintenance task that is under way. [step] lets writes, snapshots, releases
    and lease changes interleave with the three parts of one flush or
    compaction at a time, including failures of every part and of appends to
    the log. A flush that fails is given up, as the engine's callers do: its
    frozen memtable stays in the view. The invariant [inv] holds in every
    reachable state, and gives the refinement: at every live snapshot the
    engine's reads and scans are those of the log.

    The runs of [step] keep a discipline that the engine does not enforce: one
    maintenance task at a time, so that no batch fills the memtable during one,
    and no task behind an abandoned flush. [LsmRaces] shows what is lost
    without it. *)

From Stdlib Require Import Strings.Byte Strings.String Sorted ZArith Lia.
From stdpp Require Import base list gmap strings sorting relations.
From S2P Require Import Prelude OrdMap InternalKey Versions Utf8 Wal SSTable ObjectStore Manifest Lsm LsmRead LsmCompact.

Open Scope Z_scope.

(** ** Rows as entries *)

Definition row_key (row : batch_row) : bytes := row.1.2.
Definition row_value (row : batch_row) : option bytes := row.2.

Definition row_entry (commit_seq : Z) (row : batch_row) : entry :=
  match row_value row with
  | Some v => (mkInternalKey (row_key row) commit_seq PUT_TAG, v)
  | None => (mkInternalKey (row_key row) commit_seq DELETE_TAG, [])
  end.

(** The versions a batch commits. *)
Definition rows_at (commit_seq : Z) (rows : list batch_row) : list entry :=
  map (row_entry commit_seq) rows.

Lemma row_entry_key (c : Z) (row : batch_row) : ekey (row_entry c row) = row_key row.
Proof. unfold row_entry. by destruct (row_value row). Qed.

Lemma row_entry_seq (c : Z) (row : batch_row) : eseq (row_entry c row) = c.
Proof. unfold row_entry. by destruct (row_value row). Qed.

Lemma row_entry_value (c : Z) (row : batch_row) : evalue (row_entry c row) = row_value row.
Proof. unfold row_entry. by destruct (row_value row) eqn:E. Qed.

Lemma row_entry_plain (c : Z) (row : batch_row) : plain (row_entry c row).
Proof. unfold row_entry. by destruct (row_value row). Qed.

Lemma rows_at_seq (c : Z) (rows : list batch_row) (e : entry) : In e (rows_at c rows) -> eseq e = c.
Proof. intros (r & <- & _)%in_map_iff. apply row_entry_seq. Qed.

Lemma rows_at_NoDup (c : Z) (rows : list batch_row) :
  List.NoDup (map row_key rows) -> List.NoDup (rows_at c rows).
Proof.
  unfold rows_at. induction rows as [|r rows IH]; simpl; intros H; [constructor|].
  inversion_clear H as [|? ? Hn Hnd]. constructor; [|auto].
  intros (r' & Hr' & Hin)%in_map_iff. apply Hn. apply in_map_iff. exists r'. split; [|done].
  by rewrite <- (row_entry_key c), Hr', row_entry_key.
Qed.

Lemma rows_at_uniq (c : Z) (rows : list batch_row) :
  List.NoDup (map row_key rows) -> uniq_versions (rows_at c rows).
Proof.
  intros Hnd e e' (r & <- & Hr)%in_map_iff (r' & <- & Hr')%in_map_iff Hk _.
  rewrite !row_entry_key in Hk. f_equal.
  induction rows as [|x rows IH]; simpl in *; [done|].
  inversion_clear Hnd as [|? ? Hn Hnd'].
  destruct Hr as [->|Hr], Hr' as [->|Hr']; auto; exfalso; apply Hn; apply in_map_iff; eauto.
Qed.

Lemma rows_at_order (c : Z) (rows : list batch_row) :
  List.NoDup (map row_key rows) -> version_order (rows_at c rows).
Proof.
  unfold rows_at. induction rows as [|r rows IH]; simpl; intros Hnd; [apply version_order_nil|].
  inversion_clear Hnd as [|? ? Hn Hnd']. apply version_order_cons. split; [|auto].
  intros x (r' & <- & Hin)%in_map_iff Hk. rewrite !row_entry_key in Hk.
  exfalso. apply Hn. apply in_map_iff. eauto.
Qed.

(** Reading a batch at or above its commit number. *)
Lemma rows_at_visible (c : Z) (rows : list batch_row) (row : batch_row) (s : Z) :
  List.NoDup (map row_key rows) -> In row rows -> c <= s ->
  visible (rows_at c rows) (row_key row) s = Some (row_value row).
Proof.
  intros Hnd Hin Hs. unfold visible.
  rewrite (version_order_newest _ _ _ (row_entry c row)); simpl.
  - by rewrite row_entry_value.
  - by apply rows_at_order.
  - split_and!; [by apply in_map | apply row_entry_key | by rewrite row_entry_seq |].
    intros e' He' _ _. by rewrite row_entry_seq, (rows_at_seq _ _ _ He').
Qed.

Lemma rows_at_invisible (c : Z) (rows : list batch_row) (k : bytes) (s : Z) :
  ~ In k (map row_key rows) -> visible (rows_at c rows) k s = None.
Proof.
  intros Hn. unfold visible. rewrite (proj2 (resolve_None_iff _ _ _)); [done|].
  intros e (r & <- & Hr)%in_map_iff Hk. exfalso. apply Hn. apply in_map_iff.
  exists r. by rewrite <- (row_entry_key c).
Qed.

(** ** The memtable after a batch *)

Section Insert.
  Context {sk : SkipMap} {sk_laws : SkipMapLaws}.

Lemma insert_row_entries (c : Z) (m : MemTable) (row : batch_row) :
  mt_to_entries (insert_row c m row) =
    om_insert (fst (row_entry c row)) (snd (row_entry c row)) (mt_to_entries m).
Proof.
  destruct row as [[t k] [v|]]; unfold insert_row, row_entry; simpl; apply mt_insert_entries.
Qed.

Lemma insert_rows_ok (c : Z) (rows : list batch_row) (m : MemTable) :
  mt_ok m -> mt_ok (fold_left (insert_row c) rows m).
Proof.
  revert m. induction rows as [|r rows IH]; intros m Hm; simpl; [done|].
  apply IH. unfold mt_ok. rewrite insert_row_entries. auto.
Qed.

Lemma insert_rows_In (c : Z) (rows : list batch_row) (m : MemTable) (e : entry) :
  mt_ok m -> List.NoDup (map row_key rows) ->
  (forall x, In x (mt_to_entries m) -> eseq x = c -> ~ In (ekey x) (map row_key rows)) ->
  In e (mt_to_entries (fold_left (insert_row c) rows m)) <->
  In e (rows_at c rows ++ mt_to_entries m).
Proof.
  revert m. induction rows as [|r rows IH]; intros m Hm Hnd Hfresh; simpl; [done|].
  inversion_clear Hnd as [|? ? Hn Hnd']. rewrite IH.
  - rewrite !in_app_iff, insert_row_entries, om_insert_In, <- surjective_pairing by done.
    split; [intuition auto | intros [<-|[?|Hin]]; [tauto | tauto |]].
    right. right. split; [|done]. intros Heq. apply (Hfresh e Hin).
    + unfold eseq. rewrite Heq. apply (row_entry_seq c r).
    + left. unfold ekey. rewrite Heq. symmetry. apply (row_entry_key c r).
  - unfold mt_ok. rewrite insert_row_entries. auto.
  - done.
  - intros x Hx Hc Hin. rewrite insert_row_entries, om_insert_In in Hx by done.
    destruct Hx as [->|[_ Hx]]; [|by eapply Hfresh; [..|right]].
    rewrite <- surjective_pairing, row_entry_key in Hin. done.
Qed.

End Insert.

(** ** The system *)

Section System.
  Context {sk : SkipMap} {sk_laws : SkipMapLaws} {bl : Bloom} {bl_laws : BloomLaws}.
  Context {S : Type} {st : ObjectStore S} {bc : Bincode Manifest} {bc0 : Bincode ManifestV0}.
  Context (env : Env).

Abbreviation engine := (@LsmEngine sk bl S).
Abbreviation opens e := (ws_open_snapshots (e_write e)).
Abbreviation next_seq e := (ws_next_commit_seq (e_write e)).

(** The maintenance task under way. A flush is [Flushing] between [begin_flush]
    and [finish_flush] and [Written] until [commit_flush] returns; when a part
    of it fails the callers drop the [PendingFlush] with the error, and the
    frozen memtable stays behind: the flush is [Abandoned]. A compaction is
    [Compacting] and [Merged] likewise; [c0] is the commit number current when
    it began. *)
Inductive phase :=
  | Idle
  | Flushing (pf : PendingFlush)
  | Written (pf : PendingFlush) (sst : SSTable)
  | Abandoned
  | Compacting (pc : PendingCompaction) (c0 : Z)
  | Merged (pc : PendingCompaction) (sst : SSTable) (c0 : Z).

Record sys := Sys { y_engine : engine; y_phase : phase; y_log : list entry }.

(** The commit number fits and the batch names no key twice. *)
Definition batch_fits (rows : list batch_row) (e : engine) : Prop :=
  next_seq e < U64_MAX /\ List.NoDup (map row_key rows).

(** The memtable once a batch is in it. *)
Definition memtable_after (rows : list batch_row) (e : engine) : MemTable :=
  fold_left (insert_row (next_seq e)) rows (v_memtable (e_view e)).

Definition has_room (rows : list batch_row) (e : engine) : Prop :=
  mt_is_full (memtable_after rows e) = false.

Definition commit_entries (rows : list batch_row) (e : engine) : list entry :=
  rows_at (next_seq e) rows.

(** Whether the log takes the batch. *)
Definition appends (rows : list batch_row) (e : engine) : bool :=
  match snd (append_batch (next_seq e) (map wal_entry_of rows) (ws_wal (e_write e))) with
  | Ok _ => true
  | Err _ => false
  end.

(** A batch is committed when its append succeeds, whatever the call returns. *)
Definition log_after (rows : list batch_row) (e : engine) (log : list entry) : list entry :=
  if appends rows e then commit_entries rows e ++ log else log.

Definition write_phase (ph : phase) (r : Result (Z * option PendingFlush)) : phase :=
  match r with Ok (_, Some pf) => Flushing pf | _ => ph end.

Definition flush_phase (r : Result (option PendingFlush)) : phase :=
  match r with Ok (Some pf) => Flushing pf | _ => Idle end.

Definition compact_phase (r : Result (option PendingCompaction)) (e : engine) : phase :=
  match r with Ok (Some pc) => Compacting pc (current_seq e) | _ => Idle end.

Definition set_lease (valid : bool) (token : Z) (e : engine) : engine :=
  mkLsmEngine (e_write e) (e_view e) (e_store e) valid token.

Definition set_wal (wal : Wal) (w : WriteState) : WriteState :=
  mkWriteState wal (ws_sstable_id w) (ws_wal_seg_id w) (ws_manifest_etag w)
    (ws_committed_wal_segment_seq w) (ws_next_commit_seq w) (ws_open_snapshots w).

(** Which of the coming calls to the log's file fail. *)
Definition set_wal_faults (faults : list (option nat)) (e : engine) : engine :=
  let wal := ws_wal (e_write e) in
  set_write (set_wal (mkWal (mkStdWalIo (io_file (wal_io wal)) (io_offset (wal_io wal)) faults)
                        (wal_bytes_written wal)) (e_write e)) e.

Inductive step : sys -> sys -> Prop :=
  (* A batch; during maintenance, while the memtable has room. It may begin a
     flush when there is none under way. *)
  | step_write rows e e' r ph log :
      batch_fits rows e -> ph = Idle \/ has_room rows e \/ appends rows e = false ->
      write_batch env rows e = (e', r) ->
      step (Sys e ph log) (Sys e' (write_phase ph r) (log_after rows e log))
  | step_begin_flush e e' r log :
      begin_flush env e = (e', r) ->
      step (Sys e Idle log) (Sys e' (flush_phase r) log)
  | step_finish_flush pf e s' r log :
      table_fits (pf_entries pf) ->
      finish_flush pf (e_store e) = (s', r) ->
      step (Sys e (Flushing pf) log)
           (Sys (set_store s' e) (match r with Ok sst => Written pf sst | Err _ => Abandoned end) log)
  (* A commit that published the table, also when it fails later on, and one
     that failed before. *)
  | step_commit_flush pf sst e e' r log :
      commit_flush env pf sst e = (e', r) -> e_view e' <> e_view e ->
      step (Sys e (Written pf sst) log) (Sys e' (compact_phase r e') log)
  | step_commit_flush_failed pf sst e e' r log :
      commit_flush env pf sst e = (e', r) -> e_view e' = e_view e ->
      step (Sys e (Written pf sst) log) (Sys e' Abandoned log)
  | step_begin_compact e e' r log :
      begin_compact env e = (e', r) ->
      step (Sys e Idle log) (Sys e' (compact_phase r e') log)
  | step_finish_compact pc c0 e s' r log :
      (forall m, group_sstables (pc_sstables pc) [] = Ok m ->
         table_fits (merge_entries (pc_watermark pc) m)) ->
      finish_compact pc (e_store e) = (s', r) ->
      step (Sys e (Compacting pc c0) log)
           (Sys (set_store s' e) (match r with Ok sst => Merged pc sst c0 | Err _ => Idle end) log)
  | step_commit_compact pc sst c0 e e' r log :
      commit_compact pc sst e = (e', r) ->
      step (Sys e (Merged pc sst c0) log) (Sys e' Idle log)
  | step_snapshot e ph log :
      step (Sys e ph log) (Sys (fst (snapshot_now e)) ph log)
  | step_release s e ph log :
      step (Sys e ph log) (Sys (release_snapshot s e) ph log)
  | step_lease valid token e ph log :
      step (Sys e ph log) (Sys (set_lease valid token e) ph log)
  | step_wal_faults faults e ph log :
      step (Sys e ph log) (Sys (set_wal_faults faults e) ph log).

(** ** The invariant *)

(** What lies under the active memtable. *)
Definition older (v : EngineView) (ess : list (list entry)) : list entry :=
  imm_entries v ++ concat (reverse ess).

(** The view holds versions of the log only, a read finds the newest of them,
    and the snapshots from [floor] up are answered like the log answers them;
    what lies under the active memtable answers them like the log did when it
    was frozen, at commit number [frozen]. Layers can repeat each other's
    versions, after a crash between the two parts of a flush's commit. *)
Record view_ok (v : EngineView) (floor frozen : Z) (log : list entry) (ess : list (list entry)) : Prop := {
  vo_rep : view_rep v ess;
  vo_sub : forall x, In x (flat v ess) -> In x log;
  vo_frozen : forall x, In x (older v ess) -> eseq x < frozen;
  vo_newest : reads_newest (flat v ess);
  vo_newest_older : reads_newest (older v ess);
  vo_look : forall k s, floor <= s -> look (flat v ess) k s = look log k s;
  vo_look_older : forall k s, floor <= s -> look (older v ess) k s = look (below frozen log) k s;
}.

(** What the phase says of the view. *)
Definition phase_ok (e : engine) (ess : list (list entry)) (ph : phase) : Prop :=
  match ph with
  | Idle => imm_entries (e_view e) = []
  | Flushing pf => pf_entries pf = imm_entries (e_view e)
  | Written pf sst => sst_rep sst (imm_entries (e_view e))
  | Abandoned => True
  | Compacting pc c0 | Merged pc _ c0 =>
      imm_entries (e_view e) = [] /\ pc_sstables pc = v_sstables (e_view e)
      /\ c0 <= current_seq e /\ (forall x, In x (concat ess) -> eseq x <= c0)
      /\ (forall t c, In (t, c) (opens e) -> pc_watermark pc <= t \/ c0 <= t)
      /\ match ph with
         | Merged _ sst _ => exists C, sst_rep sst C
             /\ compacts (pc_watermark pc) (concat (reverse ess)) C
         | _ => True
         end
  end.

Record inv_at (frozen : Z) (y : sys) : Prop := {
  ia_next : 1 <= next_seq (y_engine y) <= U64_MAX;
  ia_opens : om_sorted (opens (y_engine y));
  ia_order : version_order (y_log y);
  ia_log : forall x, In x (y_log y) -> plain x /\ 0 < eseq x < next_seq (y_engine y);
  ia_frozen : frozen <= next_seq (y_engine y);
  ia_view : exists ess floor,
    view_ok (e_view (y_engine y)) floor frozen (y_log y) ess
    /\ floor <= current_seq (y_engine y)
    /\ (forall t c, In (t, c) (opens (y_engine y)) -> floor <= t <= current_seq (y_engine y))
    /\ phase_ok (y_engine y) ess (y_phase y);
}.

Definition inv (y : sys) : Prop := exists frozen, inv_at frozen y.

Lemma inv_next (y : sys) : inv y -> 1 <= next_seq (y_engine y) <= U64_MAX.
Proof. intros [f H]. apply H. Qed.

Lemma inv_opens_sorted (y : sys) : inv y -> om_sorted (opens (y_engine y)).
Proof. intros [f H]. apply H. Qed.

Lemma inv_log_order (y : sys) : inv y -> version_order (y_log y).
Proof. intros [f H]. apply H. Qed.

Lemma inv_log_seq (y : sys) : inv y -> forall x, In x (y_log y) -> eseq x < next_seq (y_engine y).
Proof. intros [f H] x Hx%(ia_log _ _ H). lia. Qed.

Lemma current_seq_next (e : engine) : 1 <= next_seq e <= U64_MAX -> current_seq e = next_seq e - 1.
Proof. intros H. unfold current_seq, U64_MAX in *. apply u64_sub_small; unfold is_u64; lia. Qed.

(** ** How the operations change the view *)

Lemma flat_older (v : EngineView) ess : flat v ess = mt_to_entries (v_memtable v) ++ older v ess.
Proof. done. Qed.

Lemma older_sub (v : EngineView) ess x : In x (older v ess) -> In x (flat v ess).
Proof. rewrite flat_older, in_app_iff. by right. Qed.

Lemma version_order_sorted (log l : list entry) :
  version_order log -> (forall x, In x l -> In x log) -> ikey_sorted l -> version_order l.
Proof.
  intros Ho Hs Hk. apply sorted_version_order; [done|]. intros a b Ha Hb. apply (version_order_uniq log Ho); auto.
Qed.

(** The write state once a batch was given to the WAL, the engine when the
    append failed, and the engine when the batch is in the WAL and in the
    memtable. *)
Definition appended (rows : list batch_row) (e : engine) : WriteState :=
  let w := e_write e in
  mkWriteState (fst (append_batch (next_seq e) (map wal_entry_of rows) (ws_wal w)))
    (ws_sstable_id w) (ws_wal_seg_id w) (ws_manifest_etag w) (ws_committed_wal_segment_seq w)
    (u64_add (next_seq e) 1) (ws_open_snapshots w).

Definition unwritten (rows : list batch_row) (e : engine) : engine := set_write (appended rows e) e.

Definition written (rows : list batch_row) (e : engine) : engine :=
  set_view (mkEngineView (memtable_after rows e) (v_immutable (e_view e)) (v_sstables (e_view e)))
    (unwritten rows e).

Lemma write_batch_cases (rows : list batch_row) (e e' : engine) r :
  write_batch env rows e = (e', r) ->
  (appends rows e = false /\ e' = unwritten rows e /\ exists err, r = Err err)
  \/ (appends rows e = true /\ mt_is_full (memtable_after rows e) = true
      /\ exists r0, begin_flush env (written rows e) = (e', r0)
         /\ r = (let? p := r0 in Ok (next_seq e, p)))
  \/ (appends rows e = true /\ has_room rows e /\ e' = written rows e /\ r = Ok (next_seq e, None)).
Proof.
  unfold write_batch, appends, written, unwritten, appended, has_room.
  destruct (append_batch _ _ _) as [wal [rs|err]]; simpl; [|intros [= <- <-]; left; by eauto].
  unfold memtable_after. simpl. intros Hw. right. destruct (mt_is_full _); [left | right; by injection Hw as <- <-].
  split_and!; [done | done |]. destruct (begin_flush env _) as [e1 r1] eqn:E. exists r1.
  destruct r1; by injection Hw as <- <-.
Qed.

Lemma view_ok_written (rows : list batch_row) (e : engine) (floor f : Z) (log : list entry) ess :
  version_order log -> (forall x, In x log -> eseq x < next_seq e) -> f <= next_seq e ->
  List.NoDup (map row_key rows) -> view_ok (e_view e) floor f log ess ->
  view_ok (e_view (written rows e)) floor f (commit_entries rows e ++ log) ess.
Proof.
  intros Hlog Hlt Hf Hnd [[Hm Hi Ht] Hsub Hfr Hn Hno Hl Hlo].
  set (M := mt_to_entries (v_memtable (e_view e))) in *.
  set (M' := mt_to_entries (memtable_after rows e)).
  set (R := commit_entries rows e). set (L := older (e_view e) ess) in *.
  change (flat (e_view e) ess) with (M ++ L) in *.
  assert (flat (e_view (written rows e)) ess = M' ++ L) as Hf' by done.
  assert (forall x, In x M' <-> In x (R ++ M)) as Hin.
  { intros x. apply insert_rows_In; [done | done |].
    intros y Hy Hs. specialize (Hlt y (Hsub y ltac:(apply in_app_iff; by left))). lia. }
  assert (forall x, In x R -> eseq x = next_seq e) as HR by (intros x; apply rows_at_seq).
  assert (version_order (R ++ log)) as Hord.
  { apply version_order_app. split_and!; [by apply rows_at_order | done |].
    intros a b Ha%HR Hb%Hlt _. left. lia. }
  assert (forall x, In x (M' ++ L) -> In x (R ++ log)) as Hsub'.
  { intros x. specialize (Hsub x). rewrite !in_app_iff in *. rewrite Hin, in_app_iff. tauto. }
  assert (version_order M') as HoM'.
  { apply (version_order_sorted (R ++ log)); [done | | by apply om_sorted_ikey, insert_rows_ok].
    intros x Hx. apply Hsub', in_app_iff. by left. }
  assert (version_order (R ++ M)) as HoRM.
  { apply version_order_app. split_and!; [by apply rows_at_order | |].
    - apply (version_order_sorted log); [done | | by apply om_sorted_ikey].
      intros x Hx. apply Hsub, in_app_iff. by left.
    - intros a b Ha%HR Hb _. left. specialize (Hlt b (Hsub b ltac:(apply in_app_iff; by left))). lia. }
  assert (forall k s, resolve (M' ++ L) k s = resolve (R ++ M ++ L) k s) as Hres.
  { intros k s. rewrite app_assoc, !(resolve_app _ L). by rewrite (same_entries_resolve M' (R ++ M)). }
  split; rewrite ?Hf'.
  - split; [by apply insert_rows_ok | done | done].
  - done.
  - done.
  - apply (reads_newest_ext (R ++ M ++ L)); [done | |].
    + intros x. rewrite !in_app_iff, Hin, in_app_iff. tauto.
    + apply reads_newest_app; [by apply version_order_reads_newest, rows_at_order | done |].
      intros a b Ha%HR Hb%Hsub%Hlt _ ?. lia.
  - done.
  - intros k s Hs. unfold look, visible. rewrite Hres. fold (visible (R ++ M ++ L) k s).
    fold (look (R ++ M ++ L) k s). fold (visible (R ++ log) k s) (look (R ++ log) k s).
    rewrite !(look_app R). by rewrite Hl.
  - intros k s Hs. change (older (e_view (written rows e)) ess) with L.
    rewrite below_app, (below_none f R); [by apply Hlo|]. intros x Hx%HR. lia.
Qed.

(** Freezing the memtable, when no frozen memtable holds entries. *)
Lemma view_ok_freeze (v : EngineView) (f f' floor : Z) (log : list entry) ess (n : Z) :
  imm_entries v = [] -> (forall x, In x log -> eseq x < f') -> view_ok v floor f log ess ->
  view_ok (mkEngineView (mt_new n) (Some (v_memtable v)) (v_sstables v)) floor f' log ess.
Proof.
  intros Hi Hf' [[Hm _ Ht] Hsub Hfr Hn Hno Hl Hlo]. set (v' := mkEngineView _ _ _).
  assert (flat v' ess = flat v ess) as Hfl
    by (unfold flat, imm_entries at 1; simpl; by rewrite mt_new_entries, Hi).
  assert (older v' ess = flat v ess) as Hol
    by (unfold older, flat, imm_entries at 1; simpl; by rewrite Hi).
  split; rewrite ?Hfl, ?Hol; try done.
  - split; [apply mt_new_ok | done | done].
  - auto.
  - intros k s Hs. rewrite below_all by done. by apply Hl.
Qed.

(** Replacing the frozen memtable by its table. *)
Lemma view_ok_publish (v : EngineView) (f floor : Z) (log : list entry) ess (sst : SSTable) :
  sst_rep sst (imm_entries v) -> view_ok v floor f log ess ->
  view_ok (mkEngineView (v_memtable v) None (v_sstables v ++ [sst])) floor f log
    (ess ++ [imm_entries v]).
Proof.
  intros Hs [[Hm _ Ht] Hsub Hfr Hn Hno Hl Hlo]. set (v' := mkEngineView _ _ _).
  assert (older v' (ess ++ [imm_entries v]) = older v ess) as Hol
    by (unfold older; by rewrite concat_reverse_snoc).
  assert (flat v' (ess ++ [imm_entries v]) = flat v ess) as Hfl by (by rewrite !flat_older, Hol).
  split; rewrite ?Hfl, ?Hol; try done.
  split; [done | constructor | by apply Forall2_app; [|constructor]].
Qed.

(** Replacing all the tables by their compaction. *)
Lemma view_ok_compact (v : EngineView) (f floor floor' w : Z) (log : list entry) ess sst C :
  version_order log -> imm_entries v = [] -> sst_rep sst C -> compacts w (concat (reverse ess)) C ->
  floor <= floor' ->
  (forall s, floor' <= s -> w <= s \/ forall x, In x (concat (reverse ess)) -> eseq x <= s) ->
  view_ok v floor f log ess ->
  view_ok (mkEngineView (v_memtable v) (v_immutable v) [sst]) floor' f log [C].
Proof.
  intros Hlog Hi Hs Hc Hfl Hlive [[Hm Him Ht] Hsub Hfr Hn Hno Hl Hlo].
  set (M := mt_to_entries (v_memtable v)) in *. set (T := concat (reverse ess)) in *.
  set (v' := mkEngineView _ _ _).
  assert (older v ess = T) as HoT by (unfold older; by rewrite Hi).
  assert (flat v ess = M ++ T) as HfT by (by rewrite flat_older, HoT).
  assert (older v' [C] = C) as HoC.
  { unfold older. change (imm_entries v') with (imm_entries v). rewrite Hi. simpl. by rewrite app_nil_r. }
  assert (flat v' [C] = M ++ C) as HfC by (by rewrite flat_older, HoC).
  rewrite ?HfT, ?HoT in *. pose proof (compacts_sub _ _ _ Hc) as HCT.
  assert (forall x, In x (M ++ C) -> In x log) as HsubC.
  { intros x [Hx|Hx%HCT]%in_app_iff; apply Hsub, in_app_iff; auto. }
  assert (version_order C) as HvC.
  { apply (version_order_sorted log); [done | | apply Hs]. intros x Hx. apply HsubC, in_app_iff. by right. }
  assert (forall k s, floor' <= s -> look C k s = look T k s) as HlC by (intros; apply (compacts_look w); auto).
  split; rewrite ?HfC, ?HoC.
  - split; [done | done | by constructor].
  - done.
  - auto.
  - eapply reads_newest_back; [exact Hn | by apply version_order_reads_newest | done].
  - by apply version_order_reads_newest.
  - intros k s Hk. rewrite look_app, HlC, <- look_app by done. apply Hl. lia.
  - intros k s Hk. rewrite HlC by done. apply Hlo. lia.
Qed.

(** ** Every step keeps the invariant *)

Lemma inv_set_view (e : engine) (v : EngineView) (ph ph' : phase) (log : list entry) (f f' floor : Z) ess :
  inv_at f (Sys e ph log) -> view_ok v floor f' log ess -> f' <= next_seq e -> floor <= current_seq e ->
  (forall t c, In (t, c) (opens e) -> floor <= t) ->
  phase_ok (set_view v e) ess ph' -> inv_at f' (Sys (set_view v e) ph' log).
Proof.
  intros [Hn Hos Hlo Hls _ (ess0 & f0 & _ & _ & Hop & _)] Hv Hf' Hfl Hfo Hph. split; simpl in *; [done..|].
  exists ess, floor. split_and!; [done | done | | done].
  intros t c Hin. specialize (Hfo t c Hin). specialize (Hop t c Hin).
  change (current_seq (set_view v e)) with (current_seq e). lia.
Qed.

(** The parts of the write state that the invariant does not mention. *)
Definition same_clock (e e' : engine) : Prop :=
  next_seq e' = next_seq e /\ opens e' = opens e /\ e_view e' = e_view e.

Lemma same_clock_current (e e' : engine) : same_clock e e' -> current_seq e' = current_seq e.
Proof. intros (H & _). unfold current_seq. by rewrite H. Qed.

Lemma inv_same_clock (e e' : engine) (ph : phase) (log : list entry) (f : Z) :
  same_clock e e' -> inv_at f (Sys e ph log) -> inv_at f (Sys e' ph log).
Proof.
  intros Hsc [Hn Hos Hlo Hls Hfn (ess & fl & Hv & Hf & Hop & Hph)].
  pose proof (same_clock_current _ _ Hsc) as Hc. destruct Hsc as (Hnx & Hop' & Hve).
  split; simpl in *; rewrite ?Hnx, ?Hop'; [done..|].
  exists ess, fl. rewrite Hve, Hc. split_and!; [done..|].
  destruct ph; simpl in *; rewrite ?Hve, ?Hc, ?Hop'; done.
Qed.

(** A flush that is given up leaves the frozen memtable behind. *)
Lemma abandon_flush_inv (e : engine) (ph : phase) (log : list entry) (f : Z) :
  inv_at f (Sys e ph log) -> inv_at f (Sys e Abandoned log).
Proof.
  intros [Hn Hos Hlo Hls Hfn (ess & fl & Hv & Hf & Hop & Hph)]. split; [done..|].
  by exists ess, fl.
Qed.

(** The commit number at which what lies under the memtable was frozen, after
    an operation that may have begun a flush. *)
Definition froze (r : Result (option PendingFlush)) (e : engine) (f : Z) : Z :=
  match r with Ok (Some _) => next_seq e | _ => f end.

(** Swapping an empty memtable for a new one. *)
Lemma view_ok_refresh (v : EngineView) (f floor : Z) (log : list entry) ess (n : Z) :
  imm_entries v = [] -> mt_to_entries (v_memtable v) = [] -> view_ok v floor f log ess ->
  view_ok (mkEngineView (mt_new n) (Some (v_memtable v)) (v_sstables v)) floor f log ess.
Proof.
  intros Hi Hm0 [[Hm _ Ht] Hsub Hfr Hn Hno Hl Hlo]. set (v' := mkEngineView _ _ _).
  assert (older v' ess = older v ess) as Hol by (unfold older, imm_entries; simpl; fold (imm_entries v); by rewrite Hi, Hm0).
  assert (flat v' ess = flat v ess) as Hfl by (rewrite !flat_older, Hol, Hm0; simpl; by rewrite mt_new_entries).
  split; rewrite ?Hfl, ?Hol; try done. split; [apply mt_new_ok | done | done].
Qed.

Lemma begin_flush_inv (e e' : engine) (r : Result (option PendingFlush)) (log : list entry) (f : Z) :
  begin_flush env e = (e', r) -> inv_at f (Sys e Idle log) -> inv_at (froze r e' f) (Sys e' (flush_phase r) log).
Proof.
  intros Hb Hinv. unfold begin_flush in Hb.
  destruct (e_lease_valid e); simpl in Hb; [|by injection Hb as <- <-].
  pose proof Hinv as [_ _ _ Hls Hfn (ess & fl & Hv & Hf & Hop & Hph)]. simpl in *.
  assert (forall t c, In (t, c) (opens e) -> fl <= t) as Hop' by (intros t c Hin; by apply Hop in Hin as [? _]).
  destruct (mt_to_entries (v_memtable (e_view e))) as [|x es] eqn:E; injection Hb as <- <-; simpl.
  - eapply inv_set_view; [done | by eapply view_ok_refresh | done | done | done | done].
  - eapply inv_same_clock; [|eapply (inv_set_view e (mkEngineView (mt_new MEMTABLE_MAX_SIZE)
      (Some (v_memtable (e_view e))) (v_sstables (e_view e))) Idle _ log f (next_seq e) fl ess); [done | | lia | done | done |]]; [done | | done].
    eapply view_ok_freeze; [done | | done]. intros y Hy%Hls. lia.
Qed.

Lemma unwritten_inv (rows : list batch_row) (e : engine) (ph : phase) (log : list entry) (f : Z) :
  next_seq e < U64_MAX -> inv_at f (Sys e ph log) -> inv_at f (Sys (unwritten rows e) ph log).
Proof.
  intros Hmax [Hn Hos Hlo Hls Hfn (ess & fl & Hv & Hf & Hop & Hph)]. simpl in *.
  assert (next_seq (unwritten rows e) = next_seq e + 1) as Hnx.
  { simpl. apply u64_add_small; unfold U64_MAX in *; lia. }
  assert (current_seq e = next_seq e - 1) as Hc by by apply current_seq_next.
  assert (current_seq (unwritten rows e) = next_seq e) as Hc' by (rewrite current_seq_next; rewrite Hnx; lia).
  split; cbn [y_engine y_log y_phase]; rewrite ?Hnx; [lia | done | done | | lia |].
  - intros x Hx%Hls. split; [apply Hx | lia].
  - exists ess, fl. rewrite Hc'. split_and!; [done | lia | |].
    + intros t c Hin. apply Hop in Hin. lia.
    + destruct ph; simpl in *; try done; rewrite Hc'; intuition lia.
Qed.

Lemma written_inv (rows : list batch_row) (e : engine) (ph : phase) (log : list entry) (f : Z) :
  batch_fits rows e -> inv_at f (Sys e ph log) ->
  inv_at f (Sys (written rows e) ph (commit_entries rows e ++ log)).
Proof.
  intros [Hmax Hnd] Hinv. pose proof (unwritten_inv rows _ _ _ _ Hmax Hinv) as [Hn Hos _ _ Hfn (_ & _ & _)].
  destruct Hinv as [Hn0 Hos0 Hlo Hls Hfn0 (ess & fl & Hv & Hf & Hop & Hph)]. simpl in *.
  assert (next_seq (written rows e) = next_seq e + 1) as Hnx.
  { simpl. apply u64_add_small; unfold U64_MAX in *; lia. }
  assert (current_seq e = next_seq e - 1) as Hc by by apply current_seq_next.
  assert (current_seq (written rows e) = next_seq e) as Hc' by (rewrite current_seq_next; rewrite Hnx; lia).
  split; cbn [y_engine y_log y_phase]; rewrite ?Hnx; [lia | done | | | lia |].
  - apply version_order_app. split_and!; [by apply rows_at_order | done |].
    intros a b Ha%rows_at_seq Hb%Hls _. left. lia.
  - intros x [Hx|Hx%Hls]%in_app_iff; [|split; [apply Hx | lia]].
    split; [|apply rows_at_seq in Hx; lia]. apply in_map_iff in Hx as (r & <- & _). apply row_entry_plain.
  - exists ess, fl. rewrite Hc'. split_and!.
    + apply view_ok_written; try done. intros x Hx%Hls. lia.
    + lia.
    + intros t c Hin. apply Hop in Hin. lia.
    + destruct ph; simpl in *; try done; rewrite Hc'; intuition lia.
Qed.

Definition flush_begun (r : Result (Z * option PendingFlush)) : Result (option PendingFlush) :=
  let? x := r in Ok (snd x).

Lemma write_batch_inv (rows : list batch_row) (e e' : engine) r (ph : phase) (log : list entry) (f : Z) :
  batch_fits rows e -> ph = Idle \/ has_room rows e \/ appends rows e = false ->
  write_batch env rows e = (e', r) -> inv_at f (Sys e ph log) ->
  inv_at (froze (flush_begun r) e' f) (Sys e' (write_phase ph r) (log_after rows e log)).
Proof.
  intros Hfit Hph Hw Hinv. unfold log_after.
  apply write_batch_cases in Hw as [(Ha & -> & err & ->)|[(Ha & Hfull & r0 & Hb & ->)|(Ha & Hroom & -> & ->)]];
    rewrite Ha; simpl.
  - apply unwritten_inv; [apply Hfit | done].
  - destruct Hph as [->|[Hroom|Hno]]; [|unfold has_room in Hroom; congruence | congruence].
    apply (written_inv rows) in Hinv; [|done]. pose proof (begin_flush_inv _ _ _ _ _ Hb Hinv) as Hb'.
    by destruct r0 as [[pf|]|err].
  - by apply written_inv.
Qed.

Lemma begin_compact_inv (e e' : engine) (r : Result (option PendingCompaction)) (log : list entry) (f : Z) :
  begin_compact env e = (e', r) -> inv_at f (Sys e Idle log) -> inv_at f (Sys e' (compact_phase r e') log).
Proof.
  intros Hb Hinv. unfold begin_compact in Hb.
  destruct (_ <? 2); [by injection Hb as <- <-|].
  destruct (e_lease_valid e); simpl in Hb; [|by injection Hb as <- <-].
  injection Hb as <- <-. simpl. set (e1 := set_write _ e).
  assert (inv_at f (Sys e1 Idle log)) as Hinv1 by (eapply inv_same_clock; [|done]; done).
  destruct Hinv1 as [Hn Hos Hlo Hls Hfn (ess & fl & Hv & Hf & Hop & Hph)].
  split; [done..|]. exists ess, fl. split_and!; [done..|]. simpl in *.
  split_and!; [done | done | done | | | done].
  - intros x Hx. destruct (Hls x) as [_ Hb].
    + apply (vo_sub _ _ _ _ _ Hv). do 2 (apply in_app_iff; right).
      apply in_concat in Hx as (es & Hes & Hx). apply in_concat. exists es. split; [|done].
      apply list_elem_of_In, elem_of_reverse, list_elem_of_In, Hes.
    + rewrite (current_seq_next e1) by done. change (next_seq e1) with (next_seq e). lia.
  - intros t c Hin. left. destruct (ws_open_snapshots (e_write e)) as [|[t0 c0] m] eqn:E; [done|].
    apply om_sorted_cons in Hos as [Hall _]. destruct Hin as [[= -> ->]|Hin]; [lia|].
    rewrite Forall_forall in Hall. specialize (Hall (t, c) ltac:(by apply list_elem_of_In)).
    apply (proj1 (Z_lt_cmp _ _)) in Hall. simpl in Hall. lia.
Qed.

Lemma begin_compact_view (e e' : engine) (r : Result (option PendingCompaction)) :
  begin_compact env e = (e', r) -> e_view e' = e_view e.
Proof. unfold begin_compact. repeat case_match; by intros [= <- _]. Qed.

Lemma create_in_store_rep (key : string) (id : Z) (es : list entry) (s s' : S) (sst : SSTable) :
  ikey_sorted es -> table_fits es -> create_in_store key id es s = (s', Ok sst) -> sst_rep sst es.
Proof.
  intros Hs Hf. unfold create_in_store. destruct (os_put key (build_bytes es) s) as [s1 [m|err]]; [|done].
  intros [= _ Hd]. destruct (decode_rep key id es Hs Hf) as (t & Ht & Hrep & _).
  rewrite Ht in Hd. by injection Hd as <-.
Qed.

Lemma finish_flush_inv (pf : PendingFlush) (e : engine) (s' : S) r (log : list entry) (f : Z) :
  table_fits (pf_entries pf) -> finish_flush pf (e_store e) = (s', r) ->
  inv_at f (Sys e (Flushing pf) log) ->
  inv_at f (Sys (set_store s' e) (match r with Ok sst => Written pf sst | Err _ => Abandoned end) log).
Proof.
  intros Hfit Hfin Hinv. apply (inv_same_clock e); [done|].
  destruct r as [sst|err]; [|by eapply abandon_flush_inv].
  destruct Hinv as [Hn Hos Hlo Hls Hfn (ess & fl & Hv & Hf & Hop & Hph)].
  split; [done..|]. exists ess, fl. split_and!; [done..|]. simpl in *.
  rewrite <- Hph. eapply create_in_store_rep; [|done|exact Hfin].
  rewrite Hph. apply om_sorted_ikey, (vo_rep _ _ _ _ _ Hv).
Qed.

Lemma ship_wal_clock (e e' : engine) r : ship_wal env e = (e', r) -> same_clock e e'.
Proof.
  unfold ship_wal. case_match; [by intros [= <- _]|].
  destruct (os_put _ _ _) as [s' [m|err]]; by intros [= <- _].
Qed.

Lemma flush_manifest_clock (pf : PendingFlush) (e e' : engine) r :
  flush_manifest pf e = (e', r) -> same_clock e e'.
Proof.
  unfold flush_manifest. destruct (manifest_save_cas _ _ _) as [s' [etag|err]]; by intros [= <- _].
Qed.

Lemma truncate_wal_clock (e e' : engine) r : truncate_wal e = (e', r) -> same_clock e e'.
Proof. unfold truncate_wal. destruct (wal_truncate _). by intros [= <- _]. Qed.

(** [commit_flush] publishes the table or leaves the view as it was. *)
Lemma commit_flush_cases (pf : PendingFlush) (sst : SSTable) (e e' : engine) r :
  commit_flush env pf sst e = (e', r) ->
  (same_clock e e' /\ exists err, r = Err err)
  \/ exists e1, same_clock (publish_flush sst e) e1
     /\ (begin_compact env e1 = (e', r) \/ (e' = e1 /\ (r = Ok None \/ exists err, r = Err err))).
Proof.
  unfold commit_flush. destruct (ship_wal env e) as [e1 [[]|err]] eqn:E1;
    apply ship_wal_clock in E1 as (Ha & Hb & Hc); [|intros [= <- <-]; left; split; [done|by eauto]].
  destruct (flush_manifest pf e1) as [e2 [[]|err]] eqn:E2;
    apply flush_manifest_clock in E2 as (Ga & Gb & Gc); [|intros [= <- <-]; left; split; [|by eauto]].
  2: split_and!; congruence.
  destruct (truncate_wal (publish_flush sst e2)) as [e3 tr] eqn:E3.
  apply truncate_wal_clock in E3 as (Ka & Kb & Kc). intros Hr. right. exists e3. split.
  - unfold same_clock. rewrite Ka, Kb, Kc. unfold publish_flush; simpl. rewrite Gc, Hc, Ga, Gb. done.
  - destruct tr as [[]|err]; [case_match; [by left|]|]; right; injection Hr as <- <-; eauto.
Qed.

Lemma publish_flush_inv (pf : PendingFlush) (sst : SSTable) (e : engine) (log : list entry) (f : Z) :
  inv_at f (Sys e (Written pf sst) log) -> inv_at f (Sys (publish_flush sst e) Idle log).
Proof.
  intros Hinv. pose proof Hinv as [_ _ _ _ Hfn (ess & fl & Hv & Hf & Hop & Hph)]. simpl in *.
  eapply inv_set_view; [done | by apply view_ok_publish | done | done | | done].
  intros t c Hin. by apply Hop in Hin as [? _].
Qed.

Lemma publish_flush_view (sst : SSTable) (e e' : engine) :
  e_view e' = e_view (publish_flush sst e) -> e_view e' <> e_view e.
Proof.
  intros -> Heq%(f_equal v_sstables)%(f_equal length). simpl in Heq. rewrite length_app in Heq. simpl in Heq. lia.
Qed.

Lemma commit_flush_inv (pf : PendingFlush) (sst : SSTable) (e e' : engine) r (log : list entry) (f : Z) :
  commit_flush env pf sst e = (e', r) -> inv_at f (Sys e (Written pf sst) log) ->
  (e_view e' = e_view e /\ inv_at f (Sys e' Abandoned log))
  \/ e_view e' <> e_view e /\ inv_at f (Sys e' (compact_phase r e') log).
Proof.
  intros [[Hsc (err & ->)]|(e1 & Hsc & Hr)]%commit_flush_cases Hinv.
  - left. split; [apply Hsc|]. eapply abandon_flush_inv, inv_same_clock; [done | exact Hinv].
  - right. apply publish_flush_inv in Hinv. apply (inv_same_clock _ e1) in Hinv; [|done].
    split.
    + apply (publish_flush_view sst). destruct Hsc as (_ & _ & <-).
      destruct Hr as [Hr|[-> _]]; [by apply begin_compact_view in Hr | done].
    + destruct Hr as [Hr|[-> [->|(err & ->)]]]; [by eapply begin_compact_inv | done | done].
Qed.

Lemma reverse_tables_In (ess : list (list entry)) (x : entry) : In x (concat ess) <-> In x (concat (reverse ess)).
Proof.
  rewrite !in_concat. setoid_rewrite <- list_elem_of_In. by setoid_rewrite elem_of_reverse.
Qed.

Lemma finish_compact_inv (pc : PendingCompaction) (c0 : Z) (e : engine) (s' : S) r (log : list entry) (f : Z) :
  (forall m, group_sstables (pc_sstables pc) [] = Ok m ->
     table_fits (merge_entries (pc_watermark pc) m)) ->
  finish_compact pc (e_store e) = (s', r) ->
  inv_at f (Sys e (Compacting pc c0) log) ->
  inv_at f (Sys (set_store s' e) (match r with Ok sst => Merged pc sst c0 | Err _ => Idle end) log).
Proof.
  intros Hfit Hfin [Hn Hos Hlo Hls Hfn (ess & fl & Hv & Hf & Hop & Hph)]. simpl in Hph.
  destruct Hph as (Hi & Hts & Hc0 & Hle & Hw & _).
  apply (inv_same_clock e); [done|]. split; [done..|]. exists ess, fl. split_and!; [done..|].
  destruct r as [sst|err]; [|done]. simpl. split_and!; [done..|].
  unfold finish_compact in Hfin. rewrite Hts in *.
  destruct (group_sstables_grouped (v_sstables (e_view e)) ess [] []) as (m & Hm & Hg);
    [apply (vo_rep _ _ _ _ _ Hv) | split; [constructor | done] |].
  rewrite Hm in Hfin. specialize (Hfit m Hm). simpl in Hg.
  pose proof (reverse_tables_In ess) as Hrev.
  assert (forall x, In x (concat ess) -> In x log) as Hflat.
  { intros x Hx%Hrev. apply (vo_sub _ _ _ _ _ Hv). by do 2 (apply in_app_iff; right). }
  assert (uniq_versions (concat ess)) as Hu.
  { intros a b Ha Hb. apply (version_order_uniq _ Hlo); simpl; auto. }
  assert (forall x, In x (concat ess) -> plain x) as Hpl.
  { intros x Hx%Hflat. by apply Hls in Hx as [? _]. }
  exists (merge_entries (pc_watermark pc) m). split.
  - eapply create_in_store_rep; [|done|exact Hfin]. apply merge_entries_sorted.
  - destruct (merge_entries_compacts (pc_watermark pc) _ m Hg Hu Hpl) as [H1 H2 H3].
    split; [by intros ? ?%H1%Hrev | by intros ? ?%Hrev; apply H2 |].
    intros k x ([Hx Hlt] & Hk & Hle' & Hmax). apply H3. split_and!; [by apply Hrev | done | done | done |].
    intros x' [Hx' Hlt']. apply Hmax. by rewrite <- Hrev.
Qed.

Lemma filter_consumed (ts : list SSTable) :
  List.filter (fun t => negb (existsb (Z.eqb (sst_id t)) (map sst_id ts))) ts = [].
Proof.
  assert (forall l, (forall t, In t l -> In t ts) ->
    List.filter (fun t => negb (existsb (Z.eqb (sst_id t)) (map sst_id ts))) l = []) as H; [|auto].
  induction l as [|t l IH]; intros Hsub; simpl; [done|].
  rewrite (proj2 (existsb_exists _ _)); simpl.
  - apply IH. intros x Hx. apply Hsub. by right.
  - exists (sst_id t). split; [apply in_map, Hsub; by left | apply Z.eqb_refl].
Qed.

(** The view in which the merged table has replaced the tables it merged. *)
Lemma merged_published_inv (pc : PendingCompaction) (sst : SSTable) (c0 : Z) (e : engine) log (f : Z) :
  inv_at f (Sys e (Merged pc sst c0) log) ->
  inv_at f (Sys (set_view (mkEngineView (v_memtable (e_view e)) (v_immutable (e_view e)) [sst]) e) Idle log).
Proof.
  intros Hinv. pose proof Hinv as [_ _ Hlo _ Hfn (ess & fl & Hv & Hf & Hop & Hph)]. simpl in Hph.
  destruct Hph as (Hi & Hts & Hc0 & Hle & Hw & C & HC & Hcomp).
  eapply (inv_set_view e _ _ _ _ f _ (Z.max fl (Z.min (pc_watermark pc) c0))); [done| | done | | |].
  - apply (view_ok_compact _ _ fl _ (pc_watermark pc) _ ess sst C); [done|done|done|done|lia| |done].
    intros s Hs. destruct (decide (pc_watermark pc <= s)); [by left|right].
    intros x Hx%reverse_tables_In. specialize (Hle x Hx). lia.
  - simpl in Hf. lia.
  - intros t c Hin. specialize (Hop t c Hin). specialize (Hw t c Hin). lia.
  - done.
Qed.

(** A compaction that is given up leaves nothing behind. *)
Lemma abandoned_inv (pc : PendingCompaction) (sst : SSTable) (c0 : Z) (e : engine) log (f : Z) :
  inv_at f (Sys e (Merged pc sst c0) log) -> inv_at f (Sys e Idle log).
Proof.
  intros [Hn Hos Hlo Hls Hfn (ess & fl & Hv & Hf & Hop & Hph)]. split; [done..|].
  exists ess, fl. split_and!; [done..|]. by destruct Hph.
Qed.

Lemma commit_compact_inv (pc : PendingCompaction) (sst : SSTable) (c0 : Z) (e e' : engine) r log (f : Z) :
  commit_compact pc sst e = (e', r) -> inv_at f (Sys e (Merged pc sst c0) log) -> inv_at f (Sys e' Idle log).
Proof.
  intros Hc Hinv. pose proof (merged_published_inv _ _ _ _ _ _ Hinv) as Hnew.
  pose proof (abandoned_inv _ _ _ _ _ _ Hinv) as Hold.
  destruct Hinv as [_ _ _ _ _ (ess & fl & _ & _ & _ & (_ & Hts & _))].
  unfold commit_compact in Hc. rewrite Hts, filter_consumed in Hc. simpl in Hc.
  destruct (manifest_save_cas _ _ _) as [s1 [etag|err]]; injection Hc as <- <-.
  - by eapply inv_same_clock; [|exact Hnew].
  - by apply (inv_same_clock e).
Qed.

(** Changing the open snapshots. *)
Lemma inv_set_snapshots (m : list (Z * Z)) (e : engine) (ph : phase) (log : list entry) (f : Z) :
  om_sorted m ->
  (forall t c, In (t, c) m -> t = current_seq e \/ exists c', In (t, c') (opens e)) ->
  inv_at f (Sys e ph log) -> inv_at f (Sys (set_write (set_snapshots m (e_write e)) e) ph log).
Proof.
  intros Hm Hsub [Hn Hos Hlo Hls Hfn (ess & fl & Hv & Hf & Hop & Hph)]. simpl in *.
  split; [done..|]. exists ess, fl. split_and!; [done | done | |].
  - intros t c [->|[c' Hin]]%Hsub; [|by eapply Hop].
    change (current_seq _) with (current_seq e). simpl in *. lia.
  - assert (forall pw c0, c0 <= current_seq e ->
      (forall t c, In (t, c) (opens e) -> pw <= t \/ c0 <= t) ->
      forall t c, In (t, c) m -> pw <= t \/ c0 <= t) as Hmono.
    { intros pw c0 Hc Hall t c [->|[c' Hin]]%Hsub; [lia | eauto]. }
    destruct ph; simpl in *; try done.
    + destruct Hph as (H1 & H2 & H3 & H4 & H5 & _). split_and!; eauto.
    + destruct Hph as (H1 & H2 & H3 & H4 & H5 & H6). split_and!; eauto.
Qed.

Lemma snapshot_inv_at (e : engine) (ph : phase) (log : list entry) (f : Z) :
  inv_at f (Sys e ph log) -> inv_at f (Sys (fst (snapshot_now e)) ph log).
Proof.
  intros Hinv. pose proof (ia_opens _ _ Hinv) as Hos. simpl in Hos.
  apply inv_set_snapshots; [by apply om_insert_sorted | | done].
  intros t c Hin. apply om_insert_In in Hin as [[= -> _]|[_ Hin]]; [|right; by exists c | done].
  by left.
Qed.

Lemma release_inv_at (s : Z) (e : engine) (ph : phase) (log : list entry) (f : Z) :
  inv_at f (Sys e ph log) -> inv_at f (Sys (release_snapshot s e) ph log).
Proof.
  intros Hinv. pose proof (ia_opens _ _ Hinv) as Hos. simpl in Hos.
  unfold release_snapshot. destruct (om_get s (opens e)) as [n|] eqn:E; [|done].
  apply inv_set_snapshots; [by case_match; auto | | done].
  intros t c. case_match.
  - rewrite om_remove_In by done. intros [_ Hin]. eauto.
  - rewrite om_insert_In by done. intros [[= -> _]|[_ Hin]]; [|eauto].
    right. exists n. by apply om_get_Some_In.
Qed.

Lemma snapshot_inv (e : engine) (ph : phase) (log : list entry) :
  inv (Sys e ph log) -> inv (Sys (fst (snapshot_now e)) ph log).
Proof. intros [f H]. exists f. by apply snapshot_inv_at. Qed.

Lemma release_inv (s : Z) (e : engine) (ph : phase) (log : list entry) :
  inv (Sys e ph log) -> inv (Sys (release_snapshot s e) ph log).
Proof. intros [f H]. exists f. by apply release_inv_at. Qed.

Lemma step_inv (y y' : sys) : step y y' -> inv y -> inv y'.
Proof.
  intros Hstep [f Hinv]. destruct Hstep as
    [rows e e' r ph log Hfit Hph Hw | e e' r log Hb
    | pf e s' r log Hfit Hf | pf sst e e' r log Hc Hdiff | pf sst e e' r log Hc Hsame
    | e e' r log Hb | pc c0 e s' r log Hfit Hf
    | pc sst c0 e e' r log Hc | | | valid token e ph log | faults e ph log].
  - eexists. by eapply write_batch_inv.
  - eexists. by eapply begin_flush_inv.
  - exists f. by eapply finish_flush_inv.
  - exists f. by eapply commit_flush_inv in Hc as [[? _]|[_ ?]].
  - exists f. by eapply commit_flush_inv in Hc as [[_ ?]|[? _]].
  - exists f. by eapply begin_compact_inv.
  - exists f. by eapply finish_compact_inv.
  - exists f. by eapply commit_compact_inv.
  - exists f. by apply snapshot_inv_at.
  - exists f. by apply release_inv_at.
  - exists f. by apply (inv_same_clock e).
  - exists f. by apply (inv_same_clock e).
Qed.

(** ** The refinement *)

(** An engine as [lsm_open] leaves it on an empty data directory and store. *)
Definition fresh_engine (s : S) (valid : bool) (token : Z) : engine :=
  mkLsmEngine (mkWriteState (wal_open []) 1 1 None 0 1 [])
    (mkEngineView (mt_new MEMTABLE_MAX_SIZE) None []) s valid token.

Definition initial (y : sys) : Prop :=
  exists s valid token, y = Sys (fresh_engine s valid token) Idle [].

Definition reachable (y : sys) : Prop := exists y0, initial y0 /\ rtc step y0 y.

(** Snapshots that are still served: at or above an open one, or current. *)
Definition live (e : engine) (s : Z) : Prop :=
  current_seq e <= s \/ exists t c, In (t, c) (opens e) /\ t <= s.

(** A new engine satisfies the invariant, whatever its memtable's capacity. *)
Lemma empty_inv_at (n : Z) (s : S) (valid : bool) (token : Z) :
  inv_at 0 (Sys (mkLsmEngine (mkWriteState (wal_open []) 1 1 None 0 1 [])
              (mkEngineView (mt_new n) None []) s valid token) Idle []).
Proof.
  split; simpl; [unfold U64_MAX; lia | constructor | apply version_order_nil | done | lia |].
  exists [], 0. split_and!; [|done|done|done].
  assert (flat (mkEngineView (mt_new n) None []) [] = []) as Hf
    by (unfold flat; simpl; by rewrite mt_new_entries).
  split; rewrite ?Hf; try done. split; [apply mt_new_ok | constructor | constructor].
Qed.

Lemma empty_inv (n : Z) (s : S) (valid : bool) (token : Z) :
  inv (Sys (mkLsmEngine (mkWriteState (wal_open []) 1 1 None 0 1 [])
              (mkEngineView (mt_new n) None []) s valid token) Idle []).
Proof. exists 0. apply empty_inv_at. Qed.

Lemma initial_inv (y : sys) : initial y -> inv y.
Proof. intros (s & valid & token & ->). apply empty_inv. Qed.

Lemma steps_inv (y y' : sys) : rtc step y y' -> inv y -> inv y'.
Proof. induction 1; eauto using step_inv. Qed.

Lemma reachable_inv (y : sys) : reachable y -> inv y.
Proof. intros (y0 & Hi & Hst). by eapply steps_inv, initial_inv. Qed.

Lemma inv_reads (y : sys) (s : Z) :
  inv y -> live (y_engine y) s ->
  (forall k, read_at k s (y_engine y) = Ok (look (y_log y) k s))
  /\ exists kvs, scan_at s (y_engine y) = Ok kvs /\ om_sorted kvs
     /\ forall k x, In (k, x) kvs <-> look (y_log y) k s = Some x.
Proof.
  intros [f [Hn Hos Hlo Hls Hfn (ess & fl & Hv & Hf & Hop & Hph)]] Hlive.
  assert (fl <= s) as Hs.
  { destruct Hlive as [?|(t & c & Hin & ?)]; [lia|]. apply Hop in Hin. lia. }
  pose proof (vo_rep _ _ _ _ _ Hv) as Hrep. pose proof (vo_look _ _ _ _ _ Hv) as Hlook. split.
  - intros k. unfold read_at. by rewrite (view_read_at_look _ _ _ _ Hrep), Hlook.
  - destruct (view_scan_at_look _ _ s Hrep) as (kvs & H1 & H2 & H3).
    exists kvs. split_and!; [done|done|]. intros k x. by rewrite H3, Hlook.
Qed.

(** C2. Refinement. In every state reachable from an empty store by batches
    (also batches whose append to the log fails), snapshots, releases, lease
    changes and the parts of maintenance tasks, failing ones included, a read or
    a scan at a live snapshot returns what the append-only log of committed
    versions holds for it; a scan is sorted and lists exactly the keys that point
    reads find. The runs are those in which one flush or compaction is under way
    at a time: no batch fills the memtable during one, and behind a flush that
    was abandoned with an error no other task begins (the engine enforces
    neither, see [LsmRaces]); batches name no key twice and tables fit their
    format. *)
Theorem lsm_refines_log (y : sys) (s : Z) :
  reachable y -> live (y_engine y) s ->
  (forall k, read_at k s (y_engine y) = Ok (look (y_log y) k s))
  /\ exists kvs, scan_at s (y_engine y) = Ok kvs /\ om_sorted kvs
     /\ forall k x, In (k, x) kvs <-> look (y_log y) k s = Some x.
Proof. intros Hr. apply inv_reads. by apply reachable_inv. Qed.

(** The log only grows, by versions above every number issued before. *)
Lemma begin_flush_next (e e' : engine) r : begin_flush env e = (e', r) -> next_seq e' = next_seq e /\ opens e' = opens e.
Proof. unfold begin_flush. repeat case_match; by intros [= <- _]. Qed.

Lemma begin_compact_next (e e' : engine) r : begin_compact env e = (e', r) -> next_seq e' = next_seq e.
Proof. unfold begin_compact. repeat case_match; by intros [= <- _]. Qed.

Lemma commit_flush_next pf sst (e e' : engine) r : commit_flush env pf sst e = (e', r) -> next_seq e' = next_seq e.
Proof.
  intros [[Hsc _]|(e1 & (Hsc & _) & [Hr|[-> _]])]%commit_flush_cases; [apply Hsc | by apply begin_compact_next in Hr as -> | done].
Qed.

Lemma commit_compact_next pc sst (e e' : engine) r : commit_compact pc sst e = (e', r) -> next_seq e' = next_seq e.
Proof. unfold commit_compact. repeat case_match; by intros [= <- _]. Qed.

Lemma write_batch_next (rows : list batch_row) (e e' : engine) r :
  1 <= next_seq e -> batch_fits rows e -> write_batch env rows e = (e', r) ->
  next_seq e' = next_seq e + 1 /\ opens e' = opens e.
Proof.
  intros Hn [Hlt _] Hw.
  assert (next_seq (unwritten rows e) = next_seq e + 1) as Hc by (simpl; apply u64_add_small; unfold U64_MAX in *; lia).
  apply write_batch_cases in Hw as [(_ & -> & _)|[(_ & _ & r0 & Hb & _)|(_ & _ & -> & _)]]; [done | | done].
  apply begin_flush_next in Hb as [-> ->]. done.
Qed.

Lemma step_log (y y' : sys) :
  step y y' -> inv y ->
  exists new, y_log y' = new ++ y_log y
    /\ (forall x, In x new -> eseq x = next_seq (y_engine y))
    /\ next_seq (y_engine y) <= next_seq (y_engine y').
Proof.
  intros Hstep Hinv. pose proof (inv_next _ Hinv) as Hn.
  destruct Hstep as
    [rows e e' r ph log Hfit Hph Hw | e e' r log Hb
    | pf e s' r log Hfit Hf | pf sst e e' r log Hc Hdiff | pf sst e e' r log Hc Hsame
    | e e' r log Hb | pc c0 e s' r log Hfit Hf
    | pc sst c0 e e' r log Hc | e ph log | s e ph log | valid token e ph log | faults e ph log]; simpl in *.
  1: { apply write_batch_next in Hw as [Hnx _]; [|lia|done]. unfold log_after.
       exists (if appends rows e then commit_entries rows e else []).
       destruct (appends rows e); split_and!; try done; try lia. intros x. apply rows_at_seq. }
  all: exists []; split_and!; try done; try lia.
  - apply begin_flush_next in Hb as [-> _]. lia.
  - apply commit_flush_next in Hc as ->. lia.
  - apply commit_flush_next in Hc as ->. lia.
  - apply begin_compact_next in Hb as ->. lia.
  - apply commit_compact_next in Hc as ->. lia.
  - unfold release_snapshot. case_match; simpl; lia.
Qed.

Lemma steps_log (y y' : sys) :
  rtc step y y' -> inv y ->
  exists new, y_log y' = new ++ y_log y
    /\ (forall x, In x new -> next_seq (y_engine y) <= eseq x)
    /\ next_seq (y_engine y) <= next_seq (y_engine y').
Proof.
  induction 1 as [y|y y1 y2 Hst _ IH]; intros Hinv; [by exists []|].
  destruct (step_log _ _ Hst Hinv) as (n1 & Hl1 & Hn1 & Hle).
  destruct (IH (step_inv _ _ Hst Hinv)) as (n2 & Hl2 & Hn2 & Hle2). exists (n2 ++ n1).
  split_and!; [by rewrite Hl2, Hl1, app_assoc | | lia].
  intros x [Hx%Hn2|Hx%Hn1]%in_app_iff; lia.
Qed.

Lemma om_sorted_same (kvs kvs' : list (bytes * bytes)) :
  om_sorted kvs -> om_sorted kvs' -> (forall k x, In (k, x) kvs <-> In (k, x) kvs') -> kvs = kvs'.
Proof.
  intros H1 H2 Hin. apply om_ext; [done|done|]. intros k. apply option_eq. intros x.
  by rewrite !om_get_In_iff.
Qed.

(** C5. Snapshot isolation. A snapshot that stays live answers every read and
    every scan the same way from the moment it can be taken, whatever is
    written, flushed, compacted or released meanwhile, failures included, in the
    runs of [step]: one flush or compaction is under way at a time, and none
    begins behind an abandoned flush. *)
Theorem lsm_snapshot_is_stable (y y' : sys) (s : Z) :
  reachable y -> rtc step y y' -> s <= current_seq (y_engine y) ->
  live (y_engine y) s -> live (y_engine y') s ->
  (forall k, read_at k s (y_engine y') = read_at k s (y_engine y))
  /\ scan_at s (y_engine y') = scan_at s (y_engine y).
Proof.
  intros Hr Hst Hs Hl Hl'. pose proof (reachable_inv _ Hr) as Hinv.
  pose proof (steps_inv _ _ Hst Hinv) as Hinv'.
  destruct (steps_log _ _ Hst Hinv) as (new & Hlog & Hnew & _).
  destruct (inv_reads _ _ Hinv Hl) as [Hrd (kvs & Hsc & Hkvs & Hin)].
  destruct (inv_reads _ _ Hinv' Hl') as [Hrd' (kvs' & Hsc' & Hkvs' & Hin')].
  assert (forall k, look (y_log y') k s = look (y_log y) k s) as Hlook.
  { intros k. rewrite Hlog. apply look_above. intros x Hx%Hnew.
    rewrite current_seq_next in Hs by by apply inv_next. lia. }
  split.
  - intros k. by rewrite Hrd, Hrd', Hlook.
  - rewrite Hsc, Hsc'. f_equal. apply om_sorted_same; [done|done|].
    intros k x. by rewrite Hin, Hin', Hlook.
Qed.

Lemma write_batch_clock (rows : list batch_row) (e e' : engine) r :
  1 <= next_seq e <= U64_MAX -> batch_fits rows e -> write_batch env rows e = (e', r) ->
  current_seq e' = next_seq e /\ opens e' = opens e.
Proof.
  intros Hn Hfit Hw. destruct (write_batch_next _ _ _ _ (proj1 Hn) Hfit Hw) as [Hnx Ho]. split; [|done].
  destruct Hfit as [Hlt _]. rewrite current_seq_next; rewrite Hnx; lia.
Qed.

Lemma write_batch_failed (rows : list batch_row) (e e' : engine) r :
  appends rows e = false -> write_batch env rows e = (e', r) ->
  (exists err, r = Err err) /\ e_view e' = e_view e.
Proof.
  intros Ha Hw.
  apply write_batch_cases in Hw as [(_ & -> & Hr)|[(Hb & _)|(Hb & _)]]; [by split | congruence | congruence].
Qed.

(** What a batch does to reads at every snapshot. *)
Definition batch_applied (rows : list batch_row) (e e' : engine) : Prop :=
  (forall k s, live e s -> s <= current_seq e -> live e' s -> read_at k s e' = read_at k s e)
  /\ (forall row s, In row rows -> current_seq e < s -> read_at (row_key row) s e' = Ok (row_value row))
  /\ (forall k s, ~ In k (map row_key rows) -> current_seq e < s -> read_at k s e' = read_at k s e).

Lemma inv_batch_reads (rows : list batch_row) (e e' : engine) r (ph : phase) (log : list entry) :
  inv (Sys e ph log) -> batch_fits rows e -> ph = Idle \/ has_room rows e ->
  appends rows e = true -> write_batch env rows e = (e', r) -> batch_applied rows e e'.
Proof.
  intros Hr Hfit Hph Ha Hw.
  assert (step (Sys e ph log) (Sys e' (write_phase ph r) (log_after rows e log))) as Hst
    by (apply step_write; [done | tauto | done]).
  pose proof (step_inv _ _ Hst Hr) as Hr'. pose proof (inv_next _ Hr) as Hn. simpl in Hn.
  destruct (write_batch_clock _ _ _ _ Hn Hfit Hw) as [Hc _].
  pose proof (current_seq_next e Hn) as Hcur.
  assert (forall k s, live e s -> read_at k s e = Ok (look log k s)) as Hold
    by (intros k s Hl; exact (proj1 (inv_reads _ s Hr Hl) k)).
  assert (forall k s, live e' s -> read_at k s e' = Ok (look (commit_entries rows e ++ log) k s)) as Hnew.
  { intros k s Hl. pose proof (proj1 (inv_reads _ s Hr' Hl) k) as H. unfold log_after in H. by rewrite Ha in H. }
  split_and!.
  - intros k s Hl Hs Hl'. rewrite Hold, Hnew, look_above; [done| |done|done].
    intros x Hx%rows_at_seq. lia.
  - intros row s Hin Hs. rewrite Hnew by (left; lia). rewrite look_app.
    unfold commit_entries. rewrite rows_at_visible; [done | apply Hfit | done | lia].
  - intros k s Hk Hs. rewrite Hnew, Hold by (left; lia). rewrite look_app.
    unfold commit_entries. by rewrite rows_at_invisible.
Qed.

(** A batch commits atomically. When the log takes it, snapshots below its
    commit number read what they read before, and from its commit number on
    every row of the batch is visible and no other key changes; this also holds
    when the call fails then, which it does when the lease is gone by the time a
    flush is due. When the append fails, so does the call, and no read changes. *)
Theorem lsm_batch_is_atomic (rows : list batch_row) (e e' : engine) r (ph : phase) (log : list entry) :
  reachable (Sys e ph log) -> batch_fits rows e -> ph = Idle \/ has_room rows e ->
  write_batch env rows e = (e', r) ->
  if appends rows e then batch_applied rows e e'
  else (exists err, r = Err err) /\ forall k s, read_at k s e' = read_at k s e.
Proof.
  intros Hr%reachable_inv Hfit Hph Hw. destruct (appends rows e) eqn:Ha; [by eapply inv_batch_reads|].
  destruct (write_batch_failed _ _ _ _ Ha Hw) as [He Hv]. split; [done|]. intros k s. unfold read_at. by rewrite Hv.
Qed.

(** ** Running the system *)

(** One operation or one part of the task under way, as a function. *)
Definition run_write (rows : list batch_row) (y : sys) : sys :=
  let '(e', r) := write_batch env rows (y_engine y) in
  Sys e' (write_phase (y_phase y) r) (log_after rows (y_engine y) (y_log y)).

Definition run_begin_flush (y : sys) : sys :=
  let '(e', r) := begin_flush env (y_engine y) in Sys e' (flush_phase r) (y_log y).

Definition run_begin_compact (y : sys) : sys :=
  let '(e', r) := begin_compact env (y_engine y) in Sys e' (compact_phase r e') (y_log y).

Definition run_snapshot (y : sys) : sys := Sys (fst (snapshot_now (y_engine y))) (y_phase y) (y_log y).

Definition run_finish_flush (y : sys) : sys :=
  match y_phase y with
  | Flushing pf =>
      let '(s', r) := finish_flush pf (e_store (y_engine y)) in
      Sys (set_store s' (y_engine y))
        (match r with Ok sst => Written pf sst | Err _ => Abandoned end) (y_log y)
  | _ => y
  end.

Definition run_commit_flush (y : sys) : sys :=
  match y_phase y with
  | Written pf sst =>
      match commit_flush env pf sst (y_engine y) with
      | (e', Ok pc) => Sys e' (compact_phase (Ok pc) e') (y_log y)
      | (e', Err _) => Sys e' Abandoned (y_log y)
      end
  | _ => y
  end.

Lemma run_write_steps (rows : list batch_row) (y : sys) :
  batch_fits rows (y_engine y) -> has_room rows (y_engine y) -> rtc step y (run_write rows y).
Proof.
  destruct y as [e ph log]. intros Hf Hfull. unfold run_write; simpl.
  destruct (write_batch env rows e) as [e' r] eqn:E. apply rtc_once. apply step_write; auto.
Qed.

Lemma run_begin_flush_steps (y : sys) : y_phase y = Idle -> rtc step y (run_begin_flush y).
Proof.
  destruct y as [e ph log]; simpl. intros ->. unfold run_begin_flush; simpl.
  destruct (begin_flush env e) as [e' r] eqn:E. apply rtc_once. by constructor.
Qed.

Lemma run_snapshot_steps (y : sys) : rtc step y (run_snapshot y).
Proof. destruct y. apply rtc_once. constructor. Qed.

Lemma run_finish_flush_steps (y : sys) :
  (forall pf, y_phase y = Flushing pf -> table_fits (pf_entries pf)) -> rtc step y (run_finish_flush y).
Proof.
  destruct y as [e ph log]; unfold run_finish_flush; simpl. intros Hf.
  destruct ph; try done. destruct (finish_flush pf (e_store e)) as [s' r] eqn:E.
  apply rtc_once. by apply step_finish_flush; [apply Hf|].
Qed.

Lemma commit_flush_ok_view (pf : PendingFlush) (sst : SSTable) (e e' : engine) pc :
  commit_flush env pf sst e = (e', Ok pc) -> e_view e' <> e_view e.
Proof.
  intros [[_ [err [=]]]|(e1 & (_ & _ & Hv) & Hr)]%commit_flush_cases. apply (publish_flush_view sst). rewrite <- Hv.
  destruct Hr as [Hr|[-> _]]; [by apply begin_compact_view in Hr | done].
Qed.

Lemma run_commit_flush_steps (y : sys) :
  (forall pf sst, y_phase y = Written pf sst -> exists pc, snd (commit_flush env pf sst (y_engine y)) = Ok pc) ->
  rtc step y (run_commit_flush y).
Proof.
  destruct y as [e ph log]; unfold run_commit_flush; simpl. intros Hok.
  destruct ph; try done. destruct (Hok _ _ eq_refl) as [pc Hpc].
  destruct (commit_flush env pf sst e) as [e' r] eqn:E. simpl in Hpc. subst r.
  apply rtc_once, (step_commit_flush pf sst e e' (Ok pc)); [done|]. by eapply commit_flush_ok_view.
Qed.

End System.

(** ** A run: a commit, a snapshot, a commit that deletes and adds, a flush, a
    commit in the middle of the flush, and the flush's commit. *)
Section Demo.

#[local] Existing Instance demo_sha.

Definition demo_env : Env := mkEnv None None.
Definition row_put (k v : byte) : batch_row := ("t"%string, [k], Some [v]).
Definition row_del (k : byte) : batch_row := ("t"%string, [k], None).

Abbreviation demo_sys := (@sys list_skipmap demo_bloom LocalFs).

Definition demo0 : demo_sys := Sys (fresh_engine (mkLocalFs ∅ []) true 1) Idle [].
Definition demo1 : demo_sys :=
  run_snapshot (run_write demo_env [row_put Byte.x61 Byte.x31] demo0).
Definition demo2 : demo_sys :=
  run_begin_flush demo_env (run_write demo_env [row_del Byte.x61; row_put Byte.x62 Byte.x32] demo1).
Definition demo3 : demo_sys :=
  run_commit_flush demo_env
    (run_write demo_env [row_put Byte.x63 Byte.x33] (run_finish_flush demo2)).

Lemma demo1_reachable : reachable demo_env demo1.
Proof.
  exists demo0. split; [by exists (mkLocalFs ∅ []), true, 1|].
  etrans; [apply run_write_steps | apply run_snapshot_steps].
  - split; [vm_compute; reflexivity | by repeat constructor; simpl; auto].
  - vm_compute; reflexivity.
Qed.

Lemma demo1_to_demo3 : rtc (step demo_env) demo1 demo3.
Proof.
  etrans; [apply (run_write_steps demo_env [row_del Byte.x61; row_put Byte.x62 Byte.x32])|].
  { split; [vm_compute; reflexivity|]. repeat constructor; simpl; intuition discriminate. }
  { vm_compute; reflexivity. }
  etrans; [apply run_begin_flush_steps; vm_compute; reflexivity|].
  etrans; [apply run_finish_flush_steps|].
  { intros pf Hpf. vm_compute in Hpf. injection Hpf as <-.
    split; [done | | done | done].
    repeat (apply Forall_cons; split); try apply Forall_nil_2; split_and!; done. }
  etrans; [apply (run_write_steps demo_env [row_put Byte.x63 Byte.x33])|].
  { split; [vm_compute; reflexivity|]. repeat constructor; simpl; intuition discriminate. }
  { vm_compute; reflexivity. }
  apply run_commit_flush_steps. intros pf sst Hp. vm_compute in Hp. injection Hp as <- <-.
  eexists. vm_compute. reflexivity.
Qed.

Lemma demo3_reachable : reachable demo_env demo3.
Proof.
  destruct demo1_reachable as (y0 & Hi & Hst). exists y0. split; [done|].
  etrans; [done | apply demo1_to_demo3].
Qed.

Lemma demo3_idle : demo3 = Sys (y_engine demo3) Idle (y_log demo3).
Proof. vm_compute. reflexivity. Qed.

Lemma lsm_refines_log_witness :
  read_at [Byte.x61] 3 (y_engine demo3) = Ok None
  /\ read_at [Byte.x62] 3 (y_engine demo3) = Ok (Some [Byte.x32])
  /\ read_at [Byte.x61] 1 (y_engine demo3) = Ok (Some [Byte.x31])
  /\ length (v_sstables (e_view (y_engine demo3))) = 1%nat.
Proof.
  destruct (lsm_refines_log demo_env demo3 3 demo3_reachable) as [H _]; [left; by vm_compute|].
  destruct (lsm_refines_log demo_env demo3 1 demo3_reachable) as [H1 _].
  { right. exists 1, 1. split; vm_compute; [by left | done]. }
  split_and!; [rewrite H | rewrite H | rewrite H1 |]; vm_compute; reflexivity.
Defined.

Lemma lsm_snapshot_is_stable_witness :
  scan_at 1 (y_engine demo3) = scan_at 1 (y_engine demo1)
  /\ scan_at 1 (y_engine demo1) = Ok [([Byte.x61], [Byte.x31])].
Proof.
  split; [|by vm_compute].
  apply (lsm_snapshot_is_stable demo_env demo1 demo3 1 demo1_reachable demo1_to_demo3).
  - by vm_compute.
  - left. by vm_compute.
  - right. exists 1, 1. split; vm_compute; [by left | done].
Defined.

Lemma lsm_batch_is_atomic_witness :
  let e' := fst (write_batch demo_env [row_del Byte.x62; row_put Byte.x64 Byte.x34] (y_engine demo3)) in
  read_at [Byte.x62] 4 e' = Ok None /\ read_at [Byte.x64] 4 e' = Ok (Some [Byte.x34])
  /\ read_at [Byte.x62] 4 (y_engine demo3) = Ok (Some [Byte.x32]).
Proof.
  set (rows := [row_del Byte.x62; row_put Byte.x64 Byte.x34]). intros e'.
  assert (batch_applied rows (y_engine demo3) e') as (_ & Hrow & _).
  { refine (lsm_batch_is_atomic demo_env rows (y_engine demo3) e'
              (snd (write_batch demo_env rows (y_engine demo3))) Idle (y_log demo3) _ _ _ _).
    - rewrite <- demo3_idle. exact demo3_reachable.
    - split; [vm_compute; reflexivity|]. repeat constructor; simpl; intuition discriminate.
    - by left.
    - apply surjective_pairing. }
  split_and!; [| |by vm_compute].
  - apply (Hrow (row_del Byte.x62)); [by left | by vm_compute].
  - apply (Hrow (row_put Byte.x64 Byte.x34)); [right; by left | by vm_compute].
Defined.

End Demo.
