(* ===== verification/LsmRaces.v ===== *)
(** Interleavings and failures of the LSM engine's maintenance ([storage/lsm.rs])
    outside the discipline of [LsmRefine.step], run on concrete inputs.

    The engine's locks are released between [begin_flush], [finish_flush] and
    [commit_flush] (and the parts of a compaction), and nothing keeps a second
    task from starting in between or from starting after a failed one. *)

From Stdlib Require Import Strings.Byte Strings.String Sorted ZArith Lia.
From stdpp Require Import base list gmap strings sorting relations.
From S2P Require Import Prelude OrdMap InternalKey Versions Utf8 Wal SSTable ObjectStore Manifest Lsm LsmRead LsmCompact LsmRefine.

Open Scope Z_scope.

Section Races.

#[local] Existing Instance demo_sha.

Abbreviation engine := (@LsmEngine list_skipmap demo_bloom LocalFs).

(** Run an operation and keep the engine; run one that begins a task and keep both. *)
Definition put (k v : byte) (e : engine) : engine := fst (lsm_write demo_env "t" [k] [v] e).

Definition flushed (e : engine) : engine := fst (flush demo_env e).

Definition new_engine : engine := fresh_engine (mkLocalFs ∅ []) true 1.

Definition began_flush (e : engine) : engine * PendingFlush :=
  match begin_flush demo_env e with
  | (e, Ok (Some pf)) => (e, pf)
  | (e, _) => (e, mkPendingFlush [] 0 EmptyString)
  end.

Definition began_compact (e : engine) : engine * PendingCompaction :=
  match begin_compact demo_env e with
  | (e, Ok (Some pc)) => (e, pc)
  | (e, _) => (e, mkPendingCompaction [] 0 0 EmptyString)
  end.

(** The engine a restart opens on what the crash left: the WAL file and the
    store, of whose coming system calls [faults] says which fail. *)
Definition restarted (faults : list bool) (e : engine) : Result engine :=
  default (Err "aborted"%string)
    (snd (lsm_open demo_env (read_all_bytes (ws_wal (e_write e)))
            (mkLocalFs (fs_files (e_store e)) faults) true 2)).

(** What a restart reads. *)
Definition read_after_restart (k : byte) (e : engine) : Result (option bytes) :=
  let? e := restarted [] e in lsm_read [k] e.

Abbreviation a := Byte.x61.
Abbreviation b := Byte.x62.

(** Two tables, a compaction of them begun, then a newer value flushed. *)
Definition stale_before : engine * PendingCompaction :=
  let e := flushed (put b Byte.x31 (flushed (put a Byte.x31 new_engine))) in
  let '(e, pc) := began_compact e in
  (flushed (put a Byte.x32 e), pc).

Definition stale_after : engine := fst (drive_compact (snd stale_before) (fst stale_before)).

(** A flush that commits while a compaction is in flight: [a] is 2 before
    [commit_compact], and reads as the older 1 after it, since the merged table
    is placed behind, and so searched before, the newer table. *)
Theorem lsm_compaction_race_reads_stale_value :
  lsm_read [a] (fst stale_before) = Ok (Some [Byte.x32])
  /\ snd (drive_compact (snd stale_before) (fst stale_before)) = Ok tt
  /\ lsm_read [a] stale_after = Ok (Some [Byte.x31]).
Proof. vm_compute. done. Qed.

(** A write between the begin and the commit of a flush. *)
Definition raced_flush : engine :=
  let '(e, pf) := began_flush (put a Byte.x31 new_engine) in
  let e := put b Byte.x32 e in
  fst (drive_flush demo_env pf e).

(** A write acknowledged between [begin_flush] and [commit_flush] is in
    the memtable and in the WAL; [commit_flush] truncates the WAL, and a crash
    then loses the write although it was read back before. (The general
    statement is [lsm_flush_loses_writes_since_its_begin] of [LsmRecover].) *)
Theorem lsm_flush_race_loses_acknowledged_write :
  lsm_read [b] raced_flush = Ok (Some [Byte.x32])
  /\ read_after_restart a raced_flush = Ok (Some [Byte.x31])
  /\ read_after_restart b raced_flush = Ok None.
Proof. vm_compute. done. Qed.

(** A flush whose object store write fails, and a later one that succeeds. *)
Definition failed_flush : engine :=
  let e := put a Byte.x31 new_engine in
  fst (flush demo_env (set_store (mkLocalFs ∅ [true]) e)).

Definition after_failed_flush : engine := flushed (put b Byte.x32 failed_flush).

(** A flush whose object store write fails leaves its entries in the
    frozen memtable; the next flush replaces that memtable, so committed data
    disappears from reads, and truncates the WAL, so a restart does not bring
    it back. *)
Theorem lsm_failed_flush_then_flush_loses_data :
  lsm_read [a] failed_flush = Ok (Some [Byte.x31])
  /\ lsm_read [a] after_failed_flush = Ok None
  /\ read_after_restart a after_failed_flush = Ok None
  /\ read_after_restart b after_failed_flush = Ok (Some [Byte.x32]).
Proof. vm_compute. done. Qed.

(** A restart during which reading the one listed table fails, then a write
    and a flush. *)
Definition after_bad_restart : Result engine :=
  let? e := restarted [false; true] (flushed (put a Byte.x31 new_engine)) in
  Ok (flushed (put b Byte.x32 e)).

(** [open] skips a listed table that it fails to read, once, and the next
    flush writes a manifest without it: the data is lost for good although its
    object is intact. *)
Theorem lsm_open_read_error_loses_table :
  read_after_restart a (flushed (put a Byte.x31 new_engine)) = Ok (Some [Byte.x31])
  /\ (let? e := after_bad_restart in lsm_read [a] e) = Ok None
  /\ (let? e := after_bad_restart in read_after_restart a e) = Ok None
  /\ (let? e := after_bad_restart in read_after_restart b e) = Ok (Some [Byte.x32]).
Proof. vm_compute. done. Qed.

End Races.

(** When the lease is gone by the time a batch fills the memtable, the
    call reports an error although the batch is committed: every row is visible
    to every later snapshot. *)
Theorem lsm_fenced_write_is_applied {sk : SkipMap} {sk_laws : SkipMapLaws} {bl : Bloom}
    {bl_laws : BloomLaws} {S : Type} {st : ObjectStore S} {bc : Bincode Manifest}
    (env : Env) (rows : list batch_row) (e : @LsmEngine sk bl S) (log : list entry) :
  inv (Sys e Idle log) -> batch_fits rows e -> appends rows e = true ->
  e_lease_valid e = false -> mt_is_full (memtable_after rows e) = true ->
  exists e', write_batch env rows e
      = (e', Err "fenced off: this node no longer holds the write lease"%string)
    /\ forall row s, In row rows -> current_seq e < s ->
         read_at (row_key row) s e' = Ok (row_value row).
Proof.
  intros Hinv Hfit Ha Hl Hfull. destruct (write_batch env rows e) as [e' r] eqn:Hw.
  destruct (inv_batch_reads env rows e _ _ Idle log Hinv Hfit (or_introl eq_refl) Ha Hw) as (_ & H & _).
  exists e'. split; [|done]. f_equal.
  apply write_batch_cases in Hw as [(Hn & _)|[(_ & _ & r0 & Hb & ->)|(_ & Hroom & _)]];
    [congruence | | unfold has_room in Hroom; congruence].
  unfold begin_flush in Hb. change (e_lease_valid (written rows e)) with (e_lease_valid e) in Hb. rewrite Hl in Hb.
  by injection Hb as _ <-.
Qed.

(** An engine whose memtable is full at its first byte. *)
Definition tiny_engine : @LsmEngine list_skipmap demo_bloom LocalFs :=
  mkLsmEngine (mkWriteState (wal_open []) 1 1 None 0 1 [])
    (mkEngineView (mt_new 1) None []) (mkLocalFs ∅ []) false 1.

Lemma tiny_engine_inv : inv (Sys tiny_engine Idle []).
Proof. apply empty_inv. Qed.

Lemma lsm_fenced_write_is_applied_witness :
  exists e' err, @write_batch _ _ _ demo_env [row_put Byte.x61 Byte.x31] tiny_engine = (e', Err err)
    /\ read_at [Byte.x61] 1 e' = Ok (Some [Byte.x31]).
Proof.
  destruct (@lsm_fenced_write_is_applied list_skipmap _ demo_bloom _ _ (@local_fs_store demo_sha) _
    demo_env [row_put Byte.x61 Byte.x31] tiny_engine [] tiny_engine_inv) as (e' & Hw & Hr).
  - split; [vm_compute; reflexivity | by repeat constructor; simpl; auto].
  - vm_compute; reflexivity.
  - done.
  - vm_compute; reflexivity.
  - exists e'. eexists. split; [exact Hw|].
    apply (Hr (row_put Byte.x61 Byte.x31) 1); [by left | by vm_compute].
Defined.
