(* ===== verification/LsmRecover.v ===== *)
(** Crash recovery of the LSM engine: [LsmEngine::open] ([storage/lsm.rs])
    rebuilds, from the local WAL file and the object store, an engine that
    reads what the log of committed versions holds, but for what the crash lost.

    [sstep] is the system of [LsmRefine] with crashes at any point: between and
    during the parts of maintenance tasks, with writes during a flush, appends
    to the WAL and truncations of it that fail half-way, and failures of the
    store. What a crash takes from the log is exact, and small: [ghost] carries
    the commit number at which the last flush the manifest knows of froze the
    memtable ([g_flushed]) and the one at which the WAL was last truncated
    ([g_logged]); the versions in between, acknowledged while that flush was
    under way, are lost, and a batch whose append failed behind its last byte
    comes back ([survivors]). [dinv] couples the disk with the engine and every
    step keeps it. The one state in which a crash is not covered is a WAL that
    was written on behind bytes of a failed append ([Lost]), until a flush
    truncates it: there replay may deliver anything, or abort (see [Wal]). *)

From Stdlib Require Import Strings.Byte Strings.Ascii Strings.String Sorted ZArith Lia.
From stdpp Require Import base list gmap strings sorting relations.
From S2P Require Import Prelude OrdMap InternalKey Versions Utf8 Wal SSTable ObjectStore Manifest Lsm LsmRead LsmCompact LsmRefine.

Open Scope Z_scope.

(** ** Object keys are distinct *)

Lemma digit_inj (a b : Z) : 0 <= a < 16 -> 0 <= b < 16 -> digit a = digit b -> a = b.
Proof.
  intros Ha Hb H. unfold digit in H.
  apply (f_equal N_of_ascii) in H. rewrite !N_ascii_embedding in H;
    repeat case_match; lia.
Qed.

Lemma digits_inj (base : Z) (n : nat) (a b : Z) :
  2 <= base <= 16 -> digits base n a = digits base n b -> a mod base ^ Z.of_nat n = b mod base ^ Z.of_nat n.
Proof.
  intros Hb. induction n as [|n IH]; simpl digits; intros H.
  - change (base ^ Z.of_nat 0) with 1. by rewrite !Z.mod_1_r.
  - injection H as Hd Hr. apply IH in Hr.
    apply digit_inj in Hd; [|pose proof (Z.mod_pos_bound (a / base ^ Z.of_nat n) base); lia
                            |pose proof (Z.mod_pos_bound (b / base ^ Z.of_nat n) base); lia].
    rewrite Nat2Z.inj_succ, Z.pow_succ_r, (Z.mul_comm base) by lia.
    assert (0 < base ^ Z.of_nat n) by (apply Z.pow_pos_nonneg; lia).
    rewrite !Z.rem_mul_r by lia. by rewrite Hr, Hd.
Qed.

Lemma digits_length (base : Z) (n : nat) (z : Z) : String.length (digits base n z) = n.
Proof. induction n; simpl; auto. Qed.

Lemma string_length_app (s t : string) :
  String.length (s ++ t)%string = (String.length s + String.length t)%nat.
Proof. induction s; simpl; auto. Qed.

Lemma string_app_assoc (s t u : string) : (s ++ (t ++ u) = (s ++ t) ++ u)%string.
Proof. induction s as [|c s IH]; [done|]. exact (f_equal (String c) IH). Qed.

Lemma string_suffix_inj (s s' t t' : string) :
  String.length t = String.length t' -> (s ++ t = s' ++ t')%string -> t = t'.
Proof.
  intros Hl H. assert (String.length s = String.length s') as Hs.
  { apply (f_equal String.length) in H. rewrite !string_length_app in H. lia. }
  revert s' Hs H. induction s as [|c s IH]; intros [|c' s'] Hs H; simpl in *; try done.
  injection H as _ H. apply (IH s'); [lia | done].
Qed.

Lemma sstable_key_inj (env : Env) (a b : Z) :
  0 <= a < 2 ^ 64 -> 0 <= b < 2 ^ 64 -> sstable_key env a = sstable_key env b -> a = b.
Proof.
  intros Ha Hb H. unfold sstable_key in H. rewrite !string_app_assoc in H.
  apply string_suffix_inj in H; [|by rewrite !digits_length].
  apply digits_inj in H; [|lia]. rewrite !Z.mod_small in H by lia. done.
Qed.

Lemma sstable_key_not_manifest (env : Env) (a : Z) : sstable_key env a <> MANIFEST_KEY.
Proof. done. Qed.

Lemma sstable_key_not_wal (env : Env) (a b : Z) : sstable_key env a <> wal_segment_key env b.
Proof. done. Qed.

(** ** What recovery loads *)

Section Recover.
  Context {sk : SkipMap} {sk_laws : SkipMapLaws} {bl : Bloom} {bl_laws : BloomLaws}.
  Context {S : Type} {st : ObjectStore S} {st_laws : StoreLaws S}.
  Context {bc : Bincode Manifest} {bc0 : Bincode ManifestV0} {bc_laws : BincodeLaws Manifest}.
  Context {al : Allocator} (env : Env).

(** Keys the engine uses are legal, and [up] states are those in which the
    store answers reads. *)
Hypothesis manifest_key_ok : os_key_ok MANIFEST_KEY.
Hypothesis sstable_key_ok : forall id, os_key_ok (sstable_key env id).
Hypothesis wal_key_ok : forall id, os_key_ok (wal_segment_key env id).
Context (up : S -> Prop).
Hypothesis up_get : forall k s, os_wf s -> up s -> exists s' o, os_get k s = (s', Ok o) /\ up s'.

Abbreviation engine := (@LsmEngine sk bl S).
Abbreviation next_seq e := (ws_next_commit_seq (e_write e)).

(** The store holds [t]'s object, and it decodes to [t]. *)
Definition table_at (objs : objects) (t : SSTable) : Prop :=
  sst_key t = sstable_key env (sst_id t) /\
  exists data et, objs !! sst_key t = Some (data, et) /\ decode (sst_key t) (sst_id t) data = Ok t.

(** The stored manifest lists [ids] and records [mx] as the last commit. *)
Definition listed (objs : objects) (ids : list Z) (mx : Z) : Prop :=
  match objs !! MANIFEST_KEY with
  | None => ids = [] /\ mx = 0
  | Some (data, _) => exists m, manifest_decode data = Some m /\ sstable_ids m = ids /\ max_commit_seq m = mx
  end.

Record store_ok (objs : objects) (ts : list SSTable) (mx : Z) : Prop := {
  so_listed : listed objs (map sst_id ts) mx;
  so_tables : Forall (table_at objs) ts;
  so_ids : StronglySorted Z.lt (map sst_id ts);
}.

Lemma load_sstables_all (ts : list SSTable) (s : S) :
  os_wf s -> up s -> Forall (table_at (os_objects s)) ts ->
  exists s', load_sstables env (map sst_id ts) s = (s', ts)
    /\ os_wf s' /\ os_objects s' = os_objects s.
Proof.
  intros Hwf Hup Hts. revert s Hwf Hup Hts.
  induction ts as [|t ts IH]; intros s Hwf Hup Hts; simpl; [by eexists|].
  apply Forall_cons in Hts as [(Hk & data & et & Hobj & Hdec) Hts']. rewrite <- Hk.
  unfold open_from_store. destruct (up_get (sst_key t) s Hwf Hup) as (s1 & o & Hget & Hup1).
  rewrite Hget. apply os_get_law in Hget as (Hwf1 & Hobj1 & Ho); [|done|by rewrite Hk].
  specialize (Ho _ eq_refl). rewrite Hobj in Ho. simpl in Ho. subst o. simpl. rewrite Hdec.
  destruct (IH s1 Hwf1 Hup1) as (s2 & -> & Hwf2 & Hobj2); [by rewrite Hobj1|].
  exists s2. split_and!; [done | done | congruence].
Qed.

Lemma manifest_load_up (s : S) (ids : list Z) (mx : Z) :
  os_wf s -> up s -> listed (os_objects s) ids mx ->
  exists s', os_wf s' /\ up s' /\ os_objects s' = os_objects s
  /\ ((manifest_load s = (s', Ok None) /\ ids = [] /\ mx = 0)
      \/ exists m et, manifest_load s = (s', Ok (Some (m, et)))
           /\ sstable_ids m = ids /\ max_commit_seq m = mx).
Proof.
  intros Hwf Hup Hl. unfold manifest_load.
  destruct (up_get MANIFEST_KEY s Hwf Hup) as (s1 & o & Hget & Hup1). rewrite Hget.
  apply os_get_law in Hget as (Hwf1 & Hobj1 & Ho); [|done|done].
  specialize (Ho _ eq_refl). unfold listed in Hl. exists s1. split_and!; [done..|].
  destruct (os_objects s !! MANIFEST_KEY) as [[data et]|] eqn:E; simpl in Ho; subst o; simpl.
  - destruct Hl as (m & -> & Hids & Hmx). right. by exists m, et.
  - by left.
Qed.

Lemma sort_by_sorted_id (ts : list SSTable) :
  StronglySorted Z.lt (map sst_id ts) -> sort_by (fun a b => sst_id a <=? sst_id b) ts = ts.
Proof.
  induction ts as [|t ts IH]; simpl; intros Hs; [done|].
  apply StronglySorted_inv in Hs as [Hs Hall]. rewrite IH by done.
  destruct ts as [|t' ts]; simpl; [done|]. inversion_clear Hall as [|? ? Hlt _].
  by rewrite (proj2 (Z.leb_le _ _)) by lia.
Qed.

(** The view recovery builds from the WAL's batches and the listed tables. *)
Definition recovered_memtable (bs : list batch) : MemTable :=
  replay_into (log_records bs) (mt_new MEMTABLE_MAX_SIZE).

Definition recovered_view (bs : list batch) (ts : list SSTable) : EngineView :=
  mkEngineView (recovered_memtable bs) None ts.

Lemma lsm_open_disk (file : bytes) (s : S) (valid : bool) (token : Z) (bs : list batch) ts mx wmx :
  os_wf s -> up s -> store_ok (os_objects s) ts mx ->
  replay_bytes file = Some (Ok (wmx, log_records bs)) ->
  exists s' e', lsm_open env file s valid token = (s', Some (Ok e'))
    /\ e_view e' = recovered_view bs ts
    /\ ws_next_commit_seq (e_write e')
       = u64_add (Z.max (Z.max wmx (fold_left (fun m t => Z.max m (sst_max_seq t)) ts 0)) mx) 1
    /\ ws_open_snapshots (e_write e') = []
    /\ read_all_bytes (ws_wal (e_write e')) = file /\ wal_wf (ws_wal (e_write e'))
    /\ ws_sstable_id (e_write e') = match max_of (map sst_id ts) with Some m => u64_add m 1 | None => 1 end
    /\ e_store e' = s' /\ os_wf s' /\ os_objects s' = os_objects s.
Proof.
  intros Hwf Hup [Hl Ht Hids] Hrep. unfold lsm_open, replay. simpl. rewrite Hrep.
  destruct (manifest_load_up s _ _ Hwf Hup Hl) as (s1 & Hwf1 & Hup1 & Hobj1 & Hm).
  destruct (load_sstables_all ts s1 Hwf1 Hup1) as (s2 & Hload & Hwf2 & Hobj2); [by rewrite Hobj1|].
  destruct Hm as [(-> & Hn & Hmx)|(m & et & -> & Hm & Hmx)].
  - destruct ts; [|done]. simpl. do 2 eexists. split; [done|]. split_and!; try done; simpl. by rewrite Hmx.
  - rewrite Hm, Hload. simpl. rewrite sort_by_sorted_id by done.
    do 2 eexists. split; [done|]. split_and!; try done; simpl; [by rewrite Hmx | congruence].
Qed.

Abbreviation sid e := (ws_sstable_id (e_write e)).
Abbreviation objs e := (os_objects (e_store e)).

(** ** Stores and tables *)

Lemma fold_max_bounded {A : Type} (f : A -> Z) (l : list A) (m b : Z) :
  m <= b -> (forall x, In x l -> f x <= b) -> m <= fold_left (fun m x => Z.max m (f x)) l m <= b.
Proof.
  revert m. induction l as [|x l IH]; intros m Hm Hl; simpl; [lia|].
  destruct (IH (Z.max m (f x))); [|by intros; apply Hl; right|lia].
  specialize (Hl x (or_introl eq_refl)). lia.
Qed.

Lemma rep_max_seq_le (t : SSTable) (es : list entry) (b : Z) :
  sst_rep t es -> 0 <= b -> (forall x, In x es -> eseq x <= b) -> sst_max_seq t <= b.
Proof.
  intros Hrep Hb Hes. rewrite (rep_max_seq _ _ Hrep).
  assert (forall zs m, m <= b -> (forall z, In z zs -> z <= b) -> fold_left Z.max zs m <= b) as H.
  { induction zs as [|z zs IH]; intros m Hm Hz; simpl; [done|]. apply IH; [|by intros; apply Hz; right].
    specialize (Hz z (or_introl eq_refl)). lia. }
  apply H; [done|]. intros z (x & <- & Hx)%in_map_iff. by apply Hes.
Qed.

Lemma max_of_bound (ts : list SSTable) (b : Z) :
  Forall (fun t => 0 <= sst_id t < b) ts -> 1 <= b <= U64_MAX ->
  let i := match max_of (map sst_id ts) with Some m => u64_add m 1 | None => 1 end in
  1 <= i <= b /\ Forall (fun t => 0 <= sst_id t < i) ts.
Proof.
  destruct ts as [|t ts]; simpl; [intros _ ?; split; [lia | constructor]|]. intros Hts Hb.
  apply Forall_cons in Hts as [Ht Hts].
  destruct (fold_max_ge (map sst_id ts) (sst_id t)) as [H1 H2].
  assert (fold_left Z.max (map sst_id ts) (sst_id t) < b) as H3.
  { clear H1 H2. revert t Ht. induction ts as [|t' ts IH]; intros t Ht; simpl; [lia|].
    apply Forall_cons in Hts as [Ht' Hts]. destruct (Z.max_spec (sst_id t) (sst_id t')) as [[_ ->]|[_ ->]]; auto. }
  rewrite u64_add_small by (unfold U64_MAX in Hb; lia). split; [lia|].
  apply Forall_cons. split; [lia|]. rewrite Forall_forall in Hts. rewrite Forall_forall in H2. apply Forall_forall.
  intros x Hx. specialize (Hts x Hx). specialize (H2 (sst_id x)).
  ospecialize (H2 _); [apply list_elem_of_In, in_map; by apply list_elem_of_In|]. lia.
Qed.

Lemma table_at_same (o o' : objects) (t : SSTable) :
  o' !! sst_key t = o !! sst_key t -> table_at o t -> table_at o' t.
Proof. intros H (Hk & d & et & Ho & Hd). split; [done|]. exists d, et. by rewrite H. Qed.

Lemma tables_at_same (o o' : objects) (ts : list SSTable) (b : Z) :
  (forall id, 0 <= id < b -> o' !! sstable_key env id = o !! sstable_key env id) ->
  Forall (fun t => 0 <= sst_id t < b) ts -> Forall (table_at o) ts -> Forall (table_at o') ts.
Proof.
  intros H. rewrite !Forall_forall. intros Hb Ht t Hin.
  pose proof (Ht t Hin) as Hat. apply (table_at_same o); [|done].
  destruct Hat as [-> _]. auto.
Qed.

Lemma put_agrees (k : string) (d : bytes) (s s' : S) r :
  os_wf s -> os_key_ok k -> os_put k d s = (s', r) ->
  os_wf s' /\ forall k', k' <> k -> os_objects s' !! k' = os_objects s !! k'.
Proof.
  intros Hwf Hk Hp. apply os_put_law in Hp as [Hwf' Hr]; [|done|done]. split; [done|].
  intros k' Hne. destruct r as [m|err].
  - rewrite Hr. by rewrite lookup_insert_ne.
  - destruct Hr as [->|(et & ->)]; [done|]. by rewrite lookup_insert_ne.
Qed.

Lemma decode_id_key (key : string) (id : Z) (data : bytes) (t : SSTable) :
  decode key id data = Ok t -> sst_id t = id /\ sst_key t = key.
Proof.
  unfold decode. case_match; [done|].
  repeat (match goal with |- context [match ?r with Ok _ => _ | Err _ => _ end] => destruct r; [|done] end).
  by intros [= <-].
Qed.

Lemma create_in_store_at (id : Z) (es : list entry) (s s' : S) r :
  os_wf s -> create_in_store (sstable_key env id) id es s = (s', r) ->
  os_wf s'
  /\ (forall k', k' <> sstable_key env id -> os_objects s' !! k' = os_objects s !! k')
  /\ (forall sst, r = Ok sst -> table_at (os_objects s') sst /\ sst_id sst = id).
Proof.
  intros Hwf. unfold create_in_store.
  destruct (os_put _ (build_bytes es) s) as [s1 [m|err]] eqn:E;
    pose proof (put_agrees _ _ _ _ _ Hwf (sstable_key_ok id) E) as [Hwf1 Hag]; intros [= <- <-];
    split_and!; try done.
  intros sst Hd. pose proof (decode_id_key _ _ _ _ Hd) as [Hi Hk]. split; [|done].
  apply os_put_law in E as [_ ->]; [|done|done].
  split; [by rewrite Hi|]. exists (build_bytes es), (etag m).
  rewrite Hk, Hi. by rewrite lookup_insert_eq.
Qed.

Lemma cas_agrees (m : Manifest) (exp : option string) (s s' : S) r :
  os_wf s -> manifest_save_cas m exp s = (s', r) ->
  os_wf s'
  /\ (forall k', k' <> MANIFEST_KEY -> os_objects s' !! k' = os_objects s !! k')
  /\ ((exists err, r = Err err) /\ os_objects s' !! MANIFEST_KEY = os_objects s !! MANIFEST_KEY
      \/ exists et, os_objects s' !! MANIFEST_KEY = Some (bc_serialize m, et)).
Proof.
  intros Hwf Hs. apply manifest_save_cas_spec in Hs as [Hwf' Hr]; [|done|done].
  split; [done|]. destruct r as [et|[cur|err]].
  - destruct Hr as [_ ->]. split; [by intros; rewrite lookup_insert_ne|].
    right. exists et. by rewrite lookup_insert_eq.
  - destruct Hr as [-> _]. split; [done|]. left. by eauto.
  - destruct Hr as [->|[_ [->|(et & ->)]]]; [split; [done | left; by eauto]..|].
    split; [by intros; rewrite lookup_insert_ne|]. right. exists et. by rewrite lookup_insert_eq.
Qed.

Lemma listed_new (o : objects) (m : Manifest) (et : string) :
  bc_in_range m -> o !! MANIFEST_KEY = Some (bc_serialize m, et) ->
  listed o (sstable_ids m) (max_commit_seq m).
Proof.
  intros Hr Ho. unfold listed. rewrite Ho. exists m. by rewrite manifest_decode_serialize.
Qed.

Lemma recovered_memtable_snoc (bs : list batch) (c : Z) (rows : list batch_row) :
  recovered_memtable (bs ++ [(c, map wal_entry_of rows)])
  = fold_left (insert_row c) rows (recovered_memtable bs).
Proof.
  unfold recovered_memtable, replay_into, log_records.
  rewrite map_app, concat_app, fold_left_app. simpl. rewrite app_nil_r, map_map.
  generalize (fold_left (fun m r => mt_insert (w_key r) (w_seq r) (w_value r) (w_type r) m)
                (concat (map (fun b : batch => map (record_of b.1) b.2) bs)) (mt_new MEMTABLE_MAX_SIZE)).
  induction rows as [|[[t k] [v|]] rows IH]; intros m; simpl; auto.
Qed.

Lemma insert_rows_ext (c : Z) (rows : list batch_row) (m m' : MemTable) :
  mt_to_entries m = mt_to_entries m' ->
  mt_to_entries (fold_left (insert_row c) rows m) = mt_to_entries (fold_left (insert_row c) rows m').
Proof.
  revert m m'. induction rows as [|r rows IH]; intros m m' H; simpl; [done|].
  apply IH. by rewrite !insert_row_entries, H.
Qed.

Lemma other_key (a b : Z) : 0 <= a < b -> b <= U64_MAX -> sstable_key env a <> sstable_key env b.
Proof.
  intros Ha Hb H. unfold U64_MAX in *. apply sstable_key_inj in H; lia.
Qed.

Lemma sorted_snoc (zs : list Z) (z : Z) :
  StronglySorted Z.lt zs -> (forall x, In x zs -> x < z) -> StronglySorted Z.lt (zs ++ [z]).
Proof.
  induction zs as [|y zs IH]; simpl; intros Hs Hlt; [repeat constructor|].
  apply StronglySorted_inv in Hs as [Hs Hall]. constructor; [by apply IH; auto|].
  apply Forall_app. split; [done|]. repeat constructor. apply Hlt. by left.
Qed.

Lemma set_store_id (e : engine) : set_store (e_store e) e = e.
Proof. by destruct e. Qed.

Lemma ship_wal_store (e e1 : engine) r :
  os_wf (e_store e) -> ship_wal env e = (e1, r) ->
  exists s1, e1 = set_store s1 e /\ os_wf s1
    /\ forall k', k' <> wal_segment_key env (ws_wal_seg_id (e_write e)) -> os_objects s1 !! k' = objs e !! k'.
Proof.
  intros Hwf. unfold ship_wal. case_match.
  - intros [= <- _]. exists (e_store e). by rewrite set_store_id.
  - destruct (os_put _ _ (e_store e)) as [s1 o] eqn:E.
    destruct (put_agrees _ _ _ _ _ Hwf (wal_key_ok _) E) as [Hwf1 Hag].
    destruct o; intros [= <- _]; eauto.
Qed.

Lemma delete_all_agrees (ks : list string) (s : S) :
  os_wf s -> Forall os_key_ok ks ->
  os_wf (delete_all ks s) /\ forall k', ~ In k' ks -> os_objects (delete_all ks s) !! k' = os_objects s !! k'.
Proof.
  revert s. induction ks as [|k ks IH]; intros s Hwf Hks; simpl; [done|].
  apply Forall_cons in Hks as [Hk Hks]. destruct (os_delete k s) as [s1 r] eqn:E.
  apply os_delete_law in E as [Hwf1 Hr]; [|done|done]. destruct (IH s1 Hwf1 Hks) as [Hwf2 Hag].
  split; [done|]. intros k' Hn. rewrite Hag by tauto.
  assert (forall o : objects, delete k o !! k' = o !! k') as Hdel
    by (intros; apply lookup_delete_ne; intros ->; tauto).
  destruct r; [by rewrite Hr | destruct Hr as [->| ->]; [done | apply Hdel]].
Qed.

(** ** What the WAL file holds *)

Definition encoded (c : Z) (rows : list batch_row) : bytes := encode_batch c (map wal_entry_of rows).

(** What is behind the last complete batch of the WAL file: nothing; [n] bytes
    of batch [c], whose append failed, with the backend's offset in front of them
    ([rewound]) or, after a restart, behind them; an empty file whose backend
    still has an offset from before it was cut; or unknown bytes, since the log
    was continued behind the former two. *)
Inductive wal_tail :=
  | Clean
  | Torn (c : Z) (rows : list batch_row) (n : nat) (rewound : bool)
  | Hole
  | Lost.

(** An append that succeeds: it covers a torn tail that is no longer. *)
Definition tail_written (len : nat) (t : wal_tail) : wal_tail :=
  match t with
  | Clean => Clean
  | Torn _ _ n true => if (n <=? len)%nat then Clean else Lost
  | _ => Lost
  end.

(** An append of batch [c] that fails after [n] bytes. *)
Definition tail_failed (c : Z) (rows : list batch_row) (n : nat) (t : wal_tail) : wal_tail :=
  if (n =? 0)%nat then t
  else match t with
       | Clean => Torn c rows n true
       | Torn _ _ m true => if (m <=? n)%nat then Torn c rows n true else Lost
       | _ => Lost
       end.

(** The bytes that the next append, should it fail, leaves behind. *)
Definition fault_bytes (rows : list batch_row) (e : engine) : nat :=
  match io_faults (wal_io (ws_wal (e_write e))) with
  | Some n :: _ => Nat.min n (length (encoded (next_seq e) rows))
  | _ => 0
  end.

Definition tail_after (rows : list batch_row) (e : engine) (t : wal_tail) : wal_tail :=
  if appends rows e then tail_written (length (encoded (next_seq e) rows)) t
  else tail_failed (next_seq e) rows (fault_bytes rows e) t.

(** The file of complete batches [bs] and a tail, and where the backend appends. *)
Definition file_is (file : bytes) (bs : list batch) (t : wal_tail) : Prop :=
  match t with
  | Clean | Hole => file = encode_log bs
  | Torn c rows n _ => file = encode_log bs ++ take n (encoded c rows)
  | Lost => False
  end.

Definition offset_is (offset : Z) (bs : list batch) (t : wal_tail) : Prop :=
  match t with
  | Clean | Torn _ _ _ true => offset = zlen (encode_log bs)
  | _ => True
  end.

(** A torn batch: it fits the format, some of its bytes are there, and its
    number is not issued again once its header is. While the engine that failed
    to append it runs, the batch is newer than everything in the log, and its
    last byte may be there too. *)
Definition torn_ok (log : list entry) (logged next : Z) (t : wal_tail) : Prop :=
  match t with
  | Torn c rows n rewound =>
      batch_ok (c, map wal_entry_of rows) /\ List.NoDup (map row_key rows)
      /\ (0 < n <= length (encoded c rows))%nat /\ ((13 <= n)%nat -> c < next)
      /\ if rewound then (forall x, In x log -> eseq x < c) /\ logged <= c /\ 0 < c
         else (n < length (encoded c rows))%nat
  | _ => True
  end.

Definition wal_entries (bs : list batch) : list entry := mt_to_entries (recovered_memtable bs).

(** The batches of the WAL are the versions of the log from number [logged] on. *)
Record wal_holds (log : list entry) (logged next : Z) (bs : list batch) : Prop := {
  wh_batches : Forall batch_ok bs;
  wh_entries : forall x, In x (wal_entries bs) <-> In x log /\ logged <= eseq x;
  wh_max : log_max_seq bs 0 < next;
}.

Definition wal_ok (w : Wal) (log : list entry) (logged next : Z) (t : wal_tail) : Prop :=
  t <> Lost -> exists bs, file_is (read_all_bytes w) bs t /\ offset_is (io_offset (wal_io w)) bs t
    /\ torn_ok log logged next t /\ wal_holds log logged next bs.

(** ** Replayed batches *)

Lemma replay_into_ok (rs : list WalRecord) (m : MemTable) : mt_ok m -> mt_ok (replay_into rs m).
Proof.
  unfold replay_into. revert m. induction rs as [|r rs IH]; intros m Hm; [done|]. simpl. apply IH.
  unfold mt_ok. rewrite mt_insert_entries. auto.
Qed.

Lemma replay_into_from (rs : list WalRecord) (m : MemTable) (x : entry) :
  mt_ok m -> In x (mt_to_entries (replay_into rs m)) ->
  In x (mt_to_entries m) \/ exists r, In r rs /\ eseq x = w_seq r.
Proof.
  unfold replay_into. revert m. induction rs as [|r rs IH]; intros m Hm; [by left|]. simpl. intros Hx.
  apply IH in Hx as [Hx|(r' & Hr & Hs)]; [|right; eauto | by unfold mt_ok; rewrite mt_insert_entries; auto].
  rewrite mt_insert_entries, om_insert_In in Hx by done. destruct Hx as [->|[_ Hx]]; [|by left].
  right. exists r. by split; [left|].
Qed.

Lemma log_max_seq_ge (bs : list batch) (m : Z) :
  m <= log_max_seq bs m /\ forall b, In b bs -> fst b <= log_max_seq bs m.
Proof.
  unfold log_max_seq. revert m. induction bs as [|b bs IH]; intros m; simpl; [by split|].
  destruct (IH (Z.max m (fst b))) as [H1 H2]. split; [lia|]. intros b' [<-|Hb]; [lia | by apply H2].
Qed.

Lemma wal_entries_max (bs : list batch) (x : entry) : In x (wal_entries bs) -> eseq x <= log_max_seq bs 0.
Proof.
  intros [Hx|(r & Hr & ->)]%replay_into_from; [by rewrite mt_new_entries in Hx | | apply mt_new_ok].
  unfold log_records in Hr. apply in_concat in Hr as (l & (b & <- & Hb)%in_map_iff & Hr).
  apply in_map_iff in Hr as ([[[t k] v] ty] & <- & _). simpl. by apply log_max_seq_ge.
Qed.

Lemma wal_entries_sorted (bs : list batch) : om_sorted (wal_entries bs).
Proof. apply replay_into_ok, mt_new_ok. Qed.

Lemma encode_log_snoc (bs : list batch) (b : batch) :
  encode_log (bs ++ [b]) = encode_log bs ++ encode_batch (fst b) (snd b).
Proof. unfold encode_log. by rewrite map_app, concat_app, <- (app_nil_r (encode_batch _ _)). Qed.

Lemma encoded_header (c : Z) (rows : list batch_row) : (13 <= length (encoded c rows))%nat.
Proof.
  unfold encoded, encode_batch. apply Nat2Z.inj_le.
  change (Z.of_nat (length ?l)) with (zlen l). autorewrite with zlen.
  pose proof (zlen_nonneg (encode_records (map wal_entry_of rows))). lia.
Qed.

(** One more batch, newer than the log, in the log and in the WAL. *)
Lemma wal_holds_snoc (log : list entry) (logged next c : Z) (rows : list batch_row) (bs : list batch) :
  batch_ok (c, map wal_entry_of rows) -> List.NoDup (map row_key rows) ->
  (forall x, In x log -> eseq x < c) -> logged <= c < next -> log_max_seq bs 0 < next ->
  wal_holds log logged next bs ->
  wal_holds (rows_at c rows ++ log) logged next (bs ++ [(c, map wal_entry_of rows)]).
Proof.
  intros Hb Hnd Hnew Hc Hm [Hbs Hin _]. split.
  - apply Forall_app. by split; [|constructor].
  - intros x. unfold wal_entries. rewrite recovered_memtable_snoc, insert_rows_In.
    + fold (wal_entries bs). rewrite !in_app_iff, Hin.
      assert (In x (rows_at c rows) -> logged <= eseq x) by (intros ->%rows_at_seq; lia). tauto.
    + apply wal_entries_sorted.
    + done.
    + intros y Hy Hs. apply Hin in Hy as [Hy%Hnew _]. lia.
  - unfold log_max_seq in *. rewrite fold_left_app. simpl. lia.
Qed.

Lemma wal_holds_next (log : list entry) (logged next next' : Z) (bs : list batch) :
  next <= next' -> wal_holds log logged next bs -> wal_holds log logged next' bs.
Proof. intros Hn [? ? ?]. split; [done | done | lia]. Qed.

Lemma torn_ok_next (log : list entry) (logged next next' : Z) (t : wal_tail) :
  next <= next' -> torn_ok log logged next t -> torn_ok log logged next' t.
Proof. intros Hn. destruct t as [|c rows n b| |]; [done | | done | done].
  intros (H1 & H2 & H3 & H4 & H5). do 3 (split; [done|]). split; [|done]. intros ?%H4. lia.
Qed.

Lemma wal_ok_next (w : Wal) (log : list entry) (logged next next' : Z) (t : wal_tail) :
  next <= next' -> wal_ok w log logged next t -> wal_ok w log logged next' t.
Proof.
  intros Hn H Ht. destruct (H Ht) as (bs & H1 & H2 & H3 & H4). exists bs.
  split_and!; [done | done | by eapply torn_ok_next | by eapply wal_holds_next].
Qed.

Lemma app_take_drop_over (buf t : bytes) (n : nat) : (n <= length buf)%nat -> drop (length buf) (take n t) = [].
Proof. intros H. apply drop_ge. rewrite length_take. lia. Qed.

(** An append that the WAL took. *)
Lemma wal_ok_written (w w' : Wal) (log : list entry) (logged c : Z) (rows : list batch_row) t rs :
  append_batch c (map wal_entry_of rows) w = (w', Ok rs) ->
  batch_ok (c, map wal_entry_of rows) -> List.NoDup (map row_key rows) ->
  (forall x, In x log -> eseq x < c) -> logged <= c ->
  wal_ok w log logged c t ->
  wal_ok w' (rows_at c rows ++ log) logged (c + 1) (tail_written (length (encoded c rows)) t).
Proof.
  intros Ha Hb Hnd Hnew Hlc Hok Ht'.
  apply append_batch_cases in Ha as [(_ & Hf & Ho)|(n & err & [=] & _)]. fold (encoded c rows) in Hf, Ho.
  assert (exists bs tl, read_all_bytes w = encode_log bs ++ tl /\ drop (length (encoded c rows)) tl = []
    /\ io_offset (wal_io w) = zlen (encode_log bs) /\ tail_written (length (encoded c rows)) t = Clean
    /\ wal_holds log logged c bs) as (bs & tl & Hfile & Hdrop & Hoff & Htl & Hwh).
  { destruct t as [|c' rows' n [|]| |]; unfold tail_written in Ht'; try done.
    - destruct (Hok ltac:(done)) as (bs & H1 & H2 & _ & H4). exists bs, []. rewrite app_nil_r, drop_nil. done.
    - destruct (Nat.leb_spec n (length (encoded c rows))) as [Hle|]; [|done].
      destruct (Hok ltac:(done)) as (bs & H1 & H2 & _ & H4). exists bs, (take n (encoded c' rows')).
      split_and!; [done | by apply app_take_drop_over | done | | done]. unfold tail_written. by rewrite (proj2 (Nat.leb_le _ _)). }
  rewrite Htl. exists (bs ++ [(c, map wal_entry_of rows)]). unfold read_all_bytes in *. simpl.
  assert (io_file (wal_io w') = encode_log (bs ++ [(c, map wal_entry_of rows)])) as Hf'.
  { rewrite Hf, Hoff, Hfile, write_at_over, Hdrop, app_nil_r, encode_log_snoc. done. }
  split_and!; [done | | done |].
  - rewrite Ho, Hoff, encode_log_snoc, zlen_app. done.
  - apply wal_holds_snoc; try done; [lia | pose proof (wh_max _ _ _ _ Hwh); lia |].
    eapply wal_holds_next; [|exact Hwh]. lia.
Qed.

(** An append that failed. *)
Lemma wal_ok_failed (w w' : Wal) (log : list entry) (logged c : Z) (rows : list batch_row) t err (n : nat) :
  append_batch c (map wal_entry_of rows) w = (w', Err err) ->
  n = match io_faults (wal_io w) with Some n :: _ => Nat.min n (length (encoded c rows)) | _ => 0%nat end ->
  batch_ok (c, map wal_entry_of rows) -> List.NoDup (map row_key rows) ->
  (forall x, In x log -> eseq x < c) -> logged <= c -> 0 < c ->
  wal_ok w log logged c t -> wal_ok w' log logged (c + 1) (tail_failed c rows n t).
Proof.
  intros Ha Hn Hb Hnd Hnew Hlc Hc0 Hok Ht'.
  assert (exists m, n = Nat.min m (length (encoded c rows)) /\ io_offset (wal_io w') = io_offset (wal_io w)
    /\ read_all_bytes w' = write_at (read_all_bytes w) (io_offset (wal_io w)) (take m (encoded c rows)))
    as (m & Hm & Ho & Hf).
  { unfold append_batch, io_append in Ha. fold (encoded c rows) in Ha.
    destruct (io_faults (wal_io w)) as [|[m|] fs]; [discriminate Ha | | discriminate Ha]. injection Ha as <- _. by exists m. }
  assert (take m (encoded c rows) = take n (encoded c rows)) as Htk.
  { subst n. destruct (decide (m <= length (encoded c rows))%nat); [f_equal; lia|]. rewrite !take_ge by lia. done. }
  assert (n <= length (encoded c rows))%nat as Hlen by lia. rewrite Htk in Hf. clear Htk Hm Hn Ha. unfold tail_failed in *. destruct (Nat.eqb_spec n 0) as [->|Hpos].
  { destruct (Hok Ht') as (bs & H1 & H2 & H3 & H4). exists bs. rewrite Ho, Hf. simpl.
    split_and!; [done | done | eapply torn_ok_next; [|done]; lia | eapply wal_holds_next; [|done]; lia]. }
  assert (exists bs tl, read_all_bytes w = encode_log bs ++ tl /\ drop (length (take n (encoded c rows))) tl = []
    /\ io_offset (wal_io w) = zlen (encode_log bs) /\ wal_holds log logged c bs) as (bs & tl & Hfile & Hdrop & Hoff & Hwh).
  { destruct t as [|c' rows' k [|]| |]; try done.
    - destruct (Hok ltac:(done)) as (bs & H1 & H2 & _ & H4). exists bs, []. by rewrite app_nil_r, drop_nil.
    - destruct (Nat.leb_spec k n) as [Hle|]; [|done].
      destruct (Hok ltac:(done)) as (bs & H1 & H2 & _ & H4). exists bs, (take k (encoded c' rows')).
      split_and!; [done | | done | done]. apply app_take_drop_over. rewrite length_take. lia. }
  assert (match t with Torn _ _ m true => if (m <=? n)%nat then Torn c rows n true else Lost | Clean => Torn c rows n true | _ => Lost end
    = Torn c rows n true) as ->.
  { destruct t as [|c' rows' k [|]| |]; try done. by destruct (Nat.leb k n). }
  exists bs. rewrite Ho, Hf, Hoff, Hfile, write_at_over, Hdrop, app_nil_r.
  split_and!; [done | done | | eapply wal_holds_next; [|done]; lia]. split_and!; try done; lia.
Qed.

(** A file that holds nothing. *)
Lemma wal_ok_empty (w : Wal) (log : list entry) (next : Z) :
  1 <= next -> (forall x, In x log -> eseq x < next) -> read_all_bytes w = [] ->
  wal_ok w log next next (if io_offset (wal_io w) =? 0 then Clean else Hole).
Proof.
  intros Hn Hlt Hf _. exists []. rewrite Hf.
  assert (wal_holds log next next []) as Hwh.
  { split; [constructor | | simpl; lia]. intros x. change (wal_entries []) with (mt_to_entries (mt_new MEMTABLE_MAX_SIZE)).
    rewrite mt_new_entries. split; [done|]. intros [Hx%Hlt ?]. lia. }
  destruct (Z.eqb_spec (io_offset (wal_io w)) 0); by split_and!.
Qed.

(** ** What the store holds *)

(** The manifest lists tables with ids below [bound] that read like the versions
    of the log below number [flushed]; it records a commit number from which on
    they do, and behind which neither of the two numbers is. *)
Definition tables_ok (o : objects) (log : list entry) (flushed logged next bound : Z) : Prop :=
  exists ts mx fl ess,
    store_ok o ts mx /\ Forall (fun t => 0 <= sst_id t < bound) ts /\ Forall2 sst_rep ts ess
    /\ (forall x, In x (concat (reverse ess)) -> In x log /\ eseq x < flushed)
    /\ reads_newest (concat (reverse ess))
    /\ (forall k s, fl <= s -> look (concat (reverse ess)) k s = look (below flushed log) k s)
    /\ fl <= mx /\ 0 <= mx < next /\ flushed <= mx + 1 /\ logged <= mx + 1.

Lemma tables_ok_weaken (o : objects) (log : list entry) (flushed logged next next' bound bound' : Z) :
  next <= next' -> bound <= bound' ->
  tables_ok o log flushed logged next bound -> tables_ok o log flushed logged next' bound'.
Proof.
  intros Hn Hb (ts & mx & fl & ess & H1 & H2 & H3 & H4 & H5 & H6 & H7 & H8 & H9 & H10).
  exists ts, mx, fl, ess. split_and!; try done; try lia. eapply Forall_impl; [exact H2|]. simpl. lia.
Qed.

(** Writes to other keys. *)
Lemma tables_ok_same (o o' : objects) (log : list entry) (flushed logged next bound : Z) :
  (forall id, 0 <= id < bound -> o' !! sstable_key env id = o !! sstable_key env id) ->
  o' !! MANIFEST_KEY = o !! MANIFEST_KEY ->
  tables_ok o log flushed logged next bound -> tables_ok o' log flushed logged next bound.
Proof.
  intros Hk Hm (ts & mx & fl & ess & [Hl Ht Hi] & H2 & H3). exists ts, mx, fl, ess. split; [|done].
  split; [unfold listed; by rewrite Hm | by eapply tables_at_same | done].
Qed.

(** A newer batch in the log. *)
Lemma tables_ok_log (o : objects) (log new : list entry) (flushed logged next bound : Z) :
  (forall x, In x new -> flushed <= eseq x) ->
  tables_ok o log flushed logged next bound -> tables_ok o (new ++ log) flushed logged next bound.
Proof.
  intros Hnew (ts & mx & fl & ess & H1 & H2 & H3 & H4 & H5 & H6 & H7). exists ts, mx, fl, ess.
  split_and!; try done; try apply H7.
  - intros x [Hx Hs]%H4. split; [apply in_app_iff; by right | done].
  - intros k s Hs. rewrite below_app, (below_none flushed new) by done. by apply H6.
Qed.

(** A manifest that lists the tables of a view without a frozen memtable. *)
Lemma view_tables_ok (e : engine) (ph : phase) (log : list entry) (f logged seg bound : Z) (o : objects) et :
  inv_at f (Sys e ph log) -> imm_entries (e_view e) = [] ->
  Forall (table_at o) (v_sstables (e_view e)) -> StronglySorted Z.lt (map sst_id (v_sstables (e_view e))) ->
  Forall (fun t => 0 <= sst_id t < bound) (v_sstables (e_view e)) -> logged <= next_seq e ->
  bc_in_range (manifest_for (map sst_id (v_sstables (e_view e))) seg e) ->
  o !! MANIFEST_KEY = Some (bc_serialize (manifest_for (map sst_id (v_sstables (e_view e))) seg e), et) ->
  tables_ok o log f logged (next_seq e) bound.
Proof.
  intros [Hn _ _ Hls Hfn (ess & fl & Hv & Hfl & _)] Hi Ht Hs Hb Hlg Hr Ho. simpl in *.
  pose proof (current_seq_next e Hn) as Hc.
  destruct Hv as [[_ _ Hrep] Hsub Hfr _ Hno _ Hlo].
  assert (older (e_view e) ess = concat (reverse ess)) as Hol by (unfold older; by rewrite Hi).
  rewrite Hol in *. exists (v_sstables (e_view e)), (next_seq e - 1), fl, ess.
  split_and!; try done; try lia.
  - split; [|done|done]. rewrite <- Hc. exact (listed_new _ _ _ Hr Ho).
  - intros x Hx. split; [|auto]. apply Hsub, older_sub. by rewrite Hol.
Qed.

(** ** The invariant *)

(** [g_frozen]: where what lies under the memtable was frozen; [g_flushed]: where
    what the listed tables hold was; [g_logged]: the first commit number behind
    the last truncation of the WAL. *)
Record ghost := Ghost { g_frozen : Z; g_flushed : Z; g_logged : Z; g_tail : wal_tail }.

Record dsys := DSys { d_sys : @sys sk bl S; d_ghost : ghost }.

(** The ids of the tables in memory and on disk are below this one. *)
Definition id_bound (e : engine) (ph : phase) : Z :=
  match ph with
  | Flushing pf | Written pf _ => pf_sstable_id pf
  | Compacting pc _ | Merged pc _ _ => pc_new_id pc
  | _ => sid e
  end.

Definition dphase (e : engine) (g : ghost) (ph : phase) : Prop :=
  match ph with
  | Idle => g_frozen g = g_flushed g
  | Flushing pf => pf_sst_key pf = sstable_key env (pf_sstable_id pf) /\ 0 <= pf_sstable_id pf < sid e
  | Written pf sst =>
      table_at (objs e) sst /\ sst_id sst = pf_sstable_id pf /\ 0 <= pf_sstable_id pf < sid e
  | Abandoned => True
  | Compacting pc _ =>
      g_frozen g = g_flushed g /\ pc_new_key pc = sstable_key env (pc_new_id pc) /\ 0 <= pc_new_id pc < sid e
  | Merged pc sst _ =>
      g_frozen g = g_flushed g /\ table_at (objs e) sst /\ sst_id sst = pc_new_id pc /\ 0 <= pc_new_id pc < sid e
  end.

(** The tables in memory have their objects, under ids in order. *)
Record mem_ok (e : engine) (bound : Z) : Prop := {
  mo_wf : os_wf (e_store e);
  mo_tables : Forall (table_at (objs e)) (v_sstables (e_view e));
  mo_ids : StronglySorted Z.lt (map sst_id (v_sstables (e_view e)));
  mo_bound : Forall (fun t => 0 <= sst_id t < bound) (v_sstables (e_view e));
}.

Record dinv (d : dsys) : Prop := {
  dv_inv : inv_at (g_frozen (d_ghost d)) (d_sys d);
  dv_sid : 1 <= sid (y_engine (d_sys d)) <= U64_MAX;
  dv_phase : dphase (y_engine (d_sys d)) (d_ghost d) (y_phase (d_sys d));
  dv_mem : mem_ok (y_engine (d_sys d)) (id_bound (y_engine (d_sys d)) (y_phase (d_sys d)));
  dv_tables : tables_ok (objs (y_engine (d_sys d))) (y_log (d_sys d)) (g_flushed (d_ghost d)) (g_logged (d_ghost d))
    (next_seq (y_engine (d_sys d))) (id_bound (y_engine (d_sys d)) (y_phase (d_sys d)));
  dv_wal : wal_ok (ws_wal (e_write (y_engine (d_sys d)))) (y_log (d_sys d)) (g_logged (d_ghost d))
    (next_seq (y_engine (d_sys d))) (g_tail (d_ghost d));
}.

Lemma mem_ok_weaken (e : engine) (b b' : Z) : b <= b' -> mem_ok e b -> mem_ok e b'.
Proof. intros Hb [? ? ? H]. split; [done..|]. eapply Forall_impl; [exact H|]. simpl. lia. Qed.

Lemma mem_ok_same (e e' : engine) (b : Z) :
  os_wf (e_store e') -> (forall id, 0 <= id < b -> objs e' !! sstable_key env id = objs e !! sstable_key env id) ->
  v_sstables (e_view e') = v_sstables (e_view e) -> mem_ok e b -> mem_ok e' b.
Proof. intros Hwf Hk Hv [_ H1 H2 H3]. split; rewrite ?Hv; try done. by eapply tables_at_same. Qed.

Lemma id_bound_le (e : engine) (g : ghost) (ph : phase) : dphase e g ph -> id_bound e ph <= sid e.
Proof. destruct ph; simpl; intuition lia. Qed.

(** ** Recovery *)

(** A batch whose append failed behind its last byte is in the WAL after all. *)
Definition adopt (g : ghost) (log : list entry) : ghost * list entry :=
  match g_tail g with
  | Torn c rows n _ =>
      if (n =? length (encoded c rows))%nat
      then (Ghost (g_frozen g) (Z.min (g_flushed g) c) (g_logged g) Clean, rows_at c rows ++ log)
      else (g, log)
  | _ => (g, log)
  end.

(** What a crash leaves of the log: not the versions that were committed after
    the last flush the manifest knows of had frozen the memtable, and before it
    truncated the WAL. *)
Definition survivors (g : ghost) (log : list entry) : list entry :=
  let '(g, log) := adopt g log in without (g_flushed g) (g_logged g) log.

Definition reopened (g : ghost) (log : list entry) : ghost :=
  let '(g, _) := adopt g log in
  Ghost (g_flushed g) (g_flushed g) (g_logged g)
    (match g_tail g with Torn c rows n _ => Torn c rows n false | _ => Clean end).

(** The WAL file, the listed tables and the log they hold, without an engine. *)
Record disk_ok (file : bytes) (o : objects) (log : list entry) (flushed logged next bound : Z)
    (t : wal_tail) (bs : list batch) : Prop := {
  dk_order : version_order log;
  dk_log : forall x, In x log -> plain x /\ 0 < eseq x < next;
  dk_file : file_is file bs t;
  dk_torn : torn_ok log logged next t;
  dk_wal : wal_holds log logged next bs;
  dk_tables : tables_ok o log flushed logged next bound;
}.

Lemma disk_ok_adopt (file : bytes) (o : objects) (log : list entry) (g : ghost) (next bound : Z) bs :
  disk_ok file o log (g_flushed g) (g_logged g) next bound (g_tail g) bs ->
  exists bs', let '(g', log') := adopt g log in
    disk_ok file o log' (g_flushed g') (g_logged g') next bound (g_tail g') bs'
    /\ match g_tail g' with Torn c rows n _ => (n < length (encoded c rows))%nat | _ => True end.
Proof.
  intros Hd. pose proof Hd as [Hlo Hls Hf Ht Hw Htab]. unfold adopt.
  destruct (g_tail g) as [|c rows n b| |] eqn:Eg.
  1, 3, 4: exists bs; cbv beta iota; by rewrite Eg.
  destruct Ht as (Hb & Hnd & Hn & Hcn & Hrw).
  destruct (Nat.eqb_spec n (length (encoded c rows))) as [En|Hne];
    [|exists bs; cbv beta iota; rewrite Eg; split; [done | lia]].
  destruct b; [|lia]. destruct Hrw as (Hnew & Hlc & Hc0).
  pose proof (encoded_header c rows). specialize (Hcn ltac:(lia)).
  exists (bs ++ [(c, map wal_entry_of rows)]). split; [|done]. split; simpl.
  - apply version_order_app. split_and!; [by apply rows_at_order | done |].
    intros x y Hx%rows_at_seq Hy%Hnew _. left. lia.
  - intros x [Hx|Hx]%in_app_iff; [|by apply Hls]. split; [|apply rows_at_seq in Hx; lia].
    apply in_map_iff in Hx as (r & <- & _). apply row_entry_plain.
  - simpl in Hf. rewrite encode_log_snoc, Hf, take_ge by lia. done.
  - done.
  - apply wal_holds_snoc; try done. apply Hw.
  - apply (tables_ok_log o log); [intros x ->%rows_at_seq; lia|].
    destruct Htab as (ts & mx & fl & ess & H1 & H2 & H3 & H4 & H5 & H6 & H7 & H8 & H9 & H10).
    exists ts, mx, fl, ess. split_and!; try done; try lia.
    + intros x [Hx Hs]%H4. pose proof (Hnew x Hx). split; [done | lia].
    + intros k s Hs. rewrite H6 by done. f_equal. apply filter_ext_in. intros x Hx%Hnew.
      destruct (Z.ltb_spec (eseq x) (g_flushed g)); symmetry; [apply Z.ltb_lt | apply Z.ltb_ge]; lia.
Qed.

Lemma file_replays (file : bytes) (log : list entry) (logged next : Z) t bs :
  file_is file bs t -> torn_ok log logged next t -> wal_holds log logged next bs ->
  match t with Torn c rows n _ => (n < length (encoded c rows))%nat | _ => True end ->
  exists wmx, replay_bytes file = Some (Ok (wmx, log_records bs)) /\ log_max_seq bs 0 <= wmx < next
    /\ match t with Torn c _ n _ => (13 <= n)%nat -> c <= wmx | _ => True end.
Proof.
  intros Hf Ht [Hbs _ Hm] Hn. destruct t as [|c rows n b| |]; simpl in Hf; try done; subst file.
  - exists (log_max_seq bs 0). rewrite replay_bytes_encoded by done. split_and!; try done; lia.
  - destruct Ht as (Hb & _ & _ & Hcn & _).
    eexists. split; [exact (replay_bytes_torn bs (c, map wal_entry_of rows) n Hbs Hb Hn)|]. simpl.
    destruct (Nat.ltb_spec n 13) as [H13|H13]; [split; lia|]. specialize (Hcn H13). split; lia.
  - exists (log_max_seq bs 0). rewrite replay_bytes_encoded by done. split_and!; try done; lia.
Qed.

Lemma tables_max_le (ts : list SSTable) (ess : list (list entry)) (b : Z) :
  Forall2 sst_rep ts ess -> 0 <= b -> (forall x, In x (concat (reverse ess)) -> eseq x <= b) ->
  0 <= fold_left (fun m t => Z.max m (sst_max_seq t)) ts 0 <= b.
Proof.
  intros Ht Hb Hx. apply fold_max_bounded; [lia|]. intros t Hin.
  apply list_elem_of_In, list_elem_of_lookup in Hin as (i & Hi).
  destruct (Forall2_lookup_l _ _ _ _ _ Ht Hi) as (es & Hes & Hrep).
  apply (rep_max_seq_le t es); [done | done |]. intros x Hxe. apply Hx, (reverse_tables_In ess), in_concat. exists es.
  split; [|done]. apply list_elem_of_In. by eapply list_elem_of_lookup_2.
Qed.

(** The view recovery builds reads like what is left of the log. *)
Lemma recovered_view_ok (log : list entry) (flushed logged next fl : Z) bs ts ess :
  version_order log -> wal_holds log logged next bs -> Forall2 sst_rep ts ess ->
  (forall x, In x (concat (reverse ess)) -> In x log /\ eseq x < flushed) ->
  reads_newest (concat (reverse ess)) ->
  (forall k s, fl <= s -> look (concat (reverse ess)) k s = look (below flushed log) k s) ->
  view_ok (recovered_view bs ts) fl flushed (without flushed logged log) ess.
Proof.
  intros Hlog [_ Hin _] Hrep Hsub Hno Hlo. set (T := concat (reverse ess)) in *. set (B := wal_entries bs).
  assert (flat (recovered_view bs ts) ess = B ++ T) as Hfl by done.
  assert (older (recovered_view bs ts) ess = T) as Hol by done.
  assert (version_order B) as HB.
  { apply (version_order_sorted log); [done | by intros x [? _]%Hin | apply om_sorted_ikey, wal_entries_sorted]. }
  split; rewrite ?Hfl, ?Hol.
  - split; [apply wal_entries_sorted | constructor | done].
  - intros x [[Hx ?]%Hin|[Hx ?]%Hsub]%in_app_iff; apply without_In; auto.
  - by intros x [_ ?]%Hsub.
  - apply reads_newest_app; [by apply version_order_reads_newest | done |].
    intros a b [_ Ha]%Hin [Hb _]%Hsub _ Hlt. apply Hin. split; [done | lia].
  - done.
  - intros k s Hs. by apply layers_look; auto.
  - intros k s Hs. rewrite Hlo by done. f_equal. destruct (decide (flushed <= logged)).
    + by rewrite below_without.
    + by rewrite without_none by lia.
Qed.

Lemma disk_recovers (file : bytes) (s : S) (valid : bool) (token : Z) log flushed logged next bound t bs :
  os_wf s -> up s -> 1 <= next <= U64_MAX -> 1 <= bound <= U64_MAX ->
  disk_ok file (os_objects s) log flushed logged next bound t bs ->
  match t with Torn c rows n _ => (n < length (encoded c rows))%nat | _ => True end ->
  exists s' e', lsm_open env file s valid token = (s', Some (Ok e')) /\ next_seq e' <= next
    /\ dinv (DSys (Sys e' Idle (without flushed logged log))
               (Ghost flushed flushed logged (match t with Torn c rows n _ => Torn c rows n false | _ => Clean end))).
Proof.
  intros Hwf Hup Hn Hbd [Hlo Hls Hf Ht Hw Htab] Hnf.
  destruct (file_replays _ _ _ _ _ _ Hf Ht Hw Hnf) as (wmx & Hrep & Hwmx & Hc).
  destruct Htab as (ts & mx & fl & ess & H1 & H2 & H3 & H4 & H5 & H6 & H7 & H8 & H9 & H10).
  destruct (lsm_open_disk file s valid token bs ts mx wmx Hwf Hup H1 Hrep)
    as (s' & e' & Hopen & Hview & Hnext & Hops & Hfile & Hww & Hsid & Hes & Hwf' & Hobj').
  pose proof (tables_max_le ts ess mx H3 ltac:(lia) ltac:(intros x [_ ?]%H4; lia)) as Htm.
  assert (0 <= wmx) as Hw0 by (pose proof (proj1 (log_max_seq_ge bs 0)); lia).
  assert (next_seq e' = Z.max wmx mx + 1) as Hnx.
  { rewrite Hnext. unfold U64_MAX in *. rewrite u64_add_small; lia. }
  destruct (max_of_bound ts bound H2 Hbd) as [Hi Hbd']. rewrite <- Hsid in Hi, Hbd'.
  set (log' := without flushed logged log).
  assert (forall x, In x log' -> In x log /\ eseq x < next_seq e') as Hlog'.
  { intros x [Hx [Hs|Hs]]%without_In; (split; [done|]); [lia|].
    pose proof (wal_entries_max bs x (proj2 (wh_entries _ _ _ _ Hw x) (conj Hx Hs))). lia. }
  exists s', e'. split_and!; [done | lia |]. split; simpl.
  - split; simpl; rewrite ?Hops; [lia | constructor | by apply version_order_filter | | lia |].
    + intros x Hx. destruct (Hlog' x Hx) as [[? ?]%Hls ?]. split; [done | lia].
    + exists ess, fl. rewrite Hview, current_seq_next by lia. split_and!; [|lia|done|done].
      by eapply recovered_view_ok.
  - lia.
  - done.
  - split; rewrite ?Hes, ?Hview; simpl; [done | rewrite Hobj'; apply H1 | apply H1 | done].
  - exists ts, mx, fl, ess. rewrite Hes, Hobj'. split_and!; try done; try lia.
    + intros x [Hx Hs]%H4. split; [apply without_In; auto | done].
    + intros k s0 Hs. rewrite H6 by done. f_equal. destruct (decide (flushed <= logged)).
      * unfold log'. by rewrite below_without.
      * unfold log'. by rewrite without_none by lia.
  - intros _. exists bs. unfold wal_wf in Hww. rewrite Hfile, Hww.
    change (io_file (wal_io (ws_wal (e_write e')))) with (read_all_bytes (ws_wal (e_write e'))). rewrite Hfile.
    assert (wal_holds log' logged (next_seq e') bs) as Hw'.
    { destruct Hw as [Hb1 Hb2 Hb3]. split; [done | | lia]. intros x. rewrite Hb2. unfold log'. rewrite without_In. tauto. }
    destruct t as [|c rows n b| |]; simpl in Hf; try done; split_and!; try done; simpl; try by rewrite Hf.
    destruct Ht as (T1 & T2 & T3 & T4 & _). do 3 (split; [done|]). split; [intros ?%Hc; lia | done].
Qed.

Lemma dinv_disk (d : dsys) :
  dinv d -> g_tail (d_ghost d) <> Lost ->
  exists bs, disk_ok (read_all_bytes (ws_wal (e_write (y_engine (d_sys d))))) (objs (y_engine (d_sys d)))
    (y_log (d_sys d)) (g_flushed (d_ghost d)) (g_logged (d_ghost d)) (next_seq (y_engine (d_sys d)))
    (sid (y_engine (d_sys d))) (g_tail (d_ghost d)) bs.
Proof.
  intros [Hinv _ Hph _ Htab Hwal] Hl. destruct (Hwal Hl) as (bs & H1 & _ & H3 & H4). exists bs.
  split; try done; try apply Hinv. eapply tables_ok_weaken; [| |exact Htab]; [lia|].
  by eapply id_bound_le.
Qed.

(** [open] after a crash succeeds and restores the invariant. *)
Lemma dinv_recovers (y : sys) (g : ghost) (valid : bool) (token : Z) :
  dinv (DSys y g) -> g_tail g <> Lost -> up (e_store (y_engine y)) ->
  exists s' e',
    lsm_open env (read_all_bytes (ws_wal (e_write (y_engine y)))) (e_store (y_engine y)) valid token = (s', Some (Ok e'))
    /\ next_seq e' <= next_seq (y_engine y)
    /\ dinv (DSys (Sys e' Idle (survivors g (y_log y))) (reopened g (y_log y))).
Proof.
  intros Hd Hl Hup. destruct (dinv_disk _ Hd Hl) as (bs & Hdk). simpl in Hdk.
  apply disk_ok_adopt in Hdk as (bs' & Hdk). unfold survivors, reopened.
  destruct (adopt g (y_log y)) as [g' log']. destruct Hdk as [Hdk Hnf].
  pose proof (ia_next _ _ (dv_inv _ Hd)) as Hn. pose proof (mo_wf _ _ (dv_mem _ Hd)) as Hwf.
  exact (disk_recovers _ _ valid token _ _ _ _ _ _ _ Hwf Hup Hn (dv_sid _ Hd) Hdk Hnf).
Qed.

(** ** Writes *)

(** The batch's sizes fit the fields of the WAL format, and the allocator has
    room for its records when it is replayed. *)
Definition wal_fits (rows : list batch_row) (e : engine) : Prop :=
  batch_ok (next_seq e, map wal_entry_of rows).

Lemma appended_ok (rows : list batch_row) (e : engine) :
  appends rows e = true -> exists rs,
    append_batch (next_seq e) (map wal_entry_of rows) (ws_wal (e_write e)) = (ws_wal (appended rows e), Ok rs).
Proof. unfold appends, appended. simpl. destruct (append_batch _ _ _) as [w [rs|err]]; [by eauto | done]. Qed.

Lemma appended_err (rows : list batch_row) (e : engine) :
  appends rows e = false -> exists err,
    append_batch (next_seq e) (map wal_entry_of rows) (ws_wal (e_write e)) = (ws_wal (appended rows e), Err err).
Proof. unfold appends, appended. simpl. destruct (append_batch _ _ _) as [w [rs|err]]; [done | by eauto]. Qed.

Lemma logged_le (d : dsys) :
  dinv d -> g_logged (d_ghost d) <= next_seq (y_engine (d_sys d)) /\ g_flushed (d_ghost d) <= next_seq (y_engine (d_sys d)).
Proof. intros [_ _ _ _ (ts & mx & fl & ess & _ & _ & _ & _ & _ & _ & _ & H8 & H9 & H10) _]. lia. Qed.

Definition set_tail (t : wal_tail) (g : ghost) : ghost := Ghost (g_frozen g) (g_flushed g) (g_logged g) t.

Lemma unwritten_dinv (rows : list batch_row) (e : engine) (ph : phase) (log : list entry) (g : ghost) :
  batch_fits rows e -> wal_fits rows e -> appends rows e = false -> dinv (DSys (Sys e ph log) g) ->
  dinv (DSys (Sys (unwritten rows e) ph log) (set_tail (tail_after rows e (g_tail g)) g)).
Proof.
  intros [Hlt Hnd] Hwal Ha Hd. pose proof (logged_le _ Hd) as [Hlg _].
  destruct Hd as [Hinv Hsid Hph Hm Htab Hw]. simpl in *. pose proof (ia_next _ _ Hinv) as Hn. simpl in Hn.
  assert (next_seq (unwritten rows e) = next_seq e + 1) as Hnx
    by (simpl; apply u64_add_small; unfold U64_MAX in *; lia).
  split; cbn [d_sys d_ghost y_engine y_phase y_log]; rewrite ?Hnx; [by apply unwritten_inv | done | by destruct ph | | |].
  - eapply (mem_ok_same e); [apply Hm | done | done |]. destruct ph; exact Hm.
  - eapply tables_ok_weaken; [| |exact Htab]; [lia | by destruct ph].
  - unfold tail_after. simpl. rewrite Ha.
    destruct (appended_err rows e Ha) as (err & Happ).
    eapply wal_ok_failed; [exact Happ | done | done | done | | done | lia | done].
    intros x Hx%(ia_log _ _ Hinv). simpl in Hx. lia.
Qed.

Lemma written_dinv (rows : list batch_row) (e : engine) (ph : phase) (log : list entry) (g : ghost) :
  batch_fits rows e -> wal_fits rows e -> appends rows e = true -> dinv (DSys (Sys e ph log) g) ->
  dinv (DSys (Sys (written rows e) ph (commit_entries rows e ++ log)) (set_tail (tail_after rows e (g_tail g)) g)).
Proof.
  intros Hfit Hwal Ha Hd. pose proof (logged_le _ Hd) as [Hlg Hfl]. pose proof Hfit as [Hlt Hnd].
  destruct Hd as [Hinv Hsid Hph Hm Htab Hw]. simpl in *. pose proof (ia_next _ _ Hinv) as Hn. simpl in Hn.
  assert (next_seq (written rows e) = next_seq e + 1) as Hnx
    by (simpl; apply u64_add_small; unfold U64_MAX in *; lia).
  split; cbn [d_sys d_ghost y_engine y_phase y_log]; rewrite ?Hnx; [by apply written_inv | done | by destruct ph | | |].
  - eapply (mem_ok_same e); [apply Hm | done | done |]. destruct ph; exact Hm.
  - apply tables_ok_log; [intros x ->%rows_at_seq; simpl; lia|].
    eapply tables_ok_weaken; [| |exact Htab]; [lia | by destruct ph].
  - unfold tail_after. simpl. rewrite Ha.
    destruct (appended_ok rows e Ha) as (rs & Happ).
    eapply wal_ok_written; [exact Happ | done | done | | done | done].
    intros x Hx%(ia_log _ _ Hinv). simpl in Hx. lia.
Qed.

(** ** Flush *)

Definition set_frozen (f : Z) (g : ghost) : ghost := Ghost f (g_flushed g) (g_logged g) (g_tail g).

Lemma begin_flush_dinv (e e' : engine) r (log : list entry) (g : ghost) :
  begin_flush env e = (e', r) -> sid e < U64_MAX -> dinv (DSys (Sys e Idle log) g) ->
  dinv (DSys (Sys e' (flush_phase r) log) (set_frozen (froze r e' (g_frozen g)) g)).
Proof.
  intros Hb Hlt Hd. pose proof (begin_flush_inv env _ _ _ _ _ Hb (dv_inv _ Hd)) as Hinv'.
  destruct Hd as [Hinv Hsid Hph Hm Htab Hw]. simpl in *. unfold begin_flush in Hb.
  destruct (e_lease_valid e); simpl in Hb; [|injection Hb as <- <-; simpl; by split].
  destruct (mt_to_entries (v_memtable (e_view e))) as [|x es] eqn:E; injection Hb as <- <-; simpl in *.
  - split; simpl; [done | done | done | | done | done]. by eapply (mem_ok_same e); [apply Hm | done | done |].
  - split; simpl; [done | rewrite u64_add_small; unfold U64_MAX in *; lia | | | done | done].
    + rewrite u64_add_small by (unfold U64_MAX in *; lia). split; [done | lia].
    + by eapply (mem_ok_same e); [apply Hm | done | done |].
Qed.

Lemma write_batch_dinv (rows : list batch_row) (e e' : engine) r (ph : phase) (log : list entry) (g : ghost) :
  batch_fits rows e -> wal_fits rows e -> sid e < U64_MAX ->
  ph = Idle \/ has_room rows e \/ appends rows e = false ->
  write_batch env rows e = (e', r) -> dinv (DSys (Sys e ph log) g) ->
  dinv (DSys (Sys e' (write_phase ph r) (log_after rows e log))
         (set_frozen (froze (flush_begun r) e' (g_frozen g)) (set_tail (tail_after rows e (g_tail g)) g))).
Proof.
  intros Hfit Hwal Hsid Hph Hw Hd. unfold log_after.
  apply write_batch_cases in Hw as [(Ha & -> & err & ->)|[(Ha & Hfull & r0 & Hb & ->)|(Ha & Hroom & -> & ->)]];
    rewrite Ha; simpl.
  - exact (unwritten_dinv rows e ph log g Hfit Hwal Ha Hd).
  - destruct Hph as [->|[Hroom|Hno]]; [|unfold has_room in Hroom; congruence | congruence].
    apply (written_dinv rows) in Hd; [|done..]. apply (begin_flush_dinv _ _ _ _ _ Hb Hsid) in Hd.
    by destruct r0 as [[pf|]|err].
  - exact (written_dinv rows e ph log g Hfit Hwal Ha Hd).
Qed.

(** A flush that is given up. *)
Lemma abandon_dinv (e : engine) (ph : phase) (log : list entry) (g : ghost) :
  dinv (DSys (Sys e ph log) g) -> dinv (DSys (Sys e Abandoned log) g).
Proof.
  intros [Hinv Hsid Hph Hm Htab Hw]. simpl in *. pose proof (id_bound_le _ _ _ Hph) as Hb.
  split; simpl; [by eapply abandon_flush_inv | done | done | by eapply mem_ok_weaken | | done].
  eapply tables_ok_weaken; [| |exact Htab]; [lia | done].
Qed.

Lemma finish_flush_dinv (pf : PendingFlush) (e : engine) (s' : S) r (log : list entry) (g : ghost) :
  table_fits (pf_entries pf) -> finish_flush pf (e_store e) = (s', r) ->
  dinv (DSys (Sys e (Flushing pf) log) g) ->
  dinv (DSys (Sys (set_store s' e) (match r with Ok sst => Written pf sst | Err _ => Abandoned end) log) g).
Proof.
  intros Hfit Hfin Hd. pose proof (finish_flush_inv pf e s' r log _ Hfit Hfin (dv_inv _ Hd)) as Hinv'.
  destruct Hd as [Hinv Hsid [Hk Hid] Hm Htab Hw]. simpl in *. unfold finish_flush in Hfin. rewrite Hk in Hfin.
  destruct (create_in_store_at _ _ _ _ _ (mo_wf _ _ Hm) Hfin) as (Hwf' & Hag & Ht).
  assert (forall id, 0 <= id < pf_sstable_id pf -> os_objects s' !! sstable_key env id = objs e !! sstable_key env id)
    as Hids by (intros id Hi; apply Hag, other_key; lia).
  assert (mem_ok (set_store s' e) (pf_sstable_id pf)) as Hm' by (by apply (mem_ok_same e)).
  assert (tables_ok (os_objects s') log (g_flushed g) (g_logged g) (next_seq e) (pf_sstable_id pf)) as Htab'
    by (apply (tables_ok_same (objs e)); [done | apply Hag, not_eq_sym, sstable_key_not_manifest | done]).
  destruct r as [sst|err]; split; simpl; try done.
  - by destruct (Ht sst eq_refl).
  - eapply mem_ok_weaken; [|exact Hm']. lia.
  - eapply tables_ok_weaken; [| |exact Htab']; lia.
Qed.

(** The manifest the phase is about to write fits its format. *)
Definition flush_in_range (pf : PendingFlush) (e : engine) : Prop :=
  bc_in_range (manifest_for (map sst_id (v_sstables (e_view e)) ++ [pf_sstable_id pf])
                 (ws_wal_seg_id (e_write e)) e).

Definition set_flushed (g : ghost) : ghost := Ghost (g_frozen g) (g_frozen g) (g_logged g) (g_tail g).

(** What a commit that failed leaves: a manifest write that reported a failure
    may have reached the store. *)
Definition flushed_if_listed (e e' : engine) (g : ghost) : ghost :=
  if bool_decide (objs e' !! MANIFEST_KEY = objs e !! MANIFEST_KEY) then g else set_flushed g.

(** The WAL behind a commit that published its table: truncated, cut without the
    backend knowing, or left as it was. *)
Definition truncated (e : engine) (g : ghost) : ghost :=
  match read_all_bytes (ws_wal (e_write e)) with
  | [] => Ghost (g_frozen g) (g_flushed g) (next_seq e)
            (if io_offset (wal_io (ws_wal (e_write e))) =? 0 then Clean else Hole)
  | _ => g
  end.

Lemma ship_wal_dinv (e e1 : engine) r (pf : PendingFlush) sst (log : list entry) (g : ghost) :
  ship_wal env e = (e1, r) -> dinv (DSys (Sys e (Written pf sst) log) g) ->
  dinv (DSys (Sys e1 (Written pf sst) log) g)
  /\ exists s1, e1 = set_store s1 e /\ os_objects s1 !! MANIFEST_KEY = objs e !! MANIFEST_KEY.
Proof.
  intros Hship [Hinv Hsid (Hat & Hs & Hpf) Hm Htab Hw]. simpl in *.
  destruct (ship_wal_store _ _ _ (mo_wf _ _ Hm) Hship) as (s1 & -> & Hwf1 & Hag).
  split; [|exists s1; split; [done | by apply Hag]]. split; simpl; try done.
  - by eapply inv_same_clock; [|exact Hinv].
  - split_and!; [| done | lia | lia]. eapply table_at_same; [|exact Hat]. destruct Hat as [-> _]. apply Hag, sstable_key_not_wal.
  - apply (mem_ok_same e); try done. intros id _. apply Hag, sstable_key_not_wal.
  - apply (tables_ok_same (objs e)); [|by apply Hag|done]. intros id _. apply Hag, sstable_key_not_wal.
Qed.

(** The engine with the new table in its view and in the manifest. *)
Lemma published_dinv (e : engine) (pf : PendingFlush) sst (log : list entry) (g : ghost) (s2 : S) seg et etag w2 :
  dinv (DSys (Sys e (Written pf sst) log) g) -> flush_in_range pf e -> os_wf s2 ->
  (forall k', k' <> MANIFEST_KEY -> os_objects s2 !! k' = objs e !! k') ->
  os_objects s2 !! MANIFEST_KEY = Some (bc_serialize (manifest_for
     (map sst_id (v_sstables (e_view e)) ++ [pf_sstable_id pf]) (ws_wal_seg_id (e_write e)) e), et) ->
  w2 = mkWriteState (ws_wal (e_write e)) (sid e) seg etag (ws_wal_seg_id (e_write e)) (next_seq e) (ws_open_snapshots (e_write e)) ->
  dinv (DSys (Sys (publish_flush sst (set_write w2 (set_store s2 e))) Idle log) (set_flushed g))
  /\ tables_ok (os_objects s2) log (g_frozen g) (next_seq e) (next_seq e) (sid e).
Proof.
  intros Hd Hr Hwf2 Hag Ho ->. pose proof (logged_le _ Hd) as [Hlg _].
  destruct Hd as [Hinv Hsid (Hat & Hs & Hpf) Hm Htab Hw]. simpl in *.
  set (e2 := publish_flush sst _).
  assert (inv_at (g_frozen g) (Sys e2 Idle log)) as Hinv2
    by (eapply inv_same_clock; [|exact (publish_flush_inv pf sst e log _ Hinv)]; done).
  assert (table_at (os_objects s2) sst) as Hat2.
  { eapply table_at_same; [|exact Hat]. destruct Hat as [-> _]. apply Hag, sstable_key_not_manifest. }
  assert (mem_ok e2 (sid e)) as Hm2.
  { destruct Hm as [M1 M2 M3 M4]. split; simpl; [done | | |].
    - apply Forall_app. split; [|by constructor].
      eapply tables_at_same; [|exact M4|exact M2]. intros id _. apply Hag, sstable_key_not_manifest.
    - rewrite map_app. apply sorted_snoc; [done|]. intros x (t & <- & Ht)%in_map_iff.
      rewrite Forall_forall in M4. specialize (M4 t ltac:(by apply list_elem_of_In)). simpl in M4. lia.
    - apply Forall_app. split; [eapply Forall_impl; [exact M4|]; simpl; lia|]. constructor; [lia|done]. }
  assert (forall logged, logged <= next_seq e ->
    tables_ok (os_objects s2) log (g_frozen g) logged (next_seq e) (sid e)) as Htab2.
  { intros logged Hle. apply (view_tables_ok e2 Idle log _ _ (ws_wal_seg_id (e_write e)) _ _ et Hinv2); try done; try apply Hm2.
    - simpl. rewrite map_app. simpl. rewrite Hs. exact Hr.
    - simpl. rewrite map_app. simpl. rewrite Hs. exact Ho. }
  split; [|by apply Htab2]. split; simpl; try done. by apply Htab2.
Qed.

(** A manifest write that failed, whether it reached the store or not. *)
Lemma unpublished_dinv (e : engine) (pf : PendingFlush) sst (log : list entry) (g : ghost) (s2 : S) :
  dinv (DSys (Sys e (Written pf sst) log) g) -> flush_in_range pf e -> os_wf s2 ->
  (forall k', k' <> MANIFEST_KEY -> os_objects s2 !! k' = objs e !! k') ->
  os_objects s2 !! MANIFEST_KEY = objs e !! MANIFEST_KEY
  \/ (exists et, os_objects s2 !! MANIFEST_KEY = Some (bc_serialize (manifest_for
     (map sst_id (v_sstables (e_view e)) ++ [pf_sstable_id pf]) (ws_wal_seg_id (e_write e)) e), et)) ->
  dinv (DSys (Sys (set_store s2 e) Abandoned log) (flushed_if_listed e (set_store s2 e) g)).
Proof.
  intros Hd Hr Hwf2 Hag Hman. unfold flushed_if_listed. case_bool_decide as Heq; simpl in Heq.
  - apply (abandon_dinv _ (Written pf sst)).
    destruct Hd as [Hinv Hsid (Hat & Hs & Hpf) Hm Htab Hw]. simpl in *. split; simpl; try done.
    + by eapply inv_same_clock; [|exact Hinv].
    + split_and!; [| done | lia | lia].
      eapply table_at_same; [|exact Hat]. destruct Hat as [-> _]. apply Hag, sstable_key_not_manifest.
    + apply (mem_ok_same e); try done. intros id _. apply Hag, sstable_key_not_manifest.
    + apply (tables_ok_same (objs e)); [|done|done]. intros id _. apply Hag, sstable_key_not_manifest.
  - destruct Hman as [?|[et Ho]]; [done|].
    pose proof (published_dinv e pf sst log g s2 0 et None _ Hd Hr Hwf2 Hag Ho eq_refl) as [Hp _].
    pose proof Hd as [Hinv Hsid (Hat & Hs & Hpf) Hm Htab Hw]. simpl in *.
    split; simpl; try done.
    + eapply abandon_flush_inv, inv_same_clock; [|exact Hinv]; done.
    + eapply mem_ok_weaken; [|apply (mem_ok_same e); [done | | done | exact Hm]]; [lia|].
      intros id _. apply Hag, sstable_key_not_manifest.
    + exact (dv_tables _ Hp).
Qed.

Lemma begin_compact_dinv (e e' : engine) r (log : list entry) (g : ghost) :
  begin_compact env e = (e', r) -> sid e < U64_MAX ->
  dinv (DSys (Sys e Idle log) g) -> dinv (DSys (Sys e' (compact_phase r e') log) g).
Proof.
  intros Hb Hlt Hd. pose proof (begin_compact_inv env e e' r log _ Hb (dv_inv _ Hd)) as Hinv'.
  destruct Hd as [Hinv Hsid Hph Hm Htab Hw].
  unfold begin_compact in Hb. destruct (_ <? 2); [injection Hb as <- <-; by split|].
  destruct (e_lease_valid e); simpl in Hb; [|injection Hb as <- <-; by split].
  injection Hb as <- <-. simpl in *.
  split; simpl; [done | rewrite u64_add_small; unfold U64_MAX in *; lia | | | done | done].
  - rewrite u64_add_small by (unfold U64_MAX in *; lia). split_and!; [done | done | lia | lia].
  - by eapply (mem_ok_same e); [apply Hm | done | done |].
Qed.

Lemma begin_compact_keeps (e e' : engine) r :
  begin_compact env e = (e', r) -> ws_wal (e_write e') = ws_wal (e_write e) /\ next_seq e' = next_seq e.
Proof. unfold begin_compact. repeat case_match; by intros [= <- _]. Qed.

Lemma truncate_wal_dinv (e e' : engine) r (log : list entry) (g : ghost) :
  truncate_wal e = (e', r) -> tables_ok (objs e) log (g_flushed g) (next_seq e) (next_seq e) (sid e) ->
  dinv (DSys (Sys e Idle log) g) -> dinv (DSys (Sys e' Idle log) (truncated e' g)).
Proof.
  intros Ht Hnew [Hinv Hsid Hph Hm Htab Hw]. pose proof (truncate_wal_clock _ _ _ Ht) as Hsc. simpl in *.
  unfold truncate_wal in Ht. destruct (wal_truncate (ws_wal (e_write e))) as [w tr] eqn:E. injection Ht as <- <-.
  set (e1 := set_write _ e). assert (inv_at (g_frozen g) (Sys e1 Idle log)) as Hinv1 by (by eapply inv_same_clock).
  assert (mem_ok e1 (sid e1)) as Hm1 by (by apply (mem_ok_same e); [apply Hm | done | done |]).
  pose proof (ia_next _ _ Hinv) as Hn. simpl in Hn. unfold truncated.
  destruct (read_all_bytes (ws_wal (e_write e1))) as [|b bytes] eqn:Eb.
  - split; simpl; try done. apply wal_ok_empty; [lia | | done]. intros x Hx%(ia_log _ _ Hinv). simpl in Hx. lia.
  - split; simpl; try done. apply wal_truncate_cases in E as [(_ & Hf & _)|(_ & Ho & [Hf|Hf])].
    1, 3: change (read_all_bytes (ws_wal (e_write e1))) with (io_file (wal_io w)) in Eb; congruence.
    intros Hl. destruct (Hw Hl) as (bs & H1 & H2 & H3). exists bs. unfold read_all_bytes in *. by rewrite Hf, Ho.
Qed.

Lemma flush_manifest_dinv (pf : PendingFlush) sst (e e2 : engine) r (log : list entry) (g : ghost) :
  flush_manifest pf e = (e2, r) -> flush_in_range pf e -> dinv (DSys (Sys e (Written pf sst) log) g) ->
  match r with
  | Err _ => dinv (DSys (Sys e2 Abandoned log) (flushed_if_listed e e2 g))
  | Ok _ => dinv (DSys (Sys (publish_flush sst e2) Idle log) (set_flushed g)) /\ sid e2 = sid e /\ next_seq e2 = next_seq e
            /\ tables_ok (objs e2) log (g_frozen g) (next_seq e) (next_seq e) (sid e)
  end.
Proof.
  intros Hfm Hr Hd. unfold flush_manifest in Hfm.
  destruct (manifest_save_cas _ _ (e_store e)) as [s2 cr] eqn:E.
  destruct (cas_agrees _ _ _ _ _ (mo_wf _ _ (dv_mem _ Hd)) E) as (Hwf2 & Hag & Hman). simpl in *.
  destruct cr as [et|cerr]; injection Hfm as <- <-.
  - destruct Hman as [[[? [=]] _]|[et' Hman]].
    destruct (published_dinv e pf sst log g s2 (u64_add (ws_wal_seg_id (e_write e)) 1) et' (Some et) _ Hd Hr Hwf2 Hag Hman eq_refl) as [Hp Ht].
    split; [exact Hp|]. by split_and!.
  - eapply unpublished_dinv; [done | done | done | done |]. destruct Hman as [[_ ?]|?]; [by left | by right].
Qed.

(** The commit of a flush: the table is published, and the WAL truncated or not,
    or nothing but the store has changed. *)
Lemma commit_flush_dinv (pf : PendingFlush) sst (e e' : engine) r (log : list entry) (g : ghost) :
  commit_flush env pf sst e = (e', r) -> sid e < U64_MAX -> flush_in_range pf e ->
  dinv (DSys (Sys e (Written pf sst) log) g) ->
  (e_view e' = e_view e /\ dinv (DSys (Sys e' Abandoned log) (flushed_if_listed e e' g)))
  \/ e_view e' <> e_view e /\ dinv (DSys (Sys e' (compact_phase r e') log) (truncated e' (set_flushed g))).
Proof.
  intros Hc Hlt Hr Hd. unfold commit_flush in Hc.
  destruct (ship_wal env e) as [e1 sr] eqn:E1.
  destruct (ship_wal_dinv _ _ _ _ _ _ _ E1 Hd) as (Hd1 & s1 & -> & Hm1).
  assert (forall e2, flushed_if_listed (set_store s1 e) e2 g = flushed_if_listed e e2 g) as Hfl
    by (intros e2; unfold flushed_if_listed; simpl; by rewrite Hm1).
  destruct sr as [[]|err1]; [|left; injection Hc as <- <-; split; [done|]].
  2: { rewrite <- Hfl. unfold flushed_if_listed. rewrite bool_decide_eq_true_2 by done. by eapply abandon_dinv. }
  destruct (flush_manifest pf (set_store s1 e)) as [e2 fr] eqn:E2.
  pose proof (flush_manifest_dinv pf sst _ _ _ _ _ E2 Hr Hd1) as Hfm.
  pose proof (flush_manifest_clock pf _ _ _ E2) as (_ & _ & Hv2).
  destruct fr as [[]|err]; [|left; injection Hc as <- <-; split; [done|by rewrite <- Hfl]].
  right. destruct Hfm as (Hidle & Hsid2 & Hn2 & Ht2).
  destruct (truncate_wal (publish_flush sst e2)) as [e3 tr] eqn:E3.
  pose proof (truncate_wal_clock _ _ _ E3) as (_ & _ & Hv3).
  assert (e_view e3 <> e_view e) as Hne.
  { rewrite Hv3. change (e_view e) with (e_view (set_store s1 e)). rewrite <- Hv2. by apply (publish_flush_view sst). }
  assert (dinv (DSys (Sys e3 Idle log) (truncated e3 (set_flushed g)))) as Hd3.
  { eapply truncate_wal_dinv; [exact E3 | | exact Hidle]. simpl. rewrite Hn2, Hsid2. exact Ht2. }
  destruct tr as [[]|err]; [case_match|]; [|injection Hc as <- <-; done..].
  pose proof (begin_compact_view env _ _ _ Hc) as Hv4.
  split; [by rewrite Hv4|].
  assert (truncated e' (set_flushed g) = truncated e3 (set_flushed g)) as ->.
  { apply begin_compact_keeps in Hc as [Hw4 Hn4]. unfold truncated. by rewrite Hw4, Hn4. }
  eapply begin_compact_dinv; [exact Hc | | exact Hd3].
  unfold truncate_wal in E3. destruct (wal_truncate _). injection E3 as <- _. simpl. by rewrite Hsid2.
Qed.

(** ** Compaction *)

Lemma finish_compact_dinv (pc : PendingCompaction) (c0 : Z) (e : engine) (s' : S) r (log : list entry) (g : ghost) :
  (forall m, group_sstables (pc_sstables pc) [] = Ok m ->
     table_fits (merge_entries (pc_watermark pc) m)) ->
  finish_compact pc (e_store e) = (s', r) -> dinv (DSys (Sys e (Compacting pc c0) log) g) ->
  dinv (DSys (Sys (set_store s' e) (match r with Ok sst => Merged pc sst c0 | Err _ => Idle end) log) g).
Proof.
  intros Hfit Hfin Hd. pose proof (finish_compact_inv pc c0 e s' r log _ Hfit Hfin (dv_inv _ Hd)) as Hinv'.
  destruct Hd as [Hinv Hsid (Hfz & Hk & Hid) Hm Htab Hw]. simpl in *.
  assert (os_wf s' /\ (forall k', k' <> sstable_key env (pc_new_id pc) -> os_objects s' !! k' = objs e !! k')
    /\ (forall sst, r = Ok sst -> table_at (os_objects s') sst /\ sst_id sst = pc_new_id pc)) as (Hwf' & Hag & Ht).
  { unfold finish_compact in Hfin. destruct (group_sstables (pc_sstables pc) []) as [m|err].
    - rewrite Hk in Hfin. exact (create_in_store_at _ _ _ _ _ (mo_wf _ _ Hm) Hfin).
    - injection Hfin as <- <-. split_and!; [apply Hm | done | done]. }
  assert (forall id, 0 <= id < pc_new_id pc -> os_objects s' !! sstable_key env id = objs e !! sstable_key env id)
    as Hids by (intros id Hi; apply Hag, other_key; lia).
  assert (mem_ok (set_store s' e) (pc_new_id pc)) as Hm' by (by apply (mem_ok_same e)).
  assert (tables_ok (os_objects s') log (g_flushed g) (g_logged g) (next_seq e) (pc_new_id pc)) as Htab'
    by (apply (tables_ok_same (objs e)); [done | apply Hag, not_eq_sym, sstable_key_not_manifest | done]).
  destruct r as [sst|err]; split; simpl; try done.
  - destruct (Ht sst eq_refl). by split_and!; try lia.
  - eapply mem_ok_weaken; [|exact Hm']. lia.
  - eapply tables_ok_weaken; [| |exact Htab']; lia.
Qed.

Definition compact_in_range (sst : SSTable) (e : engine) : Prop :=
  bc_in_range (manifest_for [sst_id sst] (ws_committed_wal_segment_seq (e_write e)) e).

Lemma commit_compact_dinv (pc : PendingCompaction) sst c0 (e e' : engine) r (log : list entry) (g : ghost) :
  commit_compact pc sst e = (e', r) -> compact_in_range sst e ->
  dinv (DSys (Sys e (Merged pc sst c0) log) g) -> dinv (DSys (Sys e' Idle log) g).
Proof.
  intros Hc Hr Hd. pose proof (logged_le _ Hd) as [Hlg _]. destruct Hd as [Hinv Hsid (Hfz & Hat & Hs & Hid) Hm Htab Hw]. simpl in *.
  pose proof (commit_compact_inv _ _ _ _ _ _ _ _ Hc Hinv) as Hinv'.
  pose proof (merged_published_inv _ _ _ _ _ _ Hinv) as Hpub.
  pose proof Hinv as [_ _ _ _ _ (ess & fl & _ & _ & _ & (Him & Hts & _))]. simpl in Him, Hts.
  unfold commit_compact in Hc. rewrite Hts, filter_consumed in Hc. simpl in Hc.
  destruct (manifest_save_cas _ _ _) as [s2 cr] eqn:E.
  destruct (cas_agrees _ _ _ _ _ (mo_wf _ _ Hm) E) as (Hwf2 & Hag & Hman).
  assert (table_at (os_objects s2) sst) as Hat2.
  { eapply table_at_same; [|exact Hat]. destruct Hat as [-> _]. apply Hag, sstable_key_not_manifest. }
  assert (forall o et, table_at o sst ->
    o !! MANIFEST_KEY = Some (bc_serialize (manifest_for [sst_id sst] (ws_committed_wal_segment_seq (e_write e)) e), et) ->
    tables_ok o log (g_flushed g) (g_logged g) (next_seq e) (sid e)) as Hnew.
  { intros o et Ho Hmo. rewrite <- Hfz.
    apply (view_tables_ok _ _ _ _ _ (ws_committed_wal_segment_seq (e_write e)) _ o et Hpub); simpl; try done.
    - by constructor.
    - repeat constructor.
    - constructor; [lia | done]. }
  set (ks := map sst_key (v_sstables (e_view e))) in *.
  assert (forall k, In k ks -> exists id, 0 <= id < sst_id sst /\ k = sstable_key env id) as Hks.
  { intros k (t & <- & Ht%list_elem_of_In)%in_map_iff. destruct Hm as [_ M2 _ M4].
    rewrite Forall_forall in M2, M4. destruct (M2 t Ht) as [-> _]. specialize (M4 t Ht). exists (sst_id t). split; [lia | done]. }
  destruct (delete_all_agrees ks s2 Hwf2) as [Hwf3 Hdel].
  { apply Forall_forall. intros k Hk%list_elem_of_In. by apply Hks in Hk as (id & _ & ->). }
  assert (table_at (os_objects (delete_all ks s2)) sst) as Hat3.
  { eapply table_at_same; [|exact Hat2]. apply Hdel. intros (id & Hlt & Heq)%Hks.
    destruct Hat as [Hk _]. rewrite Hk in Heq. symmetry in Heq. apply (other_key id (sst_id sst)) in Heq; lia. }
  destruct cr as [et|cerr]; injection Hc as <- <-; (split; [done | done | done | | |done]); simpl in *.
  - split; simpl; [done | by constructor | repeat constructor | constructor; [lia|done]].
  - destruct Hman as [[[? [=]] _]|[et' Hman]]. apply (Hnew _ et'); [done|].
    rewrite Hdel; [exact Hman|]. intros (id & _ & Heq)%Hks. by apply (sstable_key_not_manifest env id).
  - eapply mem_ok_weaken; [|apply (mem_ok_same e); [done | | done | exact Hm]]; [lia|].
    intros id _. apply Hag, sstable_key_not_manifest.
  - destruct Hman as [[_ Hman]|[et' Hman]]; [|by apply (Hnew _ et')].
    eapply tables_ok_weaken; [| |apply (tables_ok_same (objs e)); [| |exact Htab]]; [lia | lia | | done].
    intros id _. apply Hag, sstable_key_not_manifest.
Qed.

(** ** The system with crashes *)

(** The steps of [LsmRefine.step], with what they do to the disk. A crash loses
    everything but the WAL file and the store, and the engine is opened again;
    the store may become available or unavailable at any time. *)
Inductive sstep : dsys -> dsys -> Prop :=
  | ss_write rows e e' r ph log g :
      batch_fits rows e -> wal_fits rows e -> sid e < U64_MAX ->
      ph = Idle \/ has_room rows e \/ appends rows e = false ->
      write_batch env rows e = (e', r) ->
      sstep (DSys (Sys e ph log) g)
            (DSys (Sys e' (write_phase ph r) (log_after rows e log))
               (set_frozen (froze (flush_begun r) e' (g_frozen g)) (set_tail (tail_after rows e (g_tail g)) g)))
  | ss_begin_flush e e' r log g :
      sid e < U64_MAX -> begin_flush env e = (e', r) ->
      sstep (DSys (Sys e Idle log) g)
            (DSys (Sys e' (flush_phase r) log) (set_frozen (froze r e' (g_frozen g)) g))
  | ss_finish_flush pf e s' r log g :
      table_fits (pf_entries pf) -> finish_flush pf (e_store e) = (s', r) ->
      sstep (DSys (Sys e (Flushing pf) log) g)
            (DSys (Sys (set_store s' e) (match r with Ok sst => Written pf sst | Err _ => Abandoned end) log) g)
  | ss_commit_flush pf sst e e' r log g :
      sid e < U64_MAX -> flush_in_range pf e ->
      commit_flush env pf sst e = (e', r) -> e_view e' <> e_view e ->
      sstep (DSys (Sys e (Written pf sst) log) g)
            (DSys (Sys e' (compact_phase r e') log) (truncated e' (set_flushed g)))
  | ss_commit_flush_failed pf sst e e' r log g :
      sid e < U64_MAX -> flush_in_range pf e ->
      commit_flush env pf sst e = (e', r) -> e_view e' = e_view e ->
      sstep (DSys (Sys e (Written pf sst) log) g) (DSys (Sys e' Abandoned log) (flushed_if_listed e e' g))
  | ss_begin_compact e e' r log g :
      sid e < U64_MAX -> begin_compact env e = (e', r) ->
      sstep (DSys (Sys e Idle log) g) (DSys (Sys e' (compact_phase r e') log) g)
  | ss_finish_compact pc c0 e s' r log g :
      (forall m, group_sstables (pc_sstables pc) [] = Ok m -> table_fits (merge_entries (pc_watermark pc) m)) ->
      finish_compact pc (e_store e) = (s', r) ->
      sstep (DSys (Sys e (Compacting pc c0) log) g)
            (DSys (Sys (set_store s' e) (match r with Ok sst => Merged pc sst c0 | Err _ => Idle end) log) g)
  | ss_commit_compact pc sst c0 e e' r log g :
      compact_in_range sst e -> commit_compact pc sst e = (e', r) ->
      sstep (DSys (Sys e (Merged pc sst c0) log) g) (DSys (Sys e' Idle log) g)
  | ss_snapshot e ph log g :
      sstep (DSys (Sys e ph log) g) (DSys (Sys (fst (snapshot_now e)) ph log) g)
  | ss_release s e ph log g :
      sstep (DSys (Sys e ph log) g) (DSys (Sys (release_snapshot s e) ph log) g)
  | ss_lease valid token e ph log g :
      sstep (DSys (Sys e ph log) g) (DSys (Sys (set_lease valid token e) ph log) g)
  | ss_wal_faults faults e ph log g :
      sstep (DSys (Sys e ph log) g) (DSys (Sys (set_wal_faults faults e) ph log) g)
  | ss_store s' e ph log g :
      os_wf s' -> os_objects s' = objs e ->
      sstep (DSys (Sys e ph log) g) (DSys (Sys (set_store s' e) ph log) g)
  | ss_crash e ph log g s' e' valid token :
      g_tail g <> Lost -> up (e_store e) ->
      lsm_open env (read_all_bytes (ws_wal (e_write e))) (e_store e) valid token = (s', Some (Ok e')) ->
      sstep (DSys (Sys e ph log) g) (DSys (Sys e' Idle (survivors g log)) (reopened g log)).

Definition fresh (s : S) (valid : bool) (token : Z) : dsys :=
  DSys (Sys (fresh_engine s valid token) Idle []) (Ghost 0 0 0 Clean).

Definition dreachable (d : dsys) : Prop :=
  exists s valid token, os_wf s /\ os_objects s !! MANIFEST_KEY = None /\ rtc sstep (fresh s valid token) d.

Lemma fresh_dinv (s : S) (valid : bool) (token : Z) :
  os_wf s -> os_objects s !! MANIFEST_KEY = None -> dinv (fresh s valid token).
Proof.
  intros Hwf Hnone. pose proof (empty_inv_at MEMTABLE_MAX_SIZE s valid token) as Hinv.
  split; simpl; [done | unfold U64_MAX; lia | done | | |].
  - split; simpl; [done | constructor | constructor | constructor].
  - exists [], 0, 0, []. split_and!; [|constructor|constructor|done..].
    split; [|constructor|constructor]. unfold listed. by rewrite Hnone.
  - intros _. exists []. split_and!; try done. split; [constructor | | done].
    intros x. change (wal_entries []) with (mt_to_entries (mt_new MEMTABLE_MAX_SIZE)). rewrite mt_new_entries. simpl. tauto.
Qed.

(** Steps that change neither the file, the tables nor the objects. *)
Lemma dinv_same (e e' : engine) (ph : phase) (log : list entry) (g : ghost) :
  inv_at (g_frozen g) (Sys e' ph log) -> os_wf (e_store e') -> objs e' = objs e ->
  io_file (wal_io (ws_wal (e_write e'))) = io_file (wal_io (ws_wal (e_write e))) ->
  io_offset (wal_io (ws_wal (e_write e'))) = io_offset (wal_io (ws_wal (e_write e))) ->
  next_seq e' = next_seq e -> e_view e' = e_view e -> sid e' = sid e ->
  dinv (DSys (Sys e ph log) g) -> dinv (DSys (Sys e' ph log) g).
Proof.
  intros Hinv Hwf H1 H2 H3 H4 H5 H6 [_ Hsid Hph Hm Htab Hw]. simpl in *.
  assert (id_bound e' ph = id_bound e ph) as Hib by (destruct ph; simpl; congruence).
  split; simpl; rewrite ?Hib, ?H6, ?H1, ?H4; try done.
  - destruct ph; simpl in *; rewrite ?H1, ?H6; done.
  - apply (mem_ok_same e); [done | by intros; rewrite H1 | by rewrite H5 | done].
  - unfold wal_ok, read_all_bytes in *. by rewrite H2, H3.
Qed.

Lemma sstep_dinv (d d' : dsys) : sstep d d' -> dinv d -> dinv d'.
Proof.
  intros Hstep Hd. pose proof (mo_wf _ _ (dv_mem _ Hd)) as Hwf. pose proof (dv_inv _ Hd) as Hinv.
  destruct Hstep as
    [rows e e' r ph log g Hfit Hwal Hlt Hph Hw | e e' r log g Hlt Hb | pf e s' r log g Hfit Hf
    | pf sst e e' r log g Hlt Hr Hc Hv | pf sst e e' r log g Hlt Hr Hc Hv | e e' r log g Hlt Hb
    | pc c0 e s' r log g Hfit Hf | pc sst c0 e e' r log g Hr Hc | e ph log g | s e ph log g
    | valid token e ph log g | faults e ph log g | s' e ph log g Hwf' Ho
    | e ph log g s' e' valid token Hl Hup Hopen]; simpl in *.
  - by eapply write_batch_dinv.
  - by eapply begin_flush_dinv.
  - by eapply finish_flush_dinv.
  - by eapply commit_flush_dinv in Hc as [[? _]|[_ ?]].
  - by eapply commit_flush_dinv in Hc as [[_ ?]|[? _]].
  - by eapply begin_compact_dinv.
  - by eapply finish_compact_dinv.
  - by eapply commit_compact_dinv.
  - eapply (dinv_same e); try done. by apply snapshot_inv_at.
  - pose proof (release_inv_at s _ _ _ _ Hinv) as Hri. unfold release_snapshot in *.
    destruct (om_get s _); [by eapply (dinv_same e) | done].
  - eapply (dinv_same e); try done. by apply (inv_same_clock e).
  - eapply (dinv_same e); try done. by apply (inv_same_clock e).
  - eapply (dinv_same e); try done. by apply (inv_same_clock e).
  - destruct (dinv_recovers (Sys e ph log) g valid token Hd Hl Hup) as (s1 & e1 & Hopen' & _ & Hd').
    simpl in Hopen'. rewrite Hopen in Hopen'. by injection Hopen' as <- <-.
Qed.

Lemma dreachable_dinv (d : dsys) : dreachable d -> dinv d.
Proof.
  intros (s & valid & token & Hwf & Hnone & Hst). pose proof (fresh_dinv s valid token Hwf Hnone) as Hd.
  revert Hd. generalize (fresh s valid token) Hst. intros y0 Hst'. induction Hst'; eauto using sstep_dinv.
Qed.

(** C1. Durable refinement. The process may crash at any point and reopen any
    number of times: in the middle of an append to the WAL or of a truncation,
    between and during the parts of a flush or compaction, with store and WAL
    failures before, and with batches written while a flush is under way. Reads
    and scans at every live snapshot are then those of the log, which every
    batch that the WAL took has extended, and of which a crash has taken nothing
    but [survivors] says: the batches acknowledged between the begin of the last
    flush that reached the manifest and its truncation of the WAL, until a later
    flush; a batch whose append failed behind its last byte reappears. The runs
    are those with one flush or compaction at a time, none behind an abandoned
    flush, without a crash while the WAL continues behind bytes of a failed
    append, and in which the store answers the reads of an [open]; batches name
    no key twice, and batches, tables and counters fit their formats and what
    the allocator grants. *)
Theorem lsm_survives_crashes (d : dsys) (s : Z) :
  dreachable d -> live (y_engine (d_sys d)) s ->
  (forall k, read_at k s (y_engine (d_sys d)) = Ok (look (y_log (d_sys d)) k s))
  /\ exists kvs, scan_at s (y_engine (d_sys d)) = Ok kvs /\ om_sorted kvs
     /\ forall k x, In (k, x) kvs <-> look (y_log (d_sys d)) k s = Some x.
Proof. intros Hr. apply inv_reads. eexists. by apply dv_inv, dreachable_dinv. Qed.

(** C6. Recovery succeeds. At every point of the runs of [sstep] at which the
    WAL does not continue behind bytes of a failed append, and whenever the store
    answers reads, [open] on what a crash leaves behind neither fails nor aborts.
    It returns an engine whose next commit number is above every version that
    survived and not above the one the crashed engine would have issued, and
    which reads, at every snapshot from its current one up, what survived. *)
Theorem lsm_recovery_succeeds (y : sys) (g : ghost) (valid : bool) (token : Z) :
  dreachable (DSys y g) -> g_tail g <> Lost -> up (e_store (y_engine y)) ->
  exists s' e',
    lsm_open env (read_all_bytes (ws_wal (e_write (y_engine y)))) (e_store (y_engine y)) valid token
      = (s', Some (Ok e'))
    /\ next_seq e' <= next_seq (y_engine y)
    /\ (forall x, In x (survivors g (y_log y)) -> eseq x < next_seq e')
    /\ forall k s, current_seq e' <= s -> read_at k s e' = Ok (look (survivors g (y_log y)) k s).
Proof.
  intros Hr%dreachable_dinv Hl Hup. destruct (dinv_recovers y g valid token Hr Hl Hup) as (s' & e' & Hopen & Hn & Hd).
  exists s', e'. pose proof (dv_inv _ Hd) as Hinv. simpl in Hinv. split_and!; [done | done | |].
  - intros x Hx%(ia_log _ _ Hinv). simpl in Hx. lia.
  - intros k s Hs. by apply (inv_reads (Sys e' Idle (survivors g (y_log y)))); [eexists | left].
Qed.



End Recover.

(** ** A run on the filesystem store *)
Section Demo.

#[local] Existing Instance demo_sha.

Lemma path_for_app (s t : string) : path_for (s ++ t)%string = (path_for s ++ path_for t)%string.
Proof. induction s as [|c s IH]; [done|]. exact (f_equal (String _) IH). Qed.

Lemma path_for_digits (base : Z) (n : nat) (z : Z) :
  2 <= base <= 16 -> path_for (digits base n z) = digits base n z.
Proof.
  intros Hb. induction n as [|n IH]; [done|]. cbn [digits path_for]. f_equal; [|done].
  pose proof (Z.mod_pos_bound (z / base ^ Z.of_nat n) base ltac:(lia)) as Hd.
  destruct (Ascii.eqb_spec (digit (z / base ^ Z.of_nat n mod base)) ch_backslash) as [H|]; [|done].
  apply (f_equal N_of_ascii) in H. unfold digit in H. rewrite N_ascii_embedding in H.
  - change (N_of_ascii ch_backslash) with 92%N in H. case_match; lia.
  - case_match; lia.
Qed.

Lemma path_for_shard (env : Env) (id : Z) : path_for (sst_shard env id) = sst_shard env id.
Proof.
  unfold sst_shard. case_match; [done|]. rewrite path_for_app, path_for_digits by lia. done.
Qed.

Lemma demo_manifest_key_ok : os_key_ok (S := LocalFs) MANIFEST_KEY.
Proof. done. Qed.

Lemma demo_sstable_key_ok (id : Z) : os_key_ok (S := LocalFs) (sstable_key demo_env id).
Proof.
  change (fs_key_ok (sstable_key demo_env id)). unfold fs_key_ok, sstable_key. rewrite !path_for_app, path_for_shard, path_for_digits by lia. done.
Qed.

Lemma demo_wal_key_ok (id : Z) : os_key_ok (S := LocalFs) (wal_segment_key demo_env id).
Proof.
  change (fs_key_ok (wal_segment_key demo_env id)). unfold fs_key_ok, wal_segment_key. rewrite !path_for_app, path_for_shard, path_for_digits by lia. done.
Qed.

(** The store answers reads when no system call is due to fail. *)
Definition fs_up (s : LocalFs) : Prop := fs_faults s = [].

Lemma fs_up_get (k : string) (s : LocalFs) :
  os_wf s -> fs_up s -> exists s' o, os_get k s = (s', Ok o) /\ fs_up s'.
Proof.
  change (os_get k s) with (fs_get k s). unfold fs_up, fs_get, fs_call. intros _ H. rewrite H. case_match; eauto.
Qed.

Abbreviation demo_sys := (@sys list_skipmap demo_bloom LocalFs).
Abbreviation demo_dsys := (@dsys list_skipmap demo_bloom LocalFs).
Abbreviation demo_sstep := (@sstep list_skipmap demo_bloom LocalFs _ _ _ _ _ _ demo_env fs_up).
Abbreviation demo_dreachable := (@dreachable list_skipmap demo_bloom LocalFs _ _ _ _ _ _ demo_env fs_up).

(** Boolean checks of the side conditions, to be evaluated. *)
Definition entry_fits (e : entry) : bool :=
  (zlen (ekey e) <? 2 ^ 32) && (zlen (snd e) <? 2 ^ 32) && (0 <=? eseq e) && (eseq e <? 2 ^ 64).

Definition fits_check (es : list entry) : bool :=
  (zlen es <? 2 ^ 32) && forallb entry_fits es && (zlen (bloom_bitmap (table_bloom es)) <? 2 ^ 32)
  && (zlen (build_bytes es) <? 2 ^ 64).

Lemma fits_check_sound (es : list entry) : fits_check es = true -> table_fits es.
Proof.
  unfold fits_check. rewrite !andb_true_iff, !Z.ltb_lt, forallb_forall. intros [[[H1 H2] H3] H4].
  split; [done | | done | done]. apply Forall_forall. intros e He%list_elem_of_In%H2.
  unfold entry_fits in He. rewrite !andb_true_iff, !Z.ltb_lt, Z.leb_le in He. unfold is_u64. tauto.
Qed.

Definition manifest_check (m : Manifest) : bool :=
  forallb (fun z => (0 <=? z) && (z <? 2 ^ 64))
    (zlen (sstable_ids m) :: wal_segment_seq m :: writer_fencing_token m :: max_commit_seq m
       :: sstable_ids m).

Lemma manifest_check_sound (m : Manifest) : manifest_check m = true -> bc_in_range m.
Proof.
  intros H. apply Forall_forall. intros z Hz%list_elem_of_In.
  pose proof (proj1 (forallb_forall _ _) H z Hz) as Hb. simpl in Hb.
  rewrite andb_true_iff, Z.leb_le, Z.ltb_lt in Hb. exact Hb.
Qed.


(** The steps as functions. *)
Definition d_engine (d : demo_dsys) : @LsmEngine list_skipmap demo_bloom LocalFs := y_engine (d_sys d).

Definition drun_write (rows : list batch_row) (d : demo_dsys) : demo_dsys :=
  let '(DSys (Sys e ph log) g) := d in
  let '(e', r) := write_batch demo_env rows e in
  DSys (Sys e' (write_phase ph r) (log_after rows e log))
    (set_frozen (froze (flush_begun r) e' (g_frozen g)) (set_tail (tail_after rows e (g_tail g)) g)).

Definition drun_begin_flush (d : demo_dsys) : demo_dsys :=
  let '(DSys (Sys e _ log) g) := d in
  let '(e', r) := begin_flush demo_env e in
  DSys (Sys e' (flush_phase r) log) (set_frozen (froze r e' (g_frozen g)) g).

Definition drun_finish_flush (d : demo_dsys) : demo_dsys :=
  let '(DSys (Sys e ph log) g) := d in
  match ph with
  | Flushing pf =>
      let '(s', r) := finish_flush pf (e_store e) in
      DSys (Sys (set_store s' e) (match r with Ok sst => Written pf sst | Err _ => Abandoned end) log) g
  | _ => d
  end.

Definition drun_commit_flush (d : demo_dsys) : demo_dsys :=
  let '(DSys (Sys e ph log) g) := d in
  match ph with
  | Written pf sst =>
      let '(e', r) := commit_flush demo_env pf sst e in
      DSys (Sys e' (compact_phase r e') log) (truncated e' (set_flushed g))
  | _ => d
  end.

Definition drun_wal_faults (faults : list (option nat)) (d : demo_dsys) : demo_dsys :=
  let '(DSys (Sys e ph log) g) := d in DSys (Sys (set_wal_faults faults e) ph log) g.

Definition drun_crash (d : demo_dsys) : demo_dsys :=
  let '(DSys (Sys e _ log) g) := d in
  match lsm_open demo_env (read_all_bytes (ws_wal (e_write e))) (e_store e) true 2 with
  | (_, Some (Ok e')) => DSys (Sys e' Idle (survivors g log)) (reopened g log)
  | _ => d
  end.

(** What the steps ask for, evaluated. *)
Definition write_check (d : demo_dsys) : bool :=
  (ws_sstable_id (e_write (d_engine d)) <? U64_MAX)
  && (1 <=? ws_next_commit_seq (e_write (d_engine d))) && (ws_next_commit_seq (e_write (d_engine d)) <? U64_MAX).

Definition idle_check (d : demo_dsys) : bool :=
  (ws_sstable_id (e_write (d_engine d)) <? U64_MAX) && match y_phase (d_sys d) with Idle => true | _ => false end.

Definition flush_check (d : demo_dsys) : bool :=
  match y_phase (d_sys d) with Flushing pf => fits_check (pf_entries pf) | _ => false end.

Definition commit_check (d : demo_dsys) : bool :=
  (ws_sstable_id (e_write (d_engine d)) <? U64_MAX)
  && match y_phase (d_sys d) with
     | Written pf sst =>
         manifest_check (manifest_for (map sst_id (v_sstables (e_view (d_engine d))) ++ [pf_sstable_id pf])
                           (ws_wal_seg_id (e_write (d_engine d))) (d_engine d))
         && match snd (commit_flush demo_env pf sst (d_engine d)) with Ok _ => true | Err _ => false end
     | _ => false
     end.

Definition crash_check (d : demo_dsys) : bool :=
  match g_tail (d_ghost d) with Lost => false | _ => true end
  && match fs_faults (e_store (d_engine d)) with [] => true | _ => false end
  && match snd (lsm_open demo_env (read_all_bytes (ws_wal (e_write (d_engine d)))) (e_store (d_engine d)) true 2) with
     | Some (Ok _) => true
     | _ => false
     end.

Lemma demo_row_wal (k v : byte) (c : Z) : is_u64 c -> batch_ok (c, map wal_entry_of [row_put k v]).
Proof.
  intros Hc. split; [exact Hc|]. split; [done|]. split; [|done]. constructor; [|constructor].
  split_and!; by vm_compute.
Qed.

Lemma drun_write_sstep (k v : byte) (d : demo_dsys) :
  write_check d = true -> has_room [row_put k v] (d_engine d) -> demo_sstep d (drun_write [row_put k v] d).
Proof.
  destruct d as [[e ph log] g]. unfold write_check, d_engine. cbn [d_sys y_engine].
  rewrite !andb_true_iff, !Z.ltb_lt, Z.leb_le. intros [[Hsid Hn1] Hn2] Hroom. unfold drun_write.
  destruct (write_batch demo_env [row_put k v] e) as [e' r] eqn:E.
  apply ss_write; [| | done | right; by left | done].
  - split; [lia | by repeat constructor; simpl; auto].
  - apply demo_row_wal. unfold is_u64, U64_MAX in *. lia.
Qed.

Lemma drun_begin_flush_sstep (d : demo_dsys) : idle_check d = true -> demo_sstep d (drun_begin_flush d).
Proof.
  destruct d as [[e ph log] g]. unfold idle_check, d_engine. cbn [d_sys y_engine y_phase].
  rewrite andb_true_iff, Z.ltb_lt. intros [Hsid Hph]. destruct ph; try done. unfold drun_begin_flush.
  destruct (begin_flush demo_env e) as [e' r] eqn:E. by apply ss_begin_flush.
Qed.

Lemma drun_finish_flush_sstep (d : demo_dsys) : flush_check d = true -> demo_sstep d (drun_finish_flush d).
Proof.
  destruct d as [[e ph log] g]. unfold flush_check. cbn [d_sys y_phase]. intros Hc. destruct ph; try done.
  unfold drun_finish_flush. destruct (finish_flush pf (e_store e)) as [s' r] eqn:E.
  apply ss_finish_flush; [by apply fits_check_sound | done].
Qed.

Lemma drun_commit_flush_sstep (d : demo_dsys) : commit_check d = true -> demo_sstep d (drun_commit_flush d).
Proof.
  destruct d as [[e ph log] g]. unfold commit_check, d_engine. cbn [d_sys y_engine y_phase].
  rewrite andb_true_iff, Z.ltb_lt. intros [Hsid Hc]. destruct ph; try done.
  apply andb_true_iff in Hc as [Hm Hc]. unfold drun_commit_flush.
  destruct (commit_flush demo_env pf sst e) as [e' [pc|err]] eqn:E; [|done].
  apply (ss_commit_flush demo_env fs_up pf sst e e' (Ok pc)); [done | by apply manifest_check_sound | done |].
  by eapply commit_flush_ok_view.
Qed.

Lemma drun_wal_faults_sstep (faults : list (option nat)) (d : demo_dsys) : demo_sstep d (drun_wal_faults faults d).
Proof. destruct d as [[e ph log] g]. apply ss_wal_faults. Qed.

Lemma drun_crash_sstep (d : demo_dsys) : crash_check d = true -> demo_sstep d (drun_crash d).
Proof.
  destruct d as [[e ph log] g]. unfold crash_check, d_engine. cbn [d_sys d_ghost y_engine].
  rewrite !andb_true_iff. intros [[Ht Hf] Ho]. unfold drun_crash.
  destruct (lsm_open demo_env _ _ true 2) as [s' [[e'|err]|]] eqn:E; try done.
  eapply ss_crash; [by destruct (g_tail g) | by unfold fs_up; destruct (fs_faults (e_store e)) | exact E].
Qed.

(** A put, a flush of it, and another put while the flush is under way; the
    commit of the flush; a third put whose append stops after 20 bytes; a crash. *)
Definition run0 : demo_dsys := fresh (mkLocalFs ∅ []) true 1.
Definition run1 : demo_dsys := drun_begin_flush (drun_write [row_put Byte.x61 Byte.x31] run0).
Definition run2 : demo_dsys := drun_finish_flush (drun_write [row_put Byte.x62 Byte.x32] run1).
Definition run3 : demo_dsys := drun_commit_flush run2.
Definition run4 : demo_dsys := drun_write [row_put Byte.x63 Byte.x33] (drun_wal_faults [Some 20%nat] run3).
Definition run5 : demo_dsys := drun_crash run4.

Lemma run2_dreachable : demo_dreachable run2.
Proof.
  exists (mkLocalFs ∅ []), true, 1. split_and!; [done | done |].
  eapply rtc_l; [apply (drun_write_sstep Byte.x61 Byte.x31); vm_compute; reflexivity|].
  eapply rtc_l; [apply drun_begin_flush_sstep; vm_compute; reflexivity|].
  eapply rtc_l; [apply (drun_write_sstep Byte.x62 Byte.x32); vm_compute; reflexivity|].
  apply rtc_once, drun_finish_flush_sstep. vm_compute; reflexivity.
Qed.

Lemma run5_dreachable : demo_dreachable run5.
Proof.
  destruct run2_dreachable as (s & v & t & H1 & H2 & H3). exists s, v, t. split_and!; [done | done |].
  etrans; [exact H3|]. eapply rtc_l; [apply drun_commit_flush_sstep; vm_compute; reflexivity|].
  eapply rtc_l; [apply (drun_wal_faults_sstep [Some 20%nat])|].
  eapply rtc_l; [apply (drun_write_sstep Byte.x63 Byte.x33); vm_compute; reflexivity|].
  apply rtc_once, drun_crash_sstep. vm_compute; reflexivity.
Qed.

(** The first put is in the table; the second is lost, as it was written during
    the flush; the third was refused and is not there. *)
Lemma lsm_survives_crashes_witness :
  read_at [Byte.x61] 4 (d_engine run5) = Ok (Some [Byte.x31])
  /\ read_at [Byte.x62] 4 (d_engine run5) = Ok None
  /\ read_at [Byte.x63] 4 (d_engine run5) = Ok None.
Proof.
  destruct (lsm_survives_crashes demo_env demo_manifest_key_ok demo_sstable_key_ok demo_wal_key_ok fs_up fs_up_get
              run5 4 run5_dreachable) as [H _]; [left; by vm_compute|].
  unfold d_engine. rewrite !H. vm_compute. done.
Defined.

(** A crash between the upload of the table and the commit of the flush. *)
Lemma lsm_recovery_succeeds_witness :
  exists s' e',
    lsm_open demo_env (read_all_bytes (ws_wal (e_write (d_engine run2)))) (e_store (d_engine run2)) true 2
      = (s', Some (Ok e'))
    /\ read_at [Byte.x61] U64_MAX e' = Ok (Some [Byte.x31]) /\ read_at [Byte.x62] U64_MAX e' = Ok (Some [Byte.x32]).
Proof.
  destruct (lsm_recovery_succeeds demo_env demo_manifest_key_ok demo_sstable_key_ok demo_wal_key_ok fs_up fs_up_get
              (d_sys run2) (d_ghost run2) true 2) as (s' & e' & Hopen & Hn & _ & Hread).
  - exact run2_dreachable.
  - vm_compute. discriminate.
  - vm_compute. reflexivity.
  - exists s', e'. split; [exact Hopen|].
    assert (current_seq e' <= U64_MAX) as Hc.
    { unfold current_seq, u64_sub, U64_MAX. pose proof (Z.mod_pos_bound (ws_next_commit_seq (e_write e') - 1) (2 ^ 64)). lia. }
    rewrite !Hread by done. vm_compute. done.
Defined.


End Demo.
