(* ===== verification/LsmReplica.v ===== *)
(** Reader nodes: [LsmEngine::refresh] ([storage/lsm.rs]) brings a replica's
    table list to the one the manifest lists, fetching what is missing and
    dropping what was compacted away. *)

From Stdlib Require Import Strings.Byte Strings.String Sorted ZArith Lia.
From stdpp Require Import base list gmap strings sorting relations.
From S2P Require Import Prelude OrdMap InternalKey Versions Utf8 Wal SSTable ObjectStore Manifest Lsm LsmRead LsmCompact LsmRefine LsmRecover.

Open Scope Z_scope.

Section Refresh.
  Context {sk : SkipMap} {sk_laws : SkipMapLaws} {bl : Bloom} {bl_laws : BloomLaws}.
  Context {S : Type} {st : ObjectStore S} {st_laws : StoreLaws S}.
  Context {bc : Bincode Manifest} {bc0 : Bincode ManifestV0} {bc_laws : BincodeLaws Manifest}.
  Context (env : Env).
Hypothesis manifest_key_ok : os_key_ok MANIFEST_KEY.
Hypothesis sstable_key_ok : forall id, os_key_ok (sstable_key env id).
  Context (up : S -> Prop).
Hypothesis up_get : forall k s, os_wf s -> up s -> exists s' o, os_get k s = (s', Ok o) /\ up s'.

Abbreviation engine := (@LsmEngine sk bl S).

Definition known_in (ids : list Z) (t : SSTable) : bool := existsb (Z.eqb (sst_id t)) ids.

Lemma known_in_true (ids : list Z) (t : SSTable) : known_in ids t = true <-> In (sst_id t) ids.
Proof.
  unfold known_in. rewrite existsb_exists. split.
  - intros (x & Hin & Heq%Z.eqb_eq). by rewrite Heq.
  - intros Hin. exists (sst_id t). by rewrite Z.eqb_refl.
Qed.

Lemma fetch_missing_all (ts : list SSTable) (known : list Z) (s : S) :
  os_wf s -> up s -> Forall (table_at env (os_objects s)) ts ->
  exists s', fetch_missing env (map sst_id ts) known s
             = (s', Ok (List.filter (fun t => negb (known_in known t)) ts)).
Proof.
  intros Hwf Hup Hts. revert s Hwf Hup Hts.
  induction ts as [|t ts IH]; intros s Hwf Hup Hts; simpl; [by eexists|].
  apply Forall_cons in Hts as [(Hk & data & et & Hobj & Hdec) Hts'].
  fold (known_in known t). destruct (known_in known t); simpl; [by apply IH|].
  rewrite <- Hk. unfold open_from_store.
  destruct (up_get (sst_key t) s Hwf Hup) as (s1 & o & Hget & Hup1).
  rewrite Hget. apply os_get_law in Hget as (Hwf1 & Hobj1 & Ho); [|done|by rewrite Hk].
  specialize (Ho _ eq_refl). rewrite Hobj in Ho. simpl in Ho. subst o. simpl. rewrite Hdec.
  destruct (IH s1 Hwf1 Hup1) as (s2 & ->); [by rewrite Hobj1 | by eexists].
Qed.

Lemma sorted_ids_NoDup (ts : list SSTable) :
  StronglySorted Z.lt (map sst_id ts) ->
  NoDup ts /\ forall t t', In t ts -> In t' ts -> sst_id t = sst_id t' -> t = t'.
Proof.
  induction ts as [|t ts IH]; simpl; intros Hs; [split; [constructor | done]|].
  apply StronglySorted_inv in Hs as [Hs Hall]. destruct (IH Hs) as [Hnd Hinj].
  assert (forall x, In x ts -> sst_id t < sst_id x) as Hlt.
  { intros x Hx. rewrite Forall_forall in Hall. apply Hall, list_elem_of_In, in_map. done. }
  split.
  - constructor; [|done]. intros Hin%list_elem_of_In%Hlt. lia.
  - intros a b [<-|Ha] [<-|Hb] Heq; auto; [apply Hlt in Hb | apply Hlt in Ha]; lia.
Qed.

(** The list [refresh] installs: the listed tables it has, then the fetched ones, by id. *)
Lemma refreshed_tables (mine ts : list SSTable) :
  StronglySorted Z.lt (map sst_id ts) -> NoDup mine ->
  (forall t t', In t mine -> In t' ts -> sst_id t = sst_id t' -> t = t') ->
  sort_by (fun a b => sst_id a <=? sst_id b)
    (List.filter (known_in (map sst_id ts)) mine
     ++ List.filter (fun t => negb (known_in (map sst_id mine) t)) ts) = ts.
Proof.
  intros Hs Hnd Hsame. destruct (sorted_ids_NoDup ts Hs) as [Hndt Hinj].
  assert (forall t, In t mine -> In (sst_id t) (map sst_id ts) -> In t ts) as Hkeep.
  { intros t Hin (t' & Heq & Hin')%in_map_iff. by rewrite (Hsame t t'). }
  set (l := _ ++ _). assert (l ≡ₚ ts) as Hperm.
  { apply NoDup_Permutation; [|done|].
    - apply NoDup_app. split_and!; [by apply NoDup_ListNoDup, List.NoDup_filter, NoDup_ListNoDup | |].
      + intros t [Hm _]%list_elem_of_In%filter_In [_ Hk]%list_elem_of_In%filter_In.
        apply negb_true_iff, not_true_iff_false in Hk. apply Hk, known_in_true, in_map. done.
      + by apply NoDup_ListNoDup, List.NoDup_filter, NoDup_ListNoDup.
    - intros t. unfold l. rewrite elem_of_app, !list_elem_of_In, !filter_In, known_in_true. split.
      + intros [[Hm Hk]|[Ht _]]; auto.
      + intros Ht. destruct (known_in (map sst_id mine) t) eqn:E; [left|by right].
        apply known_in_true, in_map_iff in E as (t' & Heq & Hm).
        rewrite <- (Hsame t' t Hm Ht Heq). split; [done|]. rewrite Heq. by apply in_map. }
  apply (StronglySorted_unique_strong (fun a b => sst_id a <= sst_id b)).
  - intros x y Hx%list_elem_of_In Hy%list_elem_of_In H1 H2. apply Hinj; [|done|lia].
    rewrite sort_by_In in Hx. apply list_elem_of_In. rewrite <- Hperm. by apply list_elem_of_In.
  - eapply StronglySorted_weaken; [|apply (sort_by_sorted (fun a b => sst_id a <=? sst_id b))];
      [intros a b | intros a b | intros a b c]; cbn beta; rewrite ?Z.leb_le; lia.
  - clear -Hs. induction ts as [|t ts IH]; [constructor|]. simpl in Hs.
    apply StronglySorted_inv in Hs as [Hs Hall]. constructor; [by apply IH|].
    rewrite Forall_forall in Hall. apply Forall_forall. intros x Hx.
    assert (sst_id t < sst_id x); [|lia]. apply Hall, list_elem_of_In, in_map. by apply list_elem_of_In.
  - by rewrite sort_by_perm.
Qed.

(** A replica converges: when the store answers reads and the manifest is
    not the one the replica last saw, [refresh] installs exactly the tables the
    manifest lists, oldest first, keeps the memtables, and advances the
    replica's clock to the last commit the manifest records, so that it reads
    everything those tables hold. *)
Theorem lsm_refresh_converges (e : engine) (ts : list SSTable) (mx : Z) (ess : list (list entry)) :
  os_wf (e_store e) -> up (e_store e) -> store_ok env (os_objects (e_store e)) ts mx ->
  etag_of (os_objects (e_store e)) MANIFEST_KEY <> None ->
  etag_of (os_objects (e_store e)) MANIFEST_KEY <> ws_manifest_etag (e_write e) ->
  NoDup (v_sstables (e_view e)) ->
  (forall t t', In t (v_sstables (e_view e)) -> In t' ts -> sst_id t = sst_id t' -> t = t') ->
  mt_to_entries (v_memtable (e_view e)) = [] -> v_immutable (e_view e) = None ->
  Forall2 sst_rep ts ess -> 0 <= mx < U64_MAX -> 1 <= ws_next_commit_seq (e_write e) <= U64_MAX ->
  exists e' changed, refresh env e = (e', Ok changed)
    /\ v_sstables (e_view e') = ts
    /\ mx <= current_seq e'
    /\ forall k s, read_at k s e' = Ok (look (concat (reverse ess)) k s).
Proof.
  intros Hwf Hup [Hl Ht Hids] Hsome Hne Hnd Hsame Hmem Himm Hrep Hmx Hn.
  unfold refresh, manifest_load. destruct (up_get MANIFEST_KEY _ Hwf Hup) as (s1 & o & Hget & Hup1).
  rewrite Hget. apply os_get_law in Hget as (Hwf1 & Hobj1 & Ho); [|done|done].
  specialize (Ho _ eq_refl). unfold listed in Hl. unfold etag_of in Hsome, Hne.
  destruct (os_objects (e_store e) !! MANIFEST_KEY) as [[data et]|]; [|done].
  simpl in Ho. subst o. destruct Hl as (m & Hdec & Hm & Hmax). simpl. rewrite Hdec.
  rewrite bool_decide_eq_false_2 by exact Hne. rewrite Hm.
  destruct (fetch_missing_all ts (map sst_id (v_sstables (e_view e))) s1 Hwf1 Hup1) as (s2 & Hf);
    [by rewrite Hobj1|].
  simpl. rewrite Hf. do 2 eexists. split; [done|]. simpl.
  change (fun t => existsb (Z.eqb (sst_id t)) (map sst_id ts)) with (known_in (map sst_id ts)).
  rewrite (refreshed_tables _ _ Hids Hnd Hsame). split_and!; [done | |].
  - rewrite Hmax, u64_add_small by (unfold U64_MAX in *; lia).
    unfold current_seq; simpl. rewrite u64_sub_small; unfold is_u64, U64_MAX in *; lia.
  - intros k s. unfold read_at.
    rewrite (view_read_at_look _ ess); [|by split; simpl; [unfold mt_ok; rewrite Hmem; constructor
                                                | unfold imm_entries; simpl; rewrite Himm; constructor |]].
    unfold flat, imm_entries; simpl. by rewrite Hmem, Himm.
Qed.

End Refresh.

(** A replica of the store that [LsmRecover.run3] left: one table. *)
Section Demo.

#[local] Existing Instance demo_sha.

Definition demo_reader : @LsmEngine list_skipmap demo_bloom LocalFs :=
  fresh_engine (e_store (d_engine run3)) false 0.

Definition demo_tables : list SSTable := v_sstables (e_view (d_engine run3)).

Definition demo_table_entries : list entry := [(mkInternalKey [Byte.x61] 1 PUT_TAG, [Byte.x31])].

Definition demo_table_key : string := sstable_key demo_env 1.

Lemma demo_tables_decode :
  exists t, demo_tables = [t] /\ decode demo_table_key 1 (build_bytes demo_table_entries) = Ok t
    /\ os_objects (e_store demo_reader) !! demo_table_key
       = Some (build_bytes demo_table_entries, sha256_hex (build_bytes demo_table_entries)).
Proof. eexists. split_and!; vm_compute; reflexivity. Qed.

Lemma demo_listed : listed (os_objects (e_store demo_reader)) [1] 2.
Proof. vm_compute. eexists. split_and!; reflexivity. Qed.

Lemma lsm_refresh_converges_witness :
  exists e' changed, refresh demo_env demo_reader = (e', Ok changed)
    /\ read_at [Byte.x61] 1 e' = Ok (Some [Byte.x31]).
Proof.
  destruct demo_tables_decode as (t & _ & Hd & Ho).
  destruct (decode_id_key _ _ _ _ Hd) as [Hid Hkey].
  assert (fits_check demo_table_entries = true) as Hfit by (vm_compute; reflexivity).
  destruct (lsm_refresh_converges demo_env demo_manifest_key_ok demo_sstable_key_ok fs_up fs_up_get
              demo_reader [t] 2 [demo_table_entries]) as (e' & c & Hr & _ & _ & Hread).
  - exact I.
  - vm_compute; reflexivity.
  - revert Ho. pose proof demo_listed as Hl. revert Hl.
    generalize (os_objects (e_store demo_reader)). intros o Hl Ho.
    split; [cbn [map]; rewrite Hid; exact Hl | | repeat constructor].
    constructor; [|constructor]. split; [rewrite Hid; exact Hkey|].
    exists (build_bytes demo_table_entries), (sha256_hex (build_bytes demo_table_entries)).
    rewrite Hkey, Hid. split; [exact Ho | exact Hd].
  - vm_compute; discriminate.
  - vm_compute; discriminate.
  - constructor.
  - intros x x' [].
  - reflexivity.
  - reflexivity.
  - constructor; [|constructor].
    destruct (decode_rep demo_table_key 1 demo_table_entries) as (t' & Hd' & Hrep & _);
      [repeat constructor | by apply fits_check_sound |].
    rewrite Hd in Hd'. injection Hd' as ->. exact Hrep.
  - split; [lia | vm_compute; reflexivity].
  - split; [reflexivity | vm_compute; discriminate].
  - exists e', c. split; [exact Hr|]. rewrite Hread. vm_compute. reflexivity.
Defined.

End Demo.
