(* ===== verification/Lease.v ===== *)
(** [storage/lease.rs]: single-writer fencing by a lease object that is
    acquired and renewed with compare-and-swap.

    Clock reads are arguments ([now_ms] is called once for the expiry test and
    once for the new expiry). [try_acquire] is split where it talks to the
    store, so that other nodes' operations can run between its read and its
    conditional write; [system] lets any number of nodes interleave this way,
    with object store failures, and shows that fencing tokens stay unique. *)

From Stdlib Require Import Strings.Byte Strings.String ZArith Lia.
From stdpp Require Import base list gmap strings relations functions.
From S2P Require Import Prelude ObjectStore Manifest.

Open Scope Z_scope.

Record Lease := mkLease {
  holder_id : string;
  fencing_token : Z;
  expires_at_ms : Z;
}.

(** A node's [LeaseManager] with its [LeaseHandle]. *)
Record LeaseManager := mkLeaseManager {
  lm_key : string;
  lm_holder_id : string;
  lm_ttl_ms : Z;
  lm_token : Z;
  lm_valid : bool;
  lm_current_etag : option string;
}.

(** [LeaseManager::new] *)
Definition lease_manager_new (keyspace holder : string) (ttl_ms : Z) : LeaseManager :=
  mkLeaseManager ("_lease/" ++ keyspace) holder ttl_ms 0 false None.

Definition set_valid (b : bool) (m : LeaseManager) : LeaseManager :=
  mkLeaseManager (lm_key m) (lm_holder_id m) (lm_ttl_ms m) (lm_token m) b (lm_current_etag m).

Definition set_etag (e : string) (m : LeaseManager) : LeaseManager :=
  mkLeaseManager (lm_key m) (lm_holder_id m) (lm_ttl_ms m) (lm_token m) (lm_valid m) (Some e).

Definition acquired (token : Z) (e : string) (m : LeaseManager) : LeaseManager :=
  mkLeaseManager (lm_key m) (lm_holder_id m) (lm_ttl_ms m) token true (Some e).

Section Ops.
  Context {S : Type} {st : ObjectStore S} {bc : Bincode Lease}.

(** The first half of [try_acquire]: read the lease and decide the expected
    ETag and the next token, or fail. *)
Definition acquire_read (now : Z) (m : LeaseManager) (s : S)
    : S * LeaseManager * Result (option string * Z) :=
  match os_get (lm_key m) s with
  | (s, Err e) => (s, m, Err e)
  | (s, Ok None) => (s, m, Ok (None, 1))
  | (s, Ok (Some (data, meta))) =>
      match bc_deserialize data with
      | None => (s, m, Err "deserializing lease"%string)
      | Some existing =>
          let expired := expires_at_ms existing <? now in
          let ours_already := String.eqb (holder_id existing) (lm_holder_id m) in
          if negb expired && negb ours_already
          then (s, set_valid false m, Err "lease held by another node"%string)
          else (s, m, Ok (Some (etag meta), u64_add (fencing_token existing) 1))
      end
  end.

(** The second half: write the new lease if the ETag still matches. *)
Definition acquire_cas (now : Z) (expected_etag : option string) (next_token : Z)
    (m : LeaseManager) (s : S) : S * LeaseManager * Result unit :=
  let new_lease := mkLease (lm_holder_id m) next_token (u64_add now (lm_ttl_ms m)) in
  match os_put_if_match (lm_key m) (bc_serialize new_lease) expected_etag s with
  | (s, Ok meta) => (s, acquired next_token (etag meta) m, Ok tt)
  | (s, Err _) => (s, set_valid false m, Err "acquiring write lease"%string)
  end.

(** [LeaseManager::try_acquire] *)
Definition try_acquire (now1 now2 : Z) (m : LeaseManager) (s : S) : S * LeaseManager * Result unit :=
  match acquire_read now1 m s with
  | (s, m, Err e) => (s, m, Err e)
  | (s, m, Ok (expected_etag, next_token)) => acquire_cas now2 expected_etag next_token m s
  end.

(** [LeaseManager::renew] for a node that has an ETag. *)
Definition renew_cas (now : Z) (expected_etag : string) (m : LeaseManager) (s : S)
    : S * LeaseManager * Result unit :=
  let new_lease := mkLease (lm_holder_id m) (lm_token m) (u64_add now (lm_ttl_ms m)) in
  match os_put_if_match (lm_key m) (bc_serialize new_lease) (Some expected_etag) s with
  | (s, Ok meta) => (s, set_etag (etag meta) m, Ok tt)
  | (s, Err _) => (s, set_valid false m, Err "renewing write lease"%string)
  end.

Definition renew (now1 now2 : Z) (m : LeaseManager) (s : S) : S * LeaseManager * Result unit :=
  match lm_current_etag m with
  | None => try_acquire now1 now2 m s
  | Some expected_etag => renew_cas now1 expected_etag m s
  end.

Context {laws : StoreLaws S} {bcl : BincodeLaws Lease}.

(** The lease object in the store. *)
Definition stored_lease (objs : objects) (k : string) (l : Lease) : Prop :=
  exists e, objs !! k = Some (bc_serialize l, e).

(** A lease that another node holds and that has not expired is not taken
    over: the attempt fails, the node is marked invalid and the lease object is
    left as it was. *)
Theorem lease_active_is_refused (now1 now2 : Z) (m m' : LeaseManager) (s s' : S) (l : Lease) r :
  os_wf s -> os_key_ok (lm_key m) -> bc_in_range l ->
  stored_lease (os_objects s) (lm_key m) l ->
  holder_id l <> lm_holder_id m -> now1 <= expires_at_ms l ->
  try_acquire now1 now2 m s = (s', m', r) ->
  (exists err, r = Err err) /\ os_objects s' = os_objects s
  /\ (lm_valid m' = false \/ m' = m).
Proof.
  intros Hwf Hk Hl (e & Ho) Hh Hnow. unfold try_acquire, acquire_read.
  destruct (os_get (lm_key m) s) as [s1 [o|err]] eqn:E;
    apply os_get_law in E as (_ & Hobj & Hr); try done; [|intros [= <- <- <-]; by eauto].
  specialize (Hr _ eq_refl). rewrite Ho in Hr. simpl in Hr. subst o. simpl.
  rewrite bc_roundtrip by done. rewrite (proj2 (Z.ltb_ge _ _)) by lia.
  rewrite (proj2 (String.eqb_neq _ _)) by done. simpl. intros [= <- <- <-]. by eauto.
Qed.

(** A node whose lease was taken over cannot renew: once the lease object
    is not the revision the node last wrote, its renewal fails, the node is
    marked invalid, and the lease object is left as it was. *)
Theorem lease_lost_is_not_renewed (now1 now2 : Z) (m m' : LeaseManager) (s s' : S) (e : string) r :
  os_wf s -> os_key_ok (lm_key m) -> lm_current_etag m = Some e ->
  etag_of (os_objects s) (lm_key m) <> Some e ->
  renew now1 now2 m s = (s', m', r) ->
  (exists err, r = Err err) /\ lm_valid m' = false /\ os_objects s' = os_objects s.
Proof.
  intros Hwf Hk He Hne. unfold renew. rewrite He. unfold renew_cas.
  destruct (os_put_if_match _ _ _ s) as [s1 [meta|[cur|err]]] eqn:E;
    apply os_cas_law in E as [_ Hr]; try done; intros [= <- <- <-].
  - by destruct Hr.
  - destruct Hr as [Hr _]. by eauto.
  - destruct Hr as [Hr|[Hr _]]; [by eauto | done].
Qed.

(** A renewal that succeeds does not restore validity: a node that failed
    one renewal keeps extending its lease, which keeps every other node out,
    but stays fenced itself, since only an acquisition sets the flag and
    [renew] acquires only before the first one succeeded. *)
Theorem lease_renewal_does_not_restore_validity (now1 now2 : Z) (m m' : LeaseManager) (s s' : S) (e : string) :
  lm_current_etag m = Some e -> lm_valid m = false ->
  renew now1 now2 m s = (s', m', Ok tt) ->
  lm_valid m' = false /\ lm_current_etag m' <> None.
Proof.
  intros He Hv. unfold renew. rewrite He. unfold renew_cas.
  destruct (os_put_if_match _ _ _ s) as [s1 [meta|err]]; by intros [= <- <-].
Qed.

End Ops.

(** ** Many nodes *)

Section System.
  Context {S : Type} {st : ObjectStore S} {laws : StoreLaws S}.
  Context {bc : Bincode Lease} {bcl : BincodeLaws Lease}.
  Context (key : string) (holder : nat -> string) (digest : bytes -> string).

(** The key is legal; ETags are digests of the content that tell lease objects
    apart. *)
Hypothesis key_ok : os_key_ok key.
Hypothesis etag_content : forall s k d e, os_wf s -> os_objects s !! k = Some (d, e) -> e = digest d.
Hypothesis digest_inj : forall d d', digest d = digest d' -> d = d'.

(** A node: its manager, and the outcome of the first half of an acquisition
    whose second half is still to come. *)
Record node := mkNode { n_lm : LeaseManager; n_pending : option (option string * Z) }.

Abbreviation nodes := (nat -> node).

Definition lease_of (m : LeaseManager) (token now : Z) : Lease :=
  mkLease (lm_holder_id m) token (u64_add now (lm_ttl_ms m)).

Inductive lstep : S * nodes -> S * nodes -> Prop :=
  | l_read i now s n s' m' r :
      acquire_read now (n_lm (n i)) s = (s', m', r) ->
      lstep (s, n) (s', <[i := mkNode m' (match r with Ok p => Some p | Err _ => None end)]> n)
  (* [0 < token]: the 64-bit token has not wrapped around *)
  | l_cas i now expected token s n s' m' r :
      n_pending (n i) = Some (expected, token) -> 0 < token ->
      bc_in_range (lease_of (n_lm (n i)) token now) ->
      acquire_cas now expected token (n_lm (n i)) s = (s', m', r) ->
      lstep (s, n) (s', <[i := mkNode m' None]> n)
  | l_renew i now e s n s' m' r :
      lm_current_etag (n_lm (n i)) = Some e ->
      bc_in_range (lease_of (n_lm (n i)) (lm_token (n_lm (n i))) now) ->
      renew_cas now e (n_lm (n i)) s = (s', m', r) ->
      lstep (s, n) (s', <[i := mkNode m' (n_pending (n i))]> n).

(** The highest token issued so far, as the store records it. *)
Definition stored_token (s : S) (t : Z) : Prop :=
  match os_objects s !! key with
  | None => t = 0
  | Some (d, _) => exists l, d = bc_serialize l /\ bc_in_range l /\ fencing_token l = t /\ 0 < t < 2 ^ 64
  end.

Definition has_lease (m : LeaseManager) (e : string) : Prop :=
  exists l, bc_in_range l /\ e = digest (bc_serialize l)
    /\ fencing_token l = lm_token m /\ holder_id l = lm_holder_id m.

Record linv (s : S) (n : nodes) : Prop := {
  li_wf : os_wf s;
  li_key : forall i, lm_key (n_lm (n i)) = key;
  li_holder : forall i, lm_holder_id (n_lm (n i)) = holder i;
  li_stored : exists t, stored_token s t
    /\ forall i e, lm_current_etag (n_lm (n i)) = Some e -> 0 < lm_token (n_lm (n i)) <= t;
  li_lease : forall i e, lm_current_etag (n_lm (n i)) = Some e -> has_lease (n_lm (n i)) e;
  li_unique : forall i j ei ej, lm_current_etag (n_lm (n i)) = Some ei ->
    lm_current_etag (n_lm (n j)) = Some ej -> lm_token (n_lm (n i)) = lm_token (n_lm (n j)) -> i = j;
  li_pending : forall i x token, n_pending (n i) = Some (x, token) ->
    match x with
    | None => token = 1
    | Some e => exists l, bc_in_range l /\ e = digest (bc_serialize l)
                  /\ token = u64_add (fencing_token l) 1
    end;
}.

Lemma bc_inj (l l' : Lease) :
  bc_in_range l -> bc_in_range l' -> bc_serialize l = bc_serialize l' -> l = l'.
Proof. intros H1 H2 Heq. apply (f_equal bc_deserialize) in Heq. rewrite !bc_roundtrip in Heq by done. congruence. Qed.

(** A change of one node keeps the invariant when the node's own part holds
    again and the store's token is one it accounts for. *)
Lemma linv_update (s s' : S) (n : nodes) (i : nat) (x : node) (t t' : Z) :
  linv s n -> os_wf s' -> lm_key (n_lm x) = key -> lm_holder_id (n_lm x) = holder i ->
  stored_token s t -> stored_token s' t' -> t <= t' ->
  (forall e, lm_current_etag (n_lm x) = Some e -> 0 < lm_token (n_lm x) <= t' /\ has_lease (n_lm x) e) ->
  (forall e, lm_current_etag (n_lm x) = Some e ->
     lm_token (n_lm x) = lm_token (n_lm (n i)) /\ lm_current_etag (n_lm (n i)) <> None
     \/ t < lm_token (n_lm x)) ->
  (forall p, n_pending x = Some p -> n_pending (n i) = Some p \/
     match p with
     | (None, token) => token = 1
     | (Some e, token) => exists l, bc_in_range l /\ e = digest (bc_serialize l)
                            /\ token = u64_add (fencing_token l) 1
     end) ->
  linv s' (<[i := x]> n).
Proof.
  intros [Hwf Hk Hh (t0 & Ht0 & Htok) Hl Hu Hp] Hwf' Hxk Hxh Ht Ht' Hle Hown Hfresh Hpend.
  assert (t0 = t) as ->.
  { unfold stored_token in Ht0, Ht. destruct (os_objects s !! key) as [[d e]|]; [|congruence].
    destruct Ht0 as (l0 & -> & Hr0 & <- & _), Ht as (l1 & Heq & Hr1 & <- & _).
    by rewrite (bc_inj l0 l1 Hr0 Hr1 Heq). }
  assert (forall j, j <> i -> (<[i := x]> n) j = n j) as Hne by (intros; by apply fn_lookup_insert_ne).
  assert ((<[i := x]> n) i = x) as Heq by apply fn_lookup_insert.
  split; [done | | | | | |].
  - intros j. destruct (decide (j = i)) as [->|]; [by rewrite Heq | by rewrite Hne].
  - intros j. destruct (decide (j = i)) as [->|]; [by rewrite Heq | by rewrite Hne].
  - exists t'. split; [done|]. intros j e. destruct (decide (j = i)) as [->|Hj].
    + rewrite Heq. intros He. by apply Hown in He as [? _].
    + rewrite Hne by done. intros He. apply Htok in He. lia.
  - intros j e. destruct (decide (j = i)) as [->|Hj]; [rewrite Heq | rewrite Hne by done; by apply Hl].
    intros He. by apply Hown in He as [_ ?].
  - assert (forall j ej ex, j <> i -> lm_current_etag (n_lm (n j)) = Some ej ->
      lm_current_etag (n_lm x) = Some ex -> lm_token (n_lm x) = lm_token (n_lm (n j)) -> False) as Hxj.
    { intros j ej ex Hj Hej Hex Htk. destruct (Hfresh ex Hex) as [[H1 H2]|H1].
      - destruct (lm_current_etag (n_lm (n i))) as [ei|] eqn:Ei; [|done].
        apply Hj. eapply Hu; [exact Hej | exact Ei | congruence].
      - apply Htok in Hej. lia. }
    intros j k ej ek. destruct (decide (j = i)) as [->|Hj], (decide (k = i)) as [->|Hkk];
      rewrite ?Heq, ?Hne by done; intros He1 He2 Htk; try done.
    + exfalso. by eapply Hxj.
    + exfalso. eapply Hxj; [| | |symmetry]; done.
    + by eapply Hu.
  - intros j y token. destruct (decide (j = i)) as [->|Hj]; [rewrite Heq | rewrite Hne by done; apply Hp].
    intros Hpx. destruct (Hpend _ Hpx) as [Hold|Hnew]; [by apply (Hp i) | by destruct y].
Qed.

Lemma stored_token_new (s : S) (l : Lease) (e : string) :
  bc_in_range l -> 0 < fencing_token l < 2 ^ 64 -> os_objects s !! key = Some (bc_serialize l, e) ->
  stored_token s (fencing_token l).
Proof. intros Hr Ht Ho. unfold stored_token. rewrite Ho. by exists l. Qed.

Lemma read_keeps (s s' : S) (n : nodes) (i : nat) (now : Z) m' r :
  linv s n -> acquire_read now (n_lm (n i)) s = (s', m', r) ->
  linv s' (<[i := mkNode m' (match r with Ok p => Some p | Err _ => None end)]> n).
Proof.
  intros Hinv Hr. pose proof Hinv as [Hwf Hk Hh (t & Ht & Htok) Hl Hu Hp].
  unfold acquire_read in Hr. destruct (os_get (lm_key (n_lm (n i))) s) as [s1 o] eqn:E.
  rewrite Hk in E. apply os_get_law in E as (Hwf1 & Hobj & Ho); [|done|done].
  assert (stored_token s1 t) as Ht1 by (unfold stored_token; by rewrite Hobj).
  assert (forall m p, lm_key m = key -> lm_holder_id m = holder i ->
    lm_token m = lm_token (n_lm (n i)) -> lm_current_etag m = lm_current_etag (n_lm (n i)) ->
    (forall q, p = Some q -> match q with
     | (None, token) => token = 1
     | (Some e, token) => exists l, bc_in_range l /\ e = digest (bc_serialize l)
                            /\ token = u64_add (fencing_token l) 1 end) ->
    linv s1 (<[i := mkNode m p]> n)) as Hgo.
  { intros m p H1 H2 H3 H4 H5. apply (linv_update s s1 n i _ t t); simpl; try done.
    - intros e He. rewrite H4 in He. rewrite H3. split; [by eapply Htok|].
      destruct (Hl i e He) as (l & ? & ? & ? & ?). exists l. rewrite H2, <- (Hh i). by rewrite H3.
    - intros e He. rewrite H4 in He. left. rewrite H3. by rewrite He.
    - intros p' Hp'. right. by apply H5. }
  destruct o as [[[data meta]|]|err]; [| |injection Hr as <- <- <-; by apply Hgo].
  - specialize (Ho _ eq_refl). symmetry in Ho. apply fmap_Some in Ho as ([d e] & Hlk & Hm).
    injection Hm as -> ->. pose proof (etag_content _ _ _ _ Hwf Hlk) as ->.
    unfold stored_token in Ht. rewrite Hlk in Ht. destruct Ht as (l & -> & Hlr & _).
    rewrite bc_roundtrip in Hr by done. case_match; injection Hr as <- <- <-; apply Hgo; simpl; try done.
    intros q [= <-]. by exists l.
  - injection Hr as <- <- <-. apply Hgo; try done. by intros q [= <-].
Qed.

(** The node's own part, when only its validity flag changed. *)
Lemma own_part (s : S) (n : nodes) (i : nat) (b : bool) (t : Z) (e : string) :
  linv s n -> stored_token s t -> lm_current_etag (n_lm (n i)) = Some e ->
  0 < lm_token (n_lm (n i)) <= t /\ has_lease (set_valid b (n_lm (n i))) e.
Proof.
  intros [Hwf Hk Hh (t0 & Ht0 & Htok) Hl Hu Hp] Ht He. split; [|exact (Hl i e He)].
  assert (t0 = t) as <-; [|by eapply Htok].
  unfold stored_token in Ht0, Ht. destruct (os_objects s !! key) as [[d e']|]; [|congruence].
  destruct Ht0 as (l0 & -> & Hr0 & <- & _), Ht as (l1 & Heq & Hr1 & <- & _).
  by rewrite (bc_inj l0 l1 Hr0 Hr1 Heq).
Qed.

(** A node that failed: its flag is cleared, its pending read dropped or kept. *)
Lemma linv_invalidate (s s' : S) (n : nodes) (i : nat) p (t t' : Z) :
  linv s n -> os_wf s' -> stored_token s t -> stored_token s' t' -> t <= t' ->
  p = None \/ p = n_pending (n i) ->
  linv s' (<[i := mkNode (set_valid false (n_lm (n i))) p]> n).
Proof.
  intros Hinv Hwf' Ht Ht' Hle Hp.
  apply (linv_update s s' n i _ t t'); simpl; try done; try apply Hinv.
  - intros e He. destruct (own_part s n i false t e Hinv Ht He). split; [lia | done].
  - intros e He. left. by rewrite He.
  - intros q ->. destruct Hp as [|<-]; [done | by left].
Qed.

(** The token a pending acquisition writes is above the stored one, if the
    object it read is still there. *)
Lemma pending_token (s : S) (n : nodes) (i : nat) (expected : option string) (token t : Z) :
  linv s n -> stored_token s t -> n_pending (n i) = Some (expected, token) -> 0 < token ->
  etag_of (os_objects s) key = expected -> token = t + 1 /\ token < 2 ^ 64.
Proof.
  intros Hinv Ht Hp H0 Het. pose proof (li_pending _ _ Hinv i _ _ Hp) as Hx.
  unfold stored_token in Ht. unfold etag_of in Het.
  destruct (os_objects s !! key) as [[d e]|] eqn:Ho; simpl in Het; subst expected.
  - pose proof (etag_content _ _ _ _ (li_wf _ _ Hinv) Ho) as ->.
    destruct Ht as (l & -> & Hr & <- & Hb). destruct Hx as (l' & Hr' & Heq & ->).
    apply digest_inj in Heq. rewrite <- (bc_inj l l' Hr Hr' Heq) in *.
    unfold u64_add in *. destruct (decide (fencing_token l + 1 = 2 ^ 64)) as [He|He].
    + rewrite He in H0. by vm_compute in H0.
    + rewrite Z.mod_small in * by lia. lia.
  - subst. lia.
Qed.

Lemma cas_keeps (s s' : S) (n : nodes) (i : nat) (now token : Z) expected m' r :
  linv s n -> n_pending (n i) = Some (expected, token) -> 0 < token ->
  bc_in_range (lease_of (n_lm (n i)) token now) ->
  acquire_cas now expected token (n_lm (n i)) s = (s', m', r) ->
  linv s' (<[i := mkNode m' None]> n).
Proof.
  intros Hinv Hp H0 Hrg Hc. pose proof (li_stored _ _ Hinv) as (t & Ht & _).
  unfold acquire_cas in Hc. fold (lease_of (n_lm (n i)) token now) in Hc.
  set (L := lease_of (n_lm (n i)) token now) in *. rewrite (li_key _ _ Hinv) in Hc.
  destruct (os_put_if_match key (bc_serialize L) expected s) as [s1 o] eqn:E.
  apply os_cas_law in E as [Hwf1 Ho]; [|apply Hinv|done].
  assert (forall e, os_objects s1 = <[key := (bc_serialize L, e)]> (os_objects s) ->
            etag_of (os_objects s) key = expected -> stored_token s1 token /\ t < token) as Hnew.
  { intros e Hobj Het. destruct (pending_token _ _ _ _ _ _ Hinv Ht Hp H0 Het) as [-> Hlt].
    split; [|lia]. apply (stored_token_new s1 L e); [done | simpl; lia |]. by rewrite Hobj, lookup_insert_eq. }
  destruct o as [meta|[cur|err]]; injection Hc as <- <- <-.
  - destruct Ho as [Het Hobj]. destruct (Hnew _ Hobj Het) as [Ht1 Hlt].
    apply (linv_update s s1 n i _ t token); simpl; try done; try apply Hinv; [lia | |].
    + intros e [= <-]. split; [lia|]. exists L. split_and!; [done | | done | done].
      apply (etag_content s1 key); [done|]. by rewrite Hobj, lookup_insert_eq.
    + intros e _. by right.
  - destruct Ho as [Hobj _]. apply (linv_invalidate s s1 n i None t t); try done; [|by left].
    unfold stored_token. by rewrite Hobj.
  - destruct Ho as [Hobj|[Het [Hobj|(e & Hobj)]]].
    + apply (linv_invalidate s s1 n i None t t); try done; [|by left]. unfold stored_token. by rewrite Hobj.
    + apply (linv_invalidate s s1 n i None t t); try done; [|by left]. unfold stored_token. by rewrite Hobj.
    + destruct (Hnew _ Hobj Het). apply (linv_invalidate s s1 n i None t token); try done; [lia | by left].
Qed.

Lemma renew_keeps (s s' : S) (n : nodes) (i : nat) (now : Z) e m' r :
  linv s n -> lm_current_etag (n_lm (n i)) = Some e ->
  bc_in_range (lease_of (n_lm (n i)) (lm_token (n_lm (n i))) now) ->
  renew_cas now e (n_lm (n i)) s = (s', m', r) ->
  linv s' (<[i := mkNode m' (n_pending (n i))]> n).
Proof.
  intros Hinv He Hrg Hc. pose proof (li_stored _ _ Hinv) as (t & Ht & _).
  unfold renew_cas in Hc. fold (lease_of (n_lm (n i)) (lm_token (n_lm (n i))) now) in Hc.
  set (L := lease_of (n_lm (n i)) (lm_token (n_lm (n i))) now) in *. rewrite (li_key _ _ Hinv) in Hc.
  destruct (os_put_if_match key (bc_serialize L) (Some e) s) as [s1 o] eqn:E.
  apply os_cas_law in E as [Hwf1 Ho]; [|apply Hinv|done].
  assert (forall e', os_objects s1 = <[key := (bc_serialize L, e')]> (os_objects s) ->
            etag_of (os_objects s) key = Some e -> stored_token s1 t) as Hnew.
  { intros e' Hobj Het. destruct (li_lease _ _ Hinv i e He) as (l & Hlr & Hle & Hlt & _).
    unfold stored_token in Ht. unfold etag_of in Het.
    destruct (os_objects s !! key) as [[d e0]|] eqn:Hk; [|done]. injection Het as ->.
    destruct Ht as (l0 & -> & Hr0 & <- & Hb). pose proof (etag_content _ _ _ _ (li_wf _ _ Hinv) Hk) as He0.
    rewrite Hle in He0. apply digest_inj in He0. rewrite (bc_inj l l0 Hlr Hr0 He0) in Hlt. rewrite Hlt in *.
    apply (stored_token_new s1 L e'); [done | done |]. by rewrite Hobj, lookup_insert_eq. }
  destruct o as [meta|[cur|err]]; injection Hc as <- <- <-.
  - destruct Ho as [Het Hobj]. pose proof (Hnew _ Hobj Het) as Ht1.
    apply (linv_update s s1 n i _ t t); simpl; try done; try apply Hinv.
    + intros e1 [= <-]. destruct (own_part s n i false t e Hinv Ht He) as [Hb _]. split; [done|].
      exists L. split_and!; [done | | done | done].
      apply (etag_content s1 key); [done|]. by rewrite Hobj, lookup_insert_eq.
    + intros e1 _. left. by rewrite He.
    + intros p Hp. by left.
  - destruct Ho as [Hobj _]. apply (linv_invalidate s s1 n i _ t t); try done; [|by right].
    unfold stored_token. by rewrite Hobj.
  - destruct Ho as [Hobj|[Het [Hobj|(e' & Hobj)]]].
    + apply (linv_invalidate s s1 n i _ t t); try done; [|by right]. unfold stored_token. by rewrite Hobj.
    + apply (linv_invalidate s s1 n i _ t t); try done; [|by right]. unfold stored_token. by rewrite Hobj.
    + apply (linv_invalidate s s1 n i _ t t); try done; [by eapply Hnew | by right].
Qed.

(** Nodes that just started, on a store without a lease. *)
Definition fresh_nodes (n : nodes) : Prop :=
  forall i, exists ttl, n i = mkNode (mkLeaseManager key (holder i) ttl 0 false None) None.

Lemma fresh_linv (s : S) (n : nodes) :
  os_wf s -> os_objects s !! key = None -> fresh_nodes n -> linv s n.
Proof.
  intros Hwf Hnone Hf. split; [done | | | | | |].
  - intros i. by destruct (Hf i) as [ttl ->].
  - intros i. by destruct (Hf i) as [ttl ->].
  - exists 0. split; [unfold stored_token; by rewrite Hnone|]. intros i e. by destruct (Hf i) as [ttl ->].
  - intros i e. by destruct (Hf i) as [ttl ->].
  - intros i j ei ej. by destruct (Hf i) as [ttl ->].
  - intros i x token. by destruct (Hf i) as [ttl ->].
Qed.

Lemma lstep_linv (x y : S * nodes) : lstep x y -> linv (fst x) (snd x) -> linv (fst y) (snd y).
Proof.
  destruct 1; simpl; intros Hinv.
  - by eapply read_keeps.
  - by eapply cas_keeps.
  - by eapply renew_keeps.
Qed.

(** C7. Fencing tokens are unique: however the nodes' reads, conditional
    writes and renewals interleave, and whatever store calls fail, no two nodes
    that ever acquired the lease hold the same token, and the lease object's
    token is at least every token held. *)
Theorem lease_tokens_are_unique (s s' : S) (n n' : nodes) (i j : nat) (ei ej : string) :
  os_wf s -> os_objects s !! key = None -> fresh_nodes n -> rtc lstep (s, n) (s', n') ->
  lm_current_etag (n_lm (n' i)) = Some ei -> lm_current_etag (n_lm (n' j)) = Some ej -> i <> j ->
  lm_token (n_lm (n' i)) <> lm_token (n_lm (n' j))
  /\ exists t, stored_token s' t /\ lm_token (n_lm (n' i)) <= t /\ lm_token (n_lm (n' j)) <= t.
Proof.
  intros Hwf Hnone Hf Hst Hi Hj Hne.
  assert (linv s' n') as Hinv.
  { change (linv (fst (s', n')) (snd (s', n'))).
    assert (linv (fst (s, n)) (snd (s, n))) as H0 by by apply fresh_linv.
    induction Hst; eauto using lstep_linv. }
  split; [intros Heq; apply Hne; by eapply (li_unique _ _ Hinv)|].
  destruct (li_stored _ _ Hinv) as (t & Ht & Htok). exists t.
  pose proof (Htok i ei Hi). pose proof (Htok j ej Hj). split_and!; [done | lia | lia].
Qed.

End System.

(** ** Nodes on the filesystem store *)
Section Demo.

#[local] Existing Instance demo_sha.

(** Two eight-byte integers and the holder's bytes. *)
#[export] Instance demo_bincode_lease : Bincode Lease := {|
  bc_serialize l := u64_to_be (fencing_token l) ++ u64_to_be (expires_at_ms l)
                      ++ list_byte_of_string (holder_id l);
  bc_deserialize bs :=
    Some (mkLease (string_of_list_byte (drop 16 bs)) (from_be (take 8 bs)) (from_be (take 8 (drop 8 bs))));
|}.

#[export] Program Instance demo_bincode_lease_laws : BincodeLaws Lease := {|
  bc_in_range l := is_u64 (fencing_token l) /\ is_u64 (expires_at_ms l);
|}.
Next Obligation.
  intros [h t x] [Ht Hx]. cbn [fencing_token expires_at_ms] in Ht, Hx.
  assert (forall z, length (u64_to_be z) = 8%nat) as Hl by (intros; apply length_to_be).
  unfold bc_deserialize, bc_serialize, demo_bincode_lease. cbn [fencing_token expires_at_ms holder_id].
  replace (drop 16 (u64_to_be t ++ u64_to_be x ++ list_byte_of_string h)) with (list_byte_of_string h).
  - rewrite take_app_length', from_u64_to_be by done.
    rewrite (drop_app_length' (u64_to_be t)), take_app_length', from_u64_to_be by done.
    by rewrite string_of_list_byte_of_string.
  - rewrite (app_assoc (u64_to_be t)), drop_app_length'; [done|]. by rewrite length_app, !Hl.
Qed.

Abbreviation K := "_lease/db"%string.

Definition node_a : LeaseManager := lease_manager_new "db" "a" 10.
Definition node_b : LeaseManager := lease_manager_new "db" "b" 10.

(** [a] acquires at time 100. *)
Definition after_a : LocalFs * LeaseManager := fst (try_acquire 100 100 node_a (mkLocalFs ∅ [])).

Lemma after_a_stored : stored_lease (fs_objects (fst after_a)) K (mkLease "a" 1 110).
Proof. eexists. vm_compute. reflexivity. Qed.

Lemma lease_active_is_refused_witness :
  exists err, snd (try_acquire 105 105 node_b (fst after_a)) = Err err.
Proof.
  destruct (try_acquire 105 105 node_b (fst after_a)) as [[s' m'] r] eqn:E.
  destruct (lease_active_is_refused 105 105 node_b m' (fst after_a) s' (mkLease "a" 1 110) r) as [H _].
  - exact I.
  - reflexivity.
  - split; by vm_compute.
  - exact after_a_stored.
  - discriminate.
  - simpl. lia.
  - exact E.
  - exact H.
Defined.

(** [b] takes over at time 120; [a] then tries to renew. *)
Definition after_b : LocalFs * LeaseManager := fst (try_acquire 120 120 node_b (fst after_a)).

Lemma lease_lost_is_not_renewed_witness :
  lm_token (snd after_b) = 2
  /\ exists err, snd (renew 121 121 (snd after_a) (fst after_b)) = Err err.
Proof.
  split; [by vm_compute|].
  destruct (lm_current_etag (snd after_a)) as [e|] eqn:Ee; [|by vm_compute in Ee].
  destruct (renew 121 121 (snd after_a) (fst after_b)) as [[s' m'] r] eqn:E.
  destruct (lease_lost_is_not_renewed 121 121 (snd after_a) m' (fst after_b) s' e r) as [H _].
  - exact I.
  - vm_compute; reflexivity.
  - exact Ee.
  - rewrite <- Ee. vm_compute. discriminate.
  - exact E.
  - exact H.
Defined.

(** [a] fails one renewal (its second store call), then renews successfully. *)
Definition a_hiccup : LeaseManager :=
  snd (fst (renew 101 101 (snd after_a) (mkLocalFs (fs_files (fst after_a)) [true]))).

Lemma lease_renewal_does_not_restore_validity_witness :
  lm_valid (snd after_a) = true /\ lm_valid a_hiccup = false
  /\ snd (renew 102 102 a_hiccup (fst after_a)) = Ok tt
  /\ lm_valid (snd (fst (renew 102 102 a_hiccup (fst after_a)))) = false.
Proof.
  split; [by vm_compute|]. split; [by vm_compute|]. split; [by vm_compute|].
  destruct (lm_current_etag a_hiccup) as [e|] eqn:Ee; [|by vm_compute in Ee].
  destruct (renew 102 102 a_hiccup (fst after_a)) as [[s' m'] [[]|err]] eqn:E; [|by vm_compute in E].
  destruct (lease_renewal_does_not_restore_validity 102 102 a_hiccup m' (fst after_a) s' e) as [H _].
  - exact Ee.
  - by vm_compute.
  - exact E.
  - exact H.
Defined.

(** Two nodes: 0 acquires at time 100, 1 takes over at time 120. *)
Definition demo_holder (i : nat) : string := match i with O => "a" | _ => "b" end.

Definition demo_nodes : nat -> node := fun i => mkNode (lease_manager_new "db" (demo_holder i) 10) None.

Abbreviation lsys := (LocalFs * (nat -> node))%type.

Definition run_read (i : nat) (now : Z) (x : lsys) : lsys :=
  let '(s', m', r) := acquire_read now (n_lm (snd x i)) (fst x) in
  (s', <[i := mkNode m' (match r with Ok p => Some p | Err _ => None end)]> (snd x)).

Definition run_cas (i : nat) (now : Z) (x : lsys) : lsys :=
  match n_pending (snd x i) with
  | Some (expected, token) =>
      let '(s', m', r) := acquire_cas now expected token (n_lm (snd x i)) (fst x) in
      (s', <[i := mkNode m' None]> (snd x))
  | None => x
  end.

Lemma run_read_step (i : nat) (now : Z) (x : lsys) : lstep x (run_read i now x).
Proof.
  destruct x as [s n]. unfold run_read; simpl.
  destruct (acquire_read now (n_lm (n i)) s) as [[s' m'] r] eqn:E. by eapply l_read.
Qed.

Lemma run_cas_step (i : nat) (now : Z) (x : lsys) :
  match n_pending (snd x i) with
  | Some (_, token) => 0 < token /\ bc_in_range (lease_of (n_lm (snd x i)) token now)
  | None => False
  end -> lstep x (run_cas i now x).
Proof.
  destruct x as [s n]. unfold run_cas. cbn [fst snd].
  destruct (n_pending (n i)) as [[expected token]|] eqn:Ep; [|done]. intros [H1 H2].
  destruct (acquire_cas now expected token (n_lm (n i)) s) as [[s' m'] r] eqn:E. by eapply l_cas.
Qed.

Definition demo_run : lsys :=
  run_cas 1 120 (run_read 1 120 (run_cas 0 100 (run_read 0 100 (mkLocalFs ∅ [], demo_nodes)))).

Lemma demo_run_steps : rtc lstep (mkLocalFs ∅ [], demo_nodes) demo_run.
Proof.
  eapply rtc_l; [apply (run_read_step 0 100)|].
  eapply rtc_l; [apply (run_cas_step 0 100); vm_compute; split_and!; done|].
  eapply rtc_l; [apply (run_read_step 1 120)|].
  apply rtc_once, (run_cas_step 1 120); vm_compute; split_and!; done.
Qed.

Lemma lease_tokens_are_unique_witness :
  lm_token (n_lm (snd demo_run 0%nat)) = 1 /\ lm_token (n_lm (snd demo_run 1%nat)) = 2
  /\ lm_token (n_lm (snd demo_run 0%nat)) <> lm_token (n_lm (snd demo_run 1%nat)).
Proof.
  split; [by vm_compute|]. split; [by vm_compute|].
  destruct (lm_current_etag (n_lm (snd demo_run 0%nat))) as [e0|] eqn:E0; [|by vm_compute in E0].
  destruct (lm_current_etag (n_lm (snd demo_run 1%nat))) as [e1|] eqn:E1; [|by vm_compute in E1].
  refine (proj1 (lease_tokens_are_unique K demo_holder string_of_list_byte _ _ _
    (mkLocalFs ∅ []) (fst demo_run) demo_nodes (snd demo_run) 0%nat 1%nat e0 e1 _ _ _ _ E0 E1 _)).
  - reflexivity.
  - intros s k d e _ Ho. change (os_objects s) with (fs_objects s) in Ho. unfold fs_objects in Ho.
    rewrite lookup_fmap in Ho. destruct (fs_files s !! k); [|done]. by injection Ho as <- <-.
  - intros d d' Hd. apply (f_equal list_byte_of_string) in Hd. by rewrite !list_byte_of_string_of_list_byte in Hd.
  - exact I.
  - reflexivity.
  - intros i. by exists 10.
  - rewrite <- surjective_pairing. exact demo_run_steps.
  - discriminate.
Defined.

End Demo.
