(* ===== verification/Cache.v ===== *)
(** [storage/cache.rs]: the local NVMe cache in front of an object store.

    The cache directory is a map from paths to bytes together with the outcomes
    of its coming file operations ([disk_op]); a failed write leaves a prefix of
    the data in the file. The bookkeeping is a map from keys to entries, in
    which access ticks are distinct, so the victim of an eviction is determined
    whatever order the hash map iterates in. *)

From Stdlib Require Import Strings.Byte Strings.String ZArith Lia.
From stdpp Require Import base list gmap strings.
From S2P Require Import Prelude ObjectStore.

Open Scope Z_scope.

Record CacheEntry := mkCacheEntry { ce_size : Z; ce_etag : string; ce_last_access : Z }.

(** The outcome of a file operation: it works, it fails before touching the
    file, or (for a write) it fails after [n] bytes. *)
Inductive disk_op := DiskOk | DiskFails | DiskWriteTorn (n : nat).

Record NvmeCache := mkNvmeCache {
  nc_files : gmap string bytes;
  nc_disk : list disk_op;
  nc_max_bytes : Z;
  nc_entries : gmap string CacheEntry;
  nc_clock : Z;
}.

(** [NvmeCache::open] *)
Definition nvme_open (max_bytes : Z) : NvmeCache := mkNvmeCache ∅ [] max_bytes ∅ 0.

Definition next_disk (c : NvmeCache) : disk_op * NvmeCache :=
  match nc_disk c with
  | [] => (DiskOk, c)
  | o :: os => (o, mkNvmeCache (nc_files c) os (nc_max_bytes c) (nc_entries c) (nc_clock c))
  end.

Definition set_files (fs : gmap string bytes) (c : NvmeCache) : NvmeCache :=
  mkNvmeCache fs (nc_disk c) (nc_max_bytes c) (nc_entries c) (nc_clock c).
Definition set_entries (es : gmap string CacheEntry) (c : NvmeCache) : NvmeCache :=
  mkNvmeCache (nc_files c) (nc_disk c) (nc_max_bytes c) es (nc_clock c).
Definition tick (c : NvmeCache) : NvmeCache :=
  mkNvmeCache (nc_files c) (nc_disk c) (nc_max_bytes c) (nc_entries c) (u64_add (nc_clock c) 1).

(** [NvmeCache::get] *)
Definition nvme_get (key : string) (c : NvmeCache) : NvmeCache * option (bytes * ObjectMeta) :=
  match nc_entries c !! key with
  | None => (c, None)
  | Some e =>
      let c := tick (set_entries (<[key := mkCacheEntry (ce_size e) (ce_etag e) (nc_clock c)]> (nc_entries c)) c) in
      let '(o, c) := next_disk c in
      match o, nc_files c !! path_for key with
      | DiskOk, Some data => (c, Some (data, mkObjectMeta (ce_etag e) (ce_size e)))
      | _, _ => (set_entries (delete key (nc_entries c)) c, None)
      end
  end.

(** The sum of the entries' sizes. *)
Definition total_size (es : gmap string CacheEntry) : Z :=
  map_fold (fun _ e z => ce_size e + z) 0 es.

(** The entry with the least tick. *)
Definition older (a b : string * CacheEntry) : string * CacheEntry :=
  if ce_last_access (snd b) <? ce_last_access (snd a) then b else a.

Definition victim (es : gmap string CacheEntry) : option (string * CacheEntry) :=
  match map_to_list es with
  | [] => None
  | ke :: kes => Some (fold_left older kes ke)
  end.

Definition saturating_sub (a b : Z) : Z := Z.max 0 (a - b).

(** The loop of [evict_if_needed]; every round removes an entry. *)
Fixpoint evict_loop (fuel : nat) (total : Z) (c : NvmeCache) : NvmeCache :=
  match fuel with
  | O => c
  | S fuel' =>
      if nc_max_bytes c <? total then
        match victim (nc_entries c) with
        | None => c
        | Some (k, e) =>
            evict_loop fuel' (saturating_sub total (ce_size e))
              (set_files (delete (path_for k) (nc_files c))
                 (set_entries (delete k (nc_entries c)) c))
        end
      else c
  end.

(** [NvmeCache::evict_if_needed] *)
Definition evict_if_needed (c : NvmeCache) : NvmeCache :=
  evict_loop (S (size (nc_entries c))) (total_size (nc_entries c)) c.

(** [NvmeCache::put] *)
Definition nvme_put (key : string) (data : bytes) (meta : ObjectMeta) (c : NvmeCache) : NvmeCache :=
  let '(o, c) := next_disk c in
  match o with
  | DiskOk =>
      let '(o, c) := next_disk c in
      match o with
      | DiskOk =>
          let c := set_files (<[path_for key := data]> (nc_files c)) c in
          let c := set_entries (<[key := mkCacheEntry (osize meta) (etag meta) (nc_clock c)]> (nc_entries c)) c in
          evict_if_needed (tick c)
      | DiskFails => c
      | DiskWriteTorn n => set_files (<[path_for key := take n data]> (nc_files c)) c
      end
  | _ => c
  end.

(** [NvmeCache::invalidate] *)
Definition nvme_invalidate (key : string) (c : NvmeCache) : NvmeCache :=
  match nc_entries c !! key with
  | None => c
  | Some _ => set_files (delete (path_for key) (nc_files c)) (set_entries (delete key (nc_entries c)) c)
  end.

(** [NvmeCache::stats] *)
Definition nvme_stats (c : NvmeCache) : Z * Z :=
  (Z.of_nat (size (nc_entries c)), total_size (nc_entries c)).

(** [is_cacheable] *)
Definition is_cacheable (key : string) : bool := String.prefix "sst/" key || String.prefix "wal/" key.

Section Cached.
  Context {S : Type} {st : ObjectStore S}.

Record CachedStore := mkCachedStore { cs_inner : S; cs_cache : NvmeCache }.

(** [CachedObjectStore::new] *)
Definition cached_new (inner : S) (max_bytes : Z) : CachedStore := mkCachedStore inner (nvme_open max_bytes).

Definition cached_get (key : string) (s : CachedStore)
    : CachedStore * Result (option (bytes * ObjectMeta)) :=
  if negb (is_cacheable key) then
    let '(i, r) := os_get key (cs_inner s) in (mkCachedStore i (cs_cache s), r)
  else
    match nvme_get key (cs_cache s) with
    | (c, Some hit) => (mkCachedStore (cs_inner s) c, Ok (Some hit))
    | (c, None) =>
        match os_get key (cs_inner s) with
        | (i, Err e) => (mkCachedStore i c, Err e)
        | (i, Ok None) => (mkCachedStore i c, Ok None)
        | (i, Ok (Some (data, meta))) => (mkCachedStore i (nvme_put key data meta c), Ok (Some (data, meta)))
        end
    end.

Definition warm (key : string) (data : bytes) (meta : ObjectMeta) (c : NvmeCache) : NvmeCache :=
  if is_cacheable key then nvme_put key data meta c else c.

Definition cached_put (key : string) (data : bytes) (s : CachedStore) : CachedStore * Result ObjectMeta :=
  match os_put key data (cs_inner s) with
  | (i, Err e) => (mkCachedStore i (cs_cache s), Err e)
  | (i, Ok meta) => (mkCachedStore i (warm key data meta (cs_cache s)), Ok meta)
  end.

Definition cached_put_if_match (key : string) (data : bytes) (expected_etag : option string)
    (s : CachedStore) : CachedStore * result CasError ObjectMeta :=
  match os_put_if_match key data expected_etag (cs_inner s) with
  | (i, Err e) => (mkCachedStore i (cs_cache s), Err e)
  | (i, Ok meta) => (mkCachedStore i (warm key data meta (cs_cache s)), Ok meta)
  end.

Definition cached_delete (key : string) (s : CachedStore) : CachedStore * Result unit :=
  match os_delete key (cs_inner s) with
  | (i, Err e) => (mkCachedStore i (cs_cache s), Err e)
  | (i, Ok _) => (mkCachedStore i (nvme_invalidate key (cs_cache s)), Ok tt)
  end.

Definition cached_list (prefix : string) (s : CachedStore) : CachedStore * Result (list string) :=
  let '(i, r) := os_list prefix (cs_inner s) in (mkCachedStore i (cs_cache s), r).

#[export] Instance cached_store : ObjectStore CachedStore := {|
  os_get := cached_get;
  os_put := cached_put;
  os_put_if_match := cached_put_if_match;
  os_delete := cached_delete;
  os_list := cached_list;
|}.

End Cached.

(** ** Eviction *)

Lemma total_size_delete (es : gmap string CacheEntry) (k : string) (e : CacheEntry) :
  es !! k = Some e -> total_size es = ce_size e + total_size (delete k es).
Proof.
  intros H. unfold total_size.
  apply (map_fold_delete_L (fun _ e z => ce_size e + z) 0 k e es); [intros; lia | done].
Qed.

Lemma total_size_nonneg (es : gmap string CacheEntry) :
  map_Forall (fun _ e => 0 <= ce_size e) es -> 0 <= total_size es.
Proof.
  induction es as [|k e es Hk IH] using map_ind; [done|].
  intros [He Hall]%map_Forall_insert; [|done].
  rewrite (total_size_delete _ k e) by apply lookup_insert_eq.
  rewrite delete_insert_id by done. specialize (IH Hall). lia.
Qed.

Lemma fold_older (kes : list (string * CacheEntry)) (ke : string * CacheEntry) :
  In (fold_left older kes ke) (ke :: kes)
  /\ forall x, In x (ke :: kes) -> ce_last_access (snd (fold_left older kes ke)) <= ce_last_access (snd x).
Proof.
  revert ke. induction kes as [|ke' kes IH]; intros ke; cbn [fold_left].
  { split; [by left|]. by intros x [<-|[]]. }
  destruct (IH (older ke ke')) as [Hin Hmin].
  assert (ce_last_access (snd (older ke ke')) <= ce_last_access (snd ke)
          /\ ce_last_access (snd (older ke ke')) <= ce_last_access (snd ke')) as [H1 H2].
  { unfold older. case_match; lia. }
  pose proof (Hmin _ (or_introl eq_refl)) as Hm. split.
  - destruct Hin as [Hin|Hin]; [|right; by right]. rewrite <- Hin. unfold older.
    case_match; [right; by left | by left].
  - intros x [<-|[<-|Hx]]; [lia | lia |]. apply Hmin. by right.
Qed.

Lemma victim_Some (es : gmap string CacheEntry) (k : string) (e : CacheEntry) :
  victim es = Some (k, e) ->
  es !! k = Some e /\ forall k' e', es !! k' = Some e' -> ce_last_access e <= ce_last_access e'.
Proof.
  unfold victim. destruct (map_to_list es) as [|ke kes] eqn:E; [done|]. intros [= Hf].
  destruct (fold_older kes ke) as [Hin Hmin]. rewrite Hf in Hin, Hmin. rewrite <- E in Hin, Hmin.
  split; [by apply elem_of_map_to_list, list_elem_of_In|].
  intros k' e' He'. apply (Hmin (k', e')). by apply list_elem_of_In, elem_of_map_to_list.
Qed.

Lemma victim_None (es : gmap string CacheEntry) : victim es = None -> es = ∅.
Proof. unfold victim. destruct (map_to_list es) eqn:E; [|done]. intros _. by apply map_to_list_empty_iff. Qed.

(** What the loop leaves: a subset of the entries that fits, and whatever it
    removed was accessed no later than anything it kept. *)
Lemma evict_loop_spec (fuel : nat) (c : NvmeCache) :
  map_Forall (fun _ e => 0 <= ce_size e) (nc_entries c) -> 0 <= nc_max_bytes c ->
  (size (nc_entries c) < fuel)%nat ->
  let c' := evict_loop fuel (total_size (nc_entries c)) c in
  nc_entries c' ⊆ nc_entries c
  /\ total_size (nc_entries c') <= nc_max_bytes c
  /\ (forall k e k' e', nc_entries c !! k = Some e -> nc_entries c' !! k = None ->
        nc_entries c' !! k' = Some e' -> ce_last_access e <= ce_last_access e')
  /\ (total_size (nc_entries c) <= nc_max_bytes c -> c' = c).
Proof.
  revert c. induction fuel as [|fuel IH]; intros c Hpos Hmax Hf; [lia|]. cbn [evict_loop].
  destruct (Z.ltb_spec (nc_max_bytes c) (total_size (nc_entries c))) as [Hgt|Hle]; cycle 1.
  { split_and!; [done | done | congruence | done]. }
  destruct (victim (nc_entries c)) as [[k e]|] eqn:Ev; cycle 1.
  { apply victim_None in Ev. rewrite Ev in Hgt. unfold total_size in Hgt. rewrite map_fold_empty in Hgt. lia. }
  apply victim_Some in Ev as [He Hmin].
  set (c1 := set_files _ _). assert (nc_entries c1 = delete k (nc_entries c)) as Hc1 by done.
  pose proof (total_size_delete _ _ _ He) as Htot.
  assert (map_Forall (fun _ e => 0 <= ce_size e) (nc_entries c1)) as Hpos1
    by (rewrite Hc1; by apply map_Forall_delete).
  pose proof (total_size_nonneg _ Hpos1) as Hnn. rewrite Hc1 in Hnn.
  assert (saturating_sub (total_size (nc_entries c)) (ce_size e) = total_size (nc_entries c1)) as ->
    by (rewrite Hc1; unfold saturating_sub; lia).
  destruct (IH c1 Hpos1 Hmax) as (Hsub & Hfit & Hlru & _).
  { rewrite Hc1, map_size_delete_Some by eauto.
    assert (size (nc_entries c) <> 0%nat); [|lia]. intros Hz%map_size_empty_inv. by rewrite Hz in He. }
  split_and!; [|done| |lia].
  - etrans; [exact Hsub|]. rewrite Hc1. apply delete_subseteq.
  - intros k1 e1 k2 e2 H1 H2 H3. destruct (decide (k1 = k)) as [->|Hne].
    + rewrite He in H1. injection H1 as <-. apply (Hmin k2).
      pose proof (lookup_weaken _ _ _ _ H3 Hsub) as H3'. rewrite Hc1 in H3'.
      apply lookup_delete_Some in H3' as [_ ?]. done.
    + apply (Hlru k1 e1 k2 e2); [by rewrite Hc1, lookup_delete_ne | done | done].
Qed.

(** ** Coherence *)

(** Every cached entry is the object the store holds, but for the keys in
    [doubt]. *)
Record cache_ok (doubt : gset string) (objs : objects) (c : NvmeCache) : Prop := {
  co_max : 0 <= nc_max_bytes c;
  co_keys : forall k e, nc_entries c !! k = Some e -> path_for k = k /\ 0 <= ce_size e;
  co_entries : forall k e, k ∉ doubt -> nc_entries c !! k = Some e ->
    exists d, nc_files c !! k = Some d /\ objs !! k = Some (d, ce_etag e) /\ ce_size e = zlen d;
}.

Lemma cache_ok_sizes doubt (objs : objects) (c : NvmeCache) :
  cache_ok doubt objs c -> map_Forall (fun _ e => 0 <= ce_size e) (nc_entries c).
Proof. intros [_ H _] k e He. by apply (H k e He). Qed.

Lemma next_disk_same (c c' : NvmeCache) (o : disk_op) :
  next_disk c = (o, c') -> nc_files c' = nc_files c /\ nc_entries c' = nc_entries c
  /\ nc_max_bytes c' = nc_max_bytes c /\ nc_clock c' = nc_clock c.
Proof. unfold next_disk. destruct (nc_disk c); by intros [= <- <-]. Qed.

(** [cache_ok] only looks at the files, the entries and the budget. *)
Lemma cache_ok_same doubt (objs : objects) (c c' : NvmeCache) :
  nc_files c' = nc_files c -> nc_entries c' = nc_entries c -> nc_max_bytes c' = nc_max_bytes c ->
  cache_ok doubt objs c -> cache_ok doubt objs c'.
Proof. intros H1 H2 H3 [Hm Hk He]. by split; rewrite ?H1, ?H2, ?H3. Qed.

(** A change of one key's file and object, when the key is in doubt or no entry. *)
Lemma cache_ok_off doubt doubt' (objs objs' : objects) (c c' : NvmeCache) (k : string) :
  cache_ok doubt objs c -> k ∈ doubt' \/ nc_entries c !! k = None ->
  (forall k', k' <> k -> k' ∈ doubt' <-> k' ∈ doubt) ->
  (forall k', k' <> k -> objs' !! k' = objs !! k') ->
  (forall k', k' <> k -> nc_files c' !! k' = nc_files c !! k') ->
  nc_entries c' = nc_entries c -> nc_max_bytes c' = nc_max_bytes c -> cache_ok doubt' objs' c'.
Proof.
  intros [Hm Hk He] Hd Hdd Hag Hf H2 H3. split; [by rewrite H3 | by rewrite H2|].
  intros k' e Hn Hl. rewrite H2 in Hl. destruct (decide (k' = k)) as [->|Hne]; [destruct Hd; congruence|].
  rewrite Hf, Hag by done. apply He; [by rewrite <- Hdd | done].
Qed.

(** Dropping an entry, with or without its file. *)
Lemma cache_ok_drop doubt (objs : objects) (c : NvmeCache) (k : string) :
  cache_ok doubt objs c ->
  cache_ok doubt objs (set_entries (delete k (nc_entries c)) c)
  /\ (path_for k = k ->
      cache_ok doubt objs (set_files (delete (path_for k) (nc_files c)) (set_entries (delete k (nc_entries c)) c))).
Proof.
  intros [Hm Hp He]. split; [|intros Hk; rewrite Hk]; (split; [done| |]); simpl.
  - intros k' e [_ Hl]%lookup_delete_Some. by apply Hp.
  - intros k' e Hn [_ Hl]%lookup_delete_Some. by apply He.
  - intros k' e [_ Hl]%lookup_delete_Some. by apply Hp.
  - intros k' e Hn [Hne Hl]%lookup_delete_Some. destruct (He k' e Hn Hl) as (d & Hf & Ho & Hs). exists d.
    by rewrite lookup_delete_ne.
Qed.

Lemma evict_loop_ok doubt (objs : objects) (fuel : nat) (total : Z) (c : NvmeCache) :
  cache_ok doubt objs c -> cache_ok doubt objs (evict_loop fuel total c).
Proof.
  revert total c. induction fuel as [|fuel IH]; intros total c Hok; cbn [evict_loop]; [done|].
  case_match; [|done]. destruct (victim (nc_entries c)) as [[k e]|] eqn:Ev; [|done].
  apply IH. apply victim_Some in Ev as [He _]. apply cache_ok_drop; [done|]. by apply (co_keys _ _ _ Hok k e).
Qed.

(** The next two file operations of the cache work, so that it takes an object. *)
Definition takes (c : NvmeCache) : bool :=
  let '(o1, c1) := next_disk c in let '(o2, _) := next_disk c1 in
  match o1, o2 with DiskOk, DiskOk => true | _, _ => false end.

(** The keys in doubt behind a write or a delete of [k]: it is, when it was
    cached and the store's call failed ([ok] is false) or the cache could not
    take the new object; it no longer is when both worked. *)
Definition doubt_after (k : string) (ok : bool) (c : NvmeCache) (doubt : gset string) : gset string :=
  if ok && takes c then doubt ∖ {[k]}
  else match nc_entries c !! k with Some _ => {[k]} ∪ doubt | None => doubt end.

Lemma doubt_after_other k k' ok c doubt : k' <> k -> k' ∈ doubt_after k ok c doubt <-> k' ∈ doubt.
Proof. unfold doubt_after. repeat case_match; set_solver. Qed.

Lemma doubt_after_cached k ok c doubt : ok && takes c = false -> k ∈ doubt_after k ok c doubt \/ nc_entries c !! k = None.
Proof. unfold doubt_after. intros ->. destruct (nc_entries c !! k); [left; set_solver | by right]. Qed.

(** Caching an object, whatever the disk does. *)
Lemma nvme_put_ok doubt (objs objs' : objects) (c : NvmeCache) (k : string) (d : bytes) (m : ObjectMeta) :
  cache_ok doubt objs c -> path_for k = k ->
  (forall k', k' <> k -> objs' !! k' = objs !! k') -> objs' !! k = Some (d, etag m) -> osize m = zlen d ->
  cache_ok (doubt_after k true c doubt) objs' (nvme_put k d m c).
Proof.
  intros Hok Hk Hag Hobj Hsz.
  pose proof (fun Ht => cache_ok_off doubt (doubt_after k true c doubt) objs objs' c (nvme_put k d m c) k Hok
    (doubt_after_cached k true c doubt Ht) (fun k' Hne => doubt_after_other k k' true c doubt Hne) Hag) as Hgo.
  unfold takes in Hgo. unfold nvme_put in *. destruct (next_disk c) as [o1 c1] eqn:E1.
  pose proof (next_disk_same _ _ _ E1) as (F1 & N1 & M1 & _).
  destruct (next_disk c1) as [o2 c2] eqn:E2. pose proof (next_disk_same _ _ _ E2) as (F2 & N2 & M2 & _).
  destruct o1; [|by apply Hgo; rewrite ?F1, ?N1, ?M1..].
  destruct o2; cycle 1.
  { apply Hgo; [done | intros k' _; by rewrite F2, F1 | congruence | congruence]. }
  { apply Hgo; simpl; [done | | congruence | congruence].
    intros k' Hne. by rewrite Hk, F2, F1, lookup_insert_ne. }
  clear Hgo. apply evict_loop_ok. destruct Hok as [Hm Hp He]. split; simpl; [by rewrite M2, M1 | |].
  - intros k' e [[<- <-]|[Hne Hl]]%lookup_insert_Some; [split; [done|]; simpl; rewrite Hsz; apply zlen_nonneg|].
    rewrite N2, N1 in Hl. by apply Hp.
  - intros k' e Hn [[<- <-]|[Hne Hl]]%lookup_insert_Some; simpl.
    + exists d. by rewrite Hk, lookup_insert_eq.
    + rewrite N2, N1 in Hl. rewrite Hk, lookup_insert_ne, F2, F1, Hag by done. apply He; [|done].
      by rewrite doubt_after_other in Hn.
Qed.

Lemma nvme_get_ok doubt (objs : objects) (c c' : NvmeCache) (k : string) r :
  cache_ok doubt objs c -> nvme_get k c = (c', r) ->
  cache_ok doubt objs c'
  /\ match r with
     | Some (d, m) => is_Some (nc_entries c !! k)
         /\ (k ∉ doubt -> exists e, objs !! k = Some (d, e) /\ m = mkObjectMeta e (zlen d))
     | None => nc_entries c' !! k = None
     end.
Proof.
  intros Hok Hg. unfold nvme_get in Hg. destruct (nc_entries c !! k) as [e|] eqn:E;
    [|by injection Hg as <- <-].
  destruct (co_keys _ _ _ Hok k e E) as [Hp Hsz].
  set (c1 := tick _) in Hg. assert (cache_ok doubt objs c1) as Hok1.
  { destruct Hok as [Hm Hkk He]. split; [done| |]; simpl.
    - intros k' e' [[<- <-]|[Hne Hl]]%lookup_insert_Some; [done | by apply Hkk].
    - intros k' e' Hn [[<- <-]|[Hne Hl]]%lookup_insert_Some; simpl; by apply He. }
  destruct (next_disk c1) as [o c2] eqn:E2. apply next_disk_same in E2 as (F2 & N2 & M2 & _).
  assert (cache_ok doubt objs c2) as Hok2 by by apply (cache_ok_same doubt objs c1).
  pose proof (proj1 (cache_ok_drop doubt objs c2 k Hok2)) as Hdrop.
  rewrite Hp, F2 in Hg. change (nc_files c1) with (nc_files c) in Hg.
  destruct o; [destruct (nc_files c !! k) as [d|] eqn:Ef|..]; injection Hg as <- <-; (split; [done|]); try (simpl; apply lookup_delete_eq).
  split; [done|]. intros Hn. destruct (co_entries _ _ _ Hok k e Hn E) as (d' & Hf & Ho & Hs).
  rewrite Ef in Hf. injection Hf as <-. exists (ce_etag e). split; [done|]. by rewrite Hs.
Qed.

Lemma evict_loop_entries (fuel : nat) (total : Z) (c : NvmeCache) :
  nc_entries (evict_loop fuel total c) ⊆ nc_entries c.
Proof.
  revert total c. induction fuel as [|fuel IH]; intros total c; cbn [evict_loop]; [done|].
  case_match; [|done]. destruct (victim (nc_entries c)) as [[k e]|]; [|done].
  etrans; [apply IH|]. simpl. apply delete_subseteq.
Qed.

Lemma nvme_put_entries (k k' : string) (d : bytes) (m : ObjectMeta) (c : NvmeCache) (e : CacheEntry) :
  nc_entries (nvme_put k d m c) !! k' = Some e -> k' = k \/ nc_entries c !! k' = Some e.
Proof.
  unfold nvme_put. destruct (next_disk c) as [o1 c1] eqn:E1. apply next_disk_same in E1 as (_ & N1 & _).
  destruct o1; [|rewrite N1; by right..].
  destruct (next_disk c1) as [o2 c2] eqn:E2. apply next_disk_same in E2 as (_ & N2 & _).
  destruct o2; simpl; [|rewrite N2, N1; by right..].
  intros H. eapply lookup_weaken in H; [|apply evict_loop_entries]. simpl in H.
  destruct (decide (k' = k)) as [|Hne]; [by left|]. rewrite lookup_insert_ne in H by done.
  right. by rewrite N2, N1 in H.
Qed.

Lemma nvme_get_entries (k k' : string) (c c' : NvmeCache) r (e : CacheEntry) :
  nvme_get k c = (c', r) -> nc_entries c' !! k' = Some e -> exists e', nc_entries c !! k' = Some e'.
Proof.
  unfold nvme_get. destruct (nc_entries c !! k) as [e0|] eqn:E; [|intros [= <- _]; by eauto].
  destruct (next_disk _) as [o c1] eqn:E1. apply next_disk_same in E1 as (_ & N1 & _).
  assert (forall e, nc_entries c1 !! k' = Some e -> exists e', nc_entries c !! k' = Some e') as Hgo.
  { intros e1. rewrite N1. simpl. destruct (decide (k' = k)) as [->|Hne]; [by eauto|].
    rewrite lookup_insert_ne by done. by eauto. }
  intros Hg Hl. assert (nc_entries c1 !! k' = Some e) as Hl1; [|by eapply Hgo].
  destruct o; [destruct (nc_files c1 !! path_for k)|..]; injection Hg as <- _; try done;
    simpl in Hl; by apply lookup_delete_Some in Hl as [_ ?].
Qed.

Section Coherent.
  Context {S : Type} {st : ObjectStore S} {laws : StoreLaws S}.

Record cached_wf (doubt : gset string) (s : CachedStore) : Prop := {
  cw_inner : os_wf (cs_inner s);
  cw_cache : cache_ok doubt (os_objects (cs_inner s)) (cs_cache s);
  cw_cacheable : forall k e, nc_entries (cs_cache s) !! k = Some e -> is_cacheable k = true;
}.

Definition ckey_ok (k : string) : Prop := os_key_ok k /\ path_for k = k.

Lemma cached_get_ok doubt (k : string) (s s' : CachedStore) r :
  cached_wf doubt s -> ckey_ok k -> cached_get k s = (s', r) ->
  cached_wf doubt s' /\ os_objects (cs_inner s') = os_objects (cs_inner s)
  /\ forall o, k ∉ doubt \/ nc_entries (cs_cache s) !! k = None -> r = Ok o -> o = meta_of <$> os_objects (cs_inner s) !! k.
Proof.
  intros [Hi Hc Hca] [Hk Hp] Hg. unfold cached_get in Hg. destruct (is_cacheable k) eqn:Eca; simpl in Hg.
  - destruct (nvme_get k (cs_cache s)) as [c1 hit] eqn:E1.
    pose proof (nvme_get_ok _ _ _ _ _ _ Hc E1) as [Hc1 Hhit].
    assert (forall k e, nc_entries c1 !! k = Some e -> is_cacheable k = true) as Hca1.
    { intros k' e He. destruct (nvme_get_entries _ _ _ _ _ _ E1 He) as (e' & He'). by eapply Hca. }
    destruct hit as [[d m]|].
    + injection Hg as <- <-. split; [by split | split; [done|]]. intros o Hd [= <-]. destruct Hhit as [[e0 Hin] Hhit].
      destruct Hd as [Hd|Hd]; [|congruence]. destruct (Hhit Hd) as (e & -> & ->). done.
    + destruct (os_get k (cs_inner s)) as [i o] eqn:E2.
      apply os_get_law in E2 as (Hi2 & Hobj & Ho); [|done|done].
      assert (cached_wf doubt (mkCachedStore i c1)) as Hw1 by (split; simpl; [done | by rewrite Hobj | done]).
      destruct o as [[[d m]|]|err]; injection Hg as <- <-; simpl.
      2: { split_and!; [done | done | intros o _ [= <-]; by apply Ho]. }
      2: { by split_and!. }
      specialize (Ho _ eq_refl). split_and!; [|done | by intros o _ [= <-]].
      symmetry in Ho. apply fmap_Some in Ho as ([d' e] & Hl & Hm). injection Hm as -> ->.
      split; simpl; [done | |].
      * rewrite Hobj. destruct (nvme_put_ok doubt (os_objects (cs_inner s)) (os_objects (cs_inner s)) c1 k d' (mkObjectMeta e (zlen d'))) as [Hm' Hp' He']; try done.
        split; [done | done |]. intros k' e1 Hn Hl1. apply He'; [|done]. unfold doubt_after. destruct (_ && _); [set_solver | by rewrite Hhit].
      * intros k' e' [->|He']%nvme_put_entries; [done | by eapply Hca1].
  - destruct (os_get k (cs_inner s)) as [i o] eqn:E2.
    apply os_get_law in E2 as (Hi2 & Hobj & Ho); [|done|done].
    injection Hg as <- <-. simpl. split_and!; [split; simpl; [done | by rewrite Hobj | done] | done | intros o' _ ->; by apply Ho].
Qed.

(** A write or a delete of [k] that leaves the cache as it was. *)
Lemma uncached_change doubt (s : CachedStore) (i : S) (k : string) (ok : bool) :
  cached_wf doubt s -> os_wf i -> (is_cacheable k = true -> ok && takes (cs_cache s) = false) ->
  (forall k', k' <> k -> os_objects i !! k' = os_objects (cs_inner s) !! k') ->
  cached_wf (doubt_after k ok (cs_cache s) doubt) (mkCachedStore i (cs_cache s)).
Proof.
  intros [Hi Hc Hca] Hwf Ht Hag. split; simpl; [done | | done]. destruct (nc_entries (cs_cache s) !! k) as [e|] eqn:E.
  - eapply (cache_ok_off doubt _ _ _ (cs_cache s)); [exact Hc | by apply doubt_after_cached, Ht, (Hca k e) | intros k' Hne; by apply doubt_after_other | done..].
  - eapply (cache_ok_off doubt _ _ _ (cs_cache s)); [exact Hc | by right | intros k' Hne; by apply doubt_after_other | done..].
Qed.

Lemma put_agrees_off (k k' : string) (d : bytes) (o o' : objects) :
  maybe_written o o' k d -> k' <> k -> o' !! k' = o !! k'.
Proof. intros [->|(e & ->)] Hne; [done|]. by rewrite lookup_insert_ne. Qed.

Lemma warm_ok doubt (s : CachedStore) (i : S) (k : string) (d : bytes) (m : ObjectMeta) :
  cached_wf doubt s -> ckey_ok k -> os_wf i -> os_objects i = <[k := (d, etag m)]> (os_objects (cs_inner s)) -> osize m = zlen d ->
  cached_wf (doubt_after k true (cs_cache s) doubt) (mkCachedStore i (warm k d m (cs_cache s))).
Proof.
  intros Hw [Hk Hp] Hi Hobj Hsz. unfold warm. destruct (is_cacheable k) eqn:Ec.
  - destruct Hw as [_ Hc Hca]. split; simpl; [done | |].
    + eapply nvme_put_ok; [exact Hc | done | intros; by rewrite Hobj, lookup_insert_ne | by rewrite Hobj, lookup_insert_eq | done].
    + intros k' e [->|He]%nvme_put_entries; [done | by eapply Hca].
  - apply uncached_change; [done | done | congruence |]. intros; by rewrite Hobj, lookup_insert_ne.
Qed.

Definition succeeded {E A : Type} (r : result E A) : bool := match r with Ok _ => true | Err _ => false end.

Lemma cached_put_ok doubt (k : string) (d : bytes) (s s' : CachedStore) r :
  cached_wf doubt s -> ckey_ok k -> cached_put k d s = (s', r) ->
  cached_wf (doubt_after k (succeeded r) (cs_cache s) doubt) s'.
Proof.
  intros Hw Hk Hc. unfold cached_put in Hc.
  destruct (os_put k d (cs_inner s)) as [i [m|err]] eqn:E; injection Hc as <- <-.
  - pose proof (os_put_size _ _ _ _ _ E) as Hsz. apply os_put_law in E as [Hi Hobj]; [|apply Hw|apply Hk]. by apply warm_ok.
  - apply os_put_law in E as [Hi Hobj]; [|apply Hw|apply Hk].
    apply uncached_change; [done | done | done | by intros; eapply put_agrees_off].
Qed.

Lemma cached_cas_ok doubt (k : string) (d : bytes) (x : option string) (s s' : CachedStore) r :
  cached_wf doubt s -> ckey_ok k -> cached_put_if_match k d x s = (s', r) ->
  cached_wf (doubt_after k (succeeded r) (cs_cache s) doubt) s'.
Proof.
  intros Hw Hk Hc. unfold cached_put_if_match in Hc.
  destruct (os_put_if_match k d x (cs_inner s)) as [i [m|err]] eqn:E; injection Hc as <- <-.
  - pose proof (os_cas_size _ _ _ _ _ _ E) as Hsz. apply os_cas_law in E as [Hi [_ Hobj]]; [|apply Hw|apply Hk]. by apply warm_ok.
  - apply os_cas_law in E as [Hi Hobj]; [|apply Hw|apply Hk].
    apply uncached_change; [done | done | done |]. intros k' Hne.
    destruct err as [cur|err]; [by destruct Hobj as [-> _]|].
    destruct Hobj as [->|[_ Hobj]]; [done | by eapply put_agrees_off].
Qed.

(** The keys in doubt behind a delete; one that works leaves nothing cached. *)
Definition doubt_deleted (k : string) (ok : bool) (c : NvmeCache) (doubt : gset string) : gset string :=
  if ok then doubt ∖ {[k]} else doubt_after k false c doubt.

Lemma cached_delete_ok doubt (k : string) (s s' : CachedStore) r :
  cached_wf doubt s -> ckey_ok k -> cached_delete k s = (s', r) ->
  cached_wf (doubt_deleted k (succeeded r) (cs_cache s) doubt) s'.
Proof.
  intros Hw [Hk Hp] Hc. unfold cached_delete in Hc.
  destruct (os_delete k (cs_inner s)) as [i o] eqn:E. apply os_delete_law in E as [Hi Hobj]; [|apply Hw|done].
  assert (forall k', k' <> k -> os_objects i !! k' = os_objects (cs_inner s) !! k') as Hag.
  { intros k' Hne. destruct o; [by rewrite Hobj, lookup_delete_ne|].
    destruct Hobj as [->| ->]; [done | by rewrite lookup_delete_ne]. }
  destruct o; injection Hc as <- <-; cbn [succeeded doubt_deleted]; [|by apply uncached_change].
  destruct Hw as [_ Hc Hca]. unfold nvme_invalidate. destruct (nc_entries (cs_cache s) !! k) as [e|] eqn:El.
  - split; simpl; [done | | intros k' e' [_ Hl]%lookup_delete_Some; by eapply Hca].
    eapply (cache_ok_off doubt _ _ _ (set_entries (delete k (nc_entries (cs_cache s))) (cs_cache s)) _ k).
    + by apply cache_ok_drop.
    + right. simpl. apply lookup_delete_eq.
    + set_solver.
    + done.
    + simpl. intros k' Hne. by rewrite Hp, lookup_delete_ne.
    + done.
    + done.
  - split; simpl; [done | | done].
    eapply (cache_ok_off doubt _ _ _ (cs_cache s) _ k); [exact Hc | by right | set_solver | done..].
Qed.

(** The operations of the store, with the keys that are in doubt. *)
Inductive cstep : CachedStore * gset string -> CachedStore * gset string -> Prop :=
  | c_get k s s' r doubt : ckey_ok k -> cached_get k s = (s', r) -> cstep (s, doubt) (s', doubt)
  | c_put k d s s' r doubt : ckey_ok k -> cached_put k d s = (s', r) ->
      cstep (s, doubt) (s', doubt_after k (succeeded r) (cs_cache s) doubt)
  | c_cas k d x s s' r doubt : ckey_ok k -> cached_put_if_match k d x s = (s', r) ->
      cstep (s, doubt) (s', doubt_after k (succeeded r) (cs_cache s) doubt)
  | c_delete k s s' r doubt : ckey_ok k -> cached_delete k s = (s', r) ->
      cstep (s, doubt) (s', doubt_deleted k (succeeded r) (cs_cache s) doubt)
  (* The coming file operations of the cache fail in any way. *)
  | c_disk os s doubt :
      cstep (s, doubt) (mkCachedStore (cs_inner s) (mkNvmeCache (nc_files (cs_cache s)) os (nc_max_bytes (cs_cache s))
                          (nc_entries (cs_cache s)) (nc_clock (cs_cache s))), doubt).

Lemma cstep_wf y y' : cstep y y' -> cached_wf (snd y) (fst y) -> cached_wf (snd y') (fst y').
Proof.
  destruct 1; intros Hw; cbn [fst snd] in *.
  - by eapply cached_get_ok.
  - by eapply cached_put_ok.
  - by eapply cached_cas_ok.
  - by eapply cached_delete_ok.
  - destruct Hw as [Hi Hc Hca]. split; simpl; [done | | done]. by apply (cache_ok_same _ _ (cs_cache s)).
Qed.

(** C8. The cache is transparent. After any operations on any keys that the
    store can hold and that have no backslash (for which the cache's file names
    put a slash), with any failures of the store and of the cache's disk (short writes included), a
    read that succeeds returns what the backing store holds, unless the key is
    cached and in doubt: that is, unless a write or a delete of it failed while
    it was cached, or the cache's disk failed when a cached key was written
    again, and no later write or delete of the key has succeeded. *)
Theorem cache_is_transparent (i : S) (max_bytes : Z) (s s' : CachedStore) (doubt : gset string) (k : string) o :
  os_wf i -> 0 <= max_bytes -> rtc cstep (cached_new i max_bytes, ∅) (s, doubt) -> ckey_ok k ->
  k ∉ doubt \/ nc_entries (cs_cache s) !! k = None -> cached_get k s = (s', Ok o) ->
  o = meta_of <$> os_objects (cs_inner s) !! k.
Proof.
  intros Hi Hmax Hst Hk Hd Hg.
  assert (cached_wf ∅ (cached_new i max_bytes)) as H0 by by split.
  assert (cached_wf doubt s) as Hw.
  { change (cached_wf (snd (s, doubt)) (fst (s, doubt))). revert Hst. generalize (s, doubt). intros y Hst.
    assert (forall y0, rtc cstep y0 y -> cached_wf (snd y0) (fst y0) -> cached_wf (snd y) (fst y)) as Hgo
      by (induction 1; eauto using cstep_wf). by apply (Hgo _ Hst). }
  destruct (cached_get_ok _ _ _ _ _ Hw Hk Hg) as (_ & _ & Ho). by apply Ho.
Qed.

End Coherent.

(** After an insertion the cached bytes fit the budget, and what was
    evicted to get there was used less recently than everything kept. *)
Theorem cache_evicts_least_recent (doubt : gset string) (objs : objects) (k : string) (d : bytes) (m : ObjectMeta) (c : NvmeCache) :
  cache_ok doubt objs c -> nc_disk c = [] -> 0 <= osize m ->
  let before := <[k := mkCacheEntry (osize m) (etag m) (nc_clock c)]> (nc_entries c) in
  let after := nc_entries (nvme_put k d m c) in
  after ⊆ before /\ total_size after <= nc_max_bytes c
  /\ (forall j e j' e', before !! j = Some e -> after !! j = None -> after !! j' = Some e' ->
        ce_last_access e <= ce_last_access e')
  /\ (total_size before <= nc_max_bytes c -> after = before).
Proof.
  intros Hok Hd Hsz before after. unfold after, nvme_put, next_disk. rewrite Hd. simpl. rewrite Hd.
  unfold evict_if_needed. set (c1 := tick _).
  destruct (evict_loop_spec (Datatypes.S (size (nc_entries c1))) c1) as (H1 & H2 & H3 & H4).
  - simpl. apply map_Forall_insert_2; [done | by eapply cache_ok_sizes].
  - apply Hok.
  - lia.
  - split_and!; [done | done | exact H3 | intros Hle; by rewrite H4].
Qed.

(** ** A cache of ten bytes over the filesystem store *)
Section Demo.

#[local] Existing Instance demo_sha.

Definition demo_cached (ops : list (string * bytes)) : CachedStore :=
  fold_left (fun s kd => fst (cached_put (fst kd) (snd kd) s)) ops (cached_new (mkLocalFs ∅ []) 10).

Abbreviation six := [Byte.x31; Byte.x32; Byte.x33; Byte.x34; Byte.x35; Byte.x36].

(** The second object evicts the first; the first is then read from the store. *)
Definition demo_two : CachedStore := demo_cached [("sst/1"%string, six); ("sst/2"%string, six)].

Lemma demo_key_ok : ckey_ok (S := LocalFs) "sst/1".
Proof. split; reflexivity. Qed.

Lemma demo_two_steps : exists doubt, "sst/1"%string ∉ doubt /\ rtc cstep (cached_new (mkLocalFs ∅ []) 10, ∅) (demo_two, doubt).
Proof.
  eexists. split; [|eapply rtc_l; [|apply rtc_once]].
  2: { eapply (c_put "sst/1" six); [done | apply surjective_pairing]. }
  2: { eapply (c_put "sst/2" six); [done | apply surjective_pairing]. }
  by vm_compute.
Qed.

Lemma cache_is_transparent_witness :
  nc_entries (cs_cache demo_two) !! "sst/1"%string = None
  /\ exists s' m, cached_get "sst/1" demo_two = (s', Ok (Some (six, m))).
Proof.
  split; [by vm_compute|].
  destruct (cached_get "sst/1" demo_two) as [s' [o|err]] eqn:E; [|by vm_compute in E].
  assert (0 <= 10) as Hmax by lia. destruct demo_two_steps as (doubt & Hd & Hst).
  pose proof (cache_is_transparent (mkLocalFs ∅ []) 10 demo_two s' doubt "sst/1" o I Hmax
    Hst demo_key_ok (or_introl Hd) E) as Ho.
  exists s', (mkObjectMeta (sha256_hex six) 6). rewrite Ho. vm_compute. reflexivity.
Defined.

Lemma demo_one_wf : exists doubt, cached_wf doubt (demo_cached [("sst/1"%string, six)]).
Proof.
  eexists. apply (cached_put_ok ∅ "sst/1" six (cached_new (mkLocalFs ∅ []) 10) _
           (snd (cached_put "sst/1" six (cached_new (mkLocalFs ∅ []) 10)))).
  - by split.
  - done.
  - apply surjective_pairing.
Qed.

Lemma cache_evicts_least_recent_witness :
  let c := cs_cache (demo_cached [("sst/1"%string, six)]) in
  nc_entries (nvme_put "sst/2" six (mkObjectMeta "e" 6) c) !! "sst/1"%string = None
  /\ total_size (nc_entries (nvme_put "sst/2" six (mkObjectMeta "e" 6) c)) <= 10.
Proof.
  intros c. split; [by vm_compute|]. destruct demo_one_wf as [doubt Hwf].
  destruct (cache_evicts_least_recent doubt (fs_objects (cs_inner (demo_cached [("sst/1"%string, six)])))
    "sst/2" six (mkObjectMeta "e" 6) c (cw_cache _ _ Hwf)) as (_ & H & _).
  - by vm_compute.
  - simpl. lia.
  - exact H.
Defined.

End Demo.
