(* ===== verification/Txn.v ===== *)
(** Transactions ([storage/database/txn.rs], the transaction methods of
    [storage/database/mod.rs] and the row operations of
    [storage/database/storage_engine.rs]).

    - [TransactionState] and its operations: staging, taking, discarding, and
      the [Drop] that releases the snapshot of an abandoned transaction; the
      engine whose snapshot counts they change is passed explicitly.
    - [Database]: the role, the engine and the secondary indexes, whose
      maintenance is a parameter. [begin_txn], [commit_txn], [rollback_txn],
      [txn_read], [txn_scan], [txn_write], [txn_delete] and the autocommit
      [db_write], [db_read], [db_delete], [db_scan].
    - [tstep] interleaves the transactions of any number of connections with
      each other and with the steps of the engine; the theorems hold in every
      state it reaches. *)

From Stdlib Require Import Strings.Byte Strings.String Sorted ZArith Lia.
From stdpp Require Import base list relations.
From S2P Require Import Prelude OrdMap InternalKey Versions Utf8 Wal SSTable ObjectStore Manifest Lsm LsmRead LsmRefine.

Open Scope Z_scope.

(** ** Composite keys *)

(** [Database::make_prefix] and [Database::make_key] *)
Definition make_prefix (table : string) : bytes := as_bytes table ++ [Byte.x00].
Definition make_key (table : string) (key : bytes) : bytes := as_bytes table ++ Byte.x00 :: key.

(** [slice::starts_with] *)
Fixpoint starts_with (l prefix : bytes) {struct prefix} : bool :=
  match prefix, l with
  | [], _ => true
  | p :: prefix', b :: l' => byte_eqb p b && starts_with l' prefix'
  | _ :: _, [] => false
  end.

(** [composite_key.iter().position(|&b| b == 0)] *)
Fixpoint position_nul (l : bytes) : option nat :=
  match l with
  | [] => None
  | b :: l' => if byte_eqb b Byte.x00 then Some O else Datatypes.S <$> position_nul l'
  end.

(** The table a composite key belongs to, as [commit_txn] extracts it. *)
Definition table_of (composite_key : bytes) : option string :=
  match position_nul composite_key with
  | Some i => from_utf8 (take i composite_key)
  | None => None
  end.

(** A table name is a Rust string; identifiers hold no NUL. *)
Definition table_name (table : string) : Prop :=
  is_string table /\ ~ In Byte.x00 (as_bytes table).

Record KeyValue := mkKeyValue { kv_key : bytes; kv_value : bytes }.

(** ** Transactions *)

(** The staged writes, [None] for a delete, in key order. *)
Abbreviation Staged := (list (bytes * option bytes)).

Record TransactionState := mkTransactionState {
  tx_id : Z;
  tx_snapshot_seq : Z;
  tx_finished : bool;
  tx_staged : Staged;
}.

Definition txn_new (id snapshot_seq : Z) : TransactionState := mkTransactionState id snapshot_seq false [].

Definition set_staged (m : Staged) (t : TransactionState) : TransactionState :=
  mkTransactionState (tx_id t) (tx_snapshot_seq t) (tx_finished t) m.

Definition stage_write (composite_key value : bytes) (t : TransactionState) : TransactionState :=
  if tx_finished t then t else set_staged (om_insert composite_key (Some value) (tx_staged t)) t.

Definition stage_delete (composite_key : bytes) (t : TransactionState) : TransactionState :=
  if tx_finished t then t else set_staged (om_insert composite_key None (tx_staged t)) t.

(** [Ok] is a staged value or tombstone, [Err] sends the reader to the store. *)
Definition staged_read (composite_key : bytes) (t : TransactionState) : result unit (option bytes) :=
  match om_get composite_key (tx_staged t) with
  | Some (Some v) => Ok (Some v)
  | Some None => Ok None
  | None => Err tt
  end.

Definition pending_count (t : TransactionState) : Z := zlen (tx_staged t).

Inductive NodeRole := Writer | Reader.

Section Database.
  Context {sk : SkipMap} {bl : Bloom} {S : Type} {st : ObjectStore S}.
  Context {bc : Bincode Manifest} {bc0 : Bincode ManifestV0} (env : Env).

Abbreviation engine := (@LsmEngine sk bl S).

Definition finish_locked (t : TransactionState) (e : engine) : TransactionState * engine :=
  if tx_finished t then (t, e)
  else (mkTransactionState (tx_id t) (tx_snapshot_seq t) true (tx_staged t),
        release_snapshot (tx_snapshot_seq t) e).

Definition take_staged (t : TransactionState) (e : engine) : TransactionState * engine * Staged :=
  let '(t, e) := finish_locked t e in (set_staged [] t, e, tx_staged t).

Definition discard (t : TransactionState) (e : engine) : TransactionState * engine :=
  let '(t, e) := finish_locked t e in (set_staged [] t, e).

(** [Drop for TransactionState] *)
Definition drop_txn (t : TransactionState) (e : engine) : engine :=
  if tx_finished t then e else release_snapshot (tx_snapshot_seq t) e.

(** ** The database *)

  (** The secondary indexes and what a row written to a table does to them. *)
  Context {I : Type} (maintain_indexes_on_write : string -> bytes -> bytes -> I -> I * Result unit).

Record Database := mkDatabase { db_role : NodeRole; db_lsm : engine; db_indexes : I }.

Definition set_lsm (e : engine) (d : Database) : Database := mkDatabase (db_role d) e (db_indexes d).

Definition check_writable (d : Database) : Result unit :=
  match db_role d with
  | Reader => Err "this node is a read-only replica; send writes to the writer node"%string
  | Writer => Ok tt
  end.

(** Maintain the indexes for the rows in turn; the first failure stops. *)
Fixpoint index_rows (rows : list (string * bytes * bytes)) (d : Database) : Database * Result unit :=
  match rows with
  | [] => (d, Ok tt)
  | (table, key, value) :: rows' =>
      match maintain_indexes_on_write table key value (db_indexes d) with
      | (i, Err err) => (mkDatabase (db_role d) (db_lsm d) i, Err err)
      | (i, Ok _) => index_rows rows' (mkDatabase (db_role d) (db_lsm d) i)
      end
  end.

(** Run a flush that a write handed back, and the compaction it may trigger. *)
Definition drive_pending (pending : option PendingFlush) (d : Database) : Database * Result unit :=
  match pending with
  | None => (d, Ok tt)
  | Some pf => let '(e, r) := drive_flush env pf (db_lsm d) in (set_lsm e d, r)
  end.

(** *** Autocommit rows *)

Definition db_write (table : string) (key value : bytes) (d : Database) : Database * Result unit :=
  match check_writable d with
  | Err err => (d, Err err)
  | Ok _ =>
      let composite_key := make_key table key in
      match lsm_write env table composite_key value (db_lsm d) with
      | (e, Err err) => (set_lsm e d, Err err)
      | (e, Ok pending) =>
          match drive_pending pending (set_lsm e d) with
          | (d, Err err) => (d, Err err)
          | (d, Ok _) => index_rows [(table, composite_key, value)] d
          end
      end
  end.

Definition db_read (table : string) (key : bytes) (d : Database) : Result (option bytes) :=
  lsm_read (make_key table key) (db_lsm d).

Definition db_delete (table : string) (key : bytes) (d : Database) : Database * Result unit :=
  match check_writable d with
  | Err err => (d, Err err)
  | Ok _ =>
      match lsm_delete env table (make_key table key) (db_lsm d) with
      | (e, Err err) => (set_lsm e d, Err err)
      | (e, Ok pending) => drive_pending pending (set_lsm e d)
      end
  end.

(** [k.starts_with(&prefix)] kept, then [k[prefix.len()..]]. *)
Definition table_rows (table : string) (kvs : list (bytes * bytes)) : list (bytes * bytes) :=
  List.filter (fun kv => starts_with (fst kv) (make_prefix table)) kvs.
Definition strip_prefix (table : string) (kv : bytes * bytes) : KeyValue :=
  mkKeyValue (drop (length (make_prefix table)) (fst kv)) (snd kv).

Definition db_scan (table : string) (d : Database) : Result (list KeyValue) :=
  let? all := lsm_scan (db_lsm d) in
  Ok (map (strip_prefix table) (table_rows table all)).

(** *** Transactions *)

(** [begin_txn]; [id] is the number [new_tx_id] hands out. *)
Definition begin_txn (id : Z) (d : Database) : Database * TransactionState :=
  let '(e, snapshot_seq) := snapshot_now (db_lsm d) in
  (set_lsm e d, txn_new id snapshot_seq).

(** The rows of a commit; a key without a readable table name is skipped. *)
Definition commit_batch (staged : Staged) : list batch_row :=
  omap (fun kv => (fun table => (table, fst kv, snd kv)) <$> table_of (fst kv)) staged.
Definition per_row_indexing (staged : Staged) : list (string * bytes * bytes) :=
  omap (fun kv => match table_of (fst kv), snd kv with
                  | Some table, Some value => Some (table, fst kv, value)
                  | _, _ => None
                  end) staged.

Definition commit_txn (t : TransactionState) (d : Database)
    : TransactionState * Database * Result unit :=
  let '(t, e, staged) := take_staged t (db_lsm d) in
  let d := set_lsm e d in
  match staged with
  | [] => (t, d, Ok tt)
  | _ =>
      match check_writable d with
      | Err err => (t, d, Err err)
      | Ok _ =>
          match write_batch env (commit_batch staged) (db_lsm d) with
          | (e, Err err) => (t, set_lsm e d, Err err)
          | (e, Ok (_, pending)) =>
              match drive_pending pending (set_lsm e d) with
              | (d, Err err) => (t, d, Err err)
              | (d, Ok _) => let '(d, r) := index_rows (per_row_indexing staged) d in (t, d, r)
              end
          end
      end
  end.

Definition rollback_txn (t : TransactionState) (d : Database) : TransactionState * Database :=
  let '(t, e) := discard t (db_lsm d) in (t, set_lsm e d).

Definition txn_write (txn : option TransactionState) (table : string) (key value : bytes) (d : Database)
    : option TransactionState * Database * Result unit :=
  match txn with
  | Some t => (Some (stage_write (make_key table key) value t), d, Ok tt)
  | None => let '(d, r) := db_write table key value d in (None, d, r)
  end.

Definition txn_delete (txn : option TransactionState) (table : string) (key : bytes) (d : Database)
    : option TransactionState * Database * Result unit :=
  match txn with
  | Some t => (Some (stage_delete (make_key table key) t), d, Ok tt)
  | None => let '(d, r) := db_delete table key d in (None, d, r)
  end.

Definition snapshot_of (txn : option TransactionState) : Z :=
  match txn with Some t => tx_snapshot_seq t | None => U64_MAX end.

Definition txn_read (txn : option TransactionState) (table : string) (key : bytes) (d : Database)
    : Result (option bytes) :=
  let composite := make_key table key in
  match (match txn with Some t => staged_read composite t | None => Err tt end) with
  | Ok (Some v) => Ok (Some v)
  | Ok None => Ok None
  | Err _ => read_at composite (snapshot_of txn) (db_lsm d)
  end.

Definition txn_scan (txn : option TransactionState) (table : string) (d : Database)
    : Result (list KeyValue) :=
  let prefix := make_prefix table in
  let? all := scan_at (snapshot_of txn) (db_lsm d) in
  let committed := table_rows table all in
  let merged := merge_into (map (fun kv => (fst kv, Some (snd kv))) committed) [] in
  let merged :=
    match txn with
    | Some t => merge_into (List.filter (fun kv => starts_with (fst kv) prefix) (tx_staged t)) merged
    | None => merged
    end in
  Ok (omap (fun kv : bytes * option bytes =>
              (fun value => mkKeyValue (drop (length prefix) (fst kv)) value) <$> snd kv) merged).

End Database.

(** ** Composite keys separate tables *)

Lemma make_key_prefix (table : string) (key : bytes) : make_key table key = make_prefix table ++ key.
Proof. unfold make_key, make_prefix. by rewrite <- app_assoc. Qed.

Lemma starts_with_iff (l p : bytes) : starts_with l p = true <-> exists k, l = p ++ k.
Proof.
  revert l. induction p as [|b p IH]; intros l; simpl; [split; eauto|].
  destruct l as [|a l]; [by split; [|intros [k [=]]]|].
  rewrite andb_true_iff, byte_eqb_true, IH.
  split; [intros [-> [k ->]]; by exists k | intros [k [= -> ->]]; eauto].
Qed.

Lemma nul_split (a b x y : bytes) :
  ~ In Byte.x00 a -> ~ In Byte.x00 b -> a ++ Byte.x00 :: x = b ++ Byte.x00 :: y -> a = b /\ x = y.
Proof.
  revert b. induction a as [|c a IH]; intros [|d b] Ha Hb; simpl; intros [=]; subst; try by split.
  - destruct Hb. by left.
  - destruct Ha. by left.
  - destruct (IH b) as [-> ->]; [by intros ?; apply Ha; right | by intros ?; apply Hb; right | done |].
    by split.
Qed.

Lemma make_key_inj (t1 t2 : string) (k1 k2 : bytes) :
  table_name t1 -> table_name t2 -> make_key t1 k1 = make_key t2 k2 -> t1 = t2 /\ k1 = k2.
Proof.
  intros [_ H1] [_ H2] [Ht ->]%nul_split; [|done|done]. split; [by apply as_bytes_inj | done].
Qed.

Lemma starts_with_make_key (table : string) (key : bytes) :
  starts_with (make_key table key) (make_prefix table) = true.
Proof. apply starts_with_iff. exists key. apply make_key_prefix. Qed.

Lemma position_nul_app (a x : bytes) :
  ~ In Byte.x00 a -> position_nul (a ++ Byte.x00 :: x) = Some (length a).
Proof.
  induction a as [|c a IH]; intros Ha; [done|]. cbn [position_nul app].
  destruct (byte_eqb c Byte.x00) eqn:E; [apply byte_eqb_true in E; destruct Ha; by left|].
  rewrite IH by (intros ?; apply Ha; by right). done.
Qed.

Lemma table_of_make_key (table : string) (key : bytes) :
  table_name table -> table_of (make_key table key) = Some table.
Proof.
  intros [Hs Hn]. unfold table_of, make_key. rewrite position_nul_app, take_app_length by done.
  by apply from_utf8_as_bytes.
Qed.

(** Composite keys keep tables apart: two rows share a key only when
    they are the same row of the same table, the prefix of a table selects
    exactly the rows of that table, and the table of a key can be recovered,
    as a commit does it. *)
Theorem composite_keys_separate_tables (t1 t2 : string) (k1 k2 : bytes) :
  table_name t1 -> table_name t2 ->
  (make_key t1 k1 = make_key t2 k2 <-> t1 = t2 /\ k1 = k2)
  /\ (starts_with (make_key t1 k1) (make_prefix t2) = true <-> t1 = t2)
  /\ table_of (make_key t1 k1) = Some t1.
Proof.
  intros H1 H2. split_and!; [split; [by apply make_key_inj | by intros [-> ->]] | | by apply table_of_make_key].
  split; [|intros ->; apply starts_with_make_key].
  intros [k Hk]%starts_with_iff. rewrite <- make_key_prefix in Hk. by apply make_key_inj in Hk as [? _].
Qed.

Lemma composite_keys_separate_tables_witness :
  starts_with (make_key "ab" [Byte.x63]) (make_prefix "a") = false
  /\ table_of (make_key "ab" [Byte.x63]) = Some "ab"%string.
Proof.
  destruct (composite_keys_separate_tables "ab" "a" [Byte.x63] [Byte.x63]) as (_ & H & Ht).
  - split; [by vm_compute | vm_compute; intuition discriminate].
  - split; [by vm_compute | vm_compute; intuition discriminate].
  - split; [|exact Ht]. apply not_true_iff_false. intros [=]%H.
Defined.

(** ** Merging the staged writes over a scan *)

Lemma om_filter_sorted {V : Type} (f : bytes * V -> bool) (m : list (bytes * V)) :
  om_sorted m -> om_sorted (List.filter f m).
Proof.
  induction m as [|x m IH]; simpl; [done|]. intros [Hall Hm]%om_sorted_cons.
  case_match; [|auto]. apply om_sorted_cons. split; [|auto].
  apply List.Forall_forall. intros y [Hy _]%List.filter_In. by rewrite List.Forall_forall in Hall; apply Hall.
Qed.

Lemma om_get_filter {V : Type} (f : bytes -> bool) (m : list (bytes * V)) (k : bytes) :
  om_sorted m ->
  om_get k (List.filter (fun kv => f (fst kv)) m) = if f k then om_get k m else None.
Proof.
  intros Hm. apply option_eq. intros v.
  rewrite om_get_In_iff, List.filter_In by by apply om_filter_sorted. simpl.
  destruct (f k); [rewrite om_get_In_iff by done|]; intuition congruence.
Qed.

Lemma om_get_below {V : Type} (k : bytes) (m : list (bytes * V)) :
  Forall (fun x => lt_cmp k (fst x)) m -> om_get k m = None.
Proof.
  intros Hall. destruct (om_get k m) as [v|] eqn:E; [|done].
  apply om_get_Some_In in E. rewrite List.Forall_forall in Hall. apply Hall in E. by apply lt_cmp_irrefl in E.
Qed.

Lemma merge_into_get (kvs m : list (bytes * option bytes)) (k : bytes) :
  om_sorted kvs -> om_sorted m ->
  om_get k (merge_into kvs m) = match om_get k kvs with Some v => Some v | None => om_get k m end.
Proof.
  revert m. induction kvs as [|[k0 v0] kvs IH]; intros m Hs Hm; [done|].
  apply om_sorted_cons in Hs as [Hall Hs]. 
  change (merge_into ((k0, v0) :: kvs) m) with (merge_into kvs (om_insert k0 v0 m)).
  rewrite IH, om_get_insert by auto. simpl. unfold keqb. case_cmp k0 k.
  - by rewrite (om_get_below k), cmp_refl.
  - rewrite (proj2 (cmp_gt_lt k k0)) by done. done.
  - rewrite (proj1 (cmp_gt_lt k0 k)) by done.
    destruct (om_get k kvs) eqn:E; [|done]. apply om_get_Some_In in E.
    rewrite List.Forall_forall in Hall. apply Hall in E. unfold lt_cmp in E. simpl in E.
    congruence.
Qed.

Lemma om_map_Some_sorted (m : list (bytes * bytes)) :
  om_sorted m -> om_sorted (map (fun kv => (fst kv, Some (snd kv))) m).
Proof.
  induction m as [|x m IH]; simpl; [constructor|]. intros [Hall Hm]%om_sorted_cons.
  apply om_sorted_cons. split; [|auto]. by apply Forall_map.
Qed.

Lemma om_get_map_Some (m : list (bytes * bytes)) (k : bytes) :
  om_get k (map (fun kv => (fst kv, Some (snd kv))) m) = Some <$> om_get k m.
Proof. induction m as [|[k' v'] m IH]; simpl; [done|]. by case_match. Qed.

(** Dropping a common prefix keeps the order. *)
Lemma cmp_prefix (p a b : bytes) : cmp (p ++ a) (p ++ b) = cmp a b.
Proof. induction p as [|c p IH]; [done|]. simpl. by rewrite Z.compare_refl. Qed.

(** The rows of one table, stripped of its prefix. *)
Definition rows_of (n : nat) (m : list (bytes * option bytes)) : list KeyValue :=
  omap (fun kv : bytes * option bytes => (fun value => mkKeyValue (drop n (fst kv)) value) <$> snd kv) m.

Definition kvs_sorted (kvs : list KeyValue) : Prop :=
  StronglySorted (fun a b => lt_cmp (kv_key a) (kv_key b)) kvs.

Lemma rows_of_In (p : bytes) (m : list (bytes * option bytes)) (k x : bytes) :
  om_sorted m -> (forall kv, In kv m -> starts_with (fst kv) p = true) ->
  In (mkKeyValue k x) (rows_of (length p) m) <-> om_get (p ++ k) m = Some (Some x).
Proof.
  intros Hm Hp. rewrite om_get_In_iff by done. unfold rows_of.
  rewrite <- list_elem_of_In, list_elem_of_omap. setoid_rewrite list_elem_of_In. split.
  - intros ([k0 [v0|]] & Hin & Heq); simpl in Heq; [|done]. injection Heq as Hk Hv. subst v0.
    pose proof (Hp _ Hin) as [k1 Hk1]%starts_with_iff. simpl in Hk1. subst k0.
    by rewrite drop_app_length in Hk; subst.
  - intros Hin. exists (p ++ k, Some x). split; [done|]. simpl. by rewrite drop_app_length.
Qed.

Lemma rows_of_sorted (p : bytes) (m : list (bytes * option bytes)) :
  om_sorted m -> (forall kv, In kv m -> starts_with (fst kv) p = true) ->
  kvs_sorted (rows_of (length p) m).
Proof.
  induction m as [|[k v] m IH]; intros Hm Hp; [constructor|].
  apply om_sorted_cons in Hm as [Hall Hm].
  assert (kvs_sorted (rows_of (length p) m)) as Hr by (apply IH; [done | intros kv ?; apply Hp; by right]).
  destruct v as [v|]; [|exact Hr]. simpl. constructor; [exact Hr|].
  apply List.Forall_forall. intros [k' v'] Hin. simpl.
  apply rows_of_In in Hin; [|done|intros kv ?; apply Hp; by right].
  apply om_get_Some_In in Hin. rewrite List.Forall_forall in Hall. apply Hall in Hin. simpl in Hin.
  destruct (proj1 (starts_with_iff k p)) as [k1 ->]; [apply (Hp (k, Some v)); by left|].
  rewrite drop_app_length. unfold lt_cmp in *. by rewrite cmp_prefix in Hin.
Qed.

(** The map [txn_scan] builds: the staged writes over the committed rows, of one table. *)
Definition scan_merged (table : string) (all : list (bytes * bytes)) (staged : Staged) : Staged :=
  merge_into (List.filter (fun kv => starts_with (fst kv) (make_prefix table)) staged)
    (merge_into (map (fun kv => (fst kv, Some (snd kv))) (table_rows table all)) []).

Lemma scan_merged_sorted table all staged : om_sorted (scan_merged table all staged).
Proof. apply merge_into_sorted, merge_into_sorted. constructor. Qed.

Lemma scan_merged_get table all staged k :
  om_sorted all -> om_sorted staged ->
  om_get k (scan_merged table all staged) =
    if starts_with k (make_prefix table)
    then match om_get k staged with Some v => Some v | None => Some <$> om_get k all end
    else None.
Proof.
  intros Ha Hs. unfold scan_merged, table_rows.
  rewrite !merge_into_get, om_get_map_Some;
    [| by apply om_map_Some_sorted, om_filter_sorted | constructor | by apply om_filter_sorted
     | apply merge_into_sorted; constructor].
  rewrite !(om_get_filter (fun k => starts_with k (make_prefix table))) by done.
  destruct (starts_with k _); [|done]. destruct (om_get k staged); [done|]. by destruct (om_get k all).
Qed.

Lemma scan_merged_prefix table all staged kv :
  om_sorted all -> om_sorted staged ->
  In kv (scan_merged table all staged) -> starts_with (fst kv) (make_prefix table) = true.
Proof.
  intros Ha Hs. destruct kv as [k v]. rewrite <- om_get_In_iff by apply scan_merged_sorted.
  rewrite scan_merged_get by done. by case_match.
Qed.

(** ** The transactions of all connections over one engine *)

Section System.
  Context {sk : SkipMap} {sk_laws : SkipMapLaws} {bl : Bloom} {bl_laws : BloomLaws}.
  Context {S : Type} {st : ObjectStore S} {bc : Bincode Manifest} {bc0 : Bincode ManifestV0}.
  Context (env : Env).
  Context {I : Type} (index : string -> bytes -> bytes -> I -> I * Result unit).

Abbreviation engine := (@LsmEngine sk bl S).
Abbreviation opens e := (ws_open_snapshots (e_write e)).
Abbreviation next_seq e := (ws_next_commit_seq (e_write e)).
Abbreviation database := (@Database sk bl S I).

(** The engine with its task and log, and the transactions that are not dropped. *)
Record tsys := TSys { t_sys : @sys sk bl S; t_txns : list TransactionState }.

(** A step of the engine that neither takes nor releases a snapshot: only
    transactions do, and they have steps of their own below. *)
Definition estep (y y' : @sys sk bl S) : Prop :=
  step env y y' /\ opens (y_engine y') = opens (y_engine y).

Inductive tstep : tsys -> tsys -> Prop :=
  | t_engine y y' l : estep y y' -> tstep (TSys y l) (TSys y' l)
  | t_begin id e ph log l :
      tstep (TSys (Sys e ph log) l)
            (TSys (Sys (fst (snapshot_now e)) ph log) (l ++ [txn_new id (snd (snapshot_now e))]))
  | t_stage_write table key value y l1 t l2 :
      table_name table ->
      tstep (TSys y (l1 ++ t :: l2)) (TSys y (l1 ++ stage_write (make_key table key) value t :: l2))
  | t_stage_delete table key y l1 t l2 :
      table_name table ->
      tstep (TSys y (l1 ++ t :: l2)) (TSys y (l1 ++ stage_delete (make_key table key) t :: l2))
  (* [commit_txn] up to the call of [write_batch], which is a step of the engine. *)
  | t_take e ph log l1 t l2 t' e' staged :
      take_staged t e = (t', e', staged) ->
      tstep (TSys (Sys e ph log) (l1 ++ t :: l2)) (TSys (Sys e' ph log) (l1 ++ t' :: l2))
  | t_discard e ph log l1 t l2 t' e' :
      discard t e = (t', e') ->
      tstep (TSys (Sys e ph log) (l1 ++ t :: l2)) (TSys (Sys e' ph log) (l1 ++ t' :: l2))
  | t_drop e ph log l1 t l2 :
      tstep (TSys (Sys e ph log) (l1 ++ t :: l2)) (TSys (Sys (drop_txn t e) ph log) (l1 ++ l2)).

(** From a fresh engine without transactions. *)
Definition treachable (T : tsys) : Prop :=
  exists y0, initial y0 /\ rtc tstep (TSys y0 []) T.

(** *** The invariant *)

Definition open_at (s : Z) (t : TransactionState) : bool := negb (tx_finished t) && (tx_snapshot_seq t =? s).
Definition count_open (s : Z) (l : list TransactionState) : Z := zlen (List.filter (open_at s) l).

(** The engine counts exactly the open transactions of each snapshot. *)
Definition counted (e : engine) (l : list TransactionState) : Prop :=
  forall s, om_get s (opens e) = if count_open s l =? 0 then None else Some (count_open s l).

Record txn_ok (t : TransactionState) : Prop := {
  to_sorted : om_sorted (tx_staged t);
  to_keys : forall k v, In (k, v) (tx_staged t) ->
    exists table key, table_name table /\ k = make_key table key;
  to_finished : tx_finished t = true -> tx_staged t = [];
}.

Record tinv (T : tsys) : Prop := {
  ti_inv : inv (t_sys T);
  ti_counted : counted (y_engine (t_sys T)) (t_txns T);
  ti_txns : forall t, In t (t_txns T) -> txn_ok t;
}.

Lemma count_open_app (s : Z) (l1 l2 : list TransactionState) :
  count_open s (l1 ++ l2) = count_open s l1 + count_open s l2.
Proof. unfold count_open. by rewrite List.filter_app, zlen_app. Qed.

Lemma count_open_cons (s : Z) (t : TransactionState) (l : list TransactionState) :
  count_open s (t :: l) = (if open_at s t then 1 else 0) + count_open s l.
Proof. unfold count_open. simpl. case_match; [by rewrite zlen_cons | done]. Qed.

Lemma count_open_nonneg (s : Z) (l : list TransactionState) : 0 <= count_open s l.
Proof. apply zlen_nonneg. Qed.

Lemma counted_same (e e' : engine) (l l' : list TransactionState) :
  opens e' = opens e -> (forall s, count_open s l' = count_open s l) -> counted e l -> counted e' l'.
Proof. intros Ho Hc H s. rewrite Ho, Hc. apply H. Qed.

Lemma counted_begin (id : Z) (e : engine) (l : list TransactionState) :
  om_sorted (opens e) -> counted e l ->
  counted (fst (snapshot_now e)) (l ++ [txn_new id (snd (snapshot_now e))]).
Proof.
  intros Hs Hc s. simpl. unfold bump_snapshot. rewrite om_get_insert by done.
  rewrite count_open_app, count_open_cons. unfold open_at; simpl.
  pose proof (count_open_nonneg s l). rewrite (Z.eqb_sym (current_seq e) s).
  change (count_open s []) with 0.
  destruct (keqb s (current_seq e)) eqn:E.
  - apply keqb_true in E as <-. rewrite Z.eqb_refl, Hc.
    destruct (Z.eqb_spec (count_open s l) 0); simpl; case_match; simplify_eq; f_equal; lia.
  - apply keqb_false in E. rewrite (proj2 (Z.eqb_neq s _)) by done. by rewrite !Z.add_0_r, Hc.
Qed.

(** Releasing the snapshot of a transaction that was open and no longer is. *)
Lemma counted_release (e : engine) (t : TransactionState) (l l' : list TransactionState) :
  om_sorted (opens e) -> counted e l ->
  (forall s, count_open s l = count_open s l' + if open_at s t then 1 else 0) ->
  tx_finished t = false ->
  counted (release_snapshot (tx_snapshot_seq t) e) l'.
Proof.
  intros Hs Hc Hl Hfin s. unfold release_snapshot.
  pose proof (Hl (tx_snapshot_seq t)) as Hl0. unfold open_at in Hl0. rewrite Hfin, Z.eqb_refl in Hl0. simpl in Hl0.
  pose proof (count_open_nonneg (tx_snapshot_seq t) l') as Hnn.
  rewrite (Hc (tx_snapshot_seq t)). destruct (Z.eqb_spec (count_open (tx_snapshot_seq t) l) 0); [lia|].
  specialize (Hl s). unfold open_at in Hl. rewrite Hfin in Hl. simpl in Hl. specialize (Hc s).
  destruct (Z.eqb_spec (tx_snapshot_seq t) s) as [<-|Hne].
  - destruct (Z.eqb_spec (count_open (tx_snapshot_seq t) l - 1) 0); simpl.
    + rewrite om_get_remove by done. rewrite (proj2 (keqb_true _ _)) by done.
      by rewrite (proj2 (Z.eqb_eq (count_open _ l') 0)) by lia.
    + rewrite om_get_insert by done. rewrite (proj2 (keqb_true _ _)) by done.
      rewrite (proj2 (Z.eqb_neq (count_open _ l') 0)) by lia. f_equal. lia.
  - rewrite Z.add_0_r in Hl. rewrite <- Hl, <- Hc.
    destruct (count_open _ l - 1 =? 0); simpl; [rewrite om_get_remove by done | rewrite om_get_insert by done];
      by rewrite (proj2 (keqb_false _ _)) by done.
Qed.

Lemma txn_ok_new (id s : Z) : txn_ok (txn_new id s).
Proof. split; [constructor | done | done]. Qed.

Lemma txn_ok_staged (k : bytes) (v : option bytes) (t : TransactionState) :
  tx_finished t = false -> (exists table key, table_name table /\ k = make_key table key) ->
  txn_ok t -> txn_ok (set_staged (om_insert k v (tx_staged t)) t).
Proof.
  intros Hf Hk [Hs Hks Hfs]. split; simpl; [by apply om_insert_sorted | | congruence].
  intros k' v' [[= -> ->]|[_ Hin]]%om_insert_In; [done | by eapply Hks | done].
Qed.

(** Ending a transaction, by a commit or a rollback. *)
Lemma take_staged_eq (t t' : TransactionState) (e e' : engine) staged :
  take_staged t e = (t', e', staged) ->
  t' = mkTransactionState (tx_id t) (tx_snapshot_seq t) true []
  /\ e' = drop_txn t e /\ staged = tx_staged t.
Proof.
  unfold take_staged, finish_locked, drop_txn, set_staged. destruct t as [i s [] m]; by intros [= <- <- <-].
Qed.

Lemma discard_eq (t t' : TransactionState) (e e' : engine) :
  discard t e = (t', e') ->
  t' = mkTransactionState (tx_id t) (tx_snapshot_seq t) true [] /\ e' = drop_txn t e.
Proof.
  unfold discard, finish_locked, drop_txn, set_staged. destruct t as [i s [] m]; by intros [= <- <-].
Qed.

Lemma drop_txn_inv (t : TransactionState) (e : engine) ph log :
  inv (Sys e ph log) -> inv (Sys (drop_txn t e) ph log).
Proof. unfold drop_txn. intros H. case_match; [done | by apply release_inv]. Qed.

(** Whatever replaces a transaction that ends is not open. *)
Lemma counted_drop (t : TransactionState) (e : engine) (l1 l2 l' : list TransactionState) :
  om_sorted (opens e) -> (forall s, count_open s l' = count_open s (l1 ++ l2)) ->
  counted e (l1 ++ t :: l2) -> counted (drop_txn t e) l'.
Proof.
  intros Hs Hl Hc. unfold drop_txn.
  assert (forall s, count_open s (l1 ++ t :: l2) = count_open s l' + if open_at s t then 1 else 0) as Heq.
  { intros s. rewrite Hl, !count_open_app, count_open_cons. lia. }
  destruct (tx_finished t) eqn:E.
  - eapply counted_same; [done| |done]. intros s. rewrite Heq. unfold open_at. rewrite E. simpl. lia.
  - by eapply counted_release.
Qed.

Lemma tinv_replace (y y' : sys) (l1 l2 : list TransactionState) (t t' : TransactionState) :
  inv y' -> txn_ok t' -> counted (y_engine y') (l1 ++ t' :: l2) ->
  tinv (TSys y (l1 ++ t :: l2)) -> tinv (TSys y' (l1 ++ t' :: l2)).
Proof.
  intros Hi Ht Hc [_ _ Htx]. split; [done|done|]. simpl in *. intros x Hx.
  apply in_app_iff in Hx as [Hx|[<-|Hx]]; [|done|]; apply Htx; apply in_app_iff; simpl; auto.
Qed.

(** Staging keeps the snapshot and the openness. *)
Lemma tinv_stage (y : sys) (l1 l2 : list TransactionState) (t : TransactionState) k v :
  (exists table key, table_name table /\ k = make_key table key) ->
  tinv (TSys y (l1 ++ t :: l2)) ->
  tinv (TSys y (l1 ++ (if tx_finished t then t else set_staged (om_insert k v (tx_staged t)) t) :: l2)).
Proof.
  intros Hk Hinv. destruct (tx_finished t) eqn:E; [done|].
  pose proof Hinv as [Hi Hc Htx]. simpl in Hi, Hc, Htx. eapply tinv_replace; [done | | | exact Hinv].
  - apply txn_ok_staged; [done..|]. apply Htx, in_app_iff. right. by left.
  - eapply counted_same; [done| |done]. intros s. by rewrite !count_open_app, !count_open_cons.
Qed.

(** Ending a transaction keeps the invariant. *)
Lemma tinv_end (e : engine) ph log (l1 l2 : list TransactionState) (t : TransactionState) :
  tinv (TSys (Sys e ph log) (l1 ++ t :: l2)) ->
  tinv (TSys (Sys (drop_txn t e) ph log)
          (l1 ++ mkTransactionState (tx_id t) (tx_snapshot_seq t) true [] :: l2)).
Proof.
  intros Hinv. pose proof Hinv as [Hi Hc Htx]. simpl in Hi, Hc, Htx. eapply tinv_replace; [| | | exact Hinv].
  - by apply drop_txn_inv.
  - split; [constructor | done | done].
  - eapply counted_drop; [apply (inv_opens_sorted _ Hi) | | exact Hc].
    intros s. by rewrite !count_open_app, !count_open_cons.
Qed.

Lemma tstep_tinv (T T' : tsys) : tstep T T' -> tinv T -> tinv T'.
Proof.
  destruct 1 as [y y' l [Hst Ho] | id e ph log l | table key value y l1 t l2 Ht | table key y l1 t l2 Ht
    | e ph log l1 t l2 t' e' staged Htk | e ph log l1 t l2 t' e' Hd | e ph log l1 t l2]; intros Hinv.
  - destruct Hinv as [Hi Hc Htx]. split; [by eapply step_inv | | done]. by eapply counted_same.
  - destruct Hinv as [Hi Hc Htx]. split; simpl in *.
    + by apply snapshot_inv.
    + apply counted_begin; [apply (inv_opens_sorted _ Hi) | done].
    + intros t [Ht|[<-|[]]]%in_app_iff; [auto | apply txn_ok_new].
  - unfold stage_write. apply tinv_stage; eauto.
  - unfold stage_delete. apply tinv_stage; eauto.
  - apply take_staged_eq in Htk as (-> & -> & _). by apply tinv_end.
  - apply discard_eq in Hd as (-> & ->). by apply tinv_end.
  - destruct Hinv as [Hi Hc Htx]. split; simpl in *.
    + by apply drop_txn_inv.
    + eapply counted_drop; [apply (inv_opens_sorted _ Hi) | | exact Hc]. done.
    + intros x Hx. apply Htx. apply in_app_iff in Hx as [Hx|Hx]; apply in_app_iff; simpl; auto.
Qed.

Lemma tsteps_tinv (T T' : tsys) : rtc tstep T T' -> tinv T -> tinv T'.
Proof. induction 1; eauto using tstep_tinv. Qed.

Lemma treachable_tinv (T : tsys) : treachable T -> tinv T.
Proof.
  intros (y0 & Hi & Hst). eapply tsteps_tinv; [done|].
  split; [by apply initial_inv | | done]. destruct Hi as (s & v & k & ->). done.
Qed.

(** The log only grows. *)
Lemma tsteps_log (T T' : tsys) :
  rtc tstep T T' -> tinv T ->
  exists new, y_log (t_sys T') = new ++ y_log (t_sys T)
    /\ (forall x, In x new -> next_seq (y_engine (t_sys T)) <= eseq x)
    /\ next_seq (y_engine (t_sys T)) <= next_seq (y_engine (t_sys T')).
Proof.
  induction 1 as [T|T T1 T2 Hst _ IH]; intros Hinv; [by exists []|].
  destruct (IH (tstep_tinv _ _ Hst Hinv)) as (n2 & Hl2 & Hn2 & Hle2).
  assert (exists n1, y_log (t_sys T1) = n1 ++ y_log (t_sys T)
    /\ (forall x, In x n1 -> next_seq (y_engine (t_sys T)) <= eseq x)
    /\ next_seq (y_engine (t_sys T)) <= next_seq (y_engine (t_sys T1))) as (n1 & Hl1 & Hn1 & Hle1).
  { assert (forall t (e : engine), next_seq (drop_txn t e) = next_seq e) as Hd
      by (intros t e; unfold drop_txn, release_snapshot; by repeat case_match).
    destruct Hst as [y y' l [Hst _] | | | | ? ? ? ? ? ? ? ? ? Htk | ? ? ? ? ? ? ? ? Hdi | ]; simpl;
      [|exists []; split_and!; try done..].
    - destruct (step_log env _ _ Hst (ti_inv _ Hinv)) as (n1 & H1 & H2 & H3).
      exists n1. split_and!; [done | | done]. intros x Hx%H2. lia.
    - apply take_staged_eq in Htk as (_ & -> & _). by rewrite Hd.
    - apply discard_eq in Hdi as (_ & ->). by rewrite Hd.
    - by rewrite Hd. }
  exists (n2 ++ n1). split_and!; [by rewrite Hl2, Hl1, app_assoc | | lia].
  intros x [Hx%Hn2|Hx%Hn1]%in_app_iff; lia.
Qed.

(** *** What a transaction reads *)

(** Its staged writes over the log as of its snapshot; without a transaction,
    the latest committed version. *)
Definition txn_view (log : list entry) (txn : option TransactionState) (ck : bytes) : option bytes :=
  match (match txn with Some t => om_get ck (tx_staged t) | None => None end) with
  | Some v => v
  | None => look log ck (snapshot_of txn)
  end.

(** The transactions whose reads are meaningful: open ones, and none at all. *)
Definition readable (txn : option TransactionState) (l : list TransactionState) : Prop :=
  match txn with Some t => In t l /\ tx_finished t = false | None => True end.

Lemma count_open_pos (t : TransactionState) (l : list TransactionState) :
  In t l -> tx_finished t = false -> 0 < count_open (tx_snapshot_seq t) l.
Proof.
  intros (l1 & l2 & ->)%in_split Hf. rewrite count_open_app, count_open_cons.
  unfold open_at. rewrite Hf, Z.eqb_refl. simpl.
  pose proof (count_open_nonneg (tx_snapshot_seq t) l1). pose proof (count_open_nonneg (tx_snapshot_seq t) l2). lia.
Qed.

(** An open transaction holds its snapshot. *)
Lemma open_txn_live (T : tsys) (t : TransactionState) :
  tinv T -> In t (t_txns T) -> tx_finished t = false ->
  (exists c, In (tx_snapshot_seq t, c) (opens (y_engine (t_sys T))))
  /\ tx_snapshot_seq t <= current_seq (y_engine (t_sys T)).
Proof.
  intros [Hi Hc _] Hin Hf. specialize (Hc (tx_snapshot_seq t)).
  pose proof (count_open_pos _ _ Hin Hf). rewrite (proj2 (Z.eqb_neq _ 0)) in Hc by lia.
  apply om_get_Some_In in Hc. split; [eauto|].
  destruct Hi as [f [_ _ _ _ _ (ess & fl & _ & _ & Hop & _)]]. apply Hop in Hc. lia.
Qed.

Lemma readable_live (T : tsys) (txn : option TransactionState) :
  tinv T -> readable txn (t_txns T) -> live (y_engine (t_sys T)) (snapshot_of txn).
Proof.
  intros Hinv Hr. destruct txn as [t|]; simpl in *.
  - destruct (open_txn_live _ _ Hinv (proj1 Hr) (proj2 Hr)) as [[c Hc] _].
    right. exists (tx_snapshot_seq t), c. split; [done | lia].
  - left. pose proof (inv_next _ (ti_inv _ Hinv)) as Hn. rewrite current_seq_next by done. lia.
Qed.

Lemma txn_read_view (T : tsys) (txn : option TransactionState) (d : database) table key :
  tinv T -> readable txn (t_txns T) -> db_lsm d = y_engine (t_sys T) ->
  txn_read txn table key d = Ok (txn_view (y_log (t_sys T)) txn (make_key table key)).
Proof.
  intros Hinv Hr Hd. pose proof (readable_live _ _ Hinv Hr) as Hl.
  destruct (inv_reads _ _ (ti_inv _ Hinv) Hl) as [Hread _]. unfold txn_read, txn_view, staged_read.
  rewrite Hd, Hread. destruct txn as [t|]; [|done].
  by destruct (om_get _ (tx_staged t)) as [[v|]|].
Qed.

Lemma txn_scan_view (T : tsys) (txn : option TransactionState) (d : database) table :
  tinv T -> readable txn (t_txns T) -> db_lsm d = y_engine (t_sys T) ->
  exists kvs, txn_scan txn table d = Ok kvs /\ kvs_sorted kvs
    /\ forall k x, In (mkKeyValue k x) kvs <-> txn_view (y_log (t_sys T)) txn (make_key table k) = Some x.
Proof.
  intros Hinv Hr Hd. pose proof (readable_live _ _ Hinv Hr) as Hl.
  destruct (inv_reads _ _ (ti_inv _ Hinv) Hl) as [_ (all & Hscan & Hs & Hin)].
  set (staged := match txn with Some t => tx_staged t | None => [] end).
  assert (om_sorted staged) as Hst.
  { destruct txn as [t|]; [apply (ti_txns _ Hinv), Hr | constructor]. }
  exists (rows_of (length (make_prefix table)) (scan_merged table all staged)).
  split; [unfold txn_scan; rewrite Hd, Hscan; by destruct txn|].
  assert (forall kv, In kv (scan_merged table all staged) -> starts_with (fst kv) (make_prefix table) = true)
    as Hp by (intros kv; by apply scan_merged_prefix).
  split; [apply rows_of_sorted; [apply scan_merged_sorted | done]|].
  intros k x. rewrite rows_of_In, <- make_key_prefix by (apply scan_merged_sorted || done).
  rewrite scan_merged_get, starts_with_make_key by done. unfold txn_view.
  assert (match txn with Some t => om_get (make_key table k) (tx_staged t) | None => None end
    = om_get (make_key table k) staged) as -> by by destruct txn.
  destruct (om_get _ staged) as [v|]; [split; congruence|]. rewrite <- Hin, <- om_get_In_iff by done.
  destruct (om_get _ all); simpl; split; congruence.
Qed.

(** *** The flush and the compaction a write drives *)

(** The tables that the run writes fit the table format. *)
Definition drive_fits (pf : PendingFlush) (e : engine) : Prop :=
  table_fits (pf_entries pf)
  /\ forall s sst e1 pc m, finish_flush pf (e_store e) = (s, Ok sst) ->
     commit_flush env pf sst (set_store s e) = (e1, Ok (Some pc)) ->
     group_sstables (pc_sstables pc) [] = Ok m -> table_fits (merge_entries (pc_watermark pc) m).

Lemma begin_compact_opens (e e' : engine) r : begin_compact env e = (e', r) -> opens e' = opens e.
Proof. unfold begin_compact. repeat case_match; by intros [= <- _]. Qed.

Lemma commit_flush_opens (pf : PendingFlush) (sst : SSTable) (e e' : engine) r :
  commit_flush env pf sst e = (e', r) -> opens e' = opens e.
Proof.
  intros [[(_ & Ho & _) _]|(e1 & (_ & Ho & _) & [Hr|[-> _]])]%commit_flush_cases; [done| |done].
  apply begin_compact_opens in Hr. by rewrite Hr, Ho.
Qed.

Lemma drive_compact_steps (pc : PendingCompaction) (c0 : Z) (e e' : engine) r log :
  (forall m, group_sstables (pc_sstables pc) [] = Ok m -> table_fits (merge_entries (pc_watermark pc) m)) ->
  drive_compact pc e = (e', r) -> rtc estep (Sys e (Compacting pc c0) log) (Sys e' Idle log).
Proof.
  intros Hfit. unfold drive_compact. destruct (finish_compact pc (e_store e)) as [s [sst|err]] eqn:E.
  - intros Hc. eapply rtc_l; [split; [eapply step_finish_compact; [done | exact E] | done]|]. simpl.
    apply rtc_once. split; [by eapply step_commit_compact|].
    revert Hc. unfold commit_compact. by repeat case_match; intros [= <- _].
  - intros [= <- _]. apply rtc_once. split; [|done].
    by pose proof (step_finish_compact env pc c0 e s _ log Hfit E).
Qed.

Lemma drive_flush_steps (pf : PendingFlush) (e e' : engine) r log :
  drive_fits pf e -> drive_flush env pf e = (e', r) ->
  exists ph', rtc estep (Sys e (Flushing pf) log) (Sys e' ph' log).
Proof.
  intros [Hfit Hcfit]. unfold drive_flush.
  destruct (finish_flush pf (e_store e)) as [s fr] eqn:E.
  pose proof (step_finish_flush env pf e s _ log Hfit E) as Hfin.
  destruct fr as [sst|err]; [|intros [= <- _]; eexists; by apply rtc_once].
  destruct (commit_flush env pf sst (set_store s e)) as [e1 cr] eqn:Ec.
  assert (forall y', estep (Sys (set_store s e) (Written pf sst) log) y' ->
    rtc estep (Sys e (Flushing pf) log) y') as Hgo.
  { intros y' Hy. eapply rtc_l; [by split; [exact Hfin|]|]. by apply rtc_once. }
  pose proof (commit_flush_opens _ _ _ _ _ Ec) as Ho.
  assert (e_view e1 <> e_view (set_store s e) ->
    estep (Sys (set_store s e) (Written pf sst) log) (Sys e1 (compact_phase cr e1) log)) as Hpub
    by (intros Hv; split; [by apply (step_commit_flush env pf sst) | done]).
  destruct cr as [[pc|]|err].
  - intros Hd. exists Idle. etrans; [apply Hgo, Hpub; by eapply commit_flush_ok_view|].
    eapply drive_compact_steps; [|exact Hd]. intros m. by eapply Hcfit.
  - intros [= <- _]. eexists. apply Hgo, Hpub. by eapply commit_flush_ok_view.
  - intros [= <- _]. pose proof (commit_flush_cases env _ _ _ _ _ Ec) as Hcases.
    destruct Hcases as [[(_ & _ & Hv) _]|(e2 & (_ & _ & Hv) & Hr)].
    + eexists. apply Hgo. split; [by eapply step_commit_flush_failed | done].
    + eexists. apply Hgo, Hpub, (publish_flush_view sst). rewrite <- Hv.
      destruct Hr as [Hr|[-> _]]; [by apply begin_compact_view in Hr | done].
Qed.

(** *** Committing *)

Lemma commit_batch_keys (staged : Staged) :
  (forall k v, In (k, v) staged -> exists table key, table_name table /\ k = make_key table key) ->
  map (fun row => (row_key row, row_value row)) (commit_batch staged) = staged.
Proof.
  induction staged as [|[k v] staged IH]; intros Hk; [done|].
  unfold commit_batch; cbn [omap list_omap fst snd].
  destruct (Hk k v (or_introl eq_refl)) as (table & key & Ht & ->).
  rewrite table_of_make_key by done. cbn [fmap option_fmap option_map map row_key row_value fst snd].
  unfold row_key, row_value; simpl. f_equal. apply IH. intros k' v' Hin. apply (Hk k' v'). by right.
Qed.

Lemma om_sorted_NoDup {V : Type} (m : list (bytes * V)) : om_sorted m -> List.NoDup (map fst m).
Proof.
  induction m as [|[k v] m IH]; intros Hs; simpl; constructor; apply om_sorted_cons in Hs as [Hall Hs]; [|auto].
  intros ([k' v'] & Heq & Hin)%in_map_iff. simpl in Heq. subst k'.
  rewrite List.Forall_forall in Hall. apply Hall in Hin. by apply lt_cmp_irrefl in Hin.
Qed.

Lemma commit_batch_row_keys (t : TransactionState) :
  txn_ok t -> map row_key (commit_batch (tx_staged t)) = map fst (tx_staged t).
Proof. intros [_ Hk _]. rewrite <- (commit_batch_keys (tx_staged t)) at 2 by done. by rewrite map_map. Qed.

(** The versions a commit adds read back as the staged writes. *)
Lemma commit_look (t : TransactionState) (c s : Z) (log : list entry) (ck : bytes) :
  txn_ok t -> c <= s ->
  look (rows_at c (commit_batch (tx_staged t)) ++ log) ck s =
    match om_get ck (tx_staged t) with Some v => v | None => look log ck s end.
Proof.
  intros Ht Hc. pose proof (commit_batch_row_keys t Ht) as Hkeys. rewrite look_app.
  destruct (om_get ck (tx_staged t)) as [v|] eqn:E.
  - apply om_get_Some_In in E. pose proof (commit_batch_keys _ (to_keys _ Ht)) as Heq.
    rewrite <- Heq in E. apply in_map_iff in E as (row & [= <- <-] & Hin).
    rewrite rows_at_visible; [done | | done | done].
    rewrite Hkeys. by apply om_sorted_NoDup, Ht.
  - rewrite rows_at_invisible; [done|]. rewrite Hkeys. intros ([k v] & <- & Hin)%in_map_iff.
    apply om_get_In in Hin; [|apply Ht]. simpl in E. congruence.
Qed.

Lemma index_rows_lsm rows (d d' : database) r : index_rows index rows d = (d', r) -> db_lsm d' = db_lsm d.
Proof.
  revert d. induction rows as [|[[table key] value] rows IH]; intros d; simpl; [by intros [= <- _]|].
  destruct (index table key value (db_indexes d)) as [i [u|err]]; [by intros ->%IH | by intros [= <- _]].
Qed.

Lemma engine_steps (y y' : sys) (l : list TransactionState) :
  rtc estep y y' -> rtc tstep (TSys y l) (TSys y' l).
Proof. induction 1; [done|]. eapply rtc_l; [by apply t_engine | done]. Qed.

(** A batch and the maintenance it may begin do not meet other maintenance:
    none is under way, or the memtable has room, so that none is begun. *)
Definition unhindered (rows : list batch_row) (e : engine) (ph : phase) : Prop :=
  ph = Idle \/ has_room rows e.

(** The part of a commit that the engine runs, from the batch to the end of
    the flush and the compaction it drives. *)
Lemma commit_rows_steps (rows : list batch_row) (d d' : database) r ph log :
  inv (Sys (db_lsm d) ph log) -> batch_fits rows (db_lsm d) -> unhindered rows (db_lsm d) ph ->
  (forall e c pf, write_batch env rows (db_lsm d) = (e, Ok (c, Some pf)) -> drive_fits pf e) ->
  match write_batch env rows (db_lsm d) with
  | (e, Err err) => (set_lsm e d, Err err)
  | (e, Ok (_, pending)) => drive_pending env pending (set_lsm e d)
  end = (d', r) ->
  exists ph', rtc estep (Sys (db_lsm d) ph log) (Sys (db_lsm d') ph' (log_after rows (db_lsm d) log)).
Proof.
  intros Hinv Hfit Hph Hdrive Heq. pose proof (inv_next _ Hinv) as Hn. simpl in Hn.
  destruct (write_batch env rows (db_lsm d)) as [e wr] eqn:E.
  pose proof (write_batch_clock env rows _ _ _ Hn Hfit E) as [_ Ho].
  assert (estep (Sys (db_lsm d) ph log) (Sys e (write_phase ph wr) (log_after rows (db_lsm d) log))) as Hst1.
  { split; [|done]. apply step_write; [done | destruct Hph; auto | done]. }
  destruct wr as [[c [pf|]]|err]; simpl in Heq.
  - destruct (drive_flush env pf e) as [e' r'] eqn:Ed. injection Heq as <- <-.
    destruct (drive_flush_steps pf e e' r' (log_after rows (db_lsm d) log)
      (Hdrive _ _ _ eq_refl) Ed) as (ph' & Hsteps).
    exists ph'. by eapply rtc_l.
  - injection Heq as <- <-. eexists. by apply rtc_once.
  - injection Heq as <- <-. eexists. by apply rtc_once.
Qed.

Lemma next_seq_drop (t : TransactionState) (e : engine) : next_seq (drop_txn t e) = next_seq e.
Proof. unfold drop_txn, release_snapshot. by repeat case_match. Qed.

(** Whether a commit goes through: there is nothing to write, or the log takes
    the batch. *)
Definition goes_through (t : TransactionState) (d : database) : bool :=
  match tx_staged t with
  | [] => true
  | staged => appends (commit_batch staged) (drop_txn t (db_lsm d))
  end.

(** A commit on the writer: the transaction ends and the log grows by its rows
    or, when it does not take them, the call fails. *)
Lemma commit_txn_steps (t t' : TransactionState) (d d' : database) r ph log l1 l2 :
  tinv (TSys (Sys (db_lsm d) ph log) (l1 ++ t :: l2)) -> db_role d = Writer ->
  next_seq (db_lsm d) < U64_MAX ->
  unhindered (commit_batch (tx_staged t)) (drop_txn t (db_lsm d)) ph ->
  (forall e c pf, write_batch env (commit_batch (tx_staged t)) (drop_txn t (db_lsm d)) = (e, Ok (c, Some pf)) ->
     drive_fits pf e) ->
  commit_txn env index t d = (t', d', r) ->
  t' = mkTransactionState (tx_id t) (tx_snapshot_seq t) true []
  /\ (goes_through t d = false -> exists err, r = Err err)
  /\ exists ph', rtc tstep (TSys (Sys (db_lsm d) ph log) (l1 ++ t :: l2))
       (TSys (Sys (db_lsm d') ph'
          (if goes_through t d then rows_at (next_seq (db_lsm d)) (commit_batch (tx_staged t)) ++ log else log))
          (l1 ++ t' :: l2)).
Proof.
  intros Hinv Hw Hmax Hph Hdrive. unfold commit_txn.
  destruct (take_staged t (db_lsm d)) as [[t1 e1] staged] eqn:Etk.
  pose proof (t_take (db_lsm d) ph log l1 t l2 t1 e1 staged Etk) as Hst1.
  pose proof (tstep_tinv _ _ Hst1 Hinv) as Hinv1.
  apply take_staged_eq in Etk as (Ht1 & He1 & ->).
  assert (txn_ok t) as Hok by (apply (ti_txns _ Hinv), in_app_iff; right; by left).
  destruct (decide (tx_staged t = [])) as [Hnil|Hne].
  { unfold goes_through. rewrite Hnil. intros [= <- <- <-]. split_and!; [done | done|]. exists ph. simpl.
    by apply rtc_once. }
  assert (goes_through t d = appends (commit_batch (tx_staged t)) e1) as Hgo
    by (unfold goes_through; rewrite He1; by destruct (tx_staged t)).
  assert (forall A (a b : A), match tx_staged t with [] => a | _ => b end = b) as -> by by destruct (tx_staged t).
  unfold check_writable. simpl. rewrite Hw. intros Hc.
  assert (batch_fits (commit_batch (tx_staged t)) e1) as Hfit.
  { split; [by rewrite He1, next_seq_drop|]. rewrite commit_batch_row_keys by done. by apply om_sorted_NoDup, Hok. }
  destruct (match write_batch env (commit_batch (tx_staged t)) e1 with
            | (e, Err err) => (set_lsm e (set_lsm e1 d), Err err)
            | (e, Ok (_, pending)) => drive_pending env pending (set_lsm e (set_lsm e1 d))
            end) as [d2 r2] eqn:E2.
  destruct (commit_rows_steps (commit_batch (tx_staged t)) (set_lsm e1 d) d2 r2 ph log) as (ph' & Hsteps);
    [apply (ti_inv _ Hinv1) | done | by rewrite He1 | by rewrite He1 | done |].
  assert (t' = t1 /\ db_lsm d' = db_lsm d2 /\ (goes_through t d = false -> exists err, r = Err err))
    as (-> & -> & Herr).
  { rewrite Hgo. destruct (write_batch env _ e1) as [e wr] eqn:E.
    pose proof (fun Ha => proj1 (write_batch_failed env _ _ _ _ Ha E)) as Hfail.
    destruct wr as [[c pending]|err]; [|by simplify_eq; eauto].
    rewrite E2 in Hc.
    assert (t' = t1 /\ db_lsm d' = db_lsm d2) as [-> ->]; [|by split_and!; [done | done | intros (err & [=])%Hfail]].
    destruct r2 as [u|err]; [|by simplify_eq].
    destruct (index_rows index _ d2) as [d3 r3] eqn:E3; simplify_eq. split; [done|].
    by eapply index_rows_lsm. }
  split_and!; [done | done|]. exists ph'. eapply rtc_l; [exact Hst1|]. apply engine_steps.
  unfold log_after, commit_entries in Hsteps. simpl in Hsteps. rewrite Hgo.
  rewrite He1, next_seq_drop in Hsteps. by rewrite He1.
Qed.

(** Snapshots above every version read the same. *)
Lemma look_latest (log : list entry) (k : bytes) (s s' : Z) :
  (forall x, In x log -> eseq x <= s) -> s <= s' -> look log k s' = look log k s.
Proof.
  intros Hle Hs. unfold look, visible, resolve. f_equal. f_equal.
  induction log as [|x log IH]; [done|]. simpl. rewrite IH by (intros y Hy; apply Hle; by right).
  assert (eseq x <= s) by (apply Hle; by left).
  assert (in_view k s' x = in_view k s x) as ->; [|done].
  apply eq_true_iff_eq. rewrite !in_view_true. intuition lia.
Qed.

Lemma kvs_sorted_same (kvs kvs' : list KeyValue) :
  kvs_sorted kvs -> kvs_sorted kvs' ->
  (forall k x, In (mkKeyValue k x) kvs <-> In (mkKeyValue k x) kvs') -> kvs = kvs'.
Proof.
  assert (forall l, kvs_sorted l -> om_sorted (map (fun kv => (kv_key kv, kv_value kv)) l)) as Hom.
  { induction l as [|x l IH]; intros Hs; [constructor|]. inversion_clear Hs as [|? ? Hs' Hf].
    simpl. apply om_sorted_cons. split; [by apply Forall_map | auto]. }
  assert (forall l k x, In (mkKeyValue k x) l <-> In (k, x) (map (fun kv => (kv_key kv, kv_value kv)) l)) as Hin.
  { intros l k x. rewrite in_map_iff. split; [intros H; by exists (mkKeyValue k x)|].
    intros ([k' x'] & [= -> ->] & H). done. }
  intros H1 H2 Hsame.
  assert (map (fun kv => (kv_key kv, kv_value kv)) kvs = map (fun kv => (kv_key kv, kv_value kv)) kvs') as Heq.
  { apply om_sorted_same; [auto..|]. intros k x. by rewrite <- !Hin. }
  clear -Heq. revert kvs' Heq. induction kvs as [|[k x] kvs IH]; intros [|[k' x'] kvs']; simpl; try done.
  intros [=]; subst. f_equal. auto.
Qed.

(** The view of an open transaction does not depend on what is committed later. *)
Lemma txn_view_stable (T T' : tsys) (t : TransactionState) (ck : bytes) :
  tinv T -> rtc tstep T T' -> In t (t_txns T) -> tx_finished t = false ->
  txn_view (y_log (t_sys T')) (Some t) ck = txn_view (y_log (t_sys T)) (Some t) ck.
Proof.
  intros Hinv Hst Hin Hf. destruct (tsteps_log _ _ Hst Hinv) as (new & Hlog & Hnew & _).
  destruct (open_txn_live _ _ Hinv Hin Hf) as [_ Hcur].
  unfold txn_view. destruct (om_get ck (tx_staged t)); [done|]. simpl. rewrite Hlog. apply look_above.
  intros x Hx%Hnew. rewrite current_seq_next in Hcur by apply (inv_next _ (ti_inv _ Hinv)). lia.
Qed.

Lemma txn_reads_are_repeatable_from (T T' : tsys) (t : TransactionState) (d d' : database) table :
  tinv T -> rtc tstep T T' ->
  In t (t_txns T) -> In t (t_txns T') -> tx_finished t = false ->
  db_lsm d = y_engine (t_sys T) -> db_lsm d' = y_engine (t_sys T') ->
  (forall key, txn_read (Some t) table key d' = txn_read (Some t) table key d)
  /\ txn_scan (Some t) table d' = txn_scan (Some t) table d.
Proof.
  intros Hinv Hst Hin Hin' Hf Hd Hd'. pose proof (tsteps_tinv _ _ Hst Hinv) as Hinv'.
  assert (readable (Some t) (t_txns T)) as Hr by done. assert (readable (Some t) (t_txns T')) as Hr' by done.
  split; [intros key; rewrite (txn_read_view T _ d), (txn_read_view T' _ d') by done; f_equal; by apply txn_view_stable|].
  destruct (txn_scan_view T (Some t) d table) as (kvs & H1 & H2 & H3); [done..|].
  destruct (txn_scan_view T' (Some t) d' table) as (kvs' & H1' & H2' & H3'); [done..|].
  rewrite H1, H1'. f_equal. apply kvs_sorted_same; [done..|]. intros k x.
  rewrite H3, H3'. by rewrite (txn_view_stable T T').
Qed.

(** C4. What a transaction reads. Take any number of connections whose
    transactions begin, stage, commit, roll back and are dropped in any order,
    between writes, flushes, compactions, lease changes and failures of the
    log's file and of the store, under the engine's discipline: one flush or
    compaction is under way at a time (no batch fills the memtable during one),
    and no other begins behind a flush that failed. In every state they reach, a
    point read of an open transaction returns its own staged write or, if it has
    none, the version its snapshot sees; without a transaction a read returns
    the latest committed version. A scan succeeds, is sorted, and lists exactly
    the keys of the table that point reads find. *)
Theorem txn_reads_snapshot_and_own_writes (T : tsys) (txn : option TransactionState) (d : database) table :
  treachable T -> readable txn (t_txns T) -> db_lsm d = y_engine (t_sys T) ->
  (forall key, txn_read txn table key d = Ok (txn_view (y_log (t_sys T)) txn (make_key table key)))
  /\ exists kvs, txn_scan txn table d = Ok kvs /\ kvs_sorted kvs
     /\ forall key x, In (mkKeyValue key x) kvs <-> txn_read txn table key d = Ok (Some x).
Proof.
  intros Hinv%treachable_tinv Hr Hd. split; [intros key; by apply txn_read_view|].
  destruct (txn_scan_view T txn d table Hinv Hr Hd) as (kvs & H1 & H2 & H3). exists kvs. split_and!; [done|done|].
  intros key x. rewrite H3, (txn_read_view T) by done. split; congruence.
Qed.

(** Snapshot isolation of transactions. As long as a transaction stages
    nothing, each of its reads and scans gives the same answer, however many
    other transactions begin, write, commit, roll back or are dropped in
    between and whatever the engine flushes or compacts. *)
Theorem txn_reads_are_repeatable (T T' : tsys) (t : TransactionState) (d d' : database) table :
  treachable T -> rtc tstep T T' ->
  In t (t_txns T) -> In t (t_txns T') -> tx_finished t = false ->
  db_lsm d = y_engine (t_sys T) -> db_lsm d' = y_engine (t_sys T') ->
  (forall key, txn_read (Some t) table key d' = txn_read (Some t) table key d)
  /\ txn_scan (Some t) table d' = txn_scan (Some t) table d.
Proof. intros Hre. apply txn_reads_are_repeatable_from. by apply treachable_tinv. Qed.

(** Snapshots are released exactly once. In every reachable state the
    count the engine holds for a snapshot is the number of open transactions
    at it, so that a transaction that is committed, rolled back, both, or
    dropped gives its snapshot back once; with no open transaction nothing
    is held, and compaction may drop every superseded version. *)
Theorem txn_snapshots_are_counted (T : tsys) :
  treachable T ->
  (forall s, default 0 (om_get s (opens (y_engine (t_sys T)))) = count_open s (t_txns T))
  /\ (forallb tx_finished (t_txns T) = true -> opens (y_engine (t_sys T)) = []).
Proof.
  intros [_ Hc _]%treachable_tinv. split.
  - intros s. rewrite (Hc s). destruct (Z.eqb_spec (count_open s (t_txns T)) 0); simpl; lia.
  - intros Hfin. rewrite forallb_forall in Hfin.
    destruct (opens (y_engine (t_sys T))) as [|[s c] m] eqn:E; [done|]. specialize (Hc s). rewrite E in Hc.
    simpl in Hc. rewrite (proj2 (keqb_true s s)) in Hc by done.
    assert (count_open s (t_txns T) = 0) as H0; [|by rewrite H0 in Hc].
    unfold count_open. rewrite (List.filter_ext_in _ (fun _ => false)), List.filter_false; [done|].
    intros t Ht. unfold open_at. by rewrite Hfin.
Qed.

(** A transaction that begins reads the committed state. *)
Lemma begin_reads_committed (T : tsys) (id : Z) (d : database) table key :
  tinv T -> db_lsm d = y_engine (t_sys T) ->
  txn_read (Some (snd (begin_txn id d))) table key (fst (begin_txn id d)) = txn_read None table key d.
Proof.
  intros Hinv Hd. destruct T as [[e ph log] l]. simpl in Hd. subst e.
  pose proof (t_begin id (db_lsm d) ph log l) as Hbegin.
  pose proof (tstep_tinv _ _ Hbegin Hinv) as Hinv2.
  rewrite (txn_read_view _ None d table key Hinv) by done.
  erewrite (txn_read_view _ (Some _)); [|exact Hinv2 | split; [apply in_app_iff; right; by left | done] | done].
  unfold txn_view. simpl. f_equal. symmetry. pose proof (inv_next _ (ti_inv _ Hinv)) as Hn. simpl in Hn.
  rewrite (current_seq_next (db_lsm d)) by done. apply look_latest; [|lia].
  intros x Hx. apply (inv_log_seq _ (ti_inv _ Hinv)) in Hx. simpl in Hx. lia.
Qed.

(** C3. Commits are atomic and isolated. Take a node in the writer role, in a
    state that transactions reach under the discipline of the engine's steps, with
    no maintenance under way or room in the memtable for the transaction's rows,
    commit numbers left, and tables that fit their format should the commit
    flush. The commit ends the transaction. When the log takes the batch, reads
    outside transactions then see every row the transaction staged and no other
    row changes for them, also when the call reports an error afterwards, which
    a failed flush or index update makes it do. When the append fails, so does the call,
    and no read changes. Either way no other open transaction sees any of it, in a
    point read or in a scan, and a transaction that begins next reads what reads
    outside transactions see. *)
Theorem txn_commit_is_atomic (t t' : TransactionState) (d d' : database) r ph log l1 l2 :
  treachable (TSys (Sys (db_lsm d) ph log) (l1 ++ t :: l2)) -> db_role d = Writer ->
  next_seq (db_lsm d) < U64_MAX ->
  unhindered (commit_batch (tx_staged t)) (drop_txn t (db_lsm d)) ph ->
  (forall e c pf, write_batch env (commit_batch (tx_staged t)) (drop_txn t (db_lsm d)) = (e, Ok (c, Some pf)) ->
     drive_fits pf e) ->
  commit_txn env index t d = (t', d', r) ->
  (tx_finished t' = true /\ tx_staged t' = [])
  /\ (goes_through t d = false -> exists err, r = Err err)
  /\ (forall table key, txn_read None table key d' =
        match (if goes_through t d then om_get (make_key table key) (tx_staged t) else None) with
        | Some v => Ok v
        | None => txn_read None table key d
        end)
  /\ (forall t2 table, In t2 (l1 ++ l2) -> tx_finished t2 = false ->
        (forall key, txn_read (Some t2) table key d' = txn_read (Some t2) table key d)
        /\ txn_scan (Some t2) table d' = txn_scan (Some t2) table d)
  /\ (forall id table key, txn_read (Some (snd (begin_txn id d'))) table key (fst (begin_txn id d'))
        = txn_read None table key d').
Proof.
  intros Hre Hw Hmax Hph Hdrive Hc. pose proof (treachable_tinv _ Hre) as Hinv.
  destruct (commit_txn_steps t t' d d' r ph log l1 l2 Hinv Hw Hmax Hph Hdrive Hc) as (-> & Herr & ph' & Hst).
  pose proof (tsteps_tinv _ _ Hst Hinv) as Hinv'.
  assert (txn_ok t) as Hok by (apply (ti_txns _ Hinv), in_app_iff; right; by left).
  pose proof (inv_next _ (ti_inv _ Hinv)) as Hn. simpl in Hn.
  set (T := TSys (Sys (db_lsm d) ph log) (l1 ++ t :: l2)) in *.
  set (T' := TSys (Sys (db_lsm d') ph' _) _) in Hst, Hinv'.
  split_and!; [done | done | done | | |].
  - intros table key. rewrite (txn_read_view T' None d'), (txn_read_view T None d) by done.
    unfold txn_view; simpl. destruct (goes_through t d); [|done]. rewrite commit_look; [|done|lia]. by case_match.
  - intros t2 table Hin Hf.
    assert (In t2 (t_txns T) /\ In t2 (t_txns T')) as [H1 H2].
    { simpl. rewrite !in_app_iff. simpl. apply in_app_iff in Hin as [?|?]; tauto. }
    exact (txn_reads_are_repeatable_from T T' t2 d d' table Hinv Hst H1 H2 Hf eq_refl eq_refl).
  - intros id table key. by apply (begin_reads_committed T' id d' table key).
Qed.

(** An autocommit row, written or deleted, as the engine's steps. *)
Lemma autocommit_steps (d d' : database) r ph log table key (value : option bytes) :
  let rows := [(table, make_key table key, value)] in
  inv (Sys (db_lsm d) ph log) -> db_role d = Writer -> next_seq (db_lsm d) < U64_MAX ->
  unhindered rows (db_lsm d) ph ->
  (forall e c pf, write_batch env rows (db_lsm d) = (e, Ok (c, Some pf)) -> drive_fits pf e) ->
  match value with
  | Some v => db_write env index table key v d
  | None => db_delete env table key d
  end = (d', r) ->
  exists ph', rtc estep (Sys (db_lsm d) ph log) (Sys (db_lsm d') ph' (log_after rows (db_lsm d) log)).
Proof.
  intros rows Hinv Hw Hmax Hph Hdrive Heq.
  assert (batch_fits rows (db_lsm d)) as Hfit by (split; [done | repeat constructor; simpl; tauto]).
  destruct (match write_batch env rows (db_lsm d) with
            | (e, Err err) => (set_lsm e d, Err err)
            | (e, Ok (_, pending)) => drive_pending env pending (set_lsm e d)
            end) as [d2 r2] eqn:E2.
  destruct (commit_rows_steps rows d d2 r2 ph log Hinv Hfit Hph Hdrive E2) as (ph' & Hsteps).
  exists ph'. assert (db_lsm d' = db_lsm d2) as ->; [|done].
  destruct value as [v|]; unfold db_write, db_delete, check_writable, lsm_write, lsm_delete in Heq;
    rewrite Hw in Heq; fold rows in Heq;
    destruct (write_batch env rows (db_lsm d)) as [e [[c pending]|err]]; try by simplify_eq.
  - rewrite E2 in Heq. destruct r2 as [u|err]; [|by simplify_eq]. by eapply index_rows_lsm.
  - rewrite E2 in Heq. by simplify_eq.
Qed.

(** One more row in the log, or none, at the latest commit. *)
Lemma log_after_look (row : batch_row) (e e' : engine) ph ph' log k :
  inv (Sys e ph log) -> inv (Sys e' ph' (log_after [row] e log)) -> next_seq e <= next_seq e' ->
  look (log_after [row] e log) k (current_seq e') =
    if appends [row] e && keqb k (row_key row) then row_value row else look log k (current_seq e).
Proof.
  intros Hinv Hinv' Hle. pose proof (inv_next _ Hinv) as Hn. pose proof (inv_next _ Hinv') as Hn'.
  pose proof (inv_log_seq _ Hinv) as Hls. pose proof (inv_log_seq _ Hinv') as Hls'.
  simpl in Hn, Hn', Hls, Hls'. rewrite !current_seq_next by done.
  assert (look log k (next_seq e' - 1) = look log k (next_seq e - 1)) as Hold
    by (apply look_latest; [intros x Hx%Hls; lia | lia]).
  unfold log_after, commit_entries in *. destruct (appends [row] e); [|done]. rewrite look_app.
  assert (next_seq e < next_seq e') as Hlt.
  { specialize (Hls' (row_entry (next_seq e) row)). rewrite row_entry_seq in Hls'. apply Hls'. by left. }
  destruct (keqb k (row_key row)) eqn:E; cbn [andb].
  - apply keqb_true in E. subst k. rewrite (rows_at_visible _ [row] row); [done | | by left | lia].
    repeat constructor. simpl. tauto.
  - apply keqb_false in E. rewrite rows_at_invisible; [done|]. simpl. intuition congruence.
Qed.

(** Autocommit rows. When the log takes a row written or deleted outside a
    transaction, it reads back at once and every other row reads as before, also
    when the call reports an error, which a failed flush or index update after
    the row is in makes it do; when the log does not take it no row changes. No
    open transaction sees it. The conditions are those of a commit. *)
Theorem autocommit_rows_are_visible (d d' : database) r ph log l table key (value : option bytes) :
  let rows := [(table, make_key table key, value)] in
  treachable (TSys (Sys (db_lsm d) ph log) l) -> db_role d = Writer -> next_seq (db_lsm d) < U64_MAX ->
  unhindered rows (db_lsm d) ph ->
  (forall e c pf, write_batch env rows (db_lsm d) = (e, Ok (c, Some pf)) -> drive_fits pf e) ->
  match value with
  | Some v => db_write env index table key v d
  | None => db_delete env table key d
  end = (d', r) ->
  (forall table' key', db_read table' key' d' =
     if appends rows (db_lsm d) && keqb (make_key table' key') (make_key table key)
     then Ok value else db_read table' key' d)
  /\ forall t table', In t l -> tx_finished t = false ->
     txn_scan (Some t) table' d' = txn_scan (Some t) table' d.
Proof.
  intros rows Hre Hw Hmax Hph Hdrive Heq. pose proof (treachable_tinv _ Hre) as Hinv.
  destruct (autocommit_steps d d' r ph log table key value) as (ph' & Hst); [apply (ti_inv _ Hinv)|done..|].
  apply (engine_steps _ _ l) in Hst. pose proof (tsteps_tinv _ _ Hst Hinv) as Hinv'. split.
  - intros table' key'. unfold db_read, lsm_read.
    destruct (tsteps_log _ _ Hst Hinv) as (_ & _ & _ & Hle).
    destruct (inv_reads _ (current_seq (db_lsm d)) (ti_inv _ Hinv)) as [Hr _]; [by left|].
    destruct (inv_reads _ (current_seq (db_lsm d')) (ti_inv _ Hinv')) as [Hr' _]; [by left|].
    cbn [t_sys y_engine y_log] in Hr, Hr'. rewrite Hr, Hr'.
    rewrite (log_after_look _ _ _ _ _ _ _ (ti_inv _ Hinv) (ti_inv _ Hinv') Hle).
    unfold row_key, row_value; simpl. fold rows. by destruct (_ && _).
  - intros t table' Hin Hf.
    by apply (txn_reads_are_repeatable_from _ _ t d d' table' Hinv Hst).
Qed.

End System.

(** ** Two connections: one stages a row and commits, the other began before *)
Section Demo.

#[local] Existing Instance demo_sha.

Definition no_index (table : string) (key value : bytes) (i : unit) : unit * Result unit := (i, Ok tt).

Abbreviation demo_db := (@Database list_skipmap demo_bloom LocalFs unit).
Abbreviation demo_tsys := (@tsys list_skipmap demo_bloom LocalFs).

Definition txn_d0 : demo_db := mkDatabase Writer (fresh_engine (mkLocalFs ∅ []) true 1) tt.
Definition txn_d1 : demo_db := fst (begin_txn 1 txn_d0).
Definition txn_a0 : TransactionState := snd (begin_txn 1 txn_d0).
Definition txn_a : TransactionState := stage_write (make_key "t" [Byte.x6b]) [Byte.x31] txn_a0.
Definition txn_d2 : demo_db := fst (begin_txn 2 txn_d1).
Definition txn_b : TransactionState := snd (begin_txn 2 txn_d1).
Definition txn_T : demo_tsys := TSys (Sys (db_lsm txn_d2) Idle []) [txn_a; txn_b].

(** After the first connection's commit. *)
Definition txn_d3 : demo_db := snd (fst (commit_txn demo_env no_index txn_a txn_d2)).
Definition txn_T' : demo_tsys :=
  TSys (run_write demo_env (commit_batch (tx_staged txn_a)) (Sys (drop_txn txn_a (db_lsm txn_d2)) Idle []))
    [mkTransactionState 1 0 true []; txn_b].

Lemma demo_table : table_name "t".
Proof. split; [by vm_compute | vm_compute; intuition discriminate]. Qed.

Lemma txn_T_reachable : treachable demo_env txn_T.
Proof.
  exists (Sys (db_lsm txn_d0) Idle []). split; [by exists (mkLocalFs ∅ []), true, 1|].
  eapply rtc_l; [apply (t_begin demo_env 1)|].
  eapply rtc_l; [apply (t_stage_write demo_env "t" [Byte.x6b] [Byte.x31] _ [] txn_a0 []), demo_table|].
  eapply rtc_l; [apply (t_begin demo_env 2)|]. apply rtc_refl.
Qed.

Lemma txn_T_to_T' : rtc (tstep demo_env) txn_T txn_T'.
Proof.
  eapply rtc_l; [eapply (t_take demo_env _ _ _ [] txn_a [txn_b]); reflexivity|].
  apply rtc_once. apply t_engine. split; [|by vm_compute].
  apply (step_write demo_env (commit_batch (tx_staged txn_a))); [|by left|].
  - split; [by vm_compute | repeat constructor; simpl; tauto].
  - apply surjective_pairing.
Qed.

Lemma txn_reads_snapshot_and_own_writes_witness :
  txn_read (Some txn_a) "t" [Byte.x6b] txn_d2 = Ok (Some [Byte.x31])
  /\ txn_read (Some txn_b) "t" [Byte.x6b] txn_d2 = Ok None.
Proof.
  destruct (txn_reads_snapshot_and_own_writes demo_env txn_T (Some txn_a) txn_d2 "t" txn_T_reachable)
    as [Ha _]; [split; [by left | done] | done |].
  destruct (txn_reads_snapshot_and_own_writes demo_env txn_T (Some txn_b) txn_d2 "t" txn_T_reachable)
    as [Hb _]; [split; [right; by left | done] | done |].
  split; [rewrite Ha | rewrite Hb]; vm_compute; reflexivity.
Defined.

Lemma txn_reads_are_repeatable_witness :
  txn_scan (Some txn_b) "t" (mkDatabase Writer (y_engine (t_sys txn_T')) tt) = txn_scan (Some txn_b) "t" txn_d2
  /\ txn_scan None "t" (mkDatabase Writer (y_engine (t_sys txn_T')) tt)
     = Ok [mkKeyValue [Byte.x6b] [Byte.x31]].
Proof.
  split; [|by vm_compute].
  refine (proj2 (txn_reads_are_repeatable demo_env txn_T txn_T' txn_b txn_d2 _ "t"
    txn_T_reachable txn_T_to_T' _ _ _ _ _)); try reflexivity; right; by left.
Defined.

Lemma txn_snapshots_are_counted_witness :
  om_get 0 (ws_open_snapshots (e_write (y_engine (t_sys txn_T)))) = Some 2 /\ count_open 0 (t_txns txn_T) = 2.
Proof.
  destruct (txn_snapshots_are_counted demo_env txn_T txn_T_reachable) as [H _].
  split; [by vm_compute | rewrite <- (H 0); by vm_compute].
Defined.

Lemma txn_commit_is_atomic_witness :
  txn_read None "t" [Byte.x6b] txn_d3 = Ok (Some [Byte.x31])
  /\ txn_read (Some txn_b) "t" [Byte.x6b] txn_d3 = txn_read (Some txn_b) "t" [Byte.x6b] txn_d2
  /\ snd (commit_txn demo_env no_index txn_a txn_d2) = Ok tt.
Proof.
  destruct (txn_commit_is_atomic demo_env no_index txn_a
      (fst (fst (commit_txn demo_env no_index txn_a txn_d2))) txn_d2 txn_d3
      (snd (commit_txn demo_env no_index txn_a txn_d2)) Idle [] [] [txn_b]) as (_ & _ & Hnone & Hothers & _).
  - exact txn_T_reachable.
  - reflexivity.
  - by vm_compute.
  - by left.
  - intros e c pf Hw. vm_compute in Hw. discriminate Hw.
  - unfold txn_d3. by destruct (commit_txn demo_env no_index txn_a txn_d2) as [[? ?] ?].
  - split_and!; [rewrite Hnone; by vm_compute | | by vm_compute].
    apply (proj1 (Hothers txn_b "t"%string (or_introl eq_refl) eq_refl)).
Defined.

Lemma autocommit_rows_are_visible_witness :
  let '(d, r) := db_write demo_env no_index "t" [Byte.x6a] [Byte.x37] txn_d2 in
  r = Ok tt /\ db_read "t" [Byte.x6a] d = Ok (Some [Byte.x37]) /\ db_read "t" [Byte.x6b] d = Ok None.
Proof.
  destruct (db_write demo_env no_index "t" [Byte.x6a] [Byte.x37] txn_d2) as [d r] eqn:E.
  destruct (autocommit_rows_are_visible demo_env no_index txn_d2 d r Idle [] [txn_a; txn_b] "t" [Byte.x6a]
    (Some [Byte.x37])) as [H _].
  - exact txn_T_reachable.
  - reflexivity.
  - by vm_compute.
  - by left.
  - intros e c pf Hw. vm_compute in Hw. discriminate Hw.
  - exact E.
  - split_and!; [|rewrite H; by vm_compute..].
    apply (f_equal snd) in E. change (snd (d, r)) with r in E. rewrite <- E. by vm_compute.
Defined.

(** Concurrent updates are not detected. Two transactions begin at the
    same snapshot, both read the row, both write it and both commit without
    an error; the first committer's update is lost. *)
Theorem txn_lost_update :
  let key := [Byte.x6b] in
  let b' := stage_write (make_key "t" key) [Byte.x32] txn_b in
  let '(_, d, ra) := commit_txn demo_env no_index txn_a txn_d2 in
  let '(_, d', rb) := commit_txn demo_env no_index b' d in
  txn_read (Some txn_a0) "t" key txn_d2 = txn_read (Some txn_b) "t" key txn_d2
  /\ ra = Ok tt /\ rb = Ok tt
  /\ txn_read None "t" key d = Ok (Some [Byte.x31])
  /\ txn_read None "t" key d' = Ok (Some [Byte.x32]).
Proof. vm_compute. split_and!; reflexivity. Qed.

End Demo.
