(* ===== verification/Compress.v ===== *)
(** The time-series codecs ([storage/compress.rs]).

    - [BitWriter] and [BitReader], most significant bit first;
    - [gorilla_encode] and [gorilla_decode]; an [f64] is its bit pattern
      ([to_bits] and [from_bits] are then the identity);
    - zigzag, varint and the delta-of-delta codec, in the wrapping arithmetic
      of a release build;
    - [dictionary_encode].

    The data behind a cursor is the list of the bytes that are left. *)

From Stdlib Require Import Strings.Byte Strings.String ZArith Lia.
From stdpp Require Import base list gmap strings.
From S2P Require Import Prelude.

Open Scope Z_scope.

(** ** Bits *)

Record BitWriter := mkBitWriter { bw_buf : bytes; bw_cur : Z; bw_nbits : Z }.

Definition bw_new : BitWriter := mkBitWriter [] 0 0.

Definition write_bit (bit : bool) (w : BitWriter) : BitWriter :=
  let cur := Z.lor (Z.shiftl (bw_cur w) 1 mod 2 ^ 8) (Z.b2z bit) in
  let nbits := bw_nbits w + 1 in
  if nbits =? 8 then mkBitWriter (bw_buf w ++ [byte_of_Z cur]) 0 0
  else mkBitWriter (bw_buf w) cur nbits.

(** [for i in (0..count).rev() { write_bit((value >> i) & 1 == 1) }] *)
Fixpoint write_bits (value : Z) (count : nat) (w : BitWriter) : BitWriter :=
  match count with
  | O => w
  | S i => write_bits value i (write_bit (Z.land (Z.shiftr value (Z.of_nat i)) 1 =? 1) w)
  end.

Definition bw_finish (w : BitWriter) : bytes * Z :=
  if bw_nbits w >? 0
  then (bw_buf w ++ [byte_of_Z (Z.shiftl (bw_cur w) (8 - bw_nbits w) mod 2 ^ 8)], bw_nbits w)
  else (bw_buf w, bw_nbits w).

Record BitReader := mkBitReader { br_buf : bytes; br_byte_pos : Z; br_bit_pos : Z }.

Definition br_new (buf : bytes) : BitReader := mkBitReader buf 0 0.

Definition read_bit (r : BitReader) : option (bool * BitReader) :=
  byte ← br_buf r !! Z.to_nat (br_byte_pos r);
  let bit := Z.land (Z.shiftr (Z_of_byte byte) (7 - br_bit_pos r)) 1 =? 1 in
  let bit_pos := br_bit_pos r + 1 in
  Some (bit, if bit_pos =? 8 then mkBitReader (br_buf r) (br_byte_pos r + 1) 0
             else mkBitReader (br_buf r) (br_byte_pos r) bit_pos).

(** The value read so far and the reader, which also moves when the data ends. *)
Fixpoint read_bits_loop (count : nat) (v : Z) (r : BitReader) : option Z * BitReader :=
  match count with
  | O => (Some v, r)
  | S n =>
      match read_bit r with
      | None => (None, r)
      | Some (bit, r) => read_bits_loop n (Z.lor (Z.shiftl v 1 mod 2 ^ 64) (Z.b2z bit)) r
      end
  end.

Definition read_bits (count : Z) (r : BitReader) : option Z * BitReader :=
  read_bits_loop (Z.to_nat count) 0 r.

(** ** Gorilla *)

(** [u64::leading_zeros] and [u64::trailing_zeros] *)
Definition leading_zeros (x : Z) : Z := if x =? 0 then 64 else 63 - Z.log2 x.

Fixpoint pos_trailing_zeros (p : positive) : Z :=
  match p with xO p => 1 + pos_trailing_zeros p | _ => 0 end.
Definition trailing_zeros (x : Z) : Z :=
  match x with Zpos p => pos_trailing_zeros p | _ => 64 end.

(** [u8] subtraction in a release build. *)
Definition u8_sub (a b : Z) : Z := (a - b) mod 2 ^ 8.

(** The sentinel: no previous window. *)
Definition NO_WINDOW : Z := 65.

Record Window := mkWindow { win_leading : Z; win_trailing : Z }.

(** One turn of the encoder's loop. *)
Definition gorilla_encode_value (prev : Z) (win : Window) (bits : Z) (w : BitWriter)
    : Window * BitWriter :=
  let xor := Z.lxor bits prev in
  if xor =? 0 then (win, write_bit false w)
  else
    let w := write_bit true w in
    let leading := leading_zeros xor in
    let trailing := trailing_zeros xor in
    if negb (win_leading win =? NO_WINDOW) && (leading >=? win_leading win)
       && (trailing >=? win_trailing win)
    then
      let w := write_bit false w in
      let meaningful := u8_sub (u8_sub 64 (win_leading win)) (win_trailing win) in
      (win, write_bits (Z.shiftr xor (win_trailing win)) (Z.to_nat meaningful) w)
    else
      let w := write_bit true w in
      let w := write_bits leading 6 w in
      let meaningful := u8_sub (u8_sub 64 leading) trailing in
      let w := write_bits meaningful 6 w in
      (mkWindow leading trailing, write_bits (Z.shiftr xor trailing) (Z.to_nat meaningful) w).

Fixpoint gorilla_encode_loop (values : list Z) (prev : Z) (win : Window) (w : BitWriter) : BitWriter :=
  match values with
  | [] => w
  | bits :: values' =>
      let '(win, w) := gorilla_encode_value prev win bits w in
      gorilla_encode_loop values' bits win w
  end.

Definition gorilla_encode (values : list Z) : bytes :=
  match values with
  | [] => []
  | prev :: rest =>
      let w := write_bits prev 64 bw_new in
      let w := gorilla_encode_loop rest prev (mkWindow NO_WINDOW 0) w in
      let '(bytes, valid_last_bits) := bw_finish w in
      u32_to_be (zlen values) ++ byte_of_Z valid_last_bits :: bytes
  end.

(** One turn of the decoder's loop; [None] is its [break]. *)
Definition gorilla_decode_value (prev : Z) (win : Window) (r : BitReader)
    : option (Z * Window * BitReader) :=
  '(control, r) ← read_bit r;
  if negb control then Some (prev, win, r)
  else
    '(new_window, r) ← read_bit r;
    let '(win, r) :=
      if (new_window : bool) then
        let '(leading, r) := read_bits 6 r in
        let leading := default 0 leading in
        let '(meaningful_raw, r) := read_bits 6 r in
        let meaningful_raw := default 0 meaningful_raw in
        let meaningful := if meaningful_raw =? 0 then 64 else meaningful_raw in
        (mkWindow leading (u8_sub (u8_sub 64 leading) meaningful), r)
      else (win, r) in
    let meaningful := u8_sub (u8_sub 64 (win_leading win)) (win_trailing win) in
    let '(bits, r) := read_bits meaningful r in
    let xor := Z.shiftl (default 0 bits) (win_trailing win mod 64) mod 2 ^ 64 in
    Some (Z.lxor prev xor, win, r).

Fixpoint gorilla_decode_loop (count : nat) (prev : Z) (win : Window) (r : BitReader) : list Z :=
  match count with
  | O => []
  | S n =>
      match gorilla_decode_value prev win r with
      | None => []
      | Some (prev, win, r) => prev :: gorilla_decode_loop n prev win r
      end
  end.

Definition gorilla_decode (data : bytes) : list Z :=
  if zlen data <? 5 then []
  else
    let count := from_be (slice data 0 4) in
    if count =? 0 then []
    else
      let '(first, r) := read_bits 64 (br_new (drop 5 data)) in
      let prev := default 0 first in
      prev :: gorilla_decode_loop (Z.to_nat count - 1) prev (mkWindow NO_WINDOW 0) r.

(** ** Zigzag and varint *)

(** The [i64] with the given residue modulo [2^64]. *)
Definition i64_wrap (z : Z) : Z := (z + 2 ^ 63) mod 2 ^ 64 - 2 ^ 63.
Definition is_i64 (z : Z) : Prop := - 2 ^ 63 <= z < 2 ^ 63.

Definition zigzag_encode (v : Z) : Z :=
  Z.lxor (i64_wrap (Z.shiftl v 1)) (Z.shiftr v 63) mod 2 ^ 64.

Definition zigzag_decode (v : Z) : Z :=
  Z.lxor (i64_wrap (Z.shiftr v 1)) (- Z.land v 1).

(** Ten groups of seven bits hold a [u64]. *)
Fixpoint write_varint_loop (fuel : nat) (v : Z) : bytes :=
  match fuel with
  | O => []
  | S fuel' =>
      let byte := Z.land v 127 in
      let v := Z.shiftr v 7 in
      if v =? 0 then [byte_of_Z byte]
      else byte_of_Z (Z.lor byte 128) :: write_varint_loop fuel' v
  end.

Definition write_varint (v : Z) : bytes := write_varint_loop 10 v.

(** The loop consumes a byte per turn, so that the data bounds it. *)
Fixpoint read_varint_loop (data : bytes) (v shift : Z) : option (Z * bytes) :=
  match data with
  | [] => None
  | byte :: data' =>
      let v := Z.lor v (Z.shiftl (Z.land (Z_of_byte byte) 127) (shift mod 64) mod 2 ^ 64) in
      if Z.land (Z_of_byte byte) 128 =? 0 then Some (v, data')
      else read_varint_loop data' v (shift + 7)
  end.

Definition read_varint (data : bytes) : option (Z * bytes) := read_varint_loop data 0 0.

(** ** Delta of delta *)

Fixpoint delta_delta_encode_loop (values : list Z) (prev prev_delta : Z) : bytes :=
  match values with
  | [] => []
  | v :: values' =>
      let delta := i64_wrap (v - prev) in
      let dd := i64_wrap (delta - prev_delta) in
      write_varint (zigzag_encode dd) ++ delta_delta_encode_loop values' v delta
  end.

Definition delta_delta_encode (values : list Z) : bytes :=
  write_varint (zlen values) ++
  match values with
  | [] => []
  | [v0] => write_varint (zigzag_encode v0)
  | v0 :: v1 :: rest =>
      let prev_delta := i64_wrap (v1 - v0) in
      write_varint (zigzag_encode v0) ++ write_varint (zigzag_encode prev_delta)
      ++ delta_delta_encode_loop rest v1 prev_delta
  end.

Fixpoint delta_delta_decode_loop (count : nat) (data : bytes) (prev prev_delta : Z) : list Z :=
  match count with
  | O => []
  | S n =>
      match read_varint data with
      | None => []
      | Some (dd_raw, data) =>
          let delta := i64_wrap (prev_delta + zigzag_decode dd_raw) in
          let v := i64_wrap (prev + delta) in
          v :: delta_delta_decode_loop n data v delta
      end
  end.

Definition delta_delta_decode (data : bytes) : list Z :=
  match read_varint data with
  | None => []
  | Some (count, data) =>
      if count =? 0 then []
      else match read_varint data with
      | None => []
      | Some (first, data) =>
          let first := zigzag_decode first in
          if count =? 1 then [first]
          else match read_varint data with
          | None => [first]
          | Some (d0, data) =>
              let prev_delta := zigzag_decode d0 in
              let prev := i64_wrap (first + prev_delta) in
              first :: prev :: delta_delta_decode_loop (Z.to_nat count - 2) data prev prev_delta
          end
      end
  end.

(** ** Dictionary *)

Fixpoint dictionary_encode_loop (values : list string) (dict : list string) (index : gmap string Z)
    (codes : list Z) : list string * list Z :=
  match values with
  | [] => (dict, codes)
  | v :: values' =>
      match index !! v with
      | Some code => dictionary_encode_loop values' dict index (codes ++ [code])
      | None =>
          let dict := dict ++ [v] in
          let code := (zlen dict - 1) mod 2 ^ 32 in
          dictionary_encode_loop values' dict (<[v := code]> index) (codes ++ [code])
      end
  end.

Definition dictionary_encode (values : list string) : list string * list Z :=
  dictionary_encode_loop values [] ∅ [].

(** ** The bits a writer holds and a reader has left *)


(** The value of a list of bits after [v]. *)
Definition bits_val (v : Z) (bs : list bool) : Z := fold_left (fun v b => 2 * v + Z.b2z b) bs v.

Definition bw_bits (w : BitWriter) : list bool :=
  bits_of_bytes (bw_buf w) ++ be_bits (Z.to_nat (bw_nbits w)) (bw_cur w).

Definition bw_ok (w : BitWriter) : Prop := 0 <= bw_nbits w < 8 /\ 0 <= bw_cur w < 2 ^ bw_nbits w.

Definition br_bits (r : BitReader) : list bool :=
  drop (Z.to_nat (8 * br_byte_pos r + br_bit_pos r)) (bits_of_bytes (br_buf r)).

Definition br_ok (r : BitReader) : Prop := 0 <= br_byte_pos r /\ 0 <= br_bit_pos r < 8.

Lemma land1_testbit (v i : Z) : 0 <= i -> (Z.land (Z.shiftr v i) 1 =? 1) = Z.testbit v i.
Proof.
  intros Hi. change 1 with (Z.ones 1) at 1. rewrite Z.land_ones by lia. change (2 ^ 1) with 2.
  rewrite <- Z.bit0_mod, Z.shiftr_spec, Z.add_0_l by lia. by destruct (Z.testbit v i).
Qed.

Lemma bits_val_be_bits (n : nat) (v : Z) (rest : list bool) (acc : Z) :
  bits_val acc (be_bits n v ++ rest) = bits_val (acc * 2 ^ Z.of_nat n + v mod 2 ^ Z.of_nat n) rest.
Proof.
  unfold bits_val. revert acc. induction n as [|n IH]; intros acc; cbn [be_bits app fold_left].
  - change (2 ^ Z.of_nat 0) with 1. f_equal. rewrite Z.mod_1_r. lia.
  - rewrite IH. f_equal. replace (Z.of_nat (S n)) with (Z.of_nat n + 1) by lia.
    rewrite Z.pow_add_r by lia. change (2 ^ 1) with 2.
    rewrite (Z.rem_mul_r v (2 ^ Z.of_nat n) 2) by lia.
    rewrite <- Z.testbit_spec' by lia. lia.
Qed.

(** Or-ing bits above those already there. *)
(** *** Writing *)

Lemma write_bit_bits (b : bool) (w : BitWriter) :
  bw_ok w -> bw_ok (write_bit b w) /\ bw_bits (write_bit b w) = bw_bits w ++ [b].
Proof.
  destruct w as [buf cur n]. intros [Hn Hc]. simpl in *. unfold write_bit; simpl.
  assert (2 ^ n * 2 <= 2 ^ 8) as Hp.
  { change (2 ^ n * 2) with (2 ^ n * 2 ^ 1). rewrite <- Z.pow_add_r by lia. apply Z.pow_le_mono_r; lia. }
  rewrite Z.shiftl_mul_pow2 by lia. change (2 ^ 1) with 2.
  rewrite Z.mod_small by lia. rewrite Z.mul_comm, lor_b2z.
  assert (0 <= 2 * cur + Z.b2z b < 2 ^ n * 2) as Hcur by (destruct b; simpl; lia).
  assert (bits_of_bytes buf ++ be_bits (S (Z.to_nat n)) (2 * cur + Z.b2z b)
    = (bits_of_bytes buf ++ be_bits (Z.to_nat n) cur) ++ [b]) as Hbits
    by (by rewrite be_bits_snoc, app_assoc).
  destruct (Z.eqb_spec (n + 1) 8) as [H8|H8].
  - split; [done|]. unfold bw_bits; simpl. rewrite <- Hbits, bits_of_bytes_app, bits_of_byte_of_Z by lia.
    rewrite app_nil_r. replace (S (Z.to_nat n)) with 8%nat by lia. done.
  - split.
    + split; simpl; [lia|]. rewrite Z.pow_add_r by lia. lia.
    + unfold bw_bits; simpl. rewrite <- Hbits. by replace (Z.to_nat (n + 1)) with (S (Z.to_nat n)) by lia.
Qed.

Lemma write_bits_bits (v : Z) (n : nat) (w : BitWriter) :
  bw_ok w -> bw_ok (write_bits v n w) /\ bw_bits (write_bits v n w) = bw_bits w ++ be_bits n v.
Proof.
  revert w. induction n as [|n IH]; intros w Hw; simpl; [by rewrite app_nil_r|].
  rewrite land1_testbit by lia. destruct (write_bit_bits (Z.testbit v (Z.of_nat n)) w Hw) as [Hok Hb].
  destruct (IH _ Hok) as [Hok' ->]. split; [done|]. rewrite Hb, <- app_assoc. done.
Qed.

(** Finishing pads the last byte with zero bits. *)
Lemma bw_finish_bits (w : BitWriter) :
  bw_ok w -> exists pad, bits_of_bytes (fst (bw_finish w)) = bw_bits w ++ pad.
Proof.
  destruct w as [buf cur n]. intros [Hn Hc]. simpl in *. unfold bw_finish; simpl.
  destruct (Z.gtb_spec n 0) as [H|H]; simpl.
  - exists (be_bits (Z.to_nat (8 - n)) 0). unfold bw_bits; simpl. rewrite bits_of_bytes_app, <- app_assoc. f_equal.
    assert (0 <= cur * 2 ^ (8 - n) < 2 ^ 8) as Hr.
    { replace (2 ^ 8) with (2 ^ n * 2 ^ (8 - n)) by (rewrite <- Z.pow_add_r by lia; f_equal; lia). nia. }
    rewrite Z.shiftl_mul_pow2, Z.mod_small, bits_of_byte_of_Z by lia.
    replace 8%nat with (Z.to_nat n + Z.to_nat (8 - n))%nat by lia.
    clear Hr. generalize (Z.to_nat n). intros m. induction m as [|m IH].
    + simpl. apply be_bits_ext. intros i Hi. rewrite Z.bits_0. apply Z.mul_pow2_bits_low. lia.
    + cbn [be_bits Nat.add app]. f_equal; [|apply IH].
      rewrite Nat2Z.inj_add, Z2Nat.id, Z.add_comm, Z.mul_pow2_bits_add by lia. done.
  - exists []. unfold bw_bits; simpl. replace (Z.to_nat n) with O by lia. by rewrite !app_nil_r.
Qed.

(** *** Reading *)

Lemma drop_bits_of_bytes (i : nat) (buf : bytes) :
  drop (8 * i) (bits_of_bytes buf) = bits_of_bytes (drop i buf).
Proof.
  revert buf. induction i as [|i IH]; intros buf; [done|].
  destruct buf as [|b buf]; [by rewrite drop_nil|].
  replace (8 * S i)%nat with (8 + 8 * i)%nat by lia.
  change (bits_of_bytes (b :: buf)) with (be_bits 8 (Z_of_byte b) ++ bits_of_bytes buf).
  rewrite <- drop_drop, (drop_app_length' _ _ 8) by (symmetry; apply length_be_bits). apply IH.
Qed.

Lemma read_bit_bits (r : BitReader) (b : bool) (rest : list bool) :
  br_ok r -> br_bits r = b :: rest ->
  exists r', read_bit r = Some (b, r') /\ br_ok r' /\ br_bits r' = rest.
Proof.
  destruct r as [buf i k]. intros [Hi Hk]. unfold br_bits; simpl in *. intros Hb.
  replace (Z.to_nat (8 * i + k)) with (8 * Z.to_nat i + Z.to_nat k)%nat in Hb by lia.
  rewrite <- drop_drop, drop_bits_of_bytes in Hb.
  destruct (drop (Z.to_nat i) buf) as [|x xs] eqn:Ed; [change (bits_of_bytes []) with (@nil bool) in Hb; by rewrite drop_nil in Hb|].
  change (bits_of_bytes (x :: xs)) with (be_bits 8 (Z_of_byte x) ++ bits_of_bytes xs) in Hb.
  assert (buf !! Z.to_nat i = Some x) as Hx.
  { replace (Z.to_nat i) with (Z.to_nat i + 0)%nat by lia. by rewrite <- lookup_drop, Ed. }
  unfold read_bit; simpl. rewrite Hx. simpl. rewrite land1_testbit by lia.
  assert (b = Z.testbit (Z_of_byte x) (7 - k) /\
    rest = drop (Z.to_nat (k + 1)) (be_bits 8 (Z_of_byte x) ++ bits_of_bytes xs)) as [-> ->].
  { assert (k = 0 \/ k = 1 \/ k = 2 \/ k = 3 \/ k = 4 \/ k = 5 \/ k = 6 \/ k = 7) as Hc by lia.
    destruct_or! Hc; subst k; cbn in Hb; injection Hb as <- <-; done. }
  eexists. split; [done|]. destruct (Z.eqb_spec (k + 1) 8) as [H8|H8]; (split; [split; simpl; lia|]);
    cbn [br_buf br_byte_pos br_bit_pos].
  - replace (Z.to_nat (8 * (i + 1) + 0)) with (8 * S (Z.to_nat i))%nat by lia.
    rewrite drop_bits_of_bytes, H8.
    rewrite (drop_app_length' _ _ (Z.to_nat 8)) by (rewrite length_be_bits; done).
    replace (S (Z.to_nat i)) with (Z.to_nat i + 1)%nat by lia.
    rewrite <- drop_drop, Ed. done.
  - replace (Z.to_nat (8 * i + (k + 1))) with (8 * Z.to_nat i + Z.to_nat (k + 1))%nat by lia.
    by rewrite <- drop_drop, drop_bits_of_bytes, Ed.
Qed.

Lemma read_bits_loop_bits (bs rest : list bool) (v : Z) (r : BitReader) :
  br_ok r -> br_bits r = bs ++ rest -> 0 <= v -> (v + 1) * 2 ^ zlen bs <= 2 ^ 64 ->
  exists r', read_bits_loop (length bs) v r = (Some (bits_val v bs), r') /\ br_ok r' /\ br_bits r' = rest.
Proof.
  revert v r. induction bs as [|b bs IH]; intros v r Hr Hb Hv Hmax; simpl; [eauto|].
  destruct (read_bit_bits r b (bs ++ rest) Hr Hb) as (r1 & -> & Hr1 & Hb1).
  rewrite zlen_cons, Z.pow_add_r in Hmax by (auto; lia). pose proof (Z.pow_pos_nonneg 2 (zlen bs)) as Hp.
  specialize (Hp ltac:(lia) ltac:(auto)).
  assert (Z.lor (Z.shiftl v 1 mod 2 ^ 64) (Z.b2z b) = 2 * v + Z.b2z b) as ->.
  { rewrite Z.shiftl_mul_pow2 by lia. change (2 ^ 1) with 2 in *. rewrite Z.mul_comm, Z.mod_small by nia. apply lor_b2z. }
  apply IH; [done | done | destruct b; simpl; lia |]. change (2 ^ 1) with 2 in Hmax.
  destruct b; simpl Z.b2z; nia.
Qed.

Lemma read_bits_bits (n : nat) (v : Z) (rest : list bool) (r : BitReader) :
  (n <= 64)%nat -> br_ok r -> br_bits r = be_bits n v ++ rest ->
  exists r', read_bits (Z.of_nat n) r = (Some (v mod 2 ^ Z.of_nat n), r') /\ br_ok r' /\ br_bits r' = rest.
Proof.
  intros Hn Hr Hb. unfold read_bits. rewrite Nat2Z.id.
  destruct (read_bits_loop_bits (be_bits n v) rest 0 r Hr Hb) as (r' & Heq & Hr' & Hb'); [lia| |].
  - unfold zlen. rewrite length_be_bits. rewrite Z.mul_1_l. apply Z.pow_le_mono_r; lia.
  - exists r'. rewrite length_be_bits in Heq. rewrite Heq. split_and!; [|done..].
    do 2 f_equal. rewrite <- (app_nil_r (be_bits n v)), bits_val_be_bits. unfold bits_val. simpl. lia.
Qed.

(** *** One value of the Gorilla codec *)

Lemma leading_zeros_spec (x : Z) :
  0 < x < 2 ^ 64 -> 0 <= leading_zeros x <= 63 /\ x < 2 ^ (64 - leading_zeros x).
Proof.
  intros Hx. unfold leading_zeros. rewrite (proj2 (Z.eqb_neq x 0)) by lia.
  pose proof (Z.log2_spec x ltac:(lia)) as [_ Hlt]. pose proof (Z.log2_nonneg x).
  assert (Z.log2 x < 64) by (apply Z.log2_lt_pow2; lia). split; [lia|].
  by replace (64 - (63 - Z.log2 x)) with (Z.succ (Z.log2 x)) by lia.
Qed.

Lemma trailing_zeros_spec (x : Z) :
  0 < x -> 0 <= trailing_zeros x /\ exists q, x = q * 2 ^ trailing_zeros x.
Proof.
  intros Hx. destruct x as [|p|p]; try lia. simpl. clear Hx. induction p as [p IH|p IH|]; cbn [pos_trailing_zeros].
  - split; [lia|]. exists (Z.pos p~1). change (2 ^ 0) with 1. lia.
  - destruct IH as [Hn [q Hq]]. split; [lia|]. exists q. rewrite Z.pow_add_r by lia. change (2 ^ 1) with 2. lia.
  - split; [lia|]. exists 1. done.
Qed.

Lemma shiftr_trailing (x t : Z) :
  0 < x -> 0 <= t <= trailing_zeros x -> Z.shiftr x t * 2 ^ t = x.
Proof.
  intros Hx Ht. destruct (trailing_zeros_spec x Hx) as [_ [q Hq]].
  rewrite Z.shiftr_div_pow2 by lia.
  assert (x = (q * 2 ^ (trailing_zeros x - t)) * 2 ^ t) as Hx'.
  { rewrite <- Z.mul_assoc, <- Z.pow_add_r by lia. by replace (trailing_zeros x - t + t) with (trailing_zeros x) by lia. }
  rewrite Hx' at 1. rewrite Z.div_mul by lia. by rewrite <- Hx'.
Qed.

(** The part of a difference that lies inside a window of [l] leading and [t]
    trailing bits determines it. *)
Lemma window_payload (x l t : Z) :
  0 < x < 2 ^ 64 -> 0 <= l <= leading_zeros x -> 0 <= t <= trailing_zeros x ->
  let m := u8_sub (u8_sub 64 l) t in
  m = 64 - l - t /\ 1 <= m <= 64
  /\ Z.shiftr x t mod 2 ^ m = Z.shiftr x t
  /\ Z.shiftl (Z.shiftr x t) (t mod 64) mod 2 ^ 64 = x.
Proof.
  intros Hx Hl Ht. destruct (leading_zeros_spec x Hx) as [Hlz Hlt].
  pose proof (shiftr_trailing x t ltac:(lia) Ht) as Heq.
  assert (x < 2 ^ (64 - l)) as Hxl.
  { eapply Z.lt_le_trans; [exact Hlt|]. apply Z.pow_le_mono_r; lia. }
  assert (t < 64 - l) as Htl.
  { apply (Z.pow_lt_mono_r_iff 2); [lia|lia|]. 
    assert (0 < Z.shiftr x t) by (pose proof (Z.shiftr_nonneg x t); nia). nia. }
  assert (u8_sub (u8_sub 64 l) t = 64 - l - t) as Hm.
  { unfold u8_sub. rewrite (Z.mod_small (64 - l)) by lia. apply Z.mod_small. lia. }
  simpl. rewrite Hm. split_and!; [done | lia | lia | |].
  - apply Z.mod_small. split; [apply Z.shiftr_nonneg; lia|].
    apply (Z.mul_lt_mono_pos_r (2 ^ t)); [lia|]. rewrite Heq, <- Z.pow_add_r by lia.
    by replace (64 - l - t + t) with (64 - l) by lia.
  - rewrite (Z.mod_small t) by lia. rewrite Z.shiftl_mul_pow2 by lia. rewrite Heq. apply Z.mod_small. lia.
Qed.

Definition win_ok (win : Window) : Prop :=
  win_leading win = NO_WINDOW \/ 0 <= win_leading win /\ 0 <= win_trailing win.

Lemma lxor_range (a b n : Z) : 0 <= n -> 0 <= a < 2 ^ n -> 0 <= b < 2 ^ n -> 0 <= Z.lxor a b < 2 ^ n.
Proof.
  intros Hn Ha Hb. assert (0 <= Z.lxor a b) as H0 by (apply Z.lxor_nonneg; lia). split; [done|].
  destruct (decide (Z.lxor a b = 0)) as [->|Hne]; [lia|].
  assert (forall c, 0 <= c < 2 ^ n -> forall i, n <= i -> Z.testbit c i = false) as Hhigh.
  { intros c Hc i Hi. destruct (decide (c = 0)) as [->|]; [apply Z.bits_0|].
    apply Z.bits_above_log2; [lia|]. apply Z.lt_le_trans with n; [apply Z.log2_lt_pow2; lia | lia]. }
  apply Z.log2_lt_pow2; [lia|]. destruct (decide (Z.log2 (Z.lxor a b) < n)) as [|Hge]; [done|exfalso].
  pose proof (Z.bit_log2 (Z.lxor a b) ltac:(lia)) as Hbit.
  rewrite Z.lxor_spec, !Hhigh in Hbit by (done || lia). done.
Qed.

(** Reading a payload and applying it to the previous value. *)
Lemma decode_payload (prev bits l t : Z) (rest : list bool) (r : BitReader) :
  let x := Z.lxor bits prev in let m := u8_sub (u8_sub 64 l) t in
  0 < x < 2 ^ 64 -> 0 <= l <= leading_zeros x -> 0 <= t <= trailing_zeros x ->
  br_ok r -> br_bits r = be_bits (Z.to_nat m) (Z.shiftr x t) ++ rest ->
  exists r', read_bits m r = (Some (Z.shiftr x t), r') /\ br_ok r' /\ br_bits r' = rest
    /\ Z.lxor prev (Z.shiftl (Z.shiftr x t) (t mod 64) mod 2 ^ 64) = bits.
Proof.
  intros x m Hx Hl Ht Hr Hb. destruct (window_payload x l t Hx Hl Ht) as (Hm & Hm1 & Hp & Hs).
  fold m in Hm, Hm1, Hp.
  destruct (read_bits_bits (Z.to_nat m) (Z.shiftr x t) rest r ltac:(lia) Hr Hb) as (r' & Heq & Hr' & Hb').
  rewrite Z2Nat.id in Heq by lia. rewrite Hp in Heq. exists r'. split_and!; [done..|].
  rewrite Hs. unfold x. by rewrite (Z.lxor_comm bits prev), <- Z.lxor_assoc, Z.lxor_nilpotent, Z.lxor_0_l.
Qed.

(** What writing a value means for a reader: it reads the value back and is
    left with what follows. *)
Definition value_codec (prev bits : Z) (win win' : Window) (w w' : BitWriter) : Prop :=
  bw_ok w' /\ win_ok win' /\ exists bs, bw_bits w' = bw_bits w ++ bs
    /\ forall r rest, br_ok r -> br_bits r = bs ++ rest ->
       exists r', gorilla_decode_value prev win r = Some (bits, win', r') /\ br_ok r' /\ br_bits r' = rest.

Section Value.
  Context (prev bits : Z) (win : Window) (w : BitWriter).
  Context (Hwin : win_ok win) (Hw : bw_ok w).
#[local] Abbreviation x := (Z.lxor bits prev).

Lemma value_unchanged : x = 0 -> value_codec prev bits win win w (write_bit false w).
Proof.
  intros H0. destruct (write_bit_bits false w Hw) as [Hok Hbits]. split_and!; [done|done|].
  exists [false]. split; [done|]. intros r rest Hr Hrb.
  destruct (read_bit_bits r false rest Hr Hrb) as (r' & Heq & Hr' & Hb').
  exists r'. unfold gorilla_decode_value. rewrite Heq. simpl. apply Z.lxor_eq in H0 as ->. done.
Qed.

Lemma value_in_window (l t : Z) :
  let m := u8_sub (u8_sub 64 l) t in
  0 < x < 2 ^ 64 -> win = mkWindow l t -> 0 <= l <= leading_zeros x -> 0 <= t <= trailing_zeros x ->
  value_codec prev bits win win w
    (write_bits (Z.shiftr x t) (Z.to_nat m) (write_bit false (write_bit true w))).
Proof.
  intros m Hx Heq Hl Ht. destruct (write_bit_bits true w Hw) as [Hok1 Hb1].
  destruct (write_bit_bits false _ Hok1) as [Hok2 Hb2].
  destruct (write_bits_bits (Z.shiftr x t) (Z.to_nat m) _ Hok2) as [Hok3 Hb3].
  split_and!; [done | done |]. rewrite Hb3, Hb2, Hb1, <- !app_assoc.
  eexists. split; [done|]. intros r rest Hr Hrb.
  destruct (read_bit_bits _ _ _ Hr Hrb) as (r1 & Hr1 & Hrok1 & Hrb1).
  destruct (read_bit_bits _ _ _ Hrok1 Hrb1) as (r2 & Hr2 & Hrok2 & Hrb2).
  destruct (decode_payload prev bits l t rest r2 Hx Hl Ht Hrok2 Hrb2) as (r3 & Hr3 & Hrok3 & Hrb3 & Hv).
  exists r3. unfold gorilla_decode_value. rewrite Hr1. cbn [mbind option_bind negb]. rewrite Hr2.
  cbn [mbind option_bind]. rewrite Heq. cbn [win_leading win_trailing]. rewrite Hr3. cbn [default from_option id].
  unfold default, id in *. by rewrite Hv.
Qed.

Lemma value_new_window :
  let l := leading_zeros x in let t := trailing_zeros x in
  let m := u8_sub (u8_sub 64 l) t in
  0 < x < 2 ^ 64 ->
  value_codec prev bits win (mkWindow l t) w
    (write_bits (Z.shiftr x t) (Z.to_nat m)
       (write_bits m 6 (write_bits l 6 (write_bit true (write_bit true w))))).
Proof.
  intros l t m Hx. destruct (leading_zeros_spec x Hx) as [Hlz _]. destruct (trailing_zeros_spec x ltac:(lia)) as [Htz _].
  destruct (window_payload x l t Hx ltac:(lia) ltac:(lia)) as (Hm & Hm1 & _ & _). fold m in Hm, Hm1.
  destruct (write_bit_bits true w Hw) as [Hok1 Hb1]. destruct (write_bit_bits true _ Hok1) as [Hok2 Hb2].
  destruct (write_bits_bits l 6 _ Hok2) as [Hok3 Hb3]. destruct (write_bits_bits m 6 _ Hok3) as [Hok4 Hb4].
  destruct (write_bits_bits (Z.shiftr x t) (Z.to_nat m) _ Hok4) as [Hok5 Hb5].
  split_and!; [done | right; simpl; lia |]. rewrite Hb5, Hb4, Hb3, Hb2, Hb1, <- !app_assoc.
  eexists. split; [done|]. intros r rest Hr Hrb. rewrite <- !app_assoc in Hrb.
  destruct (read_bit_bits _ _ _ Hr Hrb) as (r1 & Hr1 & Hrok1 & Hrb1).
  destruct (read_bit_bits _ _ _ Hrok1 Hrb1) as (r2 & Hr2 & Hrok2 & Hrb2).
  destruct (read_bits_bits 6 l _ r2 ltac:(lia) Hrok2 Hrb2) as (r3 & Hr3 & Hrok3 & Hrb3).
  destruct (read_bits_bits 6 m _ r3 ltac:(lia) Hrok3 Hrb3) as (r4 & Hr4 & Hrok4 & Hrb4).
  destruct (decode_payload prev bits l t rest r4) as (r5 & Hr5 & Hrok5 & Hrb5 & Hv);
    [done | lia | lia | done | done |].
  exists r5. split; [|done]. unfold gorilla_decode_value. rewrite Hr1. cbn [mbind option_bind negb]. rewrite Hr2.
  cbn [mbind option_bind]. change (Z.of_nat 6) with 6 in *. rewrite Hr3, Hr4. unfold default, id.
  rewrite (Z.mod_small l) by (change (2 ^ 6) with 64; lia).
  assert ((if m mod 2 ^ 6 =? 0 then 64 else m mod 2 ^ 6) = m) as ->.
  { change (2 ^ 6) with 64. destruct (decide (m = 64)) as [->|]; [done|].
    rewrite (Z.mod_small m) by lia. by rewrite (proj2 (Z.eqb_neq m 0)) by lia. }
  assert (u8_sub (u8_sub 64 l) m = t) as ->.
  { unfold u8_sub. rewrite (Z.mod_small (64 - l)) by lia. rewrite Z.mod_small by lia. lia. }
  cbn [win_leading win_trailing]. rewrite Hr5. by rewrite Hv.
Qed.

End Value.

Lemma gorilla_value_roundtrip (prev bits : Z) (win win' : Window) (w w' : BitWriter) :
  is_u64 prev -> is_u64 bits -> win_ok win -> bw_ok w ->
  gorilla_encode_value prev win bits w = (win', w') -> value_codec prev bits win win' w w'.
Proof.
  intros Hp Hb Hwin Hw. unfold gorilla_encode_value.
  pose proof (lxor_range bits prev 64 ltac:(lia) Hb Hp) as Hx.
  destruct (Z.eqb_spec (Z.lxor bits prev) 0) as [H0|H0]; [intros [= <- <-]; by apply value_unchanged|].
  destruct (negb _ && _ && _) eqn:Ewin; intros [<- <-]%pair_equal_spec;
    [|apply value_new_window; [done | lia]].
  apply andb_true_iff in Ewin as [[Hn Hl]%andb_true_iff Ht].
  apply negb_true_iff, Z.eqb_neq in Hn. destruct Hwin as [?|[Hwl Hwt]]; [done|].
  apply Z.geb_le in Hl, Ht. apply value_in_window; [by right | done | lia | by destruct win | lia | lia].
Qed.

Lemma gorilla_loop_roundtrip (values : list Z) (prev : Z) (win : Window) (w : BitWriter) :
  is_u64 prev -> Forall is_u64 values -> win_ok win -> bw_ok w ->
  bw_ok (gorilla_encode_loop values prev win w) /\
  exists bs, bw_bits (gorilla_encode_loop values prev win w) = bw_bits w ++ bs
    /\ forall r rest, br_ok r -> br_bits r = bs ++ rest ->
       gorilla_decode_loop (length values) prev win r = values.
Proof.
  revert prev win w. induction values as [|v values IH]; intros prev win w Hp Hvs Hwin Hw; simpl.
  - split; [done|]. exists []. by rewrite app_nil_r.
  - apply Forall_cons in Hvs as [Hv Hvs].
    destruct (gorilla_encode_value prev win v w) as [win1 w1] eqn:E.
    apply gorilla_value_roundtrip in E as (Hok1 & Hwin1 & bs1 & Hb1 & Hdec); [|done..].
    destruct (IH v win1 w1 Hv Hvs Hwin1 Hok1) as (Hok & bs & Hb & Hdecs). split; [done|].
    exists (bs1 ++ bs). split; [by rewrite Hb, Hb1, app_assoc|]. intros r rest Hr Hrb.
    rewrite <- app_assoc in Hrb. destruct (Hdec r _ Hr Hrb) as (r1 & -> & Hr1 & Hrb1). f_equal. by eapply Hdecs.
Qed.

(** The Gorilla codec is lossless: decoding an encoded series of fewer
    than [2^32] floats gives the series back, bit for bit. *)
Theorem gorilla_roundtrip (values : list Z) :
  Forall is_u64 values -> is_u32 (zlen values) -> gorilla_decode (gorilla_encode values) = values.
Proof.
  destruct values as [|prev rest]; [done|]. intros [Hp Hvs]%Forall_cons Hlen. unfold gorilla_encode.
  destruct (write_bits_bits prev 64 bw_new) as [Hok0 Hb0]; [done|].
  destruct (gorilla_loop_roundtrip rest prev (mkWindow NO_WINDOW 0) _ Hp Hvs (or_introl eq_refl) Hok0)
    as (Hok & bs & Hb & Hdec).
  destruct (bw_finish_bits _ Hok) as [pad Hpad].
  destruct (bw_finish _) as [buf valid] eqn:Efin. cbn [fst] in Hpad. rewrite Hb, Hb0 in Hpad.
  unfold gorilla_decode. rewrite zlen_app, zlen_u32_to_be, zlen_cons. pose proof (zlen_nonneg buf).
  rewrite (proj2 (Z.ltb_ge _ 5)) by lia.
  assert (slice (u32_to_be (zlen (prev :: rest)) ++ byte_of_Z valid :: buf) 0 4 = u32_to_be (zlen (prev :: rest))) as ->.
  { apply (slice_app_mid [] (u32_to_be (zlen (prev :: rest))) (byte_of_Z valid :: buf)); [done|]. by rewrite zlen_u32_to_be. }
  rewrite from_u32_to_be by done. rewrite zlen_cons in *. pose proof (zlen_nonneg rest).
  rewrite (proj2 (Z.eqb_neq _ 0)) by lia.
  assert (drop 5 (u32_to_be (1 + zlen rest) ++ byte_of_Z valid :: buf) = buf) as ->.
  { change (u32_to_be (1 + zlen rest) ++ byte_of_Z valid :: buf)
      with (u32_to_be (1 + zlen rest) ++ [byte_of_Z valid] ++ buf). rewrite app_assoc.
    apply drop_app_length'. rewrite length_app. unfold u32_to_be. by rewrite length_to_be. }
  assert (br_bits (br_new buf) = be_bits 64 prev ++ bs ++ pad) as Hbr.
  { transitivity (bits_of_bytes buf); [done|]. rewrite Hpad. generalize (be_bits 64 prev). intros B.
    by rewrite <- !app_assoc. }
  destruct (read_bits_bits 64 prev (bs ++ pad) (br_new buf) ltac:(lia) ltac:(split; simpl; lia) Hbr)
    as (r1 & Hr1 & Hrok1 & Hrb1).
  change (Z.of_nat 64) with 64 in Hr1. rewrite Hr1. unfold default, id. rewrite Z.mod_small by done.
  f_equal. replace (Z.to_nat (1 + zlen rest) - 1)%nat with (length rest) by (unfold zlen; lia).
  by eapply Hdec.
Qed.

(** ** Varints *)

Lemma varint_loop_roundtrip (fuel : nat) (v acc shift : Z) (rest : bytes) :
  (0 < fuel)%nat -> 0 <= v < 2 ^ (7 * Z.of_nat fuel) -> 0 <= shift < 64 ->
  0 <= acc < 2 ^ shift -> v * 2 ^ shift < 2 ^ 64 ->
  read_varint_loop (write_varint_loop fuel v ++ rest) acc shift = Some (acc + v * 2 ^ shift, rest).
Proof.
  revert v acc shift. induction fuel as [|fuel IH]; intros v acc shift Hf Hv Hs Hacc Hmax; [lia|].
  cbn [write_varint_loop]. rewrite Z.shiftr_div_pow2 by lia. change (2 ^ 7) with 128.
  pose proof (Z.div_mod v 128 ltac:(lia)) as Hdm. pose proof (Z.mod_pos_bound v 128 ltac:(lia)) as Hb.
  pose proof (Z.div_pos v 128 ltac:(lia) ltac:(lia)) as Hd.
  assert (Z.lor acc (Z.shiftl (v mod 128) (shift mod 64) mod 2 ^ 64) = acc + (v mod 128) * 2 ^ shift) as Hor.
  { rewrite (Z.mod_small shift) by lia. rewrite Z.shiftl_mul_pow2, Z.mod_small by (lia || nia).
    apply lor_high; lia. }
  destruct (Z.eqb_spec (v / 128) 0) as [H0|H0]; cbn [app read_varint_loop].
  - destruct (varint_byte v false) as [-> ->]. rewrite Hor. simpl. do 2 f_equal. nia.
  - destruct (varint_byte v true) as [-> ->]. rewrite Hor. simpl.
    assert (2 ^ (shift + 7) = 2 ^ shift * 128) as Hp by (rewrite Z.pow_add_r by lia; done).
    assert (shift + 7 < 64) as Hs7.
    { apply (Z.pow_lt_mono_r_iff 2); [lia|lia|]. rewrite Hp. nia. }
    assert ((0 < fuel)%nat) as Hf'.
    { destruct fuel; [|lia]. change (2 ^ (7 * Z.of_nat 1)) with 128 in Hv. rewrite Z.div_small in H0; lia. }
    rewrite IH; [f_equal; f_equal; rewrite Hp; nia | done | | lia | rewrite Hp; nia | rewrite Hp; nia].
    split; [lia|]. apply Z.div_lt_upper_bound; [lia|].
    replace (7 * Z.of_nat (S fuel)) with (7 + 7 * Z.of_nat fuel) in Hv by lia.
    rewrite Z.pow_add_r in Hv by lia. change (2 ^ 7) with 128 in Hv. lia.
Qed.

Lemma varint_roundtrip (v : Z) (rest : bytes) :
  is_u64 v -> read_varint (write_varint v ++ rest) = Some (v, rest).
Proof.
  intros Hv. unfold is_u64 in Hv. unfold read_varint, write_varint.
  rewrite varint_loop_roundtrip; [f_equal; f_equal; lia | lia | | lia | lia | lia].
  split; [lia|]. eapply Z.lt_le_trans; [apply Hv|]. apply Z.pow_le_mono_r; lia.
Qed.

(** ** Zigzag *)

Lemma i64_wrap_mod (z : Z) : i64_wrap z mod 2 ^ 64 = z mod 2 ^ 64.
Proof.
  unfold i64_wrap. rewrite Zminus_mod_idemp_l. f_equal. lia.
Qed.

Lemma i64_wrap_id (z : Z) : is_i64 z -> i64_wrap z = z.
Proof. unfold is_i64, i64_wrap. intros Hz. rewrite Z.mod_small by lia. lia. Qed.

Lemma i64_wrap_range (z : Z) : is_i64 (i64_wrap z).
Proof. unfold is_i64, i64_wrap. pose proof (Z.mod_pos_bound (z + 2 ^ 63) (2 ^ 64)). lia. Qed.

Lemma i64_wrap_shift (z : Z) : exists k, i64_wrap z = z + k * 2 ^ 64.
Proof.
  exists (- ((z + 2 ^ 63) / 2 ^ 64)). unfold i64_wrap. pose proof (Z.div_mod (z + 2 ^ 63) (2 ^ 64)). lia.
Qed.

(** Equal residues wrap to the same [i64]. *)
Lemma i64_wrap_congr (a b : Z) : a mod 2 ^ 64 = b mod 2 ^ 64 -> i64_wrap a = i64_wrap b.
Proof. intros H. unfold i64_wrap. by rewrite (Zplus_mod a), (Zplus_mod b), H. Qed.

Lemma zigzag_encode_range (v : Z) : is_u64 (zigzag_encode v).
Proof. apply Z.mod_pos_bound. lia. Qed.

Lemma zigzag_roundtrip (v : Z) : is_i64 v -> zigzag_decode (zigzag_encode v) = v.
Proof.
  unfold is_i64. intros Hv. unfold zigzag_decode, zigzag_encode.
  rewrite Z.shiftl_mul_pow2, (Z.shiftr_div_pow2 v) by lia. change (2 ^ 1) with 2.
  assert (forall u, Z.land u 1 = u mod 2) as Hland by (intros u; apply (Z.land_ones u 1); lia).
  rewrite Hland, Z.shiftr_div_pow2 by lia. change (2 ^ 1) with 2.
  destruct (decide (0 <= v)) as [H0|H0].
  - rewrite (Z.div_small v) by lia. rewrite Z.lxor_0_r, i64_wrap_mod, Z.mod_small by lia.
    rewrite Z.mod_mul, Z.div_mul, Z.lxor_0_r by lia. apply i64_wrap_id. unfold is_i64. lia.
  - assert (v / 2 ^ 63 = -1) as ->.
    { symmetry. apply (Z.div_unique v (2 ^ 63) (-1) (v + 2 ^ 63)); lia. }
    assert (forall u, Z.lxor u (-1) = - u - 1) as Hnot by (intros u; rewrite Z.lxor_m1_r; unfold Z.lnot; lia).
    assert ((- i64_wrap (v * 2) - 1) mod 2 ^ 64 = 1 + (- v - 1) * 2) as Hm.
    { destruct (i64_wrap_shift (v * 2)) as [k ->].
      replace (- (v * 2 + k * 2 ^ 64) - 1) with ((1 + (- v - 1) * 2) + (- k) * 2 ^ 64) by lia.
      rewrite Z.mod_add by lia. apply Z.mod_small. lia. }
    rewrite Hnot, Hm, Z.mod_add, Z.div_add by lia. change (1 / 2) with 0. change (1 mod 2) with 1.
    rewrite i64_wrap_id by (unfold is_i64; lia). rewrite Hnot. lia.
Qed.

(** ** Delta of delta *)

(** Adding a wrapped difference back gives the value. *)
Lemma i64_wrap_add_sub (a b : Z) : is_i64 b -> i64_wrap (a + i64_wrap (b - a)) = b.
Proof.
  intros Hb. destruct (i64_wrap_shift (b - a)) as [k ->].
  rewrite <- (i64_wrap_id b Hb) at 2. apply i64_wrap_congr.
  replace (a + (b - a + k * 2 ^ 64)) with (b + k * 2 ^ 64) by lia. apply Z.mod_add. lia.
Qed.

Lemma delta_loop_roundtrip (values : list Z) (prev prev_delta : Z) (rest : bytes) :
  Forall is_i64 values -> is_i64 prev_delta ->
  delta_delta_decode_loop (length values) (delta_delta_encode_loop values prev prev_delta ++ rest) prev prev_delta
  = values.
Proof.
  revert prev prev_delta. induction values as [|v values IH]; intros prev pd Hvs Hpd; [done|].
  apply Forall_cons in Hvs as [Hv Hvs]. cbn [length delta_delta_encode_loop delta_delta_decode_loop].
  rewrite <- app_assoc, varint_roundtrip by apply zigzag_encode_range.
  rewrite zigzag_roundtrip by apply i64_wrap_range.
  rewrite i64_wrap_add_sub by apply i64_wrap_range. rewrite i64_wrap_add_sub by done.
  f_equal. apply IH; [done | apply i64_wrap_range].
Qed.

(** The delta-of-delta codec is lossless on every sequence of [i64],
    also when the differences overflow: the wrapping arithmetic of the encoder
    is undone by that of the decoder. *)
Theorem delta_delta_roundtrip (values : list Z) :
  Forall is_i64 values -> is_u64 (zlen values) -> delta_delta_decode (delta_delta_encode values) = values.
Proof.
  intros Hvs Hlen. unfold delta_delta_encode, delta_delta_decode. rewrite varint_roundtrip by done.
  destruct values as [|v0 [|v1 rest]]; [done | |].
  - apply Forall_cons in Hvs as [Hv _]. rewrite zlen_cons, zlen_nil. simpl Z.eqb.
    rewrite <- (app_nil_r (write_varint _)), varint_roundtrip by apply zigzag_encode_range.
    by rewrite zigzag_roundtrip.
  - apply Forall_cons in Hvs as [Hv0 Hvs]. apply Forall_cons in Hvs as [Hv1 Hvs].
    rewrite !zlen_cons. pose proof (zlen_nonneg rest).
    rewrite (proj2 (Z.eqb_neq _ 0)), (proj2 (Z.eqb_neq _ 1)) by lia.
    rewrite !varint_roundtrip by apply zigzag_encode_range.
    rewrite !zigzag_roundtrip by (done || apply i64_wrap_range).
    rewrite i64_wrap_add_sub by done. do 2 f_equal.
    replace (Z.to_nat (1 + (1 + zlen rest)) - 2)%nat with (length rest) by (unfold zlen; lia).
    rewrite <- (app_nil_r (delta_delta_encode_loop _ _ _)). apply delta_loop_roundtrip; [done | apply i64_wrap_range].
Qed.

(** ** Dictionary *)

(** The index holds the position of each distinct value seen. *)
Record dict_ok (dict : list string) (index : gmap string Z) : Prop := {
  do_nodup : NoDup dict;
  do_index : forall v c, index !! v = Some c <-> 0 <= c /\ dict !! Z.to_nat c = Some v;
}.

Definition decode_dict (dict : list string) (codes : list Z) : list (option string) :=
  map (fun c => dict !! Z.to_nat c) codes.

Lemma dict_ok_snoc (dict : list string) (index : gmap string Z) (v : string) :
  dict_ok dict index -> index !! v = None -> zlen (dict ++ [v]) <= 2 ^ 32 ->
  dict_ok (dict ++ [v]) (<[v := (zlen (dict ++ [v]) - 1) mod 2 ^ 32]> index).
Proof.
  intros [Hnd Hix] Hv Hlen. rewrite zlen_app in *. change (zlen [v]) with 1 in *. pose proof (zlen_nonneg dict).
  rewrite Z.mod_small by lia. replace (zlen dict + 1 - 1) with (zlen dict) by lia.
  assert (v ∉ dict) as Hnin.
  { intros [i Hi]%list_elem_of_lookup. enough (index !! v = Some (Z.of_nat i)) by congruence.
    apply Hix. rewrite Nat2Z.id. split; [lia | done]. }
  split; [apply NoDup_app; split_and!; [done | set_solver | apply NoDup_singleton]|].
  intros u c. destruct (decide (u = v)) as [->|Hne].
  - rewrite lookup_insert_eq. split.
    + intros [= <-]. split; [lia|]. unfold zlen. rewrite Nat2Z.id. by apply list_lookup_middle.
    + intros [Hc Hl]. apply lookup_app_Some in Hl as [Hl|[Hge Hl]].
      * exfalso. apply Hnin. by eapply list_elem_of_lookup_2.
      * apply list_lookup_singleton_Some in Hl as [Hl _]. f_equal. unfold zlen. lia.
  - rewrite lookup_insert_ne, Hix by done. split; intros [Hc Hl]; (split; [done|]).
    + by apply lookup_app_l_Some.
    + apply lookup_app_Some in Hl as [Hl|[_ Hl]]; [done|].
      apply list_lookup_singleton_Some in Hl as [_ ?]. congruence.
Qed.

Lemma dictionary_loop_roundtrip (values dict : list string) (index : gmap string Z) (codes : list Z) :
  dict_ok dict index -> zlen dict + zlen values <= 2 ^ 32 ->
  let '(dict', codes') := dictionary_encode_loop values dict index codes in
  NoDup dict' /\ (exists more, dict' = dict ++ more /\ more ⊆ values)
  /\ exists new, codes' = codes ++ new /\ decode_dict dict' new = Some <$> values.
Proof.
  revert dict index codes. induction values as [|v values IH]; intros dict index codes Hok Hlen; simpl.
  - split_and!; [apply Hok | exists []; by rewrite app_nil_r | exists []; by rewrite app_nil_r].
  - rewrite zlen_cons in Hlen.
    assert (forall dict1 index1 code, dict_ok dict1 index1 -> (dict1 = dict \/ dict1 = dict ++ [v]) ->
      zlen dict1 + zlen values <= 2 ^ 32 -> index1 !! v = Some code ->
      let '(dict', codes') := dictionary_encode_loop values dict1 index1 (codes ++ [code]) in
      NoDup dict' /\ (exists more, dict' = dict ++ more /\ more ⊆ v :: values)
      /\ exists new, codes' = codes ++ new /\ decode_dict dict' new = Some v :: (Some <$> values)) as Hgo.
    { intros dict1 index1 code Hok1 Hd Hlen1 Hcode.
      specialize (IH dict1 index1 (codes ++ [code]) Hok1 Hlen1).
      destruct (dictionary_encode_loop _ _ _ _) as [dict' codes'].
      destruct IH as (Hnd & (more & -> & Hmore) & new & -> & Hnew). split_and!; [done | |].
      - destruct Hd as [->| ->]; [exists more | exists ([v] ++ more); rewrite app_assoc]; set_solver.
      - exists (code :: new). rewrite <- app_assoc. split; [done|]. unfold decode_dict in *. simpl. f_equal; [|done].
        apply Hok1 in Hcode as [_ Hcode]. by apply lookup_app_l_Some. }
    destruct (index !! v) as [code|] eqn:E.
    + apply Hgo; [done | by left | lia | done].
    + assert (zlen (dict ++ [v]) = zlen dict + 1) as Hz by (rewrite zlen_app; done). pose proof (zlen_nonneg values).
      apply Hgo; [apply dict_ok_snoc; [done|done|lia] | by right | lia | apply lookup_insert_eq].
Qed.

(** Dictionary encoding is lossless: the codes index into the dictionary
    to give the values back, the dictionary has no duplicates and holds only
    values of the input, up to [2^32] of them. *)
Theorem dictionary_roundtrip (values : list string) :
  zlen values <= 2 ^ 32 ->
  let '(dict, codes) := dictionary_encode values in
  NoDup dict /\ dict ⊆ values /\ decode_dict dict codes = Some <$> values.
Proof.
  intros Hlen. pose proof (dictionary_loop_roundtrip values [] ∅ []) as H. unfold dictionary_encode.
  destruct (dictionary_encode_loop values [] ∅ []) as [dict codes].
  destruct H as (Hnd & (more & -> & Hmore) & new & -> & Hnew); [split; [constructor|] | done | done].
  intros v c. rewrite lookup_empty. split; [done|]. intros [_ H]. by rewrite lookup_nil in H.
Qed.

(** ** Samples *)

Lemma gorilla_roundtrip_witness :
  gorilla_decode (gorilla_encode [0x4045000000000000; 0x4045000000000000; 0x4045800000000000; 1])
  = [0x4045000000000000; 0x4045000000000000; 0x4045800000000000; 1].
Proof. apply gorilla_roundtrip; [repeat constructor; done | done]. Defined.

Lemma delta_delta_roundtrip_witness :
  delta_delta_decode (delta_delta_encode [-9223372036854775808; 9223372036854775807; 0; 1; 2])
  = [-9223372036854775808; 9223372036854775807; 0; 1; 2].
Proof. apply delta_delta_roundtrip; [repeat constructor; done | done]. Defined.

Lemma dictionary_roundtrip_witness :
  let '(dict, codes) := dictionary_encode ["a"; "b"; "a"]%string in
  codes = [0; 1; 0] /\ decode_dict dict codes = [Some "a"; Some "b"; Some "a"]%string.
Proof.
  pose proof (dictionary_roundtrip ["a"; "b"; "a"]%string ltac:(done)) as H.
  destruct (dictionary_encode _) as [dict codes] eqn:E. split; [|apply H].
  apply (f_equal snd) in E. change (snd (dict, codes)) with codes in E. rewrite <- E. by vm_compute.
Defined.
