(* ===== verification/Flux.v ===== *)
(** Event streaming ([storage/flux.rs] and the topic methods of
    [storage/database/flux.rs]).

    - [FluxDir]: the files of a topic's directory, [meta], one log per
      partition and [offsets.log];
    - [Partition]: a log replayed into memory, appended to and trimmed by the
      retention policy;
    - [FluxLog]: the partitions of a topic, the committed offsets of its
      consumer groups and the round-robin cursor;
    - [Topics]: the topics of a database.

    [bincode] at the two record types and the hash of [DefaultHasher] are
    parameters; the clock is an argument. *)

From Stdlib Require Import Strings.Byte Strings.String Sorted ZArith Lia.
From stdpp Require Import base list gmap strings.
From S2P Require Import Prelude Manifest Txn Compress.

Open Scope Z_scope.

(** ** Data *)

Record FluxRecord := mkFluxRecord {
  fr_offset : Z;
  fr_key : option bytes;
  fr_value : bytes;
  fr_timestamp_ms : Z;
}.

Record RetentionPolicy := mkRetentionPolicy {
  retention_ms : option Z;
  retention_bytes : option Z;
}.

Record OffsetCommit := mkOffsetCommit { oc_group : string; oc_partition : Z; oc_offset : Z }.

(** [partition-<i>.log] is the entry [i] of [fd_logs]. *)
Record FluxDir := mkFluxDir {
  fd_meta : option bytes;
  fd_logs : gmap Z bytes;
  fd_offsets : option bytes;
}.

Definition empty_dir : FluxDir := mkFluxDir None ∅ None.

Record Partition := mkPartition {
  pt_records : list FluxRecord;
  pt_next_offset : Z;
  pt_total_bytes : Z;
  pt_newest_ts : Z;
}.

Record FluxLog := mkFluxLog {
  fl_partitions : list Partition;
  fl_retention : RetentionPolicy;
  fl_offsets : gmap (string * Z) Z;
  fl_rr_counter : Z;
}.

Definition I64_MIN : Z := - 2 ^ 63.
Definition partition_new : Partition := mkPartition [] 0 0 I64_MIN.

(** ** Length-prefixed records *)

(** [&(encoded.len() as u32).to_be_bytes()] and [encoded]. *)
Definition frame (encoded : bytes) : bytes := u32_to_be (zlen encoded mod 2 ^ 32) ++ encoded.

(** The next record of a file: none when not even a length is left, an error
    when the record is cut short. *)
Definition read_frame (rest : bytes) : Result (option (bytes * bytes)) :=
  if zlen rest <? 4 then Ok None
  else
    let len := from_be (take 4 rest) in
    let rest := drop 4 rest in
    if zlen rest <? len then Err "failed to fill whole buffer"%string
    else Ok (Some (take (Z.to_nat len) rest, drop (Z.to_nat len) rest)).

Section Flux.
  Context {bcr : Bincode FluxRecord} {bco : Bincode OffsetCommit}.
  (** [DefaultHasher] on a key. *)
  Context (hash : bytes -> Z).

(** ** Partitions *)

Definition value_len (r : FluxRecord) : Z := zlen (fr_value r).

(** What replaying or appending a record does to the partition in memory. *)
Definition push_record (next_offset : Z) (rec : FluxRecord) (p : Partition) : Partition :=
  mkPartition (pt_records p ++ [rec]) next_offset
    (u64_add (pt_total_bytes p) (value_len rec)) (Z.max (pt_newest_ts p) (fr_timestamp_ms rec)).

Fixpoint partition_open_loop (fuel : nat) (rest : bytes) (p : Partition) : Result Partition :=
  match fuel with
  | O => Ok p
  | S fuel' =>
      let? f := read_frame rest in
      match f with
      | None => Ok p
      | Some (buf, rest) =>
          match bc_deserialize buf with
          | None => Err "bincode"%string
          | Some rec => partition_open_loop fuel' rest (push_record (u64_add (fr_offset rec) 1) rec p)
          end
      end
  end.

(** [Partition::open]; each turn consumes a length, so the file bounds the loop. *)
Definition partition_open (file : option bytes) : Result Partition :=
  match file with
  | None => Ok partition_new
  | Some file => partition_open_loop (S (length file)) file partition_new
  end.

(** The two loops of [apply_retention]. *)
Fixpoint evict_old (cutoff : Z) (records : list FluxRecord) (total : Z) : list FluxRecord * Z :=
  match records with
  | front :: records' =>
      if fr_timestamp_ms front <? cutoff then evict_old cutoff records' (u64_sub total (value_len front))
      else (records, total)
  | [] => ([], total)
  end.

Fixpoint evict_large (max_bytes : Z) (records : list FluxRecord) (total : Z) : list FluxRecord * Z :=
  match records with
  | front :: records' =>
      if total >? max_bytes then evict_large max_bytes records' (u64_sub total (value_len front))
      else (records, total)
  | [] => ([], total)
  end.

Definition apply_retention (retention : RetentionPolicy) (p : Partition) : Partition :=
  let '(records, total) :=
    match retention_ms retention with
    | Some ms => evict_old (i64_wrap (pt_newest_ts p - ms)) (pt_records p) (pt_total_bytes p)
    | None => (pt_records p, pt_total_bytes p)
    end in
  let '(records, total) :=
    match retention_bytes retention with
    | Some max_bytes => evict_large max_bytes records total
    | None => (records, total)
    end in
  mkPartition records (pt_next_offset p) total (pt_newest_ts p).

(** [Partition::append] on the partition and its file. *)
Definition append (key : option bytes) (value : bytes) (timestamp_ms : Z) (retention : RetentionPolicy)
    (p : Partition) (file : bytes) : Partition * bytes * Z :=
  let offset := pt_next_offset p in
  let rec := mkFluxRecord offset key value timestamp_ms in
  let file := file ++ frame (bc_serialize rec) in
  (apply_retention retention (push_record (u64_add offset 1) rec p), file, offset).

Definition partition_poll (from_offset : Z) (max : nat) (p : Partition) : list FluxRecord :=
  take max (List.filter (fun r => fr_offset r >=? from_offset) (pt_records p)).

Definition partition_all (p : Partition) : list FluxRecord := pt_records p.

(** ** Topics *)

Definition partition_for_key (key : bytes) (num_partitions : Z) : Z := hash key mod num_partitions.

Definition i64_to_be (z : Z) : bytes := u64_to_be (z mod 2 ^ 64).
Definition i64_from_be (bs : bytes) : Z := i64_wrap (from_be bs).

(** [write_meta] truncates the file. *)
Definition write_meta (num_partitions : Z) (retention : RetentionPolicy) (dir : FluxDir) : FluxDir :=
  mkFluxDir
    (Some (u32_to_be num_partitions ++ i64_to_be (default (-1) (retention_ms retention))
           ++ i64_to_be (default (-1) (i64_wrap <$> retention_bytes retention))))
    (fd_logs dir) (fd_offsets dir).

Definition read_meta (dir : FluxDir) : Result (Z * RetentionPolicy) :=
  match fd_meta dir with
  | None => Err "No such file or directory"%string
  | Some file =>
      if zlen file <? 20 then Err "failed to fill whole buffer"%string
      else
        let num_partitions := from_be (slice file 0 4) in
        let ms := i64_from_be (slice file 4 8) in
        let max_bytes := i64_from_be (slice file 12 8) in
        Ok (num_partitions,
            mkRetentionPolicy (if ms <? 0 then None else Some ms)
              (if max_bytes <? 0 then None else Some max_bytes))
  end.

Fixpoint read_offsets_loop (fuel : nat) (rest : bytes) (offsets : gmap (string * Z) Z)
    : Result (gmap (string * Z) Z) :=
  match fuel with
  | O => Ok offsets
  | S fuel' =>
      let? f := read_frame rest in
      match f with
      | None => Ok offsets
      | Some (buf, rest) =>
          match bc_deserialize buf with
          | None => Err "bincode"%string
          | Some c => read_offsets_loop fuel' rest (<[(oc_group c, oc_partition c) := oc_offset c]> offsets)
          end
      end
  end.

Definition read_offsets (file : option bytes) : Result (gmap (string * Z) Z) :=
  match file with
  | None => Ok ∅
  | Some file => read_offsets_loop (S (length file)) file ∅
  end.

(** [for i in 0..num_partitions { Partition::open(..)? }] with what the caller
    does to each partition. *)
Fixpoint open_partitions (ids : list Z) (f : Partition -> Partition) (dir : FluxDir)
    : Result (list Partition) :=
  match ids with
  | [] => Ok []
  | i :: ids' =>
      let? p := partition_open (fd_logs dir !! i) in
      let? ps := open_partitions ids' f dir in
      Ok (f p :: ps)
  end.

Definition partition_ids (n : Z) : list Z := map Z.of_nat (seq 0 (Z.to_nat n)).

Definition flux_create (num_partitions : Z) (retention : RetentionPolicy) (dir : FluxDir)
    : FluxDir * Result FluxLog :=
  if negb (num_partitions >? 0) then (dir, Err "a topic must have at least 1 partition"%string)
  else
    let dir := write_meta num_partitions retention dir in
    match open_partitions (partition_ids num_partitions) id dir with
    | Err e => (dir, Err e)
    | Ok partitions => (dir, Ok (mkFluxLog partitions retention ∅ 0))
    end.

Definition flux_open (dir : FluxDir) : Result FluxLog :=
  let? m := read_meta dir in
  let '(num_partitions, retention) := m in
  let? partitions := open_partitions (partition_ids num_partitions) (apply_retention retention) dir in
  let? offsets := read_offsets (fd_offsets dir) in
  Ok (mkFluxLog partitions retention offsets 0).

Definition num_partitions (l : FluxLog) : Z := zlen (fl_partitions l) mod 2 ^ 32.

(** The target of a publish and the cursor after it. *)
Definition publish_target (partition : option Z) (key : option bytes) (l : FluxLog) : Result (Z * Z) :=
  let n := num_partitions l in
  match partition with
  | Some p => if p <? n then Ok (p, fl_rr_counter l) else Err "partition out of range"%string
  | None =>
      match key with
      | Some k => Ok (partition_for_key k n, fl_rr_counter l)
      | None => Ok (fl_rr_counter l mod n, (fl_rr_counter l + 1) mod 2 ^ 32)
      end
  end.

(** [FluxLog::publish] at the time [now]; indexing past the partitions panics. *)
Definition publish (partition : option Z) (key : option bytes) (value : bytes) (now : Z)
    (l : FluxLog) (dir : FluxDir) : FluxLog * FluxDir * Result (Z * Z) :=
  match publish_target partition key l with
  | Err e => (l, dir, Err e)
  | Ok (target, rr) =>
      match fl_partitions l !! Z.to_nat target with
      | None => (l, dir, Err "index out of bounds"%string)
      | Some p =>
          let '(p, file, offset) :=
            append key value now (fl_retention l) p (default [] (fd_logs dir !! target)) in
          (mkFluxLog (<[Z.to_nat target := p]> (fl_partitions l)) (fl_retention l) (fl_offsets l) rr,
           mkFluxDir (fd_meta dir) (<[target := file]> (fd_logs dir)) (fd_offsets dir),
           Ok (target, offset))
      end
  end.

Definition flux_poll (group : string) (partition : Z) (max : nat) (l : FluxLog) : Result (list FluxRecord) :=
  let? p := ok_or (fl_partitions l !! Z.to_nat partition) "partition does not exist" in
  Ok (partition_poll (default 0 (fl_offsets l !! (group, partition))) max p).

Definition flux_commit (group : string) (partition offset : Z) (l : FluxLog) (dir : FluxDir)
    : FluxLog * FluxDir * Result unit :=
  if negb (partition <? zlen (fl_partitions l)) then (l, dir, Err "partition does not exist"%string)
  else
    let file := default [] (fd_offsets dir) ++ frame (bc_serialize (mkOffsetCommit group partition offset)) in
    (mkFluxLog (fl_partitions l) (fl_retention l) (<[(group, partition) := offset]> (fl_offsets l))
       (fl_rr_counter l),
     mkFluxDir (fd_meta dir) (fd_logs dir) (Some file), Ok tt).

Definition all_records (partition : Z) (l : FluxLog) : option (list FluxRecord) :=
  partition_all <$> (fl_partitions l !! Z.to_nat partition).

(** ** The topics of a database *)

(** The open topics and the directories under [flux_dir], by name. *)
Record Topics := mkTopics { tp_topics : gmap string FluxLog; tp_dirs : gmap string FluxDir }.

(** The topics [Database::open] finds: a directory that does not open is skipped. *)
Definition open_topics (dirs : gmap string FluxDir) : Topics :=
  mkTopics (omap (fun dir => match flux_open dir with Ok l => Some l | Err _ => None end) dirs) dirs.

Definition dir_of (name : string) (t : Topics) : FluxDir := default empty_dir (tp_dirs t !! name).

(** [FluxLog::create] in the topic's directory, and its entry in the map. *)
Definition create_in (name : string) (n : Z) (retention : RetentionPolicy) (t : Topics)
    : Topics * Result unit :=
  match flux_create n retention (dir_of name t) with
  | (dir, Err e) => (mkTopics (tp_topics t) (<[name := dir]> (tp_dirs t)), Err e)
  | (dir, Ok l) => (mkTopics (<[name := l]> (tp_topics t)) (<[name := dir]> (tp_dirs t)), Ok tt)
  end.

Definition role_writable (role : NodeRole) : Result unit :=
  match role with
  | Reader => Err "this node is a read-only replica; send writes to the writer node"%string
  | Writer => Ok tt
  end.

Definition create_topic (role : NodeRole) (name : string) (n : Z) (retention : RetentionPolicy) (t : Topics)
    : Topics * Result unit :=
  match role_writable role with
  | Err e => (t, Err e)
  | Ok _ =>
      match tp_topics t !! name with
      | Some _ => (t, Err "topic already exists"%string)
      | None => create_in name n retention t
      end
  end.

Definition cdc_topic (table : string) : string := ("__cdc_" ++ table)%string.

Definition ensure_cdc_topic (table : string) (t : Topics) : Topics * Result string :=
  let topic := cdc_topic table in
  match tp_topics t !! topic with
  | Some _ => (t, Ok topic)
  | None =>
      match create_in topic 1 (mkRetentionPolicy None None) t with
      | (t, Err e) => (t, Err e)
      | (t, Ok _) => (t, Ok topic)
      end
  end.

(** [Database::flux_publish]; the broadcast to subscribers is left out. *)
Definition topic_publish (role : NodeRole) (topic : string) (partition : option Z) (key : option bytes)
    (value : bytes) (now : Z) (t : Topics) : Topics * Result (Z * Z) :=
  match role_writable role with
  | Err e => (t, Err e)
  | Ok _ =>
      match tp_topics t !! topic with
      | None => (t, Err "topic does not exist"%string)
      | Some l =>
          let '(l, dir, r) := publish partition key value now l (dir_of topic t) in
          (mkTopics (<[topic := l]> (tp_topics t)) (<[topic := dir]> (tp_dirs t)), r)
      end
  end.

(** [event] is the encoded JSON. *)
Definition flux_publish_cdc (role : NodeRole) (table : string) (event : bytes) (now : Z) (t : Topics)
    : Topics * Result unit :=
  match ensure_cdc_topic table t with
  | (t, Err e) => (t, Err e)
  | (t, Ok topic) =>
      match topic_publish role topic None None event now t with
      | (t, Err e) => (t, Err e)
      | (t, Ok _) => (t, Ok tt)
      end
  end.

Definition topic_poll (topic : string) (partition : Z) (group : string) (max : nat) (t : Topics)
    : Result (list FluxRecord) :=
  let? l := ok_or (tp_topics t !! topic) "topic does not exist" in
  flux_poll group partition max l.

Definition topic_commit (topic : string) (partition : Z) (group : string) (offset : Z) (t : Topics)
    : Topics * Result unit :=
  match tp_topics t !! topic with
  | None => (t, Err "topic does not exist"%string)
  | Some l =>
      let '(l, dir, r) := flux_commit group partition offset l (dir_of topic t) in
      (mkTopics (<[topic := l]> (tp_topics t)) (<[topic := dir]> (tp_dirs t)), r)
  end.

Definition flux_all (topic : string) (partition : Z) (t : Topics) : option (list FluxRecord) :=
  l ← tp_topics t !! topic; all_records partition l.

Definition flux_num_partitions (topic : string) (t : Topics) : option Z :=
  num_partitions <$> (tp_topics t !! topic).

End Flux.

(** ** Longest suffixes *)

(** The longest suffix that satisfies [P]. *)
Fixpoint drop_until {A : Type} (P : list A -> bool) (l : list A) : list A :=
  if P l then l else match l with [] => [] | _ :: l' => drop_until P l' end.

Lemma drop_until_here {A : Type} (P : list A -> bool) (l : list A) : P l = true -> drop_until P l = l.
Proof. destruct l; simpl; by intros ->. Qed.

Lemma drop_until_cons {A : Type} (P : list A -> bool) (x : A) (l : list A) :
  P (x :: l) = false -> drop_until P (x :: l) = drop_until P l.
Proof. simpl. by intros ->. Qed.

Lemma drop_until_nil {A : Type} (P : list A -> bool) : drop_until P [] = [].
Proof. simpl. by case_match. Qed.

Lemma drop_until_and {A : Type} (P Q : list A -> bool) (l : list A) :
  (forall x l, P (x :: l) = true -> P l = true) ->
  drop_until Q (drop_until P l) = drop_until (fun l => P l && Q l) l.
Proof.
  intros Hclosed. assert (forall l, P l = true -> drop_until Q l = drop_until (fun l => P l && Q l) l) as Hin.
  { intros l0. induction l0 as [|x l' IH]; intros HP; simpl; rewrite HP; simpl; [done|].
    destruct (Q (x :: l')); [done|]. eauto. }
  induction l as [|x l IH].
  - by rewrite !drop_until_nil.
  - destruct (P (x :: l)) eqn:E.
    + rewrite (drop_until_here P) by done. by apply Hin.
    + rewrite (drop_until_cons P) by done. rewrite IH. simpl. by rewrite E.
Qed.

(** Trimming before an element is added makes no difference when the new
    condition implies the old one. *)
Lemma drop_until_snoc {A : Type} (P P' : list A -> bool) (l : list A) (r : A) :
  (forall s, P' (s ++ [r]) = true -> P s = true) ->
  drop_until P' (drop_until P l ++ [r]) = drop_until P' (l ++ [r]).
Proof.
  intros Himp. induction l as [|x l IH]; [simpl; by destruct (P [])|].
  destruct (P (x :: l)) eqn:E; [by rewrite (drop_until_here P)|].
  rewrite (drop_until_cons P) by done. rewrite IH. symmetry. apply drop_until_cons.
  destruct (P' (x :: l ++ [r])) eqn:E'; [|done]. apply (Himp (x :: l)) in E'. congruence.
Qed.

Lemma drop_until_suffix {A : Type} (P : list A -> bool) (l : list A) :
  exists n, drop_until P l = drop n l.
Proof.
  induction l as [|x l [n IH]]; [exists O; simpl; by case_match|]. simpl. case_match; [by exists O|]. by exists (S n).
Qed.

(** ** Retention keeps a suffix *)

Definition sum_len (rs : list FluxRecord) : Z := foldr (fun r z => value_len r + z) 0 rs.

Lemma sum_len_app (a b : list FluxRecord) : sum_len (a ++ b) = sum_len a + sum_len b.
Proof. induction a; simpl; lia. Qed.

Lemma value_len_nonneg (r : FluxRecord) : 0 <= value_len r.
Proof. apply zlen_nonneg. Qed.

Lemma sum_len_nonneg (rs : list FluxRecord) : 0 <= sum_len rs.
Proof. induction rs as [|r rs IH]; simpl; [lia|]. pose proof (value_len_nonneg r). lia. Qed.

Lemma sum_len_drop (n : nat) (rs : list FluxRecord) : sum_len (drop n rs) <= sum_len rs.
Proof. rewrite <- (take_drop n rs) at 2. rewrite sum_len_app. pose proof (sum_len_nonneg (take n rs)). lia. Qed.

(** Timestamps do not decrease along the log. *)
Definition ts_sorted (rs : list FluxRecord) : Prop :=
  StronglySorted (fun a b => fr_timestamp_ms a <= fr_timestamp_ms b) rs.

Definition recent (cutoff : Z) (rs : list FluxRecord) : bool :=
  forallb (fun r => cutoff <=? fr_timestamp_ms r) rs.
Definition small (max_bytes : Z) (rs : list FluxRecord) : bool := sum_len rs <=? max_bytes.

(** What the policy demands of the records that stay, when [newest] is the
    newest timestamp seen. *)
Definition keep (retention : RetentionPolicy) (newest : Z) (rs : list FluxRecord) : bool :=
  match retention_ms retention with Some ms => recent (newest - ms) rs | None => true end
  && match retention_bytes retention with Some m => small m rs | None => true end.

Lemma evict_old_spec (cutoff : Z) (rs : list FluxRecord) :
  ts_sorted rs -> sum_len rs < 2 ^ 64 ->
  evict_old cutoff rs (sum_len rs) =
    (drop_until (recent cutoff) rs, sum_len (drop_until (recent cutoff) rs)).
Proof.
  induction rs as [|r rs IH]; intros Hs Hlt; [done|]. inversion_clear Hs as [|? ? Hs' Hall].
  pose proof (value_len_nonneg r). pose proof (sum_len_nonneg rs). cbn [evict_old sum_len foldr] in *.
  fold (sum_len rs) in *. destruct (Z.ltb_spec (fr_timestamp_ms r) cutoff) as [Hc|Hc].
  - rewrite (drop_until_cons _ r rs) by (simpl; apply andb_false_iff; left; apply Z.leb_gt; lia).
    rewrite u64_sub_small by (unfold is_u64; lia). replace (value_len r + sum_len rs - value_len r) with (sum_len rs) by lia.
    apply IH; [done | lia].
  - rewrite (drop_until_here _ (r :: rs)); [done|]. unfold recent. apply forallb_forall. intros x [<-|Hx]; [lia|].
    rewrite List.Forall_forall in Hall. apply Hall in Hx. lia.
Qed.

Lemma evict_large_spec (m : Z) (rs : list FluxRecord) :
  0 <= m -> sum_len rs < 2 ^ 64 ->
  evict_large m rs (sum_len rs) = (drop_until (small m) rs, sum_len (drop_until (small m) rs)).
Proof.
  intros Hm. induction rs as [|r rs IH]; intros Hlt; [simpl; by case_match|].
  pose proof (value_len_nonneg r). pose proof (sum_len_nonneg rs). cbn [evict_large].
  change (sum_len (r :: rs)) with (value_len r + sum_len rs) in *.
  rewrite Z.gtb_ltb. destruct (Z.ltb_spec m (value_len r + sum_len rs)) as [Hc|Hc].
  - rewrite (drop_until_cons _ r rs) by (unfold small; simpl; apply Z.leb_gt; lia).
    rewrite u64_sub_small by (unfold is_u64; lia). replace (value_len r + sum_len rs - value_len r) with (sum_len rs) by lia.
    apply IH; lia.
  - by rewrite (drop_until_here _ (r :: rs)) by (unfold small; simpl; apply Z.leb_le; lia).
Qed.

Lemma drop_until_true {A : Type} (l : list A) : drop_until (fun _ => true) l = l.
Proof. by destruct l. Qed.

Lemma drop_until_ext {A : Type} (P Q : list A -> bool) (l : list A) :
  (forall l, P l = Q l) -> drop_until P l = drop_until Q l.
Proof. intros H. induction l; simpl; rewrite H; by repeat case_match. Qed.

(** Sane policies: spans and sizes below [2^63], as [read_meta] gives them. *)
Definition policy_ok (retention : RetentionPolicy) : Prop :=
  (forall ms, retention_ms retention = Some ms -> 0 <= ms < 2 ^ 63)
  /\ (forall m, retention_bytes retention = Some m -> 0 <= m < 2 ^ 63).

Lemma ts_sorted_drop (n : nat) (rs : list FluxRecord) : ts_sorted rs -> ts_sorted (drop n rs).
Proof.
  revert rs. induction n as [|n IH]; intros [|r rs] Hs; simpl; try done. inversion_clear Hs. by apply IH.
Qed.

Lemma recent_tail (c : Z) (x : FluxRecord) (l : list FluxRecord) : recent c (x :: l) = true -> recent c l = true.
Proof. simpl. by intros [_ ?]%andb_true_iff. Qed.

Lemma apply_retention_spec (retention : RetentionPolicy) (p : Partition) :
  policy_ok retention -> ts_sorted (pt_records p) -> sum_len (pt_records p) < 2 ^ 64 ->
  pt_total_bytes p = sum_len (pt_records p) ->
  (pt_records p = [] \/ 0 <= pt_newest_ts p < 2 ^ 63) ->
  let s := drop_until (keep retention (pt_newest_ts p)) (pt_records p) in
  apply_retention retention p = mkPartition s (pt_next_offset p) (sum_len s) (pt_newest_ts p).
Proof.
  intros [Hms Hmb] Hs Hlt Ht Hn. unfold apply_retention. rewrite Ht.
  set (rs := pt_records p) in *. set (newest := pt_newest_ts p) in *.
  assert (forall ms, retention_ms retention = Some ms ->
    evict_old (i64_wrap (newest - ms)) rs (sum_len rs) =
      (drop_until (recent (newest - ms)) rs, sum_len (drop_until (recent (newest - ms)) rs))) as Hold.
  { intros ms Hr. specialize (Hms ms Hr). destruct Hn as [->|Hn]; [by rewrite drop_until_nil|].
    rewrite i64_wrap_id by (unfold is_i64; lia). by apply evict_old_spec. }
  unfold keep. destruct (retention_ms retention) as [ms|]; [rewrite (Hold ms) by done|];
    (destruct (retention_bytes retention) as [m|]; [rewrite evict_large_spec; [|specialize (Hmb m eq_refl); lia|] |]).
  - by rewrite drop_until_and by apply recent_tail.
  - destruct (drop_until_suffix (recent (newest - ms)) rs) as [k ->]. pose proof (sum_len_drop k rs). lia.
  - rewrite (drop_until_ext (fun rs => recent (newest - ms) rs && true) (recent (newest - ms))); [done|].
    intros l. apply andb_true_r.
  - done.
  - done.
  - by rewrite drop_until_true.
Qed.

(** A stricter policy state after an append. *)
Lemma keep_snoc (retention : RetentionPolicy) (newest newest' : Z) (r : FluxRecord) (s : list FluxRecord) :
  newest <= newest' -> keep retention newest' (s ++ [r]) = true -> keep retention newest s = true.
Proof.
  intros Hle. unfold keep. rewrite !andb_true_iff. intros [H1 H2]. split.
  - destruct (retention_ms retention) as [ms|]; [|done]. unfold recent in *. rewrite forallb_app in H1.
    apply andb_true_iff in H1 as [H1 _]. rewrite forallb_forall in *. intros x Hx. apply H1 in Hx. lia.
  - destruct (retention_bytes retention) as [m|]; [|done]. unfold small in *. rewrite sum_len_app in H2.
    simpl in H2. pose proof (value_len_nonneg r). lia.
Qed.

Section Recovery.
  Context {bcr : Bincode FluxRecord} {bco : Bincode OffsetCommit}.
  Context {bcr_laws : BincodeLaws FluxRecord} {bco_laws : BincodeLaws OffsetCommit}.
  Context (hash : bytes -> Z).

(** ** Files of records *)

Definition fits {A : Type} {bc : Bincode A} {laws : BincodeLaws A} (a : A) : Prop :=
  bc_in_range a /\ zlen (bc_serialize a) < 2 ^ 32.

Definition frames {A : Type} {bc : Bincode A} (l : list A) : bytes :=
  concat (map (fun a => frame (bc_serialize a)) l).

Lemma frames_snoc {A : Type} {bc : Bincode A} (l : list A) (a : A) :
  frames (l ++ [a]) = frames l ++ frame (bc_serialize a).
Proof. unfold frames. rewrite map_app, concat_app. simpl. by rewrite app_nil_r. Qed.

Lemma zlen_frame (b : bytes) : zlen (frame b) = 4 + zlen b.
Proof. unfold frame. by rewrite zlen_app, zlen_u32_to_be. Qed.

Lemma read_frame_frame (b rest : bytes) :
  zlen b < 2 ^ 32 -> read_frame (frame b ++ rest) = Ok (Some (b, rest)).
Proof.
  intros Hb. unfold read_frame. pose proof (zlen_nonneg b). pose proof (zlen_nonneg rest).
  rewrite zlen_app, zlen_frame. rewrite (proj2 (Z.ltb_ge _ 4)) by lia.
  unfold frame. rewrite <- app_assoc.
  assert (length (u32_to_be (zlen b mod 2 ^ 32)) = 4%nat) as Hl by apply length_to_be.
  rewrite (take_app_length' _ _ 4), (drop_app_length' _ _ 4) by done.
  rewrite from_u32_to_be by (apply Z.mod_pos_bound; lia). rewrite Z.mod_small by lia.
  rewrite zlen_app, (proj2 (Z.ltb_ge _ (zlen b))) by lia.
  by rewrite take_zlen_app, drop_zlen_app.
Qed.

(** ** Partitions *)

Definition newest_of (all : list FluxRecord) : Z :=
  foldr (fun r z => Z.max z (fr_timestamp_ms r)) I64_MIN all.

(** The whole history of a partition. *)
Record log_ok (all : list FluxRecord) : Prop := {
  lo_offsets : forall i r, all !! i = Some r -> fr_offset r = Z.of_nat i;
  lo_sorted : ts_sorted all;
  lo_range : Forall (fun r => 0 <= fr_timestamp_ms r < 2 ^ 63) all;
  lo_size : sum_len all < 2 ^ 64;
  lo_count : zlen all < 2 ^ 64;
  lo_fits : Forall fits all;
}.

(** The partition in memory and its file stand for the history. *)
Record part_rep (retention : RetentionPolicy) (all : list FluxRecord) (p : Partition)
    (file : option bytes) : Prop := {
  pr_records : pt_records p = drop_until (keep retention (pt_newest_ts p)) all;
  pr_next : pt_next_offset p = zlen all;
  pr_total : pt_total_bytes p = sum_len (pt_records p);
  pr_newest : pt_newest_ts p = newest_of all;
  pr_file : default [] file = frames all;
}.

(** What replay builds, before retention. *)
Definition replayed (all : list FluxRecord) : Partition :=
  mkPartition all (zlen all) (sum_len all) (newest_of all).

Lemma read_frame_torn (encoded : bytes) (m : nat) :
  zlen encoded < 2 ^ 32 -> (4 <= m < length (frame encoded))%nat ->
  read_frame (take m (frame encoded)) = Err "failed to fill whole buffer"%string.
Proof.
  intros Hl Hm. unfold read_frame. pose proof (zlen_nonneg encoded).
  assert (zlen (take m (frame encoded)) = Z.of_nat m) as -> by (unfold zlen; rewrite length_take; lia).
  rewrite (proj2 (Z.ltb_ge _ 4)) by lia.
  assert (take 4 (take m (frame encoded)) = u32_to_be (zlen encoded mod 2 ^ 32)) as ->.
  { rewrite take_take, Nat.min_l by lia. unfold frame. apply take_app_length'. unfold u32_to_be. by rewrite length_to_be. }
  rewrite from_u32_to_be by (apply Z.mod_pos_bound; lia). rewrite Z.mod_small by lia.
  rewrite (proj2 (Z.ltb_lt _ (zlen encoded))); [done|].
  unfold zlen. rewrite length_drop, length_take. unfold frame in *. rewrite length_app in *.
  unfold u32_to_be in *. rewrite length_to_be in *. lia.
Qed.

Lemma newest_of_snoc (all : list FluxRecord) (r : FluxRecord) :
  newest_of (all ++ [r]) = Z.max (newest_of all) (fr_timestamp_ms r).
Proof. unfold newest_of. induction all as [|x all IH]; simpl in *; lia. Qed.

Lemma newest_of_range (all : list FluxRecord) :
  Forall (fun r => 0 <= fr_timestamp_ms r < 2 ^ 63) all -> all = [] \/ 0 <= newest_of all < 2 ^ 63.
Proof.
  induction 1 as [|r all Hr _ IH]; [by left|]. right. simpl.
  destruct IH as [->|IH]; [|lia]. unfold newest_of, I64_MIN. simpl. lia.
Qed.

(** Replaying the records of a file whose tail is [tail]. *)
Lemma partition_open_replays (pre all : list FluxRecord) (tail : bytes) (fuel : nat) :
  log_ok (pre ++ all) -> (length all < fuel)%nat ->
  partition_open_loop fuel (frames all ++ tail) (replayed pre)
  = partition_open_loop (fuel - length all) tail (replayed (pre ++ all)).
Proof.
  revert pre fuel. induction all as [|r all IH]; intros pre fuel Hok Hf.
  - by rewrite app_nil_r, Nat.sub_0_r.
  - destruct fuel as [|fuel]; [simpl in Hf; lia|]. assert (fits r) as [Hr Hl].
    { pose proof (lo_fits _ Hok) as H. by apply Forall_app in H as [_ [? _]%Forall_cons]. }
    cbn [partition_open_loop]. change (frames (r :: all)) with (frame (bc_serialize r) ++ frames all).
    rewrite <- app_assoc, read_frame_frame by done. rewrite bc_roundtrip by done.
    assert (push_record (u64_add (fr_offset r) 1) r (replayed pre) = replayed (pre ++ [r])) as ->.
    { unfold push_record, replayed; simpl. rewrite zlen_app, sum_len_app, newest_of_snoc.
      pose proof (lo_size _ Hok) as Hsz. pose proof (lo_count _ Hok) as Hct.
      rewrite sum_len_app in Hsz. rewrite zlen_app, zlen_cons in Hct. simpl in Hsz.
      pose proof (sum_len_nonneg pre). pose proof (sum_len_nonneg all). pose proof (value_len_nonneg r).
      pose proof (zlen_nonneg pre). pose proof (zlen_nonneg all).
      rewrite (lo_offsets _ Hok (length pre) r) by by apply list_lookup_middle.
      fold (zlen pre). simpl sum_len. change (zlen [r]) with 1. f_equal; rewrite u64_add_small by lia; lia. }
    rewrite IH; [by rewrite <- app_assoc | by rewrite <- app_assoc | simpl in Hf; lia].
Qed.

Lemma length_frames {A : Type} {bc : Bincode A} (all : list A) : (length all <= length (frames all))%nat.
Proof.
  induction all as [|r all IH]; [done|]. change (frames (r :: all)) with (frame (bc_serialize r) ++ frames all).
  rewrite length_app. unfold frame. rewrite length_app. unfold u32_to_be. rewrite length_to_be. simpl. lia.
Qed.

Lemma partition_open_spec (all : list FluxRecord) (file : option bytes) :
  log_ok all -> default [] file = frames all -> partition_open file = Ok (replayed all).
Proof.
  intros Hok Hf. destruct file as [file|]; simpl in Hf; subst.
  - unfold partition_open. rewrite <- (app_nil_r (frames all)) at 2. pose proof (length_frames all).
    rewrite (partition_open_replays [] all) by (done || lia). by destruct (S _ - _)%nat.
  - destruct all as [|r all]; [done|]. apply (f_equal length) in Hf. pose proof (length_frames (r :: all)).
    rewrite <- Hf in *. simpl in *. lia.
Qed.

(** Reopening a partition and applying the policy gives back what is in memory. *)
Lemma partition_reopen (retention : RetentionPolicy) (all : list FluxRecord) (p : Partition) (file : option bytes) :
  policy_ok retention -> log_ok all -> part_rep retention all p file ->
  exists p0, partition_open file = Ok p0 /\ apply_retention retention p0 = p.
Proof.
  intros Hpol Hok [Hr Hn Ht Hnew Hf]. exists (replayed all). split; [by apply partition_open_spec|].
  rewrite apply_retention_spec; simpl; [|done | apply Hok | apply Hok | done | apply newest_of_range, Hok].
  destruct p as [rs n t w]; simpl in *. subst. done.
Qed.

Lemma log_ok_drop_sorted (all : list FluxRecord) (P : list FluxRecord -> bool) :
  log_ok all -> ts_sorted (drop_until P all) /\ sum_len (drop_until P all) <= sum_len all.
Proof.
  intros Hok. destruct (drop_until_suffix P all) as [n ->]. split; [apply ts_sorted_drop, Hok | apply sum_len_drop].
Qed.

Lemma ts_sorted_snoc (all : list FluxRecord) (r : FluxRecord) :
  ts_sorted all -> (forall x, In x all -> fr_timestamp_ms x <= fr_timestamp_ms r) -> ts_sorted (all ++ [r]).
Proof.
  induction 1 as [|x all Hs IH Hall]; intros Hle; simpl; [repeat constructor|].
  constructor; [apply IH; intros y Hy; apply Hle; by right|].
  apply Forall_app. split; [done|]. constructor; [apply Hle; by left | constructor].
Qed.

Lemma newest_of_ge (all : list FluxRecord) (x : FluxRecord) : In x all -> fr_timestamp_ms x <= newest_of all.
Proof. induction all as [|y all IH]; simpl; [done|]. intros [->|H]; [lia|]. apply IH in H. unfold newest_of in *. lia. Qed.

(** What a record must satisfy to be appended to a history: the clock has not
    gone back, and sizes stay in range. *)
Definition append_fits (all : list FluxRecord) (r : FluxRecord) : Prop :=
  newest_of all <= fr_timestamp_ms r /\ 0 <= fr_timestamp_ms r < 2 ^ 63 /\ fits r
  /\ sum_len all + value_len r < 2 ^ 64 /\ zlen all + 1 < 2 ^ 64.

Lemma log_ok_snoc (all : list FluxRecord) (r : FluxRecord) :
  log_ok all -> fr_offset r = zlen all -> append_fits all r -> log_ok (all ++ [r]).
Proof.
  intros [Ho Hs Hr Hsz Hc Hf] Hoff (Hnew & Hts & Hfit & Hsum & Hcnt). split.
  - intros i x [Hi|[Hge Hi]]%lookup_app_Some; [by apply Ho|].
    apply list_lookup_singleton_Some in Hi as [Hi <-]. rewrite Hoff. unfold zlen. lia.
  - apply ts_sorted_snoc; [done|]. intros x Hx%newest_of_ge. lia.
  - apply Forall_app_2; [done | by apply Forall_singleton].
  - rewrite sum_len_app. simpl. lia.
  - rewrite zlen_app. done.
  - apply Forall_app_2; [done | by apply Forall_singleton].
Qed.

Lemma append_rep (retention : RetentionPolicy) (all : list FluxRecord) (p : Partition) (file : option bytes)
    key value now :
  let r := mkFluxRecord (zlen all) key value now in
  policy_ok retention -> log_ok all -> part_rep retention all p file -> append_fits all r ->
  exists p', append key value now retention p (default [] file)
      = (p', default [] file ++ frame (bc_serialize r), zlen all)
    /\ log_ok (all ++ [r])
    /\ part_rep retention (all ++ [r]) p' (Some (default [] file ++ frame (bc_serialize r))).
Proof.
  intros r Hpol Hok [Hr Hn Ht Hnew Hf] Hfit. pose proof (log_ok_snoc all r Hok eq_refl Hfit) as Hok'.
  destruct Hfit as (Hmono & Hts & _ & Hsum & Hcnt).
  destruct (log_ok_drop_sorted all (keep retention (pt_newest_ts p)) Hok) as [Hsd Hle]. rewrite <- Hr in Hsd, Hle.
  pose proof (sum_len_nonneg (pt_records p)). pose proof (value_len_nonneg r). pose proof (zlen_nonneg all).
  assert (push_record (u64_add (zlen all) 1) r p = mkPartition (pt_records p ++ [r]) (zlen all + 1)
     (sum_len (pt_records p ++ [r])) (newest_of (all ++ [r]))) as Hpush.
  { unfold push_record. rewrite Ht, Hnew, newest_of_snoc, sum_len_app. simpl sum_len.
    f_equal; rewrite ?u64_add_small by lia; lia. }
  unfold append. rewrite Hn. fold r. rewrite Hpush.
  rewrite apply_retention_spec; cbn [pt_records pt_next_offset pt_total_bytes pt_newest_ts]; [|done| | | done |].
  - eexists. split; [done|]. split; [done|]. split; simpl.
    + rewrite Hr. apply drop_until_snoc. intros s. apply keep_snoc. rewrite Hnew, newest_of_snoc. lia.
    + by rewrite zlen_app.
    + done.
    + done.
    + by rewrite Hf, frames_snoc.
  - apply ts_sorted_snoc; [done|]. intros x Hx. rewrite Hr in Hx.
    destruct (drop_until_suffix (keep retention (pt_newest_ts p)) all) as [k Hk]. rewrite Hk in Hx.
    assert (In x all) as Hin%newest_of_ge
      by (rewrite <- (take_drop k all); apply in_app_iff; by right). simpl in *. lia.
  - rewrite sum_len_app. simpl. lia.
  - right. destruct (newest_of_range _ (lo_range _ Hok')) as [?|?]; [by destruct all | done].
Qed.

(** ** Topics *)

(** A topic, its directory and the history of each partition. *)
Record fsys := FSys { f_log : FluxLog; f_dir : FluxDir; f_hist : list (list FluxRecord) }.

Inductive fstep : fsys -> fsys -> Prop :=
  | f_publish partition key value now l dir h l' dir' target offset all :
      publish hash partition key value now l dir = (l', dir', Ok (target, offset)) ->
      h !! Z.to_nat target = Some all ->
      append_fits all (mkFluxRecord offset key value now) ->
      match partition with Some p => 0 <= p | None => True end ->
      fstep (FSys l dir h)
            (FSys l' dir' (<[Z.to_nat target := all ++ [mkFluxRecord offset key value now]]> h))
  | f_commit group partition offset l dir h l' dir' :
      flux_commit group partition offset l dir = (l', dir', Ok tt) ->
      fits (mkOffsetCommit group partition offset) ->
      fstep (FSys l dir h) (FSys l' dir' h).

(** A topic as [CREATE TOPIC] leaves it in a directory that was not there. *)
Definition finitial (n : Z) (retention : RetentionPolicy) (y : fsys) : Prop :=
  exists l dir, flux_create n retention empty_dir = (dir, Ok l) /\ y = FSys l dir (replicate (Z.to_nat n) []).

Definition freachable (n : Z) (retention : RetentionPolicy) (y : fsys) : Prop :=
  exists y0, finitial n retention y0 /\ rtc fstep y0 y.

(** Replaying commits. *)
Definition apply_commits (cs : list OffsetCommit) (m : gmap (string * Z) Z) : gmap (string * Z) Z :=
  fold_left (fun m c => <[(oc_group c, oc_partition c) := oc_offset c]> m) cs m.

Record finv (n : Z) (retention : RetentionPolicy) (y : fsys) : Prop := {
  fi_count : length (fl_partitions (f_log y)) = Z.to_nat n;
  fi_hist : length (f_hist y) = Z.to_nat n;
  fi_retention : fl_retention (f_log y) = retention;
  fi_rr : 0 <= fl_rr_counter (f_log y);
  fi_meta : fd_meta (f_dir y) = fd_meta (write_meta n retention empty_dir);
  fi_parts : forall i p all, fl_partitions (f_log y) !! i = Some p -> f_hist y !! i = Some all ->
    log_ok all /\ part_rep retention all p (fd_logs (f_dir y) !! Z.of_nat i);
  fi_offsets : exists cs, Forall fits cs /\ default [] (fd_offsets (f_dir y)) = frames cs
    /\ fl_offsets (f_log y) = apply_commits cs ∅;
}.

Lemma log_ok_nil : log_ok [].
Proof. split; [done | constructor | constructor | simpl; lia | unfold zlen; simpl; lia | constructor]. Qed.

Lemma part_rep_new (retention : RetentionPolicy) : part_rep retention [] partition_new None.
Proof. split; simpl; try done. by case_match. Qed.

Lemma open_partitions_empty (ids : list Z) (dir : FluxDir) :
  fd_logs dir = ∅ -> open_partitions ids id dir = Ok (map (fun _ => partition_new) ids).
Proof. intros Hd. induction ids as [|i ids IH]; simpl; [done|]. by rewrite Hd, lookup_empty, IH. Qed.

Lemma finitial_finv (n : Z) (retention : RetentionPolicy) (y : fsys) :
  finitial n retention y -> finv n retention y.
Proof.
  intros (l & dir & Hc & ->). unfold flux_create in Hc. destruct (n >? 0); simpl in Hc; [|done].
  rewrite open_partitions_empty in Hc by done. injection Hc as <- <-.
  split; simpl; [| by rewrite length_replicate | done | lia | done | | exists []; by repeat constructor].
  - unfold partition_ids. by rewrite !length_map, length_seq.
  - intros i p all Hp [Hall _]%lookup_replicate. subst all. rewrite lookup_empty.
    rewrite list_lookup_fmap in Hp. destruct (partition_ids n !! i); [|done]. injection Hp as <-.
    split; [apply log_ok_nil | apply part_rep_new].
Qed.

Lemma publish_target_range (n : Z) (l : FluxLog) partition key target rr :
  0 < n < 2 ^ 32 -> length (fl_partitions l) = Z.to_nat n -> 0 <= fl_rr_counter l ->
  match partition with Some p => 0 <= p | None => True end ->
  publish_target hash partition key l = Ok (target, rr) -> 0 <= target < n /\ 0 <= rr.
Proof.
  intros Hn Hlen Hrr Hp. unfold publish_target.
  assert (num_partitions l = n) as ->.
  { unfold num_partitions, zlen. rewrite Hlen, Z2Nat.id, Z.mod_small by lia. done. }
  destruct partition as [p|]; [destruct (Z.ltb_spec p n); [|done]; intros [= <- <-]; lia|].
  destruct key as [k|]; intros [= <- <-].
  - unfold partition_for_key. pose proof (Z.mod_pos_bound (hash k) n). lia.
  - pose proof (Z.mod_pos_bound (fl_rr_counter l) n). pose proof (Z.mod_pos_bound (fl_rr_counter l + 1) (2 ^ 32)). lia.
Qed.

(** A publish in a topic that is well formed: what it appends, and where. *)
Lemma publish_spec (n : Z) (retention : RetentionPolicy) (l : FluxLog) (dir : FluxDir) h
    partition key value now l' dir' target offset all :
  0 < n < 2 ^ 32 -> policy_ok retention -> finv n retention (FSys l dir h) ->
  match partition with Some p => 0 <= p | None => True end ->
  publish hash partition key value now l dir = (l', dir', Ok (target, offset)) ->
  h !! Z.to_nat target = Some all -> append_fits all (mkFluxRecord offset key value now) ->
  let r := mkFluxRecord offset key value now in
  0 <= target < n /\ offset = zlen all
  /\ finv n retention (FSys l' dir' (<[Z.to_nat target := all ++ [r]]> h)).
Proof.
  intros Hn Hpol [Hcnt Hh Hret Hrr Hmeta Hparts Hoffs] Hp Hpub Hall Hfit r. simpl in *.
  unfold publish in Hpub. destruct (publish_target hash partition key l) as [[tg rr]|err] eqn:Et; [|done].
  destruct (fl_partitions l !! Z.to_nat tg) as [p|] eqn:Ep; [|done].
  destruct (publish_target_range n l partition key tg rr Hn Hcnt Hrr Hp Et) as [Htg Hrr'].
  destruct (append key value now (fl_retention l) p (default [] (fd_logs dir !! tg))) as [[p' file] off] eqn:Ea.
  simplify_eq. destruct (Hparts _ _ _ Ep Hall) as [Hok Hrep]. rewrite Z2Nat.id in Hrep by lia.
  assert (offset = zlen all) as -> by (unfold append in Ea; injection Ea as _ _ <-; apply Hrep).
  destruct (append_rep (fl_retention l) all p (fd_logs dir !! target) key value now Hpol Hok Hrep Hfit)
    as (p1 & Ha & Hok' & Hrep'). rewrite Ea in Ha. injection Ha as -> ->.
  split_and!; [lia | lia | done |]. split; simpl; try done.
  - by rewrite length_insert.
  - by rewrite length_insert.
  - intros i q all' Hq Hall'. destruct (decide (i = Z.to_nat target)) as [->|Hne].
    + rewrite list_lookup_insert_eq in Hq by (rewrite Hcnt; lia).
      rewrite list_lookup_insert_eq in Hall' by (rewrite Hh; lia). simplify_eq.
      rewrite Z2Nat.id, lookup_insert_eq by lia. done.
    + rewrite list_lookup_insert_ne in Hq by done. rewrite list_lookup_insert_ne in Hall' by done. rewrite lookup_insert_ne by lia. by apply Hparts.
Qed.

Lemma apply_commits_snoc (cs : list OffsetCommit) (c : OffsetCommit) m :
  apply_commits (cs ++ [c]) m = <[(oc_group c, oc_partition c) := oc_offset c]> (apply_commits cs m).
Proof. unfold apply_commits. by rewrite fold_left_app. Qed.

Lemma fstep_finv (n : Z) (retention : RetentionPolicy) (y y' : fsys) :
  0 < n < 2 ^ 32 -> policy_ok retention -> fstep y y' -> finv n retention y -> finv n retention y'.
Proof.
  intros Hn Hpol Hst Hinv. destruct Hst as [partition key value now l dir h l' dir' target offset all Hpub Hall Hfit Hp
    | group partition offset l dir h l' dir' Hc Hfit].
  - by eapply publish_spec.
  - destruct Hinv as [Hcnt Hh Hret Hrr Hmeta Hparts (cs & Hcs & Hfile & Hoff)]. simpl in *.
    unfold flux_commit in Hc. destruct (partition <? zlen (fl_partitions l)); simpl in Hc; [|done].
    injection Hc as <- <-. split; simpl; try done.
    exists (cs ++ [mkOffsetCommit group partition offset]). split_and!.
    + apply Forall_app_2; [done | by apply Forall_singleton].
    + by rewrite Hfile, frames_snoc.
    + by rewrite Hoff, apply_commits_snoc.
Qed.

Lemma freachable_finv (n : Z) (retention : RetentionPolicy) (y : fsys) :
  0 < n < 2 ^ 32 -> policy_ok retention -> freachable n retention y -> finv n retention y.
Proof.
  intros Hn Hpol (y0 & Hi%finitial_finv & Hst). induction Hst; eauto using fstep_finv.
Qed.

(** *** Reopening *)

Lemma i64_be_roundtrip (z : Z) : is_i64 z -> i64_from_be (i64_to_be z) = z.
Proof.
  intros Hz. unfold i64_from_be, i64_to_be. rewrite from_u64_to_be by (apply Z.mod_pos_bound; lia).
  rewrite <- (i64_wrap_id z Hz) at 2. apply i64_wrap_congr. by rewrite Z.mod_mod by lia.
Qed.

Lemma meta_roundtrip (n : Z) (retention : RetentionPolicy) (dir : FluxDir) :
  is_u32 n -> policy_ok retention ->
  fd_meta dir = fd_meta (write_meta n retention empty_dir) -> read_meta dir = Ok (n, retention).
Proof.
  intros Hn [Hms Hmb] Hd. unfold read_meta. rewrite Hd. unfold write_meta. cbn [fd_meta]. cbv beta iota.
  set (a := u32_to_be n). set (b := i64_to_be (default (-1) (retention_ms retention))).
  set (c := i64_to_be (default (-1) (i64_wrap <$> retention_bytes retention))).
  assert (zlen a = 4 /\ zlen b = 8 /\ zlen c = 8) as (Ha & Hb & Hc)
    by (unfold a, b, c, i64_to_be; by rewrite zlen_u32_to_be, !zlen_u64_to_be).
  assert (from_be a = n) as Hfa by by apply from_u32_to_be.
  assert (i64_from_be b = default (-1) (retention_ms retention)) as Hfb.
  { apply i64_be_roundtrip. destruct (retention_ms retention) as [ms|]; simpl; [specialize (Hms ms eq_refl)|];
      unfold is_i64; lia. }
  assert (i64_from_be c = default (-1) (retention_bytes retention)) as Hfc.
  { unfold c. rewrite i64_be_roundtrip; destruct (retention_bytes retention) as [m|]; simpl;
      try (specialize (Hmb m eq_refl); rewrite i64_wrap_id); unfold is_i64; lia || done. }
  clearbody a b c.
  rewrite !zlen_app, Ha, Hb, Hc. simpl Z.ltb. cbv iota.
  assert (slice (a ++ b ++ c) 0 4 = a) as -> by by apply (slice_app_mid [] a (b ++ c)).
  assert (slice (a ++ b ++ c) 4 8 = b) as -> by by apply (slice_app_mid a b c).
  assert (slice (a ++ b ++ c) 12 8 = c) as ->.
  { transitivity (slice ((a ++ b) ++ c ++ []) 12 8); [by rewrite app_nil_r, app_assoc|].
    apply slice_app_mid; [rewrite zlen_app; lia | done]. }
  rewrite Hfa, Hfb, Hfc. do 2 f_equal. destruct retention as [[ms|] [m|]]; simpl in *;
    try specialize (Hms ms eq_refl); try specialize (Hmb m eq_refl);
    rewrite ?(proj2 (Z.ltb_ge ms 0)), ?(proj2 (Z.ltb_ge m 0)) by lia; done.
Qed.

Lemma read_offsets_spec (cs : list OffsetCommit) (fuel : nat) m :
  Forall fits cs -> (length cs < fuel)%nat -> read_offsets_loop fuel (frames cs) m = Ok (apply_commits cs m).
Proof.
  revert fuel m. induction cs as [|c cs IH]; intros [|fuel] m Hcs Hf; try (simpl in Hf; lia); [done|].
  apply Forall_cons in Hcs as [[Hr Hl] Hcs]. cbn [read_offsets_loop].
  change (frames (c :: cs)) with (frame (bc_serialize c) ++ frames cs).
  rewrite read_frame_frame, bc_roundtrip by done. simpl in Hf. rewrite IH by (done || lia). done.
Qed.

Lemma open_partitions_spec (retention : RetentionPolicy) (dir : FluxDir) (ps : list Partition)
    (h : list (list FluxRecord)) (k : nat) :
  policy_ok retention -> length h = length ps ->
  (forall i p all, ps !! i = Some p -> h !! i = Some all ->
     log_ok all /\ part_rep retention all p (fd_logs dir !! Z.of_nat (k + i))) ->
  open_partitions (map Z.of_nat (seq k (length ps))) (apply_retention retention) dir = Ok ps.
Proof.
  intros Hpol. revert h k. induction ps as [|p ps IH]; intros [|all h] k Hlen Hall; try done.
  simpl. destruct (Hall O p all eq_refl eq_refl) as [Hok Hrep]. rewrite Nat.add_0_r in Hrep.
  destruct (partition_reopen retention all p _ Hpol Hok Hrep) as (p0 & -> & <-).
  rewrite (IH h (S k)); [done | simpl in Hlen; lia |].
  intros i q all' Hq Ha. replace (S k + i)%nat with (k + S i)%nat by lia. by apply Hall.
Qed.

Lemma finv_reopen (n : Z) (retention : RetentionPolicy) (y : fsys) :
  0 < n < 2 ^ 32 -> policy_ok retention -> finv n retention y ->
  flux_open (f_dir y) = Ok (mkFluxLog (fl_partitions (f_log y)) retention (fl_offsets (f_log y)) 0).
Proof.
  intros Hn Hpol [Hcnt Hh Hret Hrr Hmeta Hparts (cs & Hcs & Hfile & Hoff)]. unfold flux_open.
  rewrite (meta_roundtrip n retention) by (done || unfold is_u32; lia).
  unfold partition_ids. rewrite <- Hcnt.
  rewrite (open_partitions_spec retention _ _ (f_hist y) 0); [|done | lia | intros i p all; by apply Hparts].
  assert (read_offsets (fd_offsets (f_dir y)) = Ok (apply_commits cs ∅)) as ->; [|by rewrite Hoff].
  destruct (fd_offsets (f_dir y)) as [file|]; simpl in Hfile.
  - subst file. unfold read_offsets. apply read_offsets_spec; [done|]. pose proof (length_frames cs). lia.
  - destruct cs as [|c cs]; [done|]. apply (f_equal length) in Hfile. pose proof (length_frames (c :: cs)).
    rewrite <- Hfile in *. simpl in *. lia.
Qed.

(** C10. A restart restores a topic. After any publishes and commits that
    succeeded since the topic was created in a directory of its own, opening the
    directory gives back the partitions with exactly the records that retention
    had left in memory, their counters, the policy and the offsets of every
    consumer group; only the round-robin cursor starts over. This needs a clock
    that does not run backwards between publishes and sizes in range
    ([append_fits]), and no record that was cut short, on which opening fails
    ([flux_torn_record_blocks_open]). *)
Theorem flux_reopen_restores_topic (n : Z) (retention : RetentionPolicy) (y : fsys) :
  0 < n < 2 ^ 32 -> policy_ok retention -> freachable n retention y ->
  flux_open (f_dir y) = Ok (mkFluxLog (fl_partitions (f_log y)) retention (fl_offsets (f_log y)) 0).
Proof. intros Hn Hpol Hr. by apply (finv_reopen n), freachable_finv. Qed.

(** Publishing. In every reachable topic a publish to an existing
    partition, or without one, succeeds; the target is the partition asked
    for, or the hash of the key modulo the number of partitions, or some
    partition of the topic; and the offset it returns is the number of records
    ever published to that partition, evicted ones included. *)
Theorem flux_publish_assigns_next_offset (n : Z) (retention : RetentionPolicy) (y : fsys)
    partition key value now :
  0 < n < 2 ^ 32 -> policy_ok retention -> freachable n retention y ->
  match partition with Some p => 0 <= p < n | None => True end ->
  exists l' dir' target all,
    publish hash partition key value now (f_log y) (f_dir y) = (l', dir', Ok (target, zlen all))
    /\ f_hist y !! Z.to_nat target = Some all /\ 0 <= target < n
    /\ (forall p, partition = Some p -> target = p)
    /\ (forall k, partition = None -> key = Some k -> target = hash k mod n).
Proof.
  intros Hn Hpol Hr Hp. pose proof (freachable_finv n retention y Hn Hpol Hr) as [Hcnt Hh Hret Hrr _ Hparts _].
  assert (num_partitions (f_log y) = n) as Hnum.
  { unfold num_partitions, zlen. rewrite Hcnt, Z2Nat.id, Z.mod_small by lia. done. }
  assert (exists target rr, publish_target hash partition key (f_log y) = Ok (target, rr)
    /\ (forall p, partition = Some p -> target = p)
    /\ (forall k, partition = None -> key = Some k -> target = hash k mod n)) as (target & rr & Ht & H1 & H2).
  { unfold publish_target. rewrite Hnum. destruct partition as [p|].
    - rewrite (proj2 (Z.ltb_lt p n)) by lia. do 2 eexists. split_and!; [done | by intros ? [= <-] | done].
    - destruct key as [k|]; do 2 eexists; (split_and!; [done | done |]); [by intros ? _ [= <-] | done]. }
  destruct (publish_target_range n (f_log y) partition key target rr Hn Hcnt Hrr) as [Hrange _];
    [destruct partition; lia | done |].
  destruct (lookup_lt_is_Some_2 (fl_partitions (f_log y)) (Z.to_nat target)) as [p Hpt]; [rewrite Hcnt; lia|].
  destruct (lookup_lt_is_Some_2 (f_hist y) (Z.to_nat target)) as [all Hall]; [rewrite Hh; lia|].
  destruct (Hparts _ _ _ Hpt Hall) as [_ Hrep]. unfold publish. rewrite Ht, Hpt. unfold append.
  rewrite (pr_next _ _ _ _ Hrep). do 2 eexists. exists target, all. split_and!; [done | done | lia | lia | done | done].
Qed.

(** Offsets count from the start of the history. *)
Lemma filter_from (all : list FluxRecord) (c : Z) (b k : nat) :
  (forall i r, all !! i = Some r -> fr_offset r = Z.of_nat (b + i)) ->
  List.filter (fun r => fr_offset r >=? c) (drop k all) = drop (k `max` (Z.to_nat c - b)) all.
Proof.
  revert b k. induction all as [|r all IH]; intros b k Ho; [by rewrite !drop_nil|].
  assert (forall i x, all !! i = Some x -> fr_offset x = Z.of_nat (S b + i)) as Ho'.
  { intros i x Hx. rewrite (Ho (S i) x) by done. lia. }
  pose proof (Ho O r eq_refl) as Hr. destruct k as [|k].
  - pose proof (IH (S b) O Ho') as IH0. rewrite !drop_0 in *. simpl List.filter. rewrite IH0.
    destruct (Z.geb_spec (fr_offset r) c) as [Hc|Hc].
    + replace (0 `max` (Z.to_nat c - S b))%nat with O by lia. by replace (0 `max` (Z.to_nat c - b))%nat with O by lia.
    + by replace (0 `max` (Z.to_nat c - b))%nat with (S (0 `max` (Z.to_nat c - S b)))%nat by lia.
  - simpl drop at 1. rewrite (IH (S b)) by done.
    by replace (S k `max` (Z.to_nat c - b))%nat with (S (k `max` (Z.to_nat c - S b)))%nat by lia.
Qed.

(** The records that stay satisfy the policy, and one more would not. *)
Lemma drop_until_longest {A : Type} (P : list A -> bool) (l : list A) :
  P [] = true ->
  exists k, drop_until P l = drop k l /\ P (drop k l) = true /\ forall j, (j < k)%nat -> P (drop j l) = false.
Proof.
  intros Hnil. induction l as [|x l (k & Heq & HP & Hlt)].
  - exists O. rewrite drop_until_nil. split_and!; [done | done | lia].
  - destruct (P (x :: l)) eqn:E.
    + exists O. rewrite drop_until_here by done. split_and!; [done | done | lia].
    + exists (S k). rewrite drop_until_cons by done. split_and!; [done | done |].
      intros [|j] Hj; [done|]. apply Hlt. lia.
Qed.

(** Retention and consumption. In every reachable topic the records of
    a partition are its whole history less the [k] oldest, where [k] is the
    least number for which the rest satisfies the policy; and a poll of a
    group returns the next records of the history from its committed offset
    on, or from the oldest one left when that has been evicted, in order and
    without gaps. *)
Theorem flux_poll_reads_history (n : Z) (retention : RetentionPolicy) (y : fsys) (i : Z) (all : list FluxRecord) :
  0 < n < 2 ^ 32 -> policy_ok retention -> freachable n retention y -> 0 <= i ->
  f_hist y !! Z.to_nat i = Some all ->
  exists k,
    all_records i (f_log y) = Some (drop k all)
    /\ keep retention (newest_of all) (drop k all) = true
    /\ (forall j, (j < k)%nat -> keep retention (newest_of all) (drop j all) = false)
    /\ forall group max, flux_poll group i max (f_log y) =
         Ok (take max (drop (k `max` Z.to_nat (default 0 (fl_offsets (f_log y) !! (group, i)))) all)).
Proof.
  intros Hn Hpol Hr Hi Hall.
  pose proof (freachable_finv n retention y Hn Hpol Hr) as [Hcnt Hh _ _ _ Hparts _].
  destruct (lookup_lt_is_Some_2 (fl_partitions (f_log y)) (Z.to_nat i)) as [p Hp].
  { rewrite Hcnt, <- Hh. by eapply lookup_lt_Some. }
  destruct (Hparts _ _ _ Hp Hall) as [Hok [Hrec _ _ Hnew _]].
  destruct (drop_until_longest (keep retention (newest_of all)) all) as (k & Heq & HP & Hlt).
  { unfold keep, small. destruct Hpol as [_ Hmb]. destruct (retention_ms retention), (retention_bytes retention) as [m|];
      simpl; try done; specialize (Hmb m eq_refl); apply Z.leb_le; lia. }
  rewrite Hnew, Heq in Hrec. exists k. split_and!; [|done|done|].
  - unfold all_records, partition_all. by rewrite Hp; simpl; rewrite Hrec.
  - intros group max. unfold flux_poll, ok_or, partition_poll. rewrite Hp, Hrec.
    rewrite (filter_from all _ 0 k) by apply Hok. by rewrite Nat.sub_0_r.
Qed.

(** A record cut short blocks its topic. When a crash leaves the length
    of a record but not all of its bytes at the end of a partition's log, the
    partition does not open, although every record before it is intact; a log
    cut inside the length opens. *)
Theorem flux_torn_record_blocks_open (all : list FluxRecord) (encoded : bytes) (m : nat) :
  log_ok all -> zlen encoded < 2 ^ 32 -> (m < length (frame encoded))%nat ->
  partition_open (Some (frames all ++ take m (frame encoded))) =
    if (m <? 4)%nat then Ok (replayed all) else Err "failed to fill whole buffer"%string.
Proof.
  intros Hok Hlen Hm. unfold partition_open. pose proof (length_frames all).
  rewrite (partition_open_replays [] all) by (done || rewrite length_app; lia). simpl app.
  destruct (S (length (frames all ++ take m (frame encoded))) - length all)%nat as [|f] eqn:Ef;
    [rewrite length_app in Ef; lia|]. cbn [partition_open_loop].
  destruct (Nat.ltb_spec m 4) as [H4|H4]; [|by rewrite read_frame_torn].
  unfold read_frame. assert (zlen (take m (frame encoded)) = Z.of_nat m) as -> by (unfold zlen; rewrite length_take; lia).
  by rewrite (proj2 (Z.ltb_lt _ 4)) by lia.
Qed.

End Recovery.

(** ** A topic with a policy: three publishes, a commit, and a restart *)

#[export] Instance demo_bincode_record : Bincode FluxRecord := {|
  bc_serialize r :=
    u64_to_be (fr_offset r) ++ i64_to_be (fr_timestamp_ms r) ++
    match fr_key r with
    | None => Byte.x00 :: fr_value r
    | Some k => Byte.x01 :: u32_to_be (zlen k) ++ k ++ fr_value r
    end;
  bc_deserialize bs :=
    let offset := from_be (take 8 bs) in
    let ts := i64_from_be (take 8 (drop 8 bs)) in
    match drop 16 bs with
    | [] => None
    | tag :: rest =>
        if byte_eqb tag Byte.x00 then Some (mkFluxRecord offset None rest ts)
        else
          let n := Z.to_nat (from_be (take 4 rest)) in
          Some (mkFluxRecord offset (Some (take n (drop 4 rest))) (drop n (drop 4 rest)) ts)
    end;
|}.

#[export] Program Instance demo_bincode_record_laws : BincodeLaws FluxRecord := {|
  bc_in_range r := is_u64 (fr_offset r) /\ is_i64 (fr_timestamp_ms r)
    /\ match fr_key r with Some k => is_u32 (zlen k) | None => True end;
|}.
Next Obligation.
  intros [offset key value ts] (Ho & Ht & Hk). unfold bc_deserialize, bc_serialize, demo_bincode_record.
  cbn [fr_offset fr_timestamp_ms fr_key fr_value] in *.
  assert (forall z, length (u64_to_be z) = 8%nat) as H8 by (intros z; apply length_to_be).
  assert (length (i64_to_be ts) = 8%nat) as Ht8 by apply H8.
  set (tail := match key with None => _ | Some k => _ end).
  rewrite (take_app_length' _ _ 8), (drop_app_length' _ _ 8), (take_app_length' _ _ 8) by by rewrite ?H8.
  rewrite app_assoc, (drop_app_length' _ _ 16) by (rewrite length_app, H8, Ht8; done).
  rewrite from_u64_to_be, i64_be_roundtrip by done. unfold tail. destruct key as [k|]; [|done].
  cbn [byte_eqb]. rewrite (take_app_length' _ _ 4), (drop_app_length' _ _ 4) by (symmetry; apply length_to_be).
  rewrite from_u32_to_be by done. by rewrite take_zlen_app, drop_zlen_app.
Qed.

#[export] Instance demo_bincode_commit : Bincode OffsetCommit := {|
  bc_serialize c := u32_to_be (oc_partition c) ++ u64_to_be (oc_offset c) ++ list_byte_of_string (oc_group c);
  bc_deserialize bs :=
    Some (mkOffsetCommit (string_of_list_byte (drop 12 bs)) (from_be (take 4 bs)) (from_be (take 8 (drop 4 bs))));
|}.

#[export] Program Instance demo_bincode_commit_laws : BincodeLaws OffsetCommit := {|
  bc_in_range c := is_u32 (oc_partition c) /\ is_u64 (oc_offset c);
|}.
Next Obligation.
  intros [g p o] [Hp Ho]. unfold bc_deserialize, bc_serialize, demo_bincode_commit. cbn [oc_partition oc_offset oc_group] in *.
  assert (length (u32_to_be p) = 4%nat) as H4 by apply length_to_be.
  assert (length (u64_to_be o) = 8%nat) as H8 by apply length_to_be.
  rewrite (take_app_length' _ _ 4), (drop_app_length' _ _ 4), (take_app_length' _ _ 8) by done.
  rewrite app_assoc, (drop_app_length' _ _ 12) by (rewrite length_app, H4, H8; done).
  by rewrite from_u32_to_be, from_u64_to_be, string_of_list_byte_of_string by done.
Qed.

Section Demo.

Definition demo_hash (key : bytes) : Z := from_be key mod 2 ^ 64.

(** A publish without a key as a function on the system, with the conditions
    under which it is a step as a boolean. *)
Definition run_publish (partition : Z) (value : bytes) (now : Z) (y : fsys) : fsys :=
  match publish demo_hash (Some partition) None value now (f_log y) (f_dir y) with
  | (l, dir, Ok (target, offset)) =>
      FSys l dir (<[Z.to_nat target :=
        default [] (f_hist y !! Z.to_nat target) ++ [mkFluxRecord offset None value now]]> (f_hist y))
  | _ => y
  end.

Definition publish_check (partition : Z) (value : bytes) (now : Z) (y : fsys) : bool :=
  match publish demo_hash (Some partition) None value now (f_log y) (f_dir y) with
  | (_, _, Ok (target, offset)) =>
      match f_hist y !! Z.to_nat target with
      | Some all =>
          let r := mkFluxRecord offset None value now in
          (0 <=? partition) && (newest_of all <=? now) && (0 <=? now) && (now <? 2 ^ 63)
          && (0 <=? offset) && (offset <? 2 ^ 64) && (zlen (bc_serialize r) <? 2 ^ 32)
          && (sum_len all + value_len r <? 2 ^ 64) && (zlen all + 1 <? 2 ^ 64)
      | None => false
      end
  | _ => false
  end.

Lemma run_publish_steps (partition : Z) (value : bytes) (now : Z) (y : fsys) :
  publish_check partition value now y = true -> rtc (fstep demo_hash) y (run_publish partition value now y).
Proof.
  destruct y as [l dir h]. unfold publish_check, run_publish; cbn [f_log f_dir f_hist].
  destruct (publish demo_hash _ _ _ _ _ _) as [[l' dir'] [[target offset]|err]] eqn:E; [|done].
  destruct (h !! Z.to_nat target) as [all|] eqn:Eh; [|done]. rewrite !andb_true_iff.
  intros ((((((((? & ?) & ?) & ?) & ?) & ?) & ?) & ?) & ?). apply rtc_once. simpl default.
  eapply f_publish; [exact E | done | | by apply Z.leb_le].
  unfold append_fits, fits. simpl fr_timestamp_ms in *. split_and!; try lia. simpl. split_and!; [| |done];
    unfold is_u64, is_i64; lia.
Qed.

Definition flux_policy : RetentionPolicy := mkRetentionPolicy (Some 100) (Some 2).

Definition flux_y0 : fsys :=
  match flux_create 2 flux_policy empty_dir with
  | (dir, Ok l) => FSys l dir (replicate 2 [])
  | (dir, Err _) => FSys (mkFluxLog [] flux_policy ∅ 0) dir []
  end.
Definition flux_y1 : fsys :=
  run_publish 0 [Byte.x63] 3 (run_publish 0 [Byte.x62] 2 (run_publish 0 [Byte.x61] 1 flux_y0)).
Definition flux_y2 : fsys :=
  let '(l, dir, _) := flux_commit "g" 0 2 (f_log flux_y1) (f_dir flux_y1) in FSys l dir (f_hist flux_y1).

Lemma flux_y2_reachable : freachable demo_hash 2 flux_policy flux_y2.
Proof.
  exists flux_y0. split; [do 2 eexists; split; [reflexivity | reflexivity]|].
  etrans; [apply (run_publish_steps 0 [Byte.x61] 1); by vm_compute|].
  etrans; [apply (run_publish_steps 0 [Byte.x62] 2); by vm_compute|].
  etrans; [apply (run_publish_steps 0 [Byte.x63] 3); by vm_compute|].
  apply rtc_once. fold flux_y1. unfold flux_y2.
  destruct (flux_commit "g" 0 2 (f_log flux_y1) (f_dir flux_y1)) as [[l dir] r] eqn:E.
  rewrite (surjective_pairing (f_hist flux_y1, tt)) || idtac.
  assert (r = Ok tt) as -> by (unfold flux_commit in E; vm_compute in E; congruence).
  pose proof (f_commit demo_hash "g" 0 2 (f_log flux_y1) (f_dir flux_y1) (f_hist flux_y1) l dir E) as Hs.
  destruct flux_y1 as [l1 d1 h1]. apply Hs. split; [by split | by vm_compute].
Qed.

Lemma flux_policy_ok : policy_ok flux_policy.
Proof. split; intros z [= <-]; lia. Qed.

Lemma flux_reopen_restores_topic_witness :
  (let? l := flux_open (f_dir flux_y2) in flux_poll "g" 0 10 l) = Ok [mkFluxRecord 2 None [Byte.x63] 3].
Proof.
  rewrite (flux_reopen_restores_topic demo_hash 2 flux_policy flux_y2 ltac:(lia) flux_policy_ok flux_y2_reachable).
  vm_compute. reflexivity.
Defined.

Lemma flux_publish_assigns_next_offset_witness :
  snd (publish demo_hash (Some 0) None [Byte.x64] 4 (f_log flux_y2) (f_dir flux_y2)) = Ok (0, 3).
Proof.
  destruct (flux_publish_assigns_next_offset demo_hash 2 flux_policy flux_y2 (Some 0) None [Byte.x64] 4)
    as (l & dir & target & all & Heq & Hall & _ & Ht & _); [lia | apply flux_policy_ok | apply flux_y2_reachable | lia |].
  rewrite Heq. rewrite (Ht 0 eq_refl) in *. vm_compute in Hall. injection Hall as <-. by vm_compute.
Defined.

Lemma flux_poll_reads_history_witness :
  all_records 0 (f_log flux_y2) = Some [mkFluxRecord 1 None [Byte.x62] 2; mkFluxRecord 2 None [Byte.x63] 3]
  /\ flux_poll "h" 0 1 (f_log flux_y2) = Ok [mkFluxRecord 1 None [Byte.x62] 2].
Proof.
  destruct (flux_poll_reads_history demo_hash 2 flux_policy flux_y2 0
    [mkFluxRecord 0 None [Byte.x61] 1; mkFluxRecord 1 None [Byte.x62] 2; mkFluxRecord 2 None [Byte.x63] 3])
    as (k & Hall & _ & _ & Hpoll);
    [lia | apply flux_policy_ok | apply flux_y2_reachable | lia | by vm_compute |].
  assert (all_records 0 (f_log flux_y2) =
    Some [mkFluxRecord 1 None [Byte.x62] 2; mkFluxRecord 2 None [Byte.x63] 3]) as Hrec by by vm_compute.
  split; [done|]. rewrite Hrec in Hall. injection Hall as Hk.
  assert (k = 1%nat) as -> by (apply (f_equal length) in Hk; rewrite length_drop in Hk; simpl in Hk; lia).
  rewrite Hpoll. by vm_compute.
Defined.

Lemma flux_torn_record_blocks_open_witness :
  partition_open (Some (frames [mkFluxRecord 0 None [Byte.x61] 1] ++ take 9 (frame [Byte.x01; Byte.x02; Byte.x03; Byte.x04; Byte.x05; Byte.x06])))
  = Err "failed to fill whole buffer"%string.
Proof.
  apply (flux_torn_record_blocks_open [mkFluxRecord 0 None [Byte.x61] 1] [Byte.x01; Byte.x02; Byte.x03; Byte.x04; Byte.x05; Byte.x06] 9).
  - split; [| | | by vm_compute | by vm_compute |].
    + intros [|i] r; [by intros [= <-]|done].
    + constructor; constructor.
    + apply Forall_singleton. simpl. lia.
    + apply Forall_singleton. split; [|by vm_compute]. split_and!; unfold is_u64, is_i64; simpl; done || lia.
  - by vm_compute.
  - by vm_compute.
Defined.

(** A change-data topic whose last append was cut short after six bytes. *)
Definition torn_topics : Topics :=
  let t := fst (flux_publish_cdc demo_hash Writer "t" [Byte.x7b; Byte.x7d] 5 (open_topics ∅)) in
  let dir := dir_of (cdc_topic "t") t in
  let torn := take 6 (frame (bc_serialize (mkFluxRecord 1 None [Byte.x7b; Byte.x7d] 6))) in
  mkTopics (tp_topics t)
    (<[cdc_topic "t" := mkFluxDir (fd_meta dir) (<[0 := default [] (fd_logs dir !! 0) ++ torn]> (fd_logs dir))
                          (fd_offsets dir)]> (tp_dirs t)).

(** A torn change event stops change capture. After a crash in the
    middle of appending a change event, the restarted database does not have
    the topic any more, and publishing any further change of the table fails:
    no later change is captured. *)
Theorem flux_torn_event_blocks_cdc :
  let t := open_topics (tp_dirs torn_topics) in
  flux_all (cdc_topic "t") 0 torn_topics = Some [mkFluxRecord 0 None [Byte.x7b; Byte.x7d] 5]
  /\ flux_all (cdc_topic "t") 0 t = None
  /\ forall event now, snd (flux_publish_cdc demo_hash Writer "t" event now t)
       = Err "failed to fill whole buffer"%string.
Proof. split_and!; [by vm_compute | by vm_compute |]. intros event now. by vm_compute. Qed.

(** Creating a topic does not require a new directory. [CREATE TOPIC]
    over the directory of a topic that is not open succeeds and starts with
    the records that are there, and without the groups' offsets. *)
Theorem flux_create_keeps_old_records :
  match flux_create 2 flux_policy (f_dir flux_y2) with
  | (_, Ok l) => all_records 0 l = Some [mkFluxRecord 0 None [Byte.x61] 1; mkFluxRecord 1 None [Byte.x62] 2;
                                         mkFluxRecord 2 None [Byte.x63] 3]
                 /\ fl_offsets l = ∅ /\ fl_offsets (f_log flux_y2) !! ("g"%string, 0) = Some 2
  | (_, Err _) => False
  end.
Proof. vm_compute. split_and!; reflexivity. Qed.

End Demo.
