(* ===== verification/BTree.v ===== *)
(** The on-disk B-Tree of secondary indexes ([storage/btree.rs]) and the point
    lookup built on it ([index_lookup] of [storage/database/catalog.rs]).

    - [BFile] is the open file: its bytes and the position of the cursor, on
      which [write_node] depends;
    - [Node], its encoding and [read_node];
    - [BTree]: [bt_open], [bt_insert], [bt_search], [bt_scan]. The recursion
      over the nodes has fuel: a file whose nodes do not form a tree makes the
      program recurse without end.

    The theorems: while the keys fit one leaf the tree is an ordered map, also
    across reopening; the insert that fills the leaf loses an entry. *)

From Stdlib Require Import Strings.Byte Strings.String Sorted ZArith Lia.
From stdpp Require Import base list relations.
From S2P Require Import Prelude OrdMap Versions Utf8 Wal ObjectStore Lsm LsmRefine Txn.

Open Scope Z_scope.

Definition ORDER : Z := 64.

Inductive Node :=
  | Internal (keys : list bytes) (children : list Z)
  | Leaf (keys values : list bytes).

(** ** The file *)

Record BFile := mkBFile { bf_data : bytes; bf_pos : Z }.

Definition seek (pos : Z) (f : BFile) : BFile := mkBFile (bf_data f) pos.
Definition write_all (buf : bytes) (f : BFile) : BFile :=
  mkBFile (write_at (bf_data f) (bf_pos f) buf) (bf_pos f + zlen buf).

Definition EOF_ERROR : string := "failed to fill whole buffer".

(** [read_exact] of [n] bytes from what is left of the file. *)
Definition read_exact (n : Z) (rest : bytes) : Result (bytes * bytes) :=
  if zlen rest <? n then Err EOF_ERROR else Ok (take (Z.to_nat n) rest, drop (Z.to_nat n) rest).

Definition read_blob (rest : bytes) : Result (bytes * bytes) :=
  let? l := read_exact 4 rest in read_exact (from_be (fst l)) (snd l).

(** [count] blobs; each takes four bytes or more, so that the length of the
    file is enough fuel. *)
Fixpoint read_blobs (fuel : nat) (count : Z) (rest : bytes) : Result (list bytes * bytes) :=
  if count <=? 0 then Ok ([], rest)
  else match fuel with
  | O => Err EOF_ERROR
  | S fuel' =>
      let? b := read_blob rest in
      let? bs := read_blobs fuel' (count - 1) (snd b) in
      Ok (fst b :: fst bs, snd bs)
  end.

Fixpoint read_children (fuel : nat) (count : Z) (rest : bytes) : Result (list Z * bytes) :=
  if count <=? 0 then Ok ([], rest)
  else match fuel with
  | O => Err EOF_ERROR
  | S fuel' =>
      let? b := read_exact 8 rest in
      let? bs := read_children fuel' (count - 1) (snd b) in
      Ok (from_be (fst b) :: fst bs, snd bs)
  end.

(** [read_node]; the cursor is left after the node. *)
Definition read_node (offset : Z) (f : BFile) : BFile * Result Node :=
  let fuel := S (length (bf_data f)) in
  let file_end rest := mkBFile (bf_data f) (zlen (bf_data f) - zlen rest) in
  match (let? tag := read_exact 1 (drop (Z.to_nat offset) (bf_data f)) in
         let? count_buf := read_exact 4 (snd tag) in
         let count := from_be (fst count_buf) in
         let? keys := read_blobs fuel count (snd count_buf) in
         if from_be (fst tag) =? 0 then
           let? values := read_blobs fuel count (snd keys) in
           Ok (Leaf (fst keys) (fst values), snd values)
         else
           let? children := read_children fuel (count + 1) (snd keys) in
           Ok (Internal (fst keys) (fst children), snd children)) with
  | Ok (node, rest) => (file_end rest, Ok node)
  | Err e => (f, Err e)
  end.

Definition encode_blob (b : bytes) : bytes := u32_to_be (zlen b mod 2 ^ 32) ++ b.

Definition encode_node (node : Node) : bytes :=
  match node with
  | Leaf keys values =>
      Byte.x00 :: u32_to_be (zlen keys mod 2 ^ 32)
      ++ concat (map encode_blob keys) ++ concat (map encode_blob values)
  | Internal keys children =>
      Byte.x01 :: u32_to_be (zlen keys mod 2 ^ 32)
      ++ concat (map encode_blob keys) ++ concat (map u64_to_be children)
  end.

Definition write_node_at (offset : Z) (node : Node) (f : BFile) : BFile :=
  write_all (encode_node node) (seek offset f).

(** [write_node] appends at the cursor, wherever that is. *)
Definition write_node (node : Node) (f : BFile) : BFile * Z :=
  (write_node_at (bf_pos f) node f, bf_pos f).

Definition write_root (offset : Z) (f : BFile) : BFile := write_all (u64_to_be offset) (seek 0 f).

(** ** The tree *)

(** [binary_search_by] on the sorted keys of a node: the position of the key,
    or the one where it belongs. *)
Definition binary_search (key : bytes) (keys : list bytes) : nat * bool :=
  let pos := partition_point (fun k => match cmp k key with Lt => true | _ => false end) keys in
  (pos, match keys !! pos with Some k => keqb k key | None => false end).

Definition vec_insert {A : Type} (i : nat) (x : A) (l : list A) : list A := take i l ++ x :: drop i l.

Definition child_pos (key : bytes) (keys : list bytes) : nat :=
  let '(p, found) := binary_search key keys in if (found : bool) then S p else p.

(** The keys and values of a leaf once the entry is in. *)
Definition leaf_insert (key value : bytes) (keys values : list bytes) : list bytes * list bytes :=
  let '(pos, found) := binary_search key keys in
  if (found : bool) then (keys, <[pos := value]> values)
  else (vec_insert pos key keys, vec_insert pos value values).

(** A split: the promoted key and the two halves, as the code cuts them. *)
Definition split_leaf (keys values : list bytes) : bytes * Node * Node :=
  let mid := (length keys / 2)%nat in
  (nth mid keys [],
   Leaf (take mid keys) (take mid values),
   Leaf (drop 1 (drop mid keys)) (drop 1 (drop mid values))).

Definition split_internal (keys : list bytes) (children : list Z) : bytes * Node * Node :=
  let mid := (length keys / 2)%nat in
  (nth mid keys [],
   Internal (take mid keys) (take mid children),
   Internal (drop 1 (drop mid keys)) (drop 1 (drop mid children))).

Definition RECURSION : string := "stack overflow".
Definition INDEX : string := "index out of bounds".

Fixpoint insert_into_node (fuel : nat) (node_offset : Z) (key value : bytes) (f : BFile)
    : BFile * Result (option (bytes * Z * Z)) :=
  match fuel with
  | O => (f, Err RECURSION)
  | S fuel' =>
      match read_node node_offset f with
      | (f, Err e) => (f, Err e)
      | (f, Ok (Leaf keys values)) =>
          let '(keys, values) := leaf_insert key value keys values in
          if zlen keys >=? ORDER then
            let '(promoted_key, left_leaf, right_leaf) := split_leaf keys values in
            let '(f, right_offset) := write_node right_leaf f in
            let '(f, left_offset) := write_node left_leaf f in
            (f, Ok (Some (promoted_key, left_offset, right_offset)))
          else (write_node_at node_offset (Leaf keys values) f, Ok None)
      | (f, Ok (Internal keys children)) =>
          match children !! child_pos key keys with
          | None => (f, Err INDEX)
          | Some child_offset =>
              match insert_into_node fuel' child_offset key value f with
              | (f, Err e) => (f, Err e)
              | (f, Ok None) => (f, Ok None)
              | (f, Ok (Some (promoted_key, left_offset, right_offset))) =>
                  let '(insert_pos, _) := binary_search promoted_key keys in
                  let keys := vec_insert insert_pos promoted_key keys in
                  let children := vec_insert (S insert_pos) right_offset (<[insert_pos := left_offset]> children) in
                  if zlen keys >=? ORDER then
                    let '(promoted, left_node, right_node) := split_internal keys children in
                    let '(f, right_offset) := write_node right_node f in
                    let f := write_node_at node_offset left_node f in
                    (f, Ok (Some (promoted, node_offset, right_offset)))
                  else (write_node_at node_offset (Internal keys children) f, Ok None)
              end
          end
      end
  end.

(** No tree that fits a disk is this deep. *)
Definition DEPTH : nat := 64.

Record BTree := mkBTree { bt_file : option bytes; bt_root : option Z }.

(** [BTree::open] *)
Definition bt_open (file : option bytes) : BTree :=
  mkBTree file
    match file with
    | None => None
    | Some data =>
        match read_exact 8 data with
        | Ok (buf, _) => let root_offset := from_be buf in if root_offset >? 0 then Some root_offset else None
        | Err _ => None
        end
    end.

(** [BTree::insert]; opening the file puts the cursor at its start. *)
Definition bt_insert (key value : bytes) (t : BTree) : BTree * Result unit :=
  let f := mkBFile (default [] (bt_file t)) 0 in
  match bt_root t with
  | None =>
      let f := write_all (u64_to_be 0) (seek 0 f) in
      let '(f, offset) := write_node (Leaf [key] [value]) f in
      (mkBTree (Some (bf_data (write_root offset f))) (Some offset), Ok tt)
  | Some root_offset =>
      match insert_into_node DEPTH root_offset key value f with
      | (f, Err e) => (mkBTree (Some (bf_data f)) (Some root_offset), Err e)
      | (f, Ok None) => (mkBTree (Some (bf_data f)) (Some root_offset), Ok tt)
      | (f, Ok (Some (promoted_key, left_offset, right_offset))) =>
          let '(f, new_offset) := write_node (Internal [promoted_key] [left_offset; right_offset]) f in
          (mkBTree (Some (bf_data (write_root new_offset f))) (Some new_offset), Ok tt)
      end
  end.

Fixpoint search_in_node (fuel : nat) (node_offset : Z) (key : bytes) (f : BFile) : Result (option bytes) :=
  match fuel with
  | O => Err RECURSION
  | S fuel' =>
      match read_node node_offset f with
      | (_, Err e) => Err e
      | (_, Ok (Leaf keys values)) =>
          let '(pos, found) := binary_search key keys in
          if (found : bool) then Ok (values !! pos) else Ok None
      | (f, Ok (Internal keys children)) =>
          match children !! child_pos key keys with
          | None => Err INDEX
          | Some child => search_in_node fuel' child key f
          end
      end
  end.

Definition bt_search (key : bytes) (t : BTree) : Result (option bytes) :=
  match bt_root t, bt_file t with
  | None, _ => Ok None
  | Some _, None => Err "No such file or directory"%string
  | Some root, Some data => search_in_node DEPTH root key (mkBFile data 0)
  end.

(** [scan_node] on a list of nodes in turn. *)
Fixpoint scan_nodes (scan : Z -> Result (list (bytes * bytes))) (nodes : list Z)
    : Result (list (bytes * bytes)) :=
  match nodes with
  | [] => Ok []
  | n :: nodes' =>
      let? a := scan n in
      let? b := scan_nodes scan nodes' in
      Ok (a ++ b)
  end.

Fixpoint scan_node (fuel : nat) (node_offset : Z) (f : BFile) : Result (list (bytes * bytes)) :=
  match fuel with
  | O => Err RECURSION
  | S fuel' =>
      match read_node node_offset f with
      | (_, Err e) => Err e
      | (_, Ok (Leaf keys values)) => Ok (zip keys values)
      | (_, Ok (Internal _ children)) => scan_nodes (fun c => scan_node fuel' c f) children
      end
  end.

Definition bt_scan (t : BTree) : Result (list (bytes * bytes)) :=
  match bt_root t, bt_file t with
  | None, _ => Ok []
  | Some _, None => Err "No such file or directory"%string
  | Some root, Some data => scan_node DEPTH root (mkBFile data 0)
  end.

(** ** Encoding and decoding nodes *)

Definition blob_fits (b : bytes) : Prop := zlen b < 2 ^ 32.

Lemma read_exact_app (a rest : bytes) (n : Z) : n = zlen a -> read_exact n (a ++ rest) = Ok (a, rest).
Proof.
  intros ->. unfold read_exact. rewrite zlen_app. pose proof (zlen_nonneg rest).
  rewrite (proj2 (Z.ltb_ge _ _)) by lia. by rewrite take_zlen_app, drop_zlen_app.
Qed.

(** Reduce the [let?] at hand once its result is known. *)
Ltac step_let := cbv beta iota; cbn [fst snd].

Lemma read_blob_encode (b rest : bytes) : blob_fits b -> read_blob (encode_blob b ++ rest) = Ok (b, rest).
Proof.
  intros Hb. unfold read_blob, encode_blob. rewrite <- app_assoc. pose proof (zlen_nonneg b). unfold blob_fits in Hb.
  rewrite read_exact_app by by rewrite zlen_u32_to_be. simpl.
  rewrite from_u32_to_be by (apply Z.mod_pos_bound; lia). rewrite Z.mod_small by lia. by apply read_exact_app.
Qed.

Lemma read_blobs_encode (bs : list bytes) (fuel : nat) (rest : bytes) :
  Forall blob_fits bs -> (length bs <= fuel)%nat ->
  read_blobs fuel (zlen bs) (concat (map encode_blob bs) ++ rest) = Ok (bs, rest).
Proof.
  revert fuel. induction bs as [|b bs IH]; intros fuel Hb Hf; [by destruct fuel|].
  apply Forall_cons in Hb as [Hb Hbs]. destruct fuel as [|fuel]; [simpl in Hf; lia|].
  cbn [read_blobs map concat]. rewrite zlen_cons. pose proof (zlen_nonneg bs).
  rewrite (proj2 (Z.leb_gt _ 0)) by lia. rewrite <- app_assoc, read_blob_encode by done. step_let.
  replace (1 + zlen bs - 1) with (zlen bs) by lia. rewrite IH by (done || simpl in Hf; lia). done.
Qed.

Lemma read_children_encode (cs : list Z) (fuel : nat) (rest : bytes) :
  Forall is_u64 cs -> (length cs <= fuel)%nat ->
  read_children fuel (zlen cs) (concat (map u64_to_be cs) ++ rest) = Ok (cs, rest).
Proof.
  revert fuel. induction cs as [|c cs IH]; intros fuel Hc Hf; [by destruct fuel|].
  apply Forall_cons in Hc as [Hc Hcs]. destruct fuel as [|fuel]; [simpl in Hf; lia|].
  cbn [read_children map concat]. rewrite zlen_cons. pose proof (zlen_nonneg cs).
  rewrite (proj2 (Z.leb_gt _ 0)) by lia. rewrite <- app_assoc, read_exact_app by by rewrite zlen_u64_to_be.
  step_let. rewrite from_u64_to_be by done.
  replace (1 + zlen cs - 1) with (zlen cs) by lia. rewrite IH by (done || simpl in Hf; lia). done.
Qed.

Definition node_fits (n : Node) : Prop :=
  match n with
  | Leaf keys values => length values = length keys /\ zlen keys < 2 ^ 32
      /\ Forall blob_fits keys /\ Forall blob_fits values
  | Internal keys children => length children = S (length keys) /\ zlen keys < 2 ^ 32
      /\ Forall blob_fits keys /\ Forall is_u64 children
  end.

Lemma length_blobs (bs : list bytes) : (length bs <= length (concat (map encode_blob bs)))%nat.
Proof.
  induction bs as [|b bs IH]; [done|]. cbn [map concat]. rewrite length_app.
  assert (length (encode_blob b) = 4 + length b)%nat as ->
    by (unfold encode_blob, u32_to_be; by rewrite length_app, length_to_be).
  simpl length at 1. lia.
Qed.

(** The node stands at an offset of the file. *)
Definition node_at (data : bytes) (offset : Z) (n : Node) : Prop :=
  0 <= offset <= zlen data /\ exists rest, drop (Z.to_nat offset) data = encode_node n ++ rest.

Lemma node_at_split (data : bytes) (offset : Z) (n : Node) :
  node_at data offset n ->
  exists pre rest, data = pre ++ encode_node n ++ rest /\ zlen pre = offset.
Proof.
  intros [Ho [rest Hd]]. exists (take (Z.to_nat offset) data), rest. split.
  - by rewrite <- Hd, take_drop.
  - unfold zlen in *. rewrite length_take. lia.
Qed.

Lemma read_node_at (f : BFile) (offset : Z) (n : Node) :
  node_fits n -> node_at (bf_data f) offset n ->
  read_node offset f = (mkBFile (bf_data f) (offset + zlen (encode_node n)), Ok n).
Proof.
  intros Hn Hat. destruct (node_at_split _ _ _ Hat) as (pre & rest & Hdata & Hpre).
  assert (drop (Z.to_nat offset) (bf_data f) = encode_node n ++ rest) as Hdrop
    by (rewrite Hdata, <- Hpre; apply drop_zlen_app).
  assert (zlen (bf_data f) - zlen rest = offset + zlen (encode_node n)) as Hend
    by (rewrite Hdata, !zlen_app; lia).
  assert (length (encode_node n) <= length (bf_data f))%nat as Hfuel by (rewrite Hdata, !length_app; lia).
  unfold read_node. rewrite Hdrop.
  assert (forall z, 0 <= z < 2 ^ 32 -> z mod 2 ^ 32 = z) as Hmod by (intros; by apply Z.mod_small).
  destruct n as [keys children|keys values]; destruct Hn as (Hl & Hk32 & Hks & Hvs); pose proof (zlen_nonneg keys);
    cbn [encode_node] in *; rewrite Hmod in * by lia; rewrite length_cons, !length_app in Hfuel;
    pose proof (length_blobs keys).
  - change (Byte.x01 :: ?a) with ([Byte.x01] ++ a). rewrite <- !app_assoc, (read_exact_app [Byte.x01]) by done.
    step_let. rewrite read_exact_app by by rewrite zlen_u32_to_be. step_let.
    rewrite from_u32_to_be by (unfold is_u32; lia). rewrite read_blobs_encode by (done || lia). step_let.
    change (from_be [Byte.x01] =? 0) with false. step_let.
    assert (length (concat (map u64_to_be children)) = (8 * length children)%nat) as Hcl.
    { clear. induction children as [|c cs IH]; [done|]. cbn [map concat]. rewrite length_app, IH.
      assert (length (u64_to_be c) = 8%nat) as -> by apply length_to_be. rewrite length_cons. lia. }
    replace (zlen keys + 1) with (zlen children) by (unfold zlen; lia).
    rewrite read_children_encode by (done || lia). step_let. by rewrite Hend.
  - change (Byte.x00 :: ?a) with ([Byte.x00] ++ a). rewrite <- !app_assoc, (read_exact_app [Byte.x00]) by done.
    step_let. rewrite read_exact_app by by rewrite zlen_u32_to_be. step_let.
    rewrite from_u32_to_be by (unfold is_u32; lia). rewrite read_blobs_encode by (done || lia). step_let.
    change (from_be [Byte.x00] =? 0) with true. step_let.
    pose proof (length_blobs values). replace (zlen keys) with (zlen values) by (unfold zlen; lia).
    rewrite read_blobs_encode by (done || lia). step_let. by rewrite Hend.
Qed.

(** ** Writing into the file *)

Lemma write_at_inside (data buf : bytes) (pos : Z) :
  0 <= pos <= zlen data ->
  write_at data pos buf = take (Z.to_nat pos) data ++ buf ++ drop (Z.to_nat (pos + zlen buf)) data.
Proof.
  intros Hp. unfold write_at. replace (Z.to_nat (pos - zlen data)) with O by lia.
  destruct buf; [|done]. rewrite Z.add_0_r. cbn [app]. by rewrite take_drop.
Qed.

Lemma zlen_write_at (data buf : bytes) (pos : Z) :
  0 <= pos <= zlen data -> zlen (write_at data pos buf) = Z.max (zlen data) (pos + zlen buf).
Proof.
  intros Hp. rewrite write_at_inside by done. pose proof (zlen_nonneg buf). rewrite !zlen_app.
  unfold zlen in *. rewrite length_take, length_drop. lia.
Qed.

Lemma take_write_at (data buf : bytes) (pos : Z) (n : nat) :
  0 <= pos <= zlen data -> Z.of_nat n <= pos -> take n (write_at data pos buf) = take n data.
Proof.
  intros Hp Hn. rewrite write_at_inside, take_app_le by (done || rewrite length_take; unfold zlen in *; lia).
  rewrite take_take. f_equal. lia.
Qed.

Lemma node_at_written (data : bytes) (pos : Z) (n : Node) :
  0 <= pos <= zlen data -> node_at (write_at data pos (encode_node n)) pos n.
Proof.
  intros Hp. split.
  - rewrite zlen_write_at by done. lia.
  - rewrite write_at_inside by done. eexists. rewrite drop_app_length'; [done|].
    rewrite length_take. unfold zlen in *. lia.
Qed.

(** A write behind a node leaves it. *)
Lemma node_at_before (data buf : bytes) (pos offset : Z) (n : Node) :
  node_at data offset n -> offset + zlen (encode_node n) <= pos <= zlen data ->
  node_at (write_at data pos buf) offset n.
Proof.
  intros Hat Hp. destruct (node_at_split _ _ _ Hat) as (pre & rest & -> & <-). destruct Hat as [Ho _].
  pose proof (zlen_nonneg (encode_node n)). split; [rewrite zlen_write_at by lia; lia|].
  exists (drop (length (pre ++ encode_node n)) (write_at (pre ++ encode_node n ++ rest) pos buf)).
  assert (take (length (pre ++ encode_node n)) (write_at (pre ++ encode_node n ++ rest) pos buf)
    = pre ++ encode_node n) as Ht.
  { rewrite take_write_at; [|lia|rewrite length_app; unfold zlen in *; lia].
    by rewrite app_assoc, take_app_length. }
  rewrite <- (take_drop (length (pre ++ encode_node n)) (write_at _ pos buf)) at 1.
  rewrite Ht, <- app_assoc. apply drop_zlen_app.
Qed.

(** A write in front of a node leaves it. *)
Lemma node_at_after (data buf : bytes) (pos offset : Z) (n : Node) :
  node_at data offset n -> 0 <= pos -> pos + zlen buf <= offset -> node_at (write_at data pos buf) offset n.
Proof.
  intros [Ho [rest Hd]] Hp Hb. pose proof (zlen_nonneg buf). split; [rewrite zlen_write_at by lia; lia|].
  exists rest. rewrite write_at_inside by lia. rewrite <- Hd, app_assoc.
  assert (length (take (Z.to_nat pos) data ++ buf) = Z.to_nat (pos + zlen buf)) as Hl.
  { rewrite length_app, length_take. unfold zlen in *. lia. }
  rewrite drop_app_ge by (rewrite Hl; lia). rewrite Hl, drop_drop. f_equal. lia.
Qed.

(** ** A leaf as an ordered map *)

Abbreviation omap_t := (list (bytes * bytes)).
Definition leaf_of (m : omap_t) : Node := Leaf (map fst m) (map snd m).

Lemma binary_search_cons (key k : bytes) (keys : list bytes) :
  binary_search key (k :: keys) =
    match cmp k key with
    | Lt => (S (fst (binary_search key keys)), snd (binary_search key keys))
    | Eq => (O, true)
    | Gt => (O, false)
    end.
Proof.
  unfold binary_search. cbn [partition_point]. destruct (cmp k key) eqn:E; simpl; unfold keqb; by rewrite ?E.
Qed.

Lemma leaf_insert_om (key value : bytes) (m : omap_t) :
  leaf_insert key value (map fst m) (map snd m) =
    (map fst (om_insert key value m), map snd (om_insert key value m)).
Proof.
  unfold leaf_insert. induction m as [|[k v] m IH]; [done|]. simpl map at 1 2. rewrite binary_search_cons.
  cbn [om_insert]. rewrite (cmp_antisym k key). destruct (cmp k key) eqn:E; cbn [CompOpp map fst snd].
  - apply cmp_eq in E as ->. done.
  - destruct (binary_search key (map fst m)) as [pos found]. simpl. unfold vec_insert in *.
    destruct found; simplify_eq/=; f_equal; congruence.
  - done.
Qed.

Lemma binary_search_get (key : bytes) (m : omap_t) :
  let '(pos, found) := binary_search key (map fst m) in
  om_sorted m -> (if (found : bool) then map snd m !! pos else None) = om_get key m.
Proof.
  induction m as [|[k v] m IH]; [done|]. simpl map. rewrite binary_search_cons.
  cbn [om_get]. unfold keqb. rewrite (cmp_antisym k key). destruct (cmp k key) eqn:E; cbn [CompOpp fst snd].
  - done.
  - destruct (binary_search key (map fst m)) as [pos found]. simpl. intros [_ Hs]%om_sorted_cons. by apply IH.
  - intros [Hall _]%om_sorted_cons. rewrite om_get_below; [done|].
    eapply Forall_impl; [exact Hall|]. intros x Hx. apply cmp_gt_lt in E.
    by eapply cmp_lt_trans.
Qed.

(** Entries that fit a leaf's format. *)
Definition entries_fit (m : omap_t) : Prop :=
  Forall (fun kv => blob_fits (fst kv) /\ blob_fits (snd kv)) m.

Lemma leaf_fits (m : omap_t) : entries_fit m -> zlen m < 2 ^ 32 -> node_fits (leaf_of m).
Proof.
  intros Hm Hl. simpl. rewrite !length_map. unfold zlen in *. rewrite length_map. split_and!; [done | done | |];
    apply Forall_map; (eapply Forall_impl; [exact Hm|]); simpl; tauto.
Qed.

Lemma zip_fst_snd (m : omap_t) : zip (map fst m) (map snd m) = m.
Proof. induction m as [|[k v] m IH]; simpl; [done|]. by rewrite IH. Qed.

(** ** Trees of one leaf *)

(** The tree holds the map in a single leaf behind the root pointer. *)
Definition bt_rep (m : omap_t) (t : BTree) : Prop :=
  om_sorted m /\ entries_fit m /\ zlen m < ORDER
  /\ (m = [] /\ t = bt_open None
      \/ exists data, t = mkBTree (Some data) (Some 8) /\ take 8 data = u64_to_be 8
         /\ node_at data 8 (leaf_of m)).

Lemma bt_rep_fits (m : omap_t) : entries_fit m -> zlen m < ORDER -> node_fits (leaf_of m).
Proof. intros. apply leaf_fits; unfold ORDER in *; [done | lia]. Qed.

Lemma om_insert_fit (k v : bytes) (m : omap_t) :
  blob_fits k -> blob_fits v -> entries_fit m -> entries_fit (om_insert k v m).
Proof. intros Hk Hv Hm. by apply om_insert_Forall. Qed.

Lemma bt_insert_first (k v : bytes) :
  bt_insert k v (bt_open None) =
    (mkBTree (Some (write_at (write_at (u64_to_be 0) 8 (encode_node (leaf_of [(k, v)]))) 0 (u64_to_be 8))) (Some 8), Ok tt).
Proof. done. Qed.

Lemma bt_insert_rep (k v : bytes) (m : omap_t) (t : BTree) :
  bt_rep m t -> blob_fits k -> blob_fits v -> zlen (om_insert k v m) < ORDER ->
  exists t', bt_insert k v t = (t', Ok tt) /\ bt_rep (om_insert k v m) t'.
Proof.
  intros (Hs & Hf & Hl & Hrep) Hk Hv Hlen.
  assert (om_sorted (om_insert k v m) /\ entries_fit (om_insert k v m)) as [Hs' Hf']
    by (split; [by apply om_insert_sorted | by apply om_insert_fit]).
  destruct Hrep as [[-> ->]|(data & -> & Hroot & Hat)].
  - rewrite bt_insert_first. eexists. split; [done|]. split_and!; [done..|]. right. eexists. split; [done|].
    assert (zlen (u64_to_be 0) = 8) as H8 by apply zlen_u64_to_be. split.
    + rewrite write_at_inside by (rewrite zlen_write_at by lia; lia). change (Z.to_nat 0) with O. rewrite take_0, app_nil_l.
      apply take_app_length'. symmetry. apply length_to_be.
    + apply node_at_after; [apply node_at_written; lia | lia | by rewrite zlen_u64_to_be].
  - unfold bt_insert. cbn [bt_root bt_file default from_option id]. unfold DEPTH. 
    change 64%nat with (S 63) at 1. cbn [insert_into_node].
    rewrite (read_node_at _ 8 (leaf_of m)) by (done || by apply bt_rep_fits). unfold leaf_of at 1. cbv beta iota.
    rewrite leaf_insert_om. assert (zlen (map fst (om_insert k v m)) = zlen (om_insert k v m)) as ->
      by (unfold zlen; by rewrite length_map).
    rewrite Z.geb_leb, (proj2 (Z.leb_gt _ _)) by done.
    eexists. split; [done|]. split_and!; [done..|]. right. eexists. split; [done|].
    unfold write_node_at, write_all, seek; cbn [bf_data bf_pos]. destruct Hat as [Ho Hat]. split.
    + rewrite take_write_at; [done | lia | done].
    + apply (node_at_written data 8 (leaf_of (om_insert k v m))). lia.
Qed.

Lemma bt_rep_reads (m : omap_t) (t : BTree) :
  bt_rep m t ->
  bt_open (bt_file t) = t /\ (forall k, bt_search k t = Ok (om_get k m)) /\ bt_scan t = Ok m.
Proof.
  intros (Hs & Hf & Hl & [[-> ->]|(data & -> & Hroot & Hat)]); [done|].
  pose proof (bt_rep_fits m Hf Hl) as Hfit. split_and!.
  - unfold bt_open. cbn [bt_file]. rewrite <- (take_drop 8 data), Hroot.
    by rewrite read_exact_app by by rewrite zlen_u64_to_be.
  - intros k. unfold bt_search. cbn [bt_root bt_file]. unfold DEPTH. change 64%nat with (S 63). cbn [search_in_node].
    rewrite (read_node_at _ 8 (leaf_of m)) by done. unfold leaf_of at 1. cbv beta iota.
    pose proof (binary_search_get k m) as Hb. destruct (binary_search k (map fst m)) as [pos found].
    rewrite <- Hb by done. by destruct found.
  - unfold bt_scan. cbn [bt_root bt_file]. unfold DEPTH. change 64%nat with (S 63). cbn [scan_node].
    rewrite (read_node_at _ 8 (leaf_of m)) by done. unfold leaf_of at 1. cbv beta iota. by rewrite zip_fst_snd.
Qed.

(** The inserts of a backfill, up to the first that fails. *)
Fixpoint bt_inserts (kvs : omap_t) (t : BTree) : BTree * Result unit :=
  match kvs with
  | [] => (t, Ok tt)
  | (k, v) :: kvs' =>
      match bt_insert k v t with
      | (t, Ok _) => bt_inserts kvs' t
      | (t, Err e) => (t, Err e)
      end
  end.

Definition om_inserts (kvs m : omap_t) : omap_t :=
  fold_left (fun m kv => om_insert (fst kv) (snd kv) m) kvs m.

Lemma om_insert_length (k v : bytes) (m : omap_t) :
  length (om_insert k v m) = length m \/ length (om_insert k v m) = S (length m).
Proof. induction m as [|[k' v'] m IH]; simpl; [by right|]. destruct (bytes_cmp k k'); simpl; auto. lia. Qed.

Lemma om_insert_new_length (k v : bytes) (m : omap_t) :
  om_sorted m -> om_get k m = None -> length (om_insert k v m) = S (length m).
Proof.
  induction m as [|[k' v'] m IH]; [done|]. cbn [om_insert om_get]. unfold keqb.
  intros [_ Hs]%om_sorted_cons. destruct (cmp k k') eqn:E; [done | done |]. intros Hg. simpl. by rewrite IH.
Qed.

Lemma om_inserts_length (kvs m : omap_t) : (length m <= length (om_inserts kvs m))%nat.
Proof.
  revert m. induction kvs as [|[k v] kvs IH]; intros m; simpl; [done|].
  specialize (IH (om_insert k v m)). destruct (om_insert_length k v m); lia.
Qed.

Lemma bt_inserts_rep (kvs m : omap_t) (t : BTree) :
  bt_rep m t -> entries_fit kvs -> zlen (om_inserts kvs m) < ORDER ->
  exists t', bt_inserts kvs t = (t', Ok tt) /\ bt_rep (om_inserts kvs m) t'.
Proof.
  revert m t. induction kvs as [|[k v] kvs IH]; intros m t Hrep Hf Hlen; [eauto|].
  apply Forall_cons in Hf as [[Hk Hv] Hf]. simpl in *.
  destruct (bt_insert_rep k v m t Hrep Hk Hv) as (t1 & -> & Hrep1).
  { pose proof (om_inserts_length kvs (om_insert k v m)). unfold zlen in *. lia. }
  by apply IH.
Qed.

Lemma bt_rep_nil : bt_rep [] (bt_open None).
Proof. split_and!; [constructor | constructor | done | by left]. Qed.

(** An index of fewer than 64 keys is an ordered map. Whatever rows are
    inserted, in whatever order and with whatever repetitions, as long as the
    distinct keys stay below [ORDER] every insert succeeds, a search returns
    the value inserted last for the key and nothing for other keys, a scan
    lists the entries in key order, and opening the file again gives the same
    tree. *)
Theorem btree_small_index_is_a_map (kvs : omap_t) :
  entries_fit kvs -> zlen (om_inserts kvs []) < ORDER ->
  exists t, bt_inserts kvs (bt_open None) = (t, Ok tt) /\ bt_open (bt_file t) = t
    /\ (forall k, bt_search k t = Ok (om_get k (om_inserts kvs [])))
    /\ bt_scan t = Ok (om_inserts kvs []).
Proof.
  intros Hf Hl. destruct (bt_inserts_rep kvs [] (bt_open None) bt_rep_nil Hf Hl) as (t & Ht & Hrep).
  exists t. split; [done|]. by apply bt_rep_reads.
Qed.

(** ** The split of a full leaf *)

Lemma zlen_blobs (bs : list bytes) :
  Forall blob_fits bs -> zlen (concat (map encode_blob bs)) <= zlen bs * (4 + 2 ^ 32).
Proof.
  induction 1 as [|b bs Hb _ IH]; [done|]. cbn [map concat]. rewrite zlen_app, zlen_cons.
  assert (zlen (encode_blob b) = 4 + zlen b) as -> by (unfold encode_blob; by rewrite zlen_app, zlen_u32_to_be).
  unfold blob_fits in Hb. lia.
Qed.

(** The encoding of a leaf of at most 64 entries has a bounded size. *)
Lemma zlen_encode_leaf (m : omap_t) :
  entries_fit m -> zlen m <= 64 -> 0 < zlen (encode_node (leaf_of m)) < 2 ^ 40.
Proof.
  intros Hf Hl. destruct (leaf_fits m Hf ltac:(lia)) as (_ & _ & Hks & Hvs).
  pose proof (zlen_blobs _ Hks) as H1. pose proof (zlen_blobs _ Hvs) as H2.
  assert (zlen (map fst m) = zlen m /\ zlen (map snd m) = zlen m) as [E1 E2] by (unfold zlen; by rewrite !length_map).
  rewrite E1 in H1. rewrite E2 in H2. cbn [encode_node leaf_of]. rewrite zlen_cons, !zlen_app, zlen_u32_to_be.
  pose proof (zlen_nonneg (concat (map encode_blob (map fst m)))).
  pose proof (zlen_nonneg (concat (map encode_blob (map snd m)))). lia.
Qed.

Lemma split_leaf_of (m : omap_t) :
  length m = 64%nat ->
  split_leaf (map fst m) (map snd m) = (nth 32 (map fst m) [], leaf_of (take 32 m), leaf_of (drop 33 m)).
Proof.
  intros Hl. unfold split_leaf, leaf_of. rewrite length_map, Hl. change (64 / 2)%nat with 32%nat.
  rewrite !drop_drop. change (32 + 1)%nat with 33%nat. by rewrite <- !firstn_map, <- !skipn_map || rewrite !fmap_take, !fmap_drop.
Qed.

(** What the insert that fills the leaf leaves in the file. *)
Lemma bt_insert_split (k v : bytes) (m : omap_t) (t : BTree) :
  bt_rep m t -> zlen m = 63 -> om_get k m = None -> blob_fits k -> blob_fits v ->
  let m' := om_insert k v m in
  exists data left right root,
    bt_insert k v t = (mkBTree (Some data) (Some root), Ok tt)
    /\ node_at data left (leaf_of (take 32 m')) /\ node_at data right (leaf_of (drop 33 m'))
    /\ node_at data root (Internal [nth 32 (map fst m') []] [left; right])
    /\ is_u64 left /\ is_u64 right.
Proof.
  intros (Hs & Hf & Hl & Hrep) H63 Hnew Hk Hv m'.
  destruct Hrep as [[-> _]|(data & -> & _ & Hat)]; [done|].
  assert (length m' = 64%nat) as H64.
  { unfold m'. rewrite om_insert_new_length by done. unfold zlen in H63. lia. }
  assert (entries_fit m') as Hf' by by apply om_insert_fit.
  pose proof (zlen_encode_leaf m Hf ltac:(lia)) as Hle.
  assert (entries_fit (take 32 m') /\ entries_fit (drop 33 m')) as [HfL HfR] by (split; [by apply Forall_take | by apply Forall_drop]).
  pose proof (zlen_encode_leaf _ HfL ltac:(unfold zlen; rewrite length_take; lia)) as HlL.
  pose proof (zlen_encode_leaf _ HfR ltac:(unfold zlen; rewrite length_drop; lia)) as HlR.
  destruct (node_at_split _ _ _ Hat) as (pre & rest & Hdata & Hpre).
  set (e := 8 + zlen (encode_node (leaf_of m))). set (e1 := e + zlen (encode_node (leaf_of (drop 33 m')))).
  set (e2 := e1 + zlen (encode_node (leaf_of (take 32 m')))).
  assert (0 <= e <= zlen data) as He by (rewrite Hdata, !zlen_app, Hpre; pose proof (zlen_nonneg rest); lia).
  set (d1 := write_at data e (encode_node (leaf_of (drop 33 m')))).
  set (d2 := write_at d1 e1 (encode_node (leaf_of (take 32 m')))).
  set (d3 := write_at d2 e2 (encode_node (Internal [nth 32 (map fst m') []] [e1; e]))).
  assert (zlen d1 = Z.max (zlen data) e1) as Hd1 by by apply zlen_write_at.
  assert (zlen d2 = Z.max (zlen d1) e2) as Hd2 by (apply zlen_write_at; lia).
  exists (write_at d3 0 (u64_to_be e2)), e1, e, e2.
  pose proof (zlen_u64_to_be e2) as H8. split_and!.
  - unfold bt_insert. cbn [bt_root bt_file default from_option id]. unfold DEPTH.
    change 64%nat with (S 63) at 1. cbn [insert_into_node].
    rewrite (read_node_at _ 8 (leaf_of m)) by (done || by apply bt_rep_fits). unfold leaf_of at 1. cbv beta iota.
    rewrite leaf_insert_om. fold m'. assert (zlen (map fst m') = 64) as ->
      by (unfold zlen; rewrite length_map; lia).
    change (64 >=? ORDER) with true. cbv iota. rewrite split_leaf_of by done. done.
  - apply node_at_after; [|lia|lia]. apply node_at_before; [apply node_at_written; lia | lia].
  - apply node_at_after; [|lia|lia]. apply node_at_before; [|lia]. apply node_at_before; [by apply node_at_written | lia].
  - apply node_at_after; [|lia|lia]. apply node_at_written. lia.
  - unfold is_u64. lia.
  - unfold is_u64. lia.
Qed.

Lemma om_sorted_app_r (a b : omap_t) : om_sorted (a ++ b) -> om_sorted b.
Proof. induction a as [|x a IH]; simpl; [done|]. intros [_ Hs]%om_sorted_cons. auto. Qed.

(** A full leaf loses its middle entry. The insert of the 64th key
    succeeds, and from then on the entry in the middle is gone: a scan lists
    every other entry, and a search for the lost key finds nothing. *)
Theorem btree_split_loses_an_entry (kvs : omap_t) (k v : bytes) :
  let m' := om_insert k v (om_inserts kvs []) in
  entries_fit kvs -> blob_fits k -> blob_fits v ->
  zlen (om_inserts kvs []) = 63 -> om_get k (om_inserts kvs []) = None ->
  exists t t', bt_inserts kvs (bt_open None) = (t, Ok tt) /\ bt_insert k v t = (t', Ok tt)
    /\ bt_scan t' = Ok (take 32 m' ++ drop 33 m')
    /\ bt_search (nth 32 (map fst m') []) t' = Ok None
    /\ In (nth 32 (map fst m') []) (map fst m').
Proof.
  intros m' Hf Hk Hv H63 Hnew. set (m := om_inserts kvs []) in *.
  destruct (bt_inserts_rep kvs [] (bt_open None) bt_rep_nil Hf) as (t & Ht & Hrep);
    [fold m; rewrite H63; done|]. fold m in Hrep.
  destruct (bt_insert_split k v m t Hrep H63 Hnew Hk Hv) as (data & left & right & root & Hins & HL & HR & HN & Hl & Hr).
  fold m' in HL, HR, HN. destruct Hrep as (Hs & Hfm & _ & _).
  assert (entries_fit m') as Hf' by by apply om_insert_fit.
  assert (om_sorted m') as Hs' by by apply om_insert_sorted.
  assert (length m' = 64%nat) as H64.
  { unfold m'. rewrite om_insert_new_length by done. unfold zlen in H63. lia. }
  assert (node_fits (leaf_of (take 32 m'))) as HfL
    by (apply leaf_fits; [by apply Forall_take | unfold zlen; rewrite length_take; lia]).
  assert (node_fits (leaf_of (drop 33 m'))) as HfR
    by (apply leaf_fits; [by apply Forall_drop | unfold zlen; rewrite length_drop; lia]).
  destruct (lookup_lt_is_Some_2 m' 32) as [[pk pv] Hmid]; [lia|].
  assert (nth 32 (map fst m') [] = pk) as Hpk by by rewrite nth_lookup, list_lookup_fmap, Hmid.
  rewrite Hpk in *. pose proof (take_drop_middle m' 32 (pk, pv) Hmid) as Hsplit.
  assert (blob_fits pk) as Hpf.
  { apply list_elem_of_lookup_2, list_elem_of_In in Hmid. unfold entries_fit in Hf'.
    rewrite List.Forall_forall in Hf'. by apply Hf' in Hmid as [? _]. }
  assert (node_fits (Internal [pk] [left; right])) as HfN
    by (split_and!; [done | done | by apply Forall_singleton | by apply Forall_cons; split; [|apply Forall_singleton]]).
  exists t, (mkBTree (Some data) (Some root)). split_and!; [done | done | | |].
  - unfold bt_scan. cbn [bt_root bt_file]. unfold DEPTH. change 64%nat with (S (S 62)). cbn [scan_node].
    rewrite (read_node_at _ root (Internal [pk] [left; right])) by done. cbn [scan_nodes].
    rewrite (read_node_at (mkBFile data 0) left _ HfL HL), (read_node_at (mkBFile data 0) right _ HfR HR). unfold leaf_of. cbv beta iota.
    by rewrite !zip_fst_snd, app_nil_r.
  - unfold bt_search. cbn [bt_root bt_file]. unfold DEPTH. change 64%nat with (S (S 62)). cbn [search_in_node].
    rewrite (read_node_at _ root (Internal [pk] [left; right])) by done. cbv beta iota.
    assert (child_pos pk [pk] = 1%nat) as ->.
    { unfold child_pos. rewrite binary_search_cons, cmp_refl. done. }
    cbn [lookup list_lookup].
    rewrite (read_node_at _ right (leaf_of (drop 33 m'))) by done. unfold leaf_of at 1. cbv beta iota.
    pose proof (binary_search_get pk (drop 33 m')) as Hb.
    rewrite <- Hsplit in Hs'. apply om_sorted_app_r in Hs' as [Hall Hsd]%om_sorted_cons.
    destruct (binary_search pk (map fst (drop 33 m'))) as [pos found].
    rewrite om_get_below in Hb by exact Hall. specialize (Hb Hsd). destruct found; [by rewrite Hb | done].
  - apply in_map_iff. exists (pk, pv). split; [done|]. by apply list_elem_of_lookup_2, list_elem_of_In in Hmid.
Qed.

(** ** Point lookups through an index *)

(** [Database::index_lookup] with the index of the column, if there is one. *)
Definition index_lookup {sk bl S I} (table : string) (value : bytes) (index : option BTree)
    (d : @Database sk bl S I) : Result (option KeyValue) :=
  match index with
  | None => Ok None
  | Some btree =>
      let? pk := bt_search value btree in
      match pk with
      | None => Ok None
      | Some pk =>
          let? row := db_read table pk d in
          match row with
          | Some v => Ok (Some (mkKeyValue pk v))
          | None => Ok None
          end
      end
  end.

(** An index answers an equality with at most one row. When the index
    of a column holds every row of the table, each under its value of the
    column, a lookup returns the row inserted last among those with the
    value, and no row at all once that one is deleted, though others are
    there: the rows a query finds depend on whether the column is indexed. *)
Theorem index_lookup_finds_last_row_only {sk bl S I} (d : @Database sk bl S I) (table : string)
    (rows : omap_t) (value pk : bytes) (t : BTree) row :
  entries_fit (rows ++ [(value, pk)]) -> zlen (om_inserts (rows ++ [(value, pk)]) []) < ORDER ->
  bt_inserts (rows ++ [(value, pk)]) (bt_open None) = (t, Ok tt) ->
  db_read table pk d = Ok row ->
  index_lookup table value (Some t) d = Ok ((fun v => mkKeyValue pk v) <$> row).
Proof.
  intros Hf Hl Ht Hd.
  destruct (bt_inserts_rep _ [] (bt_open None) bt_rep_nil Hf Hl) as (t' & Ht' & Hrep).
  rewrite Ht in Ht'. injection Ht' as <-. pose proof Hrep as (Hs & _).
  destruct (bt_rep_reads _ _ Hrep) as (_ & Hsearch & _). unfold index_lookup. rewrite Hsearch.
  unfold om_inserts in *. rewrite fold_left_app in *. simpl in *.
  fold (om_inserts rows []) in *. rewrite om_get_insert.
  - unfold keqb. rewrite cmp_refl. rewrite Hd. by destruct row.
  - assert (forall l m, om_sorted m -> om_sorted (om_inserts l m)) as Hsort.
    { intros l. induction l as [|[a b] l IH]; intros m Hm; simpl; [done|]. by apply IH, om_insert_sorted. }
    apply Hsort. constructor.
Qed.

Section Demo.

Definition entry_of (z : Z) : bytes * bytes := ([byte_of_Z z], [byte_of_Z z]).
Definition entries (n : nat) : omap_t := map (fun i => entry_of (Z.of_nat i)) (seq 0 n).

Lemma entries_fit_small (n : nat) : entries_fit (entries n).
Proof. apply Forall_map, Forall_forall. intros i _. split; unfold blob_fits; simpl; unfold zlen; simpl; lia. Qed.

Lemma btree_small_index_is_a_map_witness :
  exists t, bt_inserts (entries 20) (bt_open None) = (t, Ok tt) /\ bt_search [Byte.x07] t = Ok (Some [Byte.x07])
    /\ bt_search [Byte.x40] t = Ok None.
Proof.
  destruct (btree_small_index_is_a_map (entries 20)) as (t & Ht & _ & Hs & _);
    [apply entries_fit_small | by vm_compute |].
  exists t. rewrite !Hs. split_and!; [done | by vm_compute | by vm_compute].
Defined.

Lemma btree_split_loses_an_entry_witness :
  exists t t', bt_inserts (entries 63) (bt_open None) = (t, Ok tt)
    /\ bt_insert [Byte.x3f] [Byte.x3f] t = (t', Ok tt) /\ bt_search [Byte.x20] t' = Ok None.
Proof.
  destruct (btree_split_loses_an_entry (entries 63) [Byte.x3f] [Byte.x3f]) as (t & t' & H1 & H2 & _ & H3 & _);
    [apply entries_fit_small | done | done | by vm_compute | by vm_compute |].
  exists t, t'. split_and!; [done | done | exact H3].
Defined.

(** Searches that end in an error. *)
Definition search_fails (t : BTree) (kv : bytes * bytes) : bool :=
  match bt_search (fst kv) t with Err _ => true | Ok _ => false end.

(** The insert after the split destroys the index. The 65th key makes a
    leaf outgrow its place; it is rewritten there all the same and runs into
    the node behind it. The insert succeeds, and afterwards every scan fails
    and so does the search for each key of the overrun leaf, or for every key
    when the overrun node is the root. *)
Theorem btree_grown_leaf_corrupts_the_tree :
  let '(t, r) := bt_inserts (entries 64) (bt_open None) in
  let '(t_high, r_high) := bt_insert [Byte.x46] [Byte.x46] t in
  let '(t_low, r_low) := bt_insert [Byte.x05; Byte.x01] [Byte.x46] t in
  r = Ok tt /\ r_high = Ok tt /\ r_low = Ok tt
  /\ existsb (search_fails t) (entries 64) = false
  /\ bt_scan t_high = Err EOF_ERROR /\ forallb (search_fails t_high) (entries 32) = true
  /\ bt_scan t_low = Err EOF_ERROR /\ forallb (search_fails t_low) (entries 64) = true.
Proof. vm_compute. split_and!; reflexivity. Qed.

Lemma index_lookup_finds_last_row_only_witness :
  let '(t, _) := bt_inserts [([Byte.x61], [Byte.x01]); ([Byte.x61], [Byte.x6b])] (bt_open None) in
  index_lookup "t" [Byte.x61] (Some t) txn_d3 = Ok (Some (mkKeyValue [Byte.x6b] [Byte.x31]))
  /\ index_lookup "t" [Byte.x61] (Some t) txn_d2 = Ok None.
Proof.
  destruct (bt_inserts [([Byte.x61], [Byte.x01]); ([Byte.x61], [Byte.x6b])] (bt_open None)) as [t r] eqn:E.
  assert (r = Ok tt) as -> by (apply (f_equal snd) in E; vm_compute in E; congruence).
  split.
  - apply (index_lookup_finds_last_row_only txn_d3 "t" [([Byte.x61], [Byte.x01])] [Byte.x61] [Byte.x6b] t (Some [Byte.x31]));
      [by repeat constructor | by vm_compute | exact E | by vm_compute].
  - apply (index_lookup_finds_last_row_only txn_d2 "t" [([Byte.x61], [Byte.x01])] [Byte.x61] [Byte.x6b] t None);
      [by repeat constructor | by vm_compute | exact E | by vm_compute].
Defined.

End Demo.
