(* ===== verification/Hpack.v ===== *)
(** Header compression of the gRPC endpoint ([wire/grpc/hpack.rs]): RFC 7541.

    - [STATIC_TABLE] and [HUFFMAN], the two tables of the RFC;
    - [huffman_decode], the integers with a prefix and the string literals;
    - [Decoder], whose dynamic table lives as long as the connection, and
      [decode] of a header block. A block that is refused leaves the table as
      the fields before the error made it, so the decoder is returned with the
      error;
    - [encode], the stateless encoder of responses.

    A cursor [&mut &[u8]] is the list of the bytes that are left. [usize] is
    64 bits wide.

    [huffman_encode] is the RFC's encoding of a string, which the program has
    no function for; [huffman_decode] is shown to be its inverse, and the
    decoder to undo [encode] and to keep its table within its budget. *)

From Stdlib Require Import Strings.Byte Strings.String ZArith Lia.
From stdpp Require Import base list strings.
From S2P Require Import Prelude Utf8.

Open Scope Z_scope.

(** One decoded header field. *)
Definition Header : Type := string * string.

Definition STATIC_TABLE : list Header := [
  (":authority", ""); (":method", "GET"); (":method", "POST"); (":path", "/");
  (":path", "/index.html"); (":scheme", "http"); (":scheme", "https"); (":status", "200");
  (":status", "204"); (":status", "206"); (":status", "304"); (":status", "400");
  (":status", "404"); (":status", "500"); ("accept-charset", "");
  ("accept-encoding", "gzip, deflate"); ("accept-language", ""); ("accept-ranges", "");
  ("accept", ""); ("access-control-allow-origin", ""); ("age", ""); ("allow", "");
  ("authorization", ""); ("cache-control", ""); ("content-disposition", "");
  ("content-encoding", ""); ("content-language", ""); ("content-length", "");
  ("content-location", ""); ("content-range", ""); ("content-type", ""); ("cookie", "");
  ("date", ""); ("etag", ""); ("expect", ""); ("expires", ""); ("from", ""); ("host", "");
  ("if-match", ""); ("if-modified-since", ""); ("if-none-match", ""); ("if-range", "");
  ("if-unmodified-since", ""); ("last-modified", ""); ("link", ""); ("location", "");
  ("max-forwards", ""); ("proxy-authenticate", ""); ("proxy-authorization", ""); ("range", "");
  ("referer", ""); ("refresh", ""); ("retry-after", ""); ("server", ""); ("set-cookie", "");
  ("strict-transport-security", ""); ("transfer-encoding", ""); ("user-agent", ""); ("vary", "");
  ("via", ""); ("www-authenticate", "")]%string.

(** Code and bit length of the symbols 0 to 255 and of EOS. *)
Definition HUFFMAN : list (Z * Z) := [
  (0x1ff8, 13); (0x7fffd8, 23); (0xfffffe2, 28); (0xfffffe3, 28); (0xfffffe4, 28); (0xfffffe5, 28);
  (0xfffffe6, 28); (0xfffffe7, 28); (0xfffffe8, 28); (0xffffea, 24); (0x3ffffffc, 30);
  (0xfffffe9, 28); (0xfffffea, 28); (0x3ffffffd, 30); (0xfffffeb, 28); (0xfffffec, 28);
  (0xfffffed, 28); (0xfffffee, 28); (0xfffffef, 28); (0xffffff0, 28); (0xffffff1, 28);
  (0xffffff2, 28); (0x3ffffffe, 30); (0xffffff3, 28); (0xffffff4, 28); (0xffffff5, 28);
  (0xffffff6, 28); (0xffffff7, 28); (0xffffff8, 28); (0xffffff9, 28); (0xffffffa, 28);
  (0xffffffb, 28); (0x14, 6); (0x3f8, 10); (0x3f9, 10); (0xffa, 12); (0x1ff9, 13); (0x15, 6);
  (0xf8, 8); (0x7fa, 11); (0x3fa, 10); (0x3fb, 10); (0xf9, 8); (0x7fb, 11); (0xfa, 8); (0x16, 6);
  (0x17, 6); (0x18, 6); (0x0, 5); (0x1, 5); (0x2, 5); (0x19, 6); (0x1a, 6); (0x1b, 6); (0x1c, 6);
  (0x1d, 6); (0x1e, 6); (0x1f, 6); (0x5c, 7); (0xfb, 8); (0x7ffc, 15); (0x20, 6); (0xffb, 12);
  (0x3fc, 10); (0x1ffa, 13); (0x21, 6); (0x5d, 7); (0x5e, 7); (0x5f, 7); (0x60, 7); (0x61, 7);
  (0x62, 7); (0x63, 7); (0x64, 7); (0x65, 7); (0x66, 7); (0x67, 7); (0x68, 7); (0x69, 7);
  (0x6a, 7); (0x6b, 7); (0x6c, 7); (0x6d, 7); (0x6e, 7); (0x6f, 7); (0x70, 7); (0x71, 7);
  (0x72, 7); (0xfc, 8); (0x73, 7); (0xfd, 8); (0x1ffb, 13); (0x7fff0, 19); (0x1ffc, 13);
  (0x3ffc, 14); (0x22, 6); (0x7ffd, 15); (0x3, 5); (0x23, 6); (0x4, 5); (0x24, 6); (0x5, 5);
  (0x25, 6); (0x26, 6); (0x27, 6); (0x6, 5); (0x74, 7); (0x75, 7); (0x28, 6); (0x29, 6); (0x2a, 6);
  (0x7, 5); (0x2b, 6); (0x76, 7); (0x2c, 6); (0x8, 5); (0x9, 5); (0x2d, 6); (0x77, 7); (0x78, 7);
  (0x79, 7); (0x7a, 7); (0x7b, 7); (0x7ffe, 15); (0x7fc, 11); (0x3ffd, 14); (0x1ffd, 13);
  (0xffffffc, 28); (0xfffe6, 20); (0x3fffd2, 22); (0xfffe7, 20); (0xfffe8, 20); (0x3fffd3, 22);
  (0x3fffd4, 22); (0x3fffd5, 22); (0x7fffd9, 23); (0x3fffd6, 22); (0x7fffda, 23); (0x7fffdb, 23);
  (0x7fffdc, 23); (0x7fffdd, 23); (0x7fffde, 23); (0xffffeb, 24); (0x7fffdf, 23); (0xffffec, 24);
  (0xffffed, 24); (0x3fffd7, 22); (0x7fffe0, 23); (0xffffee, 24); (0x7fffe1, 23); (0x7fffe2, 23);
  (0x7fffe3, 23); (0x7fffe4, 23); (0x1fffdc, 21); (0x3fffd8, 22); (0x7fffe5, 23); (0x3fffd9, 22);
  (0x7fffe6, 23); (0x7fffe7, 23); (0xffffef, 24); (0x3fffda, 22); (0x1fffdd, 21); (0xfffe9, 20);
  (0x3fffdb, 22); (0x3fffdc, 22); (0x7fffe8, 23); (0x7fffe9, 23); (0x1fffde, 21); (0x7fffea, 23);
  (0x3fffdd, 22); (0x3fffde, 22); (0xfffff0, 24); (0x1fffdf, 21); (0x3fffdf, 22); (0x7fffeb, 23);
  (0x7fffec, 23); (0x1fffe0, 21); (0x1fffe1, 21); (0x3fffe0, 22); (0x1fffe2, 21); (0x7fffed, 23);
  (0x3fffe1, 22); (0x7fffee, 23); (0x7fffef, 23); (0xfffea, 20); (0x3fffe2, 22); (0x3fffe3, 22);
  (0x3fffe4, 22); (0x7ffff0, 23); (0x3fffe5, 22); (0x3fffe6, 22); (0x7ffff1, 23); (0x3ffffe0, 26);
  (0x3ffffe1, 26); (0xfffeb, 20); (0x7fff1, 19); (0x3fffe7, 22); (0x7ffff2, 23); (0x3fffe8, 22);
  (0x1ffffec, 25); (0x3ffffe2, 26); (0x3ffffe3, 26); (0x3ffffe4, 26); (0x7ffffde, 27);
  (0x7ffffdf, 27); (0x3ffffe5, 26); (0xfffff1, 24); (0x1ffffed, 25); (0x7fff2, 19); (0x1fffe3, 21);
  (0x3ffffe6, 26); (0x7ffffe0, 27); (0x7ffffe1, 27); (0x3ffffe7, 26); (0x7ffffe2, 27);
  (0xfffff2, 24); (0x1fffe4, 21); (0x1fffe5, 21); (0x3ffffe8, 26); (0x3ffffe9, 26);
  (0xffffffd, 28); (0x7ffffe3, 27); (0x7ffffe4, 27); (0x7ffffe5, 27); (0xfffec, 20);
  (0xfffff3, 24); (0xfffed, 20); (0x1fffe6, 21); (0x3fffe9, 22); (0x1fffe7, 21); (0x1fffe8, 21);
  (0x7ffff3, 23); (0x3fffea, 22); (0x3fffeb, 22); (0x1ffffee, 25); (0x1ffffef, 25); (0xfffff4, 24);
  (0xfffff5, 24); (0x3ffffea, 26); (0x7ffff4, 23); (0x3ffffeb, 26); (0x7ffffe6, 27);
  (0x3ffffec, 26); (0x3ffffed, 26); (0x7ffffe7, 27); (0x7ffffe8, 27); (0x7ffffe9, 27);
  (0x7ffffea, 27); (0x7ffffeb, 27); (0xffffffe, 28); (0x7ffffec, 27); (0x7ffffed, 27);
  (0x7ffffee, 27); (0x7ffffef, 27); (0x7fffff0, 27); (0x3ffffee, 26); (0x3fffffff, 30)].

(** [HUFFMAN.iter().enumerate().find_map(..)]: the first symbol from [sym] on
    with this code and length. *)
Fixpoint find_symbol (table : list (Z * Z)) (sym : Z) (cur bits : Z) : option Z :=
  match table with
  | [] => None
  | (code, len) :: table' =>
      if (len =? bits) && (code =? cur) then Some sym else find_symbol table' (sym + 1) cur bits
  end.

Definition match_symbol (cur bits : Z) : option Z := find_symbol HUFFMAN 0 cur bits.

(** The state of the decoding loop: the pending code, its length, the output. *)
Record HuffmanState := mkHuffmanState { h_cur : Z; h_bits : Z; h_out : bytes }.

(** One turn of the inner loop. *)
Definition huffman_bit (bit : bool) (h : HuffmanState) : Result HuffmanState :=
  let cur := Z.lor (Z.shiftl (h_cur h) 1 mod 2 ^ 32) (Z.b2z bit) in
  let cur_bits := h_bits h + 1 in
  if 30 <? cur_bits then Err "hpack huffman: code longer than 30 bits"%string
  else match match_symbol cur cur_bits with
       | None => Ok (mkHuffmanState cur cur_bits (h_out h))
       | Some sym =>
           if sym =? 256 then Err "hpack huffman: EOS symbol encountered"%string
           else Ok (mkHuffmanState 0 0 (h_out h ++ [byte_of_Z sym]))
       end.

Fixpoint huffman_bits (bits : list bool) (h : HuffmanState) : Result HuffmanState :=
  match bits with
  | [] => Ok h
  | bit :: bits' => let? h := huffman_bit bit h in huffman_bits bits' h
  end.

(** The rest must be padding: fewer than eight bits, all ones. *)
Definition huffman_end (h : HuffmanState) : Result bytes :=
  if 0 <? h_bits h then
    if negb (h_bits h <? 8) then Err "hpack huffman: leftover exceeds one octet"%string
    else if negb (h_cur h =? Z.shiftl 1 (h_bits h) - 1)
    then Err "hpack huffman: invalid non-ones padding at end of string"%string
    else Ok (h_out h)
  else Ok (h_out h).

(** The bits of each byte from bit 7 down to bit 0. *)
Definition huffman_decode (input : bytes) : Result bytes :=
  let? h := huffman_bits (bits_of_bytes input) (mkHuffmanState 0 0 []) in
  huffman_end h.

(** ** Integers and strings *)

Definition checked_add (a b : Z) : option Z := if a + b <? 2 ^ 64 then Some (a + b) else None.

Fixpoint decode_continuation (value m : Z) (rest : bytes) : Result (Z * bytes) :=
  match rest with
  | [] => Err "hpack integer: truncated continuation"%string
  | b :: rest =>
      if negb (m <? 63) then Err "hpack integer: overflow"%string
      else
        match checked_add value (Z.shiftl (Z.land (Z_of_byte b) 127) m mod 2 ^ 64) with
        | None => Err "hpack integer: overflow"%string
        | Some value =>
            if Z.land (Z_of_byte b) 128 =? 0 then Ok (value, rest)
            else decode_continuation value (m + 7) rest
        end
  end.

Definition decode_integer (first : byte) (n : Z) (rest : bytes) : Result (Z * bytes) :=
  let mask := Z.shiftl 1 n - 1 in
  let prefix := Z.land (Z_of_byte first) mask in
  if prefix <? mask then Ok (prefix, rest)
  else decode_continuation mask 0 rest.

(** A [u64] has at most ten groups of seven bits. *)
Fixpoint encode_continuation (fuel : nat) (value : Z) : bytes :=
  match fuel with
  | O => []
  | S fuel' =>
      if 128 <=? value
      then byte_of_Z (Z.lor (Z.land value 127) 128) :: encode_continuation fuel' (Z.shiftr value 7)
      else [byte_of_Z value]
  end.

Definition encode_integer (value n prefix_bits : Z) : bytes :=
  let max := Z.shiftl 1 n - 1 in
  if value <? max then [byte_of_Z (Z.lor prefix_bits value)]
  else byte_of_Z (Z.lor prefix_bits max) :: encode_continuation 10 (value - max).

Definition decode_string (first : byte) (rest : bytes) : Result (bytes * bytes) :=
  let huffman := negb (Z.land (Z_of_byte first) 128 =? 0) in
  let? '(len, rest) := decode_integer first 7 rest in
  if zlen rest <? len then Err "hpack string: truncated literal"%string
  else
    let raw := take (Z.to_nat len) rest in
    let rest := drop (Z.to_nat len) rest in
    if huffman then let? s := huffman_decode raw in Ok (s, rest)
    else Ok (raw, rest).

Definition encode_string (s : string) : bytes :=
  encode_integer (zlen (as_bytes s)) 7 0 ++ as_bytes s.

(** ** The decoder *)

(** [dynamic] front first: the newest entry has the lowest index. *)
Record Decoder := mkDecoder {
  dynamic : list Header;
  dynamic_size : Z;
  max_dynamic_size : Z;
}.

Definition decoder_new : Decoder := mkDecoder [] 0 4096.

Definition entry_size (h : Header) : Z := zlen (as_bytes (fst h)) + zlen (as_bytes (snd h)) + 32.

(** [pop_back] on a table that is not empty. *)
Definition pop_back (d : Decoder) : Decoder :=
  match last (dynamic d) with
  | Some h =>
      mkDecoder (take (length (dynamic d) - 1) (dynamic d)) (dynamic_size d - entry_size h) (max_dynamic_size d)
  | None => d
  end.

(** Every turn removes an entry, so the length of the table bounds the loop. *)
Fixpoint evict_for (fuel : nat) (size : Z) (d : Decoder) : Decoder :=
  match fuel with
  | O => d
  | S fuel' =>
      if (max_dynamic_size d <? dynamic_size d + size) && negb (bool_decide (dynamic d = []))
      then evict_for fuel' size (pop_back d) else d
  end.

Definition insert_dynamic (h : Header) (d : Decoder) : Decoder :=
  let size := entry_size h in
  let d := evict_for (length (dynamic d)) size d in
  if size <=? max_dynamic_size d
  then mkDecoder (h :: dynamic d) (dynamic_size d + size) (max_dynamic_size d)
  else d.

Fixpoint shrink (fuel : nat) (d : Decoder) : Decoder :=
  match fuel with
  | O => d
  | S fuel' =>
      if (max_dynamic_size d <? dynamic_size d) && negb (bool_decide (dynamic d = []))
      then shrink fuel' (pop_back d) else d
  end.

Definition set_max_size (new_max : Z) (d : Decoder) : Decoder :=
  shrink (length (dynamic d)) (mkDecoder (dynamic d) (dynamic_size d) new_max).

Definition resolve_index (index : Z) (d : Decoder) : Result Header :=
  if index =? 0 then Err "hpack: index 0 is not valid"%string
  else if index <=? zlen STATIC_TABLE
  then ok_or (STATIC_TABLE !! Z.to_nat (index - 1)) "index out of bounds"
  else ok_or (dynamic d !! Z.to_nat (index - zlen STATIC_TABLE - 1)) "hpack: dynamic index out of range".

Definition resolve_name (index : Z) (d : Decoder) : Result string :=
  let? h := resolve_index index d in Ok (fst h).

(** A string literal whose first byte is still in the block. *)
Definition literal_string (what : string) (block : bytes) : Result (string * bytes) :=
  match block with
  | [] => Err what
  | first :: block =>
      let? '(raw, block) := decode_string first block in
      let? s := ok_or (from_utf8 raw) "invalid utf-8 sequence" in
      Ok (s, block)
  end.

Definition decode_literal (first : byte) (name_prefix_bits : Z) (block : bytes) (d : Decoder)
    : Result (Header * bytes) :=
  let? '(name_index, block) := decode_integer first name_prefix_bits block in
  let? '(name, block) :=
    if name_index =? 0 then literal_string "hpack: truncated literal name" block
    else let? name := resolve_name name_index d in Ok (name, block) in
  let? '(value, block) := literal_string "hpack: truncated literal value" block in
  Ok ((name, value), block).

(** One turn of the loop of [decode]: the field of the block that starts with
    [first], if it is one, and the rest of the block. *)
Definition decode_field (first : byte) (block : bytes) (d : Decoder)
    : Decoder * Result (list Header * bytes) :=
  let bit mask := negb (Z.land (Z_of_byte first) mask =? 0) in
  if bit 128 then
    (d, let? '(index, block) := decode_integer first 7 block in
        let? h := resolve_index index d in Ok ([h], block))
  else if bit 64 then
    match decode_literal first 6 block d with
    | Ok (h, block) => (insert_dynamic h d, Ok ([h], block))
    | Err e => (d, Err e)
    end
  else if bit 32 then
    match decode_integer first 5 block with
    | Ok (new_max, block) => (set_max_size new_max d, Ok ([], block))
    | Err e => (d, Err e)
    end
  else
    (d, let? '(h, block) := decode_literal first 4 block d in Ok ([h], block)).

(** [None] when the fuel runs out. *)
Fixpoint decode_loop (fuel : nat) (block : bytes) (headers : list Header) (d : Decoder)
    : option (Decoder * Result (list Header)) :=
  match fuel with
  | O => None
  | S fuel' =>
      match block with
      | [] => Some (d, Ok headers)
      | first :: block =>
          match decode_field first block d with
          | (d, Err e) => Some (d, Err e)
          | (d, Ok (hs, block)) => decode_loop fuel' block (headers ++ hs) d
          end
      end
  end.

(** Every field takes at least a byte. *)
Definition decode (block : bytes) (d : Decoder) : option (Decoder * Result (list Header)) :=
  decode_loop (S (length block)) block [] d.

(** ** The encoder *)

(** [iter().position(p).map(|i| i + 1)] *)
Fixpoint static_position (p : Header -> bool) (table : list Header) (i : Z) : option Z :=
  match table with
  | [] => None
  | h :: table' => if p h then Some i else static_position p table' (i + 1)
  end.

Definition static_full_match (name value : string) : option Z :=
  static_position (fun h => String.eqb (fst h) name && String.eqb (snd h) value) STATIC_TABLE 1.

Definition static_name_match (name : string) : option Z :=
  static_position (fun h => String.eqb (fst h) name) STATIC_TABLE 1.

Definition encode_header (h : Header) : bytes :=
  let '(name, value) := h in
  match static_full_match name value with
  | Some idx => encode_integer idx 7 128
  | None =>
      match static_name_match name with
      | Some idx => encode_integer idx 4 0 ++ encode_string value
      | None => Byte.x00 :: encode_string name ++ encode_string value
      end
  end.

Definition encode (headers : list Header) : bytes := concat (map encode_header headers).

(** ** Integers round-trip *)

Lemma encode_continuation_cons (fuel : nat) (v : Z) :
  (0 < fuel)%nat -> exists b bs, encode_continuation fuel v = b :: bs.
Proof. destruct fuel; [lia|]. intros _. cbn [encode_continuation]. destruct (128 <=? v); eauto. Qed.

Lemma last_group (v : Z) : 0 <= v < 128 ->
  Z.land (Z_of_byte (byte_of_Z v)) 127 = v /\ (Z.land (Z_of_byte (byte_of_Z v)) 128 =? 0) = true.
Proof.
  intros Hv. destruct (varint_byte v false) as [H1 H2]. cbv zeta in H1, H2. rewrite (land_127 v) in H1, H2.
  rewrite (Z.mod_small v 128) in H1, H2 by lia. done.
Qed.

Lemma shift_group (v k : Z) : 0 <= k < 9 -> 0 <= v < 128 -> Z.shiftl v (7 * k) mod 2 ^ 64 = v * 2 ^ (7 * k).
Proof.
  intros Hk Hv. rewrite Z.shiftl_mul_pow2 by lia. apply Z.mod_small.
  assert (2 ^ (7 * k) <= 2 ^ 56) by (apply Z.pow_le_mono_r; lia). nia.
Qed.

(** Nine groups of seven bits are read, a tenth is refused. *)
Lemma continuation_roundtrip (fuel : nat) (v acc k : Z) (rest : bytes) :
  (0 < fuel)%nat -> 0 <= v < 2 ^ (7 * Z.of_nat fuel) -> 0 <= k <= 9 -> 0 <= acc -> acc + v * 2 ^ (7 * k) < 2 ^ 64 ->
  decode_continuation acc (7 * k) (encode_continuation fuel v ++ rest) =
    if v * 2 ^ (7 * k) <? 2 ^ 63 then if k =? 9 then Err "hpack integer: overflow"%string else Ok (acc + v * 2 ^ (7 * k), rest)
    else Err "hpack integer: overflow"%string.
Proof.
  revert v acc k. induction fuel as [|fuel IH]; intros v acc k Hf Hv Hk Hacc Hmax; [lia|].
  destruct (decide (k = 9)) as [->|Hk9].
  { destruct (encode_continuation_cons (S fuel) v Hf) as (b & bs & ->). simpl. by destruct (_ <? _). }
  rewrite (proj2 (Z.eqb_neq k 9)) by done. cbn [encode_continuation].
  destruct (Z.leb_spec 128 v) as [Hbig|Hsmall]; cbn [app decode_continuation];
    rewrite (proj2 (Z.ltb_lt (7 * k) 63)) by lia; cbn [negb].
  - destruct (varint_byte v true) as [Hlow Hmore]. cbv zeta in Hlow, Hmore. rewrite Hlow, Hmore. cbn [negb].
    pose proof (Z.div_mod v 128 ltac:(lia)) as Hdm. pose proof (Z.mod_pos_bound v 128 ltac:(lia)) as Hb.
    assert (2 ^ (7 * (k + 1)) = 128 * 2 ^ (7 * k)) as Hp
      by (replace (7 * (k + 1)) with (7 + 7 * k) by lia; by rewrite Z.pow_add_r by lia).
    rewrite shift_group by lia. unfold checked_add. rewrite (proj2 (Z.ltb_lt _ (2 ^ 64))) by nia.
    replace (7 * k + 7) with (7 * (k + 1)) by lia. rewrite Z.shiftr_div_pow2 by lia. change (2 ^ 7) with 128.
    replace (7 * Z.of_nat (S fuel)) with (7 + 7 * Z.of_nat fuel) in Hv by lia. rewrite Z.pow_add_r in Hv by lia.
    change (2 ^ 7) with 128 in Hv.
    assert (0 < fuel)%nat as Hf' by (destruct fuel; [simpl in Hv; lia | lia]).
    rewrite IH; [|done | split; [apply Z.div_pos; lia | apply Z.div_lt_upper_bound; lia] | lia | nia | rewrite Hp; nia].
    rewrite Hp. pose proof (Z.pow_pos_nonneg 2 (7 * k) ltac:(lia) ltac:(lia)).
    destruct (Z.eqb_spec (k + 1) 9) as [He|He].
    + replace k with 8 in * by lia. change (2 ^ (7 * 8)) with 72057594037927936 in *. change (2 ^ 63) with 9223372036854775808.
      destruct (Z.ltb_spec (v * 72057594037927936) 9223372036854775808); [lia|]. by destruct (_ <? _).
    + assert (v / 128 * (128 * 2 ^ (7 * k)) < 2 ^ 63 <-> v * 2 ^ (7 * k) < 2 ^ 63) as Hiff.
      { assert (2 ^ 63 = 2 ^ (63 - 7 * (k + 1)) * (128 * 2 ^ (7 * k))) as ->
          by (rewrite <- Hp, <- Z.pow_add_r by lia; f_equal; lia).
        generalize (2 ^ (63 - 7 * (k + 1))). intros A. rewrite <- Z.mul_lt_mono_pos_r by lia.
        rewrite Z.mul_assoc, <- Z.mul_lt_mono_pos_r by lia. lia. }
      destruct (Z.ltb_spec (v / 128 * (128 * 2 ^ (7 * k))) (2 ^ 63)), (Z.ltb_spec (v * 2 ^ (7 * k)) (2 ^ 63)); try tauto; [|lia..].
      f_equal. f_equal. nia.
  - destruct (last_group v ltac:(lia)) as [-> ->]. rewrite shift_group by lia. unfold checked_add.
    rewrite (proj2 (Z.ltb_lt _ (2 ^ 64))) by lia.
    rewrite (proj2 (Z.ltb_lt _ (2 ^ 63))); [done|].
    assert (2 ^ (7 * k) <= 2 ^ 56) by (apply Z.pow_le_mono_r; lia). nia.
Qed.

(** The first byte of an integer: the flags above the prefix. *)
Lemma prefix_byte (f n v : Z) :
  1 <= n <= 8 -> 0 <= f -> f * 2 ^ n + 2 ^ n <= 256 -> 0 <= v < 2 ^ n ->
  Z_of_byte (byte_of_Z (Z.lor (f * 2 ^ n) v)) = f * 2 ^ n + v
  /\ Z.land (Z_of_byte (byte_of_Z (Z.lor (f * 2 ^ n) v))) (Z.shiftl 1 n - 1) = v.
Proof.
  intros Hn Hf H256 Hv. rewrite Z_of_byte_of_Z, Z.lor_comm, lor_high by lia. change (2 ^ 8) with 256.
  rewrite (Z.mod_small _ 256) by nia. split; [lia|].
  rewrite Z.shiftl_1_l, Z.sub_1_r, <- Z.ones_equiv, Z.land_ones by lia. rewrite Z.mod_add by lia. by apply Z.mod_small.
Qed.

Lemma integer_roundtrip (value n f : Z) (rest : bytes) :
  is_u64 value -> 1 <= n <= 8 -> 0 <= f -> f * 2 ^ n + 2 ^ n <= 256 ->
  exists b bs, encode_integer value n (f * 2 ^ n) = b :: bs
    /\ Z_of_byte b = f * 2 ^ n + Z.min value (2 ^ n - 1)
    /\ decode_integer b n (bs ++ rest) =
         if value <? 2 ^ 63 + 2 ^ n - 1 then Ok (value, rest) else Err "hpack integer: overflow"%string.
Proof.
  intros [Hv0 Hv] Hn Hf H256. assert (Z.shiftl 1 n - 1 = 2 ^ n - 1) as Hmask by (by rewrite Z.shiftl_1_l).
  pose proof (Z.pow_pos_nonneg 2 n ltac:(lia) ltac:(lia)) as Hpos.
  unfold encode_integer. cbv zeta. rewrite Hmask. destruct (Z.ltb_spec value (2 ^ n - 1)) as [Hs|Hb].
  - destruct (prefix_byte f n value) as [H1 H2]; [lia..|]. do 2 eexists. split; [reflexivity|].
    split; [rewrite H1; lia|]. unfold decode_integer. rewrite H2, Hmask.
    rewrite (proj2 (Z.ltb_lt value _)) by lia. by rewrite (proj2 (Z.ltb_lt value (2 ^ 63 + _ - 1))) by lia.
  - destruct (prefix_byte f n (2 ^ n - 1)) as [H1 H2]; [lia..|]. do 2 eexists. split; [reflexivity|].
    split; [rewrite H1; lia|]. unfold decode_integer. rewrite H2, Hmask, Z.ltb_irrefl. change 0 with (7 * 0) at 1.
    rewrite continuation_roundtrip; [|lia | split; [lia|]; apply Z.lt_trans with (2 ^ 64); [lia|done] | lia..].
    change (2 ^ (7 * 0)) with 1. change (0 =? 9) with false. cbv iota.
    destruct (Z.ltb_spec ((value - (2 ^ n - 1)) * 1) (2 ^ 63)), (Z.ltb_spec value (2 ^ 63 + 2 ^ n - 1)); try lia; [|done].
    f_equal. f_equal. lia.
Qed.

(** ** Huffman coding *)

(** The code of a symbol, and the encoding of a string in section 5.2 of the
    RFC: the codes of its octets, padded with ones to whole octets. *)
Definition code_bits (sym : Z) : list bool :=
  match HUFFMAN !! Z.to_nat sym with Some (code, len) => be_bits (Z.to_nat len) code | None => [] end.

Definition codes (s : bytes) : list bool := concat (map (fun b => code_bits (Z_of_byte b)) s).

Fixpoint pack (fuel : nat) (bits : list bool) : bytes :=
  match fuel, bits with
  | S fuel', _ :: _ =>
      byte_of_Z (fold_left (fun v (b : bool) => 2 * v + Z.b2z b) (take 8 (bits ++ replicate 7 true)) 0)
        :: pack fuel' (drop 8 bits)
  | _, _ => []
  end.

Definition huffman_encode (s : bytes) : bytes := pack (length (codes s)) (codes s).

(** What was decoded before does not matter to what comes. *)
Definition behind (out : bytes) (r : Result HuffmanState) : Result HuffmanState :=
  let? h := r in Ok (mkHuffmanState (h_cur h) (h_bits h) (out ++ h_out h)).

Lemma huffman_bits_frame (bits : list bool) (cur n : Z) (o1 o2 : bytes) :
  huffman_bits bits (mkHuffmanState cur n (o1 ++ o2)) = behind o1 (huffman_bits bits (mkHuffmanState cur n o2)).
Proof.
  revert cur n o2. induction bits as [|b bits IH]; intros cur n o2; [done|].
  cbn [huffman_bits]. unfold huffman_bit. cbn [h_cur h_bits h_out].
  destruct (30 <? n + 1); [done|]. destruct (match_symbol _ _) as [sym|]; [|apply IH].
  destruct (sym =? 256); [done|]. rewrite <- app_assoc. apply IH.
Qed.

Lemma huffman_bits_app (b1 b2 : list bool) (h : HuffmanState) :
  huffman_bits (b1 ++ b2) h = let? h := huffman_bits b1 h in huffman_bits b2 h.
Proof.
  revert h. induction b1 as [|b b1 IH]; intros h; [done|]. cbn [app huffman_bits].
  destruct (huffman_bit b h); [apply IH | done].
Qed.

Definition symbols : list Z := map Z.of_nat (seq 0 256).

(** Reading the code of each symbol from the root yields the symbol: the code
    is prefix-free, checked on the table itself. *)
Definition reads_as (sym : Z) : bool :=
  match huffman_bits (code_bits sym) (mkHuffmanState 0 0 []) with
  | Ok (mkHuffmanState 0 0 [b]) => Z_of_byte b =? sym
  | _ => false
  end.

Lemma table_reads : forallb reads_as symbols = true.
Proof. vm_compute. reflexivity. Qed.

Lemma code_reads (b : byte) (out : bytes) :
  huffman_bits (code_bits (Z_of_byte b)) (mkHuffmanState 0 0 out) = Ok (mkHuffmanState 0 0 (out ++ [b])).
Proof.
  assert (reads_as (Z_of_byte b) = true) as H.
  { apply (proj1 (forallb_forall _ _) table_reads). unfold symbols. rewrite in_map_iff.
    pose proof (Z_of_byte_range b). exists (Z.to_nat (Z_of_byte b)). rewrite in_seq. lia. }
  rewrite <- (app_nil_r out) at 1. rewrite huffman_bits_frame. unfold reads_as in H.
  destruct (huffman_bits _ _) as [[[] [] [|x []]]|]; try done. apply Z.eqb_eq, Z_of_byte_inj in H as ->. done.
Qed.

Lemma codes_read (s out : bytes) :
  huffman_bits (codes s) (mkHuffmanState 0 0 out) = Ok (mkHuffmanState 0 0 (out ++ s)).
Proof.
  revert out. induction s as [|b s IH]; intros out; [by rewrite app_nil_r|].
  change (codes (b :: s)) with (code_bits (Z_of_byte b) ++ codes s).
  rewrite huffman_bits_app, code_reads, IH, <- app_assoc. done.
Qed.

(** Up to seven ones complete no code. *)
Definition pads (k : nat) : bool :=
  match huffman_bits (replicate k true) (mkHuffmanState 0 0 []) with
  | Ok (mkHuffmanState cur n []) => (n =? Z.of_nat k) && (cur =? Z.shiftl 1 n - 1)
  | _ => false
  end.

Lemma padding_read (k : nat) (out : bytes) :
  (k < 8)%nat -> (let? h := huffman_bits (replicate k true) (mkHuffmanState 0 0 out) in huffman_end h) = Ok out.
Proof.
  intros Hk. assert (pads k = true) as H.
  { apply (proj1 (forallb_forall pads (seq 0 8))); [vm_compute; reflexivity | apply in_seq; lia]. }
  rewrite <- (app_nil_r out) at 1. rewrite huffman_bits_frame. unfold pads in H.
  destruct (huffman_bits _ _) as [[cur n [|x l]]|]; try done. simpl. rewrite app_nil_r.
  apply andb_true_iff in H as [Hn Hc]. unfold huffman_end. cbn [h_cur h_bits h_out]. rewrite Hc.
  apply Z.eqb_eq in Hn. rewrite (proj2 (Z.ltb_lt n 8)) by lia. by destruct (0 <? n).
Qed.

(** *** Soundness: what was read is the codes of the output *)

Lemma find_symbol_Some (table : list (Z * Z)) (i cur n sym : Z) :
  find_symbol table i cur n = Some sym -> i <= sym /\ table !! Z.to_nat (sym - i) = Some (cur, n).
Proof.
  revert i. induction table as [|[code len] table IH]; intros i; [done|]. cbn [find_symbol].
  destruct (Z.eqb_spec len n) as [->|]; cbn [andb]; [destruct (Z.eqb_spec code cur) as [->|]|].
  - intros [= ->]. split; [lia|]. by rewrite Z.sub_diag.
  - intros [H1 H2]%IH. split; [lia|]. replace (Z.to_nat (sym - i)) with (S (Z.to_nat (sym - (i + 1)))) by lia. done.
  - intros [H1 H2]%IH. split; [lia|]. replace (Z.to_nat (sym - i)) with (S (Z.to_nat (sym - (i + 1)))) by lia. done.
Qed.

Lemma match_symbol_code (cur n sym : Z) :
  match_symbol cur n = Some sym -> 0 <= sym < 257 /\ code_bits sym = be_bits (Z.to_nat n) cur.
Proof.
  intros [H0 H]%find_symbol_Some. rewrite Z.sub_0_r in H. unfold code_bits. rewrite H.
  apply lookup_lt_Some in H. change (length HUFFMAN) with 257%nat in H. split; [lia | done].
Qed.

(** The bits a state stands for. *)
Definition read_bits_of (h : HuffmanState) : list bool := codes (h_out h) ++ be_bits (Z.to_nat (h_bits h)) (h_cur h).
Definition huffman_ok (h : HuffmanState) : Prop := 0 <= h_bits h <= 30 /\ 0 <= h_cur h < 2 ^ h_bits h.

Lemma huffman_start_ok : huffman_ok (mkHuffmanState 0 0 []).
Proof. by vm_compute. Qed.

Lemma codes_snoc (s : bytes) (b : byte) : codes (s ++ [b]) = codes s ++ code_bits (Z_of_byte b).
Proof. unfold codes. by rewrite map_app, concat_app; simpl; rewrite app_nil_r. Qed.

Lemma huffman_bit_sound (b : bool) (h h' : HuffmanState) :
  huffman_ok h -> huffman_bit b h = Ok h' -> huffman_ok h' /\ read_bits_of h' = read_bits_of h ++ [b].
Proof.
  destruct h as [cur n out]. intros [Hn Hc]. cbn [h_cur h_bits h_out] in *. unfold huffman_bit. cbn [h_cur h_bits h_out].
  destruct (Z.ltb_spec 30 (n + 1)) as [|H30]; [done|].
  assert (2 ^ n <= 2 ^ 29) by (apply Z.pow_le_mono_r; lia).
  rewrite Z.shiftl_mul_pow2, Z.mod_small by lia. change (2 ^ 1) with 2. rewrite (Z.mul_comm cur), lor_b2z.
  assert (be_bits (Z.to_nat (n + 1)) (2 * cur + Z.b2z b) = be_bits (Z.to_nat n) cur ++ [b]) as Hbits.
  { replace (Z.to_nat (n + 1)) with (S (Z.to_nat n)) by lia. apply be_bits_snoc. }
  destruct (match_symbol _ _) as [sym|] eqn:E.
  - destruct (Z.eqb_spec sym 256) as [|H256]; [done|]. intros [= <-].
    apply match_symbol_code in E as [Hsym Hcode]. split; [done|]. unfold read_bits_of. cbn [h_cur h_bits h_out].
    rewrite codes_snoc, Z_of_byte_of_Z, Z.mod_small, Hcode, Hbits by lia. simpl. by rewrite app_nil_r, app_assoc.
  - intros [= <-]. split.
    + split; cbn [h_cur h_bits]; [lia|]. rewrite Z.pow_add_r by lia. destruct b; simpl Z.b2z; lia.
    + unfold read_bits_of. cbn [h_cur h_bits h_out]. by rewrite Hbits, app_assoc.
Qed.

Lemma huffman_bits_sound (bits : list bool) (h h' : HuffmanState) :
  huffman_ok h -> huffman_bits bits h = Ok h' -> huffman_ok h' /\ read_bits_of h' = read_bits_of h ++ bits.
Proof.
  revert h. induction bits as [|b bits IH]; intros h Hh.
  - intros [= <-]. by rewrite app_nil_r.
  - intros (h1 & H1 & H2)%result_bind_Ok. destruct (huffman_bit_sound b h h1 Hh H1) as [Hh1 Heq].
    destruct (IH h1 Hh1 H2) as [Hh' Heq']. split; [done|]. by rewrite Heq', Heq, <- app_assoc.
Qed.

Lemma be_bits_ones (n : nat) : be_bits n (2 ^ Z.of_nat n - 1) = replicate n true.
Proof.
  induction n as [|n IH]; [done|]. rewrite replicate_S_end, <- IH, <- be_bits_snoc. f_equal.
  replace (Z.of_nat (S n)) with (1 + Z.of_nat n) by lia. rewrite Z.pow_add_r by lia. simpl Z.b2z. lia.
Qed.

(** A string is accepted exactly when its bits are codes and at most seven
    ones. *)
Lemma huffman_decode_bits (input s : bytes) :
  huffman_decode input = Ok s <-> exists k, (k < 8)%nat /\ bits_of_bytes input = codes s ++ replicate k true.
Proof.
  unfold huffman_decode. split.
  - intros (h & Hrun & Hend)%result_bind_Ok.
    destruct (huffman_bits_sound _ _ _ huffman_start_ok Hrun) as [[Hn Hc] Heq].
    change (read_bits_of (mkHuffmanState 0 0 [])) with (@nil bool) in Heq. rewrite app_nil_l in Heq. rewrite <- Heq.
    unfold huffman_end in Hend. unfold read_bits_of. exists (Z.to_nat (h_bits h)).
    destruct (Z.ltb_spec 0 (h_bits h)) as [Hpos|Hneg].
    + destruct (Z.ltb_spec (h_bits h) 8); [|done]. cbn [negb] in Hend.
      destruct (Z.eqb_spec (h_cur h) (Z.shiftl 1 (h_bits h) - 1)) as [Hones|]; [|done]. injection Hend as <-.
      split; [lia|]. rewrite Hones, Z.shiftl_1_l. rewrite <- (Z2Nat.id (h_bits h)) at 2 by lia. by rewrite be_bits_ones.
    + injection Hend as <-. replace (Z.to_nat (h_bits h)) with O by lia. split; [lia | done].
  - intros (k & Hk & ->). rewrite huffman_bits_app, codes_read. by apply padding_read.
Qed.

(** *** Packing bits into octets *)

Lemma be_bits_of_fold (l : list bool) (v : Z) :
  be_bits (length l) (fold_left (fun v (b : bool) => 2 * v + Z.b2z b) l v) = l.
Proof.
  induction l as [|b l IH] using rev_ind; [done|].
  rewrite fold_left_app, length_app, Nat.add_comm. cbn [fold_left length Nat.add]. by rewrite be_bits_snoc, IH.
Qed.

Lemma fold_bits_range (l : list bool) :
  0 <= fold_left (fun v (b : bool) => 2 * v + Z.b2z b) l 0 < 2 ^ zlen l.
Proof.
  induction l as [|b l IH] using rev_ind; [done|].
  rewrite fold_left_app, zlen_app. change (zlen [b]) with 1. rewrite Z.pow_add_r by (unfold zlen; lia).
  cbn [fold_left]. destruct b; simpl Z.b2z; lia.
Qed.

Lemma packed_byte (l : list bool) :
  length l = 8%nat -> bits_of_bytes [byte_of_Z (fold_left (fun v (b : bool) => 2 * v + Z.b2z b) l 0)] = l.
Proof.
  intros Hl. pose proof (fold_bits_range l) as Hr. unfold zlen in Hr. rewrite Hl in Hr.
  rewrite bits_of_byte_of_Z by done. rewrite <- Hl. apply be_bits_of_fold.
Qed.

Lemma pack_bits (fuel : nat) (bits : list bool) :
  (length bits <= fuel)%nat -> exists k, (k < 8)%nat /\ bits_of_bytes (pack fuel bits) = bits ++ replicate k true.
Proof.
  revert bits. induction fuel as [|fuel IH]; intros bits Hf; [destruct bits; [by exists O; split; [lia|] | simpl in Hf; lia]|].
  destruct bits as [|b bits]; [by exists O; split; [lia|]|]. cbn [pack].
  remember (b :: bits) as l eqn:El.
  destruct (IH (drop 8 l)) as (k & Hk & Hb); [subst l; rewrite length_drop; simpl in *; lia|].
  change (byte_of_Z ?x :: ?y) with ([byte_of_Z x] ++ y). rewrite bits_of_bytes_app, packed_byte, Hb.
  2:{ rewrite length_take, length_app, length_replicate. subst l; cbn [length]; lia. }
  destruct (decide (8 <= length l)%nat) as [H8|H8].
  - exists k. split; [done|]. rewrite take_app_le by done. by rewrite app_assoc, take_drop.
  - rewrite drop_ge in Hb |- * by lia. exists (8 - length l)%nat. split; [subst l; simpl; lia|].
    rewrite take_app_ge, take_replicate by lia. simpl app.
    assert (k = O) as ->.
    { apply (f_equal length) in Hb. destruct fuel; simpl in Hb; rewrite length_replicate in Hb; lia. }
    rewrite app_nil_r. f_equal. f_equal. subst l; cbn [length]; lia.
Qed.

Lemma be_bits_byte_inj (a b : byte) : be_bits 8 (Z_of_byte a) = be_bits 8 (Z_of_byte b) -> a = b.
Proof.
  assert (forall c : byte, fold_left (fun v (b : bool) => 2 * v + Z.b2z b) (be_bits 8 (Z_of_byte c)) 0 = Z_of_byte c) as Hval
    by (intros []; reflexivity).
  intros H. apply Z_of_byte_inj. by rewrite <- Hval, H, Hval.
Qed.

Lemma length_bits_of_bytes (l : bytes) : length (bits_of_bytes l) = (8 * length l)%nat.
Proof.
  induction l as [|b l IH]; [done|]. change (b :: l) with ([b] ++ l). rewrite bits_of_bytes_app, !length_app, IH.
  cbn [length]. change (length (bits_of_bytes [b])) with 8%nat. lia.
Qed.

Lemma bits_of_bytes_inj (l1 l2 : bytes) : bits_of_bytes l1 = bits_of_bytes l2 -> l1 = l2.
Proof.
  revert l2. induction l1 as [|a l1 IH]; intros [|b l2]; try done.
  change (be_bits 8 (Z_of_byte a) ++ bits_of_bytes l1 = be_bits 8 (Z_of_byte b) ++ bits_of_bytes l2 -> a :: l1 = b :: l2).
  intros [H1 H2]%app_inj_1; [|by rewrite !length_be_bits]. apply be_bits_byte_inj in H1. by rewrite H1, (IH l2).
Qed.

(** Huffman decoding is the inverse of the RFC's encoding: it returns a
    string on exactly one input, the encoding of that string, and refuses
    every other input, among them those with an end-of-string code, with
    padding of eight bits or more, or with padding that is not all ones. *)
Theorem hpack_huffman_inverts_rfc_code (input s : bytes) :
  huffman_decode input = Ok s <-> input = huffman_encode s.
Proof.
  rewrite huffman_decode_bits. unfold huffman_encode.
  destruct (pack_bits (length (codes s)) (codes s)) as (k & Hk & Hpack); [done|]. split.
  - intros (j & Hj & Hin). apply bits_of_bytes_inj. rewrite Hin, Hpack. f_equal. f_equal.
    apply (f_equal length) in Hin, Hpack. rewrite length_bits_of_bytes, length_app, length_replicate in Hin, Hpack. lia.
  - intros ->. eauto.
Qed.

Lemma land_pow2_test (z k : Z) : 0 <= k -> negb (Z.land z (2 ^ k) =? 0) = Z.testbit z k.
Proof.
  intros Hk. rewrite <- (Z.land_comm (2 ^ k)). destruct (Z.testbit z k) eqn:E.
  - apply negb_true_iff, Z.eqb_neq. intros H0. assert (Z.testbit (Z.land (2 ^ k) z) k = false) as H1 by by rewrite H0, Z.bits_0.
    by rewrite Z.land_spec, Z.pow2_bits_true, E in H1.
  - apply negb_false_iff, Z.eqb_eq, Z.bits_inj'. intros i Hi. rewrite Z.land_spec, Z.bits_0.
    destruct (decide (i = k)) as [->|]; [by rewrite E, andb_false_r | by rewrite Z.pow2_bits_false by done].
Qed.

(** ** Encoding, then decoding *)

(** A [String] of the program: valid UTF-8, no longer than [isize::MAX]. *)
Definition str_ok (s : string) : Prop := is_string s /\ zlen (as_bytes s) < 2 ^ 63.
Definition header_ok (h : Header) : Prop := str_ok (fst h) /\ str_ok (snd h).

Lemma literal_string_roundtrip (what s : string) (rest : bytes) :
  str_ok s -> literal_string what (encode_string s ++ rest) = Ok (s, rest).
Proof.
  intros [Hs Hlen]. pose proof (zlen_nonneg (as_bytes s)).
  destruct (integer_roundtrip (zlen (as_bytes s)) 7 0 (as_bytes s ++ rest)) as (b & bs & Henc & Hb & Hdec);
    [unfold is_u64; lia | lia | lia | done |].
  unfold encode_string. change 0 with (0 * 2 ^ 7). rewrite Henc, <- app_assoc. cbn [app literal_string].
  unfold decode_string. rewrite Hdec. rewrite (proj2 (Z.ltb_lt (zlen (as_bytes s)) _)) by lia.
  rewrite zlen_app. rewrite (proj2 (Z.ltb_ge _ (zlen (as_bytes s)))) by (pose proof (zlen_nonneg rest); lia).
  rewrite byte_bit7, (proj2 (Z.ltb_lt (Z_of_byte b) 128)) by (change (2 ^ 7) with 128 in Hb; lia).
  cbn [Z.eqb negb]. rewrite take_zlen_app, drop_zlen_app, from_utf8_as_bytes by done. done.
Qed.

Lemma static_position_Some (p : Header -> bool) (table : list Header) (i idx : Z) :
  static_position p table i = Some idx ->
  i <= idx < i + zlen table /\ exists h, table !! Z.to_nat (idx - i) = Some h /\ p h = true.
Proof.
  revert i. induction table as [|h table IH]; intros i; [done|]. cbn [static_position]. rewrite zlen_cons.
  pose proof (zlen_nonneg table). destruct (p h) eqn:E.
  - intros [= ->]. rewrite Z.sub_diag. split; [lia|]. by exists h.
  - intros (H1 & h' & Hl & Hp)%IH. split; [lia|]. exists h'.
    replace (Z.to_nat (idx - i)) with (S (Z.to_nat (idx - (i + 1)))) by lia. done.
Qed.

Lemma resolve_static (p : Header -> bool) (idx : Z) (d : Decoder) :
  static_position p STATIC_TABLE 1 = Some idx ->
  1 <= idx <= 61 /\ exists h, resolve_index idx d = Ok h /\ p h = true.
Proof.
  intros (H1 & h & Hl & Hp)%static_position_Some. change (zlen STATIC_TABLE) with 61 in H1. split; [lia|].
  exists h. unfold resolve_index. change (zlen STATIC_TABLE) with 61.
  rewrite (proj2 (Z.eqb_neq idx 0)), (proj2 (Z.leb_le idx 61)), Hl by lia. done.
Qed.

(** The flags of a first byte that is below [2 ^ n]. *)
Lemma flag_clear (b : byte) (k n : Z) : 0 <= n <= k -> Z_of_byte b < 2 ^ n -> (Z.land (Z_of_byte b) (2 ^ k) =? 0) = true.
Proof.
  intros Hk Hb. apply negb_false_iff. rewrite land_pow2_test by lia. pose proof (Z_of_byte_range b).
  destruct (decide (Z_of_byte b = 0)) as [->|]; [by rewrite Z.bits_0|].
  apply Z.bits_above_log2; [lia|]. apply Z.lt_le_trans with n; [apply Z.log2_lt_pow2; lia | lia].
Qed.

Lemma decode_field_header (h : Header) (d : Decoder) (rest : bytes) :
  header_ok h -> exists b bs, encode_header h = b :: bs /\ decode_field b (bs ++ rest) d = (d, Ok ([h], rest)).
Proof.
  destruct h as [name value]. intros [Hn Hv]. cbn [fst snd] in *. unfold encode_header.
  destruct (static_full_match name value) as [idx|] eqn:Efull.
  - apply (resolve_static _ _ d) in Efull as (Hidx & h & Hr & Hp).
    apply andb_prop in Hp as [H1 H2]. apply String.eqb_eq in H1, H2.
    destruct (integer_roundtrip idx 7 1 rest) as (b & bs & Henc & Hb & Hdec); [unfold is_u64; lia | lia | lia | done |].
    exists b, bs. split; [exact Henc|]. unfold decode_field. change (2 ^ 7) with 128 in Hb.
    rewrite byte_bit7, (proj2 (Z.ltb_ge _ 128)) by lia. cbn [Z.eqb negb].
    rewrite Hdec, (proj2 (Z.ltb_lt idx _)), Hr by lia. do 2 f_equal. destruct h; simpl in *; by subst.
  - destruct (static_name_match name) as [idx|] eqn:Ename.
    + apply (resolve_static _ _ d) in Ename as (Hidx & h & Hr & H1). apply String.eqb_eq in H1.
      destruct (integer_roundtrip idx 4 0 (encode_string value ++ rest)) as (b & bs & Henc & Hb & Hdec);
        [unfold is_u64; lia | lia | lia | done |].
      exists b, (bs ++ encode_string value). split; [change 0 with (0 * 2 ^ 4); by rewrite Henc|].
      assert (Z_of_byte b < 2 ^ 4) as Hlt by lia.
      unfold decode_field. rewrite (flag_clear b 7 4 ltac:(lia) Hlt : (Z.land _ 128 =? 0) = true),
        (flag_clear b 6 4 ltac:(lia) Hlt : (Z.land _ 64 =? 0) = true), (flag_clear b 5 4 ltac:(lia) Hlt : (Z.land _ 32 =? 0) = true).
      cbn [negb]. unfold decode_literal. rewrite <- app_assoc, Hdec, (proj2 (Z.ltb_lt idx _)) by lia.
      rewrite (proj2 (Z.eqb_neq idx 0)) by lia. unfold resolve_name. rewrite Hr.
      rewrite literal_string_roundtrip by done. by rewrite H1.
    + exists Byte.x00, (encode_string name ++ encode_string value). split; [done|].
      unfold decode_field. change (Z.land (Z_of_byte Byte.x00) ?m) with 0. cbn [Z.eqb negb].
      unfold decode_literal. change (decode_integer Byte.x00 4 ?r) with (@Ok string _ (0, r)). cbn [Z.eqb].
      by rewrite <- app_assoc, !literal_string_roundtrip.
Qed.

Lemma decode_loop_headers (hs acc : list Header) (d : Decoder) (fuel : nat) :
  Forall header_ok hs -> (length (encode hs) < fuel)%nat ->
  decode_loop fuel (encode hs) acc d = Some (d, Ok (acc ++ hs)).
Proof.
  intros Hhs. revert acc fuel. induction Hhs as [|h hs Hh _ IH]; intros acc [|fuel] Hf; try lia.
  - simpl. by rewrite app_nil_r.
  - destruct (decode_field_header h d (encode hs) Hh) as (b & bs & Henc & Hdec).
    change (encode (h :: hs)) with (encode_header h ++ encode hs) in *. rewrite Henc in *.
    cbn [app decode_loop]. rewrite Hdec, IH by (cbn [app length] in Hf; rewrite length_app in Hf; lia).
    by rewrite <- app_assoc.
Qed.

(** What the server encodes a peer's decoder reads back: decoding an
    encoded header list gives the list, whatever the decoder's table holds,
    and leaves the table as it was. *)
Theorem hpack_encode_decode (hs : list Header) (d : Decoder) :
  Forall header_ok hs -> decode (encode hs) d = Some (d, Ok hs).
Proof. intros Hhs. unfold decode. by rewrite decode_loop_headers by (done || lia). Qed.

(** ** The dynamic table *)

Definition table_size (l : list Header) : Z := foldr (fun h n => entry_size h + n) 0 l.

(** The recorded size is the size of the entries and within the limit. *)
Definition decoder_ok (d : Decoder) : Prop :=
  dynamic_size d = table_size (dynamic d) /\ table_size (dynamic d) <= max_dynamic_size d.

Lemma entry_size_pos (h : Header) : 32 <= entry_size h.
Proof. unfold entry_size. pose proof (zlen_nonneg (as_bytes (fst h))). pose proof (zlen_nonneg (as_bytes (snd h))). lia. Qed.

Lemma table_size_entries (l : list Header) : 32 * zlen l <= table_size l.
Proof.
  induction l as [|h l IH]; [done|]. rewrite zlen_cons. cbn [table_size foldr]. fold (table_size l).
  pose proof (entry_size_pos h). lia.
Qed.

Lemma table_size_snoc (l : list Header) (h : Header) : table_size (l ++ [h]) = table_size l + entry_size h.
Proof.
  induction l as [|x l IH]; [cbn [app table_size foldr]; lia|]. change (table_size ((x :: l) ++ [h])) with (entry_size x + table_size (l ++ [h])).
  change (table_size (x :: l)) with (entry_size x + table_size l). lia.
Qed.

Lemma pop_back_snoc (l : list Header) (h : Header) (n max : Z) :
  pop_back (mkDecoder (l ++ [h]) n max) = mkDecoder l (n - entry_size h) max.
Proof.
  unfold pop_back. cbn [dynamic dynamic_size max_dynamic_size]. rewrite last_snoc, length_app. f_equal.
  apply take_app_length'. simpl; lia.
Qed.

(** Eviction keeps the longest run of newest entries that leaves the room. *)
Lemma evict_for_spec (fuel : nat) (size max : Z) (l : list Header) :
  (length l <= fuel)%nat ->
  exists k, (k <= length l)%nat
    /\ evict_for fuel size (mkDecoder l (table_size l) max) = mkDecoder (take k l) (table_size (take k l)) max
    /\ (table_size (take k l) + size <= max \/ k = O)
    /\ forall j, (k < j <= length l)%nat -> max < table_size (take j l) + size.
Proof.
  revert l. induction fuel as [|fuel IH]; intros l Hf.
  - destruct l; [|simpl in Hf; lia]. exists O. split_and!; [done | done | by right | simpl; lia].
  - cbn [evict_for dynamic dynamic_size max_dynamic_size].
    destruct (Z.ltb_spec max (table_size l + size)) as [Hbig|Hfit].
    2:{ exists (length l). rewrite firstn_all. split_and!; [done | done | by left | lia]. }
    destruct l as [|x l0] eqn:El using rev_ind; [exists O; split_and!; [done|done|by right|simpl; lia]|]. clear IHl0.
    rewrite bool_decide_eq_false_2 by (by destruct l0). cbn [negb andb].
    rewrite pop_back_snoc, table_size_snoc. replace (table_size l0 + entry_size x - entry_size x) with (table_size l0) by lia.
    rewrite length_app in Hf. simpl in Hf. destruct (IH l0) as (k & Hk & Heq & Hfit & Hmax); [lia|].
    exists k. rewrite length_app. simpl. rewrite !take_app_le by lia. split_and!; [lia | done | done |].
    intros j Hj. destruct (decide (j = length l0 + 1)%nat) as [->|Hne].
    + rewrite take_app_ge by lia. replace (length l0 + 1 - length l0)%nat with 1%nat by lia. simpl. done.
    + rewrite take_app_le by lia. apply Hmax. lia.
Qed.

Lemma shrink_evict (fuel : nat) (d : Decoder) : shrink fuel d = evict_for fuel 0 d.
Proof.
  revert d. induction fuel as [|fuel IH]; intros d; [done|]. cbn [shrink evict_for]. by rewrite Z.add_0_r, IH.
Qed.

Lemma set_max_size_ok (new_max : Z) (d : Decoder) : 0 <= new_max -> decoder_ok d -> decoder_ok (set_max_size new_max d).
Proof.
  destruct d as [l n max]. intros Hm [Hn Hsz]. cbn [dynamic dynamic_size max_dynamic_size] in *. subst n.
  unfold set_max_size. rewrite shrink_evict. cbn [dynamic dynamic_size].
  destruct (evict_for_spec (length l) 0 new_max l) as (k & Hk & -> & Hfit & _); [done|].
  split; [done|]. cbn [dynamic max_dynamic_size]. destruct Hfit as [?| ->]; [lia | done].
Qed.

Lemma insert_dynamic_ok (h : Header) (d : Decoder) : decoder_ok d -> decoder_ok (insert_dynamic h d).
Proof.
  destruct d as [l n max]. intros [Hn Hsz]. cbn [dynamic dynamic_size max_dynamic_size] in *. subst n.
  unfold insert_dynamic. cbn [dynamic].
  destruct (evict_for_spec (length l) (entry_size h) max l) as (k & Hk & -> & Hfit & _); [done|].
  cbn [dynamic dynamic_size max_dynamic_size]. destruct (Z.leb_spec (entry_size h) max) as [Hle|Hgt].
  - split; cbn [dynamic dynamic_size max_dynamic_size table_size foldr]; fold (table_size (take k l)); [lia|].
    destruct Hfit as [?| ->]; [lia | simpl; lia].
  - split; [done|]. cbn [dynamic max_dynamic_size]. destruct Hfit as [?| ->]; [pose proof (entry_size_pos h); lia|].
    pose proof (table_size_entries l). pose proof (zlen_nonneg l). simpl. lia.
Qed.

(** Inserting keeps the newest entries. A new entry is put in front of
    the longest run of newest entries that still fits the limit with it; an
    entry larger than the limit empties the table. *)
Theorem hpack_insert_keeps_newest (h : Header) (d : Decoder) :
  decoder_ok d ->
  if entry_size h <=? max_dynamic_size d then
    exists k, dynamic (insert_dynamic h d) = h :: take k (dynamic d)
      /\ table_size (h :: take k (dynamic d)) <= max_dynamic_size d
      /\ forall j, (k < j <= length (dynamic d))%nat -> max_dynamic_size d < table_size (h :: take j (dynamic d))
  else dynamic (insert_dynamic h d) = [].
Proof.
  destruct d as [l n max]. intros [Hn Hsz]. cbn [dynamic dynamic_size max_dynamic_size] in *. subst n.
  unfold insert_dynamic. cbn [dynamic].
  destruct (evict_for_spec (length l) (entry_size h) max l) as (k & Hk & -> & Hfit & Hmax); [done|].
  cbn [dynamic dynamic_size max_dynamic_size]. destruct (Z.leb_spec (entry_size h) max) as [Hle|Hgt].
  - exists k. cbn [dynamic table_size foldr]. fold (table_size (take k l)). split_and!; [done | |].
    + destruct Hfit as [?| ->]; [lia | simpl; lia].
    + intros j Hj. specialize (Hmax j Hj). fold (table_size (take j l)). lia.
  - cbn [dynamic]. destruct Hfit as [Hfit| ->]; [|done].
    pose proof (table_size_entries (take k l)). pose proof (zlen_nonneg (take k l)). lia.
Qed.

(** ** Every block *)

Lemma continuation_range (rest rest' : bytes) (acc m v : Z) :
  0 <= acc -> 0 <= m -> decode_continuation acc m rest = Ok (v, rest') -> 0 <= v < 2 ^ 64 /\ (length rest' < length rest)%nat.
Proof.
  revert acc m. induction rest as [|b rest IH]; intros acc m Hacc Hm; [done|]. cbn [decode_continuation].
  destruct (m <? 63); [|done]. cbn [negb]. unfold checked_add.
  pose proof (Z.mod_pos_bound (Z.shiftl (Z.land (Z_of_byte b) 127) m) (2 ^ 64) ltac:(lia)).
  destruct (Z.ltb_spec (acc + Z.shiftl (Z.land (Z_of_byte b) 127) m mod 2 ^ 64) (2 ^ 64)); [|done].
  destruct (_ =? 0).
  - intros [= <- <-]. simpl. lia.
  - intros H'. apply IH in H'; [|lia..]. simpl. lia.
Qed.

Lemma decode_integer_range (first : byte) (n v : Z) (rest rest' : bytes) :
  0 <= n <= 8 -> decode_integer first n rest = Ok (v, rest') -> 0 <= v < 2 ^ 64 /\ (length rest' <= length rest)%nat.
Proof.
  intros Hn. unfold decode_integer.
  assert (0 <= Z.shiftl 1 n - 1 < 256) as Hm.
  { rewrite Z.shiftl_1_l. pose proof (Z.pow_pos_nonneg 2 n ltac:(lia) ltac:(lia)).
    pose proof (Z.pow_le_mono_r 2 n 8 ltac:(lia) ltac:(lia)). change (2 ^ 8) with 256 in *. lia. }
  assert (0 <= Z.land (Z_of_byte first) (Z.shiftl 1 n - 1)) by (apply Z.land_nonneg; lia).
  destruct (Z.ltb_spec (Z.land (Z_of_byte first) (Z.shiftl 1 n - 1)) (Z.shiftl 1 n - 1)).
  - intros [= <- <-]. lia.
  - intros H1. apply continuation_range in H1; lia.
Qed.

Lemma literal_string_shorter (what s : string) (block rest : bytes) :
  literal_string what block = Ok (s, rest) -> (length rest <= length block)%nat.
Proof.
  destruct block as [|first block]; [done|]. cbn [literal_string].
  unfold decode_string. destruct (decode_integer first 7 block) as [[len r1]|] eqn:E; [|done].
  apply decode_integer_range in E as [_ Hl]; [|lia]. destruct (zlen r1 <? len); [done|].
  intros H. assert (rest = drop (Z.to_nat len) r1) as ->.
  { destruct (negb _); [destruct (huffman_decode _); [|done]|]; destruct (ok_or _ _); by simplify_eq. }
  rewrite length_drop. simpl. lia.
Qed.

Lemma decode_literal_shorter (first : byte) (n : Z) (h : Header) (block rest : bytes) (d : Decoder) :
  0 <= n <= 8 -> decode_literal first n block d = Ok (h, rest) -> (length rest <= length block)%nat.
Proof.
  intros Hn. unfold decode_literal. destruct (decode_integer first n block) as [[idx r1]|] eqn:E; [|done].
  apply decode_integer_range in E as [_ H1]; [|done].
  destruct (if idx =? 0 then _ else _) as [[name r2]|] eqn:E2; [|done].
  destruct (literal_string _ r2) as [[value r3]|] eqn:E3; [|done]. intros [= _ <-].
  apply literal_string_shorter in E3. destruct (idx =? 0).
  - apply literal_string_shorter in E2. lia.
  - destruct (resolve_name idx d); [|done]. injection E2 as _ <-. lia.
Qed.

Lemma decode_field_ok (first : byte) (block : bytes) (d d' : Decoder) (r : Result (list Header * bytes)) :
  decode_field first block d = (d', r) ->
  (decoder_ok d -> decoder_ok d')
  /\ match r with Ok (_, rest) => (length rest <= length block)%nat | Err _ => True end.
Proof.
  unfold decode_field. destruct (negb _); [|destruct (negb _); [|destruct (negb _)]].
  - intros [= <- <-]. split; [done|]. destruct (decode_integer first 7 block) as [[i rest]|] eqn:E; [|done].
    destruct (resolve_index i d); [|done]. by apply decode_integer_range in E as [_ ?].
  - destruct (decode_literal first 6 block d) as [[h rest]|] eqn:E; intros [= <- <-]; [|done].
    split; [apply insert_dynamic_ok|]. by apply decode_literal_shorter in E.
  - destruct (decode_integer first 5 block) as [[v rest]|] eqn:E; intros [= <- <-]; [|done].
    apply decode_integer_range in E as [Hv ?]; [|lia]. split; [apply set_max_size_ok; lia | done].
  - intros [= <- <-]. split; [done|]. destruct (decode_literal first 4 block d) as [[h rest]|] eqn:E; [|done].
    by apply decode_literal_shorter in E.
Qed.

Lemma decode_loop_ok (fuel : nat) (block : bytes) (hs : list Header) (d : Decoder) :
  (length block < fuel)%nat ->
  exists d' r, decode_loop fuel block hs d = Some (d', r) /\ (decoder_ok d -> decoder_ok d').
Proof.
  revert block hs d. induction fuel as [|fuel IH]; intros block hs d Hf; [lia|].
  destruct block as [|first block]; cbn [decode_loop]; [by eauto|].
  destruct (decode_field first block d) as [d1 r] eqn:E. apply decode_field_ok in E as [Hok Hlen].
  destruct r as [[hs1 rest]|e]; [|by eauto].
  destruct (IH rest (hs ++ hs1) d1) as (d' & r & Heq & Hd'); [simpl in Hf; lia|]. eauto 10.
Qed.

(** Decoding terminates on every block, whatever a peer sends: the loop
    over the fields, given a turn per byte, always reaches a result. *)
Theorem hpack_decode_terminates (block : bytes) (d : Decoder) : is_Some (decode block d).
Proof. destruct (decode_loop_ok (S (length block)) block [] d) as (d' & r & Heq & _); [lia|]. by exists (d', r). Qed.

(** The decoder of a connection after the header blocks of its requests,
    whether they were accepted or not. *)
Fixpoint connection (blocks : list bytes) (d : Decoder) : option Decoder :=
  match blocks with
  | [] => Some d
  | block :: blocks' =>
      match decode block d with Some (d, _) => connection blocks' d | None => None end
  end.

Lemma connection_ok (blocks : list bytes) (d : Decoder) :
  decoder_ok d -> exists d', connection blocks d = Some d' /\ decoder_ok d'.
Proof.
  revert d. induction blocks as [|block blocks IH]; intros d Hd; [by eauto|]. cbn [connection].
  destruct (decode_loop_ok (S (length block)) block [] d) as (d1 & r & Heq & Hok); [lia|].
  unfold decode. rewrite Heq. auto.
Qed.

(** The dynamic table stays within its limit. Whatever blocks a peer
    sends, also ones that are refused halfway, the recorded size is the size of
    the entries, it is within the limit in force, and so is the number of
    entries at 32 bytes each. *)
Theorem hpack_table_within_limit (blocks : list bytes) :
  exists d, connection blocks decoder_new = Some d
    /\ dynamic_size d = table_size (dynamic d) /\ dynamic_size d <= max_dynamic_size d
    /\ 32 * zlen (dynamic d) <= max_dynamic_size d.
Proof.
  destruct (connection_ok blocks decoder_new) as (d & Hd & Hsz & Hle); [done|].
  exists d. pose proof (table_size_entries (dynamic d)). split_and!; [done | done | lia | lia].
Qed.

(** The limit is the peer's to choose. A size update of any value up to
    [2^63] is taken as the new limit, also above the default of 4096 that the
    endpoint's SETTINGS frame leaves in force; section 6.3 of the RFC has the
    decoder refuse it. *)
Theorem hpack_size_update_is_not_capped (new_max : Z) (d : Decoder) :
  0 <= new_max < 2 ^ 63 -> decoder_ok d ->
  exists d', decode (encode_integer new_max 5 32) d = Some (d', Ok []) /\ max_dynamic_size d' = new_max.
Proof.
  intros Hn [Hd1 Hd2]. destruct (integer_roundtrip new_max 5 1 []) as (b & bs & Henc & Hb & Hdec);
    [unfold is_u64; lia | lia | lia | done |].
  change (1 * 2 ^ 5) with 32 in *. rewrite Henc, app_nil_r in *. unfold decode. cbn [length decode_loop].
  unfold decode_field. change (2 ^ 5) with 32 in Hb.
  assert (Z_of_byte b < 2 ^ 6) as Hlt by (change (2 ^ 6) with 64; lia).
  rewrite (flag_clear b 7 6 ltac:(lia) Hlt : (Z.land _ 128 =? 0) = true),
    (flag_clear b 6 6 ltac:(lia) Hlt : (Z.land _ 64 =? 0) = true). cbn [negb].
  assert (negb (Z.land (Z_of_byte b) 32 =? 0) = true) as ->.
  { change 32 with (2 ^ 5) at 1. rewrite land_pow2_test by lia. apply Z.testbit_true; [lia|].
    change (2 ^ 5) with 32. replace (Z_of_byte b / 32) with 1; [done|]. apply Z.div_unique with (Z_of_byte b - 32); lia. }
  rewrite Hdec, (proj2 (Z.ltb_lt new_max _)) by lia.
  eexists. split; [by destruct (length bs)|].
  destruct d as [l n max]. cbn [dynamic dynamic_size max_dynamic_size] in *. subst n.
  unfold set_max_size. rewrite shrink_evict. cbn [dynamic dynamic_size].
  by destruct (evict_for_spec (length l) 0 new_max l) as (k & _ & -> & _); [done|].
Qed.

(** Integers are read back up to the width the decoder accepts. For
    every prefix length and flags, the integer after the flags decodes to the
    [u64] that was encoded when it takes at most nine continuation bytes, and
    is refused as an overflow otherwise; nothing behind it is consumed. *)
Theorem hpack_integer_roundtrip (value n f : Z) (rest : bytes) :
  is_u64 value -> 1 <= n <= 8 -> 0 <= f -> f * 2 ^ n + 2 ^ n <= 256 ->
  exists b bs, encode_integer value n (f * 2 ^ n) = b :: bs
    /\ decode_integer b n (bs ++ rest) =
         if value <? 2 ^ 63 + 2 ^ n - 1 then Ok (value, rest) else Err "hpack integer: overflow"%string.
Proof.
  intros Hv Hn Hf H256. destruct (integer_roundtrip value n f rest Hv Hn Hf H256) as (b & bs & H1 & _ & H2). eauto.
Qed.

(** ** Concrete runs *)

(** Section C.4.1 of the RFC. *)
Example hpack_rfc_string :
  huffman_encode (as_bytes "www.example.com") =
    [Byte.xf1; Byte.xe3; Byte.xc2; Byte.xe5; Byte.xf2; Byte.x3a; Byte.x6b; Byte.xa0; Byte.xab; Byte.x90; Byte.xf4; Byte.xff].
Proof. vm_compute. reflexivity. Qed.

Definition grpc_headers : list Header :=
  [(":status", "200"); ("content-type", "application/grpc"); ("grpc-status", "0")]%string.

Lemma hpack_encode_decode_witness :
  encode grpc_headers = [Byte.x88; Byte.x0f; Byte.x10; Byte.x10] ++ as_bytes "application/grpc"
    ++ [Byte.x00; Byte.x0b] ++ as_bytes "grpc-status" ++ [Byte.x01; Byte.x30]
  /\ decode (encode grpc_headers) decoder_new = Some (decoder_new, Ok grpc_headers).
Proof.
  split; [by vm_compute|]. apply (hpack_encode_decode grpc_headers decoder_new).
  repeat (apply Forall_cons; split; [split; split; vm_compute; reflexivity|]). by apply Forall_nil.
Defined.

Definition two_entries : Decoder := mkDecoder [("a", "1"); ("b", "2")]%string 68 100.

Lemma hpack_insert_keeps_newest_witness :
  exists k, dynamic (insert_dynamic ("c", "3")%string two_entries) = ("c", "3")%string :: take k (dynamic two_entries)
    /\ table_size (("c", "3")%string :: take k (dynamic two_entries)) <= 100 /\ (k <= 1)%nat.
Proof.
  destruct (hpack_insert_keeps_newest ("c", "3")%string two_entries ltac:(by vm_compute)) as (k & H1 & H2 & H3).
  exists k. split_and!; [exact H1 | exact H2 |].
  apply (f_equal length) in H1. change (length (dynamic (insert_dynamic _ two_entries))) with 2%nat in H1.
  cbn [length] in H1. rewrite length_take in H1. change (length (dynamic two_entries)) with 2%nat in H1. lia.
Defined.

Lemma hpack_size_update_is_not_capped_witness :
  exists d', decode (encode_integer (2 ^ 40) 5 32) decoder_new = Some (d', Ok []) /\ max_dynamic_size d' = 2 ^ 40.
Proof. apply (hpack_size_update_is_not_capped (2 ^ 40) decoder_new); by vm_compute. Defined.

Lemma hpack_integer_roundtrip_witness :
  exists b bs, encode_integer 1337 5 (0 * 2 ^ 5) = b :: bs
    /\ decode_integer b 5 (bs ++ [Byte.x41]) = Ok (1337, [Byte.x41]).
Proof.
  destruct (hpack_integer_roundtrip 1337 5 0 [Byte.x41]) as (b & bs & H1 & H2); [by vm_compute..|].
  exists b, bs. split; [exact H1 | exact H2].
Defined.
