(* ===== verification/Rows.v ===== *)
(** Rows as the upper layers see them.

    - [encode_cells] and [decode_cell] ([synapse/mod.rs]): the cells of a row
      in one byte string, with a length of -1 for a null;
    - [RowStore]: the four row operations of the database that catalogues are
      written with ([storage/database/storage_engine.rs], [write], [delete],
      [read] and [scan] outside transactions). [database_rows] is the database
      of [Txn];
    - [RowLaws]: what the catalogues rely on: a table is a map in key order, an
      operation that succeeds has its effect, and one that fails has it or not
      (a failed flush after the row is in makes it fail). [mem_rows] is a store
      that meets the laws. *)

From Stdlib Require Import Strings.Byte Strings.String ZArith Lia.
From stdpp Require Import base list gmap strings.
From S2P Require Import Prelude OrdMap Utf8 SSTable ObjectStore Manifest Lsm Txn.

Open Scope Z_scope.

(** ** Cells *)

Definition encode_cell (cell : option bytes) : bytes :=
  match cell with
  | Some data => u32_to_be (zlen data mod 2 ^ 32) ++ data
  | None => u32_to_be (2 ^ 32 - 1)
  end.

Definition encode_cells (cells : list (option bytes)) : bytes := concat (map encode_cell cells).

Definition i32_from_be (bs : bytes) : Z :=
  let z := from_be bs in if z <? 2 ^ 31 then z else z - 2 ^ 32.

(** Each turn takes four bytes at least, so the length bounds the loop; [idx]
    counts down where the code counts [i] up. *)
Fixpoint decode_cell_loop (fuel : nat) (value : bytes) (idx : nat) : option bytes :=
  match fuel with
  | O => None
  | S fuel' =>
      if zlen value <? 4 then None
      else
        let len := i32_from_be (take 4 value) in
        let rest := drop 4 value in
        if len <? 0 then
          match idx with O => None | S idx' => decode_cell_loop fuel' rest idx' end
        else if zlen rest <? len then None
        else
          match idx with
          | O => Some (take (Z.to_nat len) rest)
          | S idx' => decode_cell_loop fuel' (drop (Z.to_nat len) rest) idx'
          end
  end.

Definition decode_cell (value : bytes) (idx : nat) : option bytes :=
  decode_cell_loop (S (length value)) value idx.

Definition text_cell (s : string) : option bytes := Some (as_bytes s).

(** [cell_str] of the catalogue modules. *)
Definition cell_str (what : string) (value : bytes) (idx : nat) : Result string :=
  match decode_cell value idx with
  | Some b => ok_or (from_utf8 b) what
  | None => Err what
  end.

(** A cell whose length is not taken for a null. *)
Definition cell_fits (cell : option bytes) : Prop :=
  match cell with Some data => zlen data < 2 ^ 31 | None => True end.

Lemma decode_cell_loop_encode (cells : list (option bytes)) (fuel idx : nat) :
  Forall cell_fits cells -> (length (encode_cells cells) < fuel)%nat ->
  decode_cell_loop fuel (encode_cells cells) idx = default None (cells !! idx).
Proof.
  intros Hc. revert fuel idx. induction Hc as [|cell cells Hcell _ IH]; intros [|fuel] idx Hf; try lia; [done|].
  change (encode_cells (cell :: cells)) with (encode_cell cell ++ encode_cells cells) in *.
  rewrite length_app in Hf. cbn [decode_cell_loop]. destruct cell as [data|]; cbn [encode_cell].
  - cbn [encode_cell cell_fits] in Hf, Hcell. pose proof (zlen_nonneg data) as Hd. rewrite length_app in Hf.
    rewrite <- app_assoc, !zlen_app, zlen_u32_to_be. pose proof (zlen_nonneg (encode_cells cells)).
    rewrite (proj2 (Z.ltb_ge _ 4)) by lia.
    rewrite (take_app_length' _ _ 4), (drop_app_length' _ _ 4) by (unfold u32_to_be; by rewrite length_to_be).
    rewrite Z.mod_small by lia. unfold i32_from_be. rewrite from_u32_to_be by (unfold is_u32; lia).
    rewrite (proj2 (Z.ltb_lt (zlen data) (2 ^ 31))) by lia. rewrite (proj2 (Z.ltb_ge (zlen data) 0)) by lia.
    rewrite zlen_app, (proj2 (Z.ltb_ge _ (zlen data))) by lia.
    destruct idx as [|idx]; [by rewrite take_zlen_app|]. rewrite drop_zlen_app. apply IH.
    unfold u32_to_be in Hf. rewrite length_to_be in Hf. lia.
  - rewrite zlen_app, zlen_u32_to_be. pose proof (zlen_nonneg (encode_cells cells)).
    rewrite (proj2 (Z.ltb_ge _ 4)) by lia.
    rewrite (take_app_length' _ _ 4), (drop_app_length' _ _ 4) by done.
    change (i32_from_be (u32_to_be (2 ^ 32 - 1)) <? 0) with true. cbv iota.
    destruct idx as [|idx]; [done|]. apply IH. cbn [encode_cell] in Hf.
    change (length (u32_to_be (2 ^ 32 - 1))) with 4%nat in Hf. lia.
Qed.

Lemma decode_encode_cells (cells : list (option bytes)) (idx : nat) :
  Forall cell_fits cells -> decode_cell (encode_cells cells) idx = default None (cells !! idx).
Proof. intros Hc. by apply decode_cell_loop_encode; [|lia]. Qed.

(** A text cell that is there reads back. *)
Lemma cell_str_text (what s : string) (cells : list (option bytes)) (idx : nat) :
  Forall cell_fits cells -> cells !! idx = Some (text_cell s) -> is_string s ->
  cell_str what (encode_cells cells) idx = Ok s.
Proof.
  intros Hc Hi Hs. unfold cell_str. rewrite decode_encode_cells, Hi by done. simpl. by rewrite from_utf8_as_bytes.
Qed.

(** ** The row operations *)

Class RowStore (S : Type) := {
  rs_write : string -> bytes -> bytes -> S -> S * Result unit;
  rs_delete : string -> bytes -> S -> S * Result unit;
  rs_read : string -> bytes -> S -> Result (option bytes);
  rs_scan : string -> S -> Result (list KeyValue);
}.

#[export] Instance database_rows {sk : SkipMap} {bl : Bloom} {S : Type} {st : ObjectStore S}
    {bc : Bincode Manifest} (env : Env) {I : Type}
    (index : string -> bytes -> bytes -> I -> I * Result unit) : RowStore (@Database sk bl S I) := {|
  rs_write := db_write env index;
  rs_delete := db_delete env;
  rs_read := db_read;
  rs_scan := db_scan;
|}.

Abbreviation rows := (list (bytes * bytes)).

Definition kv_of (row : bytes * bytes) : KeyValue := mkKeyValue (fst row) (snd row).

(** What a write may leave: its effect when it succeeds, its effect or nothing
    when it fails. *)
Definition outcome (r : Result unit) (before after done : rows) : Prop :=
  match r with Ok _ => after = done | Err _ => after = done \/ after = before end.

Class RowLaws (S : Type) {rs : RowStore S} := {
  rs_wf : S -> Prop;
  rs_rows : S -> string -> rows;
  rs_sorted (s : S) (t : string) : rs_wf s -> om_sorted (rs_rows s t);
  rs_read_law (s : S) (t : string) (k : bytes) v :
    rs_wf s -> rs_read t k s = Ok v -> v = om_get k (rs_rows s t);
  rs_scan_law (s : S) (t : string) kvs :
    rs_wf s -> rs_scan t s = Ok kvs -> kvs = map kv_of (rs_rows s t);
  rs_write_law (s s' : S) (t : string) (k v : bytes) r :
    rs_wf s -> rs_write t k v s = (s', r) ->
    rs_wf s' /\ outcome r (rs_rows s t) (rs_rows s' t) (om_insert k v (rs_rows s t))
    /\ forall t', t' <> t -> rs_rows s' t' = rs_rows s t';
  rs_delete_law (s s' : S) (t : string) (k : bytes) r :
    rs_wf s -> rs_delete t k s = (s', r) ->
    rs_wf s' /\ outcome r (rs_rows s t) (rs_rows s' t) (om_remove k (rs_rows s t))
    /\ forall t', t' <> t -> rs_rows s' t' = rs_rows s t';
}.

(** ** A store in memory, whose operations fail as a list of faults says *)

Record MemRows := mkMemRows { mr_tables : gmap string rows; mr_faults : list bool; mr_down : bool }.

Definition mr_get (t : string) (m : MemRows) : rows := default [] (mr_tables m !! t).

(** A write that fails leaves the row in when the fault says so. *)
Definition mr_update (t : string) (r : rows) (m : MemRows) : MemRows * Result unit :=
  match mr_faults m with
  | [] => (mkMemRows (<[t := r]> (mr_tables m)) [] (mr_down m), Ok tt)
  | applied :: faults =>
      (mkMemRows (if applied then <[t := r]> (mr_tables m) else mr_tables m) faults (mr_down m), Err "fault"%string)
  end.

#[export] Instance mem_rows : RowStore MemRows := {|
  rs_write t k v m := mr_update t (om_insert k v (mr_get t m)) m;
  rs_delete t k m := mr_update t (om_remove k (mr_get t m)) m;
  rs_read t k m := if mr_down m then Err "down"%string else Ok (om_get k (mr_get t m));
  rs_scan t m := if mr_down m then Err "down"%string else Ok (map kv_of (mr_get t m));
|}.

(** The tables of a store that is only ever written through its operations. *)
Definition mem_wf (m : MemRows) : Prop := forall t r, mr_tables m !! t = Some r -> om_sorted r.

Lemma mr_get_sorted (m : MemRows) (t : string) : mem_wf m -> om_sorted (mr_get t m).
Proof. intros H. unfold mr_get. destruct (mr_tables m !! t) as [r|] eqn:E; [by eapply H | constructor]. Qed.

Lemma mr_update_law (m m' : MemRows) (t : string) (r : rows) res :
  mem_wf m -> om_sorted r -> mr_update t r m = (m', res) ->
  mem_wf m' /\ outcome res (mr_get t m) (mr_get t m') r /\ forall t', t' <> t -> mr_get t' m' = mr_get t' m.
Proof.
  intros Hwf Hr. assert (forall t' r', <[t := r]> (mr_tables m) !! t' = Some r' -> om_sorted r') as Hins.
  { intros t' r' H. apply lookup_insert_Some in H as [[_ <-]|[_ H]]; [done | by eapply Hwf]. }
  unfold mr_update, mr_get. destruct (mr_faults m) as [|[] faults]; intros [= <- <-]; simpl.
  - split_and!; [done | by rewrite lookup_insert_eq | intros t' Ht; by rewrite lookup_insert_ne by done].
  - split_and!; [done | left; by rewrite lookup_insert_eq | intros t' Ht; by rewrite lookup_insert_ne by done].
  - split_and!; [done | by right | done].
Qed.

#[export] Program Instance mem_rows_laws : RowLaws MemRows := {| rs_wf := mem_wf; rs_rows m t := mr_get t m |}.
Next Obligation. intros. by apply mr_get_sorted. Qed.
Next Obligation. intros m t k v _. simpl. destruct (mr_down m); by intros [=]. Qed.
Next Obligation. intros m t kvs _. simpl. destruct (mr_down m); by intros [=]. Qed.
Next Obligation. intros m m' t k v r Hwf H. apply mr_update_law in H; [done | done | by apply om_insert_sorted, mr_get_sorted]. Qed.
Next Obligation. intros m m' t k r Hwf H. apply mr_update_law in H; [done | done | by apply om_remove_sorted, mr_get_sorted]. Qed.

(** No tables, no faults to come. *)
Definition mem_empty : MemRows := mkMemRows ∅ [] false.

Lemma mem_empty_wf : mem_wf mem_empty.
Proof. intros t r H. unfold mem_empty in H. cbn [mr_tables] in H. by rewrite lookup_empty in H. Qed.

Lemma mem_empty_rs_wf : rs_wf mem_empty.
Proof. exact mem_empty_wf. Qed.
