(* ===== verification/Roles.v ===== *)
(** The catalogues of role-based access control: role memberships
    ([wire/role_members.rs]) and object privileges ([wire/privileges.rs]),
    kept as rows of two system tables.

    The stores only hold a handle of the database, so their methods are
    functions on it; the tables themselves are created when a node starts.
    [all_memberships] has fuel: every turn of its loop takes a role from the
    frontier, and a role enters the frontier once, as the group of some row, so
    one more than the number of rows is enough.

    The theorems: the walk computes exactly the transitive closure, whatever
    the graph; grants keep the graph free of cycles; and a privilege is held
    exactly when it, or all privileges, were granted to the role or to a role
    it belongs to. *)

From Stdlib Require Import Strings.Byte Strings.String ZArith Lia.
From stdpp Require Import base list gmap sets strings relations.
From S2P Require Import Prelude OrdMap Utf8 Txn Rows.

Open Scope Z_scope.

Definition MEMBERS : string := "_tpt_role_members".
Definition PRIVILEGES : string := "_tpt_privileges".

(** The names of a key with a zero byte between them. *)
Definition join_nul (names : list string) : bytes :=
  match names with
  | [] => []
  | n :: ns => as_bytes n ++ concat (map (fun m => Byte.x00 :: as_bytes m) ns)
  end.

(** ** Memberships *)

Definition member_key (member group : string) : bytes := join_nul [member; group].

Definition member_row (member group : string) : bytes :=
  encode_cells [text_cell (from_utf8_lossy (member_key member group)); text_cell member; text_cell group].

Definition member_cell (value : bytes) (idx : nat) : Result string :=
  cell_str "missing/invalid _tpt_role_members cell" value idx.

Section Members.
  Context {S : Type} {rs : RowStore S}.

(** The groups of the rows of a role. *)
Fixpoint groups_of (role : string) (kvs : list KeyValue) : Result (list string) :=
  match kvs with
  | [] => Ok []
  | kv :: kvs' =>
      let? member := member_cell (kv_value kv) 1 in
      if String.eqb member role then
        let? group := member_cell (kv_value kv) 2 in
        let? groups := groups_of role kvs' in Ok (group :: groups)
      else groups_of role kvs'
  end.

Definition direct_memberships (role : string) (s : S) : Result (list string) :=
  let? kvs := rs_scan MEMBERS s in groups_of role kvs.

(** The state of the walk; the frontier's last element, which is taken next, is
    the head of the list. *)
Record Walk := mkWalk { wk_seen : gset string; wk_result : list string; wk_frontier : list string }.

Definition visit (w : Walk) (group : string) : Walk :=
  if decide (group ∈ wk_seen w) then w
  else mkWalk ({[ group ]} ∪ wk_seen w) (wk_result w ++ [group]) (group :: wk_frontier w).

Fixpoint walk (fuel : nat) (w : Walk) (s : S) : Result (list string) :=
  match wk_frontier w with
  | [] => Ok (wk_result w)
  | current :: frontier =>
      match fuel with
      | O => Err "out of fuel"%string
      | Datatypes.S fuel' =>
          let? groups := direct_memberships current s in
          walk fuel' (foldl visit (mkWalk (wk_seen w) (wk_result w) frontier) groups) s
      end
  end.

Definition member_rows (s : S) : nat :=
  match rs_scan MEMBERS s with Ok kvs => length kvs | Err _ => O end.

Definition all_memberships (role : string) (s : S) : Result (list string) :=
  walk (Datatypes.S (member_rows s)) (mkWalk ∅ [] [role]) s.

Definition contains (names : list string) (name : string) : bool := existsb (String.eqb name) names.

Definition cycle_error : string := "granting this membership would create a role-membership cycle".

Definition grant_membership (member group : string) (s : S) : S * Result unit :=
  if String.eqb member group then (s, Err "a role cannot be a member of itself"%string)
  else
    match all_memberships member s with
    | Err e => (s, Err e)
    | Ok of_member =>
        if contains of_member group then (s, Err cycle_error)
        else
          match all_memberships group s with
          | Err e => (s, Err e)
          | Ok of_group =>
              if contains of_group member then (s, Err cycle_error)
              else rs_write MEMBERS (member_key member group) (member_row member group) s
          end
    end.

Definition revoke_membership (member group : string) (s : S) : S * Result unit :=
  rs_delete MEMBERS (member_key member group) s.

(** Delete the rows in turn; the first failure stops. *)
Fixpoint delete_keys (table : string) (keys : list bytes) (s : S) : S * Result unit :=
  match keys with
  | [] => (s, Ok tt)
  | key :: keys' =>
      match rs_delete table key s with
      | (s, Ok _) => delete_keys table keys' s
      | (s, Err e) => (s, Err e)
      end
  end.

Fixpoint rows_touching (role : string) (kvs : list KeyValue) : Result (list bytes) :=
  match kvs with
  | [] => Ok []
  | kv :: kvs' =>
      let? member := member_cell (kv_value kv) 1 in
      let? group := member_cell (kv_value kv) 2 in
      let? keys := rows_touching role kvs' in
      Ok (if String.eqb member role || String.eqb group role then kv_key kv :: keys else keys)
  end.

Definition revoke_all (role : string) (s : S) : S * Result unit :=
  match (let? kvs := rs_scan MEMBERS s in rows_touching role kvs) with
  | Err e => (s, Err e)
  | Ok keys => delete_keys MEMBERS keys s
  end.

End Members.

(** ** Privileges *)

Inductive PrivilegeRepr := PSelect | PInsert | PUpdate | PDelete | PCreate | PDrop | PUsage | PAll.

#[export] Instance PrivilegeRepr_eq_dec : EqDecision PrivilegeRepr.
Proof. solve_decision. Defined.

Definition as_str (p : PrivilegeRepr) : string :=
  match p with
  | PSelect => "select" | PInsert => "insert" | PUpdate => "update" | PDelete => "delete"
  | PCreate => "create" | PDrop => "drop" | PUsage => "usage" | PAll => "all"
  end.

Record GrantObjectRepr := mkGrantObject { go_kind : string; go_name : string }.

Definition object_table (name : string) : GrantObjectRepr := mkGrantObject "TABLE" name.
Definition object_database : GrantObjectRepr := mkGrantObject "DATABASE" "".
Definition object_topic (name : string) : GrantObjectRepr := mkGrantObject "TOPIC" name.

Definition label (o : GrantObjectRepr) : string :=
  if String.eqb (go_kind o) "DATABASE" then "DATABASE"
  else if String.eqb (go_kind o) "TOPIC" then "TOPIC " ++ go_name o
  else "TABLE " ++ go_name o.

Definition privilege_key (grantee : string) (p : PrivilegeRepr) (o : GrantObjectRepr) : bytes :=
  join_nul [grantee; as_str p; go_kind o; go_name o].

Definition privilege_row (grantee : string) (p : PrivilegeRepr) (o : GrantObjectRepr) : bytes :=
  encode_cells [text_cell (from_utf8_lossy (privilege_key grantee p o)); text_cell grantee;
                text_cell (as_str p); text_cell (go_kind o); text_cell (go_name o)].

Definition privilege_cell (value : bytes) (idx : nat) : Result string :=
  cell_str "missing/invalid _tpt_privileges cell" value idx.

Section Privileges.
  Context {S : Type} {rs : RowStore S}.

Definition grant (grantee : string) (p : PrivilegeRepr) (o : GrantObjectRepr) (s : S) : S * Result unit :=
  rs_write PRIVILEGES (privilege_key grantee p o) (privilege_row grantee p o) s.

(** [&&] over fallible tests: a cell is only read when the tests before held. *)
Definition is_on (grantee : string) (o : GrantObjectRepr) (value : bytes) : Result bool :=
  let? c1 := privilege_cell value 1 in
  if negb (String.eqb c1 grantee) then Ok false
  else
    let? c3 := privilege_cell value 3 in
    if negb (String.eqb c3 (go_kind o)) then Ok false
    else let? c4 := privilege_cell value 4 in Ok (String.eqb c4 (go_name o)).

Fixpoint rows_on (grantee : string) (o : GrantObjectRepr) (kvs : list KeyValue) : Result (list bytes) :=
  match kvs with
  | [] => Ok []
  | kv :: kvs' =>
      let? on := is_on grantee o (kv_value kv) in
      let? keys := rows_on grantee o kvs' in
      Ok (if on then kv_key kv :: keys else keys)
  end.

Definition revoke (grantee : string) (p : PrivilegeRepr) (o : GrantObjectRepr) (s : S) : S * Result unit :=
  if decide (p = PAll) then
    match (let? kvs := rs_scan PRIVILEGES s in rows_on grantee o kvs) with
    | Err e => (s, Err e)
    | Ok keys => delete_keys PRIVILEGES keys s
    end
  else rs_delete PRIVILEGES (privilege_key grantee p o) s.

(** Whether one of the rows grants the privilege to the candidate. *)
Fixpoint granted_in (cand : string) (p : PrivilegeRepr) (o : GrantObjectRepr) (kvs : list KeyValue) : Result bool :=
  match kvs with
  | [] => Ok false
  | kv :: kvs' =>
      let? on := is_on cand o (kv_value kv) in
      if on then
        let? stored := privilege_cell (kv_value kv) 2 in
        if String.eqb stored (as_str PAll) || String.eqb stored (as_str p) then Ok true
        else granted_in cand p o kvs'
      else granted_in cand p o kvs'
  end.

Fixpoint granted_to_any (cands : list string) (p : PrivilegeRepr) (o : GrantObjectRepr) (s : S) : Result bool :=
  match cands with
  | [] => Ok false
  | cand :: cands' =>
      let? kvs := rs_scan PRIVILEGES s in
      let? yes := granted_in cand p o kvs in
      if yes then Ok true else granted_to_any cands' p o s
  end.

Definition has_privilege (role : string) (p : PrivilegeRepr) (o : GrantObjectRepr) (s : S) : Result bool :=
  let? memberships := all_memberships role s in
  granted_to_any (role :: memberships) p o s.

End Privileges.

(** ** The membership graph *)

(** An edge from a role to a group: some row says so. *)
Definition edge_in (r : rows) (member group : string) : Prop :=
  exists k v, In (k, v) r /\ member_cell v 1 = Ok member /\ member_cell v 2 = Ok group.

Definition decodable (r : rows) : Prop :=
  forall k v, In (k, v) r -> exists m g, member_cell v 1 = Ok m /\ member_cell v 2 = Ok g.

Lemma groups_of_sound (role : string) (r : rows) (gs : list string) :
  groups_of role (map kv_of r) = Ok gs -> forall g, g ∈ gs <-> edge_in r role g.
Proof.
  revert gs. induction r as [|[k v] r IH]; intros gs; cbn [map groups_of].
  - intros [= <-] g. split; [intros H; by apply not_elem_of_nil in H | by intros (k & v & [] & _)].
  - cbn [kv_of kv_value fst snd]. intros (m & Hm & H)%result_bind_Ok.
    assert (forall g, edge_in ((k, v) :: r) role g <->
              (m = role /\ member_cell v 2 = Ok g) \/ edge_in r role g) as Hcons.
    { intros g. split.
      - intros (k' & v' & [[= <- <-]|Hin] & H1 & H2); [left; split; congruence | right; by exists k', v'].
      - intros [[-> Hg]|(k' & v' & Hin & H1 & H2)]; [exists k, v | exists k', v']; split_and!; try done; simpl; auto. }
    destruct (String.eqb_spec m role) as [->|Hne].
    + apply result_bind_Ok in H as (g0 & Hg0 & H). apply result_bind_Ok in H as (gs' & Hgs' & H). injection H as <-.
      intros g. rewrite Hcons, elem_of_cons, (IH gs' Hgs'), Hg0. split; intros [H|H]; auto; left; [by subst | destruct H; congruence].
    + intros g. rewrite Hcons, (IH gs H). split; [auto | intros [[? _]|?]; done].
Qed.

Lemma groups_of_total (role : string) (r : rows) : decodable r -> exists gs, groups_of role (map kv_of r) = Ok gs.
Proof.
  induction r as [|[k v] r IH]; intros Hd; cbn [map groups_of]; [by eauto|]. cbn [kv_of kv_value fst snd].
  destruct (Hd k v (or_introl eq_refl)) as (m & g & -> & ->).
  destruct IH as [gs ->]; [intros k' v' H; apply (Hd k' v'); by right|]. destruct (String.eqb m role); eauto.
Qed.

(** The state of a walk from [role]: what has been collected is reachable, and
    what has been collected and taken from the frontier has its groups
    collected. *)
Record walk_ok (E : string -> string -> Prop) (role : string) (w : Walk) : Prop := {
  wo_seen : forall x, x ∈ wk_seen w <-> x ∈ wk_result w;
  wo_nodup : NoDup (wk_result w);
  wo_sound : forall x, x ∈ wk_result w -> tc E role x;
  wo_frontier : forall x, x ∈ wk_frontier w -> x = role \/ x ∈ wk_result w;
}.

Definition walk_closed (E : string -> string -> Prop) (role : string) (w : Walk) : Prop :=
  forall x y, (x = role \/ x ∈ wk_result w) -> x ∉ wk_frontier w -> E x y -> y ∈ wk_result w.

Lemma foldl_visit (E : string -> string -> Prop) (role : string) (gs : list string) (w : Walk) :
  (forall g, g ∈ gs -> tc E role g) -> walk_ok E role w ->
  let w' := foldl visit w gs in
  walk_ok E role w' /\ (forall x, x ∈ wk_result w' <-> x ∈ wk_result w \/ x ∈ gs)
  /\ (forall x, x ∈ wk_frontier w -> x ∈ wk_frontier w')
  /\ (forall x, x ∈ wk_result w' -> x ∈ wk_result w \/ x ∈ wk_frontier w').
Proof.
  revert w. induction gs as [|g gs IH]; intros w Hg Hw; cbn [foldl].
  - split_and!; [done | set_solver | done | auto].
  - destruct Hw as [Hs Hn Hso Hf].
    destruct (IH (visit w g)) as (Hw' & Hres & Hfr & Hnew).
    + intros g' Hg'. apply Hg. set_solver.
    + unfold visit. destruct (decide (g ∈ wk_seen w)) as [|Hnin]; [done|].
      split; cbn [wk_seen wk_result wk_frontier].
      * intros x. rewrite elem_of_union, elem_of_singleton, elem_of_app, list_elem_of_singleton, Hs. tauto.
      * apply NoDup_app. split_and!; [done | intros x Hx ->%list_elem_of_singleton; by apply Hnin, Hs | apply NoDup_singleton].
      * intros x [Hx|Hx]%elem_of_app; [auto|]. apply list_elem_of_singleton in Hx as ->. apply Hg. set_solver.
      * intros x [->|Hx]%elem_of_cons; [right; apply elem_of_app; right; set_solver|].
        destruct (Hf x Hx) as [->|?]; [by left | right; apply elem_of_app; by left].
    + cbv zeta in *. split_and!; [done| | |].
      * intros x. rewrite Hres. unfold visit. destruct (decide (g ∈ wk_seen w)) as [Hin|Hnin]; cbn [wk_result].
        -- apply Hs in Hin. set_solver.
        -- set_solver.
      * intros x Hx. apply Hfr. unfold visit. destruct (decide _); [done|]. cbn [wk_frontier]. set_solver.
      * intros x Hx. destruct (Hnew x Hx) as [Hx'|?]; [|by right]. unfold visit in Hx'.
        destruct (decide (g ∈ wk_seen w)) as [|Hnin] eqn:Ed; [by left|]. cbn [wk_result] in Hx'.
        apply elem_of_app in Hx' as [?|Hx']; [by left|]. apply list_elem_of_singleton in Hx' as ->.
        right. apply Hfr. unfold visit. rewrite Ed. cbn [wk_frontier]. set_solver.
Qed.

(** Closed sets contain what is reachable from their members. *)
Lemma closed_tc (E : string -> string -> Prop) (P : string -> Prop) (x y : string) :
  (forall a b, P a -> E a b -> P b) -> (forall b, E x b -> P b) -> tc E x y -> P y.
Proof.
  intros Hc Hx Htc. induction Htc as [x y H|x y z H _ IH]; [auto|]. apply IH. intros b Hb. eapply Hc; eauto.
Qed.

Section WalkProofs.
  Context {S : Type} {rs : RowStore S} (r : rows) (s : S).
  Context (Hscan : rs_scan MEMBERS s = Ok (map kv_of r)).

Lemma direct_sound (role : string) (gs : list string) :
  direct_memberships role s = Ok gs -> forall g, g ∈ gs <-> edge_in r role g.
Proof. unfold direct_memberships. rewrite Hscan. apply groups_of_sound. Qed.

(** One turn of the loop. *)
Lemma walk_turn (role current : string) (frontier gs : list string) (w : Walk) :
  wk_frontier w = current :: frontier -> direct_memberships current s = Ok gs ->
  walk_ok (edge_in r) role w -> walk_closed (edge_in r) role w ->
  let w' := foldl visit (mkWalk (wk_seen w) (wk_result w) frontier) gs in
  walk_ok (edge_in r) role w' /\ walk_closed (edge_in r) role w'.
Proof.
  intros Hf Hgs Hw Hc. pose proof (direct_sound _ _ Hgs) as Hd. destruct Hw as [Hs Hn Hso Hfr].
  assert (current = role \/ current ∈ wk_result w) as Hcur by (apply Hfr; rewrite Hf; set_solver).
  destruct (foldl_visit (edge_in r) role gs (mkWalk (wk_seen w) (wk_result w) frontier)) as (Hw' & Hres & Hkeep & Hnew).
  - intros g Hg%Hd. destruct Hcur as [->|Hin]; [by apply tc_once|]. eapply tc_r; [by apply Hso | done].
  - split; try done. intros x Hx. apply Hfr. rewrite Hf. set_solver.
  - cbv zeta in *. split; [done|]. intros x y Hx Hnf He.
    destruct (decide (x = current)) as [->|Hne]; [apply Hres; right; by apply Hd|].
    apply Hres. left. cbn [wk_result]. apply (Hc x y); [|rewrite Hf; intros [?|?]%elem_of_cons; [done | by apply Hnf, Hkeep]|done].
    destruct Hx as [?|Hx]; [by left|]. right. destruct (Hnew x Hx) as [?|?]; [done | by exfalso].
Qed.

Lemma walk_sound (fuel : nat) (role : string) (w : Walk) (l : list string) :
  walk_ok (edge_in r) role w -> walk_closed (edge_in r) role w -> walk fuel w s = Ok l ->
  NoDup l /\ forall g, g ∈ l <-> tc (edge_in r) role g.
Proof.
  revert w. induction fuel as [|fuel IH]; intros w Hw Hc; cbn [walk]; destruct (wk_frontier w) as [|current frontier] eqn:Hf; try done.
  1, 2: intros [= <-]; split; [apply Hw|]; intros g; split; [apply Hw|];
    apply (closed_tc _ (fun y => y ∈ wk_result w)); intros; (eapply Hc; [| rewrite Hf; by apply not_elem_of_nil | done]); auto.
  intros (gs & Hgs & H)%result_bind_Ok. destruct (walk_turn role current frontier gs w Hf Hgs Hw Hc) as [Hw' Hc'].
  by apply IH in H.
Qed.

(** The groups of the rows, the only roles that ever enter the frontier. *)
Definition groups : gset string :=
  list_to_set (omap (fun row => match member_cell (snd row) 2 with Ok g => Some g | Err _ => None end) r).

Lemma edge_groups (m g : string) : edge_in r m g -> g ∈ groups.
Proof.
  intros (k & v & Hin & _ & H2). unfold groups. apply elem_of_list_to_set, list_elem_of_omap.
  exists (k, v). split; [by apply list_elem_of_In | simpl; by rewrite H2].
Qed.

Lemma size_groups : (size groups <= length r)%nat.
Proof.
  unfold groups. clear Hscan. induction r as [|row r' IH]; [done|]. cbn [omap list_omap length].
  destruct (member_cell (snd row) 2) as [g|]; [|lia]. cbn [list_to_set].
  rewrite size_union_alt, size_singleton. etransitivity; [|apply le_n_S, IH]. simpl. apply le_n_S, subseteq_size. set_solver.
Qed.

(** Every turn of the loop takes a role from the frontier; one that enters it
    leaves the groups that have not been seen. *)
Definition measure (w : Walk) : nat := (size (groups ∖ wk_seen w) + length (wk_frontier w))%nat.

Lemma measure_visit (gs : list string) (w : Walk) :
  (forall g, g ∈ gs -> g ∈ groups) -> measure (foldl visit w gs) = measure w.
Proof.
  revert w. induction gs as [|g gs IH]; intros w Hg; cbn [foldl]; [done|].
  rewrite IH by (intros g' Hg'; apply Hg; by right). unfold visit. destruct (decide (g ∈ wk_seen w)) as [|Hnin]; [done|].
  unfold measure. cbn [wk_seen wk_frontier length].
  assert (g ∈ groups ∖ wk_seen w) as Hin by (apply elem_of_difference; split; [apply Hg; by left | done]).
  replace (groups ∖ ({[g]} ∪ wk_seen w)) with ((groups ∖ wk_seen w) ∖ {[g]}) by set_solver.
  rewrite size_difference, size_singleton by set_solver.
  assert (size (groups ∖ wk_seen w) <> O) by (apply size_non_empty_iff || intros H%size_empty_inv; set_solver). lia.
Qed.

Lemma walk_total (fuel : nat) (w : Walk) :
  decodable r -> (measure w <= fuel)%nat -> exists l, walk fuel w s = Ok l.
Proof.
  intros Hd. revert w. induction fuel as [|fuel IH]; intros w Hm; cbn [walk];
    destruct (wk_frontier w) as [|current frontier] eqn:Hf; try by eauto.
  - unfold measure in Hm. rewrite Hf in Hm. simpl in Hm. lia.
  - destruct (groups_of_total current r Hd) as [gs Hgs].
    assert (direct_memberships current s = Ok gs) as Hdir by (unfold direct_memberships; by rewrite Hscan).
    rewrite Hdir. apply IH. rewrite measure_visit.
    + unfold measure in *. rewrite Hf in Hm. simpl in *. lia.
    + intros g Hg. eapply edge_groups. by apply (direct_sound current gs Hdir).
Qed.

Lemma walk_start_ok (role : string) :
  walk_ok (edge_in r) role (mkWalk ∅ [] [role]) /\ walk_closed (edge_in r) role (mkWalk ∅ [] [role]).
Proof.
  split; [split; cbn [wk_seen wk_result wk_frontier] | intros x y [->|Hx] Hnf _; cbn [wk_result wk_frontier] in *].
  - intros x. set_solver.
  - apply NoDup_nil_2.
  - intros x Hx. by apply not_elem_of_nil in Hx.
  - intros x Hx%list_elem_of_singleton. by left.
  - exfalso. apply Hnf. set_solver.
  - by apply not_elem_of_nil in Hx.
Qed.

Lemma all_memberships_sound (role : string) (l : list string) :
  all_memberships role s = Ok l -> NoDup l /\ forall g, g ∈ l <-> tc (edge_in r) role g.
Proof. destruct (walk_start_ok role) as [Hw Hc]. by apply walk_sound. Qed.

Lemma all_memberships_total (role : string) : decodable r -> exists l, all_memberships role s = Ok l.
Proof.
  intros Hd. apply walk_total; [done|]. unfold measure, member_rows. cbn [wk_seen wk_frontier length].
  rewrite Hscan, length_map, difference_empty_L. pose proof size_groups. lia.
Qed.

End WalkProofs.

(** C11. The memberships of a role are the transitive closure of the rows:
    when the table can be read, the walk ends and lists, without repetition,
    exactly the roles that a chain of memberships leads to, also when the
    rows contain a cycle. *)
Theorem role_memberships_are_the_closure {S : Type} {rs : RowStore S} {laws : RowLaws S}
    (s : S) (kvs : list KeyValue) (role : string) :
  rs_wf s -> rs_scan MEMBERS s = Ok kvs -> decodable (rs_rows s MEMBERS) ->
  exists l, all_memberships role s = Ok l /\ NoDup l
    /\ forall g, g ∈ l <-> tc (edge_in (rs_rows s MEMBERS)) role g.
Proof.
  intros Hwf Hs Hd. pose proof (rs_scan_law s MEMBERS kvs Hwf Hs) as ->.
  destruct (all_memberships_total _ s Hs role Hd) as [l Hl]. exists l.
  split; [done|]. by eapply all_memberships_sound.
Qed.

(** ** Rows as the stores write them *)

(** Names whose rows fit the cell format. *)
Definition name_ok (n : string) : Prop := is_string n /\ zlen (as_bytes n) < 2 ^ 28.

Lemma join_nul_valid (names : list string) : Forall is_string names -> utf8_valid (join_nul names) = true.
Proof.
  intros H. destruct H as [|n ns Hn Hns]; [done|]. apply utf8_valid_app; [done|].
  induction Hns as [|m ms Hm _ IH]; [done|]. cbn [map concat]. apply utf8_valid_app; [|done].
  by apply (utf8_valid_app [Byte.x00]).
Qed.

Lemma zlen_join_nul (names : list string) (b : Z) :
  0 <= b -> Forall (fun n => zlen (as_bytes n) <= b) names -> zlen (join_nul names) <= (b + 1) * zlen names.
Proof.
  intros Hb H. destruct H as [|n ns Hn Hns]; [unfold zlen; simpl; lia|]. unfold join_nul. rewrite zlen_app, zlen_cons.
  assert (zlen (concat (map (fun m => Byte.x00 :: as_bytes m) ns)) <= (b + 1) * zlen ns); [|nia].
  clear Hn. induction Hns as [|m ms Hm _ IH]; cbn [map concat]; [unfold zlen; simpl; lia|]. rewrite zlen_app, !zlen_cons. nia.
Qed.

Lemma key_cell_fits (names : list string) :
  (length names <= 4)%nat -> Forall name_ok names -> cell_fits (text_cell (from_utf8_lossy (join_nul names))).
Proof.
  intros H4 H. unfold cell_fits, text_cell, from_utf8_lossy. rewrite utf8_lossy_valid.
  - unfold as_bytes. rewrite list_byte_of_string_of_list_byte.
    pose proof (zlen_join_nul names (2 ^ 28 - 1) ltac:(lia)) as Hz. unfold zlen in Hz at 3.
    assert (zlen (join_nul names) <= (2 ^ 28 - 1 + 1) * Z.of_nat (length names)); [|lia].
    apply Hz. eapply Forall_impl; [exact H|]. intros n [_ Hn]. lia.
  - apply join_nul_valid. eapply Forall_impl; [exact H|]. by intros n [Hn _].
Qed.

Ltac each_name := repeat (apply Forall_cons_2; [assumption|]); apply Forall_nil_2.

Lemma name_cell_fits (n : string) : zlen (as_bytes n) < 2 ^ 28 -> cell_fits (text_cell n).
Proof. unfold cell_fits, text_cell. lia. Qed.

Lemma member_row_cells (m g : string) :
  name_ok m -> name_ok g -> member_cell (member_row m g) 1 = Ok m /\ member_cell (member_row m g) 2 = Ok g.
Proof.
  intros Hm Hg. assert (Forall cell_fits [text_cell (from_utf8_lossy (member_key m g)); text_cell m; text_cell g]) as Hf.
  { apply Forall_cons. split; [apply key_cell_fits; [simpl; lia | each_name]|].
    apply Forall_cons; split; [apply name_cell_fits, Hm|]. apply Forall_singleton, name_cell_fits, Hg. }
  split; apply cell_str_text; try done; [apply Hm | apply Hg].
Qed.

Lemma as_str_ok (p : PrivilegeRepr) : name_ok (as_str p).
Proof. destruct p; by split; vm_compute. Qed.

Definition object_ok (o : GrantObjectRepr) : Prop := name_ok (go_kind o) /\ name_ok (go_name o).

Lemma privilege_row_cells (n : string) (p : PrivilegeRepr) (o : GrantObjectRepr) :
  name_ok n -> object_ok o ->
  privilege_cell (privilege_row n p o) 1 = Ok n /\ privilege_cell (privilege_row n p o) 2 = Ok (as_str p)
  /\ privilege_cell (privilege_row n p o) 3 = Ok (go_kind o) /\ privilege_cell (privilege_row n p o) 4 = Ok (go_name o).
Proof.
  intros Hn [Hk Ho]. pose proof (as_str_ok p) as Hp.
  assert (Forall cell_fits [text_cell (from_utf8_lossy (privilege_key n p o)); text_cell n;
                text_cell (as_str p); text_cell (go_kind o); text_cell (go_name o)]) as Hf.
  { apply Forall_cons. split; [apply key_cell_fits; [simpl; lia | each_name]|].
    repeat (apply Forall_cons; split; [apply name_cell_fits; by apply Hn || apply Hp || apply Hk|]).
    apply Forall_singleton, name_cell_fits, Ho. }
  split_and!; apply cell_str_text; try done; [apply Hn | apply Hp | apply Hk | apply Ho].
Qed.

(** ** No cycles *)

Definition acyclic (E : string -> string -> Prop) : Prop := forall x, ~ tc E x x.

Lemma acyclic_sub (E E' : string -> string -> Prop) :
  (forall a b, E' a b -> E a b) -> acyclic E -> acyclic E'.
Proof. intros Hsub Ha x Hx. apply (Ha x). by eapply (tc_congruence id); [|done]. Qed.

Lemma acyclic_add (E E' : string -> string -> Prop) (m g : string) :
  acyclic E -> m <> g -> ~ tc E g m -> (forall a b, E' a b -> E a b \/ (a = m /\ b = g)) -> acyclic E'.
Proof.
  intros Ha Hne Hgm Hadd.
  assert (forall a b, tc E' a b -> tc E a b \/ (rtc E a m /\ rtc E g b)) as Hsplit.
  { intros a b Hab. induction Hab as [a b H|a b c H _ IH].
    - destruct (Hadd a b H) as [?|[-> ->]]; [left; by apply tc_once | by right].
    - destruct (Hadd a b H) as [H1|[-> ->]].
      + destruct IH as [IH|[IH1 IH2]]; [left; by eapply tc_l | right; split; [by eapply rtc_l | done]].
      + right. split; [done|]. destruct IH as [IH|[_ IH]]; [by apply tc_rtc | done]. }
  intros x Hx. destruct (Hsplit x x Hx) as [H|[H1 H2]]; [by apply (Ha x)|].
  assert (rtc E g m) as Hr by by etransitivity.
  apply rtc_tc in Hr as [->|?]; done.
Qed.

(** Every row is one that [grant_membership] writes, and there is no cycle. *)
Record members_inv (r : rows) : Prop := {
  mi_rows : forall k v, In (k, v) r ->
    exists m g, name_ok m /\ name_ok g /\ k = member_key m g /\ v = member_row m g;
  mi_acyclic : acyclic (edge_in r);
}.

Lemma members_inv_decodable (r : rows) : members_inv r -> decodable r.
Proof.
  intros [H _] k v (m & g & Hm & Hg & _ & ->)%H. destruct (member_row_cells m g Hm Hg). eauto.
Qed.

Lemma edge_in_sub (r r' : rows) (a b : string) : (forall e, In e r' -> In e r) -> edge_in r' a b -> edge_in r a b.
Proof. intros Hs (k & v & Hin & H). exists k, v. auto. Qed.

Lemma members_inv_sub (r r' : rows) : (forall e, In e r' -> In e r) -> members_inv r -> members_inv r'.
Proof.
  intros Hs [H1 H2]. split; [intros k v Hin; apply H1; auto|]. eapply acyclic_sub; [|done].
  intros a b. by apply edge_in_sub.
Qed.

Lemma members_inv_insert (r : rows) (m g : string) :
  om_sorted r -> members_inv r -> name_ok m -> name_ok g -> m <> g -> ~ tc (edge_in r) g m ->
  members_inv (om_insert (member_key m g) (member_row m g) r).
Proof.
  intros Hs [H1 H2] Hm Hg Hne Hcyc. split.
  - intros k v [Heq|[_ Hin]]%om_insert_In; [|by auto|done]. injection Heq as -> ->. eauto 10.
  - eapply acyclic_add; [done..|]. intros a b (k & v & Hin & Ha & Hb).
    apply om_insert_In in Hin as [Heq|[_ Hin]]; [|left; by exists k, v|done]. injection Heq as -> ->. right.
    destruct (member_row_cells m g Hm Hg). split; congruence.
Qed.

Section System.
  Context {S : Type} {rs : RowStore S} {laws : RowLaws S}.

(** The rows are the old ones, or a subset of them. *)
Lemma outcome_sub (r : Result unit) (before after : rows) (key : bytes) :
  outcome r before after (om_remove key before) -> om_sorted before -> forall e, In e after -> In e before.
Proof. intros Ho Hs e. destruct r; simpl in Ho; [subst | destruct Ho; subst]; auto; by intros [_ ?]%om_remove_In. Qed.

Lemma delete_keys_sub (table : string) (keys : list bytes) (s s' : S) res :
  rs_wf s -> delete_keys table keys s = (s', res) ->
  rs_wf s' /\ (forall e, In e (rs_rows s' table) -> In e (rs_rows s table))
  /\ forall t, t <> table -> rs_rows s' t = rs_rows s t.
Proof.
  revert s. induction keys as [|key keys IH]; intros s Hwf; cbn [delete_keys]; [intros [= <- <-]; auto|].
  destruct (rs_delete table key s) as [s1 r1] eqn:E. pose proof (rs_sorted s table Hwf) as Hs.
  apply rs_delete_law in E as (Hwf1 & Ho & Hother); [|done]. pose proof (outcome_sub _ _ _ _ Ho Hs) as Hsub.
  destruct r1 as [[]|e]; [|intros [= <- <-]; auto].
  intros (Hwf' & Hsub' & Hother')%IH; [|done]. split_and!; [done | auto |].
  intros t Ht. by rewrite Hother', Hother.
Qed.

(** The calls that change memberships, with any outcome, and writes to other
    tables. *)
Inductive mstep : S -> S -> Prop :=
| m_grant m g s s' res : name_ok m -> name_ok g -> grant_membership m g s = (s', res) -> mstep s s'
| m_revoke m g s s' res : revoke_membership m g s = (s', res) -> mstep s s'
| m_revoke_all role s s' res : revoke_all role s = (s', res) -> mstep s s'
| m_write t k v s s' res : t <> MEMBERS -> rs_write t k v s = (s', res) -> mstep s s'
| m_delete t k s s' res : t <> MEMBERS -> rs_delete t k s = (s', res) -> mstep s s'.

Lemma contains_spec (names : list string) (n : string) : contains names n = true <-> n ∈ names.
Proof.
  unfold contains. rewrite existsb_exists. split.
  - intros (x & Hin & ->%String.eqb_eq). by apply list_elem_of_In.
  - intros H. exists n. split; [by apply list_elem_of_In | apply String.eqb_refl].
Qed.

Lemma grant_membership_inv (m g : string) (s s' : S) res :
  rs_wf s -> members_inv (rs_rows s MEMBERS) -> name_ok m -> name_ok g -> grant_membership m g s = (s', res) ->
  rs_wf s' /\ members_inv (rs_rows s' MEMBERS).
Proof.
  intros Hwf Hinv Hm Hg. unfold grant_membership. destruct (String.eqb_spec m g) as [|Hne]; [by intros [= <- <-]|].
  destruct (all_memberships m s) as [om|]; [|by intros [= <- <-]]. destruct (contains om g); [by intros [= <- <-]|].
  destruct (all_memberships g s) as [og|] eqn:Eg; [|by intros [= <- <-]].
  destruct (contains og m) eqn:Ec; [by intros [= <- <-]|].
  intros (Hwf' & Ho & _)%rs_write_law; [|done]. split; [done|].
  assert (~ tc (edge_in (rs_rows s MEMBERS)) g m) as Hcyc.
  { intros Htc. unfold all_memberships in Eg. cbn [walk wk_frontier] in Eg.
    destruct (rs_scan MEMBERS s) as [kvs|] eqn:Es.
    - pose proof (rs_scan_law s MEMBERS kvs Hwf Es) as ->.
      destruct (all_memberships_sound _ s Es g og Eg) as [_ Hin]. apply Hin, contains_spec in Htc. congruence.
    - unfold direct_memberships in Eg. by rewrite Es in Eg. }
  pose proof (members_inv_insert _ m g (rs_sorted s MEMBERS Hwf) Hinv Hm Hg Hne Hcyc) as Hins.
  destruct res; simpl in Ho; [by rewrite Ho | by destruct Ho as [->| ->]].
Qed.

Lemma mstep_inv (s s' : S) :
  mstep s s' -> rs_wf s -> members_inv (rs_rows s MEMBERS) -> rs_wf s' /\ members_inv (rs_rows s' MEMBERS).
Proof.
  intros Hst Hwf Hinv. destruct Hst as [m g s s' res Hm Hg H|m g s s' res H|role s s' res H|t k v s s' res Ht H|t k s s' res Ht H].
  - exact (grant_membership_inv m g s s' res Hwf Hinv Hm Hg H).
  - apply rs_delete_law in H as (Hwf' & Ho & _); [|done]. split; [done|]. eapply members_inv_sub; [|done].
    exact (outcome_sub _ _ _ _ Ho (rs_sorted s MEMBERS Hwf)).
  - unfold revoke_all in H. destruct (let? kvs := _ in _) as [keys|]; [|by injection H as <- <-].
    apply delete_keys_sub in H as (Hwf' & Hsub & _); [|done]. split; [done|]. by eapply members_inv_sub.
  - apply rs_write_law in H as (Hwf' & _ & Ho); [|done]. split; [done|]. by rewrite Ho.
  - apply rs_delete_law in H as (Hwf' & _ & Ho); [|done]. split; [done|]. by rewrite Ho.
Qed.

Lemma msteps_inv (s s' : S) :
  rs_wf s -> rs_rows s MEMBERS = [] -> rtc mstep s s' -> rs_wf s' /\ members_inv (rs_rows s' MEMBERS).
Proof.
  intros Hwf Hnil Hst. assert (members_inv (rs_rows s MEMBERS)) as Hinv.
  { rewrite Hnil. split; [by intros k v []|]. intros x Hx. inversion Hx; subst; by destruct H as (k & v & [] & _). }
  clear Hnil. induction Hst as [|s1 s2 s3 H _ IH]; [done|]. destruct (mstep_inv s1 s2 H Hwf Hinv). auto.
Qed.

(** Memberships never form a cycle. Whatever memberships are granted and
    revoked, with whatever failures of the store, no role becomes a member of
    itself, directly or through other roles. *)
Theorem role_memberships_stay_acyclic (s s' : S) :
  rs_wf s -> rs_rows s MEMBERS = [] -> rtc mstep s s' -> acyclic (edge_in (rs_rows s' MEMBERS)).
Proof. intros Hwf Hnil Hst. by destruct (msteps_inv s s' Hwf Hnil Hst) as [_ [_ ?]]. Qed.

(** A grant that adds nothing is refused as a cycle. Granting a
    membership that the role already has, directly or through other roles,
    fails with the error for cycles, although it would close none. *)
Theorem role_grant_refuses_redundant (s : S) (kvs : list KeyValue) (m g : string) :
  rs_wf s -> members_inv (rs_rows s MEMBERS) -> rs_scan MEMBERS s = Ok kvs ->
  tc (edge_in (rs_rows s MEMBERS)) m g -> grant_membership m g s = (s, Err cycle_error).
Proof.
  intros Hwf Hinv Hs Htc. pose proof (rs_scan_law s MEMBERS kvs Hwf Hs) as ->.
  unfold grant_membership. destruct (String.eqb_spec m g) as [->|Hne]; [by destruct (mi_acyclic _ Hinv g)|].
  destruct (all_memberships_total _ s Hs m (members_inv_decodable _ Hinv)) as [l Hl]. rewrite Hl.
  destruct (all_memberships_sound _ s Hs m l Hl) as [_ Hin]. by apply Hin, contains_spec in Htc as ->.
Qed.

End System.

(** ** Who holds a privilege *)

(** A row gives the grantee what is stored as [stored] on the object. *)
Definition gives (v : bytes) (n stored : string) (o : GrantObjectRepr) : Prop :=
  privilege_cell v 1 = Ok n /\ privilege_cell v 2 = Ok stored
  /\ privilege_cell v 3 = Ok (go_kind o) /\ privilege_cell v 4 = Ok (go_name o).

(** Some row grants the privilege, or all privileges, on the object. *)
Definition granted (r : rows) (n : string) (p : PrivilegeRepr) (o : GrantObjectRepr) : Prop :=
  exists k v stored, In (k, v) r /\ gives v n stored o /\ (stored = as_str PAll \/ stored = as_str p).

Lemma is_on_iff (n : string) (o : GrantObjectRepr) (v : bytes) (b : bool) :
  is_on n o v = Ok b ->
  (b = true <-> privilege_cell v 1 = Ok n /\ privilege_cell v 3 = Ok (go_kind o) /\ privilege_cell v 4 = Ok (go_name o)).
Proof.
  unfold is_on. destruct (privilege_cell v 1) as [c1|]; [|done].
  destruct (String.eqb_spec c1 n) as [->|H1]; cbn [negb]; [|intros [= <-]; split; [done | intros ([= ?] & _)]; done].
  destruct (privilege_cell v 3) as [c3|]; [|done].
  destruct (String.eqb_spec c3 (go_kind o)) as [->|H3]; cbn [negb]; [|intros [= <-]; split; [done | intros (_ & [= ?] & _)]; done].
  destruct (privilege_cell v 4) as [c4|]; [|done]. intros [= <-]. rewrite String.eqb_eq. split; [by intros -> | by intros (_ & _ & [= ->])].
Qed.

Lemma granted_cons (k v : bytes) (r : rows) (n : string) (p : PrivilegeRepr) (o : GrantObjectRepr) :
  granted ((k, v) :: r) n p o <->
  (exists stored, gives v n stored o /\ (stored = as_str PAll \/ stored = as_str p)) \/ granted r n p o.
Proof.
  split.
  - intros (k' & v' & st & [[= <- <-]|Hin] & Hg); [left; by exists st | right; by exists k', v', st].
  - intros [(st & H)|(k' & v' & st & Hin & H)]; [exists k, v, st | exists k', v', st]; (split; [simpl; auto | done]).
Qed.

Lemma granted_in_sound (n : string) (p : PrivilegeRepr) (o : GrantObjectRepr) (r : rows) (b : bool) :
  granted_in n p o (map kv_of r) = Ok b -> (b = true <-> granted r n p o).
Proof.
  induction r as [|[k v] r IH]; cbn [map granted_in].
  - intros [= <-]. split; [done | by intros (? & ? & ? & [] & _)].
  - cbn [kv_of kv_value fst snd]. rewrite granted_cons. intros (on & Hon & H)%result_bind_Ok. apply is_on_iff in Hon.
    destruct on.
    + destruct Hon as [Hon _]. destruct (Hon eq_refl) as (H1 & H3 & H4).
      apply result_bind_Ok in H as (stored & H2 & Hin).
      destruct (String.eqb_spec stored (as_str PAll)) as [->|Ha]; [|destruct (String.eqb_spec stored (as_str p)) as [->|Hp]]; cbn [orb] in Hin.
      1, 2: injection Hin as <-; split; [|done]; intros _; left; eexists; split; [by split_and!|]; auto.
      rewrite (IH Hin). split; [by right|]. intros [(st & (_ & Hst & _) & Hor)|?]; [|done]. rewrite Hst in H2. injection H2 as ->. tauto.
    + rewrite (IH H). split; [by right|]. intros [(st & (H1 & _ & H3 & H4) & _)|?]; [|done].
      destruct Hon as [_ Hon]. discriminate Hon; by split_and!.
Qed.

(** Rows as [grant] writes them. *)
Definition privileges_inv (r : rows) : Prop :=
  forall k v, In (k, v) r ->
    exists n p o, name_ok n /\ object_ok o /\ k = privilege_key n p o /\ v = privilege_row n p o.

Lemma privilege_row_gives (n : string) (p : PrivilegeRepr) (o : GrantObjectRepr) :
  name_ok n -> object_ok o -> gives (privilege_row n p o) n (as_str p) o.
Proof. apply privilege_row_cells. Qed.

Lemma is_on_total (n : string) (o : GrantObjectRepr) (r : rows) (k v : bytes) :
  privileges_inv r -> In (k, v) r -> exists b st, is_on n o v = Ok b /\ privilege_cell v 2 = Ok st.
Proof.
  intros Hi (n' & p & o' & Hn & Ho & _ & ->)%Hi. unfold is_on.
  destruct (privilege_row_cells n' p o' Hn Ho) as (-> & -> & -> & ->).
  destruct (negb _); [by eauto|]. destruct (negb _); eauto.
Qed.

Lemma granted_in_total (n : string) (p : PrivilegeRepr) (o : GrantObjectRepr) (r : rows) :
  privileges_inv r -> exists b, granted_in n p o (map kv_of r) = Ok b.
Proof.
  induction r as [|[k v] r IH]; intros Hi; cbn [map granted_in]; [by eauto|]. cbn [kv_of kv_value fst snd].
  destruct (is_on_total n o _ k v Hi (or_introl eq_refl)) as (b & st & -> & ->).
  destruct IH as [b' ->]; [intros k' v' H; apply (Hi k' v'); by right|]. destruct b; [|by eauto]. destruct (_ || _); eauto.
Qed.

Lemma granted_to_any_spec {S : Type} {rs : RowStore S} (cands : list string) (p : PrivilegeRepr) (o : GrantObjectRepr)
    (s : S) (r : rows) :
  rs_scan PRIVILEGES s = Ok (map kv_of r) ->
  (forall b, granted_to_any cands p o s = Ok b -> (b = true <-> exists c, c ∈ cands /\ granted r c p o))
  /\ (privileges_inv r -> exists b, granted_to_any cands p o s = Ok b).
Proof.
  intros Hs. induction cands as [|c cands [IH1 IH2]]; cbn [granted_to_any].
  - split; [|by eauto]. intros b [= <-]. split; [done|]. intros (c & Hc & _). by apply not_elem_of_nil in Hc.
  - rewrite Hs. split.
    + intros b (yes & Hyes & H)%result_bind_Ok. apply granted_in_sound in Hyes. destruct yes.
      * injection H as <-. split; [|done]. intros _. exists c. split; [by left | by apply Hyes].
      * rewrite (IH1 b H). split; intros (x & Hx & Hg); [exists x; split; [by right | done]|].
        apply elem_of_cons in Hx as [->|Hx]; [by apply Hyes in Hg | by exists x].
    + intros Hi. destruct (granted_in_total c p o r Hi) as [[] ->]; eauto.
Qed.

Section Holding.
  Context {S : Type} {rs : RowStore S} {laws : RowLaws S}.

(** The role itself or one it belongs to. *)
Definition acts_as (s : S) (role cand : string) : Prop :=
  cand = role \/ tc (edge_in (rs_rows s MEMBERS)) role cand.

(** Both tables can be read and hold rows that the stores write. *)
Definition readable_catalogues (s : S) : Prop :=
  (exists kvs, rs_scan MEMBERS s = Ok kvs) /\ (exists kvs, rs_scan PRIVILEGES s = Ok kvs)
  /\ decodable (rs_rows s MEMBERS) /\ privileges_inv (rs_rows s PRIVILEGES).

Lemma has_privilege_sound (s : S) (role : string) (p : PrivilegeRepr) (o : GrantObjectRepr) (b : bool) :
  rs_wf s -> has_privilege role p o s = Ok b ->
  (b = true <-> exists cand, acts_as s role cand /\ granted (rs_rows s PRIVILEGES) cand p o).
Proof.
  intros Hwf (l & Hl & H)%result_bind_Ok.
  destruct (rs_scan MEMBERS s) as [kvs|] eqn:Em.
  2:{ unfold all_memberships in Hl. cbn [walk wk_frontier] in Hl. unfold direct_memberships in Hl. by rewrite Em in Hl. }
  pose proof (rs_scan_law s MEMBERS kvs Hwf Em) as ->. destruct (all_memberships_sound _ s Em role l Hl) as [_ Hin].
  destruct (rs_scan PRIVILEGES s) as [kvs|] eqn:Ep; [|cbn [granted_to_any] in H; by rewrite Ep in H].
  pose proof (rs_scan_law s PRIVILEGES kvs Hwf Ep) as ->.
  destruct (granted_to_any_spec (role :: l) p o s _ Ep) as [Hany _]. rewrite (Hany b H).
  split; intros (c & Hc & Hg); exists c; (split; [|done]).
  - apply elem_of_cons in Hc as [->|Hc]; [by left | right; by apply Hin].
  - apply elem_of_cons. destruct Hc as [->|Hc]; [by left | right; by apply Hin].
Qed.

Lemma has_privilege_total (s : S) (role : string) (p : PrivilegeRepr) (o : GrantObjectRepr) :
  rs_wf s -> readable_catalogues s -> exists b, has_privilege role p o s = Ok b.
Proof.
  intros Hwf ([kvs Em] & [kvs' Ep] & Hd & Hi). pose proof (rs_scan_law s MEMBERS kvs Hwf Em) as ->.
  pose proof (rs_scan_law s PRIVILEGES kvs' Hwf Ep) as ->. unfold has_privilege.
  destruct (all_memberships_total _ s Em role Hd) as [l ->].
  destruct (granted_to_any_spec (role :: l) p o s _ Ep) as [_ Htot]. auto.
Qed.

(** A privilege is held exactly when it was granted. Whatever state the
    store is in, a check that answers yes is backed by a row that grants the
    privilege, or all privileges, on the object to the role or to a role it
    is a member of, and one that answers no means that there is no such row;
    when both tables can be read the check answers. *)
Theorem privilege_is_held_iff_granted (s : S) (role : string) (p : PrivilegeRepr) (o : GrantObjectRepr) :
  rs_wf s ->
  (forall b, has_privilege role p o s = Ok b ->
     (b = true <-> exists cand, acts_as s role cand /\ granted (rs_rows s PRIVILEGES) cand p o))
  /\ (readable_catalogues s -> exists b, has_privilege role p o s = Ok b).
Proof. intros Hwf. split; [intros b; by apply has_privilege_sound | by apply has_privilege_total]. Qed.

Lemma delete_keys_gone (table : string) (keys : list bytes) (s s' : S) :
  rs_wf s -> delete_keys table keys s = (s', Ok tt) ->
  forall e, In e (rs_rows s' table) -> In e (rs_rows s table) /\ fst e ∉ keys.
Proof.
  revert s. induction keys as [|key keys IH]; intros s Hwf; cbn [delete_keys].
  - intros [= <-] e He. split; [done | by apply not_elem_of_nil].
  - destruct (rs_delete table key s) as [s1 [[]|]] eqn:E; [|done]. pose proof (rs_sorted s table Hwf) as Hs.
    apply rs_delete_law in E as (Hwf1 & Ho & _); [|done]. simpl in Ho. intros H e He.
    destruct (IH s1 Hwf1 H e He) as [He1 Hnin]. rewrite Ho in He1. apply om_remove_In in He1 as [Hk He1]; [|done].
    split; [done|]. by intros [?|?]%elem_of_cons.
Qed.

Lemma rows_on_spec (n : string) (o : GrantObjectRepr) (r : rows) (keys : list bytes) :
  rows_on n o (map kv_of r) = Ok keys ->
  forall k v st, In (k, v) r -> gives v n st o -> k ∈ keys.
Proof.
  revert keys. induction r as [|[k v] r IH]; intros keys; cbn [map rows_on]; [by intros _ k v st []|].
  cbn [kv_of kv_value kv_key fst snd]. intros (on & Hon & H)%result_bind_Ok.
  apply result_bind_Ok in H as (keys' & Hk & [= <-]). apply is_on_iff in Hon.
  intros k' v' st [[= <- <-]|Hin] Hg.
  - destruct Hg as (H1 & _ & H3 & H4). rewrite (proj2 Hon) by done. by left.
  - specialize (IH keys' Hk k' v' st Hin Hg). destruct on; [by right | done].
Qed.

(** Granting and revoking take effect. After a grant that succeeds the
    grantee holds the privilege. After a revocation that succeeds no row
    grants that privilege on the object to the grantee any more, so that only
    a grant of all privileges can still give it; after revoking all
    privileges there is none of any kind. *)
Theorem privilege_grant_and_revoke_take_effect (s s' : S) (n : string) (p : PrivilegeRepr) (o : GrantObjectRepr) :
  rs_wf s -> privileges_inv (rs_rows s PRIVILEGES) -> name_ok n -> object_ok o ->
  (grant n p o s = (s', Ok tt) -> granted (rs_rows s' PRIVILEGES) n p o)
  /\ (revoke n p o s = (s', Ok tt) ->
      forall q, granted (rs_rows s' PRIVILEGES) n q o ->
        p <> PAll /\ (q = p -> granted (rs_rows s' PRIVILEGES) n PAll o)).
Proof.
  intros Hwf Hi Hn Ho. pose proof (rs_sorted s PRIVILEGES Hwf) as Hs. split.
  - intros (_ & Hrows & _)%rs_write_law; [|done]. simpl in Hrows. rewrite Hrows.
    exists (privilege_key n p o), (privilege_row n p o), (as_str p). split; [apply om_insert_In; auto|].
    split; [by apply privilege_row_gives | by right].
  - unfold revoke. destruct (decide (p = PAll)) as [->|Hp].
    + destruct (rs_scan PRIVILEGES s) as [kvs|] eqn:Es; [|done]. pose proof (rs_scan_law s PRIVILEGES kvs Hwf Es) as ->.
      destruct (rows_on n o _) as [keys|] eqn:Ek; [|done]. intros Hdel q (k & v & st & Hin & Hg & _).
      destruct (delete_keys_gone _ _ _ _ Hwf Hdel _ Hin) as [Hin' Hnin]. destruct Hnin. by eapply rows_on_spec.
    + intros (_ & Hrows & _)%rs_delete_law; [|done]. simpl in Hrows. intros q (k & v & st & Hin & Hg & Hst).
      split; [done|]. intros ->. exists k, v, st. split_and!; [done | done |]. left.
      destruct Hst as [?|Hst]; [done|]. exfalso. rewrite Hrows in Hin. apply om_remove_In in Hin as [Hk Hin]; [|done].
      destruct (Hi k v Hin) as (n' & p' & o' & Hn' & Ho' & -> & ->). destruct (privilege_row_gives n' p' o' Hn' Ho') as (G1 & G2 & G3 & G4).
      destruct Hg as (H1 & H2 & H3 & H4). rewrite H1 in G1. rewrite H2 in G2. rewrite H3 in G3. rewrite H4 in G4.
      injection G1 as ->. injection G2 as ->. injection G3 as G3. injection G4 as G4.
      apply Hk. cbn [fst]. unfold privilege_key. by rewrite Hst, G3, G4.
Qed.

End Holding.

(** ** A small catalogue *)

Definition team1 : MemRows := fst (grant_membership "bob" "devs" mem_empty).
Definition team2 : MemRows := fst (grant_membership "devs" "staff" team1).
Definition team3 : MemRows := fst (grant "staff" PSelect (object_table "t") team2).

Lemma name_ok_small (n : string) : utf8_valid (as_bytes n) = true -> (zlen (as_bytes n) <? 2 ^ 28) = true -> name_ok n.
Proof. intros H1 H2%Z.ltb_lt. by split. Qed.

Ltac small_name := apply name_ok_small; vm_compute; reflexivity.

Lemma team2_steps : rtc mstep mem_empty team2.
Proof.
  apply (rtc_l _ _ team1); [eapply (m_grant "bob" "devs"); [small_name | small_name | apply surjective_pairing]|].
  apply rtc_once. eapply (m_grant "devs" "staff"); [small_name | small_name | apply surjective_pairing].
Qed.

Lemma team2_inv : rs_wf team2 /\ members_inv (rs_rows team2 MEMBERS).
Proof. apply (msteps_inv mem_empty team2); [apply mem_empty_wf | reflexivity | apply team2_steps]. Qed.

Lemma team3_grant : grant "staff" PSelect (object_table "t") team2 = (team3, Ok tt).
Proof. vm_compute. reflexivity. Qed.

Lemma team3_wf : rs_wf team3.
Proof. destruct (rs_write_law _ _ _ _ _ _ (proj1 team2_inv) team3_grant) as [H _]. exact H. Qed.

Lemma team2_scan : rs_scan MEMBERS team2 = Ok (map kv_of (rs_rows team2 MEMBERS)).
Proof. vm_compute. reflexivity. Qed.

Lemma team2_privileges : mr_get PRIVILEGES team2 = [].
Proof. vm_compute. reflexivity. Qed.

Lemma role_memberships_are_the_closure_witness :
  exists l, all_memberships "bob" team2 = Ok l /\ l = ["devs"; "staff"]%string
    /\ tc (edge_in (rs_rows team2 MEMBERS)) "bob" "staff".
Proof.
  destruct (role_memberships_are_the_closure team2 (map kv_of (mr_get MEMBERS team2)) "bob") as (l & Hl & _ & Hiff).
  - apply team2_inv.
  - reflexivity.
  - apply members_inv_decodable, team2_inv.
  - exists l. assert (l = ["devs"; "staff"]%string) as Heq.
    { assert (@Ok string _ l = Ok ["devs"; "staff"]%string) as He by (rewrite <- Hl; vm_compute; reflexivity). by injection He. }
    split_and!; [exact Hl | exact Heq |]. apply Hiff. rewrite Heq. right. by left.
Defined.

Lemma role_memberships_stay_acyclic_witness : acyclic (edge_in (rs_rows team2 MEMBERS)).
Proof.
  apply (role_memberships_stay_acyclic mem_empty team2); [exact mem_empty_wf | reflexivity | exact team2_steps].
Defined.

Lemma role_grant_refuses_redundant_witness : grant_membership "bob" "staff" team2 = (team2, Err cycle_error).
Proof.
  apply (role_grant_refuses_redundant team2 (map kv_of (mr_get MEMBERS team2))).
  - apply team2_inv.
  - apply team2_inv.
  - reflexivity.
  - destruct team2_inv as [Hwf Hinv].
    apply (all_memberships_sound _ team2 team2_scan "bob" ["devs"; "staff"]%string);
      [vm_compute; reflexivity | right; by left].
Defined.

Lemma privilege_is_held_iff_granted_witness :
  exists cand, acts_as team3 "bob" cand /\ granted (rs_rows team3 PRIVILEGES) cand PSelect (object_table "t").
Proof.
  apply (proj1 (privilege_is_held_iff_granted team3 "bob" PSelect (object_table "t") team3_wf) true); [|reflexivity].
  vm_compute. reflexivity.
Defined.

Lemma privilege_grant_and_revoke_take_effect_witness :
  granted (rs_rows team3 PRIVILEGES) "staff" PSelect (object_table "t").
Proof.
  apply (proj1 (privilege_grant_and_revoke_take_effect team2 team3 "staff" PSelect (object_table "t")
    (proj1 team2_inv) ltac:(intros k v H; change (In (k, v) (mr_get PRIVILEGES team2)) in H; by rewrite team2_privileges in H)
    ltac:(small_name) ltac:(split; small_name))).
  exact team3_grant.
Defined.
