(* ===== verification/Ast.v ===== *)
(** The syntax tree of SQL statements ([sql/ast.rs]).

    Constructors are named after their type and their name in the source;
    record fields that Rocq reserves have an underscore added. A floating
    point literal is its bit pattern. The types that refer to each other
    (expressions, queries, their clauses) are one mutual definition, with the
    accessors that the source's field names stand for. *)

From Stdlib Require Import Strings.String ZArith.
From stdpp Require Import base.
From S2P Require Import Prelude.

Open Scope Z_scope.

Inductive BinOp :=
| BinOp_Add | BinOp_Sub | BinOp_Mul | BinOp_Div | BinOp_Mod
| BinOp_Eq | BinOp_NotEq | BinOp_Lt | BinOp_Lte | BinOp_Gt | BinOp_Gte
| BinOp_And | BinOp_Or | BinOp_Concat | BinOp_Arrow | BinOp_LongArrow | BinOp_Contains
| BinOp_HashArrow | BinOp_HashLongArrow
| BinOp_RegexMatch | BinOp_RegexNotMatch | BinOp_RegexMatchCI | BinOp_RegexNotMatchCI.

Inductive UnOp := UnOp_Neg | UnOp_Not.

Inductive Literal :=
| Literal_Int (n : Z)
| Literal_Float (bits : Z)
| Literal_Text (s : string)
| Literal_Bool (b : bool)
| Literal_Null
| Literal_FloatArray (bits : list Z).

Inductive UnionOp := UnionOp_Union | UnionOp_UnionAll.

Inductive JoinType := JoinType_Inner | JoinType_Left | JoinType_Right | JoinType_Full | JoinType_Cross.

Inductive FrameType := FrameType_Rows | FrameType_Range | FrameType_Groups.

Inductive FrameBoundType :=
| FrameBoundType_UnboundedPreceding | FrameBoundType_Preceding | FrameBoundType_CurrentRow
| FrameBoundType_Following | FrameBoundType_UnboundedFollowing.

Inductive Expr : Set :=
| Expr_Literal (l : Literal)
| Expr_Ident (name : string)
| Expr_QualifiedIdent (table column : string)
| Expr_BinaryOp (op : BinOp) (lhs rhs : Expr)
| Expr_UnaryOp (op : UnOp) (expr : Expr)
| Expr_IsNull (expr : Expr) (negated : bool)
| Expr_IsTrue (expr : Expr) (negated : bool)
| Expr_IsFalse (expr : Expr) (negated : bool)
| Expr_Between (expr low high : Expr) (negated : bool)
| Expr_Like (expr pattern : Expr) (negated : bool)
| Expr_In (expr : Expr) (list_ : InList) (negated : bool)
| Expr_Exists (subquery : SelectStmt) (negated : bool)
| Expr_Cast (expr : Expr) (ty : string)
| Expr_Function (name : string) (args : list Expr) (distinct : bool)
| Expr_Case (operand : option Expr) (branches : list (Expr * Expr)) (else_ : option Expr)
| Expr_Param (n : Z)
| Expr_Subquery (subquery : SelectStmt)
| Expr_Window (func : string) (args partition_by : list Expr) (order_by : list OrderBy) (frame : option WindowFrame)
with InList : Set :=
| InList_Exprs (exprs : list Expr)
| InList_Subquery (subquery : SelectStmt)
with WindowFrame : Set :=
| mkWindowFrame (frame_type : FrameType) (start : FrameBound) (end_ : option FrameBound)
with FrameBound : Set :=
| mkFrameBound (bound_type : FrameBoundType) (offset : option Expr)
with OrderBy : Set :=
| mkOrderBy (expr : Expr) (asc : bool)
with Projection : Set :=
| Projection_Wildcard
| Projection_WildcardTable (table : string)
| Projection_Expr (expr : Expr) (alias : option string)
with SelectStmt : Set :=
| mkSelectStmt (ctes : list Cte) (distinct : bool) (projections : list Projection)
    (from_ : option TableWithJoins) (where_ : option Expr) (group_by : list Expr)
    (having : option Expr) (order_by : list OrderBy) (limit offset : option Expr)
    (union_ : option (UnionOp * SelectStmt))
with Cte : Set :=
| mkCte (name : string) (columns : list string) (subquery : SelectStmt) (recursive : bool)
with TableRef : Set :=
| mkTableRef (name : string) (alias : option string) (subquery : option SelectStmt) (func_args : option (list Expr))
with TableWithJoins : Set :=
| mkTableWithJoins (primary : TableRef) (joins : list Join)
with Join : Set :=
| mkJoin (join_type : JoinType) (table : TableRef) (on_ : option Expr).

(** ** Fields *)

Definition sel_ctes (s : SelectStmt) := let 'mkSelectStmt c _ _ _ _ _ _ _ _ _ _ := s in c.
Definition sel_from (s : SelectStmt) := let 'mkSelectStmt _ _ _ f _ _ _ _ _ _ _ := s in f.
Definition sel_where (s : SelectStmt) := let 'mkSelectStmt _ _ _ _ w _ _ _ _ _ _ := s in w.
Definition sel_union (s : SelectStmt) := let 'mkSelectStmt _ _ _ _ _ _ _ _ _ _ u := s in u.
Definition cte_name (c : Cte) := let 'mkCte n _ _ _ := c in n.
Definition cte_subquery (c : Cte) := let 'mkCte _ _ s _ := c in s.
Definition tr_name (t : TableRef) := let 'mkTableRef n _ _ _ := t in n.
Definition tr_subquery (t : TableRef) := let 'mkTableRef _ _ s _ := t in s.
Definition tr_func_args (t : TableRef) := let 'mkTableRef _ _ _ f := t in f.
Definition twj_primary (t : TableWithJoins) := let 'mkTableWithJoins p _ := t in p.
Definition twj_joins (t : TableWithJoins) := let 'mkTableWithJoins _ j := t in j.
Definition join_table (j : Join) := let 'mkJoin _ t _ := j in t.

(** ** Definitions of columns and tables *)

Record ColumnDef := mkColumnDef {
  cd_name : string; cd_col_type : string; cd_nullable : bool; cd_default : option Expr; cd_is_pk : bool;
  cd_is_unique : bool; cd_references : option (string * string); cd_is_serial : bool;
}.

Inductive TableConstraint :=
| TableConstraint_Unique (columns : list string)
| TableConstraint_ForeignKey (column ref_table ref_column : string).

Record CreateTableStmt := mkCreateTableStmt {
  ct_table : string; ct_if_not_exists : bool; ct_columns : list ColumnDef;
  ct_table_constraints : list TableConstraint; ct_options : list (string * string);
}.
Record DropTableStmt := mkDropTableStmt { dt_table : string; dt_if_exists : bool }.
Record DropIndexStmt := mkDropIndexStmt { di_name : string; di_if_exists : bool }.
Record CreateIndexStmt := mkCreateIndexStmt {
  ci_table : string; ci_column : string; ci_if_not_exists : bool; ci_name : option string;
  ci_using : option string; ci_options : list (string * string);
}.
Inductive ColumnAction :=
| ColumnAction_SetDefault (e : Expr) | ColumnAction_DropDefault
| ColumnAction_SetNotNull | ColumnAction_DropNotNull.
Inductive AlterTableAction :=
| AlterTableAction_AddColumn (c : ColumnDef)
| AlterTableAction_DropColumn (name : string)
| AlterTableAction_AlterColumn (name : string) (action : ColumnAction).
Record AlterTableStmt := mkAlterTableStmt { at_table : string; at_action : AlterTableAction }.

(** ** Rows *)

Record InsertStmt := mkInsertStmt { ins_table : string; ins_columns : list string; ins_values : list (list Expr) }.
Record DeleteStmt := mkDeleteStmt { del_table : string; del_where : option Expr }.
Record UpdateStmt := mkUpdateStmt { upd_table : string; upd_assignments : list (string * Expr); upd_where : option Expr }.
Record CopyStmt := mkCopyStmt { copy_table : string; copy_columns : list string }.

(** ** Cursors, settings, functions, sequences, topics *)

Record DeclareCursorStmt := mkDeclareCursorStmt { dc_name : string; dc_query : SelectStmt }.
Inductive FetchCount := FetchCount_Next | FetchCount_All | FetchCount_Count (n : Z).
Record FetchStmt := mkFetchStmt { fe_cursor : string; fe_count : FetchCount }.
Record SetStmt := mkSetStmt { set_name : string; set_value : string }.
Record ShowStmt := mkShowStmt { show_name : string }.
Record CreateFunctionStmt := mkCreateFunctionStmt {
  cf_name : string; cf_args : list (string * string); cf_return_type : string; cf_language : string;
  cf_body_base64 : string;
}.
Record CreateSequenceStmt := mkCreateSequenceStmt {
  cs_if_not_exists : bool; cs_name : string; cs_start : Z; cs_increment : Z;
}.
Record CreateTopicStmt := mkCreateTopicStmt {
  cto_name : string; cto_if_not_exists : bool; cto_options : list (string * string);
}.

(** ** Graph patterns *)

Inductive MatchDirection := MatchDirection_Out | MatchDirection_In | MatchDirection_Both.
Record MatchHop := mkMatchHop { mh_rel_type : option string; mh_direction : MatchDirection }.
Record MatchStmt := mkMatchStmt {
  ma_nodes : list string; ma_hops : list MatchHop; ma_table : string; ma_column : string;
  ma_start_filter : option string; ma_returns : list string; ma_limit : option Z;
}.

(** ** Roles *)

Record CreateRoleStmt := mkCreateRoleStmt {
  cr_name : string; cr_superuser : bool; cr_can_login : bool; cr_password : option string; cr_in_role : list string;
}.
Record AlterRoleStmt := mkAlterRoleStmt {
  ar_name : string; ar_superuser : option bool; ar_can_login : option bool; ar_password : option string;
}.
Record DropRoleStmt := mkDropRoleStmt { dr_if_exists : bool; dr_name : string }.

Inductive Privilege :=
| Privilege_Select | Privilege_Insert | Privilege_Update | Privilege_Delete
| Privilege_Create | Privilege_Drop | Privilege_Usage.

Inductive GrantObject :=
| GrantObject_Table (name : string) | GrantObject_Database | GrantObject_Topic (name : string).

Record GrantStmt := mkGrantStmt {
  gr_is_role_grant : bool; gr_roles : list string; gr_privileges : list Privilege;
  gr_object : GrantObject; gr_grantees : list string;
}.
Record RevokeStmt := mkRevokeStmt {
  rv_is_role_grant : bool; rv_roles : list string; rv_privileges : list Privilege;
  rv_object : GrantObject; rv_grantees : list string;
}.

(** ** Statements *)

Inductive Stmt :=
| Stmt_Select (s : SelectStmt)
| Stmt_Insert (s : InsertStmt)
| Stmt_Delete (s : DeleteStmt)
| Stmt_Update (s : UpdateStmt)
| Stmt_CreateTable (s : CreateTableStmt)
| Stmt_DropTable (s : DropTableStmt)
| Stmt_DropIndex (s : DropIndexStmt)
| Stmt_CreateIndex (s : CreateIndexStmt)
| Stmt_AlterTable (s : AlterTableStmt)
| Stmt_Set (s : SetStmt)
| Stmt_Show (s : ShowStmt)
| Stmt_Begin
| Stmt_Commit
| Stmt_Rollback
| Stmt_DeclareCursor (s : DeclareCursorStmt)
| Stmt_Fetch (s : FetchStmt)
| Stmt_MoveCursor (s : FetchStmt)
| Stmt_CloseCursor (name : string)
| Stmt_Listen (channel : string)
| Stmt_Notify (channel : string) (payload : option string)
| Stmt_Unlisten (channel : string)
| Stmt_CopyIn (s : CopyStmt)
| Stmt_CopyOut (s : CopyStmt)
| Stmt_CreateFunction (s : CreateFunctionStmt)
| Stmt_CreateSequence (s : CreateSequenceStmt)
| Stmt_CreateTopic (s : CreateTopicStmt)
| Stmt_Analyze (table : option string)
| Stmt_Match (s : MatchStmt)
| Stmt_CreateRole (s : CreateRoleStmt)
| Stmt_AlterRole (s : AlterRoleStmt)
| Stmt_DropRole (s : DropRoleStmt)
| Stmt_Grant (s : GrantStmt)
| Stmt_Revoke (s : RevokeStmt).

(** A query with nothing but a FROM clause and [SELECT *]. *)
Definition select_star (from : option TableWithJoins) (where_ : option Expr) : SelectStmt :=
  mkSelectStmt [] false [Projection_Wildcard] from where_ [] None [] None None None.

Definition plain_table (name : string) : TableWithJoins :=
  mkTableWithJoins (mkTableRef name None None None) [].
