(* ===== verification/Decimal.v ===== *)
(** Decimal integers of the standard library: [to_string] of an integer and
    [str::parse] at [i64] and [u32]. *)

From Stdlib Require Import Strings.Byte Strings.String ZArith Lia.
From stdpp Require Import base list strings.
From S2P Require Import Prelude Utf8.

Open Scope Z_scope.

Definition digit (d : Z) : byte := byte_of_Z (48 + d).

(** The digits of a number below [10 ^ fuel], before [acc]. *)
Fixpoint digits (fuel : nat) (n : Z) (acc : bytes) : bytes :=
  match fuel with
  | O => acc
  | S fuel' => if n <? 10 then digit n :: acc else digits fuel' (n / 10) (digit (n mod 10) :: acc)
  end.

(** [n.to_string()]; twenty digits hold every 64-bit integer. *)
Definition dec_bytes (n : Z) : bytes :=
  if n <? 0 then Byte.x2d :: digits 20 (- n) [] else digits 20 n [].

Definition to_dec (n : Z) : string := string_of_list_byte (dec_bytes n).

(** Digits up to a limit: [None] on anything else and on overflow. *)
Fixpoint parse_digits (limit acc : Z) (bs : bytes) : option Z :=
  match bs with
  | [] => Some acc
  | b :: bs' =>
      let d := Z_of_byte b - 48 in
      if (d <? 0) || (9 <? d) then None
      else if limit <? acc * 10 + d then None
      else parse_digits limit (acc * 10 + d) bs'
  end.

(** A sign alone is refused. *)
Definition parse_all (limit : Z) (bs : bytes) : option Z :=
  match bs with [] => None | _ => parse_digits limit 0 bs end.

Definition parse_unsigned (limit : Z) (bs : bytes) : option Z :=
  match bs with
  | b :: ds => if byte_eqb b Byte.x2b then parse_all limit ds else parse_all limit bs
  | [] => None
  end.

Definition parse_signed (limit : Z) (bs : bytes) : option Z :=
  match bs with
  | b :: ds => if byte_eqb b Byte.x2d then Z.opp <$> parse_all (limit + 1) ds else parse_unsigned limit bs
  | [] => None
  end.

Definition parse_u32 (s : string) : option Z := parse_unsigned (2 ^ 32 - 1) (as_bytes s).
Definition parse_i64 (s : string) : option Z := parse_signed (2 ^ 63 - 1) (as_bytes s).

Lemma digit_value (d : Z) : 0 <= d < 10 -> Z_of_byte (digit d) - 48 = d.
Proof. intros Hd. unfold digit. rewrite Z_of_byte_of_Z, Z.mod_small by lia. lia. Qed.

(** Parsing the digits of [n] from zero leaves [n]. *)
Lemma parse_digits_app (limit acc : Z) (a b : bytes) (v : Z) :
  parse_digits limit acc a = Some v -> parse_digits limit acc (a ++ b) = parse_digits limit v b.
Proof.
  revert acc. induction a as [|x a IH]; intros acc; cbn [parse_digits app]; [by intros [= ->]|].
  destruct (_ || _); [done|]. destruct (limit <? _); [done|]. apply IH.
Qed.

Lemma digits_app (fuel : nat) (n : Z) (acc : bytes) : digits fuel n acc = digits fuel n [] ++ acc.
Proof.
  revert n acc. induction fuel as [|fuel IH]; intros n acc; cbn [digits]; [done|].
  destruct (n <? 10); [done|]. by rewrite IH, (IH _ [_]), <- app_assoc.
Qed.

Lemma parse_digits_of (fuel : nat) (n limit : Z) :
  (0 < fuel)%nat -> 0 <= n < 10 ^ Z.of_nat fuel -> n <= limit -> parse_digits limit 0 (digits fuel n []) = Some n.
Proof.
  revert n. induction fuel as [|fuel IH]; intros n Hf Hn Hl; [lia|]. cbn [digits].
  assert (forall acc d, 0 <= acc -> 0 <= d < 10 -> acc * 10 + d <= limit ->
    parse_digits limit acc [digit d] = Some (acc * 10 + d)) as Hone.
  { intros acc d Hacc Hd Hle. cbn [parse_digits]. rewrite digit_value by done.
    rewrite (proj2 (Z.ltb_ge d 0)), (proj2 (Z.ltb_ge 9 d)), (proj2 (Z.ltb_ge limit _)) by lia. done. }
  destruct (Z.ltb_spec n 10) as [H10|H10]; [apply (Hone 0); lia|].
  replace (Z.of_nat (S fuel)) with (1 + Z.of_nat fuel) in Hn by lia. rewrite Z.pow_add_r in Hn by lia.
  pose proof (Z.div_mod n 10 ltac:(lia)) as Hdm. pose proof (Z.mod_pos_bound n 10 ltac:(lia)) as Hm.
  assert (0 < fuel)%nat by (destruct fuel; [simpl in Hn; lia | lia]).
  rewrite digits_app. rewrite (parse_digits_app _ _ _ _ (n / 10)).
  - rewrite (Hone (n / 10) (n mod 10)); [f_equal; lia | apply Z.div_pos; lia | lia | lia].
  - apply IH; [lia | split; [apply Z.div_pos; lia | apply Z.div_lt_upper_bound; lia] | lia].
Qed.

(** The first digit is not a sign. *)
Lemma digits_cons (fuel : nat) (n : Z) (tl : bytes) :
  (0 < fuel)%nat -> 0 <= n -> exists d ds, 0 <= d < 10 /\ digits fuel n tl = digit d :: ds.
Proof.
  revert n tl. induction fuel as [|fuel IH]; intros n tl Hf Hn; [lia|]. cbn [digits].
  destruct (Z.ltb_spec n 10); [exists n, tl; split; [lia | done]|].
  destruct fuel as [|fuel]; [exists (n mod 10), tl; split; [apply Z.mod_pos_bound; lia | done]|].
  apply IH; [lia | apply Z.div_pos; lia].
Qed.

Lemma digit_no_sign (d : Z) : 0 <= d < 10 -> digit d <> Byte.x2d /\ digit d <> Byte.x2b.
Proof.
  intros Hd. pose proof (digit_value d Hd) as H. split; intros E; rewrite E in H; vm_compute in H; lia.
Qed.

Lemma parse_unsigned_digits (limit n : Z) :
  0 <= n < 10 ^ 20 -> n <= limit ->
  parse_unsigned limit (digits 20 n []) = Some n /\ parse_signed limit (digits 20 n []) = Some n.
Proof.
  intros Hn Hl. destruct (digits_cons 20 n [] ltac:(lia) ltac:(lia)) as (d & ds & Hd & Heq).
  pose proof (parse_digits_of 20 n limit ltac:(lia) Hn Hl) as Hp. rewrite Heq in *.
  destruct (digit_no_sign d Hd) as [H1 H2]. unfold parse_signed, parse_unsigned, byte_eqb.
  by rewrite !bool_decide_eq_false_2.
Qed.

Lemma as_bytes_to_dec (n : Z) : as_bytes (to_dec n) = dec_bytes n.
Proof. apply list_byte_of_string_of_list_byte. Qed.

Lemma parse_u32_to_dec (n : Z) : is_u32 n -> parse_u32 (to_dec n) = Some n.
Proof.
  intros [H1 H2]. unfold parse_u32. rewrite as_bytes_to_dec. unfold dec_bytes. rewrite (proj2 (Z.ltb_ge n 0)) by lia.
  apply parse_unsigned_digits; [split; [lia|]; eapply Z.lt_trans; [exact H2 | done] | lia].
Qed.

Lemma parse_i64_to_dec (n : Z) : - 2 ^ 63 <= n < 2 ^ 63 -> parse_i64 (to_dec n) = Some n.
Proof.
  intros [H1 H2]. unfold parse_i64. rewrite as_bytes_to_dec. unfold dec_bytes. destruct (Z.ltb_spec n 0) as [Hn|Hn].
  - assert (0 <= - n < 10 ^ 20) as Hb by (split; [lia|]; apply Z.le_lt_trans with (2 ^ 63); [lia | done]).
    pose proof (parse_digits_of 20 (- n) (2 ^ 63 - 1 + 1) ltac:(lia) Hb ltac:(lia)) as Hp.
    destruct (digits_cons 20 (- n) [] ltac:(lia) ltac:(lia)) as (d & ds & Hd & Heq). unfold parse_signed.
    change (byte_eqb Byte.x2d Byte.x2d) with true. rewrite Heq in *. unfold parse_all. rewrite Hp. simpl. f_equal. lia.
  - apply parse_unsigned_digits; [split; [lia|]; eapply Z.lt_trans; [exact H2 | done] | lia].
Qed.

Lemma digits_forall (P : byte -> Prop) (fuel : nat) (n : Z) (acc : bytes) :
  (forall d, 0 <= d < 10 -> P (digit d)) -> 0 <= n -> Forall P acc -> Forall P (digits fuel n acc).
Proof.
  intros HP. revert n acc. induction fuel as [|fuel IH]; intros n acc Hn Ha; cbn [digits]; [done|].
  destruct (Z.ltb_spec n 10); [apply Forall_cons_2; [apply HP; lia | done]|].
  apply IH; [apply Z.div_pos; lia|]. apply Forall_cons_2; [apply HP, Z.mod_pos_bound; lia | done].
Qed.

Lemma digits_ascii (fuel : nat) (n : Z) (acc : bytes) :
  0 <= n -> Forall (fun b => Z_of_byte b < 128) acc -> Forall (fun b => Z_of_byte b < 128) (digits fuel n acc).
Proof. intros Hn. apply digits_forall; [|done]. intros d Hd. pose proof (digit_value d Hd). lia. Qed.

Lemma length_digits (fuel : nat) (n : Z) (acc : bytes) : (length (digits fuel n acc) <= fuel + length acc)%nat.
Proof.
  revert n acc. induction fuel as [|fuel IH]; intros n acc; cbn [digits]; [done|].
  destruct (n <? 10); [simpl; lia|]. etransitivity; [apply IH|]. simpl. lia.
Qed.

Lemma zlen_dec_bytes (n : Z) : zlen (dec_bytes n) <= 21.
Proof.
  unfold dec_bytes. destruct (n <? 0); rewrite ?zlen_cons; unfold zlen;
    [pose proof (length_digits 20 (- n) []) as Hl | pose proof (length_digits 20 n []) as Hl];
    change (length []) with O in Hl; lia.
Qed.

Lemma is_string_to_dec (n : Z) : is_string (to_dec n).
Proof.
  unfold is_string. rewrite as_bytes_to_dec. apply utf8_ascii. unfold dec_bytes. destruct (Z.ltb_spec n 0).
  - apply Forall_cons_2; [by vm_compute|]. apply digits_ascii; [lia | by apply Forall_nil].
  - apply digits_ascii; [lia | by apply Forall_nil].
Qed.
