(* ===== verification/Auth.v ===== *)
(** Roles and passwords: SCRAM-SHA-256 ([wire/scram.rs]) and the role
    catalogue ([wire/roles.rs]).

    - [derive_credential], [server_first] and [verify_client_final], on
      messages as bytes; the random nonce is an argument;
    - [RoleStore] as functions on the row store: looking roles up, creating,
      altering and dropping them, and the migration of old rows that opening
      the store runs. The clock and the random salt are arguments.

    HMAC, SHA-256, PBKDF2 and Base64 are the [hmac], [sha2], [pbkdf2] and
    [base64] crates: [Crypto], with what their documentation says in
    [CryptoLaws]. *)

From Stdlib Require Import Strings.Byte Strings.String ZArith Lia.
From stdpp Require Import base list gmap sets strings.
From S2P Require Import Prelude OrdMap Utf8 Decimal Txn Rows Roles.

Open Scope Z_scope.

Class Crypto := {
  hmac_sha256 : bytes -> bytes -> bytes;
  sha256_digest : bytes -> bytes;
  pbkdf2_hmac : bytes -> bytes -> Z -> bytes;
  b64_encode : bytes -> string;
  b64_decode : string -> option bytes;
}.

Definition COMMA : byte := Byte.x2c.

Class CryptoLaws {cr : Crypto} := {
  hmac_length k m : length (hmac_sha256 k m) = 32%nat;
  digest_length m : length (sha256_digest m) = 32%nat;
  b64_roundtrip bs : b64_decode (b64_encode bs) = Some bs;
  b64_string bs : is_string (b64_encode bs);
  b64_no_comma bs : COMMA ∉ as_bytes (b64_encode bs);
  b64_length bs : zlen (as_bytes (b64_encode bs)) <= 2 * zlen bs + 4;
}.

(** ** SCRAM *)

Record ScramCredential := mkScramCredential {
  sc_salt : bytes; sc_iterations : Z; sc_stored_key : bytes; sc_server_key : bytes;
}.

(** [s.split(sep)] for an ASCII separator. *)
Fixpoint split_on (sep : byte) (cur : bytes) (s : bytes) : list bytes :=
  match s with
  | [] => [cur]
  | b :: s' => if byte_eqb b sep then cur :: split_on sep [] s' else split_on sep (cur ++ [b]) s'
  end.

Definition EQUALS : byte := Byte.x3d.

Fixpoint find_field (key : byte) (parts : list bytes) : option bytes :=
  match parts with
  | [] => None
  | part :: parts' =>
      match part with
      | b0 :: b1 :: rest => if byte_eqb b0 key && byte_eqb b1 EQUALS then Some rest else find_field key parts'
      | _ => find_field key parts'
      end
  end.

Definition field (s : bytes) (key : byte) : option bytes := find_field key (split_on COMMA [] s).

Definition strip (prefix s : bytes) : option bytes :=
  if bool_decide (take (length prefix) s = prefix) then Some (drop (length prefix) s) else None.

Record ServerFirst := mkServerFirst {
  sf_client_first_bare : bytes; sf_server_first_message : bytes; sf_combined_nonce : bytes;
}.

Section Scram.
  Context {cr : Crypto}.

Definition derive_credential (password : string) (salt : bytes) (iterations : Z) : ScramCredential :=
  let salted_password := pbkdf2_hmac (as_bytes password) salt iterations in
  let client_key := hmac_sha256 salted_password (as_bytes "Client Key") in
  mkScramCredential salt iterations (sha256_digest client_key) (hmac_sha256 salted_password (as_bytes "Server Key")).

(** [server_nonce] is 18 random bytes. *)
Definition server_first (client_first server_nonce : bytes) (cred : ScramCredential) : Result ServerFirst :=
  match from_utf8 client_first with
  | None => Err "invalid utf-8"%string
  | Some _ =>
      let? bare := ok_or (match strip (as_bytes "n,,") client_first with
                          | Some bare => Some bare
                          | None => strip (as_bytes "y,,") client_first
                          end) "unsupported SCRAM gs2-header (channel binding not supported)" in
      let? client_nonce := ok_or (field bare Byte.x72) "missing client nonce" in
      let combined_nonce := client_nonce ++ as_bytes (b64_encode server_nonce) in
      let message := as_bytes "r=" ++ combined_nonce ++ as_bytes ",s=" ++ as_bytes (b64_encode (sc_salt cred))
                       ++ as_bytes ",i=" ++ dec_bytes (sc_iterations cred) in
      Ok (mkServerFirst bare message combined_nonce)
  end.

Definition xor_bytes (a b : bytes) : bytes :=
  zip_with (fun x y => byte_of_Z (Z.lxor (Z_of_byte x) (Z_of_byte y))) a b.

Definition auth_message (first : ServerFirst) (without_proof : bytes) : bytes :=
  sf_client_first_bare first ++ [COMMA] ++ sf_server_first_message first ++ [COMMA] ++ without_proof.

Definition verify_client_final (client_final : bytes) (first : ServerFirst) (cred : ScramCredential) : Result bytes :=
  match from_utf8 client_final with
  | None => Err "invalid utf-8"%string
  | Some _ =>
      let? channel_binding := ok_or (field client_final Byte.x63) "missing channel binding" in
      let? nonce := ok_or (field client_final Byte.x72) "missing nonce" in
      if negb (bool_decide (nonce = sf_combined_nonce first)) then Err "nonce mismatch"%string
      else
        let? proof_b64 := ok_or (field client_final Byte.x70) "missing proof" in
        let? proof := ok_or (b64_decode (string_of_list_byte proof_b64)) "invalid base64" in
        if negb (zlen proof =? 32) then Err "malformed client proof"%string
        else
          let without_proof := as_bytes "c=" ++ channel_binding ++ as_bytes ",r=" ++ nonce in
          let msg := auth_message first without_proof in
          let client_signature := hmac_sha256 (sc_stored_key cred) msg in
          let client_key := xor_bytes proof client_signature in
          if negb (bool_decide (sha256_digest client_key = sc_stored_key cred))
          then Err "SCRAM proof verification failed"%string
          else Ok (as_bytes "v=" ++ as_bytes (b64_encode (hmac_sha256 (sc_server_key cred) msg)))
  end.

End Scram.

(** ** The role catalogue *)

Definition ROLES : string := "_tpt_roles".

Record RoleAttributes := mkRoleAttributes { ra_superuser : bool; ra_can_login : bool }.

Definition role_cell (value : bytes) (idx : nat) : Result string :=
  cell_str "missing/invalid _tpt_roles cell" value idx.

Definition flag (b : bool) : string := if b then "t" else "f".

Definition flag_cell (value : bytes) (idx : nat) (default_ : bool) : bool :=
  match role_cell value idx with Ok s => String.eqb s "t" | Err _ => default_ end.

Definition attributes_of (value : bytes) : RoleAttributes :=
  mkRoleAttributes (flag_cell value 6 false) (flag_cell value 7 true).

Definition int_cell (n : Z) : option bytes := Some (dec_bytes n).

(** The eight cells of a role. *)
Definition role_row (name salt iterations stored_key server_key : string) (created_at : Z) (superuser can_login : bool)
    : bytes :=
  encode_cells [text_cell name; text_cell salt; text_cell iterations; text_cell stored_key; text_cell server_key;
                int_cell created_at; text_cell (flag superuser); text_cell (flag can_login)].

Definition or_else {A : Type} (r : Result A) (d : A) : A := match r with Ok a => a | Err _ => d end.

Section Store.
  Context {cr : Crypto} {S : Type} {rs : RowStore S}.

Definition roles_is_empty (s : S) : Result bool :=
  let? kvs := rs_scan ROLES s in Ok (bool_decide (kvs = [])).

Definition find_role (name : string) (s : S) : Result (option RoleAttributes) :=
  let? value := rs_read ROLES (as_bytes name) s in Ok (attributes_of <$> value).

Definition decode_key (what b64 : string) : Result bytes :=
  let? key := ok_or (b64_decode b64) "invalid base64" in
  if zlen key =? 32 then Ok key else Err what.

Definition credential_of (value : bytes) : Result ScramCredential :=
  let? salt_b64 := role_cell value 1 in
  let? iterations_text := role_cell value 2 in
  let? iterations := ok_or (parse_u32 iterations_text) "invalid digit found in string" in
  let? stored_key_b64 := role_cell value 3 in
  let? server_key_b64 := role_cell value 4 in
  let? salt := ok_or (b64_decode salt_b64) "invalid base64" in
  let? stored_key := decode_key "corrupt stored_key" stored_key_b64 in
  let? server_key := decode_key "corrupt server_key" server_key_b64 in
  Ok (mkScramCredential salt iterations stored_key server_key).

Definition find (name : string) (s : S) : Result (option ScramCredential) :=
  let? value := rs_read ROLES (as_bytes name) s in
  match value with
  | None => Ok None
  | Some value => let? cred := credential_of value in Ok (Some cred)
  end.

Definition verify_password (name password : string) (s : S) : Result bool :=
  let? found := find name s in
  match found with
  | None => Ok false
  | Some cred =>
      let candidate := derive_credential password (sc_salt cred) (sc_iterations cred) in
      Ok (bool_decide (sc_stored_key candidate = sc_stored_key cred)
          && bool_decide (sc_server_key candidate = sc_server_key cred))
  end.

(** [salt] and [now] are what [random_salt] and [now_ms] return. *)
Definition upsert_with_attrs (name : string) (password : option string) (superuser can_login : bool)
    (salt : bytes) (now : Z) (s : S) : S * Result unit :=
  let row :=
    match password with
    | Some pw =>
        let cred := derive_credential pw salt 4096 in
        role_row name (b64_encode (sc_salt cred)) (to_dec (sc_iterations cred)) (b64_encode (sc_stored_key cred))
          (b64_encode (sc_server_key cred)) now superuser can_login
    | None => role_row name "" (to_dec 0) "" "" now superuser can_login
    end in
  rs_write ROLES (as_bytes name) row s.

Definition upsert (name password : string) (salt : bytes) (now : Z) (s : S) : S * Result unit :=
  upsert_with_attrs name (Some password) false true salt now s.

Fixpoint grant_memberships (member : string) (groups : list string) (s : S) : S * Result unit :=
  match groups with
  | [] => (s, Ok tt)
  | group :: groups' =>
      match grant_membership member group s with
      | (s, Ok _) => grant_memberships member groups' s
      | (s, Err e) => (s, Err e)
      end
  end.

Definition create_role (name : string) (superuser can_login : bool) (password : option string) (in_role : list string)
    (salt : bytes) (now : Z) (s : S) : S * Result unit :=
  match find_role name s with
  | Err e => (s, Err e)
  | Ok (Some _) => (s, Err "role already exists"%string)
  | Ok None =>
      match upsert_with_attrs name password superuser can_login salt now s with
      | (s, Err e) => (s, Err e)
      | (s, Ok _) => grant_memberships name in_role s
      end
  end.

Definition alter_role (name : string) (superuser can_login : option bool) (password : option string)
    (salt : bytes) (now : Z) (s : S) : S * Result unit :=
  match rs_read ROLES (as_bytes name) s with
  | Err e => (s, Err e)
  | Ok None => (s, Err "role does not exist"%string)
  | Ok (Some value) =>
      let new_super := default (flag_cell value 6 false) superuser in
      let new_login := default (flag_cell value 7 true) can_login in
      match password with
      | Some pw => upsert_with_attrs name (Some pw) new_super new_login salt now s
      | None =>
          let salt := or_else (role_cell value 1) ""%string in
          let iterations := or_else (role_cell value 2) "0"%string in
          let stored_key := or_else (role_cell value 3) ""%string in
          let server_key := or_else (role_cell value 4) ""%string in
          let created_at := or_else (role_cell value 5) "0"%string in
          rs_write ROLES (as_bytes name)
            (role_row name salt iterations stored_key server_key (default 0 (parse_i64 created_at)) new_super new_login) s
      end
  end.

Definition drop_role (name : string) (if_exists : bool) (s : S) : S * Result unit :=
  match find_role name s with
  | Err e => (s, Err e)
  | Ok None => (s, if if_exists then Ok tt else Err "role does not exist"%string)
  | Ok (Some _) =>
      match rs_delete ROLES (as_bytes name) s with
      | (s, Err e) => (s, Err e)
      | (s, Ok _) => revoke_all name s
      end
  end.

Definition bootstrap_if_empty (user password : string) (salt : bytes) (now : Z) (s : S) : S * Result unit :=
  match roles_is_empty s with
  | Err e => (s, Err e)
  | Ok true => upsert_with_attrs user (Some password) true true salt now s
  | Ok false => (s, Ok tt)
  end.

Fixpoint role_names (kvs : list KeyValue) : list (string * RoleAttributes) :=
  match kvs with
  | [] => []
  | kv :: kvs' =>
      match (match decode_cell (kv_value kv) 0 with Some b => from_utf8 b | None => None end) with
      | Some name => (name, attributes_of (kv_value kv)) :: role_names kvs'
      | None => role_names kvs'
      end
  end.

Definition db_scan_roles (s : S) : Result (list (string * RoleAttributes)) :=
  let? kvs := rs_scan ROLES s in Ok (role_names kvs).

(** A row of an installation that had no attributes yet. *)
Definition migrated_row (value : bytes) : Result (string * bytes) :=
  let? name := ok_or (match decode_cell value 0 with Some b => from_utf8 b | None => None end)
                 "corrupt _tpt_roles row during migration" in
  let? salt := role_cell value 1 in
  let? iterations := role_cell value 2 in
  let? stored_key := role_cell value 3 in
  let? server_key := role_cell value 4 in
  let created_at := or_else (role_cell value 5) "0"%string in
  Ok (name, role_row name salt iterations stored_key server_key (default 0 (parse_i64 created_at)) true true).

Fixpoint migrate_rows (kvs : list KeyValue) (s : S) : S * Result unit :=
  match kvs with
  | [] => (s, Ok tt)
  | kv :: kvs' =>
      match role_cell (kv_value kv) 6 with
      | Ok _ => migrate_rows kvs' s
      | Err _ =>
          match migrated_row (kv_value kv) with
          | Err e => (s, Err e)
          | Ok (name, row) =>
              match rs_write ROLES (as_bytes name) row s with
              | (s, Ok _) => migrate_rows kvs' s
              | (s, Err e) => (s, Err e)
              end
          end
      end
  end.

(** What [RoleStore::new] does once the tables exist. *)
Definition migrate_legacy_rows (s : S) : S * Result unit :=
  match rs_scan ROLES s with
  | Err e => (s, Err e)
  | Ok kvs => migrate_rows kvs s
  end.

End Store.

(** ** The SCRAM exchange *)

Lemma byte_eqb_false (a b : byte) : a <> b -> byte_eqb a b = false.
Proof. intros H. by apply bool_decide_eq_false. Qed.

Lemma split_on_last (sep : byte) (cur s : bytes) : sep ∉ s -> split_on sep cur s = [cur ++ s].
Proof.
  revert cur. induction s as [|b s IH]; intros cur Hs; cbn [split_on]; [by rewrite app_nil_r|].
  rewrite byte_eqb_false by set_solver. rewrite IH by set_solver. by rewrite <- app_assoc.
Qed.

Lemma split_on_sep (sep : byte) (cur a s : bytes) :
  sep ∉ a -> split_on sep cur (a ++ sep :: s) = (cur ++ a) :: split_on sep [] s.
Proof.
  revert cur. induction a as [|b a IH]; intros cur Ha; cbn [app split_on].
  - by rewrite byte_eqb_refl, app_nil_r.
  - rewrite byte_eqb_false by set_solver. rewrite IH by set_solver. by rewrite <- app_assoc.
Qed.

Lemma xor_cancel (a b : bytes) : length a = length b -> xor_bytes (xor_bytes a b) b = a.
Proof.
  unfold xor_bytes. revert b. induction a as [|x a IH]; intros [|y b] Hl; try done. cbn [zip_with]. f_equal; [|auto].
  pose proof (Z_of_byte_range x). pose proof (Z_of_byte_range y).
  rewrite Z_of_byte_of_Z, Z.mod_small, Z.lxor_assoc, Z.lxor_nilpotent, Z.lxor_0_r; [apply byte_of_Z_of_byte|].
  split; [apply Z.lxor_nonneg; lia|]. destruct (decide (Z.lxor (Z_of_byte x) (Z_of_byte y) = 0)) as [->|]; [done|].
  apply Z.log2_lt_cancel. eapply Z.le_lt_trans; [apply Z.log2_lxor; lia|]. change (Z.log2 (2 ^ 8)) with 8.
  apply Z.max_lub_lt; [destruct (decide (Z_of_byte x = 0)) as [->|] | destruct (decide (Z_of_byte y = 0)) as [->|]];
    try done; apply Z.log2_lt_pow2; change (2 ^ 8) with 256; lia.
Qed.

Lemma length_xor (a b : bytes) : length a = length b -> length (xor_bytes a b) = length a.
Proof. intros H. unfold xor_bytes. rewrite length_zip_with. lia. Qed.

(** The client's half, as RFC 5802 has it. *)
Section Client.
  Context {cr : Crypto} {laws : CryptoLaws}.

Definition client_bare (user nonce : bytes) : bytes := as_bytes "n=" ++ user ++ as_bytes ",r=" ++ nonce.

Definition client_without_proof (gs2 : bytes) (first : ServerFirst) : bytes :=
  as_bytes "c=" ++ as_bytes (b64_encode gs2) ++ as_bytes ",r=" ++ sf_combined_nonce first.

Definition client_proof (password : string) (salt : bytes) (iterations : Z) (gs2 : bytes) (first : ServerFirst) : bytes :=
  let client_key := hmac_sha256 (pbkdf2_hmac (as_bytes password) salt iterations) (as_bytes "Client Key") in
  xor_bytes client_key (hmac_sha256 (sha256_digest client_key) (auth_message first (client_without_proof gs2 first))).

Definition client_final (password : string) (salt : bytes) (iterations : Z) (gs2 : bytes) (first : ServerFirst) : bytes :=
  client_without_proof gs2 first ++ as_bytes ",p=" ++ as_bytes (b64_encode (client_proof password salt iterations gs2 first)).

(** Text without a comma. *)
Definition plain (s : bytes) : Prop := utf8_valid s = true /\ COMMA ∉ s.

Lemma plain_b64 (bs : bytes) : plain (as_bytes (b64_encode bs)).
Proof. split; [apply b64_string | apply b64_no_comma]. Qed.

(** The parts of a message between its commas. *)
Lemma split_final (cb nonce proof : bytes) :
  COMMA ∉ cb -> COMMA ∉ nonce -> COMMA ∉ proof ->
  split_on COMMA [] (as_bytes "c=" ++ cb ++ as_bytes ",r=" ++ nonce ++ as_bytes ",p=" ++ proof)
  = [as_bytes "c=" ++ cb; as_bytes "r=" ++ nonce; as_bytes "p=" ++ proof].
Proof.
  intros Hc Hn Hp.
  assert (forall (c : string) (l : bytes), COMMA ∉ as_bytes c -> COMMA ∉ l -> COMMA ∉ as_bytes c ++ l) as Happ
    by (intros c l H1 H2 [?|?]%elem_of_app; done).
  transitivity (split_on COMMA [] ((as_bytes "c=" ++ cb) ++ COMMA :: ((as_bytes "r=" ++ nonce) ++ COMMA :: (as_bytes "p=" ++ proof)))).
  { reflexivity. }
  rewrite !split_on_sep, split_on_last by (apply Happ; [by refine (bool_decide_unpack _ _); vm_compute | done]). done.
Qed.

Lemma final_fields (password : string) (salt : bytes) (iterations : Z) (gs2 : bytes) (first : ServerFirst) :
  COMMA ∉ sf_combined_nonce first ->
  let final := client_final password salt iterations gs2 first in
  field final Byte.x63 = Some (as_bytes (b64_encode gs2)) /\ field final Byte.x72 = Some (sf_combined_nonce first)
  /\ field final Byte.x70 = Some (as_bytes (b64_encode (client_proof password salt iterations gs2 first))).
Proof.
  intros Hn final. unfold field, final, client_final, client_without_proof.
  rewrite <- !app_assoc. rewrite split_final by (done || apply b64_no_comma). done.
Qed.

Lemma utf8_app3 (a b c : bytes) :
  utf8_valid a = true -> utf8_valid b = true -> utf8_valid c = true -> utf8_valid (a ++ b ++ c) = true.
Proof. intros. by repeat apply utf8_valid_app. Qed.

Lemma final_utf8 (password : string) (salt : bytes) (iterations : Z) (gs2 : bytes) (first : ServerFirst) :
  utf8_valid (sf_combined_nonce first) = true ->
  exists s, from_utf8 (client_final password salt iterations gs2 first) = Some s.
Proof.
  intros Hn. unfold from_utf8, client_final, client_without_proof.
  assert (utf8_valid ((as_bytes "c=" ++ as_bytes (b64_encode gs2) ++ as_bytes ",r=" ++ sf_combined_nonce first)
    ++ as_bytes ",p=" ++ as_bytes (b64_encode (client_proof password salt iterations gs2 first))) = true) as ->; [|by eauto].
  apply utf8_app3; [|done | apply b64_string]. apply utf8_app3; [done | apply b64_string|]. by apply utf8_valid_app.
Qed.

Lemma server_first_ok (gs2 user nonce server_nonce : bytes) (cred : ScramCredential) :
  gs2 = as_bytes "n,," \/ gs2 = as_bytes "y,," -> plain user -> plain nonce ->
  exists first, server_first (gs2 ++ client_bare user nonce) server_nonce cred = Ok first
    /\ sf_combined_nonce first = nonce ++ as_bytes (b64_encode server_nonce).
Proof.
  intros Hgs [Hu1 Hu2] [Hn1 Hn2]. unfold server_first, from_utf8.
  assert (utf8_valid (gs2 ++ client_bare user nonce) = true) as ->.
  { apply utf8_valid_app; [by destruct Hgs as [->| ->]|]. apply utf8_app3; [done | done | by apply utf8_valid_app]. }
  assert (match strip (as_bytes "n,,") (gs2 ++ client_bare user nonce) with
          | Some bare => Some bare | None => strip (as_bytes "y,,") (gs2 ++ client_bare user nonce) end
          = Some (client_bare user nonce)) as -> by (by destruct Hgs as [->| ->]).
  assert (field (client_bare user nonce) Byte.x72 = Some nonce) as Hf.
  { unfold field. transitivity (find_field Byte.x72 (split_on COMMA [] ((as_bytes "n=" ++ user) ++ COMMA :: (as_bytes "r=" ++ nonce)))).
    { unfold client_bare. by rewrite <- app_assoc. }
    rewrite split_on_sep, split_on_last; [done| |];
      (intros [H|H]%elem_of_app; [revert H; by refine (bool_decide_unpack _ _); vm_compute | done]). }
  cbn [ok_or]. rewrite Hf. cbn [ok_or]. eexists. split; [reflexivity|]. done.
Qed.

Lemma plain_app (a b : bytes) : plain a -> plain b -> plain (a ++ b).
Proof. intros [Ha1 Ha2] [Hb1 Hb2]. split; [by apply utf8_valid_app | by intros [?|?]%elem_of_app]. Qed.

(** The right password is accepted. A client that follows RFC 5802 with
    the password that a credential was derived from gets through the
    exchange, with or without announcing channel binding, whatever nonces and
    salt are drawn, and receives the server's signature over the messages
    that both sides saw. *)
Theorem scram_accepts_the_password (password : string) (salt : bytes) (iterations : Z)
    (gs2 user nonce server_nonce : bytes) :
  gs2 = as_bytes "n,," \/ gs2 = as_bytes "y,," -> plain user -> plain nonce ->
  let cred := derive_credential password salt iterations in
  exists first, server_first (gs2 ++ client_bare user nonce) server_nonce cred = Ok first
    /\ verify_client_final (client_final password salt iterations gs2 first) first cred
       = Ok (as_bytes "v=" ++ as_bytes (b64_encode (hmac_sha256 (sc_server_key cred)
               (auth_message first (client_without_proof gs2 first))))).
Proof.
  intros Hgs Hu Hn cred. destruct (server_first_ok gs2 user nonce server_nonce cred Hgs Hu Hn) as (first & Hf & Hnonce).
  exists first. split; [done|]. destruct (plain_app nonce _ Hn (plain_b64 server_nonce)) as [Hv Hc]. rewrite <- Hnonce in Hv, Hc.
  unfold verify_client_final. destruct (final_utf8 password salt iterations gs2 first Hv) as [s ->].
  destruct (final_fields password salt iterations gs2 first Hc) as (-> & -> & ->). cbn [ok_or].
  rewrite bool_decide_eq_true_2 by done. cbn [negb].
  unfold as_bytes at 1. rewrite string_of_list_byte_of_string, b64_roundtrip. cbn [ok_or].
  assert (length (client_proof password salt iterations gs2 first) = 32%nat) as Hlen
    by (unfold client_proof; rewrite length_xor; rewrite ?hmac_length; done).
  unfold zlen. rewrite Hlen. cbn [Z.of_nat Pos.of_succ_nat Z.eqb negb].
  change (as_bytes "c=" ++ as_bytes (b64_encode gs2) ++ as_bytes ",r=" ++ sf_combined_nonce first)
    with (client_without_proof gs2 first).
  unfold client_proof. rewrite xor_cancel by (by rewrite !hmac_length). rewrite bool_decide_eq_true_2 by done. done.
Qed.

(** A recorded answer is no use for another challenge: the final message
    for one challenge is refused under any challenge with another nonce, of
    which the server draws its half afresh. *)
Theorem scram_refuses_replay (password : string) (salt : bytes) (iterations : Z) (gs2 : bytes)
    (first first' : ServerFirst) (cred : ScramCredential) :
  plain (sf_combined_nonce first) -> sf_combined_nonce first <> sf_combined_nonce first' ->
  verify_client_final (client_final password salt iterations gs2 first) first' cred = Err "nonce mismatch"%string.
Proof.
  intros [Hv Hc] Hne. unfold verify_client_final. destruct (final_utf8 password salt iterations gs2 first Hv) as [s ->].
  destruct (final_fields password salt iterations gs2 first Hc) as (-> & -> & _). cbn [ok_or].
  by rewrite bool_decide_eq_false_2.
Qed.

End Client.

(** ** Roles *)

(** Text that fits a cell. *)
Definition text_ok (s : string) : Prop := is_string s /\ zlen (as_bytes s) < 2 ^ 31.

Lemma name_text_ok (n : string) : name_ok n -> text_ok n.
Proof. intros [H1 H2]. split; [done | lia]. Qed.

Lemma dec_text_ok (n : Z) : text_ok (to_dec n).
Proof. split; [apply is_string_to_dec|]. rewrite as_bytes_to_dec. pose proof (zlen_dec_bytes n). lia. Qed.

Lemma flag_text_ok (b : bool) : text_ok (flag b).
Proof. destruct b; by split; vm_compute. Qed.

(** The eight cells of a role read back. *)
Lemma role_row_cells (name salt it sk svk : string) (created : Z) (su cl : bool) :
  text_ok name -> text_ok salt -> text_ok it -> text_ok sk -> text_ok svk ->
  let v := role_row name salt it sk svk created su cl in
  role_cell v 1 = Ok salt /\ role_cell v 2 = Ok it /\ role_cell v 3 = Ok sk /\ role_cell v 4 = Ok svk
  /\ role_cell v 5 = Ok (to_dec created) /\ attributes_of v = mkRoleAttributes su cl.
Proof.
  intros Hn Hs Hi Hk Hv v.
  assert (int_cell created = text_cell (to_dec created)) as Hint by (unfold int_cell, text_cell; by rewrite as_bytes_to_dec).
  assert (Forall cell_fits [text_cell name; text_cell salt; text_cell it; text_cell sk; text_cell svk;
            text_cell (to_dec created); text_cell (flag su); text_cell (flag cl)]) as Hf.
  { pose proof (dec_text_ok created) as Hd. pose proof (flag_text_ok su) as H1. pose proof (flag_text_ok cl) as H2.
    repeat (apply Forall_cons_2; [by match goal with H : text_ok ?s |- cell_fits (text_cell ?s) => apply H end|]). by apply Forall_nil. }
  unfold v, role_row. rewrite Hint.
  assert (forall i s, [text_cell name; text_cell salt; text_cell it; text_cell sk; text_cell svk;
            text_cell (to_dec created); text_cell (flag su); text_cell (flag cl)] !! i = Some (text_cell s) -> text_ok s ->
          role_cell (encode_cells [text_cell name; text_cell salt; text_cell it; text_cell sk; text_cell svk;
            text_cell (to_dec created); text_cell (flag su); text_cell (flag cl)]) i = Ok s) as Hcell.
  { intros i s Hi' Hs'. apply cell_str_text; [done | done | apply Hs']. }
  split_and!; try (apply Hcell; done); [apply Hcell; [done | apply dec_text_ok]|].
  unfold attributes_of, flag_cell. rewrite (Hcell 6%nat (flag su)), (Hcell 7%nat (flag cl)) by (done || apply flag_text_ok).
  by destruct su, cl.
Qed.

Section RoleProofs.
  Context {cr : Crypto} {claws : CryptoLaws} {S : Type} {rs : RowStore S} {laws : RowLaws S}.

Lemma b64_text_ok (bs : bytes) : zlen bs < 2 ^ 29 -> text_ok (b64_encode bs).
Proof. intros H. split; [apply b64_string|]. pose proof (b64_length bs). lia. Qed.

Lemma zlen_key (m : bytes) : length m = 32%nat -> zlen m < 2 ^ 29 /\ (zlen m =? 32) = true.
Proof. unfold zlen. intros ->. by split. Qed.

(** The row of a role with a password. *)
Definition password_row (name password : string) (su cl : bool) (salt : bytes) (now : Z) : bytes :=
  let cred := derive_credential password salt 4096 in
  role_row name (b64_encode salt) (to_dec 4096) (b64_encode (sc_stored_key cred)) (b64_encode (sc_server_key cred)) now su cl.

Lemma password_row_credential (name password : string) (su cl : bool) (salt : bytes) (now : Z) :
  text_ok name -> zlen salt < 2 ^ 29 ->
  credential_of (password_row name password su cl salt now) = Ok (derive_credential password salt 4096)
  /\ attributes_of (password_row name password su cl salt now) = mkRoleAttributes su cl.
Proof.
  intros Hn Hs. unfold password_row. set (cred := derive_credential password salt 4096).
  destruct (zlen_key (sc_stored_key cred) (digest_length _)) as [Hk1 Hk2].
  destruct (zlen_key (sc_server_key cred) (hmac_length _ _)) as [Hv1 Hv2].
  destruct (role_row_cells name (b64_encode salt) (to_dec 4096) (b64_encode (sc_stored_key cred))
    (b64_encode (sc_server_key cred)) now su cl) as (H1 & H2 & H3 & H4 & _ & H6);
    [done | by apply b64_text_ok | apply dec_text_ok | by apply b64_text_ok | by apply b64_text_ok |].
  split; [|done]. unfold credential_of. rewrite H1, H2, parse_u32_to_dec by done. cbn [ok_or]. rewrite H3, H4.
  unfold decode_key. rewrite !b64_roundtrip. cbn [ok_or]. rewrite Hk2, Hv2. done.
Qed.

Lemma read_written (s s' : S) (k v : bytes) o :
  rs_wf s -> rs_write ROLES k v s = (s', Ok tt) -> rs_read ROLES k s' = Ok o -> o = Some v.
Proof.
  intros Hwf Hw Hr. apply rs_write_law in Hw as (Hwf' & Hrows & _); [|done]. simpl in Hrows.
  rewrite (rs_read_law _ _ _ _ Hwf' Hr), Hrows, om_get_insert by by apply rs_sorted.
  by rewrite (proj2 (keqb_true k k)).
Qed.

(** A password that was set verifies: after storing a role with a
    password the catalogue accepts that password and returns the attributes
    it was stored with. *)
Theorem role_password_roundtrip (name password : string) (su cl : bool) (salt : bytes) (now : Z) (s s' : S) o :
  rs_wf s -> name_ok name -> zlen salt < 2 ^ 29 ->
  upsert_with_attrs name (Some password) su cl salt now s = (s', Ok tt) ->
  rs_read ROLES (as_bytes name) s' = Ok o ->
  verify_password name password s' = Ok true /\ find_role name s' = Ok (Some (mkRoleAttributes su cl)).
Proof.
  intros Hwf Hn Hsalt Hup Hread.
  change (rs_write ROLES (as_bytes name) (password_row name password su cl salt now) s = (s', Ok tt)) in Hup.
  pose proof (read_written _ _ _ _ _ Hwf Hup Hread) as ->.
  destruct (password_row_credential name password su cl salt now (name_text_ok _ Hn) Hsalt) as [Hc Ha]. split.
  - unfold verify_password, find. rewrite Hread. cbv iota beta. rewrite Hc. cbn [sc_salt sc_iterations derive_credential].
    by rewrite !bool_decide_eq_true_2.
  - unfold find_role. rewrite Hread. simpl. do 2 f_equal. exact Ha.
Qed.

(** Altering a role's attributes leaves its password alone: without a
    password clause the stored credential is the same afterwards, the
    attributes that are named get their new values and the others keep
    theirs. *)
Theorem role_alter_keeps_password (name password : string) (su cl : bool) (salt salt' : bytes) (now now' : Z)
    (new_su new_cl : option bool) (s s' : S) o :
  rs_wf s -> name_ok name -> zlen salt < 2 ^ 29 -> - 2 ^ 63 <= now < 2 ^ 63 ->
  rs_read ROLES (as_bytes name) s = Ok (Some (password_row name password su cl salt now)) ->
  alter_role name new_su new_cl None salt' now' s = (s', Ok tt) -> rs_read ROLES (as_bytes name) s' = Ok o ->
  find name s' = find name s /\ find_role name s' = Ok (Some (mkRoleAttributes (default su new_su) (default cl new_cl))).
Proof.
  intros Hwf Hn Hsalt Hnow Hr. unfold alter_role. rewrite Hr. set (cred := derive_credential password salt 4096).
  destruct (zlen_key (sc_stored_key cred) (digest_length _)) as [Hk1 _].
  destruct (zlen_key (sc_server_key cred) (hmac_length _ _)) as [Hv1 _].
  destruct (role_row_cells name (b64_encode salt) (to_dec 4096) (b64_encode (sc_stored_key cred))
    (b64_encode (sc_server_key cred)) now su cl) as (H1 & H2 & H3 & H4 & H5 & H6);
    [by apply name_text_ok | by apply b64_text_ok | apply dec_text_ok | by apply b64_text_ok | by apply b64_text_ok |].
  change (role_row name (b64_encode salt) (to_dec 4096) (b64_encode (sc_stored_key cred)) (b64_encode (sc_server_key cred)) now su cl)
    with (password_row name password su cl salt now) in *.
  injection H6 as H6 H7. rewrite H1, H2, H3, H4, H5, H6, H7. cbn [or_else]. rewrite parse_i64_to_dec by done. cbn [default].
  change (role_row name (b64_encode salt) (to_dec 4096) (b64_encode (sc_stored_key cred)) (b64_encode (sc_server_key cred)) (id now) ?a ?b)
    with (password_row name password a b salt now).
  intros Hw Hr'. pose proof (read_written _ _ _ _ _ Hwf Hw Hr') as ->. unfold find, find_role. rewrite Hr, Hr'.
  destruct (password_row_credential name password su cl salt now (name_text_ok _ Hn) Hsalt) as [Hc _].
  destruct (password_row_credential name password (default su new_su) (default cl new_cl) salt now (name_text_ok _ Hn) Hsalt) as [Hc' Ha'].
  cbv iota beta. rewrite Hc, Hc'. split; [done|]. simpl. do 2 f_equal. exact Ha'.
Qed.

Lemma revoke_all_other (role : string) (s s' : S) res t :
  rs_wf s -> revoke_all role s = (s', res) -> t <> MEMBERS -> rs_wf s' /\ rs_rows s' t = rs_rows s t.
Proof.
  intros Hwf. unfold revoke_all. destruct (let? kvs := _ in _) as [keys|]; [|by intros [= <- <-]].
  intros (Hwf' & _ & Ho)%delete_keys_sub Ht; [|done]. auto.
Qed.

Lemma drop_role_privileges (name : string) (ie : bool) (s s' : S) res :
  rs_wf s -> drop_role name ie s = (s', res) -> rs_wf s' /\ rs_rows s' PRIVILEGES = rs_rows s PRIVILEGES.
Proof.
  intros Hwf. unfold drop_role. destruct (find_role name s) as [[a|]|]; [|by intros [= <- <-]..].
  destruct (rs_delete ROLES (as_bytes name) s) as [s1 r1] eqn:E. apply rs_delete_law in E as (Hwf1 & _ & Ho); [|done].
  destruct r1; [|intros [= <- <-]; split; [done | by apply Ho]].
  intros H. apply (revoke_all_other _ _ _ _ PRIVILEGES) in H as [Hwf' H]; [|done|done]. rewrite H. split; [done | by apply Ho].
Qed.

(** Dropping a role leaves its privileges. When a role is dropped and a
    role of the same name is created later, the new role holds every
    privilege that had been granted to the old one. *)
Theorem role_recreated_keeps_old_privileges (name : string) (ie su cl : bool) (pw : option string) (salt : bytes) (now : Z)
    (p : PrivilegeRepr) (o : GrantObjectRepr) (s s1 s2 : S) r1 b :
  rs_wf s -> granted (rs_rows s PRIVILEGES) name p o ->
  drop_role name ie s = (s1, r1) -> create_role name su cl pw [] salt now s1 = (s2, Ok tt) ->
  has_privilege name p o s2 = Ok b -> b = true.
Proof.
  intros Hwf Hg [Hwf1 Hp1]%drop_role_privileges Hc Hb; [|done]. rewrite <- Hp1 in Hg.
  unfold create_role in Hc. destruct (find_role name s1) as [[a|]|]; [done| |done].
  destruct (upsert_with_attrs name pw su cl salt now s1) as [s3 [[]|]] eqn:E; [|done]. simpl in Hc. injection Hc as <-.
  apply rs_write_law in E as (Hwf3 & _ & Ho); [|done].
  apply (proj2 (has_privilege_sound s3 name p o b Hwf3 Hb)). exists name. split; [by left|]. by rewrite Ho.
Qed.

End RoleProofs.

(** ** Stand-ins that meet the laws *)

Definition pad32 (bs : bytes) : bytes := take 32 (bs ++ replicate 32 Byte.x00).

(** Two letters per byte. *)
Definition demo_b64 (bs : bytes) : bytes :=
  concat (map (fun b => [byte_of_Z (64 + Z_of_byte b / 16); byte_of_Z (64 + Z_of_byte b mod 16)]) bs).

Fixpoint demo_b64_decode (bs : bytes) : option bytes :=
  match bs with
  | [] => Some []
  | x :: y :: bs' =>
      (fun tl => byte_of_Z ((Z_of_byte x - 64) * 16 + (Z_of_byte y - 64)) :: tl) <$> demo_b64_decode bs'
  | _ => None
  end.

#[export] Instance demo_crypto : Crypto := {|
  hmac_sha256 k m := pad32 (m ++ k);
  sha256_digest := pad32;
  pbkdf2_hmac p s _ := p ++ s;
  b64_encode bs := string_of_list_byte (demo_b64 bs);
  b64_decode s := demo_b64_decode (as_bytes s);
|}.

Lemma length_pad32 (bs : bytes) : length (pad32 bs) = 32%nat.
Proof. unfold pad32. rewrite length_take, length_app, length_replicate. lia. Qed.

Lemma demo_b64_letters (bs : bytes) : Forall (fun b => 64 <= Z_of_byte b < 128) (demo_b64 bs).
Proof.
  unfold demo_b64. induction bs as [|b bs IH]; [by apply Forall_nil|]. cbn [map concat]. apply Forall_app_2; [|done].
  pose proof (Z_of_byte_range b). pose proof (Z.mod_pos_bound (Z_of_byte b) 16 ltac:(lia)).
  assert (0 <= Z_of_byte b / 16 < 16) by (split; [apply Z.div_pos; lia | apply Z.div_lt_upper_bound; lia]).
  apply Forall_cons_2; [|apply Forall_singleton]; rewrite Z_of_byte_of_Z, Z.mod_small by (change (2 ^ 8) with 256; lia); lia.
Qed.

#[export] Program Instance demo_crypto_laws : CryptoLaws.
Next Obligation. intros. apply length_pad32. Qed.
Next Obligation. intros. apply length_pad32. Qed.
Next Obligation.
  intros bs. simpl. unfold as_bytes. rewrite list_byte_of_string_of_list_byte.
  unfold demo_b64. induction bs as [|b bs IH]; [done|]. cbn [map concat app demo_b64_decode]. rewrite IH. simpl. do 2 f_equal.
  pose proof (Z_of_byte_range b). pose proof (Z.mod_pos_bound (Z_of_byte b) 16 ltac:(lia)).
  assert (0 <= Z_of_byte b / 16 < 16) by (split; [apply Z.div_pos; lia | apply Z.div_lt_upper_bound; lia]).
  rewrite !Z_of_byte_of_Z, !(Z.mod_small (64 + _)) by (change (2 ^ 8) with 256; lia).
  rewrite <- (byte_of_Z_of_byte b) at 3. f_equal. pose proof (Z.div_mod (Z_of_byte b) 16 ltac:(lia)). lia.
Qed.
Next Obligation.
  intros bs. unfold is_string. simpl. unfold as_bytes. rewrite list_byte_of_string_of_list_byte. apply utf8_ascii.
  eapply Forall_impl; [apply demo_b64_letters|]. simpl. lia.
Qed.
Next Obligation.
  intros bs H. simpl in H. unfold as_bytes in H. rewrite list_byte_of_string_of_list_byte in H.
  pose proof (proj1 (Forall_forall _ _) (demo_b64_letters bs) _ H) as Hr. vm_compute in Hr. by destruct Hr.
Qed.
Next Obligation.
  intros bs. simpl. unfold as_bytes. rewrite list_byte_of_string_of_list_byte. unfold demo_b64.
  induction bs as [|b bs IH]; [done|]. cbn [map concat]. rewrite zlen_app, !zlen_cons, zlen_nil. lia.
Qed.

Definition demo_first : ServerFirst :=
  mkServerFirst [] [] (as_bytes "abc").

Lemma plain_small (s : bytes) : utf8_valid s = true -> bool_decide (COMMA ∉ s) = true -> plain s.
Proof. intros H1 H2%bool_decide_eq_true. by split. Qed.

Lemma scram_accepts_the_password_witness :
  let cred := derive_credential "secret" [Byte.x01] 4096 in
  exists first r, server_first (as_bytes "n,,n=bob,r=xyz") [Byte.x07] cred = Ok first
    /\ verify_client_final (client_final "secret" [Byte.x01] 4096 (as_bytes "n,,") first) first cred = Ok r.
Proof.
  destruct (scram_accepts_the_password "secret" [Byte.x01] 4096 (as_bytes "n,,") (as_bytes "bob") (as_bytes "xyz") [Byte.x07]
    (or_introl eq_refl)) as (first & H1 & H2).
  - apply plain_small; vm_compute; reflexivity.
  - apply plain_small; vm_compute; reflexivity.
  - exists first. eexists. split; [exact H1 | exact H2].
Defined.

Lemma scram_refuses_replay_witness :
  verify_client_final (client_final "secret" [Byte.x01] 4096 (as_bytes "n,,") demo_first)
    (mkServerFirst [] [] (as_bytes "abd")) (derive_credential "secret" [Byte.x01] 4096) = Err "nonce mismatch"%string.
Proof.
  apply (scram_refuses_replay "secret" [Byte.x01] 4096 (as_bytes "n,,") demo_first); [apply plain_small; vm_compute; reflexivity | done].
Defined.

(** Bob, with a password and a privilege on a table. *)
Definition bob1 : MemRows := fst (upsert_with_attrs "bob" (Some "secret"%string) false true [Byte.x01] 7 mem_empty).
Definition bob2 : MemRows := fst (grant "bob" PSelect (object_table "t") bob1).
Definition bob3 : MemRows := fst (drop_role "bob" false bob2).
Definition bob4 : MemRows := fst (create_role "bob" false true None [] [] 9 bob3).

Lemma bob1_up : upsert_with_attrs "bob" (Some "secret"%string) false true [Byte.x01] 7 mem_empty = (bob1, Ok tt).
Proof. vm_compute. reflexivity. Qed.

Lemma bob1_wf : rs_wf bob1.
Proof. by destruct (rs_write_law _ _ _ _ _ _ mem_empty_rs_wf bob1_up) as [H _]. Qed.

Lemma bob2_grant : grant "bob" PSelect (object_table "t") bob1 = (bob2, Ok tt).
Proof. vm_compute. reflexivity. Qed.

Lemma bob2_wf : rs_wf bob2.
Proof. by destruct (rs_write_law _ _ _ _ _ _ bob1_wf bob2_grant) as [H _]. Qed.

Lemma role_password_roundtrip_witness : verify_password "bob" "secret" bob1 = Ok true.
Proof.
  destruct (role_password_roundtrip "bob" "secret" false true [Byte.x01] 7 mem_empty bob1
    (om_get (as_bytes "bob") (rs_rows bob1 ROLES)) mem_empty_rs_wf) as [H _].
  - small_name.
  - by vm_compute.
  - exact bob1_up.
  - vm_compute. reflexivity.
  - exact H.
Defined.

Lemma role_alter_keeps_password_witness :
  exists s', alter_role "bob" (Some true) None None [] 0 bob1 = (s', Ok tt)
    /\ find_role "bob" s' = Ok (Some (mkRoleAttributes true true)).
Proof.
  exists (fst (alter_role "bob" (Some true) None None [] 0 bob1)). split; [vm_compute; reflexivity|].
  apply (role_alter_keeps_password "bob" "secret" false true [Byte.x01] [] 7 0 (Some true) None bob1
    (fst (alter_role "bob" (Some true) None None [] 0 bob1))
    (om_get (as_bytes "bob") (rs_rows (fst (alter_role "bob" (Some true) None None [] 0 bob1)) ROLES)) bob1_wf).
  - small_name.
  - by vm_compute.
  - done.
  - vm_compute. reflexivity.
  - vm_compute. reflexivity.
  - vm_compute. reflexivity.
Defined.

Lemma role_recreated_keeps_old_privileges_witness : has_privilege "bob" PSelect (object_table "t") bob4 = Ok true.
Proof.
  assert (exists b, has_privilege "bob" PSelect (object_table "t") bob4 = Ok b) as [b Hb] by (eexists; vm_compute; reflexivity).
  rewrite Hb. f_equal.
  apply (role_recreated_keeps_old_privileges "bob" false false true None [] 9 PSelect (object_table "t") bob2 bob3 bob4
    (snd (drop_role "bob" false bob2)) b bob2_wf); [|vm_compute; reflexivity.. | exact Hb].
  assert (has_privilege "bob" PSelect (object_table "t") bob2 = Ok true) as Hb2 by (vm_compute; reflexivity).
  destruct (proj1 (has_privilege_sound bob2 "bob" PSelect (object_table "t") true bob2_wf Hb2) eq_refl) as (c & [->|Htc] & Hg); [exact Hg|].
  exfalso. apply (closed_tc _ (fun _ => False)) in Htc; [done | done |].
  intros x (k & v & Hin & _). by change (rs_rows bob2 MEMBERS) with (@nil (bytes * bytes)) in Hin.
Defined.
