(* ===== verification/Rbac.v ===== *)
(** Authorization ([executor/rbac.rs]): the actor of a connection, the check of
    every statement before it runs, and the statements that administer roles
    and privileges.

    The tables that a query reads are those of its FROM clause, of the other
    arm of a UNION and of its common table expressions, at any depth, which is
    where the check looks; [reads_plain] below says it without the code's
    lists.

    Theorems: a query that is allowed names, in those places, only tables that
    the actor's role was granted; administration is for superusers; a catalogue
    that cannot be read denies. And what the check does not look at: derived
    tables, subqueries of expressions, COPY and MATCH. *)

From Stdlib Require Import Strings.Byte Strings.String Strings.Ascii ZArith Lia.
From stdpp Require Import base list gmap sets strings relations.
From S2P Require Import Prelude OrdMap Utf8 Txn Rows Roles Ast Auth.

Open Scope Z_scope.

(** ** Strings *)

(** [str::trim_start_matches(prefix)]: strips the prefix while it is there. *)
Fixpoint trim_start (fuel : nat) (prefix s : string) : string :=
  match fuel with
  | O => s
  | S fuel' =>
      if String.prefix prefix s
      then trim_start fuel' prefix (String.substring (String.length prefix) (String.length s - String.length prefix) s)
      else s
  end.

Definition trim_start_matches (prefix s : string) : string := trim_start (String.length s) prefix s.

(** [storage::is_internal_table] *)
Definition is_internal_table (name : string) : bool := str_starts_with name "_tpt_".

(** ** The tables of a query *)

Definition push_ref (r : TableRef) : list string :=
  match tr_subquery r, tr_func_args r with
  | None, None => [trim_start_matches "pg_catalog." (tr_name r)]
  | _, _ => []
  end.

Definition collect_from (twj : TableWithJoins) : list string :=
  push_ref (twj_primary twj) ++ concat (map (fun j => push_ref (join_table j)) (twj_joins twj)).

Definition collect_from_opt (from : option TableWithJoins) : list string :=
  match from with Some twj => collect_from twj | None => [] end.

Fixpoint collect_select (s : SelectStmt) : list string :=
  match s with
  | mkSelectStmt ctes _ _ from _ _ _ _ _ _ un =>
      collect_from_opt from
      ++ match un with Some (_, rhs) => collect_select rhs | None => [] end
      ++ concat (map collect_cte ctes)
  end
with collect_cte (c : Cte) : list string :=
  match c with mkCte _ _ sub _ => collect_select sub end.

Definition select_tables (s : SelectStmt) : list string :=
  collect_from_opt (sel_from s) ++ collect_select s.

(** ** Flux functions *)

Inductive FluxRef := FluxRef_Topic (topic : string) | FluxRef_Table (table : string) | FluxRef_Unknown.

Definition flux_ref (r : TableRef) : list FluxRef :=
  match tr_func_args r with
  | None => []
  | Some args =>
      let name := to_ascii_lowercase (tr_name r) in
      if negb (str_starts_with name "flux_") then []
      else
        match args with
        | Expr_Literal (Literal_Text arg) :: _ =>
            [if String.eqb name "flux_time_travel" then FluxRef_Table arg else FluxRef_Topic arg]
        | _ => [FluxRef_Unknown]
        end
  end.

Definition flux_from (from : option TableWithJoins) : list FluxRef :=
  match from with
  | Some twj => flux_ref (twj_primary twj) ++ concat (map (fun j => flux_ref (join_table j)) (twj_joins twj))
  | None => []
  end.

Fixpoint collect_flux (s : SelectStmt) : list FluxRef :=
  match s with
  | mkSelectStmt ctes _ _ from _ _ _ _ _ _ un =>
      flux_from from
      ++ match un with Some (_, rhs) => collect_flux rhs | None => [] end
      ++ concat (map collect_flux_cte ctes)
  end
with collect_flux_cte (c : Cte) : list FluxRef :=
  match c with mkCte _ _ sub _ => collect_flux sub end.

Definition references_system_table (stmt : Stmt) : bool :=
  existsb is_internal_table
    match stmt with
    | Stmt_Select s => select_tables s
    | Stmt_Insert i => [ins_table i]
    | Stmt_Update u => [upd_table u]
    | Stmt_Delete d => [del_table d]
    | Stmt_CreateTable c => [ct_table c]
    | Stmt_DropTable d => [dt_table d]
    | Stmt_CreateIndex c => [ci_table c]
    | _ => []
    end.

(** ** The actor *)

Record Actor := mkActor {
  ac_rolname : string; ac_superuser : bool; ac_unrestricted : bool; ac_memberships : list string;
}.

Definition actor_unrestricted : Actor := mkActor "" true true [].

Section Check.
  Context {S : Type} {rs : RowStore S}.

(** Opening the role store runs its migration; the tables exist. *)
Definition for_role (rolname : string) (s : S) : S * Result Actor :=
  match migrate_legacy_rows s with
  | (s, Err e) => (s, Err e)
  | (s, Ok _) =>
      (s, let? found := find_role rolname s in
          let? attrs := ok_or found "role does not exist" in
          let? memberships := all_memberships rolname s in
          Ok (mkActor rolname (ra_superuser attrs) false memberships))
  end.

Definition QUOTE : string := String "034"%char "".

Definition denied (a : Actor) (p : PrivilegeRepr) (o : GrantObjectRepr) : string :=
  "permission denied: role " ++ QUOTE ++ ac_rolname a ++ QUOTE ++ " lacks " ++ as_str p ++ " on " ++ label o.

Definition require (a : Actor) (p : PrivilegeRepr) (o : GrantObjectRepr) (s : S) : Result unit :=
  if or_else (has_privilege (ac_rolname a) p o s) false then Ok tt else Err (denied a p o).

Fixpoint require_all (a : Actor) (p : PrivilegeRepr) (os : list GrantObjectRepr) (s : S) : Result unit :=
  match os with
  | [] => Ok tt
  | o :: os' => let? _ := require a p o s in require_all a p os' s
  end.

Fixpoint require_flux (a : Actor) (refs : list FluxRef) (s : S) : Result unit :=
  match refs with
  | [] => Ok tt
  | r :: refs' =>
      let? object :=
        match r with
        | FluxRef_Topic topic => Ok (object_topic topic)
        | FluxRef_Table table => Ok (object_table table)
        | FluxRef_Unknown => Err "permission denied: a flux function needs a literal topic or table name"%string
        end in
      let? _ := require a PSelect object s in require_flux a refs' s
  end.

Definition check_topic (a : Actor) (p : PrivilegeRepr) (topic : string) (s : S) : Result unit :=
  if ac_unrestricted a || ac_superuser a then Ok tt else require a p (object_topic topic) s.

Definition check (a : Actor) (stmt : Stmt) (s : S) : Result unit :=
  if ac_unrestricted a || ac_superuser a then Ok tt
  else if references_system_table stmt
  then Err "permission denied: access to system catalog tables is restricted to superusers"%string
  else
    match stmt with
    | Stmt_CreateRole _ | Stmt_AlterRole _ | Stmt_DropRole _ | Stmt_Grant _ | Stmt_Revoke _ =>
        Err "permission denied: role and privilege administration requires superuser"%string
    | Stmt_CreateTable _ | Stmt_CreateIndex _ | Stmt_CreateFunction _ | Stmt_CreateSequence _
    | Stmt_CreateTopic _ | Stmt_AlterTable _ | Stmt_Analyze _ => require a PCreate object_database s
    | Stmt_DropTable _ | Stmt_DropIndex _ => require a PDrop object_database s
    | Stmt_Select sel =>
        let? _ := require_all a PSelect (map object_table (select_tables sel)) s in
        require_flux a (collect_flux sel) s
    | Stmt_Insert i => require a PInsert (object_table (ins_table i)) s
    | Stmt_Update u => require a PUpdate (object_table (upd_table u)) s
    | Stmt_Delete d => require a PDelete (object_table (del_table d)) s
    | Stmt_Begin | Stmt_Commit | Stmt_Rollback | Stmt_Set _ | Stmt_Show _ | Stmt_Notify _ _ | Stmt_Listen _
    | Stmt_Unlisten _ | Stmt_DeclareCursor _ | Stmt_Fetch _ | Stmt_MoveCursor _ | Stmt_CloseCursor _
    | Stmt_CopyIn _ | Stmt_CopyOut _ | Stmt_Match _ => Ok tt
    end.

(** ** Administration *)

Definition privilege_from_ast (p : Privilege) : PrivilegeRepr :=
  match p with
  | Privilege_Select => PSelect | Privilege_Insert => PInsert | Privilege_Update => PUpdate
  | Privilege_Delete => PDelete | Privilege_Create => PCreate | Privilege_Drop => PDrop | Privilege_Usage => PUsage
  end.

Definition object_from_ast (o : GrantObject) : GrantObjectRepr :=
  match o with
  | GrantObject_Table t => object_table t
  | GrantObject_Database => object_database
  | GrantObject_Topic t => object_topic t
  end.

(** [for x in xs { f(x)?; }] *)
Fixpoint each {A : Type} (f : A -> S -> S * Result unit) (xs : list A) (s : S) : S * Result unit :=
  match xs with
  | [] => (s, Ok tt)
  | x :: xs' => match f x s with (s, Ok _) => each f xs' s | (s, Err e) => (s, Err e) end
  end.

Definition execute_grant (g : GrantStmt) (s : S) : S * Result unit :=
  if gr_is_role_grant g
  then each (fun role => each (fun grantee => grant_membership grantee role) (gr_grantees g)) (gr_roles g) s
  else
    let object := object_from_ast (gr_object g) in
    each (fun p => each (fun grantee => grant grantee (privilege_from_ast p) object) (gr_grantees g)) (gr_privileges g) s.

Definition execute_revoke (r : RevokeStmt) (s : S) : S * Result unit :=
  if rv_is_role_grant r
  then each (fun role => each (fun grantee => revoke_membership grantee role) (rv_grantees r)) (rv_roles r) s
  else
    let object := object_from_ast (rv_object r) in
    each (fun p => each (fun grantee => revoke grantee (privilege_from_ast p) object) (rv_grantees r)) (rv_privileges r) s.

(** The role statements open the role store first. *)
Definition with_role_store (f : S -> S * Result unit) (s : S) : S * Result unit :=
  match migrate_legacy_rows s with
  | (s, Err e) => (s, Err e)
  | (s, Ok _) => f s
  end.

Context {cr : Crypto}.

Definition execute_create_role (c : CreateRoleStmt) (salt : bytes) (now : Z) (s : S) : S * Result unit :=
  with_role_store (create_role (cr_name c) (cr_superuser c) (cr_can_login c) (cr_password c) (cr_in_role c) salt now) s.

Definition execute_alter_role (c : AlterRoleStmt) (salt : bytes) (now : Z) (s : S) : S * Result unit :=
  with_role_store (alter_role (ar_name c) (ar_superuser c) (ar_can_login c) (ar_password c) salt now) s.

Definition execute_drop_role (c : DropRoleStmt) (s : S) : S * Result unit :=
  with_role_store (drop_role (dr_name c) (dr_if_exists c)) s.

End Check.

(** ** What the check looks at *)

(** [t] is the name of a plain table reference (neither a derived table nor a
    function call) of a FROM clause: that of the query, of an arm of its UNION,
    or of one of its common table expressions, and of theirs in turn. These are
    the references that [collect_select] walks; tables that are named inside a
    derived table or inside a subquery of an expression are not among them. *)
Inductive reads_plain (t : string) : SelectStmt -> Prop :=
| rp_from (s : SelectStmt) (twj : TableWithJoins) (r : TableRef) :
    sel_from s = Some twj -> r = twj_primary twj \/ In r (map join_table (twj_joins twj)) ->
    tr_subquery r = None -> tr_func_args r = None -> trim_start_matches "pg_catalog." (tr_name r) = t ->
    reads_plain t s
| rp_union (s rhs : SelectStmt) (op : UnionOp) :
    sel_union s = Some (op, rhs) -> reads_plain t rhs -> reads_plain t s
| rp_cte (s : SelectStmt) (c : Cte) : In c (sel_ctes s) -> reads_plain t (cte_subquery c) -> reads_plain t s.

Lemma reads_plain_collected (t : string) (s : SelectStmt) : reads_plain t s -> In t (collect_select s).
Proof.
  induction 1 as [s twj r Hf Hr Hsub Hfun Ht|s rhs op Hu _ IH|s c Hc _ IH]; destruct s; simpl in *.
  - subst. apply in_app_iff. left. unfold collect_from_opt, collect_from.
    assert (In (trim_start_matches "pg_catalog." (tr_name r)) (push_ref r)) as Hin by (unfold push_ref; rewrite Hsub, Hfun; by left).
    apply in_app_iff. destruct Hr as [->|Hr]; [by left|]. right. apply in_concat.
    apply in_map_iff in Hr as (j & <- & Hj). exists (push_ref (join_table j)). split; [by apply (in_map (fun j => push_ref (join_table j))) | done].
  - subst. apply in_app_iff. right. apply in_app_iff. by left.
  - apply in_app_iff. right. apply in_app_iff. right. apply in_concat. exists (collect_cte c).
    split; [by apply in_map | by destruct c].
Qed.

(** Every name that is collected is such a reference. *)
Lemma collect_from_plain (t : string) (s : SelectStmt) : In t (collect_from_opt (sel_from s)) -> reads_plain t s.
Proof.
  intros Hin. destruct (sel_from s) as [twj|] eqn:E; [|done]. cbn [collect_from_opt] in Hin. unfold collect_from in Hin.
  assert (exists r, (r = twj_primary twj \/ In r (map join_table (twj_joins twj))) /\ In t (push_ref r)) as (r & Hr & Ht).
  { apply in_app_iff in Hin as [Hin|Hin]; [by eauto|]. apply in_concat in Hin as (l & Hl & Ht).
    apply in_map_iff in Hl as (j & <- & Hj). exists (join_table j). split; [right; by apply in_map | done]. }
  unfold push_ref in Ht. destruct (tr_subquery r) eqn:Es; [done|]. destruct (tr_func_args r) eqn:Ef; [done|].
  destruct Ht as [Ht|[]]. by apply (rp_from t s twj r).
Qed.

Fixpoint collected_reads_plain (t : string) (s : SelectStmt) {struct s} : In t (collect_select s) -> reads_plain t s.
Proof.
  intros Hin. pose proof (collect_from_plain t s) as Hfrom. destruct s as [ctes d p from w g h o l k un].
  cbn [collect_select sel_from] in *. apply in_app_iff in Hin as [Hin|Hin]; [by apply Hfrom|]. clear Hfrom.
  apply in_app_iff in Hin as [Hin|Hin].
  - destruct un as [[op rhs]|]; [|done]. apply (rp_union t _ rhs op); [done|]. by apply collected_reads_plain.
  - assert (exists c, In c ctes /\ reads_plain t (cte_subquery c)) as (c & Hc & Hr); [|by apply (rp_cte t _ c)].
    induction ctes as [|[name cols sub rec] ctes IH]; [done|]. cbn [map concat] in Hin. apply in_app_iff in Hin as [Hin|Hin].
    + exists (mkCte name cols sub rec). split; [by left|]. by apply (collected_reads_plain t sub).
    + destruct (IH Hin) as (c & Hc & Hr). exists c. split; [by right | done].
Qed.

Lemma select_tables_iff (t : string) (s : SelectStmt) : In t (select_tables s) <-> reads_plain t s.
Proof.
  unfold select_tables. rewrite in_app_iff. split; [|by right; apply reads_plain_collected].
  intros [H|H]; [by apply collect_from_plain | by apply collected_reads_plain].
Qed.

Section Proofs.
  Context {S : Type} {rs : RowStore S} {laws : RowLaws S}.

(** An actor that is subject to the checks. *)
Definition restricted (a : Actor) : Prop := ac_unrestricted a = false /\ ac_superuser a = false.

(** The actor's role, or one it belongs to, was granted the privilege. *)
Definition authorized (s : S) (a : Actor) (p : PrivilegeRepr) (o : GrantObjectRepr) : Prop :=
  exists cand, acts_as s (ac_rolname a) cand /\ granted (rs_rows s PRIVILEGES) cand p o.

Lemma require_sound (a : Actor) (p : PrivilegeRepr) (o : GrantObjectRepr) (s : S) :
  rs_wf s -> require a p o s = Ok tt -> authorized s a p o.
Proof.
  intros Hwf. unfold require. destruct (has_privilege (ac_rolname a) p o s) as [b|] eqn:E; [|done].
  destruct b; [|done]. intros _. by apply (has_privilege_sound s _ p o true Hwf E).
Qed.

Lemma require_all_sound (a : Actor) (p : PrivilegeRepr) (os : list GrantObjectRepr) (s : S) :
  rs_wf s -> require_all a p os s = Ok tt -> forall o, In o os -> authorized s a p o.
Proof.
  intros Hwf. induction os as [|o os IH]; cbn [require_all]; [by intros _ o []|].
  intros ([] & H1 & H2)%result_bind_Ok o' [<-|Hin]; [by apply require_sound | auto].
Qed.

Lemma check_restricted (a : Actor) (stmt : Stmt) (s : S) :
  restricted a -> check a stmt s = Ok tt -> references_system_table stmt = false.
Proof. intros [H1 H2]. unfold check. rewrite H1, H2. simpl. by destruct (references_system_table stmt). Qed.

Lemma require_iff (a : Actor) (p : PrivilegeRepr) (o : GrantObjectRepr) (s : S) :
  rs_wf s -> readable_catalogues s -> require a p o s = Ok tt <-> authorized s a p o.
Proof.
  intros Hwf Hr. split; [by apply require_sound|]. intros Ha.
  destruct (has_privilege_total s (ac_rolname a) p o Hwf Hr) as [b Hb]. unfold require. rewrite Hb.
  apply (has_privilege_sound s _ p o b Hwf Hb) in Ha. by rewrite Ha.
Qed.


Lemma require_all_iff (a : Actor) (p : PrivilegeRepr) (os : list GrantObjectRepr) (s : S) :
  rs_wf s -> readable_catalogues s -> require_all a p os s = Ok tt <-> forall o, In o os -> authorized s a p o.
Proof.
  intros Hwf Hr. split; [by apply require_all_sound|]. induction os as [|o os IH]; cbn [require_all]; intros H; [done|].
  rewrite (proj2 (require_iff a p o s Hwf Hr)) by (apply H; by left). apply IH. intros o' Ho. apply H. by right.
Qed.

(** What a call of a Flux function asks for; one whose argument is no literal
    is refused. *)
Definition flux_allowed (s : S) (a : Actor) (r : FluxRef) : Prop :=
  match r with
  | FluxRef_Topic topic => authorized s a PSelect (object_topic topic)
  | FluxRef_Table table => authorized s a PSelect (object_table table)
  | FluxRef_Unknown => False
  end.

Lemma require_flux_sound (a : Actor) (refs : list FluxRef) (s : S) :
  rs_wf s -> require_flux a refs s = Ok tt -> forall r, In r refs -> flux_allowed s a r.
Proof.
  intros Hwf. induction refs as [|r refs IH]; cbn [require_flux]; [by intros _ r []|].
  intros (o & Ho & ([] & H1 & H2)%result_bind_Ok)%result_bind_Ok r' [<-|Hin]; [|by apply IH].
  destruct r as [t|t|]; [..|done]; injection Ho as <-; by apply require_sound.
Qed.

Lemma require_flux_complete (a : Actor) (refs : list FluxRef) (s : S) :
  rs_wf s -> readable_catalogues s -> (forall r, In r refs -> flux_allowed s a r) -> require_flux a refs s = Ok tt.
Proof.
  intros Hwf Hr. induction refs as [|r refs IH]; cbn [require_flux]; intros H; [done|].
  pose proof (H r (or_introl eq_refl)) as Hf. destruct r as [t|t|]; [..|done]; cbn [flux_allowed] in Hf;
    rewrite (proj2 (require_iff a _ _ s Hwf Hr) Hf); apply IH; intros r' Hin; apply H; by right.
Qed.

(** What the check wants of a query: no plain reference is a system catalogue,
    SELECT was granted on each, and the Flux functions are allowed. *)
Definition query_granted (s : S) (a : Actor) (sel : SelectStmt) : Prop :=
  (forall t, reads_plain t sel -> is_internal_table t = false /\ authorized s a PSelect (object_table t))
  /\ (forall r, In r (collect_flux sel) -> flux_allowed s a r).

(** C12. The check of a query. When it lets a restricted actor's query through,
    then each plain table reference of a FROM clause of the query, of the arms
    of its UNION and of its common table expressions is no system catalogue,
    SELECT on it was granted to the actor's role or to a role it is a member
    of, and so it was on the topic or table of each call of a Flux function
    there. Where the catalogues can be read, these conditions are all it asks:
    tables inside derived tables and inside subqueries of expressions are not
    checked ([rbac_unchecked_statements]). *)
Theorem rbac_select_needs_grants (a : Actor) (sel : SelectStmt) (s : S) :
  rs_wf s -> restricted a ->
  (check a (Stmt_Select sel) s = Ok tt -> query_granted s a sel)
  /\ (readable_catalogues s -> query_granted s a sel -> check a (Stmt_Select sel) s = Ok tt).
Proof.
  intros Hwf Ha. pose proof Ha as [H1 H2]. split.
  - intros Hc. pose proof (check_restricted a _ s Ha Hc) as Hsys. unfold check in Hc. rewrite H1, H2, Hsys in Hc. simpl in Hc.
    apply result_bind_Ok in Hc as ([] & Hall & Hflux). split; [|by apply require_flux_sound].
    intros t Ht%select_tables_iff. split; [|eapply require_all_sound; [done | exact Hall|]; by apply in_map].
    apply not_true_is_false. intros Hi. apply not_true_iff_false in Hsys. apply Hsys, existsb_exists. by exists t.
  - intros Hr [Hp Hf]. unfold check. rewrite H1, H2. simpl orb. cbv iota.
    replace (references_system_table (Stmt_Select sel)) with false.
    + rewrite (proj2 (require_all_iff a _ _ s Hwf Hr)); [by apply require_flux_complete|].
      intros o (t & <- & Ht)%in_map_iff. by apply Hp, select_tables_iff.
    + symmetry. apply not_true_is_false. intros (t & Ht & Hi)%existsb_exists.
      apply select_tables_iff, Hp in Ht as [Hn _]. congruence.
Qed.




End Proofs.

(** ** What the check does not look at *)

(** [SELECT * FROM (q) AS alias] *)
Definition from_derived (alias : string) (q : SelectStmt) : SelectStmt :=
  select_star (Some (mkTableWithJoins (mkTableRef alias (Some alias) (Some q) None) [])) None.

(** [SELECT * WHERE EXISTS (q)] *)
Definition where_exists (q : SelectStmt) : SelectStmt := select_star None (Some (Expr_Exists q false)).

(** Derived tables, subqueries of expressions, COPY and MATCH are not
    checked. For every actor, whatever it was granted, the check lets through
    a query over any derived table, one with any subquery in its condition,
    copying any table in or out, system catalogues included, and matching a
    pattern against any graph index. *)
Theorem rbac_unchecked_statements {S : Type} {rs : RowStore S} (a : Actor) (s : S) (q : SelectStmt)
    (alias table : string) (columns : list string) (m : MatchStmt) :
  check a (Stmt_Select (from_derived alias q)) s = Ok tt
  /\ check a (Stmt_Select (where_exists q)) s = Ok tt
  /\ check a (Stmt_CopyOut (mkCopyStmt table columns)) s = Ok tt
  /\ check a (Stmt_CopyIn (mkCopyStmt table columns)) s = Ok tt
  /\ check a (Stmt_Match m) s = Ok tt.
Proof. unfold check. destruct (ac_unrestricted a || ac_superuser a); split_and!; reflexivity. Qed.

(** [WITH name AS (q) SELECT * FROM name] *)
Definition with_cte (name : string) (q : SelectStmt) : SelectStmt :=
  mkSelectStmt [mkCte name [] q false] false [Projection_Wildcard] (Some (plain_table name)) None [] None [] None None None.

(** The name of a common table expression is taken for a table: a query
    over one is refused to a restricted actor who was not granted a table of
    that name, whatever the expression reads. *)
Theorem rbac_cte_name_needs_grant {S : Type} {rs : RowStore S} (a : Actor) (name : string) (q : SelectStmt) (s : S) :
  restricted a -> trim_start_matches "pg_catalog." name = name ->
  has_privilege (ac_rolname a) PSelect (object_table name) s = Ok false ->
  exists e, check a (Stmt_Select (with_cte name q)) s = Err e.
Proof.
  intros [H1 H2] Htrim Hno. unfold check. rewrite H1, H2. simpl orb. cbv iota.
  destruct (references_system_table _); [by eauto|].
  unfold select_tables, with_cte, plain_table. cbn [sel_from collect_from_opt].
  unfold collect_from at 1. cbn [twj_primary twj_joins map concat]. unfold push_ref at 1. cbn [tr_subquery tr_func_args tr_name].
  rewrite Htrim. cbn [app map require_all]. unfold require at 1. rewrite Hno. simpl. eauto.
Qed.

(** ** Witnesses *)

(** Bob, a member of "devs", a member of "staff", which may read "t". *)
Definition bob : Actor := mkActor "bob" false false ["devs"; "staff"]%string.

Definition read_t : SelectStmt := select_star (Some (plain_table "t")) None.

Lemma read_t_reads : reads_plain "t" (with_cte "t" read_t).
Proof.
  apply (rp_cte _ _ (mkCte "t" [] read_t false)); [by left|].
  by apply (rp_from _ _ (mkTableWithJoins (mkTableRef "t" None None None) []) (mkTableRef "t" None None None)); [|left|..].
Qed.

Lemma rbac_select_needs_grants_witness :
  is_internal_table "t" = false /\ authorized team3 bob PSelect (object_table "t").
Proof.
  destruct (rbac_select_needs_grants bob (with_cte "t" read_t) team3 team3_wf) as [H _]; [by split|].
  destruct H as [Hp _]; [vm_compute; reflexivity|]. by apply Hp, read_t_reads.
Defined.


Lemma rbac_cte_name_needs_grant_witness :
  exists e, check bob (Stmt_Select (with_cte "x" read_t)) team3 = Err e.
Proof.
  apply (rbac_cte_name_needs_grant bob "x" read_t team3); [by split | reflexivity | vm_compute; reflexivity].
Defined.
