(* ===== verification/Jsonb.v ===== *)
(** The binary JSON format ([storage/jsonb.rs]) and the cells of a row that use
    it ([decode_column] of [storage/database/mod.rs]).

    [Value] is the value of [serde_json]: an object is a map ordered by key, a
    number an unsigned, a negative or a floating-point one, the last as its 64
    bits. The text parser and printer of [serde_json] are parameters.

    Decoding runs with fuel, and running out of it is an error of its own,
    [OUT_OF_FUEL]. Theorems: decoding inverts encoding; decoding never runs out
    of fuel; equal documents, and only those, have equal encodings; an unsigned
    number above the signed range comes back as a float. *)

From Stdlib Require Import Strings.Byte Strings.String Sorted ZArith Lia.
From stdpp Require Import base list strings sorting.
From S2P Require Import Prelude OrdMap Utf8 Compress Flux Rows.

Open Scope Z_scope.

(** ** Values *)

Inductive Number :=
| PosInt (n : Z)
| NegInt (n : Z)
| Float (bits : Z).

Inductive Value :=
| VNull
| VBool (b : bool)
| VNumber (n : Number)
| VString (s : string)
| VArray (items : list Value)
| VObject (entries : list (string * Value)).

(** [n as f64] for a [u64]: the nearest float, ties to the even one. *)
Definition u64_to_f64 (n : Z) : Z :=
  if n =? 0 then 0
  else
    let e := Z.log2 n in
    let mantissa :=
      if e <=? 52 then Z.shiftl n (52 - e)
      else
        let shift := e - 52 in
        let q := Z.shiftr n shift in
        let r := n - Z.shiftl q shift in
        let half := 2 ^ (shift - 1) in
        if (half <? r) || ((half =? r) && Z.odd q) then q + 1 else q in
    (e + 1023) * 2 ^ 52 + (mantissa - 2 ^ 52).

Definition is_finite (bits : Z) : bool := negb (Z.land (Z.shiftr bits 52) 2047 =? 2047).

(** [Number::as_i64], [Number::as_f64], [Number::from(i64)] and
    [Number::from_f64] *)
Definition as_i64 (n : Number) : option Z :=
  match n with
  | PosInt n => if n <? 2 ^ 63 then Some n else None
  | NegInt n => Some n
  | Float _ => None
  end.

(** The integers that [as_i64] refuses are positive. *)
Definition as_f64 (n : Number) : option Z :=
  match n with
  | PosInt n => Some (u64_to_f64 n)
  | NegInt _ => None
  | Float bits => Some bits
  end.

Definition number_from_i64 (i : Z) : Number := if i <? 0 then NegInt i else PosInt i.
Definition number_from_f64 (bits : Z) : option Number := if is_finite bits then Some (Float bits) else None.

(** The order of the keys of a map. *)
#[export] Program Instance string_ord : Ord string := {| cmp a b := bytes_cmp (as_bytes a) (as_bytes b) |}.
Next Obligation. intros a b. simpl. rewrite bytes_cmp_eq. split; [apply as_bytes_inj | by intros ->]. Qed.
Next Obligation. intros a b. apply bytes_cmp_antisym. Qed.
Next Obligation. intros a b c. apply bytes_cmp_trans. Qed.

(** ** Encoding *)

Definition encode_number (n : Number) : bytes :=
  match as_i64 n with
  | Some i => Byte.x03 :: i64_to_be i
  | None => Byte.x04 :: u64_to_be (default 0 (as_f64 n))
  end.

Definition encode_str (s : string) : bytes := write_varint (zlen (as_bytes s)) ++ as_bytes s.

Definition key_le {A : Type} (a b : string * A) : bool := match cmp (fst a) (fst b) with Gt => false | _ => true end.

(** [encode_into]; the entries are encoded before they are sorted, which
    compares only their keys. *)
Fixpoint encode_value (v : Value) : bytes :=
  match v with
  | VNull => [Byte.x00]
  | VBool false => [Byte.x01]
  | VBool true => [Byte.x02]
  | VNumber n => encode_number n
  | VString s => Byte.x05 :: encode_str s
  | VArray items => Byte.x06 :: write_varint (zlen items) ++ concat (map encode_value items)
  | VObject entries =>
      let encoded := map (fun e => (fst e, encode_value (snd e))) entries in
      Byte.x07 :: write_varint (zlen entries) ++ concat (map (fun e => encode_str (fst e) ++ snd e) (sort_by key_le encoded))
  end.

(** ** Decoding *)

Definition OUT_OF_FUEL : string := "out of fuel".

Definition decode_varint (rest : bytes) : Result (Z * bytes) :=
  match read_varint rest with Some r => Ok r | None => Err "jsonb: truncated varint"%string end.

Definition take_bytes (n : Z) (what : string) (rest : bytes) : Result (bytes * bytes) :=
  if zlen rest <? n then Err what else Ok (take (Z.to_nat n) rest, drop (Z.to_nat n) rest).

Definition decode_str (what : string) (rest : bytes) : Result (string * bytes) :=
  match decode_varint rest with
  | Err e => Err e
  | Ok (len, rest) =>
      match take_bytes len what rest with
      | Err e => Err e
      | Ok (s, rest) => Ok (from_utf8_lossy s, rest)
      end
  end.

(** [Vec::with_capacity] panics when the bytes of the vector, 32 an item,
    overflow [isize]. *)
Definition CAPACITY : Z := 2 ^ 58.

Fixpoint decode_at (fuel : nat) (rest : bytes) : Result (Value * bytes) :=
  match fuel with
  | O => Err OUT_OF_FUEL
  | S fuel' =>
      match rest with
      | [] => Err "jsonb: truncated value"%string
      | tag :: rest =>
          let tag := Z_of_byte tag in
          if tag =? 0 then Ok (VNull, rest)
          else if tag =? 1 then Ok (VBool false, rest)
          else if tag =? 2 then Ok (VBool true, rest)
          else if tag =? 3 then
            match take_bytes 8 "jsonb: truncated int" rest with
            | Ok (b, rest) => Ok (VNumber (number_from_i64 (i64_from_be b)), rest)
            | Err e => Err e
            end
          else if tag =? 4 then
            match take_bytes 8 "jsonb: truncated float" rest with
            | Ok (b, rest) => Ok (match number_from_f64 (from_be b) with Some n => VNumber n | None => VNull end, rest)
            | Err e => Err e
            end
          else if tag =? 5 then
            match decode_str "jsonb: truncated string" rest with
            | Ok (s, rest) => Ok (VString s, rest)
            | Err e => Err e
            end
          else if tag =? 6 then
            match decode_varint rest with
            | Ok (len, rest) =>
                if CAPACITY <=? len then Err "capacity overflow"%string
                else match decode_items fuel' len rest with
                     | Ok (items, rest) => Ok (VArray items, rest)
                     | Err e => Err e
                     end
            | Err e => Err e
            end
          else if tag =? 7 then
            match decode_varint rest with
            | Ok (len, rest) =>
                match decode_entries fuel' len rest [] with
                | Ok (entries, rest) => Ok (VObject entries, rest)
                | Err e => Err e
                end
            | Err e => Err e
            end
          else Err "jsonb: unknown tag byte"%string
      end
  end
with decode_items (fuel : nat) (n : Z) (rest : bytes) : Result (list Value * bytes) :=
  match fuel with
  | O => Err OUT_OF_FUEL
  | S fuel' =>
      if n <=? 0 then Ok ([], rest)
      else
        match decode_at fuel' rest with
        | Err e => Err e
        | Ok (v, rest) =>
            match decode_items fuel' (n - 1) rest with
            | Ok (items, rest) => Ok (v :: items, rest)
            | Err e => Err e
            end
        end
  end
with decode_entries (fuel : nat) (n : Z) (rest : bytes) (map : list (string * Value)) : Result (list (string * Value) * bytes) :=
  match fuel with
  | O => Err OUT_OF_FUEL
  | S fuel' =>
      if n <=? 0 then Ok (map, rest)
      else
        match decode_str "jsonb: truncated key" rest with
        | Err e => Err e
        | Ok (key, rest) =>
            match decode_at fuel' rest with
            | Err e => Err e
            | Ok (v, rest) => decode_entries fuel' (n - 1) rest (om_insert key v map)
            end
        end
  end.

(** [decode]; what is behind the value is ignored. *)
Definition jsonb_decode (buf : bytes) : Result Value :=
  match decode_at (2 * length buf + 1) buf with
  | Ok (v, _) => Ok v
  | Err e => Err e
  end.

(** ** Cells *)

(** [serde_json::from_slice] and [serde_json::to_vec]. *)
Class Json := {
  json_parse : bytes -> option Value;
  json_print : Value -> bytes;
}.

Definition CELL_MARKER : bytes := [Byte.x00; Byte.x01].

Definition encode_json_cell {js : Json} (json_text : bytes) : bytes :=
  match json_parse json_text with
  | Some v => CELL_MARKER ++ encode_value v
  | None => json_text
  end.

Definition is_binary_cell (bs : bytes) : bool := bool_decide (take 2 bs = CELL_MARKER).

Definition decode_json_cell {js : Json} (bs : bytes) : option bytes :=
  if negb (is_binary_cell bs) then None
  else match jsonb_decode (drop 2 bs) with Ok v => Some (json_print v) | Err _ => None end.

(** [decode_column]: the cell, as JSON text when it is a binary one. *)
Definition decode_column {js : Json} (value : bytes) (idx : nat) : option bytes :=
  match decode_cell value idx with
  | None => None
  | Some cell => match decode_json_cell cell with Some decoded => Some decoded | None => Some cell end
  end.

(** ** Round trip *)

(** Induction over values with the hypothesis for what they hold. *)
Lemma value_ind' (P : Value -> Prop) :
  P VNull -> (forall b, P (VBool b)) -> (forall n, P (VNumber n)) -> (forall s, P (VString s)) ->
  (forall items, Forall P items -> P (VArray items)) ->
  (forall entries, Forall (fun e => P (snd e)) entries -> P (VObject entries)) -> forall v, P v.
Proof.
  intros Hn Hb Hm Hs Ha Ho. fix IH 1. intros [| | | |items|entries]; [done|done|done|done| |].
  - apply Ha. induction items as [|v items IHl]; constructor; [apply IH | exact IHl].
  - apply Ho. induction entries as [|[k v] entries IHl]; constructor; [apply IH | exact IHl].
Qed.

Definition number_ok (n : Number) : Prop :=
  match n with
  | PosInt n => 0 <= n < 2 ^ 63
  | NegInt n => - 2 ^ 63 <= n < 0
  | Float bits => is_u64 bits /\ is_finite bits = true
  end.

Definition key_ok (s : string) : Prop := is_string s /\ zlen (as_bytes s) < 2 ^ 64.

(** A document of [serde_json] without unsigned numbers above the signed range. *)
Fixpoint value_ok (v : Value) : Prop :=
  match v with
  | VNull | VBool _ => True
  | VNumber n => number_ok n
  | VString s => key_ok s
  | VArray items => zlen items < CAPACITY /\ fold_right (fun v P => value_ok v /\ P) True items
  | VObject entries =>
      zlen entries < 2 ^ 64 /\ om_sorted entries /\ fold_right (fun e P => (key_ok (fst e) /\ value_ok (snd e)) /\ P) True entries
  end.

Lemma fold_Forall {A : Type} (P : A -> Prop) (l : list A) : fold_right (fun x Q => P x /\ Q) True l <-> Forall P l.
Proof.
  induction l as [|x l IH]; simpl; [split; [constructor|done]|]. rewrite IH. split; [intros [? ?]; by constructor | by inversion 1].
Qed.

Lemma decode_varint_write (n : Z) (rest : bytes) : 0 <= n < 2 ^ 64 -> decode_varint (write_varint n ++ rest) = Ok (n, rest).
Proof. intros Hn. unfold decode_varint. by rewrite varint_roundtrip. Qed.

Lemma take_bytes_app (bs rest : bytes) (n : Z) (what : string) : zlen bs = n -> take_bytes n what (bs ++ rest) = Ok (bs, rest).
Proof.
  intros <-. unfold take_bytes. rewrite (proj2 (Z.ltb_ge _ _)) by (rewrite zlen_app; pose proof (zlen_nonneg rest); lia).
  unfold zlen. rewrite Nat2Z.id. by rewrite take_app_length, drop_app_length.
Qed.

Lemma decode_str_encode (s what : string) (rest : bytes) : key_ok s -> decode_str what (encode_str s ++ rest) = Ok (s, rest).
Proof.
  intros [Hs Hl]. unfold decode_str, encode_str. rewrite <- app_assoc, decode_varint_write by auto.
  rewrite take_bytes_app by done. by rewrite from_utf8_lossy_as_bytes.
Qed.

Lemma decode_number (n : Number) (fuel : nat) (rest : bytes) :
  number_ok n -> decode_at (S fuel) (encode_number n ++ rest) = Ok (VNumber n, rest).
Proof.
  intros Hn. unfold encode_number.
  assert (forall i, is_i64 i -> decode_at (S fuel) ((Byte.x03 :: i64_to_be i) ++ rest) = Ok (VNumber (number_from_i64 i), rest)) as Hi.
  { intros i Hi. rewrite <- app_comm_cons. cbn [decode_at]. change (Z_of_byte Byte.x03) with 3. cbn [Z.eqb Pos.eqb].
    rewrite take_bytes_app by (unfold i64_to_be; apply zlen_u64_to_be). by rewrite i64_be_roundtrip. }
  destruct n as [n|n|bits]; cbn [as_i64 as_f64 default from_option id number_ok] in *.
  - rewrite (proj2 (Z.ltb_lt _ _)) by lia. rewrite Hi by (unfold is_i64; lia). unfold number_from_i64. by rewrite (proj2 (Z.ltb_ge _ _)) by lia.
  - rewrite Hi by (unfold is_i64; lia). unfold number_from_i64. by rewrite (proj2 (Z.ltb_lt _ _)) by lia.
  - destruct Hn as [Hb Hf]. rewrite <- app_comm_cons. cbn [decode_at]. change (Z_of_byte Byte.x04) with 4. cbn [Z.eqb Pos.eqb].
    rewrite take_bytes_app by apply zlen_u64_to_be. rewrite from_u64_to_be by done. unfold number_from_f64. by rewrite Hf.
Qed.

(** Encoding a sorted map keeps its order. *)
Lemma sort_by_om_sorted {A B : Type} (f : A -> B) (m : list (string * A)) :
  om_sorted m -> sort_by key_le (map (fun e => (fst e, f (snd e))) m) = map (fun e => (fst e, f (snd e))) m.
Proof.
  induction m as [|e m IH]; [done|]. intros [Hlt Hs]%om_sorted_cons. cbn [map sort_by]. rewrite (IH Hs).
  destruct m as [|e' m]; [done|]. cbn [map insert_by]. unfold key_le at 1. cbn [fst].
  apply Forall_inv in Hlt. unfold lt_cmp in Hlt. by rewrite Hlt.
Qed.

Lemma encode_value_nonempty (v : Value) : (1 <= length (encode_value v))%nat.
Proof. destruct v as [|[]|n| | |]; simpl; try lia. unfold encode_number. destruct (as_i64 n); simpl; lia. Qed.

Definition decodes (v : Value) : Prop :=
  value_ok v -> forall fuel rest, (2 * length (encode_value v) + 1 <= fuel)%nat -> decode_at fuel (encode_value v ++ rest) = Ok (v, rest).

Lemma decode_items_encode (items : list Value) (fuel : nat) (rest : bytes) :
  Forall decodes items -> Forall value_ok items -> (2 * length (concat (map encode_value items)) + 2 <= fuel)%nat ->
  decode_items fuel (zlen items) (concat (map encode_value items) ++ rest) = Ok (items, rest).
Proof.
  revert fuel. induction items as [|v items IH]; intros [|fuel] Hd Hok Hf; try lia; cbn [decode_items map concat].
  - done.
  - apply Forall_cons in Hd as [Hd Hds]. apply Forall_cons in Hok as [Hok Hoks]. cbn [map concat] in Hf. rewrite length_app in Hf.
    pose proof (encode_value_nonempty v). pose proof (zlen_nonneg items). rewrite zlen_cons.
    rewrite (proj2 (Z.leb_gt _ 0)) by lia. rewrite <- app_assoc, (Hd Hok) by lia.
    replace (1 + zlen items - 1) with (zlen items) by lia. by rewrite IH by (done || lia).
Qed.

Lemma om_insert_last (k : string) (v : Value) (m : list (string * Value)) :
  Forall (fun e => lt_cmp (fst e) k) m -> om_insert k v m = m ++ [(k, v)].
Proof.
  induction m as [|[k' v'] m IH]; [done|]. intros [Hlt Hm]%Forall_cons. cbn [om_insert app]. unfold lt_cmp in Hlt. cbn [fst] in Hlt.
  rewrite (proj2 (cmp_gt_lt k k') Hlt). by rewrite IH.
Qed.

Definition encode_entries (entries : list (string * Value)) : bytes :=
  concat (map (fun e => encode_str (fst e) ++ encode_value (snd e)) entries).

Lemma decode_entries_encode (entries before : list (string * Value)) (fuel : nat) (rest : bytes) :
  Forall (fun e => decodes (snd e)) entries -> Forall (fun e => key_ok (fst e) /\ value_ok (snd e)) entries ->
  om_sorted (before ++ entries) -> (2 * length (encode_entries entries) + 2 <= fuel)%nat ->
  decode_entries fuel (zlen entries) (encode_entries entries ++ rest) before = Ok (before ++ entries, rest).
Proof.
  revert fuel before. induction entries as [|[k v] entries IH]; intros [|fuel] before Hd Hok Hs Hf; try lia;
    unfold encode_entries; cbn [decode_entries map concat].
  - by rewrite app_nil_r.
  - apply Forall_cons in Hd as [Hd Hds]. apply Forall_cons in Hok as [[Hk Hok] Hoks]. cbn [fst snd] in *.
    unfold encode_entries in Hf. cbn [map concat fst snd] in Hf. fold (encode_entries entries) in *. rewrite !length_app in Hf.
    pose proof (encode_value_nonempty v). pose proof (zlen_nonneg entries). rewrite zlen_cons.
    rewrite (proj2 (Z.leb_gt _ 0)) by lia. rewrite <- !app_assoc, decode_str_encode by done. rewrite (Hd Hok) by lia.
    assert (Forall (fun e => lt_cmp (fst e) k) before) as Hlt.
    { apply Forall_forall. intros e He. unfold om_sorted in Hs.
      apply (StronglySorted_app_1_elem_of _ _ _ e (k, v)) in Hs; [done|done|left]. }
    rewrite om_insert_last by done. replace (1 + zlen entries - 1) with (zlen entries) by lia.
    rewrite IH; [by rewrite <- app_assoc | done | done | by rewrite <- app_assoc | lia].
Qed.

Lemma decode_encode_at (v : Value) : decodes v.
Proof.
  induction v as [| |n|s|items IH|entries IH] using value_ind'; intros Hok [|fuel] rest Hf; try lia.
  - done.
  - by destruct b.
  - by apply decode_number.
  - change (encode_value (VString s)) with (Byte.x05 :: encode_str s). rewrite <- app_comm_cons. cbn [decode_at].
    change (Z_of_byte Byte.x05) with 5. cbn [Z.eqb Pos.eqb]. by rewrite decode_str_encode.
  - destruct Hok as [Hl Hok%fold_Forall]. cbn [encode_value] in *. rewrite <- app_comm_cons. cbn [decode_at].
    change (Z_of_byte Byte.x06) with 6. cbn [Z.eqb Pos.eqb]. pose proof (zlen_nonneg items).
    rewrite <- app_assoc, decode_varint_write by (unfold CAPACITY in Hl; lia). rewrite (proj2 (Z.leb_gt _ _)) by done.
    simpl length in Hf. rewrite length_app in Hf. by rewrite decode_items_encode by (done || lia).
  - destruct Hok as (Hl & Hs & Hok). apply (fold_Forall (fun e => key_ok (fst e) /\ value_ok (snd e))) in Hok.
    cbn [encode_value] in *. rewrite (sort_by_om_sorted encode_value), map_map in * by done. cbn [fst snd] in *. fold (encode_entries entries) in *.
    rewrite <- app_comm_cons. cbn [decode_at].
    change (Z_of_byte Byte.x07) with 7. cbn [Z.eqb Pos.eqb]. pose proof (zlen_nonneg entries).
    rewrite <- app_assoc, decode_varint_write by lia.
    simpl length in Hf. rewrite length_app in Hf. by rewrite decode_entries_encode by (done || lia).
Qed.

Lemma jsonb_decode_encode (v : Value) : value_ok v -> jsonb_decode (encode_value v) = Ok v.
Proof.
  intros Hv. unfold jsonb_decode. rewrite <- (app_nil_r (encode_value v)) at 2. by rewrite (decode_encode_at v Hv) by lia.
Qed.

(** Binary JSON round trip. Decoding the encoding of a document gives the
    document back: numbers with every bit, strings, nested arrays and objects;
    so two documents with the same encoding are the same. *)
Theorem jsonb_roundtrip (v : Value) :
  value_ok v -> jsonb_decode (encode_value v) = Ok v
  /\ forall w, value_ok w -> encode_value w = encode_value v -> w = v.
Proof.
  intros Hv. split; [by apply jsonb_decode_encode|]. intros w Hw He. apply jsonb_decode_encode in Hw.
  rewrite He, (jsonb_decode_encode v Hv) in Hw. congruence.
Qed.

(** ** Totality *)

Lemma read_varint_shorter (data rest : bytes) (v shift n : Z) :
  read_varint_loop data v shift = Some (n, rest) -> (length rest < length data)%nat.
Proof.
  revert v shift. induction data as [|b data IH]; intros v shift; cbn [read_varint_loop]; [done|].
  destruct (Z.land (Z_of_byte b) 128 =? 0); [intros [= _ <-]; simpl; lia|]. intros H%IH. simpl. lia.
Qed.

Lemma decode_varint_shorter (rest rest' : bytes) (n : Z) : decode_varint rest = Ok (n, rest') -> (length rest' < length rest)%nat.
Proof.
  unfold decode_varint, read_varint. destruct (read_varint_loop rest 0 0) as [[n' r]|] eqn:E; [|done].
  intros [= <- <-]. by apply read_varint_shorter in E.
Qed.

Lemma take_bytes_shorter (n : Z) (what : string) (rest bs rest' : bytes) :
  take_bytes n what rest = Ok (bs, rest') -> (length rest' <= length rest)%nat.
Proof. unfold take_bytes. destruct (zlen rest <? n); [done|]. intros [= _ <-]. rewrite length_drop. lia. Qed.

Lemma decode_str_shorter (what : string) (rest rest' : bytes) (s : string) :
  decode_str what rest = Ok (s, rest') -> (length rest' < length rest)%nat.
Proof.
  unfold decode_str. destruct (decode_varint rest) as [[n r1]|] eqn:E1; [|done].
  destruct (take_bytes n what r1) as [[b r2]|] eqn:E2; [|done]. intros [= _ <-].
  apply decode_varint_shorter in E1. apply take_bytes_shorter in E2. lia.
Qed.

(** The error, if any, is not that of the fuel, and a value takes a byte. *)
Definition settled {A : Type} (slack : nat) (r : Result (A * bytes)) (rest : bytes) : Prop :=
  match r with
  | Ok (_, rest') => (slack + length rest' <= length rest)%nat
  | Err e => e <> OUT_OF_FUEL
  end.

Lemma decode_varint_settled (rest : bytes) : settled 1 (decode_varint rest) rest.
Proof.
  destruct (decode_varint rest) as [[n r]|e] eqn:E; [apply decode_varint_shorter in E; simpl; lia|].
  unfold decode_varint in E. destruct (read_varint rest); [done|]. by injection E as <-.
Qed.

Lemma take_bytes_settled (n : Z) (what : string) (rest : bytes) : what <> OUT_OF_FUEL -> settled 0 (take_bytes n what rest) rest.
Proof.
  intros Hw. destruct (take_bytes n what rest) as [[b r]|e] eqn:E; [by apply take_bytes_shorter in E|].
  unfold take_bytes in E. destruct (zlen rest <? n); [|done]. by injection E as <-.
Qed.

Lemma decode_str_settled (what : string) (rest : bytes) : what <> OUT_OF_FUEL -> settled 1 (decode_str what rest) rest.
Proof.
  intros Hw. destruct (decode_str what rest) as [[s r]|e] eqn:E; [apply decode_str_shorter in E; simpl; lia|].
  unfold decode_str in E. pose proof (decode_varint_settled rest) as H1. destruct (decode_varint rest) as [[n r1]|e1]; [|by injection E as <-].
  pose proof (take_bytes_settled n what r1 Hw) as H2. destruct (take_bytes n what r1) as [[b r2]|e2]; [done|by injection E as <-].
Qed.

Lemma decode_settled (fuel : nat) :
  (forall rest, (2 * length rest + 1 <= fuel)%nat -> settled 1 (decode_at fuel rest) rest)
  /\ (forall n rest, (2 * length rest + 2 <= fuel)%nat -> settled 0 (decode_items fuel n rest) rest)
  /\ (forall n rest m, (2 * length rest + 2 <= fuel)%nat -> settled 0 (decode_entries fuel n rest m) rest).
Proof.
  induction fuel as [|fuel (IHa & IHi & IHe)]; (split; [|split]); [intros; lia..| | |].
  - intros [|tag rest] Hf; cbn [decode_at]; [done|]. simpl length in Hf.
    assert (forall A (r : Result (A * bytes)), settled 0 r rest -> settled 1 r (tag :: rest)) as Hcons.
    { intros A [[a r]|e]; simpl; [lia|done]. }
    apply Hcons. destruct (Z_of_byte tag =? 0); [simpl; lia|]. destruct (Z_of_byte tag =? 1); [simpl; lia|].
    destruct (Z_of_byte tag =? 2); [simpl; lia|]. destruct (Z_of_byte tag =? 3); [|destruct (Z_of_byte tag =? 4); [|
      destruct (Z_of_byte tag =? 5); [|destruct (Z_of_byte tag =? 6); [|destruct (Z_of_byte tag =? 7); [|done]]]]].
    + pose proof (take_bytes_settled 8 "jsonb: truncated int" rest ltac:(done)) as H8. by destruct (take_bytes 8 _ rest) as [[b r]|e].
    + pose proof (take_bytes_settled 8 "jsonb: truncated float" rest ltac:(done)) as H8. by destruct (take_bytes 8 _ rest) as [[b r]|e].
    + pose proof (decode_str_settled "jsonb: truncated string" rest ltac:(done)) as H8. destruct (decode_str _ rest) as [[b r]|e]; simpl in *; [lia|done].
    + pose proof (decode_varint_settled rest) as H8. destruct (decode_varint rest) as [[n r]|e]; [|done]. simpl in H8.
      destruct (CAPACITY <=? n); [done|]. pose proof (IHi n r ltac:(lia)) as H9. destruct (decode_items fuel n r) as [[l r']|e]; simpl in *; [lia|done].
    + pose proof (decode_varint_settled rest) as H8. destruct (decode_varint rest) as [[n r]|e]; [|done]. simpl in H8.
      pose proof (IHe n r [] ltac:(lia)) as H9. destruct (decode_entries fuel n r []) as [[l r']|e]; simpl in *; [lia|done].
  - intros n rest Hf. cbn [decode_items]. destruct (n <=? 0); [simpl; lia|].
    pose proof (IHa rest ltac:(lia)) as H1. destruct (decode_at fuel rest) as [[v r]|e]; [|done]. simpl in H1.
    pose proof (IHi (n - 1) r ltac:(lia)) as H2. destruct (decode_items fuel (n - 1) r) as [[l r']|e]; simpl in *; [lia|done].
  - intros n rest m Hf. cbn [decode_entries]. destruct (n <=? 0); [simpl; lia|].
    pose proof (decode_str_settled "jsonb: truncated key" rest ltac:(done)) as H0. destruct (decode_str _ rest) as [[k r0]|e]; [|done]. simpl in H0.
    pose proof (IHa r0 ltac:(lia)) as H1. destruct (decode_at fuel r0) as [[v r]|e]; [|done]. simpl in H1.
    pose proof (IHe (n - 1) r (om_insert k v m) ltac:(lia)) as H2.
    destruct (decode_entries fuel (n - 1) r (om_insert k v m)) as [[l r']|e]; simpl in *; [lia|done].
Qed.

(** Decoding always ends: on any bytes it gives a value or an error of
    the format, within the fuel that the length allows. *)
Theorem jsonb_decode_total (buf : bytes) : jsonb_decode buf <> Err OUT_OF_FUEL.
Proof.
  unfold jsonb_decode. pose proof (proj1 (decode_settled (2 * length buf + 1)) buf ltac:(lia)) as H.
  destruct (decode_at _ buf) as [[v r]|e]; [done|]. simpl in H. congruence.
Qed.

(** An unsigned number above the signed range is stored as a float: the
    nearest one, so that different numbers become equal and none comes back as
    the integer it was. *)
Theorem jsonb_large_unsigned_becomes_float (n : Z) :
  2 ^ 63 <= n < 2 ^ 64 ->
  jsonb_decode (encode_value (VNumber (PosInt n))) = Ok (VNumber (Float (u64_to_f64 n))).
Proof.
  intros Hn. unfold encode_value, encode_number. cbn [as_i64 as_f64 default from_option id]. rewrite (proj2 (Z.ltb_ge _ _)) by lia.
  assert (Z.log2 n = 63) as Hlog by (apply Z.log2_unique; lia).
  assert (exists k, u64_to_f64 n = 1086 * 2 ^ 52 + k /\ 0 <= k <= 2 ^ 52) as (k & Hk & Hr).
  { unfold u64_to_f64. rewrite (proj2 (Z.eqb_neq _ _)) by lia. rewrite Hlog. cbn [Z.leb Z.compare Pos.compare Pos.compare_cont].
    change (63 - 52) with 11. rewrite Z.shiftr_div_pow2 by lia. change (2 ^ 11) with 2048.
    assert (2 ^ 52 <= n / 2048 < 2 ^ 53) as Hq.
    { split; [apply Z.div_le_lower_bound; lia | apply Z.div_lt_upper_bound; lia]. }
    destruct (_ || _); eexists; (split; [reflexivity | lia]). }
  assert (is_finite (u64_to_f64 n) = true) as Hfin.
  { unfold is_finite. rewrite Z.shiftr_div_pow2 by lia. change 2047 with (Z.ones 11) at 1. rewrite Z.land_ones by lia. rewrite Hk.
    assert (exists q, (1086 * 2 ^ 52 + k) / 2 ^ 52 = q /\ (q = 1086 \/ q = 1087)) as (q & -> & [->| ->]); [|done..].
    rewrite Z.div_add_l by lia. assert (0 <= k / 2 ^ 52 <= 1) as Hb.
    { split; [apply Z.div_pos; lia | apply Z.div_le_upper_bound; lia]. }
    eexists; split; [reflexivity|]. lia. }
  unfold jsonb_decode. rewrite Nat.add_comm. cbn [Nat.add decode_at]. change (Z_of_byte Byte.x04) with 4. cbn [Z.eqb Pos.eqb].
  rewrite <- (app_nil_r (u64_to_be _)), take_bytes_app by apply zlen_u64_to_be.
  rewrite from_u64_to_be by (unfold is_u64; lia). unfold number_from_f64. by rewrite Hfin.
Qed.

(** ** Cells *)

(** A binary cell reads as the JSON text of the document stored, an
    unmarked cell as it was stored; so text that begins with the two bytes of
    the mark is not read back. *)
Theorem json_cell_reads_back {js : Json} (text : bytes) (v : Value) :
  json_parse text = Some v -> value_ok v ->
  decode_json_cell (encode_json_cell text) = Some (json_print v)
  /\ (forall cells i cell, Forall cell_fits cells -> cells !! i = Some (Some cell) -> is_binary_cell cell = false ->
        decode_column (encode_cells cells) i = Some cell)
  /\ decode_column (encode_cells [Some (CELL_MARKER ++ [Byte.x00])]) 0 = Some (json_print VNull).
Proof.
  intros Hp Hv. split_and!.
  - unfold encode_json_cell, decode_json_cell. rewrite Hp. change (is_binary_cell (CELL_MARKER ++ encode_value v)) with true.
    change (drop 2 (CELL_MARKER ++ encode_value v)) with (encode_value v). by rewrite jsonb_decode_encode.
  - intros cells i cell Hfit Hi Hb. unfold decode_column. rewrite (decode_encode_cells cells i Hfit), Hi. simpl.
    unfold decode_json_cell. by rewrite Hb.
  - reflexivity.
Qed.

(** ** Witnesses *)

Definition sample : Value :=
  VObject [("a"%string, VArray [VNumber (PosInt 1); VNumber (NegInt (-1)); VNumber (Float 4607182418800017408)]); ("b"%string, VString "x")].

Lemma sample_ok : value_ok sample.
Proof.
  split; [by vm_compute|]. split; [repeat constructor|].
  repeat split; unfold is_u64, zlen; simpl; lia || done.
Qed.

Lemma jsonb_roundtrip_witness : jsonb_decode (encode_value sample) = Ok sample.
Proof. apply (jsonb_roundtrip sample sample_ok). Defined.

Lemma jsonb_large_unsigned_becomes_float_witness :
  jsonb_decode (encode_value (VNumber (PosInt (2 ^ 63 + 1)))) = jsonb_decode (encode_value (VNumber (PosInt (2 ^ 63)))).
Proof.
  rewrite (jsonb_large_unsigned_becomes_float (2 ^ 63 + 1)), (jsonb_large_unsigned_becomes_float (2 ^ 63)) by lia.
  vm_compute. reflexivity.
Defined.

(** A parser and printer of the document [null]. *)
#[local] Instance null_json : Json := {|
  json_parse bs := if bool_decide (bs = as_bytes "null") then Some VNull else None;
  json_print _ := as_bytes "null";
|}.

Lemma json_cell_reads_back_witness : decode_json_cell (encode_json_cell (as_bytes "null")) = Some (as_bytes "null").
Proof.
  destruct (json_cell_reads_back (as_bytes "null") VNull) as (H & _); [reflexivity | exact I | exact H].
Defined.
