(* ===== verification/Graph.v ===== *)
(** The adjacency graph ([graph/mod.rs]): vertices are byte keys interned to
    dense ids, every edge is recorded at both of its ends.

    A panic of the code (an index out of range) is [None].

    The abstract state of a graph is the list of the edges added to it, by key;
    [graph_rep] relates the two, [graph_of] builds a graph from such a list.
    Theorem: the neighbours of a vertex are the edges added at it, in order. *)

From Stdlib Require Import Strings.Byte Strings.String Strings.Ascii ZArith Lia.
From stdpp Require Import base list gmap sets strings relations.
From S2P Require Import Prelude.

Open Scope Z_scope.

#[export] Instance byte_countable : Countable byte := inj_countable Byte.to_N Byte.of_N Byte.of_to_N.

(** ** Data *)

Inductive Direction := Direction_Out | Direction_In | Direction_Both.

Definition direction_parse (s : string) : option Direction :=
  let s := to_ascii_lowercase s in
  if String.eqb s "out" || String.eqb s "outgoing" then Some Direction_Out
  else if String.eqb s "in" || String.eqb s "incoming" then Some Direction_In
  else if String.eqb s "both" || String.eqb s "any" then Some Direction_Both
  else None.

Record Edge := mkEdge { e_to : Z; e_rel : option string }.

Record AdjacencyGraph := mkGraph {
  key_to_id : gmap bytes Z;
  g_keys : list bytes;
  out_adj : list (list Edge);
  in_adj : list (list Edge);
}.

(** ** Operations *)

Definition graph_new : AdjacencyGraph := mkGraph ∅ [] [] [].

Definition intern (key : bytes) (g : AdjacencyGraph) : AdjacencyGraph * Z :=
  match key_to_id g !! key with
  | Some id => (g, id)
  | None =>
      let id := zlen (g_keys g) mod 2 ^ 32 in
      (mkGraph (<[key := id]> (key_to_id g)) (g_keys g ++ [key]) (out_adj g ++ [[]]) (in_adj g ++ [[]]), id)
  end.

Definition id_of (key : bytes) (g : AdjacencyGraph) : option Z := key_to_id g !! key.
Definition key_of (id : Z) (g : AdjacencyGraph) : option bytes := g_keys g !! Z.to_nat id.
Definition vertex_count (g : AdjacencyGraph) : nat := length (g_keys g).

(** [0..self.keys.len() as VertexId] *)
Definition vertex_ids (g : AdjacencyGraph) : list Z := seqZ 0 (zlen (g_keys g) mod 2 ^ 32).

(** [adj[id as usize].push(e)] *)
Definition push_edge (id : Z) (e : Edge) (adj : list (list Edge)) : option (list (list Edge)) :=
  match adj !! Z.to_nat id with
  | Some es => Some (<[Z.to_nat id := es ++ [e]]> adj)
  | None => None
  end.

Definition add_edge (from to : bytes) (rel : option string) (g : AdjacencyGraph) : option AdjacencyGraph :=
  let '(g, from_id) := intern from g in
  let '(g, to_id) := intern to g in
  match push_edge from_id (mkEdge to_id rel) (out_adj g), push_edge to_id (mkEdge from_id rel) (in_adj g) with
  | Some out, Some inn => Some (mkGraph (key_to_id g) (g_keys g) out inn)
  | _, _ => None
  end.

Definition out_edges (id : Z) (g : AdjacencyGraph) : list Edge := default [] (out_adj g !! Z.to_nat id).
Definition in_edges (id : Z) (g : AdjacencyGraph) : list Edge := default [] (in_adj g !! Z.to_nat id).

Definition neighbors (id : Z) (dir : Direction) (g : AdjacencyGraph) : list (Z * option string) :=
  let pairs := map (fun e => (e_to e, e_rel e)) in
  match dir with
  | Direction_Out => pairs (out_edges id g)
  | Direction_In => pairs (in_edges id g)
  | Direction_Both => pairs (out_edges id g) ++ pairs (in_edges id g)
  end.

(** ** The edges behind a graph *)

Record EdgeRecord := mkEdgeRecord { er_from : bytes; er_to : bytes; er_rel : option string }.

Fixpoint graph_add (log : list EdgeRecord) (g : AdjacencyGraph) : option AdjacencyGraph :=
  match log with
  | [] => Some g
  | r :: log' => match add_edge (er_from r) (er_to r) (er_rel r) g with Some g => graph_add log' g | None => None end
  end.

Definition graph_of (log : list EdgeRecord) : option AdjacencyGraph := graph_add log graph_new.

(** What a vertex sees of an edge. *)
Definition ends_from (k : bytes) (log : list EdgeRecord) : list (bytes * option string) :=
  map (fun r => (er_to r, er_rel r)) (filter (fun r => er_from r = k) log).
Definition ends_to (k : bytes) (log : list EdgeRecord) : list (bytes * option string) :=
  map (fun r => (er_from r, er_rel r)) (filter (fun r => er_to r = k) log).

Definition ends (k : bytes) (dir : Direction) (log : list EdgeRecord) : list (bytes * option string) :=
  match dir with
  | Direction_Out => ends_from k log
  | Direction_In => ends_to k log
  | Direction_Both => ends_from k log ++ ends_to k log
  end.

(** An adjacency list, by key: [None] for an id that is no vertex. *)
Definition named (g : AdjacencyGraph) (es : list Edge) : list (option bytes * option string) :=
  map (fun e => (key_of (e_to e) g, e_rel e)) es.

Definition known (l : list (bytes * option string)) : list (option bytes * option string) :=
  map (fun p => (Some (fst p), snd p)) l.

(** The adjacency lists [adj] hold, for every vertex, the ends given by [sp]. *)
Record adj_rep (sp : bytes -> list (bytes * option string)) (g : AdjacencyGraph) (adj : list (list Edge)) : Prop := {
  ar_length : length adj = length (g_keys g);
  ar_edges : forall i k es, g_keys g !! i = Some k -> adj !! i = Some es -> named g es = known (sp k);
  ar_range : forall es e, es ∈ adj -> e ∈ es -> 0 <= e_to e < zlen (g_keys g);
}.

(** The ids and the keys are in bijection; [ks] may have no edge yet. *)
Record graph_inv (ks : list bytes) (log : list EdgeRecord) (g : AdjacencyGraph) : Prop := {
  gr_small : zlen (g_keys g) < 2 ^ 32;
  gr_ids : forall k i, key_to_id g !! k = Some i <-> 0 <= i /\ g_keys g !! Z.to_nat i = Some k;
  gr_keys : forall k, k ∈ g_keys g <-> k ∈ ks \/ exists r, r ∈ log /\ (er_from r = k \/ er_to r = k);
  gr_out : adj_rep (fun k => ends_from k log) g (out_adj g);
  gr_in : adj_rep (fun k => ends_to k log) g (in_adj g);
}.

Definition graph_rep (log : list EdgeRecord) (g : AdjacencyGraph) : Prop := graph_inv [] log g.

Lemma graph_rep_new : graph_rep [] graph_new.
Proof.
  split; try done.
  - intros k i. split; [done | by intros [_ H]].
  - intros k. split; [by intros H%elem_of_nil | by intros [H%elem_of_nil|(r & H%elem_of_nil & _)]].
  - split; [done | done | by intros es e H%elem_of_nil].
  - split; [done | done | by intros es e H%elem_of_nil].
Qed.

(** The ids of a graph and its keys are in bijection. *)
Section Ids.
  Context {ks : list bytes} {log : list EdgeRecord} {g : AdjacencyGraph} (Hrep : graph_inv ks log g).

Lemma rep_id_of (k : bytes) (i : Z) : id_of k g = Some i <-> 0 <= i /\ key_of i g = Some k.
Proof. apply (gr_ids _ _ _ Hrep). Qed.

Lemma rep_key_inj (i j : Z) (k : bytes) : 0 <= i -> 0 <= j -> key_of i g = Some k -> key_of j g = Some k -> i = j.
Proof.
  intros Hi Hj H1 H2. assert (id_of k g = Some i) by (by apply rep_id_of).
  assert (id_of k g = Some j) by (by apply rep_id_of). congruence.
Qed.

Lemma rep_key_of (i : Z) : 0 <= i < zlen (g_keys g) -> exists k, key_of i g = Some k.
Proof. intros Hi. apply lookup_lt_is_Some. unfold zlen in Hi. lia. Qed.

Lemma key_of_range (i : Z) (k : bytes) : 0 <= i -> key_of i g = Some k -> i < zlen (g_keys g).
Proof. intros Hi Hk%lookup_lt_Some. unfold zlen. lia. Qed.

Lemma rep_vertex_ids : vertex_ids g = seqZ 0 (zlen (g_keys g)).
Proof.
  unfold vertex_ids. rewrite Z.mod_small; [done|]. split; [auto | apply (gr_small _ _ _ Hrep)].
Qed.
End Ids.

(** ** Adding an edge *)

Lemma named_more (g g' : AdjacencyGraph) (es : list Edge) :
  (forall e, e ∈ es -> 0 <= e_to e < zlen (g_keys g)) ->
  (forall i k, key_of i g = Some k -> key_of i g' = Some k) -> named g' es = named g es.
Proof.
  intros Hr Hk. unfold named. apply map_ext_in. intros e He%list_elem_of_In.
  apply Hr in He. assert (is_Some (key_of (e_to e) g)) as [k Hek] by (apply lookup_lt_is_Some; unfold zlen in He; lia).
  by rewrite Hek, (Hk _ _ Hek).
Qed.

Lemma ends_none (k : bytes) (log : list EdgeRecord) :
  ~ (exists r, r ∈ log /\ (er_from r = k \/ er_to r = k)) -> ends_from k log = [] /\ ends_to k log = [].
Proof.
  induction log as [|r log IH]; intros Hno; [done|].
  assert (er_from r <> k /\ er_to r <> k) as [Hf Ht] by (split; intros H; apply Hno; exists r; split; [left|auto|left|auto]).
  destruct IH as [IHf IHt]; [intros (r' & Hr & H); apply Hno; exists r'; split; [by right|done]|].
  unfold ends_from, ends_to in *. by rewrite !filter_cons_False.
Qed.

Lemma adj_rep_more sp (g g' : AdjacencyGraph) (adj : list (list Edge)) (key : bytes) :
  adj_rep sp g adj -> g_keys g' = g_keys g ++ [key] -> sp key = [] -> adj_rep sp g' (adj ++ [[]]).
Proof.
  intros [Hl He Hr] Hk Hnone. split.
  - by rewrite Hk, !length_app, Hl.
  - intros i k es Hi Hes. rewrite Hk in Hi. apply lookup_app_Some in Hes as [Hes|[Hge Hes]].
    + rewrite (named_more g g' es).
      * pose proof (lookup_lt_Some _ _ _ Hes). rewrite lookup_app_l in Hi by lia. by apply (He i).
      * intros e. apply Hr. by eapply list_elem_of_lookup_2.
      * intros j kj Hj. unfold key_of. rewrite Hk. by apply lookup_app_l_Some.
    + apply list_lookup_singleton_Some in Hes as [Hz <-]. rewrite lookup_app_r in Hi by lia.
      replace (i - length (g_keys g))%nat with 0%nat in Hi by lia. injection Hi as <-. by rewrite Hnone.
  - intros es e [Hes| ->%list_elem_of_singleton]%elem_of_app He'; [|by apply elem_of_nil in He'].
    pose proof (Hr es e Hes He'). rewrite Hk. zlen_solve.
Qed.

Lemma intern_inv (ks : list bytes) (log : list EdgeRecord) (g g' : AdjacencyGraph) (key : bytes) (id : Z) :
  graph_inv ks log g -> zlen (g_keys g) + 1 < 2 ^ 32 -> intern key g = (g', id) ->
  graph_inv (key :: ks) log g' /\ 0 <= id /\ key_of id g' = Some key
  /\ (forall i k, key_of i g = Some k -> key_of i g' = Some k) /\ zlen (g_keys g') <= zlen (g_keys g) + 1.
Proof.
  intros Hrep Hlt. unfold intern. destruct (key_to_id g !! key) as [i|] eqn:E; intros [= <- <-].
  - pose proof E as [Hi Hk]%(gr_ids _ _ _ Hrep). split; [|split_and!; [done|done|auto|lia]].
    destruct Hrep as [H1 H2 H3 H4 H5]. split; try done. intros k. rewrite H3, elem_of_cons. split; [tauto|].
    intros [[->|?]|?]; [|tauto..]. apply H3. by eapply list_elem_of_lookup_2.
  - rewrite Z.mod_small by (pose proof (zlen_nonneg (g_keys g)); lia).
    assert (key ∉ g_keys g) as Hnew.
    { intros [i Hi]%list_elem_of_lookup_1. assert (key_to_id g !! key = Some (Z.of_nat i)) as H; [|congruence].
      apply (gr_ids _ _ _ Hrep). rewrite Nat2Z.id. split; [lia|done]. }
    assert (ends_from key log = [] /\ ends_to key log = []) as [Hef Het].
    { apply ends_none. intros H. apply Hnew, (gr_keys _ _ _ Hrep). by right. }
    assert ((g_keys g ++ [key]) !! Z.to_nat (zlen (g_keys g)) = Some key) as Hid.
    { unfold zlen. rewrite Nat2Z.id, lookup_app_r, Nat.sub_diag by lia. done. }
    split; [|split_and!; [auto|exact Hid|intros i k; apply lookup_app_l_Some|simpl; zlen_solve]].
    destruct Hrep as [H1 H2 H3 H4 H5]. split; cbn [g_keys key_to_id out_adj in_adj].
    + zlen_solve.
    + intros k i. rewrite lookup_insert_Some, H2. split.
      * intros [[<- <-]|[Hne [Hi Hk]]]; [by auto | split; [done | by apply lookup_app_l_Some]].
      * intros [Hi [Hk|[Hge Hk]]%lookup_app_Some].
        -- right. split; [|done]. intros ->. apply Hnew. by eapply list_elem_of_lookup_2.
        -- left. apply list_lookup_singleton_Some in Hk as [Hz <-]. unfold zlen. split; [done | lia].
    + intros k. rewrite elem_of_app, H3, list_elem_of_singleton, elem_of_cons. tauto.
    + by eapply adj_rep_more.
    + by eapply adj_rep_more.
Qed.

(** One edge more at [id]. *)
Lemma adj_rep_push sp sp' (g g' : AdjacencyGraph) (adj : list (list Edge)) (id : Z) (k0 k1 : bytes) (e : Edge) :
  adj_rep sp g adj -> g_keys g' = g_keys g -> NoDup (g_keys g) ->
  0 <= id -> key_of id g = Some k0 -> 0 <= e_to e -> key_of (e_to e) g = Some k1 ->
  (forall k, sp' k = sp k ++ if decide (k = k0) then [(k1, e_rel e)] else []) ->
  exists adj', push_edge id e adj = Some adj' /\ adj_rep sp' g' adj'.
Proof.
  intros [Hl He Hr] Hk Hnd Hid Hk0 Hto Hk1 Hof. unfold push_edge.
  assert (named g' = named g) as Hname by (unfold named, key_of; by rewrite Hk).
  destruct (lookup_lt_is_Some_2 adj (Z.to_nat id)) as [es0 Hes0]; [rewrite Hl; by eapply lookup_lt_Some|].
  rewrite Hes0. eexists. split; [done|]. split.
  - by rewrite length_insert, Hk.
  - intros i k es Hi. rewrite Hk in Hi. rewrite Hname, Hof. unfold known. rewrite map_app. fold (known (sp k)).
    rewrite list_lookup_insert_Some. intros [(<- & <- & _)|[Hne Hes]].
    + unfold key_of in Hk0. assert (k = k0) as -> by congruence. rewrite decide_True by done.
      unfold named. rewrite map_app. fold (named g es0). rewrite (He _ _ _ Hi Hes0). simpl. by rewrite Hk1.
    + rewrite decide_False; [simpl; rewrite app_nil_r; by eapply He|]. intros ->.
      apply Hne. unfold key_of in Hk0. by eapply NoDup_lookup.
  - intros es e' Hes He'. rewrite Hk. apply list_elem_of_lookup_1 in Hes as [i Hi].
    apply list_lookup_insert_Some in Hi as [(<- & <- & _)|[Hne Hi]].
    + apply elem_of_app in He' as [He'| ->%list_elem_of_singleton]; [apply (Hr es0); [by eapply list_elem_of_lookup_2|done]|].
      apply lookup_lt_Some in Hk1. unfold zlen. lia.
    + apply (Hr es); [by eapply list_elem_of_lookup_2|done].
Qed.

Lemma inv_NoDup (ks : list bytes) (log : list EdgeRecord) (g : AdjacencyGraph) : graph_inv ks log g -> NoDup (g_keys g).
Proof.
  intros Hrep. apply NoDup_alt. intros i j k Hi Hj.
  assert (Z.of_nat i = Z.of_nat j) as H; [|lia].
  apply (rep_key_inj Hrep _ _ k); [lia | lia | unfold key_of; by rewrite Nat2Z.id..].
Qed.

Lemma ends_from_snoc (k : bytes) (log : list EdgeRecord) (r : EdgeRecord) :
  ends_from k (log ++ [r]) = ends_from k log ++ if decide (k = er_from r) then [(er_to r, er_rel r)] else [].
Proof.
  unfold ends_from. rewrite filter_app, map_app. f_equal. destruct (decide (k = er_from r)) as [->|Hne].
  - by rewrite filter_cons_True.
  - by rewrite filter_cons_False.
Qed.

Lemma ends_to_snoc (k : bytes) (log : list EdgeRecord) (r : EdgeRecord) :
  ends_to k (log ++ [r]) = ends_to k log ++ if decide (k = er_to r) then [(er_from r, er_rel r)] else [].
Proof.
  unfold ends_to. rewrite filter_app, map_app. f_equal. destruct (decide (k = er_to r)) as [->|Hne].
  - by rewrite filter_cons_True.
  - by rewrite filter_cons_False.
Qed.

Lemma add_edge_rep (log : list EdgeRecord) (g : AdjacencyGraph) (r : EdgeRecord) :
  graph_rep log g -> zlen (g_keys g) + 2 < 2 ^ 32 ->
  exists g', add_edge (er_from r) (er_to r) (er_rel r) g = Some g' /\ graph_rep (log ++ [r]) g'
    /\ zlen (g_keys g') <= zlen (g_keys g) + 2.
Proof.
  intros Hrep Hlt. unfold add_edge. destruct (intern (er_from r) g) as [g1 f] eqn:E1.
  destruct (intern_inv _ _ _ _ _ _ Hrep ltac:(lia) E1) as (H1 & Hf & Hfk & _ & Hl1).
  destruct (intern (er_to r) g1) as [g2 t] eqn:E2.
  destruct (intern_inv _ _ _ _ _ _ H1 ltac:(lia) E2) as (H2 & Ht & Htk & Hmore & Hl2). apply Hmore in Hfk.
  pose proof (inv_NoDup _ _ _ H2) as Hnd.
  destruct (adj_rep_push _ (fun k => ends_from k (log ++ [r])) g2 g2 (out_adj g2) f (er_from r) (er_to r) (mkEdge t (er_rel r))
    (gr_out _ _ _ H2) eq_refl Hnd Hf Hfk Ht Htk) as (out & -> & Ho); [intros k; apply ends_from_snoc|].
  destruct (adj_rep_push _ (fun k => ends_to k (log ++ [r])) g2 g2 (in_adj g2) t (er_to r) (er_from r) (mkEdge f (er_rel r))
    (gr_in _ _ _ H2) eq_refl Hnd Ht Htk Hf Hfk) as (inn & -> & Hi); [intros k; apply ends_to_snoc|].
  eexists. split; [done|]. split; [|simpl; lia].
  destruct H2 as [K1 K2 K3 _ _]. split; try done; [|by destruct Ho|by destruct Hi].
  intros k. simpl. rewrite K3, !elem_of_cons. split.
  - intros [[->|[->|[]%elem_of_nil]]|(r' & Hr & H)]; right; [exists r|exists r|exists r'].
    all: rewrite elem_of_app, list_elem_of_singleton; auto.
  - intros [[]%elem_of_nil|(r' & [Hr| ->%list_elem_of_singleton]%elem_of_app & H)]; [right; eauto|].
    left. destruct H as [<-|<-]; auto.
Qed.

Lemma graph_add_rep (more log : list EdgeRecord) (g : AdjacencyGraph) :
  graph_rep log g -> zlen (g_keys g) + 2 * zlen more < 2 ^ 32 ->
  exists g', graph_add more g = Some g' /\ graph_rep (log ++ more) g' /\ zlen (g_keys g') <= zlen (g_keys g) + 2 * zlen more.
Proof.
  revert log g. induction more as [|r more IH]; intros log g Hrep Hlt; cbn [graph_add].
  - rewrite app_nil_r. exists g. split_and!; [done|done|zlen_solve].
  - rewrite zlen_cons in Hlt. pose proof (zlen_nonneg more).
    destruct (add_edge_rep log g r Hrep ltac:(lia)) as (g1 & -> & H1 & Hl1).
    destruct (IH _ _ H1 ltac:(lia)) as (g' & Hg & Hrep' & Hl'). exists g'.
    rewrite <- app_assoc in Hrep'. rewrite zlen_cons. split_and!; [done|done|lia].
Qed.

(** Every log of fewer than 2^31 edges makes a graph. *)
Lemma graph_of_rep (log : list EdgeRecord) :
  2 * zlen log < 2 ^ 32 -> exists g, graph_of log = Some g /\ graph_rep log g.
Proof.
  intros Hlt. destruct (graph_add_rep log [] graph_new graph_rep_new) as (g & Hg & Hrep & _); [exact Hlt|]. eauto.
Qed.

(** ** Neighbours *)

Lemma adj_rep_lookup sp (g : AdjacencyGraph) (adj : list (list Edge)) (i : Z) (k : bytes) :
  adj_rep sp g adj -> key_of i g = Some k -> named g (default [] (adj !! Z.to_nat i)) = known (sp k).
Proof.
  intros [Hl He Hr] Hk. destruct (lookup_lt_is_Some_2 adj (Z.to_nat i)) as [es Hes]; [rewrite Hl; by eapply lookup_lt_Some|].
  rewrite Hes. simpl. by eapply He.
Qed.

(** The neighbours by key. *)
Definition neighbor_keys (id : Z) (dir : Direction) (g : AdjacencyGraph) : list (option bytes * option string) :=
  map (fun p => (key_of (fst p) g, snd p)) (neighbors id dir g).

Lemma rep_neighbors (log : list EdgeRecord) (g : AdjacencyGraph) (i : Z) (k : bytes) (dir : Direction) :
  graph_rep log g -> key_of i g = Some k -> neighbor_keys i dir g = known (ends k dir log).
Proof.
  intros Hrep Hk. unfold neighbor_keys, neighbors.
  assert (forall es, map (fun p => (key_of (fst p) g, snd p)) (map (fun e => (e_to e, e_rel e)) es) = named g es) as Hm.
  { intros es. by rewrite map_map. }
  pose proof (adj_rep_lookup _ _ _ i k (gr_out _ _ _ Hrep) Hk) as Ho. pose proof (adj_rep_lookup _ _ _ i k (gr_in _ _ _ Hrep) Hk) as Hi.
  destruct dir; [by rewrite Hm | by rewrite Hm|]. rewrite map_app, !Hm. simpl ends. unfold known. rewrite map_app. by f_equal.
Qed.

Lemma neighbors_range (log : list EdgeRecord) (g : AdjacencyGraph) (i j : Z) (rel : option string) (dir : Direction) :
  graph_rep log g -> (j, rel) ∈ neighbors i dir g -> 0 <= j < zlen (g_keys g).
Proof.
  intros Hrep.
  assert (forall sp adj, adj_rep sp g adj ->
    (j, rel) ∈ map (fun e => (e_to e, e_rel e)) (default [] (adj !! Z.to_nat i)) -> 0 <= j < zlen (g_keys g)) as H.
  { intros sp adj [_ _ Hr] Hj. apply list_elem_of_In, in_map_iff in Hj as (e & [= <- <-] & He%list_elem_of_In).
    destruct (adj !! Z.to_nat i) as [es|] eqn:E; [|by apply elem_of_nil in He].
    apply (Hr es); [by eapply list_elem_of_lookup_2 | done]. }
  pose proof (H _ _ (gr_out _ _ _ Hrep)) as Ho. pose proof (H _ _ (gr_in _ _ _ Hrep)) as Hi.
  destruct dir; unfold neighbors; [exact Ho | exact Hi|]. rewrite elem_of_app. by intros [?|?]; auto.
Qed.
