(* ===== verification/GraphAlgo.v ===== *)
(** The graph algorithms ([graph/algorithms.rs]): bounded breadth-first
    traversal, shortest path, connected components, triangle counting and label
    propagation. PageRank computes with floats and is not modelled.

    The loops run with fuel; [None] is a loop that has not ended or an index out
    of range, and the theorems show that neither happens on a graph built from
    edges. A hash set is a [gset]; where the code iterates over one, the model
    takes the order of [elements], and the theorems' answers do not depend on
    it.

    Theorems: the traversal lists every vertex within the depth once, with its
    distance; a path is found when there is one and no path is shorter; two
    vertices get the same component when edges connect them; the triangles
    counted are the triples of vertices that are pairwise adjacent; labels do
    not cross components. *)

From Stdlib Require Import Strings.Byte Strings.String ZArith Lia Sorted.
From stdpp Require Import base list gmap sets strings relations sorting.
From S2P Require Import Prelude Graph.

Open Scope Z_scope.

(** ** Traversal *)

(** [if visited.insert(n) { queue.push_back((n, depth + 1)); }] *)
Definition bfs_visit (depth : nat) (b : gset Z * list (Z * nat)) (n : Z) : gset Z * list (Z * nat) :=
  if decide (n ∈ fst b) then b else ({[n]} ∪ fst b, snd b ++ [(n, S depth)]).

Fixpoint bfs_loop (fuel : nat) (max_depth : nat) (dir : Direction) (g : AdjacencyGraph) (visited : gset Z)
    (queue out : list (Z * nat)) : option (list (Z * nat)) :=
  match fuel with
  | O => None
  | S fuel' =>
      match queue with
      | [] => Some out
      | (v, depth) :: queue =>
          let out := out ++ [(v, depth)] in
          if (max_depth <=? depth)%nat then bfs_loop fuel' max_depth dir g visited queue out
          else
            let '(visited, queue) := fold_left (bfs_visit depth) (map fst (neighbors v dir g)) (visited, queue) in
            bfs_loop fuel' max_depth dir g visited queue out
      end
  end.

(** Every vertex is queued once, [start] also when it is no vertex. *)
Definition bfs_traverse (start : Z) (max_depth : nat) (dir : Direction) (g : AdjacencyGraph) : option (list (Z * nat)) :=
  bfs_loop (vertex_count g + 2) max_depth dir g {[start]} [(start, 0%nat)] [].

(** ** Shortest path *)

Record PathSearch := mkPathSearch { ps_visited : gset Z; ps_prev : gmap Z Z; ps_queue : list Z }.

(** The loop over the neighbours of [v]; [true] when it met [end]. *)
Fixpoint path_visit (v end_ : Z) (ns : list Z) (p : PathSearch) : PathSearch * bool :=
  match ns with
  | [] => (p, false)
  | n :: ns' =>
      if decide (n ∈ ps_visited p) then path_visit v end_ ns' p
      else
        let visited := {[n]} ∪ ps_visited p in
        let prev := <[n := v]> (ps_prev p) in
        if n =? end_ then (mkPathSearch visited prev (ps_queue p), true)
        else path_visit v end_ ns' (mkPathSearch visited prev (ps_queue p ++ [n]))
  end.

(** [while let Some(&p) = prev.get(&cur) { path.push(p); cur = p; }] *)
Fixpoint path_back (fuel : nat) (prev : gmap Z Z) (cur : Z) (path : list Z) : option (list Z) :=
  match fuel with
  | O => None
  | S fuel' =>
      match prev !! cur with
      | Some p => path_back fuel' prev p (path ++ [p])
      | None => Some path
      end
  end.

Fixpoint path_loop (fuel : nat) (end_ : Z) (dir : Direction) (g : AdjacencyGraph) (p : PathSearch)
    : option (option (list Z)) :=
  match fuel with
  | O => None
  | S fuel' =>
      match ps_queue p with
      | [] => Some None
      | v :: queue =>
          match path_visit v end_ (map fst (neighbors v dir g)) (mkPathSearch (ps_visited p) (ps_prev p) queue) with
          | (p, true) => option_map (fun path => Some (rev path)) (path_back (vertex_count g + 2) (ps_prev p) end_ [end_])
          | (p, false) => path_loop fuel' end_ dir g p
          end
      end
  end.

Definition shortest_path (start end_ : Z) (dir : Direction) (g : AdjacencyGraph) : option (option (list Z)) :=
  if start =? end_ then Some (Some [start])
  else path_loop (vertex_count g + 2) end_ dir g (mkPathSearch {[start]} ∅ [start]).

(** ** Connected components *)

Definition NO_COMPONENT : Z := U32_MAX.

Fixpoint flood_visit (next : Z) (ns : list Z) (component queue : list Z) : option (list Z * list Z) :=
  match ns with
  | [] => Some (component, queue)
  | n :: ns' =>
      match component !! Z.to_nat n with
      | None => None
      | Some c =>
          if c =? NO_COMPONENT
          then flood_visit next ns' (<[Z.to_nat n := next]> component) (queue ++ [n])
          else flood_visit next ns' component queue
      end
  end.

Fixpoint flood (fuel : nat) (next : Z) (g : AdjacencyGraph) (component queue : list Z) : option (list Z) :=
  match fuel with
  | O => None
  | S fuel' =>
      match queue with
      | [] => Some component
      | v :: queue =>
          match flood_visit next (map fst (neighbors v Direction_Both g)) component queue with
          | Some (component, queue) => flood fuel' next g component queue
          | None => None
          end
      end
  end.

Fixpoint components_loop (starts : list Z) (g : AdjacencyGraph) (component : list Z) (next : Z) : option (list Z) :=
  match starts with
  | [] => Some component
  | start :: starts' =>
      match component !! Z.to_nat start with
      | None => None
      | Some c =>
          if negb (c =? NO_COMPONENT) then components_loop starts' g component next
          else
            match flood (vertex_count g + 1) next g (<[Z.to_nat start := next]> component) [start] with
            | None => None
            | Some component => components_loop starts' g component ((next + 1) mod 2 ^ 32)
            end
      end
  end.

Definition connected_components (g : AdjacencyGraph) : option (list Z) :=
  components_loop (vertex_ids g) g (replicate (vertex_count g) NO_COMPONENT) 0.

(** ** Triangles *)

Definition neighbor_set (v : Z) (g : AdjacencyGraph) : gset Z :=
  list_to_set (filter (fun id => id <> v) (map fst (neighbors v Direction_Both g))).

(** [counts[v as usize] += 1] *)
Definition bump (v : Z) (counts : list Z) : option (list Z) :=
  match counts !! Z.to_nat v with
  | Some c => Some (<[Z.to_nat v := u64_add c 1]> counts)
  | None => None
  end.

Fixpoint close_triangles (v u : Z) (ws : list Z) (larger : gset Z) (acc : list Z * Z) : option (list Z * Z) :=
  match ws with
  | [] => Some acc
  | w :: ws' =>
      if (u <? w) && bool_decide (w ∈ larger) then
        match bump v (fst acc) with
        | Some c => match bump u c with
                    | Some c => match bump w c with
                                | Some c => close_triangles v u ws' larger (c, u64_add (snd acc) 1)
                                | None => None
                                end
                    | None => None
                    end
        | None => None
        end
      else close_triangles v u ws' larger acc
  end.

Fixpoint triangles_at (v : Z) (us : list Z) (nv : gset Z) (sets : list (gset Z)) (acc : list Z * Z)
    : option (list Z * Z) :=
  match us with
  | [] => Some acc
  | u :: us' =>
      if u <=? v then triangles_at v us' nv sets acc
      else
        match sets !! Z.to_nat u with
        | None => None
        | Some nu =>
            let '(smaller, larger) := if (size nv <? size nu)%nat then (nv, nu) else (nu, nv) in
            match close_triangles v u (elements smaller) larger acc with
            | Some acc => triangles_at v us' nv sets acc
            | None => None
            end
        end
  end.

Fixpoint triangles_loop (vs : list Z) (sets : list (gset Z)) (acc : list Z * Z) : option (list Z * Z) :=
  match vs with
  | [] => Some acc
  | v :: vs' =>
      match sets !! Z.to_nat v with
      | None => None
      | Some nv => match triangles_at v (elements nv) nv sets acc with
                   | Some acc => triangles_loop vs' sets acc
                   | None => None
                   end
      end
  end.

Definition triangle_count (g : AdjacencyGraph) : option (list Z * Z) :=
  triangles_loop (seqZ 0 (zlen (g_keys g) mod 2 ^ 32)) (map (fun v => neighbor_set v g) (vertex_ids g))
    (replicate (vertex_count g) 0, 0).

(** ** Label propagation *)

(** [counts.entry(labels[n]).or_insert(0) += 1] for the neighbours in turn. *)
Fixpoint label_counts (ns labels : list Z) (counts : gmap Z nat) : option (gmap Z nat) :=
  match ns with
  | [] => Some counts
  | n :: ns' =>
      match labels !! Z.to_nat n with
      | Some l => label_counts ns' labels (<[l := S (default 0%nat (counts !! l))]> counts)
      | None => None
      end
  end.

(** [iter.max().unwrap()] and [iter.min().unwrap()] *)
Definition max_of (l : list nat) : option nat :=
  match l with [] => None | x :: l' => Some (fold_left Nat.max l' x) end.
Definition min_of (l : list Z) : option Z :=
  match l with [] => None | x :: l' => Some (fold_left Z.min l' x) end.

Definition best_label (counts : gmap Z nat) : option Z :=
  match max_of (map snd (map_to_list counts)) with
  | None => None
  | Some m => min_of (map fst (filter (fun lc => lc.2 = m) (map_to_list counts)))
  end.

Fixpoint label_sweep (vs : list nat) (lists : list (list Z)) (labels : list Z) (changed : bool)
    : option (list Z * bool) :=
  match vs with
  | [] => Some (labels, changed)
  | v :: vs' =>
      match lists !! v with
      | None => None
      | Some [] => label_sweep vs' lists labels changed
      | Some ns =>
          match label_counts ns labels ∅ with
          | None => None
          | Some counts =>
              match best_label counts, labels !! v with
              | Some best, Some l =>
                  if best =? l then label_sweep vs' lists labels changed
                  else label_sweep vs' lists (<[v := best]> labels) true
              | _, _ => None
              end
          end
      end
  end.

Fixpoint label_rounds (iterations n : nat) (lists : list (list Z)) (labels : list Z) : option (list Z) :=
  match iterations with
  | O => Some labels
  | S iterations' =>
      match label_sweep (seq 0 n) lists labels false with
      | Some (labels, true) => label_rounds iterations' n lists labels
      | Some (labels, false) => Some labels
      | None => None
      end
  end.

Definition label_propagation (iterations : nat) (g : AdjacencyGraph) : option (list Z) :=
  label_rounds iterations (vertex_count g) (map (fun v => map fst (neighbors v Direction_Both g)) (vertex_ids g))
    (seqZ 0 (zlen (g_keys g) mod 2 ^ 32)).

(** ** Distances *)

(** [w] is a neighbour of [v]. *)
Definition adj (g : AdjacencyGraph) (dir : Direction) (v w : Z) : Prop := w ∈ map fst (neighbors v dir g).

(** [v] is [d] steps from [start] and no fewer. *)
Definition shortest {A : Type} (R : A -> A -> Prop) (start v : A) (d : nat) : Prop :=
  nsteps R d start v /\ forall n, nsteps R n start v -> (d <= n)%nat.

Lemma shortest_unique {A : Type} (R : A -> A -> Prop) (start v : A) (d d' : nat) :
  shortest R start v d -> shortest R start v d' -> d = d'.
Proof. intros [H1 H2] [H3 H4]. apply H2 in H3. apply H4 in H1. lia. Qed.

(** The neighbours that were not visited, each once. *)
Fixpoint fresh_of (visited : gset Z) (ns : list Z) : list Z :=
  match ns with
  | [] => []
  | n :: ns' => if decide (n ∈ visited) then fresh_of visited ns' else n :: fresh_of ({[n]} ∪ visited) ns'
  end.

Lemma fresh_of_elem (visited : gset Z) (ns : list Z) (n : Z) : n ∈ fresh_of visited ns <-> n ∈ ns /\ n ∉ visited.
Proof.
  revert visited. induction ns as [|m ns IH]; intros visited; cbn [fresh_of].
  - rewrite !elem_of_nil. tauto.
  - case_decide; rewrite ?elem_of_cons, IH; [set_solver|]. destruct (decide (n = m)) as [->|]; set_solver.
Qed.

Lemma fresh_of_NoDup (visited : gset Z) (ns : list Z) : NoDup (fresh_of visited ns).
Proof.
  revert visited. induction ns as [|m ns IH]; intros visited; cbn [fresh_of]; [constructor|].
  case_decide; [done|]. constructor; [|done]. rewrite fresh_of_elem. set_solver.
Qed.

Lemma bfs_visit_all (depth : nat) (ns : list Z) (visited : gset Z) (queue : list (Z * nat)) :
  fold_left (bfs_visit depth) ns (visited, queue)
  = (list_to_set ns ∪ visited, queue ++ map (fun n => (n, S depth)) (fresh_of visited ns)).
Proof.
  revert visited queue. induction ns as [|n ns IH]; intros visited queue; cbn [fold_left fresh_of list_to_set].
  - simpl. rewrite app_nil_r. f_equal. set_solver.
  - unfold bfs_visit at 2. cbn [fst snd]. case_decide; rewrite IH; f_equal; [set_solver|set_solver|].
    by rewrite <- app_assoc.
Qed.

(** ** The invariant of a breadth-first search

    [done] are the vertices taken off the queue, each with its distance, those
    at a depth in [P] with their neighbours visited. *)
Section Bfs.
  Context (R : Z -> Z -> Prop) (start : Z) (P : nat -> Prop).

Record bfs_inv (visited : gset Z) (done queue : list (Z * nat)) : Prop := {
  bi_start : start ∈ visited;
  bi_dist : forall v d, (v, d) ∈ done ++ queue -> shortest R start v d;
  bi_visited : forall v, v ∈ visited <-> v ∈ map fst (done ++ queue);
  bi_nodup : NoDup (map fst (done ++ queue));
  bi_sorted : StronglySorted le (map snd (done ++ queue));
  bi_near : forall v d rest w e, queue = (v, d) :: rest -> (w, e) ∈ rest -> (e <= S d)%nat;
  bi_closed : forall v d w, (v, d) ∈ done -> P d -> R v w -> w ∈ visited;
  bi_bound : forall v d, (v, d) ∈ done ++ queue -> forall d', (d' < d)%nat -> P d';
}.

Lemma bfs_inv_start : bfs_inv {[start]} [] [(start, 0%nat)].
Proof.
  split; simpl.
  - set_solver.
  - intros v d [= -> ->]%list_elem_of_singleton. split; [constructor | lia].
  - intros v. by rewrite elem_of_singleton, list_elem_of_singleton.
  - apply NoDup_singleton.
  - repeat constructor.
  - intros v d rest w e [= <- <- <-] []%elem_of_nil.
  - by intros v d w []%elem_of_nil.
  - intros v d [= -> ->]%list_elem_of_singleton. lia.
Qed.

(** A vertex that was not visited is farther than some queued vertex. *)
Lemma bfs_frontier (visited : gset Z) (done queue : list (Z * nat)) (n : nat) (w : Z) :
  bfs_inv visited done queue -> nsteps R n start w -> (forall m, (m < n)%nat -> P m) -> w ∉ visited ->
  exists v d, (v, d) ∈ queue /\ (d < n)%nat.
Proof.
  intros Hi. revert w. induction n as [|n IH]; intros w Hn HP Hw.
  - inversion Hn; subst. by destruct Hw, Hi.
  - apply nsteps_inv_r in Hn as (u & Hu & Huw). destruct (decide (u ∈ visited)) as [Hv|Hv].
    + apply (bi_visited _ _ _ Hi), list_elem_of_fmap in Hv as ([u' d] & -> & Hd). simpl in *.
      assert (d <= n)%nat as Hdn by (by apply (bi_dist _ _ _ Hi _ _ Hd)).
      apply elem_of_app in Hd as [Hd|Hd]; [|exists u', d; split; [done|lia]].
      exfalso. apply Hw. apply (bi_closed _ _ _ Hi _ _ _ Hd); [apply HP; lia | done].
    + destruct (IH u Hu) as (v & d & Hin & Hlt); [intros m Hm; apply HP; lia | done|]. exists v, d. split; [done|lia].
Qed.

Lemma snd_elem (w : Z) (e : nat) (l : list (Z * nat)) : (w, e) ∈ l -> e ∈ map snd l.
Proof. intros H. apply list_elem_of_fmap. by exists (w, e). Qed.

Lemma fst_elem (w : Z) (e : nat) (l : list (Z * nat)) : (w, e) ∈ l -> w ∈ map fst l.
Proof. intros H. apply list_elem_of_fmap. by exists (w, e). Qed.

Lemma const_sorted (d : nat) (l : list Z) : StronglySorted le (map (fun n => snd (n, d)) l).
Proof.
  induction l as [|x l IH]; simpl; constructor; [done|]. apply Forall_forall. by intros e (n & -> & _)%list_elem_of_fmap.
Qed.

(** The depths around the head of the queue. *)
Lemma bfs_inv_depths (visited : gset Z) (done queue : list (Z * nat)) (v : Z) (d : nat) :
  bfs_inv visited done ((v, d) :: queue) ->
  (forall e, e ∈ map snd done -> (e <= d)%nat) /\ (forall e, e ∈ map snd queue -> (d <= e <= S d)%nat).
Proof.
  intros Hi. pose proof (bi_sorted _ _ _ Hi) as Hs. rewrite map_app, StronglySorted_app in Hs.
  destruct Hs as (H1 & _ & H2). split.
  - intros e He. apply (H1 e d He). left.
  - intros e He. apply StronglySorted_cons in H2 as [H2 _]. split; [by eapply Forall_forall|].
    apply list_elem_of_fmap in He as ([w e'] & -> & Hw). by eapply (bi_near _ _ _ Hi).
Qed.

(** Taking a vertex off the queue without looking at its neighbours. *)
Lemma bfs_inv_skip (visited : gset Z) (done queue : list (Z * nat)) (v : Z) (d : nat) :
  bfs_inv visited done ((v, d) :: queue) -> ~ P d -> bfs_inv visited (done ++ [(v, d)]) queue.
Proof.
  intros Hi HP. pose proof (bfs_inv_depths _ _ _ _ _ Hi) as [_ Hq]. destruct Hi as [H1 H2 H3 H4 H5 H6 H7 H8].
  assert ((done ++ [(v, d)]) ++ queue = done ++ (v, d) :: queue) as Happ by (by rewrite <- app_assoc).
  split; rewrite ?Happ; try done.
  - intros v' d' rest w e -> Hw. pose proof (Hq d' ltac:(left)).
    pose proof (Hq e ltac:(right; by eapply snd_elem)). lia.
  - intros v' d' w [Hd|[= -> ->]%list_elem_of_singleton]%elem_of_app HPd; [by eapply H7 | done].
Qed.

Context (P_down : forall d d', P d -> (d' <= d)%nat -> P d').

(** Taking a vertex off the queue and queueing its unvisited neighbours. *)
Lemma bfs_inv_step (visited : gset Z) (done queue : list (Z * nat)) (v : Z) (d : nat) (ns : list Z) :
  bfs_inv visited done ((v, d) :: queue) -> P d -> (forall w, R v w <-> w ∈ ns) ->
  bfs_inv (list_to_set ns ∪ visited) (done ++ [(v, d)]) (queue ++ map (fun n => (n, S d)) (fresh_of visited ns)).
Proof.
  intros Hi HP Hns. pose proof (bfs_inv_depths _ _ _ _ _ Hi) as [Hd Hq].
  assert (forall w e, (w, e) ∈ map (fun n => (n, S d)) (fresh_of visited ns) <-> e = S d /\ w ∈ ns /\ w ∉ visited) as Hnew.
  { intros w e. rewrite <- fresh_of_elem, list_elem_of_fmap. split; [by intros (n & [= -> ->] & H) | intros [-> H]; by exists w]. }
  assert (forall w n, w ∉ visited -> nsteps R n start w -> (S d <= n)%nat) as Hfar.
  { intros w n Hw Hn. destruct (le_lt_dec (S d) n) as [|Hlt]; [done|].
    destruct (bfs_frontier _ _ _ n w Hi Hn) as (u & e & Hu & He); [|done|].
    - intros m Hm. apply (P_down d); [done|lia].
    - apply elem_of_cons in Hu as [[= -> ->]|Hu]; [lia|]. apply snd_elem, Hq in Hu. lia. }
  destruct Hi as [H1 H2 H3 H4 H5 H6 H7 H8].
  assert (forall l : list (Z * nat), (done ++ [(v, d)]) ++ queue ++ l = (done ++ (v, d) :: queue) ++ l) as Happ.
  { intros l. by rewrite <- !app_assoc. }
  assert (forall l, map fst (l ++ map (fun n => (n, S d)) (fresh_of visited ns)) = map fst l ++ fresh_of visited ns) as Hfst.
  { intros l. by rewrite map_app, map_map, map_id. }
  split; rewrite ?Happ.
  - set_solver.
  - intros w e [Hw|Hw]%elem_of_app; [by apply H2|]. apply Hnew in Hw as (-> & Hw & Hnv). split; [|eauto].
    eapply nsteps_r; [|by apply Hns]. apply (H2 v d). rewrite elem_of_app. right; left.
  - intros w. rewrite elem_of_union, elem_of_list_to_set, Hfst, elem_of_app, fresh_of_elem, H3.
    destruct (decide (w ∈ map fst (done ++ (v, d) :: queue))); tauto.
  - rewrite Hfst. apply NoDup_app. split_and!; [done| |apply fresh_of_NoDup].
    intros w Hw [_ Hnv]%fresh_of_elem. by apply Hnv, H3.
  - rewrite map_app, map_map. apply StronglySorted_app. split_and!; [|done|].
    + intros e1 e2 He1 (n & -> & _)%list_elem_of_fmap. rewrite map_app in He1. simpl in He1.
      cbn [snd]. apply elem_of_app in He1 as [?%Hd|[->|?%Hq]%elem_of_cons]; lia.
    + apply const_sorted.
  - intros v' d' rest w e E Hw. destruct queue as [|[v0 d0] queue]; simpl in E.
    + destruct (fresh_of visited ns) as [|x l] eqn:Ef; [done|]. simpl in E. injection E as <- <- <-.
      apply list_elem_of_fmap in Hw as (n & [= -> ->] & _). lia.
    + injection E as <- <- <-. pose proof (Hq d0 ltac:(left)).
      apply elem_of_app in Hw as [Hw|[-> _]%Hnew]; [|lia]. pose proof (Hq e ltac:(right; by eapply snd_elem)). lia.
  - intros u e w [Hu|[= -> ->]%list_elem_of_singleton]%elem_of_app HPe Hw.
    + apply elem_of_union_r. by eapply H7.
    + apply elem_of_union_l, elem_of_list_to_set. by apply Hns.
  - intros w e [Hw|[-> _]%Hnew]%elem_of_app; [by eapply H8|]. intros d' Hd'. apply (P_down d); [done|lia].
Qed.

(** When the queue is empty, exactly the vertices in reach are done. *)
Lemma bfs_inv_end (visited : gset Z) (done : list (Z * nat)) (v : Z) (d : nat) :
  bfs_inv visited done [] -> ((v, d) ∈ done <-> shortest R start v d /\ forall d', (d' < d)%nat -> P d').
Proof.
  intros Hi. split.
  - intros Hv. split; [apply (bi_dist _ _ _ Hi) | apply (bi_bound _ _ _ Hi v)]; by rewrite app_nil_r.
  - intros [Hs HP]. destruct (decide (v ∈ visited)) as [Hv|Hv].
    + apply (bi_visited _ _ _ Hi), list_elem_of_fmap in Hv as ([w e] & -> & Hw). simpl in *.
      pose proof (bi_dist _ _ _ Hi _ _ Hw) as Hs'. rewrite app_nil_r in Hw.
      by rewrite <- (shortest_unique _ _ _ _ _ Hs' Hs).
    + destruct (bfs_frontier _ _ _ d v Hi (proj1 Hs) HP Hv) as (w & e & []%elem_of_nil & _).
Qed.

(** Every vertex is done or queued at most once. *)
Lemma bfs_inv_length (visited : gset Z) (done queue : list (Z * nat)) (n : nat) :
  bfs_inv visited done queue -> (forall v w, R v w -> 0 <= w < Z.of_nat n) ->
  (length done + length queue <= S n)%nat.
Proof.
  intros Hi Hr. rewrite <- length_app, <- (length_map fst).
  replace (S n) with (length (start :: seqZ 0 (Z.of_nat n))) by (simpl; rewrite length_seqZ; lia).
  apply submseteq_length, NoDup_submseteq; [apply (bi_nodup _ _ _ Hi)|].
  intros v ([w d] & -> & Hw)%list_elem_of_fmap. apply (bi_dist _ _ _ Hi) in Hw as [Hn _]. simpl.
  destruct d as [|d]; [inversion Hn; subst; by left|]. apply nsteps_inv_r in Hn as (u & _ & Huw%Hr).
  right. apply elem_of_seqZ. lia.
Qed.
End Bfs.

(** ** Traversal *)

Lemma bfs_loop_spec (g : AdjacencyGraph) (dir : Direction) (start : Z) (max_depth fuel : nat) (visited : gset Z)
    (done queue : list (Z * nat)) :
  (forall v w, adj g dir v w -> 0 <= w < Z.of_nat (vertex_count g)) ->
  bfs_inv (adj g dir) start (fun d => (d < max_depth)%nat) visited done queue ->
  (vertex_count g + 2 <= length done + fuel)%nat ->
  exists visited' out, bfs_loop fuel max_depth dir g visited queue done = Some out
    /\ bfs_inv (adj g dir) start (fun d => (d < max_depth)%nat) visited' out [].
Proof.
  intros Hr. revert visited done queue. induction fuel as [|fuel IH]; intros visited done queue Hi Hf.
  - pose proof (bfs_inv_length _ _ _ _ _ _ _ Hi Hr). lia.
  - destruct queue as [|[v d] queue]; cbn [bfs_loop]; [by eauto|]. destruct (Nat.leb_spec max_depth d).
    + apply IH; [apply (bfs_inv_skip _ _ _ _ _ _ _ _ Hi); lia | rewrite length_app; simpl; lia].
    + rewrite bfs_visit_all. apply IH; [|rewrite length_app; simpl; lia].
      apply bfs_inv_step; [lia | done | lia | done].
Qed.

Lemma bfs_traverse_spec (log : list EdgeRecord) (g : AdjacencyGraph) (start : Z) (max_depth : nat) (dir : Direction) :
  graph_rep log g ->
  exists out, bfs_traverse start max_depth dir g = Some out
    /\ (forall v d, (v, d) ∈ out <-> shortest (adj g dir) start v d /\ (d <= max_depth)%nat)
    /\ NoDup (map fst out) /\ StronglySorted le (map snd out).
Proof.
  intros Hrep. destruct (bfs_loop_spec g dir start max_depth (vertex_count g + 2) {[start]} [] [(start, 0%nat)])
    as (vis & out & Hout & Hi).
  - intros v w ([w' rel] & -> & Hw)%list_elem_of_fmap. apply (neighbors_range log g v w' rel dir Hrep Hw).
  - apply bfs_inv_start.
  - simpl. lia.
  - exists out. split; [exact Hout|]. split_and!.
    + intros v d. rewrite (bfs_inv_end _ _ _ _ _ _ _ Hi). split; intros [Hs Hd]; (split; [done|]).
      * destruct d as [|d]; [lia|]. specialize (Hd d). lia.
      * intros d'. lia.
    + pose proof (bi_nodup _ _ _ _ _ _ Hi) as H. by rewrite app_nil_r in H.
    + pose proof (bi_sorted _ _ _ _ _ _ Hi) as H. by rewrite app_nil_r in H.
Qed.

(** ** Shortest path *)

(** [l] is a path from [x] to [y]. *)
Definition walk_of {A : Type} (R : A -> A -> Prop) (l : list A) (x y : A) : Prop :=
  head l = Some x /\ last l = Some y /\ forall i a b, l !! i = Some a -> l !! S i = Some b -> R a b.

Lemma walk_of_one {A : Type} (R : A -> A -> Prop) (x : A) : walk_of R [x] x x.
Proof. split_and!; [done|done|]. by intros [|i] a b Ha Hb. Qed.

Lemma walk_of_snoc {A : Type} (R : A -> A -> Prop) (l : list A) (x y z : A) :
  walk_of R l x y -> R y z -> walk_of R (l ++ [z]) x z.
Proof.
  intros (Hh & Hl & Hs) Hyz. split_and!.
  - by destruct l.
  - by rewrite last_snoc.
  - intros i a b Ha Hb. apply lookup_app_Some in Hb as [Hb|[Hge Hb]].
    + apply (Hs i); [|done]. rewrite lookup_app_l in Ha; [done|]. apply lookup_lt_Some in Hb. lia.
    + apply list_lookup_singleton_Some in Hb as [Hz <-]. assert (length l = S i) as Hlen by lia.
      rewrite lookup_app_l in Ha by lia. rewrite last_lookup, Hlen in Hl. simpl in Hl. congruence.
Qed.

Lemma walk_of_nsteps {A : Type} (R : A -> A -> Prop) (l : list A) (x y : A) :
  walk_of R l x y -> exists n, length l = S n /\ nsteps R n x y.
Proof.
  intros (Hh & Hl & Hs). destruct l as [|z l]; [done|]. exists (length l). split; [done|]. apply nsteps_list.
  by exists (z :: l).
Qed.

(** The neighbours without meeting the end, and when the end is met. *)
Lemma path_visit_miss (v end_ : Z) (ns : list Z) (p : PathSearch) :
  end_ ∉ fresh_of (ps_visited p) ns ->
  path_visit v end_ ns p
  = (mkPathSearch (list_to_set ns ∪ ps_visited p) (fold_left (fun m n => <[n := v]> m) (fresh_of (ps_visited p) ns) (ps_prev p))
       (ps_queue p ++ fresh_of (ps_visited p) ns), false).
Proof.
  revert p. induction ns as [|n ns IH]; intros [vis prev q] Hend; cbn [path_visit fresh_of ps_visited ps_prev ps_queue] in *.
  - simpl. rewrite app_nil_r. do 2 f_equal. set_solver.
  - case_decide.
    + rewrite IH by done. cbn [ps_visited ps_prev ps_queue]. do 2 f_equal. set_solver.
    + rewrite elem_of_cons in Hend. rewrite (proj2 (Z.eqb_neq n end_)) by (intros ->; tauto).
      rewrite IH by (cbn; tauto). cbn [ps_visited ps_prev ps_queue fold_left]. rewrite <- app_assoc. do 2 f_equal. set_solver.
Qed.

Lemma path_visit_hit (v end_ : Z) (ns : list Z) (p : PathSearch) :
  end_ ∈ fresh_of (ps_visited p) ns ->
  exists p', path_visit v end_ ns p = (p', true) /\ ps_prev p' !! end_ = Some v
    /\ forall x, x ∈ ps_visited p -> ps_prev p' !! x = ps_prev p !! x.
Proof.
  revert p. induction ns as [|n ns IH]; intros [vis prev q] Hend; cbn [path_visit fresh_of ps_visited ps_prev ps_queue] in *.
  - by apply elem_of_nil in Hend.
  - case_decide as Hn; [by apply (IH (mkPathSearch vis prev q))|]. destruct (Z.eqb_spec n end_) as [->|Hne].
    + eexists. split_and!; [done | apply lookup_insert_eq|]. intros x Hx. cbn. apply lookup_insert_ne. by intros ->.
    + apply elem_of_cons in Hend as [->|Hend]; [done|].
      destruct (IH (mkPathSearch ({[n]} ∪ vis) (<[n:=v]> prev) (q ++ [n])) Hend) as (p' & -> & He & Hsame).
      exists p'. split_and!; [done|done|]. intros x Hx. rewrite Hsame by (cbn; set_solver). cbn.
      apply lookup_insert_ne. by intros ->.
Qed.

Lemma insert_all_lookup (v : Z) (l : list Z) (m : gmap Z Z) (x : Z) :
  fold_left (fun m n => <[n := v]> m) l m !! x = if decide (x ∈ l) then Some v else m !! x.
Proof.
  revert m. induction l as [|n l IH]; intros m; cbn [fold_left]; [done|]. rewrite IH.
  destruct (decide (x ∈ l)); [rewrite decide_True by (by right); done|].
  destruct (decide (x = n)) as [->|Hne]; [rewrite decide_True by left; apply lookup_insert_eq|].
  rewrite decide_False by (rewrite elem_of_cons; tauto). by apply lookup_insert_ne.
Qed.

Section Path.
  Context (R : Z -> Z -> Prop) (start : Z).

(** The search tree: every vertex but [start] was reached from a done one. *)
Record path_inv (visited : gset Z) (prev : gmap Z Z) (done queue : list (Z * nat)) : Prop := {
  pi_bfs : bfs_inv R start (fun _ => True) visited done queue;
  pi_start : prev !! start = None;
  pi_prev : forall v d, (v, d) ∈ done ++ queue -> v = start \/
    exists u e, prev !! v = Some u /\ d = S e /\ (u, e) ∈ done /\ R u v;
  pi_short : forall v d, (v, d) ∈ done ++ queue -> (d <= length done)%nat;
}.

Lemma path_inv_start : path_inv {[start]} ∅ [] [(start, 0%nat)].
Proof.
  split; [apply bfs_inv_start | apply lookup_empty | |].
  - intros v d [= -> ->]%list_elem_of_singleton. by left.
  - intros v d [= -> ->]%list_elem_of_singleton. done.
Qed.

(** Following the tree back gives a path. *)
Lemma path_back_spec (visited : gset Z) (prev prev' : gmap Z Z) (done queue : list (Z * nat)) (d fuel : nat) (v : Z) (path : list Z) :
  path_inv visited prev done queue -> (forall x, x ∈ visited -> prev' !! x = prev !! x) ->
  (v, d) ∈ done ++ queue -> (d < fuel)%nat ->
  exists l, path_back fuel prev' v path = Some (path ++ l) /\ length l = d /\ walk_of R (rev (v :: l)) start v.
Proof.
  intros Hi Hsame. revert fuel v path. induction d as [|d IH]; intros [|fuel] v path Hv Hlt; try lia; cbn [path_back].
  all: rewrite Hsame by (apply (bi_visited _ _ _ _ _ _ (pi_bfs _ _ _ _ Hi)); by eapply fst_elem).
  - assert (v = start) as -> by (destruct (pi_prev _ _ _ _ Hi _ _ Hv) as [?|(u & e & _ & ? & _)]; [done | lia]).
    rewrite (pi_start _ _ _ _ Hi). exists []. rewrite app_nil_r. split_and!; [done|done | apply walk_of_one].
  - destruct (pi_prev _ _ _ _ Hi _ _ Hv) as [->|(u & e & -> & [= <-] & Hu & HR)].
    + exfalso. apply (bi_dist _ _ _ _ _ _ (pi_bfs _ _ _ _ Hi)) in Hv as [_ Hmin]. specialize (Hmin 0%nat (nsteps_O _ _)). lia.
    + destruct (IH fuel u (path ++ [u])) as (l & -> & Hl & Hw); [by apply elem_of_app; left | lia|].
      exists (u :: l). rewrite <- app_assoc. split_and!; [done | simpl; lia|]. by apply walk_of_snoc with (y := u).
Qed.

Lemma path_inv_step (visited : gset Z) (prev : gmap Z Z) (done queue : list (Z * nat)) (v : Z) (d : nat) (ns : list Z) :
  path_inv visited prev done ((v, d) :: queue) -> (forall w, R v w <-> w ∈ ns) ->
  path_inv (list_to_set ns ∪ visited) (fold_left (fun m n => <[n := v]> m) (fresh_of visited ns) prev)
    (done ++ [(v, d)]) (queue ++ map (fun n => (n, S d)) (fresh_of visited ns)).
Proof.
  intros [Hb Hs Hp Hl] Hns.
  assert (forall w e, (w, e) ∈ (done ++ [(v, d)]) ++ queue ++ map (fun n => (n, S d)) (fresh_of visited ns) ->
    (w, e) ∈ done ++ (v, d) :: queue \/ e = S d /\ w ∈ fresh_of visited ns) as Hsplit.
  { intros w e. rewrite !elem_of_app, !elem_of_cons, elem_of_nil.
    intros [[?|?]|[?|(n & [= -> ->] & H)%list_elem_of_fmap]]; tauto. }
  split.
  - by apply bfs_inv_step.
  - rewrite insert_all_lookup, decide_False; [done|]. intros [_ H]%fresh_of_elem. apply H, (bi_start _ _ _ _ _ _ Hb).
  - intros w e [Hw|[-> Hw]]%Hsplit.
    + destruct (Hp _ _ Hw) as [->|(u & e' & Hu & -> & Hud & HR)]; [by left|]. right. exists u, e'. split_and!; [|done| |done].
      * rewrite insert_all_lookup, decide_False; [done|]. intros [_ H]%fresh_of_elem.
        apply H, (bi_visited _ _ _ _ _ _ Hb). by eapply fst_elem.
      * apply elem_of_app. by left.
    + right. exists v, d. split_and!; [|done| |apply Hns; by apply fresh_of_elem in Hw as [? _]].
      * by rewrite insert_all_lookup, decide_True.
      * apply elem_of_app. right. left.
  - intros w e [Hw|[-> Hw]]%Hsplit; rewrite length_app; simpl.
    + apply Hl in Hw. lia.
    + assert (d <= length done)%nat; [|lia]. apply (Hl v). apply elem_of_app. right; left.
Qed.
End Path.

Lemma path_loop_spec (g : AdjacencyGraph) (dir : Direction) (start end_ : Z) (fuel : nat) (visited : gset Z) (prev : gmap Z Z)
    (done queue : list (Z * nat)) :
  (forall v w, adj g dir v w -> 0 <= w < Z.of_nat (vertex_count g)) ->
  path_inv (adj g dir) start visited prev done queue -> end_ ∉ visited -> (vertex_count g + 2 <= length done + fuel)%nat ->
  exists r, path_loop fuel end_ dir g (mkPathSearch visited prev (map fst queue)) = Some r
    /\ match r with
       | Some path => walk_of (adj g dir) path start end_ /\ shortest (adj g dir) start end_ (length path - 1)
       | None => forall n, ~ nsteps (adj g dir) n start end_
       end.
Proof.
  intros Hr. revert visited prev done queue. induction fuel as [|fuel IH]; intros visited prev done queue Hi Hend Hf.
  { pose proof (bfs_inv_length _ _ _ _ _ _ _ (pi_bfs _ _ _ _ _ _ Hi) Hr). lia. }
  destruct queue as [|[v d] queue]; cbn [path_loop map fst ps_queue ps_visited ps_prev].
  - exists None. split; [done|]. intros n Hn.
    destruct (bfs_frontier _ _ _ _ _ _ n end_ (pi_bfs _ _ _ _ _ _ Hi) Hn) as (w & e & []%elem_of_nil & _); done.
  - pose proof (path_inv_step _ _ _ _ _ _ _ _ (map fst (neighbors v dir g)) Hi ltac:(done)) as Hi'.
    destruct (decide (end_ ∈ fresh_of visited (map fst (neighbors v dir g)))) as [Hin|Hout].
    + destruct (path_visit_hit v end_ _ (mkPathSearch visited prev (map fst queue)) Hin) as (p' & -> & He & Hsame).
      assert ((v, d) ∈ done ++ (v, d) :: queue) as Hv by (apply elem_of_app; right; left).
      assert (length done <= vertex_count g)%nat as Hlen.
      { pose proof (bfs_inv_length _ _ _ _ _ _ _ (pi_bfs _ _ _ _ _ _ Hi) Hr) as H. simpl in H. lia. }
      pose proof (pi_short _ _ _ _ _ _ Hi v d Hv) as Hd.
      destruct (path_back_spec _ _ _ _ _ _ _ d (vertex_count g + 1) v [end_; v] Hi Hsame Hv ltac:(lia)) as (l & Hl & Hlen' & Hw).
      replace (vertex_count g + 2)%nat with (S (vertex_count g + 1)) by lia. cbn [path_back].
      rewrite He. cbn [app]. rewrite Hl. cbn [option_map]. eexists. split; [done|].
      assert (walk_of (adj g dir) (rev ([end_; v] ++ l)) start end_) as Hwalk.
      { change (rev ([end_; v] ++ l)) with (rev (v :: l) ++ [end_]). apply walk_of_snoc with (y := v); [done|].
        by apply fresh_of_elem in Hin as [Hin _]. }
      split; [done|]. rewrite length_rev. simpl. rewrite Hlen'.
      apply (bi_dist _ _ _ _ _ _ (pi_bfs _ _ _ _ _ _ Hi')). rewrite !elem_of_app. right; right.
      apply list_elem_of_fmap. by exists end_.
    + rewrite path_visit_miss by done. cbn [ps_visited ps_prev ps_queue].
      replace (map fst queue ++ _) with (map fst (queue ++ map (fun n => (n, S d)) (fresh_of visited (map fst (neighbors v dir g))))).
      2: { by rewrite map_app, map_map, map_id. }
      apply IH with (done := done ++ [(v, d)]); [done| |rewrite length_app; simpl; lia].
      rewrite elem_of_union, elem_of_list_to_set. intros [H|H]; [|done]. apply Hout, fresh_of_elem. done.
Qed.

Lemma rep_adj_range (log : list EdgeRecord) (g : AdjacencyGraph) (dir : Direction) (v w : Z) :
  graph_rep log g -> adj g dir v w -> 0 <= w < Z.of_nat (vertex_count g).
Proof. intros Hrep ([w' rel] & -> & Hw)%list_elem_of_fmap. apply (neighbors_range log g v w' rel dir Hrep Hw). Qed.

Lemma shortest_path_spec (log : list EdgeRecord) (g : AdjacencyGraph) (start end_ : Z) (dir : Direction) :
  graph_rep log g ->
  exists r, shortest_path start end_ dir g = Some r
    /\ match r with
       | Some path => walk_of (adj g dir) path start end_ /\ shortest (adj g dir) start end_ (length path - 1)
       | None => forall n, ~ nsteps (adj g dir) n start end_
       end.
Proof.
  intros Hrep. unfold shortest_path. destruct (Z.eqb_spec start end_) as [->|Hne].
  - eexists. split; [done|]. split; [apply walk_of_one|]. split; [constructor | simpl; lia].
  - apply (path_loop_spec g dir start end_ _ {[start]} ∅ [] [(start, 0%nat)]).
    + intros v w. by apply rep_adj_range with (log := log).
    + apply path_inv_start.
    + set_solver.
    + simpl. lia.
Qed.

(** ** Connected components *)

Definition unassigned (component : list Z) : nat := length (filter (fun c => c = NO_COMPONENT) component).

Lemma unassigned_insert (component : list Z) (i : nat) (c : Z) :
  component !! i = Some NO_COMPONENT -> c <> NO_COMPONENT -> S (unassigned (<[i := c]> component)) = unassigned component.
Proof.
  unfold unassigned. revert i. induction component as [|x component IH]; intros [|i] Hi Hc; try done; simpl in *.
  - injection Hi as ->. by rewrite filter_cons_False, filter_cons_True.
  - specialize (IH i Hi Hc). destruct (decide (x = NO_COMPONENT)).
    + rewrite !filter_cons_True by done. simpl. lia.
    + by rewrite !filter_cons_False.
Qed.

(** What a scan of the neighbours [ns] adds: [more], now in [next]. *)
Lemma flood_visit_spec (next : Z) (ns component queue : list Z) :
  next <> NO_COMPONENT -> (forall n, n ∈ ns -> is_Some (component !! Z.to_nat n)) ->
  exists component' more, flood_visit next ns component queue = Some (component', queue ++ more)
    /\ length component' = length component
    /\ (unassigned component' + length more = unassigned component)%nat
    /\ (forall n, n ∈ more -> n ∈ ns /\ component !! Z.to_nat n = Some NO_COMPONENT /\ component' !! Z.to_nat n = Some next)
    /\ (forall i, component' !! i = component !! i \/ exists n, n ∈ more /\ i = Z.to_nat n)
    /\ (forall n, n ∈ ns -> component' !! Z.to_nat n <> Some NO_COMPONENT).
Proof.
  intros Hnext. revert component queue. induction ns as [|n ns IH]; intros component queue Hns; cbn [flood_visit].
  - exists component, []. rewrite app_nil_r. split_and!; [done | done | apply Nat.add_0_r | | by left |]; by intros n []%elem_of_nil.
  - destruct (Hns n ltac:(left)) as [c Hc]. rewrite Hc. destruct (Z.eqb_spec c NO_COMPONENT) as [->|Hne].
    + destruct (IH (<[Z.to_nat n := next]> component) (queue ++ [n])) as (comp' & more & -> & Hl & Hu & Hm & Hs & Hall).
      { intros m Hm. rewrite list_lookup_insert_is_Some. apply Hns. by right. }
      assert (<[Z.to_nat n := next]> component !! Z.to_nat n = Some next) as Hn.
      { apply list_lookup_insert_eq. by eapply lookup_lt_Some. }
      assert (comp' !! Z.to_nat n = Some next) as Hn'.
      { destruct (Hs (Z.to_nat n)) as [->|(m & Hmin & Heq)]; [done|]. rewrite Heq. by apply Hm. }
      exists comp', (n :: more). rewrite <- app_assoc. split_and!; [done | by rewrite Hl, length_insert | | | |].
      * rewrite <- (unassigned_insert component (Z.to_nat n) next) by done. simpl. lia.
      * intros m [->|Hmin]%elem_of_cons; [split_and!; [left | done..]|].
        destruct (Hm m Hmin) as (H1 & H2 & H3). split_and!; [by right | | done].
        apply list_lookup_insert_Some in H2 as [(_ & H2 & _)|[_ H2]]; [congruence | done].
      * intros i. destruct (Hs i) as [->|(m & Hmin & ->)]; [|right; exists m; split; [by right | done]].
        destruct (decide (i = Z.to_nat n)) as [->|Hi]; [right; exists n; split; [left | done]|]. left. by rewrite list_lookup_insert_ne.
      * intros m [->|Hmin]%elem_of_cons; [rewrite Hn'; congruence | by apply Hall].
    + destruct (IH component queue) as (comp' & more & -> & Hl & Hu & Hm & Hs & Hall); [intros m Hm; apply Hns; by right|].
      exists comp', more. split_and!; try done.
      * intros m Hmin. destruct (Hm m Hmin) as (H1 & H2 & H3). split_and!; [by right | done..].
      * intros m [->|Hmin]%elem_of_cons; [|by apply Hall]. destruct (Hs (Z.to_nat n)) as [->|(m & Hmin & Heq)]; [congruence|].
        destruct (Hm m Hmin) as (_ & H2 & _). congruence.
Qed.

(** ** By key *)

(** [b] is at the other end of an edge of [a]. *)
Definition linked (log : list EdgeRecord) (dir : Direction) (a b : bytes) : Prop := b ∈ map fst (ends a dir log).

Lemma linked_sym (log : list EdgeRecord) (a b : bytes) : linked log Direction_Both a b -> linked log Direction_Both b a.
Proof.
  unfold linked, ends, ends_from, ends_to. rewrite !map_app, !map_map, !elem_of_app.
  intros [(r & -> & Hr)%list_elem_of_fmap|(r & -> & Hr)%list_elem_of_fmap]; apply list_elem_of_filter in Hr as [<- Hr]; [right|left];
    apply list_elem_of_fmap; exists r; (split; [done|]); by apply list_elem_of_filter.
Qed.

Lemma linked_vertex (log : list EdgeRecord) (dir : Direction) (a b : bytes) :
  linked log dir a b -> exists r, r ∈ log /\ (er_from r = b \/ er_to r = b).
Proof.
  assert (b ∈ map fst (ends_from a log) \/ b ∈ map fst (ends_to a log) -> exists r, r ∈ log /\ (er_from r = b \/ er_to r = b)) as H.
  { unfold ends_from, ends_to. rewrite !map_map.
    intros [(r & -> & [_ Hr]%list_elem_of_filter)%list_elem_of_fmap|(r & -> & [_ Hr]%list_elem_of_filter)%list_elem_of_fmap]; eauto. }
  destruct dir; unfold linked, ends; rewrite ?map_app, ?elem_of_app; auto.
Qed.

Section Keys.
  Context {log : list EdgeRecord} {g : AdjacencyGraph} (Hrep : graph_rep log g).

Lemma adj_linked (dir : Direction) (v w : Z) (a : bytes) :
  key_of v g = Some a -> adj g dir v w <-> 0 <= w /\ exists b, key_of w g = Some b /\ linked log dir a b.
Proof.
  intros Hv. pose proof (rep_neighbors log g v a dir Hrep Hv) as Hn.
  assert (forall o, o ∈ map (fun x => key_of x g) (map fst (neighbors v dir g)) <-> o ∈ map Some (map fst (ends a dir log))) as Hm.
  { intros o. apply (f_equal (map fst)) in Hn. unfold neighbor_keys, known in Hn. rewrite !map_map in *. cbn [fst] in Hn. by rewrite Hn. }
  split.
  - intros Hw. split; [by apply (rep_adj_range _ _ _ _ _ Hrep Hw)|].
    assert (key_of w g ∈ map Some (map fst (ends a dir log))) as (b & Hb & Hin)%list_elem_of_fmap; [|by exists b].
    apply Hm, list_elem_of_fmap. by exists w.
  - intros (H0 & b & Hb & Hl). assert (Some b ∈ map (fun x => key_of x g) (map fst (neighbors v dir g))) as (w' & Hw' & Hin)%list_elem_of_fmap.
    + apply Hm, list_elem_of_fmap. by exists b.
    + assert (w = w') as ->; [|done]. apply (rep_key_inj Hrep w w' b); [done| |done|done].
      by apply (rep_adj_range _ _ _ _ _ Hrep Hin).
Qed.

Lemma nsteps_linked (dir : Direction) (n : nat) (v w : Z) (a : bytes) :
  0 <= v -> key_of v g = Some a ->
  nsteps (adj g dir) n v w <-> 0 <= w /\ exists b, key_of w g = Some b /\ nsteps (linked log dir) n a b.
Proof.
  revert v a. induction n as [|n IH]; intros v a H0 Hv.
  - split; [intros H; inversion H; subst; eauto using nsteps_O|].
    intros (H1 & b & Hb & Hn). inversion Hn; subst. rewrite (rep_key_inj Hrep v w b) by done. constructor.
  - split.
    + intros H; inversion H as [|? ? u ? Hu Hn]; subst. apply (adj_linked dir v u a Hv) in Hu as (Hu0 & c & Hc & Hl).
      apply (IH u c Hu0 Hc) in Hn as (H1 & b & Hb & Hn). split; [done|]. exists b. split; [done|]. by econstructor.
    + intros (H1 & b & Hb & Hn); inversion Hn as [|? ? c ? Hl Hn']; subst.
      assert (exists u, 0 <= u /\ key_of u g = Some c) as (u & Hu0 & Hu).
      { assert (c ∈ g_keys g) as [i Hi]%list_elem_of_lookup_1.
        { apply (gr_keys _ _ _ Hrep). right. by eapply linked_vertex. }
        exists (Z.of_nat i). unfold key_of. rewrite Nat2Z.id. split; [lia | done]. }
      apply (nsteps_l _ _ _ u); [apply (adj_linked dir v u a Hv); eauto|]. apply (IH u c Hu0 Hu). eauto.
Qed.

Lemma shortest_linked (dir : Direction) (v w : Z) (a b : bytes) (d : nat) :
  0 <= v -> 0 <= w -> key_of v g = Some a -> key_of w g = Some b ->
  shortest (adj g dir) v w d <-> shortest (linked log dir) a b d.
Proof.
  intros Hv0 Hw0 Hv Hw.
  assert (forall n, nsteps (adj g dir) n v w <-> nsteps (linked log dir) n a b) as H.
  { intros n. rewrite (nsteps_linked dir n v w a Hv0 Hv). split; [intros (_ & b' & Hb' & Hn); congruence | eauto]. }
  unfold shortest. rewrite H. by setoid_rewrite H.
Qed.

Lemma adj_sym (v w : Z) : 0 <= v < zlen (g_keys g) -> adj g Direction_Both v w -> adj g Direction_Both w v.
Proof.
  intros Hv Hadj. destruct (rep_key_of v Hv) as [a Ha].
  destruct (proj1 (adj_linked Direction_Both v w a Ha) Hadj) as (Hw & b & Hb & Hl).
  apply (adj_linked _ w v b Hb). split; [lia|].
  exists a. split; [done|]. by apply linked_sym.
Qed.
End Keys.

(** ** Flooding a component *)
Section Components.
  Context {log : list EdgeRecord} {g : AdjacencyGraph} (Hrep : graph_rep log g).

Definition touching : Z -> Z -> Prop := adj g Direction_Both.
Definition vertex (v : Z) : Prop := 0 <= v < zlen (g_keys g).
Definition in_component (component : list Z) (v c : Z) : Prop := component !! Z.to_nat v = Some c.

Lemma touching_vertex (v w : Z) : touching v w -> vertex w.
Proof. apply (rep_adj_range _ _ _ _ _ Hrep). Qed.

Lemma rtc_touching (v w : Z) : vertex v -> rtc touching v w -> vertex w /\ rtc touching w v.
Proof.
  intros Hv. induction 1 as [|v u w Hvu _ IH]; [done|]. pose proof (touching_vertex _ _ Hvu) as Hu.
  destruct (IH Hu) as [Hw Hwu]. split; [done|]. apply rtc_r with u; [done|]. by apply (adj_sym Hrep).
Qed.

(** Components assigned so far are below [next], closed and connected. *)
Record comp_inv (component : list Z) (next : Z) : Prop := {
  ci_length : length component = vertex_count g;
  ci_range : forall v c, in_component component v c -> c = NO_COMPONENT \/ 0 <= c < next;
  ci_closed : forall v w c, vertex v -> in_component component v c -> c <> NO_COMPONENT -> touching v w -> in_component component w c;
  ci_same : forall v w c, vertex v -> vertex w -> in_component component v c -> in_component component w c ->
    c <> NO_COMPONENT -> rtc touching v w;
}.

(** The component [next] being flooded from [s]: it is connected, and closed
    but for the vertices on the queue. *)
Record flood_inv (before : list Z) (next s : Z) (component queue : list Z) : Prop := {
  fi_length : length component = vertex_count g;
  fi_new : forall v, component !! Z.to_nat v = before !! Z.to_nat v
    \/ in_component component v next /\ in_component before v NO_COMPONENT;
  fi_start : in_component component s next;
  fi_reach : forall v, vertex v -> in_component component v next -> rtc touching s v;
  fi_queue : forall v, v ∈ queue -> vertex v /\ in_component component v next;
  fi_closed : forall v w, vertex v -> in_component component v next -> v ∉ queue -> touching v w -> in_component component w next;
}.

Lemma vertex_lookup (component : list Z) (v : Z) :
  length component = vertex_count g -> vertex v -> exists c, in_component component v c.
Proof. intros Hl Hv. apply lookup_lt_is_Some. unfold vertex, zlen, vertex_count in *. lia. Qed.

(** A neighbour of the new component is in it or in none. *)
Lemma flood_neighbor (before component queue : list Z) (next s v w c : Z) :
  comp_inv before next -> next <> NO_COMPONENT -> flood_inv before next s component queue ->
  vertex v -> in_component component v next -> touching v w -> in_component component w c -> c = next \/ c = NO_COMPONENT.
Proof.
  intros Hc Hne Hf Hv Hin Ht Hw. destruct (fi_new _ _ _ _ _ Hf w) as [Hold|[Hnew _]]; [|left; unfold in_component in *; congruence].
  destruct (decide (c = NO_COMPONENT)) as [|Hn]; [by right|]. exfalso. unfold in_component in *. rewrite Hold in Hw.
  assert (in_component before v c) as Hv'.
  { apply (ci_closed _ _ Hc w v c); [by eapply touching_vertex | done | done | by apply (adj_sym Hrep)]. }
  unfold in_component in *. destruct (fi_new _ _ _ _ _ Hf v) as [Hov|[_ Hov]]; unfold in_component in *; [|congruence].
  assert (c = next) as -> by congruence. destruct (ci_range _ _ Hc v next Hv') as [?|?]; [done | lia].
Qed.

Lemma flood_step (before component queue : list Z) (next s v : Z) :
  comp_inv before next -> next <> NO_COMPONENT -> flood_inv before next s component (v :: queue) ->
  exists component' more, flood_visit next (map fst (neighbors v Direction_Both g)) component queue = Some (component', queue ++ more)
    /\ (unassigned component' + length more = unassigned component)%nat /\ flood_inv before next s component' (queue ++ more).
Proof.
  intros Hc Hne Hf. destruct (fi_queue _ _ _ _ _ Hf v ltac:(left)) as [Hv Hin].
  destruct (flood_visit_spec next (map fst (neighbors v Direction_Both g)) component queue Hne)
    as (component' & more & Heq & Hl & Hcount & Hm & Hs & Hall).
  { intros n Hn. apply (vertex_lookup component); [apply (fi_length _ _ _ _ _ Hf)|]. by apply (touching_vertex v). }
  exists component', more. split; [done|]. split; [done|].
  assert (forall w, component' !! Z.to_nat w = component !! Z.to_nat w \/ in_component component' w next /\ in_component component w NO_COMPONENT) as Hch.
  { intros w. destruct (Hs (Z.to_nat w)) as [|(n & Hn & He)]; [by left|]. right. unfold in_component. rewrite He. by destruct (Hm n Hn) as (_ & ? & ?). }
  assert (forall w, in_component component w next -> in_component component' w next) as Hkeep.
  { intros w Hw. destruct (Hch w) as [He|[H _]]; unfold in_component in *; congruence. }
  assert (forall w, vertex w -> in_component component' w next -> in_component component w next \/ w ∈ more /\ touching v w) as Hwhere.
  { intros w Hw Hwn. destruct (Hs (Z.to_nat w)) as [He|(n & Hn & He)]; [left; unfold in_component in *; congruence|].
    right. destruct (Hm n Hn) as (Hns & _). assert (w = n) as ->; [|done].
    apply touching_vertex in Hns as Hn0. unfold vertex in *. lia. }
  split.
  - by rewrite Hl, (fi_length _ _ _ _ _ Hf).
  - intros w. destruct (Hch w) as [He|[Hw Hno]].
    + destruct (fi_new _ _ _ _ _ Hf w) as [H|[H1 H2]]; [left; congruence | right; auto].
    + destruct (fi_new _ _ _ _ _ Hf w) as [H|[H1 H2]]; right; split; try done. unfold in_component in *. congruence.
  - apply Hkeep, (fi_start _ _ _ _ _ Hf).
  - intros w Hw [H|[_ Ht]]%Hwhere; [by apply (fi_reach _ _ _ _ _ Hf) | | done].
    apply rtc_r with v; [by apply (fi_reach _ _ _ _ _ Hf) | done].
  - intros w [Hw|Hw]%elem_of_app; [destruct (fi_queue _ _ _ _ _ Hf w ltac:(by right)); auto|].
    destruct (Hm w Hw) as (Hns & _ & Hn). split; [by eapply touching_vertex | done].
  - intros u w Hu [Hun|[Hum _]]%Hwhere Hnq Ht; [| |done]; [|destruct Hnq; apply elem_of_app; by right].
    destruct (decide (u = v)) as [->|Huv].
    + destruct (vertex_lookup component' w) as [c Hcw]; [by rewrite Hl, (fi_length _ _ _ _ _ Hf) | by eapply touching_vertex|].
      pose proof (Hall w Ht) as Hnot. destruct (Hch w) as [He|[H _]]; [|done]. unfold in_component in *.
      rewrite He in Hcw. destruct (flood_neighbor _ _ _ _ _ _ _ _ Hc Hne Hf Hv Hin Ht Hcw) as [->| ->]; congruence.
    + apply Hkeep, (fi_closed _ _ _ _ _ Hf u w); try done. intros [->|H]%elem_of_cons; [done|].
      apply Hnq, elem_of_app. by left.
Qed.

Lemma flood_spec (before component queue : list Z) (next s : Z) (fuel : nat) :
  comp_inv before next -> next <> NO_COMPONENT -> flood_inv before next s component queue ->
  (length queue + unassigned component < fuel)%nat ->
  exists component', flood fuel next g component queue = Some component' /\ flood_inv before next s component' [].
Proof.
  intros Hc Hne. revert component queue. induction fuel as [|fuel IH]; intros component queue Hf Hlt; [lia|].
  destruct queue as [|v queue]; cbn [flood]; [by eauto|].
  destruct (flood_step _ _ _ _ _ _ Hc Hne Hf) as (component' & more & -> & Hu & Hf').
  apply IH; [done|]. rewrite length_app. simpl in Hlt. lia.
Qed.

Lemma unassigned_le (component : list Z) : (unassigned component <= length component)%nat.
Proof. apply length_filter. Qed.

(** Flooding from a vertex without a component adds its component. *)
Lemma flood_component (component : list Z) (next s : Z) :
  comp_inv component next -> 0 <= next -> next <> NO_COMPONENT -> vertex s -> in_component component s NO_COMPONENT ->
  exists component', flood (vertex_count g + 1) next g (<[Z.to_nat s := next]> component) [s] = Some component'
    /\ comp_inv component' (next + 1) /\ in_component component' s next
    /\ (forall v c, in_component component v c -> c <> NO_COMPONENT -> in_component component' v c).
Proof.
  intros Hc H0 Hne Hs Hno. pose proof (ci_length _ _ Hc) as Hl.
  assert (Z.to_nat s < length component)%nat as Hlt by (by eapply lookup_lt_Some).
  destruct (flood_spec component (<[Z.to_nat s := next]> component) [s] next s (vertex_count g + 1) Hc Hne) as (component' & Heq & Hf).
  - assert (forall v, vertex v -> in_component (<[Z.to_nat s := next]> component) v next -> v = s) as Honly.
    { intros v Hv Hin. unfold in_component in Hin. apply list_lookup_insert_Some in Hin as [(He & _ & _)|[_ Hin]].
      - unfold vertex in *. lia.
      - destruct (ci_range _ _ Hc v next Hin); [done|lia]. }
    split.
    + by rewrite length_insert.
    + intros v. unfold in_component. destruct (decide (Z.to_nat s = Z.to_nat v)) as [<-|Hv].
      * right. split; [by apply list_lookup_insert_eq | done].
      * left. by apply list_lookup_insert_ne.
    + by apply list_lookup_insert_eq.
    + intros v Hv ->%Honly; done.
    + intros v ->%list_elem_of_singleton. split; [done|]. by apply list_lookup_insert_eq.
    + intros v w Hv ->%Honly Hnq; [|done]. destruct Hnq. left.
  - pose proof (unassigned_insert component (Z.to_nat s) next Hno Hne). pose proof (unassigned_le component). simpl. lia.
  - exists component'. split; [done|].
    assert (forall v c, in_component component v c -> c <> NO_COMPONENT -> in_component component' v c) as Hkeep.
    { intros v c Hv Hcn. destruct (fi_new _ _ _ _ _ Hf v) as [He|[_ He]]; unfold in_component in *; congruence. }
    assert (forall v c, in_component component' v c -> c <> next -> in_component component v c) as Hold.
    { intros v c Hv Hcn. destruct (fi_new _ _ _ _ _ Hf v) as [He|[He _]]; unfold in_component in *; congruence. }
    assert (forall v c, vertex v -> in_component component' v c -> c <> next -> c <> NO_COMPONENT -> c < next) as Hlow.
    { intros v c Hv Hin Hn Hn'. destruct (ci_range _ _ Hc v c (Hold v c Hin Hn)); [done|lia]. }
    split_and!; [|by apply (fi_start _ _ _ _ _ Hf)|done]. split.
    + by apply (fi_length _ _ _ _ _ Hf).
    + intros v c Hin. destruct (decide (c = next)) as [->|Hn]; [right; lia|].
      destruct (ci_range _ _ Hc v c (Hold v c Hin Hn)); [by left | right; lia].
    + intros v w c Hv Hin Hcn Ht. destruct (decide (c = next)) as [->|Hn].
      * by apply (fi_closed _ _ _ _ _ Hf v w Hv Hin ltac:(apply not_elem_of_nil)).
      * apply Hkeep; [|done]. by apply (ci_closed _ _ Hc v w c Hv (Hold v c Hin Hn)).
    + intros v w c Hv Hw Hvc Hwc Hcn. destruct (decide (c = next)) as [->|Hn].
      * transitivity s; [apply rtc_touching; [done|] |]; by apply (fi_reach _ _ _ _ _ Hf).
      * apply (ci_same _ _ Hc v w c); auto.
Qed.

Lemma components_loop_spec (starts component : list Z) (next : Z) :
  comp_inv component next -> (forall v, v ∈ starts -> vertex v) ->
  0 <= next -> next + zlen starts < 2 ^ 32 ->
  exists component' next', components_loop starts g component next = Some component' /\ comp_inv component' next'
    /\ (forall v, v ∈ starts -> exists c, in_component component' v c /\ c <> NO_COMPONENT)
    /\ (forall v c, in_component component v c -> c <> NO_COMPONENT -> in_component component' v c).
Proof.
  revert component next. induction starts as [|s starts IH]; intros component next Hc Hst H0 Hlt; cbn [components_loop].
  - exists component, next. split_and!; [done|done| by intros v []%elem_of_nil|done].
  - rewrite zlen_cons in Hlt. pose proof (zlen_nonneg starts). pose proof (Hst s ltac:(left)) as Hs.
    destruct (vertex_lookup component s (ci_length _ _ Hc) Hs) as [c Hsc]. unfold in_component in Hsc. rewrite Hsc.
    destruct (Z.eqb_spec c NO_COMPONENT) as [->|Hn]; cbn [negb].
    + destruct (flood_component component next s Hc H0) as (component1 & -> & Hc1 & Hs1 & Hk1); [unfold NO_COMPONENT, U32_MAX; lia|done|done|].
      rewrite Z.mod_small by lia.
      destruct (IH component1 (next + 1) Hc1) as (component' & next' & -> & Hc' & Hall & Hk); [intros v Hv; apply Hst; by right | lia | lia|].
      exists component', next'. split_and!; [done|done| |by auto].
      intros v [->|Hv]%elem_of_cons; [|by apply Hall]. exists next. split; [apply Hk; [done|]|]; unfold NO_COMPONENT, U32_MAX; lia.
    + destruct (IH component next Hc) as (component' & next' & -> & Hc' & Hall & Hk); [intros v Hv; apply Hst; by right | lia | lia|].
      exists component', next'. split_and!; [done|done| |done].
      intros v [->|Hv]%elem_of_cons; [|by apply Hall]. exists c. auto.
Qed.

Lemma connected_components_spec :
  exists component, connected_components g = Some component /\ length component = vertex_count g
    /\ forall v w, vertex v -> vertex w -> (component !! Z.to_nat v = component !! Z.to_nat w <-> rtc touching v w).
Proof.
  pose proof (gr_small _ _ _ Hrep) as Hsmall. pose proof (zlen_nonneg (g_keys g)) as Hnn.
  destruct (components_loop_spec (vertex_ids g) (replicate (vertex_count g) NO_COMPONENT) 0) as (component & next & Heq & Hc & Hall & _).
  - split.
    + apply length_replicate.
    + intros v c [-> _]%lookup_replicate. by left.
    + intros v w c _ [-> _]%lookup_replicate. done.
    + intros v w c _ _ [-> _]%lookup_replicate. done.
  - intros v. rewrite (rep_vertex_ids Hrep), elem_of_seqZ. unfold vertex. lia.
  - lia.
  - rewrite (rep_vertex_ids Hrep). unfold zlen at 1. rewrite length_seqZ. lia.
  - exists component. split; [exact Heq|]. split; [apply (ci_length _ _ Hc)|]. intros v w Hv Hw.
    assert (forall u, vertex u -> exists c, in_component component u c /\ c <> NO_COMPONENT) as Hass.
    { intros u Hu. apply Hall. rewrite (rep_vertex_ids Hrep), elem_of_seqZ. unfold vertex in Hu. lia. }
    destruct (Hass v Hv) as (c & Hvc & Hcn). split.
    + intros Heq'. unfold in_component in Hvc. apply (ci_same _ _ Hc v w c Hv Hw Hvc); [|done]. unfold in_component. congruence.
    + intros Hr. unfold in_component in Hvc. rewrite Hvc. symmetry. clear Heq Hw. revert Hv Hvc. induction Hr as [|v u w Hvu _ IHr]; [done|].
      intros Hv Hvc. apply IHr; [by eapply touching_vertex|]. by apply (ci_closed _ _ Hc v u c).
Qed.

(** ** Triangles *)

Definition triple : Type := Z * Z * Z.

Definition on_triple (x : Z) (t : triple) : Prop := let '(v, u, w) := t in x = v \/ x = u \/ x = w.

#[export] Instance on_triple_dec (x : Z) (t : triple) : Decision (on_triple x t).
Proof. destruct t as [[v u] w]. apply _. Defined.

(** Three vertices, in order, that are pairwise adjacent. *)
Definition is_triangle (t : triple) : Prop :=
  let '(v, u, w) := t in vertex v /\ v < u /\ u < w /\ touching v u /\ touching u w /\ touching v w.

(** [acc] counts the triples [ts]. *)
Record counts_triples (ts : list triple) (acc : list Z * Z) : Prop := {
  ct_total : snd acc = zlen ts mod 2 ^ 64;
  ct_length : length (fst acc) = vertex_count g;
  ct_counts : forall x c, vertex x -> fst acc !! Z.to_nat x = Some c -> c = zlen (filter (on_triple x) ts) mod 2 ^ 64;
}.

Lemma zlen_filter_snoc (x : Z) (ts : list triple) (t : triple) :
  zlen (filter (on_triple x) (ts ++ [t])) = zlen (filter (on_triple x) ts) + if decide (on_triple x t) then 1 else 0.
Proof.
  rewrite filter_app, zlen_app. f_equal. destruct (decide (on_triple x t)).
  - by rewrite filter_cons_True.
  - by rewrite filter_cons_False.
Qed.

Lemma bump_spec (x : Z) (counts : list Z) :
  vertex x -> length counts = vertex_count g ->
  exists counts', bump x counts = Some counts' /\ length counts' = vertex_count g
    /\ forall y c', vertex y -> counts' !! Z.to_nat y = Some c' ->
      exists c, counts !! Z.to_nat y = Some c /\ c' = if decide (y = x) then u64_add c 1 else c.
Proof.
  intros Hx Hl. unfold bump. destruct (vertex_lookup counts x Hl Hx) as [c Hc]. unfold in_component in Hc. rewrite Hc.
  eexists. split; [done|]. split; [by rewrite length_insert|]. intros y c' Hy Hc'.
  apply list_lookup_insert_Some in Hc' as [(He & <- & _)|[He Hc']].
  - assert (y = x) as -> by (unfold vertex in *; lia). exists c. by rewrite decide_True.
  - exists c'. split; [done|]. by rewrite decide_False by (by intros ->).
Qed.

Lemma u64_count (n : Z) : u64_add (n mod 2 ^ 64) 1 = (n + 1) mod 2 ^ 64.
Proof. unfold u64_add. by rewrite Zplus_mod_idemp_l. Qed.

Lemma close_triangles_spec (v u : Z) (ws : list Z) (larger : gset Z) (ts : list triple) (acc : list Z * Z) :
  vertex v -> vertex u -> v < u -> (forall w, w ∈ ws -> vertex w) -> counts_triples ts acc ->
  exists acc', close_triangles v u ws larger acc = Some acc'
    /\ counts_triples (ts ++ map (fun w => (v, u, w)) (filter (fun w => u < w /\ w ∈ larger) ws)) acc'.
Proof.
  intros Hv Hu Hvu. revert ts acc. induction ws as [|w ws IH]; intros ts [counts total] Hws Hct; cbn [close_triangles].
  - rewrite app_nil_r. eauto.
  - destruct ((u <? w) && bool_decide (w ∈ larger)) eqn:E.
    + apply andb_true_iff in E as [Huw%Z.ltb_lt Hw%bool_decide_eq_true]. rewrite filter_cons_True by done.
      destruct Hct as [Ht Hl Hc]. cbn [fst snd] in *.
      destruct (bump_spec v counts Hv Hl) as (c1 & -> & Hl1 & H1). destruct (bump_spec u c1 Hu Hl1) as (c2 & -> & Hl2 & H2).
      destruct (bump_spec w c2 (Hws w ltac:(left)) Hl2) as (c3 & -> & Hl3 & H3).
      destruct (IH (ts ++ [(v, u, w)]) (c3, u64_add total 1)) as (acc' & -> & Hct').
      * intros x Hx. apply Hws. by right.
      * split; cbn [fst snd].
        -- rewrite Ht, u64_count, zlen_app, zlen_cons. done.
        -- done.
        -- intros x c Hx Hcx. destruct (H3 x c Hx Hcx) as (c2x & Hc2 & ->). destruct (H2 x c2x Hx Hc2) as (c1x & Hc1 & ->).
           destruct (H1 x c1x Hx Hc1) as (cx & Hc0 & ->). rewrite (Hc x cx Hx Hc0), zlen_filter_snoc. simpl on_triple.
           destruct (decide (x = v)), (decide (x = u)), (decide (x = w)); try lia.
           all: rewrite ?u64_count; case_decide; try tauto; f_equal; lia.
      * exists acc'. split; [done|]. by rewrite <- app_assoc in Hct'.
    + rewrite filter_cons_False.
      * apply IH; [|done]. intros x Hx. apply Hws. by right.
      * intros [Huw Hw]. apply andb_false_iff in E as [E|E]; [apply Z.ltb_ge in E; lia | by apply bool_decide_eq_false in E].
Qed.

Lemma elem_of_neighbor_set (v w : Z) : w ∈ neighbor_set v g <-> touching v w /\ w <> v.
Proof. unfold neighbor_set. rewrite elem_of_list_to_set, list_elem_of_filter. unfold touching, adj. tauto. Qed.

Definition sets : list (gset Z) := map (fun v => neighbor_set v g) (vertex_ids g).

Lemma sets_lookup (v : Z) : vertex v -> sets !! Z.to_nat v = Some (neighbor_set v g).
Proof.
  intros Hv. unfold sets. rewrite (rep_vertex_ids Hrep). apply list_lookup_fmap_Some. exists v. split; [done|].
  apply lookup_seqZ. unfold vertex in Hv. lia.
Qed.

(** The triangles that the loops meet, in their order. *)
Definition closing (v u : Z) : list Z :=
  let '(smaller, larger) :=
    if (size (neighbor_set v g) <? size (neighbor_set u g))%nat
    then (neighbor_set v g, neighbor_set u g) else (neighbor_set u g, neighbor_set v g) in
  filter (fun w => u < w /\ w ∈ larger) (elements smaller).

Definition met_at (v : Z) (us : list Z) : list triple :=
  us ≫= (fun u => if u <=? v then [] else map (fun w => (v, u, w)) (closing v u)).

Definition met (vs : list Z) : list triple := vs ≫= (fun v => met_at v (elements (neighbor_set v g))).

Lemma elem_of_closing (v u w : Z) :
  w ∈ closing v u <-> u < w /\ w ∈ neighbor_set v g /\ w ∈ neighbor_set u g.
Proof. unfold closing. destruct (size _ <? size _)%nat; rewrite list_elem_of_filter, elem_of_elements; tauto. Qed.

Lemma closing_NoDup (v u : Z) : NoDup (closing v u).
Proof. unfold closing. destruct (size _ <? size _)%nat; apply NoDup_filter, NoDup_elements. Qed.

Lemma triangles_at_spec (v : Z) (us : list Z) (ts : list triple) (acc : list Z * Z) :
  vertex v -> (forall u, u ∈ us -> vertex u) -> counts_triples ts acc ->
  exists acc', triangles_at v us (neighbor_set v g) sets acc = Some acc' /\ counts_triples (ts ++ met_at v us) acc'.
Proof.
  intros Hv. revert ts acc. induction us as [|u us IH]; intros ts acc Hus Hct; cbn [triangles_at].
  - exists acc. split; [done|]. by rewrite app_nil_r.
  - assert (forall x, x ∈ us -> vertex x) as Hus' by (intros x Hx; apply Hus; by right).
    unfold met_at. rewrite bind_cons. fold (met_at v us). destruct (Z.leb_spec u v) as [Hle|Hlt]; [by apply IH|].
    pose proof (Hus u ltac:(left)) as Hu. rewrite (sets_lookup u Hu). rewrite app_assoc. unfold closing.
    destruct (size (neighbor_set v g) <? size (neighbor_set u g))%nat.
    + destruct (close_triangles_spec v u (elements (neighbor_set v g)) (neighbor_set u g) ts acc Hv Hu Hlt) as (acc1 & -> & H1); [|done|by apply IH].
      intros w [Hw _]%elem_of_elements%elem_of_neighbor_set. by eapply touching_vertex.
    + destruct (close_triangles_spec v u (elements (neighbor_set u g)) (neighbor_set v g) ts acc Hv Hu Hlt) as (acc1 & -> & H1); [|done|by apply IH].
      intros w [Hw _]%elem_of_elements%elem_of_neighbor_set. by eapply touching_vertex.
Qed.

Lemma triangles_loop_spec (vs : list Z) (ts : list triple) (acc : list Z * Z) :
  (forall v, v ∈ vs -> vertex v) -> counts_triples ts acc ->
  exists acc', triangles_loop vs sets acc = Some acc' /\ counts_triples (ts ++ met vs) acc'.
Proof.
  revert ts acc. induction vs as [|v vs IH]; intros ts acc Hvs Hct; cbn [triangles_loop].
  - exists acc. split; [done|]. by rewrite app_nil_r.
  - pose proof (Hvs v ltac:(left)) as Hv. rewrite (sets_lookup v Hv). unfold met. rewrite bind_cons, app_assoc.
    destruct (triangles_at_spec v (elements (neighbor_set v g)) ts acc Hv) as (acc1 & -> & H1); [|done|].
    + intros u [Hu _]%elem_of_elements%elem_of_neighbor_set. by eapply touching_vertex.
    + apply IH; [|done]. intros x Hx. apply Hvs. by right.
Qed.

Lemma elem_of_met_at (v v' u w : Z) (us : list Z) :
  (v', u, w) ∈ met_at v us <-> v' = v /\ u ∈ us /\ v < u /\ w ∈ closing v u.
Proof.
  unfold met_at. rewrite list_elem_of_bind. split.
  - intros (u' & Hin & Hu). destruct (Z.leb_spec u' v); [by apply elem_of_nil in Hin|].
    by apply list_elem_of_fmap in Hin as (w' & [= -> -> ->] & Hw).
  - intros (-> & Hu & Hlt & Hw). exists u. split; [|done]. rewrite (proj2 (Z.leb_gt _ _)) by lia.
    apply list_elem_of_fmap. by exists w.
Qed.

Lemma elem_of_met (t : triple) : t ∈ met (vertex_ids g) <-> is_triangle t.
Proof.
  destruct t as [[v u] w]. unfold met. rewrite list_elem_of_bind, (rep_vertex_ids Hrep). unfold is_triangle. split.
  - intros (v' & Hin & Hv'). apply elem_of_met_at in Hin as (-> & Hu & Hlt & Hw). apply elem_of_seqZ in Hv'.
    apply elem_of_elements, elem_of_neighbor_set in Hu as [Hvu _].
    apply elem_of_closing in Hw as (Huw & [Hvw _]%elem_of_neighbor_set & [Huw' _]%elem_of_neighbor_set).
    split_and!; try done; unfold vertex in *; lia.
  - intros (Hv & H1 & H2 & H3 & H4 & H5). exists v. split; [|apply elem_of_seqZ; unfold vertex in Hv; lia].
    apply elem_of_met_at. rewrite elem_of_elements, elem_of_closing, !elem_of_neighbor_set. split_and!; try done; lia.
Qed.

Lemma met_NoDup (vs : list Z) : NoDup vs -> NoDup (met vs).
Proof.
  intros Hnd. apply NoDup_bind; [| |done].
  - intros v1 v2 [[v u] w] _ _ H1 H2. apply elem_of_met_at in H1 as [-> _]. by apply elem_of_met_at in H2 as [-> _].
  - intros v _. apply NoDup_bind; [| |apply NoDup_elements].
    + intros u1 u2 [[v' u] w] _ _. destruct (Z.leb_spec u1 v), (Z.leb_spec u2 v); try by intros ?%elem_of_nil. by intros _ ?%elem_of_nil.
      by intros (w1 & [= -> -> ->] & _)%list_elem_of_fmap (w2 & [= -> _] & _)%list_elem_of_fmap.
    + intros u _. destruct (Z.leb_spec u v); [constructor|]. apply NoDup_fmap_2; [|apply closing_NoDup]. by intros w1 w2 [= ->].
Qed.

Lemma triangle_count_spec :
  exists ts counts total, triangle_count g = Some (counts, total) /\ NoDup ts /\ (forall t, t ∈ ts <-> is_triangle t)
    /\ total = zlen ts mod 2 ^ 64 /\ length counts = vertex_count g
    /\ forall x c, vertex x -> counts !! Z.to_nat x = Some c -> c = zlen (filter (on_triple x) ts) mod 2 ^ 64.
Proof.
  destruct (triangles_loop_spec (vertex_ids g) [] (replicate (vertex_count g) 0, 0)) as ([counts total] & Heq & [H1 H2 H3]).
  - intros v. rewrite (rep_vertex_ids Hrep), elem_of_seqZ. unfold vertex. lia.
  - split; [done | apply length_replicate|]. intros x c _ [-> _]%lookup_replicate. done.
  - exists (met (vertex_ids g)), counts, total. split_and!; [exact Heq | | apply elem_of_met | done | done | done].
    apply met_NoDup. rewrite (rep_vertex_ids Hrep). apply NoDup_seqZ.
Qed.

(** ** Labels *)

Lemma fold_max_spec (l : list nat) (x : nat) :
  (fold_left Nat.max l x = x \/ fold_left Nat.max l x ∈ l) /\ forall y, y = x \/ y ∈ l -> (y <= fold_left Nat.max l x)%nat.
Proof.
  revert x. induction l as [|z l IH]; intros x; simpl.
  - split; [by left|]. intros y [->|[]%elem_of_nil]. lia.
  - destruct (IH (Nat.max x z)) as [H1 H2]. split.
    + destruct H1 as [->|H1]; [|right; by right]. destruct (Nat.max_spec x z) as [[_ ->]|[_ ->]]; [right; left | by left].
    + intros y [->|[->|Hy]%elem_of_cons]; [| |by apply H2; right]; specialize (H2 (Nat.max x z) ltac:(by left)); lia.
Qed.

Lemma fold_min_spec (l : list Z) (x : Z) :
  (fold_left Z.min l x = x \/ fold_left Z.min l x ∈ l) /\ forall y, y = x \/ y ∈ l -> fold_left Z.min l x <= y.
Proof.
  revert x. induction l as [|z l IH]; intros x; simpl.
  - split; [by left|]. intros y [->|[]%elem_of_nil]. lia.
  - destruct (IH (Z.min x z)) as [H1 H2]. split.
    + destruct H1 as [->|H1]; [|right; by right]. destruct (Z.min_spec x z) as [[_ ->]|[_ ->]]; [by left | right; left].
    + intros y [->|[->|Hy]%elem_of_cons]; [| |by apply H2; right]; specialize (H2 (Z.min x z) ltac:(by left)); lia.
Qed.

(** The smallest of the most frequent labels. *)
Lemma best_label_spec (counts : gmap Z nat) :
  counts <> ∅ -> exists l m, best_label counts = Some l /\ counts !! l = Some m
    /\ forall l' c, counts !! l' = Some c -> (c <= m)%nat /\ (c = m -> l <= l').
Proof.
  intros Hne. unfold best_label. assert (map_to_list counts <> []) as Hl by (by intros ?%map_to_list_empty_iff).
  assert (forall l c, counts !! l = Some c <-> (l, c) ∈ map_to_list counts) as Hin by (intros; by rewrite elem_of_map_to_list).
  revert Hin Hl. generalize (map_to_list counts) as cs. intros cs Hin Hl. destruct cs as [|[l0 c0] cs]; [done|].
  cbn [map max_of]. destruct (fold_max_spec (map snd cs) c0) as [Hm1 Hm2].
  set (m := fold_left Nat.max (map snd cs) c0) in *. cbn [snd] in *. fold m.
  assert (exists l, (l, m) ∈ (l0, c0) :: cs) as (lm & Hlm).
  { destruct Hm1 as [->|Hm1]; [exists l0; left|]. apply list_elem_of_fmap in Hm1 as ([l c] & -> & H). exists l. by right. }
  assert (forall l, (l, m) ∈ (l0, c0) :: cs <-> l ∈ map fst (filter (fun lc : Z * nat => lc.2 = m) ((l0, c0) :: cs))) as Hf.
  { intros l. rewrite list_elem_of_fmap. split.
    - intros H. exists (l, m). split; [done|]. by apply list_elem_of_filter.
    - intros ([l' c'] & -> & [<- H]%list_elem_of_filter). done. }
  destruct (map fst (filter (fun lc : Z * nat => lc.2 = m) ((l0, c0) :: cs))) as [|x xs] eqn:E; [by apply Hf, elem_of_nil in Hlm|].
  destruct (fold_min_spec xs x) as [H1 H2]. exists (fold_left Z.min xs x), m. split; [done|]. split.
  - apply Hin, Hf. destruct H1 as [->|H1]; [left | by right].
  - intros l' c Hl'%Hin. split.
    + apply Hm2. apply elem_of_cons in Hl' as [[= -> ->]|Hl']; [by left|]. right. by eapply snd_elem.
    + intros ->. apply H2. apply Hf in Hl'. by apply elem_of_cons in Hl' as [->|?]; [left|right].
Qed.

Lemma label_counts_spec (ns labels : list Z) (counts : gmap Z nat) (Q : Z -> Prop) :
  (forall n, n ∈ ns -> exists l, labels !! Z.to_nat n = Some l /\ Q l) -> (forall l c, counts !! l = Some c -> Q l) ->
  exists counts', label_counts ns labels counts = Some counts' /\ (forall l c, counts' !! l = Some c -> Q l)
    /\ (counts <> ∅ \/ ns <> [] -> counts' <> ∅).
Proof.
  revert counts. induction ns as [|n ns IH]; intros counts Hns Hc; cbn [label_counts].
  - exists counts. split_and!; [done|done|]. by intros [?|?].
  - destruct (Hns n ltac:(left)) as (l & -> & Hl).
    destruct (IH (<[l := S (default 0%nat (counts !! l))]> counts)) as (counts' & -> & Hc' & Hne).
    + intros m Hm. apply Hns. by right.
    + intros l' c [[<- _]|[_ H]]%lookup_insert_Some; [done | by eapply Hc].
    + exists counts'. split_and!; [done|done|]. intros _. apply Hne. left. apply insert_non_empty.
Qed.

(** Every label is that of a vertex connected to its own. *)
Definition labels_inv (labels : list Z) : Prop :=
  length labels = vertex_count g /\ forall v l, vertex v -> labels !! Z.to_nat v = Some l -> vertex l /\ rtc touching v l.

Definition neighbor_lists : list (list Z) := map (fun v => map fst (neighbors v Direction_Both g)) (vertex_ids g).

Lemma label_sweep_spec (vs : list nat) (labels : list Z) (changed : bool) :
  (forall v, v ∈ vs -> (v < vertex_count g)%nat) -> labels_inv labels ->
  exists labels' changed', label_sweep vs neighbor_lists labels changed = Some (labels', changed') /\ labels_inv labels'.
Proof.
  revert labels changed. induction vs as [|v vs IH]; intros labels changed Hvs Hi; cbn [label_sweep]; [by eauto|].
  assert (forall x, x ∈ vs -> (x < vertex_count g)%nat) as Hvs' by (intros x Hx; apply Hvs; by right).
  pose proof (Hvs v ltac:(left)) as Hv. assert (vertex (Z.of_nat v)) as Hvv by (unfold vertex, zlen, vertex_count in *; lia).
  assert (neighbor_lists !! v = Some (map fst (neighbors (Z.of_nat v) Direction_Both g))) as ->.
  { unfold neighbor_lists. rewrite (rep_vertex_ids Hrep). apply list_lookup_fmap_Some. exists (Z.of_nat v). split; [done|].
    apply lookup_seqZ. unfold vertex in Hvv. lia. }
  destruct (map fst (neighbors (Z.of_nat v) Direction_Both g)) as [|n ns] eqn:En; [by apply IH|].
  assert (forall w, w ∈ n :: ns -> touching (Z.of_nat v) w) as Ht by (intros w Hw; unfold touching, adj; by rewrite En).
  destruct (label_counts_spec (n :: ns) labels ∅ (fun l => vertex l /\ rtc touching (Z.of_nat v) l)) as (counts & -> & Hc & Hne).
  - intros w Hw. destruct Hi as [Hl Hi]. apply Ht in Hw as Htw. pose proof (touching_vertex _ _ Htw) as Hvw.
    destruct (vertex_lookup labels w Hl Hvw) as [l Hlw]. exists l. split; [done|].
    destruct (Hi w l Hvw Hlw) as [Hvl Hr]. split; [done|]. by apply rtc_l with w.
  - intros l c. by rewrite lookup_empty.
  - destruct (best_label_spec counts) as (best & m & -> & Hb & _); [apply Hne; by right|].
    destruct (Hc best m Hb) as [Hvb Hrb].
    destruct (lookup_lt_is_Some_2 labels v) as [l Hlv]; [by rewrite (proj1 Hi)|]. rewrite Hlv.
    destruct (best =? l); apply IH; try done. destruct Hi as [Hl Hi]. split; [by rewrite length_insert|].
    intros x lx Hx Hlx. apply list_lookup_insert_Some in Hlx as [(He & <- & _)|[_ Hlx]]; [|by apply Hi].
    assert (x = Z.of_nat v) as -> by (unfold vertex in Hx; lia). done.
Qed.

Lemma label_propagation_spec (iterations : nat) :
  exists labels, label_propagation iterations g = Some labels /\ labels_inv labels.
Proof.
  unfold label_propagation. fold neighbor_lists. fold (vertex_ids g).
  assert (labels_inv (vertex_ids g)) as Hi.
  { rewrite (rep_vertex_ids Hrep). split; [rewrite length_seqZ; unfold zlen, vertex_count; lia|].
    intros v l Hv [-> _]%lookup_seqZ. unfold vertex in Hv. rewrite Z.add_0_l, Z2Nat.id by lia. by split. }
  revert Hi. generalize (vertex_ids g) as labels. induction iterations as [|n IH]; intros labels Hi; cbn [label_rounds]; [by eauto|].
  destruct (label_sweep_spec (seq 0 (vertex_count g)) labels false) as (labels' & changed & -> & Hi'); [|done|].
  - intros v Hv%elem_of_seq. lia.
  - destruct changed; [by apply IH | by eauto].
Qed.
End Components.

(** ** Labels stay in their component *)

(** Label propagation. For any number of rounds it gives every vertex the
    id of a vertex that edges connect it to, so vertices with the same label
    are connected. *)
Theorem labels_stay_connected (log : list EdgeRecord) (g : AdjacencyGraph) (iterations : nat) :
  graph_rep log g ->
  exists labels, label_propagation iterations g = Some labels /\ length labels = vertex_count g
    /\ forall v w l, vertex (g := g) v -> vertex (g := g) w -> labels !! Z.to_nat v = Some l -> labels !! Z.to_nat w = Some l ->
         rtc (touching (g := g)) v w.
Proof.
  intros Hrep. destruct (label_propagation_spec Hrep iterations) as (labels & Heq & Hl & Hi). exists labels. split_and!; [done|done|].
  intros v w l Hv Hw Hvl Hwl. destruct (Hi v l Hv Hvl) as [_ H1]. destruct (Hi w l Hw Hwl) as [Hvl' H2].
  transitivity l; [done|]. by apply (rtc_touching Hrep w l Hw).
Qed.

Definition pair_log : list EdgeRecord := [mkEdgeRecord [Byte.x61] [Byte.x62] None].
Definition pair_graph : AdjacencyGraph := default graph_new (graph_of pair_log).

Lemma pair_rep : graph_rep pair_log pair_graph.
Proof.
  destruct (graph_of_rep pair_log) as (g & Hg & Hrep); [unfold zlen; simpl; lia|]. unfold pair_graph. rewrite Hg. exact Hrep.
Qed.

Lemma labels_stay_connected_witness :
  exists labels, label_propagation 3 pair_graph = Some labels /\ length labels = 2%nat.
Proof.
  destruct (labels_stay_connected pair_log pair_graph 3 pair_rep) as (labels & Heq & Hl & _). exists labels.
  split; [exact Heq | rewrite Hl; vm_compute; reflexivity].
Defined.

(** A round updates the labels in place: of two connected vertices the second
    sees the first one's new label. *)
Theorem labels_are_updated_in_place : label_propagation 1 pair_graph = Some [1; 1].
Proof. vm_compute. reflexivity. Qed.
