(* ===== verification/GraphIndex.v ===== *)
(** Graph indexes: the index file ([storage/graph_index.rs]), the graph methods
    of the database ([storage/database/graph.rs], the graph part of
    [storage_engine.rs] and of [Database::open]) and the MATCH statement
    ([executor/gql.rs]).

    [Plexus] is the part of the database that they work on: the columns of the
    tables, the index files by the stem of their name, and the open indexes by
    table and column. [None] is a panic or a loop that has not ended, the
    [option] of the source is inside it.

    Theorems: an index opens again as it was left; traversal, shortest path and
    components answer by the edges of the rows; MATCH returns the walks that
    fit its pattern. And: an index of a table whose name has an underscore is
    registered for another table after a restart; deleting a row leaves its edge
    in the index; a record cut short blocks the index. *)

From Stdlib Require Import Strings.Byte Strings.String Strings.Ascii Sorted ZArith Lia.
From stdpp Require Import base list gmap sets strings relations sorting.
From S2P Require Import Prelude OrdMap InternalKey Versions Utf8 Wal SSTable ObjectStore Manifest Lsm LsmRead LsmRefine Txn Flux Rows Ast Jsonb Graph GraphAlgo.

Open Scope Z_scope.

(** ** The index file *)

Record GraphIndex := mkGraphIndex {
  gi_path : string;
  gi_to_column : string;
  gi_type_column : option string;
  gi_graph : AdjacencyGraph;
}.

Section Plexus.
  Context {bce : Bincode EdgeRecord} {js : Json}.

Definition write_string (s : string) : bytes := frame (as_bytes s).

Definition read_string (file : bytes) : Result (string * bytes) :=
  match read_frame file with
  | Err e => Err e
  | Ok None => Err "failed to fill whole buffer"%string
  | Ok (Some (buf, rest)) => let? s := ok_or (from_utf8 buf) "invalid utf-8 sequence" in Ok (s, rest)
  end.

Definition header (to_column : string) (type_column : option string) : bytes :=
  write_string to_column
  ++ match type_column with Some t => Byte.x01 :: write_string t | None => [Byte.x00] end.

Definition read_header (file : bytes) : Result (string * option string * bytes) :=
  match read_string file with
  | Err e => Err e
  | Ok (to_column, []) => Err "failed to fill whole buffer"%string
  | Ok (to_column, has_type :: rest) =>
      if byte_eqb has_type Byte.x00 then Ok (to_column, None, rest)
      else match read_string rest with
           | Ok (t, rest) => Ok (to_column, Some t, rest)
           | Err e => Err e
           end
  end.

Fixpoint replay_edges (fuel : nat) (rest : bytes) (g : AdjacencyGraph) : option (Result AdjacencyGraph) :=
  match fuel with
  | O => None
  | S fuel' =>
      match read_frame rest with
      | Err e => Some (Err e)
      | Ok None => Some (Ok g)
      | Ok (Some (buf, rest)) =>
          match bc_deserialize buf with
          | None => Some (Err "bincode"%string)
          | Some r =>
              match add_edge (er_from r) (er_to r) (er_rel r) g with
              | Some g => replay_edges fuel' rest g
              | None => None
              end
          end
      end
  end.

(** [GraphIndex::open] on the file, if it exists; the file after it. *)
Definition graph_index_open (path : string) (file : option bytes) (to_column : string) (type_column : option string)
    : option (bytes * Result GraphIndex) :=
  match file with
  | None => Some (header to_column type_column, Ok (mkGraphIndex path to_column type_column graph_new))
  | Some file =>
      match read_header file with
      | Err e => Some (file, Err e)
      | Ok (to_column, type_column, rest) =>
          match replay_edges (S (length rest)) rest graph_new with
          | None => None
          | Some (Err e) => Some (file, Err e)
          | Some (Ok g) => Some (file, Ok (mkGraphIndex path to_column type_column g))
          end
      end
  end.

(** [GraphIndex::insert] *)
Definition graph_index_insert (r : EdgeRecord) (idx : GraphIndex) (file : bytes) : option (GraphIndex * bytes) :=
  match add_edge (er_from r) (er_to r) (er_rel r) (gi_graph idx) with
  | Some g => Some (mkGraphIndex (gi_path idx) (gi_to_column idx) (gi_type_column idx) g, file ++ frame (bc_serialize r))
  | None => None
  end.

(** ** The database's graph indexes *)

Record Plexus := mkPlexus {
  px_schemas : gmap string (list string);
  px_files : gmap string bytes;
  px_indexes : gmap string (gmap string GraphIndex);
}.

Definition index_stem (table column : string) : string := (table ++ "_" ++ column)%string.

(** [iter().position(|c| c.name == name)] *)
Fixpoint position (name : string) (columns : list string) : option nat :=
  match columns with
  | [] => None
  | c :: columns' => if String.eqb c name then Some 0%nat else S <$> position name columns'
  end.

Definition edge_of_row (value : bytes) (from_idx to_idx : nat) (type_idx : option nat) : option EdgeRecord :=
  match decode_column value from_idx, decode_column value to_idx with
  | Some from, Some to =>
      let rel := match type_idx with
                 | Some i => match decode_column value i with Some b => from_utf8 b | None => None end
                 | None => None
                 end in
      Some (mkEdgeRecord from to rel)
  | _, _ => None
  end.

Fixpoint backfill (rows : list KeyValue) (from_idx to_idx : nat) (type_idx : option nat) (idx : GraphIndex) (file : bytes)
    : option (GraphIndex * bytes) :=
  match rows with
  | [] => Some (idx, file)
  | kv :: rows' =>
      match edge_of_row (kv_value kv) from_idx to_idx type_idx with
      | None => backfill rows' from_idx to_idx type_idx idx file
      | Some r =>
          match graph_index_insert r idx file with
          | Some (idx, file) => backfill rows' from_idx to_idx type_idx idx file
          | None => None
          end
      end
  end.

Definition set_file (stem : string) (file : bytes) (p : Plexus) : Plexus :=
  mkPlexus (px_schemas p) (<[stem := file]> (px_files p)) (px_indexes p).

Definition set_index (table column : string) (idx : GraphIndex) (p : Plexus) : Plexus :=
  mkPlexus (px_schemas p) (px_files p)
    (<[table := <[column := idx]> (default ∅ (px_indexes p !! table))]> (px_indexes p)).

Definition column_position (name : string) (columns : list string) : Result nat :=
  ok_or (position name columns) "column does not exist".

Definition column_positions (columns : list string) (from_column to_column : string) (type_column : option string)
    : Result (nat * nat * option nat) :=
  let? from_idx := column_position from_column columns in
  let? to_idx := column_position to_column columns in
  match type_column with
  | None => Ok (from_idx, to_idx, None)
  | Some t => let? i := column_position t columns in Ok (from_idx, to_idx, Some i)
  end.

(** [create_graph_index]; [rows] is the scan of the table. *)
Definition create_graph_index (role : NodeRole) (table from_column to_column : string) (type_column : option string)
    (rows : Result (list KeyValue)) (p : Plexus) : option (Plexus * Result unit) :=
  match role with
  | Reader => Some (p, Err "this node is a read-only replica; send writes to the writer node"%string)
  | Writer =>
      let stem := index_stem table from_column in
      match graph_index_open stem (px_files p !! stem) to_column type_column with
      | None => None
      | Some (file, Err e) => Some (set_file stem file p, Err e)
      | Some (file, Ok idx) =>
          let p := set_file stem file p in
          match px_schemas p !! table with
          | None => Some (p, Err "table does not exist"%string)
          | Some columns =>
              match column_positions columns from_column to_column type_column with
              | Err e => Some (p, Err e)
              | Ok (from_idx, to_idx, type_idx) =>
                  match rows with
                  | Err e => Some (p, Err e)
                  | Ok rows =>
                      match backfill rows from_idx to_idx type_idx idx file with
                      | None => None
                      | Some (idx, file) => Some (set_index table from_column idx (set_file stem file p), Ok tt)
                      end
                  end
              end
          end
      end
  end.

(** The graph part of [maintain_indexes_on_write] for one index... *)
Definition maintain_graph (table : string) (value : bytes) (columns : list string) (col : string) (idx : GraphIndex) (p : Plexus)
    : option Plexus :=
  match position col columns, position (gi_to_column idx) columns with
  | Some from_pos, Some to_pos =>
      let type_pos := match gi_type_column idx with Some t => position t columns | None => None end in
      match edge_of_row value from_pos to_pos type_pos with
      | None => Some p
      | Some r =>
          match graph_index_insert r idx (default [] (px_files p !! gi_path idx)) with
          | Some (idx, file) => Some (set_index table col idx (set_file (gi_path idx) file p))
          | None => None
          end
      end
  | _, _ => Some p
  end.

(** ... and for those of a table in turn. *)
Fixpoint maintain_graphs (table : string) (value : bytes) (columns : list string) (cols : list (string * GraphIndex)) (p : Plexus)
    : option Plexus :=
  match cols with
  | [] => Some p
  | (col, idx) :: cols' =>
      match maintain_graph table value columns col idx p with
      | Some p => maintain_graphs table value columns cols' p
      | None => None
      end
  end.

Definition graph_on_write (table : string) (value : bytes) (p : Plexus) : option Plexus :=
  match px_schemas p !! table, px_indexes p !! table with
  | Some columns, Some cols => maintain_graphs table value columns (map_to_list cols) p
  | _, _ => Some p
  end.

(** [name.split_once('_')] *)
Fixpoint split_once (s : string) : option (string * string) :=
  match s with
  | EmptyString => None
  | String c s' =>
      if Ascii.eqb c "_" then Some (EmptyString, s')
      else match split_once s' with Some (a, b) => Some (String c a, b) | None => None end
  end.

(** The graph files of the loop of [Database::open]: a file that does not open
    is skipped. *)
Fixpoint reopen_files (files : list (string * bytes)) (idx : gmap string (gmap string GraphIndex))
    : option (gmap string (gmap string GraphIndex)) :=
  match files with
  | [] => Some idx
  | (stem, file) :: files' =>
      match split_once stem with
      | None => reopen_files files' idx
      | Some (table, col) =>
          match graph_index_open stem (Some file) "" None with
          | None => None
          | Some (_, Err _) => reopen_files files' idx
          | Some (_, Ok g) => reopen_files files' (<[table := <[col := g]> (default ∅ (idx !! table))]> idx)
          end
      end
  end.

Definition plexus_reopen (p : Plexus) : option Plexus :=
  match reopen_files (map_to_list (px_files p)) ∅ with
  | Some idx => Some (mkPlexus (px_schemas p) (px_files p) idx)
  | None => None
  end.

(** ** Queries *)

Definition indexed_column_graph (table from_column : string) (p : Plexus) : bool :=
  match px_indexes p !! table with Some m => bool_decide (is_Some (m !! from_column)) | None => false end.

Definition graph_at (table from_column : string) (p : Plexus) : option AdjacencyGraph :=
  match px_indexes p !! table with
  | Some m => gi_graph <$> m !! from_column
  | None => None
  end.

(** [filter_map(|(id, x)| graph.key_of(id).map(|k| (k.to_vec(), x)))] *)
Definition with_key {A : Type} (g : AdjacencyGraph) (p : Z * A) : option (bytes * A) :=
  match key_of (fst p) g with Some k => Some (k, snd p) | None => None end.

Definition graph_all_vertices (table from_column : string) (p : Plexus) : option (list bytes) :=
  (fun g => omap (fun id => key_of id g) (vertex_ids g)) <$> graph_at table from_column p.

Definition graph_neighbors (table from_column : string) (vertex_key : bytes) (dir : Direction) (p : Plexus)
    : option (list (bytes * option string)) :=
  match graph_at table from_column p with
  | None => None
  | Some g =>
      match id_of vertex_key g with
      | None => None
      | Some id => Some (omap (with_key g) (neighbors id dir g))
      end
  end.

Definition graph_bfs (table from_column : string) (start_key : bytes) (max_depth : nat) (dir : Direction) (p : Plexus)
    : option (option (list (bytes * nat))) :=
  match graph_at table from_column p with
  | None => Some None
  | Some g =>
      match id_of start_key g with
      | None => Some None
      | Some start => option_map (fun out => Some (omap (with_key g) out)) (bfs_traverse start max_depth dir g)
      end
  end.

Definition graph_shortest_path (table from_column : string) (start_key end_key : bytes) (dir : Direction) (p : Plexus)
    : option (option (option (list bytes))) :=
  match graph_at table from_column p with
  | None => Some None
  | Some g =>
      match id_of start_key g, id_of end_key g with
      | Some start, Some end_ =>
          option_map (fun r => Some (option_map (omap (fun id => key_of id g)) r)) (shortest_path start end_ dir g)
      | _, _ => Some None
      end
  end.

(** [components[id as usize]] for the vertices in turn. *)
Definition by_vertex (g : AdjacencyGraph) (values : list Z) : option (list (bytes * Z)) :=
  option_map (omap (with_key g)) (mapM (fun id => (fun c => (id, c)) <$> values !! Z.to_nat id) (vertex_ids g)).

Definition graph_connected_components (table from_column : string) (p : Plexus) : option (option (list (bytes * Z))) :=
  match graph_at table from_column p with
  | None => Some None
  | Some g =>
      match connected_components g with
      | None => None
      | Some components => Some <$> by_vertex g components
      end
  end.

Definition graph_triangle_count (table from_column : string) (p : Plexus) : option (option (list (bytes * Z))) :=
  match graph_at table from_column p with
  | None => Some None
  | Some g =>
      match triangle_count g with
      | None => None
      | Some (counts, _) => Some <$> by_vertex g counts
      end
  end.

(** ** MATCH *)

Definition to_graph_direction (d : MatchDirection) : Direction :=
  match d with
  | MatchDirection_Out => Direction_Out
  | MatchDirection_In => Direction_In
  | MatchDirection_Both => Direction_Both
  end.

Definition rel_fits (want rel : option string) : bool :=
  match want with
  | None => true
  | Some w => match rel with Some r => String.eqb r w | None => false end
  end.

(** What a hop makes of one path; [path.last()] is there. *)
Definition extend_path (table column : string) (hop : MatchHop) (p : Plexus) (path : list bytes) : list (list bytes) :=
  match last path with
  | None => []
  | Some v =>
      match graph_neighbors table column v (to_graph_direction (mh_direction hop)) p with
      | None => []
      | Some ns => map (fun n => path ++ [fst n]) (List.filter (fun n => rel_fits (mh_rel_type hop) (snd n)) ns)
      end
  end.

Definition match_paths (m : MatchStmt) (p : Plexus) : list (list bytes) :=
  let starts := match ma_start_filter m with
                | Some lit => [as_bytes lit]
                | None => default [] (graph_all_vertices (ma_table m) (ma_column m) p)
                end in
  let paths := fold_left (fun paths hop => concat (map (extend_path (ma_table m) (ma_column m) hop p) paths))
                 (ma_hops m) (map (fun v => [v]) starts) in
  match ma_limit m with Some n => take (Z.to_nat n) paths | None => paths end.

(** The rows; [None] when a variable is no node of the pattern, which the
    parser excludes, or a path is too short for it. *)
Definition execute_match (m : MatchStmt) (p : Plexus) : option (Result (list (list bytes))) :=
  if negb (indexed_column_graph (ma_table m) (ma_column m) p) then Some (Err "no graph index"%string)
  else
    match mapM (fun r => position r (ma_nodes m)) (ma_returns m) with
    | None => None
    | Some indices => Ok <$> mapM (fun path => mapM (fun i => path !! i) indices) (match_paths m p)
    end.

End Plexus.

(** ** Reopening *)

Section Reopen.
  Context {bce : Bincode EdgeRecord} {bcl : BincodeLaws EdgeRecord}.

Definition record_ok (r : EdgeRecord) : Prop := bc_in_range r /\ zlen (bc_serialize r) < 2 ^ 32.

Definition column_ok (s : string) : Prop := is_string s /\ zlen (as_bytes s) < 2 ^ 32.

(** The index holds the edges [log], in memory and in its file. *)
Record index_rep (log : list EdgeRecord) (idx : GraphIndex) (file : bytes) : Prop := {
  ix_file : file = header (gi_to_column idx) (gi_type_column idx) ++ frames log;
  ix_graph : graph_of log = Some (gi_graph idx);
  ix_rep : graph_rep log (gi_graph idx);
  ix_records : Forall record_ok log;
  ix_to : column_ok (gi_to_column idx);
  ix_type : forall t, gi_type_column idx = Some t -> column_ok t;
}.

Lemma read_string_write (s : string) (rest : bytes) : column_ok s -> read_string (write_string s ++ rest) = Ok (s, rest).
Proof. intros [Hs Hl]. unfold read_string, write_string. rewrite read_frame_frame by done. by rewrite from_utf8_as_bytes. Qed.

Lemma read_header_header (to_column : string) (type_column : option string) (rest : bytes) :
  column_ok to_column -> (forall t, type_column = Some t -> column_ok t) ->
  read_header (header to_column type_column ++ rest) = Ok (to_column, type_column, rest).
Proof.
  intros Hto Hty. unfold read_header, header. rewrite <- app_assoc, read_string_write by done. destruct type_column as [t|].
  - rewrite <- app_comm_cons. change (byte_eqb Byte.x01 Byte.x00) with false. cbv iota. by rewrite read_string_write by auto.
  - done.
Qed.

Lemma graph_add_app (a b : list EdgeRecord) (g : AdjacencyGraph) :
  graph_add (a ++ b) g = match graph_add a g with Some g => graph_add b g | None => None end.
Proof.
  revert g. induction a as [|r a IH]; intros g; cbn [graph_add app]; [done|].
  destruct (add_edge (er_from r) (er_to r) (er_rel r) g); [apply IH | done].
Qed.

Lemma replay_edges_frames (log : list EdgeRecord) (g g' : AdjacencyGraph) (fuel : nat) :
  Forall record_ok log -> graph_add log g = Some g' -> (length log < fuel)%nat ->
  replay_edges fuel (frames log) g = Some (Ok g').
Proof.
  revert g fuel. induction log as [|r log IH]; intros g [|fuel] Hok Hg Hf; simpl in Hf; try lia; cbn [replay_edges].
  - injection Hg as <-. done.
  - apply Forall_cons in Hok as [[Hr Hl] Hok]. unfold frames. cbn [map concat]. fold (frames log).
    rewrite read_frame_frame by done. rewrite bc_roundtrip by done. cbn [graph_add] in Hg.
    destruct (add_edge (er_from r) (er_to r) (er_rel r) g) as [g1|]; [|done]. apply IH; [done | done | lia].
Qed.

Lemma frames_longer (log : list EdgeRecord) : (length log <= length (frames log))%nat.
Proof.
  induction log as [|r log IH]; [simpl; lia|]. unfold frames. cbn [map concat]. fold (frames log). rewrite length_app.
  pose proof (zlen_frame (bc_serialize r)) as H. unfold zlen in H. simpl length. lia.
Qed.

Lemma index_reopen (log : list EdgeRecord) (idx : GraphIndex) (file : bytes) (to_column : string) (type_column : option string) :
  index_rep log idx file -> graph_index_open (gi_path idx) (Some file) to_column type_column = Some (file, Ok idx).
Proof.
  intros [Hf Hg Hrep Hok Hto Hty]. unfold graph_index_open. rewrite Hf, read_header_header by done.
  rewrite (replay_edges_frames log graph_new (gi_graph idx)); [by destruct idx | done | done|].
  pose proof (frames_longer log). lia.
Qed.

Lemma index_insert (log : list EdgeRecord) (idx : GraphIndex) (file : bytes) (r : EdgeRecord) :
  index_rep log idx file -> record_ok r -> zlen (g_keys (gi_graph idx)) + 2 < 2 ^ 32 ->
  exists idx' file', graph_index_insert r idx file = Some (idx', file') /\ index_rep (log ++ [r]) idx' file'
    /\ gi_path idx' = gi_path idx.
Proof.
  intros [Hf Hg Hrep Hok Hto Hty] Hr Hl. unfold graph_index_insert.
  destruct (add_edge_rep log (gi_graph idx) r Hrep Hl) as (g & Hadd & Hrep' & _). rewrite Hadd.
  eexists _, _. split; [done|]. split; [|done]. split; cbn [gi_to_column gi_type_column gi_graph]; try done.
  - by rewrite frames_snoc, Hf, <- app_assoc.
  - unfold graph_of in *. rewrite graph_add_app, Hg. cbn [graph_add]. by rewrite Hadd.
  - apply Forall_app. split; [done|]. by constructor.
Qed.

(** *** The stems of the files *)

Fixpoint has_underscore (s : string) : bool :=
  match s with
  | EmptyString => false
  | String c s' => Ascii.eqb c "_" || has_underscore s'
  end.

Lemma split_once_stem (table column : string) :
  has_underscore table = false -> split_once (index_stem table column) = Some (table, column).
Proof.
  unfold index_stem. induction table as [|c table IH]; intros H; [done|]. cbn [has_underscore] in H.
  apply orb_false_iff in H as [Hc H]. simpl. rewrite Hc. by rewrite (IH H).
Qed.

Lemma split_once_no_underscore (s a b : string) : split_once s = Some (a, b) -> has_underscore a = false /\ s = index_stem a b.
Proof.
  unfold index_stem. revert a. induction s as [|c s IH]; intros a; cbn [split_once]; [done|].
  destruct (Ascii.eqb c "_") eqn:E.
  - intros [= <- <-]. apply Ascii.eqb_eq in E as ->. done.
  - destruct (split_once s) as [[a' b']|] eqn:Es; [|done]. intros [= <- <-]. destruct (IH a' eq_refl) as [H ->].
    cbn [has_underscore]. by rewrite E, H.
Qed.

(** *** Opening the files again *)

Definition index_at (idx : gmap string (gmap string GraphIndex)) (table column : string) : option GraphIndex :=
  match idx !! table with Some m => m !! column | None => None end.

Lemma index_at_insert (idx : gmap string (gmap string GraphIndex)) (t c t' c' : string) (g : GraphIndex) :
  index_at (<[t := <[c := g]> (default ∅ (idx !! t))]> idx) t' c'
  = if decide (t' = t /\ c' = c) then Some g else index_at idx t' c'.
Proof.
  unfold index_at. destruct (decide (t' = t)) as [->|Ht].
  - rewrite lookup_insert_eq. destruct (decide (c' = c)) as [->|Hc].
    + by rewrite lookup_insert_eq, decide_True.
    + rewrite lookup_insert_ne by done. rewrite decide_False by tauto.
      destruct (idx !! t); simpl; [done | apply lookup_empty].
  - rewrite lookup_insert_ne by done. by rewrite decide_False by tauto.
Qed.

(** Every file holds an index. *)
Definition files_ok (files : list (string * bytes)) : Prop :=
  forall stem file, (stem, file) ∈ files -> exists log idx, index_rep log idx file /\ gi_path idx = stem.

Lemma reopen_files_spec (files : list (string * bytes)) (idx : gmap string (gmap string GraphIndex)) :
  files_ok files -> NoDup (map fst files) ->
  exists idx', reopen_files files idx = Some idx'
    /\ forall table column,
         (forall file g log, (index_stem table column, file) ∈ files -> has_underscore table = false ->
            index_rep log g file -> gi_path g = index_stem table column -> index_at idx' table column = Some g)
         /\ (has_underscore table = true \/ (index_stem table column ∉ map fst files) ->
            index_at idx' table column = index_at idx table column).
Proof.
  revert idx. induction files as [|[stem file] files IH]; intros idx Hok Hnd; cbn [reopen_files].
  - exists idx. split; [done|]. intros table column. split; [by intros file g log []%elem_of_nil | done].
  - cbn [map] in Hnd. apply NoDup_cons in Hnd as [Hnew Hnd]. cbn [fst] in Hnew.
    assert (files_ok files) as Hok' by (intros st f Hin; apply Hok; by right).
    destruct (split_once stem) as [[t c]|] eqn:Es.
    + destruct (Hok stem file ltac:(left)) as (log & g & Hrep & Hp). 
      pose proof (index_reopen log g file "" None Hrep) as Hopen. rewrite Hp in Hopen. rewrite Hopen.
      destruct (IH (<[t := <[c := g]> (default ∅ (idx !! t))]> idx) Hok' Hnd) as (idx' & -> & Hspec).
      exists idx'. split; [done|]. apply split_once_no_underscore in Es as [Hnu Hst]. intros table column.
      destruct (Hspec table column) as [H1 H2]. split.
      * intros file' g' log' [[= Hs ->]|Hin]%elem_of_cons Hno Hrep' Hp'; [|by eapply H1].
        assert (table = t /\ column = c) as [-> ->].
        { pose proof (split_once_stem table column Hno) as Ha. rewrite Hs, Hst, (split_once_stem t c Hnu) in Ha. by injection Ha. }
        rewrite H2 by (right; by rewrite Hs). rewrite index_at_insert, decide_True by done.
        pose proof (index_reopen log' g' file "" None Hrep') as Hb. rewrite Hp', Hs in Hb. congruence.
      * intros Hcond. rewrite H2.
        -- rewrite index_at_insert, decide_False; [done|]. intros [-> ->].
           destruct Hcond as [?|Hcond]; [congruence|]. apply Hcond. rewrite <- Hst. left.
        -- destruct Hcond as [|Hcond]; [by left|]. right. intros Hin. apply Hcond. by right.
    + destruct (IH idx Hok' Hnd) as (idx' & -> & Hspec). exists idx'. split; [done|]. intros table column.
      destruct (Hspec table column) as [H1 H2]. split.
      * intros file' g' log' [[= Hs ->]|Hin]%elem_of_cons Hno; [|by eauto].
        by rewrite <- Hs, (split_once_stem table column Hno) in Es.
      * intros [|Hcond]; apply H2; [by left|]. right. intros Hin. apply Hcond. by right.
Qed.

(** Every file holds an index, and every open index is that of its file. *)
Record plexus_ok (p : Plexus) : Prop := {
  po_files : files_ok (map_to_list (px_files p));
  po_index : forall table column idx, index_at (px_indexes p) table column = Some idx ->
    gi_path idx = index_stem table column
    /\ exists log file, px_files p !! gi_path idx = Some file /\ index_rep log idx file;
}.

(** Restart. When the database opens again, the index of a table whose
    name has no underscore is the one that was open: its columns, and the graph
    with every vertex and edge. The index of a table whose name has one is
    gone: its file's name is taken apart at the first underscore. *)
Theorem graph_index_restart (p : Plexus) :
  plexus_ok p ->
  exists p', plexus_reopen p = Some p'
    /\ forall table column idx, index_at (px_indexes p) table column = Some idx ->
         index_at (px_indexes p') table column = if has_underscore table then None else Some idx.
Proof.
  intros [Hf Hi]. unfold plexus_reopen.
  destruct (reopen_files_spec (map_to_list (px_files p)) ∅ Hf (NoDup_fst_map_to_list _)) as (idx' & -> & Hspec).
  eexists. split; [done|]. intros table column idx Hidx. cbn [px_indexes].
  destruct (Hi _ _ _ Hidx) as (Hp & log & file & Hfile & Hrep). destruct (Hspec table column) as [H1 H2].
  destruct (has_underscore table) eqn:Hu.
  - rewrite H2 by (by left). unfold index_at. by rewrite lookup_empty.
  - apply (H1 file idx log); [|done|done|done]. apply elem_of_map_to_list. by rewrite <- Hp.
Qed.

(** ** The edges of the rows *)
Section Edges.
  Context {js : Json}.

Definition row_edges (from_idx to_idx : nat) (type_idx : option nat) (rows : list KeyValue) : list EdgeRecord :=
  omap (fun kv => edge_of_row (kv_value kv) from_idx to_idx type_idx) rows.

Lemma backfill_spec (rows : list KeyValue) (f t : nat) (ty : option nat) (log : list EdgeRecord) (idx : GraphIndex) (file : bytes) :
  index_rep log idx file -> Forall record_ok (row_edges f t ty rows) ->
  zlen (g_keys (gi_graph idx)) + 2 * zlen (row_edges f t ty rows) < 2 ^ 32 ->
  exists idx' file', backfill rows f t ty idx file = Some (idx', file') /\ index_rep (log ++ row_edges f t ty rows) idx' file'
    /\ gi_path idx' = gi_path idx.
Proof.
  revert log idx file. induction rows as [|kv rows IH]; intros log idx file Hrep Hok Hl; cbn [backfill].
  - exists idx, file. by rewrite app_nil_r.
  - unfold row_edges in *. cbn [omap list_omap] in *. destruct (edge_of_row (kv_value kv) f t ty) as [r|]; [|by apply IH].
    rewrite zlen_cons in Hl. pose proof (zlen_nonneg (row_edges f t ty rows)) as H0. unfold row_edges in H0.
    apply Forall_cons in Hok as [Hr Hok].
    destruct (index_insert log idx file r Hrep Hr ltac:(lia)) as (idx1 & file1 & Heq & Hrep1 & Hp1). rewrite Heq.
    destruct (IH (log ++ [r]) idx1 file1 Hrep1 Hok) as (idx' & file' & -> & Hrep' & Hp').
    + unfold graph_index_insert in Heq. destruct (add_edge_rep log (gi_graph idx) r (ix_rep _ _ _ Hrep) ltac:(lia)) as (g & Hadd & _ & Hlen).
      rewrite Hadd in Heq. injection Heq as <- _. cbn [gi_graph]. lia.
    + exists idx', file'. rewrite <- app_assoc in Hrep'. split_and!; [done|done|congruence].
Qed.

(** The index of [table] and [column] holds the edges [log]. *)
Definition index_log (p : Plexus) (table column : string) (log : list EdgeRecord) : Prop :=
  exists idx file, index_at (px_indexes p) table column = Some idx /\ gi_path idx = index_stem table column
    /\ px_files p !! index_stem table column = Some file /\ index_rep log idx file.

Lemma set_index_log (p : Plexus) (t c : string) (idx : GraphIndex) (file : bytes) (log : list EdgeRecord) :
  gi_path idx = index_stem t c -> index_rep log idx file ->
  index_log (set_index t c idx (set_file (index_stem t c) file p)) t c log.
Proof.
  intros Hp Hrep. exists idx, file. unfold set_index, set_file. cbn [px_indexes px_files].
  rewrite index_at_insert, decide_True, lookup_insert_eq by done. done.
Qed.

Lemma set_index_other (p : Plexus) (t c t' c' : string) (idx : GraphIndex) (file : bytes) (log : list EdgeRecord) :
  index_stem t' c' <> index_stem t c -> index_log p t' c' log ->
  index_log (set_index t c idx (set_file (index_stem t c) file p)) t' c' log.
Proof.
  intros Hne (idx' & file' & H1 & H2 & H3 & H4). exists idx', file'. unfold set_index, set_file. cbn [px_indexes px_files].
  rewrite index_at_insert, decide_False, lookup_insert_ne by (done || by intros [-> ->]). done.
Qed.

(** Creating an index takes in the edges of the rows. On a table without
    an index file yet, the new index holds one edge for every row that has both
    ends, in the order of the scan, in memory and on disk; the other indexes
    stay as they are. *)
Theorem graph_index_backfills (p : Plexus) (table from_column to_column : string) (type_column : option string)
    (rows : list KeyValue) (columns : list string) (f t : nat) (ty : option nat) :
  px_files p !! index_stem table from_column = None -> px_schemas p !! table = Some columns ->
  column_positions columns from_column to_column type_column = Ok (f, t, ty) ->
  column_ok to_column -> (forall n, type_column = Some n -> column_ok n) ->
  Forall record_ok (row_edges f t ty rows) -> 2 * zlen (row_edges f t ty rows) < 2 ^ 32 ->
  exists p', create_graph_index Writer table from_column to_column type_column (Ok rows) p = Some (p', Ok tt)
    /\ index_log p' table from_column (row_edges f t ty rows)
    /\ forall t' c' log, index_log p t' c' log -> index_log p' t' c' log.
Proof.
  intros Hnone Hs Hc Hto Hty Hok Hl. unfold create_graph_index. rewrite Hnone. cbn [graph_index_open]. cbn [px_schemas set_file].
  rewrite Hs, Hc.
  destruct (backfill_spec rows f t ty [] (mkGraphIndex (index_stem table from_column) to_column type_column graph_new)
    (header to_column type_column)) as (idx & file & -> & Hrep & Hp); [|done|exact Hl|].
  - split; cbn [gi_to_column gi_type_column gi_graph]; try done; [by rewrite app_nil_r | apply graph_rep_new].
  - eexists. split; [done|]. split; [by apply set_index_log|].
    intros t' c' log Hlog. apply set_index_other.
    + intros Heq. destruct Hlog as (_ & file' & _ & _ & H & _). congruence.
    + destruct Hlog as (idx' & file' & H1 & H2 & H3 & H4). exists idx', file'. cbn [px_indexes px_files set_file].
      rewrite lookup_insert_ne by congruence. done.
Qed.

(** The edge that a row adds to the index on [column]. *)
Definition index_edges (columns : list string) (value : bytes) (column : string) (idx : GraphIndex) : list EdgeRecord :=
  match position column columns, position (gi_to_column idx) columns with
  | Some f, Some t =>
      option_list (edge_of_row value f t match gi_type_column idx with Some n => position n columns | None => None end)
  | _, _ => []
  end.

Definition stems_distinct (p : Plexus) : Prop :=
  forall t c t' c', is_Some (index_at (px_indexes p) t c) -> is_Some (index_at (px_indexes p) t' c') ->
    index_stem t c = index_stem t' c' -> t = t' /\ c = c'.

(** Every open index holds a log, with room for more vertices. *)
Definition logs_ok (p : Plexus) : Prop :=
  forall t c idx, index_at (px_indexes p) t c = Some idx ->
    (exists log, index_log p t c log) /\ zlen (g_keys (gi_graph idx)) + 2 < 2 ^ 32.

(** One index: its log grows by the edge of the row, the others stay. *)
Lemma maintain_graph_spec (table : string) (value : bytes) (columns : list string) (c0 : string) (i0 : GraphIndex) (p : Plexus) :
  (exists log, index_log p table c0 log) -> zlen (g_keys (gi_graph i0)) + 2 < 2 ^ 32 ->
  stems_distinct p -> index_at (px_indexes p) table c0 = Some i0 -> Forall record_ok (index_edges columns value c0 i0) ->
  exists p', maintain_graph table value columns c0 i0 p = Some p'
    /\ (forall t c, (t, c) <> (table, c0) -> index_at (px_indexes p') t c = index_at (px_indexes p) t c)
    /\ is_Some (index_at (px_indexes p') table c0)
    /\ (forall t c log, (t, c) <> (table, c0) -> index_log p t c log -> index_log p' t c log)
    /\ (forall log, index_log p table c0 log -> index_log p' table c0 (log ++ index_edges columns value c0 i0)).
Proof.
  intros (log0 & i0' & file0 & H1 & H2 & H3 & H4) Hroom Hst H0. unfold maintain_graph, index_edges.
  assert (forall log, index_log p table c0 log -> index_log p table c0 (log ++ [])) as Hnil by (intros log; by rewrite app_nil_r).
  destruct (position c0 columns) as [f|]; [|intros _; exists p; by split_and!].
  destruct (position (gi_to_column i0) columns) as [t|]; [|intros _; exists p; by split_and!].
  destruct (edge_of_row value f t _) as [r|]; [|intros _; exists p; by split_and!].
  intros [Hr _]%Forall_cons. rewrite H0 in H1. injection H1 as <-. rewrite H2, H3. cbn [default from_option].
  destruct (index_insert log0 i0 file0 r H4 Hr Hroom) as (idx1 & file1 & Heq & _ & Hp1). unfold id. rewrite Heq, Hp1, H2.
  eexists. split; [done|]. split_and!.
  - intros t' c' Hne. unfold set_index, set_file. cbn [px_indexes]. rewrite index_at_insert, decide_False; [done|]. by intros [-> ->].
  - unfold set_index, set_file. cbn [px_indexes]. rewrite index_at_insert, decide_True by done. eauto.
  - intros t' c' log Hne Hlog. apply set_index_other; [|done]. intros Hs. apply Hne.
    destruct Hlog as (ix & fx & K1 & _). destruct (Hst t' c' table c0) as [-> ->]; eauto.
  - intros log (ix & fx & K1 & K2 & K3 & K4). rewrite H0 in K1. injection K1 as <-. rewrite H3 in K3. injection K3 as <-.
    destruct (index_insert log i0 file0 r K4 Hr Hroom) as (idx2 & file2 & Heq2 & Hrep2 & Hp2). rewrite Heq in Heq2. injection Heq2 as <- <-.
    apply set_index_log; [congruence | done].
Qed.

Lemma maintain_graphs_spec (table : string) (value : bytes) (columns : list string) (cols : list (string * GraphIndex)) (p : Plexus) :
  (forall c idx, (c, idx) ∈ cols -> index_at (px_indexes p) table c = Some idx /\ Forall record_ok (index_edges columns value c idx)
     /\ (exists log, index_log p table c log) /\ zlen (g_keys (gi_graph idx)) + 2 < 2 ^ 32) ->
  stems_distinct p -> NoDup (map fst cols) ->
  exists p', maintain_graphs table value columns cols p = Some p'
    /\ (forall t c log, t <> table \/ c ∉ map fst cols -> index_log p t c log -> index_log p' t c log)
    /\ (forall c idx log, (c, idx) ∈ cols -> index_log p table c log -> index_log p' table c (log ++ index_edges columns value c idx)).
Proof.
  revert p. induction cols as [|[c0 i0] cols IH]; intros p Hcols Hst Hnd; cbn [maintain_graphs].
  - exists p. split_and!; [done|done|]. by intros c idx log []%elem_of_nil.
  - cbn [map fst] in Hnd. apply NoDup_cons in Hnd as [Hnew Hnd]. destruct (Hcols c0 i0 ltac:(left)) as (H0 & Hok0 & Hlog0 & Hroom).
    destruct (maintain_graph_spec table value columns c0 i0 p) as (p1 & -> & Hat & Hdom & Hoth & Hself); [done..|].
    assert (forall c idx, (c, idx) ∈ cols -> (table, c) <> (table, c0)) as Hne.
    { intros c idx Hin [= ->]. apply Hnew, list_elem_of_fmap. by exists (c0, idx). }
    destruct (IH p1) as (p' & -> & Hp1 & Hp2); [| |done|].
    + intros c idx Hin. destruct (Hcols c idx ltac:(by right)) as (K1 & K2 & (log & K3) & K4). pose proof (Hne c idx Hin) as Hn.
      split_and!; [by rewrite Hat | done | exists log; by apply Hoth | done].
    + intros t c t' c' Ha Hb. apply Hst; [clear Hb | clear Ha].
      * destruct (decide ((t, c) = (table, c0))) as [[= -> ->]|Hn]; [by exists i0 | by rewrite <- Hat].
      * destruct (decide ((t', c') = (table, c0))) as [[= -> ->]|Hn]; [by exists i0 | by rewrite <- Hat].
    + exists p'. split; [done|]. split.
      * intros t c log Hn Hlog. cbn [map fst] in Hn. rewrite elem_of_cons in Hn. apply Hp1; [tauto|]. apply Hoth; [|done].
        intros [= -> ->]. tauto.
      * intros c idx log [[= -> ->]|Hin]%elem_of_cons Hlog; [apply Hp1; [by right | by apply Hself]|].
        apply Hp2; [done|]. apply Hoth; [by eapply Hne | done].
Qed.

(** Writing a row adds its edge. A row written to a table adds, to every
    graph index of the table, the edge between its two columns when it has
    both, and leaves the indexes of the other tables as they are. *)
Theorem graph_index_follows_writes (p : Plexus) (table : string) (value : bytes) (columns : list string) :
  logs_ok p -> stems_distinct p -> px_schemas p !! table = Some columns ->
  (forall c idx, index_at (px_indexes p) table c = Some idx -> Forall record_ok (index_edges columns value c idx)) ->
  exists p', graph_on_write table value p = Some p'
    /\ (forall t c log, t <> table -> index_log p t c log -> index_log p' t c log)
    /\ (forall c idx log, index_at (px_indexes p) table c = Some idx -> index_log p table c log ->
          index_log p' table c (log ++ index_edges columns value c idx)).
Proof.
  intros Hlogs Hst Hs Hok. unfold graph_on_write. rewrite Hs.
  assert (forall c idx, index_at (px_indexes p) table c = Some idx <-> exists m, px_indexes p !! table = Some m /\ m !! c = Some idx) as Hat.
  { intros c idx. unfold index_at. destruct (px_indexes p !! table) as [m|]; [|naive_solver]. split; [eauto | by intros (m' & [= <-] & ?)]. }
  destruct (px_indexes p !! table) as [m|] eqn:Em.
  - destruct (maintain_graphs_spec table value columns (map_to_list m) p) as (p' & -> & H1 & H2).
    + intros c idx Hin%elem_of_map_to_list. assert (index_at (px_indexes p) table c = Some idx) as Ha by (apply Hat; eauto).
      destruct (Hlogs _ _ _ Ha). split_and!; auto.
    + done.
    + apply NoDup_fst_map_to_list.
    + exists p'. split; [done|]. split; [by auto|]. intros c idx log (m' & [= <-] & Hm)%Hat Hlog.
      apply H2; [by apply elem_of_map_to_list | done].
  - exists p. split_and!; [done|done|]. intros c idx log (m & [=] & _)%Hat.
Qed.
End Edges.

(** A record cut short blocks the index. When a crash leaves the length of
    a record but not all of its bytes at the end of the file, the index does not
    open, although every record before it is intact. *)
Theorem graph_torn_record_blocks_index (log : list EdgeRecord) (idx : GraphIndex) (file encoded : bytes) (m : nat) :
  index_rep log idx file -> zlen encoded < 2 ^ 32 -> (4 <= m < length (frame encoded))%nat ->
  graph_index_open (gi_path idx) (Some (file ++ take m (frame encoded))) "" None
  = Some (file ++ take m (frame encoded), Err "failed to fill whole buffer"%string).
Proof.
  intros [Hf Hg Hrep Hok Hto Hty] Hl Hm. unfold graph_index_open. rewrite Hf, <- app_assoc, read_header_header by done.
  assert (forall (l : list EdgeRecord) (g g' : AdjacencyGraph) (fuel : nat), Forall record_ok l -> graph_add l g = Some g' ->
    (length l < fuel)%nat -> replay_edges fuel (frames l ++ take m (frame encoded)) g = Some (Err "failed to fill whole buffer"%string)) as Hreplay.
  { induction l as [|r l IH]; intros g g' [|fuel] Hl' Hg' Hfuel; simpl in Hfuel; try lia; cbn [replay_edges].
    - change (frames [] ++ take m (frame encoded)) with (take m (frame encoded)). by rewrite read_frame_torn.
    - apply Forall_cons in Hl' as [[Hr Hrl] Hl']. unfold frames. cbn [map concat]. fold (frames l). rewrite <- app_assoc.
      rewrite read_frame_frame by done. rewrite bc_roundtrip by done. cbn [graph_add] in Hg'.
      destruct (add_edge (er_from r) (er_to r) (er_rel r) g) as [g1|]; [|done]. apply (IH g1 g'); [done | done | lia]. }
  rewrite (Hreplay log graph_new (gi_graph idx)); [done | done | done|].
  pose proof (frames_longer log). rewrite length_app. lia.
Qed.
End Reopen.

(** ** Queries by key *)

(** [k] is an end of an edge. *)
Definition is_vertex (log : list EdgeRecord) (k : bytes) : Prop := exists r, r ∈ log /\ (er_from r = k \/ er_to r = k).

Section Queries.
  Context {log : list EdgeRecord} {g : AdjacencyGraph} (Hrep : graph_rep log g).

Lemma rep_vertex (k : bytes) : is_vertex log k <-> exists i, id_of k g = Some i.
Proof.
  pose proof (gr_keys _ _ _ Hrep k) as Hk. split.
  - intros Hv. assert (k ∈ g_keys g) as [i Hi]%list_elem_of_lookup_1 by (apply Hk; by right).
    exists (Z.of_nat i). apply (rep_id_of Hrep). unfold key_of. rewrite Nat2Z.id. split; [lia|done].
  - intros (i & [Hi Hki]%(rep_id_of Hrep)). apply list_elem_of_lookup_2 in Hki. apply Hk in Hki as [[]%elem_of_nil|]. done.
Qed.

(** The two lists agree, one by id and one by key. *)
Definition same_by_key {A : Type} : list (Z * A) -> list (bytes * A) -> Prop :=
  Forall2 (fun p q => 0 <= fst p /\ key_of (fst p) g = Some (fst q) /\ snd p = snd q).

Lemma with_key_all {A : Type} (l : list (Z * A)) :
  Forall (fun p => 0 <= fst p < zlen (g_keys g)) l -> same_by_key l (omap (with_key g) l).
Proof.
  induction 1 as [|[v a] l Hv _ IH]; [constructor|]. destruct (rep_key_of v Hv) as [k Hk]. cbn [omap list_omap].
  unfold with_key at 1. cbn [fst snd]. rewrite Hk. constructor; [|done]. cbn [fst snd] in *. split_and!; [lia|done|done].
Qed.

Lemma same_by_key_elem {A : Type} (l : list (Z * A)) (l' : list (bytes * A)) (k : bytes) (a : A) :
  same_by_key l l' -> (k, a) ∈ l' <-> exists v, 0 <= v /\ key_of v g = Some k /\ (v, a) ∈ l.
Proof.
  intros H. induction H as [|[v b] [k' b'] l l' (Hv & Hk & Hb) _ IH]; cbn [fst snd] in *.
  - split; [by intros []%elem_of_nil | by intros (v & _ & _ & []%elem_of_nil)].
  - subst b'. setoid_rewrite elem_of_cons. rewrite IH. split.
    + intros [[= -> ->]|(v' & H1 & H2 & H3)]; [exists v; auto | exists v'; auto].
    + intros (v' & H1 & H2 & [[= -> ->]|H3]); [left; congruence | right; eauto].
Qed.

Lemma same_by_key_snd {A : Type} (l : list (Z * A)) (l' : list (bytes * A)) : same_by_key l l' -> map snd l' = map snd l.
Proof. induction 1 as [|[v b] [k b'] l l' (_ & _ & Hb) _ IH]; [done|]. simpl in *. congruence. Qed.

Lemma same_by_key_NoDup {A : Type} (l : list (Z * A)) (l' : list (bytes * A)) :
  same_by_key l l' -> NoDup (map fst l) -> NoDup (map fst l').
Proof.
  intros H. induction H as [|[v b] [k b'] l l' (Hv & Hk & _) Hl IH]; [intros _; constructor|]. cbn [map fst] in *. intros [Hn Hnd]%NoDup_cons.
  constructor; [|auto]. intros ([k2 a] & -> & Hin)%list_elem_of_fmap. apply (same_by_key_elem l l' _ _ Hl) in Hin as (v2 & H1 & H2 & H3).
  apply Hn. cbn [fst] in *. rewrite (rep_key_inj Hrep v v2 k2) by done. apply list_elem_of_fmap. by exists (v2, a).
Qed.

(** From a vertex one reaches vertices. *)
Lemma nsteps_vertex (dir : Direction) (n : nat) (v w : Z) :
  0 <= v < zlen (g_keys g) -> nsteps (adj g dir) n v w -> 0 <= w < zlen (g_keys g).
Proof. intros Hv. induction 1 as [|n v u w Huv _ IH]; [done|]. apply IH. apply (rep_adj_range _ _ _ _ _ Hrep Huv). Qed.

Context (p : Plexus) (table column : string) (Hat : graph_at table column p = Some g).

(** Traversal. From a vertex of the graph the traversal ends and lists
    every vertex that the edges reach within the depth, once, with the fewest
    hops to it, nearer ones first; from anything else it answers that there is
    no such vertex. *)
Theorem graph_bfs_lists_distances (start : bytes) (max_depth : nat) (dir : Direction) :
  exists r, graph_bfs table column start max_depth dir p = Some r
    /\ match r with
       | None => ~ is_vertex log start
       | Some out =>
           is_vertex log start /\ NoDup (map fst out) /\ StronglySorted le (map snd out)
           /\ forall k d, (k, d) ∈ out <-> shortest (linked log dir) start k d /\ (d <= max_depth)%nat
       end.
Proof.
  unfold graph_bfs. rewrite Hat. destruct (id_of start g) as [s|] eqn:Es.
  - destruct (bfs_traverse_spec log g s max_depth dir Hrep) as (out & -> & Hout & Hnd & Hss). cbn [option_map].
    eexists. split; [done|]. pose proof Es as [Hs0 Hsk]%(rep_id_of Hrep).
    assert (0 <= s < zlen (g_keys g)) as Hs by (split; [done | by eapply key_of_range]).
    assert (same_by_key out (omap (with_key g) out)) as Hsame.
    { apply with_key_all, Forall_forall. intros [v d] [[Hn _] _]%Hout. cbn [fst]. by eapply nsteps_vertex. }
    split_and!.
    + apply rep_vertex. eauto.
    + by eapply same_by_key_NoDup.
    + by rewrite (same_by_key_snd _ _ Hsame).
    + intros k d. rewrite (same_by_key_elem _ _ k d Hsame). split.
      * intros (v & Hv & Hk & [Hsh Hd]%Hout). split; [|done]. by apply (shortest_linked Hrep dir s v start k d).
      * intros [Hsh Hd].
        assert (exists v, 0 <= v /\ key_of v g = Some k) as (v & Hv & Hk).
        { destruct d as [|d]; [destruct Hsh as [Hn _]; inversion Hn; subst; by exists s|].
          destruct Hsh as [(u & _ & Hu%linked_vertex)%nsteps_inv_r _]. apply rep_vertex in Hu as (v & Hv%(rep_id_of Hrep)). by exists v. }
        exists v. split_and!; [done|done|]. apply Hout. split; [|done]. by apply (shortest_linked Hrep dir s v start k d).
  - exists None. split; [done|]. intros (i & Hi)%rep_vertex. congruence.
Qed.

(** A path by id and the same one by key. *)
Lemma path_keys (dir : Direction) (path : list Z) (x : Z) :
  head path = Some x -> 0 <= x < zlen (g_keys g) ->
  (forall i u v, path !! i = Some u -> path !! S i = Some v -> adj g dir u v) ->
  length (omap (fun id => key_of id g) path) = length path
  /\ forall i v, path !! i = Some v -> exists k, 0 <= v /\ key_of v g = Some k /\ omap (fun id => key_of id g) path !! i = Some k.
Proof.
  revert x. induction path as [|z path IH]; intros x Hh Hx Hw; [done|]. injection Hh as ->.
  destruct (rep_key_of x Hx) as [k Hk]. cbn [omap list_omap]. rewrite Hk. destruct path as [|z2 path].
  - split; [done|]. intros [|i] v Hi; [injection Hi as <-; exists k; split_and!; [lia|done|done] | done].
  - pose proof (rep_adj_range _ _ _ _ _ Hrep (Hw 0%nat x z2 eq_refl eq_refl)) as Hr.
    destruct (IH z2 eq_refl Hr (fun i => Hw (S i))) as [Hl Hi]. split; [simpl in *; congruence|].
    intros [|i] v Hv; [injection Hv as <-; exists k; split_and!; [lia|done|done] | by apply Hi].
Qed.

Lemma keys_of_path (dir : Direction) (path : list Z) (x y : Z) (a b : bytes) :
  0 <= x -> key_of x g = Some a -> key_of y g = Some b -> walk_of (adj g dir) path x y ->
  walk_of (linked log dir) (omap (fun id => key_of id g) path) a b /\ length (omap (fun id => key_of id g) path) = length path.
Proof.
  intros Hx0 Hx Hy (Hh & Hl & Hw).
  destruct (path_keys dir path x Hh (conj Hx0 (key_of_range x a Hx0 Hx)) Hw) as [HL Hkeys].
  split; [|done]. split_and!.
  - assert (path !! 0%nat = Some x) as H0 by (by rewrite <- head_lookup). rewrite head_lookup.
    destruct (Hkeys 0%nat x H0) as (k & _ & Hk & ->). congruence.
  - assert (path !! pred (length path) = Some y) as Hy' by (by rewrite <- last_lookup). rewrite last_lookup, HL. clear Hl. rename Hy' into Hl. destruct (Hkeys _ _ Hl) as (k & _ & Hk & ->). congruence.
  - intros i k k' Hi Hi'. assert (S i < length path)%nat as Hlt by (apply lookup_lt_Some in Hi'; lia).
    destruct (lookup_lt_is_Some_2 path i) as [u Hu]; [lia|]. destruct (lookup_lt_is_Some_2 path (S i) Hlt) as [v Hv].
    destruct (Hkeys _ _ Hu) as (ku & Hu0 & Hku & Hiu). destruct (Hkeys _ _ Hv) as (kv & Hv0 & Hkv & Hiv).
    assert (ku = k) as -> by congruence. assert (kv = k') as -> by congruence.
    destruct (proj1 (adj_linked Hrep dir u v k Hku) (Hw i u v Hu Hv)) as (_ & k2 & Hk2 & Hl2). congruence.
Qed.

(** Shortest path. Between two vertices the search ends; the path it
    finds leads along edges from one to the other and no path is shorter; when
    it finds none there is none. *)
Theorem graph_shortest_path_is_shortest (start end_ : bytes) (dir : Direction) :
  exists r, graph_shortest_path table column start end_ dir p = Some r
    /\ match r with
       | None => ~ (is_vertex log start /\ is_vertex log end_)
       | Some None => forall path, ~ walk_of (linked log dir) path start end_
       | Some (Some path) =>
           walk_of (linked log dir) path start end_
           /\ forall path', walk_of (linked log dir) path' start end_ -> (length path <= length path')%nat
       end.
Proof.
  unfold graph_shortest_path. rewrite Hat. destruct (id_of start g) as [s|] eqn:Es.
  2: { exists None. split; [done|]. intros [(i & Hi)%rep_vertex _]. congruence. }
  destruct (id_of end_ g) as [e|] eqn:Ee.
  2: { exists None. split; [done|]. intros [_ (i & Hi)%rep_vertex]. congruence. }
  apply (rep_id_of Hrep) in Es as [Hs0 Hs], Ee as [He0 He].
  assert (forall path, walk_of (linked log dir) path start end_ -> exists n, length path = S n /\ nsteps (adj g dir) n s e) as Hwalks.
  { intros path (n & Hn & Hst)%walk_of_nsteps. exists n. split; [done|]. apply (nsteps_linked Hrep dir n s e start Hs0 Hs). eauto. }
  destruct (shortest_path_spec log g s e dir Hrep) as ([path|] & -> & Hr); cbn [option_map]; eexists; (split; [done|]).
  - destruct Hr as [Hw [Hn Hmin]]. destruct (keys_of_path dir path s e start end_ Hs0 Hs He Hw) as [Hk Hlen]. split; [done|].
    intros path' (n & Hln & Hst)%Hwalks. apply Hmin in Hst. rewrite Hlen. lia.
  - intros path (n & _ & Hst)%Hwalks. by apply (Hr n).
Qed.

(** ** Values per vertex *)

Lemma by_vertex_spec (values : list Z) :
  length values = vertex_count g ->
  exists out, by_vertex g values = Some out /\ NoDup (map fst out)
    /\ forall k c, (k, c) ∈ out <-> exists v, 0 <= v /\ key_of v g = Some k /\ values !! Z.to_nat v = Some c.
Proof.
  intros Hl. unfold by_vertex. rewrite (rep_vertex_ids Hrep).
  assert (exists l, mapM (fun id => (fun c => (id, c)) <$> values !! Z.to_nat id) (seqZ 0 (zlen (g_keys g))) = Some l
    /\ map fst l = seqZ 0 (zlen (g_keys g)) /\ forall v c, (v, c) ∈ l <-> v ∈ seqZ 0 (zlen (g_keys g)) /\ values !! Z.to_nat v = Some c) as (l & -> & Hf & Hm).
  { assert (forall v, v ∈ seqZ 0 (zlen (g_keys g)) -> exists c, values !! Z.to_nat v = Some c) as Hin.
    { intros v Hv%elem_of_seqZ. apply lookup_lt_is_Some. unfold zlen, vertex_count in *. lia. }
    revert Hin. generalize (seqZ 0 (zlen (g_keys g))) as vs. induction vs as [|v vs IH]; intros Hin.
    - exists []. split_and!; [done|done|]. intros v c. rewrite !elem_of_nil. tauto.
    - destruct (Hin v ltac:(left)) as [c Hc]. destruct IH as (l & Hl' & Hf & Hm); [intros w Hw; apply Hin; by right|].
      exists ((v, c) :: l). cbn [mapM]. rewrite Hc. cbn [fmap option_fmap option_map]. rewrite Hl'. split_and!; [done | simpl; by rewrite Hf|].
      intros w d. rewrite !elem_of_cons, Hm. split.
      + intros [[= -> ->]|[? ?]]; auto.
      + intros [[->|?] ?]; [left; congruence | auto]. }
  cbn [option_map]. eexists. split; [done|].
  assert (same_by_key l (omap (with_key g) l)) as Hsame.
  { apply with_key_all, Forall_forall. intros [v c] [Hv%elem_of_seqZ _]%Hm. simpl. lia. }
  split; [eapply same_by_key_NoDup; [done|]; rewrite Hf; apply NoDup_seqZ|].
  intros k c. rewrite (same_by_key_elem _ _ k c Hsame). split.
  - intros (v & H1 & H2 & [_ H3]%Hm). eauto.
  - intros (v & H1 & H2 & H3). exists v. split_and!; [done|done|]. apply Hm. split; [|done].
    apply elem_of_seqZ. pose proof (key_of_range v k H1 H2). lia.
Qed.

(** ... and every vertex is among them. *)
Lemma by_vertex_all (values : list Z) (out : list (bytes * Z)) :
  length values = vertex_count g ->
  (forall k c, (k, c) ∈ out <-> exists v, 0 <= v /\ key_of v g = Some k /\ values !! Z.to_nat v = Some c) ->
  forall k, (exists c, (k, c) ∈ out) <-> is_vertex log k.
Proof.
  intros Hl Hout k. rewrite rep_vertex. split.
  - intros (c & (v & Hv & Hk & _)%Hout). exists v. by apply (rep_id_of Hrep).
  - intros (v & [Hv Hk]%(rep_id_of Hrep)). destruct (vertex_lookup values v Hl) as [c Hvc].
    + split; [done | by eapply key_of_range].
    + exists c. apply Hout. eauto.
Qed.

(** Components. Every vertex gets one component, and two vertices get
    the same one when, and only when, edges connect them, whatever their
    direction. *)
Theorem graph_components_are_connectivity :
  exists out, graph_connected_components table column p = Some (Some out)
    /\ NoDup (map fst out) /\ (forall k, (exists c, (k, c) ∈ out) <-> is_vertex log k)
    /\ forall a b ca cb, (a, ca) ∈ out -> (b, cb) ∈ out -> (ca = cb <-> rtc (linked log Direction_Both) a b).
Proof.
  unfold graph_connected_components. rewrite Hat.
  destruct (connected_components_spec Hrep) as (comp & -> & Hl & Hc).
  destruct (by_vertex_spec comp Hl) as (out & -> & Hnd & Hout). exists out.
  split_and!; [done|done|by apply (by_vertex_all comp)|].
  intros a b ca cb (v & Hv & Hka & Hva)%Hout (w & Hw & Hkb & Hwb)%Hout.
  rewrite <- (inj_iff Some), <- Hva, <- Hwb, Hc by (split; [done | by eapply key_of_range]).
  rewrite !rtc_nsteps. unfold touching. split.
  - intros (n & (_ & b' & Hb' & Hn)%(nsteps_linked Hrep _ _ _ _ a Hv Hka)). exists n. congruence.
  - intros (n & Hn). exists n. apply (nsteps_linked Hrep _ _ _ _ a Hv Hka). eauto.
Qed.

(** Triangles. Every vertex gets one count, and it is the number of triples of
    vertices, pairwise adjacent, that it is one of. *)
Theorem graph_triangles_are_counted :
  exists ts out, graph_triangle_count table column p = Some (Some out)
    /\ NoDup ts /\ (forall t, t ∈ ts <-> is_triangle (g := g) t)
    /\ NoDup (map fst out) /\ (forall k, (exists c, (k, c) ∈ out) <-> is_vertex log k)
    /\ forall k c, (k, c) ∈ out -> exists v, key_of v g = Some k /\ c = zlen (filter (on_triple v) ts) mod 2 ^ 64.
Proof.
  unfold graph_triangle_count. rewrite Hat.
  destruct (triangle_count_spec Hrep) as (ts & counts & total & -> & Hnd & Hts & _ & Hl & Hc).
  destruct (by_vertex_spec counts Hl) as (out & -> & Hnd' & Hout). exists ts, out.
  split_and!; [done|done|done|done|by apply (by_vertex_all counts)|].
  intros k c (v & Hv & Hk & Hvc)%Hout. exists v. split; [done|]. apply Hc; [|done]. split; [done | by eapply key_of_range].
Qed.

(** ** MATCH *)

Lemma with_key_known (l : list (Z * option string)) (l' : list (bytes * option string)) :
  map (fun q => (key_of (fst q) g, snd q)) l = known l' -> omap (with_key g) l = l'.
Proof.
  revert l'. induction l as [|[v r] l IH]; intros [|[k r'] l']; try done. unfold known. cbn [map fst snd].
  intros [= Hk -> Hl]. cbn [omap list_omap]. unfold with_key at 1. cbn [fst snd]. rewrite Hk. by rewrite (IH l' Hl).
Qed.

Lemma neighbors_or_nothing (k : bytes) (dir : Direction) :
  default [] (graph_neighbors table column k dir p) = ends k dir log.
Proof.
  unfold graph_neighbors. rewrite Hat. destruct (id_of k g) as [i|] eqn:E.
  - apply (rep_id_of Hrep) in E as [_ Hk]. simpl. apply with_key_known. exact (rep_neighbors log g i k dir Hrep Hk).
  - destruct (ends_none k log) as [Hf Ht].
    { intros (i & Hi)%rep_vertex. congruence. }
    destruct dir; cbn [ends default from_option]; by rewrite ?Hf, ?Ht.
Qed.

(** The hop leads from [a] to [b]: an edge of its direction and type. *)
Definition hop_ok (hop : MatchHop) (a b : bytes) : Prop :=
  exists rel, (b, rel) ∈ ends a (to_graph_direction (mh_direction hop)) log /\ rel_fits (mh_rel_type hop) rel = true.

Lemma extend_path_spec (hop : MatchHop) (path path' : list bytes) :
  path' ∈ extend_path table column hop p path <-> exists a b, last path = Some a /\ path' = path ++ [b] /\ hop_ok hop a b.
Proof.
  unfold extend_path. destruct (last path) as [a|]; [|split; [by intros []%elem_of_nil | by intros (a & b & [=] & _)]].
  pose proof (neighbors_or_nothing a (to_graph_direction (mh_direction hop))) as Hn.
  assert (path' ∈ map (fun n => path ++ [fst n]) (List.filter (fun n => rel_fits (mh_rel_type hop) (snd n))
    (ends a (to_graph_direction (mh_direction hop)) log)) <-> exists a' b, Some a = Some a' /\ path' = path ++ [b] /\ hop_ok hop a' b) as H.
  { rewrite list_elem_of_fmap. split.
    - intros ([b rel] & -> & Hin). apply list_elem_of_In, filter_In in Hin as [Hin%list_elem_of_In Hf]. exists a, b. split_and!; [done|done|]. by exists rel.
    - intros (a' & b & [= <-] & -> & rel & Hin & Hf). exists (b, rel). split; [done|]. apply list_elem_of_In, filter_In. by rewrite <- list_elem_of_In. }
  destruct (graph_neighbors _ _ _ _ _) as [ns|]; cbn [default from_option] in Hn; [unfold id in Hn; by rewrite Hn|].
  rewrite <- Hn in H. exact H.
Qed.

(** One vertex a node, one edge a hop. *)
Definition fits_hops (hops : list MatchHop) (path : list bytes) : Prop :=
  length path = S (length hops)
  /\ forall i hop a b, hops !! i = Some hop -> path !! i = Some a -> path !! S i = Some b -> hop_ok hop a b.

Lemma fits_snoc (hops : list MatchHop) (hop : MatchHop) (path' : list bytes) :
  fits_hops (hops ++ [hop]) path' <->
  exists path a b, fits_hops hops path /\ last path = Some a /\ path' = path ++ [b] /\ hop_ok hop a b.
Proof.
  split.
  - intros [Hl Hs]. rewrite length_app in Hl. simpl in Hl. destruct path' as [|b path _] using rev_ind; [simpl in Hl; lia|].
    rewrite length_app in Hl. simpl in Hl. destruct (lookup_lt_is_Some_2 path (length hops)) as [a Ha]; [lia|].
    exists path, a, b. split_and!; [|rewrite last_lookup; by replace (pred (length path)) with (length hops) by lia|done|].
    + split; [lia|]. intros i h x y Hi Hx Hy. apply (Hs i); by apply lookup_app_l_Some.
    + apply (Hs (length hops)); [by apply list_lookup_middle | by apply lookup_app_l_Some|]. apply list_lookup_middle. lia.
  - intros (path & a & b & [Hl Hs] & Ha & -> & Hh). split; [rewrite !length_app; simpl; lia|].
    intros i h x y Hi Hx Hy. apply lookup_app_Some in Hi as [Hi|[Hge Hi]].
    + pose proof (lookup_lt_Some _ _ _ Hi). rewrite lookup_app_l in Hx, Hy by lia. by apply (Hs i).
    + apply list_lookup_singleton_Some in Hi as [Hz <-]. rewrite lookup_app_l in Hx by lia. rewrite lookup_app_r in Hy by lia.
      apply list_lookup_singleton_Some in Hy as [_ <-]. rewrite last_lookup in Ha.
      replace (pred (length path)) with i in Ha by lia. congruence.
Qed.

Lemma hops_spec (hops : list MatchHop) (starts : list bytes) (path : list bytes) :
  path ∈ fold_left (fun paths hop => concat (map (extend_path table column hop p) paths)) hops (map (fun v => [v]) starts)
  <-> (exists v, v ∈ starts /\ head path = Some v) /\ fits_hops hops path.
Proof.
  revert path. induction hops as [|hop hops IH] using rev_ind; intros path.
  - cbn [fold_left]. rewrite list_elem_of_fmap. split.
    + intros (v & -> & Hv). split; [by exists v|]. by split.
    + intros [(v & Hv & Hh) [Hl _]]. destruct path as [|x [|y path]]; try done. injection Hh as ->. by exists v.
  - rewrite fold_left_app. cbn [fold_left]. rewrite list_elem_of_In, in_concat. setoid_rewrite <- list_elem_of_In. rewrite fits_snoc. split.
    + intros (l & (path0 & -> & [(v & Hv & Hh) Hf]%IH)%list_elem_of_fmap & (a & b & Ha & -> & Hok)%extend_path_spec).
      split; [exists v; split; [done|]; by destruct path0 | by exists path0, a, b].
    + intros [(v & Hv & Hh) (path0 & a & b & Hf & Ha & -> & Hok)].
      exists (extend_path table column hop p path0). split; [|apply extend_path_spec; eauto].
      apply list_elem_of_fmap. exists path0. split; [done|]. apply IH. split; [exists v; split; [done|]; by destruct path0 | done].
Qed.

(** MATCH finds the walks that fit its pattern. Without a limit its paths
    are exactly those with a vertex for each node and, from each to the next,
    an edge of the hop's direction and type, that begin at the vertex of the
    filter, or at any vertex without one; with a limit they are the first ones. *)
Theorem match_finds_fitting_walks (m : MatchStmt) :
  ma_table m = table -> ma_column m = column -> ma_limit m = None ->
  (forall path, path ∈ match_paths m p <->
     fits_hops (ma_hops m) path
     /\ match ma_start_filter m with
        | Some lit => head path = Some (as_bytes lit)
        | None => exists v, head path = Some v /\ is_vertex log v
        end)
  /\ forall n, match_paths (mkMatchStmt (ma_nodes m) (ma_hops m) (ma_table m) (ma_column m) (ma_start_filter m) (ma_returns m) (Some n)) p
       = take (Z.to_nat n) (match_paths m p).
Proof.
  intros Ht Hc Hlim. unfold match_paths. cbn [ma_table ma_column ma_hops ma_limit ma_start_filter]. rewrite Ht, Hc, Hlim. split; [|done].
  intros path. rewrite hops_spec. destruct (ma_start_filter m) as [lit|].
  - split; [intros [(v & ->%list_elem_of_singleton & Hh) Hf]; done | intros [Hf Hh]; split; [|done]; exists (as_bytes lit); split; [left|done]].
  - assert (forall v, v ∈ default [] (graph_all_vertices table column p) <-> is_vertex log v) as Hall.
    { intros v. unfold graph_all_vertices. rewrite Hat. cbn [fmap option_fmap option_map default from_option]. unfold id.
      rewrite list_elem_of_omap, (rep_vertex_ids Hrep), rep_vertex. split.
      - intros (i & Hi%elem_of_seqZ & Hk). exists i. apply (rep_id_of Hrep). split; [lia | done].
      - intros (i & [Hi Hk]%(rep_id_of Hrep)). exists i. split; [|done]. apply elem_of_seqZ. pose proof (key_of_range i v Hi Hk). lia. }
    split; [intros [(v & Hv%Hall & Hh) Hf]; eauto | intros [Hf (v & Hh & Hv%Hall)]; eauto].
Qed.
End Queries.

(** ** A table of edges *)
Section Demo.

#[local] Instance demo_bincode_edge : Bincode EdgeRecord := {|
  bc_serialize r :=
    u32_to_be (zlen (er_from r)) ++ er_from r ++ u32_to_be (zlen (er_to r)) ++ er_to r
    ++ match er_rel r with None => [Byte.x00] | Some s => Byte.x01 :: list_byte_of_string s end;
  bc_deserialize bs :=
    let n := Z.to_nat (from_be (take 4 bs)) in
    let from := take n (drop 4 bs) in
    let bs := drop n (drop 4 bs) in
    let m := Z.to_nat (from_be (take 4 bs)) in
    let to := take m (drop 4 bs) in
    match drop m (drop 4 bs) with
    | [] => None
    | tag :: s => Some (mkEdgeRecord from to (if byte_eqb tag Byte.x00 then None else Some (string_of_list_byte s)))
    end;
|}.

#[local] Program Instance demo_bincode_edge_laws : BincodeLaws EdgeRecord := {|
  bc_in_range r := is_u32 (zlen (er_from r)) /\ is_u32 (zlen (er_to r));
|}.
Next Obligation.
  intros [from to rel] [Hf Ht]. unfold bc_deserialize, bc_serialize, demo_bincode_edge. cbn [er_from er_to er_rel] in *.
  assert (forall z, length (u32_to_be z) = 4%nat) as H4 by (intros z; apply length_to_be).
  rewrite (take_app_length' _ _ 4), (drop_app_length' _ _ 4) by by rewrite H4.
  rewrite from_u32_to_be by done. rewrite take_zlen_app, drop_zlen_app.
  rewrite (take_app_length' _ _ 4), (drop_app_length' _ _ 4) by by rewrite H4.
  rewrite from_u32_to_be by done. rewrite take_zlen_app, drop_zlen_app.
  destruct rel as [s|]; [|done]. cbn [byte_eqb]. by rewrite string_of_list_byte_of_string.
Qed.

(** Columns that hold no JSON. *)
#[local] Instance no_json : Json := {| json_parse _ := None; json_print _ := [] |}.

Definition vk (c : byte) : bytes := [c].
Definition edge_row (from to : byte) : bytes := encode_cells [Some (vk from); Some (vk to)].
Definition edge (from to : byte) : EdgeRecord := mkEdgeRecord (vk from) (vk to) None.

(** a -> b -> c, and a -> c *)
Definition demo_rows : list KeyValue :=
  [mkKeyValue [Byte.x01] (edge_row Byte.x61 Byte.x62); mkKeyValue [Byte.x02] (edge_row Byte.x62 Byte.x63);
   mkKeyValue [Byte.x03] (edge_row Byte.x61 Byte.x63)].
Definition demo_log : list EdgeRecord := [edge Byte.x61 Byte.x62; edge Byte.x62 Byte.x63; edge Byte.x61 Byte.x63].

Definition demo_plexus (table : string) : Plexus := mkPlexus {[table := ["src"; "dst"]%string]} ∅ ∅.

Definition created (table : string) : option (Plexus * Result unit) :=
  create_graph_index Writer table "src" "dst" None (Ok demo_rows) (demo_plexus table).

Definition demo_p : Plexus := match created "t" with Some (p, _) => p | None => demo_plexus "t" end.
Definition demo_g : AdjacencyGraph := default graph_new (graph_of demo_log).

Lemma demo_records_ok : Forall record_ok demo_log.
Proof. repeat constructor; unfold is_u32, zlen; simpl; lia. Qed.

Lemma demo_dst_ok : column_ok "dst".
Proof. split; [reflexivity | unfold zlen; simpl; lia]. Qed.

Lemma demo_rep : graph_rep demo_log demo_g.
Proof.
  destruct (graph_of_rep demo_log) as (g & Hg & Hrep); [unfold zlen; simpl; lia|]. unfold demo_g. rewrite Hg. exact Hrep.
Qed.

Lemma demo_at : graph_at "t" "src" demo_p = Some demo_g.
Proof. vm_compute. reflexivity. Qed.

Lemma graph_index_backfills_witness : exists p, created "t" = Some (p, Ok tt) /\ index_log p "t" "src" demo_log.
Proof.
  destruct (graph_index_backfills (demo_plexus "t") "t" "src" "dst" None demo_rows ["src"; "dst"]%string 0 1 None)
    as (p & Hp & Hlog & _); [reflexivity | reflexivity | reflexivity | exact demo_dst_ok | done | exact demo_records_ok | reflexivity|].
  exists p. split; [exact Hp | exact Hlog].
Defined.

Lemma demo_index : index_rep demo_log (mkGraphIndex "t_src" "dst" None demo_g) (header "dst" None ++ frames demo_log).
Proof. split; [done | vm_compute; reflexivity | exact demo_rep | exact demo_records_ok | exact demo_dst_ok | done]. Qed.

Lemma demo_index_log : index_log demo_p "t" "src" demo_log.
Proof.
  exists (mkGraphIndex "t_src" "dst" None demo_g), (header "dst" None ++ frames demo_log).
  split_and!; [vm_compute; reflexivity | done | vm_compute; reflexivity | exact demo_index].
Qed.

Lemma demo_only_index (t c : string) (idx : GraphIndex) :
  index_at (px_indexes demo_p) t c = Some idx -> t = "t"%string /\ c = "src"%string /\ idx = mkGraphIndex "t_src" "dst" None demo_g.
Proof.
  assert (px_indexes demo_p = {["t"%string := {["src"%string := mkGraphIndex "t_src" "dst" None demo_g]}]}) as -> by (vm_compute; reflexivity).
  unfold index_at. destruct (decide (t = "t"%string)) as [->|]; [|by rewrite lookup_singleton_ne].
  rewrite lookup_singleton_eq. intros [<- <-]%lookup_singleton_Some. done.
Qed.

Lemma graph_index_restart_witness :
  exists p', plexus_reopen demo_p = Some p' /\ index_at (px_indexes p') "t" "src" = Some (mkGraphIndex "t_src" "dst" None demo_g).
Proof.
  destruct (graph_index_restart demo_p) as (p' & Hp' & Hsame).
  - split.
    + intros stem file Hin. assert (map_to_list (px_files demo_p) = [("t_src"%string, header "dst" None ++ frames demo_log)]) as Hl
        by (vm_compute; reflexivity).
      rewrite Hl in Hin. apply list_elem_of_singleton in Hin as [= -> ->].
      exists demo_log, (mkGraphIndex "t_src" "dst" None demo_g). split; [exact demo_index | done].
    + intros t c idx (-> & -> & ->)%demo_only_index. split; [done|]. exists demo_log, (header "dst" None ++ frames demo_log).
      split; [vm_compute; reflexivity | exact demo_index].
  - exists p'. split; [exact Hp'|]. rewrite (Hsame "t"%string "src"%string (mkGraphIndex "t_src" "dst" None demo_g)); [done|].
    vm_compute. reflexivity.
Defined.

Lemma graph_index_follows_writes_witness :
  exists p', graph_on_write "t" (edge_row Byte.x63 Byte.x64) demo_p = Some p'
    /\ index_log p' "t" "src" (demo_log ++ [edge Byte.x63 Byte.x64]).
Proof.
  destruct (graph_index_follows_writes demo_p "t" (edge_row Byte.x63 Byte.x64) ["src"; "dst"]%string) as (p' & Hp' & _ & Hlog).
  - intros t c idx (-> & -> & ->)%demo_only_index. split; [exists demo_log; exact demo_index_log | vm_compute; reflexivity].
  - intros t c t' c' [i (-> & -> & _)%demo_only_index] [i' (-> & -> & _)%demo_only_index]. done.
  - reflexivity.
  - intros c idx (_ & -> & ->)%demo_only_index. repeat constructor; unfold is_u32, zlen; simpl; lia.
  - exists p'. split; [exact Hp'|].
    apply (Hlog "src"%string (mkGraphIndex "t_src" "dst" None demo_g) demo_log); [vm_compute; reflexivity | exact demo_index_log].
Defined.

Lemma graph_torn_record_blocks_index_witness :
  graph_index_open "t_src" (Some ((header "dst" None ++ frames demo_log) ++ take 6 (frame [Byte.x01; Byte.x02; Byte.x03]))) "" None
  = Some ((header "dst" None ++ frames demo_log) ++ take 6 (frame [Byte.x01; Byte.x02; Byte.x03]), Err "failed to fill whole buffer"%string).
Proof.
  apply (graph_torn_record_blocks_index demo_log (mkGraphIndex "t_src" "dst" None demo_g)); [exact demo_index | reflexivity | simpl; lia].
Defined.

Lemma graph_bfs_lists_distances_witness :
  graph_bfs "t" "src" (vk Byte.x61) 5 Direction_Out demo_p
    = Some (Some [(vk Byte.x61, 0%nat); (vk Byte.x62, 1%nat); (vk Byte.x63, 1%nat)])
  /\ shortest (linked demo_log Direction_Out) (vk Byte.x61) (vk Byte.x63) 1.
Proof.
  destruct (graph_bfs_lists_distances demo_rep demo_p "t" "src" demo_at (vk Byte.x61) 5 Direction_Out) as (r & Hr & Hspec).
  assert (graph_bfs "t" "src" (vk Byte.x61) 5 Direction_Out demo_p
    = Some (Some [(vk Byte.x61, 0%nat); (vk Byte.x62, 1%nat); (vk Byte.x63, 1%nat)])) as Hv by (vm_compute; reflexivity).
  split; [exact Hv|]. rewrite Hv in Hr. injection Hr as <-. destruct Hspec as (_ & _ & _ & Hout).
  apply (Hout (vk Byte.x63) 1%nat). right. right. left.
Defined.

Lemma graph_shortest_path_is_shortest_witness :
  walk_of (linked demo_log Direction_Out) [vk Byte.x61; vk Byte.x63] (vk Byte.x61) (vk Byte.x63).
Proof.
  destruct (graph_shortest_path_is_shortest demo_rep demo_p "t" "src" demo_at (vk Byte.x61) (vk Byte.x63) Direction_Out) as (r & Hr & Hspec).
  assert (graph_shortest_path "t" "src" (vk Byte.x61) (vk Byte.x63) Direction_Out demo_p
    = Some (Some (Some [vk Byte.x61; vk Byte.x63]))) as Hv by (vm_compute; reflexivity).
  rewrite Hv in Hr. injection Hr as <-. apply Hspec.
Defined.

Lemma graph_components_are_connectivity_witness :
  exists out, graph_connected_components "t" "src" demo_p = Some (Some out) /\ NoDup (map fst out).
Proof.
  destruct (graph_components_are_connectivity demo_rep demo_p "t" "src" demo_at) as (out & Ho & Hnd & _). exists out. split; [exact Ho | exact Hnd].
Defined.

Lemma graph_triangles_are_counted_witness :
  graph_triangle_count "t" "src" demo_p = Some (Some [(vk Byte.x61, 1); (vk Byte.x62, 1); (vk Byte.x63, 1)])
  /\ exists ts : list triple, NoDup ts /\ forall t, t ∈ ts <-> is_triangle (g := demo_g) t.
Proof.
  split; [vm_compute; reflexivity|].
  destruct (graph_triangles_are_counted demo_rep demo_p "t" "src" demo_at) as (ts & out & _ & Hnd & Hts & _). exists ts. split; [exact Hnd | exact Hts].
Defined.

(** [MATCH (x)-[]->(y)-[]->(z) ON t(src) WHERE x = 'a' RETURN x, z] *)
Definition demo_match : MatchStmt :=
  mkMatchStmt ["x"; "y"; "z"]%string [mkMatchHop None MatchDirection_Out; mkMatchHop None MatchDirection_Out] "t" "src"
    (Some "a"%string) ["x"; "z"]%string None.

Lemma match_finds_fitting_walks_witness :
  execute_match demo_match demo_p = Some (Ok [[vk Byte.x61; vk Byte.x63]])
  /\ fits_hops (log := demo_log) (ma_hops demo_match) [vk Byte.x61; vk Byte.x62; vk Byte.x63].
Proof.
  split; [vm_compute; reflexivity|].
  destruct (match_finds_fitting_walks demo_rep demo_p "t" "src" demo_at demo_match) as [Hm _]; [reflexivity..|].
  apply (Hm [vk Byte.x61; vk Byte.x62; vk Byte.x63]). vm_compute. left.
Defined.

#[local] Existing Instance demo_sha.

(** The graph indexes as what a written row updates. *)
Definition graph_indexing (table : string) (key value : bytes) (p : Plexus) : Plexus * Result unit :=
  match graph_on_write table value p with Some p => (p, Ok tt) | None => (p, Err "panic"%string) end.

Abbreviation graph_db := (@Database list_skipmap demo_bloom LocalFs Plexus).
Definition graph_d0 : graph_db := mkDatabase Writer (fresh_engine (mkLocalFs ∅ []) true 1) demo_p.

(** Edges outlive their rows. After a row is written and deleted again, reading
    it finds nothing, while the graph index still has its edge. *)
Theorem graph_edges_outlive_rows :
  let '(d1, r1) := db_write demo_env graph_indexing "t" [Byte.x04] (edge_row Byte.x63 Byte.x64) graph_d0 in
  let '(d2, r2) := db_delete demo_env "t" [Byte.x04] d1 in
  r1 = Ok tt /\ r2 = Ok tt /\ db_read "t" [Byte.x04] d2 = Ok None
  /\ graph_neighbors "t" "src" (vk Byte.x63) Direction_Out (db_indexes d2) = Some [(vk Byte.x64, None)].
Proof. vm_compute. split_and!; reflexivity. Qed.

(** Two tables, one file. The index on [b_c] of table [a] and that on [c] of
    table [a_b] have the same file name. *)
Theorem graph_index_files_collide : index_stem "a" "b_c" = index_stem "a_b" "c".
Proof. reflexivity. Qed.

End Demo.
