(* ===== verification/Lexer.v ===== *)
(** The SQL lexer ([sql/lexer.rs]).

    A token's constructor is its name in the source after [T_]; a floating
    point literal is its bit pattern. The lexer's position in the text is the
    text that is left.

    Theorems: the lexer ends on every text with a list of tokens that [Eof]
    closes, or with an error; text rendered from tokens gives the tokens back.
    And: a string literal comes out as it went in only in ASCII, every other
    character is taken apart into its bytes. *)

From Stdlib Require Import Strings.Byte Strings.Ascii Strings.String ZArith Lia Bool.
From stdpp Require Import base list strings.
From S2P Require Import Prelude Utf8 Decimal.

Open Scope Z_scope.

Inductive Token :=
| T_IntLiteral (n : Z) | T_FloatLiteral (bits : Z) | T_StringLiteral (s : string) | T_Select | T_From | T_Where
| T_As | T_And | T_Or | T_Not | T_Null | T_True | T_False | T_Set | T_Show | T_Begin | T_Commit | T_Rollback
| T_Is | T_In | T_Like | T_Between | T_Limit | T_Offset | T_Order | T_By | T_Asc | T_Desc | T_Group | T_Having
| T_Distinct | T_All | T_Case | T_When | T_Then | T_Else | T_End | T_Cast | T_Interval | T_Insert | T_Into
| T_Values | T_Delete | T_Update | T_Create | T_Table | T_Drop | T_Index | T_If | T_Exists | T_Primary | T_Key
| T_Default | T_Join | T_Left | T_Right | T_Full | T_Cross | T_On | T_With | T_Recursive | T_Union | T_Over
| T_Partition | T_Rows | T_Range | T_Unbounded | T_Preceding | T_Following | T_Current | T_Row | T_Declare
| T_Cursor | T_For | T_Fetch | T_Next | T_Move | T_Close | T_Listen | T_Notify | T_Unlisten | T_Copy | T_Stdin
| T_Stdout | T_To | T_Function | T_Returns | T_Language | T_Alter | T_Column | T_Unique | T_References
| T_Foreign | T_Sequence | T_Increment | T_Start | T_Topic | T_Analyze | T_Collate | T_Operator | T_Match
| T_Return | T_Role | T_Superuser | T_NoSuperuser | T_Login | T_NoLogin | T_Password | T_Grant | T_Revoke
| T_Privileges | T_Usage | T_Database | T_Ident (s : string) | T_Star | T_Plus | T_Minus | T_Slash | T_Percent
| T_Eq | T_NotEq | T_Lt | T_Lte | T_Gt | T_Gte | T_Concat | T_Arrow | T_LongArrow | T_Comma | T_Dot
| T_Semicolon | T_LParen | T_RParen | T_LBracket | T_RBracket | T_Colon | T_DoubleColon | T_Dollar (n : Z)
| T_AtArrow | T_HashArrow | T_HashLongArrow | T_Tilde | T_NotTilde | T_TildeStar | T_NotTildeStar | T_Eof.

(** ** Tokens and characters *)

(** [==] on tokens, where one side is a constant without data. *)
Definition token_code (t : Token) : Z :=
  match t with
  | T_IntLiteral _ => 0 | T_FloatLiteral _ => 1 | T_StringLiteral _ => 2 | T_Select => 3 | T_From => 4
  | T_Where => 5 | T_As => 6 | T_And => 7 | T_Or => 8 | T_Not => 9 | T_Null => 10 | T_True => 11
  | T_False => 12 | T_Set => 13 | T_Show => 14 | T_Begin => 15 | T_Commit => 16 | T_Rollback => 17 | T_Is => 18
  | T_In => 19 | T_Like => 20 | T_Between => 21 | T_Limit => 22 | T_Offset => 23 | T_Order => 24 | T_By => 25
  | T_Asc => 26 | T_Desc => 27 | T_Group => 28 | T_Having => 29 | T_Distinct => 30 | T_All => 31 | T_Case => 32
  | T_When => 33 | T_Then => 34 | T_Else => 35 | T_End => 36 | T_Cast => 37 | T_Interval => 38 | T_Insert => 39
  | T_Into => 40 | T_Values => 41 | T_Delete => 42 | T_Update => 43 | T_Create => 44 | T_Table => 45
  | T_Drop => 46 | T_Index => 47 | T_If => 48 | T_Exists => 49 | T_Primary => 50 | T_Key => 51
  | T_Default => 52 | T_Join => 53 | T_Left => 54 | T_Right => 55 | T_Full => 56 | T_Cross => 57 | T_On => 58
  | T_With => 59 | T_Recursive => 60 | T_Union => 61 | T_Over => 62 | T_Partition => 63 | T_Rows => 64
  | T_Range => 65 | T_Unbounded => 66 | T_Preceding => 67 | T_Following => 68 | T_Current => 69 | T_Row => 70
  | T_Declare => 71 | T_Cursor => 72 | T_For => 73 | T_Fetch => 74 | T_Next => 75 | T_Move => 76
  | T_Close => 77 | T_Listen => 78 | T_Notify => 79 | T_Unlisten => 80 | T_Copy => 81 | T_Stdin => 82
  | T_Stdout => 83 | T_To => 84 | T_Function => 85 | T_Returns => 86 | T_Language => 87 | T_Alter => 88
  | T_Column => 89 | T_Unique => 90 | T_References => 91 | T_Foreign => 92 | T_Sequence => 93
  | T_Increment => 94 | T_Start => 95 | T_Topic => 96 | T_Analyze => 97 | T_Collate => 98 | T_Operator => 99
  | T_Match => 100 | T_Return => 101 | T_Role => 102 | T_Superuser => 103 | T_NoSuperuser => 104
  | T_Login => 105 | T_NoLogin => 106 | T_Password => 107 | T_Grant => 108 | T_Revoke => 109
  | T_Privileges => 110 | T_Usage => 111 | T_Database => 112 | T_Ident _ => 113 | T_Star => 114 | T_Plus => 115
  | T_Minus => 116 | T_Slash => 117 | T_Percent => 118 | T_Eq => 119 | T_NotEq => 120 | T_Lt => 121
  | T_Lte => 122 | T_Gt => 123 | T_Gte => 124 | T_Concat => 125 | T_Arrow => 126 | T_LongArrow => 127
  | T_Comma => 128 | T_Dot => 129 | T_Semicolon => 130 | T_LParen => 131 | T_RParen => 132 | T_LBracket => 133
  | T_RBracket => 134 | T_Colon => 135 | T_DoubleColon => 136 | T_Dollar _ => 137 | T_AtArrow => 138
  | T_HashArrow => 139 | T_HashLongArrow => 140 | T_Tilde => 141 | T_NotTilde => 142 | T_TildeStar => 143
  | T_NotTildeStar => 144 | T_Eof => 145
  end.

Definition is_tok (expected t : Token) : bool := token_code t =? token_code expected.

Definition KEYWORDS : list (string * Token) :=
  [
   ("SELECT", T_Select); ("FROM", T_From); ("WHERE", T_Where); ("AS", T_As); ("AND", T_And); ("OR", T_Or);
   ("NOT", T_Not); ("NULL", T_Null); ("TRUE", T_True); ("FALSE", T_False); ("SET", T_Set); ("SHOW", T_Show);
   ("BEGIN", T_Begin); ("COMMIT", T_Commit); ("ROLLBACK", T_Rollback); ("IS", T_Is); ("IN", T_In);
   ("LIKE", T_Like); ("BETWEEN", T_Between); ("LIMIT", T_Limit); ("OFFSET", T_Offset); ("ORDER", T_Order);
   ("BY", T_By); ("ASC", T_Asc); ("DESC", T_Desc); ("GROUP", T_Group); ("HAVING", T_Having);
   ("DISTINCT", T_Distinct); ("ALL", T_All); ("CASE", T_Case); ("WHEN", T_When); ("THEN", T_Then);
   ("ELSE", T_Else); ("END", T_End); ("CAST", T_Cast); ("INTERVAL", T_Interval); ("INSERT", T_Insert);
   ("INTO", T_Into); ("VALUES", T_Values); ("DELETE", T_Delete); ("UPDATE", T_Update); ("CREATE", T_Create);
   ("TABLE", T_Table); ("DROP", T_Drop); ("INDEX", T_Index); ("IF", T_If); ("EXISTS", T_Exists);
   ("PRIMARY", T_Primary); ("KEY", T_Key); ("DEFAULT", T_Default); ("JOIN", T_Join); ("LEFT", T_Left);
   ("RIGHT", T_Right); ("FULL", T_Full); ("CROSS", T_Cross); ("ON", T_On); ("WITH", T_With);
   ("RECURSIVE", T_Recursive); ("UNION", T_Union); ("OVER", T_Over); ("PARTITION", T_Partition);
   ("ROWS", T_Rows); ("RANGE", T_Range); ("UNBOUNDED", T_Unbounded); ("PRECEDING", T_Preceding);
   ("FOLLOWING", T_Following); ("CURRENT", T_Current); ("ROW", T_Row); ("DECLARE", T_Declare);
   ("CURSOR", T_Cursor); ("FOR", T_For); ("FETCH", T_Fetch); ("NEXT", T_Next); ("MOVE", T_Move);
   ("CLOSE", T_Close); ("LISTEN", T_Listen); ("NOTIFY", T_Notify); ("UNLISTEN", T_Unlisten); ("COPY", T_Copy);
   ("STDIN", T_Stdin); ("STDOUT", T_Stdout); ("TO", T_To); ("FUNCTION", T_Function); ("RETURNS", T_Returns);
   ("LANGUAGE", T_Language); ("ALTER", T_Alter); ("COLUMN", T_Column); ("UNIQUE", T_Unique);
   ("REFERENCES", T_References); ("FOREIGN", T_Foreign); ("SEQUENCE", T_Sequence); ("INCREMENT", T_Increment);
   ("START", T_Start); ("TOPIC", T_Topic); ("ANALYZE", T_Analyze); ("COLLATE", T_Collate);
   ("OPERATOR", T_Operator); ("MATCH", T_Match); ("RETURN", T_Return); ("ROLE", T_Role);
   ("SUPERUSER", T_Superuser); ("NOSUPERUSER", T_NoSuperuser); ("LOGIN", T_Login); ("NOLOGIN", T_NoLogin);
   ("PASSWORD", T_Password); ("GRANT", T_Grant); ("REVOKE", T_Revoke); ("PRIVILEGES", T_Privileges);
   ("USAGE", T_Usage); ("DATABASE", T_Database)
  ]%string.

Definition ascii_upper (c : ascii) : ascii :=
  let n := N_of_ascii c in
  if (97 <=? n)%N && (n <=? 122)%N then ascii_of_N (n - 32) else c.

Fixpoint to_ascii_uppercase (s : string) : string :=
  match s with
  | EmptyString => EmptyString
  | String c s' => String (ascii_upper c) (to_ascii_uppercase s')
  end.

(** The words that reach it are ASCII. *)
Definition keyword_or_ident (s : string) : Token :=
  match find (fun p => String.eqb (fst p) (to_ascii_uppercase s)) KEYWORDS with
  | Some (_, t) => t
  | None => T_Ident s
  end.

Definition is_ascii_whitespace (b : byte) : bool :=
  existsb (byte_eqb b) [Byte.x20; Byte.x09; Byte.x0a; Byte.x0c; Byte.x0d].
Definition is_ascii_digit (b : byte) : bool := in_range 48 57 b.
Definition is_ascii_alphabetic (b : byte) : bool := in_range 65 90 b || in_range 97 122 b.
Definition is_word (b : byte) : bool :=
  is_ascii_alphabetic b || is_ascii_digit b || byte_eqb b "_" || byte_eqb b "$".

(** [s.first() == Some(b)] *)
Definition next_is (b : byte) (s : bytes) : bool :=
  match s with c :: _ => byte_eqb c b | [] => false end.

Definition next_is_digit (s : bytes) : bool :=
  match s with c :: _ => is_ascii_digit c | [] => false end.

(** ** White space and comments *)

Fixpoint skip_line (s : bytes) : bytes :=
  match s with
  | [] => []
  | b :: s' => if byte_eqb b Byte.x0a then s' else skip_line s'
  end.

Fixpoint skip_block (s : bytes) : bytes :=
  match s with
  | [] => []
  | b :: s' => if byte_eqb b "*" && next_is "/" s' then tail s' else skip_block s'
  end.

Fixpoint skip_loop (fuel : nat) (s : bytes) : bytes :=
  match fuel with
  | O => s
  | S fuel' =>
      match s with
      | [] => []
      | b :: s' =>
          if is_ascii_whitespace b then skip_loop fuel' s'
          else if byte_eqb b "-" && next_is "-" s' then skip_loop fuel' (skip_line s)
          else if byte_eqb b "/" && next_is "*" s' then skip_loop fuel' (skip_block (tail s'))
          else s
      end
  end.

Definition skip_whitespace (s : bytes) : bytes := skip_loop (S (length s)) s.

(** ** Literals and words *)

(** [String::push(b as char)]: the character of that code point. *)
Definition char_bytes (b : byte) : bytes :=
  if Z_of_byte b <? 128 then [b]
  else [byte_of_Z (192 + Z_of_byte b / 64); byte_of_Z (128 + Z_of_byte b mod 64)].

(** Up to the closing quote; [None] when there is none. *)
Fixpoint read_quoted (q : byte) (s acc : bytes) : option (bytes * bytes) :=
  match s with
  | [] => None
  | b :: s' =>
      if byte_eqb b q then
        match s' with
        | c :: s'' => if byte_eqb c q then read_quoted q s'' (acc ++ [q]) else Some (acc, s')
        | [] => Some (acc, s')
        end
      else read_quoted q s' (acc ++ char_bytes b)
  end.

Definition read_string (s : bytes) : Result (Token * bytes) :=
  match read_quoted "'" s [] with
  | Some (text, rest) => Ok (T_StringLiteral (string_of_list_byte text), rest)
  | None => Err "unterminated string literal"%string
  end.

Definition read_quoted_ident (s : bytes) : Result (Token * bytes) :=
  match read_quoted Byte.x22 s [] with
  | Some (text, rest) => Ok (T_Ident (string_of_list_byte text), rest)
  | None => Err "unterminated quoted identifier"%string
  end.

(** The text of a number, whether it is a float, and the rest. *)
Fixpoint scan_number (s : bytes) (has_dot has_exp : bool) : bytes * bool * bytes :=
  match s with
  | [] => ([], has_dot || has_exp, [])
  | b :: s' =>
      let more (dot exp : bool) := let '(text, float, rest) := scan_number s' dot exp in (b :: text, float, rest) in
      if is_ascii_digit b then more has_dot has_exp
      else if byte_eqb b "." && negb has_dot && negb has_exp then more true has_exp
      else if (byte_eqb b "e" || byte_eqb b "E") && negb has_exp then
        match s' with
        | c :: s'' =>
            if byte_eqb c "+" || byte_eqb c "-" then
              let '(text, float, rest) := scan_number s'' has_dot true in (b :: c :: text, float, rest)
            else more has_dot true
        | [] => more has_dot true
        end
      else ([], has_dot || has_exp, s)
  end.

Fixpoint span_digits (s : bytes) : bytes * bytes :=
  match s with
  | b :: s' => if is_ascii_digit b then let '(ds, rest) := span_digits s' in (b :: ds, rest) else ([], s)
  | [] => ([], [])
  end.

(** *** [str::parse] at [f64] for the texts that the lexer scans *)

(** The float nearest to [num / den], ties to the even one. *)
Definition f64_of_ratio (num den : Z) : Z :=
  if num =? 0 then 0
  else
    let e0 := Z.log2 num - Z.log2 den - 52 in
    let e1 := if num * 2 ^ Z.max 0 (- e0) <? den * 2 ^ Z.max 0 e0 * 2 ^ 52 then e0 - 1 else e0 in
    let e := Z.max (- 1074) e1 in
    let n := num * 2 ^ Z.max 0 (- e) in
    let d := den * 2 ^ Z.max 0 e in
    let q := n / d in
    let r := 2 * (n mod d) in
    let q := if (d <? r) || ((d =? r) && Z.odd q) then q + 1 else q in
    Z.min ((e + 1074) * 2 ^ 52 + q) (2047 * 2 ^ 52).

Definition dec_value (ds : bytes) : Z := fold_left (fun acc b => acc * 10 + (Z_of_byte b - 48)) ds 0.

Definition parse_exponent (s : bytes) : option Z :=
  match s with
  | [] => Some 0
  | b :: s' =>
      if byte_eqb b "e" || byte_eqb b "E" then
        let '(neg, s') := match s' with
                          | c :: s'' => if byte_eqb c "-" then (true, s'') else if byte_eqb c "+" then (false, s'') else (false, s')
                          | [] => (false, s')
                          end in
        match span_digits s' with
        | ([], _) => None
        | (ds, []) => Some (if neg : bool then - dec_value ds else dec_value ds)
        | _ => None
        end
      else None
  end.

Definition parse_f64 (s : bytes) : option Z :=
  let '(int, s1) := span_digits s in
  let '(frac, s2) := if next_is "." s1 then span_digits (tail s1) else ([], s1) in
  match int ++ frac with
  | [] => None
  | ds =>
      match parse_exponent s2 with
      | None => None
      | Some exp =>
          let m := dec_value ds in
          let e := exp - zlen frac in
          Some (if m =? 0 then 0 else if 0 <=? e then f64_of_ratio (m * 10 ^ e) 1 else f64_of_ratio m (10 ^ (- e)))
      end
  end.

Definition read_number (s : bytes) : Result (Token * bytes) :=
  let '(text, float, rest) := scan_number s false false in
  if float : bool then
    match parse_f64 text with Some f => Ok (T_FloatLiteral f, rest) | None => Err "invalid float literal"%string end
  else
    match parse_signed (2 ^ 63 - 1) text with Some n => Ok (T_IntLiteral n, rest) | None => Err "number too large"%string end.

Fixpoint span_word (s : bytes) : bytes * bytes :=
  match s with
  | b :: s' => if is_word b then let '(w, rest) := span_word s' in (b :: w, rest) else ([], s)
  | [] => ([], [])
  end.

Definition read_ident_or_keyword (s : bytes) : Token * bytes :=
  let '(w, rest) := span_word s in (keyword_or_ident (string_of_list_byte w), rest).

(** ** Tokens *)

(** The operators and punctuation, [b] being read already. *)
Definition punctuation (b : byte) (s : bytes) : Result (Token * bytes) :=
  if byte_eqb b "*" then Ok (T_Star, s)
  else if byte_eqb b "+" then Ok (T_Plus, s)
  else if byte_eqb b "%" then Ok (T_Percent, s)
  else if byte_eqb b "," then Ok (T_Comma, s)
  else if byte_eqb b "." then Ok (T_Dot, s)
  else if byte_eqb b ";" then Ok (T_Semicolon, s)
  else if byte_eqb b "(" then Ok (T_LParen, s)
  else if byte_eqb b ")" then Ok (T_RParen, s)
  else if byte_eqb b "[" then Ok (T_LBracket, s)
  else if byte_eqb b "]" then Ok (T_RBracket, s)
  else if byte_eqb b "/" then Ok (T_Slash, s)
  else if byte_eqb b "=" then Ok (T_Eq, s)
  else if byte_eqb b "!" && next_is "=" s then Ok (T_NotEq, tail s)
  else if byte_eqb b "!" && next_is "~" s then
    if next_is "*" (tail s) then Ok (T_NotTildeStar, tail (tail s)) else Ok (T_NotTilde, tail s)
  else if byte_eqb b "<" then
    if next_is "=" s then Ok (T_Lte, tail s) else if next_is ">" s then Ok (T_NotEq, tail s) else Ok (T_Lt, s)
  else if byte_eqb b ">" then if next_is "=" s then Ok (T_Gte, tail s) else Ok (T_Gt, s)
  else if byte_eqb b "-" then
    if next_is ">" s then
      if next_is ">" (tail s) then Ok (T_LongArrow, tail (tail s)) else Ok (T_Arrow, tail s)
    else Ok (T_Minus, s)
  else if byte_eqb b "|" && next_is "|" s then Ok (T_Concat, tail s)
  else if byte_eqb b ":" then if next_is ":" s then Ok (T_DoubleColon, tail s) else Ok (T_Colon, s)
  else if byte_eqb b "@" && next_is ">" s then Ok (T_AtArrow, tail s)
  else if byte_eqb b "#" && next_is ">" s then
    if next_is ">" (tail s) then Ok (T_HashLongArrow, tail (tail s)) else Ok (T_HashArrow, tail s)
  else if byte_eqb b "~" then if next_is "*" s then Ok (T_TildeStar, tail s) else Ok (T_Tilde, s)
  else Err "unexpected character"%string.

Definition next_token (s : bytes) : Result (Token * bytes) :=
  match skip_whitespace s with
  | [] => Ok (T_Eof, [])
  | b :: s' =>
      if byte_eqb b "'" then read_string s'
      else if byte_eqb b Byte.x22 then read_quoted_ident s'
      else if is_ascii_digit b || (byte_eqb b "." && next_is_digit s') then read_number (b :: s')
      else if byte_eqb b "$" && next_is_digit s' then
        let '(ds, rest) := span_digits s' in Ok (T_Dollar (default 0 (parse_unsigned (2 ^ 32 - 1) ds)), rest)
      else if is_ascii_alphabetic b || byte_eqb b "_" then Ok (read_ident_or_keyword (b :: s'))
      else punctuation b s'
  end.

Fixpoint tokenize_loop (fuel : nat) (s : bytes) (tokens : list Token) : option (Result (list Token)) :=
  match fuel with
  | O => None
  | S fuel' =>
      match next_token s with
      | Err e => Some (Err e)
      | Ok (tok, rest) =>
          if is_tok T_Eof tok then Some (Ok (tokens ++ [tok])) else tokenize_loop fuel' rest (tokens ++ [tok])
      end
  end.

Definition tokenize (src : string) : option (Result (list Token)) :=
  let s := as_bytes src in tokenize_loop (S (length s)) s [].

(** ** Comparing tokens *)

Definition plain_token (t : Token) : bool :=
  match t with
  | T_IntLiteral _ | T_FloatLiteral _ | T_StringLiteral _ | T_Ident _ | T_Dollar _ => false
  | _ => true
  end.

(** The tokens without data. *)
Definition PLAIN : list Token :=
  [
   T_Select; T_From; T_Where; T_As; T_And; T_Or; T_Not; T_Null; T_True; T_False; T_Set; T_Show; T_Begin;
   T_Commit; T_Rollback; T_Is; T_In; T_Like; T_Between; T_Limit; T_Offset; T_Order; T_By; T_Asc; T_Desc;
   T_Group; T_Having; T_Distinct; T_All; T_Case; T_When; T_Then; T_Else; T_End; T_Cast; T_Interval; T_Insert;
   T_Into; T_Values; T_Delete; T_Update; T_Create; T_Table; T_Drop; T_Index; T_If; T_Exists; T_Primary; T_Key;
   T_Default; T_Join; T_Left; T_Right; T_Full; T_Cross; T_On; T_With; T_Recursive; T_Union; T_Over;
   T_Partition; T_Rows; T_Range; T_Unbounded; T_Preceding; T_Following; T_Current; T_Row; T_Declare; T_Cursor;
   T_For; T_Fetch; T_Next; T_Move; T_Close; T_Listen; T_Notify; T_Unlisten; T_Copy; T_Stdin; T_Stdout; T_To;
   T_Function; T_Returns; T_Language; T_Alter; T_Column; T_Unique; T_References; T_Foreign; T_Sequence;
   T_Increment; T_Start; T_Topic; T_Analyze; T_Collate; T_Operator; T_Match; T_Return; T_Role; T_Superuser;
   T_NoSuperuser; T_Login; T_NoLogin; T_Password; T_Grant; T_Revoke; T_Privileges; T_Usage; T_Database; T_Star;
   T_Plus; T_Minus; T_Slash; T_Percent; T_Eq; T_NotEq; T_Lt; T_Lte; T_Gt; T_Gte; T_Concat; T_Arrow;
   T_LongArrow; T_Comma; T_Dot; T_Semicolon; T_LParen; T_RParen; T_LBracket; T_RBracket; T_Colon;
   T_DoubleColon; T_AtArrow; T_HashArrow; T_HashLongArrow; T_Tilde; T_NotTilde; T_TildeStar; T_NotTildeStar;
   T_Eof
  ].

Lemma plain_by_code (t : Token) :
  find (is_tok t) PLAIN = if plain_token t then Some t else None.
Proof. destruct t; vm_compute; reflexivity. Qed.

(** The comparison of the source: equality with a constant without data. *)
Lemma is_tok_spec (expected t : Token) : plain_token expected = true -> is_tok expected t = true <-> t = expected.
Proof.
  intros Hp. unfold is_tok. split; [|intros ->; apply Z.eqb_refl]. intros Hc%Z.eqb_eq.
  pose proof (plain_by_code expected) as H1. pose proof (plain_by_code t) as H2.
  assert (find (is_tok t) PLAIN = find (is_tok expected) PLAIN) as Heq by (unfold is_tok; by rewrite Hc).
  rewrite Hp in H1. rewrite Heq, H1 in H2. destruct (plain_token t); congruence.
Qed.

(** ** The lexer ends *)

Lemma length_skip_line (s : bytes) : (length (skip_line s) <= pred (length s))%nat.
Proof. induction s as [|b s IH]; simpl; [done|]. destruct (byte_eqb b Byte.x0a); lia. Qed.

Lemma length_tail {A : Type} (l : list A) : length (tail l) = pred (length l).
Proof. by destruct l. Qed.

Lemma length_skip_block (s : bytes) : (length (skip_block s) <= length s)%nat.
Proof.
  induction s as [|b s IH]; cbn [skip_block length]; [done|]. destruct (byte_eqb b "*" && next_is "/" s); [rewrite length_tail|]; lia.
Qed.

Lemma length_skip_loop (fuel : nat) (s : bytes) : (length (skip_loop fuel s) <= length s)%nat.
Proof.
  revert s. induction fuel as [|fuel IH]; intros [|b s]; cbn [skip_loop]; [done..|]. repeat case_match; [..|done].
  - etrans; [apply IH|]. simpl. lia.
  - etrans; [apply IH|]. pose proof (length_skip_line (b :: s)). simpl in *. lia.
  - etrans; [apply IH|]. pose proof (length_skip_block (tail s)) as H2. rewrite length_tail in H2. simpl. lia.
Qed.

(** More rounds than bytes change nothing. *)
Lemma skip_loop_fuel (f1 f2 : nat) (s : bytes) :
  (length s < f1)%nat -> (length s < f2)%nat -> skip_loop f1 s = skip_loop f2 s.
Proof.
  revert f2 s. induction f1 as [|f1 IH]; intros [|f2] [|b s] H1 H2; try lia; [done|]. cbn [skip_loop length] in *.
  pose proof (length_skip_line (b :: s)) as Hl. pose proof (length_skip_block (tail s)) as Hb. rewrite length_tail in Hb. simpl in Hl.
  destruct (is_ascii_whitespace b); [apply IH; lia|]. destruct (byte_eqb b "-" && next_is "-" s); [apply IH; simpl; lia|].
  destruct (byte_eqb b "/" && next_is "*" s); [apply IH; lia | done].
Qed.

Lemma skip_whitespace_space (s : bytes) : skip_whitespace (Byte.x20 :: s) = skip_whitespace s.
Proof.
  unfold skip_whitespace. change (skip_loop (S (length (Byte.x20 :: s))) (Byte.x20 :: s)) with (skip_loop (S (length s)) s).
  apply skip_loop_fuel; lia.
Qed.

Lemma read_quoted_shorter (q : byte) (s acc text rest : bytes) :
  read_quoted q s acc = Some (text, rest) -> (length rest < length s)%nat.
Proof.
  revert s acc. assert (forall n s acc, (length s <= n)%nat -> read_quoted q s acc = Some (text, rest) -> (length rest < length s)%nat) as H;
    [|intros s acc; by apply (H (length s))].
  induction n as [|n IH]; intros [|b s] acc Hn; cbn [read_quoted length] in *; try done; [lia|].
  destruct (byte_eqb b q).
  - destruct s as [|c s]; [by intros [= <- <-]; simpl; lia|]. destruct (byte_eqb c q); [|by intros [= <- <-]; simpl; lia].
    intros Hr%IH; simpl in *; lia.
  - intros Hr%IH; simpl in *; lia.
Qed.

Lemma scan_number_length (s : bytes) (d e : bool) (text rest : bytes) (float : bool) :
  scan_number s d e = (text, float, rest) -> length s = (length text + length rest)%nat.
Proof.
  revert d e text rest float.
  assert (forall n s d e text rest float, (length s <= n)%nat -> scan_number s d e = (text, float, rest) ->
    length s = (length text + length rest)%nat) as H; [|intros; by eapply (H (length s))].
  clear s. induction n as [|n IH]; intros [|b s] d e text rest float Hn; cbn [scan_number length] in *;
    try (by intros [= <- <- <-]); [lia|].
  repeat case_match; try (by intros [= <- <- <-]); intros [= <- <- <-]; cbn [length] in *;
    match goal with H : scan_number _ _ _ = _ |- _ => apply IH in H; [|simpl in *; lia] end; simpl in *; lia.
Qed.

Lemma span_digits_length (s ds rest : bytes) : span_digits s = (ds, rest) -> length s = (length ds + length rest)%nat.
Proof.
  revert ds rest. induction s as [|b s IH]; intros ds rest; cbn [span_digits]; [by intros [= <- <-]|].
  destruct (is_ascii_digit b); [|by intros [= <- <-]]. destruct (span_digits s) as [ds' r]. intros [= <- <-]. simpl. by rewrite (IH ds' r).
Qed.

Lemma span_word_length (s w rest : bytes) : span_word s = (w, rest) -> length s = (length w + length rest)%nat.
Proof.
  revert w rest. induction s as [|b s IH]; intros w rest; cbn [span_word]; [by intros [= <- <-]|].
  destruct (is_word b); [|by intros [= <- <-]]. destruct (span_word s) as [w' r]. intros [= <- <-]. simpl. by rewrite (IH w' r).
Qed.

Lemma punctuation_length (b : byte) (s : bytes) (tok : Token) (rest : bytes) :
  punctuation b s = Ok (tok, rest) -> (length rest <= length s)%nat.
Proof. unfold punctuation. repeat case_match; intros [= <- <-]; rewrite ?length_tail; lia. Qed.

(** A token is at least a byte; only [Eof] is none, and it comes at the end. *)
Lemma next_token_shorter (s : bytes) (tok : Token) (rest : bytes) :
  next_token s = Ok (tok, rest) -> tok = T_Eof \/ (length rest < length s)%nat.
Proof.
  unfold next_token. pose proof (length_skip_loop (S (length s)) s) as Hl. fold (skip_whitespace s) in Hl.
  destruct (skip_whitespace s) as [|b s']; [intros [= <- <-]; by left|]. cbn [length] in Hl.
  destruct (byte_eqb b "'").
  { unfold read_string. destruct (read_quoted "'" s' []) as [[]|] eqn:E; [|done]. apply read_quoted_shorter in E. intros [= <- <-]. right. lia. }
  destruct (byte_eqb b Byte.x22).
  { unfold read_quoted_ident. destruct (read_quoted Byte.x22 s' []) as [[]|] eqn:E; [|done]. apply read_quoted_shorter in E. intros [= <- <-]. right. lia. }
  destruct (is_ascii_digit b || (byte_eqb b "." && next_is_digit s')) eqn:Ed.
  { unfold read_number. destruct (scan_number (b :: s') false false) as [[text float] rest'] eqn:E.
    pose proof (scan_number_length _ _ _ _ _ _ E) as Hn. cbn [length] in Hn.
    assert (text <> []) as Ht.
    { intros ->. cbn [scan_number] in E. destruct (is_ascii_digit b); [by repeat case_match|]. simpl in Ed.
      apply andb_true_iff in Ed as [Ed _]. rewrite Ed in E. simpl in E. by repeat case_match. }
    destruct text; [done|]. simpl in Hn. right. repeat case_match; simplify_eq; lia. }
  destruct (byte_eqb b "$" && next_is_digit s').
  { destruct (span_digits s') as [ds r] eqn:E. apply span_digits_length in E. intros [= <- <-]. right. lia. }
  destruct (is_ascii_alphabetic b || byte_eqb b "_") eqn:Ea.
  { unfold read_ident_or_keyword. cbn [span_word]. assert (is_word b = true) as ->.
    { unfold is_word. apply orb_true_iff in Ea as [->| ->]; by rewrite ?orb_true_r. }
    destruct (span_word s') as [w r] eqn:E. apply span_word_length in E. intros [= <- <-]. right. lia. }
  intros Hp%punctuation_length. right. lia.
Qed.

Lemma tokenize_loop_total (fuel : nat) (s : bytes) (tokens : list Token) :
  (length s < fuel)%nat ->
  exists r, tokenize_loop fuel s tokens = Some r
    /\ forall out, r = Ok out -> exists ts, out = tokens ++ ts ++ [T_Eof] /\ Forall (fun t => t <> T_Eof) ts.
Proof.
  revert s tokens. induction fuel as [|fuel IH]; intros s tokens Hf; [lia|]. cbn [tokenize_loop].
  destruct (next_token s) as [[tok rest]|e] eqn:E; [|by eexists]. destruct (is_tok T_Eof tok) eqn:Et.
  - apply is_tok_spec in Et as ->; [|done]. eexists. split; [done|]. intros out [= <-]. by exists [].
  - assert (tok <> T_Eof) as Hne by (by intros ->). destruct (next_token_shorter _ _ _ E) as [?|Hl]; [done|].
    destruct (IH rest (tokens ++ [tok]) ltac:(lia)) as (r & -> & Hr). exists r. split; [done|]. intros out Ho.
    destruct (Hr out Ho) as (ts & -> & Hts). exists (tok :: ts). rewrite <- app_assoc. split; [done | by constructor].
Qed.

(** The lexer ends on every text, with an error or with tokens that [Eof]
    closes and that contain no other one. *)
Theorem lexer_ends (src : string) :
  exists r, tokenize src = Some r
    /\ forall out, r = Ok out -> exists ts, out = ts ++ [T_Eof] /\ Forall (fun t => t <> T_Eof) ts.
Proof. apply tokenize_loop_total. lia. Qed.

(** ** Rendering tokens *)

(** What the operators and punctuation look like. *)
Definition SYMBOLS : list (string * Token) :=
  [("*", T_Star); ("+", T_Plus); ("-", T_Minus); ("/", T_Slash); ("%", T_Percent); ("=", T_Eq); ("<>", T_NotEq);
   ("<", T_Lt); ("<=", T_Lte); (">", T_Gt); (">=", T_Gte); ("||", T_Concat); ("->", T_Arrow); ("->>", T_LongArrow);
   (",", T_Comma); (".", T_Dot); (";", T_Semicolon); ("(", T_LParen); (")", T_RParen); ("[", T_LBracket);
   ("]", T_RBracket); (":", T_Colon); ("::", T_DoubleColon); ("@>", T_AtArrow); ("#>", T_HashArrow);
   ("#>>", T_HashLongArrow); ("~", T_Tilde); ("!~", T_NotTilde); ("~*", T_TildeStar); ("!~*", T_NotTildeStar)]%string.

(** A text between quotes, its quotes doubled. *)
Definition quote (q : byte) (s : bytes) : bytes :=
  q :: concat (map (fun b => if byte_eqb b q then [q; q] else [b]) s) ++ [q].

Definition plain_text (t : Token) : bytes :=
  match find (fun p => is_tok (snd p) t) (KEYWORDS ++ SYMBOLS) with Some (w, _) => as_bytes w | None => [] end.

Definition render_token (t : Token) : bytes :=
  match t with
  | T_IntLiteral n => dec_bytes n
  | T_StringLiteral s => quote "'" (as_bytes s)
  | T_Ident s => quote Byte.x22 (as_bytes s)
  | T_Dollar n => Byte.x24 :: dec_bytes n
  | t => plain_text t
  end.

(** The tokens with a space behind each. *)
Definition render (ts : list Token) : string :=
  string_of_list_byte (concat (map (fun t => render_token t ++ [Byte.x20]) ts)).

Definition ascii_text (s : string) : Prop := Forall (fun b => Z_of_byte b < 128) (as_bytes s).

(** Floating point literals are left out: which decimal numeral stands for a
    float is not the lexer's matter. *)
Definition renderable (t : Token) : Prop :=
  match t with
  | T_IntLiteral n => 0 <= n < 2 ^ 63
  | T_StringLiteral s | T_Ident s => ascii_text s
  | T_Dollar n => is_u32 n
  | T_FloatLiteral _ | T_Eof => False
  | _ => True
  end.

(** A text that a space follows. *)
Definition spaced (rest : bytes) : Prop := next_is Byte.x20 rest = true.

Lemma spaced_inv (rest : bytes) : spaced rest -> exists r, rest = Byte.x20 :: r.
Proof. destruct rest as [|b r]; [done|]. unfold spaced. simpl. intros H%byte_eqb_true. exists r. by rewrite H. Qed.

Lemma read_quoted_quote (q : byte) (s rest acc : bytes) :
  Z_of_byte q < 128 -> Forall (fun b => Z_of_byte b < 128) s -> next_is q rest = false ->
  read_quoted q (concat (map (fun b => if byte_eqb b q then [q; q] else [b]) s) ++ q :: rest) acc = Some (acc ++ s, rest).
Proof.
  intros Hq Hs Hr. revert acc. induction Hs as [|b s Hb _ IH]; intros acc; cbn [map concat app read_quoted].
  - rewrite byte_eqb_refl. destruct rest as [|c rest]; [by rewrite app_nil_r|]. simpl in Hr. rewrite Hr. by rewrite app_nil_r.
  - destruct (byte_eqb b q) eqn:E.
    + apply byte_eqb_true in E as ->. cbn [app read_quoted]. rewrite byte_eqb_refl. rewrite IH, <- app_assoc. done.
    + cbn [app read_quoted]. rewrite E. unfold char_bytes. apply Z.ltb_lt in Hb as ->. rewrite IH, <- app_assoc. done.
Qed.

Lemma skip_whitespace_here (b : byte) (s : bytes) :
  is_ascii_whitespace b = false -> byte_eqb b "-" = false -> byte_eqb b "/" = false -> skip_whitespace (b :: s) = b :: s.
Proof. intros H1 H2 H3. unfold skip_whitespace. cbn [skip_loop]. by rewrite H1, H2, H3. Qed.

Lemma digit_is_digit (d : Z) : 0 <= d < 10 -> is_ascii_digit (digit d) = true.
Proof.
  intros Hd. pose proof (digit_value d Hd). unfold is_ascii_digit, in_range. apply andb_true_iff. split; apply Z.leb_le; lia.
Qed.

Lemma dec_bytes_digits (n : Z) :
  0 <= n -> Forall (fun b => is_ascii_digit b = true) (dec_bytes n)
    /\ exists b ds, dec_bytes n = b :: ds /\ is_ascii_digit b = true.
Proof.
  intros Hn. unfold dec_bytes. rewrite (proj2 (Z.ltb_ge n 0)) by done. split.
  - apply digits_forall; [apply digit_is_digit | done | by apply Forall_nil].
  - destruct (digits_cons 20 n [] ltac:(lia) Hn) as (d & ds & Hd & ->). eexists _, _. split; [done | by apply digit_is_digit].
Qed.

Lemma span_digits_app (ds rest : bytes) :
  Forall (fun b => is_ascii_digit b = true) ds -> spaced rest -> span_digits (ds ++ rest) = (ds, rest).
Proof.
  intros Hds (r & ->)%spaced_inv. induction Hds as [|b ds Hb _ IH]; [done|]. cbn [app span_digits]. by rewrite Hb, IH.
Qed.

Lemma scan_number_app (ds rest : bytes) :
  Forall (fun b => is_ascii_digit b = true) ds -> spaced rest -> scan_number (ds ++ rest) false false = (ds, false, rest).
Proof.
  intros Hds (r & ->)%spaced_inv. induction Hds as [|b ds Hb _ IH]; [done|]. cbn [app scan_number]. by rewrite Hb, IH.
Qed.

Lemma span_word_app (w rest : bytes) :
  Forall (fun b => is_word b = true) w -> spaced rest -> span_word (w ++ rest) = (w, rest).
Proof.
  intros Hw (r & ->)%spaced_inv. induction Hw as [|b w Hb _ IH]; [done|]. cbn [app span_word]. by rewrite Hb, IH.
Qed.

(** A byte of one class is none of another. *)
Lemma digit_not (b c : byte) : is_ascii_digit b = true -> is_ascii_digit c = false -> byte_eqb b c = false.
Proof. intros Hb Hc. apply not_true_is_false. intros ->%byte_eqb_true. congruence. Qed.

Lemma digit_not_space (b : byte) : is_ascii_digit b = true -> is_ascii_whitespace b = false.
Proof. intros Hb. unfold is_ascii_whitespace. simpl. by rewrite !(digit_not b) by done. Qed.

Lemma alphabetic_not (b c : byte) :
  is_ascii_alphabetic b || byte_eqb b "_" = true -> is_ascii_alphabetic c || byte_eqb c "_" = false -> byte_eqb b c = false.
Proof. intros Hb Hc. apply not_true_is_false. intros ->%byte_eqb_true. congruence. Qed.

Lemma alphabetic_not_digit (b : byte) : is_ascii_alphabetic b || byte_eqb b "_" = true -> is_ascii_digit b = false.
Proof. by destruct b; vm_compute. Qed.

(** *** Each kind of token *)

Lemma next_token_int (n : Z) (rest : bytes) :
  0 <= n < 2 ^ 63 -> spaced rest -> next_token (dec_bytes n ++ rest) = Ok (T_IntLiteral n, rest).
Proof.
  intros Hn Hr. destruct (dec_bytes_digits n ltac:(lia)) as [Hds (b & ds & Heq & Hb)]. unfold next_token.
  rewrite Heq. cbn [app]. rewrite skip_whitespace_here by (by apply digit_not_space || by apply digit_not).
  rewrite !(digit_not b) by done. rewrite Hb. cbn [orb]. change (b :: ds ++ rest) with ((b :: ds) ++ rest). rewrite <- Heq.
  unfold read_number. rewrite (scan_number_app _ _ Hds Hr). unfold dec_bytes. rewrite (proj2 (Z.ltb_ge n 0)) by lia.
  destruct (parse_unsigned_digits (2 ^ 63 - 1) n) as [_ ->]; [split; [lia | eapply Z.lt_trans; [apply Hn | done]] | lia | done].
Qed.

Lemma next_token_dollar (n : Z) (rest : bytes) :
  is_u32 n -> spaced rest -> next_token (Byte.x24 :: dec_bytes n ++ rest) = Ok (T_Dollar n, rest).
Proof.
  intros Hn Hr. destruct (dec_bytes_digits n ltac:(destruct Hn; lia)) as [Hds (b & ds & Heq & Hb)]. unfold next_token.
  rewrite skip_whitespace_here by done.
  assert (next_is_digit (dec_bytes n ++ rest) = true) as Hd by (by rewrite Heq).
  change (byte_eqb Byte.x24 "'") with false. change (byte_eqb Byte.x24 Byte.x22) with false.
  change (is_ascii_digit Byte.x24) with false. change (byte_eqb Byte.x24 ".") with false. change (byte_eqb Byte.x24 "$") with true.
  cbn [orb andb]. rewrite Hd, (span_digits_app _ _ Hds Hr). unfold dec_bytes. destruct Hn as [Hn1 Hn2].
  rewrite (proj2 (Z.ltb_ge n 0)) by lia.
  destruct (parse_unsigned_digits (2 ^ 32 - 1) n) as [-> _]; [split; [lia | eapply Z.lt_trans; [exact Hn2 | done]] | lia | done].
Qed.

Lemma next_token_quoted (q : byte) (s : string) (rest : bytes) :
  (q = "'"%byte \/ q = Byte.x22) -> ascii_text s -> spaced rest ->
  next_token (quote q (as_bytes s) ++ rest) = Ok (if byte_eqb q "'" then T_StringLiteral s else T_Ident s, rest).
Proof.
  intros Hq Hs (r & ->)%spaced_inv. unfold next_token, quote. cbn [app]. rewrite <- app_assoc.
  rewrite skip_whitespace_here by (by destruct Hq as [->| ->]). cbn [app].
  assert (read_quoted q (concat (map (fun b => if byte_eqb b q then [q; q] else [b]) (as_bytes s)) ++ q :: Byte.x20 :: r) []
    = Some (as_bytes s, Byte.x20 :: r)) as Hread by (apply read_quoted_quote; by destruct Hq as [->| ->]).
  unfold read_string, read_quoted_ident. destruct Hq as [->| ->].
  - change (byte_eqb "'" "'") with true. cbv iota. rewrite Hread. unfold as_bytes. by rewrite string_of_list_byte_of_string.
  - change (byte_eqb Byte.x22 "'") with false. change (byte_eqb Byte.x22 Byte.x22) with true. cbv iota. rewrite Hread.
    unfold as_bytes. by rewrite string_of_list_byte_of_string.
Qed.

Definition word_ok (p : string * Token) : bool :=
  match as_bytes (fst p) with
  | b :: w => (is_ascii_alphabetic b || byte_eqb b "_") && forallb is_word (b :: w)
  | [] => false
  end.

Lemma next_token_word (w : string) (t : Token) (rest : bytes) :
  word_ok (w, t) = true -> spaced rest -> next_token (as_bytes w ++ rest) = Ok (keyword_or_ident w, rest).
Proof.
  unfold word_ok. cbn [fst]. destruct (as_bytes w) as [|b bs] eqn:E; [done|]. intros [Ha Hw]%andb_true_iff Hr.
  unfold next_token. rewrite <- app_comm_cons.
  assert (is_ascii_whitespace b = false) as Hs by (unfold is_ascii_whitespace; simpl; by rewrite !(alphabetic_not b) by done).
  rewrite skip_whitespace_here by (done || by apply alphabetic_not).
  rewrite !(alphabetic_not b) by done. rewrite (alphabetic_not_digit b Ha). cbn [orb andb]. rewrite Ha.
  unfold read_ident_or_keyword. rewrite app_comm_cons, span_word_app; [|by apply List.Forall_forall, forallb_forall | done].
  rewrite <- E. unfold as_bytes. by rewrite string_of_list_byte_of_string.
Qed.

(** The keywords are words, each standing for its token. *)
Lemma keywords_ok :
  forallb (fun p => word_ok p && is_tok (snd p) (keyword_or_ident (fst p)) && plain_token (snd p)) KEYWORDS = true.
Proof. vm_compute. reflexivity. Qed.

Lemma next_token_keyword (w : string) (t : Token) (rest : bytes) :
  In (w, t) KEYWORDS -> spaced rest -> next_token (as_bytes w ++ rest) = Ok (t, rest).
Proof.
  intros Hin Hr. pose proof (proj1 (forallb_forall _ _) keywords_ok _ Hin) as H. cbn [fst snd] in H.
  apply andb_true_iff in H as [[Hw Ht]%andb_true_iff Hp]. rewrite (next_token_word w t rest Hw Hr).
  by apply (is_tok_spec t _ Hp) in Ht as ->.
Qed.

Lemma next_token_symbol (w : string) (t : Token) (rest : bytes) :
  In (w, t) SYMBOLS -> spaced rest -> next_token (as_bytes w ++ rest) = Ok (t, rest).
Proof.
  intros Hin (r & ->)%spaced_inv. unfold SYMBOLS in Hin.
  repeat (destruct Hin as [[= <- <-]|Hin]; [reflexivity|]). destruct Hin.
Qed.

Lemma plain_texts_found :
  forallb (fun t => is_tok T_Eof t ||
    match find (fun p => is_tok (snd p) t) (KEYWORDS ++ SYMBOLS) with Some (_, t') => is_tok t t' | None => false end) PLAIN = true.
Proof. vm_compute. reflexivity. Qed.

Lemma next_token_plain (t : Token) (rest : bytes) :
  plain_token t = true -> t <> T_Eof -> spaced rest -> next_token (plain_text t ++ rest) = Ok (t, rest).
Proof.
  intros Hp Hne Hr. assert (In t PLAIN) as Hin.
  { pose proof (plain_by_code t) as H. rewrite Hp in H. by apply find_some in H as [? _]. }
  pose proof (proj1 (forallb_forall _ _) plain_texts_found _ Hin) as H. apply orb_true_iff in H as [H|H].
  { by apply is_tok_spec in H. }
  unfold plain_text. destruct (find _ (KEYWORDS ++ SYMBOLS)) as [[w t']|] eqn:E; [|done].
  apply is_tok_spec in H as ->; [|done]. apply find_some in E as [E _]. apply in_app_iff in E as [E|E].
  - by apply next_token_keyword.
  - by apply next_token_symbol.
Qed.

Lemma next_token_render (t : Token) (rest : bytes) :
  renderable t -> spaced rest -> next_token (render_token t ++ rest) = Ok (t, rest).
Proof.
  intros Ht Hr. destruct (plain_token t) eqn:E.
  - transitivity (next_token (plain_text t ++ rest)); [by destruct t|]. apply next_token_plain; [done| |done]. by intros ->.
  - destruct t; try done; cbn [render_token renderable] in *.
    + by apply next_token_int.
    + apply (next_token_quoted "'"); auto.
    + apply (next_token_quoted Byte.x22); auto.
    + by apply next_token_dollar.
Qed.

Lemma next_token_space (s : bytes) : next_token (Byte.x20 :: s) = next_token s.
Proof. unfold next_token. by rewrite skip_whitespace_space. Qed.

Lemma tokenize_render_loop (ts : list Token) (fuel : nat) (acc : list Token) (lead : bytes) :
  Forall renderable ts -> (lead = [] \/ lead = [Byte.x20]) -> (length ts < fuel)%nat ->
  tokenize_loop fuel (lead ++ concat (map (fun t => render_token t ++ [Byte.x20]) ts)) acc = Some (Ok (acc ++ ts ++ [T_Eof])).
Proof.
  intros Hts. revert fuel acc lead. induction Hts as [|t ts Ht _ IH]; intros [|fuel] acc lead Hlead Hf; cbn [length] in Hf; try lia;
    cbn [tokenize_loop map concat].
  - by destruct Hlead as [->| ->].
  - assert (next_token (lead ++ (render_token t ++ [Byte.x20]) ++ concat (map (fun t => render_token t ++ [Byte.x20]) ts))
      = Ok (t, Byte.x20 :: concat (map (fun t => render_token t ++ [Byte.x20]) ts))) as ->.
    { rewrite <- app_assoc. cbn [app]. destruct Hlead as [->| ->]; cbn [app]; rewrite ?next_token_space; by apply next_token_render. }
    assert (is_tok T_Eof t = false) as ->.
    { apply not_true_is_false. intros ->%is_tok_spec; done. }
    change (Byte.x20 :: concat (map (fun t => render_token t ++ [Byte.x20]) ts))
      with ([Byte.x20] ++ concat (map (fun t => render_token t ++ [Byte.x20]) ts)).
    rewrite IH by (auto || lia). rewrite <- app_assoc. done.
Qed.

Lemma render_long (ts : list Token) :
  (length ts <= length (concat (map (fun t => render_token t ++ [Byte.x20]) ts)))%nat.
Proof. induction ts as [|t ts IH]; simpl; [done|]. rewrite !length_app. simpl. lia. Qed.

Lemma tokenize_render (ts : list Token) : Forall renderable ts -> tokenize (render ts) = Some (Ok (ts ++ [T_Eof])).
Proof.
  intros Hts. unfold tokenize, render, as_bytes. rewrite list_byte_of_string_of_list_byte.
  apply (tokenize_render_loop ts _ [] []); [done | auto|]. pose proof (render_long ts). lia.
Qed.

(** Lexing inverts rendering: the text of any tokens, keywords, operators,
    identifiers and strings with whatever quotes in them, integers and
    parameters, gives the tokens back. *)
Theorem lexer_inverts_rendering (ts : list Token) :
  Forall renderable ts -> tokenize (render ts) = Some (Ok (ts ++ [T_Eof])).
Proof. apply tokenize_render. Qed.

Lemma lexer_inverts_rendering_witness :
  let ts := [T_Select; T_StringLiteral "it's"; T_LongArrow; T_NotTildeStar; T_Dollar 12; T_IntLiteral 9223372036854775807] in
  render ts = "SELECT 'it''s' ->> !~* $12 9223372036854775807 "%string
  /\ tokenize (render ts) = Some (Ok (ts ++ [T_Eof])).
Proof.
  split; [vm_compute; reflexivity|]. apply lexer_inverts_rendering.
  repeat apply Forall_cons_2; try apply Forall_nil; simpl; unfold ascii_text, is_u32; try done; try lia;
    repeat apply Forall_cons_2; try apply Forall_nil; vm_compute; done.
Defined.

(** ** Characters outside ASCII *)

Lemma as_bytes_app (a b : string) : as_bytes (a ++ b) = as_bytes a ++ as_bytes b.
Proof. induction a as [|c a IH]; [done|]. exact (f_equal (cons (byte_of_ascii c)) IH). Qed.

Lemma read_quoted_latin (q : byte) (s acc : bytes) :
  Forall (fun b => byte_eqb b q = false) s -> read_quoted q (s ++ [q]) acc = Some (acc ++ concat (map char_bytes s), []).
Proof.
  intros Hs. revert acc. induction Hs as [|b s Hb _ IH]; intros acc; cbn [app read_quoted map concat].
  - by rewrite byte_eqb_refl, app_nil_r.
  - by rewrite Hb, IH, <- app_assoc.
Qed.

(** A string literal is read byte by byte, each byte becoming the character
    of its number. So a literal in ASCII is read as it is written, and every
    other one is not: each byte from 128 on becomes two. *)
Theorem lexer_takes_characters_apart (s : string) :
  Forall (fun b => byte_eqb b "'" = false) (as_bytes s) ->
  exists out, tokenize ("'" ++ s ++ "'") = Some (Ok [T_StringLiteral out; T_Eof])
    /\ as_bytes out = concat (map char_bytes (as_bytes s))
    /\ (out = s <-> ascii_text s).
Proof.
  intros Hs. exists (string_of_list_byte (concat (map char_bytes (as_bytes s)))).
  assert (as_bytes ("'" ++ s ++ "'") = "'"%byte :: as_bytes s ++ ["'"%byte]) as Hb.
  { by rewrite !as_bytes_app. }
  unfold tokenize. rewrite Hb. split_and!.
  - cbn [length tokenize_loop]. unfold next_token at 1. rewrite skip_whitespace_here by done.
    change (byte_eqb "'" "'") with true. cbv iota. unfold read_string. rewrite read_quoted_latin by done.
    rewrite length_app, Nat.add_1_r. reflexivity.
  - apply list_byte_of_string_of_list_byte.
  - transitivity (as_bytes (string_of_list_byte (concat (map char_bytes (as_bytes s)))) = as_bytes s);
      [split; [by intros -> | apply as_bytes_inj]|].
    unfold as_bytes at 1. rewrite list_byte_of_string_of_list_byte. unfold ascii_text.
    assert (forall l : bytes, (length l <= length (concat (map char_bytes l)))%nat) as Hlen.
    { induction l as [|b l IH]; simpl; [done|]. rewrite length_app.
      assert (1 <= length (char_bytes b))%nat by (unfold char_bytes; destruct (Z_of_byte b <? 128); simpl; lia). lia. }
    clear Hs Hb. induction (as_bytes s) as [|b l IH]; [by split|]. cbn [map concat]. rewrite Forall_cons, <- IH.
    unfold char_bytes at 1. destruct (Z.ltb_spec (Z_of_byte b) 128) as [Hb|Hb].
    + cbn [app]. split; [by intros [= ->] | by intros [_ ->]].
    + split; [|intros [? _]; lia]. intros Heq. apply (f_equal length) in Heq. rewrite length_app in Heq. specialize (Hlen l).
      simpl in Heq. lia.
Qed.

(** [é] is [C3 A9]; read as two characters it is [C3 83 C2 A9]. *)
Lemma lexer_takes_characters_apart_witness :
  exists out, tokenize ("'" ++ string_of_list_byte [Byte.xc3; Byte.xa9] ++ "'") = Some (Ok [T_StringLiteral out; T_Eof])
    /\ as_bytes out = [Byte.xc3; Byte.x83; Byte.xc2; Byte.xa9].
Proof.
  destruct (lexer_takes_characters_apart (string_of_list_byte [Byte.xc3; Byte.xa9])) as (out & H1 & H2 & _).
  - repeat apply Forall_cons_2; try apply Forall_nil; vm_compute; reflexivity.
  - exists out. split; [exact H1 | rewrite H2; vm_compute; reflexivity].
Defined.
