(* ===== verification/Parser.v ===== *)
(** The SQL parser ([sql/parser.rs] and [sql/mod.rs]).

    The parser's position is the list of the tokens that are left; past the
    end there is [Eof]. A parser returns [None] when it has not ended. Loops
    run for as many rounds as tokens are left: a loop whose rounds each take a
    token ends within them.

    Expressions and queries contain each other. Their productions are written
    over the two parsers that they call, [parse_expr] and [parse_select], and
    [knot] ties them together; every call is on fewer tokens than its caller
    was given, so as many levels as tokens are enough. *)

From Stdlib Require Import Strings.Byte Strings.String ZArith Lia Bool.
From stdpp Require Import base list strings.
From S2P Require Import Prelude Utf8 Decimal Ast Lexer.

Open Scope Z_scope.

(** ** Parsers *)

Definition P (A : Type) : Type := list Token -> option (Result (A * list Token)).

Definition ret {A : Type} (a : A) : P A := fun ts => Some (Ok (a, ts)).
Definition bail {A : Type} (e : string) : P A := fun _ => Some (Err e).
Definition bind {A B : Type} (p : P A) (k : A -> P B) : P B := fun ts =>
  match p ts with
  | Some (Ok (a, ts')) => k a ts'
  | Some (Err e) => Some (Err e)
  | None => None
  end.

Declare Scope parser_scope.
Notation "'let!' x ':=' p 'in' k" := (bind p (fun x => k))
  (at level 10, x binder, p at level 100, k at level 200) : parser_scope.
Notation "'do!' p 'in' k" := (bind p (fun _ => k))
  (at level 10, p at level 100, k at level 200) : parser_scope.
Open Scope parser_scope.

Definition first_tok (ts : list Token) : Token := match ts with t :: _ => t | [] => T_Eof end.

Definition peek : P Token := fun ts => ret (first_tok ts) ts.
Definition peek2 : P Token := fun ts => ret (first_tok (tail ts)) ts.
Definition advance : P Token := fun ts => Some (Ok (first_tok ts, tail ts)).

Definition expect (expected : Token) : P unit :=
  let! got := advance in if is_tok expected got then ret tt else bail "unexpected token".

Definition eat (tok : Token) : P bool := fun ts =>
  if is_tok tok (first_tok ts) then Some (Ok (true, tail ts)) else Some (Ok (false, ts)).

(** A loop: each round goes on with a state or breaks with a result. *)
Fixpoint iter {A B : Type} (fuel : nat) (body : A -> P (A + B)) (a : A) : P B :=
  match fuel with
  | O => fun _ => None
  | S fuel' =>
      let! r := body a in
      match r with inl a => iter fuel' body a | inr b => ret b end
  end.

Definition iterate {A B : Type} (body : A -> P (A + B)) (a : A) : P B := fun ts =>
  iter (S (length ts)) body a ts.

(** [vec![item()?]], then [while self.eat(&sep) { push(item()?) }] *)
Definition more_items {A : Type} (item : P A) (acc : list A) : P (list A + list A) :=
  let! more := eat T_Comma in
  if more then let! x := item in ret (inl (acc ++ [x])) else ret (inr acc).

Definition comma_list {A : Type} (item : P A) : P (list A) :=
  let! x := item in iterate (more_items item) [x].

(** [if self.eat(&tok) { Some(p()?) } else { None }] *)
Definition opt_after {A : Type} (tok : Token) (p : P A) : P (option A) :=
  let! b := eat tok in if b then let! x := p in ret (Some x) else ret None.

Definition is_ident (t : Token) : bool := match t with T_Ident _ => true | _ => false end.

(** ** Names *)

Definition parse_ident_string : P string :=
  let! t := advance in match t with T_Ident s => ret s | _ => bail "expected identifier" end.

Definition parse_object_name : P string :=
  let! first := parse_ident_string in
  let! dot := eat T_Dot in
  if dot then parse_ident_string else ret first.

Definition parse_paren_ident_list : P (list string) :=
  do! expect T_LParen in
  let! names := comma_list parse_ident_string in
  do! expect T_RParen in ret names.

Definition parse_role_name_list : P (list string) := comma_list parse_ident_string.

(** [if self.eat(&Token::LParen) { ... } else { vec![] }] *)
Definition opt_paren_ident_list : P (list string) :=
  let! paren := eat T_LParen in
  if paren then
    let! names := comma_list parse_ident_string in
    do! expect T_RParen in ret names
  else ret [].

Definition cast_name_step (name : string) : P (string + string) :=
  let! dot := eat T_Dot in
  if dot then let! name := parse_ident_string in ret (inl name) else ret (inr name).

Definition parse_cast_type_name : P string :=
  let! name := parse_ident_string in iterate cast_name_step name.

Definition parse_type_name : P string :=
  let! name := parse_ident_string in
  let! t1 := peek in let! t2 := peek2 in
  if is_tok T_LBracket t1 && is_tok T_RBracket t2 then
    do! advance in do! advance in ret (name ++ "[]")%string
  else ret name.

(** [if self.eat(&Token::As) { Some(ident) } else if let Token::Ident(_) = self.peek() { ... }] *)
Definition parse_alias : P (option string) :=
  let! as_ := eat T_As in
  if as_ then let! s := parse_ident_string in ret (Some s)
  else
    let! t := peek in
    if is_ident t then let! s := parse_ident_string in ret (Some s) else ret None.

Definition parse_option_key : P string :=
  let! t := advance in
  match t with
  | T_Ident s => ret s
  | T_Interval => ret "interval"%string
  | T_To => ret "to"%string
  | _ => bail "expected an index option name"
  end.

Definition parse_option_value : P string :=
  let! t := advance in
  match t with
  | T_StringLiteral s => ret s
  | T_Ident s => ret s
  | T_IntLiteral n => ret (to_dec n)
  | _ => bail "expected a string or integer literal for option value"
  end.

Definition parse_kv_option : P (string * string) :=
  let! key := parse_option_key in
  do! expect T_Eq in
  let! value := parse_option_value in
  ret (key, value).

(** [WITH (key = value, ...)], if there is one. *)
Definition parse_with_options : P (list (string * string)) :=
  let! with_ := eat T_With in
  if with_ then
    do! expect T_LParen in
    let! opts := comma_list parse_kv_option in
    do! expect T_RParen in ret opts
  else ret [].

(** [IF NOT EXISTS], if it is there. *)
Definition parse_if_not_exists : P bool :=
  let! t1 := peek in let! t2 := peek2 in
  if is_tok T_If t1 && is_tok T_Not t2 then
    do! advance in do! advance in do! expect T_Exists in ret true
  else ret false.

Definition parse_if_exists : P bool :=
  let! t1 := peek in let! t2 := peek2 in
  if is_tok T_If t1 && is_tok T_Exists t2 then do! advance in do! advance in ret true else ret false.

(** ** Operators *)

Definition infix_bp (tok : Token) : option (Z * Z * BinOp) :=
  match tok with
  | T_Or => Some (1, 2, BinOp_Or)
  | T_And => Some (3, 4, BinOp_And)
  | T_Eq => Some (5, 6, BinOp_Eq)
  | T_NotEq => Some (5, 6, BinOp_NotEq)
  | T_Lt => Some (5, 6, BinOp_Lt)
  | T_Lte => Some (5, 6, BinOp_Lte)
  | T_Gt => Some (5, 6, BinOp_Gt)
  | T_Gte => Some (5, 6, BinOp_Gte)
  | T_Concat => Some (7, 8, BinOp_Concat)
  | T_Plus => Some (9, 10, BinOp_Add)
  | T_Minus => Some (9, 10, BinOp_Sub)
  | T_Star => Some (11, 12, BinOp_Mul)
  | T_Slash => Some (11, 12, BinOp_Div)
  | T_Percent => Some (11, 12, BinOp_Mod)
  | T_Arrow => Some (13, 14, BinOp_Arrow)
  | T_LongArrow => Some (13, 14, BinOp_LongArrow)
  | T_HashArrow => Some (13, 14, BinOp_HashArrow)
  | T_HashLongArrow => Some (13, 14, BinOp_HashLongArrow)
  | T_AtArrow => Some (5, 6, BinOp_Contains)
  | T_Tilde => Some (5, 6, BinOp_RegexMatch)
  | T_NotTilde => Some (5, 6, BinOp_RegexNotMatch)
  | T_TildeStar => Some (5, 6, BinOp_RegexMatchCI)
  | T_NotTildeStar => Some (5, 6, BinOp_RegexNotMatchCI)
  | T_Is | T_Between | T_Like | T_In | T_Not => Some (5, 6, BinOp_Eq)
  | T_Collate | T_Operator => Some (5, 6, BinOp_Eq)
  | _ => None
  end.

(** [n as f64], [n] being a literal and so not negative. *)
Definition int_to_f64 (n : Z) : Z := f64_of_ratio n 1.

Definition array_step (items : list Z) : P (list Z + list Z) :=
  let! t := peek in
  let! items := match t with
                | T_FloatLiteral f => do! advance in ret (items ++ [f])
                | T_IntLiteral n => do! advance in ret (items ++ [int_to_f64 n])
                | _ => bail "expected numeric element in float array literal"
                end in
  let! comma := eat T_Comma in
  if comma then ret (inl items) else ret (inr items).

Definition parse_float_array_literal : P Expr :=
  do! expect T_LBracket in
  let! t := peek in
  let! items := if is_tok T_RBracket t then ret [] else iterate array_step [] in
  do! expect T_RBracket in
  ret (Expr_Literal (Literal_FloatArray items)).

(** [schema.], if it is there. *)
Definition skip_schema : P unit :=
  let! t1 := peek in let! t2 := peek2 in
  if is_ident t1 && is_tok T_Dot t2 then do! advance in do! advance in ret tt else ret tt.

(** ** Expressions and queries *)

Section Grammar.
  (** The parsers themselves, for what is nested. *)
  Context (parse_expr : Z -> P Expr) (parse_select : P SelectStmt).

Definition parse_expr_list : P (list Expr) := comma_list (parse_expr 0).

Definition parse_order_by : P OrderBy :=
  let! expr := parse_expr 0 in
  let! desc := eat T_Desc in
  if desc then ret (mkOrderBy expr false) else do! eat T_Asc in ret (mkOrderBy expr true).

Definition parse_order_by_list : P (list OrderBy) := comma_list parse_order_by.

(** [ORDER BY ...], if it is there. *)
Definition opt_order_by : P (list OrderBy) :=
  let! t1 := peek in let! t2 := peek2 in
  if is_tok T_Order t1 && is_tok T_By t2 then do! advance in do! advance in parse_order_by_list else ret [].

(** [PRECEDING] or [FOLLOWING] *)
Definition parse_direction {A : Type} (preceding following : A) : P A :=
  let! t := advance in
  match t with
  | T_Preceding => ret preceding
  | T_Following => ret following
  | _ => bail "expected PRECEDING or FOLLOWING"
  end.

Definition parse_offset_bound : P FrameBound :=
  let! offset := parse_expr 0 in
  parse_direction (mkFrameBound FrameBoundType_Preceding (Some offset)) (mkFrameBound FrameBoundType_Following (Some offset)).

Definition parse_frame_bound : P FrameBound :=
  let! t := peek in
  match t with
  | T_Unbounded =>
      do! advance in
      parse_direction (mkFrameBound FrameBoundType_UnboundedPreceding None) (mkFrameBound FrameBoundType_UnboundedFollowing None)
  | T_Current =>
      do! advance in do! expect T_Row in ret (mkFrameBound FrameBoundType_CurrentRow None)
  | _ => parse_offset_bound
  end.

Definition parse_window_frame : P WindowFrame :=
  let! t := advance in
  let! frame_type := match t with
                     | T_Rows => ret FrameType_Rows
                     | T_Range => ret FrameType_Range
                     | _ => bail "expected ROWS or RANGE"
                     end in
  let! between := eat T_Between in
  if between then
    let! start := parse_frame_bound in
    do! expect T_And in
    let! end_ := parse_frame_bound in ret (mkWindowFrame frame_type start (Some end_))
  else let! start := parse_frame_bound in ret (mkWindowFrame frame_type start None).

Definition parse_over_clause (func : string) (args : list Expr) : P Expr :=
  do! expect T_Over in
  do! expect T_LParen in
  let! t := peek in
  let! partition_by := if is_tok T_Partition t then do! advance in do! expect T_By in parse_expr_list else ret [] in
  let! order_by := opt_order_by in
  let! t := peek in
  let! frame := if is_tok T_Rows t || is_tok T_Range t then let! f := parse_window_frame in ret (Some f) else ret None in
  do! expect T_RParen in
  ret (Expr_Window func args partition_by order_by frame).

Definition case_step (branches : list (Expr * Expr)) : P (list (Expr * Expr) + list (Expr * Expr)) :=
  let! when_ := eat T_When in
  if when_ then
    let! cond := parse_expr 0 in
    do! expect T_Then in
    let! result := parse_expr 0 in ret (inl (branches ++ [(cond, result)]))
  else ret (inr branches).

Definition parse_case : P Expr :=
  let! t := peek in
  let! operand := if is_tok T_When t then ret None else let! e := parse_expr 0 in ret (Some e) in
  let! branches := iterate case_step [] in
  let! else_ := opt_after T_Else (parse_expr 0) in
  do! expect T_End in
  ret (Expr_Case operand branches else_).

(** The call of a function whose opening parenthesis has been read. *)
Definition parse_call (name : string) : P Expr :=
  let! distinct := eat T_Distinct in
  let! t := peek in
  let! args := if is_tok T_Star t then do! advance in ret []
               else if is_tok T_RParen t then ret []
               else parse_expr_list in
  do! expect T_RParen in
  let! t := peek in
  if is_tok T_Over t then parse_over_clause name args else ret (Expr_Function name args distinct).

Definition parse_atom : P Expr :=
  let! t := peek in
  match t with
  | T_IntLiteral n => do! advance in ret (Expr_Literal (Literal_Int n))
  | T_FloatLiteral f => do! advance in ret (Expr_Literal (Literal_Float f))
  | T_StringLiteral s => do! advance in ret (Expr_Literal (Literal_Text s))
  | T_True => do! advance in ret (Expr_Literal (Literal_Bool true))
  | T_False => do! advance in ret (Expr_Literal (Literal_Bool false))
  | T_Null => do! advance in ret (Expr_Literal Literal_Null)
  | T_LBracket => parse_float_array_literal
  | T_Dollar n => do! advance in ret (Expr_Param n)
  | T_LParen =>
      let! t2 := peek2 in
      do! advance in
      if is_tok T_Select t2 then
        let! subquery := parse_select in
        do! expect T_RParen in ret (Expr_Subquery subquery)
      else
        let! expr := parse_expr 0 in
        do! expect T_RParen in ret expr
  | T_Case => do! advance in parse_case
  | T_Cast =>
      do! advance in
      do! expect T_LParen in
      let! inner := parse_expr 0 in
      do! eat T_As in
      let! ty := parse_cast_type_name in
      do! expect T_RParen in ret (Expr_Cast inner ty)
  | T_Ident name =>
      do! advance in
      let! paren := eat T_LParen in
      if paren then parse_call name
      else
        let! dot := eat T_Dot in
        if dot then
          let! col := parse_ident_string in
          let! paren := eat T_LParen in
          if paren then parse_call (name ++ "." ++ col)%string else ret (Expr_QualifiedIdent name col)
        else ret (Expr_Ident name)
  | _ => bail "unexpected token in expression"
  end.

Definition postfix_step (expr : Expr) : P (Expr + Expr) :=
  let! cast := eat T_DoubleColon in
  if cast then let! ty := parse_cast_type_name in ret (inl (Expr_Cast expr ty)) else ret (inr expr).

Definition parse_postfix : P Expr := let! expr := parse_atom in iterate postfix_step expr.

Definition parse_exists (negated : bool) : P Expr :=
  do! expect T_Exists in
  do! expect T_LParen in
  let! subquery := parse_select in
  do! expect T_RParen in ret (Expr_Exists subquery negated).

(** [Ok(f(result?))] *)
Definition map_ok {A B : Type} (f : A -> B) (r : option (Result (A * list Token))) : option (Result (B * list Token)) :=
  match r with
  | Some (Ok (a, ts)) => Some (Ok (f a, ts))
  | Some (Err e) => Some (Err e)
  | None => None
  end.

Fixpoint parse_unary (ts : list Token) : option (Result (Expr * list Token)) :=
  match ts with
  | [] => parse_postfix []
  | t :: ts' =>
      if is_tok T_Minus t then map_ok (Expr_UnaryOp UnOp_Neg) (parse_unary ts')
      else if is_tok T_Plus t then parse_unary ts'
      else if is_tok T_Not t && is_tok T_Exists (first_tok ts') then parse_exists true ts'
      else if is_tok T_Not t then map_ok (Expr_UnaryOp UnOp_Not) (parse_unary ts')
      else if is_tok T_Exists t then parse_exists false ts
      else parse_postfix ts
  end.

(** *** The operators after an operand *)

Definition infix_is (lhs : Expr) : P (Expr + Expr) :=
  do! advance in
  let! negated := eat T_Not in
  let! t := peek in
  match t with
  | T_Null => do! advance in ret (inl (Expr_IsNull lhs negated))
  | T_True => do! advance in ret (inl (Expr_IsTrue lhs negated))
  | T_False => do! advance in ret (inl (Expr_IsFalse lhs negated))
  | _ => bail "expected NULL, TRUE, or FALSE after IS"
  end.

Definition infix_between (r_bp : Z) (lhs : Expr) : P (Expr + Expr) :=
  let! negated := eat T_Not in
  do! expect T_Between in
  let! low := parse_expr r_bp in
  do! eat T_And in
  let! high := parse_expr r_bp in
  ret (inl (Expr_Between lhs low high negated)).

Definition infix_like (r_bp : Z) (lhs : Expr) : P (Expr + Expr) :=
  let! negated := eat T_Not in
  do! expect T_Like in
  let! pattern := parse_expr r_bp in
  ret (inl (Expr_Like lhs pattern negated)).

Definition infix_in (lhs : Expr) : P (Expr + Expr) :=
  let! negated := eat T_Not in
  do! expect T_In in
  do! expect T_LParen in
  let! t := peek in
  let! list_ := if is_tok T_Select t then let! q := parse_select in ret (InList_Subquery q)
                else let! es := parse_expr_list in ret (InList_Exprs es) in
  do! expect T_RParen in
  ret (inl (Expr_In lhs list_ negated)).

Definition infix_collate (lhs : Expr) : P (Expr + Expr) :=
  do! advance in
  do! skip_schema in
  let! t := peek in
  do! (if is_ident t || is_tok T_Default t then do! advance in ret tt else ret tt) in
  ret (inl lhs).

Definition infix_operator (lhs : Expr) : P (Expr + Expr) :=
  do! advance in
  do! expect T_LParen in
  do! skip_schema in
  let! op_tok := peek in
  match infix_bp op_tok with
  | None => bail "unknown operator in OPERATOR(...)"
  | Some (_, r_bp, binop) =>
      do! advance in
      do! expect T_RParen in
      let! rhs := parse_expr r_bp in
      ret (inl (Expr_BinaryOp binop lhs rhs))
  end.

(** [self.peek() == tok || (self.peek() == NOT && self.peek2() == tok)] *)
Definition or_negated (tok t1 t2 : Token) : bool := is_tok tok t1 || (is_tok T_Not t1 && is_tok tok t2).

(** One round of the loop of [parse_expr]. *)
Definition infix_step (min_bp : Z) (lhs : Expr) : P (Expr + Expr) :=
  let! t1 := peek in let! t2 := peek2 in
  match infix_bp t1 with
  | None => ret (inr lhs)
  | Some (l_bp, r_bp, op) =>
      if l_bp <? min_bp then ret (inr lhs)
      else if is_tok T_Is t1 then infix_is lhs
      else if or_negated T_Between t1 t2 then infix_between r_bp lhs
      else if or_negated T_Like t1 t2 then infix_like r_bp lhs
      else if or_negated T_In t1 t2 then infix_in lhs
      else if is_tok T_Collate t1 then infix_collate lhs
      else if is_tok T_Operator t1 then infix_operator lhs
      else
        do! advance in
        let! rhs := parse_expr r_bp in
        ret (inl (Expr_BinaryOp op lhs rhs))
  end.

Definition expr_body (min_bp : Z) : P Expr := let! lhs := parse_unary in iterate (infix_step min_bp) lhs.

(** *** Queries *)

Definition parse_projection : P Projection :=
  let! star := eat T_Star in
  if star then
    let! dot := eat T_Dot in
    if dot then let! table := parse_ident_string in ret (Projection_WildcardTable table) else ret Projection_Wildcard
  else
    let! expr := parse_expr 0 in
    let! alias := parse_alias in
    ret (Projection_Expr expr alias).

Definition parse_projection_list : P (list Projection) := comma_list parse_projection.

(** The arguments of a table function, its opening parenthesis being read. *)
Definition parse_func_args : P (list Expr) :=
  let! t := peek in
  let! args := if is_tok T_RParen t then ret [] else parse_expr_list in
  do! expect T_RParen in ret args.

Definition parse_table_ref : P TableRef :=
  let! t1 := peek in let! t2 := peek2 in
  if is_tok T_LParen t1 && is_tok T_Select t2 then
    do! advance in
    let! subquery := parse_select in
    do! expect T_RParen in
    do! eat T_As in
    let! alias := parse_ident_string in
    ret (mkTableRef alias (Some alias) (Some subquery) None)
  else
    let! first := parse_ident_string in
    let! paren := eat T_LParen in
    if paren then
      let! args := parse_func_args in
      let! alias := parse_alias in
      ret (mkTableRef first alias None (Some args))
    else
      let! dot := eat T_Dot in
      let! name := if dot then
                     let! second := parse_ident_string in
                     let schema := to_ascii_lowercase first in
                     if String.eqb schema "pg_catalog" || String.eqb schema "information_schema"
                     then ret (first ++ "." ++ second)%string else ret second
                   else ret first in
      let! alias := parse_alias in
      ret (mkTableRef name alias None None).

Definition parse_join_type : P (option JoinType) :=
  let! t := peek in
  match t with
  | T_Comma => do! advance in ret (Some JoinType_Cross)
  | T_Join => do! advance in ret (Some JoinType_Inner)
  | T_Left => do! advance in do! eat T_Join in ret (Some JoinType_Left)
  | T_Right => do! advance in do! eat T_Join in ret (Some JoinType_Right)
  | T_Full => do! advance in do! eat T_Join in ret (Some JoinType_Full)
  | T_Cross => do! advance in do! expect T_Join in ret (Some JoinType_Cross)
  | _ => ret None
  end.

Definition join_step (joins : list Join) : P (list Join + list Join) :=
  let! join_type := parse_join_type in
  match join_type with
  | None => ret (inr joins)
  | Some join_type =>
      let! table := parse_table_ref in
      let! on_ := opt_after T_On (parse_expr 0) in
      ret (inl (joins ++ [mkJoin join_type table on_]))
  end.

Definition parse_table_with_joins : P TableWithJoins :=
  let! primary := parse_table_ref in
  let! joins := iterate join_step [] in
  ret (mkTableWithJoins primary joins).

Definition opt_group_by : P (list Expr) :=
  let! t1 := peek in let! t2 := peek2 in
  if is_tok T_Group t1 && is_tok T_By t2 then do! advance in do! advance in parse_expr_list else ret [].

Definition opt_union : P (option (UnionOp * SelectStmt)) :=
  let! union_ := eat T_Union in
  if union_ then
    let! all := eat T_All in
    let! rhs := parse_select in
    ret (Some (if all : bool then UnionOp_UnionAll else UnionOp_Union, rhs))
  else ret None.

Definition select_body : P SelectStmt :=
  do! expect T_Select in
  let! distinct := eat T_Distinct in
  do! (if distinct : bool then ret false else eat T_All) in
  let! projections := parse_projection_list in
  let! from_ := opt_after T_From parse_table_with_joins in
  let! where_ := opt_after T_Where (parse_expr 0) in
  let! group_by := opt_group_by in
  let! having := opt_after T_Having (parse_expr 0) in
  let! order_by := opt_order_by in
  let! limit := opt_after T_Limit (parse_expr 0) in
  let! offset := opt_after T_Offset (parse_expr 0) in
  let! union_ := opt_union in
  ret (mkSelectStmt [] distinct projections from_ where_ group_by having order_by limit offset union_).

End Grammar.

(** The two parsers, [depth] levels of nesting at most. *)
Fixpoint knot (depth : nat) : (Z -> P Expr) * P SelectStmt :=
  match depth with
  | O => (fun _ _ => None, fun _ => None)
  | S depth' =>
      let k := knot depth' in
      (expr_body (fst k) (snd k), select_body (fst k) (snd k))
  end.

Definition parse_expr (min_bp : Z) : P Expr := fun ts => fst (knot (S (length ts))) min_bp ts.
Definition parse_select : P SelectStmt := fun ts => snd (knot (S (length ts))) ts.

(** ** Changes of rows *)

Definition parse_cte (recursive : bool) : P Cte :=
  let! name := parse_ident_string in
  let! columns := opt_paren_ident_list in
  do! expect T_As in
  do! expect T_LParen in
  let! subquery := parse_select in
  do! expect T_RParen in
  ret (mkCte name columns subquery recursive).

Definition parse_ctes (recursive : bool) : P (list Cte) := comma_list (parse_cte recursive).

Definition with_ctes (ctes : list Cte) (s : SelectStmt) : SelectStmt :=
  let 'mkSelectStmt _ d p f w g h o l off u := s in mkSelectStmt ctes d p f w g h o l off u.

Definition parse_row : P (list Expr) :=
  do! expect T_LParen in
  let! row := parse_expr_list parse_expr in
  do! expect T_RParen in ret row.

Definition rows_step (values : list (list Expr)) : P (list (list Expr) + list (list Expr)) :=
  let! t1 := peek in let! t2 := peek2 in
  if is_tok T_Comma t1 && is_tok T_LParen t2 then
    do! advance in
    let! row := parse_row in ret (inl (values ++ [row]))
  else ret (inr values).

Definition parse_insert : P Stmt :=
  do! expect T_Into in
  let! table := parse_object_name in
  let! columns := opt_paren_ident_list in
  do! expect T_Values in
  let! first := parse_row in
  let! values := iterate rows_step [first] in
  ret (Stmt_Insert (mkInsertStmt table columns values)).

Definition parse_delete : P Stmt :=
  do! expect T_From in
  let! table := parse_object_name in
  let! where_ := opt_after T_Where (parse_expr 0) in
  ret (Stmt_Delete (mkDeleteStmt table where_)).

Definition parse_assignment : P (string * Expr) :=
  let! col := parse_ident_string in
  do! expect T_Eq in
  let! expr := parse_expr 0 in ret (col, expr).

Definition parse_update : P Stmt :=
  let! table := parse_object_name in
  do! expect T_Set in
  let! assignments := comma_list parse_assignment in
  let! where_ := opt_after T_Where (parse_expr 0) in
  ret (Stmt_Update (mkUpdateStmt table assignments where_)).

(** ** Tables *)

Definition actions_step (u : unit) : P (unit + unit) :=
  let! t := peek in
  if is_tok T_On t then
    do! advance in do! advance in do! advance in
    let! t := peek in
    do! (if is_tok T_Null t || is_tok T_Default t then do! advance in ret tt else ret tt) in
    ret (inl u)
  else ret (inr u).

Definition skip_referential_actions : P unit := iterate actions_step tt.

(** [table(column)] after [REFERENCES] *)
Definition parse_reference : P (string * string) :=
  let! ref_table := parse_object_name in
  do! expect T_LParen in
  let! ref_column := parse_ident_string in
  do! expect T_RParen in ret (ref_table, ref_column).

(** The attributes of a column so far. *)
Definition set_nullable (b : bool) (c : ColumnDef) : ColumnDef :=
  mkColumnDef (cd_name c) (cd_col_type c) b (cd_default c) (cd_is_pk c) (cd_is_unique c) (cd_references c) (cd_is_serial c).
Definition set_default (e : Expr) (c : ColumnDef) : ColumnDef :=
  mkColumnDef (cd_name c) (cd_col_type c) (cd_nullable c) (Some e) (cd_is_pk c) (cd_is_unique c) (cd_references c) (cd_is_serial c).
Definition set_pk (c : ColumnDef) : ColumnDef :=
  mkColumnDef (cd_name c) (cd_col_type c) false (cd_default c) true (cd_is_unique c) (cd_references c) (cd_is_serial c).
Definition set_unique (c : ColumnDef) : ColumnDef :=
  mkColumnDef (cd_name c) (cd_col_type c) (cd_nullable c) (cd_default c) (cd_is_pk c) true (cd_references c) (cd_is_serial c).
Definition set_references (r : string * string) (c : ColumnDef) : ColumnDef :=
  mkColumnDef (cd_name c) (cd_col_type c) (cd_nullable c) (cd_default c) (cd_is_pk c) (cd_is_unique c) (Some r) (cd_is_serial c).

Definition attribute_step (c : ColumnDef) : P (ColumnDef + ColumnDef) :=
  let! t := peek in
  match t with
  | T_Primary => do! advance in do! expect T_Key in ret (inl (set_pk c))
  | T_Not =>
      do! advance in
      let! null := eat T_Null in
      ret (inl (if null : bool then set_nullable false c else c))
  | T_Null => do! advance in ret (inl (set_nullable true c))
  | T_Default => do! advance in let! e := parse_expr 0 in ret (inl (set_default e c))
  | T_Unique => do! advance in ret (inl (set_unique c))
  | T_References =>
      do! advance in
      let! r := parse_reference in
      do! skip_referential_actions in ret (inl (set_references r c))
  | _ => ret (inr c)
  end.

(** The type of a serial column; [None] for the others. *)
Definition serial_type (col_type : string) : option string :=
  let ty := to_ascii_lowercase col_type in
  if String.eqb ty "smallserial" then Some "int2"%string
  else if String.eqb ty "bigserial" then Some "int8"%string
  else if String.eqb ty "serial" then Some "int4"%string
  else None.

Definition parse_column : P ColumnDef :=
  let! name := parse_ident_string in
  let! col_type := parse_ident_string in
  let start := match serial_type col_type with
               | Some ty => mkColumnDef name ty false None false false None true
               | None => mkColumnDef name col_type true None false false None false
               end in
  iterate attribute_step start.

Definition columns_step (columns : list ColumnDef) : P (list ColumnDef + list ColumnDef) :=
  let! t := peek in
  if is_tok T_Primary t || is_tok T_Unique t || is_tok T_Foreign t then ret (inr columns)
  else
    let! c := parse_column in
    let! comma := eat T_Comma in
    ret (if comma : bool then inl (columns ++ [c]) else inr (columns ++ [c])).

(** [columns.iter_mut().find(|c| c.name == col)], made a primary key. *)
Fixpoint mark_pk (col : string) (columns : list ColumnDef) : list ColumnDef :=
  match columns with
  | [] => []
  | c :: columns' => if String.eqb (cd_name c) col then set_pk c :: columns' else c :: mark_pk col columns'
  end.

Definition depth_step (depth : Z) : P (Z + unit) :=
  if depth <=? 0 then ret (inr tt)
  else
    let! t := advance in
    match t with
    | T_LParen => ret (inl (depth + 1))
    | T_RParen => ret (inl (depth - 1))
    | T_Eof => ret (inr tt)
    | _ => ret (inl depth)
    end.

(** Up to the parenthesis that closes the one read; the loop looks once more
    at the depth than it takes tokens. *)
Definition skip_group : P unit := fun ts => iter (S (S (length ts))) depth_step 1 ts.

Definition skip_unknown : P unit :=
  do! advance in
  let! paren := eat T_LParen in
  if paren then skip_group else ret tt.

Definition Constraints : Type := list ColumnDef * list TableConstraint.

Definition parse_foreign_key : P TableConstraint :=
  do! expect T_Key in
  let! cols := parse_paren_ident_list in
  match cols with
  | [] => bail "FOREIGN KEY requires at least one column"
  | column :: _ =>
      do! expect T_References in
      let! r := parse_reference in
      do! skip_referential_actions in
      ret (TableConstraint_ForeignKey column (fst r) (snd r))
  end.

Definition constraint_step (cs : Constraints) : P (Constraints + Constraints) :=
  let '(columns, constraints) := cs in
  let! closed := eat T_RParen in
  if closed then ret (inr cs)
  else
    let! t := peek in
    match t with
    | T_Primary =>
        do! advance in
        do! expect T_Key in
        let! cols := parse_paren_ident_list in
        ret (inl (fold_left (fun cs col => mark_pk col cs) cols columns, constraints))
    | T_Unique =>
        do! advance in
        let! cols := parse_paren_ident_list in
        ret (inl (columns, constraints ++ [TableConstraint_Unique cols]))
    | T_Foreign =>
        do! advance in
        let! k := parse_foreign_key in
        ret (inl (columns, constraints ++ [k]))
    | T_Comma => do! advance in ret (inl cs)
    | _ => do! skip_unknown in ret (inl cs)
    end.

Definition parse_create_table : P Stmt :=
  let! if_not_exists := parse_if_not_exists in
  let! table := parse_object_name in
  do! expect T_LParen in
  let! columns := iterate columns_step [] in
  let! cs := iterate constraint_step (columns, []) in
  let! options := parse_with_options in
  ret (Stmt_CreateTable (mkCreateTableStmt table if_not_exists (fst cs) (snd cs) options)).

Definition add_column_step (c : ColumnDef) : P (ColumnDef + ColumnDef) :=
  let! t := peek in
  match t with
  | T_Default => do! advance in let! e := parse_expr 0 in ret (inl (set_default e c))
  | T_Not => do! advance in do! expect T_Null in ret (inl (set_nullable false c))
  | _ => ret (inr c)
  end.

Definition parse_column_action : P ColumnAction :=
  let! is_set := eat T_Set in
  if is_set then
    let! default_ := eat T_Default in
    if default_ then let! e := parse_expr 0 in ret (ColumnAction_SetDefault e)
    else do! expect T_Not in do! expect T_Null in ret ColumnAction_SetNotNull
  else
    do! expect T_Drop in
    let! default_ := eat T_Default in
    if default_ then ret ColumnAction_DropDefault
    else do! expect T_Not in do! expect T_Null in ret ColumnAction_DropNotNull.

(** [matches!(tok, Token::Ident(s) if s.eq_ignore_ascii_case(word))], [word] being in lower case *)
Definition is_word_tok (word : string) (t : Token) : bool :=
  match t with T_Ident s => String.eqb (to_ascii_lowercase s) word | _ => false end.

Definition parse_alter_table : P Stmt :=
  do! expect T_Table in
  let! t := peek in
  do! (if is_word_tok "only" t then do! advance in ret tt else ret tt) in
  let! table := parse_object_name in
  let! t := peek in
  let! action :=
    if is_word_tok "add" t then
      do! advance in
      do! eat T_Column in
      let! name := parse_ident_string in
      let! col_type := parse_ident_string in
      let! c := iterate add_column_step (mkColumnDef name col_type true None false false None false) in
      ret (AlterTableAction_AddColumn c)
    else if is_tok T_Drop t then
      do! advance in
      do! eat T_Column in
      let! name := parse_ident_string in ret (AlterTableAction_DropColumn name)
    else if is_tok T_Alter t then
      do! advance in
      do! eat T_Column in
      let! name := parse_ident_string in
      let! action := parse_column_action in ret (AlterTableAction_AlterColumn name action)
    else bail "expected ADD, DROP, or ALTER after ALTER TABLE" in
  ret (Stmt_AlterTable (mkAlterTableStmt table action)).

Definition parse_create_index : P Stmt :=
  let! if_not_exists := parse_if_not_exists in
  let! t := peek in
  let! name := if is_tok T_On t then ret None else let! n := parse_ident_string in ret (Some n) in
  do! expect T_On in
  let! table := parse_object_name in
  let! t := peek in
  let! using_ := if is_word_tok "using" t then do! advance in let! u := parse_ident_string in ret (Some u) else ret None in
  do! expect T_LParen in
  let! column := parse_ident_string in
  do! expect T_RParen in
  let! options := parse_with_options in
  ret (Stmt_CreateIndex (mkCreateIndexStmt table column if_not_exists name using_ options)).

(** ** Roles *)

Definition parse_password : P string :=
  let! t := advance in
  match t with T_StringLiteral s => ret s | _ => bail "expected string literal password after PASSWORD" end.

Definition role_step (r : CreateRoleStmt) : P (CreateRoleStmt + CreateRoleStmt) :=
  let '(mkCreateRoleStmt name superuser can_login password in_role) := r in
  let! t := peek in
  match t with
  | T_Superuser => do! advance in ret (inl (mkCreateRoleStmt name true can_login password in_role))
  | T_NoSuperuser => do! advance in ret (inl (mkCreateRoleStmt name false can_login password in_role))
  | T_Login => do! advance in ret (inl (mkCreateRoleStmt name superuser true password in_role))
  | T_NoLogin => do! advance in ret (inl (mkCreateRoleStmt name superuser false password in_role))
  | T_Password =>
      do! advance in
      let! s := parse_password in ret (inl (mkCreateRoleStmt name superuser can_login (Some s) in_role))
  | T_In =>
      do! advance in
      do! expect T_Role in
      let! roles := parse_role_name_list in
      ret (inl (mkCreateRoleStmt name superuser can_login password (in_role ++ roles)))
  | _ => ret (inr r)
  end.

Definition parse_create_role : P Stmt :=
  do! parse_if_not_exists in
  let! name := parse_ident_string in
  let! r := iterate role_step (mkCreateRoleStmt name false true None []) in
  ret (Stmt_CreateRole r).

Definition alter_role_step (r : AlterRoleStmt) : P (AlterRoleStmt + AlterRoleStmt) :=
  let '(mkAlterRoleStmt name superuser can_login password) := r in
  let! t := peek in
  match t with
  | T_Superuser => do! advance in ret (inl (mkAlterRoleStmt name (Some true) can_login password))
  | T_NoSuperuser => do! advance in ret (inl (mkAlterRoleStmt name (Some false) can_login password))
  | T_Login => do! advance in ret (inl (mkAlterRoleStmt name superuser (Some true) password))
  | T_NoLogin => do! advance in ret (inl (mkAlterRoleStmt name superuser (Some false) password))
  | T_Password =>
      do! advance in
      let! s := parse_password in ret (inl (mkAlterRoleStmt name superuser can_login (Some s)))
  | _ => ret (inr r)
  end.

Definition parse_alter_role : P Stmt :=
  let! name := parse_ident_string in
  let! r := iterate alter_role_step (mkAlterRoleStmt name None None None) in
  ret (Stmt_AlterRole r).

Definition parse_drop_role : P Stmt :=
  let! if_exists := parse_if_exists in
  let! name := parse_ident_string in
  ret (Stmt_DropRole (mkDropRoleStmt if_exists name)).

Definition is_privilege_keyword (tok : Token) : bool :=
  match tok with
  | T_Select | T_Insert | T_Update | T_Delete | T_Create | T_Drop | T_Usage | T_All => true
  | _ => false
  end.

Definition parse_one_privilege : P Privilege :=
  let! t := advance in
  match t with
  | T_Select => ret Privilege_Select
  | T_Insert => ret Privilege_Insert
  | T_Update => ret Privilege_Update
  | T_Delete => ret Privilege_Delete
  | T_Create => ret Privilege_Create
  | T_Drop => ret Privilege_Drop
  | T_Usage => ret Privilege_Usage
  | _ => bail "expected a privilege name"
  end.

Definition parse_privilege_list : P (list Privilege) :=
  let! all := eat T_All in
  if all then ret [Privilege_Select; Privilege_Insert; Privilege_Update; Privilege_Delete; Privilege_Create;
                   Privilege_Drop; Privilege_Usage]
  else comma_list parse_one_privilege.

Definition parse_grant_object (is_grant : bool) : P GrantObject :=
  let! on_ := eat T_On in
  if on_ then
    let! database := eat T_Database in
    if database then ret GrantObject_Database
    else
      let! topic := eat T_Topic in
      if topic then let! n := parse_object_name in ret (GrantObject_Topic n)
      else do! eat T_Table in let! n := parse_object_name in ret (GrantObject_Table n)
  else if is_grant then bail "GRANT privileges require an ON <object> clause"
  else bail "REVOKE privileges require an ON <object> clause".

Definition parse_grant_or_revoke_head (is_grant : bool) : P (bool * list string * list Privilege * GrantObject) :=
  let! t := peek in
  if is_ident t && negb (is_privilege_keyword t) then
    let! roles := parse_role_name_list in ret (true, roles, [], GrantObject_Database)
  else
    let! privileges := parse_privilege_list in
    do! eat T_Privileges in
    let! object := parse_grant_object is_grant in
    ret (false, [], privileges, object).

Definition parse_grant : P Stmt :=
  let! head := parse_grant_or_revoke_head true in
  let '(is_role_grant, roles, privileges, object) := head in
  do! expect T_To in
  let! grantees := parse_role_name_list in
  ret (Stmt_Grant (mkGrantStmt is_role_grant roles privileges object grantees)).

Definition parse_revoke : P Stmt :=
  let! head := parse_grant_or_revoke_head false in
  let '(is_role_grant, roles, privileges, object) := head in
  do! expect T_From in
  let! grantees := parse_role_name_list in
  ret (Stmt_Revoke (mkRevokeStmt is_role_grant roles privileges object grantees)).

(** ** Sequences, topics, functions, cursors, settings *)

Definition parse_signed_int : P Z :=
  let! neg := eat T_Minus in
  let! t := advance in
  match t with T_IntLiteral n => ret (if neg : bool then - n else n) | _ => bail "expected integer" end.

Definition sequence_step (si : Z * Z) : P (Z * Z + Z * Z) :=
  let '(start, increment) := si in
  let! t := peek in
  match t with
  | T_Start => do! advance in do! eat T_With in let! n := parse_signed_int in ret (inl (n, increment))
  | T_Increment => do! advance in do! eat T_By in let! n := parse_signed_int in ret (inl (start, n))
  | T_Semicolon | T_Eof => ret (inr si)
  | _ => do! advance in ret (inl si)
  end.

Definition parse_create_sequence : P Stmt :=
  let! if_not_exists := parse_if_not_exists in
  let! name := parse_object_name in
  let! si := iterate sequence_step (1, 1) in
  ret (Stmt_CreateSequence (mkCreateSequenceStmt if_not_exists name (fst si) (snd si))).

Definition parse_create_topic : P Stmt :=
  let! if_not_exists := parse_if_not_exists in
  let! name := parse_object_name in
  let! options := parse_with_options in
  ret (Stmt_CreateTopic (mkCreateTopicStmt name if_not_exists options)).

Definition parse_func_arg : P (string * string) :=
  let! arg_name := parse_ident_string in
  let! arg_type := parse_type_name in ret (arg_name, arg_type).

Definition parse_function_body : P string :=
  let! t := advance in
  match t with T_StringLiteral s => ret s | _ => bail "expected string literal function body" end.

Definition parse_create_function : P Stmt :=
  let! name := parse_ident_string in
  do! expect T_LParen in
  let! t := peek in
  let! args := if is_tok T_RParen t then ret [] else comma_list parse_func_arg in
  do! expect T_RParen in
  do! expect T_Returns in
  let! return_type := parse_type_name in
  do! expect T_Language in
  let! language := parse_ident_string in
  do! expect T_As in
  let! body := parse_function_body in
  ret (Stmt_CreateFunction (mkCreateFunctionStmt name args return_type language body)).

Definition parse_drop : P Stmt :=
  let! t := peek in
  match t with
  | T_Table =>
      do! advance in
      let! if_exists := parse_if_exists in
      let! table := parse_object_name in ret (Stmt_DropTable (mkDropTableStmt table if_exists))
  | T_Role => do! advance in parse_drop_role
  | T_Index =>
      do! advance in
      let! if_exists := parse_if_exists in
      let! name := parse_object_name in ret (Stmt_DropIndex (mkDropIndexStmt name if_exists))
  | _ => bail "expected TABLE or INDEX after DROP"
  end.

Definition parse_create : P Stmt :=
  let! t := peek in
  match t with
  | T_Table => do! advance in parse_create_table
  | T_Index => do! advance in parse_create_index
  | T_Role => do! advance in parse_create_role
  | T_Function => do! advance in parse_create_function
  | T_Sequence => do! advance in parse_create_sequence
  | T_Topic => do! advance in parse_create_topic
  | _ => bail "expected TABLE, INDEX, FUNCTION, SEQUENCE, or TOPIC after CREATE"
  end.

Definition parse_show : P Stmt := let! name := parse_ident_string in ret (Stmt_Show (mkShowStmt name)).

Definition parse_copy : P Stmt :=
  let! table := parse_object_name in
  let! columns := opt_paren_ident_list in
  let! from_ := eat T_From in
  if from_ then do! expect T_Stdin in ret (Stmt_CopyIn (mkCopyStmt table columns))
  else
    let! to := eat T_To in
    if to then do! expect T_Stdout in ret (Stmt_CopyOut (mkCopyStmt table columns))
    else bail "expected FROM STDIN or TO STDOUT after COPY table".

Definition parse_declare_cursor : P Stmt :=
  let! name := parse_ident_string in
  do! expect T_Cursor in
  do! expect T_For in
  let! query := parse_select in
  ret (Stmt_DeclareCursor (mkDeclareCursorStmt name query)).

Definition parse_fetch_count : P FetchCount :=
  let! t := peek in
  match t with
  | T_Next => do! advance in ret FetchCount_Next
  | T_All => do! advance in ret FetchCount_All
  | T_IntLiteral n => do! advance in ret (FetchCount_Count n)
  | _ => ret FetchCount_Next
  end.

Definition parse_fetch_stmt : P FetchStmt :=
  let! count := parse_fetch_count in
  do! eat T_From in
  do! eat T_In in
  let! cursor := parse_ident_string in
  ret (mkFetchStmt cursor count).

(** ** Graph patterns *)

Definition parse_match_rel_bracket : P (option string) :=
  do! expect T_LBracket in
  let! rel_type := opt_after T_Colon parse_ident_string in
  do! expect T_RBracket in ret rel_type.

Definition parse_match_node : P string :=
  do! expect T_LParen in
  let! n := parse_ident_string in
  do! expect T_RParen in ret n.

Definition Pattern : Type := list string * list MatchHop.

Definition hop_step (p : Pattern) : P (Pattern + Pattern) :=
  let '(nodes, hops) := p in
  let! t := peek in
  match t with
  | T_Minus =>
      do! advance in
      let! rel_type := parse_match_rel_bracket in
      let! out := eat T_Arrow in
      do! (if out : bool then ret tt else expect T_Minus) in
      let! n := parse_match_node in
      ret (inl (nodes ++ [n], hops ++ [mkMatchHop rel_type (if out : bool then MatchDirection_Out else MatchDirection_Both)]))
  | T_Lt =>
      do! advance in
      do! expect T_Minus in
      let! rel_type := parse_match_rel_bracket in
      do! expect T_Minus in
      let! n := parse_match_node in
      ret (inl (nodes ++ [n], hops ++ [mkMatchHop rel_type MatchDirection_In]))
  | _ => ret (inr p)
  end.

Definition parse_match_literal : P string :=
  let! t := advance in
  match t with
  | T_StringLiteral s => ret s
  | T_IntLiteral n => ret (to_dec n)
  | _ => bail "MATCH WHERE only supports <var> = '<literal>'"
  end.

Definition parse_match_filter (first : string) : P (option string) :=
  let! where_ := eat T_Where in
  if where_ then
    let! var := parse_ident_string in
    do! expect T_Eq in
    let! lit := parse_match_literal in
    if String.eqb var first then ret (Some lit)
    else bail "MATCH WHERE currently only supports filtering the pattern's first variable"
  else ret None.

Definition parse_match_limit : P (option Z) :=
  let! limit := eat T_Limit in
  if limit then
    let! t := advance in
    match t with T_IntLiteral n => ret (Some (n mod 2 ^ 64)) | _ => bail "expected integer after LIMIT" end
  else ret None.

Definition parse_match : P Stmt :=
  let! first := parse_match_node in
  let! pattern := iterate hop_step ([first], []) in
  let '(nodes, hops) := pattern in
  do! expect T_On in
  let! table := parse_ident_string in
  do! expect T_LParen in
  let! column := parse_ident_string in
  do! expect T_RParen in
  let! start_filter := parse_match_filter first in
  do! expect T_Return in
  let! returns := comma_list parse_ident_string in
  if forallb (fun r => existsb (String.eqb r) nodes) returns then
    let! limit := parse_match_limit in
    ret (Stmt_Match (mkMatchStmt nodes hops table column start_filter returns limit))
  else bail "MATCH RETURN references unknown pattern variable".

(** ** Settings *)

(** How [Debug] prints a string and a float. *)
Class DebugFmt := { debug_str : string -> string; debug_f64 : Z -> string }.

Definition DEBUG_NAMES : list (string * Token) :=
  [
   ("Select", T_Select); ("From", T_From); ("Where", T_Where); ("As", T_As); ("And", T_And); ("Or", T_Or);
   ("Not", T_Not); ("Null", T_Null); ("True", T_True); ("False", T_False); ("Set", T_Set); ("Show", T_Show);
   ("Begin", T_Begin); ("Commit", T_Commit); ("Rollback", T_Rollback); ("Is", T_Is); ("In", T_In);
   ("Like", T_Like); ("Between", T_Between); ("Limit", T_Limit); ("Offset", T_Offset); ("Order", T_Order);
   ("By", T_By); ("Asc", T_Asc); ("Desc", T_Desc); ("Group", T_Group); ("Having", T_Having);
   ("Distinct", T_Distinct); ("All", T_All); ("Case", T_Case); ("When", T_When); ("Then", T_Then);
   ("Else", T_Else); ("End", T_End); ("Cast", T_Cast); ("Interval", T_Interval); ("Insert", T_Insert);
   ("Into", T_Into); ("Values", T_Values); ("Delete", T_Delete); ("Update", T_Update); ("Create", T_Create);
   ("Table", T_Table); ("Drop", T_Drop); ("Index", T_Index); ("If", T_If); ("Exists", T_Exists);
   ("Primary", T_Primary); ("Key", T_Key); ("Default", T_Default); ("Join", T_Join); ("Left", T_Left);
   ("Right", T_Right); ("Full", T_Full); ("Cross", T_Cross); ("On", T_On); ("With", T_With);
   ("Recursive", T_Recursive); ("Union", T_Union); ("Over", T_Over); ("Partition", T_Partition);
   ("Rows", T_Rows); ("Range", T_Range); ("Unbounded", T_Unbounded); ("Preceding", T_Preceding);
   ("Following", T_Following); ("Current", T_Current); ("Row", T_Row); ("Declare", T_Declare);
   ("Cursor", T_Cursor); ("For", T_For); ("Fetch", T_Fetch); ("Next", T_Next); ("Move", T_Move);
   ("Close", T_Close); ("Listen", T_Listen); ("Notify", T_Notify); ("Unlisten", T_Unlisten); ("Copy", T_Copy);
   ("Stdin", T_Stdin); ("Stdout", T_Stdout); ("To", T_To); ("Function", T_Function); ("Returns", T_Returns);
   ("Language", T_Language); ("Alter", T_Alter); ("Column", T_Column); ("Unique", T_Unique);
   ("References", T_References); ("Foreign", T_Foreign); ("Sequence", T_Sequence); ("Increment", T_Increment);
   ("Start", T_Start); ("Topic", T_Topic); ("Analyze", T_Analyze); ("Collate", T_Collate);
   ("Operator", T_Operator); ("Match", T_Match); ("Return", T_Return); ("Role", T_Role);
   ("Superuser", T_Superuser); ("NoSuperuser", T_NoSuperuser); ("Login", T_Login); ("NoLogin", T_NoLogin);
   ("Password", T_Password); ("Grant", T_Grant); ("Revoke", T_Revoke); ("Privileges", T_Privileges);
   ("Usage", T_Usage); ("Database", T_Database); ("Star", T_Star); ("Plus", T_Plus); ("Minus", T_Minus);
   ("Slash", T_Slash); ("Percent", T_Percent); ("Eq", T_Eq); ("NotEq", T_NotEq); ("Lt", T_Lt); ("Lte", T_Lte);
   ("Gt", T_Gt); ("Gte", T_Gte); ("Concat", T_Concat); ("Arrow", T_Arrow); ("LongArrow", T_LongArrow);
   ("Comma", T_Comma); ("Dot", T_Dot); ("Semicolon", T_Semicolon); ("LParen", T_LParen); ("RParen", T_RParen);
   ("LBracket", T_LBracket); ("RBracket", T_RBracket); ("Colon", T_Colon); ("DoubleColon", T_DoubleColon);
   ("AtArrow", T_AtArrow); ("HashArrow", T_HashArrow); ("HashLongArrow", T_HashLongArrow); ("Tilde", T_Tilde);
   ("NotTilde", T_NotTilde); ("TildeStar", T_TildeStar); ("NotTildeStar", T_NotTildeStar); ("Eof", T_Eof)
  ]%string.

(** [format!("{:?}", t)] *)
Definition debug_token {df : DebugFmt} (t : Token) : string :=
  match t with
  | T_IntLiteral n => "IntLiteral(" ++ to_dec n ++ ")"
  | T_FloatLiteral f => "FloatLiteral(" ++ debug_f64 f ++ ")"
  | T_StringLiteral s => "StringLiteral(" ++ debug_str s ++ ")"
  | T_Ident s => "Ident(" ++ debug_str s ++ ")"
  | T_Dollar n => "Dollar(" ++ to_dec n ++ ")"
  | t => match find (fun p => is_tok (snd p) t) DEBUG_NAMES with Some (n, _) => n | None => EmptyString end
  end%string.

Definition set_step {df : DebugFmt} (parts : list string) : P (list string + list string) :=
  let! t := peek in
  if is_tok T_Semicolon t || is_tok T_Eof t then ret (inr parts)
  else do! advance in ret (inl (parts ++ [debug_token t])).

Definition parse_set {df : DebugFmt} : P Stmt :=
  let! name := parse_ident_string in
  let! eq := eat T_Eq in
  do! (if eq : bool then ret true else eat T_To) in
  let! parts := iterate set_step [] in
  ret (Stmt_Set (mkSetStmt name (String.concat " " parts))).

(** ** Statements *)

Section Statements.
  Context {df : DebugFmt}.

Definition semicolons_step (u : unit) : P (unit + unit) :=
  let! b := eat T_Semicolon in if b then ret (inl u) else ret (inr u).

Definition skip_semicolons : P unit := iterate semicolons_step tt.

Definition parse_with : P Stmt :=
  let! recursive := eat T_Recursive in
  let! ctes := parse_ctes recursive in
  let! select := parse_select in
  ret (Stmt_Select (with_ctes ctes select)).

Definition parse_alter : P Stmt :=
  let! t := peek in
  match t with
  | T_Table => parse_alter_table
  | T_Role => do! advance in parse_alter_role
  | _ => bail "expected TABLE or ROLE after ALTER"
  end.

Definition parse_notify : P Stmt :=
  let! channel := parse_ident_string in
  let! comma := eat T_Comma in
  if comma then
    let! t := advance in
    match t with
    | T_StringLiteral s => ret (Stmt_Notify channel (Some s))
    | _ => bail "expected string literal payload"
    end
  else ret (Stmt_Notify channel None).

Definition parse_unlisten : P Stmt :=
  let! star := eat T_Star in
  if star then ret (Stmt_Unlisten "*") else let! c := parse_ident_string in ret (Stmt_Unlisten c).

Definition parse_analyze : P Stmt :=
  let! t := peek in
  if is_tok T_Eof t || is_tok T_Semicolon t then ret (Stmt_Analyze None)
  else let! n := parse_object_name in ret (Stmt_Analyze (Some n)).

(** The statement that a token begins, its clauses after the token. *)
Definition parse_one : P Stmt :=
  let! t := peek in
  match t with
  | T_With => do! advance in parse_with
  | T_Select | T_Distinct => let! s := parse_select in ret (Stmt_Select s)
  | T_Insert => do! advance in parse_insert
  | T_Delete => do! advance in parse_delete
  | T_Update => do! advance in parse_update
  | T_Create => do! advance in parse_create
  | T_Drop => do! advance in parse_drop
  | T_Alter => do! advance in parse_alter
  | T_Grant => do! advance in parse_grant
  | T_Revoke => do! advance in parse_revoke
  | T_Set => do! advance in parse_set
  | T_Show => do! advance in parse_show
  | T_Begin => do! advance in ret Stmt_Begin
  | T_Commit => do! advance in ret Stmt_Commit
  | T_Rollback => do! advance in ret Stmt_Rollback
  | T_Declare => do! advance in parse_declare_cursor
  | T_Fetch => do! advance in let! f := parse_fetch_stmt in ret (Stmt_Fetch f)
  | T_Move => do! advance in let! f := parse_fetch_stmt in ret (Stmt_MoveCursor f)
  | T_Close => do! advance in let! c := parse_ident_string in ret (Stmt_CloseCursor c)
  | T_Listen => do! advance in let! c := parse_ident_string in ret (Stmt_Listen c)
  | T_Unlisten => do! advance in parse_unlisten
  | T_Notify => do! advance in parse_notify
  | T_Copy => do! advance in parse_copy
  | T_Analyze => do! advance in parse_analyze
  | T_Match => do! advance in parse_match
  | T_Eof => bail "empty statement"
  | _ => bail "unexpected token"
  end.

Definition parse_stmt : P Stmt :=
  do! skip_semicolons in
  let! stmt := parse_one in
  do! eat T_Semicolon in ret stmt.

Definition stmts_step (stmts : list Stmt) : P (list Stmt + list Stmt) :=
  do! skip_semicolons in
  let! t := peek in
  if is_tok T_Eof t then ret (inr stmts)
  else let! s := parse_stmt in ret (inl (stmts ++ [s])).

Definition parse_all_stmts : P (list Stmt) := iterate stmts_step [].

(** ** [sql/mod.rs] *)

(** Lex the text and run a parser on the tokens; what it leaves is dropped. *)
Definition on_text {A : Type} (p : P A) (text : string) : option (Result A) :=
  match tokenize text with
  | None => None
  | Some (Err e) => Some (Err e)
  | Some (Ok tokens) =>
      match p tokens with
      | Some (Ok (a, _)) => Some (Ok a)
      | Some (Err e) => Some (Err e)
      | None => None
      end
  end.

Definition sql_parse (sql : string) : option (Result Stmt) := on_text parse_stmt sql.
Definition sql_parse_all (sql : string) : option (Result (list Stmt)) := on_text parse_all_stmts sql.

End Statements.

Definition parse_expr_text (text : string) : option (Result Expr) := on_text (parse_expr 0) text.
