(* ===== verification/ParserEnds.v ===== *)
(** The SQL parser ends.

    [req p q Q ts] says that two parsers do the same on [ts] and end with an
    error or with a result and rest that satisfy [Q]. For the productions of
    expressions and queries it is proved of two instances whose nested parsers
    agree on shorter inputs: so the depth of the knot does not matter once it
    exceeds the number of tokens, and the parsers satisfy the equations that
    the source's recursion stands for ([parse_expr_eq], [parse_select_eq]).

    Theorems: parsing an expression, a query or any statement but CREATE TABLE
    ends on every input. And: CREATE TABLE without its closing parenthesis
    never ends; a statement is accepted with anything behind it. *)

From Stdlib Require Import Strings.Byte Strings.String ZArith Lia Bool.
From stdpp Require Import base list strings.
From S2P Require Import Prelude Utf8 Decimal Ast Lexer Parser.

Open Scope Z_scope.
Open Scope parser_scope.

(** ** Parsers that end *)

Definition req {A : Type} (p q : P A) (Q : A -> list Token -> Prop) (ts : list Token) : Prop :=
  p ts = q ts /\ match p ts with Some (Ok (a, ts')) => Q a ts' | Some (Err _) => True | None => False end.

(** Both end and take [k] tokens at least when they succeed. *)
Definition reads {A : Type} (k : nat) (p q : P A) (ts : list Token) : Prop :=
  req p q (fun _ ts' => (length ts' + k <= length ts)%nat) ts.

(** A round of a loop takes a token when it goes on. *)
Definition rounds {A B : Type} (p q : P (A + B)) (ts : list Token) : Prop :=
  req p q (fun r ts' => (length ts' + (if r then 1 else 0) <= length ts)%nat) ts.

Section Rules.
  Context {A B : Type}.
  Implicit Types (ts : list Token).

Lemma req_ret (a : A) (Q : A -> list Token -> Prop) ts : Q a ts -> req (ret a) (ret a) Q ts.
Proof. done. Qed.

Lemma req_bail (e : string) (Q : A -> list Token -> Prop) ts : req (bail e) (bail e) Q ts.
Proof. done. Qed.

Lemma req_bind (p q : P A) (f g : A -> P B) (Q : B -> list Token -> Prop) ts :
  req p q (fun a ts' => req (f a) (g a) Q ts') ts -> req (bind p f) (bind q g) Q ts.
Proof.
  intros [Heq H]. unfold req, bind. rewrite <- Heq. destruct (p ts) as [[[a ts']|e]|]; [|done|done]. exact H.
Qed.

Lemma reads_use (k : nat) (p q : P A) (Q : A -> list Token -> Prop) ts :
  reads k p q ts -> (forall a ts', (length ts' + k <= length ts)%nat -> Q a ts') -> req p q Q ts.
Proof. intros [Heq H] HQ. split; [done|]. destruct (p ts) as [[[a ts']|e]|]; auto. Qed.

Lemma reads_weaken (k k' : nat) (p q : P A) ts : (k' <= k)%nat -> reads k p q ts -> reads k' p q ts.
Proof. intros Hk H. eapply reads_use; [exact H|]. intros a ts' Hl. simpl in *. lia. Qed.

Lemma req_peek (Q : Token -> list Token -> Prop) ts : Q (first_tok ts) ts -> req peek peek Q ts.
Proof. done. Qed.

Lemma req_peek2 (Q : Token -> list Token -> Prop) ts : Q (first_tok (tail ts)) ts -> req peek2 peek2 Q ts.
Proof. done. Qed.

Lemma req_advance (Q : Token -> list Token -> Prop) ts :
  ((length (tail ts) <= length ts)%nat -> Q (first_tok ts) (tail ts)) -> req advance advance Q ts.
Proof. intros H. split; [done|]. apply H. rewrite length_tail. lia. Qed.

Lemma is_tok_len (t : Token) ts :
  is_tok t (first_tok ts) = true -> is_tok t T_Eof = false -> length ts = S (length (tail ts)).
Proof. intros H He. destruct ts; [|done]. cbn [first_tok] in H. congruence. Qed.

Lemma first_tok_len (t : Token) ts : first_tok ts = t -> is_tok T_Eof t = false -> length ts = S (length (tail ts)).
Proof. intros H He. destruct ts; [|done]. cbn [first_tok] in H. subst t. done. Qed.

Lemma is_ident_len ts : is_ident (first_tok ts) = true -> length ts = S (length (tail ts)).
Proof. by destruct ts. Qed.

Lemma infix_len ts x : infix_bp (first_tok ts) = Some x -> length ts = S (length (tail ts)).
Proof. by destruct ts. Qed.

Lemma req_eat (t : Token) (Q : bool -> list Token -> Prop) ts :
  is_tok t T_Eof = false -> (length ts = S (length (tail ts)) -> Q true (tail ts)) -> Q false ts -> req (eat t) (eat t) Q ts.
Proof.
  intros He H1 H2. unfold req, eat. destruct (is_tok t (first_tok ts)) eqn:E; split; try done. apply H1. by eapply is_tok_len.
Qed.

Lemma req_expect (t : Token) (Q : unit -> list Token -> Prop) ts :
  is_tok t T_Eof = false -> (length ts = S (length (tail ts)) -> Q tt (tail ts)) -> req (expect t) (expect t) Q ts.
Proof.
  intros He H1. unfold req, expect, bind, advance, ret, bail. destruct (is_tok t (first_tok ts)) eqn:E; split; try done.
  apply H1. by eapply is_tok_len.
Qed.

End Rules.

Lemma bind_ok {A B : Type} (p : P A) (k : A -> P B) (ts : list Token) (a : A) (ts' : list Token) :
  p ts = Some (Ok (a, ts')) -> bind p k ts = k a ts'.
Proof. intros H. unfold bind. by rewrite H. Qed.

Section Loops.
  Context {A B : Type}.

Lemma req_iter (n fuel : nat) (f g : A -> P (A + B)) (a : A) (ts : list Token) :
  (forall a ts, (length ts <= n)%nat -> rounds (f a) (g a) ts) -> (length ts <= n)%nat -> (length ts < fuel)%nat ->
  reads 0 (iter fuel f a) (iter fuel g a) ts.
Proof.
  intros Hb. revert a ts. induction fuel as [|fuel IH]; intros a ts Hn Hf; [lia|]. cbn [iter]. apply req_bind.
  destruct (Hb a ts Hn) as [Heq H]. split; [done|]. destruct (f a ts) as [[[[a'|b] ts']|e]|]; [|simpl in *; apply req_ret; lia|done|done].
  eapply reads_use; [apply IH; lia|]. intros b ts'' Hl. lia.
Qed.

Lemma reads_iterate (n : nat) (f g : A -> P (A + B)) (a : A) (ts : list Token) :
  (forall a ts, (length ts <= n)%nat -> rounds (f a) (g a) ts) -> (length ts <= n)%nat ->
  reads 0 (iterate f a) (iterate g a) ts.
Proof. intros Hb Hn. unfold reads, req, iterate. apply (req_iter n); [done | done | lia]. Qed.

End Loops.

Create HintDb reads discriminated.
#[export] Hint Extern 2 (_ < _)%nat => lia : reads.
#[export] Hint Extern 2 (_ <= _)%nat => lia : reads.
#[export] Hint Variables Opaque : reads.

(** What the tests on the next token say about the number of tokens. *)
Ltac token_facts :=
  repeat match goal with
  | H : _ && _ = true |- _ => apply andb_true_iff in H as [? ?]
  | H : is_tok ?t (first_tok ?ts) = true |- _ => apply is_tok_len in H; [|reflexivity]
  | H : is_ident (first_tok ?ts) = true |- _ => apply is_ident_len in H
  | H : infix_bp (first_tok ?ts) = Some _ |- _ => apply infix_len in H
  | H : first_tok ?ts = _ |- _ => apply first_tok_len in H; [|reflexivity]
  end.

(** One construct of a parser. *)
Ltac parser_step :=
  match goal with
  | |- reads _ _ _ _ => unfold reads
  | |- rounds _ _ _ => unfold rounds
  | |- req (bind _ _) (bind _ _) _ _ => apply req_bind
  | |- req (ret _) (ret _) _ _ => apply req_ret
  | |- req (bail _) (bail _) _ _ => apply req_bail
  | |- req peek peek _ _ => apply req_peek
  | |- req peek2 peek2 _ _ => apply req_peek2
  | |- req advance advance _ _ => apply req_advance; intros ?
  | |- req (eat _) (eat _) _ _ => apply req_eat; [reflexivity | intros ? |]
  | |- req (expect _) (expect _) _ _ => apply req_expect; [reflexivity | intros ?]
  | |- req (if ?b then _ else _) _ _ _ => destruct b eqn:?; token_facts
  | |- req (match ?x with _ => _ end) _ _ _ => destruct x eqn:?; token_facts
  | |- req (let '(_, _) := ?x in _) _ _ _ => destruct x
  | |- req _ _ _ _ => eapply reads_use; [solve [eauto with reads] | intros ? ? ?]
  end.

Ltac parser_ends := repeat (cbv beta iota zeta; parser_step); try (simpl in *; lia).

(** ** Lists and names *)

Lemma comma_list_reads {A : Type} (n : nat) (p q : P A) (ts : list Token) :
  (forall ts, (length ts < n)%nat -> reads 1 p q ts) -> (length ts < n)%nat -> reads 1 (comma_list p) (comma_list q) ts.
Proof.
  intros Hp Hn. unfold reads, comma_list. apply req_bind. eapply reads_use; [by apply Hp|]. intros x ts1 H1. simpl in *.
  eapply reads_use; [apply (reads_iterate (length ts1)) | simpl; intros; lia]; [|lia].
  intros acc ts2 H2. unfold more_items. parser_ends.
Qed.

Lemma comma_list_reads_any {A : Type} (p : P A) (ts : list Token) :
  (forall ts, reads 1 p p ts) -> reads 1 (comma_list p) (comma_list p) ts.
Proof. intros Hp. apply (comma_list_reads (S (length ts))); [intros ? _; apply Hp | lia]. Qed.

Lemma iterate_reads_any {A B : Type} (f : A -> P (A + B)) (a : A) (ts : list Token) :
  (forall a ts, rounds (f a) (f a) ts) -> reads 0 (iterate f a) (iterate f a) ts.
Proof. intros Hf. apply (reads_iterate (length ts)); [intros; apply Hf | lia]. Qed.

Lemma opt_after_reads {A : Type} (n : nat) (t : Token) (p q : P A) (ts : list Token) :
  is_tok t T_Eof = false -> (forall ts, (length ts < n)%nat -> reads 1 p q ts) -> (length ts <= n)%nat ->
  reads 0 (opt_after t p) (opt_after t q) ts.
Proof.
  intros Ht Hp Hn. unfold reads, opt_after. apply req_bind, req_eat; [done | |parser_ends].
  intros H. apply req_bind. eapply reads_use; [apply Hp; lia|]. simpl. intros. parser_ends.
Qed.

Lemma parse_ident_string_reads (ts : list Token) : reads 1 parse_ident_string parse_ident_string ts.
Proof. unfold parse_ident_string. parser_ends. Qed.
#[export] Hint Resolve parse_ident_string_reads comma_list_reads_any iterate_reads_any : reads.

Lemma parse_object_name_reads (ts : list Token) : reads 1 parse_object_name parse_object_name ts.
Proof. unfold parse_object_name. parser_ends. Qed.
#[export] Hint Resolve parse_object_name_reads : reads.

Lemma parse_paren_ident_list_reads (ts : list Token) : reads 1 parse_paren_ident_list parse_paren_ident_list ts.
Proof. unfold parse_paren_ident_list. parser_ends. Qed.

Lemma opt_paren_ident_list_reads (ts : list Token) : reads 0 opt_paren_ident_list opt_paren_ident_list ts.
Proof. unfold opt_paren_ident_list. parser_ends. Qed.

Lemma cast_name_step_rounds (s : string) (ts : list Token) : rounds (cast_name_step s) (cast_name_step s) ts.
Proof. unfold cast_name_step. parser_ends. Qed.
#[export] Hint Resolve parse_paren_ident_list_reads opt_paren_ident_list_reads cast_name_step_rounds : reads.

Lemma parse_cast_type_name_reads (ts : list Token) : reads 1 parse_cast_type_name parse_cast_type_name ts.
Proof. unfold parse_cast_type_name. parser_ends. Qed.

Lemma parse_type_name_reads (ts : list Token) : reads 1 parse_type_name parse_type_name ts.
Proof. unfold parse_type_name. parser_ends. Qed.

Lemma parse_alias_reads (ts : list Token) : reads 0 parse_alias parse_alias ts.
Proof. unfold parse_alias. parser_ends. Qed.

Lemma skip_schema_reads (ts : list Token) : reads 0 skip_schema skip_schema ts.
Proof. unfold skip_schema. parser_ends. Qed.

Lemma array_step_rounds (items : list Z) (ts : list Token) : rounds (array_step items) (array_step items) ts.
Proof. unfold array_step. parser_ends. Qed.
#[export] Hint Resolve parse_cast_type_name_reads parse_type_name_reads parse_alias_reads skip_schema_reads array_step_rounds : reads.

Lemma parse_float_array_literal_reads (ts : list Token) : reads 1 parse_float_array_literal parse_float_array_literal ts.
Proof. unfold parse_float_array_literal. parser_ends. Qed.
#[export] Hint Resolve parse_float_array_literal_reads : reads.

(** ** Expressions and queries *)

Section Ends.
  (** Two instances whose nested parsers agree below [n] tokens. *)
  Context (e1 e2 : Z -> P Expr) (s1 s2 : P SelectStmt) (n : nat).
  Hypothesis Hexpr : forall m ts, (length ts < n)%nat -> reads 1 (e1 m) (e2 m) ts.
  Hypothesis Hselect : forall ts, (length ts < n)%nat -> reads 1 s1 s2 ts.
  #[local] Hint Resolve Hexpr Hselect : reads.

Lemma parse_expr_list_reads (ts : list Token) :
  (length ts < n)%nat -> reads 1 (parse_expr_list e1) (parse_expr_list e2) ts.
Proof. intros Hn. by apply (comma_list_reads n); [intros; apply Hexpr|]. Qed.
#[local] Hint Resolve parse_expr_list_reads : reads.

Lemma opt_expr_reads (t : Token) (ts : list Token) :
  is_tok t T_Eof = false -> (length ts <= n)%nat -> reads 0 (opt_after t (e1 0)) (opt_after t (e2 0)) ts.
Proof. intros Ht Hn. by apply (opt_after_reads n); [|intros; apply Hexpr|]. Qed.
#[local] Hint Resolve opt_expr_reads : reads.

Lemma parse_order_by_reads (ts : list Token) : (length ts < n)%nat -> reads 1 (parse_order_by e1) (parse_order_by e2) ts.
Proof. intros Hn. unfold parse_order_by. parser_ends. Qed.

Lemma parse_order_by_list_reads (ts : list Token) :
  (length ts < n)%nat -> reads 1 (parse_order_by_list e1) (parse_order_by_list e2) ts.
Proof. intros Hn. by apply (comma_list_reads n); [apply parse_order_by_reads|]. Qed.
#[local] Hint Resolve parse_order_by_list_reads : reads.

Lemma opt_order_by_reads (ts : list Token) : (length ts <= n)%nat -> reads 0 (opt_order_by e1) (opt_order_by e2) ts.
Proof. intros Hn. unfold opt_order_by. parser_ends. Qed.

Lemma opt_group_by_reads (ts : list Token) : (length ts <= n)%nat -> reads 0 (opt_group_by e1) (opt_group_by e2) ts.
Proof. intros Hn. unfold opt_group_by. parser_ends. Qed.
#[local] Hint Resolve opt_order_by_reads opt_group_by_reads : reads.

Lemma parse_direction_reads {A : Type} (a b : A) (ts : list Token) : reads 1 (parse_direction a b) (parse_direction a b) ts.
Proof. unfold parse_direction. parser_ends. Qed.
#[local] Hint Resolve parse_direction_reads : reads.

Lemma parse_offset_bound_reads (ts : list Token) :
  (length ts < n)%nat -> reads 1 (parse_offset_bound e1) (parse_offset_bound e2) ts.
Proof. intros Hn. unfold parse_offset_bound. parser_ends. Qed.
#[local] Hint Resolve parse_offset_bound_reads : reads.

Lemma parse_frame_bound_reads (ts : list Token) :
  (length ts < n)%nat -> reads 1 (parse_frame_bound e1) (parse_frame_bound e2) ts.
Proof. intros Hn. unfold parse_frame_bound. parser_ends. Qed.
#[local] Hint Resolve parse_frame_bound_reads : reads.

Lemma parse_window_frame_reads (ts : list Token) :
  (length ts < n)%nat -> reads 1 (parse_window_frame e1) (parse_window_frame e2) ts.
Proof. intros Hn. unfold parse_window_frame. parser_ends. Qed.
#[local] Hint Resolve parse_window_frame_reads : reads.

Lemma parse_over_clause_reads (f : string) (args : list Expr) (ts : list Token) :
  (length ts <= n)%nat -> reads 1 (parse_over_clause e1 f args) (parse_over_clause e2 f args) ts.
Proof. intros Hn. unfold parse_over_clause. parser_ends. Qed.
#[local] Hint Resolve parse_over_clause_reads : reads.

Lemma case_step_rounds (bs : list (Expr * Expr)) (ts : list Token) :
  (length ts <= n)%nat -> rounds (case_step e1 bs) (case_step e2 bs) ts.
Proof. intros Hn. unfold case_step. parser_ends. Qed.

Lemma case_loop_reads (bs : list (Expr * Expr)) (ts : list Token) :
  (length ts <= n)%nat -> reads 0 (iterate (case_step e1) bs) (iterate (case_step e2) bs) ts.
Proof. intros Hn. by apply (reads_iterate n); [apply case_step_rounds|]. Qed.
#[local] Hint Resolve case_loop_reads : reads.

Lemma parse_case_reads (ts : list Token) : (length ts < n)%nat -> reads 0 (parse_case e1) (parse_case e2) ts.
Proof. intros Hn. unfold parse_case. parser_ends. Qed.
#[local] Hint Resolve parse_case_reads : reads.

Lemma parse_call_reads (f : string) (ts : list Token) : (length ts < n)%nat -> reads 0 (parse_call e1 f) (parse_call e2 f) ts.
Proof. intros Hn. unfold parse_call. parser_ends. Qed.
#[local] Hint Resolve parse_call_reads : reads.

Lemma parse_atom_reads (ts : list Token) : (length ts <= n)%nat -> reads 1 (parse_atom e1 s1) (parse_atom e2 s2) ts.
Proof. intros Hn. unfold parse_atom. parser_ends. Qed.
#[local] Hint Resolve parse_atom_reads : reads.

Lemma postfix_step_rounds (e : Expr) (ts : list Token) : rounds (postfix_step e) (postfix_step e) ts.
Proof. unfold postfix_step. parser_ends. Qed.
#[local] Hint Resolve postfix_step_rounds : reads.

Lemma parse_postfix_reads (ts : list Token) : (length ts <= n)%nat -> reads 1 (parse_postfix e1 s1) (parse_postfix e2 s2) ts.
Proof. intros Hn. unfold parse_postfix. parser_ends. Qed.

Lemma parse_exists_reads (b : bool) (ts : list Token) : (length ts <= n)%nat -> reads 1 (parse_exists s1 b) (parse_exists s2 b) ts.
Proof. intros Hn. unfold parse_exists. parser_ends. Qed.

Lemma reads_map_ok {A B : Type} (f : A -> B) (p q : P A) (t : Token) (ts : list Token) :
  reads 1 p q ts -> reads 1 (fun _ => map_ok f (p ts)) (fun _ => map_ok f (q ts)) (t :: ts).
Proof.
  intros [Heq H]. split; [by rewrite Heq|]. destruct (p ts) as [[[a ts']|e]|]; simpl in *; [lia|done|done].
Qed.

Lemma parse_unary_reads (ts : list Token) : (length ts <= n)%nat -> reads 1 (parse_unary e1 s1) (parse_unary e2 s2) ts.
Proof.
  induction ts as [|t ts IH]; intros Hn; [by apply parse_postfix_reads|]. simpl in Hn. specialize (IH ltac:(lia)).
  pose proof (reads_map_ok (Expr_UnaryOp UnOp_Neg) _ _ t ts IH) as Hneg.
  pose proof (reads_map_ok (Expr_UnaryOp UnOp_Not) _ _ t ts IH) as Hnot.
  unfold reads, req in *. cbn [parse_unary]. destruct (is_tok T_Minus t); [exact Hneg|]. destruct (is_tok T_Plus t).
  { destruct IH as [-> H]. split; [done|]. destruct (parse_unary e2 s2 ts) as [[[]|]|]; simpl in *; [lia|done|done]. }
  destruct (is_tok T_Not t && is_tok T_Exists (first_tok ts)).
  { destruct (parse_exists_reads true ts ltac:(lia)) as [-> H]. split; [done|].
    destruct (parse_exists s2 true ts) as [[[]|]|]; simpl in *; [lia|done|done]. }
  destruct (is_tok T_Not t); [exact Hnot|]. destruct (is_tok T_Exists t).
  - by apply parse_exists_reads.
  - by apply parse_postfix_reads.
Qed.
#[local] Hint Resolve parse_unary_reads : reads.

Lemma infix_is_rounds (lhs : Expr) (ts : list Token) :
  length ts = S (length (tail ts)) -> rounds (infix_is lhs) (infix_is lhs) ts.
Proof. intros Hl. unfold infix_is. parser_ends. Qed.

Lemma infix_between_rounds (r : Z) (lhs : Expr) (ts : list Token) :
  (length ts <= n)%nat -> rounds (infix_between e1 r lhs) (infix_between e2 r lhs) ts.
Proof. intros Hn. unfold infix_between. parser_ends. Qed.

Lemma infix_like_rounds (r : Z) (lhs : Expr) (ts : list Token) :
  (length ts <= n)%nat -> rounds (infix_like e1 r lhs) (infix_like e2 r lhs) ts.
Proof. intros Hn. unfold infix_like. parser_ends. Qed.

Lemma infix_in_rounds (lhs : Expr) (ts : list Token) :
  (length ts <= n)%nat -> rounds (infix_in e1 s1 lhs) (infix_in e2 s2 lhs) ts.
Proof. intros Hn. unfold infix_in. parser_ends. Qed.

Lemma infix_collate_rounds (lhs : Expr) (ts : list Token) :
  length ts = S (length (tail ts)) -> rounds (infix_collate lhs) (infix_collate lhs) ts.
Proof. intros Hl. unfold infix_collate. parser_ends. Qed.

Lemma infix_operator_rounds (lhs : Expr) (ts : list Token) :
  length ts = S (length (tail ts)) -> (length ts <= n)%nat -> rounds (infix_operator e1 lhs) (infix_operator e2 lhs) ts.
Proof. intros Hl Hn. unfold infix_operator. parser_ends. Qed.

Lemma infix_step_rounds (m : Z) (lhs : Expr) (ts : list Token) :
  (length ts <= n)%nat -> rounds (infix_step e1 s1 m lhs) (infix_step e2 s2 m lhs) ts.
Proof.
  intros Hn. unfold rounds, infix_step. apply req_bind, req_peek, req_bind, req_peek2.
  destruct (infix_bp (first_tok ts)) as [[[l r] op]|] eqn:E; [|apply req_ret; lia]. apply infix_len in E.
  destruct (l <? m); [apply req_ret; lia|].
  destruct (is_tok T_Is (first_tok ts)); [by apply infix_is_rounds|].
  destruct (or_negated T_Between _ _); [by apply infix_between_rounds|].
  destruct (or_negated T_Like _ _); [by apply infix_like_rounds|].
  destruct (or_negated T_In _ _); [by apply infix_in_rounds|].
  destruct (is_tok T_Collate (first_tok ts)); [by apply infix_collate_rounds|].
  destruct (is_tok T_Operator (first_tok ts)); [by apply infix_operator_rounds|].
  parser_ends.
Qed.

Lemma infix_loop_reads (m : Z) (lhs : Expr) (ts : list Token) :
  (length ts <= n)%nat -> reads 0 (iterate (infix_step e1 s1 m) lhs) (iterate (infix_step e2 s2 m) lhs) ts.
Proof. intros Hn. by apply (reads_iterate n); [apply infix_step_rounds|]. Qed.
#[local] Hint Resolve infix_loop_reads : reads.

Lemma expr_body_reads (m : Z) (ts : list Token) : (length ts <= n)%nat -> reads 1 (expr_body e1 s1 m) (expr_body e2 s2 m) ts.
Proof. intros Hn. unfold expr_body. parser_ends. Qed.

Lemma parse_projection_reads (ts : list Token) : (length ts < n)%nat -> reads 1 (parse_projection e1) (parse_projection e2) ts.
Proof. intros Hn. unfold parse_projection. parser_ends. Qed.

Lemma parse_projection_list_reads (ts : list Token) :
  (length ts < n)%nat -> reads 1 (parse_projection_list e1) (parse_projection_list e2) ts.
Proof. intros Hn. by apply (comma_list_reads n); [apply parse_projection_reads|]. Qed.

Lemma parse_func_args_reads (ts : list Token) : (length ts < n)%nat -> reads 1 (parse_func_args e1) (parse_func_args e2) ts.
Proof. intros Hn. unfold parse_func_args. parser_ends. Qed.
#[local] Hint Resolve parse_projection_list_reads parse_func_args_reads : reads.

Lemma parse_table_ref_reads (ts : list Token) : (length ts < n)%nat -> reads 1 (parse_table_ref e1 s1) (parse_table_ref e2 s2) ts.
Proof. intros Hn. unfold parse_table_ref. parser_ends. Qed.
#[local] Hint Resolve parse_table_ref_reads : reads.

Lemma join_step_rounds (js : list Join) (ts : list Token) :
  (length ts < n)%nat -> rounds (join_step e1 s1 js) (join_step e2 s2 js) ts.
Proof. intros Hn. unfold join_step, parse_join_type. parser_ends. Qed.

Lemma join_loop_reads (js : list Join) (ts : list Token) :
  (length ts < n)%nat -> reads 0 (iterate (join_step e1 s1) js) (iterate (join_step e2 s2) js) ts.
Proof. intros Hn. apply (reads_iterate (length ts)); [|done]. intros. apply join_step_rounds. lia. Qed.
#[local] Hint Resolve join_loop_reads : reads.

Lemma parse_table_with_joins_reads (ts : list Token) :
  (length ts < n)%nat -> reads 1 (parse_table_with_joins e1 s1) (parse_table_with_joins e2 s2) ts.
Proof. intros Hn. unfold parse_table_with_joins. parser_ends. Qed.

Lemma opt_from_reads (ts : list Token) :
  (length ts <= n)%nat ->
  reads 0 (opt_after T_From (parse_table_with_joins e1 s1)) (opt_after T_From (parse_table_with_joins e2 s2)) ts.
Proof. intros Hn. by apply (opt_after_reads n); [|apply parse_table_with_joins_reads|]. Qed.

Lemma opt_union_reads (ts : list Token) : (length ts <= n)%nat -> reads 0 (opt_union s1) (opt_union s2) ts.
Proof. intros Hn. unfold opt_union. parser_ends. Qed.
#[local] Hint Resolve opt_from_reads opt_union_reads : reads.

Lemma select_body_reads (ts : list Token) : (length ts <= n)%nat -> reads 1 (select_body e1 s1) (select_body e2 s2) ts.
Proof. intros Hn. unfold select_body. parser_ends. Qed.

End Ends.

(** Levels above the number of tokens make no difference. *)
Lemma knot_reads (d1 d2 : nat) (ts : list Token) :
  (length ts < d1)%nat -> (length ts < d2)%nat ->
  (forall m, reads 1 (fst (knot d1) m) (fst (knot d2) m) ts) /\ reads 1 (snd (knot d1)) (snd (knot d2)) ts.
Proof.
  revert d2 ts. induction d1 as [|d1 IH]; intros [|d2] ts H1 H2; try lia. cbn [knot fst snd].
  assert (forall ts', (length ts' < length ts)%nat ->
    (forall m, reads 1 (fst (knot d1) m) (fst (knot d2) m) ts') /\ reads 1 (snd (knot d1)) (snd (knot d2)) ts') as Hk
    by (intros; apply IH; lia).
  split; [intros m; apply expr_body_reads with (length ts) | apply select_body_reads with (length ts)]; try done;
    intros; by apply Hk.
Qed.

Lemma parse_expr_reads (m : Z) (ts : list Token) : reads 1 (parse_expr m) (parse_expr m) ts.
Proof. apply (knot_reads (S (length ts)) (S (length ts))); lia. Qed.

Lemma parse_select_reads (ts : list Token) : reads 1 parse_select parse_select ts.
Proof. apply (knot_reads (S (length ts)) (S (length ts))); lia. Qed.
#[export] Hint Resolve parse_expr_reads parse_select_reads : reads.

(** The equations of the source's recursion. *)
Lemma parse_eqs (ts : list Token) :
  (forall m, parse_expr m ts = expr_body parse_expr parse_select m ts) /\ parse_select ts = select_body parse_expr parse_select ts.
Proof.
  assert (forall ts', (length ts' < length ts)%nat ->
    (forall m, reads 1 (fst (knot (length ts)) m) (parse_expr m) ts') /\ reads 1 (snd (knot (length ts))) parse_select ts') as Hk.
  { intros ts' Hl. destruct (knot_reads (length ts) (S (length ts')) ts') as [He Hs]; [lia|lia|].
    split; [intros m; destruct (He m) | destruct Hs]; by split. }
  split; [intros m; apply (expr_body_reads (fst (knot (length ts))) parse_expr (snd (knot (length ts))) parse_select (length ts))
         | apply (select_body_reads (fst (knot (length ts))) parse_expr (snd (knot (length ts))) parse_select (length ts))];
    try done; intros; by apply Hk.
Qed.

Lemma parse_expr_eq (m : Z) (ts : list Token) : parse_expr m ts = expr_body parse_expr parse_select m ts.
Proof. apply parse_eqs. Qed.

Lemma parse_select_eq (ts : list Token) : parse_select ts = select_body parse_expr parse_select ts.
Proof. apply parse_eqs. Qed.

(** ** Statements *)

Lemma opt_expr_reads_any (t : Token) (m : Z) (ts : list Token) :
  is_tok t T_Eof = false -> reads 0 (opt_after t (parse_expr m)) (opt_after t (parse_expr m)) ts.
Proof. intros Ht. by apply (opt_after_reads (length ts)); [|intros; apply parse_expr_reads|]. Qed.

Lemma opt_ident_reads_any (t : Token) (ts : list Token) :
  is_tok t T_Eof = false -> reads 0 (opt_after t parse_ident_string) (opt_after t parse_ident_string) ts.
Proof. intros Ht. by apply (opt_after_reads (length ts)); [|intros; apply parse_ident_string_reads|]. Qed.

Lemma parse_expr_list_reads_any (ts : list Token) : reads 1 (parse_expr_list parse_expr) (parse_expr_list parse_expr) ts.
Proof. apply comma_list_reads_any, parse_expr_reads. Qed.
#[export] Hint Resolve opt_expr_reads_any opt_ident_reads_any parse_expr_list_reads_any : reads.

(** A production without nested loops of its own: unfold and run. *)
Ltac production p := unfold p; parser_ends.

Lemma parse_option_key_reads (ts : list Token) : reads 1 parse_option_key parse_option_key ts.
Proof. production parse_option_key. Qed.
Lemma parse_option_value_reads (ts : list Token) : reads 1 parse_option_value parse_option_value ts.
Proof. production parse_option_value. Qed.
#[export] Hint Resolve parse_option_key_reads parse_option_value_reads : reads.
Lemma parse_kv_option_reads (ts : list Token) : reads 1 parse_kv_option parse_kv_option ts.
Proof. production parse_kv_option. Qed.
#[export] Hint Resolve parse_kv_option_reads : reads.
Lemma parse_with_options_reads (ts : list Token) : reads 0 parse_with_options parse_with_options ts.
Proof. production parse_with_options. Qed.
Lemma parse_if_not_exists_reads (ts : list Token) : reads 0 parse_if_not_exists parse_if_not_exists ts.
Proof. production parse_if_not_exists. Qed.
Lemma parse_if_exists_reads (ts : list Token) : reads 0 parse_if_exists parse_if_exists ts.
Proof. production parse_if_exists. Qed.
#[export] Hint Resolve parse_with_options_reads parse_if_not_exists_reads parse_if_exists_reads : reads.

Lemma parse_cte_reads (b : bool) (ts : list Token) : reads 1 (parse_cte b) (parse_cte b) ts.
Proof. production parse_cte. Qed.
#[export] Hint Resolve parse_cte_reads : reads.
Lemma parse_ctes_reads (b : bool) (ts : list Token) : reads 1 (parse_ctes b) (parse_ctes b) ts.
Proof. production parse_ctes. Qed.
Lemma parse_row_reads (ts : list Token) : reads 1 parse_row parse_row ts.
Proof. production parse_row. Qed.
#[export] Hint Resolve parse_ctes_reads parse_row_reads : reads.
Lemma rows_step_rounds (vs : list (list Expr)) (ts : list Token) : rounds (rows_step vs) (rows_step vs) ts.
Proof. production rows_step. Qed.
Lemma parse_assignment_reads (ts : list Token) : reads 1 parse_assignment parse_assignment ts.
Proof. production parse_assignment. Qed.
#[export] Hint Resolve rows_step_rounds parse_assignment_reads : reads.

Lemma parse_insert_reads (ts : list Token) : reads 0 parse_insert parse_insert ts.
Proof. production parse_insert. Qed.
Lemma parse_delete_reads (ts : list Token) : reads 0 parse_delete parse_delete ts.
Proof. production parse_delete. Qed.
Lemma parse_update_reads (ts : list Token) : reads 0 parse_update parse_update ts.
Proof. production parse_update. Qed.
#[export] Hint Resolve parse_insert_reads parse_delete_reads parse_update_reads : reads.

(** *** Tables *)

Lemma actions_step_rounds (u : unit) (ts : list Token) : rounds (actions_step u) (actions_step u) ts.
Proof. production actions_step. Qed.
#[export] Hint Resolve actions_step_rounds : reads.
Lemma skip_referential_actions_reads (ts : list Token) : reads 0 skip_referential_actions skip_referential_actions ts.
Proof. production skip_referential_actions. Qed.
Lemma parse_reference_reads (ts : list Token) : reads 1 parse_reference parse_reference ts.
Proof. production parse_reference. Qed.
#[export] Hint Resolve skip_referential_actions_reads parse_reference_reads : reads.
Lemma attribute_step_rounds (c : ColumnDef) (ts : list Token) : rounds (attribute_step c) (attribute_step c) ts.
Proof. production attribute_step. Qed.
#[export] Hint Resolve attribute_step_rounds : reads.
Lemma parse_column_reads (ts : list Token) : reads 1 parse_column parse_column ts.
Proof. production parse_column. Qed.
#[export] Hint Resolve parse_column_reads : reads.
Lemma columns_step_rounds (cs : list ColumnDef) (ts : list Token) : rounds (columns_step cs) (columns_step cs) ts.
Proof. production columns_step. Qed.
Lemma add_column_step_rounds (c : ColumnDef) (ts : list Token) : rounds (add_column_step c) (add_column_step c) ts.
Proof. production add_column_step. Qed.
Lemma parse_column_action_reads (ts : list Token) : reads 0 parse_column_action parse_column_action ts.
Proof. production parse_column_action. Qed.
#[export] Hint Resolve columns_step_rounds add_column_step_rounds parse_column_action_reads : reads.

Lemma is_word_tok_len (w : string) (ts : list Token) : is_word_tok w (first_tok ts) = true -> length ts = S (length (tail ts)).
Proof. by destruct ts. Qed.

Lemma parse_alter_table_reads (ts : list Token) : reads 0 parse_alter_table parse_alter_table ts.
Proof. production parse_alter_table. Qed.
Lemma parse_create_index_reads (ts : list Token) : reads 0 parse_create_index parse_create_index ts.
Proof. production parse_create_index. Qed.
#[export] Hint Resolve parse_alter_table_reads parse_create_index_reads : reads.

(** *** Roles and the rest *)

Lemma parse_password_reads (ts : list Token) : reads 1 parse_password parse_password ts.
Proof. production parse_password. Qed.
Lemma parse_role_name_list_reads (ts : list Token) : reads 1 parse_role_name_list parse_role_name_list ts.
Proof. production parse_role_name_list. Qed.
#[export] Hint Resolve parse_password_reads parse_role_name_list_reads : reads.
Lemma role_step_rounds (r : CreateRoleStmt) (ts : list Token) : rounds (role_step r) (role_step r) ts.
Proof. destruct r. production role_step. Qed.
Lemma alter_role_step_rounds (r : AlterRoleStmt) (ts : list Token) : rounds (alter_role_step r) (alter_role_step r) ts.
Proof. destruct r. production alter_role_step. Qed.
#[export] Hint Resolve role_step_rounds alter_role_step_rounds : reads.
Lemma parse_create_role_reads (ts : list Token) : reads 0 parse_create_role parse_create_role ts.
Proof. production parse_create_role. Qed.
Lemma parse_alter_role_reads (ts : list Token) : reads 0 parse_alter_role parse_alter_role ts.
Proof. production parse_alter_role. Qed.
Lemma parse_drop_role_reads (ts : list Token) : reads 0 parse_drop_role parse_drop_role ts.
Proof. production parse_drop_role. Qed.
Lemma parse_one_privilege_reads (ts : list Token) : reads 1 parse_one_privilege parse_one_privilege ts.
Proof. production parse_one_privilege. Qed.
#[export] Hint Resolve parse_create_role_reads parse_alter_role_reads parse_drop_role_reads parse_one_privilege_reads : reads.
Lemma parse_privilege_list_reads (ts : list Token) : reads 0 parse_privilege_list parse_privilege_list ts.
Proof. production parse_privilege_list. Qed.
Lemma parse_grant_object_reads (b : bool) (ts : list Token) : reads 0 (parse_grant_object b) (parse_grant_object b) ts.
Proof. production parse_grant_object. Qed.
#[export] Hint Resolve parse_privilege_list_reads parse_grant_object_reads : reads.
Lemma parse_grant_or_revoke_head_reads (b : bool) (ts : list Token) :
  reads 0 (parse_grant_or_revoke_head b) (parse_grant_or_revoke_head b) ts.
Proof. production parse_grant_or_revoke_head. Qed.
#[export] Hint Resolve parse_grant_or_revoke_head_reads : reads.
Lemma parse_grant_reads (ts : list Token) : reads 0 parse_grant parse_grant ts.
Proof. production parse_grant. Qed.
Lemma parse_revoke_reads (ts : list Token) : reads 0 parse_revoke parse_revoke ts.
Proof. production parse_revoke. Qed.
#[export] Hint Resolve parse_grant_reads parse_revoke_reads : reads.

Lemma parse_signed_int_reads (ts : list Token) : reads 1 parse_signed_int parse_signed_int ts.
Proof. production parse_signed_int. Qed.
#[export] Hint Resolve parse_signed_int_reads : reads.
Lemma sequence_step_rounds (si : Z * Z) (ts : list Token) : rounds (sequence_step si) (sequence_step si) ts.
Proof. destruct si. production sequence_step. Qed.
#[export] Hint Resolve sequence_step_rounds : reads.
Lemma parse_create_sequence_reads (ts : list Token) : reads 0 parse_create_sequence parse_create_sequence ts.
Proof. production parse_create_sequence. Qed.
Lemma parse_create_topic_reads (ts : list Token) : reads 0 parse_create_topic parse_create_topic ts.
Proof. production parse_create_topic. Qed.
Lemma parse_func_arg_reads (ts : list Token) : reads 1 parse_func_arg parse_func_arg ts.
Proof. production parse_func_arg. Qed.
#[export] Hint Resolve parse_create_sequence_reads parse_create_topic_reads parse_func_arg_reads : reads.
Lemma parse_function_body_reads (ts : list Token) : reads 1 parse_function_body parse_function_body ts.
Proof. production parse_function_body. Qed.
Lemma parse_fetch_count_reads (ts : list Token) : reads 0 parse_fetch_count parse_fetch_count ts.
Proof. production parse_fetch_count. Qed.
#[export] Hint Resolve parse_function_body_reads parse_fetch_count_reads : reads.
Lemma parse_create_function_reads (ts : list Token) : reads 0 parse_create_function parse_create_function ts.
Proof. production parse_create_function. Qed.
Lemma parse_drop_reads (ts : list Token) : reads 0 parse_drop parse_drop ts.
Proof. production parse_drop. Qed.
Lemma parse_copy_reads (ts : list Token) : reads 0 parse_copy parse_copy ts.
Proof. production parse_copy. Qed.
Lemma parse_declare_cursor_reads (ts : list Token) : reads 0 parse_declare_cursor parse_declare_cursor ts.
Proof. production parse_declare_cursor. Qed.
Lemma parse_fetch_stmt_reads (ts : list Token) : reads 0 parse_fetch_stmt parse_fetch_stmt ts.
Proof. production parse_fetch_stmt. Qed.
#[export] Hint Resolve parse_create_function_reads parse_drop_reads parse_copy_reads parse_declare_cursor_reads
  parse_fetch_stmt_reads : reads.

Lemma parse_match_rel_bracket_reads (ts : list Token) : reads 1 parse_match_rel_bracket parse_match_rel_bracket ts.
Proof. production parse_match_rel_bracket. Qed.
Lemma parse_match_node_reads (ts : list Token) : reads 1 parse_match_node parse_match_node ts.
Proof. production parse_match_node. Qed.
#[export] Hint Resolve parse_match_rel_bracket_reads parse_match_node_reads : reads.
Lemma hop_step_rounds (p : Pattern) (ts : list Token) : rounds (hop_step p) (hop_step p) ts.
Proof. destruct p. production hop_step. Qed.
Lemma parse_match_literal_reads (ts : list Token) : reads 1 parse_match_literal parse_match_literal ts.
Proof. production parse_match_literal. Qed.
#[export] Hint Resolve hop_step_rounds parse_match_literal_reads : reads.
Lemma parse_match_filter_reads (f : string) (ts : list Token) : reads 0 (parse_match_filter f) (parse_match_filter f) ts.
Proof. production parse_match_filter. Qed.
Lemma parse_match_limit_reads (ts : list Token) : reads 0 parse_match_limit parse_match_limit ts.
Proof. production parse_match_limit. Qed.
#[export] Hint Resolve parse_match_filter_reads parse_match_limit_reads : reads.
Lemma parse_match_reads (ts : list Token) : reads 0 parse_match parse_match ts.
Proof. production parse_match. Qed.
#[export] Hint Resolve parse_match_reads : reads.

Section Statements.
  Context {df : DebugFmt}.

Lemma set_step_rounds (parts : list string) (ts : list Token) : rounds (set_step parts) (set_step parts) ts.
Proof.
  unfold set_step, rounds. apply req_bind, req_peek. destruct ts as [|t ts]; [by apply req_ret|]. cbn [first_tok]. parser_ends.
Qed.
#[local] Hint Resolve set_step_rounds : reads.
Lemma parse_set_reads (ts : list Token) : reads 0 parse_set parse_set ts.
Proof. production @parse_set. Qed.
Lemma semicolons_step_rounds (u : unit) (ts : list Token) : rounds (semicolons_step u) (semicolons_step u) ts.
Proof. production semicolons_step. Qed.
#[local] Hint Resolve parse_set_reads semicolons_step_rounds : reads.
Lemma skip_semicolons_reads (ts : list Token) : reads 0 skip_semicolons skip_semicolons ts.
Proof. production skip_semicolons. Qed.
Lemma parse_with_reads (ts : list Token) : reads 0 parse_with parse_with ts.
Proof. production parse_with. Qed.
Lemma parse_alter_reads (ts : list Token) : reads 0 parse_alter parse_alter ts.
Proof. production parse_alter. Qed.
Lemma parse_notify_reads (ts : list Token) : reads 0 parse_notify parse_notify ts.
Proof. production parse_notify. Qed.
Lemma parse_unlisten_reads (ts : list Token) : reads 0 parse_unlisten parse_unlisten ts.
Proof. production parse_unlisten. Qed.
Lemma parse_analyze_reads (ts : list Token) : reads 0 parse_analyze parse_analyze ts.
Proof. production parse_analyze. Qed.
Lemma parse_show_reads (ts : list Token) : reads 0 parse_show parse_show ts.
Proof. production parse_show. Qed.
#[local] Hint Resolve skip_semicolons_reads parse_with_reads parse_alter_reads parse_notify_reads parse_unlisten_reads
  parse_analyze_reads parse_show_reads : reads.

Definition is_create_table (ts : list Token) : bool :=
  is_tok T_Create (first_tok ts) && is_tok T_Table (first_tok (tail ts)).

Lemma parse_create_reads (ts : list Token) :
  is_tok T_Table (first_tok ts) = false -> reads 0 parse_create parse_create ts.
Proof.
  intros Ht. unfold parse_create, reads. apply req_bind, req_peek. destruct (first_tok ts) eqn:E; try apply req_bail; try done;
    token_facts; parser_ends.
Qed.

Lemma parse_one_reads (ts : list Token) : is_create_table ts = false -> reads 1 parse_one parse_one ts.
Proof.
  intros Ht. unfold parse_one, reads. apply req_bind, req_peek. unfold is_create_table in Ht.
  destruct (first_tok ts) eqn:E; try apply req_bail; token_facts; try (by parser_ends).
  apply req_bind, req_advance. intros _. cbn in Ht. eapply reads_use; [by apply parse_create_reads|]. simpl. intros. lia.
Qed.

(** The first statement of the tokens is a CREATE TABLE. *)
Definition starts_create_table (ts : list Token) : Prop :=
  exists ts', skip_semicolons ts = Some (Ok (tt, ts')) /\ is_create_table ts' = true.

Lemma parse_stmt_ends (ts : list Token) : parse_stmt ts = None -> starts_create_table ts.
Proof.
  intros Hn. destruct (skip_semicolons_reads ts) as [_ Hsemi]. unfold parse_stmt, bind in Hn.
  destruct (skip_semicolons ts) as [[[[] ts']|e]|] eqn:E; [|done|done]. exists ts'. split; [done|].
  apply not_false_is_true. intros Hc. destruct (parse_one_reads ts' Hc) as [_ H].
  destruct (parse_one ts') as [[[s ts'']|]|]; [|done|done]. unfold eat in Hn. by destruct (is_tok T_Semicolon (first_tok ts'')).
Qed.

(** C15. Parsing ends. A text that is to be one expression is parsed with a result
    or an error, whatever it is; and so is every statement but CREATE TABLE. *)
Theorem sql_parsing_ends :
  (forall text, is_Some (parse_expr_text text))
  /\ forall sql, sql_parse sql = None -> exists ts, tokenize sql = Some (Ok ts) /\ starts_create_table ts.
Proof.
  split.
  - intros text. unfold parse_expr_text, on_text. destruct (tokenize_loop_total (S (length (as_bytes text))) (as_bytes text) [])
      as (r & Hr & _); [lia|]. unfold tokenize. rewrite Hr. destruct r as [ts|e]; [|by eexists].
    destruct (parse_expr_reads 0 ts) as [_ H]. destruct (parse_expr 0 ts) as [[[]|]|]; [by eexists.. | done].
  - intros sql. unfold sql_parse, on_text. destruct (tokenize_loop_total (S (length (as_bytes sql))) (as_bytes sql) [])
      as (r & Hr & _); [lia|]. unfold tokenize. rewrite Hr. destruct r as [ts|e]; [|done]. intros Hn. exists ts. split; [done|].
    apply parse_stmt_ends. by destruct (parse_stmt ts) as [[[]|]|].
Qed.

(** *** CREATE TABLE without its closing parenthesis *)

Lemma constraints_run_on (rounds : nat) (cs : Constraints) (ts : list Token) :
  ts = [] \/ ts = [T_Eof] -> iter rounds constraint_step cs ts = None.
Proof.
  revert ts. induction rounds as [|rounds IH]; intros ts Hts; [done|]. destruct cs as [columns constraints].
  destruct Hts as [->| ->]; cbn; apply IH; auto.
Qed.

(** CREATE TABLE without its closing parenthesis never ends. Whatever columns
    it lists, when the text is over the loop over the constraints goes on for
    any number of rounds, and the parser does not return. *)
Theorem create_table_without_paren_never_ends (table : string) (ts : list Token) (columns : list ColumnDef) :
  iterate columns_step [] ts = Some (Ok (columns, [T_Eof])) ->
  (forall rounds, iter rounds constraint_step (columns, []) [T_Eof] = None)
  /\ parse_stmt ([T_Create; T_Table; T_Ident table; T_LParen] ++ ts) = None.
Proof.
  intros Hc. assert (forall rounds, iter rounds constraint_step (columns, []) [T_Eof] = None) as Hloop
    by (intros; apply constraints_run_on; auto).
  split; [exact Hloop|].
  assert (parse_create_table (T_Ident table :: T_LParen :: ts) = None) as Ht.
  { unfold parse_create_table. rewrite (bind_ok _ _ _ false (T_Ident table :: T_LParen :: ts)) by done.
    rewrite (bind_ok _ _ _ table (T_LParen :: ts)) by done. rewrite (bind_ok _ _ _ tt ts) by done.
    rewrite (bind_ok _ _ _ _ _ Hc). unfold bind at 1. unfold iterate. by rewrite Hloop. }
  unfold parse_stmt. cbn [app].
  rewrite (bind_ok _ _ _ tt (T_Create :: T_Table :: T_Ident table :: T_LParen :: ts)) by done.
  unfold bind at 1. change (parse_one (T_Create :: T_Table :: T_Ident table :: T_LParen :: ts))
    with (parse_create_table (T_Ident table :: T_LParen :: ts)). by rewrite Ht.
Qed.

(** ** What follows a statement *)

(** A misspelt WHERE deletes every row. [sql_parse], which the extended query
    protocol uses, drops the tokens that a statement leaves: DELETE FROM with a
    word after the table that is not WHERE is the DELETE without condition,
    whatever comes behind it. [sql_parse_all] refuses the same text. *)
Theorem sql_parse_drops_what_follows (table word : string) (ts : list Token) :
  Forall renderable (T_Ident table :: T_Ident word :: ts) ->
  let sql := render ([T_Delete; T_From; T_Ident table; T_Ident word] ++ ts) in
  sql_parse sql = Some (Ok (Stmt_Delete (mkDeleteStmt table None)))
  /\ sql_parse_all sql = Some (Err "unexpected token"%string).
Proof.
  intros Hts sql. unfold sql, sql_parse, sql_parse_all, on_text.
  rewrite tokenize_render by (do 2 (apply Forall_cons_2; [done|]); exact Hts). cbn [app].
  assert (forall rest, parse_stmt (T_Delete :: T_From :: T_Ident table :: T_Ident word :: rest)
    = Some (Ok (Stmt_Delete (mkDeleteStmt table None), T_Ident word :: rest))) as Hone by done.
  split; [by rewrite Hone|]. unfold parse_all_stmts, iterate. cbn [length iter].
  set (rest := T_Ident word :: ts ++ [T_Eof]) in *.
  assert (stmts_step [] (T_Delete :: T_From :: T_Ident table :: rest)
    = Some (Ok (inl [Stmt_Delete (mkDeleteStmt table None)], rest))) as Hstep.
  { unfold stmts_step. rewrite (bind_ok _ _ _ tt (T_Delete :: T_From :: T_Ident table :: rest)) by done.
    rewrite (bind_ok _ _ _ T_Delete (T_Delete :: T_From :: T_Ident table :: rest)) by done. cbv iota.
    change (is_tok T_Eof T_Delete) with false. cbv iota. by rewrite (bind_ok _ _ _ _ _ (Hone (ts ++ [T_Eof]))). }
  by rewrite (bind_ok _ _ _ _ _ Hstep).
Qed.

End Statements.

(** ** Examples *)

(** A way to print strings and floats, for running the parser. *)
#[export] Instance plain_debug : DebugFmt := {| debug_str s := s; debug_f64 := to_dec |}.

(** [CREATE TABLE t (a int], cut off. *)
Lemma create_table_without_paren_never_ends_witness :
  tokenize "CREATE TABLE t (a int" = Some (Ok ([T_Create; T_Table; T_Ident "t"; T_LParen] ++ [T_Ident "a"; T_Ident "int"; T_Eof]))
  /\ sql_parse "CREATE TABLE t (a int" = None.
Proof.
  split; [vm_compute; reflexivity|]. unfold sql_parse, on_text.
  change (tokenize "CREATE TABLE t (a int")
    with (Some (@Ok string _ ([T_Create; T_Table; T_Ident "t"; T_LParen] ++ [T_Ident "a"; T_Ident "int"; T_Eof]))).
  destruct (create_table_without_paren_never_ends "t" [T_Ident "a"; T_Ident "int"; T_Eof]
    [mkColumnDef "a" "int" true None false false None false]) as [_ Hp]; [vm_compute; reflexivity|].
  rewrite Hp. reflexivity.
Defined.

(** [DELETE FROM t WHRE a = 1] *)
Lemma sql_parse_drops_what_follows_witness :
  sql_parse "DELETE FROM t WHRE a = 1" = Some (Ok (Stmt_Delete (mkDeleteStmt "t" None)))
  /\ sql_parse (render [T_Delete; T_From; T_Ident "t"; T_Ident "WHRE"; T_Ident "a"; T_Eq; T_IntLiteral 1])
     = Some (Ok (Stmt_Delete (mkDeleteStmt "t" None))).
Proof.
  split; [vm_compute; reflexivity|].
  apply (sql_parse_drops_what_follows "t" "WHRE" [T_Ident "a"; T_Eq; T_IntLiteral 1]).
  repeat apply Forall_cons_2; try apply Forall_nil; simpl; unfold ascii_text; try done;
    repeat apply Forall_cons_2; try apply Forall_nil; vm_compute; done.
Defined.
