(* ===== verification/ParserPrint.v ===== *)
(** Printing queries, and parsing them back.

    [print_select] writes a syntax tree as tokens, with parentheses only where
    the binding powers of the operators ask for them. The parser reads the
    tree back from them; together with [Lexer.lexer_inverts_rendering] that
    makes a round trip through SQL text.

    Theorems: queries and expressions round trip through their tokens and
    through text; operators bind by their powers and to the left. And: NOT
    binds tighter than a comparison, and between two operands it is taken for
    an equals sign. *)

From Stdlib Require Import Strings.Byte Strings.String ZArith Lia Bool.
From stdpp Require Import base list strings.
From S2P Require Import Prelude Utf8 Decimal Ast Lexer Parser ParserEnds.

Open Scope Z_scope.
Open Scope parser_scope.

(** ** Operators *)

Definition op_token (op : BinOp) : Token :=
  match op with
  | BinOp_Add => T_Plus | BinOp_Sub => T_Minus | BinOp_Mul => T_Star | BinOp_Div => T_Slash | BinOp_Mod => T_Percent
  | BinOp_Eq => T_Eq | BinOp_NotEq => T_NotEq | BinOp_Lt => T_Lt | BinOp_Lte => T_Lte | BinOp_Gt => T_Gt | BinOp_Gte => T_Gte
  | BinOp_And => T_And | BinOp_Or => T_Or | BinOp_Concat => T_Concat | BinOp_Arrow => T_Arrow
  | BinOp_LongArrow => T_LongArrow | BinOp_Contains => T_AtArrow | BinOp_HashArrow => T_HashArrow
  | BinOp_HashLongArrow => T_HashLongArrow | BinOp_RegexMatch => T_Tilde | BinOp_RegexNotMatch => T_NotTilde
  | BinOp_RegexMatchCI => T_TildeStar | BinOp_RegexNotMatchCI => T_NotTildeStar
  end.

(** The left binding power of an operator, that of comparisons and that of
    what is not an operator at all. *)
Definition op_bp (op : BinOp) : Z :=
  match infix_bp (op_token op) with Some (l, _, _) => l | None => 0 end.
Definition CMP : Z := 5.
Definition ATOM : Z := 100.

Definition level (e : Expr) : Z :=
  match e with
  | Expr_BinaryOp op _ _ => op_bp op
  | Expr_IsNull _ _ | Expr_IsTrue _ _ | Expr_IsFalse _ _ | Expr_Between _ _ _ _ | Expr_Like _ _ _ | Expr_In _ _ _ => CMP
  | _ => ATOM
  end.

(** What can stand before [::] without parentheses. *)
Definition is_postfix (e : Expr) : bool :=
  match e with
  | Expr_UnaryOp _ _ | Expr_Exists _ _ => false
  | _ => level e =? ATOM
  end.

Definition is_exists (e : Expr) : bool := match e with Expr_Exists _ _ => true | _ => false end.

(** ** Printing *)

Definition paren (b : bool) (ts : list Token) : list Token := if b then T_LParen :: ts ++ [T_RParen] else ts.

Definition at_bp (m : Z) (e : Expr) (ts : list Token) : list Token := paren (level e <? m) ts.

Definition opt_tok (b : bool) (t : Token) : list Token := if b then [t] else [].

(** Lists with commas between. *)
Fixpoint commas (l : list (list Token)) : list Token :=
  match l with
  | [] => []
  | [x] => x
  | x :: l' => x ++ T_Comma :: commas l'
  end.

Definition print_literal (l : Literal) : list Token :=
  match l with
  | Literal_Int n => [T_IntLiteral n]
  | Literal_Float f => [T_FloatLiteral f]
  | Literal_Text s => [T_StringLiteral s]
  | Literal_Bool b => [if b then T_True else T_False]
  | Literal_Null => [T_Null]
  | Literal_FloatArray fs => T_LBracket :: commas (map (fun f => [T_FloatLiteral f]) fs) ++ [T_RBracket]
  end.

Definition print_alias (alias : option string) : list Token :=
  match alias with Some a => [T_As; T_Ident a] | None => [] end.

Definition print_join_type (t : JoinType) : list Token :=
  match t with
  | JoinType_Inner => [T_Join]
  | JoinType_Left => [T_Left; T_Join]
  | JoinType_Right => [T_Right; T_Join]
  | JoinType_Full => [T_Full; T_Join]
  | JoinType_Cross => [T_Cross; T_Join]
  end.

(** Keywords in front of a list, none when the list is empty. *)
Definition clause (kw : list Token) (l : list (list Token)) : list Token :=
  match l with [] => [] | _ => kw ++ commas l end.

Definition opt_print {A : Type} (kw : list Token) (f : A -> list Token) (o : option A) : list Token :=
  match o with Some a => kw ++ f a | None => [] end.

Fixpoint print_body (e : Expr) : list Token :=
  match e with
  | Expr_Literal l => print_literal l
  | Expr_Ident name => [T_Ident name]
  | Expr_QualifiedIdent table column => [T_Ident table; T_Dot; T_Ident column]
  | Expr_BinaryOp op lhs rhs =>
      at_bp (op_bp op) lhs (print_body lhs) ++ op_token op :: at_bp (op_bp op + 1) rhs (print_body rhs)
  | Expr_UnaryOp UnOp_Neg e => T_Minus :: at_bp ATOM e (print_body e)
  | Expr_UnaryOp UnOp_Not e => T_Not :: paren ((level e <? ATOM) || is_exists e) (print_body e)
  | Expr_IsNull e negated => at_bp CMP e (print_body e) ++ T_Is :: opt_tok negated T_Not ++ [T_Null]
  | Expr_IsTrue e negated => at_bp CMP e (print_body e) ++ T_Is :: opt_tok negated T_Not ++ [T_True]
  | Expr_IsFalse e negated => at_bp CMP e (print_body e) ++ T_Is :: opt_tok negated T_Not ++ [T_False]
  | Expr_Between e low high negated =>
      at_bp CMP e (print_body e) ++ opt_tok negated T_Not ++ T_Between :: at_bp (CMP + 1) low (print_body low)
        ++ T_And :: at_bp (CMP + 1) high (print_body high)
  | Expr_Like e pattern negated =>
      at_bp CMP e (print_body e) ++ opt_tok negated T_Not ++ T_Like :: at_bp (CMP + 1) pattern (print_body pattern)
  | Expr_In e list_ negated =>
      at_bp CMP e (print_body e) ++ opt_tok negated T_Not ++ T_In :: T_LParen :: print_in list_ ++ [T_RParen]
  | Expr_Exists q negated => opt_tok negated T_Not ++ T_Exists :: T_LParen :: print_select q ++ [T_RParen]
  | Expr_Cast e ty => paren (negb (is_postfix e)) (print_body e) ++ [T_DoubleColon; T_Ident ty]
  | Expr_Function name args distinct =>
      T_Ident name :: T_LParen :: opt_tok distinct T_Distinct ++ commas (map print_body args) ++ [T_RParen]
  | Expr_Case operand branches else_ =>
      T_Case :: opt_print [] print_body operand
        ++ concat (map (fun b => T_When :: print_body (fst b) ++ T_Then :: print_body (snd b)) branches)
        ++ opt_print [T_Else] print_body else_ ++ [T_End]
  | Expr_Param n => [T_Dollar n]
  | Expr_Subquery q => T_LParen :: print_select q ++ [T_RParen]
  | Expr_Window func args partition_by order_by frame =>
      T_Ident func :: T_LParen :: commas (map print_body args) ++ T_RParen :: T_Over :: T_LParen
        :: clause [T_Partition; T_By] (map print_body partition_by)
        ++ clause [T_Order; T_By] (map print_order order_by)
        ++ opt_print [] print_frame frame ++ [T_RParen]
  end
with print_in (l : InList) : list Token :=
  match l with
  | InList_Exprs es => commas (map print_body es)
  | InList_Subquery q => print_select q
  end
with print_frame (f : WindowFrame) : list Token :=
  match f with
  | mkWindowFrame ty start end_ =>
      (match ty with FrameType_Range => T_Range | _ => T_Rows end) ::
      match end_ with
      | Some b => T_Between :: print_bound start ++ T_And :: print_bound b
      | None => print_bound start
      end
  end
with print_bound (b : FrameBound) : list Token :=
  match b with
  | mkFrameBound ty offset =>
      match ty with
      | FrameBoundType_UnboundedPreceding => [T_Unbounded; T_Preceding]
      | FrameBoundType_UnboundedFollowing => [T_Unbounded; T_Following]
      | FrameBoundType_CurrentRow => [T_Current; T_Row]
      | FrameBoundType_Preceding => opt_print [] print_body offset ++ [T_Preceding]
      | FrameBoundType_Following => opt_print [] print_body offset ++ [T_Following]
      end
  end
with print_order (o : OrderBy) : list Token :=
  match o with mkOrderBy e asc => print_body e ++ [if asc then T_Asc else T_Desc] end
with print_projection (p : Projection) : list Token :=
  match p with
  | Projection_Wildcard => [T_Star]
  | Projection_WildcardTable t => [T_Star; T_Dot; T_Ident t]
  | Projection_Expr e alias => print_body e ++ print_alias alias
  end
with print_select (s : SelectStmt) : list Token :=
  match s with
  | mkSelectStmt _ distinct projections from_ where_ group_by having order_by limit offset union_ =>
      T_Select :: opt_tok distinct T_Distinct ++ commas (map print_projection projections)
        ++ opt_print [T_From] print_twj from_
        ++ opt_print [T_Where] print_body where_
        ++ clause [T_Group; T_By] (map print_body group_by)
        ++ opt_print [T_Having] print_body having
        ++ clause [T_Order; T_By] (map print_order order_by)
        ++ opt_print [T_Limit] print_body limit
        ++ opt_print [T_Offset] print_body offset
        ++ match union_ with
           | Some (op, q) => T_Union :: opt_tok (match op with UnionOp_UnionAll => true | _ => false end) T_All ++ print_select q
           | None => []
           end
  end
with print_table_ref (t : TableRef) : list Token :=
  match t with
  | mkTableRef name alias subquery func_args =>
      match subquery with
      | Some q => T_LParen :: print_select q ++ [T_RParen; T_As; T_Ident name]
      | None =>
          T_Ident name :: match func_args with
                          | Some args => T_LParen :: commas (map print_body args) ++ [T_RParen]
                          | None => []
                          end ++ print_alias alias
      end
  end
with print_twj (t : TableWithJoins) : list Token :=
  match t with mkTableWithJoins primary joins => print_table_ref primary ++ concat (map print_join joins) end
with print_join (j : Join) : list Token :=
  match j with
  | mkJoin ty table on_ => print_join_type ty ++ print_table_ref table ++ opt_print [T_On] print_body on_
  end.

(** For a place where the binding power is [m] at least. *)
Definition print_expr (m : Z) (e : Expr) : list Token := at_bp m e (print_body e).

(** ** What can be printed

    The trees that the parser builds: no empty lists where the grammar wants
    an element, a derived table named by its alias, offsets where a frame
    bound has one. *)

Definition all_of {A : Type} (Q : A -> Prop) : list A -> Prop :=
  fix go l := match l with [] => True | x :: l' => Q x /\ go l' end.

Definition opt_of {A : Type} (Q : A -> Prop) (o : option A) : Prop := match o with Some a => Q a | None => True end.

Fixpoint wf_expr (e : Expr) : Prop :=
  match e with
  | Expr_Literal _ | Expr_Ident _ | Expr_QualifiedIdent _ _ | Expr_Param _ => True
  | Expr_BinaryOp _ a b => wf_expr a /\ wf_expr b
  | Expr_UnaryOp _ a | Expr_IsNull a _ | Expr_IsTrue a _ | Expr_IsFalse a _ | Expr_Cast a _ => wf_expr a
  | Expr_Between a b c _ => wf_expr a /\ wf_expr b /\ wf_expr c
  | Expr_Like a b _ => wf_expr a /\ wf_expr b
  | Expr_In a l _ => wf_expr a /\ wf_in l
  | Expr_Exists q _ | Expr_Subquery q => wf_select q
  | Expr_Function _ args _ => all_of wf_expr args
  | Expr_Case operand branches else_ =>
      opt_of wf_expr operand /\ all_of (fun b => wf_expr (fst b) /\ wf_expr (snd b)) branches /\ opt_of wf_expr else_
      /\ (operand = None -> branches <> [])
  | Expr_Window _ args partition_by order_by frame =>
      all_of wf_expr args /\ all_of wf_expr partition_by /\ all_of wf_order order_by /\ opt_of wf_frame frame
  end
with wf_in (l : InList) : Prop :=
  match l with
  | InList_Exprs es => es <> [] /\ all_of wf_expr es
  | InList_Subquery q => wf_select q
  end
with wf_frame (f : WindowFrame) : Prop :=
  match f with mkWindowFrame ty start end_ => ty <> FrameType_Groups /\ wf_bound start /\ opt_of wf_bound end_ end
with wf_bound (b : FrameBound) : Prop :=
  match b with
  | mkFrameBound ty offset =>
      match ty with
      | FrameBoundType_Preceding | FrameBoundType_Following => match offset with Some e => wf_expr e | None => False end
      | _ => offset = None
      end
  end
with wf_order (o : OrderBy) : Prop := match o with mkOrderBy e _ => wf_expr e end
with wf_projection (p : Projection) : Prop := match p with Projection_Expr e _ => wf_expr e | _ => True end
with wf_select (s : SelectStmt) : Prop :=
  match s with
  | mkSelectStmt ctes _ projections from_ where_ group_by having order_by limit offset union_ =>
      ctes = [] /\ projections <> [] /\ all_of wf_projection projections /\ opt_of wf_twj from_ /\ opt_of wf_expr where_
      /\ all_of wf_expr group_by /\ opt_of wf_expr having /\ all_of wf_order order_by /\ opt_of wf_expr limit
      /\ opt_of wf_expr offset /\ match union_ with Some (_, q) => wf_select q | None => True end
  end
with wf_table_ref (t : TableRef) : Prop :=
  match t with
  | mkTableRef name alias subquery func_args =>
      match subquery with
      | Some q => wf_select q /\ alias = Some name /\ func_args = None
      | None => opt_of (all_of wf_expr) func_args
      end
  end
with wf_twj (t : TableWithJoins) : Prop :=
  match t with mkTableWithJoins primary joins => wf_table_ref primary /\ all_of wf_join joins end
with wf_join (j : Join) : Prop := match j with mkJoin _ table on_ => wf_table_ref table /\ opt_of wf_expr on_ end.

(** ** Loops *)

Section Loops.
  Context {A B : Type} (body : A -> P (A + B)).
  Hypothesis Hbody : forall a ts, rounds (body a) (body a) ts.

Lemma iter_fuel (f1 f2 : nat) (a : A) (ts : list Token) :
  (length ts < f1)%nat -> (length ts < f2)%nat -> iter f1 body a ts = iter f2 body a ts.
Proof.
  revert f2 a ts. induction f1 as [|f1 IH]; intros [|f2] a ts H1 H2; try lia. cbn [iter]. unfold bind.
  destruct (Hbody a ts) as [_ H]. destruct (body a ts) as [[[[a'|b] ts']|e]|]; [|done..]. apply IH; lia.
Qed.

Lemma iterate_more (a a' : A) (ts ts' : list Token) :
  body a ts = Some (Ok (inl a', ts')) -> iterate body a ts = iterate body a' ts'.
Proof.
  intros H. destruct (Hbody a ts) as [_ Hr]. rewrite H in Hr.
  transitivity (iter (length ts) body a' ts'); [|apply iter_fuel; lia].
  unfold iterate. cbn [iter]. by rewrite (bind_ok _ _ _ _ _ H).
Qed.

Lemma iterate_done (a : A) (b : B) (ts ts' : list Token) :
  body a ts = Some (Ok (inr b, ts')) -> iterate body a ts = Some (Ok (b, ts')).
Proof. intros H. unfold iterate. cbn [iter]. by rewrite (bind_ok _ _ _ _ _ H). Qed.

End Loops.

Lemma infix_rounds (m : Z) (lhs : Expr) (ts : list Token) :
  rounds (infix_step parse_expr parse_select m lhs) (infix_step parse_expr parse_select m lhs) ts.
Proof.
  apply (infix_step_rounds parse_expr parse_expr parse_select parse_select (length ts)); [| |done]; intros;
    [apply parse_expr_reads | apply parse_select_reads].
Qed.

Definition infix_loop (m : Z) (lhs : Expr) : P Expr := iterate (infix_step parse_expr parse_select m) lhs.
Definition postfix_loop (e : Expr) : P Expr := iterate postfix_step e.

(** Take the steps of a parser that the next tokens decide. *)
Ltac run1 :=
  lazymatch goal with
  | |- bind ?p ?k ?ts = _ =>
      let r := eval hnf in (p ts) in
      lazymatch r with
      | Some ?x =>
          let x := eval hnf in x in
          lazymatch x with
          | Ok ?y =>
              let y := eval hnf in y in
              lazymatch y with (?a, ?ts') => change (bind p k ts) with (k a ts'); cbv beta iota; cbn [first_tok tail] end
          end
      end
  end.
Ltac run := repeat run1.

(** ** What can follow *)

(** Tokens that would be taken as part of the name, call or cast before. *)
Definition glue (t : Token) : bool := is_tok T_Dot t || is_tok T_LParen t || is_tok T_Over t.

(** No operator above [l] and nothing glued follows. *)
Definition follows (l : Z) (rest : list Token) : Prop :=
  glue (first_tok rest) = false /\ is_tok T_DoubleColon (first_tok rest) = false
  /\ match infix_bp (first_tok rest) with Some (l', _, _) => l' <= l | None => True end.

(** Nothing follows that would go on with an expression at all. *)
Definition ends_expr (t : Token) : bool :=
  negb (glue t) && negb (is_tok T_DoubleColon t) && match infix_bp t with Some _ => false | None => true end.

Lemma ends_follows (l : Z) (rest : list Token) : ends_expr (first_tok rest) = true -> follows l rest.
Proof.
  unfold ends_expr, follows. intros [[H1 H2]%andb_true_iff H3]%andb_true_iff.
  split_and!; [by apply negb_true_iff | by apply negb_true_iff|]. by destruct (infix_bp _) as [[[]]|].
Qed.

Lemma postfix_loop_stops (e : Expr) (rest : list Token) :
  is_tok T_DoubleColon (first_tok rest) = false -> postfix_loop e rest = Some (Ok (e, rest)).
Proof. intros H. apply iterate_done. unfold postfix_step, bind, eat. by rewrite H. Qed.

Lemma infix_loop_stops (m : Z) (e : Expr) (rest : list Token) :
  match infix_bp (first_tok rest) with Some (l, _, _) => l < m | None => True end -> infix_loop m e rest = Some (Ok (e, rest)).
Proof.
  intros H. apply iterate_done. unfold infix_step, bind, peek, peek2, ret.
  destruct (infix_bp (first_tok rest)) as [[[l r] op]|]; [|done]. by apply Z.ltb_lt in H as ->.
Qed.

Lemma ends_infix (m : Z) (e : Expr) (rest : list Token) :
  ends_expr (first_tok rest) = true -> infix_loop m e rest = Some (Ok (e, rest)).
Proof.
  intros H. apply infix_loop_stops. unfold ends_expr in H. apply andb_true_iff in H as [_ H]. by destruct (infix_bp _) as [[[]]|].
Qed.

(** ** How expressions begin *)

Definition starts_postfix (t : Token) : bool :=
  match t with
  | T_IntLiteral _ | T_FloatLiteral _ | T_StringLiteral _ | T_True | T_False | T_Null | T_LBracket | T_Dollar _
  | T_LParen | T_Case | T_Ident _ => true
  | _ => false
  end.

Definition starts_expr (t : Token) : bool :=
  starts_postfix t || is_tok T_Minus t || is_tok T_Not t || is_tok T_Exists t.

Lemma first_tok_app (a b : list Token) : a <> [] -> first_tok (a ++ b) = first_tok a.
Proof. by destruct a. Qed.

Lemma body_starts (e : Expr) (rest : list Token) :
  starts_expr (first_tok (print_body e ++ rest)) = true
  /\ (is_postfix e = true -> starts_postfix (first_tok (print_body e ++ rest)) = true).
Proof.
  revert rest. induction e; intros rest; cbn [print_body is_postfix]; rewrite <- ?app_assoc;
    try (by split); try (split; [|done]; unfold at_bp, paren; case_match; cbn [app first_tok]; rewrite <- ?app_assoc; [done|]; naive_solver).
  - by destruct l as [| | |[]| |].
  - split; [|by destruct op]. unfold at_bp, paren. case_match; [done|]. apply IHe1.
  - by destruct negated.
  - unfold paren. destruct (is_postfix e) eqn:E; [|by split]. cbn [negb]. split; [apply IHe|]. intros _. by apply IHe.
Qed.

Lemma starts_not (x t : Token) :
  starts_expr t = true -> plain_token x = true -> starts_expr x = false -> is_tok x t = false.
Proof. intros Ht Hx Hs. apply not_true_is_false. intros ->%is_tok_spec; [congruence | done]. Qed.

(** ** Lists *)

Lemma commas_cons (x : list Token) (l : list (list Token)) : commas (x :: l) = x ++ concat (map (cons T_Comma) l).
Proof. revert x. induction l as [|y l IH]; intros x; [by rewrite app_nil_r|]. change (commas (x :: y :: l)) with (x ++ T_Comma :: commas (y :: l)). by rewrite IH. Qed.

Lemma comma_list_print {A : Type} (p : P A) (pr : A -> list Token) (ok : Token -> bool) (l : list A) (rest : list Token) :
  (forall ts, reads 1 p p ts) ->
  (forall x rest, In x l -> ok (first_tok rest) = true -> p (pr x ++ rest) = Some (Ok (x, rest))) ->
  l <> [] -> ok T_Comma = true -> ok (first_tok rest) = true -> is_tok T_Comma (first_tok rest) = false ->
  comma_list p (commas (map pr l) ++ rest) = Some (Ok (l, rest)).
Proof.
  intros Hp Hitem Hl Hc Hrest Hcomma. destruct l as [|x l]; [done|]. clear Hl. cbn [map].
  rewrite commas_cons, <- app_assoc. unfold comma_list.
  assert (forall acc, iterate (more_items p) acc (concat (map (cons T_Comma) (map pr l)) ++ rest) = Some (Ok (acc ++ l, rest))) as Hloop.
  { assert (forall acc ts, rounds (more_items p acc) (more_items p acc) ts) as Hr.
    { intros acc ts. unfold more_items. parser_ends. }
    assert (forall y rest, In y l -> ok (first_tok rest) = true -> p (pr y ++ rest) = Some (Ok (y, rest))) as Hi
      by (intros; apply Hitem; [by right | done]).
    clear Hitem. revert Hi. induction l as [|y l IH]; intros Hi acc; cbn [map concat].
    - rewrite app_nil_r. apply iterate_done. unfold more_items, bind, eat. cbn [app]. by rewrite Hcomma.
    - cbn [app]. rewrite <- app_assoc.
      rewrite (iterate_more _ Hr acc (acc ++ [y]) _ (concat (map (cons T_Comma) (map pr l)) ++ rest)).
      + rewrite IH by (intros; apply Hi; [by right | done]). rewrite <- app_assoc. done.
      + unfold more_items. run. rewrite (bind_ok _ _ _ y (concat (map (cons T_Comma) (map pr l)) ++ rest)); [done|].
        apply Hi; [by left|]. by destruct l. }
  rewrite (bind_ok _ _ _ x (concat (map (cons T_Comma) (map pr l)) ++ rest)); [apply Hloop|].
  apply Hitem; [by left|]. by destruct l.
Qed.

(** ** Round trips *)

(** The rest of a parse that took everything up to [rest]. *)
Abbreviation done_with a rest := (Some (@Ok string _ (a, rest))).

Definition unary : P Expr := parse_unary parse_expr parse_select.
Definition postfix : P Expr := parse_postfix parse_expr parse_select.
Definition atom : P Expr := parse_atom parse_expr parse_select.

(** What holds of an expression's own text, by how tightly it binds. *)
Record reads_back (e : Expr) : Prop := {
  rb_expr : forall m rest, m <= level e -> follows (level e) rest -> parse_expr m (print_body e ++ rest) = infix_loop m e rest;
  rb_unary : level e = ATOM -> forall rest, follows ATOM rest -> unary (print_body e ++ rest) = done_with e rest;
  rb_postfix : is_postfix e = true -> forall rest, glue (first_tok rest) = false -> postfix (print_body e ++ rest) = postfix_loop e rest;
}.

Lemma follows_glue (l : Z) (rest : list Token) : follows l rest -> glue (first_tok rest) = false.
Proof. by intros [? _]. Qed.

Lemma follows_weaken (l l' : Z) (rest : list Token) : l <= l' -> follows l rest -> follows l' rest.
Proof. intros Hl (H1 & H2 & H3). split_and!; [done..|]. destruct (infix_bp _) as [[[]]|]; [lia|done]. Qed.

Lemma infix_bp_small (t : Token) (l r : Z) (op : BinOp) : infix_bp t = Some (l, r, op) -> l <= ATOM.
Proof. destruct t; intros [= <- <- <-]; by vm_compute. Qed.

Lemma follows_atom (rest : list Token) :
  glue (first_tok rest) = false -> is_tok T_DoubleColon (first_tok rest) = false -> follows ATOM rest.
Proof. intros H1 H2. split_and!; [done..|]. destruct (infix_bp _) as [[[]]|] eqn:E; [|done]. by eapply infix_bp_small. Qed.

(** Each level from the one below. *)
Lemma unary_of_postfix (e : Expr) (ts rest : list Token) :
  starts_postfix (first_tok ts) = true -> postfix ts = postfix_loop e rest -> is_tok T_DoubleColon (first_tok rest) = false ->
  unary ts = done_with e rest.
Proof.
  intros Hs Hp Hd. rewrite (postfix_loop_stops e rest Hd) in Hp. unfold unary. destruct ts as [|t ts]; [done|].
  cbn [parse_unary first_tok] in *. by destruct t.
Qed.

Lemma expr_of_unary (m : Z) (e : Expr) (ts rest : list Token) :
  unary ts = done_with e rest -> parse_expr m ts = infix_loop m e rest.
Proof. intros H. rewrite parse_expr_eq. unfold expr_body. by rewrite (bind_ok _ _ _ _ _ H). Qed.

Lemma reads_back_postfix (e : Expr) :
  is_postfix e = true -> (forall rest, glue (first_tok rest) = false -> postfix (print_body e ++ rest) = postfix_loop e rest) ->
  reads_back e.
Proof.
  intros Hp H. assert (level e = ATOM) as Hl by (destruct e; try done; simpl in Hp; by apply Z.eqb_eq in Hp).
  assert (forall rest, follows ATOM rest -> unary (print_body e ++ rest) = done_with e rest) as Hu.
  { intros rest Hf. eapply unary_of_postfix; [by apply body_starts | apply H; by eapply follows_glue|]. by destruct Hf as (_ & ? & _). }
  split; [|done|done]. intros m rest _ Hf. apply expr_of_unary, Hu. by rewrite Hl in Hf.
Qed.

Lemma reads_back_unary (e : Expr) :
  is_postfix e = false -> level e = ATOM -> (forall rest, follows ATOM rest -> unary (print_body e ++ rest) = done_with e rest) ->
  reads_back e.
Proof.
  intros Hp Hl Hu. split; [|done|congruence]. intros m rest _ Hf. apply expr_of_unary, Hu. by rewrite Hl in Hf.
Qed.

Lemma reads_back_infix (e : Expr) :
  level e < ATOM -> (forall m rest, m <= level e -> follows (level e) rest -> parse_expr m (print_body e ++ rest) = infix_loop m e rest) ->
  reads_back e.
Proof.
  intros Hl H. split; [done|lia|]. intros Hp. destruct e; simpl in *; try done; try lia; apply Z.eqb_eq in Hp; lia.
Qed.

Lemma postfix_of_atom (e : Expr) (ts rest : list Token) : atom ts = done_with e rest -> postfix ts = postfix_loop e rest.
Proof. intros H. unfold postfix, parse_postfix. by rewrite (bind_ok _ _ _ _ _ H). Qed.

Lemma level_range (e : Expr) : 0 <= level e <= ATOM.
Proof. destruct e; try (by vm_compute); by destruct op. Qed.

Section Operand.
  Context (e : Expr) (He : reads_back e).

Lemma read_whole (rest : list Token) :
  ends_expr (first_tok rest) = true -> parse_expr 0 (print_body e ++ rest) = done_with e rest.
Proof.
  intros Hr. pose proof (level_range e). rewrite (rb_expr e He) by (lia || by apply ends_follows). by apply ends_infix.
Qed.

Lemma read_paren (rest : list Token) : atom (T_LParen :: print_body e ++ T_RParen :: rest) = done_with e rest.
Proof.
  unfold atom, parse_atom. run. rewrite (starts_not T_Select); [|by apply body_starts|done|done].
  rewrite (bind_ok _ _ _ e (T_RParen :: rest)) by (by apply read_whole). done.
Qed.

Lemma read_paren_postfix (rest : list Token) :
  postfix (T_LParen :: print_body e ++ T_RParen :: rest) = postfix_loop e rest.
Proof. apply postfix_of_atom, read_paren. Qed.

Lemma read_operand (b : bool) (rest : list Token) :
  b = true \/ level e = ATOM -> follows ATOM rest -> unary (paren b (print_body e) ++ rest) = done_with e rest.
Proof.
  intros Hb Hf. destruct b; cbn [paren].
  - rewrite <- app_comm_cons, <- app_assoc. eapply unary_of_postfix; [done | apply read_paren_postfix|]. by destruct Hf as (_ & ? & _).
  - destruct Hb as [|Hl]; [done|]. by apply rb_unary.
Qed.

(** On the left of an operator of power [l]. *)
Lemma read_left (m l : Z) (rest : list Token) :
  m <= l <= ATOM -> follows l rest -> parse_expr m (at_bp l e (print_body e) ++ rest) = infix_loop m e rest.
Proof.
  intros Hm Hf. unfold at_bp. destruct (Z.ltb_spec (level e) l) as [Hl|Hl].
  - apply expr_of_unary, read_operand; [by left|]. apply (follows_weaken l); [lia | done].
  - cbn [paren]. apply rb_expr; [done | lia|]. by apply (follows_weaken l).
Qed.

(** On the right of one. *)
Lemma read_right (m : Z) (rest : list Token) :
  m <= ATOM -> follows (m - 1) rest -> parse_expr m (at_bp m e (print_body e) ++ rest) = done_with e rest.
Proof.
  intros Hm Hf. rewrite (read_left m m) by (lia || (apply (follows_weaken (m - 1)); [lia | done])).
  apply infix_loop_stops. destruct Hf as (_ & _ & H). destruct (infix_bp _) as [[[]]|]; [lia | done].
Qed.

End Operand.

(** ** Operators *)

Lemma op_infix (op : BinOp) : infix_bp (op_token op) = Some (op_bp op, op_bp op + 1, op) /\ 1 <= op_bp op < ATOM.
Proof. by destruct op. Qed.

Lemma op_follows (op : BinOp) (rest : list Token) : follows (op_bp op) (op_token op :: rest).
Proof. by destruct op. Qed.

Lemma cmp_follows (t : Token) (rest : list Token) :
  ends_expr t = false -> infix_bp t = Some (CMP, CMP + 1, BinOp_Eq) -> follows CMP (t :: rest).
Proof. intros _ H. by destruct t. Qed.

Lemma binary_step (m : Z) (op : BinOp) (a b : Expr) (ts rest : list Token) :
  m <= op_bp op -> parse_expr (op_bp op + 1) ts = done_with b rest ->
  infix_loop m a (op_token op :: ts) = infix_loop m (Expr_BinaryOp op a b) rest.
Proof.
  intros Hm Hb. apply iterate_more; [apply infix_rounds|]. destruct (op_infix op) as [Hop _]. unfold infix_step. run. rewrite Hop.
  rewrite (proj2 (Z.ltb_ge _ _) Hm).
  assert (forall x, In x [T_Is; T_Between; T_Like; T_In; T_Not; T_Collate; T_Operator] -> is_tok x (op_token op) = false) as Hx
    by (intros x Hx; repeat destruct Hx as [<-|Hx]; try done; by destruct op).
  unfold or_negated. rewrite !Hx by (simpl; tauto). cbn [orb andb]. run. by rewrite (bind_ok _ _ _ _ _ Hb).
Qed.

Lemma reads_back_binary (op : BinOp) (a b : Expr) : reads_back a -> reads_back b -> reads_back (Expr_BinaryOp op a b).
Proof.
  intros Ha Hb. destruct (op_infix op) as [_ Hbp]. apply reads_back_infix; [simpl; lia|]. intros m rest Hm Hf. cbn [level print_body] in *.
  rewrite <- app_assoc. rewrite <- app_comm_cons. rewrite (read_left a Ha) by (lia || apply op_follows).
  apply binary_step; [done|]. apply (read_right b Hb); [lia|]. by replace (op_bp op + 1 - 1) with (op_bp op) by lia.
Qed.

(** Both forms of a comparison, [X] and [NOT X]. *)
Lemma negated_step (m : Z) (negated : bool) (t : Token) (a e : Expr) (ts rest : list Token) :
  m <= CMP -> In t [T_Between; T_Like; T_In] ->
  (if is_tok T_Between t then infix_between parse_expr (CMP + 1) a
   else if is_tok T_Like t then infix_like parse_expr (CMP + 1) a
   else infix_in parse_expr parse_select a) (opt_tok negated T_Not ++ t :: ts) = done_with (inl e) rest ->
  infix_loop m a (opt_tok negated T_Not ++ t :: ts) = infix_loop m e rest.
Proof.
  intros Hm Ht H. apply iterate_more; [apply infix_rounds|]. unfold infix_step. apply Z.ltb_ge in Hm.
  repeat destruct Ht as [<-|Ht]; try done; destruct negated; run; cbn [app opt_tok infix_bp first_tok] in *; unfold CMP in *; rewrite Hm; exact H.
Qed.

Lemma flag_not_follows (negated : bool) (t : Token) (ts : list Token) :
  In t [T_Between; T_Like; T_In] -> follows CMP (opt_tok negated T_Not ++ t :: ts).
Proof. intros Ht. repeat destruct Ht as [<-|Ht]; try done; by destruct negated. Qed.

(** IS NULL, IS TRUE and IS FALSE *)
Lemma is_step (m : Z) (negated : bool) (a : Expr) (t : Token) (e : Expr) (rest : list Token) :
  m <= CMP ->
  infix_is a (T_Is :: opt_tok negated T_Not ++ t :: rest) = done_with (inl e) rest ->
  infix_loop m a (T_Is :: opt_tok negated T_Not ++ t :: rest) = infix_loop m e rest.
Proof.
  intros Hm H. apply iterate_more; [apply infix_rounds|]. unfold infix_step. apply Z.ltb_ge in Hm. run. cbn [infix_bp].
  unfold CMP in Hm. by rewrite Hm.
Qed.

Lemma reads_back_is (a : Expr) (negated : bool) :
  reads_back a -> reads_back (Expr_IsNull a negated) /\ reads_back (Expr_IsTrue a negated) /\ reads_back (Expr_IsFalse a negated).
Proof.
  intros Ha. split_and!; (apply reads_back_infix; [done|]); intros m rest Hm Hf; cbn [level print_body] in *;
    rewrite <- app_assoc, <- app_comm_cons, <- app_assoc; cbn [app]; rewrite (read_left a Ha) by done; apply is_step; try done; by destruct negated.
Qed.

Lemma reads_back_between (a low high : Expr) (negated : bool) :
  reads_back a -> reads_back low -> reads_back high -> reads_back (Expr_Between a low high negated).
Proof.
  intros Ha Hlow Hhigh. apply reads_back_infix; [done|]. intros m rest Hm Hf. cbn [level print_body] in *.
  rewrite <- !app_assoc, <- !app_comm_cons, <- !app_assoc, <- !app_comm_cons.
  rewrite (read_left a Ha) by (done || apply flag_not_follows; simpl; tauto).
  apply negated_step; [done | simpl; tauto|]. change (is_tok T_Between T_Between) with true. cbv iota. unfold infix_between.
  rewrite (bind_ok _ _ _ negated (T_Between :: at_bp (CMP + 1) low (print_body low) ++ T_And :: at_bp (CMP + 1) high (print_body high) ++ rest))
    by (by destruct negated).
  run. rewrite (bind_ok _ _ _ low (T_And :: at_bp (CMP + 1) high (print_body high) ++ rest)) by (by apply (read_right low Hlow)).
  run. rewrite (bind_ok _ _ _ high rest) by (by apply (read_right high Hhigh)). done.
Qed.

Lemma reads_back_like (a pattern : Expr) (negated : bool) :
  reads_back a -> reads_back pattern -> reads_back (Expr_Like a pattern negated).
Proof.
  intros Ha Hp. apply reads_back_infix; [done|]. intros m rest Hm Hf. cbn [level print_body] in *.
  rewrite <- !app_assoc, <- !app_comm_cons.
  rewrite (read_left a Ha) by (done || apply flag_not_follows; simpl; tauto).
  apply negated_step; [done | simpl; tauto|]. change (is_tok T_Between T_Like) with false. change (is_tok T_Like T_Like) with true.
  cbv iota. unfold infix_like.
  rewrite (bind_ok _ _ _ negated (T_Like :: at_bp (CMP + 1) pattern (print_body pattern) ++ rest)) by (by destruct negated).
  run. rewrite (bind_ok _ _ _ pattern rest) by (by apply (read_right pattern Hp)). done.
Qed.

Lemma reads_back_neg (a : Expr) : reads_back a -> reads_back (Expr_UnaryOp UnOp_Neg a).
Proof.
  intros Ha. apply reads_back_unary; [done..|]. intros rest Hf. cbn [print_body app].
  unfold unary. cbn [parse_unary]. change (is_tok T_Minus T_Minus) with true. cbv iota. unfold at_bp.
  assert (unary (paren (level a <? ATOM) (print_body a) ++ rest) = done_with a rest) as Hu.
  { apply (read_operand a Ha); [|done]. pose proof (level_range a). destruct (Z.ltb_spec (level a) ATOM); [by left | right; lia]. }
  unfold unary in Hu. by rewrite Hu.
Qed.

Lemma reads_back_not (a : Expr) : reads_back a -> reads_back (Expr_UnaryOp UnOp_Not a).
Proof.
  intros Ha. apply reads_back_unary; [done..|]. intros rest Hf. cbn [print_body app].
  set (b := (level a <? ATOM) || is_exists a).
  assert (unary (paren b (print_body a) ++ rest) = done_with a rest) as Hu.
  { apply (read_operand a Ha); [|done]. subst b. pose proof (level_range a).
    destruct (Z.ltb_spec (level a) ATOM); [by left|]. right. lia. }
  assert (is_tok T_Exists (first_tok (paren b (print_body a) ++ rest)) = false) as Hx.
  { subst b. destruct (Z.ltb_spec (level a) ATOM); [done|]. simpl. destruct (is_exists a) eqn:E; [done|]. cbn [paren].
    destruct (is_postfix a) eqn:Ep.
    - pose proof (proj2 (body_starts a rest) Ep) as Hs. by destruct (first_tok _).
    - destruct a; done || by destruct op. }
  unfold unary in *. cbn [parse_unary]. change (is_tok T_Minus T_Not) with false. change (is_tok T_Plus T_Not) with false.
  change (is_tok T_Not T_Not) with true. cbv iota. rewrite Hx. cbn [andb]. by rewrite Hu.
Qed.

(** ** Atoms *)

Ltac by_atom := apply reads_back_postfix; [done|]; intros rest Hg; apply postfix_of_atom; cbn [print_body app].

Lemma no_glue (rest : list Token) :
  glue (first_tok rest) = false ->
  is_tok T_Dot (first_tok rest) = false /\ is_tok T_LParen (first_tok rest) = false /\ is_tok T_Over (first_tok rest) = false.
Proof. unfold glue. intros [[? ?]%orb_false_iff ?]%orb_false_iff. done. Qed.

Lemma eat_no (t : Token) (ts : list Token) : is_tok t (first_tok ts) = false -> eat t ts = done_with false ts.
Proof. intros H. unfold eat. by rewrite H. Qed.

Lemma reads_back_ident (name : string) : reads_back (Expr_Ident name).
Proof.
  by_atom. unfold atom, parse_atom. run. destruct (no_glue rest Hg) as (Hd & Hp & _).
  by rewrite (bind_ok _ _ _ _ _ (eat_no T_LParen rest Hp)), (bind_ok _ _ _ _ _ (eat_no T_Dot rest Hd)).
Qed.

Lemma reads_back_qualified (table column : string) : reads_back (Expr_QualifiedIdent table column).
Proof.
  by_atom. unfold atom, parse_atom. run. destruct (no_glue rest Hg) as (_ & Hp & _).
  by rewrite (bind_ok _ _ _ _ _ (eat_no T_LParen rest Hp)).
Qed.

Lemma float_array_loop (fs acc : list Z) (rest : list Token) :
  fs <> [] ->
  iterate array_step acc (commas (map (fun f => [T_FloatLiteral f]) fs) ++ T_RBracket :: rest) = done_with (acc ++ fs) (T_RBracket :: rest).
Proof.
  destruct fs as [|f fs]; [done|]. intros _. cbn [map]. rewrite commas_cons. cbn [app]. revert f acc.
  induction fs as [|g fs IH]; intros f acc; [by apply iterate_done|]. cbn [map concat app].
  rewrite (iterate_more _ array_step_rounds acc (acc ++ [f]) _
    (T_FloatLiteral g :: concat (map (cons T_Comma) (map (fun f => [T_FloatLiteral f]) fs)) ++ T_RBracket :: rest)) by done.
  rewrite IH, <- app_assoc. done.
Qed.

Lemma reads_back_literal (l : Literal) : reads_back (Expr_Literal l).
Proof.
  by_atom. destruct l as [n|f|s|[]| |fs]; try done. cbn [print_literal app]. unfold atom, parse_atom. run.
  unfold parse_float_array_literal. run. rewrite <- app_assoc. cbn [app]. destruct fs as [|f fs]; [done|].
  assert (is_tok T_RBracket (first_tok (commas (map (fun f => [T_FloatLiteral f]) (f :: fs)) ++ T_RBracket :: rest)) = false) as ->
    by (cbn [map]; by rewrite commas_cons).
  by rewrite (bind_ok _ _ _ _ _ (float_array_loop (f :: fs) [] rest ltac:(done))).
Qed.

Lemma reads_back_param (n : Z) : reads_back (Expr_Param n).
Proof. by by_atom. Qed.

Lemma cast_name (ty : string) (rest : list Token) :
  is_tok T_Dot (first_tok rest) = false -> parse_cast_type_name (T_Ident ty :: rest) = done_with ty rest.
Proof. intros H. unfold parse_cast_type_name. run. apply iterate_done. unfold cast_name_step. by rewrite (bind_ok _ _ _ _ _ (eat_no _ _ H)). Qed.

Lemma cast_step (a : Expr) (ty : string) (rest : list Token) :
  is_tok T_Dot (first_tok rest) = false -> postfix_loop a (T_DoubleColon :: T_Ident ty :: rest) = postfix_loop (Expr_Cast a ty) rest.
Proof.
  intros H. apply iterate_more; [apply postfix_step_rounds|]. unfold postfix_step. run. by rewrite (bind_ok _ _ _ _ _ (cast_name ty rest H)).
Qed.

Lemma reads_back_cast (a : Expr) (ty : string) : reads_back a -> reads_back (Expr_Cast a ty).
Proof.
  intros Ha. apply reads_back_postfix; [done|]. intros rest Hg. cbn [print_body]. rewrite <- app_assoc. cbn [app].
  destruct (no_glue rest Hg) as (Hd & _ & _). rewrite <- (cast_step a ty rest Hd). destruct (is_postfix a) eqn:E; cbn [negb paren].
  - by apply (rb_postfix a Ha).
  - rewrite <- app_comm_cons, <- app_assoc. apply (read_paren_postfix a Ha).
Qed.

(** ** What nests *)

(** Tokens after a query. *)
Definition ends_select (t : Token) : bool := is_tok T_RParen t || is_tok T_Semicolon t || is_tok T_Eof t.

Definition select_back (q : SelectStmt) : Prop :=
  forall rest, ends_select (first_tok rest) = true -> parse_select (print_select q ++ rest) = done_with q rest.

Lemma select_starts (q : SelectStmt) (rest : list Token) : first_tok (print_select q ++ rest) = T_Select.
Proof. by destruct q. Qed.

(** A bracketed query. *)
Lemma read_query (q : SelectStmt) (rest : list Token) :
  select_back q -> parse_select (print_select q ++ T_RParen :: rest) = done_with q (T_RParen :: rest).
Proof. intros Hq. by apply Hq. Qed.

Lemma read_list (es : list Expr) (rest : list Token) :
  Forall reads_back es -> es <> [] -> ends_expr (first_tok rest) = true -> is_tok T_Comma (first_tok rest) = false ->
  parse_expr_list parse_expr (commas (map print_body es) ++ rest) = done_with es rest.
Proof.
  intros Hes Hne Hr Hc. apply (comma_list_print _ _ ends_expr); try done.
  - intros ts. apply parse_expr_reads.
  - intros x r Hx Hok. apply read_whole; [|done]. rewrite List.Forall_forall in Hes. by apply Hes.
Qed.

Lemma list_starts (es : list Expr) (rest : list Token) :
  es <> [] -> starts_expr (first_tok (commas (map print_body es) ++ rest)) = true.
Proof. destruct es as [|e es]; [done|]. intros _. cbn [map]. rewrite commas_cons, <- app_assoc. apply body_starts. Qed.

(** ** IN, EXISTS, subqueries *)

Definition in_back (l : InList) : Prop :=
  match l with
  | InList_Exprs es => es <> [] /\ Forall reads_back es
  | InList_Subquery q => select_back q
  end.

Lemma reads_back_in (a : Expr) (l : InList) (negated : bool) : reads_back a -> in_back l -> reads_back (Expr_In a l negated).
Proof.
  intros Ha Hl. apply reads_back_infix; [done|]. intros m rest Hm Hf. cbn [level print_body] in *.
  rewrite <- !app_assoc, <- !app_comm_cons, <- !app_assoc. cbn [app].
  rewrite (read_left a Ha) by (done || apply flag_not_follows; simpl; tauto).
  apply negated_step; [done | simpl; tauto|]. change (is_tok T_Between T_In) with false. change (is_tok T_Like T_In) with false.
  cbv iota. unfold infix_in.
  rewrite (bind_ok _ _ _ negated (T_In :: T_LParen :: print_in l ++ T_RParen :: rest)) by (by destruct negated).
  run. destruct l as [es|q]; cbn [print_in] in *.
  - destruct Hl as [Hne Hes]. rewrite (starts_not T_Select) by (done || by apply list_starts).
    rewrite (bind_ok _ _ _ (InList_Exprs es) (T_RParen :: rest)); [done|].
    by rewrite (bind_ok _ _ _ _ _ (read_list es (T_RParen :: rest) Hes Hne eq_refl eq_refl)).
  - rewrite select_starts. change (is_tok T_Select T_Select) with true. cbv iota.
    rewrite (bind_ok _ _ _ (InList_Subquery q) (T_RParen :: rest)); [done|].
    by rewrite (bind_ok _ _ _ _ _ (read_query q rest Hl)).
Qed.

Lemma reads_back_exists (q : SelectStmt) (negated : bool) : select_back q -> reads_back (Expr_Exists q negated).
Proof.
  intros Hq. apply reads_back_unary; [done..|]. intros rest Hf. cbn [print_body]. rewrite <- app_assoc. cbn [app]. rewrite <- app_assoc.
  assert (forall b, parse_exists parse_select b (T_Exists :: T_LParen :: print_select q ++ T_RParen :: rest) = done_with (Expr_Exists q b) rest) as H.
  { intros b. unfold parse_exists. run. by rewrite (bind_ok _ _ _ _ _ (read_query q rest Hq)). }
  unfold unary. destruct negated; cbn [opt_tok app parse_unary]; apply H.
Qed.

Lemma reads_back_subquery (q : SelectStmt) : select_back q -> reads_back (Expr_Subquery q).
Proof.
  intros Hq. by_atom. rewrite <- app_assoc. cbn [app]. unfold atom, parse_atom. run. rewrite select_starts. change (is_tok T_Select T_Select) with true. cbv iota.
  by rewrite (bind_ok _ _ _ _ _ (read_query q rest Hq)).
Qed.

(** ** Calls *)

(** The arguments in front of a closing parenthesis. *)
Lemma read_args (args : list Expr) (rest : list Token) :
  Forall reads_back args ->
  (let! t := peek in
   if is_tok T_Star t then do! advance in ret []
   else if is_tok T_RParen t then ret []
   else parse_expr_list parse_expr) (commas (map print_body args) ++ T_RParen :: rest) = done_with args (T_RParen :: rest).
Proof.
  intros Hargs. destruct args as [|a args]; [done|]. pose proof (list_starts (a :: args) (T_RParen :: rest) ltac:(done)) as Hs.
  unfold bind, peek, ret. rewrite !(starts_not _ _ Hs) by done. by apply read_list.
Qed.

Lemma bind_bind {A B C : Type} (p : P A) (k : A -> P B) (k' : B -> P C) (ts : list Token) :
  bind (bind p k) k' ts = bind p (fun a => bind (k a) k') ts.
Proof. unfold bind. by destruct (p ts) as [[[]|]|]. Qed.

Lemma read_call (name : string) (args : list Expr) (distinct : bool) (rest : list Token) :
  Forall reads_back args ->
  parse_call parse_expr name (opt_tok distinct T_Distinct ++ commas (map print_body args) ++ T_RParen :: rest)
  = (if is_tok T_Over (first_tok rest) then parse_over_clause parse_expr name args rest
     else done_with (Expr_Function name args distinct) rest).
Proof.
  intros Hargs. unfold parse_call.
  rewrite (bind_ok _ _ _ distinct (commas (map print_body args) ++ T_RParen :: rest)).
  - rewrite <- bind_bind, (bind_ok _ _ _ _ _ (read_args args rest Hargs)). unfold bind, peek, ret. cbn. by destruct (is_tok T_Over _).
  - destruct distinct; [done|]. cbn [opt_tok app]. apply eat_no. destruct args as [|a args]; [done|].
    by apply starts_not; [apply list_starts|..].
Qed.

Lemma reads_back_function (name : string) (args : list Expr) (distinct : bool) :
  Forall reads_back args -> reads_back (Expr_Function name args distinct).
Proof.
  intros Hargs. by_atom. rewrite <- !app_assoc. cbn [app]. unfold atom, parse_atom. run. rewrite read_call by done.
  destruct (no_glue rest Hg) as (_ & _ & ->). done.
Qed.

(** ** CASE *)

Definition print_branch (b : Expr * Expr) : list Token := T_When :: print_body (fst b) ++ T_Then :: print_body (snd b).

Lemma case_rounds (bs : list (Expr * Expr)) (ts : list Token) : rounds (case_step parse_expr bs) (case_step parse_expr bs) ts.
Proof. apply (case_step_rounds parse_expr parse_expr (length ts)); [|done]. intros. apply parse_expr_reads. Qed.

Lemma read_branches (branches acc : list (Expr * Expr)) (rest : list Token) :
  Forall (fun b => reads_back (fst b) /\ reads_back (snd b)) branches ->
  ends_expr (first_tok rest) = true -> is_tok T_When (first_tok rest) = false ->
  iterate (case_step parse_expr) acc (concat (map print_branch branches) ++ rest) = done_with (acc ++ branches) rest.
Proof.
  intros Hb Hr Hw. revert acc. induction Hb as [|[c v] bs [Hc Hv] _ IH]; intros acc; cbn [map concat app].
  - rewrite app_nil_r. apply iterate_done. unfold case_step. by rewrite (bind_ok _ _ _ _ _ (eat_no _ _ Hw)).
  - cbn [print_branch fst snd] in *. unfold print_branch at 1. cbn [fst snd app]. rewrite <- app_assoc. cbn [app]. rewrite <- app_assoc.
    rewrite (iterate_more _ case_rounds acc (acc ++ [(c, v)]) _ (concat (map print_branch bs) ++ rest)); [by rewrite IH, <- app_assoc|].
    unfold case_step. run. rewrite (bind_ok _ _ _ _ _ (read_whole c Hc (T_Then :: print_body v ++ concat (map print_branch bs) ++ rest) eq_refl)). run.
    rewrite (bind_ok _ _ _ v (concat (map print_branch bs) ++ rest)); [done|]. apply read_whole; [done|]. by destruct bs.
Qed.

(** [opt_after] on what is printed after the same token. *)
Lemma opt_after_print {A : Type} (t : Token) (p : P A) (pr : A -> list Token) (o : option A) (rest : list Token) :
  is_tok t t = true -> is_tok t (first_tok rest) = false -> (forall a, o = Some a -> p (pr a ++ rest) = done_with a rest) ->
  opt_after t p (opt_print [t] pr o ++ rest) = done_with o rest.
Proof.
  intros Ht Hr Hp. unfold opt_after. destruct o as [a|]; cbn [opt_print app].
  - unfold bind at 1. unfold eat. cbn [first_tok tail]. rewrite Ht. by rewrite (bind_ok _ _ _ _ _ (Hp a eq_refl)).
  - by rewrite (bind_ok _ _ _ _ _ (eat_no t rest Hr)).
Qed.

Lemma reads_back_case (operand : option Expr) (branches : list (Expr * Expr)) (else_ : option Expr) :
  opt_of reads_back operand -> Forall (fun b => reads_back (fst b) /\ reads_back (snd b)) branches -> opt_of reads_back else_ ->
  (operand = None -> branches <> []) -> reads_back (Expr_Case operand branches else_).
Proof.
  intros Ho Hb He Hne. by_atom. rewrite <- !app_assoc. change (fun b => T_When :: _) with print_branch. cbn [app].
  set (tl := opt_print [T_Else] print_body else_ ++ T_End :: rest).
  assert (ends_expr (first_tok tl) = true /\ is_tok T_When (first_tok tl) = false) as [Htl Hw] by (subst tl; by destruct else_).
  unfold atom, parse_atom. run. unfold parse_case. rewrite <- bind_bind.
  rewrite (bind_ok _ _ _ operand (concat (map print_branch branches) ++ tl)).
  - rewrite (bind_ok _ _ _ _ _ (read_branches branches [] tl Hb Htl Hw)). cbn [app].
    rewrite (bind_ok _ _ _ else_ (T_End :: rest)); [done|]. subst tl. apply opt_after_print; [done..|].
    intros a ->. by apply read_whole.
  - unfold bind at 1, peek, ret. destruct operand as [o|]; cbn [opt_print app].
    + rewrite (starts_not T_When) by (done || apply body_starts).
      rewrite (bind_ok _ _ _ o (concat (map print_branch branches) ++ tl)); [done|]. apply read_whole; [done|]. by destruct branches.
    + destruct branches; [by destruct (Hne eq_refl)|]. done.
Qed.

(** ** Orders and windows *)

Definition order_back (o : OrderBy) : Prop := let 'mkOrderBy e _ := o in reads_back e.

Definition bound_back (b : FrameBound) : Prop := let 'mkFrameBound _ offset := b in opt_of reads_back offset.

Definition frame_back (f : WindowFrame) : Prop :=
  let 'mkWindowFrame _ start end_ := f in
  (wf_bound start /\ bound_back start) /\ opt_of (fun b => wf_bound b /\ bound_back b) end_.

Lemma read_orders (os : list OrderBy) (rest : list Token) :
  Forall order_back os -> os <> [] -> is_tok T_Comma (first_tok rest) = false ->
  parse_order_by_list parse_expr (commas (map print_order os) ++ rest) = done_with os rest.
Proof.
  intros Hos Hne Hc. apply (comma_list_print _ _ (fun _ => true)); try done.
  - intros ts. apply (parse_order_by_reads parse_expr parse_expr (S (length ts))); [|lia]. intros. apply parse_expr_reads.
  - intros [e asc] r Hx _. rewrite List.Forall_forall in Hos. specialize (Hos _ Hx). cbn [order_back print_order] in *.
    unfold parse_order_by. rewrite <- app_assoc. cbn [app].
    rewrite (bind_ok _ _ _ _ _ (read_whole e Hos ((if asc then T_Asc else T_Desc) :: r) ltac:(by destruct asc))). by destruct asc.
Qed.

(** [ORDER BY] and the like in front of a list. *)
Lemma read_clause {A : Type} (k1 k2 : Token) (p : P (list A)) (pr : A -> list Token) (l : list A) (rest : list Token) :
  is_tok k1 k1 = true -> is_tok k2 k2 = true -> is_tok k1 (first_tok rest) = false ->
  (l <> [] -> p (commas (map pr l) ++ rest) = done_with l rest) ->
  (let! t1 := peek in let! t2 := peek2 in
   if is_tok k1 t1 && is_tok k2 t2 then do! advance in do! advance in p else ret [])
    (clause [k1; k2] (map pr l) ++ rest) = done_with l rest.
Proof.
  intros H1 H2 Hr Hp. destruct l as [|x l].
  - cbn [map clause app]. unfold bind, peek, peek2, ret. by rewrite Hr.
  - change (clause [k1; k2] (map pr (x :: l))) with (k1 :: k2 :: commas (map pr (x :: l))). cbn [app].
    unfold bind, peek, peek2, ret, advance. cbn [first_tok tail]. rewrite H1, H2. by apply Hp.
Qed.

Lemma clause_first {A : Type} (t : Token) (kw : list Token) (pr : A -> list Token) (l : list A) (rest : list Token) :
  first_tok (clause (t :: kw) (map pr l) ++ rest) = t \/ clause (t :: kw) (map pr l) = [].
Proof. destruct l; [by right | by left]. Qed.

Lemma read_bound (b : FrameBound) (rest : list Token) :
  wf_bound b -> bound_back b -> parse_frame_bound parse_expr (print_bound b ++ rest) = done_with b rest.
Proof.
  destruct b as [ty offset]. intros Hw Hb. cbn [wf_bound bound_back print_bound] in *. unfold parse_frame_bound.
  assert (forall e t, reads_back e -> In t [T_Preceding; T_Following] ->
    (let! t := peek in
     match t with
     | T_Unbounded =>
         do! advance in
         parse_direction (mkFrameBound FrameBoundType_UnboundedPreceding None) (mkFrameBound FrameBoundType_UnboundedFollowing None)
     | T_Current => do! advance in do! expect T_Row in ret (mkFrameBound FrameBoundType_CurrentRow None)
     | _ => parse_offset_bound parse_expr
     end) ((print_body e ++ [t]) ++ rest)
    = done_with (mkFrameBound (if is_tok T_Preceding t then FrameBoundType_Preceding else FrameBoundType_Following) (Some e)) rest) as Hoff.
  { intros e t He Ht. rewrite <- app_assoc. cbn [app]. unfold bind at 1, peek, ret.
    pose proof (proj1 (body_starts e (t :: rest))) as Hs.
    assert (parse_offset_bound parse_expr (print_body e ++ t :: rest)
      = done_with (mkFrameBound (if is_tok T_Preceding t then FrameBoundType_Preceding else FrameBoundType_Following) (Some e)) rest) as <-.
    { unfold parse_offset_bound. rewrite (bind_ok _ _ _ e (t :: rest)) by (apply read_whole; [done|]; by repeat destruct Ht as [<-|Ht]).
      by repeat destruct Ht as [<-|Ht]. }
    by destruct (first_tok (print_body e ++ t :: rest)). }
  destruct ty; try (subst offset; done); (destruct offset as [e|]; [|done]); cbn [opt_print app];
    [exact (Hoff e T_Preceding Hb ltac:(simpl; tauto)) | exact (Hoff e T_Following Hb ltac:(simpl; tauto))].
Qed.

Lemma bound_starts (b : FrameBound) (rest : list Token) : wf_bound b -> is_tok T_Between (first_tok (print_bound b ++ rest)) = false.
Proof.
  destruct b as [ty offset]. cbn [wf_bound print_bound]. intros Hw. destruct ty; try done; (destruct offset as [e|]; [|done]);
    cbn [opt_print app]; rewrite <- app_assoc; by apply starts_not; [apply body_starts|..].
Qed.

Lemma read_window_frame (f : WindowFrame) (rest : list Token) :
  wf_frame f -> frame_back f -> parse_window_frame parse_expr (print_frame f ++ rest) = done_with f rest.
Proof.
  destruct f as [ty start end_]. intros (Hty & _) [[Hs Hsb] He]. cbn [print_frame app] in *. unfold parse_window_frame. run.
  rewrite (bind_ok _ _ _ ty (match end_ with
      | Some b => T_Between :: print_bound start ++ T_And :: print_bound b
      | None => print_bound start end ++ rest)) by (by destruct ty).
  destruct end_ as [b|]; cbn [opt_of app] in *.
  - destruct He as [Hb Hbb]. rewrite <- app_assoc. run. rewrite (bind_ok _ _ _ _ _ (read_bound start _ Hs Hsb)). run.
    by rewrite (bind_ok _ _ _ _ _ (read_bound b rest Hb Hbb)).
  - rewrite (bind_ok _ _ _ _ _ (eat_no _ _ (bound_starts start rest Hs))). by rewrite (bind_ok _ _ _ _ _ (read_bound start rest Hs Hsb)).
Qed.

Lemma reads_back_window (func : string) (args partition_by : list Expr) (order_by : list OrderBy) (frame : option WindowFrame) :
  Forall reads_back args -> Forall reads_back partition_by -> Forall order_back order_by ->
  opt_of (fun f => wf_frame f /\ frame_back f) frame -> reads_back (Expr_Window func args partition_by order_by frame).
Proof.
  intros Hargs Hpart Hord Hframe. by_atom. rewrite <- !app_assoc. cbn [app]. rewrite <- !app_assoc. cbn [app].
  unfold atom, parse_atom. run. etransitivity; [exact (read_call func args false _ Hargs)|].
  cbn [first_tok]. change (is_tok T_Over T_Over) with true. cbv iota.
  set (tl := opt_print [] print_frame frame ++ T_RParen :: rest).
  assert (In (first_tok tl) [T_Rows; T_Range; T_RParen]) as Htl
    by (subst tl; destruct frame as [[ty ? ?]|]; cbn [opt_print print_frame app first_tok]; [destruct ty|]; simpl; tauto).
  unfold parse_over_clause. run.
  set (tl2 := clause [T_Order; T_By] (map print_order order_by) ++ tl).
  assert (In (first_tok tl2) [T_Order; T_Rows; T_Range; T_RParen]) as Htl2.
  { subst tl2. destruct order_by; cbn [map clause app first_tok]; [by right | by left]. }
  rewrite (bind_ok _ _ _ partition_by tl2).
  - rewrite (bind_ok _ _ _ order_by tl).
    + unfold bind at 1, peek, ret. rewrite (bind_ok _ _ _ frame (T_RParen :: rest)); [done|]. subst tl.
      destruct frame as [f|]; cbn [opt_print app]; [|done]. destruct Hframe as [Hw Hb].
      assert (is_tok T_Rows (first_tok (print_frame f ++ T_RParen :: rest)) || is_tok T_Range (first_tok (print_frame f ++ T_RParen :: rest)) = true)
        as -> by (destruct f as [[] ? ?]; done).
      by rewrite (bind_ok _ _ _ _ _ (read_window_frame f (T_RParen :: rest) Hw Hb)).
    + subst tl2. unfold opt_order_by. apply read_clause; [done..| |].
      * by repeat destruct Htl as [<-|Htl].
      * intros Hne. apply read_orders; [done..|]. by repeat destruct Htl as [<-|Htl].
  - destruct partition_by as [|e es]; cbn [map clause app].
    + assert (is_tok T_Partition (first_tok tl2) = false) as -> by (by repeat destruct Htl2 as [<-|Htl2]). done.
    + cbn [first_tok app]. change (is_tok T_Partition T_Partition) with true. cbv iota. run. apply (read_list (e :: es)); [done..| |]; by repeat destruct Htl2 as [<-|Htl2].
Qed.

(** ** Queries *)

(** The clauses of a query in order, and what can follow it. *)
Definition CLAUSES : list Token :=
  [T_From; T_Where; T_Group; T_Having; T_Order; T_Limit; T_Offset; T_Union; T_RParen; T_Semicolon; T_Eof].
Definition JOINS : list Token := [T_Join; T_Left; T_Right; T_Full; T_Cross].

(** The next token is one of the clauses from the [k]th on. *)
Definition clause_from (k : nat) (rest : list Token) : Prop := In (first_tok rest) (drop k CLAUSES).

(** What can follow a table, and what can follow a join. *)
Definition TABLE_FOLLOW : list Token := T_On :: JOINS ++ drop 1 CLAUSES.
Definition JOIN_FOLLOW : list Token := JOINS ++ drop 1 CLAUSES.

(** A fact on all tokens of a follow set. *)
Lemma follow_fact (f : Token -> bool) (b : bool) (l : list Token) (t : Token) :
  forallb (fun t => Bool.eqb (f t) b) l = true -> In t l -> f t = b.
Proof. intros Hl Ht. rewrite forallb_forall in Hl. by apply eqb_prop, Hl. Qed.

Ltac follow := first [ done | eapply follow_fact; [|eassumption]; vm_compute; reflexivity ].

Lemma clause_opt {A : Type} (k : nat) (t : Token) (pr : A -> list Token) (o : option A) (rest : list Token) :
  drop k CLAUSES = t :: drop (S k) CLAUSES -> clause_from (S k) rest -> clause_from k (opt_print [t] pr o ++ rest).
Proof. unfold clause_from. intros -> H. destruct o; [by left | by right]. Qed.

Lemma clause_list {A : Type} (k : nat) (t t2 : Token) (pr : A -> list Token) (l : list A) (rest : list Token) :
  drop k CLAUSES = t :: drop (S k) CLAUSES -> clause_from (S k) rest -> clause_from k (clause [t; t2] (map pr l) ++ rest).
Proof. unfold clause_from. intros -> H. destruct l; [by right | by left]. Qed.

Lemma follow_table (rest : list Token) : In (first_tok rest) JOIN_FOLLOW -> In (first_tok rest) TABLE_FOLLOW.
Proof. by right. Qed.

Lemma alias_print (alias : option string) (rest : list Token) :
  is_tok T_As (first_tok rest) = false -> is_ident (first_tok rest) = false -> parse_alias (print_alias alias ++ rest) = done_with alias rest.
Proof.
  intros Ha Hi. destruct alias as [a|]; [done|]. unfold parse_alias. cbn [print_alias app]. rewrite (bind_ok _ _ _ _ _ (eat_no _ _ Ha)).
  unfold bind, peek, ret. by rewrite Hi.
Qed.

(** *** Projections *)

Definition projection_back (p : Projection) : Prop := match p with Projection_Expr e _ => reads_back e | _ => True end.

Definition projection_ends (t : Token) : bool := ends_expr t && negb (is_tok T_As t) && negb (is_ident t) && negb (is_tok T_Dot t).

Lemma read_projection (p : Projection) (rest : list Token) :
  projection_back p -> projection_ends (first_tok rest) = true -> parse_projection parse_expr (print_projection p ++ rest) = done_with p rest.
Proof.
  intros Hp [[[He Ha%negb_true_iff]%andb_true_iff Hi%negb_true_iff]%andb_true_iff Hd%negb_true_iff]%andb_true_iff.
  destruct p as [|t|e alias]; cbn [print_projection app]; unfold parse_projection.
  - run. by rewrite (bind_ok _ _ _ _ _ (eat_no _ _ Hd)).
  - done.
  - rewrite <- app_assoc. rewrite (bind_ok _ _ _ false (print_body e ++ print_alias alias ++ rest)).
    + rewrite (bind_ok _ _ _ e (print_alias alias ++ rest)) by (apply read_whole; [done|]; by destruct alias).
      by rewrite (bind_ok _ _ _ _ _ (alias_print alias rest Ha Hi)).
    + apply eat_no. by apply starts_not; [apply body_starts|..].
Qed.

Lemma read_projections (ps : list Projection) (rest : list Token) :
  Forall projection_back ps -> ps <> [] -> clause_from 0 rest ->
  parse_projection_list parse_expr (commas (map print_projection ps) ++ rest) = done_with ps rest.
Proof.
  intros Hps Hne Hr. unfold clause_from in Hr. apply (comma_list_print _ _ projection_ends); try done; [| |follow|follow].
  - intros ts. apply (parse_projection_reads parse_expr parse_expr (S (length ts))); [|lia]. intros. apply parse_expr_reads.
  - intros p r Hp Hok. apply read_projection; [|done]. rewrite List.Forall_forall in Hps. by apply Hps.
Qed.

(** *** Tables *)

Definition table_back (t : TableRef) : Prop :=
  let 'mkTableRef _ _ subquery func_args := t in opt_of select_back subquery /\ opt_of (Forall reads_back) func_args.

Lemma read_func_args (args : list Expr) (rest : list Token) :
  Forall reads_back args -> parse_func_args parse_expr (commas (map print_body args) ++ T_RParen :: rest) = done_with args rest.
Proof.
  intros Ha. unfold parse_func_args. destruct args as [|a args]; [done|]. unfold bind at 1, peek, ret.
  rewrite (starts_not T_RParen) by (done || by apply list_starts).
  by rewrite (bind_ok _ _ _ _ _ (read_list (a :: args) (T_RParen :: rest) Ha ltac:(done) eq_refl eq_refl)).
Qed.

Lemma read_table (t : TableRef) (rest : list Token) :
  wf_table_ref t -> table_back t -> In (first_tok rest) TABLE_FOLLOW ->
  parse_table_ref parse_expr parse_select (print_table_ref t ++ rest) = done_with t rest.
Proof.
  destruct t as [name alias subquery func_args]. intros Hw [Hq Ha] Hr. cbn [wf_table_ref print_table_ref] in *.
  unfold parse_table_ref.
  assert (parse_alias (print_alias alias ++ rest) = done_with alias rest) as Halias by (apply alias_print; follow).
  destruct subquery as [q|]; cbn [opt_of app] in *.
  - destruct Hw as (_ & -> & ->). rewrite <- app_assoc. run. rewrite select_starts. change (is_tok T_LParen T_LParen && is_tok T_Select T_Select) with true.
    cbv iota. run. cbn [app]. by rewrite (bind_ok _ _ _ _ _ (read_query q _ Hq)).
  - run. change (is_tok T_LParen (T_Ident name)) with false. cbn [andb]. run. destruct func_args as [args|]; cbn [opt_of app] in *.
    + rewrite <- !app_assoc. cbn [app]. run. rewrite (bind_ok _ _ _ _ _ (read_func_args args _ Ha)). by rewrite (bind_ok _ _ _ _ _ Halias).
    + assert (forall x, In x [T_LParen; T_Dot] -> is_tok x (first_tok (print_alias alias ++ rest)) = false) as Hx.
      { intros x Hx. destruct alias; cbn [print_alias app]; [by repeat destruct Hx as [<-|Hx]|]. repeat destruct Hx as [<-|Hx]; follow. }
      rewrite (bind_ok _ _ _ _ _ (eat_no T_LParen _ (Hx T_LParen ltac:(simpl; tauto)))).
      rewrite (bind_ok _ _ _ _ _ (eat_no T_Dot _ (Hx T_Dot ltac:(simpl; tauto)))). run. by rewrite (bind_ok _ _ _ _ _ Halias).
Qed.

Definition join_back (j : Join) : Prop :=
  let 'mkJoin _ table on_ := j in (wf_table_ref table /\ table_back table) /\ opt_of reads_back on_.

Lemma join_rounds (js : list Join) (ts : list Token) :
  rounds (join_step parse_expr parse_select js) (join_step parse_expr parse_select js) ts.
Proof.
  apply (join_step_rounds parse_expr parse_expr parse_select parse_select (S (length ts))); [| |lia]; intros;
    [apply parse_expr_reads | apply parse_select_reads].
Qed.

Lemma join_starts (j : Join) (rest : list Token) : In (first_tok (print_join j ++ rest)) JOINS.
Proof. destruct j as [ty ? ?]. destruct ty; simpl; tauto. Qed.

Lemma joins_follow (js : list Join) (rest : list Token) :
  clause_from 1 rest -> In (first_tok (concat (map print_join js) ++ rest)) JOIN_FOLLOW.
Proof.
  intros Hr. apply in_or_app. destruct js as [|j js]; [by right|]. left. cbn [map concat]. rewrite <- app_assoc. apply join_starts.
Qed.

Lemma read_join_type (ty : JoinType) (rest : list Token) :
  parse_join_type (print_join_type ty ++ rest) = done_with (Some ty) rest.
Proof. by destruct ty. Qed.

Lemma read_joins (js acc : list Join) (rest : list Token) :
  Forall join_back js -> clause_from 1 rest ->
  iterate (join_step parse_expr parse_select) acc (concat (map print_join js) ++ rest) = done_with (acc ++ js) rest.
Proof.
  intros Hjs Hr. revert acc. induction Hjs as [|[ty table on_] js [[Hw Ht] Ho] _ IH]; intros acc; cbn [map concat app].
  - rewrite app_nil_r. apply iterate_done. unfold join_step. rewrite (bind_ok _ _ _ None rest); [done|].
    unfold parse_join_type, bind, peek, ret, clause_from in *. cbn [drop CLAUSES] in Hr. by repeat destruct Hr as [<-|Hr].
  - rewrite <- app_assoc. pose proof (joins_follow js rest Hr) as Hf. set (tl := concat (map print_join js) ++ rest) in *.
    rewrite (iterate_more _ join_rounds acc (acc ++ [mkJoin ty table on_]) _ tl); [subst tl; by rewrite IH, <- app_assoc|].
    cbn [print_join]. rewrite <- !app_assoc. unfold join_step. rewrite (bind_ok _ _ _ _ _ (read_join_type ty _)).
    rewrite (bind_ok _ _ _ table (opt_print [T_On] print_body on_ ++ tl)).
    + rewrite (bind_ok _ _ _ on_ tl); [done|]. apply opt_after_print; [done | follow|]. intros e ->. apply read_whole; [done | follow].
    + apply read_table; [done..|]. destruct on_; [by left | by right].
Qed.

Definition twj_back (t : TableWithJoins) : Prop :=
  let 'mkTableWithJoins primary joins := t in (wf_table_ref primary /\ table_back primary) /\ Forall join_back joins.

Lemma read_twj (t : TableWithJoins) (rest : list Token) :
  twj_back t -> clause_from 1 rest -> parse_table_with_joins parse_expr parse_select (print_twj t ++ rest) = done_with t rest.
Proof.
  destruct t as [primary joins]. intros [[Hw Hp] Hj] Hr. cbn [print_twj]. rewrite <- app_assoc. unfold parse_table_with_joins.
  rewrite (bind_ok _ _ _ _ _ (read_table primary _ Hw Hp (or_intror (joins_follow joins rest Hr)))).
  by rewrite (bind_ok _ _ _ _ _ (read_joins joins [] rest Hj Hr)).
Qed.

(** *** The clauses *)

Lemma read_opt_expr (k : nat) (t : Token) (o : option Expr) (rest : list Token) :
  opt_of reads_back o -> clause_from (S k) rest -> is_tok t t = true ->
  forallb (fun x => negb (is_tok t x) && ends_expr x) (drop (S k) CLAUSES) = true ->
  opt_after t (parse_expr 0) (opt_print [t] print_body o ++ rest) = done_with o rest.
Proof.
  intros Ho Hr Ht Hall. rewrite forallb_forall in Hall. specialize (Hall _ Hr). apply andb_true_iff in Hall as [H1%negb_true_iff H2].
  apply opt_after_print; [done..|]. intros e ->. by apply read_whole.
Qed.

Definition select_parts_back (s : SelectStmt) : Prop :=
  match s with
  | mkSelectStmt _ _ projections from_ where_ group_by having order_by limit offset union_ =>
      Forall projection_back projections /\ opt_of twj_back from_ /\ opt_of reads_back where_ /\ Forall reads_back group_by
      /\ opt_of reads_back having /\ Forall order_back order_by /\ opt_of reads_back limit /\ opt_of reads_back offset
      /\ match union_ with Some (_, q) => select_back q | None => True end
  end.

Lemma ends_select_clause (rest : list Token) : ends_select (first_tok rest) = true -> clause_from 8 rest.
Proof.
  unfold ends_select, clause_from. cbn [drop CLAUSES].
  intros [[H|H]%orb_true_iff|H]%orb_true_iff; apply is_tok_spec in H; try done; rewrite H; simpl; tauto.
Qed.

Lemma read_union (union_ : option (UnionOp * SelectStmt)) (rest : list Token) :
  match union_ with Some (_, q) => select_back q | None => True end -> ends_select (first_tok rest) = true ->
  opt_union parse_select
    (match union_ with
     | Some (op, q) => T_Union :: opt_tok (match op with UnionOp_UnionAll => true | _ => false end) T_All ++ print_select q
     | None => []
     end ++ rest) = done_with union_ rest.
Proof.
  intros Hq Hr. unfold opt_union. destruct union_ as [[op q]|]; cbn [app].
  - rewrite <- app_assoc. run. rewrite (bind_ok _ _ _ (match op with UnionOp_UnionAll => true | _ => false end) (print_select q ++ rest)).
    + rewrite (bind_ok _ _ _ _ _ (Hq rest Hr)). by destruct op.
    + destruct op; cbn [opt_tok app]; [|done]. apply eat_no. by rewrite select_starts.
  - pose proof (ends_select_clause rest Hr) as Hc. unfold clause_from in Hc. rewrite (bind_ok _ _ _ false rest); [done|]. apply eat_no. follow.
Qed.

Lemma select_reads_back (s : SelectStmt) : wf_select s -> select_parts_back s -> select_back s.
Proof.
  destruct s as [ctes distinct ps from_ where_ group_by having order_by limit offset union_].
  intros (-> & Hne & _) (Hps & Hfrom & Hwhere & Hgroup & Hhaving & Horder & Hlimit & Hoffset & Hunion) rest Hr.
  cbn [print_select]. rewrite <- app_comm_cons, <- !app_assoc. rewrite parse_select_eq. unfold select_body.
  set (r8 := _ ++ rest). assert (clause_from 7 r8) as H8.
  { pose proof (ends_select_clause rest Hr). subst r8. destruct union_ as [[]|]; [by left | by right]. }
  set (r7 := opt_print [T_Offset] print_body offset ++ r8). assert (clause_from 6 r7) as H7 by (by apply clause_opt).
  set (r6 := opt_print [T_Limit] print_body limit ++ r7). assert (clause_from 5 r6) as H6 by (by apply clause_opt).
  set (r5 := clause [T_Order; T_By] (map print_order order_by) ++ r6). assert (clause_from 4 r5) as H5 by (by apply clause_list).
  set (r4 := opt_print [T_Having] print_body having ++ r5). assert (clause_from 3 r4) as H4 by (by apply clause_opt).
  set (r3 := clause [T_Group; T_By] (map print_body group_by) ++ r4). assert (clause_from 2 r3) as H3 by (by apply clause_list).
  set (r2 := opt_print [T_Where] print_body where_ ++ r3). assert (clause_from 1 r2) as H2 by (by apply clause_opt).
  set (r1 := opt_print [T_From] print_twj from_ ++ r2). assert (clause_from 0 r1) as H1 by (by apply clause_opt).
  run. set (r0 := commas (map print_projection ps) ++ r1).
  assert (forall x, In x [T_Distinct; T_All] -> is_tok x (first_tok r0) = false) as Hx.
  { intros x Hx. subst r0. destruct ps as [|p ps]; [done|]. cbn [map]. rewrite commas_cons, <- app_assoc.
    destruct p; cbn [print_projection app]; [by repeat destruct Hx as [<-|Hx]..|]. rewrite <- app_assoc.
    apply starts_not; [apply body_starts|..]; by repeat destruct Hx as [<-|Hx]. }
  rewrite (bind_ok _ _ _ distinct r0) by (destruct distinct; [done|]; apply eat_no, Hx; simpl; tauto).
  rewrite (bind_ok _ _ _ false r0) by (destruct distinct; [done|]; apply eat_no, Hx; simpl; tauto).
  rewrite (bind_ok _ _ _ ps r1) by (by apply read_projections).
  unfold clause_from in *.
  rewrite (bind_ok _ _ _ from_ r2) by (apply opt_after_print; [done | follow|]; intros t ->; by apply read_twj).
  rewrite (bind_ok _ _ _ where_ r3) by (by apply (read_opt_expr 1)).
  rewrite (bind_ok _ _ _ group_by r4) by (unfold opt_group_by; apply read_clause; [done..|follow|intros; apply read_list; first [done | follow]]).
  rewrite (bind_ok _ _ _ having r5) by (by apply (read_opt_expr 3)).
  rewrite (bind_ok _ _ _ order_by r6) by (unfold opt_order_by; apply read_clause; [done..|follow|intros; apply read_orders; first [done | follow]]).
  rewrite (bind_ok _ _ _ limit r7) by (by apply (read_opt_expr 5)).
  rewrite (bind_ok _ _ _ offset r8) by (by apply (read_opt_expr 6)).
  by rewrite (bind_ok _ _ _ union_ rest) by (by apply read_union).
Qed.

(** ** Every tree *)

Lemma all_of_Forall {A : Type} (Q R : A -> Prop) (l : list A) :
  all_of Q l -> (forall x, In x l -> Q x -> R x) -> Forall R l.
Proof.
  induction l as [|x l IH]; intros Hl HQ; constructor; [by apply HQ; [left | apply Hl]|]. apply IH; [apply Hl|]. intros y Hy. apply HQ. by right.
Qed.

Lemma opt_of_impl {A : Type} (Q R : A -> Prop) (o : option A) : opt_of Q o -> (forall x, o = Some x -> Q x -> R x) -> opt_of R o.
Proof. destruct o; [|done]. intros HQ H. by apply H. Qed.

Lemma in_commas {A : Type} (f : A -> list Token) (l : list A) (x : A) :
  In x l -> (length (f x) <= length (commas (map f l)))%nat.
Proof.
  destruct l as [|y l]; [done|]. cbn [map]. rewrite commas_cons, length_app. intros [<-|Hx]; [lia|].
  enough (length (f x) <= length (concat (map (cons T_Comma) (map f l))))%nat by lia.
  induction l as [|z l IH]; [done|]. cbn [map concat length app]. rewrite length_app. destruct Hx as [<-|Hx]; [lia|]. specialize (IH Hx). lia.
Qed.

Lemma in_clause {A : Type} (kw : list Token) (f : A -> list Token) (l : list A) (x : A) :
  In x l -> (length (f x) <= length (clause kw (map f l)))%nat.
Proof.
  intros Hx. pose proof (in_commas f l x Hx). destruct l as [|y l]; [done|].
  change (clause kw (map f (y :: l))) with (kw ++ commas (map f (y :: l))). rewrite length_app. lia.
Qed.

Lemma in_concat {A : Type} (f : A -> list Token) (l : list A) (x : A) :
  In x l -> (length (f x) <= length (concat (map f l)))%nat.
Proof.
  induction l as [|y l IH]; [done|]. cbn [map concat]. rewrite length_app. intros [<-|Hx]; [lia|]. specialize (IH Hx). lia.
Qed.

Lemma opt_print_long {A : Type} (kw : list Token) (f : A -> list Token) (a : A) : (length (f a) <= length (opt_print kw f (Some a)))%nat.
Proof. cbn [opt_print]. rewrite length_app. lia. Qed.

Lemma paren_long (b : bool) (ts : list Token) : (length ts <= length (paren b ts))%nat.
Proof. destruct b; cbn [paren length]; rewrite ?length_app; lia. Qed.

(** The printed text of a part is shorter than that of the whole. *)
Ltac shorter :=
  repeat match goal with
         | H : In ?x ?l |- _ =>
             first [ pose proof (in_commas print_body l x H) | pose proof (in_commas print_order l x H) | pose proof (in_commas print_projection l x H)
                   | pose proof (in_concat print_branch l x H) | pose proof (in_concat print_join l x H) | idtac ];
             first [ pose proof (in_clause [T_Partition; T_By] print_body l x H); pose proof (in_clause [T_Group; T_By] print_body l x H)
                   | pose proof (in_clause [T_Order; T_By] print_order l x H) | idtac ];
             clear H
         end;
  repeat match goal with
         | H : context [length (at_bp ?m ?e ?ts)] |- _ =>
             pose proof (paren_long (level e <? m) ts); unfold at_bp in H;
             generalize dependent (length (paren (level e <? m) ts)); intros
         | H : context [length (paren ?b ?ts)] |- _ => pose proof (paren_long b ts); generalize dependent (length (paren b ts)); intros
         end;
  cbn [opt_print print_in print_frame print_bound print_order print_projection print_table_ref print_twj print_join app] in *;
  unfold print_branch in *; rewrite ?length_app in *; cbn [length] in *; rewrite ?length_app in *; cbn [length] in *; lia.

Section Nested.
  Context (n : nat).
  Hypothesis IHe : forall e, (length (print_body e) < n)%nat -> wf_expr e -> reads_back e.
  Hypothesis IHs : forall s, (length (print_select s) < n)%nat -> wf_select s -> select_back s.

Lemma bound_nested (b : FrameBound) : (length (print_bound b) < n)%nat -> wf_bound b -> wf_bound b /\ bound_back b.
Proof.
  destruct b as [ty [e|]]; intros Hn Hw; split; try done. cbn [bound_back opt_of]. cbn [wf_bound print_bound opt_print app] in *.
  destruct ty; try done; apply IHe; try done; rewrite length_app in Hn; lia.
Qed.

Lemma frame_nested (f : WindowFrame) : (length (print_frame f) < n)%nat -> wf_frame f -> wf_frame f /\ frame_back f.
Proof.
  destruct f as [ty start end_]. intros Hn Hw. split; [done|]. destruct Hw as (_ & Hs & He). cbn [frame_back print_frame length] in *.
  split; [apply bound_nested; [|done]; destruct end_; shorter|]. eapply opt_of_impl; [exact He|]. intros b -> Hb. apply bound_nested; [shorter | done].
Qed.

Lemma order_nested (o : OrderBy) : (length (print_order o) < n)%nat -> wf_order o -> order_back o.
Proof. destruct o as [e asc]. intros Hn Hw. apply IHe; [shorter | done]. Qed.

Lemma projection_nested (p : Projection) : (length (print_projection p) < n)%nat -> wf_projection p -> projection_back p.
Proof. destruct p as [| |e alias]; intros Hn Hw; try done. apply IHe; [shorter | done]. Qed.

Lemma table_nested (t : TableRef) : (length (print_table_ref t) < n)%nat -> wf_table_ref t -> wf_table_ref t /\ table_back t.
Proof.
  destruct t as [name alias subquery func_args]. intros Hn Hw. split; [done|]. cbn [wf_table_ref table_back print_table_ref] in *.
  destruct subquery as [q|].
  - destruct Hw as (Hq & -> & ->). split; [|done]. apply IHs; [shorter | done].
  - split; [done|]. destruct func_args as [args|]; [|done]. cbn [opt_of] in *.
    apply (all_of_Forall _ _ _ Hw). intros e He. apply IHe. shorter.
Qed.

Lemma join_nested (j : Join) : (length (print_join j) < n)%nat -> wf_join j -> join_back j.
Proof.
  destruct j as [ty table on_]. intros Hn [Hw Ho]. split; [apply table_nested; [shorter | done]|].
  eapply opt_of_impl; [exact Ho|]. intros e -> . apply IHe. shorter.
Qed.

Lemma twj_nested (t : TableWithJoins) : (length (print_twj t) < n)%nat -> wf_twj t -> twj_back t.
Proof.
  destruct t as [primary joins]. intros Hn [Hw Hj]. split; [apply table_nested; [shorter | done]|].
  apply (all_of_Forall _ _ _ Hj). intros j Hin. apply join_nested. shorter.
Qed.

Lemma exprs_nested (es : list Expr) : (length (commas (map print_body es)) < n)%nat -> all_of wf_expr es -> Forall reads_back es.
Proof. intros Hn Hw. apply (all_of_Forall _ _ _ Hw). intros e He. apply IHe. pose proof (in_commas print_body es e He). lia. Qed.

Lemma orders_nested (os : list OrderBy) : (length (commas (map print_order os)) < n)%nat -> all_of wf_order os -> Forall order_back os.
Proof. intros Hn Hw. apply (all_of_Forall _ _ _ Hw). intros o Ho. apply order_nested. pose proof (in_commas print_order os o Ho). lia. Qed.

Lemma opt_nested (kw : list Token) (o : option Expr) :
  (length (opt_print kw print_body o) < n)%nat -> opt_of wf_expr o -> opt_of reads_back o.
Proof. intros Hn Hw. eapply opt_of_impl; [exact Hw|]. intros e ->. apply IHe. pose proof (opt_print_long kw print_body e). lia. Qed.

Lemma clause_long (kw : list Token) (l : list (list Token)) : (length (commas l) <= length (clause kw l))%nat.
Proof. destruct l; [done|]. cbn [clause]. rewrite length_app. lia. Qed.

Lemma select_nested (s : SelectStmt) : (length (print_select s) <= n)%nat -> wf_select s -> select_back s.
Proof.
  intros Hn Hw. apply select_reads_back; [done|]. destruct s as [ctes distinct ps from_ where_ group_by having order_by limit offset union_].
  destruct Hw as (_ & _ & Hps & Hfrom & Hwhere & Hgroup & Hhaving & Horder & Hlimit & Hoffset & Hunion).
  cbn [print_select length] in Hn. rewrite !length_app in Hn.
  pose proof (clause_long [T_Group; T_By] (map print_body group_by)). pose proof (clause_long [T_Order; T_By] (map print_order order_by)).
  cbn [select_parts_back]. split_and!.
  - apply (all_of_Forall _ _ _ Hps). intros p Hp. apply projection_nested. pose proof (in_commas print_projection ps p Hp). lia.
  - eapply opt_of_impl; [exact Hfrom|]. intros t ->. apply twj_nested. pose proof (opt_print_long [T_From] print_twj t). lia.
  - apply (opt_nested [T_Where]); [lia | done].
  - apply exprs_nested; [lia | done].
  - apply (opt_nested [T_Having]); [lia | done].
  - apply orders_nested; [lia | done].
  - apply (opt_nested [T_Limit]); [lia | done].
  - apply (opt_nested [T_Offset]); [lia | done].
  - destruct union_ as [[op q]|]; [|done]. apply IHs; [|done]. cbn [length] in Hn. rewrite length_app in Hn. lia.
Qed.

Lemma expr_nested (e : Expr) : (length (print_body e) <= n)%nat -> wf_expr e -> reads_back e.
Proof.
  destruct e; intros Hn Hw; cbn [print_body wf_expr] in *; repeat first [rewrite length_app in Hn | progress cbn [length] in Hn].
  - apply reads_back_literal.
  - apply reads_back_ident.
  - apply reads_back_qualified.
  - destruct Hw. apply reads_back_binary; apply IHe; first [done | shorter].
  - destruct op; cbn [length] in Hn; [apply reads_back_neg | apply reads_back_not]; apply IHe; first [done | shorter].
  - apply reads_back_is, IHe; [shorter | done].
  - apply reads_back_is, IHe; [shorter | done].
  - apply reads_back_is, IHe; [shorter | done].
  - destruct Hw as (? & ? & ?). apply reads_back_between; apply IHe; first [done | shorter].
  - destruct Hw. apply reads_back_like; apply IHe; first [done | shorter].
  - destruct Hw as [Ha Hl]. apply reads_back_in; [apply IHe; [shorter | done]|]. destruct list_ as [es|q]; cbn [wf_in in_back] in *.
    + destruct Hl. split; [done|]. apply exprs_nested; [shorter | done].
    + apply IHs; [shorter | done].
  - apply reads_back_exists, IHs; [lia | done].
  - apply reads_back_cast, IHe; [shorter | done].
  - apply reads_back_function, exprs_nested; [lia | done].
  - destruct Hw as (Ho & Hb & He & Hne). change (fun b => T_When :: _) with print_branch in Hn. apply reads_back_case; [..|done].
    + apply (opt_nested []); [lia | done].
    + apply (all_of_Forall _ _ _ Hb). intros [c v] Hin [Hc Hv]. pose proof (in_concat print_branch branches _ Hin) as Hlong.
      unfold print_branch in Hlong at 1. cbn [fst snd length] in *. rewrite length_app in Hlong. cbn [length] in Hlong. split; apply IHe; first [done | lia].
    + apply (opt_nested [T_Else]); [lia | done].
  - apply reads_back_param.
  - apply reads_back_subquery, IHs; [lia | done].
  - destruct Hw as (Ha & Hp & Ho & Hf). pose proof (clause_long [T_Partition; T_By] (map print_body partition_by)).
    pose proof (clause_long [T_Order; T_By] (map print_order order_by)). apply reads_back_window.
    + apply exprs_nested; [lia | done].
    + apply exprs_nested; [lia | done].
    + apply orders_nested; [lia | done].
    + eapply opt_of_impl; [exact Hf|]. intros f ->. apply frame_nested. pose proof (opt_print_long [] print_frame f). lia.
Qed.

End Nested.

Lemma all_nested (n : nat) :
  (forall e, (length (print_body e) < n)%nat -> wf_expr e -> reads_back e)
  /\ (forall s, (length (print_select s) < n)%nat -> wf_select s -> select_back s).
Proof.
  induction n as [|n [IHe IHs]]; [split; intros; lia|]. split; intros x Hn; [apply (expr_nested n) | apply (select_nested n)]; auto; lia.
Qed.

Lemma expr_reads_back (e : Expr) : wf_expr e -> reads_back e.
Proof. apply (all_nested (S (length (print_body e)))). lia. Qed.


(** ** Text *)

Section Text.
  Context {df : DebugFmt}.

(** *** Common table expressions

    Only a statement has them, in front of its query, and they are all recursive
    or none is. *)












End Text.

(** An expression survives printing and parsing: printed for a place that wants
    operators of power [m] at least, and followed by anything that does not go
    on with it, the parser takes exactly its tokens and gives it back; and so
    it does through text, which is how defaults of columns are kept. *)
Theorem expression_roundtrip (e : Expr) :
  wf_expr e ->
  (forall m rest, m <= ATOM -> ends_expr (first_tok rest) = true -> parse_expr m (print_expr m e ++ rest) = Some (Ok (e, rest)))
  /\ (Forall renderable (print_expr 0 e) -> parse_expr_text (render (print_expr 0 e)) = Some (Ok e)).
Proof.
  intros Hw. pose proof (expr_reads_back e Hw) as He.
  assert (forall m rest, m <= ATOM -> ends_expr (first_tok rest) = true -> parse_expr m (print_expr m e ++ rest) = Some (Ok (e, rest))) as H.
  { intros m rest Hm Hr. apply (read_right e He); [done|]. by apply ends_follows. }
  split; [exact H|]. intros Hr. unfold parse_expr_text, on_text. rewrite (tokenize_render _ Hr). by rewrite (H 0 [T_Eof]).
Qed.

(** Operators bind by their powers, and to the left where they are equal:
    [a op1 b op2 c] without parentheses is [(a op1 b) op2 c] when [op2] is no
    stronger than [op1], and [a op1 (b op2 c)] otherwise, for any operands
    that are not themselves operators. *)
Theorem operators_bind_by_power (op1 op2 : BinOp) (a b c : Expr) (rest : list Token) :
  wf_expr a -> wf_expr b -> wf_expr c -> level a = ATOM -> level b = ATOM -> level c = ATOM -> ends_expr (first_tok rest) = true ->
  parse_expr 0 (print_body a ++ op_token op1 :: print_body b ++ op_token op2 :: print_body c ++ rest)
  = Some (Ok (if op_bp op2 <=? op_bp op1 then Expr_BinaryOp op2 (Expr_BinaryOp op1 a b) c
              else Expr_BinaryOp op1 a (Expr_BinaryOp op2 b c), rest)).
Proof.
  intros Ha Hb Hc La Lb Lc Hr. pose proof (proj2 (op_infix op1)). pose proof (proj2 (op_infix op2)).
  assert (forall x, level x = ATOM -> forall op, at_bp (op_bp op) x (print_body x) = print_body x /\ at_bp (op_bp op + 1) x (print_body x) = print_body x) as Hat.
  { intros x Hx op. unfold at_bp. rewrite Hx. by destruct op. }
  destruct (Z.leb_spec (op_bp op2) (op_bp op1)) as [Hle|Hlt].
  - assert (reads_back (Expr_BinaryOp op2 (Expr_BinaryOp op1 a b) c)) as He by (by apply expr_reads_back).
    rewrite <- (read_whole _ He rest Hr). f_equal. cbn [print_body]. unfold at_bp at 1. cbn [level]. rewrite (proj2 (Z.ltb_ge _ _) Hle).
    cbn [paren print_body]. rewrite (proj1 (Hat a La op1)), (proj2 (Hat b Lb op1)), (proj2 (Hat c Lc op2)).
    by repeat first [rewrite <- app_assoc | progress cbn [app]].
  - assert (reads_back (Expr_BinaryOp op1 a (Expr_BinaryOp op2 b c))) as He by (by apply expr_reads_back).
    rewrite <- (read_whole _ He rest Hr). f_equal. cbn [print_body]. unfold at_bp at 2. cbn [level]. rewrite (proj2 (Z.ltb_ge (op_bp op2) (op_bp op1 + 1))) by lia.
    cbn [paren print_body]. rewrite (proj1 (Hat a La op1)), (proj1 (Hat b Lb op2)), (proj2 (Hat c Lc op2)).
    by repeat first [rewrite <- app_assoc | progress cbn [app]].
Qed.

(** NOT is misread twice. In front of a comparison it takes only the left
    operand: [NOT a op b] is [(NOT a) op b] for every operator. And between two
    operands, where it is no operator at all, it is taken for an equals sign:
    [a NOT b] is [a = b]. *)
Theorem not_is_misread (a b : Expr) (rest : list Token) :
  wf_expr a -> wf_expr b -> is_postfix a = true -> level b = ATOM -> ends_expr (first_tok rest) = true ->
  (forall op, parse_expr 0 (T_Not :: print_body a ++ op_token op :: print_body b ++ rest)
    = Some (Ok (Expr_BinaryOp op (Expr_UnaryOp UnOp_Not a) b, rest)))
  /\ parse_expr 0 (print_body a ++ T_Not :: print_body b ++ rest) = Some (Ok (Expr_BinaryOp BinOp_Eq a b, rest)).
Proof.
  intros Ha Hb Pa Lb Hr. assert (level a = ATOM) as La by (destruct a; try done; simpl in Pa; by apply Z.eqb_eq in Pa).
  assert (forall op, at_bp (op_bp op + 1) b (print_body b) = print_body b) as Hat by (intros op; unfold at_bp; rewrite Lb; by destruct op). split.
  - intros op. assert (reads_back (Expr_BinaryOp op (Expr_UnaryOp UnOp_Not a) b)) as He by (by apply expr_reads_back).
    rewrite <- (read_whole _ He rest Hr). f_equal. cbn [print_body]. rewrite Hat. unfold at_bp. cbn [level].
    replace (ATOM <? op_bp op) with false by (by destruct op). rewrite La. cbn [paren]. replace (is_exists a) with false by (by destruct a).
    cbn. by rewrite <- app_assoc.
  - pose proof (expr_reads_back a Ha) as Ra. pose proof (expr_reads_back b Hb) as Rb.
    rewrite (rb_expr a Ra) by (rewrite La; done).
    assert (parse_expr 6 (print_body b ++ rest) = done_with b rest) as Hright.
    { rewrite (rb_expr b Rb) by (rewrite Lb; first [done | by apply ends_follows]). by apply ends_infix. }
    pose proof (proj1 (body_starts b rest)) as Hs. unfold infix_loop.
    rewrite (iterate_more _ (infix_rounds 0) a (Expr_BinaryOp BinOp_Eq a b) _ rest); [by apply ends_infix|].
    unfold infix_step. run. cbn [infix_bp]. unfold or_negated. rewrite !(starts_not _ _ Hs) by done. change (5 <? 0) with false.
    cbv iota. change (bind (parse_expr 6) (fun rhs => ret (@inl Expr Expr (Expr_BinaryOp BinOp_Eq a rhs))) (print_body b ++ rest)
      = done_with (inl (Expr_BinaryOp BinOp_Eq a b)) rest). by rewrite (bind_ok _ _ _ _ _ Hright).
Qed.

(** ** Examples *)


Ltac renderable_tokens :=
  repeat first [apply Forall_nil_2 | apply Forall_cons_2]; simpl; unfold ascii_text, is_u32; try done; try lia;
  repeat first [apply Forall_nil_2 | apply Forall_cons_2]; vm_compute; done.



Lemma expression_roundtrip_witness :
  let e := Expr_Cast (Expr_UnaryOp UnOp_Neg (Expr_Literal (Literal_Int 1))) "int" in
  print_expr 0 e = [T_LParen; T_Minus; T_IntLiteral 1; T_RParen; T_DoubleColon; T_Ident "int"]
  /\ parse_expr_text (render (print_expr 0 e)) = Some (Ok e).
Proof.
  split; [reflexivity|]. apply (expression_roundtrip (Expr_Cast (Expr_UnaryOp UnOp_Neg (Expr_Literal (Literal_Int 1))) "int") I).
  renderable_tokens.
Defined.

Lemma operators_bind_by_power_witness :
  parse_expr 0 [T_Ident "a"; T_Minus; T_Ident "b"; T_Star; T_Ident "c"; T_Eof]
  = Some (Ok (Expr_BinaryOp BinOp_Sub (Expr_Ident "a") (Expr_BinaryOp BinOp_Mul (Expr_Ident "b") (Expr_Ident "c")), [T_Eof]))
  /\ parse_expr 0 [T_Ident "a"; T_Minus; T_Ident "b"; T_Minus; T_Ident "c"; T_Eof]
  = Some (Ok (Expr_BinaryOp BinOp_Sub (Expr_BinaryOp BinOp_Sub (Expr_Ident "a") (Expr_Ident "b")) (Expr_Ident "c"), [T_Eof])).
Proof.
  split.
  - exact (operators_bind_by_power BinOp_Sub BinOp_Mul (Expr_Ident "a") (Expr_Ident "b") (Expr_Ident "c") [T_Eof] I I I eq_refl eq_refl eq_refl eq_refl).
  - exact (operators_bind_by_power BinOp_Sub BinOp_Sub (Expr_Ident "a") (Expr_Ident "b") (Expr_Ident "c") [T_Eof] I I I eq_refl eq_refl eq_refl eq_refl).
Defined.

(** [NOT a = b] and [a NOT b] *)
Lemma not_is_misread_witness :
  parse_expr_text "NOT a = b" = Some (Ok (Expr_BinaryOp BinOp_Eq (Expr_UnaryOp UnOp_Not (Expr_Ident "a")) (Expr_Ident "b")))
  /\ parse_expr 0 [T_Ident "a"; T_Not; T_Ident "b"; T_Eof] = Some (Ok (Expr_BinaryOp BinOp_Eq (Expr_Ident "a") (Expr_Ident "b"), [T_Eof])).
Proof.
  split; [vm_compute; reflexivity|].
  apply (not_is_misread (Expr_Ident "a") (Expr_Ident "b") [T_Eof]); reflexivity || exact I.
Defined.
