(* ===== verification/Float.v ===== *)
(** Double-precision floats of the standard library, as their bits.

    A finite float is an integer multiple of [2 ^ -1074]; [scaled] is that
    integer. Arithmetic is exact on these and rounds once, to the nearest float
    and to the even one on a tie ([Lexer.f64_of_ratio]). There is one NaN: its
    sign and payload show in no operation of the program. [Display]
    writes the shortest decimal that reads back as the float.

    The exponential functions, whose last digit no standard fixes, and the
    tables of Unicode's letter cases are parameters ([StdLib]). *)

From Stdlib Require Import Strings.Byte Strings.Ascii Strings.String ZArith Lia Bool.
From stdpp Require Import base list strings.
From S2P Require Import Prelude Utf8 Decimal Lexer.

Open Scope Z_scope.

Definition SIGN : Z := 2 ^ 63.
Definition F_INF : Z := 2047 * 2 ^ 52.
Definition F_NAN : Z := F_INF + 2 ^ 51.

Definition f_neg (b : Z) : Z := if SIGN <=? b then b - SIGN else b + SIGN.
Definition is_neg (b : Z) : bool := SIGN <=? b.
Definition f_abs (b : Z) : Z := b mod SIGN.
Definition is_nan (b : Z) : bool := F_INF <? f_abs b.
Definition is_inf (b : Z) : bool := f_abs b =? F_INF.
Definition with_sign (neg : bool) (mag : Z) : Z := if neg then mag + SIGN else mag.

(** The value times [UNIT], of a finite float. *)
Definition UNIT : Z := 2 ^ 1074.
Definition scaled (b : Z) : Z :=
  let e := f_abs b / 2 ^ 52 in
  let m := f_abs b mod 2 ^ 52 in
  let z := if e =? 0 then m else (m + 2 ^ 52) * 2 ^ (e - 1) in
  if is_neg b then - z else z.

(** The float nearest to [num / den]; a zero takes the given sign. *)
Definition round_ratio (zero_neg : bool) (num den : Z) : Z :=
  if num =? 0 then with_sign zero_neg 0
  else with_sign (xorb (num <? 0) (den <? 0)) (f64_of_ratio (Z.abs num) (Z.abs den)).

(** [n as f64] *)
Definition f_of_Z (n : Z) : Z := round_ratio false n 1.

Definition f_add (a b : Z) : Z :=
  if is_nan a || is_nan b then F_NAN
  else if is_inf a then (if is_inf b && negb (Bool.eqb (is_neg a) (is_neg b)) then F_NAN else a)
  else if is_inf b then b
  else round_ratio (is_neg a && is_neg b) (scaled a + scaled b) UNIT.

Definition f_sub (a b : Z) : Z := f_add a (f_neg b).

Definition f_mul (a b : Z) : Z :=
  let s := xorb (is_neg a) (is_neg b) in
  if is_nan a || is_nan b then F_NAN
  else if is_inf a || is_inf b then
    (if (f_abs a =? 0) || (f_abs b =? 0) then F_NAN else with_sign s F_INF)
  else round_ratio s (scaled a * scaled b) (UNIT * UNIT).

Definition f_div (a b : Z) : Z :=
  let s := xorb (is_neg a) (is_neg b) in
  if is_nan a || is_nan b then F_NAN
  else if is_inf a then (if is_inf b then F_NAN else with_sign s F_INF)
  else if is_inf b then with_sign s 0
  else if f_abs b =? 0 then (if f_abs a =? 0 then F_NAN else with_sign s F_INF)
  else round_ratio s (scaled a) (scaled b).

(** [a % b], the remainder of the division that truncates. *)
Definition f_rem (a b : Z) : Z :=
  if is_nan a || is_nan b || is_inf a || (f_abs b =? 0) then F_NAN
  else if is_inf b then a
  else round_ratio (is_neg a) (Z.rem (scaled a) (scaled b)) UNIT.

(** [partial_cmp] *)
Definition f_key (b : Z) : Z := if is_inf b then (if is_neg b then - 2 ^ 2200 else 2 ^ 2200) else scaled b.
Definition f_cmp (a b : Z) : option comparison :=
  if is_nan a || is_nan b then None else Some (f_key a ?= f_key b).

Definition f_lt (a b : Z) : bool := match f_cmp a b with Some Lt => true | _ => false end.
Definition f_eq (a b : Z) : bool := match f_cmp a b with Some Eq => true | _ => false end.

(** [f as i64] and [f as usize]: towards zero, to the nearest bound. *)
Definition f_truncated (b : Z) : Z :=
  if is_nan b then 0 else if is_inf b then (if is_neg b then - 2 ^ 1100 else 2 ^ 1100) else Z.quot (scaled b) UNIT.
Definition clamp (lo hi z : Z) : Z := Z.max lo (Z.min hi z).
Definition f_to_i64 (b : Z) : Z := clamp (- 2 ^ 63) (2 ^ 63 - 1) (f_truncated b).
Definition f_to_i32 (b : Z) : Z := clamp (- 2 ^ 31) (2 ^ 31 - 1) (f_truncated b).
Definition f_to_usize (b : Z) : Z := clamp 0 (2 ^ 64 - 1) (f_truncated b).

(** [f.max(0.0)]: the other operand where one is a NaN. *)
Definition f_max0 (b : Z) : Z := if is_nan b || f_lt b 0 then 0 else b.

(** To a whole number, which takes the sign of the float where it is zero. *)
Definition f_whole (how : Z -> Z) (b : Z) : Z :=
  if is_nan b then F_NAN else if is_inf b then b
  else round_ratio (is_neg b) (how (scaled b)) 1.
Definition f_floor (b : Z) : Z := f_whole (fun z => z / UNIT) b.
Definition f_ceil (b : Z) : Z := f_whole (fun z => - (- z / UNIT)) b.
Definition f_trunc (b : Z) : Z := f_whole (fun z => Z.quot z UNIT) b.
(** Half away from zero. *)
Definition f_round (b : Z) : Z := f_whole (fun z => Z.sgn z * ((2 * Z.abs z + UNIT) / (2 * UNIT))) b.

(** The square root: the integer root of the value times [UNIT ^ 2], and half
    a step more where it is not exact, which rounds the same way. *)
Definition f_sqrt (b : Z) : Z :=
  if is_nan b then F_NAN
  else if f_abs b =? 0 then b
  else if is_neg b then F_NAN
  else if is_inf b then b
  else
    let n := scaled b * UNIT in
    let s := Z.sqrt n in
    round_ratio false (2 * s + (if s * s =? n then 0 else 1)) (2 * UNIT).

(** ** Text *)

(** [10 ^ e10 <= num / den < 10 ^ (e10 + 1)], from a first guess that is off by
    one at most. *)
Definition pow10_le (e num den : Z) : bool := 10 ^ Z.max 0 e * den <=? num * 10 ^ Z.max 0 (- e).
Definition exp10 (num den : Z) : Z :=
  let guess := (Z.log2 num - Z.log2 den) * 30103 / 100000 in
  let fix up (fuel : nat) (e : Z) : Z := match fuel with O => e | S f => if pow10_le (e + 1) num den then up f (e + 1) else e end in
  let fix down (fuel : nat) (e : Z) : Z := match fuel with O => e | S f => if pow10_le e num den then e else down f (e - 1) end in
  up 3%nat (down 3%nat guess).

(** The decimal [d * 10 ^ e] of [n] digits next to the magnitude [mag], if it
    reads back: of the two neighbours the nearer one, or else the other. *)
Definition reads_as (mag d e : Z) : bool :=
  f64_of_ratio (d * 10 ^ Z.max 0 e) (10 ^ Z.max 0 (- e)) =? mag.
Definition shortest_at (mag num den e10 n : Z) : option (Z * Z) :=
  let e := e10 - n + 1 in
  let num' := num * 10 ^ Z.max 0 (- e) in
  let den' := den * 10 ^ Z.max 0 e in
  let q := num' / den' in
  let r := 2 * (num' mod den') in
  let '(near, far) := if (r <? den') || ((r =? den') && Z.even q) then (q, q + 1) else (q + 1, q) in
  if reads_as mag near e then Some (near, e) else if reads_as mag far e then Some (far, e) else None.

Fixpoint shortest_from (rounds : nat) (n mag num den e10 : Z) : Z * Z :=
  match rounds with
  | O => (num / den, 0)
  | S rounds' =>
      match shortest_at mag num den e10 n with
      | Some de => de
      | None => shortest_from rounds' (n + 1) mag num den e10
      end
  end.

(** The shortest digits and their exponent; seventeen digits always do. *)
Definition shortest (mag : Z) : Z * Z :=
  let num := scaled mag in shortest_from 17%nat 1 mag num UNIT (exp10 num UNIT).

(** Without the zeros at its end. *)
Fixpoint strip_zeros (fuel : nat) (d e : Z) : Z * Z :=
  match fuel with
  | O => (d, e)
  | S fuel' => if (d mod 10 =? 0) && negb (d =? 0) then strip_zeros fuel' (d / 10) (e + 1) else (d, e)
  end.

Definition zeros (n : Z) : bytes := repeat (byte_of_Z 48) (Z.to_nat n).
Definition minus (neg : bool) : bytes := if neg then [byte_of_Z 45] else [].

(** [d * 10 ^ e] written out. *)
Definition positional (d e : Z) : bytes :=
  let ds := dec_bytes d in
  let dot := byte_of_Z 46 in
  if 0 <=? e then ds ++ zeros e
  else
    let k := zlen ds + e in
    if 0 <? k then take (Z.to_nat k) ds ++ dot :: drop (Z.to_nat k) ds
    else byte_of_Z 48 :: dot :: zeros (- k) ++ ds.

Definition INF_TEXT : bytes := as_bytes "inf".
Definition NAN_TEXT : bytes := as_bytes "NaN".

(** [format!("{f}")] *)
Definition f_display_bytes (b : Z) : bytes :=
  if is_nan b then NAN_TEXT
  else if is_inf b then minus (is_neg b) ++ INF_TEXT
  else if f_abs b =? 0 then minus (is_neg b) ++ [byte_of_Z 48]
  else let '(d, e) := shortest (f_abs b) in let '(d, e) := strip_zeros 20 d e in
       minus (is_neg b) ++ positional d e.
Definition f_display (b : Z) : string := string_of_list_byte (f_display_bytes b).

(** [s.parse::<f64>()] *)
Definition eq_ignore_ascii_case (a b : string) : bool := String.eqb (to_ascii_lowercase a) (to_ascii_lowercase b).
Definition parse_f64_unsigned (bs : bytes) : option Z :=
  match parse_f64 bs with
  | Some f => Some f
  | None =>
      let s := string_of_list_byte bs in
      if eq_ignore_ascii_case s "inf" || eq_ignore_ascii_case s "infinity" then Some F_INF
      else if eq_ignore_ascii_case s "nan" then Some F_NAN else None
  end.
Definition parse_float (s : string) : option Z :=
  match as_bytes s with
  | [] => None
  | b :: bs =>
      if byte_eqb b "-" then f_neg <$> parse_f64_unsigned bs
      else if byte_eqb b "+" then parse_f64_unsigned bs
      else parse_f64_unsigned (b :: bs)
  end.

(** ** Parameters *)

(** [f64::powf], [f64::powi], [str::to_lowercase] and [str::to_uppercase]. *)
Class StdLib := {
  powf : Z -> Z -> Z;
  powi : Z -> Z -> Z;
  to_lowercase : string -> string;
  to_uppercase : string -> string;
}.

(** A library for running the model: letter cases of ASCII, no powers. *)
#[export] Instance ascii_std : StdLib :=
  {| powf _ _ := F_NAN; powi _ _ := F_NAN; to_lowercase := to_ascii_lowercase; to_uppercase := to_ascii_uppercase |}.

(** *** Characters *)

(** [s.chars()], each as its bytes. *)
Fixpoint chars_fuel (fuel : nat) (bs : bytes) : list bytes :=
  match fuel, bs with
  | O, _ | _, [] => []
  | S fuel', _ => let n := snd (utf8_head bs) in take n bs :: chars_fuel fuel' (drop n bs)
  end.
Definition chars (s : string) : list bytes := let bs := as_bytes s in chars_fuel (length bs) bs.

(** [char::is_whitespace] *)
Definition WHITESPACE : list bytes :=
  map (fun b => [byte_of_Z b]) [9; 10; 11; 12; 13; 32]
  ++ map (map byte_of_Z) [[194; 133]; [194; 160]; [225; 154; 128]; [226; 128; 168]; [226; 128; 169]; [226; 128; 175]; [226; 129; 159]; [227; 128; 128]]
  ++ map (fun k => map byte_of_Z [226; 128; 128 + k]) [0; 1; 2; 3; 4; 5; 6; 7; 8; 9; 10].
Definition is_whitespace (c : bytes) : bool := existsb (fun w => bool_decide (w = c)) WHITESPACE.

Fixpoint trim_start_chars (cs : list bytes) : list bytes :=
  match cs with
  | c :: cs' => if is_whitespace c then trim_start_chars cs' else cs
  | [] => []
  end.
(** [s.trim()] *)
Definition trim (s : string) : string :=
  string_of_list_byte (concat (rev (trim_start_chars (rev (trim_start_chars (chars s)))))).
