(* ===== verification/Values.v ===== *)
(** Values of SQL ([executor/eval.rs]) and the schemas that rows follow
    ([storage/mod.rs]).

    An evaluation is [option (Result A)]: [None] is a panic, which no caller
    catches, [Some (Err _)] an error.

    Theorems: a cell reads back as the value it was written from exactly when
    its text is not taken for a value of another type; integer arithmetic is
    exact or an error, and panics in one case; comparisons are symmetric, and
    are an order on each type but not across types; LIKE matches a text that
    splits into one piece per pattern character; a cast gives the type it
    names. *)

From Stdlib Require Import Strings.Byte Strings.Ascii Strings.String ZArith Lia Bool.
From stdpp Require Import base list strings.
From S2P Require Import Prelude OrdMap Utf8 Decimal Compress Flux Jsonb Ast Lexer Float.

Open Scope Z_scope.

(** ** Evaluations *)

Definition Eval (A : Type) : Type := option (Result A).

Definition done {A : Type} (a : A) : Eval A := Some (Ok a).
Definition fails {A : Type} (e : string) : Eval A := Some (Err e).
Definition panics {A : Type} : Eval A := None.
Definition ebind {A B : Type} (m : Eval A) (k : A -> Eval B) : Eval B :=
  match m with
  | Some (Ok a) => k a
  | Some (Err e) => Some (Err e)
  | None => None
  end.

Declare Scope eval_scope.
Notation "'let*' x ':=' m 'in' k" := (ebind m (fun x => k))
  (at level 10, x binder, m at level 100, k at level 200) : eval_scope.
Open Scope eval_scope.

(** [iter().map(f).collect::<Result<Vec<_>>>()] *)
Fixpoint traverse {A B : Type} (f : A -> Eval B) (l : list A) : Eval (list B) :=
  match l with
  | [] => done []
  | x :: l' => let* y := f x in let* ys := traverse f l' in done (y :: ys)
  end.

(** ** Values *)

Inductive Value :=
| Value_Int (n : Z)
| Value_Float (bits : Z)
| Value_Text (s : string)
| Value_Bool (b : bool)
| Value_Null
| Value_FloatArray (bits : list Z)
| Value_Bytea (b : bytes).

#[export] Instance Value_eq_dec : EqDecision Value.
Proof. solve_decision. Defined.

(** [hex::encode] and [regex::Regex::is_match], or the error of its pattern. *)
Class Crates := {
  hex_encode : bytes -> string;
  regex_is_match : string -> string -> bool -> Result bool;
}.

Section Values.
  Context {std : StdLib} {crates : Crates}.

Definition type_name (v : Value) : string :=
  match v with
  | Value_Int _ => "int8"
  | Value_Float _ => "float8"
  | Value_Text _ => "text"
  | Value_Bool _ => "bool"
  | Value_Null => "null"
  | Value_FloatArray _ => "float8[]"
  | Value_Bytea _ => "bytea"
  end.

Fixpoint join_strings (sep : string) (l : list string) : string :=
  match l with
  | [] => EmptyString
  | [s] => s
  | s :: l' => s +:+ sep +:+ join_strings sep l'
  end.

Definition array_text (a : list Z) : string := "{" +:+ join_strings "," (map f_display a) +:+ "}".
Definition bytea_text (b : bytes) : string := "\x" +:+ hex_encode b.

Definition to_wire_bytes (v : Value) : option bytes :=
  match v with
  | Value_Null => None
  | Value_Int n => Some (as_bytes (to_dec n))
  | Value_Float f => Some (as_bytes (f_display f))
  | Value_Text s => Some (as_bytes s)
  | Value_Bool b => Some (as_bytes (if b then "t" else "f"))
  | Value_FloatArray a => Some (as_bytes (array_text a))
  | Value_Bytea b => Some (as_bytes (bytea_text b))
  end.

Definition OID_INT8 : Z := 20.
Definition OID_FLOAT8 : Z := 701.
Definition OID_TEXT : Z := 25.
Definition OID_BOOL : Z := 16.

Definition type_oid (v : Value) : Z :=
  match v with
  | Value_Int _ => OID_INT8
  | Value_Float _ => OID_FLOAT8
  | Value_Text _ => OID_TEXT
  | Value_Bool _ => OID_BOOL
  | Value_Null => OID_TEXT
  | Value_FloatArray _ => 1022
  | Value_Bytea _ => 17
  end.

Definition value_as_f64 (v : Value) : Result Z :=
  match v with
  | Value_Int n => Ok (f_of_Z n)
  | Value_Float f => Ok f
  | _ => Err ("expected a numeric value, got " +:+ type_name v)
  end.

Definition is_truthy (v : Value) : bool :=
  match v with
  | Value_Bool b => b
  | Value_Null => false
  | Value_Int n => negb (n =? 0)
  | Value_Float f => negb (f_eq f 0)
  | Value_Text s => negb (String.eqb s EmptyString)
  | Value_FloatArray a => match a with [] => false | _ => true end
  | Value_Bytea b => match b with [] => false | _ => true end
  end.

(** The type of a stored text is guessed from its looks. *)
Definition sniff (s : string) : Value :=
  match parse_i64 s with
  | Some n => Value_Int n
  | None =>
      match parse_float s with
      | Some f => Value_Float f
      | None =>
          if String.eqb s "t" then Value_Bool true
          else if String.eqb s "f" then Value_Bool false
          else Value_Text s
      end
  end.

Definition from_bytes (b : option bytes) : Value :=
  match b with
  | None => Value_Null
  | Some b => match from_utf8 b with Some s => sniff s | None => Value_Text (from_utf8_lossy b) end
  end.

(** ** Comparisons *)

Definition cmp_i32 (c : comparison) : Z := match c with Lt => - 1 | Eq => 0 | Gt => 1 end.

(** [x.partial_cmp(y).map(|o| o as i32).unwrap_or(0)] *)
Definition f_cmp_i32 (x y : Z) : Z := match f_cmp x y with Some c => cmp_i32 c | None => 0 end.

Definition parse_literal_int (text : string) : Result Z :=
  ok_or (parse_i64 (trim text)) ("invalid input syntax for type integer: " +:+ text).
Definition parse_literal_float (text : string) : Result Z :=
  ok_or (parse_float (trim text)) ("invalid input syntax for type double precision: " +:+ text).

Definition bool_Z (b : bool) : Z := if b then 1 else 0.

Definition value_compare (a b : Value) : Result Z :=
  match a, b with
  | Value_Null, Value_Null => Ok 0
  | Value_Null, _ | _, Value_Null => Err "null comparison"
  | Value_Int x, Value_Int y => Ok (cmp_i32 (x ?= y))
  | Value_Float x, Value_Float y => Ok (f_cmp_i32 x y)
  | Value_Int x, Value_Float y => Ok (f_cmp_i32 (f_of_Z x) y)
  | Value_Float x, Value_Int y => Ok (f_cmp_i32 x (f_of_Z y))
  | Value_Int x, Value_Text y => let? n := parse_literal_int y in Ok (cmp_i32 (x ?= n))
  | Value_Text x, Value_Int y => let? n := parse_literal_int x in Ok (cmp_i32 (n ?= y))
  | Value_Float x, Value_Text y => let? f := parse_literal_float y in Ok (f_cmp_i32 x f)
  | Value_Text x, Value_Float y => let? f := parse_literal_float x in Ok (f_cmp_i32 f y)
  | Value_Text x, Value_Text y => Ok (cmp_i32 (bytes_cmp (as_bytes x) (as_bytes y)))
  | Value_Bool x, Value_Bool y => Ok (cmp_i32 (bool_Z x ?= bool_Z y))
  | _, _ => Err ("incompatible types for comparison: " +:+ type_name a +:+ " vs " +:+ type_name b)
  end.

(** [value_compare(a, b).is_ok_and(|c| c == 0)] *)
Definition compares_equal (a b : Value) : bool := match value_compare a b with Ok c => c =? 0 | Err _ => false end.

Definition is_null (v : Value) : bool := match v with Value_Null => true | _ => false end.

Definition compare_op (l r : Value) (pred : Z -> bool) : Result Value :=
  if is_null l || is_null r then Ok (Value_Bool false)
  else let? c := value_compare l r in Ok (Value_Bool (pred c)).

(** ** Arithmetic *)

Definition coerce_float (v : Value) : Result Z :=
  match v with
  | Value_Int n => Ok (f_of_Z n)
  | Value_Float f => Ok f
  | Value_Text s => ok_or (parse_float s) "cannot cast text to float"
  | _ => Err ("cannot cast " +:+ type_name v +:+ " to float")
  end.

Definition I64_MIN : Z := - 2 ^ 63.
Definition in_i64 (z : Z) : bool := (I64_MIN <=? z) && (z <? 2 ^ 63).

Definition checked (z : Z) : Eval Value := if in_i64 z then done (Value_Int z) else fails "integer overflow".

(** Dividing the least integer by -1 panics. *)
Definition int_division (div : Z -> Z -> Z) (a b : Z) : Eval Value :=
  if b =? 0 then fails "division by zero"
  else if (a =? I64_MIN) && (b =? - 1) then panics
  else done (Value_Int (div a b)).

Definition eval_arithmetic (l r : Value) (op : BinOp) : Eval Value :=
  match l, r with
  | Value_Int a, Value_Int b =>
      match op with
      | BinOp_Add => checked (a + b)
      | BinOp_Sub => checked (a - b)
      | BinOp_Mul => checked (a * b)
      | BinOp_Div => int_division Z.quot a b
      | BinOp_Mod => int_division Z.rem a b
      | _ => panics
      end
  | _, _ =>
      let* a := Some (coerce_float l) in
      let* b := Some (coerce_float r) in
      match op with
      | BinOp_Add => done (Value_Float (f_add a b))
      | BinOp_Sub => done (Value_Float (f_sub a b))
      | BinOp_Mul => done (Value_Float (f_mul a b))
      | BinOp_Div => if f_eq b 0 then fails "division by zero" else done (Value_Float (f_div a b))
      | BinOp_Mod => done (Value_Float (f_rem a b))
      | _ => panics
      end
  end.

(** [-v] wraps. *)
Definition negate (v : Value) : Eval Value :=
  match v with
  | Value_Int n => done (Value_Int (i64_wrap (- n)))
  | Value_Float f => done (Value_Float (f_neg f))
  | _ => fails ("cannot negate " +:+ type_name v)
  end.

(** ** Text *)

Definition val_to_text (v : Value) : string :=
  match v with
  | Value_Int n => to_dec n
  | Value_Float f => f_display f
  | Value_Text s => s
  | Value_Bool b => if b then "true" else "false"
  | Value_Null => EmptyString
  | Value_FloatArray a => array_text a
  | Value_Bytea b => bytea_text b
  end.

Definition one_of (s : string) (l : list string) : bool := existsb (String.eqb s) l.

Definition cast_to_int (v : Value) : Result Value :=
  match v with
  | Value_Int n => Ok (Value_Int n)
  | Value_Float f => Ok (Value_Int (f_to_i64 f))
  | Value_Text s => let? n := ok_or (parse_i64 (trim s)) "invalid digit found in string" in Ok (Value_Int n)
  | Value_Bool b => Ok (Value_Int (bool_Z b))
  | Value_Null => Ok Value_Null
  | _ => Err ("cannot cast " +:+ type_name v +:+ " to int")
  end.

Definition cast_to_float (v : Value) : Result Value :=
  match v with
  | Value_Float f => Ok (Value_Float f)
  | Value_Int n => Ok (Value_Float (f_of_Z n))
  | Value_Text s => let? f := ok_or (parse_float (trim s)) "invalid float literal" in Ok (Value_Float f)
  | Value_Null => Ok Value_Null
  | _ => Err ("cannot cast " +:+ type_name v +:+ " to float")
  end.

Definition cast_to_bool (v : Value) : Result Value :=
  match v with
  | Value_Bool b => Ok (Value_Bool b)
  | Value_Int n => Ok (Value_Bool (negb (n =? 0)))
  | Value_Text s => Ok (Value_Bool (one_of (to_lowercase s) ["t"; "true"; "yes"; "on"; "1"]))
  | Value_Null => Ok Value_Null
  | _ => Err ("cannot cast " +:+ type_name v +:+ " to bool")
  end.

Definition cast_value (v : Value) (ty : string) : Result Value :=
  let t := to_lowercase ty in
  if one_of t ["int"; "int4"; "int8"; "integer"; "bigint"] then cast_to_int v
  else if one_of t ["float"; "float8"; "real"; "double"; "double precision"; "numeric"] then cast_to_float v
  else if one_of t ["text"; "varchar"; "char"] then Ok (Value_Text (val_to_text v))
  else if one_of t ["bool"; "boolean"] then cast_to_bool v
  else if one_of t ["regclass"; "regproc"; "regtype"] then Ok (Value_Text (val_to_text v))
  else Err ("unknown cast target type: " +:+ ty).

(** *** LIKE *)

Definition PERCENT : bytes := as_bytes "%".
Definition UNDERSCORE : bytes := as_bytes "_".

(** The suffixes of a text, longest first. *)
Fixpoint tails {A : Type} (s : list A) : list (list A) :=
  s :: match s with [] => [] | _ :: s' => tails s' end.

Fixpoint like_recursive (s p : list bytes) : bool :=
  match p with
  | [] => match s with [] => true | _ => false end
  | c :: p' =>
      if bool_decide (c = PERCENT) then existsb (fun t => like_recursive t p') (tails s)
      else
        match s with
        | x :: s' => (bool_decide (c = UNDERSCORE) || bool_decide (x = c)) && like_recursive s' p'
        | [] => false
        end
  end.

Definition like_match (s pattern : string) : bool := like_recursive (chars s) (chars pattern).

End Values.

(** ** Ranges *)

Lemma parse_digits_range (limit acc : Z) (bs : bytes) (v : Z) :
  0 <= acc <= limit -> parse_digits limit acc bs = Some v -> 0 <= v <= limit.
Proof.
  revert acc. induction bs as [|b bs IH]; intros acc Ha; cbn [parse_digits]; [by intros [= <-]|].
  destruct (Z.ltb_spec (Z_of_byte b - 48) 0); [done|]. destruct (9 <? _); [done|]. cbn [orb].
  destruct (Z.ltb_spec limit (acc * 10 + (Z_of_byte b - 48))); [done|]. apply IH. lia.
Qed.

Lemma parse_i64_range (s : string) (n : Z) : parse_i64 s = Some n -> is_i64 n.
Proof.
  unfold parse_i64, parse_signed, parse_unsigned, parse_all, is_i64. destruct (as_bytes s) as [|b bs]; [done|].
  destruct (byte_eqb b _); [|destruct (byte_eqb b _)].
  - destruct bs as [|c bs]; [done|]. destruct (parse_digits _ _ _) as [v|] eqn:E; [|done]. intros [= <-].
    apply parse_digits_range in E; lia.
  - destruct bs as [|c bs]; [done|]. intros E%parse_digits_range; lia.
  - intros E%parse_digits_range; lia.
Qed.

Lemma in_i64_spec (z : Z) : in_i64 z = true <-> is_i64 z.
Proof. unfold in_i64, I64_MIN, is_i64. rewrite andb_true_iff, Z.leb_le, Z.ltb_lt. done. Qed.

Lemma clamp_range (lo hi z : Z) : lo <= hi -> lo <= clamp lo hi z <= hi.
Proof. unfold clamp. lia. Qed.

Lemma f_to_i64_range (f : Z) : is_i64 (f_to_i64 f).
Proof. unfold is_i64, f_to_i64. pose proof (clamp_range (- 2 ^ 63) (2 ^ 63 - 1) (f_truncated f)). lia. Qed.

(** ** Cells *)

Section Facts.
  Context {std : StdLib} {crates : Crates}.

(** Whether a text is left alone when its type is guessed. *)
Definition plain_text_cell (s : string) : bool :=
  match parse_i64 s, parse_float s with
  | None, None => negb (String.eqb s "t") && negb (String.eqb s "f")
  | _, _ => false
  end.

Lemma sniff_text (s : string) : if plain_text_cell s then sniff s = Value_Text s else type_name (sniff s) <> "text"%string.
Proof.
  unfold plain_text_cell, sniff. destruct (parse_i64 s); [done|]. destruct (parse_float s); [done|].
  destruct (String.eqb s "t"); [done|]. by destruct (String.eqb s "f").
Qed.

(** Stored cells read back. An integer, a truth value and NULL come back as
    they were written. A text comes back exactly when it does not look like a
    number, [t] or [f]; one that does comes back as another type. *)
Theorem cells_read_back (n : Z) (b : bool) (s : string) :
  is_i64 n -> is_string s ->
  from_bytes (to_wire_bytes (Value_Int n)) = Value_Int n
  /\ from_bytes (to_wire_bytes (Value_Bool b)) = Value_Bool b
  /\ from_bytes (to_wire_bytes Value_Null) = Value_Null
  /\ if plain_text_cell s then from_bytes (to_wire_bytes (Value_Text s)) = Value_Text s
     else type_name (from_bytes (to_wire_bytes (Value_Text s))) <> "text"%string.
Proof.
  intros Hn Hs. split_and!.
  - unfold from_bytes, to_wire_bytes, sniff. rewrite from_utf8_as_bytes by apply is_string_to_dec.
    by rewrite parse_i64_to_dec.
  - by destruct b.
  - done.
  - unfold from_bytes, to_wire_bytes. rewrite (from_utf8_as_bytes s Hs). apply sniff_text.
Qed.

(** What a stored text is compared as. A cell that holds [t] or [f] cannot be
    compared with that text: the comparison is an error. A cell that holds a
    numeral equals every text of the same number, whatever it looks like. *)
Theorem stored_text_changes_meaning (s lit : string) (n : Z) :
  is_string s -> parse_i64 s = Some n -> parse_i64 (trim lit) = Some n ->
  compare_op (from_bytes (Some (as_bytes s))) (Value_Text lit) (fun c => c =? 0) = Ok (Value_Bool true)
  /\ forall b, exists e, compare_op (from_bytes (Some (as_bytes (if b : bool then "t" else "f"))))
                          (Value_Text (if b then "t" else "f")) (fun c => c =? 0) = Err e.
Proof.
  intros Hs Hn Hlit. split.
  - unfold from_bytes. rewrite (from_utf8_as_bytes s Hs). unfold sniff. rewrite Hn. unfold compare_op, value_compare, parse_literal_int.
    cbn [is_null orb]. rewrite Hlit. cbn [ok_or]. by rewrite Z.compare_refl.
  - intros []; by eexists.
Qed.

(** ** Arithmetic *)

(** The exact result, where there is one. *)
Definition exact (op : BinOp) (a b : Z) : option Z :=
  match op with
  | BinOp_Add => Some (a + b)
  | BinOp_Sub => Some (a - b)
  | BinOp_Mul => Some (a * b)
  | BinOp_Div => if b =? 0 then None else Some (Z.quot a b)
  | BinOp_Mod => if b =? 0 then None else Some (Z.rem a b)
  | _ => None
  end.

Definition arithmetic (op : BinOp) : bool :=
  match op with BinOp_Add | BinOp_Sub | BinOp_Mul | BinOp_Div | BinOp_Mod => true | _ => false end.

Lemma quot_range (a b : Z) : is_i64 a -> is_i64 b -> b <> 0 -> ~ (a = I64_MIN /\ b = - 1) -> is_i64 (Z.quot a b) /\ is_i64 (Z.rem a b).
Proof.
  unfold is_i64, I64_MIN. intros Ha Hb H0 Hx. pose proof (Z.rem_bound_abs a b H0). pose proof (Z.quot_abs a b H0). pose proof (Z.rem_abs a b H0).
  split; [|lia]. destruct (decide (b = - 1)) as [->|Hb1].
  - change (- 1) with (Z.opp 1) in *. rewrite Z.quot_opp_r, Z.quot_1_r by lia. lia.
  - destruct (decide (b = 1)) as [->|Hb2]; [rewrite Z.quot_1_r; lia|].
    assert (Z.abs (Z.quot a b) <= 2 ^ 62).
    { rewrite <- Z.quot_abs by done. rewrite Z.quot_div_nonneg by lia. apply Z.div_le_upper_bound; lia. }
    lia.
Qed.

(** C18. Integer arithmetic is exact or refused. On integers of 64 bits an operation
    gives the exact result, or an error when there is none or it does not fit;
    it panics in one case, when the least integer is divided by -1. *)
Theorem int_arithmetic_is_exact_or_refused (op : BinOp) (a b : Z) :
  arithmetic op = true -> is_i64 a -> is_i64 b ->
  match eval_arithmetic (Value_Int a) (Value_Int b) op with
  | Some (Ok v) => exists z, v = Value_Int z /\ exact op a b = Some z /\ is_i64 z
  | Some (Err _) => match exact op a b with Some z => ~ is_i64 z | None => b = 0 end
  | None => a = I64_MIN /\ b = - 1 /\ (op = BinOp_Div \/ op = BinOp_Mod)
  end.
Proof.
  intros Hop Ha Hb. assert (forall z, match checked z with
      | Some (Ok v) => exists z', v = Value_Int z' /\ Some z = Some z' /\ is_i64 z' | Some (Err _) => ~ is_i64 z | None => False end) as Hc.
  { intros z. unfold checked. destruct (in_i64 z) eqn:E; [apply in_i64_spec in E; by exists z|].
    simpl. intros H%in_i64_spec. congruence. }
  assert (forall div, (b <> 0 -> ~ (a = I64_MIN /\ b = - 1) -> is_i64 (div a b)) ->
    match int_division div a b with
    | Some (Ok v) => exists z, v = Value_Int z /\ (if b =? 0 then None else Some (div a b)) = Some z /\ is_i64 z
    | Some (Err _) => b = 0
    | None => a = I64_MIN /\ b = - 1 end) as Hd.
  { intros div Hr. unfold int_division. destruct (Z.eqb_spec b 0); [done|]. destruct (Z.eqb_spec a I64_MIN), (Z.eqb_spec b (- 1)); simpl; try done;
      (exists (div a b); split_and!; [done..|]; apply Hr; tauto). }
  pose proof (quot_range a b Ha Hb) as Hq. destruct op; try done; cbn [eval_arithmetic exact].
  - specialize (Hc (a + b)). by destruct (checked (a + b)) as [[]|].
  - specialize (Hc (a - b)). by destruct (checked (a - b)) as [[]|].
  - specialize (Hc (a * b)). by destruct (checked (a * b)) as [[]|].
  - specialize (Hd Z.quot ltac:(intros; by apply Hq)). destruct (int_division Z.quot a b) as [[]|]; [done| |destruct Hd; auto]. by subst.
  - specialize (Hd Z.rem ltac:(intros; by apply Hq)). destruct (int_division Z.rem a b) as [[]|]; [done| |destruct Hd; auto]. by subst.
Qed.

(** ** Comparisons *)

Lemma cmp_i32_opp (c : comparison) : cmp_i32 (CompOpp c) = - cmp_i32 c.
Proof. by destruct c. Qed.

Lemma f_cmp_i32_opp (x y : Z) : f_cmp_i32 y x = - f_cmp_i32 x y.
Proof.
  unfold f_cmp_i32, f_cmp. rewrite orb_comm. destruct (is_nan x || is_nan y); [done|]. by rewrite Z.compare_antisym, cmp_i32_opp.
Qed.

Lemma value_compare_opp (a b : Value) :
  match value_compare a b with Ok c => value_compare b a = Ok (- c) | Err _ => exists e, value_compare b a = Err e end.
Proof.
  destruct a, b; cbn [value_compare]; eauto; try (by rewrite f_cmp_i32_opp); try (by rewrite Z.compare_antisym, cmp_i32_opp);
    try (by rewrite bytes_cmp_antisym, cmp_i32_opp);
    try (unfold parse_literal_int; destruct (parse_i64 _); cbn [ok_or]; [by rewrite Z.compare_antisym, cmp_i32_opp | eauto]);
    try (unfold parse_literal_float; destruct (parse_float _); cbn [ok_or]; [by rewrite f_cmp_i32_opp | eauto]).
Qed.

(** Values of one type, floats that are numbers. *)
Definition same_kind (a b : Value) : bool :=
  match a, b with
  | Value_Int _, Value_Int _ | Value_Text _, Value_Text _ | Value_Bool _, Value_Bool _ => true
  | Value_Float x, Value_Float y => negb (is_nan x) && negb (is_nan y)
  | _, _ => false
  end.

Lemma cmp_i32_le (c : comparison) : cmp_i32 c <= 0 <-> c <> Gt.
Proof. destruct c; simpl; split; done || lia. Qed.

Lemma bytes_cmp_le_trans (a b c : bytes) : bytes_cmp a b <> Gt -> bytes_cmp b c <> Gt -> bytes_cmp a c <> Gt.
Proof.
  intros H1 H2. destruct (bytes_cmp a b) eqn:E1; [apply bytes_cmp_eq in E1 as ->; done| |done].
  destruct (bytes_cmp b c) eqn:E2; [apply bytes_cmp_eq in E2 as ->; by rewrite E1| |done]. by rewrite (bytes_cmp_trans a b c).
Qed.

Lemma value_compare_total (a b : Value) : same_kind a b = true -> exists c, value_compare a b = Ok c.
Proof. destruct a, b; simpl; intros; try done; by eexists. Qed.

Lemma value_compare_trans (a b c : Value) (x y : Z) :
  same_kind a b = true -> same_kind b c = true -> value_compare a b = Ok x -> value_compare b c = Ok y -> x <= 0 -> y <= 0 ->
  exists z, value_compare a c = Ok z /\ z <= 0.
Proof.
  assert (forall p q r, cmp_i32 (p ?= q) <= 0 -> cmp_i32 (q ?= r) <= 0 -> cmp_i32 (p ?= r) <= 0) as HZ
    by (intros p q r; rewrite !cmp_i32_le, <- !Z.le_ngt || rewrite !cmp_i32_le; unfold not; rewrite !Z.compare_gt_iff; lia).
  destruct a, b; try done; destruct c; try done; cbn [same_kind value_compare]; intros H1 H2 [= <-] [= <-] Hx Hy; eexists; (split; [done|]);
    try (by eapply HZ).
  - apply andb_true_iff in H1 as [H1 H1']. apply andb_true_iff in H2 as [H2 H2']. apply negb_true_iff in H1, H1', H2, H2'.
    unfold f_cmp_i32, f_cmp in *. rewrite H1, H1', H2' in *. cbn [orb] in *. by eapply HZ.
  - rewrite !cmp_i32_le in *. by eapply bytes_cmp_le_trans.
Qed.

(** ** LIKE *)

(** What one character of a pattern can stand for. *)
Definition piece (c : bytes) (t : list bytes) : Prop :=
  c = PERCENT \/ (c = UNDERSCORE /\ length t = 1%nat) \/ (c <> PERCENT /\ t = [c]).

Lemma in_tails {A : Type} (t s : list A) : In t (tails s) <-> exists u, s = u ++ t.
Proof.
  revert t. induction s as [|x s IH]; intros t; cbn [tails In].
  - split; [intros [<-|[]]; by exists [] | intros [u Hu]; left]. by destruct u, t.
  - rewrite IH. split.
    + intros [<-|[u ->]]; [by exists [] | by exists (x :: u)].
    + intros [[|y u] Hu]; [by left|]. right. exists u. by injection Hu.
Qed.

Lemma like_recursive_splits (p s : list bytes) :
  like_recursive s p = true <-> exists ts, s = concat ts /\ Forall2 piece p ts.
Proof.
  revert s. induction p as [|c p IH]; intros s; cbn [like_recursive].
  - destruct s as [|x s]; split; intros H; try done; [by exists []|]. destruct H as (ts & Hs & Hf). inversion Hf; subst. done.
  - destruct (bool_decide (c = PERCENT)) eqn:Hc; [apply bool_decide_eq_true in Hc | apply bool_decide_eq_false in Hc].
    + rewrite existsb_exists. split.
      * intros (t & (u & ->)%in_tails & (ts & -> & Hf)%IH). exists (u :: ts). split; [done|]. constructor; [by left | done].
      * intros (ts & -> & Hf). inversion Hf as [|? t ? ts' _ Hf']; subst. exists (concat ts'). split; [apply in_tails; by exists t|].
        apply IH. by exists ts'.
    + destruct s as [|x s].
      * split; [done|]. intros (ts & Hs & Hf). inversion Hf as [|? t ? ts' Hp _]; subst. destruct Hp as [|[[_ Ht]|[_ ->]]]; [done| |done].
        destruct t; [done|]. done.
      * rewrite andb_true_iff, orb_true_iff, !bool_decide_eq_true, IH. split.
        -- intros [Hx (ts & -> & Hf)]. exists ([x] :: ts). split; [done|]. constructor; [|done].
           destruct Hx as [->| ->]; [right; left; done | right; right; done].
        -- intros (ts & Hs & Hf). inversion Hf as [|? t ? ts' Hp Hf']; subst. destruct Hp as [|[[-> Ht]|[_ ->]]]; [done| |].
           ++ destruct t as [|y [|]]; try done. injection Hs as -> ->. split; [by left | by exists ts'].
           ++ injection Hs as -> ->. split; [by right | by exists ts'].
Qed.

(** LIKE matches by pieces. A text matches a pattern exactly when it splits
    into one piece per character of the pattern: anything for a percent sign,
    one character for an underscore, and otherwise the character itself. *)
Theorem like_matches_by_pieces (s pattern : string) :
  like_match s pattern = true <-> exists ts, chars s = concat ts /\ Forall2 piece (chars pattern) ts.
Proof. apply like_recursive_splits. Qed.

(** ** Casts *)

(** The type that a cast names. *)
Definition cast_type (ty : string) : option string :=
  let t := to_lowercase ty in
  if one_of t ["int"; "int4"; "int8"; "integer"; "bigint"] then Some "int8"%string
  else if one_of t ["float"; "float8"; "real"; "double"; "double precision"; "numeric"] then Some "float8"%string
  else if one_of t ["text"; "varchar"; "char"] then Some "text"%string
  else if one_of t ["bool"; "boolean"] then Some "bool"%string
  else if one_of t ["regclass"; "regproc"; "regtype"] then Some "text"%string
  else None.

(** Integers of 64 bits. *)
Definition well_typed (v : Value) : Prop := match v with Value_Int n => is_i64 n | _ => True end.

(** A cast gives the type that it names. When it succeeds the result is of the
    type that its name stands for, an integer within 64 bits, or it is NULL and
    so was the operand; only the casts to text turn NULL into a value, the
    empty text. *)
Theorem cast_gives_its_type (v w : Value) (ty : string) :
  well_typed v -> cast_value v ty = Ok w ->
  well_typed w /\ exists t, cast_type ty = Some t
    /\ (type_name w = t \/ (v = Value_Null /\ w = Value_Null))
    /\ (v = Value_Null -> w = if String.eqb t "text" then Value_Text EmptyString else Value_Null).
Proof.
  intros Hv. unfold cast_value, cast_type. repeat (case_match; [|]); intros Hc; try done.
  - destruct v; try done; cbn [cast_to_int] in Hc; try (injection Hc as <-); try (split; [done|]; eexists; split_and!; auto; done).
    + split; [apply f_to_i64_range|]. eexists. split_and!; auto; done.
    + destruct (parse_i64 (trim s)) as [n|] eqn:E; [|done]. injection Hc as <-. split; [by apply parse_i64_range in E|].
      eexists. split_and!; auto; done.
    + split; [by destruct b|]. eexists. split_and!; auto; done.
  - destruct v; try done; cbn [cast_to_float] in Hc; try (destruct (parse_float (trim s)) as [f|]; [|done]); injection Hc as <-;
      (split; [done|]; eexists; split_and!; auto; done).
  - injection Hc as <-. split; [done|]. eexists. split_and!; [done | by left|]. by intros ->.
  - destruct v; try done; injection Hc as <-; (split; [done|]; eexists; split_and!; auto; done).
  - injection Hc as <-. split; [done|]. eexists. split_and!; [done | by left|]. by intros ->.
Qed.

End Facts.

(** ** Examples *)

(** Crates for running the model: digits in base sixteen, and patterns that
    match nothing. *)
Definition hex_digit (d : Z) : byte := byte_of_Z (if d <? 10 then 48 + d else 87 + d).
#[export] Instance plain_crates : Crates :=
  {| hex_encode b := string_of_list_byte (concat (map (fun x => [hex_digit (Z_of_byte x / 16); hex_digit (Z_of_byte x mod 16)]) b));
     regex_is_match _ _ _ := Ok false |}.

Lemma cells_read_back_witness :
  from_bytes (to_wire_bytes (Value_Int (- 5))) = Value_Int (- 5)
  /\ from_bytes (to_wire_bytes (Value_Text "apple")) = Value_Text "apple"
  /\ type_name (from_bytes (to_wire_bytes (Value_Text "nan"))) <> "text"%string.
Proof.
  destruct (cells_read_back (- 5) true "apple") as (H1 & _ & _ & H2); [unfold is_i64; lia | vm_compute; reflexivity|].
  destruct (cells_read_back (- 5) true "nan") as (_ & _ & _ & H3); [unfold is_i64; lia | vm_compute; reflexivity|].
  split; [exact H1|]. split; [exact H2 | exact H3].
Defined.

(** A stored [007] equals the text [7]. *)
Lemma stored_text_changes_meaning_witness :
  compare_op (from_bytes (Some (as_bytes "007"))) (Value_Text "7") (fun c => c =? 0) = Ok (Value_Bool true).
Proof. apply (stored_text_changes_meaning "007" "7" 7); vm_compute; reflexivity. Defined.

Lemma int_arithmetic_is_exact_or_refused_witness :
  eval_arithmetic (Value_Int I64_MIN) (Value_Int (- 1)) BinOp_Div = None
  /\ match eval_arithmetic (Value_Int I64_MIN) (Value_Int 2) BinOp_Div with
     | Some (Ok v) => exists z, v = Value_Int z /\ exact BinOp_Div I64_MIN 2 = Some z /\ is_i64 z
     | Some (Err _) => match exact BinOp_Div I64_MIN 2 with Some z => ~ is_i64 z | None => 2 = 0 end
     | None => I64_MIN = I64_MIN /\ 2 = - 1 /\ (BinOp_Div = BinOp_Div \/ BinOp_Div = BinOp_Mod)
     end.
Proof.
  split; [vm_compute; reflexivity|].
  apply (int_arithmetic_is_exact_or_refused BinOp_Div I64_MIN 2); [reflexivity | unfold is_i64, I64_MIN; lia | unfold is_i64; lia].
Defined.

(** [NULL::text] is the empty text. *)
Lemma cast_gives_its_type_witness :
  cast_value Value_Null "TEXT" = Ok (Value_Text EmptyString)
  /\ well_typed (Value_Text EmptyString)
     /\ exists t, cast_type "TEXT" = Some t
       /\ (type_name (Value_Text EmptyString) = t \/ (Value_Null = Value_Null /\ Value_Text EmptyString = Value_Null))
       /\ (Value_Null = Value_Null -> Value_Text EmptyString = if String.eqb t "text" then Value_Text EmptyString else Value_Null).
Proof.
  split; [vm_compute; reflexivity|]. apply (cast_gives_its_type Value_Null (Value_Text EmptyString) "TEXT"); [exact I | vm_compute; reflexivity].
Defined.
