(* ===== verification/JsonOps.v ===== *)
(** The JSON operators and functions of SQL ([executor/eval.rs]), over the
    documents of [Jsonb].

    Theorems: what [jsonb_set] writes at a path is what reading the path
    gives, where the path can be written; containment is reflexive and
    transitive. *)

From Stdlib Require Import Strings.Byte Strings.String ZArith Lia Bool.
From stdpp Require Import base list strings.
From S2P Require Import Prelude OrdMap Utf8 Decimal Jsonb Ast Lexer Float Values.

Open Scope Z_scope.
Open Scope eval_scope.

Abbreviation JSON := Jsonb.Value.

Section Json.
  Context {std : StdLib} {crates : Crates} {js : Json}.

Definition json_of (v : Value) : Result JSON :=
  match v with
  | Value_Text s => ok_or (json_parse (as_bytes s)) "invalid JSON"
  | Value_Null => Ok VNull
  | _ => Err ("expected JSON (text), got " +:+ type_name v)
  end.

(** [j.to_string()] *)
Definition json_text (j : JSON) : string := string_of_list_byte (json_print j).

Definition json_to_value (j : JSON) (as_text : bool) : Value :=
  match j with
  | VNull => Value_Null
  | VString s => if as_text then Value_Text s else Value_Text (json_text j)
  | _ => Value_Text (json_text j)
  end.

Definition float_json (f : Z) : JSON := match number_from_f64 f with Some n => VNumber n | None => VNull end.

Definition value_to_json (v : Value) : JSON :=
  match v with
  | Value_Null => VNull
  | Value_Bool b => VBool b
  | Value_Int n => VNumber (number_from_i64 n)
  | Value_Float f => float_json f
  | Value_Text s => VString s
  | Value_FloatArray a => VArray (map float_json a)
  | Value_Bytea b => VString (bytea_text b)
  end.

(** [a.get(idx as usize)]: a negative index is out of range. *)
Definition array_get (items : list JSON) (idx : Z) : option JSON :=
  if (0 <=? idx) && (idx <? zlen items) then items !! Z.to_nat idx else None.

Definition json_arrow (l r : Value) (as_text : bool) : Result Value :=
  let? doc := json_of l in
  let? sub := match r with
              | Value_Text key => Ok (match doc with VObject o => om_get key o | _ => None end)
              | Value_Int idx => Ok (match doc with VArray a => array_get a idx | _ => None end)
              | _ => Err ("invalid JSON key/index: " +:+ type_name r)
              end in
  Ok (match sub with Some j => json_to_value j as_text | None => Value_Null end).

(** *** Paths *)

(** [s.split(sep)] *)
Fixpoint split_on (sep : byte) (s : bytes) : list bytes :=
  match s with
  | [] => [[]]
  | b :: s' =>
      if byte_eqb b sep then [] :: split_on sep s'
      else match split_on sep s' with w :: ws => (b :: w) :: ws | [] => [[b]] end
  end.

(** [s.strip_prefix('{').and_then(|s| s.strip_suffix('}')).unwrap_or(s)] *)
Definition strip_braces (s : bytes) : bytes :=
  match s with
  | b :: s' =>
      if byte_eqb b "{" then
        match rev s' with
        | e :: r => if byte_eqb e "}" then rev r else s
        | [] => s
        end
      else s
  | [] => s
  end.

Definition parse_path_literal (s : string) : list string :=
  match strip_braces (as_bytes (trim s)) with
  | [] => []
  | inner => map (fun seg => trim (string_of_list_byte seg)) (split_on "," inner)
  end.

Definition parse_usize (s : string) : option Z := parse_unsigned (2 ^ 64 - 1) (as_bytes s).

Definition json_step (current : JSON) (seg : string) : JSON :=
  match current with
  | VObject o => default VNull (om_get seg o)
  | VArray a => match parse_usize seg with Some i => default VNull (array_get a i) | None => VNull end
  | _ => VNull
  end.

Definition json_at_path (doc : JSON) (path : list string) : JSON := fold_left json_step path doc.

Definition json_path_arrow (l r : Value) (as_text : bool) : Result Value :=
  let? doc := json_of l in
  match r with
  | Value_Text s => Ok (json_to_value (json_at_path doc (parse_path_literal s)) as_text)
  | _ => Err ("expected a path literal, got " +:+ type_name r)
  end.

Fixpoint json_set_path (path : list string) (doc new_value : JSON) (create_missing : bool) : JSON :=
  match path with
  | [] => new_value
  | head :: rest =>
      match doc with
      | VObject map =>
          match rest with
          | [] => if create_missing || bool_decide (is_Some (om_get head map)) then VObject (om_insert head new_value map) else doc
          | _ =>
              match om_get head map with
              | Some sub => VObject (om_insert head (json_set_path rest sub new_value create_missing) map)
              | None =>
                  if create_missing
                  then VObject (om_insert head (json_set_path rest (VObject []) new_value create_missing) map)
                  else doc
              end
          end
      | VArray arr =>
          match parse_usize head with
          | None => doc
          | Some idx =>
              match rest with
              | [] =>
                  if idx <? zlen arr then VArray (<[Z.to_nat idx := new_value]> arr)
                  else if create_missing then VArray (arr ++ [new_value]) else doc
              | _ =>
                  match array_get arr idx with
                  | Some sub => VArray (<[Z.to_nat idx := json_set_path rest sub new_value create_missing]> arr)
                  | None => doc
                  end
              end
          end
      | _ => doc
      end
  end.

(** *** Containment *)

(** [a == b] of [serde_json]: floats as numbers, everything else as it is. *)
Definition number_eqb (a b : Number) : bool :=
  match a, b with
  | PosInt x, PosInt y | NegInt x, NegInt y => x =? y
  | Jsonb.Float x, Jsonb.Float y => f_eq x y
  | _, _ => false
  end.

Fixpoint json_eqb (a b : JSON) : bool :=
  match a, b with
  | VNull, VNull => true
  | VBool x, VBool y => Bool.eqb x y
  | VNumber x, VNumber y => number_eqb x y
  | VString x, VString y => String.eqb x y
  | VArray x, VArray y =>
      (fix all2 (x y : list JSON) : bool :=
         match x, y with
         | [], [] => true
         | u :: x', v :: y' => json_eqb u v && all2 x' y'
         | _, _ => false
         end) x y
  | VObject x, VObject y =>
      (fix all2 (x y : list (string * JSON)) : bool :=
         match x, y with
         | [], [] => true
         | (k, u) :: x', (k', v) :: y' => String.eqb k k' && json_eqb u v && all2 x' y'
         | _, _ => false
         end) x y
  | _, _ => false
  end.

Fixpoint json_contains (contained container : JSON) : bool :=
  match contained, container with
  | VObject b, VObject a =>
      forallb (fun e => match om_get (fst e) a with Some av => json_contains (snd e) av | None => false end) b
  | VArray b, VArray a => forallb (fun bv => existsb (fun av => json_contains bv av) a) b
  | b, a => json_eqb a b
  end.

(** ** Setting and reading *)

(** A path that can be written: through objects, missing members included, and
    elements that are there; the last index may be one past the end. *)
Fixpoint writable (path : list string) (doc : JSON) : bool :=
  match path with
  | [] => true
  | head :: rest =>
      match doc with
      | VObject map => match om_get head map with Some sub => writable rest sub | None => true end
      | VArray arr =>
          match parse_usize head with
          | Some idx =>
              match array_get arr idx with
              | Some sub => writable rest sub
              | None => match rest with [] => idx =? zlen arr | _ => false end
              end
          | None => false
          end
      | _ => false
      end
  end.

(** A document of [serde_json]: keys in order, and no float that is no number. *)
Fixpoint document (j : JSON) : Prop :=
  match j with
  | VNumber (Jsonb.Float f) => is_nan f = false
  | VArray items => fold_right (fun v P => document v /\ P) True items
  | VObject entries => om_sorted entries /\ fold_right (fun e P => document (snd e) /\ P) True entries
  | _ => True
  end.

Lemma document_get (head : string) (map : list (string * JSON)) (sub : JSON) :
  document (VObject map) -> om_get head map = Some sub -> document sub.
Proof.
  cbn [document]. rewrite fold_Forall. intros [_ Hf] Hg. apply om_get_Some_In in Hg. rewrite List.Forall_forall in Hf. by apply (Hf _ Hg).
Qed.

Lemma array_get_lookup (items : list JSON) (idx : Z) (j : JSON) :
  array_get items idx = Some j <-> 0 <= idx /\ items !! Z.to_nat idx = Some j.
Proof.
  unfold array_get. destruct (Z.leb_spec 0 idx), (Z.ltb_spec idx (zlen items)); simpl; split; try naive_solver lia.
  - intros [_ Hl]. apply lookup_lt_Some in Hl. unfold zlen in *. lia.
Qed.

Lemma parse_usize_nonneg (s : string) (n : Z) : parse_usize s = Some n -> 0 <= n.
Proof.
  unfold parse_usize, parse_unsigned, parse_all. destruct (as_bytes s) as [|b bs]; [done|].
  destruct (byte_eqb b _); [destruct bs; [done|]|]; intros H%parse_digits_range; lia.
Qed.

Lemma set_step (head : string) (rest : list string) (doc new_value : JSON) :
  document doc -> writable (head :: rest) doc = true ->
  (forall sub, document sub -> writable rest sub = true -> json_at_path (json_set_path rest sub new_value true) rest = new_value) ->
  json_at_path (json_set_path (head :: rest) doc new_value true) (head :: rest) = new_value.
Proof.
  intros Hs Hw IH. unfold json_at_path in *. cbn [fold_left]. destruct doc as [| | | |arr|map]; try done; cbn [writable json_set_path] in *.
  - destruct (parse_usize head) as [idx|] eqn:Hp; [|done]. pose proof (parse_usize_nonneg _ _ Hp).
    destruct (array_get arr idx) as [sub|] eqn:Hg.
    + pose proof Hg as [_ Hl]%array_get_lookup. pose proof (lookup_lt_Some _ _ _ Hl) as Hlt.
      assert (document sub) as Hsub by (cbn [document] in Hs; rewrite fold_Forall in Hs; by eapply Forall_lookup_1).
      assert (forall x, array_get (<[Z.to_nat idx := x]> arr) idx = Some x) as Hget
        by (intros x; apply array_get_lookup; split; [done|]; by apply list_lookup_insert_eq).
      destruct rest as [|seg rest].
      * assert (idx <? zlen arr = true) as -> by (unfold zlen; lia). cbn [json_step]. rewrite Hp, Hget. done.
      * cbn [json_step]. rewrite Hp, Hget. cbn [default]. by apply IH.
    + destruct rest; [|done]. apply Z.eqb_eq in Hw as ->. rewrite Z.ltb_irrefl. cbn [json_step]. rewrite Hp.
      assert (array_get (arr ++ [new_value]) (zlen arr) = Some new_value) as ->; [|done].
      apply array_get_lookup. split; [done|]. unfold zlen. rewrite Nat2Z.id. by apply list_lookup_middle.
  - assert (forall x, json_step (VObject (om_insert head x map)) head = x) as Hget.
    { intros x. cbn [json_step]. rewrite om_get_insert by apply Hs. unfold keqb. rewrite (proj2 (cmp_eq head head)); done. }
    destruct rest as [|seg rest].
    + cbn [orb]. by rewrite Hget.
    + destruct (om_get head map) as [sub|] eqn:Hg; rewrite Hget; [apply IH; [by eapply document_get | done]|].
      apply IH; [|done]. cbn [document]. split; [constructor | done].
Qed.

(** What is set is read. Setting a path of a document that can be written,
    members that are missing being made, and reading the same path gives the
    value that was set. *)
Theorem json_set_then_get (path : list string) (doc new_value : JSON) :
  document doc -> writable path doc = true -> json_at_path (json_set_path path doc new_value true) path = new_value.
Proof. revert doc. induction path as [|head rest IH]; intros doc Hs Hw; [done|]. by apply set_step. Qed.

(** ** Containment is a preorder *)

Lemma f_eq_spec (a b : Z) : f_eq a b = true <-> is_nan a = false /\ is_nan b = false /\ f_key a = f_key b.
Proof.
  unfold f_eq, f_cmp. destruct (is_nan a), (is_nan b); simpl; try (split; [done|]; by intros (? & ? & ?)).
  destruct (Z.compare_spec (f_key a) (f_key b)); split; intros; try done; destruct_and?; try done; lia.
Qed.

Lemma number_eqb_trans (a b c : Number) : number_eqb a b = true -> number_eqb b c = true -> number_eqb a c = true.
Proof.
  destruct a, b; try done; destruct c; try done; cbn [number_eqb].
  - rewrite !Z.eqb_eq. congruence.
  - rewrite !Z.eqb_eq. congruence.
  - rewrite !f_eq_spec. intros (? & ? & ?) (? & ? & ?). split_and!; congruence.
Qed.

Lemma contains_refl (j : JSON) : document j -> json_contains j j = true.
Proof.
  induction j as [|b|n|s|items IH|entries IH] using value_ind'; cbn [document json_contains json_eqb]; intros Hd.
  - done.
  - by destruct b.
  - destruct n; cbn [number_eqb]; [apply Z.eqb_refl..|]. by apply f_eq_spec.
  - apply String.eqb_refl.
  - rewrite fold_Forall in Hd. apply forallb_forall. intros v Hv. apply existsb_exists. exists v. split; [done|].
    rewrite List.Forall_forall in IH, Hd. by apply IH, Hd.
  - destruct Hd as [Hs Hd]. rewrite fold_Forall in Hd. apply forallb_forall. intros [k v] Hv. cbn [fst snd].
    rewrite (om_get_In k v entries) by done. rewrite List.Forall_forall in IH, Hd. by apply (IH (k, v)), (Hd (k, v)).
Qed.

Lemma contains_trans (c b a : JSON) : json_contains c b = true -> json_contains b a = true -> json_contains c a = true.
Proof.
  revert b a. induction c as [|t|n|s|items IH|entries IH] using value_ind'; intros b a; cbn [json_contains].
  - by destruct b, a.
  - destruct b; try done. destruct a; try done. cbn [json_contains json_eqb]. rewrite !eqb_true_iff. congruence.
  - destruct b; try done. destruct a; try done. cbn [json_contains json_eqb]. intros H1 H2. by eapply number_eqb_trans.
  - destruct b; try done. destruct a; try done. cbn [json_contains json_eqb]. rewrite !String.eqb_eq. congruence.
  - destruct b as [| | | |bs|]; try done. cbn [json_contains]. destruct a as [| | | |xs|]; try done. rewrite !forallb_forall.
    rewrite List.Forall_forall in IH. intros H1 H2 v Hv. destruct (proj1 (existsb_exists _ _) (H1 v Hv)) as (w & Hw & Hvw).
    destruct (proj1 (existsb_exists _ _) (H2 w Hw)) as (x & Hx & Hwx). apply existsb_exists. exists x. split; [done|]. by apply (IH v Hv w).
  - destruct b as [| | | | |bs]; try done. cbn [json_contains]. destruct a as [| | | | |xs]; try done. rewrite !forallb_forall.
    rewrite List.Forall_forall in IH. intros H1 H2 [k v] Hv. specialize (H1 _ Hv). cbn [fst snd] in *.
    destruct (om_get k bs) as [w|] eqn:Ew; [|done]. apply om_get_Some_In in Ew as Hw. specialize (H2 _ Hw). cbn [fst snd] in H2.
    destruct (om_get k xs) as [x|]; [|done]. by apply (IH (k, v) Hv w).
Qed.

(** Containment of documents is a preorder: a document contains itself, and
    what it contains contains nothing that it does not contain. *)
Theorem json_containment_is_a_preorder (a b c : JSON) :
  document a ->
  json_contains a a = true
  /\ (json_contains b a = true -> json_contains c b = true -> json_contains c a = true).
Proof. intros Ha. split; [by apply contains_refl|]. intros Hb Hc. by eapply contains_trans. Qed.

End Json.

(** ** Examples *)

Definition jstr (s : string) : JSON := VString s.

Lemma json_set_then_get_witness :
  let doc := VObject [("a"%string, VArray [jstr "x"]); ("b"%string, VNull)] in
  json_set_path ["a"; "1"]%string doc (jstr "y") true = VObject [("a"%string, VArray [jstr "x"; jstr "y"]); ("b"%string, VNull)]
  /\ json_at_path (json_set_path ["a"; "1"]%string doc (jstr "y") true) ["a"; "1"]%string = jstr "y".
Proof.
  split; [vm_compute; reflexivity|]. apply json_set_then_get; [|vm_compute; reflexivity].
  simpl. split_and!; try exact I. repeat constructor.
Defined.

Lemma json_containment_is_a_preorder_witness :
  let a := VObject [("k"%string, VArray [jstr "x"; jstr "y"])] in
  json_contains a a = true /\ json_contains (VObject [("k"%string, VArray [jstr "y"])]) a = true.
Proof.
  split.
  - apply (json_containment_is_a_preorder _ VNull VNull). simpl. split_and!; try exact I. repeat constructor.
  - vm_compute. reflexivity.
Defined.
