(* ===== verification/Eval.v ===== *)
(** Evaluation of expressions ([executor/eval.rs]) over rows of bytes.

    A query is evaluated against one state of the database. What expressions
    ask of the rest of the system is a parameter ([World]): running a subquery,
    which [Select] supplies, and the functions of other engines (geometry,
    vectors, rasters, sequences, catalogues and user-defined functions). Every
    argument is handed over as the evaluation that gives it, so a function that
    does not look at an argument does not evaluate it.

    Theorems: predicates are two-valued; a column is resolved by its qualifier;
    [time_bucket] gives the start of the bucket, and reads [ms] as minutes. *)

From Stdlib Require Import Strings.Byte Strings.Ascii Strings.String ZArith Lia Bool.
From stdpp Require Import base list strings.
From S2P Require Import Prelude OrdMap Utf8 Decimal Compress Flux Jsonb Ast Lexer Float Values JsonOps.

Open Scope Z_scope.
Open Scope eval_scope.

(** ** Schemas ([storage/mod.rs]) *)

Inductive ColumnType :=
| ColumnType_Int8 | ColumnType_Int4 | ColumnType_Int2 | ColumnType_Float8 | ColumnType_Float4 | ColumnType_Text
| ColumnType_Bool | ColumnType_Timestamp | ColumnType_Date | ColumnType_Json | ColumnType_Bytea | ColumnType_Geometry
| ColumnType_Geography | ColumnType_Vector | ColumnType_Raster | ColumnType_Float8Array.

Definition column_oid (t : ColumnType) : Z :=
  match t with
  | ColumnType_Int8 => OID_INT8
  | ColumnType_Int4 => 23
  | ColumnType_Int2 => 21
  | ColumnType_Float8 => OID_FLOAT8
  | ColumnType_Float4 => 700
  | ColumnType_Text => OID_TEXT
  | ColumnType_Bool => OID_BOOL
  | ColumnType_Timestamp => 1114
  | ColumnType_Date => 1082
  | ColumnType_Json => 114
  | ColumnType_Bytea => 17
  | ColumnType_Geometry | ColumnType_Geography | ColumnType_Vector | ColumnType_Raster => OID_TEXT
  | ColumnType_Float8Array => 1022
  end.

(** [storage::ColumnDef]; the parser's is [Ast.ColumnDef]. *)
Record TableColumn := mkTableColumn {
  tc_name : string; tc_type : ColumnType; tc_nullable : bool; tc_default : option string; tc_is_pk : bool;
}.

Record ForeignKey := mkForeignKey { fk_column : nat; fk_ref_table : string; fk_ref_column : string }.
Record JsonSchemaRule := mkJsonSchemaRule { js_column : string; js_mode : string; js_schema : string }.

Record TableSchema := mkTableSchema {
  ts_name : string; ts_columns : list TableColumn; ts_pk_columns : list nat; ts_unique_groups : list (list nat);
  ts_foreign_keys : list ForeignKey; ts_json_schemas : list JsonSchemaRule;
}.

(** ** Rows and their contexts *)

Abbreviation Row := (list (option bytes)).

(** A table's name or alias and the range of its columns. *)
Definition Scope : Type := string * (nat * nat).

Record OuterRow := mkOuterRow { or_schema : option TableSchema; or_values : Row; or_table_scopes : list Scope }.

(** What the rest of the system does for an expression. *)
Class World (DB : Type) := {
  run_select : DB -> SelectStmt -> list OuterRow -> list Value -> Eval (list Row);
  other_function : option DB -> string -> list (Eval Value) -> Eval Value;
}.

(** ** Keys of computed values

    A computed value is kept under [format!("{expr:?}")]; two expressions have
    one text exactly when they are the same tree. *)

#[export] Instance BinOp_eq_dec : EqDecision BinOp.
Proof. solve_decision. Defined.
#[export] Instance UnOp_eq_dec : EqDecision UnOp.
Proof. solve_decision. Defined.
#[export] Instance Literal_eq_dec : EqDecision Literal.
Proof. solve_decision. Defined.
#[export] Instance UnionOp_eq_dec : EqDecision UnionOp.
Proof. solve_decision. Defined.
#[export] Instance JoinType_eq_dec : EqDecision JoinType.
Proof. solve_decision. Defined.
#[export] Instance FrameType_eq_dec : EqDecision FrameType.
Proof. solve_decision. Defined.
#[export] Instance FrameBoundType_eq_dec : EqDecision FrameBoundType.
Proof. solve_decision. Defined.

Definition same {A : Type} `{!EqDecision A} (x y : A) : bool := bool_decide (x = y).

Definition list_eqb {A : Type} (eqb : A -> A -> bool) : list A -> list A -> bool :=
  fix go l1 l2 :=
    match l1, l2 with
    | [], [] => true
    | x :: l1', y :: l2' => eqb x y && go l1' l2'
    | _, _ => false
    end.
Definition option_eqb {A : Type} (eqb : A -> A -> bool) (o1 o2 : option A) : bool :=
  match o1, o2 with
  | Some x, Some y => eqb x y
  | None, None => true
  | _, _ => false
  end.

Fixpoint expr_eqb (e1 e2 : Expr) : bool :=
  match e1, e2 with
  | Expr_Literal l1, Expr_Literal l2 => same l1 l2
  | Expr_Ident n1, Expr_Ident n2 => same n1 n2
  | Expr_QualifiedIdent t1 c1, Expr_QualifiedIdent t2 c2 => same t1 t2 && same c1 c2
  | Expr_BinaryOp o1 a1 b1, Expr_BinaryOp o2 a2 b2 => same o1 o2 && expr_eqb a1 a2 && expr_eqb b1 b2
  | Expr_UnaryOp o1 a1, Expr_UnaryOp o2 a2 => same o1 o2 && expr_eqb a1 a2
  | Expr_IsNull a1 n1, Expr_IsNull a2 n2 | Expr_IsTrue a1 n1, Expr_IsTrue a2 n2 | Expr_IsFalse a1 n1, Expr_IsFalse a2 n2 =>
      expr_eqb a1 a2 && same n1 n2
  | Expr_Between a1 l1 h1 n1, Expr_Between a2 l2 h2 n2 => expr_eqb a1 a2 && expr_eqb l1 l2 && expr_eqb h1 h2 && same n1 n2
  | Expr_Like a1 p1 n1, Expr_Like a2 p2 n2 => expr_eqb a1 a2 && expr_eqb p1 p2 && same n1 n2
  | Expr_In a1 l1 n1, Expr_In a2 l2 n2 => expr_eqb a1 a2 && in_eqb l1 l2 && same n1 n2
  | Expr_Exists q1 n1, Expr_Exists q2 n2 => select_eqb q1 q2 && same n1 n2
  | Expr_Cast a1 t1, Expr_Cast a2 t2 => expr_eqb a1 a2 && same t1 t2
  | Expr_Function f1 a1 d1, Expr_Function f2 a2 d2 => same f1 f2 && list_eqb expr_eqb a1 a2 && same d1 d2
  | Expr_Case o1 b1 e1, Expr_Case o2 b2 e2 =>
      option_eqb expr_eqb o1 o2
      && list_eqb (fun x y => expr_eqb (fst x) (fst y) && expr_eqb (snd x) (snd y)) b1 b2 && option_eqb expr_eqb e1 e2
  | Expr_Param n1, Expr_Param n2 => same n1 n2
  | Expr_Subquery q1, Expr_Subquery q2 => select_eqb q1 q2
  | Expr_Window f1 a1 p1 o1 w1, Expr_Window f2 a2 p2 o2 w2 =>
      same f1 f2 && list_eqb expr_eqb a1 a2 && list_eqb expr_eqb p1 p2 && list_eqb order_eqb o1 o2 && option_eqb frame_eqb w1 w2
  | _, _ => false
  end
with in_eqb (l1 l2 : InList) : bool :=
  match l1, l2 with
  | InList_Exprs e1, InList_Exprs e2 => list_eqb expr_eqb e1 e2
  | InList_Subquery q1, InList_Subquery q2 => select_eqb q1 q2
  | _, _ => false
  end
with frame_eqb (f1 f2 : WindowFrame) : bool :=
  match f1, f2 with
  | mkWindowFrame t1 s1 e1, mkWindowFrame t2 s2 e2 => same t1 t2 && bound_eqb s1 s2 && option_eqb bound_eqb e1 e2
  end
with bound_eqb (b1 b2 : FrameBound) : bool :=
  match b1, b2 with mkFrameBound t1 o1, mkFrameBound t2 o2 => same t1 t2 && option_eqb expr_eqb o1 o2 end
with order_eqb (o1 o2 : OrderBy) : bool :=
  match o1, o2 with mkOrderBy e1 a1, mkOrderBy e2 a2 => expr_eqb e1 e2 && same a1 a2 end
with projection_eqb (p1 p2 : Projection) : bool :=
  match p1, p2 with
  | Projection_Wildcard, Projection_Wildcard => true
  | Projection_WildcardTable t1, Projection_WildcardTable t2 => same t1 t2
  | Projection_Expr e1 a1, Projection_Expr e2 a2 => expr_eqb e1 e2 && same a1 a2
  | _, _ => false
  end
with select_eqb (s1 s2 : SelectStmt) : bool :=
  match s1, s2 with
  | mkSelectStmt c1 d1 p1 f1 w1 g1 h1 o1 l1 x1 u1, mkSelectStmt c2 d2 p2 f2 w2 g2 h2 o2 l2 x2 u2 =>
      list_eqb cte_eqb c1 c2 && same d1 d2 && list_eqb projection_eqb p1 p2 && option_eqb twj_eqb f1 f2
      && option_eqb expr_eqb w1 w2 && list_eqb expr_eqb g1 g2 && option_eqb expr_eqb h1 h2 && list_eqb order_eqb o1 o2
      && option_eqb expr_eqb l1 l2 && option_eqb expr_eqb x1 x2
      && option_eqb (fun x y => same (fst x) (fst y) && select_eqb (snd x) (snd y)) u1 u2
  end
with cte_eqb (c1 c2 : Cte) : bool :=
  match c1, c2 with
  | mkCte n1 l1 s1 r1, mkCte n2 l2 s2 r2 => same n1 n2 && same l1 l2 && select_eqb s1 s2 && same r1 r2
  end
with table_eqb (t1 t2 : TableRef) : bool :=
  match t1, t2 with
  | mkTableRef n1 a1 s1 f1, mkTableRef n2 a2 s2 f2 =>
      same n1 n2 && same a1 a2 && option_eqb select_eqb s1 s2 && option_eqb (list_eqb expr_eqb) f1 f2
  end
with twj_eqb (t1 t2 : TableWithJoins) : bool :=
  match t1, t2 with mkTableWithJoins p1 j1, mkTableWithJoins p2 j2 => table_eqb p1 p2 && list_eqb join_eqb j1 j2 end
with join_eqb (j1 j2 : Join) : bool :=
  match j1, j2 with mkJoin t1 r1 o1, mkJoin t2 r2 o2 => same t1 t2 && table_eqb r1 r2 && option_eqb expr_eqb o1 o2 end.

Section Eval.
  Context {DB : Type} {world : World DB} {std : StdLib} {crates : Crates} {js : Json}.

Record RowContext := mkRowContext {
  rc_values : Row; rc_schema : option TableSchema; rc_db : option DB; rc_outer : list OuterRow; rc_params : list Value;
  rc_computed : option (list (Expr * Value)); rc_table_scopes : list Scope;
}.

Definition ctx_empty : RowContext := mkRowContext [] None None [] [] None [].
Definition ctx_new (values : Row) (schema : option TableSchema) : RowContext := mkRowContext values schema None [] [] None [].
Definition ctx_with_db (values : Row) (schema : option TableSchema) (db : DB) : RowContext :=
  mkRowContext values schema (Some db) [] [] None [].
Definition with_outer (outer : list OuterRow) (c : RowContext) : RowContext :=
  mkRowContext (rc_values c) (rc_schema c) (rc_db c) outer (rc_params c) (rc_computed c) (rc_table_scopes c).
Definition with_params (params : list Value) (c : RowContext) : RowContext :=
  mkRowContext (rc_values c) (rc_schema c) (rc_db c) (rc_outer c) params (rc_computed c) (rc_table_scopes c).
Definition with_computed (computed : list (Expr * Value)) (c : RowContext) : RowContext :=
  mkRowContext (rc_values c) (rc_schema c) (rc_db c) (rc_outer c) (rc_params c) (Some computed) (rc_table_scopes c).
Definition with_table_scopes (scopes : list Scope) (c : RowContext) : RowContext :=
  mkRowContext (rc_values c) (rc_schema c) (rc_db c) (rc_outer c) (rc_params c) (rc_computed c) scopes.

Definition as_outer_row (c : RowContext) : OuterRow := mkOuterRow (rc_schema c) (rc_values c) (rc_table_scopes c).
Definition outer_chain_for_subquery (c : RowContext) : list OuterRow := rc_outer c ++ [as_outer_row c].

(** *** Columns *)

Definition find_scope (scopes : list Scope) (qualifier : string) : option (nat * nat) :=
  snd <$> List.find (fun s => String.eqb (fst s) qualifier) scopes.

(** [iter().position(|c| c.name == name)] *)
Fixpoint column_position (cols : list TableColumn) (name : string) : option nat :=
  match cols with
  | [] => None
  | c :: cols' => if String.eqb (tc_name c) name then Some O else S <$> column_position cols' name
  end.

(** [values.get(idx)] as a value; a missing cell is NULL. *)
Definition cell (values : Row) (idx : nat) : Value := from_bytes (mjoin (values !! idx)).

(** [columns.get(start..end)] is there when the range is in order and inside. *)
Definition lookup_in_range (schema : option TableSchema) (values : Row) (range : nat * nat) (name : string) : option Value :=
  match schema with
  | None => None
  | Some s =>
      let '(start, end_) := range in
      if (start <=? end_)%nat && (end_ <=? length (ts_columns s))%nat
      then (fun idx => cell values (start + idx)) <$> column_position (take (end_ - start) (drop start (ts_columns s))) name
      else None
  end.

Definition lookup_by_name (schema : option TableSchema) (values : Row) (name : string) : option Value :=
  match schema with
  | Some s => cell values <$> column_position (ts_columns s) name
  | None => None
  end.

(** The first of the rows, the innermost first, that has an answer. *)
Fixpoint first_some {A B : Type} (f : A -> option B) (l : list A) : option B :=
  match l with
  | [] => None
  | x :: l' => match f x with Some y => Some y | None => first_some f l' end
  end.

Definition scoped (scopes : list Scope) (schema : option TableSchema) (values : Row) (q name : string) : option Value :=
  match find_scope scopes q with
  | Some range => lookup_in_range schema values range name
  | None => None
  end.

Definition resolve_column (c : RowContext) (qualifier : option string) (name : string) : Eval Value :=
  let rows := mkOuterRow (rc_schema c) (rc_values c) (rc_table_scopes c) :: rev (rc_outer c) in
  let by_qualifier :=
    match qualifier with
    | Some q => first_some (fun r => scoped (or_table_scopes r) (or_schema r) (or_values r) q name) rows
    | None => None
    end in
  match by_qualifier with
  | Some v => done v
  | None =>
      match first_some (fun r => lookup_by_name (or_schema r) (or_values r) name) rows with
      | Some v => done v
      | None =>
          match rc_schema c, rc_outer c with
          | None, [] => fails ("column " +:+ name +:+ " does not exist (no FROM clause)")
          | _, _ => fails ("column " +:+ name +:+ " does not exist")
          end
      end
  end.

Definition run_subquery_rows (c : RowContext) (subquery : SelectStmt) : Eval (list Row) :=
  match rc_db c with
  | Some db => run_select db subquery (outer_chain_for_subquery c) (rc_params c)
  | None => fails "subqueries require a database context"
  end.

(** [self.computed.as_ref().and_then(|m| m.get(&key))] *)
Definition computed_get (m : option (list (Expr * Value))) (e : Expr) : option Value :=
  match m with
  | Some m => snd <$> List.find (fun x => expr_eqb (fst x) e) m
  | None => None
  end.

(** ** Functions *)

Definition is_aggregate_name (name : string) : bool := one_of (to_lowercase name) ["count"; "sum"; "avg"; "min"; "max"].

(** The first argument. *)
Definition arg0 (args : list (Eval Value)) (missing : string) : Eval Value :=
  match args with a :: _ => a | [] => fails missing end.

(** *** Intervals *)

Fixpoint span_ascii_digits (s : bytes) : bytes * bytes :=
  match s with
  | b :: s' => if is_ascii_digit b then let '(ds, rest) := span_ascii_digits s' in (b :: ds, rest) else ([], s)
  | [] => ([], [])
  end.

(** [s.trim_end_matches('s')] *)
Definition trim_end_s (s : string) : string :=
  let fix go (r : bytes) : bytes := match r with b :: r' => if byte_eqb b "s" then go r' else r | [] => [] end in
  string_of_list_byte (rev (go (rev (as_bytes s)))).

Definition unit_ms (unit : string) : option Z :=
  if one_of unit ["ms"; "millisecond"] then Some 1
  else if one_of unit ["s"; "sec"; "second"] then Some 1000
  else if one_of unit ["m"; "min"; "minute"] then Some 60000
  else if one_of unit ["h"; "hr"; "hour"] then Some 3600000
  else if one_of unit ["d"; "day"] then Some 86400000
  else if one_of unit ["w"; "week"] then Some (7 * 86400000)
  else if one_of unit ["mon"; "month"] then Some (30 * 86400000)
  else None.

Definition parse_interval (s : string) : option Z :=
  match span_ascii_digits (as_bytes (trim s)) with
  | (_, []) => None
  | (num_str, unit) =>
      match parse_i64 (trim (string_of_list_byte num_str)) with
      | None => None
      | Some n =>
          (fun ms => i64_wrap (n * ms)) <$> unit_ms (to_ascii_lowercase (trim_end_s (trim (string_of_list_byte unit))))
      end
  end.

(** [a.div_euclid(b)] panics on zero and where the result does not fit. *)
Definition div_euclid (a b : Z) : Eval Z :=
  if b =? 0 then panics
  else if (a =? I64_MIN) && (b =? - 1) then panics
  else done (let q := Z.quot a b in if Z.rem a b <? 0 then (if 0 <? b then q - 1 else q + 1) else q).

Definition interval_arg (v : Value) : Result Z :=
  match v with
  | Value_Text s => ok_or (parse_interval s) "invalid interval literal"
  | _ => Err ("expected an interval string literal, got " +:+ type_name v)
  end.

Definition timestamp_arg (v : Value) : Result Z :=
  match v with
  | Value_Int n => Ok n
  | Value_Float f => Ok (f_to_i64 f)
  | _ => Err ("expected a timestamp (unix-ms integer), got " +:+ type_name v)
  end.

Definition time_bucket (interval timestamp : Eval Value) : Eval Value :=
  let* i := interval in
  let* interval_ms := Some (interval_arg i) in
  let* t := timestamp in
  let* ts := Some (timestamp_arg t) in
  let* q := div_euclid ts interval_ms in
  done (Value_Int (i64_wrap (q * interval_ms))).

(** *** Numbers *)

Definition F_ONE : Z := f_of_Z 1.

Definition rounding (norm : string) (args : list (Eval Value)) : Eval Value :=
  let* v := arg0 args "requires an argument" in
  match v with
  | Value_Null => done Value_Null
  | Value_Int n => done (Value_Int (if String.eqb norm "sign" then Z.sgn n else n))
  | Value_Float f =>
      if String.eqb norm "floor" then done (Value_Float (f_floor f))
      else if one_of norm ["ceil"; "ceiling"] then done (Value_Float (f_ceil f))
      else if String.eqb norm "trunc" then done (Value_Float (f_trunc f))
      else if String.eqb norm "sign" then done (Value_Float (if f_lt 0 f then F_ONE else if f_lt f 0 then f_neg F_ONE else 0))
      else
        let* places := match args with
                       | _ :: e :: _ => let* p := e in let* x := Some (value_as_f64 p) in done (f_to_i32 x)
                       | _ => done 0
                       end in
        let factor := powi (f_of_Z 10) places in
        done (Value_Float (f_div (f_round (f_mul f factor)) factor))
  | _ => fails (norm +:+ "() requires a numeric argument, got " +:+ type_name v)
  end.

Definition modulo (a b : Value) : Eval Value :=
  match a, b with
  | Value_Int x, Value_Int y => int_division Z.rem x y
  | _, _ =>
      let* x := Some (value_as_f64 a) in
      let* y := Some (value_as_f64 b) in
      if f_eq y 0 then fails "division by zero" else done (Value_Float (f_rem x y))
  end.

(** [n.abs()] wraps. *)
Definition absolute (v : Value) : Eval Value :=
  match v with
  | Value_Int n => done (Value_Int (i64_wrap (Z.abs n)))
  | Value_Float f => done (Value_Float (f_abs f))
  | _ => fails "abs() requires numeric argument"
  end.

Definition on_text (v : Value) (f : string -> Value) (e : string) : Eval Value :=
  match v with Value_Text s => done (f s) | _ => fails e end.

Fixpoint coalesce (args : list (Eval Value)) : Eval Value :=
  match args with
  | [] => done Value_Null
  | a :: args' => let* v := a in if is_null v then coalesce args' else done v
  end.

(** [value_compare(v, b).is_ok_and(|c| better(c))] *)
Definition better (pred : Z -> bool) (v b : Value) : bool := match value_compare v b with Ok c => pred c | Err _ => false end.

(** GREATEST and LEAST. *)
Fixpoint extreme (pred : Z -> bool) (best : option Value) (args : list (Eval Value)) : Eval Value :=
  match args with
  | [] => done (default Value_Null best)
  | a :: args' =>
      let* v := a in
      if is_null v then extreme pred best args'
      else
        extreme pred (Some (match best with None => v | Some b => if better pred v b then v else b end)) args'
  end.

(** *** JSON *)

Definition json_arg (e : Eval Value) : Eval JSON := let* v := e in Some (json_of v).
Definition text_arg (e : Eval Value) (msg : string) : Eval string :=
  let* v := e in match v with Value_Text s => done s | _ => fails (msg +:+ type_name v) end.

Definition json_typeof (j : JSON) : string :=
  match j with
  | VNull => "null" | VBool _ => "boolean" | VNumber _ => "number" | VString _ => "string" | VArray _ => "array" | VObject _ => "object"
  end.

Definition json_valid (v : Value) : bool :=
  match v with
  | Value_Text s => bool_decide (is_Some (json_parse (as_bytes s)))
  | Value_Null => true
  | _ => false
  end.

Fixpoint build_object (args : list (Eval Value)) (map : list (string * JSON)) : Eval (list (string * JSON)) :=
  match args with
  | k :: v :: args' =>
      let* key := text_arg k "expected a text key, got " in
      let* x := v in
      build_object args' (om_insert key (value_to_json x) map)
  | _ => done map
  end.

(** [s.strip_suffix("_text").is_some()] *)
Definition ends_with_text (s : string) : bool := String.eqb (substring (String.length s - 5) 5 s) "_text".

Definition json_function (norm : string) (args : list (Eval Value)) : option (Eval Value) :=
  if one_of norm ["json_typeof"; "jsonb_typeof"] then
    Some (let* doc := json_arg (arg0 args "json_typeof() requires 1 argument") in done (Value_Text (json_typeof doc)))
  else if one_of norm ["json_valid"; "jsonb_valid"] then
    Some (let* v := arg0 args "json_valid() requires 1 argument" in done (Value_Bool (json_valid v)))
  else if one_of norm ["json_array_length"; "jsonb_array_length"] then
    Some (let* doc := json_arg (arg0 args "json_array_length() requires 1 argument") in
          match doc with VArray a => done (Value_Int (zlen a)) | _ => fails "json_array_length() requires a JSON array" end)
  else if one_of norm ["json_extract_path"; "jsonb_extract_path"; "json_extract_path_text"; "jsonb_extract_path_text"] then
    Some (let* doc := json_arg (arg0 args "requires at least 1 argument") in
          let* path := traverse (fun a => text_arg a "expected a text path segment, got ") (tail args) in
          done (json_to_value (json_at_path doc path) (ends_with_text norm)))
  else if one_of norm ["jsonb_set"; "json_set"] then
    Some (match args with
          | target :: path :: new_value :: more =>
              if (1 <? length more)%nat then fails "jsonb_set() requires 3 or 4 arguments"
              else
                let* doc := json_arg target in
                let* path_text := text_arg path "jsonb_set(): expected a path literal, got " in
                let* new := json_arg new_value in
                let* create := match more with e :: _ => let* v := e in done (is_truthy v) | [] => done true end in
                done (Value_Text (json_text (json_set_path (parse_path_literal path_text) doc new create)))
          | _ => fails "jsonb_set() requires 3 or 4 arguments"
          end)
  else if one_of norm ["jsonb_contains"; "json_contains"] then
    Some (match args with
          | [a; b] => let* x := json_arg a in let* y := json_arg b in done (Value_Bool (json_contains y x))
          | _ => fails "jsonb_contains() requires 2 arguments"
          end)
  else if one_of norm ["jsonb_build_object"; "json_build_object"] then
    Some (if Nat.even (length args) then let* map := build_object args [] in done (Value_Text (json_text (VObject map)))
          else fails "requires an even number of arguments")
  else if one_of norm ["jsonb_build_array"; "json_build_array"] then
    Some (let* items := traverse (fun a => let* v := a in done (value_to_json v)) args in
          done (Value_Text (json_text (VArray items))))
  else if one_of norm ["to_json"; "to_jsonb"] then
    Some (let* v := arg0 args "requires 1 argument" in done (Value_Text (json_text (value_to_json v))))
  else None.

(** *** Constants *)

Definition constant_function (norm : string) : option Value :=
  if String.eqb norm "version" then Some (Value_Text "TPT Keystone 0.1.0 on Rust")
  else if one_of norm ["now"; "current_timestamp"; "pg_postmaster_start_time"] then Some (Value_Text "2026-06-30 00:00:00+00")
  else if String.eqb norm "current_date" then Some (Value_Text "2026-06-30")
  else if one_of norm ["current_user"; "user"; "session_user"; "current_database"; "current_catalog"] then Some (Value_Text "postgres")
  else if one_of norm ["current_schema"; "current_schemas"] then Some (Value_Text "public")
  else if String.eqb norm "pg_backend_pid" then Some (Value_Int 1)
  else if String.eqb norm "pg_get_userbyid" then Some (Value_Text "tpt")
  else None.

(** [name.to_lowercase()] without [pg_catalog.] *)
Definition normalize (name : string) : string :=
  let raw := to_lowercase name in
  if String.prefix "pg_catalog." raw then substring 11 (String.length raw - 11) raw else raw.

Definition eval_function (c : RowContext) (name : string) (args : list (Eval Value)) : Eval Value :=
  let norm := normalize name in
  match constant_function norm with
  | Some v => done v
  | None =>
  if String.eqb norm "pg_sleep" then
    let* secs := match args with e :: _ => let* v := e in Some (value_as_f64 v) | [] => done 0 end in done Value_Null
  else if String.eqb norm "pg_get_expr" then arg0 args "pg_get_expr() requires 2 arguments"
  else if one_of norm ["round"; "floor"; "ceil"; "ceiling"; "trunc"; "sign"] then rounding norm args
  else if String.eqb norm "sqrt" then
    let* v := arg0 args "sqrt() requires 1 argument" in
    let* f := Some (value_as_f64 v) in
    if f_lt f 0 then fails "cannot take square root of a negative number" else done (Value_Float (f_sqrt f))
  else if one_of norm ["power"; "pow"] then
    match args with
    | [a; b] =>
        let* x := a in let* base := Some (value_as_f64 x) in
        let* y := b in let* e := Some (value_as_f64 y) in
        done (Value_Float (powf base e))
    | _ => fails "power() requires 2 arguments"
    end
  else if String.eqb norm "mod" then
    match args with
    | [a; b] => let* x := a in let* y := b in modulo x y
    | _ => fails "mod() requires 2 arguments"
    end
  else if String.eqb norm "abs" then let* v := arg0 args "abs() requires 1 argument" in absolute v
  else if String.eqb norm "upper" then
    let* v := arg0 args "upper() requires 1 argument" in on_text v (fun s => Value_Text (to_uppercase s)) "upper() requires text argument"
  else if String.eqb norm "lower" then
    let* v := arg0 args "lower() requires 1 argument" in on_text v (fun s => Value_Text (to_lowercase s)) "lower() requires text argument"
  else if one_of norm ["length"; "char_length"; "character_length"] then
    let* v := arg0 args "length() requires 1 argument" in on_text v (fun s => Value_Int (zlen (chars s))) "length() requires text argument"
  else if String.eqb norm "coalesce" then coalesce args
  else if String.eqb norm "nullif" then
    match args with
    | [a; b] => let* x := a in let* y := b in done (if compares_equal x y then Value_Null else x)
    | _ => fails "nullif() requires exactly 2 arguments"
    end
  else if String.eqb norm "greatest" then extreme (fun c => 0 <? c) None args
  else if String.eqb norm "least" then extreme (fun c => c <? 0) None args
  else if String.eqb norm "time_bucket" then
    match args with
    | [a; b] => time_bucket a b
    | _ => fails "time_bucket() requires 2 arguments (interval, timestamp)"
    end
  else match json_function norm args with
       | Some r => r
       | None => other_function (rc_db c) norm args
       end
  end.

(** ** Expressions *)

Definition literal_value (l : Literal) : Value :=
  match l with
  | Literal_Int n => Value_Int n
  | Literal_Float f => Value_Float f
  | Literal_Text s => Value_Text s
  | Literal_Bool b => Value_Bool b
  | Literal_Null => Value_Null
  | Literal_FloatArray a => Value_FloatArray a
  end.

Definition eval_param (c : RowContext) (n : Z) : Eval Value :=
  if n =? 0 then fails ("invalid parameter $" +:+ to_dec n)
  else match rc_params c !! Z.to_nat (n - 1) with
       | Some v => done v
       | None => fails ("parameter $" +:+ to_dec n +:+ " not bound")
       end.

Definition with_negation (negated b : bool) : Value := Value_Bool (if negated then negb b else b).

Definition regex_op (l r : Value) (ci negated : bool) : Eval Value :=
  if is_null l || is_null r then done Value_Null
  else let* matched := Some (regex_is_match (val_to_text l) (val_to_text r) ci) in done (with_negation negated matched).

(** The operators that evaluate both operands first. *)
Definition apply_binop (op : BinOp) (l r : Value) : Eval Value :=
  match op with
  | BinOp_Add | BinOp_Sub | BinOp_Mul | BinOp_Div | BinOp_Mod => eval_arithmetic l r op
  | BinOp_Concat => done (Value_Text (val_to_text l +:+ val_to_text r))
  | BinOp_Eq => Some (compare_op l r (fun c => c =? 0))
  | BinOp_NotEq => Some (compare_op l r (fun c => negb (c =? 0)))
  | BinOp_Lt => Some (compare_op l r (fun c => c <? 0))
  | BinOp_Lte => Some (compare_op l r (fun c => c <=? 0))
  | BinOp_Gt => Some (compare_op l r (fun c => 0 <? c))
  | BinOp_Gte => Some (compare_op l r (fun c => 0 <=? c))
  | BinOp_Arrow => Some (json_arrow l r false)
  | BinOp_LongArrow => Some (json_arrow l r true)
  | BinOp_HashArrow => Some (json_path_arrow l r false)
  | BinOp_HashLongArrow => Some (json_path_arrow l r true)
  | BinOp_Contains => let* a := Some (json_of l) in let* b := Some (json_of r) in done (Value_Bool (json_contains b a))
  | BinOp_RegexMatch => regex_op l r false false
  | BinOp_RegexNotMatch => regex_op l r false true
  | BinOp_RegexMatchCI => regex_op l r true false
  | BinOp_RegexNotMatchCI => regex_op l r true true
  | BinOp_And | BinOp_Or => panics
  end.

Definition eval_binop (op : BinOp) (lhs rhs : Eval Value) : Eval Value :=
  match op with
  | BinOp_And => let* l := lhs in if negb (is_truthy l) then done (Value_Bool false) else let* r := rhs in done (Value_Bool (is_truthy r))
  | BinOp_Or => let* l := lhs in if is_truthy l then done (Value_Bool true) else let* r := rhs in done (Value_Bool (is_truthy r))
  | _ => let* l := lhs in let* r := rhs in apply_binop op l r
  end.

Definition between (v lo hi : Value) : Result bool :=
  let? c1 := value_compare v lo in
  if 0 <=? c1 then let? c2 := value_compare v hi in Ok (c2 <=? 0) else Ok false.

(** The loop of IN over expressions, which stops at the first that is equal. *)
Fixpoint find_equal (v : Value) (items : list (Eval Value)) : Eval bool :=
  match items with
  | [] => done false
  | item :: items' => let* iv := item in if compares_equal v iv then done true else find_equal v items'
  end.

(** [row.first()] of a row of a subquery, against [v]. *)
Definition first_equals (v : Value) (row : Row) : bool :=
  match row with c :: _ => compares_equal v (from_bytes c) | [] => false end.

(** The first cell of the first row. *)
Definition scalar (rows : list Row) : Value :=
  match rows with (c :: _) :: _ => from_bytes c | _ => Value_Null end.

(** The branches of CASE as the evaluations of their conditions and results. *)
Fixpoint first_branch (base : option Value) (branches : list (Eval Value * Eval Value)) (else_ : Eval Value) : Eval Value :=
  match branches with
  | [] => else_
  | (cond, result) :: branches' =>
      let* cv := cond in
      let taken := match base with Some b => compares_equal b cv | None => is_truthy cv end in
      if taken : bool then result else first_branch base branches' else_
  end.

Fixpoint eval (c : RowContext) (e : Expr) : Eval Value :=
  match e with
  | Expr_Literal l => done (literal_value l)
  | Expr_Ident name => resolve_column c None name
  | Expr_QualifiedIdent table col => resolve_column c (Some table) col
  | Expr_Param n => eval_param c n
  | Expr_UnaryOp op e => let* v := eval c e in match op with UnOp_Neg => negate v | UnOp_Not => done (Value_Bool (negb (is_truthy v))) end
  | Expr_BinaryOp op lhs rhs => eval_binop op (eval c lhs) (eval c rhs)
  | Expr_IsNull e negated => let* v := eval c e in done (with_negation negated (is_null v))
  | Expr_IsTrue e negated => let* v := eval c e in done (with_negation negated (match v with Value_Bool true => true | _ => false end))
  | Expr_IsFalse e negated => let* v := eval c e in done (with_negation negated (match v with Value_Bool false => true | _ => false end))
  | Expr_Between e low high negated =>
      let* v := eval c e in
      let* lo := eval c low in
      let* hi := eval c high in
      let* in_range := Some (between v lo hi) in
      done (with_negation negated in_range)
  | Expr_Like e pattern negated =>
      let* v := eval c e in
      let* p := eval c pattern in
      match v, p with
      | Value_Text s, Value_Text pat => done (with_negation negated (like_match s pat))
      | _, _ => fails "LIKE requires text operands"
      end
  | Expr_In e list_ negated =>
      let* v := eval c e in
      let* found := match list_ with
                    | InList_Exprs items => find_equal v (map (eval c) items)
                    | InList_Subquery q => let* rows := run_subquery_rows c q in done (existsb (first_equals v) rows)
                    end in
      done (with_negation negated found)
  | Expr_Exists q negated =>
      let* rows := run_subquery_rows c q in done (with_negation negated (match rows with [] => false | _ => true end))
  | Expr_Cast e ty => let* v := eval c e in Some (cast_value v ty)
  | Expr_Function name args distinct =>
      match computed_get (rc_computed c) e with
      | Some v => done v
      | None =>
          if is_aggregate_name name then fails ("aggregate function " +:+ name +:+ "() is not allowed in this context")
          else eval_function c name (map (eval c) args)
      end
  | Expr_Case operand branches else_ =>
      let* base := match operand with Some o => let* v := eval c o in done (Some v) | None => done None end in
      first_branch base (map (fun b => (eval c (fst b), eval c (snd b))) branches)
        (match else_ with Some x => eval c x | None => done Value_Null end)
  | Expr_Subquery q => let* rows := run_subquery_rows c q in done (scalar rows)
  | Expr_Window func args _ _ _ =>
      match computed_get (rc_computed c) e with
      | Some v => done v
      | None => eval_function c func (map (eval c) args)
      end
  end.

Definition eval_expr (e : Expr) (params : list Value) : Eval Value := eval (with_params params ctx_empty) e.

Definition eval_expr_with_db (e : Expr) (db : DB) (params : list Value) : Eval Value :=
  eval (mkRowContext [] None (Some db) [] params None []) e.

(** ** Aggregates *)

(** [format!("{v:?}")], which tells values apart but for the bits of a NaN. *)
Definition debug_key (v : Value) : Value :=
  match v with
  | Value_Float f => Value_Float (if is_nan f then F_NAN else f)
  | Value_FloatArray a => Value_FloatArray (map (fun f => if is_nan f then F_NAN else f) a)
  | _ => v
  end.

(** The values of the argument on the rows, NULLs left out and, for DISTINCT,
    those seen before. *)
Fixpoint collect_values (ctx_for : Row -> RowContext) (arg : Expr) (distinct : bool) (rows : list Row) (seen : list Value) : Eval (list Value) :=
  match rows with
  | [] => done []
  | row :: rows' =>
      let* v := eval (ctx_for row) arg in
      if is_null v then collect_values ctx_for arg distinct rows' seen
      else if distinct && bool_decide (debug_key v ∈ seen) then collect_values ctx_for arg distinct rows' seen
      else let* vs := collect_values ctx_for arg distinct rows' (debug_key v :: seen) in done (v :: vs)
  end.

(** SUM: integers wrap, and one float makes the sum a float. *)
Fixpoint sum_values (values : list Value) (is_float : bool) (int_sum float_sum : Z) : Eval Value :=
  match values with
  | [] => done (if is_float then Value_Float float_sum else Value_Int int_sum)
  | Value_Int n :: values' => sum_values values' is_float (i64_wrap (int_sum + n)) (f_add float_sum (f_of_Z n))
  | Value_Float f :: values' => sum_values values' true int_sum (f_add float_sum f)
  | _ :: _ => fails "sum() requires numeric argument"
  end.

Fixpoint float_total (values : list Value) (total : Z) : Eval Z :=
  match values with
  | [] => done total
  | Value_Int n :: values' => float_total values' (f_add total (f_of_Z n))
  | Value_Float f :: values' => float_total values' (f_add total f)
  | _ :: _ => fails "avg() requires numeric argument"
  end.

(** MIN and MAX. *)
Definition best_of (pred : Z -> bool) (values : list Value) : Value :=
  default Value_Null (fold_left (fun best v => Some (match best with None => v | Some b => if better pred v b then v else b end)) values None).

Definition is_star (arg : option Expr) : bool := match arg with None => true | Some (Expr_Ident s) => String.eqb s "*" | _ => false end.

(** The row alone: no parameters, outer rows or table scopes. *)
Definition aggregate_ctx (schema : option TableSchema) (db : option DB) (row : Row) : RowContext :=
  match db with Some d => ctx_with_db row schema d | None => ctx_new row schema end.

Definition eval_aggregate (name : string) (arg : option Expr) (distinct : bool) (rows : list Row)
    (schema : option TableSchema) (db : option DB) : Eval Value :=
  let name := to_lowercase name in
  let values e := collect_values (aggregate_ctx schema db) e distinct rows [] in
  if String.eqb name "count" then
    match arg with
    | Some e => if is_star arg then done (Value_Int (zlen rows)) else let* vs := values e in done (Value_Int (zlen vs))
    | None => done (Value_Int (zlen rows))
    end
  else
    match arg with
    | None => fails (name +:+ "() requires an argument")
    | Some e =>
        let* vs := values e in
        if String.eqb name "sum" then match vs with [] => done Value_Null | _ => sum_values vs false 0 0 end
        else if String.eqb name "avg" then
          match vs with
          | [] => done Value_Null
          | _ => let* total := float_total vs 0 in done (Value_Float (f_div total (f_of_Z (zlen vs))))
          end
        else if String.eqb name "min" then done (best_of (fun c => c <? 0) vs)
        else if String.eqb name "max" then done (best_of (fun c => 0 <? c) vs)
        else fails ("unknown aggregate function " +:+ name)
    end.

End Eval.

Arguments RowContext : clear implicits.

(** ** Truth values *)

Section Facts.
  Context {DB : Type} {world : World DB} {std : StdLib} {crates : Crates} {js : Json}.

(** Comparisons, connectives and tests. *)
Definition is_predicate (e : Expr) : bool :=
  match e with
  | Expr_BinaryOp op _ _ =>
      match op with
      | BinOp_Eq | BinOp_NotEq | BinOp_Lt | BinOp_Lte | BinOp_Gt | BinOp_Gte | BinOp_And | BinOp_Or | BinOp_Contains => true
      | _ => false
      end
  | Expr_UnaryOp UnOp_Not _ | Expr_IsNull _ _ | Expr_IsTrue _ _ | Expr_IsFalse _ _ | Expr_Between _ _ _ _ | Expr_Like _ _ _
  | Expr_In _ _ _ | Expr_Exists _ _ => true
  | _ => false
  end.

Definition is_bool (m : Eval Value) : Prop := forall v, m = Some (Ok v) -> exists b, v = Value_Bool b.

Lemma is_bool_bind {A : Type} (m : Eval A) (k : A -> Eval Value) : (forall a, is_bool (k a)) -> is_bool (ebind m k).
Proof. intros Hk v. destruct m as [[a|]|]; [apply Hk | done | done]. Qed.

Lemma is_bool_done (b : bool) : is_bool (done (Value_Bool b)).
Proof. intros v [= <-]. by exists b. Qed.

Lemma is_bool_compare (l r : Value) (pred : Z -> bool) : is_bool (Some (compare_op l r pred)).
Proof.
  unfold compare_op. intros v. destruct (is_null l || is_null r); [intros [= <-]; by eexists|].
  destruct (value_compare l r); [intros [= <-]; by eexists | done].
Qed.

Lemma predicate_is_bool (c : RowContext DB) (e : Expr) : is_predicate e = true -> is_bool (eval c e).
Proof.
  destruct e; try done; cbn [is_predicate eval].
  - destruct op; try done; intros _; cbn [eval_binop]; repeat (apply is_bool_bind; intros); try apply is_bool_compare; try apply is_bool_done;
      case_match; try apply is_bool_done; apply is_bool_bind; intros; apply is_bool_done.
  - destruct op; [done|]. intros _. apply is_bool_bind. intros. apply is_bool_done.
  - intros _. repeat (apply is_bool_bind; intros). apply is_bool_done.
  - intros _. repeat (apply is_bool_bind; intros). apply is_bool_done.
  - intros _. repeat (apply is_bool_bind; intros). apply is_bool_done.
  - intros _. repeat (apply is_bool_bind; intros). apply is_bool_done.
  - intros _. do 2 (apply is_bool_bind; intros). repeat case_match; try done. apply is_bool_done.
  - intros _. repeat (apply is_bool_bind; intros). apply is_bool_done.
  - intros _. repeat (apply is_bool_bind; intros). apply is_bool_done.
Qed.

(** Predicates are two-valued. A predicate that evaluates is true or false,
    never NULL, and NOT turns it into the other; so the laws of De Morgan hold
    for all expressions, their errors and panics included. *)
Theorem predicates_are_two_valued (c : RowContext DB) (e a b : Expr) (v : Value) :
  is_predicate e = true -> eval c e = Some (Ok v) ->
  (exists t, v = Value_Bool t /\ eval c (Expr_UnaryOp UnOp_Not e) = Some (Ok (Value_Bool (negb t))))
  /\ eval c (Expr_UnaryOp UnOp_Not (Expr_BinaryOp BinOp_And a b))
     = eval c (Expr_BinaryOp BinOp_Or (Expr_UnaryOp UnOp_Not a) (Expr_UnaryOp UnOp_Not b))
  /\ eval c (Expr_UnaryOp UnOp_Not (Expr_BinaryOp BinOp_Or a b))
     = eval c (Expr_BinaryOp BinOp_And (Expr_UnaryOp UnOp_Not a) (Expr_UnaryOp UnOp_Not b)).
Proof.
  intros Hp He. split_and!.
  - destruct (predicate_is_bool c e Hp v He) as [t ->]. exists t. split; [done|]. cbn [eval]. by rewrite He.
  - cbn [eval eval_binop]. destruct (eval c a) as [[x|]|]; try done. cbn [ebind is_truthy]. destruct (is_truthy x); cbn; [|done].
    by destruct (eval c b) as [[y|]|].
  - cbn [eval eval_binop]. destruct (eval c a) as [[x|]|]; try done. cbn [ebind is_truthy]. destruct (is_truthy x); cbn; [done|].
    by destruct (eval c b) as [[y|]|].
Qed.

(** ** Aggregates *)

Definition not_null (v : Value) : bool := negb (is_null v).

Section Aggregates.
  Context (schema : option TableSchema) (db : option DB) (arg : Expr) (rows : list Row) (vs : list Value).
  Hypothesis values : traverse (fun r => eval (aggregate_ctx schema db r) arg) rows = done vs.

Lemma traverse_cons_inv {A B : Type} (f : A -> Eval B) (x : A) (l : list A) (ys : list B) :
  traverse f (x :: l) = done ys -> exists y ys', f x = done y /\ traverse f l = done ys' /\ ys = y :: ys'.
Proof.
  cbn. unfold done. destruct (f x) as [[y|]|]; try done. cbn. destruct (traverse f l) as [[ys'|]|]; try done. cbn. intros [= <-]. by exists y, ys'.
Qed.

Lemma collect_all (seen : list Value) : collect_values (aggregate_ctx schema db) arg false rows seen = done (List.filter not_null vs).
Proof.
  revert vs seen values. induction rows as [|r rs IH]; intros ws seen Hv; [injection Hv as <-; done|].
  apply traverse_cons_inv in Hv as (y & ys & Hy & Hys & ->). cbn [collect_values List.filter]. rewrite Hy. unfold done at 1. cbn [ebind andb].
  unfold not_null at 1. destruct (is_null y); cbn [negb]; by rewrite (IH ys _ Hys).
Qed.

Lemma collect_distinct (seen : list Value) :
  exists us, collect_values (aggregate_ctx schema db) arg true rows seen = done us
    /\ NoDup (map debug_key us) /\ (forall k, In k (map debug_key us) -> k ∉ seen)
    /\ (forall k, In k (map debug_key us) -> In k (map debug_key (List.filter not_null vs)))
    /\ forall k, In k (map debug_key (List.filter not_null vs)) -> In k (map debug_key us) \/ k ∈ seen.
Proof.
  revert vs seen values. induction rows as [|r rs IH]; intros ws seen Hv.
  { injection Hv as <-. exists []. split_and!; try done. constructor. }
  apply traverse_cons_inv in Hv as (y & ys & Hy & Hys & ->). cbn [collect_values List.filter]. rewrite Hy. unfold done at 1. cbn [ebind andb].
  assert (not_null y = negb (is_null y)) as Hnn by done. rewrite !Hnn. clear Hnn. destruct (is_null y); cbn [negb]; [by apply IH|]. destruct (bool_decide _) eqn:E.
  - apply bool_decide_eq_true in E. destruct (IH ys seen Hys) as (us & -> & H1 & H2 & H3 & H4). exists us. split_and!; try done.
    + intros k Hk. cbn. right. by apply H3.
    + intros k [<-|Hk]; [by right | by apply H4].
  - apply bool_decide_eq_false in E. destruct (IH ys (debug_key y :: seen) Hys) as (us & -> & H1 & H2 & H3 & H4). exists (y :: us).
    cbn [map In]. split_and!; try done.
    + constructor; [|done]. intros Hin%list_elem_of_In. apply (H2 _ Hin). by left.
    + intros k [<-|Hk]; [done|]. intros Hs. apply (H2 k Hk). by right.
    + intros k [<-|Hk]; [by left|]. right. by apply H3.
    + intros k [<-|Hk]; [by left; left|]. destruct (H4 k Hk) as [Hu|Hs]; [left; by right|].
      apply elem_of_cons in Hs as [->|Hs]; [left; by left | by right].
Qed.

(** *** Extremes *)

(** [a] is no worse than [b]; [sg] is 1 for the least, -1 for the greatest. *)
Definition no_worse (sg : Z) (a b : Value) : Prop := exists c, value_compare a b = Ok c /\ sg * c <= 0.

Definition all_same_kind (l : list Value) : Prop := forall a b, In a l -> In b l -> same_kind a b = true.

Lemma compare_refl (a : Value) : same_kind a a = true -> value_compare a a = Ok 0.
Proof.
  intros H. destruct (value_compare_total a a H) as [c Hc]. pose proof (value_compare_opp a a) as Ho. rewrite Hc in Ho. injection Ho as Ho.
  rewrite Hc. f_equal. lia.
Qed.

Lemma no_worse_trans (sg : Z) (a b c : Value) :
  sg = 1 \/ sg = - 1 -> same_kind a b = true -> same_kind b c = true -> same_kind c b = true -> same_kind b a = true ->
  no_worse sg a b -> no_worse sg b c -> no_worse sg a c.
Proof.
  intros Hsg Hab Hbc Hcb Hba (x & Hx & Hx0) (y & Hy & Hy0). destruct Hsg as [->| ->].
  - destruct (value_compare_trans a b c x y) as (z & Hz & Hz0); try done; try lia. exists z. split; [done | lia].
  - pose proof (value_compare_opp a b) as H1. rewrite Hx in H1. pose proof (value_compare_opp b c) as H2. rewrite Hy in H2.
    destruct (value_compare_trans c b a (- y) (- x)) as (z & Hz & Hz0); try done; try lia.
    pose proof (value_compare_opp c a) as H3. rewrite Hz in H3. exists (- z). split; [done | lia].
Qed.

(** The best of [seen] so far. *)
Definition best_so_far (sg : Z) (seen : list Value) (best : option Value) : Prop :=
  match best with
  | None => seen = []
  | Some b => In b seen /\ forall v, In v seen -> no_worse sg b v
  end.

Lemma best_of_extreme (sg : Z) (pred : Z -> bool) (l : list Value) :
  sg = 1 \/ sg = - 1 -> (forall c, pred c = (sg * c <? 0)) -> all_same_kind l -> l <> [] ->
  In (best_of pred l) l /\ forall v, In v l -> no_worse sg (best_of pred l) v.
Proof.
  intros Hsg Hpred Hk Hne. unfold best_of.
  set (step := fun (best : option Value) v => Some (match best with None => v | Some b => if better pred v b then v else b end)).
  assert (forall rest seen best, seen ++ rest = l -> best_so_far sg seen best -> best_so_far sg l (fold_left step rest best)) as Hf.
  { induction rest as [|v rest IH]; intros seen best Hl Hb; [rewrite app_nil_r in Hl; by subst|].
    cbn [fold_left]. apply (IH (seen ++ [v])); [by rewrite <- app_assoc|]. clear IH.
    assert (In v l) as Hv by (subst l; apply in_or_app; right; by left).
    assert (forall u, In u seen -> In u l) as Hsub by (intros; subst l; apply in_or_app; by left).
    assert (no_worse sg v v) as Hvv by (exists 0; split; [apply compare_refl; by apply Hk | lia]).
    destruct best as [b|]; cbn [step best_so_far] in *.
    - destruct Hb as [Hb Hbest]. unfold better. destruct (value_compare_total v b) as [c Hc]; [by apply Hk; auto|]. rewrite Hc, Hpred.
      pose proof (value_compare_opp v b) as Ho. rewrite Hc in Ho. destruct (Z.ltb_spec (sg * c) 0) as [Hlt|Hge].
      + split; [apply in_or_app; right; by left|]. intros u [Hu|[<-|[]]]%in_app_or; [|done].
        apply (no_worse_trans sg v b u); auto; try (by apply Hk; auto). exists c. split; [done | lia].
      + split; [apply in_or_app; by left|]. intros u [Hu|[<-|[]]]%in_app_or; [by apply Hbest|]. exists (- c). split; [done | lia].
    - subst seen. split; [by left|]. by intros u [<-|[]]. }
  specialize (Hf l [] None eq_refl eq_refl). destruct (fold_left step l None) as [b|]; [exact Hf | by destruct (Hne Hf)].
Qed.

(** *** Sums *)

Lemma i64_wrap_add (a b : Z) : i64_wrap (i64_wrap a + b) = i64_wrap (a + b).
Proof. unfold i64_wrap. f_equal. replace ((a + 2 ^ 63) mod 2 ^ 64 - 2 ^ 63 + b + 2 ^ 63) with ((a + 2 ^ 63) mod 2 ^ 64 + b) by lia.
  rewrite Zplus_mod_idemp_l. f_equal. lia. Qed.

Lemma sum_ints (ns : list Z) (acc f : Z) :
  sum_values (map Value_Int ns) false acc f = done (Value_Int (fold_left (fun s n => i64_wrap (s + n)) ns acc)).
Proof. revert acc f. induction ns as [|n ns IH]; intros acc f; [done|]. cbn [map sum_values fold_left]. apply IH. Qed.

Lemma fold_wrap (ns : list Z) (acc : Z) :
  fold_left (fun s n => i64_wrap (s + n)) ns (i64_wrap acc) = i64_wrap (acc + fold_right Z.add 0 ns).
Proof.
  revert acc. induction ns as [|n ns IH]; intros acc; cbn [fold_left fold_right]; [by rewrite Z.add_0_r|].
  rewrite i64_wrap_add, IH. f_equal. lia.
Qed.

End Aggregates.

(** C17. Aggregates are those of the column. When the argument evaluates on every row
    of a group to [vs], then COUNT is the number of those that are not NULL;
    COUNT DISTINCT the number of representatives, one for each of them that is
    told apart; SUM of integers their sum, wrapped to 64 bits, and NULL when
    there are none; MIN and MAX of values of one type the least and the
    greatest of them. *)
Theorem aggregates_are_of_the_column (schema : option TableSchema) (db : option DB) (arg : Expr) (rows : list Row) (vs : list Value)
    (count sum min max : string) :
  traverse (fun r => eval (aggregate_ctx schema db r) arg) rows = done vs ->
  to_lowercase count = "count"%string -> to_lowercase sum = "sum"%string -> to_lowercase min = "min"%string ->
  to_lowercase max = "max"%string -> is_star (Some arg) = false ->
  let agg name distinct := eval_aggregate name (Some arg) distinct rows schema db in
  let nn := List.filter not_null vs in
  agg count false = done (Value_Int (zlen nn))
  /\ (exists us, agg count true = done (Value_Int (zlen us)) /\ NoDup (map debug_key us)
       /\ forall k, In k (map debug_key us) <-> In k (map debug_key nn))
  /\ (forall ns, nn = map Value_Int ns -> agg sum false = done (if bool_decide (ns = []) then Value_Null else Value_Int (i64_wrap (fold_right Z.add 0 ns))))
  /\ (all_same_kind nn -> nn <> [] ->
       exists lo hi, agg min false = done lo /\ agg max false = done hi /\ In lo nn /\ In hi nn
         /\ forall v, In v nn -> no_worse 1 lo v /\ no_worse (- 1) hi v).
Proof.
  intros Hv Hc Hs Hmin Hmax Hstar agg nn. unfold agg, eval_aggregate. rewrite Hc, Hs, Hmin, Hmax. cbn [String.eqb Ascii.eqb Bool.eqb]. cbv iota.
  rewrite Hstar. rewrite !(collect_all schema db arg rows vs Hv []). fold nn. cbn [ebind done]. split_and!.
  - done.
  - destruct (collect_distinct schema db arg rows vs Hv []) as (us & -> & H1 & _ & H3 & H4). exists us. split_and!; [done..|].
    intros k. split; [apply H3|]. intros Hk. destruct (H4 k Hk) as [|Hn]; [done|]. by apply not_elem_of_nil in Hn.
  - intros ns ->. destruct ns as [|n ns]; [done|]. cbn [map]. change (Value_Int n :: map Value_Int ns) with (map Value_Int (n :: ns)).
    rewrite sum_ints. change 0 with (i64_wrap 0) at 1. by rewrite fold_wrap.
  - intros Hk Hne. destruct (best_of_extreme 1 (fun c => c <? 0) nn) as [Hlo Hlo']; try done; [by left | intros; f_equal; lia|].
    destruct (best_of_extreme (- 1) (fun c => 0 <? c) nn) as [Hhi Hhi']; try done; [by right | intros c; apply eq_true_iff_eq; rewrite !Z.ltb_lt; lia|].
    eexists _, _. split_and!; [done..|]. intros v Hvin. split; [by apply Hlo' | by apply Hhi'].
Qed.

(** ** Time buckets *)

Lemma div_euclid_floor (a b : Z) : 0 < b -> div_euclid a b = done (a / b).
Proof.
  intros Hb. unfold div_euclid. rewrite (proj2 (Z.eqb_neq b 0)), (proj2 (Z.eqb_neq b (- 1))) by lia. rewrite andb_false_r. cbv zeta.
  rewrite (proj2 (Z.ltb_lt 0 b) Hb). unfold done. do 2 f_equal. pose proof (Z.quot_rem' a b). pose proof (Z.rem_bound_abs a b ltac:(lia)).
  destruct (Z.ltb_spec (Z.rem a b) 0).
  - apply (Z.div_unique a b _ (Z.rem a b + b)); lia.
  - apply (Z.div_unique a b _ (Z.rem a b)); lia.
Qed.

(** A time bucket is where the timestamp lies. For an interval of a positive
    number of milliseconds the bucket of a timestamp is the greatest multiple
    of the interval that is no later, as long as that is a 64-bit number; an
    interval of zero panics. *)
Theorem time_bucket_holds_the_timestamp (s : string) (interval ts : Z) :
  parse_interval s = Some interval ->
  (0 < interval -> is_i64 ts -> - 2 ^ 63 <= ts / interval * interval ->
   exists b, time_bucket (done (Value_Text s)) (done (Value_Int ts)) = done (Value_Int b)
     /\ (interval | b) /\ b <= ts < b + interval)
  /\ (interval = 0 -> time_bucket (done (Value_Text s)) (done (Value_Int ts)) = panics).
Proof.
  intros Hs. split.
  - intros Hi [Hlo Hhi] Hb. exists (ts / interval * interval). pose proof (Z.div_mod ts interval ltac:(lia)).
    pose proof (Z.mod_pos_bound ts interval Hi). split_and!; [|by apply Z.divide_factor_r | lia | lia].
    unfold time_bucket, done. cbn [ebind interval_arg timestamp_arg]. rewrite Hs. cbn [ok_or ebind].
    rewrite div_euclid_floor by done. cbn. rewrite i64_wrap_id by (unfold is_i64; lia). done.
  - intros ->. unfold time_bucket, done. cbn [ebind interval_arg timestamp_arg]. by rewrite Hs.
Qed.

(** Two units of intervals are misread: the letter [s] is taken off the end of
    the unit before it is looked up, so milliseconds written [ms] are minutes,
    and seconds written [s] are refused. *)
Theorem interval_units_are_misread :
  parse_interval "100 ms" = Some (100 * 60000) /\ parse_interval "100 milliseconds" = Some 100 /\ parse_interval "5 s" = None.
Proof. vm_compute. done. Qed.

End Facts.

(** ** Examples *)

(** A world without a database: for running the model. *)
#[export] Instance no_world : World unit :=
  {| run_select _ _ _ _ := fails "no tables"; other_function _ norm _ := fails ("function " +:+ norm +:+ " does not exist") |}.

(** Documents are not read here. *)
#[export] Instance blank_json : Json := {| json_parse _ := None; json_print _ := [] |}.

Definition text_column (name : string) : TableColumn := mkTableColumn name ColumnType_Text true None false.
Definition table_of (name : string) (cols : list string) : TableSchema := mkTableSchema name (map text_column cols) [] [] [] [].
Definition row_of (cells : list string) : Row := map (fun s => if String.eqb s "NULL" then None else Some (as_bytes s)) cells.

Lemma predicates_are_two_valued_witness :
  let c := ctx_new (DB := unit) (row_of ["NULL"]%string) (Some (table_of "t" ["a"]%string)) in
  let e := Expr_BinaryOp BinOp_Eq (Expr_Ident "a") (Expr_Literal (Literal_Int 1)) in
  eval c e = done (Value_Bool false) /\ eval c (Expr_UnaryOp UnOp_Not e) = done (Value_Bool true).
Proof.
  intros c e. split; [vm_compute; reflexivity|].
  destruct (predicates_are_two_valued c e e e (Value_Bool false)) as [(t & [= <-] & H) _];
    [vm_compute; reflexivity | vm_compute; reflexivity | exact H].
Defined.

Lemma aggregates_are_of_the_column_witness :
  let t := Some (table_of "t" ["a"]%string) in
  let rows := map row_of [["3"]; ["NULL"]; ["1"]; ["3"]]%string in
  eval_aggregate (DB := unit) "Sum" (Some (Expr_Ident "a")) false rows t None = done (Value_Int 7)
  /\ eval_aggregate (DB := unit) "count" (Some (Expr_Ident "a")) true rows t None = done (Value_Int 2)
  /\ eval_aggregate (DB := unit) "count" (Some (Expr_Ident "a")) false rows t None = done (Value_Int 3).
Proof.
  intros t rows.
  destruct (aggregates_are_of_the_column (DB := unit) t None (Expr_Ident "a") rows [Value_Int 3; Value_Null; Value_Int 1; Value_Int 3]
    "count" "Sum" "min" "max") as (Hc & _ & Hs & _); try (vm_compute; reflexivity).
  split; [exact (Hs [3; 1; 3] eq_refl)|]. split; [vm_compute; reflexivity | exact Hc].
Defined.

Lemma time_bucket_holds_the_timestamp_witness :
  exists b, time_bucket (done (Value_Text "1 hour")) (done (Value_Int (- 1))) = done (Value_Int b) /\ (3600000 | b) /\ b <= - 1 < b + 3600000.
Proof.
  apply (time_bucket_holds_the_timestamp "1 hour" 3600000 (- 1)); [vm_compute; reflexivity | lia | unfold is_i64; lia |].
  vm_compute. discriminate.
Defined.
