(* ===== verification/Joins.v ===== *)
(** Joins ([executor/join.rs] and [merge_schema] of [executor/mod.rs]).

    A join on an equality builds a hash table, any other join is a nested loop.
    The map of the hash table is an ordered map here; its order shows nowhere.
    The pairs that a GPU finds for a spatial predicate, if any, are a parameter.
    [None] is a panic of an evaluation.

    Theorems: where column names are unambiguous and keys of one type, the hash
    joins give the rows of the nested loops, for inner, left and right joins.
    And: where both tables have the columns of the condition, the hash join
    takes the wrong ones. *)

From Stdlib Require Import Strings.Byte Strings.String ZArith Lia Bool.
From stdpp Require Import base list strings sorting.
From S2P Require Import Prelude OrdMap Utf8 Decimal Compress Flux Jsonb Ast Lexer Float Values JsonOps Eval.

Open Scope Z_scope.
Open Scope eval_scope.

(** [m.unwrap_or(d)]: an error is caught, a panic is not. *)
Definition unwrap_or {A : Type} (d : A) (m : Eval A) : option A :=
  match m with
  | Some (Ok a) => Some a
  | Some (Err _) => Some d
  | None => None
  end.

Definition merge_schema (left right : option TableSchema) : option TableSchema :=
  match left, right with
  | Some l, Some r => Some (mkTableSchema (ts_name l +:+ "_" +:+ ts_name r) (ts_columns l ++ ts_columns r) [] [] [] [])
  | Some l, None => Some l
  | None, r => r
  end.

Definition columns_of (schema : option TableSchema) : list TableColumn := match schema with Some s => ts_columns s | None => [] end.

Section Joins.
  Context {DB : Type} {world : World DB} {std : StdLib} {crates : Crates} {js : Json}.

(** [extract_spatial_join_predicate] and [try_gpu_spatial_join]. *)
  Context (gpu_pairs : Expr -> option TableSchema -> option TableSchema -> list Row -> list Row -> option (list (nat * nat))).

Definition has_col (schema : option TableSchema) (name : string) : bool :=
  existsb (fun c => String.eqb (tc_name c) name) (columns_of schema).

Fixpoint expr_only_refs (schema : option TableSchema) (e : Expr) : bool :=
  match e with
  | Expr_Ident name => has_col schema name
  | Expr_QualifiedIdent _ name => has_col schema name
  | Expr_Literal _ | Expr_Param _ => true
  | Expr_BinaryOp _ lhs rhs => expr_only_refs schema lhs && expr_only_refs schema rhs
  | Expr_UnaryOp _ e => expr_only_refs schema e
  | Expr_Cast e _ => expr_only_refs schema e
  | Expr_Function _ args _ => forallb (expr_only_refs schema) args
  | _ => false
  end.

Definition split_join_keys (on_expr : Expr) (left_schema right_schema : option TableSchema) : option (Expr * Expr) :=
  match on_expr with
  | Expr_BinaryOp BinOp_Eq lhs rhs =>
      if expr_only_refs left_schema lhs && expr_only_refs right_schema rhs then Some (lhs, rhs)
      else if expr_only_refs left_schema rhs && expr_only_refs right_schema lhs then Some (rhs, lhs)
      else None
  | _ => None
  end.

Record JoinPredicateCtx := mkJoinPredicateCtx { jp_schema : option TableSchema; jp_scopes : list Scope }.

Definition build_join_predicate_ctx (left_schema right_schema : option TableSchema) (left_scopes : list Scope)
    (right_alias : string) (left_len : nat) : JoinPredicateCtx :=
  let right_len := length (columns_of right_schema) in
  mkJoinPredicateCtx (merge_schema left_schema right_schema)
    (left_scopes ++ [(right_alias, (left_len, (left_len + right_len)%nat))]).

Definition eval_join_predicate (on_expr : Expr) (left_row right_row : Row) (ctx : JoinPredicateCtx) : option bool :=
  is_truthy <$> unwrap_or (Value_Bool false)
    (eval (with_table_scopes (jp_scopes ctx) (ctx_new (left_row ++ right_row) (jp_schema ctx))) on_expr).

Definition nulls (n : nat) : Row := repeat None n.

(** [left] and [right] pad the rows of a side that no pair has. *)
Definition build_rows_from_pairs (pairs : list (nat * nat)) (left_rows right_rows : list Row) (right_len left_len : nat)
    (pad_left pad_right : bool) : option (list Row) :=
  matched ← mapM (fun '(i, j) => l ← left_rows !! i; r ← right_rows !! j; Some (l ++ r)) pairs;
  Some (matched
        ++ (if pad_left
            then concat (imap (fun i l => if bool_decide (i ∈ map fst pairs) then [] else [l ++ nulls right_len]) left_rows)
            else [])
        ++ (if pad_right
            then concat (imap (fun j r => if bool_decide (j ∈ map snd pairs) then [] else [nulls left_len ++ r]) right_rows)
            else [])).

(** *** Nested loops *)

(** The rows of [others] that match, by the predicate. *)
Definition matching (pred : Row -> option bool) (others : list Row) : option (list Row) :=
  @concat Row <$> mapM (fun r => b ← pred r; Some (if b : bool then [r] else [])) others.

(** For every row the combinations with its matches; with [pad] one more for a
    row that has none. *)
Definition nested_loop (rows others : list Row) (pred : Row -> Row -> option bool) (combine : Row -> Row -> Row)
    (pad : option (Row -> Row)) : option (list Row) :=
  @concat Row <$> mapM (fun x =>
    ms ← matching (pred x) others;
    Some (match ms, pad with
          | [], Some pad => [pad x]
          | _, _ => map (combine x) ms
          end)) rows.

(** *** Hash joins *)

(** [ctx.eval(key).ok().and_then(|k| k.to_wire_bytes())] *)
Definition join_key (schema : option TableSchema) (key : Expr) (row : Row) : option (option bytes) :=
  match eval (ctx_new row schema) key with
  | Some (Ok v) => Some (to_wire_bytes v)
  | Some (Err _) => Some None
  | None => None
  end.

(** [hash_table.entry(bytes).or_default().push(row)] *)
Definition push_row (t : list (bytes * list Row)) (kr : option bytes * Row) : list (bytes * list Row) :=
  match fst kr with
  | Some k => om_insert k (default [] (om_get k t) ++ [snd kr]) t
  | None => t
  end.

Definition build_table (key : Row -> option (option bytes)) (rows : list Row) : option (list (bytes * list Row)) :=
  keyed ← mapM (fun r => k ← key r; Some (k, r)) rows;
  Some (fold_left push_row keyed []).

Definition probe (t : list (bytes * list Row)) (k : option bytes) : list Row :=
  match k with Some k => default [] (om_get k t) | None => [] end.

(** Look every row up in the table of the others. *)
Definition hash_loop (rows others : list Row) (key other_key : Row -> option (option bytes)) (combine : Row -> Row -> Row)
    (pad : option (Row -> Row)) : option (list Row) :=
  t ← build_table other_key others;
  @concat Row <$> mapM (fun x =>
    k ← key x;
    Some (match probe t k, pad with
          | [], Some pad => [pad x]
          | ms, _ => map (combine x) ms
          end)) rows.

Definition left_first (l r : Row) : Row := l ++ r.
Definition right_first (r l : Row) : Row := l ++ r.

Definition hash_equi_join (left_rows right_rows : list Row) (left_key right_key : Expr)
    (left_schema right_schema : option TableSchema) : option (list Row) :=
  let lk := join_key left_schema left_key in
  let rk := join_key right_schema right_key in
  if (length right_rows <=? length left_rows)%nat
  then hash_loop left_rows right_rows lk rk left_first None
  else hash_loop right_rows left_rows rk lk right_first None.

(** *** Joins *)

Definition cross_join (left_rows right_rows : list Row) : list Row :=
  concat (map (fun l => map (left_first l) right_rows) left_rows).

(** A row of an outer join without a condition. *)
Definition outer_cross (rows others : list Row) (combine : Row -> Row -> Row) (pad : Row -> Row) : list Row :=
  concat (map (fun x => match others with [] => [pad x] | _ => map (combine x) others end) rows).

Definition apply_join (left_rows right_rows : list Row) (join_type : JoinType) (on_ : option Expr)
    (left_schema right_schema : option TableSchema) (left_scopes : list Scope) (right_alias : string) : option (list Row) :=
  let right_len := length (columns_of right_schema) in
  let left_len := length (columns_of left_schema) in
  let ctx := build_join_predicate_ctx left_schema right_schema left_scopes right_alias left_len in
  let pad_right_side (l : Row) := l ++ nulls right_len in
  let pad_left_side (r : Row) := nulls left_len ++ r in
  match join_type with
  | JoinType_Cross => Some (cross_join left_rows right_rows)
  | JoinType_Inner | JoinType_Full =>
      match on_ with
      | None => Some (cross_join left_rows right_rows)
      | Some on_expr =>
          match split_join_keys on_expr left_schema right_schema with
          | Some (lk, rk) => hash_equi_join left_rows right_rows lk rk left_schema right_schema
          | None =>
              match gpu_pairs on_expr left_schema right_schema left_rows right_rows with
              | Some pairs => build_rows_from_pairs pairs left_rows right_rows right_len left_len false false
              | None => nested_loop left_rows right_rows (fun l r => eval_join_predicate on_expr l r ctx) left_first None
              end
          end
      end
  | JoinType_Left =>
      match on_ with
      | None => Some (outer_cross left_rows right_rows left_first pad_right_side)
      | Some on_expr =>
          match split_join_keys on_expr left_schema right_schema with
          | Some (lk, rk) =>
              hash_loop left_rows right_rows (join_key left_schema lk) (join_key right_schema rk) left_first (Some pad_right_side)
          | None =>
              match gpu_pairs on_expr left_schema right_schema left_rows right_rows with
              | Some pairs => build_rows_from_pairs pairs left_rows right_rows right_len left_len true false
              | None =>
                  nested_loop left_rows right_rows (fun l r => eval_join_predicate on_expr l r ctx) left_first (Some pad_right_side)
              end
          end
      end
  | JoinType_Right =>
      match on_ with
      | None => Some (outer_cross right_rows left_rows right_first pad_left_side)
      | Some on_expr =>
          match split_join_keys on_expr left_schema right_schema with
          | Some (lk, rk) =>
              hash_loop right_rows left_rows (join_key right_schema rk) (join_key left_schema lk) right_first (Some pad_left_side)
          | None =>
              match gpu_pairs on_expr left_schema right_schema left_rows right_rows with
              | Some pairs => build_rows_from_pairs pairs left_rows right_rows right_len left_len false true
              | None =>
                  nested_loop right_rows left_rows (fun r l => eval_join_predicate on_expr l r ctx) right_first (Some pad_left_side)
              end
          end
      end
  end.

End Joins.

(** ** Loops without panics *)

Lemma mapM_total {A B : Type} (f : A -> option B) (g : A -> B) (l : list A) :
  (forall x, In x l -> f x = Some (g x)) -> mapM f l = Some (map g l).
Proof.
  induction l as [|x l IH]; intros H; [done|]. cbn. rewrite (H x) by (by left). cbn. rewrite IH by (intros; apply H; by right). done.
Qed.

Lemma matching_total (pred : Row -> option bool) (p : Row -> bool) (others : list Row) :
  (forall r, In r others -> pred r = Some (p r)) -> matching pred others = Some (List.filter p others).
Proof.
  intros H. unfold matching. rewrite (mapM_total _ (fun r => if p r then [r] else [])) by (intros r Hr; by rewrite (H r Hr)).
  cbn. f_equal. clear H. induction others as [|r l IH]; [done|]. cbn. rewrite IH. by destruct (p r).
Qed.

(** The combinations of a row, or its padding. *)
Definition combined (p : Row -> Row -> bool) (others : list Row) (combine : Row -> Row -> Row) (pad : option (Row -> Row)) (x : Row) : list Row :=
  match List.filter (p x) others, pad with
  | [], Some pad => [pad x]
  | ms, _ => map (combine x) ms
  end.

Lemma nested_loop_total (rows others : list Row) (pred : Row -> Row -> option bool) (p : Row -> Row -> bool)
    (combine : Row -> Row -> Row) (pad : option (Row -> Row)) :
  (forall x y, In x rows -> In y others -> pred x y = Some (p x y)) ->
  nested_loop rows others pred combine pad = Some (concat (map (combined p others combine pad) rows)).
Proof.
  intros H. unfold nested_loop. rewrite (mapM_total _ (combined p others combine pad)); [done|].
  intros x Hx. rewrite (matching_total _ (p x)) by (intros; by apply H). cbn. unfold combined. by destruct (List.filter (p x) others), pad.
Qed.

(** *** Hash tables *)

Definition key_eqb (a b : option bytes) : bool :=
  match a, b with Some x, Some y => bool_decide (x = y) | _, _ => false end.

Lemma push_row_get (t : list (bytes * list Row)) (k : option bytes) (r : Row) :
  om_sorted t ->
  om_sorted (push_row t (k, r))
  /\ forall b, probe (push_row t (k, r)) b = probe t b ++ (if key_eqb b k then [r] else []).
Proof.
  intros Hs. unfold push_row. cbn [fst snd]. destruct k as [k|].
  - split; [by apply om_insert_sorted|]. intros [b|]; [|done]. cbn [probe key_eqb]. rewrite om_get_insert by done.
    destruct (keqb b k) eqn:E.
    + apply keqb_true in E as ->. rewrite bool_decide_eq_true_2 by done. done.
    + apply keqb_false in E. rewrite bool_decide_eq_false_2 by done. by rewrite app_nil_r.
  - split; [done|]. intros [b|]; cbn [probe key_eqb]; by rewrite ?app_nil_r.
Qed.

Lemma build_table_total (key : Row -> option (option bytes)) (k : Row -> option bytes) (rows : list Row) :
  (forall r, In r rows -> key r = Some (k r)) ->
  exists t, build_table key rows = Some t /\ forall b, probe t b = List.filter (fun r => key_eqb b (k r)) rows.
Proof.
  intros H. unfold build_table. rewrite (mapM_total _ (fun r => (k r, r))) by (intros r Hr; by rewrite (H r Hr)). cbn.
  eexists. split; [done|]. assert (forall t, om_sorted t -> forall b,
    probe (fold_left push_row (map (fun r => (k r, r)) rows) t) b = probe t b ++ List.filter (fun r => key_eqb b (k r)) rows) as Hf.
  { clear H. induction rows as [|r rows IH]; intros t Ht b; [by rewrite app_nil_r|]. cbn [map fold_left List.filter].
    destruct (push_row_get t (k r) r Ht) as [Hs Hp]. rewrite (IH _ Hs), Hp, <- app_assoc. by destruct (key_eqb b (k r)). }
  intros b. rewrite Hf by constructor. by destruct b.
Qed.

Lemma hash_loop_total (rows others : list Row) (key other_key : Row -> option (option bytes)) (k k' : Row -> option bytes)
    (combine : Row -> Row -> Row) (pad : option (Row -> Row)) :
  (forall x, In x rows -> key x = Some (k x)) -> (forall y, In y others -> other_key y = Some (k' y)) ->
  hash_loop rows others key other_key combine pad
  = Some (concat (map (combined (fun x y => key_eqb (k x) (k' y)) others combine pad) rows)).
Proof.
  intros H H'. unfold hash_loop. destruct (build_table_total other_key k' others H') as (t & -> & Hp). cbn.
  rewrite (mapM_total _ (combined (fun x y => key_eqb (k x) (k' y)) others combine pad)); [done|].
  intros x Hx. rewrite (H x Hx). cbn. rewrite Hp. unfold combined. by destruct (List.filter _ others).
Qed.

(** *** Which side is looped over *)

Lemma concat_map_app {A B : Type} (f g : A -> list B) (l : list A) :
  Permutation (concat (map (fun x => f x ++ g x) l)) (concat (map f l) ++ concat (map g l)).
Proof.
  induction l as [|x l IH]; [done|]. cbn [map concat]. rewrite IH. rewrite <- !app_assoc. apply Permutation_app_head.
  rewrite !app_assoc. apply Permutation_app_tail, Permutation_app_comm.
Qed.

Lemma concat_map_swap {A B C : Type} (g : A -> B -> list C) (xs : list A) (ys : list B) :
  Permutation (concat (map (fun x => concat (map (g x) ys)) xs)) (concat (map (fun y => concat (map (fun x => g x y) xs)) ys)).
Proof.
  induction xs as [|x xs IH]; cbn [map concat].
  - clear. by induction ys.
  - rewrite IH. symmetry. apply (concat_map_app (g x) (fun y => concat (map (fun x => g x y) xs))).
Qed.

Lemma combined_concat (p : Row -> Row -> bool) (others : list Row) (combine : Row -> Row -> Row) (x : Row) :
  combined p others combine None x = concat (map (fun y => if p x y then [combine x y] else []) others).
Proof.
  unfold combined. transitivity (map (combine x) (List.filter (p x) others)); [by destruct (List.filter _ _)|].
  induction others as [|y l IH]; [done|]. cbn. rewrite <- IH. by destruct (p x y).
Qed.

Lemma swap_sides (p : Row -> Row -> bool) (ls rs : list Row) :
  Permutation (concat (map (combined (fun r l => p l r) ls right_first None) rs)) (concat (map (combined p rs left_first None) ls)).
Proof.
  rewrite !(map_ext _ _ (combined_concat _ _ _)). rewrite (concat_map_swap (fun r l => if p l r then [right_first r l] else []) rs ls). done.
Qed.

(** ** Columns *)

Lemma position_lookup (cols : list TableColumn) (name : string) (i : nat) :
  column_position cols name = Some i -> exists c, cols !! i = Some c /\ tc_name c = name.
Proof.
  revert i. induction cols as [|c cols IH]; intros i; cbn [column_position]; [done|].
  destruct (String.eqb_spec (tc_name c) name); [intros [= <-]; by exists c|].
  destruct (column_position cols name) as [j|]; [|done]. intros [= <-]. by apply IH.
Qed.

Lemma position_unique (cols : list TableColumn) (c : TableColumn) (i : nat) :
  NoDup (map tc_name cols) -> cols !! i = Some c -> column_position cols (tc_name c) = Some i.
Proof.
  revert i. induction cols as [|d cols IH]; intros i Hnd Hi; [done|]. cbn [map column_position] in *. apply NoDup_cons in Hnd as [Hd Hnd].
  destruct i as [|i]; [injection Hi as ->; by rewrite String.eqb_refl|].
  destruct (String.eqb_spec (tc_name d) (tc_name c)) as [E|_].
  - destruct Hd. rewrite E. apply list_elem_of_fmap. exists c. split; [done|]. by eapply list_elem_of_lookup_2.
  - by rewrite (IH i Hnd Hi).
Qed.

Lemma position_has (schema : TableSchema) (name : string) :
  has_col (Some schema) name = true -> exists i, column_position (ts_columns schema) name = Some i /\ (i < length (ts_columns schema))%nat.
Proof.
  unfold has_col, columns_of. intros (c & Hc & E%String.eqb_eq)%existsb_exists. induction (ts_columns schema) as [|d cols IH]; [done|].
  cbn [column_position length]. destruct (String.eqb_spec (tc_name d) name); [exists O; split; [done | lia]|].
  destruct Hc as [->|Hc]; [done|]. destruct (IH Hc) as (i & -> & Hi). exists (S i). split; [done | lia].
Qed.

Lemma position_app (a b : list TableColumn) (name : string) :
  column_position (a ++ b) name
  = match column_position a name with Some i => Some i | None => (fun i => (length a + i)%nat) <$> column_position b name end.
Proof.
  induction a as [|c a IH]; cbn [app column_position length]; [by destruct (column_position b name)|].
  destruct (String.eqb (tc_name c) name); [done|]. rewrite IH. destruct (column_position a name), (column_position b name); done.
Qed.

Section Unambiguous.
  Context {DB : Type} {world : World DB} {std : StdLib} {crates : Crates} {js : Json}.

(** Where no two columns have one name, the name decides, whatever the scopes
    and the qualifier say. *)
Lemma resolve_unambiguous (cols : list TableColumn) (schema : TableSchema) (values : Row) (scopes : list Scope)
    (q : option string) (name : string) (i : nat) :
  ts_columns schema = cols -> NoDup (map tc_name cols) -> column_position cols name = Some i ->
  resolve_column (with_table_scopes scopes (ctx_new (DB := DB) values (Some schema))) q name = done (cell values i).
Proof.
  intros <- Hnd Hi. unfold resolve_column. cbn [rc_schema rc_values rc_table_scopes rc_outer with_table_scopes ctx_new rev app first_some].
  assert (forall q v, scoped scopes (Some schema) values q name = Some v -> v = cell values i) as Hscoped.
  { intros q' v. unfold scoped, lookup_in_range. destruct (find_scope scopes q') as [[s e]|]; [|done].
    destruct (_ && _) eqn:E; [|done]. destruct (column_position (take _ _) name) as [j|] eqn:Hj; [|done]. intros [= <-]. f_equal.
    apply position_lookup in Hj as (c & Hc & <-). apply lookup_take_Some in Hc as [Hc _]. rewrite lookup_drop in Hc.
    apply (position_unique _ _ _ Hnd) in Hc. rewrite Hc in Hi. by injection Hi. }
  assert (match first_some (fun r => lookup_by_name (or_schema r) (or_values r) name) [mkOuterRow (Some schema) values scopes] with
          | Some v => done v | None => fails ("column " +:+ name +:+ " does not exist") end = done (cell values i)) as Hname
    by (cbn; by rewrite Hi).
  cbn [or_table_scopes or_schema or_values] in *. destruct q as [q|]; [|exact Hname].
  destruct (scoped scopes (Some schema) values q name) as [v|] eqn:E; [|exact Hname]. by rewrite (Hscoped q v E).
Qed.

Lemma eval_function_db (c1 c2 : RowContext DB) (name : string) (args : list (Eval Value)) :
  rc_db c1 = rc_db c2 -> eval_function c1 name args = eval_function c2 name args.
Proof. intros H. unfold eval_function. by rewrite H. Qed.

(** An expression over the columns of a schema, in two contexts that resolve
    those alike. *)
Lemma eval_same (schema : option TableSchema) (c1 c2 : RowContext DB) :
  rc_db c1 = rc_db c2 -> rc_params c1 = rc_params c2 -> rc_computed c1 = None -> rc_computed c2 = None ->
  (forall q name, has_col schema name = true -> resolve_column c1 q name = resolve_column c2 q name) ->
  forall e, expr_only_refs schema e = true -> eval c1 e = eval c2 e.
Proof.
  intros Hdb Hpar H1 H2 Hres. fix IH 1. intros [] He; try discriminate He; cbn [expr_only_refs eval] in *.
  - done.
  - by apply Hres.
  - by apply Hres.
  - apply andb_true_iff in He as [Ha Hb]. by rewrite (IH _ Ha), (IH _ Hb).
  - by rewrite (IH _ He).
  - by rewrite (IH _ He).
  - rewrite H1, H2. cbn [computed_get]. destruct (is_aggregate_name name); [done|].
    assert (map (eval c1) args = map (eval c2) args) as ->; [|by apply eval_function_db].
    induction args as [|a args IHl]; [done|]. cbn [forallb map] in *.
    apply andb_true_iff in He as [Ha He]. by rewrite (IH _ Ha), (IHl He).
  - unfold eval_param. by rewrite Hpar.
Qed.

Lemma cell_app_l (l r : Row) (i : nat) : (i < length l)%nat -> cell (l ++ r) i = cell l i.
Proof. intros H. unfold cell. by rewrite lookup_app_l. Qed.

Lemma cell_app_r (l r : Row) (i : nat) : cell (l ++ r) (length l + i) = cell r i.
Proof. unfold cell. rewrite lookup_app_r by lia. by replace (length l + i - length l)%nat with i by lia. Qed.

Section Sides.
  Context (ls rs : TableSchema) (scopes : list Scope) (alias : string) (l r : Row).
  Hypothesis names : NoDup (map tc_name (ts_columns ls ++ ts_columns rs)).
  Hypothesis shape : length l = length (ts_columns ls).

(** The context of a join's predicate. *)
Definition pair_ctx : RowContext DB :=
  let ctx := build_join_predicate_ctx (Some ls) (Some rs) scopes alias (length (ts_columns ls)) in
  with_table_scopes (jp_scopes ctx) (ctx_new (l ++ r) (jp_schema ctx)).

Lemma eval_left_side (e : Expr) : expr_only_refs (Some ls) e = true -> eval pair_ctx e = eval (ctx_new l (Some ls)) e.
Proof.
  apply eval_same; [done..|]. intros q name (i & Hi & Hlt)%position_has.
  unfold pair_ctx. cbn [build_join_predicate_ctx jp_scopes jp_schema merge_schema].
  rewrite (resolve_unambiguous (ts_columns ls ++ ts_columns rs) _ _ _ q name i) by (done || rewrite position_app, Hi; done).
  change (ctx_new l (Some ls)) with (with_table_scopes [] (ctx_new (DB := DB) l (Some ls))).
  rewrite (resolve_unambiguous (ts_columns ls) _ _ _ q name i); [by rewrite cell_app_l by lia | done | | done].
  rewrite map_app in names. by apply NoDup_app in names as [? _].
Qed.

Lemma eval_right_side (e : Expr) : expr_only_refs (Some rs) e = true -> eval pair_ctx e = eval (ctx_new r (Some rs)) e.
Proof.
  apply eval_same; [done..|]. intros q name (i & Hi & Hlt)%position_has.
  assert (column_position (ts_columns ls) name = None) as Hl.
  { destruct (column_position (ts_columns ls) name) as [j|] eqn:E; [|done]. exfalso. rewrite map_app in names.
    apply NoDup_app in names as (_ & Hd & _). apply position_lookup in E as (c & Hc & <-). apply position_lookup in Hi as (d & Hd' & E).
    apply (Hd (tc_name c)); [apply list_elem_of_fmap; exists c; split; [done | by eapply list_elem_of_lookup_2]|].
    rewrite <- E. apply list_elem_of_fmap. exists d. split; [done | by eapply list_elem_of_lookup_2]. }
  unfold pair_ctx. cbn [build_join_predicate_ctx jp_scopes jp_schema merge_schema].
  rewrite (resolve_unambiguous (ts_columns ls ++ ts_columns rs) _ _ _ q name (length (ts_columns ls) + i))
    by (done || (rewrite position_app, Hl, Hi; done)).
  change (ctx_new r (Some rs)) with (with_table_scopes [] (ctx_new (DB := DB) r (Some rs))).
  rewrite (resolve_unambiguous (ts_columns rs) _ _ _ q name i); [by rewrite <- shape, cell_app_r | done | | done].
  rewrite map_app in names. by apply NoDup_app in names as (_ & _ & ?).
Qed.

End Sides.

End Unambiguous.

(** ** Keys *)

Section Keys.
  Context {DB : Type} {world : World DB} {std : StdLib} {crates : Crates} {js : Json}.

(** Keys of one type; floats are left out, whose texts and values disagree on
    zeros and on large integers. *)
Definition joinable (v w : Value) : bool :=
  is_null v || is_null w ||
  match v, w with
  | Value_Int a, Value_Int b => in_i64 a && in_i64 b
  | Value_Text _, Value_Text _ | Value_Bool _, Value_Bool _ => true
  | _, _ => false
  end.

Definition comparable (m1 m2 : Eval Value) : bool :=
  match m1, m2 with
  | Some (Ok v), Some (Ok w) => joinable v w
  | Some _, Some _ => true
  | _, _ => false
  end.

Definition wire_key (m : Eval Value) : option bytes := match m with Some (Ok v) => to_wire_bytes v | _ => None end.

Lemma to_dec_inj (a b : Z) : is_i64 a -> is_i64 b -> to_dec a = to_dec b -> a = b.
Proof. intros Ha Hb H. apply (f_equal parse_i64) in H. rewrite !parse_i64_to_dec in H by done. by injection H. Qed.

Lemma joinable_eq (v w : Value) :
  joinable v w = true -> is_null v = false -> is_null w = false ->
  compare_op v w (fun c => c =? 0) = Ok (Value_Bool (key_eqb (to_wire_bytes v) (to_wire_bytes w))).
Proof.
  unfold joinable, compare_op. intros Hj Hv Hw. rewrite Hv, Hw in *. cbn [orb] in *.
  destruct v, w; try done; cbn [value_compare to_wire_bytes key_eqb]; do 2 f_equal.
  - apply andb_true_iff in Hj as [Ha%in_i64_spec Hb%in_i64_spec]. destruct (Z.compare_spec n n0) as [->|Hn|Hn].
    + by rewrite bool_decide_eq_true_2.
    + rewrite bool_decide_eq_false_2; [done|]. intros H%as_bytes_inj%to_dec_inj; [lia | done | done].
    + rewrite bool_decide_eq_false_2; [done|]. intros H%as_bytes_inj%to_dec_inj; [lia | done | done].
  - destruct (bytes_cmp (as_bytes s) (as_bytes s0)) eqn:E.
    + apply bytes_cmp_eq in E. by rewrite bool_decide_eq_true_2.
    + rewrite bool_decide_eq_false_2; [done|]. intros H%bytes_cmp_eq. congruence.
    + rewrite bool_decide_eq_false_2; [done|]. intros H%bytes_cmp_eq. congruence.
  - by destruct b, b0.
Qed.

Lemma key_eqb_sym (a b : option bytes) : key_eqb a b = key_eqb b a.
Proof. destruct a, b; try done. cbn. apply bool_decide_ext. split; congruence. Qed.

(** An equality of comparable keys is that of their texts. *)
Lemma equality_of_keys (m1 m2 : Eval Value) :
  comparable m1 m2 = true ->
  is_truthy <$> unwrap_or (Value_Bool false) (eval_binop BinOp_Eq m1 m2) = Some (key_eqb (wire_key m1) (wire_key m2)).
Proof.
  destruct m1 as [[v|e1]|], m2 as [[w|e2]|]; try done; cbn [comparable wire_key]; intros Hj.
  - destruct (is_null v) eqn:Hv; [by destruct v|]. destruct (is_null w) eqn:Hw; [by destruct v, w|].
    cbn [eval_binop ebind apply_binop]. rewrite joinable_eq by done. done.
  - cbn. by destruct (to_wire_bytes v).
Qed.

Lemma comparable_sym (m1 m2 : Eval Value) : comparable m1 m2 = comparable m2 m1.
Proof.
  destruct m1 as [[v|]|], m2 as [[w|]|]; try done. cbn. unfold joinable. destruct v, w; try done; cbn. apply andb_comm.
Qed.

End Keys.

(** ** The strategies agree *)

Section Agreement.
  Context {DB : Type} {world : World DB} {std : StdLib} {crates : Crates} {js : Json}.
  Context (gpu_pairs : Expr -> option TableSchema -> option TableSchema -> list Row -> list Row -> option (list (nat * nat))).
  Context (ls rs : TableSchema) (scopes : list Scope) (alias : string) (left_rows right_rows : list Row) (on_expr lk rk : Expr).

(** The predicate of the nested loops. *)
Definition pair_pred (l r : Row) : option bool :=
  eval_join_predicate on_expr l r (build_join_predicate_ctx (Some ls) (Some rs) scopes alias (length (ts_columns ls))).

Let left_eval (l : Row) := eval (ctx_new (DB := DB) l (Some ls)) lk.
Let right_eval (r : Row) := eval (ctx_new (DB := DB) r (Some rs)) rk.

  Hypothesis names : NoDup (map tc_name (ts_columns ls ++ ts_columns rs)).
  Hypothesis shape : forall l, In l left_rows -> length l = length (ts_columns ls).
  Hypothesis split : split_join_keys on_expr (Some ls) (Some rs) = Some (lk, rk).
  Hypothesis no_panic : (forall l, In l left_rows -> left_eval l <> None) /\ (forall r, In r right_rows -> right_eval r <> None).
  Hypothesis keys : forall l r, In l left_rows -> In r right_rows -> comparable (left_eval l) (right_eval r) = true.

Lemma pair_pred_keys (l r : Row) :
  In l left_rows -> In r right_rows -> pair_pred l r = Some (key_eqb (wire_key (left_eval l)) (wire_key (right_eval r))).
Proof.
  intros Hl Hr. specialize (keys l r Hl Hr). specialize (shape l Hl). unfold pair_pred, eval_join_predicate.
  fold (pair_ctx (DB := DB) ls rs scopes alias l r). destruct on_expr; try done. unfold split_join_keys in split. destruct op; try done.
  cbn [eval]. destruct (expr_only_refs (Some ls) e1 && _) eqn:E1.
  - injection split as <- <-. apply andb_true_iff in E1 as [H1 H2]. rewrite (eval_left_side ls rs scopes alias l r names shape _ H1).
    rewrite (eval_right_side ls rs scopes alias l r names shape _ H2). by apply equality_of_keys.
  - destruct (expr_only_refs (Some ls) e2 && _) eqn:E2; [|done]. injection split as <- <-. apply andb_true_iff in E2 as [H1 H2].
    rewrite (eval_left_side ls rs scopes alias l r names shape _ H1), (eval_right_side ls rs scopes alias l r names shape _ H2).
    rewrite key_eqb_sym. apply equality_of_keys. by rewrite comparable_sym.
Qed.

Lemma left_key_total (l : Row) : In l left_rows -> join_key (Some ls) lk l = Some (wire_key (left_eval l)).
Proof. intros Hl. destruct no_panic as [H _]. specialize (H l Hl). unfold join_key. subst left_eval. cbv beta in *. by destruct (eval _ lk) as [[]|]. Qed.

Lemma right_key_total (r : Row) : In r right_rows -> join_key (Some rs) rk r = Some (wire_key (right_eval r)).
Proof. intros Hr. destruct no_panic as [_ H]. specialize (H r Hr). unfold join_key. subst right_eval. cbv beta in *. by destruct (eval _ rk) as [[]|]. Qed.

Lemma hash_is_nested (pad : option (Row -> Row)) :
  hash_loop left_rows right_rows (join_key (Some ls) lk) (join_key (Some rs) rk) left_first pad
  = nested_loop left_rows right_rows pair_pred left_first pad
  /\ hash_loop right_rows left_rows (join_key (Some rs) rk) (join_key (Some ls) lk) right_first pad
     = nested_loop right_rows left_rows (fun r l => pair_pred l r) right_first pad.
Proof.
  split.
  - rewrite (hash_loop_total _ _ _ _ _ _ _ _ left_key_total right_key_total). symmetry. apply nested_loop_total. apply pair_pred_keys.
  - rewrite (hash_loop_total _ _ _ _ _ _ _ _ right_key_total left_key_total). symmetry. apply nested_loop_total.
    intros r l Hr Hl. rewrite key_eqb_sym. by apply pair_pred_keys.
Qed.

(** C16. The join strategies agree. Where no two columns of the joined tables have
    one name and the keys are integers, texts or truth values of one type, NULL
    or errors, the hash joins that an equality gets return what the nested
    loops over its predicate return: an inner join the same rows in some order,
    a left or a right join the same rows in the same order, with the rows that
    have no match padded with NULLs. *)
Theorem hash_joins_are_nested_loops :
  let join ty := apply_join gpu_pairs left_rows right_rows ty (Some on_expr) (Some ls) (Some rs) scopes alias in
  (exists rows rows', join JoinType_Inner = Some rows
     /\ nested_loop left_rows right_rows pair_pred left_first None = Some rows' /\ Permutation rows rows')
  /\ join JoinType_Left
     = nested_loop left_rows right_rows pair_pred left_first (Some (fun l => l ++ nulls (length (ts_columns rs))))
  /\ join JoinType_Right
     = nested_loop right_rows left_rows (fun r l => pair_pred l r) right_first (Some (fun r => nulls (length (ts_columns ls)) ++ r)).
Proof.
  cbv zeta. unfold apply_join. rewrite split. cbn [columns_of]. split_and!; [|apply hash_is_nested..].
  set (p l r := key_eqb (wire_key (left_eval l)) (wire_key (right_eval r))).
  assert (nested_loop left_rows right_rows pair_pred left_first None = Some (concat (map (combined p right_rows left_first None) left_rows))) as Hn
    by (apply nested_loop_total; apply pair_pred_keys).
  unfold hash_equi_join. destruct (_ <=? _)%nat.
  - rewrite (proj1 (hash_is_nested None)), Hn. eexists _, _. done.
  - rewrite (proj2 (hash_is_nested None)).
    rewrite (nested_loop_total right_rows left_rows _ (fun r l => p l r)) by (intros r l Hr Hl; by apply pair_pred_keys).
    rewrite Hn. eexists _, _. split_and!; [done..|]. apply swap_sides.
Qed.

End Agreement.

(** ** Where they do not *)

Section Misread.
  Context {DB : Type} {world : World DB} {std : StdLib} {crates : Crates} {js : Json}.
  Context (gpu_pairs : Expr -> option TableSchema -> option TableSchema -> list Row -> list Row -> option (list (nat * nat))).

Lemma join_key_unqualified (schema : option TableSchema) (q1 q2 name : string) (row : Row) :
  join_key (DB := DB) schema (Expr_QualifiedIdent q1 name) row = join_key (DB := DB) schema (Expr_QualifiedIdent q2 name) row.
Proof. done. Qed.

(** Qualifiers are ignored in the keys of a hash join. When both tables have
    the columns [x] and [y], as in the join of a table with itself, the
    condition [b.x = a.y] gives the rows of [a.x = b.y], for every kind of
    join and all rows. *)
Theorem join_keys_ignore_qualifiers (left_rows right_rows : list Row) (ty : JoinType) (ls rs : option TableSchema)
    (scopes : list Scope) (a b x y : string) :
  has_col ls x = true -> has_col ls y = true -> has_col rs x = true -> has_col rs y = true ->
  apply_join gpu_pairs left_rows right_rows ty
    (Some (Expr_BinaryOp BinOp_Eq (Expr_QualifiedIdent b x) (Expr_QualifiedIdent a y))) ls rs scopes b
  = apply_join gpu_pairs left_rows right_rows ty
    (Some (Expr_BinaryOp BinOp_Eq (Expr_QualifiedIdent a x) (Expr_QualifiedIdent b y))) ls rs scopes b.
Proof.
  intros Hlx Hly Hrx Hry. unfold apply_join, split_join_keys. cbn [expr_only_refs]. rewrite Hlx, Hry. cbn [andb].
  by destruct ty.
Qed.

End Misread.

(** ** Examples *)

Definition no_gpu (on_expr : Expr) (ls rs : option TableSchema) (l r : list Row) : option (list (nat * nat)) := None.

Definition orders : list Row := map row_of [["1"; "7"]; ["2"; "8"]; ["3"; "NULL"]]%string.
Definition customers : list Row := map row_of [["7"; "ann"]; ["9"; "bob"]]%string.

Lemma hash_joins_are_nested_loops_witness :
  let on := Expr_BinaryOp BinOp_Eq (Expr_QualifiedIdent "c" "cid") (Expr_QualifiedIdent "o" "customer") in
  apply_join no_gpu orders customers JoinType_Left (Some on) (Some (table_of "orders" ["id"; "customer"]%string))
    (Some (table_of "customers" ["cid"; "name"]%string)) [] "c"
  = Some (map row_of [["1"; "7"; "7"; "ann"]; ["2"; "8"; "NULL"; "NULL"]; ["3"; "NULL"; "NULL"; "NULL"]]%string)
  /\ apply_join no_gpu orders customers JoinType_Left (Some on) (Some (table_of "orders" ["id"; "customer"]%string))
       (Some (table_of "customers" ["cid"; "name"]%string)) [] "c"
     = nested_loop orders customers
         (pair_pred (table_of "orders" ["id"; "customer"]%string) (table_of "customers" ["cid"; "name"]%string) [] "c" on)
         left_first (Some (fun l => l ++ nulls 2)).
Proof.
  split; [vm_compute; reflexivity|].
  refine (proj1 (proj2 (hash_joins_are_nested_loops no_gpu (table_of "orders" ["id"; "customer"]%string)
    (table_of "customers" ["cid"; "name"]%string) [] "c" orders customers
    (Expr_BinaryOp BinOp_Eq (Expr_QualifiedIdent "c" "cid") (Expr_QualifiedIdent "o" "customer"))
    (Expr_QualifiedIdent "o" "customer") (Expr_QualifiedIdent "c" "cid") _ _ _ _ _))).
  - vm_compute. repeat (apply NoDup_cons; split; [intros H; repeat (inversion H as [|? ? ? H' ]; clear H; rename H' into H)|]); constructor.
  - intros l Hl. repeat destruct Hl as [<-|Hl]; done.
  - vm_compute. reflexivity.
  - split; intros l Hl; repeat destruct Hl as [<-|Hl]; done.
  - intros l r Hl Hr. repeat destruct Hl as [<-|Hl]; try done; repeat destruct Hr as [<-|Hr]; done.
Defined.

(** Employees and their managers, [FROM emp e JOIN emp m ON m.id = e.manager]:
    employee 2 has manager 1, and the join says that 1 has manager 2. *)
Lemma join_keys_ignore_qualifiers_witness :
  let emp := Some (table_of "emp" ["id"; "manager"]%string) in
  let rows := map row_of [["1"; "NULL"]; ["2"; "1"]]%string in
  let scopes := [("e"%string, (0%nat, 2%nat))] in
  let on := Expr_BinaryOp BinOp_Eq (Expr_QualifiedIdent "m" "id") (Expr_QualifiedIdent "e" "manager") in
  let swapped := Expr_BinaryOp BinOp_Eq (Expr_QualifiedIdent "e" "id") (Expr_QualifiedIdent "m" "manager") in
  nested_loop rows rows (fun l r => eval_join_predicate on l r (build_join_predicate_ctx emp emp scopes "m" 2)) left_first None
  = Some [row_of ["2"; "1"; "1"; "NULL"]%string]
  /\ apply_join no_gpu rows rows JoinType_Inner (Some on) emp emp scopes "m" = Some [row_of ["1"; "NULL"; "2"; "1"]%string]
  /\ apply_join no_gpu rows rows JoinType_Inner (Some on) emp emp scopes "m"
     = apply_join no_gpu rows rows JoinType_Inner (Some swapped) emp emp scopes "m".
Proof.
  split; [vm_compute; reflexivity|]. split; [vm_compute; reflexivity|].
  apply (join_keys_ignore_qualifiers no_gpu); vm_compute; reflexivity.
Defined.
