(* ===== verification/Sorting.v ===== *)
(** What the executor relies on of [slice::sort_by].

    The sort is stable and, when the comparison is a total preorder on the
    elements, sorts them; otherwise it leaves them in some order, or panics. A
    comparison may itself panic ([None]). [SortBy] states it, [insertion] is a
    sort that meets it, and [stable_sort] the one result that it can have. *)

From Stdlib Require Import Lia Bool Permutation Sorted.
From stdpp Require Import base list.
From S2P Require Import Prelude.

Section Stable.
  Context {A : Type} (f : A -> A -> comparison).

Definition not_greater (a b : A) : Prop := f a b <> Gt.

Fixpoint insert_sorted (x : A) (l : list A) : list A :=
  match l with
  | [] => [x]
  | y :: l' => match f x y with Gt => y :: insert_sorted x l' | _ => x :: y :: l' end
  end.

Fixpoint stable_sort (l : list A) : list A :=
  match l with
  | [] => []
  | x :: l' => insert_sorted x (stable_sort l')
  end.

Record total_preorder (l : list A) : Prop := mkTotalPreorder {
  tp_opposite : forall a b, In a l -> In b l -> f b a = CompOpp (f a b);
  tp_trans : forall a b c, In a l -> In b l -> In c l -> not_greater a b -> not_greater b c -> not_greater a c;
}.

Lemma total_preorder_sub (l l' : list A) : (forall x, In x l' -> In x l) -> total_preorder l -> total_preorder l'.
Proof. intros Hs [Ho Ht]. split; eauto. Qed.

Lemma insert_sorted_perm (x : A) (l : list A) : Permutation (x :: l) (insert_sorted x l).
Proof.
  induction l as [|y l IH]; [done|]. cbn. destruct (f x y); try done. rewrite <- IH. apply perm_swap.
Qed.

Lemma stable_sort_perm (l : list A) : Permutation l (stable_sort l).
Proof. induction l as [|x l IH]; [done|]. cbn. rewrite <- insert_sorted_perm. by constructor. Qed.

Lemma stable_sort_in (x : A) (l : list A) : In x (stable_sort l) <-> In x l.
Proof. split; apply Permutation_in; [symmetry|]; apply stable_sort_perm. Qed.

Lemma insert_sorted_sorted (x : A) (l : list A) :
  total_preorder (x :: l) -> StronglySorted not_greater l -> StronglySorted not_greater (insert_sorted x l).
Proof.
  induction l as [|y l IH]; intros Hp Hs; [repeat constructor|]. apply StronglySorted_inv in Hs as [Hs Hy]. cbn.
  assert (f x y <> Gt -> StronglySorted not_greater (x :: y :: l)) as Hle.
  { intros Hxy. constructor; [by constructor|]. constructor; [done|]. apply Forall_forall. intros z Hz%list_elem_of_In.
    rewrite Forall_forall in Hy. apply (tp_trans _ Hp x y z); [by left | right; by left | right; by right | done|].
    apply Hy. by apply list_elem_of_In. }
  destruct (f x y) eqn:E; [by apply Hle | by apply Hle|].
  constructor; [apply IH; [|done]; eapply total_preorder_sub; [|done]; intros z [->|Hz]; [by left | by right; right]|].
  rewrite <- insert_sorted_perm. constructor; [|done]. unfold not_greater.
  rewrite (tp_opposite _ Hp x y) by (by left + (right; by left)). by rewrite E.
Qed.

Lemma stable_sort_sorted (l : list A) : total_preorder l -> StronglySorted not_greater (stable_sort l).
Proof.
  induction l as [|x l IH]; intros Hp; [constructor|]. cbn. apply insert_sorted_sorted.
  - eapply total_preorder_sub; [|done]. intros z [->|Hz]; [by left|]. right. by apply stable_sort_in.
  - apply IH. eapply total_preorder_sub; [|done]. by right.
Qed.

(** Elements that are equal to [z] keep their order. *)
Definition equal_to (z : A) (x : A) : bool := match f z x with Eq => true | _ => false end.

Lemma insert_sorted_stable (z x : A) (l : list A) :
  total_preorder (z :: x :: l) ->
  List.filter (equal_to z) (insert_sorted x l) = List.filter (equal_to z) (x :: l).
Proof.
  induction l as [|y l IH]; intros Hp; [done|]. cbn [insert_sorted]. destruct (f x y) eqn:E; try done. cbn [List.filter].
  rewrite IH by (eapply total_preorder_sub; [|done]; cbn; tauto). cbn [List.filter].
  destruct (equal_to z x) eqn:Ex, (equal_to z y) eqn:Ey; try done. exfalso. unfold equal_to in Ex, Ey.
  destruct (f z x) eqn:Zx; try done. destruct (f z y) eqn:Zy; try done.
  apply (tp_trans _ Hp x z y); cbn; try tauto; unfold not_greater.
  - rewrite (tp_opposite _ Hp z x) by (cbn; tauto). by rewrite Zx.
  - by rewrite Zy.
Qed.

Lemma stable_sort_stable (z : A) (l : list A) :
  total_preorder (z :: l) -> List.filter (equal_to z) (stable_sort l) = List.filter (equal_to z) l.
Proof.
  induction l as [|x l IH]; intros Hp; [done|]. cbn [stable_sort]. rewrite insert_sorted_stable.
  - cbn [List.filter]. rewrite IH; [done|]. eapply total_preorder_sub; [|done]. cbn. tauto.
  - eapply total_preorder_sub; [|done]. cbn. intros w. rewrite stable_sort_in. tauto.
Qed.

End Stable.

(** The documented behaviour of [slice::sort_by]. *)
Class SortBy := {
  slice_sort : forall {A : Type}, (A -> A -> option comparison) -> list A -> option (list A);
  slice_sort_permutes : forall {A : Type} (cmp : A -> A -> option comparison) (l l' : list A),
    slice_sort cmp l = Some l' -> Permutation l l';
  slice_sort_sorts : forall {A : Type} (cmp : A -> A -> option comparison) (f : A -> A -> comparison) (l : list A),
    (forall a b, In a l -> In b l -> cmp a b = Some (f a b)) -> total_preorder f l -> slice_sort cmp l = Some (stable_sort f l);
}.

Section Insertion.
  Context {A : Type} (cmp : A -> A -> option comparison).

Fixpoint insert_cmp (x : A) (l : list A) : option (list A) :=
  match l with
  | [] => Some [x]
  | y :: l' => match cmp x y with
               | Some Gt => l'' ← insert_cmp x l'; Some (y :: l'')
               | Some _ => Some (x :: y :: l')
               | None => None
               end
  end.

Fixpoint insertion_sort (l : list A) : option (list A) :=
  match l with
  | [] => Some []
  | x :: l' => l'' ← insertion_sort l'; insert_cmp x l''
  end.

Lemma insert_cmp_perm (x : A) (l l' : list A) : insert_cmp x l = Some l' -> Permutation (x :: l) l'.
Proof.
  revert l'. induction l as [|y l IH]; intros l'; cbn; [by intros [= <-]|]. destruct (cmp x y) as [[]|]; try (by intros [= <-]).
  destruct (insert_cmp x l) as [l2|]; [|done]. intros [= <-]. rewrite <- (IH l2) by done. apply perm_swap.
Qed.

Lemma insertion_sort_perm (l l' : list A) : insertion_sort l = Some l' -> Permutation l l'.
Proof.
  revert l'. induction l as [|x l IH]; intros l'; cbn; [by intros [= <-]|].
  destruct (insertion_sort l) as [l2|]; [|done]. intros H%insert_cmp_perm. rewrite <- H. constructor. by apply IH.
Qed.

Lemma insert_cmp_total (f : A -> A -> comparison) (x : A) (l : list A) :
  (forall y, In y l -> cmp x y = Some (f x y)) -> insert_cmp x l = Some (insert_sorted f x l).
Proof.
  induction l as [|y l IH]; intros H; [done|]. cbn. rewrite (H y) by (by left). destruct (f x y); try done.
  rewrite IH by (intros; apply H; by right). done.
Qed.

Lemma insertion_sort_total (f : A -> A -> comparison) (l : list A) :
  (forall a b, In a l -> In b l -> cmp a b = Some (f a b)) -> insertion_sort l = Some (stable_sort f l).
Proof.
  induction l as [|x l IH]; intros H; [done|]. cbn. rewrite IH by (intros; apply H; by right). cbn.
  apply insert_cmp_total. intros y Hy%stable_sort_in. apply H; [by left | by right].
Qed.

End Insertion.

#[export] Instance insertion : SortBy.
Proof.
  refine {| slice_sort A cmp l := insertion_sort cmp l |}.
  - intros A cmp l l'. apply insertion_sort_perm.
  - intros A cmp f l H _. by apply insertion_sort_total.
Defined.
