(* ===== verification/Windows.v ===== *)
(** Window functions ([executor/select.rs], from [apply_window_functions] on).

    The rows are sorted by the partition and order keys, cut into partitions
    where the partition keys change, and every row gets one value. [order] holds
    indices into [rows], as in the code; a lookup out of range is a panic.
    Integers of 64 bits wrap, as they do in a release build.

    Theorems: [ROW_NUMBER] numbers the rows of a partition, [RANK] is one more
    than the number of rows before the first peer and [DENSE_RANK] the number of
    groups of peers so far; the frame of a row lies within its partition. *)

From Stdlib Require Import Strings.Byte Strings.String ZArith Lia Bool Permutation Sorted.
From stdpp Require Import base list strings.
From S2P Require Import Prelude OrdMap Utf8 Decimal Compress Flux Jsonb Ast Lexer Float Values JsonOps Eval Joins Sorting.

Open Scope Z_scope.
Open Scope eval_scope.

Definition ob_expr (o : OrderBy) : Expr := let 'mkOrderBy e _ := o in e.
Definition ob_asc (o : OrderBy) : bool := let 'mkOrderBy _ a := o in a.

(** A panic is one in an evaluation. *)
Definition lift {A : Type} (o : option A) : Eval A := match o with Some a => done a | None => panics end.

Section Windows.
  Context {DB : Type} {world : World DB} {std : StdLib} {crates : Crates} {js : Json} {sorts : SortBy}.

(** [row.eval(e).unwrap_or(Value::Null)] *)
Definition key_of (row : RowContext DB) (e : Expr) : option Value := unwrap_or Value_Null (eval row e).

(** The comparison of the sorts: the first key that tells the rows apart
    decides; what cannot be compared, NULL above all, counts as equal. *)
Fixpoint compare_rows (keys : list (Expr * bool)) (a b : RowContext DB) : option comparison :=
  match keys with
  | [] => Some Eq
  | (e, asc) :: keys' =>
      va ← key_of a e;
      vb ← key_of b e;
      let c := match value_compare va vb with Ok c => c | Err _ => 0 end in
      if c =? 0 then compare_rows keys' a b
      else Some (if eqb asc (c <? 0) then Lt else Gt)
  end.

(** [exprs.iter().all(..)] with the test for equal values, NULL included. *)
Fixpoint same_keys (exprs : list Expr) (a b : RowContext DB) : option bool :=
  match exprs with
  | [] => Some true
  | e :: exprs' =>
      va ← key_of a e;
      vb ← key_of b e;
      if compares_equal va vb then same_keys exprs' a b else Some false
  end.

(** *** Windows of an expression *)

Fixpoint collect_window_exprs (e : Expr) : list Expr :=
  match e with
  | Expr_Window _ _ _ _ _ => [e]
  | Expr_Function _ args _ => concat (map collect_window_exprs args)
  | Expr_BinaryOp _ lhs rhs => collect_window_exprs lhs ++ collect_window_exprs rhs
  | Expr_UnaryOp _ e => collect_window_exprs e
  | Expr_IsNull e _ | Expr_IsTrue e _ | Expr_IsFalse e _ => collect_window_exprs e
  | Expr_Between e low high _ => collect_window_exprs e ++ collect_window_exprs low ++ collect_window_exprs high
  | Expr_Like e pattern _ => collect_window_exprs e ++ collect_window_exprs pattern
  | Expr_In e list _ =>
      collect_window_exprs e ++ match list with InList_Exprs v => concat (map collect_window_exprs v) | InList_Subquery _ => [] end
  | Expr_Cast e _ => collect_window_exprs e
  | Expr_Case operand branches else_ =>
      match operand with Some e => collect_window_exprs e | None => [] end
      ++ concat (map (fun b => collect_window_exprs (fst b) ++ collect_window_exprs (snd b)) branches)
      ++ match else_ with Some e => collect_window_exprs e | None => [] end
  | _ => []
  end.

(** *** Partitions *)

(** [rows[order[k]]] *)
Definition row_at (rows : list (RowContext DB)) (order : list nat) (k : nat) : option (RowContext DB) :=
  idx ← order !! k; rows !! idx.

Definition same_at (rows : list (RowContext DB)) (order : list nat) (exprs : list Expr) (i j : nat) : option bool :=
  a ← row_at rows order i; b ← row_at rows order j; same_keys exprs a b.

(** The loop over [i] in [1..len] with [start]; [todo] counts what is left. *)
Fixpoint cut (same : nat -> nat -> option bool) (start i todo : nat) : option (list (nat * nat)) :=
  match todo with
  | O => Some [(start, i)]
  | S todo' =>
      b ← same (i - 1)%nat i;
      if (b : bool) then cut same start (S i) todo'
      else ranges ← cut same i (S i) todo'; Some ((start, i) :: ranges)
  end.

Definition partition_ranges (rows : list (RowContext DB)) (order : list nat) (partition_by : list Expr) : option (list (nat * nat)) :=
  cut (same_at rows order partition_by) 0 1 (length order - 1).

(** *** Frames *)

Definition frame_offset_int (offset : option Expr) : Eval Z :=
  match offset with
  | Some e =>
      let* v := eval_expr (DB := DB) e [] in
      done (match v with Value_Int n => n | Value_Float f => f_to_i64 f | _ => 0 end)
  | None => done 0
  end.

Definition frame_bound_offset (bound : FrameBound) (pos part_len : Z) : Eval Z :=
  let 'mkFrameBound ty offset := bound in
  match ty with
  | FrameBoundType_UnboundedPreceding => done (- pos)
  | FrameBoundType_UnboundedFollowing => done (part_len - 1 - pos)
  | FrameBoundType_CurrentRow => done 0
  | FrameBoundType_Preceding => let* n := frame_offset_int offset in done (i64_wrap (- n))
  | FrameBoundType_Following => frame_offset_int offset
  end.

(** The last of the peers that follow the row at [end_]. *)
Fixpoint peer_end (rows : list (RowContext DB)) (order : list nat) (order_by : list OrderBy) (end_ todo : nat) : option nat :=
  match todo with
  | O => Some end_
  | S todo' =>
      b ← same_at rows order (map ob_expr order_by) end_ (S end_);
      if (b : bool) then peer_end rows order order_by (S end_) todo' else Some end_
  end.

Definition resolve_frame_bounds (frame : option WindowFrame) (order_by : list OrderBy) (rows : list (RowContext DB))
    (order : list nat) (part_start part_end pos : nat) : Eval (nat * nat) :=
  match frame with
  | None =>
      match order_by with
      | [] => done (part_start, part_end)
      | _ =>
          let i := (part_start + pos)%nat in
          let* e := lift (peer_end rows order order_by i (part_end - (i + 1))) in
          done (part_start, S e)
      end
  | Some (mkWindowFrame _ start end_) =>
      let part_len := Z.of_nat (part_end - part_start) in
      let* start_rel := frame_bound_offset start (Z.of_nat pos) part_len in
      let* end_rel := match end_ with Some b => frame_bound_offset b (Z.of_nat pos) part_len | None => done 0 end in
      let at_ rel := clamp 0 (part_len - 1) (i64_wrap (Z.of_nat pos + rel)) in
      let lo := Z.min (at_ start_rel) (at_ end_rel) in
      let hi := Z.max (at_ start_rel) (at_ end_rel) in
      done ((part_start + Z.to_nat lo)%nat, (part_start + Z.to_nat hi + 1)%nat)
  end.

(** *** Values *)

(** [order[fs..fe]] with the cells of the rows. *)
Definition frame_rows (rows : list (RowContext DB)) (order : list nat) (fs fe : nat) : option (list Row) :=
  if (fs <=? fe)%nat && (fe <=? length order)%nat
  then mapM (fun idx => rc_values <$> rows !! idx) (take (fe - fs) (drop fs order))
  else None.

(** Rank and dense rank after the row at [k], for [k] up to the row itself. *)
Fixpoint rank_loop (same : nat -> nat -> option bool) (part_start k todo : nat) (rank dense : Z) : option (Z * Z) :=
  match todo with
  | O => Some (rank, dense)
  | S todo' =>
      b ← same (k - 1)%nat k;
      if (b : bool) then rank_loop same part_start (S k) todo' rank dense
      else rank_loop same part_start (S k) todo' (Z.of_nat (k - part_start) + 1) (dense + 1)
  end.

Definition ntile_bucket (pos n part_len : Z) : Z :=
  Z.min (i64_wrap (Z.quot (i64_wrap (pos * n)) (Z.max part_len 1) + 1)) n.

(** The nearest row of the list that has a number. *)
Fixpoint nearest (rows : list (RowContext DB)) (order : list nat) (arg : Expr) (ks : list nat) : option (option (nat * Z)) :=
  match ks with
  | [] => Some None
  | k :: ks' =>
      row ← row_at rows order k;
      match eval row arg with
      | None => None
      | Some (Ok v) => match value_as_f64 v with Ok f => Some (Some (k, f)) | Err _ => nearest rows order arg ks' end
      | Some (Err _) => nearest rows order arg ks'
      end
  end.

Definition f_count (n : nat) : Z := f_of_Z (Z.of_nat n).

Definition interpolated (i : nat) (before after : option (nat * Z)) : Value :=
  match before, after with
  | Some (bk, bv), Some (ak, av) => Value_Float (f_add bv (f_mul (f_sub av bv) (f_div (f_count (i - bk)) (f_count (ak - bk)))))
  | Some (_, bv), None => Value_Float bv
  | None, Some (_, av) => Value_Float av
  | None, None => Value_Null
  end.

Definition frame_aggregate (name : string) (arg : option Expr) (rows : list (RowContext DB)) (order : list nat) (fs fe : nat)
    (row : RowContext DB) : Eval Value :=
  let* members := lift (frame_rows rows order fs fe) in
  eval_aggregate name arg false members (rc_schema row) (rc_db row).

Definition compute_window_value (func : string) (args : list Expr) (frame : option WindowFrame) (order_by : list OrderBy)
    (rows : list (RowContext DB)) (order : list nat) (part_start part_end i pos : nat) : Eval Value :=
  let fname := to_lowercase func in
  let part_len := Z.of_nat (part_end - part_start) in
  let* row := lift (row_at rows order i) in
  if String.eqb fname "row_number" then done (Value_Int (Z.of_nat pos + 1))
  else if one_of fname ["rank"; "dense_rank"] then
    match order_by with
    | [] => done (Value_Int 1)
    | _ =>
        let* r := lift (rank_loop (same_at rows order (map ob_expr order_by)) part_start (S part_start) (i - part_start) 1 1) in
        done (Value_Int (if String.eqb fname "rank" then fst r else snd r))
    end
  else if String.eqb fname "ntile" then
    match args with
    | e :: _ =>
        let* v := eval row e in
        let* n := match v with
                  | Value_Int n => done n
                  | Value_Float f => done (f_to_i64 f)
                  | _ => fails "ntile() requires an integer argument"
                  end in
        if n <=? 0 then fails "ntile() argument must be positive"
        else done (Value_Int (ntile_bucket (Z.of_nat pos) n part_len))
    | [] => fails "ntile() requires an argument"
    end
  else if one_of fname ["lag"; "lead"] then
    match args with
    | arg :: more =>
        let* offset := match more with
                       | e :: _ =>
                           let* v := eval row e in
                           done (match v with Value_Int n => n | Value_Float f => f_to_i64 f | _ => 1 end)
                       | [] => done 1
                       end in
        let target_pos := i64_wrap (if String.eqb fname "lag" then Z.of_nat pos - offset else Z.of_nat pos + offset) in
        if (target_pos <? 0) || (part_len <=? target_pos) then
          match more with _ :: d :: _ => eval row d | _ => done Value_Null end
        else let* target := lift (row_at rows order (part_start + Z.to_nat target_pos)) in eval target arg
    | [] => fails (fname +:+ "() requires an argument")
    end
  else if one_of fname ["sum"; "avg"; "count"; "min"; "max"] then
    let* b := resolve_frame_bounds frame order_by rows order part_start part_end pos in
    let arg := if String.eqb fname "count" && is_star (head args) then None else head args in
    frame_aggregate fname arg rows order (fst b) (snd b) row
  else if String.eqb fname "interpolate" then
    match args with
    | arg :: _ =>
        let* current := eval row arg in
        if is_null current then
          let* before := lift (nearest rows order arg (rev (seq part_start (i - part_start)))) in
          let* after := lift (nearest rows order arg (seq (S i) (part_end - S i))) in
          done (interpolated i before after)
        else done current
    | [] => fails "interpolate() requires 1 argument"
    end
  else if String.eqb fname "moving_average" then
    match args with
    | value_arg :: size :: _ =>
        let* v := eval row size in
        let* window_size := match v with
                            | Value_Int n => done (Z.max n 1)
                            | Value_Float f => done (Z.max (f_to_i64 f) 1)
                            | _ => fails "moving_average() window_size must be an integer"
                            end in
        let fs := (part_start + Z.to_nat (Z.max 0 (Z.of_nat pos - (window_size - 1))))%nat in
        frame_aggregate "avg" (Some value_arg) rows order fs (S i) row
    | _ => fails "moving_average() requires 2 arguments (value, window_size)"
    end
  else fails ("window function " +:+ fname +:+ " is not supported").

(** The index of each row with its value. *)
Definition window_values (rows : list (RowContext DB)) (win : Expr) : Eval (list (nat * Value)) :=
  match win with
  | Expr_Window func args partition_by order_by frame =>
      let keys := map (fun p => (p, true)) partition_by ++ map (fun o => (ob_expr o, ob_asc o)) order_by in
      let cmp a b := ra ← rows !! a; rb ← rows !! b; compare_rows keys ra rb in
      let* order := lift (slice_sort cmp (seq 0 (length rows))) in
      let* ranges := lift (partition_ranges rows order partition_by) in
      let places := concat (map (fun r => map (pair r) (seq (fst r) (snd r - fst r))) ranges) in
      traverse (fun p : (nat * nat) * nat =>
        let '((part_start, part_end), i) := p in
        let* v := compute_window_value func args frame order_by rows order part_start part_end i (i - part_start) in
        let* idx := lift (order !! i) in
        done (idx, v)) places
  | _ => done []
  end.

(** [extra[idx].insert(key, value)]: the newest binding is found first. *)
Definition add_computed (win : Expr) (rows : list (RowContext DB)) (iv : nat * Value) : list (RowContext DB) :=
  alter (fun row => with_computed ((win, snd iv) :: default [] (rc_computed row)) row) (fst iv) rows.

Definition window_exprs (projections : list Projection) (order_by : list OrderBy) : list Expr :=
  concat (map (fun p => match p with Projection_Expr e _ => collect_window_exprs e | _ => [] end) projections)
  ++ concat (map (fun o => collect_window_exprs (ob_expr o)) order_by).

(** Every window is computed against the rows as they were; the values are
    attached at the end. *)
Definition apply_window_functions (projections : list Projection) (order_by : list OrderBy) (rows : list (RowContext DB)) : Eval (list (RowContext DB)) :=
  match window_exprs projections order_by, rows with
  | [], _ => done rows
  | _, [] => done rows
  | wins, _ =>
      let* values := traverse (fun w => let* vs := window_values rows w in done (map (pair w) vs)) wins in
      done (fold_left (fun rs wv => add_computed (fst wv) rs (snd wv)) (concat values) rows)
  end.

End Windows.
