(* ===== verification/Planner.v ===== *)
(** Planning ([executor/planner.rs]): the predicates that an index can answer,
    and the order of inner joins.

    [Catalog] is what the executor asks of the database: schemas, rows, indexes
    and statistics ([storage/database/]); a database is one state of it. The
    recognition of spatial predicates, which parses geometries, is part of it.

    Theorems: the order of joins is a permutation that keeps the joins from the
    first outer one on in place and joins no table before those that its
    condition names; and the predicate taken for an index lookup is looked up in
    the primary table whatever table its qualifier names. *)

From Stdlib Require Import Strings.Byte Strings.String ZArith Lia Bool Permutation.
From stdpp Require Import base list strings gmap.
From S2P Require Import Prelude OrdMap Utf8 Decimal Compress Flux Jsonb Ast Lexer Float Values JsonOps Eval Joins.

Open Scope Z_scope.
Open Scope eval_scope.

(** [Some (Some hits)]: the index answers; [Some None]: a spatial predicate
    without an index to answer it. *)
Class Catalog (DB Txn : Type) := {
  get_table : DB -> string -> Result (option TableSchema);
  txn_scan : DB -> option Txn -> string -> Result (list bytes);
  indexed_column : DB -> string -> string -> bool;
  index_lookup : DB -> string -> string -> bytes -> Result (option bytes);
  indexed_column_time : DB -> string -> string -> bool;
  time_range_query : DB -> string -> string -> Z -> Z -> option (list bytes);
  spatial_hits : DB -> string -> option Expr -> TableSchema -> option (option (list bytes));
  table_row_count_estimate : DB -> string -> option Z;
  virtual_table : DB -> string -> option (Result (TableSchema * list Row));
  graph_function : DB -> string -> list Expr -> list Value -> Eval (option TableSchema * list Row);
}.

(** [None] of an [Option] inside an evaluation, and [or_else]. *)
Definition absent {A : Type} : Eval A := fails EmptyString.
Definition or_else {A : Type} (m k : Eval A) : Eval A := match m with Some (Err _) => k | _ => m end.
Definition to_option {A : Type} (m : Eval A) : Eval (option A) :=
  match m with Some (Ok a) => done (Some a) | Some (Err _) => done None | None => panics end.
Definition of_option {A : Type} (o : option A) : Eval A := match o with Some a => done a | None => absent end.

Definition tr_alias (t : TableRef) : option string := let 'mkTableRef _ a _ _ := t in a.
Definition alias_of (t : TableRef) : string := default (tr_name t) (tr_alias t).
Definition j_type (j : Join) : JoinType := let 'mkJoin t _ _ := j in t.
Definition j_table (j : Join) : TableRef := let 'mkJoin _ t _ := j in t.
Definition j_on (j : Join) : option Expr := let 'mkJoin _ _ o := j in o.

Section Predicates.
  Context {DB : Type} {world : World DB} {std : StdLib} {crates : Crates} {js : Json}.

(** [RowContext::empty().eval(e).ok()?] *)
Definition constant (e : Expr) : Eval Value := eval (DB := DB) ctx_empty e.

Definition try_col_literal (col_expr lit_expr : Expr) (schema : TableSchema) : Eval (string * bytes) :=
  let* name := match col_expr with Expr_Ident n => done n | Expr_QualifiedIdent _ n => done n | _ => absent end in
  if has_col (Some schema) name then
    let* value := constant lit_expr in
    let* b := of_option (to_wire_bytes value) in
    done (name, b)
  else absent.

Fixpoint extract_eq (e : Expr) (schema : TableSchema) : Eval (string * bytes) :=
  match e with
  | Expr_BinaryOp BinOp_And lhs rhs => or_else (extract_eq lhs schema) (extract_eq rhs schema)
  | Expr_BinaryOp BinOp_Eq lhs rhs => or_else (try_col_literal lhs rhs schema) (try_col_literal rhs lhs schema)
  | _ => absent
  end.

Definition extract_equality_predicate (where_ : option Expr) (schema : TableSchema) : Eval (string * bytes) :=
  match where_ with Some e => extract_eq e schema | None => absent end.

Fixpoint flatten_and (e : Expr) : list Expr :=
  match e with
  | Expr_BinaryOp BinOp_And lhs rhs => flatten_and lhs ++ flatten_and rhs
  | _ => [e]
  end.

Definition ident_col (e : Expr) (schema : TableSchema) : Eval string :=
  let* name := match e with Expr_Ident n => done n | Expr_QualifiedIdent _ n => done n | _ => absent end in
  if has_col (Some schema) name then done name else absent.

Definition as_time (v : Value) : Eval Z :=
  match v with Value_Int n => done n | Value_Float f => done (f_to_i64 f) | _ => absent end.

Definition try_time_bucket_between (e : Expr) (schema : TableSchema) : Eval (string * (Z * Z)) :=
  match e with
  | Expr_Between inner low high false =>
      let* col := ident_col inner schema in
      let* l := constant low in
      let* t0 := as_time l in
      let* h := constant high in
      let* t1 := as_time h in
      done (col, (t0, t1))
  | _ => absent
  end.

(** [name.eq_ignore_ascii_case("time_bucket")] *)
Definition is_time_bucket (name : string) : bool := eq_ignore_ascii_case name "time_bucket".

Definition try_time_bucket_eq (e : Expr) (schema : TableSchema) : Eval (string * (Z * Z)) :=
  match e with
  | Expr_BinaryOp BinOp_Eq lhs rhs =>
      let '(bucket_expr, value_expr) :=
        match lhs with
        | Expr_Function name _ _ => if is_time_bucket name then (lhs, rhs) else (rhs, lhs)
        | _ => (rhs, lhs)
        end in
      match bucket_expr with
      | Expr_Function name [interval; column] _ =>
          if is_time_bucket name then
            let* i := constant interval in
            let* interval_ms := match i with Value_Text s => of_option (parse_interval s) | _ => absent end in
            let* col := ident_col column schema in
            let* v := constant value_expr in
            let* bucket_start := as_time v in
            done (col, (bucket_start, i64_wrap (i64_wrap (bucket_start + interval_ms) - 1)))
          else absent
      | _ => absent
      end
  | _ => absent
  end.

Fixpoint first_time_predicate (conjuncts : list Expr) (schema : TableSchema) : Eval (string * (Z * Z)) :=
  match conjuncts with
  | [] => absent
  | e :: conjuncts' =>
      or_else (try_time_bucket_between e schema)
        (or_else (try_time_bucket_eq e schema) (first_time_predicate conjuncts' schema))
  end.

Definition extract_time_bucket_predicate (where_ : option Expr) (schema : TableSchema) : Eval (string * (Z * Z)) :=
  match where_ with Some e => first_time_predicate (flatten_and e) schema | None => absent end.

End Predicates.

(** ** Join order *)

Definition Tables : Type := list (string * option TableSchema).

Fixpoint expr_dependencies (tables : Tables) (e : Expr) : option (gset string) :=
  match e with
  | Expr_Ident name =>
      match List.filter (fun t => has_col (snd t) name) tables with
      | [t] => Some {[ fst t ]}
      | _ => None
      end
  | Expr_QualifiedIdent alias _ => if existsb (fun t => String.eqb (fst t) alias) tables then Some {[ alias ]} else None
  | Expr_Literal _ | Expr_Param _ => Some ∅
  | Expr_BinaryOp _ lhs rhs => d1 ← expr_dependencies tables lhs; d2 ← expr_dependencies tables rhs; Some (d1 ∪ d2)
  | Expr_UnaryOp _ e | Expr_Cast e _ => expr_dependencies tables e
  | Expr_Function _ args _ =>
      fold_left (fun d a => d ← d; d' ← expr_dependencies tables a; Some (d ∪ d')) args (Some ∅)
  | Expr_Between e low high _ =>
      d1 ← expr_dependencies tables e; d2 ← expr_dependencies tables low; d3 ← expr_dependencies tables high; Some (d1 ∪ d2 ∪ d3)
  | Expr_IsNull e _ | Expr_IsTrue e _ | Expr_IsFalse e _ => expr_dependencies tables e
  | _ => None
  end.

Record Node := mkNode { n_alias : string; n_schema : option TableSchema; n_est_rows : Z }.

(** Of the joins that are ready the one with the smallest estimate, the first
    of those: the minimum by [(est_rows, i)]. *)
Fixpoint min_ready (est : nat -> Z) (ready : list nat) : option nat :=
  match ready with
  | [] => None
  | i :: ready' =>
      match min_ready est ready' with
      | Some j => Some (if (est j <? est i) || ((est j =? est i) && (j <? i)%nat) then j else i)
      | None => Some i
      end
  end.

(** The greedy schedule; [todo] is the number of joins that remain. *)
Fixpoint schedule (nodes : list Node) (deps : list (gset string)) (todo : nat) (scheduled : gset string) (remaining : list nat) : option (list nat) :=
  match todo with
  | O => Some []
  | S todo' =>
      let ready := List.filter (fun i => bool_decide (default ∅ (deps !! i) ⊆ scheduled)) remaining in
      next ← min_ready (fun i => default 0 (n_est_rows <$> nodes !! i)) ready;
      let alias := default EmptyString (n_alias <$> nodes !! next) in
      order ← schedule nodes deps todo' ({[ alias ]} ∪ scheduled) (List.filter (fun i => negb (Nat.eqb i next)) remaining);
      Some (next :: order)
  end.

Definition is_reorderable (j : Join) : bool := match j_type j with JoinType_Inner | JoinType_Cross => true | _ => false end.

Fixpoint prefix_length (joins : list Join) : nat :=
  match joins with
  | j :: joins' => if is_reorderable j then S (prefix_length joins') else O
  | [] => O
  end.

Definition join_deps (tables : Tables) (j : Join) (node : Node) : option (gset string) :=
  match j_on j with
  | None => Some ∅
  | Some e => d ← expr_dependencies tables e; Some (d ∖ {[ n_alias node ]})
  end.

Section Order.
  Context {DB Txn : Type} {catalog : Catalog DB Txn}.

Definition join_node (db : DB) (j : Join) : option Node :=
  let t := j_table j in
  match tr_subquery t, tr_func_args t with
  | None, None =>
      match get_table db (tr_name t) with
      | Ok (Some schema) => est ← table_row_count_estimate db (tr_name t); Some (mkNode (alias_of t) (Some schema) est)
      | _ => None
      end
  | _, _ => None
  end.

Definition planned_order (primary_alias : string) (primary_schema : option TableSchema) (joins : list Join) (db : DB) : option (list nat) :=
  let prefix_len := prefix_length joins in
  if (prefix_len <? 2)%nat then None
  else
    nodes ← mapM (join_node db) (take prefix_len joins);
    let all_tables := (primary_alias, primary_schema) :: map (fun n => (n_alias n, n_schema n)) nodes in
    deps ← mapM (fun jn => join_deps all_tables (fst jn) (snd jn)) (zip (take prefix_len joins) nodes);
    order ← schedule nodes deps prefix_len {[ primary_alias ]} (seq 0 prefix_len);
    Some (order ++ seq prefix_len (length joins - prefix_len)).

Definition reorder_inner_joins (primary_alias : string) (primary_schema : option TableSchema) (joins : list Join) (db : DB) : list nat :=
  default (seq 0 (length joins)) (planned_order primary_alias primary_schema joins db).

End Order.

(** ** The order is a schedule *)

Lemma min_ready_In (est : nat -> Z) (ready : list nat) (i : nat) : min_ready est ready = Some i -> In i ready.
Proof.
  revert i. induction ready as [|a ready IH]; intros i; cbn; [done|]. destruct (min_ready est ready) as [j|]; [|intros [= <-]; by left].
  intros [= <-]. case_match; [right; by apply IH | by left].
Qed.

Lemma remove_perm (x : nat) (l : list nat) :
  NoDup l -> In x l -> Permutation l (x :: List.filter (fun i => negb (Nat.eqb i x)) l) /\ NoDup (List.filter (fun i => negb (Nat.eqb i x)) l).
Proof.
  intros Hn Hx. induction Hn as [|a l Ha Hn IH]; [done|]. cbn.
  assert (~ In x l -> List.filter (fun i => negb (Nat.eqb i x)) l = l) as Hkeep.
  { clear. intros H. induction l as [|a l IH]; [done|]. cbn. destruct (Nat.eqb_spec a x) as [->|]; cbn; [by destruct H; left|]. f_equal. apply IH. intros ?. apply H. by right. }
  destruct (Nat.eqb_spec a x) as [->|Hne]; cbn.
  - rewrite Hkeep by (by rewrite <- list_elem_of_In). done.
  - destruct Hx as [->|Hx]; [done|]. destruct (IH Hx) as [H1 H2]. split; [rewrite H1 at 1; apply perm_swap|]. constructor; [|done].
    rewrite list_elem_of_In, filter_In. intros [H _]. by apply Ha, list_elem_of_In.
Qed.

Section Schedule.
  Context (nodes : list Node) (deps : list (gset string)).

Definition alias_at (i : nat) : string := default EmptyString (n_alias <$> nodes !! i).

Lemma schedule_spec (todo : nat) (scheduled : gset string) (remaining order : list nat) :
  NoDup remaining -> length remaining = todo -> schedule nodes deps todo scheduled remaining = Some order ->
  Permutation order remaining
  /\ forall k j, order !! k = Some j -> default ∅ (deps !! j) ⊆ scheduled ∪ list_to_set (map alias_at (take k order)).
Proof.
  revert scheduled remaining order. induction todo as [|todo IH]; intros scheduled remaining order Hn Hl H; cbn [schedule] in H.
  - injection H as <-. destruct remaining; [|done]. split; [done|]. intros k j Hk. by rewrite lookup_nil in Hk.
  - apply bind_Some in H as (next & Hnext & H). apply bind_Some in H as (rest & Hrest & [= <-]).
    apply min_ready_In, filter_In in Hnext as [Hin Hdeps]. apply bool_decide_eq_true_1 in Hdeps.
    destruct (remove_perm next remaining Hn Hin) as [Hp Hn'].
    destruct (IH _ _ _ Hn' ltac:(apply Permutation_length in Hp; cbn in Hp; lia) Hrest) as [Hperm Hk]. split; [rewrite Hp; by constructor|].
    intros [|k] j Hj; cbn [lookup list_lookup] in Hj.
    + injection Hj as <-. set_solver.
    + specialize (Hk k j Hj). fold (alias_at next) in Hk. cbn [take map list_to_set]. set_solver.
Qed.

End Schedule.

Section Plan.
  Context {DB Txn : Type} {catalog : Catalog DB Txn}.

Lemma prefix_length_le (joins : list Join) : (prefix_length joins <= length joins)%nat.
Proof. induction joins as [|j joins IH]; cbn; [done|]. case_match; lia. Qed.

(** Inner joins are reordered safely. The order of the joins is a permutation;
    from the first outer join on every join keeps its place; and when the joins
    before it are reordered, the condition of each names columns of the primary
    table, of tables joined before it and of its own table only. *)
Theorem join_order_is_a_schedule (primary_alias : string) (primary_schema : option TableSchema) (joins : list Join) (db : DB) :
  let order := reorder_inner_joins primary_alias primary_schema joins db in
  Permutation order (seq 0 (length joins))
  /\ (forall i, (prefix_length joins <= i < length joins)%nat -> order !! i = Some i)
  /\ (order = seq 0 (length joins)
      \/ exists nodes, mapM (join_node db) (take (prefix_length joins) joins) = Some nodes
           /\ forall k j jn e, (k < prefix_length joins)%nat -> order !! k = Some j -> joins !! j = Some jn -> j_on jn = Some e ->
                exists d, expr_dependencies ((primary_alias, primary_schema) :: map (fun n => (n_alias n, n_schema n)) nodes) e = Some d
                  /\ d ⊆ {[ primary_alias ]} ∪ list_to_set (map (alias_at nodes) (take (S k) order))).
Proof.
  cbv zeta. unfold reorder_inner_joins. pose proof (prefix_length_le joins) as Hpl.
  destruct (planned_order primary_alias primary_schema joins db) as [order|] eqn:E; cbn [from_option id].
  2: { split_and!; [done | intros i Hi; rewrite lookup_seq_lt by lia; done | by left]. }
  unfold planned_order in E. destruct (_ <? 2)%nat; [done|]. apply bind_Some in E as (nodes & Hnodes & E). apply bind_Some in E as (deps & Hdeps & E).
  apply bind_Some in E as (ord & Hord & [= <-]). set (n := prefix_length joins) in *.
  destruct (schedule_spec nodes deps n {[primary_alias]} (seq 0 n) ord) as [Hp Hk]; [apply NoDup_seq | apply length_seq | done|].
  assert (length ord = n) as Hlen by (rewrite (Permutation_length Hp); apply length_seq). split_and!.
  - rewrite Hp. rewrite <- seq_app. by replace (n + (length joins - n))%nat with (length joins) by lia.
  - intros i Hi. rewrite lookup_app_r by lia. rewrite lookup_seq_lt by lia. f_equal. lia.
  - right. exists nodes. split; [done|]. intros k j jn e Hkn Hj Hjn He. rewrite lookup_app_l in Hj by lia.
    assert (j < n)%nat as Hjlt by (assert (In j (seq 0 n)) as [_ H]%in_seq by (rewrite <- Hp; apply list_elem_of_In; by eapply list_elem_of_lookup_2); lia).
    specialize (Hk k j Hj). apply mapM_Some in Hnodes. apply mapM_Some in Hdeps.
    destruct (Forall2_lookup_l _ _ _ j jn Hnodes) as (node & Hnode & _); [by rewrite lookup_take_lt by lia|].
    destruct (Forall2_lookup_l _ _ _ j (jn, node) Hdeps) as (d & Hd & Hjd).
    { apply lookup_zip_with_Some. exists jn, node. split_and!; [done | by rewrite lookup_take_lt by lia | done]. }
    cbn [fst snd] in Hjd. unfold join_deps in Hjd. rewrite He in Hjd. apply bind_Some in Hjd as (d0 & Hd0 & [= <-]). exists d0. split; [done|].
    rewrite Hd in Hk. cbn [from_option id] in Hk. rewrite take_app_le by lia. rewrite (take_S_r ord k j Hj), map_app. cbn [map].
    assert (alias_at nodes j = n_alias node) as -> by (unfold alias_at; by rewrite Hnode). rewrite list_to_set_app_L. cbn. intros x Hx.
    destruct (decide (x = n_alias node)) as [->|]; set_solver.
Qed.

End Plan.
