(* ===== verification/ExprEq.v ===== *)
(** The key under which a computed value is kept, [format!("{expr:?}")], tells
    expressions apart: [Eval.expr_eqb] decides equality of syntax trees. *)

From Stdlib Require Import Strings.String ZArith Bool.
From stdpp Require Import base list strings.
From S2P Require Import Prelude Ast Eval.

Lemma same_true {A : Type} `{!EqDecision A} (x y : A) : same x y = true -> x = y.
Proof. apply bool_decide_eq_true_1. Qed.

Lemma list_eqb_sound {A : Type} (eqb : A -> A -> bool) (H : forall x y, eqb x y = true -> x = y) :
  forall l1 l2, list_eqb eqb l1 l2 = true -> l1 = l2.
Proof.
  fix go 1. intros [|x l1] [|y l2]; cbn; intros E; [reflexivity | discriminate E | discriminate E|].
  apply andb_true_iff in E. exact (f_equal2 cons (H x y (proj1 E)) (go l1 l2 (proj2 E))).
Defined.

Lemma option_eqb_sound {A : Type} (eqb : A -> A -> bool) (H : forall x y, eqb x y = true -> x = y) :
  forall o1 o2, option_eqb eqb o1 o2 = true -> o1 = o2.
Proof. intros [x|] [y|]; cbn; intros E; [exact (f_equal Some (H x y E)) | discriminate E | discriminate E | reflexivity]. Defined.

Lemma pair_eqb_sound {A B : Type} (f : A -> A -> bool) (g : B -> B -> bool) (Hf : forall x y, f x y = true -> x = y)
    (Hg : forall x y, g x y = true -> x = y) :
  forall p q : A * B, f (fst p) (fst q) && g (snd p) (snd q) = true -> p = q.
Proof. intros [a b] [c d] E. apply andb_true_iff in E. exact (f_equal2 pair (Hf a c (proj1 E)) (Hg b d (proj2 E))). Defined.

Lemma expr_eqb_sound : forall e1 e2, expr_eqb e1 e2 = true -> e1 = e2
with in_eqb_sound : forall e1 e2, in_eqb e1 e2 = true -> e1 = e2
with frame_eqb_sound : forall e1 e2, frame_eqb e1 e2 = true -> e1 = e2
with bound_eqb_sound : forall e1 e2, bound_eqb e1 e2 = true -> e1 = e2
with order_eqb_sound : forall e1 e2, order_eqb e1 e2 = true -> e1 = e2
with projection_eqb_sound : forall e1 e2, projection_eqb e1 e2 = true -> e1 = e2
with select_eqb_sound : forall e1 e2, select_eqb e1 e2 = true -> e1 = e2
with cte_eqb_sound : forall e1 e2, cte_eqb e1 e2 = true -> e1 = e2
with table_eqb_sound : forall e1 e2, table_eqb e1 e2 = true -> e1 = e2
with twj_eqb_sound : forall e1 e2, twj_eqb e1 e2 = true -> e1 = e2
with join_eqb_sound : forall e1 e2, join_eqb e1 e2 = true -> e1 = e2.
Proof.
  all: destruct e1, e2; cbn; intros E; try discriminate E.
  all: repeat match goal with H : _ && _ = true |- _ => let H1 := fresh in let H2 := fresh in apply andb_true_iff in H; destruct H as [H1 H2] end.
  all: f_equal.
  all: match goal with
       | H : same ?x ?y = true |- ?x = ?y => exact (same_true x y H)
       | H : expr_eqb ?x ?y = true |- ?x = ?y => exact (expr_eqb_sound x y H)
       | H : in_eqb ?x ?y = true |- ?x = ?y => exact (in_eqb_sound x y H)
       | H : bound_eqb ?x ?y = true |- ?x = ?y => exact (bound_eqb_sound x y H)
       | H : select_eqb ?x ?y = true |- ?x = ?y => exact (select_eqb_sound x y H)
       | H : table_eqb ?x ?y = true |- ?x = ?y => exact (table_eqb_sound x y H)
       | H : list_eqb expr_eqb ?x ?y = true |- ?x = ?y => exact (list_eqb_sound expr_eqb expr_eqb_sound x y H)
       | H : list_eqb order_eqb ?x ?y = true |- ?x = ?y => exact (list_eqb_sound order_eqb order_eqb_sound x y H)
       | H : list_eqb projection_eqb ?x ?y = true |- ?x = ?y => exact (list_eqb_sound projection_eqb projection_eqb_sound x y H)
       | H : list_eqb cte_eqb ?x ?y = true |- ?x = ?y => exact (list_eqb_sound cte_eqb cte_eqb_sound x y H)
       | H : list_eqb join_eqb ?x ?y = true |- ?x = ?y => exact (list_eqb_sound join_eqb join_eqb_sound x y H)
       | H : list_eqb _ ?x ?y = true |- ?x = ?y =>
           exact (list_eqb_sound _ (pair_eqb_sound expr_eqb expr_eqb expr_eqb_sound expr_eqb_sound) x y H)
       | H : option_eqb expr_eqb ?x ?y = true |- ?x = ?y => exact (option_eqb_sound expr_eqb expr_eqb_sound x y H)
       | H : option_eqb frame_eqb ?x ?y = true |- ?x = ?y => exact (option_eqb_sound frame_eqb frame_eqb_sound x y H)
       | H : option_eqb bound_eqb ?x ?y = true |- ?x = ?y => exact (option_eqb_sound bound_eqb bound_eqb_sound x y H)
       | H : option_eqb twj_eqb ?x ?y = true |- ?x = ?y => exact (option_eqb_sound twj_eqb twj_eqb_sound x y H)
       | H : option_eqb select_eqb ?x ?y = true |- ?x = ?y => exact (option_eqb_sound select_eqb select_eqb_sound x y H)
       | H : option_eqb (list_eqb expr_eqb) ?x ?y = true |- ?x = ?y =>
           exact (option_eqb_sound (list_eqb expr_eqb) (list_eqb_sound expr_eqb expr_eqb_sound) x y H)
       | H : option_eqb _ ?x ?y = true |- ?x = ?y =>
           exact (option_eqb_sound _ (pair_eqb_sound same select_eqb (same_true (A := UnionOp)) select_eqb_sound) x y H)
       end.
Qed.

Lemma same_refl {A : Type} `{!EqDecision A} (x : A) : same x x = true.
Proof. by apply bool_decide_eq_true_2. Qed.

Lemma list_eqb_refl {A : Type} (eqb : A -> A -> bool) (H : forall x, eqb x x = true) : forall l, list_eqb eqb l l = true.
Proof. fix go 1. intros [|x l]; cbn; [reflexivity|]. exact (andb_true_intro (conj (H x) (go l))). Defined.

Lemma option_eqb_refl {A : Type} (eqb : A -> A -> bool) (H : forall x, eqb x x = true) : forall o, option_eqb eqb o o = true.
Proof. intros [x|]; cbn; [exact (H x) | reflexivity]. Defined.

Lemma pair_eqb_refl {A B : Type} (f : A -> A -> bool) (g : B -> B -> bool) (Hf : forall x, f x x = true) (Hg : forall x, g x x = true) :
  forall p : A * B, f (fst p) (fst p) && g (snd p) (snd p) = true.
Proof. intros [a b]. exact (andb_true_intro (conj (Hf a) (Hg b))). Defined.

Lemma expr_eqb_refl : forall e, expr_eqb e e = true
with in_eqb_refl : forall e, in_eqb e e = true
with frame_eqb_refl : forall e, frame_eqb e e = true
with bound_eqb_refl : forall e, bound_eqb e e = true
with order_eqb_refl : forall e, order_eqb e e = true
with projection_eqb_refl : forall e, projection_eqb e e = true
with select_eqb_refl : forall e, select_eqb e e = true
with cte_eqb_refl : forall e, cte_eqb e e = true
with table_eqb_refl : forall e, table_eqb e e = true
with twj_eqb_refl : forall e, twj_eqb e e = true
with join_eqb_refl : forall e, join_eqb e e = true.
Proof.
  all: destruct e; cbn; try reflexivity.
  all: repeat (apply andb_true_intro; split).
  all: match goal with
       | |- same ?x _ = true => exact (same_refl x)
       | |- expr_eqb ?x _ = true => exact (expr_eqb_refl x)
       | |- in_eqb ?x _ = true => exact (in_eqb_refl x)
       | |- bound_eqb ?x _ = true => exact (bound_eqb_refl x)
       | |- select_eqb ?x _ = true => exact (select_eqb_refl x)
       | |- table_eqb ?x _ = true => exact (table_eqb_refl x)
       | |- list_eqb expr_eqb ?x _ = true => exact (list_eqb_refl expr_eqb expr_eqb_refl x)
       | |- list_eqb order_eqb ?x _ = true => exact (list_eqb_refl order_eqb order_eqb_refl x)
       | |- list_eqb projection_eqb ?x _ = true => exact (list_eqb_refl projection_eqb projection_eqb_refl x)
       | |- list_eqb cte_eqb ?x _ = true => exact (list_eqb_refl cte_eqb cte_eqb_refl x)
       | |- list_eqb join_eqb ?x _ = true => exact (list_eqb_refl join_eqb join_eqb_refl x)
       | |- list_eqb _ ?x _ = true => exact (list_eqb_refl _ (pair_eqb_refl expr_eqb expr_eqb expr_eqb_refl expr_eqb_refl) x)
       | |- option_eqb expr_eqb ?x _ = true => exact (option_eqb_refl expr_eqb expr_eqb_refl x)
       | |- option_eqb frame_eqb ?x _ = true => exact (option_eqb_refl frame_eqb frame_eqb_refl x)
       | |- option_eqb bound_eqb ?x _ = true => exact (option_eqb_refl bound_eqb bound_eqb_refl x)
       | |- option_eqb twj_eqb ?x _ = true => exact (option_eqb_refl twj_eqb twj_eqb_refl x)
       | |- option_eqb select_eqb ?x _ = true => exact (option_eqb_refl select_eqb select_eqb_refl x)
       | |- option_eqb (list_eqb expr_eqb) ?x _ = true => exact (option_eqb_refl (list_eqb expr_eqb) (list_eqb_refl expr_eqb expr_eqb_refl) x)
       | |- option_eqb _ ?x _ = true => exact (option_eqb_refl _ (pair_eqb_refl same select_eqb (same_refl (A := UnionOp)) select_eqb_refl) x)
       end.
Qed.

(** Whether two expressions are one tree can be decided. *)
#[export] Instance Expr_eq_dec : EqDecision Expr.
Proof.
  intros e1 e2. destruct (expr_eqb e1 e2) eqn:E; [left; by apply expr_eqb_sound | right]. intros ->. by rewrite expr_eqb_refl in E.
Defined.
