(* ===== verification/Select.v ===== *)
(** Queries ([executor/select.rs], with [resolve_primary_table] of
    [executor/planner.rs] and the helpers of [executor/mod.rs]).

    A query runs its CTEs, resolves and joins its tables, filters, groups,
    computes windows, sorts, cuts and projects. [select_step] is the body of
    [execute_select_with_cte], with its recursive calls as a parameter, and
    [execute_select] ties it to itself, the subqueries of expressions included
    (the [World] of [Eval]); its fuel bounds the nesting of queries, and a query
    nested deeper has no result, as one that exhausts the stack. The CTEs are
    passed along as the code mutates them. *)

From Stdlib Require Import Strings.Byte Strings.String ZArith Lia Bool Permutation Sorted.
From stdpp Require Import base list strings gmap.
From S2P Require Import Prelude OrdMap Utf8 Decimal Compress Flux Rows Jsonb Ast Lexer Float Values JsonOps Eval Joins Sorting Windows Planner.

Open Scope Z_scope.
Open Scope eval_scope.

Definition sel_distinct (s : SelectStmt) := let 'mkSelectStmt _ d _ _ _ _ _ _ _ _ _ := s in d.
Definition sel_projections (s : SelectStmt) := let 'mkSelectStmt _ _ p _ _ _ _ _ _ _ _ := s in p.
Definition sel_group_by (s : SelectStmt) := let 'mkSelectStmt _ _ _ _ _ g _ _ _ _ _ := s in g.
Definition sel_having (s : SelectStmt) := let 'mkSelectStmt _ _ _ _ _ _ h _ _ _ _ := s in h.
Definition sel_order_by (s : SelectStmt) := let 'mkSelectStmt _ _ _ _ _ _ _ o _ _ _ := s in o.
Definition sel_limit (s : SelectStmt) := let 'mkSelectStmt _ _ _ _ _ _ _ _ l _ _ := s in l.
Definition sel_offset (s : SelectStmt) := let 'mkSelectStmt _ _ _ _ _ _ _ _ _ o _ := s in o.
Definition without_union (s : SelectStmt) : SelectStmt :=
  let 'mkSelectStmt c d p f w g h o l k _ := s in mkSelectStmt c d p f w g h o l k None.
Definition cte_columns (c : Cte) := let 'mkCte _ cols _ _ := c in cols.
Definition cte_recursive (c : Cte) := let 'mkCte _ _ _ r := c in r.

(** ** Results *)

(** [wire::messages::FieldDescription] *)
Record FieldDescription := mkFieldDescription {
  fd_name : string; fd_table_oid : Z; fd_col_attr : Z; fd_type_oid : Z; fd_type_size : Z; fd_type_modifier : Z; fd_format : Z;
}.
Definition simple (name : string) (type_oid : Z) : FieldDescription := mkFieldDescription name 0 0 type_oid (- 1) (- 1) 0.

Record QueryResult := mkQueryResult { qr_fields : list FieldDescription; qr_rows : list Row; qr_tag : string }.
Definition select_result (fields : list FieldDescription) (rows : list Row) : QueryResult :=
  mkQueryResult fields rows ("SELECT " +:+ to_dec (zlen rows)).

(** CTE name to rows and schema. *)
Abbreviation CteContext := (gmap string (list Row * TableSchema)).

Definition schema_column (name : string) (ty : ColumnType) : TableColumn := mkTableColumn name ty true None false.

Definition field_type (type_oid : Z) : ColumnType :=
  if type_oid =? OID_INT8 then ColumnType_Int8
  else if type_oid =? OID_FLOAT8 then ColumnType_Float8
  else if type_oid =? OID_BOOL then ColumnType_Bool
  else ColumnType_Text.

Definition schema_from_fields (name : string) (fields : list FieldDescription) : TableSchema :=
  mkTableSchema name (map (fun f => schema_column (fd_name f) (field_type (fd_type_oid f))) fields) [] [] [] [].

Definition cte_schema (cte : Cte) (fields : list FieldDescription) : TableSchema :=
  match cte_columns cte with
  | [] => schema_from_fields (cte_name cte) fields
  | cols => mkTableSchema (cte_name cte) (map (fun c => schema_column c ColumnType_Text) cols) [] [] [] []
  end.

(** ** Stored rows *)

Section Rows.
  Context {js : Json}.

(** One cell after the other, binary JSON as its text; each takes four bytes at
    least, so the length bounds the loop. *)
Fixpoint parse_cells (fuel : nat) (data : bytes) : Row :=
  match fuel with
  | O => []
  | S fuel' =>
      if zlen data <? 4 then []
      else
        let len := i32_from_be (take 4 data) in
        let rest := drop 4 data in
        if len <? 0 then None :: parse_cells fuel' rest
        else if zlen rest <? len then [None]
        else
          let cell := take (Z.to_nat len) rest in
          Some (default cell (decode_json_cell cell)) :: parse_cells fuel' (drop (Z.to_nat len) rest)
  end.

Definition parse_row (data : bytes) : Row := parse_cells (length data) data.
Definition parse_rows (rows : list bytes) : list Row := map parse_row rows.

End Rows.

(** ** Expressions of a query *)

Section Exprs.
  Context {std : StdLib}.

Definition infer_column_name (e : Expr) : string :=
  match e with
  | Expr_Ident name => name
  | Expr_QualifiedIdent _ col => col
  | Expr_Function name _ _ => to_lowercase name
  | _ => "?column?"
  end.

Definition projection_fields (schema : option TableSchema) (p : Projection) : Eval (list FieldDescription) :=
  match p with
  | Projection_Wildcard =>
      match schema with
      | Some s => done (map (fun c => simple (tc_name c) (column_oid (tc_type c))) (ts_columns s))
      | None => fails "SELECT * requires a FROM clause"
      end
  | Projection_WildcardTable _ => fails "table.* projections are not yet supported"
  | Projection_Expr e alias => done [simple (default (infer_column_name e) alias) OID_TEXT]
  end.

Definition build_fields (projections : list Projection) (schema : option TableSchema) : Eval (list FieldDescription) :=
  let* fields := traverse (projection_fields schema) projections in done (concat fields).

Fixpoint contains_aggregate (e : Expr) : bool :=
  match e with
  | Expr_Function name args _ => is_aggregate_name name || existsb contains_aggregate args
  | Expr_BinaryOp _ lhs rhs => contains_aggregate lhs || contains_aggregate rhs
  | Expr_UnaryOp _ e => contains_aggregate e
  | Expr_IsNull e _ | Expr_IsTrue e _ | Expr_IsFalse e _ => contains_aggregate e
  | Expr_Between e low high _ => contains_aggregate e || contains_aggregate low || contains_aggregate high
  | Expr_Like e pattern _ => contains_aggregate e || contains_aggregate pattern
  | Expr_In e list _ =>
      contains_aggregate e || match list with InList_Exprs v => existsb contains_aggregate v | InList_Subquery _ => false end
  | Expr_Cast e _ => contains_aggregate e
  | Expr_Case operand branches else_ =>
      match operand with Some e => contains_aggregate e | None => false end
      || existsb (fun b => contains_aggregate (fst b) || contains_aggregate (snd b)) branches
      || match else_ with Some e => contains_aggregate e | None => false end
  | _ => false
  end.

Definition is_aggregate_query (s : SelectStmt) : bool :=
  match sel_group_by s with
  | _ :: _ => true
  | [] =>
      existsb (fun p => match p with Projection_Expr e _ => contains_aggregate e | _ => false end) (sel_projections s)
      || match sel_having s with Some h => contains_aggregate h | None => false end
  end.

Fixpoint collect_aggregate_exprs (e : Expr) : list Expr :=
  match e with
  | Expr_Function name args _ => if is_aggregate_name name then [e] else concat (map collect_aggregate_exprs args)
  | Expr_BinaryOp _ lhs rhs => collect_aggregate_exprs lhs ++ collect_aggregate_exprs rhs
  | Expr_UnaryOp _ e => collect_aggregate_exprs e
  | Expr_IsNull e _ | Expr_IsTrue e _ | Expr_IsFalse e _ => collect_aggregate_exprs e
  | Expr_Between e low high _ => collect_aggregate_exprs e ++ collect_aggregate_exprs low ++ collect_aggregate_exprs high
  | Expr_Like e pattern _ => collect_aggregate_exprs e ++ collect_aggregate_exprs pattern
  | Expr_In e list _ =>
      collect_aggregate_exprs e
      ++ match list with InList_Exprs v => concat (map collect_aggregate_exprs v) | InList_Subquery _ => [] end
  | Expr_Cast e _ => collect_aggregate_exprs e
  | Expr_Case operand branches else_ =>
      match operand with Some e => collect_aggregate_exprs e | None => [] end
      ++ concat (map (fun b => collect_aggregate_exprs (fst b) ++ collect_aggregate_exprs (snd b)) branches)
      ++ match else_ with Some e => collect_aggregate_exprs e | None => [] end
  | _ => []
  end.

Definition aggregate_exprs (s : SelectStmt) : list Expr :=
  concat (map (fun p => match p with Projection_Expr e _ => collect_aggregate_exprs e | _ => [] end) (sel_projections s))
  ++ match sel_having s with Some h => collect_aggregate_exprs h | None => [] end.

(** An ORDER BY name that is an output alias stands for that output. *)
Fixpoint alias_target (name : string) (projections : list Projection) : option Expr :=
  match projections with
  | [] => None
  | Projection_Expr target (Some alias) :: ps => if String.eqb alias name then Some target else alias_target name ps
  | _ :: ps => alias_target name ps
  end.

Definition resolve_order_alias (e : Expr) (projections : list Projection) : Expr :=
  match e with
  | Expr_Ident name => default e (alias_target name projections)
  | _ => e
  end.

End Exprs.

(** ** The pipeline *)

Section Pipeline.
  Context {DB Txn : Type} {world : World DB} {catalog : Catalog DB Txn} {std : StdLib} {crates : Crates} {js : Json} {sorts : SortBy}.
  Context (gpu_pairs : Expr -> option TableSchema -> option TableSchema -> list Row -> list Row -> option (list (nat * nat))).

Abbreviation Ctx := (RowContext DB).

Fixpoint keep_rows (where_ : Expr) (rows : list Ctx) : Eval (list Ctx) :=
  match rows with
  | [] => done []
  | row :: rows' =>
      let* v := eval row where_ in
      let* kept := keep_rows where_ rows' in
      done (if is_truthy v then row :: kept else kept)
  end.

Definition filter_rows (where_ : option Expr) (rows : list Ctx) : Eval (list Ctx) :=
  match where_ with Some e => keep_rows e rows | None => done rows end.

(** *** Groups *)

(** [groups.entry(key).or_default().push(ctx)], in the order of [group_order]. *)
Fixpoint push_group (key : list Value) (row : Ctx) (groups : list (list Value * list Ctx)) : list (list Value * list Ctx) :=
  match groups with
  | [] => [(key, [row])]
  | (k, members) :: groups' =>
      if bool_decide (k = key) then (k, members ++ [row]) :: groups' else (k, members) :: push_group key row groups'
  end.

Fixpoint group_rows (group_by : list Expr) (rows : list Ctx) (groups : list (list Value * list Ctx)) : Eval (list (list Value * list Ctx)) :=
  match rows with
  | [] => done groups
  | row :: rows' =>
      let* vals := traverse (eval row) group_by in
      group_rows group_by rows' (push_group (map debug_key vals) row groups)
  end.

(** The aggregates of one group, each expression once. *)
Fixpoint compute_aggregates (aggs : list Expr) (members : list Row) (schema : option TableSchema) (db : DB)
    (computed : list (Expr * Value)) : Eval (list (Expr * Value)) :=
  match aggs with
  | [] => done computed
  | e :: aggs' =>
      if existsb (fun x => expr_eqb (fst x) e) computed then compute_aggregates aggs' members schema db computed
      else
        match e with
        | Expr_Function name args distinct =>
            let* v := eval_aggregate name (head args) distinct members schema (Some db) in
            compute_aggregates aggs' members schema db ((e, v) :: computed)
        | _ => compute_aggregates aggs' members schema db computed
        end
  end.

Definition representative (members : list Ctx) (schema : option TableSchema) (db : DB) : Ctx :=
  match members with
  | m :: _ => m
  | [] => ctx_with_db (nulls (length (columns_of schema))) schema db
  end.

Definition group_ctx (s : SelectStmt) (schema : option TableSchema) (db : DB) (members : list Ctx) : Eval Ctx :=
  let* computed := compute_aggregates (aggregate_exprs s) (map rc_values members) schema db [] in
  done (with_computed computed (representative members schema db)).

Definition execute_aggregation (s : SelectStmt) (rows : list Ctx) (schema : option TableSchema) (db : DB) : Eval (list Ctx) :=
  let* groups := match sel_group_by s with
                 | [] => done [([], rows)]
                 | group_by => group_rows group_by rows []
                 end in
  let* output := traverse (fun g =>
    let* ctx := group_ctx s schema db (snd g) in
    match sel_having s with
    | Some h => let* v := eval ctx h in done (if is_truthy v then [ctx] else [])
    | None => done [ctx]
    end) groups in
  done (concat output).

(** *** Order, limit and projection *)

Definition order_keys (s : SelectStmt) : list (Expr * bool) :=
  map (fun o => (resolve_order_alias (ob_expr o) (sel_projections s), ob_asc o)) (sel_order_by s).

Definition order_rows (s : SelectStmt) (rows : list Ctx) : Eval (list Ctx) :=
  match order_keys s with
  | [] => done rows
  | keys =>
      let* _ := traverse (fun row => traverse (fun k => eval row (fst k)) keys) rows in
      lift (slice_sort (compare_rows keys) rows)
  end.

(** [n.max(0) as usize], [f.max(0.0) as usize] *)
Definition row_count (v : Value) (other : Z) : Z :=
  match v with
  | Value_Int n => Z.max n 0
  | Value_Float f => f_to_usize (f_max0 f)
  | _ => other
  end.

Definition limit_rows (limit : option Expr) (params : list Value) (rows : list Ctx) : Eval (list Ctx) :=
  match limit with
  | Some e =>
      let* v := eval_expr (DB := DB) e params in
      done (take (Z.to_nat (Z.min (row_count v (zlen rows)) (zlen rows))) rows)
  | None => done rows
  end.

Definition offset_rows (offset : option Expr) (params : list Value) (rows : list Ctx) : Eval (list Ctx) :=
  match offset with
  | Some e =>
      let* v := eval_expr (DB := DB) e params in
      let n := row_count v 0 in
      done (if n <? zlen rows then drop (Z.to_nat n) rows else [])
  | None => done rows
  end.

Definition project_cells (row : Ctx) (p : Projection) : Eval Row :=
  match p with
  | Projection_Wildcard => done (rc_values row)
  | Projection_WildcardTable _ => panics
  | Projection_Expr e _ => let* v := eval row e in done [to_wire_bytes v]
  end.

Definition project_row (projections : list Projection) (row : Ctx) : Eval Row :=
  let* cells := traverse (project_cells row) projections in done (concat cells).

(** From WHERE to the projected rows. *)
Definition process_rows (s : SelectStmt) (schema : option TableSchema) (db : DB) (params : list Value) (rows : list Ctx) : Eval (list Row) :=
  let* rows := filter_rows (sel_where s) rows in
  let* rows := if is_aggregate_query s then execute_aggregation s rows schema db else done rows in
  let* rows := apply_window_functions (sel_projections s) (sel_order_by s) rows in
  let* rows := order_rows s rows in
  let* rows := limit_rows (sel_limit s) params rows in
  let* rows := offset_rows (sel_offset s) params rows in
  traverse (project_row (sel_projections s)) rows.

(** *** Queries without FROM *)

Definition set_db (db : DB) (c : Ctx) : Ctx :=
  mkRowContext (rc_values c) (rc_schema c) (Some db) (rc_outer c) (rc_params c) (rc_computed c) (rc_table_scopes c).

Definition project_only (row : Ctx) (p : Projection) : Eval (FieldDescription * option bytes) :=
  match p with
  | Projection_Wildcard => fails "SELECT * requires a FROM clause"
  | Projection_WildcardTable _ => fails "SELECT table.* requires a FROM clause"
  | Projection_Expr e alias =>
      let* v := eval row e in
      done (simple (default (infer_column_name e) alias) (type_oid v), to_wire_bytes v)
  end.

Definition execute_projection_only (s : SelectStmt) (db : DB) (params : list Value) : Eval QueryResult :=
  let* cells := traverse (project_only (set_db db (with_params params ctx_empty))) (sel_projections s) in
  done (mkQueryResult (map fst cells) [map snd cells] "SELECT 1").

(** *** Tables *)

Context (rec : SelectStmt -> CteContext -> Eval (CteContext * QueryResult)).
Context (db : DB) (outer : list OuterRow) (params : list Value) (txn : option Txn).

Definition of_result {A : Type} (r : Result A) : Eval A := Some r.

Definition Source : Type := option TableSchema * list Row.

Definition resolve_table_ref (table : TableRef) (ctes : CteContext) : Eval (CteContext * Source) :=
  match tr_subquery table with
  | Some subquery =>
      let* r := rec subquery ctes in
      done (fst r, (Some (schema_from_fields (tr_name table) (qr_fields (snd r))), qr_rows (snd r)))
  | None =>
      match tr_func_args table with
      | Some args => let* src := graph_function db (tr_name table) args params in done (ctes, src)
      | None =>
          match ctes !! tr_name table with
          | Some (rows, schema) => done (ctes, (Some schema, rows))
          | None =>
              match virtual_table db (tr_name table) with
              | Some r => let* sr := of_result r in done (ctes, (Some (fst sr), snd sr))
              | None =>
                  let* schema := of_result (get_table db (tr_name table)) in
                  let* rows := of_result (txn_scan db txn (tr_name table)) in
                  done (ctes, (schema, parse_rows rows))
              end
          end
      end
  end.

(** The rows that an index gives for the primary table, if one is used. *)
Definition index_path (table : string) (where_ : option Expr) (schema : TableSchema) : Eval (option (list Row)) :=
  let* eq := to_option (extract_equality_predicate (DB := DB) where_ schema) in
  match eq with
  | Some (col, literal) =>
      if indexed_column db table col then
        let* hit := of_result (index_lookup db table col literal) in
        done (Some (match hit with Some row => parse_rows [row] | None => [] end))
      else done None
  | None =>
      match spatial_hits db table where_ schema with
      | Some hits => done (parse_rows <$> hits)
      | None =>
          let* tp := to_option (extract_time_bucket_predicate (DB := DB) where_ schema) in
          match tp with
          | Some (col, (t0, t1)) =>
              if indexed_column_time db table col then done (parse_rows <$> time_range_query db table col t0 t1) else done None
          | None => done None
          end
      end
  end.

Definition resolve_primary_table (table : TableRef) (where_ : option Expr) (ctes : CteContext) : Eval (CteContext * Source) :=
  match txn, tr_subquery table, ctes !! tr_name table with
  | None, None, None =>
      let* schema := of_result (get_table db (tr_name table)) in
      match schema with
      | Some schema =>
          let* hits := index_path (tr_name table) where_ schema in
          match hits with
          | Some rows => done (ctes, (Some schema, rows))
          | None => resolve_table_ref table ctes
          end
      | None => resolve_table_ref table ctes
      end
  | _, _, _ => resolve_table_ref table ctes
  end.

(** *** Joins *)

Record Joined := mkJoined { jd_schema : option TableSchema; jd_rows : list Row; jd_scopes : list Scope; jd_offset : nat }.

Definition primary_joined (table : TableRef) (src : Source) : Joined :=
  let len := length (columns_of (fst src)) in
  mkJoined (fst src) (snd src) [(alias_of table, (0%nat, len))] len.

Definition join_one (st : CteContext * Joined) (j : Join) : Eval (CteContext * Joined) :=
  let '(ctes, jd) := st in
  let* r := resolve_table_ref (j_table j) ctes in
  let '(ctes', (schema, rows)) := r in
  let len := length (columns_of schema) in
  let alias := alias_of (j_table j) in
  let* joined := lift (apply_join gpu_pairs (jd_rows jd) rows (j_type j) (j_on j) (jd_schema jd) schema (jd_scopes jd) alias) in
  done (ctes', mkJoined (merge_schema (jd_schema jd) schema) joined
                 (jd_scopes jd ++ [(alias, (jd_offset jd, jd_offset jd + len)%nat)]) (jd_offset jd + len)).

(** [for &join_idx in &join_order] *)
Fixpoint join_all (joins : list Join) (order : list nat) (st : CteContext * Joined) : Eval (CteContext * Joined) :=
  match order with
  | [] => done st
  | i :: order' =>
      let* j := lift (joins !! i) in
      let* st := join_one st j in
      join_all joins order' st
  end.

Definition row_ctx (jd : Joined) (values : Row) : Ctx :=
  with_table_scopes (jd_scopes jd) (with_params params (with_outer outer (ctx_with_db values (jd_schema jd) db))).

Definition execute_from (s : SelectStmt) (twj : TableWithJoins) (ctes : CteContext) : Eval (CteContext * QueryResult) :=
  let* p := resolve_primary_table (twj_primary twj) (sel_where s) ctes in
  let jd := primary_joined (twj_primary twj) (snd p) in
  let order := reorder_inner_joins (alias_of (twj_primary twj)) (jd_schema jd) (twj_joins twj) db in
  let* st := join_all (twj_joins twj) order (fst p, jd) in
  let '(ctes, jd) := st in
  let* fields := build_fields (sel_projections s) (jd_schema jd) in
  let* rows := process_rows s (jd_schema jd) db params (map (row_ctx jd) (jd_rows jd)) in
  done (ctes, select_result fields rows).

(** *** Common table expressions *)

(** The loop of a recursive one: the recursive term sees the rows of the last
    step; [left] counts down from the limit of 10 000 steps. *)
Fixpoint recurse_cte (term : SelectStmt) (name : string) (schema : TableSchema) (left : nat)
    (all_rows working : list Row) (ctes : CteContext) : Eval CteContext :=
  let* r := rec term (<[name := (working, schema)]> ctes) in
  match qr_rows (snd r) with
  | [] => done (<[name := (all_rows, schema)]> (fst r))
  | step =>
      match left with
      | O => fails ("recursive CTE " +:+ name +:+ " exceeded iteration limit")
      | S left' => recurse_cte term name schema left' (all_rows ++ step) step (fst r)
      end
  end.

Definition RECURSION_LIMIT : Z := 10000.

Definition materialize_cte (cte : Cte) (ctes : CteContext) : Eval CteContext :=
  match cte_recursive cte, sel_union (cte_subquery cte) with
  | true, Some (_, term) =>
      let* base := rec (without_union (cte_subquery cte)) ctes in
      let schema := cte_schema cte (qr_fields (snd base)) in
      recurse_cte term (cte_name cte) schema (Z.to_nat RECURSION_LIMIT) (qr_rows (snd base)) (qr_rows (snd base)) (fst base)
  | _, _ =>
      let* r := rec (cte_subquery cte) ctes in
      done (<[cte_name cte := (qr_rows (snd r), cte_schema cte (qr_fields (snd r)))]> (fst r))
  end.

Fixpoint materialize_ctes (l : list Cte) (ctes : CteContext) : Eval CteContext :=
  match l with
  | [] => done ctes
  | c :: l' => let* ctes := materialize_cte c ctes in materialize_ctes l' ctes
  end.

(** [rows.retain(|r| seen.insert(r.clone()))] *)
Fixpoint retain_new (seen rows : list Row) : list Row :=
  match rows with
  | [] => []
  | r :: rows' => if bool_decide (r ∈ seen) then retain_new seen rows' else r :: retain_new (r :: seen) rows'
  end.

Definition select_step (s : SelectStmt) (ctes : CteContext) : Eval (CteContext * QueryResult) :=
  match sel_union s with
  | Some (op, rhs) =>
      let* l := rec (without_union s) ctes in
      let* r := rec rhs (fst l) in
      let rows := qr_rows (snd l) ++ qr_rows (snd r) in
      let rows := match op with UnionOp_Union => retain_new [] rows | UnionOp_UnionAll => rows end in
      done (fst r, select_result (qr_fields (snd l)) rows)
  | None =>
      let* ctes := materialize_ctes (sel_ctes s) ctes in
      match sel_from s with
      | None => let* r := execute_projection_only s db params in done (ctes, r)
      | Some twj => execute_from s twj ctes
      end
  end.

End Pipeline.

(** ** The executor *)

(** The functions of the other engines ([Eval.World]). *)
Class Functions (DB : Type) := other_functions : option DB -> string -> list (Eval Value) -> Eval Value.

Section Execute.
  Context {DB Txn : Type} {functions : Functions DB} {catalog : Catalog DB Txn} {std : StdLib} {crates : Crates} {js : Json} {sorts : SortBy}.
  Context (gpu_pairs : Expr -> option TableSchema -> option TableSchema -> list Row -> list Row -> option (list (nat * nat))).

(** [execute_select_with_cte] *)
Fixpoint execute_select (fuel : nat) (db : DB) (outer : list OuterRow) (params : list Value) (txn : option Txn)
    (s : SelectStmt) (ctes : CteContext) : Eval (CteContext * QueryResult) :=
  match fuel with
  | O => panics
  | S fuel' =>
      (* subqueries of expressions run without the CTEs and outside the transaction *)
      let world : World DB :=
        {| run_select db s outer params := let* r := execute_select fuel' db outer params None s ∅ in done (qr_rows (snd r));
           other_function := other_functions |} in
      select_step (world := world) gpu_pairs (execute_select fuel' db outer params txn) db outer params txn s ctes
  end.

(** [execute_parsed] of a SELECT, within a transaction or outside. *)
Definition query (fuel : nat) (db : DB) (txn : option Txn) (params : list Value) (s : SelectStmt) : Eval QueryResult :=
  let* r := execute_select fuel db [] params txn s ∅ in done (snd r).

(** [describe_select]; it looks at the first level only and runs the CTEs. *)
Definition describe_select (fuel : nat) (db : DB) (s : SelectStmt) : Eval (list FieldDescription) :=
  let rec := execute_select fuel db [] [] None in
  let resolve := resolve_table_ref rec db [] None in
  let* ctes := materialize_ctes rec (sel_ctes s) ∅ in
  let* schema :=
    match sel_from s with
    | None => done None
    | Some twj =>
        let* p := resolve (twj_primary twj) ctes in
        let* r := fold_left (fun (acc : Eval (CteContext * option TableSchema)) j =>
                    let* st := acc in
                    let* r := resolve (j_table j) (fst st) in
                    done (fst r, merge_schema (snd st) (fst (snd r)))) (twj_joins twj) (done (fst p, fst (snd p))) in
        done (snd r)
    end in
  build_fields (sel_projections s) schema.

End Execute.

(** ** A database in memory *)

(** The committed tables, the tables as one transaction sees them, the indexed
    columns and the row counts of ANALYZE. *)
Record MemDb := mkMemDb {
  md_tables : list (TableSchema * list Row); md_in_txn : list (TableSchema * list Row);
  md_indexes : list (string * string); md_stats : list (string * Z);
}.

Definition table_named (name : string) (tables : list (TableSchema * list Row)) : option (TableSchema * list Row) :=
  List.find (fun t => String.eqb (ts_name (fst t)) name) tables.

Definition stored_rows (name : string) (tables : list (TableSchema * list Row)) : list bytes :=
  map encode_cells (default [] (snd <$> table_named name tables)).

Definition mem_lookup (db : MemDb) (name col : string) (value : bytes) : option bytes :=
  t ← table_named name (md_tables db);
  i ← column_position (ts_columns (fst t)) col;
  encode_cells <$> List.find (fun r => bool_decide (r !! i = Some (Some value))) (snd t).

#[export] Instance mem_catalog : Catalog MemDb unit := {|
  get_table db name := Ok (fst <$> table_named name (md_tables db));
  txn_scan db txn name := Ok (stored_rows name (match txn with Some _ => md_in_txn db | None => md_tables db end));
  indexed_column db name col := existsb (fun i => String.eqb (fst i) name && String.eqb (snd i) col) (md_indexes db);
  index_lookup db name col value := Ok (mem_lookup db name col value);
  indexed_column_time _ _ _ := false;
  time_range_query _ _ _ _ _ := None;
  spatial_hits _ _ _ _ := None;
  table_row_count_estimate db name := snd <$> List.find (fun s => String.eqb (fst s) name) (md_stats db);
  virtual_table _ _ := None;
  graph_function _ _ _ _ := fails "function does not exist";
|}.

#[export] Instance no_functions : Functions MemDb := fun _ name _ => fails ("function " +:+ name +:+ " does not exist").

Definition plain_db (tables : list (TableSchema * list Row)) : MemDb := mkMemDb tables tables [] [].
