(* ===== verification/SelectWidths.v ===== *)
(** The rows of a query's result have the cells that its fields announce. *)

From Stdlib Require Import Strings.Byte Strings.String ZArith Lia Bool Permutation Sorted.
From stdpp Require Import base list strings gmap.
From S2P Require Import Prelude OrdMap Utf8 Decimal Compress Flux Rows Jsonb Ast Lexer Float Values JsonOps Eval Joins Sorting Windows Planner Select.

Open Scope Z_scope.
Open Scope eval_scope.

(** ** Evaluations that succeed *)

Lemma ebind_done {A B : Type} (m : Eval A) (k : A -> Eval B) (b : B) :
  ebind m k = Some (Ok b) -> exists a, m = Some (Ok a) /\ k a = Some (Ok b).
Proof. destruct m as [[a|]|]; try done. intros H. by exists a. Qed.

Ltac done_inv H := apply ebind_done in H as (? & ? & H).

Lemma lift_done {A : Type} (o : option A) (a : A) : lift o = Some (Ok a) -> o = Some a.
Proof. destruct o; [by intros [= ->] | done]. Qed.

Lemma traverse_done {A B : Type} (f : A -> Eval B) (l : list A) (ys : list B) :
  traverse f l = Some (Ok ys) <-> Forall2 (fun x y => f x = Some (Ok y)) l ys.
Proof.
  revert ys. induction l as [|x l IH]; intros ys; cbn.
  - split; [intros [= <-]; constructor | by inversion 1].
  - split.
    + intros H. done_inv H. done_inv H. injection H as <-. constructor; [done|]. by apply IH.
    + inversion 1 as [|? y ? ys' Hy Hf]; subst. rewrite Hy. cbn. apply IH in Hf. by rewrite Hf.
Qed.

Lemma traverse_Forall {A B : Type} (f : A -> Eval B) (P : B -> Prop) (l : list A) (ys : list B) :
  traverse f l = Some (Ok ys) -> (forall x y, In x l -> f x = Some (Ok y) -> P y) -> Forall P ys.
Proof.
  intros H%traverse_done HP. induction H as [|x y l ys Hxy _ IH]; constructor.
  - by apply (HP x); [left|].
  - apply IH. intros x' y' Hx. apply HP. by right.
Qed.

(** ** Joins *)

Definition fits (schema : option TableSchema) (rows : list Row) : Prop :=
  Forall (fun r => length r = length (columns_of schema)) rows.

Lemma columns_merge (l r : option TableSchema) : columns_of (merge_schema l r) = columns_of l ++ columns_of r.
Proof. destruct l, r; cbn; by rewrite ?app_nil_r. Qed.

Lemma Forall_concat_mapM {A B : Type} (P : B -> Prop) (f : A -> option (list B)) (l : list A) (r : list B) :
  @concat B <$> mapM f l = Some r -> (forall x ys, In x l -> f x = Some ys -> Forall P ys) -> Forall P r.
Proof.
  intros H Hf. apply fmap_Some in H as (yss & Hm & ->). apply mapM_Some in Hm.
  induction Hm as [|x ys l yss Hx _ IH]; [constructor|]. apply Forall_app. split; [by apply (Hf x); [left|]|].
  apply IH. intros x' ys' Hin. apply Hf. by right.
Qed.

Lemma Forall_concat_map {A B : Type} (P : B -> Prop) (f : A -> list B) (l : list A) :
  (forall x, In x l -> Forall P (f x)) -> Forall P (concat (map f l)).
Proof.
  induction l as [|x l IH]; intros H; cbn; [constructor|]. apply Forall_app. split; [apply H; by left|]. apply IH. intros. apply H. by right.
Qed.

Lemma In_Forall {A : Type} (P : A -> Prop) (l : list A) (x : A) : Forall P l -> In x l -> P x.
Proof. intros H Hx. rewrite Forall_forall in H. apply H. by apply list_elem_of_In. Qed.

Section JoinWidth.
  Context {DB : Type} {world : World DB} {std : StdLib} {crates : Crates} {js : Json}.
  Context (gpu_pairs : Expr -> option TableSchema -> option TableSchema -> list Row -> list Row -> option (list (nat * nat))).

(** Every output row is a combination, or the padding of a row. *)
Lemma loop_out (P : Row -> Prop) (rows others : list Row) (combine : Row -> Row -> Row) (pad : option (Row -> Row)) (x : Row) (ms : list Row) :
  (forall x y, In x rows -> In y others -> P (combine x y)) -> (forall p x, pad = Some p -> In x rows -> P (p x)) ->
  In x rows -> Forall (fun m => In m others) ms -> Forall P (match ms, pad with [], Some pad => [pad x] | _, _ => map (combine x) ms end).
Proof.
  intros Hc Hp Hx Hm. assert (Forall P (map (combine x) ms)) as Hall.
  { apply Forall_map. eapply Forall_impl; [exact Hm|]. cbn. auto. }
  destruct ms, pad as [p|]; try done. constructor; [by eapply Hp | constructor].
Qed.

Lemma matching_in (pred : Row -> option bool) (others ms : list Row) :
  matching pred others = Some ms -> Forall (fun m => In m others) ms.
Proof.
  intros H. eapply Forall_concat_mapM; [exact H|]. intros x ys Hx. cbn. destruct (pred x) as [[]|]; cbn; intros [= <-]; by repeat constructor.
Qed.

Lemma nested_loop_out (P : Row -> Prop) (rows others : list Row) (pred : Row -> Row -> option bool) (combine : Row -> Row -> Row)
    (pad : option (Row -> Row)) (out : list Row) :
  (forall x y, In x rows -> In y others -> P (combine x y)) -> (forall p x, pad = Some p -> In x rows -> P (p x)) ->
  nested_loop rows others pred combine pad = Some out -> Forall P out.
Proof.
  intros Hc Hp H. eapply Forall_concat_mapM; [exact H|]. intros x ys Hx. cbn. destruct (matching (pred x) others) as [ms|] eqn:E; [|done].
  cbn. intros [= <-]. apply (loop_out P rows others); [done..|]. by eapply matching_in.
Qed.

Lemma build_table_in (key : Row -> option (option bytes)) (others : list Row) (t : list (bytes * list Row)) (k : option bytes) :
  build_table key others = Some t -> Forall (fun m => In m others) (probe t k).
Proof.
  unfold build_table. destruct (mapM _ others) as [keyed|] eqn:E; [|done]. cbn. intros [= <-].
  assert (Forall (fun kr => In (snd kr) others) keyed) as Hk.
  { apply mapM_Some in E. apply Forall_forall. intros [k' r] Hin. apply list_elem_of_lookup_1 in Hin as [i Hi].
    destruct (Forall2_lookup_r _ _ _ _ _ E Hi) as (r' & Hr & Hkr). apply bind_Some in Hkr as (k2 & _ & [= <- <-]).
    cbn. apply list_elem_of_In. by eapply list_elem_of_lookup_2. }
  assert (forall t0 : list (bytes * list Row), Forall (fun e => Forall (fun m => In m others) (snd e)) t0 ->
    Forall (fun e : bytes * list Row => Forall (fun m => In m others) (snd e)) (fold_left push_row keyed t0)) as Hf.
  { clear E. induction Hk as [|[k' r] keyed Hr _ IH]; intros t0 H0; [done|]. cbn [fold_left]. apply IH.
    unfold push_row. cbn [fst snd]. destruct k' as [k'|]; [|done]. apply om_insert_Forall; [|done]. cbn.
    apply Forall_app. split; [|by repeat constructor]. destruct (om_get k' t0) as [rs|] eqn:G; [|constructor]. cbn.
    apply om_get_Some_In in G. by apply (In_Forall _ _ _ H0 G). }
  destruct k as [k|]; [|constructor]. cbn. destruct (om_get k _) as [rs|] eqn:G; [|constructor]. cbn.
  apply om_get_Some_In in G. apply (In_Forall _ _ _ (Hf [] ltac:(constructor)) G).
Qed.

Lemma hash_loop_out (P : Row -> Prop) (rows others : list Row) (key other_key : Row -> option (option bytes)) (combine : Row -> Row -> Row)
    (pad : option (Row -> Row)) (out : list Row) :
  (forall x y, In x rows -> In y others -> P (combine x y)) -> (forall p x, pad = Some p -> In x rows -> P (p x)) ->
  hash_loop rows others key other_key combine pad = Some out -> Forall P out.
Proof.
  intros Hc Hp H. unfold hash_loop in H. destruct (build_table other_key others) as [t|] eqn:E; [|done]. cbn in H.
  eapply Forall_concat_mapM; [exact H|]. intros x ys Hx. cbn. destruct (key x) as [k|]; [|done]. cbn. intros [= <-].
  pose proof (loop_out P rows others combine pad x (probe t k) Hc Hp Hx (build_table_in _ _ _ k E)) as Ho.
  by destruct (probe t k), pad.
Qed.

Lemma build_rows_out (P : Row -> Prop) (pairs : list (nat * nat)) (left_rows right_rows : list Row) (rl ll : nat) (pl pr : bool) (out : list Row) :
  (forall x y, In x left_rows -> In y right_rows -> P (x ++ y)) -> (forall x, In x left_rows -> P (x ++ nulls rl)) ->
  (forall y, In y right_rows -> P (nulls ll ++ y)) ->
  build_rows_from_pairs pairs left_rows right_rows rl ll pl pr = Some out -> Forall P out.
Proof.
  intros Hc Hl Hr H. apply bind_Some in H as (matched & Hm & [= <-]).
  assert (forall (g : nat -> Row -> list Row) (l : list Row), (forall i x, In x l -> Forall P (g i x)) -> Forall P (concat (imap g l))) as Hi.
  { intros g l. revert g. induction l as [|x l IH]; intros g Hg; [constructor|]. cbn. apply Forall_app. split; [apply Hg; by left|].
    apply (IH (g ∘ S)). intros i y Hy. apply Hg. by right. }
  apply Forall_app. split; [|apply Forall_app; split].
  - apply mapM_Some in Hm. apply Forall_forall. intros r Hin. apply list_elem_of_lookup_1 in Hin as [i Hlk].
    destruct (Forall2_lookup_r _ _ _ _ _ Hm Hlk) as ([a b] & _ & Hab). apply bind_Some in Hab as (x & Hx & Hab).
    apply bind_Some in Hab as (y & Hy & [= <-]). apply Hc; apply list_elem_of_In; by eapply list_elem_of_lookup_2.
  - destruct pl; [|constructor]. apply Hi. intros i x Hx. case_bool_decide; [constructor|]. by repeat constructor; auto.
  - destruct pr; [|constructor]. apply Hi. intros i x Hx. case_bool_decide; [constructor|]. by repeat constructor; auto.
Qed.

Lemma apply_join_fits (l r out : list Row) (ty : JoinType) (on_ : option Expr) (ls rs : option TableSchema) (scopes : list Scope) (alias : string) :
  fits ls l -> fits rs r -> apply_join gpu_pairs l r ty on_ ls rs scopes alias = Some out -> fits (merge_schema ls rs) out.
Proof.
  intros Hl Hr. unfold fits. rewrite columns_merge, length_app. set (n := (length (columns_of ls) + length (columns_of rs))%nat).
  set (P := fun row : Row => length row = n).
  assert (forall x, In x l -> length x = length (columns_of ls)) as Hl' by (intros; by apply (In_Forall _ _ _ Hl)).
  assert (forall x, In x r -> length x = length (columns_of rs)) as Hr' by (intros; by apply (In_Forall _ _ _ Hr)).
  assert (forall x y, In x l -> In y r -> P (left_first x y)) as Hc by (intros x y Hx Hy; unfold P, left_first; rewrite length_app, (Hl' x), (Hr' y); done).
  assert (forall y x, In y r -> In x l -> P (right_first y x)) as Hc' by (intros y x Hy Hx; by apply Hc).
  assert (forall x, In x l -> P (x ++ nulls (length (columns_of rs)))) as Hpl
    by (intros x Hx; unfold P, nulls; rewrite length_app, repeat_length, (Hl' x); done).
  assert (forall y, In y r -> P (nulls (length (columns_of ls)) ++ y)) as Hpr
    by (intros y Hy; unfold P, nulls; rewrite length_app, repeat_length, (Hr' y); done).
  assert (Forall P (cross_join l r)) as Hcross by (apply Forall_concat_map; intros x Hx; apply Forall_map, Forall_forall; intros y Hy%list_elem_of_In; by apply Hc).
  assert (forall (pl pr : bool) pairs, build_rows_from_pairs pairs l r (length (columns_of rs)) (length (columns_of ls)) pl pr = Some out -> Forall P out) as Hb
    by (intros pl pr pairs; by apply build_rows_out).
  unfold apply_join. destruct ty, on_ as [on_expr|]; try (by intros [= <-]).
  all: try match goal with |- context [split_join_keys ?e ?a ?b] => destruct (split_join_keys e a b) as [[lk rk]|] end.
  all: try (destruct (gpu_pairs _ _ _ _ _); [by apply Hb|]).
  all: try (unfold hash_equi_join; case_match); try (apply hash_loop_out || apply nested_loop_out); try done.
  all: try (intros p x [= <-]; by auto).
  all: intros [= <-]; apply Forall_concat_map; intros x Hx.
  - destruct r as [|r0 r']; [by repeat constructor; apply Hpl|]. apply Forall_map, Forall_forall. intros y Hy%list_elem_of_In. by apply Hc.
  - destruct l as [|l0 l']; [by repeat constructor; apply Hpr|]. apply Forall_map, Forall_forall. intros y Hy%list_elem_of_In. by apply Hc'.
Qed.

End JoinWidth.

(** ** From the joined rows to the result *)

Section PipelineWidth.
  Context {DB Txn : Type} {world : World DB} {catalog : Catalog DB Txn} {std : StdLib} {crates : Crates} {js : Json} {sorts : SortBy}.
  Context (gpu_pairs : Expr -> option TableSchema -> option TableSchema -> list Row -> list Row -> option (list (nat * nat))).

Definition wide (n : nat) (c : RowContext DB) : Prop := length (rc_values c) = n.

Lemma keep_rows_Forall (P : RowContext DB -> Prop) (e : Expr) (rows kept : list (RowContext DB)) :
  keep_rows e rows = Some (Ok kept) -> Forall P rows -> Forall P kept.
Proof.
  intros H Hp. revert kept H. induction Hp as [|c rows Hc _ IH]; intros kept H; cbn in H; [injection H as <-; constructor|].
  done_inv H. done_inv H. injection H as <-. case_match; [constructor; [done|]|]; by apply IH.
Qed.

Lemma push_group_Forall (P : RowContext DB -> Prop) (key : list Value) (c : RowContext DB) (groups : list (list Value * list (RowContext DB))) :
  P c -> Forall (fun g => Forall P (snd g)) groups -> Forall (fun g => Forall P (snd g)) (push_group key c groups).
Proof.
  intros Hc. induction groups as [|[k ms] groups IH]; intros H; cbn; [by repeat constructor|]. apply Forall_cons in H as [Hm H].
  case_bool_decide; constructor; auto. apply Forall_app. by split; [|repeat constructor].
Qed.

Lemma group_rows_Forall (P : RowContext DB -> Prop) (by_ : list Expr) (rows : list (RowContext DB)) (groups out : list (list Value * list (RowContext DB))) :
  group_rows by_ rows groups = Some (Ok out) -> Forall P rows -> Forall (fun g => Forall P (snd g)) groups -> Forall (fun g => Forall P (snd g)) out.
Proof.
  revert groups. induction rows as [|c rows IH]; intros groups H Hr Hg; cbn in H; [by injection H as <-|].
  apply Forall_cons in Hr as [Hc Hr]. done_inv H. eapply IH; [exact H | done|]. by apply push_group_Forall.
Qed.

Lemma execute_aggregation_wide (s : SelectStmt) (rows out : list (RowContext DB)) (schema : option TableSchema) (db : DB) :
  execute_aggregation s rows schema db = Some (Ok out) -> Forall (wide (length (columns_of schema))) rows ->
  Forall (wide (length (columns_of schema))) out.
Proof.
  intros H Hr. unfold execute_aggregation in H. apply ebind_done in H as (groups & Hg & H).
  assert (Forall (fun g : list Value * list (RowContext DB) => Forall (wide (length (columns_of schema))) (snd g)) groups) as Hw.
  { destruct (sel_group_by s) as [|e es]; [injection Hg as <-; by repeat constructor|]. by eapply group_rows_Forall. }
  clear Hg. apply ebind_done in H as (outs & Ho & [= <-]). apply Forall_concat. apply (traverse_Forall _ _ _ _ Ho).
  intros g ctxs Hin Hctx. apply ebind_done in Hctx as (c & Hc & Hctx). unfold group_ctx in Hc. apply ebind_done in Hc as (computed & _ & [= <-]).
  assert (wide (length (columns_of schema)) (with_computed computed (representative (snd g) schema db))) as Hwide.
  { unfold wide. cbn. pose proof (In_Forall _ _ _ Hw Hin) as Hm. cbn in Hm. destruct (snd g) as [|m ms]; cbn; [by unfold nulls; rewrite repeat_length|].
    by apply Forall_cons in Hm as [Hm _]. }
  destruct (sel_having s); [done_inv Hctx|]; injection Hctx as <-; [case_match|]; by repeat constructor.
Qed.

Lemma apply_windows_wide (n : nat) (ps : list Projection) (obs : list OrderBy) (rows out : list (RowContext DB)) :
  apply_window_functions ps obs rows = Some (Ok out) -> Forall (wide n) rows -> Forall (wide n) out.
Proof.
  unfold apply_window_functions. destruct (window_exprs ps obs) as [|w ws]; [by intros [= <-]|].
  destruct rows as [|c rows]; [by intros [= <-]|]. generalize (c :: rows). clear c rows. intros rows H Hr. done_inv H. injection H as <-.
  generalize (concat x). clear -Hr. intros vs. revert rows Hr. induction vs as [|[w' [i v]] vs IH]; intros rows Hr; cbn [fold_left]; [done|].
  apply IH. unfold add_computed. cbn [fst snd]. apply Forall_alter; [done|]. by intros c Hc.
Qed.

Lemma order_rows_perm (s : SelectStmt) (rows out : list (RowContext DB)) : order_rows s rows = Some (Ok out) -> Permutation rows out.
Proof.
  unfold order_rows. destruct (order_keys s); [by intros [= <-]|]. intros H. done_inv H. apply lift_done in H. by eapply slice_sort_permutes.
Qed.

Lemma limit_offset_Forall (P : RowContext DB -> Prop) (l o : option Expr) (params : list Value) (rows rows1 rows2 : list (RowContext DB)) :
  limit_rows l params rows = Some (Ok rows1) -> offset_rows o params rows1 = Some (Ok rows2) -> Forall P rows -> Forall P rows2.
Proof.
  intros Hl Ho H. assert (Forall P rows1) as H1.
  { destruct l; cbn in Hl; [done_inv Hl|]; injection Hl as <-; [by apply Forall_take | done]. }
  destruct o; cbn in Ho; [done_inv Ho|]; injection Ho as <-; [|done]. case_match; [by apply Forall_drop | constructor].
Qed.

Lemma project_row_width (ps : list Projection) (schema : option TableSchema) (fields : list FieldDescription) (c : RowContext DB) (cells : Row) :
  build_fields ps schema = Some (Ok fields) -> wide (length (columns_of schema)) c -> project_row ps c = Some (Ok cells) ->
  length cells = length fields.
Proof.
  intros Hf Hw Hp. unfold build_fields in Hf. apply ebind_done in Hf as (fs & Hf & [= <-]).
  unfold project_row in Hp. apply ebind_done in Hp as (cs & Hp & [= <-]). apply traverse_done in Hf. apply traverse_done in Hp.
  revert cs Hp. induction Hf as [|p f ps fs Hpf _ IH]; intros cs Hp; inversion Hp as [|? c' ? cs' Hc Hcs]; subst; [done|].
  cbn [concat]. rewrite !length_app, (IH _ Hcs). f_equal. clear IH Hcs Hp. destruct p; cbn in Hpf, Hc; [|done|].
  - destruct schema; [|done]. injection Hpf as <-. injection Hc as <-. by rewrite length_map.
  - done_inv Hc. injection Hc as <-. by injection Hpf as <-.
Qed.

Lemma process_rows_width (s : SelectStmt) (schema : option TableSchema) (db : DB) (params : list Value) (rows : list (RowContext DB))
    (fields : list FieldDescription) (out : list Row) :
  build_fields (sel_projections s) schema = Some (Ok fields) -> Forall (wide (length (columns_of schema))) rows ->
  process_rows s schema db params rows = Some (Ok out) -> Forall (fun r => length r = length fields) out.
Proof.
  intros Hf Hw H. unfold process_rows in H. apply ebind_done in H as (r1 & H1 & H). apply ebind_done in H as (r2 & H2 & H).
  apply ebind_done in H as (r3 & H3 & H). apply ebind_done in H as (r4 & H4 & H). apply ebind_done in H as (r5 & H5 & H).
  apply ebind_done in H as (r6 & H6 & H).
  assert (Forall (wide (length (columns_of schema))) r1) as W1.
  { destruct (sel_where s); cbn in H1; [by eapply keep_rows_Forall | by injection H1 as <-]. }
  assert (Forall (wide (length (columns_of schema))) r2) as W2.
  { destruct (is_aggregate_query s); [by eapply execute_aggregation_wide | by injection H2 as <-]. }
  apply apply_windows_wide with (n := length (columns_of schema)) in H3; [|done]. apply order_rows_perm in H4. rewrite H4 in H3.
  pose proof (limit_offset_Forall _ _ _ _ _ _ _ H5 H6 H3) as W6.
  apply (traverse_Forall _ _ _ _ H). intros c cells Hin. apply project_row_width with (schema := schema); [done|]. by apply (In_Forall _ _ _ W6).
Qed.

(** ** Tables and CTEs *)

(** What is stored has as many cells as its schema has columns. *)
Record rows_fit (db : DB) : Prop := mkRowsFit {
  rf_scan : forall txn t schema rows, get_table db t = Ok schema -> txn_scan db txn t = Ok rows -> fits schema (parse_rows rows);
  rf_index : forall t schema col v row, get_table db t = Ok (Some schema) -> index_lookup db t col v = Ok (Some row) -> fits (Some schema) (parse_rows [row]);
  rf_time : forall t schema col t0 t1 rows, get_table db t = Ok (Some schema) -> time_range_query db t col t0 t1 = Some rows -> fits (Some schema) (parse_rows rows);
  rf_spatial : forall t schema where_ rows, get_table db t = Ok (Some schema) -> spatial_hits db t where_ schema = Some (Some rows) -> fits (Some schema) (parse_rows rows);
  rf_virtual : forall t schema rows, virtual_table db t = Some (Ok (schema, rows)) -> fits (Some schema) rows;
  rf_graph : forall t args params schema rows, graph_function db t args params = Some (Ok (schema, rows)) -> fits schema rows;
}.

Definition ctes_fit (ctes : CteContext) : Prop := forall name rows schema, ctes !! name = Some (rows, schema) -> fits (Some schema) rows.
Definition result_fits (r : QueryResult) : Prop := Forall (fun row => length row = length (qr_fields r)) (qr_rows r).

Lemma schema_from_fields_fits (name : string) (r : QueryResult) : result_fits r -> fits (Some (schema_from_fields name (qr_fields r))) (qr_rows r).
Proof. unfold fits, result_fits. cbn. by rewrite length_map. Qed.

Context (rec : SelectStmt -> CteContext -> Eval (CteContext * QueryResult)).
Context (db : DB) (outer : list OuterRow) (params : list Value) (txn : option Txn).
Context (stored : rows_fit db) (good : SelectStmt -> bool).
Hypothesis rec_fits : forall s ctes ctes' r, good s = true -> ctes_fit ctes -> rec s ctes = Some (Ok (ctes', r)) -> ctes_fit ctes' /\ result_fits r.

Definition good_table (t : TableRef) : bool := match tr_subquery t with Some q => good q | None => true end.

Lemma resolve_table_ref_fits (t : TableRef) (ctes ctes' : CteContext) (src : Source) :
  good_table t = true -> ctes_fit ctes -> resolve_table_ref rec db params txn t ctes = Some (Ok (ctes', src)) ->
  ctes_fit ctes' /\ fits (fst src) (snd src).
Proof.
  intros Ht Hc H. unfold resolve_table_ref in H. unfold good_table in Ht. destruct (tr_subquery t) as [q|].
  - apply ebind_done in H as ([c r] & Hr & [= <- <-]). destruct (rec_fits _ _ _ _ Ht Hc Hr). split; [done|]. by apply schema_from_fields_fits.
  - destruct (tr_func_args t) as [args|].
    { apply ebind_done in H as ([schema rows] & Hr & [= <- <-]). split; [done|]. by eapply rf_graph. }
    destruct (ctes !! tr_name t) as [[rows schema]|] eqn:E; [injection H as <- <-; split; [done | by eapply Hc]|].
    destruct (virtual_table db (tr_name t)) as [r|] eqn:V.
    { apply ebind_done in H as ([schema rows] & Hr & [= <- <-]). split; [done|]. eapply rf_virtual; [done|]. rewrite V. f_equal. by injection Hr. }
    apply ebind_done in H as (schema & Hs & H). apply ebind_done in H as (rows & Hr & [= <- <-]). split; [done|].
    injection Hs as Hs. injection Hr as Hr. by eapply rf_scan.
Qed.

Lemma index_path_fits (t : string) (where_ : option Expr) (schema : TableSchema) (rows : list Row) :
  get_table db t = Ok (Some schema) -> index_path db t where_ schema = Some (Ok (Some rows)) -> fits (Some schema) rows.
Proof.
  intros Hs H. unfold index_path in H. apply ebind_done in H as (eq & _ & H). destruct eq as [[col lit]|].
  - destruct (indexed_column db t col); [|done]. apply ebind_done in H as (hit & Hh & [= <-]). injection Hh as Hh.
    destruct hit; [by eapply rf_index | constructor].
  - destruct (spatial_hits db t where_ schema) as [hits|] eqn:E.
    + destruct hits as [hits|]; [|done]. injection H as <-. by eapply rf_spatial.
    + apply ebind_done in H as (tp & _ & H). destruct tp as [[col [t0 t1]]|]; [|done]. destruct (indexed_column_time db t col); [|done].
      destruct (time_range_query db t col t0 t1) as [hits|] eqn:E'; [|done]. injection H as <-. by eapply rf_time.
Qed.

Lemma resolve_primary_fits (t : TableRef) (where_ : option Expr) (ctes ctes' : CteContext) (src : Source) :
  good_table t = true -> ctes_fit ctes -> resolve_primary_table rec db params txn t where_ ctes = Some (Ok (ctes', src)) ->
  ctes_fit ctes' /\ fits (fst src) (snd src).
Proof.
  intros Ht Hc H. unfold resolve_primary_table in H.
  pose proof (resolve_table_ref_fits t ctes ctes' src Ht Hc) as Hd.
  destruct txn; [by apply Hd|]. destruct (tr_subquery t); [by apply Hd|]. destruct (ctes !! tr_name t); [by apply Hd|].
  apply ebind_done in H as (schema & Hs & H). injection Hs as Hs. destruct schema as [schema|]; [|by apply Hd].
  apply ebind_done in H as (hits & Hh & H). destruct hits as [rows|]; [|by apply Hd]. injection H as <- <-. split; [done|]. by eapply index_path_fits.
Qed.

Lemma join_all_fits (joins : list Join) (order : list nat) (ctes ctes' : CteContext) (jd jd' : Joined) :
  Forall (fun j => good_table (j_table j) = true) joins -> ctes_fit ctes -> fits (jd_schema jd) (jd_rows jd) ->
  join_all gpu_pairs rec db params txn joins order (ctes, jd) = Some (Ok (ctes', jd')) ->
  ctes_fit ctes' /\ fits (jd_schema jd') (jd_rows jd').
Proof.
  intros Hj. revert ctes jd. induction order as [|i order IH]; intros ctes jd Hc Hf H; cbn [join_all] in H; [by injection H as <- <-|].
  apply ebind_done in H as (j & Hi & H). apply lift_done in Hi. apply ebind_done in H as ([ctes1 jd1] & H1 & H).
  apply (IH ctes1 jd1); [| |exact H]; unfold join_one in H1; apply ebind_done in H1 as ([c [schema rows]] & Hr & H1);
    apply ebind_done in H1 as (joined & Ha & [= <- <-]); apply lift_done in Ha;
    (destruct (resolve_table_ref_fits _ _ _ _ (In_Forall _ _ _ Hj ltac:(apply list_elem_of_In; by eapply list_elem_of_lookup_2)) Hc Hr) as [Hc' Hf']; cbn in Hf').
  - done.
  - cbn. by eapply apply_join_fits.
Qed.

Lemma execute_from_fits (s : SelectStmt) (twj : TableWithJoins) (ctes ctes' : CteContext) (r : QueryResult) :
  good_table (twj_primary twj) = true -> Forall (fun j => good_table (j_table j) = true) (twj_joins twj) -> ctes_fit ctes ->
  execute_from gpu_pairs rec db outer params txn s twj ctes = Some (Ok (ctes', r)) -> ctes_fit ctes' /\ result_fits r.
Proof.
  intros Hp Hj Hc H. unfold execute_from in H. apply ebind_done in H as ([c src] & Hs & H). cbn [fst snd] in H.
  destruct (resolve_primary_fits _ _ _ _ _ Hp Hc Hs) as [Hc1 Hf1].
  apply ebind_done in H as ([c2 jd] & Hjd & H). destruct (join_all_fits _ _ _ _ (primary_joined (twj_primary twj) src) _ Hj Hc1 Hf1 Hjd) as [Hc2 Hf2].
  apply ebind_done in H as (fields & Hfields & H). apply ebind_done in H as (rows & Hrows & [= <- <-]). split; [done|].
  unfold result_fits. cbn. eapply process_rows_width; [exact Hfields| |exact Hrows]. apply Forall_map. exact Hf2.
Qed.

End PipelineWidth.

(** ** Queries *)

(** Queries without set operations and without CTEs that rename their columns,
    in what they select from too. *)
Fixpoint shaped (s : SelectStmt) : bool :=
  let 'mkSelectStmt ctes _ _ from_ _ _ _ _ _ _ union_ := s in
  match union_ with
  | Some _ => false
  | None => forallb shaped_cte ctes && match from_ with Some t => shaped_from t | None => true end
  end
with shaped_cte (c : Cte) : bool :=
  let 'mkCte _ columns subquery _ := c in match columns with [] => shaped subquery | _ => false end
with shaped_from (t : TableWithJoins) : bool :=
  let 'mkTableWithJoins primary joins := t in shaped_table primary && forallb shaped_join joins
with shaped_table (t : TableRef) : bool :=
  let 'mkTableRef _ _ subquery _ := t in match subquery with Some q => shaped q | None => true end
with shaped_join (j : Join) : bool := let 'mkJoin _ table _ := j in shaped_table table.

Lemma shaped_good_table (t : TableRef) : shaped_table t = true -> good_table shaped t = true.
Proof. by destruct t as [? ? [|] ?]. Qed.

Section Widths.
  Context {DB Txn : Type} {functions : Functions DB} {catalog : Catalog DB Txn} {std : StdLib} {crates : Crates} {js : Json} {sorts : SortBy}.
  Context (gpu_pairs : Expr -> option TableSchema -> option TableSchema -> list Row -> list Row -> option (list (nat * nat))).

Lemma materialize_fits (rec : SelectStmt -> CteContext -> Eval (CteContext * QueryResult)) (l : list Cte) (ctes ctes' : CteContext) :
  (forall s ctes ctes' r, shaped s = true -> ctes_fit ctes -> rec s ctes = Some (Ok (ctes', r)) -> ctes_fit ctes' /\ result_fits r) ->
  forallb shaped_cte l = true -> ctes_fit ctes -> materialize_ctes rec l ctes = Some (Ok ctes') -> ctes_fit ctes'.
Proof.
  intros Hrec. revert ctes. induction l as [|c l IH]; intros ctes Hl Hc H; cbn [materialize_ctes] in H; [by injection H as <-|].
  cbn [forallb] in Hl. apply andb_true_iff in Hl as [Hs Hl]. apply ebind_done in H as (c1 & H1 & H). apply (IH c1 Hl); [|exact H].
  destruct c as [name cols q rc]. destruct cols as [|]; [|done]. cbn [shaped_cte] in Hs.
  assert (sel_union q = None) as Hu by (destruct q as [? ? ? ? ? ? ? ? ? ? [|]]; [by cbn in Hs | done]).
  unfold materialize_cte in H1. cbn [cte_recursive cte_subquery cte_name] in H1. rewrite Hu in H1.
  assert ((let* r := rec q ctes in done (<[name:=(qr_rows r.2, cte_schema (mkCte name [] q rc) (qr_fields r.2))]> r.1)) = Some (Ok c1)) as H2 by (by destruct rc).
  clear H1. apply ebind_done in H2 as ([c2 r] & Hr & [= <-]). destruct (Hrec _ _ _ _ Hs Hc Hr) as [Hc2 Hf]. cbn [fst snd].
  intros n rows schema. rewrite lookup_insert. case_decide as Hn; [|apply Hc2]. intros [= <- <-]. unfold cte_schema. cbn. by apply schema_from_fields_fits.
Qed.

Lemma execute_select_fits (fuel : nat) (db : DB) (outer : list OuterRow) (params : list Value) (txn : option Txn) (s : SelectStmt)
    (ctes ctes' : CteContext) (r : QueryResult) :
  rows_fit db -> shaped s = true -> ctes_fit ctes ->
  execute_select gpu_pairs fuel db outer params txn s ctes = Some (Ok (ctes', r)) -> ctes_fit ctes' /\ result_fits r.
Proof.
  intros Hdb. revert s ctes ctes' r. induction fuel as [|fuel IH]; intros s ctes ctes' r Hs Hc H; [done|].
  cbn [execute_select] in H. unfold select_step in H. destruct s as [cl d ps from w g h ob l o [|]]; [done|].
  cbn [shaped] in Hs. apply andb_true_iff in Hs as [Hcl Hfrom]. cbn [sel_union sel_ctes sel_from] in H.
  apply ebind_done in H as (c1 & H1 & H). apply materialize_fits in H1; [|exact IH | done | done].
  destruct from as [[p joins]|].
  - cbn [shaped_from] in Hfrom. apply andb_true_iff in Hfrom as [Hp Hj].
    eapply execute_from_fits; [exact Hdb | exact IH | | | exact H1 | exact H]; cbn [twj_primary twj_joins]; [by apply shaped_good_table|].
    apply Forall_forall. intros j Hin%list_elem_of_In. rewrite forallb_forall in Hj. specialize (Hj j Hin). apply shaped_good_table. by destruct j.
  - apply ebind_done in H as (r' & Hr & [= <- <-]). split; [done|]. unfold execute_projection_only in Hr.
    apply ebind_done in Hr as (cells & _ & [= <-]). unfold result_fits. cbn. repeat constructor. by rewrite !length_map.
Qed.

(** C20. Every row of a result has one cell for each field. Where the stored rows
    have the cells that their schemas announce, so have the rows of every query
    without set operations and without CTEs that rename their columns, through
    derived tables, CTEs, joins of every kind, groups, windows and sorting: the
    row description that a client is sent fits the rows that follow. *)
Theorem select_rows_match_fields (fuel : nat) (db : DB) (txn : option Txn) (params : list Value) (s : SelectStmt) (r : QueryResult) :
  rows_fit db -> shaped s = true -> query gpu_pairs fuel db txn params s = Some (Ok r) ->
  Forall (fun row => length row = length (qr_fields r)) (qr_rows r).
Proof.
  intros Hdb Hs H. unfold query in H. apply ebind_done in H as ([c r'] & H & [= <-]).
  apply (execute_select_fits fuel db [] params txn s ∅ c r' Hdb Hs); [|exact H]. intros n rows schema Hn. by rewrite lookup_empty in Hn.
Qed.

End Widths.
