(* ===== verification/SelectFacts.v ===== *)
(** What a query returns: groups, order and recursion. *)

From Stdlib Require Import Strings.Byte Strings.String ZArith Lia Bool Permutation Sorted.
From stdpp Require Import base list strings gmap.
From S2P Require Import Prelude OrdMap Utf8 Decimal Compress Flux Rows Jsonb Ast Lexer Float Values JsonOps Eval ExprEq Joins Sorting Windows Planner Select SelectWidths.

Open Scope Z_scope.
Open Scope eval_scope.

(** ** Groups *)

(** The keys in the order in which they are first seen. *)
Fixpoint first_of_each {A : Type} `{!EqDecision A} (seen l : list A) : list A :=
  match l with
  | [] => []
  | x :: l' => if bool_decide (x ∈ seen) then first_of_each seen l' else x :: first_of_each (x :: seen) l'
  end.

Lemma first_of_each_In {A : Type} `{!EqDecision A} (seen l : list A) (x : A) : In x (first_of_each seen l) <-> In x l /\ x ∉ seen.
Proof.
  revert seen. induction l as [|y l IH]; intros seen; cbn; [tauto|]. case_bool_decide as Hy.
  - rewrite IH. split; [tauto|]. intros [[->|Hx] Hs]; [done | tauto].
  - cbn. rewrite IH, not_elem_of_cons. destruct (decide (x = y)) as [->|Hne]; [tauto|]. split; [|tauto].
    intros [->|[Hx [_ Hs]]]; [done | tauto].
Qed.

Lemma first_of_each_NoDup {A : Type} `{!EqDecision A} (seen l : list A) : NoDup (first_of_each seen l).
Proof.
  revert seen. induction l as [|y l IH]; intros seen; cbn; [constructor|]. case_bool_decide; [done|]. constructor; [|done].
  intros [_ Hn]%list_elem_of_In%first_of_each_In. apply Hn. by apply elem_of_cons; left.
Qed.

Lemma filter_none {A : Type} (p : A -> bool) (l : list A) : (forall x, In x l -> p x = false) -> List.filter p l = [].
Proof.
  induction l as [|x l IH]; intros H; [done|]. cbn. rewrite (H x) by (by left). apply IH. intros. apply H. by right.
Qed.

Section Groups.
  Context {DB : Type} {world : World DB} {std : StdLib} {crates : Crates} {js : Json}.
  Context (key : RowContext DB -> list Value).

Definition members (k : list Value) (rows : list (RowContext DB)) : list (RowContext DB) :=
  List.filter (fun r => bool_decide (key r = k)) rows.

Definition grouped (rows : list (RowContext DB)) : list (list Value * list (RowContext DB)) :=
  map (fun k => (k, members k rows)) (first_of_each [] (map key rows)).

Lemma push_group_spec (ks : list (list Value)) (rows : list (RowContext DB)) (r : RowContext DB) :
  NoDup ks ->
  push_group (key r) r (map (fun k => (k, members k rows)) ks)
  = map (fun k => (k, members k (rows ++ [r]))) ks ++ (if bool_decide (key r ∈ ks) then [] else [(key r, [r])]).
Proof.
  unfold members. induction ks as [|k ks IH]; intros Hn; cbn [map push_group].
  - by rewrite bool_decide_eq_false_2 by apply not_elem_of_nil.
  - apply NoDup_cons in Hn as [Hk Hn]. rewrite (List.filter_app _ rows [r]). cbn [List.filter].
    assert (forall k', k' ∈ ks -> key r = k -> members k' (rows ++ [r]) = members k' rows) as Hother.
    { intros k' Hk' <-. unfold members. rewrite List.filter_app. cbn [List.filter]. rewrite bool_decide_eq_false_2 by (intros E; subst; done). by rewrite app_nil_r. }
    destruct (decide (k = key r)) as [->|Hne].
    + rewrite !(bool_decide_eq_true_2 (key r = key r)) by done. rewrite (bool_decide_eq_true_2 (_ ∈ _)) by (by apply elem_of_cons; left).
      rewrite app_nil_r. cbn [app]. f_equal. apply map_ext_in. intros k' Hk'%list_elem_of_In. f_equal. symmetry. by apply Hother.
    + rewrite (bool_decide_eq_false_2 (k = key r)), (bool_decide_eq_false_2 (key r = k)) by done. rewrite app_nil_r. cbn [app].
      f_equal. rewrite IH by done. f_equal. case_bool_decide as Hin.
      * by rewrite bool_decide_eq_true_2 by (by apply elem_of_cons; right).
      * rewrite bool_decide_eq_false_2; [done|]. by intros [E|?]%elem_of_cons; [apply Hne|].
Qed.

Lemma first_of_each_app {A : Type} `{!EqDecision A} (seen l : list A) (x : A) :
  first_of_each seen (l ++ [x]) = first_of_each seen l ++ (if bool_decide (x ∈ seen ++ first_of_each seen l) then [] else [x]).
Proof.
  revert seen. induction l as [|y l IH]; intros seen; cbn [app first_of_each].
  - rewrite app_nil_r. cbn. by case_bool_decide.
  - case_bool_decide as Hy; [apply IH|]. cbn [app]. f_equal. rewrite IH. f_equal.
    assert (forall b1 b2 : bool, (b1 = true <-> b2 = true) -> (if b1 then [] else [x]) = if b2 then [] else [x]) as Hb by (intros [] []; intros H; by destruct H; try done; tauto || (exfalso; naive_solver)).
    apply Hb. rewrite !bool_decide_eq_true. set_solver.
Qed.

Lemma group_rows_spec (by_ : list Expr) (rows before : list (RowContext DB)) :
  (forall r, In r rows -> exists vs, traverse (eval r) by_ = Some (Ok vs) /\ key r = map debug_key vs) ->
  group_rows by_ rows (grouped before) = Some (Ok (grouped (before ++ rows))).
Proof.
  revert before. induction rows as [|r rows IH]; intros before Hk; cbn [group_rows]; [by rewrite app_nil_r|].
  destruct (Hk r ltac:(by left)) as (vs & -> & Hr). cbn [ebind]. rewrite <- Hr.
  assert (push_group (key r) r (grouped before) = grouped (before ++ [r])) as ->.
  { unfold grouped at 1. rewrite push_group_spec by apply first_of_each_NoDup. unfold grouped. rewrite (map_app key). cbn [map]. rewrite first_of_each_app, map_app. cbn [app].
    f_equal. case_bool_decide as Hin; [done|]. cbn. f_equal. f_equal. unfold members. rewrite List.filter_app. cbn.
    rewrite bool_decide_eq_true_2 by done.
    rewrite filter_none; [done|]. intros x Hx. apply bool_decide_eq_false_2. intros Hkx. apply Hin. apply list_elem_of_In, first_of_each_In.
    split; [|apply not_elem_of_nil]. rewrite <- Hkx. by apply in_map. }
  rewrite IH by (intros; apply Hk; by right). by rewrite <- app_assoc.
Qed.

End Groups.

(** *** Aggregates of a group *)

Lemma computed_get_In (m : list (Expr * Value)) (e : Expr) :
  In e (map fst m) -> exists v, computed_get (Some m) e = Some v /\ In (e, v) m.
Proof.
  induction m as [|[e' v'] m IH]; [done|]. cbn. destruct (expr_eqb e' e) eqn:E.
  - apply expr_eqb_sound in E as ->. intros _. exists v'. split; [done | by left].
  - intros [->|H]; [by rewrite expr_eqb_refl in E|]. destruct (IH H) as (v & Hv & Hin). exists v. split; [done | by right].
Qed.

Section Aggregation.
  Context {DB Txn : Type} {world : World DB} {std : StdLib} {crates : Crates} {js : Json}.

Definition aggregate_value (members : list Row) (schema : option TableSchema) (db : DB) (e : Expr) (v : Value) : Prop :=
  exists name args distinct, e = Expr_Function name args distinct
    /\ eval_aggregate name (head args) distinct members schema (Some db) = Some (Ok v).

Lemma compute_aggregates_spec (aggs : list Expr) (ms : list Row) (schema : option TableSchema) (db : DB) (computed out : list (Expr * Value)) :
  compute_aggregates aggs ms schema db computed = Some (Ok out) ->
  (forall e v, In (e, v) computed -> aggregate_value ms schema db e v) ->
  (forall e v, In (e, v) out -> aggregate_value ms schema db e v)
  /\ (forall e, In e (map fst computed) -> In e (map fst out))
  /\ (forall name args distinct, In (Expr_Function name args distinct) aggs -> In (Expr_Function name args distinct) (map fst out)).
Proof.
  revert computed. induction aggs as [|e aggs IH]; intros computed H Hc; cbn [compute_aggregates] in H.
  - injection H as <-. split_and!; [done | done | by intros].
  - destruct (existsb _ computed) eqn:Ex.
    + destruct (IH _ H Hc) as (H1 & H2 & H3). split_and!; [done | done|]. intros name args d [->|Hin]; [|by apply H3].
      apply H2. apply existsb_exists in Ex as ([e' v] & Hin & He). cbn in He. apply expr_eqb_sound in He as ->. by apply (in_map fst) in Hin.
    + assert (compute_aggregates aggs ms schema db computed = Some (Ok out) -> (forall name args d, e <> Expr_Function name args d) ->
        (forall e v, In (e, v) out -> aggregate_value ms schema db e v) /\ (forall e, In e (map fst computed) -> In e (map fst out))
        /\ (forall name args distinct, In (Expr_Function name args distinct) (e :: aggs) -> In (Expr_Function name args distinct) (map fst out))) as Hskip.
      { intros H' Hne. destruct (IH _ H' Hc) as (H1 & H2 & H3). split_and!; [done | done|]. intros name args d [He|Hin]; [by destruct (Hne name args d) | by apply H3]. }
      destruct e; try (by apply Hskip). clear Hskip. apply ebind_done in H as (v & Hv & H).
      destruct (IH _ H) as (H1 & H2 & H3).
      { intros e v' [[= <- <-]|Hin]; [by repeat eexists | by apply Hc]. }
      split_and!; [done | intros e He; apply H2; by right|]. intros name' args' d [He|Hin]; [|by apply H3].
      rewrite He in H2. apply H2. by left.
Qed.

Lemma group_ctx_spec (s : SelectStmt) (schema : option TableSchema) (db : DB) (ms : list (RowContext DB)) (c : RowContext DB) :
  group_ctx s schema db ms = Some (Ok c) ->
  rc_values c = rc_values (representative ms schema db)
  /\ forall name args distinct, In (Expr_Function name args distinct) (aggregate_exprs s) ->
       exists v, eval_aggregate name (head args) distinct (map rc_values ms) schema (Some db) = Some (Ok v)
         /\ eval c (Expr_Function name args distinct) = Some (Ok v).
Proof.
  intros H. apply ebind_done in H as (computed & Hc & [= <-]). split; [done|]. intros name args d Hin.
  destruct (compute_aggregates_spec _ _ _ _ _ _ Hc) as (H1 & _ & H3); [by intros|].
  destruct (computed_get_In computed (Expr_Function name args d)) as (v & Hg & Hv); [by apply H3|].
  destruct (H1 _ _ Hv) as (n & a & d' & [= <- <- <-] & He). exists v. split; [done|]. cbn [eval]. cbn [with_computed rc_computed]. by rewrite Hg.
Qed.

(** C21. GROUP BY partitions the rows. The result has one row for every key that the
    rows have, told apart by their printed values, in the order in which the
    keys first appear; the row stands for the group of all the rows with the
    key: it has the cells of the first of them, and an aggregate evaluates on
    it to the aggregate of the group. *)
Theorem group_by_partitions_the_rows (s : SelectStmt) (rows out : list (RowContext DB)) (schema : option TableSchema) (db : DB)
    (key : RowContext DB -> list Value) :
  sel_group_by s <> [] -> sel_having s = None ->
  (forall r, In r rows -> exists vs, traverse (eval r) (sel_group_by s) = Some (Ok vs) /\ key r = map debug_key vs) ->
  execute_aggregation s rows schema db = Some (Ok out) ->
  let keys := first_of_each [] (map key rows) in
  NoDup keys /\ (forall k, In k keys <-> exists r, In r rows /\ key r = k)
  /\ Forall2 (fun k c =>
       rc_values c = rc_values (representative (members key k rows) schema db)
       /\ forall name args distinct, In (Expr_Function name args distinct) (aggregate_exprs s) ->
            exists v, eval_aggregate name (head args) distinct (map rc_values (members key k rows)) schema (Some db) = Some (Ok v)
              /\ eval c (Expr_Function name args distinct) = Some (Ok v)) keys out.
Proof.
  intros Hg Hh Hk H keys. split_and!; [apply first_of_each_NoDup| |].
  - intros k. unfold keys. rewrite first_of_each_In, in_map_iff. split; [intros [(r & <- & Hr) _]; by exists r|].
    intros (r & Hr & <-). split; [by exists r | apply not_elem_of_nil].
  - unfold execute_aggregation in H. rewrite Hh in H. destruct (sel_group_by s) as [|g gs] eqn:E; [done|].
    pose proof (group_rows_spec key (g :: gs) rows [] Hk) as Hs. unfold grouped at 1 in Hs. cbn [map first_of_each app] in Hs.
    rewrite Hs in H. cbn [ebind] in H. apply ebind_done in H as (outs & Ho & [= <-]). apply traverse_done in Ho. unfold grouped in Ho.
    fold keys in Ho. clearbody keys. clear -Ho. revert outs Ho. induction keys as [|k keys IH]; intros outs Ho; inversion Ho as [|? o ? os H1 H2]; subst; [constructor|].
    apply ebind_done in H1 as (c & Hc & [= <-]). cbn [concat app]. constructor; [by apply group_ctx_spec | by apply IH].
Qed.

End Aggregation.

(** ** Order *)

(** Comparison by keys one after the other; a key that is not ascending counts
    the other way round. *)
Section Lexicographic.
  Context {A K : Type} (by_key : K -> A -> A -> Z) (l : list A).
  Hypothesis opposite : forall k a b, In a l -> In b l -> by_key k b a = - by_key k a b.
  Hypothesis transitive : forall k a b c, In a l -> In b l -> In c l -> by_key k a b <= 0 -> by_key k b c <= 0 -> by_key k a c <= 0.

Fixpoint compare_keys (keys : list (K * bool)) (a b : A) : comparison :=
  match keys with
  | [] => Eq
  | (k, asc) :: keys' =>
      let c := by_key k a b in
      if c =? 0 then compare_keys keys' a b else if eqb asc (c <? 0) then Lt else Gt
  end.

Lemma compare_keys_opposite (keys : list (K * bool)) (a b : A) :
  In a l -> In b l -> compare_keys keys b a = CompOpp (compare_keys keys a b).
Proof.
  intros Ha Hb. induction keys as [|[k asc] keys IH]; [done|]. cbn. rewrite (opposite k a b) by done.
  destruct (Z.eqb_spec (by_key k a b) 0) as [->|Hne]; [done|]. rewrite (proj2 (Z.eqb_neq _ 0)) by lia.
  destruct (Z.ltb_spec (by_key k a b) 0), (Z.ltb_spec (- by_key k a b) 0); try lia; by destruct asc.
Qed.

Lemma compare_keys_transitive (keys : list (K * bool)) (a b c : A) :
  In a l -> In b l -> In c l -> compare_keys keys a b <> Gt -> compare_keys keys b c <> Gt -> compare_keys keys a c <> Gt.
Proof.
  intros Ha Hb Hc. induction keys as [|[k asc] keys IH]; [done|]. cbn.
  pose proof (transitive k a b c Ha Hb Hc). pose proof (transitive k c b a Hc Hb Ha). pose proof (transitive k b a c Hb Ha Hc).
  pose proof (transitive k a c b Ha Hc Hb). pose proof (transitive k c a b Hc Ha Hb). pose proof (transitive k b c a Hb Hc Ha).
  pose proof (opposite k a b Ha Hb). pose proof (opposite k b c Hb Hc). pose proof (opposite k a c Ha Hc).
  destruct (Z.eqb_spec (by_key k a b) 0), (Z.eqb_spec (by_key k b c) 0), (Z.eqb_spec (by_key k a c) 0); try done;
    destruct asc, (Z.ltb_spec (by_key k a b) 0), (Z.ltb_spec (by_key k b c) 0), (Z.ltb_spec (by_key k a c) 0); cbn; intros; try done; exfalso; lia.
Qed.

Lemma compare_keys_preorder (keys : list (K * bool)) : total_preorder (compare_keys keys) l.
Proof. split; [intros; by apply compare_keys_opposite | intros a b c; apply compare_keys_transitive]. Qed.

End Lexicographic.

Section Ordered.
  Context {DB Txn : Type} {world : World DB} {std : StdLib} {crates : Crates} {js : Json} {sorts : SortBy}.
  Context (val : RowContext DB -> Expr -> Value).

(** How the values of a key compare. *)
Definition key_order (e : Expr) (a b : RowContext DB) : Z := match value_compare (val a e) (val b e) with Ok c => c | Err _ => 0 end.

(** [val] gives the keys of the rows, and the values of a key are of one kind. *)
Definition sortable (keys : list (Expr * bool)) (rows : list (RowContext DB)) : Prop :=
  forall k, In k keys -> (forall r, In r rows -> eval r (fst k) = Some (Ok (val r (fst k))))
    /\ all_same_kind (map (fun r => val r (fst k)) rows).

Lemma compare_rows_val (keys : list (Expr * bool)) (rows : list (RowContext DB)) (a b : RowContext DB) :
  sortable keys rows -> In a rows -> In b rows -> compare_rows keys a b = Some (compare_keys key_order keys a b).
Proof.
  induction keys as [|[e asc] keys IH]; intros Hs Ha Hb; [done|]. cbn [compare_rows compare_keys].
  destruct (Hs (e, asc) ltac:(by left)) as [He _]. cbn in He. unfold key_of. rewrite (He a Ha), (He b Hb). cbn [unwrap_or mbind option_bind].
  fold (key_order e a b). destruct (key_order e a b =? 0); [|done]. apply IH; [|done..]. intros k Hk. apply Hs. by right.
Qed.

Lemma key_order_facts (e : Expr) (rows : list (RowContext DB)) :
  all_same_kind (map (fun r => val r e) rows) ->
  (forall a b, In a rows -> In b rows -> key_order e b a = - key_order e a b)
  /\ (forall a b c, In a rows -> In b rows -> In c rows -> key_order e a b <= 0 -> key_order e b c <= 0 -> key_order e a c <= 0).
Proof.
  intros Hk. assert (forall a b, In a rows -> In b rows -> same_kind (val a e) (val b e) = true) as Hs
    by (intros; apply Hk; by apply (in_map (fun r => val r e))).
  split.
  - intros a b Ha Hb. unfold key_order. pose proof (value_compare_opp (val a e) (val b e)) as Ho.
    destruct (value_compare_total _ _ (Hs a b Ha Hb)) as [c Hc]. rewrite Hc in *. by rewrite Ho.
  - intros a b c Ha Hb Hc. unfold key_order. destruct (value_compare_total _ _ (Hs a b Ha Hb)) as [x Hx].
    destruct (value_compare_total _ _ (Hs b c Hb Hc)) as [y Hy]. rewrite Hx, Hy. intros H1 H2.
    destruct (value_compare_trans _ _ _ _ _ (Hs a b Ha Hb) (Hs b c Hb Hc) Hx Hy H1 H2) as (z & -> & Hz). done.
Qed.

Lemma compare_keys_sub {A K : Type} (f g : K -> A -> A -> Z) (keys : list (K * bool)) (a b : A) :
  (forall k, In k keys -> f (fst k) a b = g (fst k) a b) -> compare_keys f keys a b = compare_keys g keys a b.
Proof.
  induction keys as [|[k asc] keys IH]; intros H; [done|]. cbn. pose proof (H (k, asc) ltac:(by left)) as Hk. cbn in Hk. rewrite Hk.
  rewrite IH by (intros; apply H; by right). done.
Qed.

Lemma sortable_preorder (keys : list (Expr * bool)) (rows : list (RowContext DB)) :
  sortable keys rows -> total_preorder (compare_keys key_order keys) rows.
Proof.
  intros Hs. set (g e a b := if existsb (fun k => expr_eqb (fst k) e) keys then key_order e a b else 0).
  assert (forall e, existsb (fun k => expr_eqb (fst k) e) keys = true -> all_same_kind (map (fun r => val r e) rows)) as Hk.
  { intros e He. apply existsb_exists in He as (k & Hk & He). apply expr_eqb_sound in He as <-. by apply Hs. }
  assert (forall a b, compare_keys key_order keys a b = compare_keys g keys a b) as Heq.
  { intros a b. apply compare_keys_sub. intros k Hin. unfold g. rewrite (proj2 (existsb_exists _ _)); [done|]. exists k. split; [done | apply expr_eqb_refl]. }
  assert (total_preorder (compare_keys g keys) rows) as [Ho Ht].
  { apply compare_keys_preorder.
    - intros e a b Ha Hb. unfold g. destruct (existsb _ keys) eqn:E; [|done]. by apply (proj1 (key_order_facts e rows (Hk e E))).
    - intros e a b c Ha Hb Hc. unfold g. destruct (existsb _ keys) eqn:E; [|lia]. by apply (proj2 (key_order_facts e rows (Hk e E))). }
  split; unfold not_greater; intros *; rewrite !Heq; [apply Ho | apply Ht].
Qed.

Lemma order_rows_sorts (s : SelectStmt) (rows : list (RowContext DB)) :
  sortable (order_keys s) rows ->
  order_rows s rows = Some (Ok (match order_keys s with [] => rows | keys => stable_sort (compare_keys key_order keys) rows end)).
Proof.
  intros Hs. unfold order_rows. destruct (order_keys s) as [|k keys] eqn:E; [done|]. rewrite <- E in *. clear E k keys.
  rewrite (proj2 (traverse_done _ rows (map (fun r => map (fun k => val r (fst k)) (order_keys s)) rows))).
  - cbn [ebind]. erewrite slice_sort_sorts; [done| |by apply sortable_preorder]. intros a b Ha Hb. by apply (compare_rows_val _ rows).
  - assert (forall r, In r rows -> traverse (fun k => eval r (fst k)) (order_keys s) = Some (Ok (map (fun k => val r (fst k)) (order_keys s)))) as Hr.
    { intros r Hr. apply traverse_done. unfold sortable in Hs. induction (order_keys s) as [|k keys IH]; [constructor|]. cbn.
      constructor; [by apply (Hs k ltac:(by left)) | apply IH; intros; apply Hs; by right]. }
    clear Hs. induction rows as [|r rows IH]; constructor; [apply Hr; by left | apply IH; intros; apply Hr; by right].
Qed.

End Ordered.

Section Selected.
  Context {DB Txn : Type} {world : World DB} {catalog : Catalog DB Txn} {std : StdLib} {crates : Crates} {js : Json} {sorts : SortBy}.

(** The number of LIMIT or OFFSET, [d] when there is none. *)
Definition counts (e : option Expr) (params : list Value) (d n : Z) : Prop :=
  match e with
  | Some e => eval_expr (DB := DB) e params = Some (Ok (Value_Int n)) /\ 0 <= n
  | None => n = d
  end.

Lemma limit_rows_take (e : option Expr) (params : list Value) (n : Z) (rows : list (RowContext DB)) :
  counts e params (zlen rows) n -> limit_rows e params rows = Some (Ok (take (Z.to_nat n) rows)).
Proof.
  unfold counts, limit_rows. destruct e as [e|].
  - intros [-> Hn]. cbn. rewrite Z.max_l by lia. do 2 f_equal. unfold zlen. destruct (Z.min_spec n (Z.of_nat (length rows))) as [[_ ->]|[Hle ->]]; [done|].
    rewrite !take_ge; [done | lia | lia].
  - intros ->. unfold zlen. by rewrite take_ge by lia.
Qed.

Lemma offset_rows_drop (e : option Expr) (params : list Value) (n : Z) (rows : list (RowContext DB)) :
  counts e params 0 n -> offset_rows e params rows = Some (Ok (drop (Z.to_nat n) rows)).
Proof.
  unfold counts, offset_rows. destruct e as [e|].
  - intros [-> Hn]. cbn. rewrite Z.max_l by lia. destruct (Z.ltb_spec n (zlen rows)) as [|H]; [done|]. unfold zlen in H. by rewrite drop_ge by lia.
  - by intros ->.
Qed.

Lemma keep_rows_filter (p : RowContext DB -> bool) (e : Expr) (rows : list (RowContext DB)) :
  (forall r, In r rows -> exists v, eval r e = Some (Ok v) /\ p r = is_truthy v) -> keep_rows e rows = Some (Ok (List.filter p rows)).
Proof.
  induction rows as [|r rows IH]; intros H; [done|]. cbn. destruct (H r ltac:(by left)) as (v & -> & ->). cbn.
  rewrite IH by (intros; apply H; by right). done.
Qed.

(** C19. A query filters, sorts, cuts and projects. Where the predicate, the sort
    keys and the counts evaluate, and the values of every key are of one kind
    and not NULL, a query without aggregates and windows returns the
    projections of the rows that satisfy the predicate, in a stable order by
    the keys, of which LIMIT keeps the first ones and OFFSET, after that, drops
    the first ones. DISTINCT makes no difference: rows that repeat another are
    returned ([select_distinct_is_ignored]). *)
Theorem select_filters_sorts_and_cuts (s : SelectStmt) (schema : option TableSchema) (db : DB) (params : list Value) (rows : list (RowContext DB))
    (p : RowContext DB -> bool) (val : RowContext DB -> Expr -> Value) (n m : Z) :
  is_aggregate_query s = false -> window_exprs (sel_projections s) (sel_order_by s) = [] ->
  (forall r, In r rows -> match sel_where s with Some w => exists v, eval r w = Some (Ok v) /\ p r = is_truthy v | None => p r = true end) ->
  sortable val (order_keys s) (List.filter p rows) ->
  counts (sel_limit s) params (zlen (List.filter p rows)) n -> counts (sel_offset s) params 0 m ->
  exists sorted,
    Permutation (List.filter p rows) sorted
    /\ StronglySorted (not_greater (compare_keys (key_order val) (order_keys s))) sorted
    /\ (forall z, In z sorted -> List.filter (equal_to (compare_keys (key_order val) (order_keys s)) z) sorted
                                 = List.filter (equal_to (compare_keys (key_order val) (order_keys s)) z) (List.filter p rows))
    /\ process_rows s schema db params rows = traverse (project_row (sel_projections s)) (drop (Z.to_nat m) (take (Z.to_nat n) sorted)).
Proof.
  intros Ha Hw Hp Hs Hn Hm.
  assert (filter_rows (sel_where s) rows = Some (Ok (List.filter p rows))) as Hf.
  { destruct (sel_where s); [by apply keep_rows_filter|]. change (Some (@Ok string _ rows) = Some (Ok (List.filter p rows))). do 2 f_equal. clear -Hp. induction rows as [|r rows IH]; [done|]. cbn.
    rewrite (Hp r) by (by left). f_equal. apply IH. intros. apply Hp. by right. }
  set (kept := List.filter p rows) in *. set (f := compare_keys (key_order val) (order_keys s)).
  assert (total_preorder f kept) as Ht by (by apply sortable_preorder). exists (stable_sort f kept). split_and!.
  - apply stable_sort_perm.
  - by apply stable_sort_sorted.
  - intros z Hz%stable_sort_in. apply stable_sort_stable. eapply total_preorder_sub; [|done]. by intros x [->|Hx].
  - unfold process_rows. rewrite Hf. cbn [ebind]. rewrite Ha. cbn [ebind done]. unfold apply_window_functions. rewrite Hw. cbn [ebind done].
    rewrite (order_rows_sorts val) by done. cbn [ebind].
    replace (match order_keys s with [] => kept | keys => stable_sort (compare_keys (key_order val) keys) kept end) with (stable_sort f kept).
    + rewrite (limit_rows_take _ _ n); [|unfold zlen in *; by rewrite <- (Permutation_length (stable_sort_perm f kept))].
      cbn [ebind]. by rewrite (offset_rows_drop _ _ m).
    + unfold f. destruct (order_keys s); [|done]. clear. induction kept as [|r l IH]; [done|]. cbn [stable_sort].
      rewrite IH. by destruct l.
Qed.

End Selected.

(** ** Recursive CTEs *)

Section Recursion.
  Context (rec : SelectStmt -> CteContext -> Eval (CteContext * QueryResult)).
  Context (term : SelectStmt) (name : string) (schema : TableSchema) (ctes : CteContext) (W : nat -> list Row).

(** The recursive term on the rows of one step gives those of the next. *)
Definition steps (i : nat) : Prop :=
  exists r, rec term (<[name := (W i, schema)]> ctes) = Some (Ok (<[name := (W i, schema)]> ctes, r)) /\ qr_rows r = W (S i).

(** [c] differs from [ctes] at the name of the CTE only. *)
Definition same_elsewhere (c : CteContext) : Prop := forall x, <[name := x]> c = <[name := x]> ctes.

Lemma same_elsewhere_insert (x : list Row * TableSchema) : same_elsewhere (<[name := x]> ctes).
Proof. intros y. by rewrite insert_insert_eq. Qed.

Lemma recurse_cte_ends (left i k : nat) (all_rows : list Row) (c : CteContext) :
  same_elsewhere c -> (k <= left + 1)%nat -> (forall j, (j < k)%nat -> steps (i + j)) -> (0 < k)%nat ->
  (forall j, (0 < j < k)%nat -> W (i + j) <> []) -> W (i + k) = [] ->
  recurse_cte rec term name schema left all_rows (W i) c
  = Some (Ok (<[name := (all_rows ++ concat (map W (seq (S i) (k - 1))), schema)]> ctes)).
Proof.
  revert left i all_rows c. induction k as [|k IH]; intros left i all c Hc Hl Hs Hk Hne He; [lia|].
  assert (recurse_cte rec term name schema left all (W i) c
          = match W (S i) with
            | [] => Some (Ok (<[name := (all, schema)]> ctes))
            | step => match left with
                      | O => fails ("recursive CTE " +:+ name +:+ " exceeded iteration limit")
                      | S left' => recurse_cte rec term name schema left' (all ++ step) step (<[name := (W i, schema)]> ctes)
                      end
            end) as ->.
  { destruct (Hs 0%nat ltac:(lia)) as (r & Hr & Hrows). rewrite Nat.add_0_r in Hr, Hrows.
    destruct left; cbn [recurse_cte]; rewrite Hc, Hr; cbn [ebind snd fst]; rewrite Hrows; by rewrite insert_insert_eq. }
  destruct k as [|k].
  - rewrite Nat.add_1_r in He. rewrite He. cbn. by rewrite app_nil_r.
  - assert (W (S i) <> []) as H1 by (specialize (Hne 1%nat ltac:(lia)); by rewrite Nat.add_1_r in Hne).
    destruct (W (S i)) as [|row rows] eqn:E; [done|]. rewrite <- E. destruct left as [|left]; [lia|]. rewrite (IH left (S i)).
    + do 4 f_equal. replace (S (S k) - 1)%nat with (S k) by lia. cbn [seq map concat]. rewrite <- app_assoc, E. f_equal.
      replace (S k - 1)%nat with k by lia. done.
    + apply same_elsewhere_insert.
    + lia.
    + intros j Hj. replace (S i + j)%nat with (i + S j)%nat by lia. apply Hs. lia.
    + lia.
    + intros j Hj. replace (S i + j)%nat with (i + S j)%nat by lia. apply Hne. lia.
    + by replace (S i + S k)%nat with (i + S (S k))%nat by lia.
Qed.

Lemma recurse_cte_exceeds (left i : nat) (all_rows : list Row) (c : CteContext) :
  same_elsewhere c -> (forall j, (j <= left)%nat -> steps (i + j)) -> (forall j, (j <= left)%nat -> W (i + S j) <> []) ->
  exists e, recurse_cte rec term name schema left all_rows (W i) c = Some (Err e).
Proof.
  revert i all_rows c. induction left as [|left IH]; intros i all c Hc Hs Hne; cbn [recurse_cte];
    destruct (Hs 0%nat ltac:(lia)) as (r & Hr & Hrows); rewrite Nat.add_0_r in Hr, Hrows;
    rewrite Hc, Hr; cbn [ebind snd fst]; rewrite Hrows; pose proof (Hne 0%nat ltac:(lia)) as H1; rewrite Nat.add_1_r in H1;
    (destruct (W (S i)) as [|row rows] eqn:E; [done|]).
  - by eexists.
  - rewrite <- E. apply IH; [apply same_elsewhere_insert | |]; intros j Hj.
    + replace (S i + j)%nat with (i + S j)%nat by lia. apply Hs. lia.
    + replace (S i + S j)%nat with (i + S (S j))%nat by lia. apply Hne. lia.
Qed.

(** C22. A recursive CTE collects the steps of its recursion. When the base gives
    [W 0] and the recursive term, on the rows [W i] of one step, the rows
    [W (i + 1)] of the next, the CTE holds the rows of all the steps, those of
    the base first, up to the first step without rows; repeated rows are kept.
    When 10 001 steps have rows the query fails. *)
Theorem recursive_cte_collects_its_steps (columns : list string) (s : SelectStmt) (op : UnionOp) (base : QueryResult) (k : nat) :
  sel_union s = Some (op, term) -> rec (without_union s) ctes = Some (Ok (ctes, base)) -> qr_rows base = W 0 ->
  schema = cte_schema (mkCte name columns s true) (qr_fields base) ->
  ((0 < k)%nat -> Z.of_nat k <= RECURSION_LIMIT + 1 -> (forall j, (j < k)%nat -> steps j) -> (forall j, (0 < j < k)%nat -> W j <> []) -> W k = [] ->
   materialize_cte rec (mkCte name columns s true) ctes = Some (Ok (<[name := (concat (map W (seq 0 k)), schema)]> ctes)))
  /\ ((forall j, Z.of_nat j <= RECURSION_LIMIT -> steps j) -> (forall j, Z.of_nat j <= RECURSION_LIMIT -> W (S j) <> []) ->
   exists e, materialize_cte rec (mkCte name columns s true) ctes = Some (Err e)).
Proof.
  intros Hu Hb HW Hsch. unfold materialize_cte. cbn [cte_recursive cte_subquery cte_name]. rewrite Hu, Hb. cbn [ebind fst snd]. rewrite <- Hsch, HW.
  assert (same_elsewhere ctes) as Hc by done. split.
  - intros Hk Hl Hs Hne He. rewrite (recurse_cte_ends _ 0 k); try done.
    + do 4 f_equal. destruct k; [lia|]. cbn [seq map concat]. by replace (S k - 1)%nat with k by lia.
    + unfold RECURSION_LIMIT in *. lia.
  - intros Hs Hne. apply (recurse_cte_exceeds _ 0); try done; intros j Hj; unfold RECURSION_LIMIT in *; [apply Hs | apply Hne]; lia.
Qed.

End Recursion.

(** ** What the executor leaves out *)

Definition set_distinct (b : bool) (s : SelectStmt) : SelectStmt :=
  let 'mkSelectStmt c _ p f w g h o l k u := s in mkSelectStmt c b p f w g h o l k u.

Section Omissions.
  Context {DB Txn : Type} {functions : Functions DB} {catalog : Catalog DB Txn} {std : StdLib} {crates : Crates} {js : Json} {sorts : SortBy}.
  Context (gpu_pairs : Expr -> option TableSchema -> option TableSchema -> list Row -> list Row -> option (list (nat * nat))).

(** SELECT DISTINCT is SELECT. Whatever the query, the database and the
    transaction, the result with DISTINCT is the result without: duplicate rows
    are returned. *)
Theorem select_distinct_is_ignored (fuel : nat) (db : DB) (outer : list OuterRow) (params : list Value) (txn : option Txn) (s : SelectStmt) (ctes : CteContext) :
  execute_select gpu_pairs fuel db outer params txn (set_distinct true s) ctes
  = execute_select gpu_pairs fuel db outer params txn (set_distinct false s) ctes.
Proof.
  revert s ctes. induction fuel as [|fuel IH]; intros s ctes; [done|]. cbn [execute_select].
  destruct s as [c d p f w g h o l k [[op rhs]|]]; [|reflexivity]. unfold select_step. cbn [set_distinct sel_union without_union].
  specialize (IH (mkSelectStmt c d p f w g h o l k None) ctes). cbn [set_distinct] in IH. by rewrite IH.
Qed.

(** LIMIT is taken before OFFSET. A query with LIMIT n OFFSET m returns at most
    n - m rows, none when m is n or more, whatever its tables hold: the second
    page of a listing is empty. *)
Theorem limit_is_taken_before_offset (fuel : nat) (db : DB) (txn : option Txn) (params : list Value) (s : SelectStmt) (r : QueryResult) (n m : Z) :
  sel_union s = None -> is_Some (sel_from s) -> sel_limit s = Some (Expr_Literal (Literal_Int n)) -> sel_offset s = Some (Expr_Literal (Literal_Int m)) ->
  0 <= n -> 0 <= m -> query gpu_pairs fuel db txn params s = Some (Ok r) -> zlen (qr_rows r) <= Z.max 0 (n - m).
Proof.
  intros Hu [twj Hf] Hl Ho Hn Hm H. apply ebind_done in H as ([c r'] & H & [= <-]). destruct fuel as [|fuel]; [done|].
  cbn [execute_select] in H. unfold select_step in H. rewrite Hu, Hf in H. apply ebind_done in H as (c1 & _ & H).
  unfold execute_from in H. apply ebind_done in H as ([c2 src] & _ & H). apply ebind_done in H as ([c3 jd] & _ & H).
  apply ebind_done in H as (fields & _ & H). apply ebind_done in H as (rows & Hr & [= <- <-]). cbn [qr_rows select_result snd].
  unfold process_rows in Hr. apply ebind_done in Hr as (r1 & _ & Hr). apply ebind_done in Hr as (r2 & _ & Hr). apply ebind_done in Hr as (r3 & _ & Hr).
  apply ebind_done in Hr as (r4 & _ & Hr). rewrite Hl, Ho in Hr. rewrite (limit_rows_take _ _ n) in Hr by (by split). cbn [ebind] in Hr.
  rewrite (offset_rows_drop _ _ m) in Hr by (by split). cbn [ebind] in Hr. apply traverse_done in Hr. apply Forall2_length in Hr.
  unfold zlen. rewrite <- Hr, length_drop, length_take. lia.
Qed.

(** Subqueries read outside the transaction. A query without FROM, whatever the
    subqueries of its expressions, gives in a transaction what it gives outside:
    they see neither the transaction's own writes nor its snapshot. *)
Theorem subqueries_read_outside_the_transaction (fuel : nat) (db : DB) (t : Txn) (params : list Value) (s : SelectStmt) :
  sel_from s = None -> sel_union s = None -> sel_ctes s = [] ->
  query gpu_pairs fuel db (Some t) params s = query gpu_pairs fuel db None params s.
Proof.
  intros Hf Hu Hc. unfold query. destruct fuel as [|fuel]; [done|]. cbn [execute_select]. unfold select_step. by rewrite Hf, Hu, Hc.
Qed.

End Omissions.
