(* ===== verification/WindowFacts.v ===== *)
(** What the window functions of [Windows] compute. *)

From Stdlib Require Import Strings.Byte Strings.String ZArith Lia Bool Permutation Sorted.
From stdpp Require Import base list strings gmap.
From S2P Require Import Prelude OrdMap Utf8 Decimal Compress Flux Rows Jsonb Ast Lexer Float Values JsonOps Eval ExprEq Joins Sorting Windows Planner Select SelectWidths SelectFacts.

Open Scope Z_scope.
Open Scope eval_scope.

Lemma Forall2_of_map {A B C : Type} (P : B -> C -> Prop) (g : A -> B) (l : list A) (ys : list C) :
  Forall2 P (map g l) ys -> Forall2 (fun x y => P (g x) y) l ys.
Proof. revert ys. induction l as [|x l IH]; intros ys H; inversion H; subst; constructor; auto. Qed.

Section Partitions.
  Context {DB : Type} {world : World DB} {std : StdLib} {crates : Crates} {js : Json} {sorts : SortBy}.

(** The places of a list of ranges. *)
Definition places (ranges : list (nat * nat)) : list nat := concat (map (fun r => seq (fst r) (snd r - fst r)) ranges).

Lemma cut_covers (same : nat -> nat -> option bool) (start i todo : nat) (ranges : list (nat * nat)) :
  (start <= i)%nat -> cut same start i todo = Some ranges -> places ranges = seq start (i + todo - start).
Proof.
  revert start i ranges. induction todo as [|todo IH]; intros start i ranges Hs H; cbn [cut] in H.
  - injection H as <-. unfold places. cbn. rewrite app_nil_r. f_equal. lia.
  - apply bind_Some in H as (b & _ & H). destruct b.
    + rewrite (IH start (S i)); [f_equal; lia | lia | done].
    + apply bind_Some in H as (rs & Hr & [= <-]). unfold places in *. cbn [map concat fst snd]. rewrite (IH i (S i) rs); [|lia | done].
      replace (i + S todo - start)%nat with ((i - start) + (S i + todo - i))%nat by lia. rewrite seq_app. f_equal. f_equal. lia.
Qed.

Lemma lookup_places (order : list nat) (vs : list (nat * Value)) (n k : nat) :
  Forall2 (fun i iv => order !! i = Some (fst iv)) (seq k n) vs -> (k + n = length order)%nat -> map fst vs = drop k order.
Proof.
  revert k vs. induction n as [|n IH]; intros k vs H Hl; inversion H as [|? iv ? vs' Hi Hvs]; subst; [by rewrite drop_ge by lia|].
  cbn [map]. rewrite (drop_S order (fst iv) k Hi). f_equal. apply (IH (S k)); [done | lia].
Qed.

(** A window function gives every row one value. *)
Lemma windows_give_each_row_one_value (rows : list (RowContext DB)) (func : string) (args partition_by : list Expr) (order_by : list OrderBy)
    (frame : option WindowFrame) (vs : list (nat * Value)) :
  rows <> [] -> window_values rows (Expr_Window func args partition_by order_by frame) = Some (Ok vs) ->
  Permutation (map fst vs) (seq 0 (length rows)).
Proof.
  intros Hne H. cbn [window_values] in H. apply ebind_done in H as (order & Ho & H). apply lift_done in Ho. apply slice_sort_permutes in Ho.
  apply ebind_done in H as (ranges & Hr & H). apply lift_done in Hr. apply traverse_done in H.
  assert (length order = length rows) as Hl by (rewrite <- (Permutation_length Ho); apply length_seq).
  assert (0 < length order)%nat as Hp by (destruct rows; [done | cbn in Hl; lia]).
  unfold partition_ranges in Hr. apply cut_covers in Hr; [|lia]. replace (1 + (length order - 1) - 0)%nat with (length order) in Hr by lia.
  rewrite Ho. rewrite (lookup_places order vs (length order) 0); [done| |done]. rewrite <- Hr. clear -H. unfold places.
  revert vs H. induction ranges as [|[s e] ranges IH]; intros vs H; cbn [map concat] in *; [inversion H; constructor|].
  apply Forall2_app_inv_l in H as (vs1 & vs2 & H1 & H2 & ->). apply Forall2_app; [|by apply IH]. cbn [fst snd] in *. clear -H1.
  apply Forall2_of_map in H1. eapply Forall2_impl; [exact H1|]. cbn. intros i iv Hi.
  apply ebind_done in Hi as (v & _ & Hi). apply ebind_done in Hi as (idx & Hi & [= <-]). by apply lift_done in Hi.
Qed.

(** ** Frames *)

Lemma peer_end_range (rows : list (RowContext DB)) (order : list nat) (order_by : list OrderBy) (e todo e' : nat) :
  peer_end rows order order_by e todo = Some e' -> (e <= e' <= e + todo)%nat.
Proof.
  revert e. induction todo as [|todo IH]; intros e H; cbn [peer_end] in H; [injection H as <-; lia|].
  apply bind_Some in H as (b & _ & H). destruct b; [apply IH in H; lia | injection H as <-; lia].
Qed.

(** A frame lies within its partition. Whatever bounds are asked for, offsets
    that overflow included, the frame of a row is a non-empty range of its
    partition; without a frame clause it starts with the partition and reaches
    the row, or the whole partition when there is no order. *)
Theorem window_frame_within_partition (frame : option WindowFrame) (order_by : list OrderBy) (rows : list (RowContext DB)) (order : list nat)
    (part_start part_end pos fs fe : nat) :
  (part_start + pos < part_end)%nat ->
  resolve_frame_bounds frame order_by rows order part_start part_end pos = Some (Ok (fs, fe)) ->
  (part_start <= fs < fe)%nat /\ (fe <= part_end)%nat
  /\ (frame = None -> fs = part_start /\ (part_start + pos < fe)%nat /\ (order_by = [] -> fe = part_end)).
Proof.
  intros Hp H. unfold resolve_frame_bounds in H. destruct frame as [[ty start end_]|].
  - apply ebind_done in H as (sr & _ & H). apply ebind_done in H as (er & _ & [= <- <-]). unfold clamp.
    set (a := i64_wrap (Z.of_nat pos + sr)). set (b := i64_wrap (Z.of_nat pos + er)). clearbody a b. split_and!; try lia. done.
  - destruct order_by as [|o obs]; [injection H as <- <-; split_and!; try lia; intros _; split_and!; lia|].
    apply ebind_done in H as (e & He & [= <- <-]). apply lift_done in He. apply peer_end_range in He. split_and!; try lia. intros _. split_and!; [done | lia | done].
Qed.

End Partitions.

(** ** Ranks *)

Section Ranks.
  Context {A : Type} (f : A -> A -> comparison) (vs : list A).
  Hypothesis ordered : total_preorder f vs.
  Hypothesis sorted : StronglySorted (not_greater f) vs.

Definition less (x y : A) : bool := match f x y with Lt => true | _ => false end.

Definition before (x : A) : Z := zlen (List.filter (fun y => less y x) vs).

Lemma sorted_le (i j : nat) (x y : A) : (i <= j)%nat -> vs !! i = Some x -> vs !! j = Some y -> f x y <> Gt.
Proof.
  intros Hij Hx Hy. destruct (decide (i = j)) as [->|Hne].
  - assert (x = y) as -> by congruence. assert (In y vs) as Hin by (apply list_elem_of_In; by eapply list_elem_of_lookup_2).
    pose proof (tp_opposite _ _ ordered y y Hin Hin) as Ho. by destruct (f y y).
  - revert i j Hij Hne Hx Hy. clear ordered. induction sorted as [|v l Hs IH Hf]; intros i j Hij Hne Hx Hy; [done|].
    destruct j as [|j]; [lia|]. cbn in Hy. destruct i as [|i]; cbn in Hx.
    + injection Hx as ->. rewrite Forall_forall in Hf. apply Hf. by eapply list_elem_of_lookup_2.
    + apply (IH Hs i j); [lia | lia | done | done].
Qed.

Lemma filter_split (p : A -> bool) (n : nat) :
  (forall i x, (i < n)%nat -> vs !! i = Some x -> p x = true) -> (forall i x, (n <= i)%nat -> vs !! i = Some x -> p x = false) ->
  (n <= length vs)%nat -> zlen (List.filter p vs) = Z.of_nat n.
Proof.
  clear. revert n. induction vs as [|v l IH]; intros n H1 H2 Hn; cbn [List.filter]; [cbn in Hn; by assert (n = 0)%nat as -> by lia|].
  destruct n as [|n].
  - rewrite (H2 0%nat v) by (done || lia). apply (IH 0%nat); [lia | intros i x _ Hi; apply (H2 (S i)); [lia | done] | lia].
  - rewrite (H1 0%nat v) by (done || lia). rewrite zlen_cons. rewrite (IH n); [lia | | |cbn in Hn; lia].
    + intros i x Hi Hx. apply (H1 (S i)); [lia | done].
    + intros i x Hi Hx. apply (H2 (S i)); [lia | done].
Qed.

(** The first row that is not a peer of the last has all the rows before it
    before it. *)
Lemma before_new_peer (i : nat) (x y : A) :
  vs !! i = Some x -> vs !! S i = Some y -> f x y <> Eq -> before y = Z.of_nat (S i).
Proof.
  intros Hx Hy Hne. assert (f x y = Lt) as Hlt by (pose proof (sorted_le i (S i) x y ltac:(lia) Hx Hy); by destruct (f x y)).
  assert (forall k z, vs !! k = Some z -> In z vs) as Hin by (intros; apply list_elem_of_In; by eapply list_elem_of_lookup_2).
  apply filter_split.
  - intros j z Hj Hz. unfold less. pose proof (sorted_le j i z x ltac:(lia) Hz Hx) as Hzx.
    pose proof (tp_opposite _ _ ordered z y (Hin _ _ Hz) (Hin _ _ Hy)) as Ho.
    destruct (f z y) eqn:E; [exfalso | done | exfalso].
    + assert (f y x <> Gt) as Hyx by (apply (tp_trans _ _ ordered y z x); eauto; unfold not_greater; by rewrite Ho).
      pose proof (tp_opposite _ _ ordered x y (Hin _ _ Hx) (Hin _ _ Hy)) as Ho'. rewrite Hlt in Ho'. by rewrite Ho' in Hyx.
    + apply (tp_trans _ _ ordered z x y); eauto. unfold not_greater. by rewrite Hlt.
  - intros j z Hj Hz. unfold less. pose proof (sorted_le (S i) j y z Hj Hy Hz) as Hyz.
    pose proof (tp_opposite _ _ ordered z y (Hin _ _ Hz) (Hin _ _ Hy)) as Ho. by destruct (f z y).
  - apply lookup_lt_Some in Hy. lia.
Qed.

Lemma before_peer (x y : A) : In x vs -> In y vs -> f x y = Eq -> before x = before y.
Proof.
  intros Hx Hy He. unfold before. f_equal. apply filter_ext_in. intros z Hz. unfold less.
  pose proof (tp_opposite _ _ ordered x y Hx Hy) as Ho. rewrite He in Ho. cbn in Ho.
  pose proof (tp_opposite _ _ ordered z x Hz Hx) as H1. pose proof (tp_opposite _ _ ordered z y Hz Hy) as H2.
  pose proof (tp_trans _ _ ordered y x z Hy Hx Hz) as T1. pose proof (tp_trans _ _ ordered x y z Hx Hy Hz) as T2. unfold not_greater in *.
  destruct (f z x), (f z y); try done; cbn in H1, H2; exfalso;
    first [apply T1; [by rewrite Ho | by rewrite H1 | by rewrite H2] | apply T2; [by rewrite He | by rewrite H2 | by rewrite H1]].
Qed.

Lemma before_first (x : A) : vs !! 0%nat = Some x -> before x = 0.
Proof.
  intros Hx. unfold before. apply (filter_split _ 0%nat); [lia| |lia]. intros i z _ Hz. unfold less.
  pose proof (sorted_le 0 i x z ltac:(lia) Hx Hz) as H.
  assert (forall k z, vs !! k = Some z -> In z vs) as Hin by (intros; apply list_elem_of_In; by eapply list_elem_of_lookup_2).
  pose proof (tp_opposite _ _ ordered z x (Hin _ _ Hz) (Hin _ _ Hx)) as Ho. by destruct (f z x).
Qed.

(** The number of groups of peers up to the row at [i]. *)
Fixpoint peer_groups (i : nat) : Z :=
  match i with
  | O => 1
  | S i' => peer_groups i' + match vs !! i', vs !! S i' with Some x, Some y => if less x y then 1 else 0 | _, _ => 0 end
  end.

Lemma rank_loop_ranks (same : nat -> nat -> option bool) (ps i todo : nat) (x : A) :
  (forall k a b, vs !! k = Some a -> vs !! S k = Some b -> same (ps + k)%nat (ps + S k)%nat = Some (match f a b with Eq => true | _ => false end)) ->
  vs !! i = Some x -> (i + todo < length vs)%nat ->
  exists y, vs !! (i + todo)%nat = Some y
    /\ rank_loop same ps (S (ps + i)) todo (1 + before x) (peer_groups i) = Some (1 + before y, peer_groups (i + todo)).
Proof.
  intros Hsame. revert i x. induction todo as [|todo IH]; intros i x Hx Hl; cbn [rank_loop]; [rewrite Nat.add_0_r; by exists x|].
  destruct (vs !! S i) as [y|] eqn:Hy; [|apply lookup_ge_None in Hy; lia].
  assert (forall k z, vs !! k = Some z -> In z vs) as Hin by (intros; apply list_elem_of_In; by eapply list_elem_of_lookup_2).
  pose proof (Hsame i x y Hx Hy) as Hs. replace (S (ps + i) - 1)%nat with (ps + i)%nat by lia. replace (S (ps + i)) with (ps + S i)%nat by lia.
  rewrite Hs. cbn [mbind option_bind]. destruct (IH (S i) y Hy ltac:(lia)) as (z & Hz & Hrank). exists z.
  replace (i + S todo)%nat with (S i + todo)%nat by lia. split; [done|]. rewrite <- Hrank.
  pose proof (sorted_le i (S i) x y ltac:(lia) Hx Hy) as Hle. destruct (f x y) eqn:E; [| |done].
  - rewrite (before_peer x y) by eauto. f_equal. cbn [peer_groups]. rewrite Hx, Hy. unfold less. rewrite E. lia.
  - rewrite (before_new_peer i x y) by (done || by rewrite E). f_equal; [lia|]. cbn [peer_groups]. rewrite Hx, Hy. unfold less. by rewrite E.
Qed.

End Ranks.

(** *** Partitions of sorted rows *)

Lemma cut_spec (same : nat -> nat -> option bool) (start i todo n : nat) (ranges : list (nat * nat)) :
  (start < i)%nat -> (i + todo = n)%nat -> (forall k, (start < k < i)%nat -> same (k - 1)%nat k = Some true) ->
  (start = 0%nat \/ same (start - 1)%nat start = Some false) -> cut same start i todo = Some ranges ->
  Forall (fun r => (fst r < snd r <= n)%nat /\ (forall k, (fst r < k < snd r)%nat -> same (k - 1)%nat k = Some true)
                   /\ (fst r = 0%nat \/ same (fst r - 1)%nat (fst r) = Some false)
                   /\ (snd r = n \/ same (snd r - 1)%nat (snd r) = Some false)) ranges.
Proof.
  revert start i ranges. induction todo as [|todo IH]; intros start i ranges Hs Hn Hk Hb H; cbn [cut] in H.
  - injection H as <-. constructor; [|constructor]. cbn. split_and!; auto; lia.
  - apply bind_Some in H as (b & Hsame & H). destruct b.
    + apply (IH start (S i)); [lia | lia | | done | done]. intros k Hki. destruct (decide (k = i)) as [->|]; [done|]. apply Hk. lia.
    + apply bind_Some in H as (rs & Hr & [= <-]). constructor; [cbn; split_and!; auto; lia|].
      apply (IH i (S i)); [lia | lia | intros k Hki; lia | by right | done].
Qed.

Section PartitionRange.
  Context {A : Type} (fp fo : A -> A -> comparison) (L : list A) (s e : nat).
  Hypothesis fp_ordered : total_preorder fp L.
  Hypothesis sorted : forall i j x y, (i <= j)%nat -> L !! i = Some x -> L !! j = Some y -> fp x y <> Gt /\ (fp x y = Eq -> fo x y <> Gt).
  Hypothesis range : (s < e <= length L)%nat.
  Hypothesis inside : forall k x y, (s < k < e)%nat -> L !! (k - 1)%nat = Some x -> L !! k = Some y -> fp x y = Eq.
  Hypothesis left_edge : forall x y, s <> 0%nat -> L !! (s - 1)%nat = Some x -> L !! s = Some y -> fp x y <> Eq.
  Hypothesis right_edge : forall x y, e <> length L -> L !! (e - 1)%nat = Some x -> L !! e = Some y -> fp x y <> Eq.

Lemma L_In (k : nat) (x : A) : L !! k = Some x -> In x L.
Proof. intros H. apply list_elem_of_In. by eapply list_elem_of_lookup_2. Qed.

Lemma fp_eq_sym (x y : A) : In x L -> In y L -> fp x y = Eq -> fp y x = Eq.
Proof. intros Hx Hy H. by rewrite (tp_opposite _ _ fp_ordered x y Hx Hy), H. Qed.

Lemma fp_eq_trans (x y z : A) : In x L -> In y L -> In z L -> fp x y = Eq -> fp y z = Eq -> fp x z = Eq.
Proof.
  intros Hx Hy Hz H1 H2. pose proof (tp_trans _ _ fp_ordered x y z Hx Hy Hz) as T1. pose proof (tp_trans _ _ fp_ordered z y x Hz Hy Hx) as T2.
  unfold not_greater in *. rewrite H1, H2 in T1. rewrite (fp_eq_sym y z), (fp_eq_sym x y) in T2 by done.
  rewrite (tp_opposite _ _ fp_ordered x z Hx Hz) in T2. by destruct (fp x z); [|destruct T2|destruct T1].
Qed.

Lemma inside_eq (i j : nat) (x y : A) : (s <= i <= j)%nat -> (j < e)%nat -> L !! i = Some x -> L !! j = Some y -> fp x y = Eq.
Proof.
  intros Hi Hj Hx. revert y Hj. induction j as [|j IH]; intros y Hj Hy.
  - assert (i = 0)%nat as -> by lia. assert (x = y) as -> by congruence.
    pose proof (tp_opposite _ _ fp_ordered y y (L_In _ _ Hx) (L_In _ _ Hx)) as Ho. by destruct (fp y y).
  - destruct (decide (i = S j)) as [->|].
    + assert (x = y) as -> by congruence. pose proof (tp_opposite _ _ fp_ordered y y (L_In _ _ Hx) (L_In _ _ Hx)) as Ho. by destruct (fp y y).
    + destruct (L !! j) as [z|] eqn:Hz; [|apply lookup_ge_None in Hz; lia].
      apply (fp_eq_trans x z y); try by eapply L_In. 1: apply IH; (lia || done).
      apply (inside (S j)); [lia | by replace (S j - 1)%nat with j by lia | done].
Qed.

Lemma outside_ne (i j : nat) (x y : A) : (i < s \/ e <= i)%nat -> (s <= j < e)%nat -> L !! i = Some x -> L !! j = Some y -> fp x y <> Eq.
Proof.
  intros Hi Hj Hx Hy Heq. pose proof (fp_eq_sym x y (L_In _ _ Hx) (L_In _ _ Hy) Heq) as Heq'. destruct Hi as [Hi|Hi].
  - destruct (L !! (s - 1)%nat) as [a|] eqn:Ha; [|apply lookup_ge_None in Ha; lia]. destruct (L !! s) as [b|] eqn:Hb; [|apply lookup_ge_None in Hb; lia].
    apply (left_edge a b); [lia | done | done|]. pose proof (inside_eq s j b y ltac:(lia) ltac:(lia) Hb Hy) as Hby.
    destruct (sorted i (s - 1) x a ltac:(lia) Hx Ha) as [Hxa _]. destruct (sorted (s - 1) s a b ltac:(lia) Ha Hb) as [Hab _].
    pose proof (tp_trans _ _ fp_ordered b y x (L_In _ _ Hb) (L_In _ _ Hy) (L_In _ _ Hx)) as T1. unfold not_greater in T1. rewrite Hby, Heq' in T1.
    pose proof (tp_trans _ _ fp_ordered b x a (L_In _ _ Hb) (L_In _ _ Hx) (L_In _ _ Ha)) as T2. unfold not_greater in T2.
    pose proof (tp_opposite _ _ fp_ordered a b (L_In _ _ Ha) (L_In _ _ Hb)) as Ho. destruct (fp a b); try done. rewrite Ho in T2. exfalso. apply T2; [by apply T1 | done | done].
  - destruct (L !! (e - 1)%nat) as [a|] eqn:Ha; [|apply lookup_ge_None in Ha; lia]. destruct (L !! e) as [b|] eqn:Hb; [|apply lookup_lt_Some in Hx; apply lookup_ge_None in Hb; lia].
    apply (right_edge a b); [apply lookup_lt_Some in Hb; lia | done | done|]. pose proof (inside_eq j (e - 1) y a ltac:(lia) ltac:(lia) Hy Ha) as Hya.
    destruct (sorted e i b x ltac:(lia) Hb Hx) as [Hbx _]. destruct (sorted (e - 1) e a b ltac:(lia) Ha Hb) as [Hab _].
    pose proof (tp_trans _ _ fp_ordered x y a (L_In _ _ Hx) (L_In _ _ Hy) (L_In _ _ Ha)) as T1. unfold not_greater in T1. rewrite Heq, Hya in T1.
    pose proof (tp_trans _ _ fp_ordered b x a (L_In _ _ Hb) (L_In _ _ Hx) (L_In _ _ Ha)) as T2. unfold not_greater in T2.
    pose proof (tp_opposite _ _ fp_ordered a b (L_In _ _ Ha) (L_In _ _ Hb)) as Ho. destruct (fp a b); try done. rewrite Ho in T2. exfalso. apply T2; [done | by apply T1 | done].
Qed.

Definition part : list A := take (e - s) (drop s L).

Lemma part_lookup (k : nat) : part !! k = if decide (k < e - s)%nat then L !! (s + k)%nat else None.
Proof.
  clear. unfold part. case_decide; [rewrite lookup_take_lt by lia; by rewrite lookup_drop | by rewrite lookup_take_ge by lia].
Qed.

Lemma part_sorted : StronglySorted (not_greater fo) part.
Proof.
  assert (forall i j x y, (i < j)%nat -> part !! i = Some x -> part !! j = Some y -> not_greater fo x y) as H.
  { intros i j x y Hij. rewrite !part_lookup. repeat case_decide; try done. intros Hx Hy.
    apply (sorted (s + i) (s + j) x y); [lia | done | done|]. apply (inside_eq (s + i) (s + j)); (lia || done). }
  clear -H. induction part as [|v l IH]; [constructor|]. constructor.
  - apply IH. intros i j x y Hij Hx Hy. apply (H (S i) (S j)); [lia | done | done].
  - apply Forall_forall. intros x Hx. apply list_elem_of_lookup_1 in Hx as [j Hj]. by apply (H 0%nat (S j)); [lia| |].
Qed.

(** Whether a row is in the partition of another. *)
Definition in_part (x y : A) : bool := match fp x y with Eq => true | _ => false end.

Lemma part_count (p : A -> bool) (c : A) (j : nat) :
  (s <= j < e)%nat -> L !! j = Some c -> zlen (List.filter p part) = zlen (List.filter (fun y => in_part y c && p y) L).
Proof.
  intros Hj Hc. assert (L = take s L ++ part ++ drop e L) as Hsplit.
  { unfold part. rewrite <- (take_drop s L) at 1. f_equal. rewrite <- (take_drop (e - s) (drop s L)) at 1. f_equal. rewrite drop_drop. f_equal. lia. }
  rewrite Hsplit at 1. rewrite !List.filter_app.
  assert (forall l, (forall x, In x l -> exists i, L !! i = Some x /\ (i < s \/ e <= i)%nat) -> List.filter (fun y => in_part y c && p y) l = []) as Hout.
  { intros l Hl. apply filter_none. intros x Hx. destruct (Hl x Hx) as (i & Hi & Hr). pose proof (outside_ne i j x c Hr Hj Hi Hc). unfold in_part.
    by destruct (fp x c). }
  rewrite (Hout (take s L)), (Hout (drop e L)).
  - rewrite app_nil_r. cbn [app]. unfold zlen. f_equal. f_equal. apply filter_ext_in. intros x Hx. apply list_elem_of_In, list_elem_of_lookup_1 in Hx as [k Hk].
    rewrite part_lookup in Hk. case_decide; [|done]. unfold in_part. destruct (decide (s + k <= j)%nat).
    + by rewrite (inside_eq (s + k) j x c) by (lia || done).
    + rewrite (fp_eq_sym c x); [done | by eapply L_In | by eapply L_In|]. apply (inside_eq j (s + k)); (lia || done).
  - intros x Hx. apply list_elem_of_In, list_elem_of_lookup_1 in Hx as [k Hk]. exists (e + k)%nat. rewrite lookup_drop in Hk. split; [done | lia].
  - intros x Hx. apply list_elem_of_In, list_elem_of_lookup_1 in Hx as [k Hk]. apply lookup_take_Some in Hk as [Hk ?]. exists k. split; [done | lia].
Qed.

End PartitionRange.

(** *** RANK *)

Lemma compare_keys_app {A K : Type} (by_key : K -> A -> A -> Z) (k1 k2 : list (K * bool)) (a b : A) :
  compare_keys by_key (k1 ++ k2) a b = match compare_keys by_key k1 a b with Eq => compare_keys by_key k2 a b | c => c end.
Proof. induction k1 as [|[k asc] k1 IH]; [done|]. cbn [app compare_keys]. cbv zeta. destruct (_ =? 0); [exact IH|]. by destruct (eqb _ _). Qed.

Lemma traverse_total {A B : Type} (f : A -> Eval B) (P : A -> B -> Prop) (l : list A) :
  (forall x, In x l -> exists y, f x = Some (Ok y) /\ P x y) -> exists ys, traverse f l = Some (Ok ys) /\ Forall2 P l ys.
Proof.
  induction l as [|x l IH]; intros H; [exists []; split; [done | constructor]|]. cbn. destruct (H x ltac:(by left)) as (y & -> & Hy).
  destruct IH as (ys & Hys & HP); [intros; apply H; by right|]. cbn. rewrite Hys. exists (y :: ys). by split; [|constructor].
Qed.

Lemma nonempty_match {A B : Type} (l : list A) (x y : B) : l <> [] -> match l with [] => x | _ => y end = y.
Proof. by destruct l. Qed.

Section Rank.
  Context {DB : Type} {world : World DB} {std : StdLib} {crates : Crates} {js : Json} {sorts : SortBy}.
  Context (val : RowContext DB -> Expr -> Value) (rows : list (RowContext DB)) (c0 : RowContext DB) (pb : list Expr) (ob : list OrderBy).

Definition part_keys : list (Expr * bool) := map (fun p => (p, true)) pb.
Definition sort_keys : list (Expr * bool) := map (fun o => (ob_expr o, ob_asc o)) ob.
Definition by_part : RowContext DB -> RowContext DB -> comparison := compare_keys (key_order val) part_keys.
Definition by_order : RowContext DB -> RowContext DB -> comparison := compare_keys (key_order val) sort_keys.

Hypothesis keyed : sortable val (part_keys ++ sort_keys) rows.

Lemma keyed_part : sortable val part_keys rows.
Proof. intros k Hk. apply keyed. apply in_or_app. by left. Qed.

Lemma keyed_sort : sortable val sort_keys rows.
Proof. intros k Hk. apply keyed. apply in_or_app. by right. Qed.

Lemma same_keys_val (keys : list (Expr * bool)) (a b : RowContext DB) :
  sortable val keys rows -> In a rows -> In b rows ->
  same_keys (map fst keys) a b = Some (match compare_keys (key_order val) keys a b with Eq => true | _ => false end).
Proof.
  induction keys as [|[e asc] keys IH]; intros Hs Ha Hb; [done|]. cbn [map fst same_keys compare_keys].
  destruct (Hs (e, asc) ltac:(by left)) as [He Hk]. cbn in He, Hk. unfold key_of. rewrite (He a Ha), (He b Hb). cbn [unwrap_or mbind option_bind].
  destruct (value_compare_total (val a e) (val b e)) as [c Hc]; [apply Hk; by apply (in_map (fun r => val r e))|].
  assert (key_order val e a b = c) as -> by (unfold key_order; by rewrite Hc). unfold compares_equal. rewrite Hc. cbv zeta.
  destruct (c =? 0) eqn:E; [apply IH; [|done..]; intros k Hin; apply Hs; by right|]. by destruct (eqb asc (c <? 0)).
Qed.

Definition row (i : nat) : RowContext DB := default c0 (rows !! i).

Lemma row_lookup (i : nat) : (i < length rows)%nat -> rows !! i = Some (row i).
Proof. intros H. unfold row. destruct (rows !! i) eqn:E; [done|]. apply lookup_ge_None in E. lia. Qed.

Lemma row_In (i : nat) : (i < length rows)%nat -> In (row i) rows.
Proof. intros H%row_lookup. apply list_elem_of_In. by eapply list_elem_of_lookup_2. Qed.

Lemma rows_by_index : map row (seq 0 (length rows)) = rows.
Proof.
  apply list_eq. intros i. destruct (decide (i < length rows)%nat) as [Hi|Hi].
  - rewrite list_lookup_fmap, lookup_seq_lt by done. cbn. symmetry. by apply row_lookup.
  - rewrite !lookup_ge_None_2; [done | lia | rewrite length_map, length_seq; lia].
Qed.

Definition index_order (i j : nat) : comparison := compare_keys (key_order val) (part_keys ++ sort_keys) (row i) (row j).

Definition sorted_order : list nat := stable_sort index_order (seq 0 (length rows)).
Definition sorted_rows : list (RowContext DB) := map row sorted_order.

Lemma in_seq_rows (i : nat) : In i (seq 0 (length rows)) -> (i < length rows)%nat.
Proof. intros H%in_seq. lia. Qed.

Lemma index_order_preorder : total_preorder index_order (seq 0 (length rows)).
Proof.
  pose proof (sortable_preorder val _ _ keyed) as [Ho Ht]. split.
  - intros i j Hi%in_seq_rows Hj%in_seq_rows. by apply Ho; apply row_In.
  - intros i j k Hi%in_seq_rows Hj%in_seq_rows Hk%in_seq_rows. by apply Ht; apply row_In.
Qed.

Lemma window_order :
  slice_sort (fun a b => ra ← rows !! a; rb ← rows !! b; compare_rows (part_keys ++ sort_keys) ra rb) (seq 0 (length rows)) = Some sorted_order.
Proof.
  apply slice_sort_sorts; [|apply index_order_preorder]. intros i j Hi%in_seq_rows Hj%in_seq_rows. rewrite !row_lookup by done. cbn.
  apply (compare_rows_val val _ rows); [done | by apply row_In | by apply row_In].
Qed.

Lemma sorted_rows_perm : Permutation rows sorted_rows.
Proof. rewrite <- rows_by_index at 1. apply Permutation_map, stable_sort_perm. Qed.

Lemma sorted_order_length : length sorted_order = length rows.
Proof. unfold sorted_order. rewrite <- (Permutation_length (stable_sort_perm _ _)). apply length_seq. Qed.

Lemma sorted_rows_length : length sorted_rows = length rows.
Proof. by rewrite <- (Permutation_length sorted_rows_perm). Qed.

Lemma row_at_sorted (k : nat) : (k < length rows)%nat -> row_at rows sorted_order k = sorted_rows !! k.
Proof.
  intros Hk. unfold row_at, sorted_rows. rewrite list_lookup_fmap. destruct (sorted_order !! k) as [i|] eqn:E; [|done]. cbn.
  apply row_lookup, in_seq_rows, (stable_sort_in index_order). apply list_elem_of_In. by eapply list_elem_of_lookup_2.
Qed.

Lemma sorted_rows_In (k : nat) (x : RowContext DB) : sorted_rows !! k = Some x -> In x rows.
Proof. intros H. apply (Permutation_in x (Permutation_sym sorted_rows_perm)). apply list_elem_of_In. by eapply list_elem_of_lookup_2. Qed.

Lemma same_at_sorted (keys : list (Expr * bool)) (i j : nat) (x y : RowContext DB) :
  sortable val keys rows -> sorted_rows !! i = Some x -> sorted_rows !! j = Some y ->
  same_at rows sorted_order (map fst keys) i j = Some (match compare_keys (key_order val) keys x y with Eq => true | _ => false end).
Proof.
  intros Hs Hx Hy. pose proof (lookup_lt_Some _ _ _ Hx) as Hi. pose proof (lookup_lt_Some _ _ _ Hy) as Hj. rewrite sorted_rows_length in Hi, Hj.
  unfold same_at. rewrite !row_at_sorted by done. rewrite Hx, Hy. cbn. apply same_keys_val; [done | by eapply sorted_rows_In | by eapply sorted_rows_In].
Qed.

Lemma sorted_rows_order (i j : nat) (x y : RowContext DB) :
  (i <= j)%nat -> sorted_rows !! i = Some x -> sorted_rows !! j = Some y ->
  by_part x y <> Gt /\ (by_part x y = Eq -> by_order x y <> Gt).
Proof.
  intros Hij Hx Hy. assert (compare_keys (key_order val) (part_keys ++ sort_keys) x y <> Gt) as H.
  { unfold sorted_rows in Hx, Hy. rewrite list_lookup_fmap in Hx, Hy. apply fmap_Some in Hx as (a & Ha & ->). apply fmap_Some in Hy as (b & Hb & ->).
    change (index_order a b <> Gt). pose proof (stable_sort_sorted _ _ index_order_preorder) as Hs. fold sorted_order in Hs.
    eapply (sorted_le index_order sorted_order); [|exact Hs | exact Hij | done | done].
    eapply total_preorder_sub; [|apply index_order_preorder]. intros z. by apply stable_sort_in. }
  rewrite compare_keys_app in H. fold by_part in H. unfold by_part in *. destruct (compare_keys _ part_keys x y); split; (done || by intros).
Qed.

Definition range_ok (r : nat * nat) : Prop :=
  (fst r < snd r <= length rows)%nat
  /\ (forall k, (fst r < k < snd r)%nat -> same_at rows sorted_order pb (k - 1) k = Some true)
  /\ (fst r = 0%nat \/ same_at rows sorted_order pb (fst r - 1) (fst r) = Some false)
  /\ (snd r = length rows \/ same_at rows sorted_order pb (snd r - 1) (snd r) = Some false).

Lemma same_part (i j : nat) (x y : RowContext DB) :
  sorted_rows !! i = Some x -> sorted_rows !! j = Some y -> same_at rows sorted_order pb i j = Some (in_part by_part x y).
Proof.
  intros Hx Hy. pose proof (same_at_sorted part_keys i j x y keyed_part Hx Hy) as H. unfold part_keys in H at 1. rewrite map_map in H. cbn in H.
  by rewrite map_id in H.
Qed.

Lemma part_preorder : total_preorder by_part sorted_rows.
Proof.
  eapply total_preorder_sub; [|apply (sortable_preorder val _ _ keyed_part)]. intros x. apply Permutation_in. symmetry. apply sorted_rows_perm.
Qed.

Lemma order_preorder (s e : nat) : total_preorder by_order (part sorted_rows s e).
Proof.
  eapply total_preorder_sub; [|apply (sortable_preorder val _ _ keyed_sort)]. intros x Hx. apply list_elem_of_In, list_elem_of_lookup_1 in Hx as [k Hk].
  rewrite part_lookup in Hk. case_decide; [|done]. by eapply sorted_rows_In.
Qed.

(** The rank of a row in its range, and what is counted. *)
Lemma rank_in_range (s e i : nat) (c : RowContext DB) :
  range_ok (s, e) -> (s <= i < e)%nat -> sorted_rows !! i = Some c ->
  (exists d, rank_loop (same_at rows sorted_order (map ob_expr ob)) s (S s) (i - s) 1 1
             = Some (1 + before by_order (part sorted_rows s e) c, d))
  /\ before by_order (part sorted_rows s e) c = zlen (List.filter (fun y => in_part by_part y c && less by_order y c) rows).
Proof.
  intros (Hr & Hin & Hl & Hrt) Hi Hc. cbn [fst snd] in *.
  assert (forall k x y, (s < k < e)%nat -> sorted_rows !! (k - 1)%nat = Some x -> sorted_rows !! k = Some y -> by_part x y = Eq) as Hinside.
  { intros k x y Hk Hx Hy. pose proof (Hin k Hk) as H. rewrite (same_part _ _ _ _ Hx Hy) in H. unfold in_part in H. by destruct (by_part x y). }
  assert (forall x y, s <> 0%nat -> sorted_rows !! (s - 1)%nat = Some x -> sorted_rows !! s = Some y -> by_part x y <> Eq) as Hleft.
  { intros x y Hs Hx Hy. destruct Hl as [|H]; [done|]. rewrite (same_part _ _ _ _ Hx Hy) in H. unfold in_part in H. by destruct (by_part x y). }
  assert (forall x y, e <> length sorted_rows -> sorted_rows !! (e - 1)%nat = Some x -> sorted_rows !! e = Some y -> by_part x y <> Eq) as Hright.
  { intros x y He Hx Hy. rewrite sorted_rows_length in He. destruct Hrt as [|H]; [done|]. rewrite (same_part _ _ _ _ Hx Hy) in H. unfold in_part in H.
    by destruct (by_part x y). }
  assert (s < e <= length sorted_rows)%nat as Hr' by (by rewrite sorted_rows_length).
  assert (forall k, (k < e - s)%nat -> part sorted_rows s e !! k = sorted_rows !! (s + k)%nat) as Hlook by (intros k Hk; rewrite part_lookup; by case_decide).
  assert (StronglySorted (not_greater by_order) (part sorted_rows s e)) as Hsorted.
  { apply (part_sorted by_part by_order); [apply part_preorder | intros; by eapply sorted_rows_order | done | done]. }
  split.
  - destruct (sorted_rows !! s) as [x|] eqn:Hx; [|apply lookup_ge_None in Hx; lia].
    destruct (rank_loop_ranks by_order (part sorted_rows s e) (order_preorder s e) Hsorted (same_at rows sorted_order (map ob_expr ob)) s 0 (i - s) x)
      as (y & Hy & Hrank).
    + intros k a b Ha Hb. rewrite part_lookup in Ha, Hb. repeat case_decide; try done.
      pose proof (same_at_sorted sort_keys (s + k) (s + S k) a b keyed_sort Ha Hb) as H'. unfold sort_keys in H' at 1. rewrite map_map in H'. exact H'.
    + rewrite Hlook by lia. by rewrite Nat.add_0_r.
    + unfold part. rewrite length_take, length_drop. lia.
    + rewrite Hlook in Hy by lia. replace (s + (0 + (i - s)))%nat with i in Hy by lia. assert (y = c) as -> by congruence.
      rewrite Nat.add_0_r in Hrank. rewrite (before_first by_order _ (order_preorder s e) Hsorted x) in Hrank by (rewrite Hlook by lia; by rewrite Nat.add_0_r).
      eexists. exact Hrank.
  - unfold before. rewrite (part_count by_part by_order sorted_rows s e part_preorder sorted_rows_order Hr' Hinside Hleft Hright _ c i Hi Hc).
    unfold zlen. f_equal. apply Permutation_length. clear. pose proof sorted_rows_perm as H. symmetry in H.
    induction H; cbn [List.filter]; try done; repeat case_match; try (by constructor); by etransitivity.
Qed.

Lemma cut_total (same : nat -> nat -> option bool) (start i todo : nat) :
  (forall k, (i <= k < i + todo)%nat -> is_Some (same (k - 1)%nat k)) -> exists ranges, cut same start i todo = Some ranges.
Proof.
  revert start i. induction todo as [|todo IH]; intros start i H; cbn [cut]; [by eexists|]. destruct (H i ltac:(lia)) as [b ->]. cbn.
  destruct b; [apply IH; intros; apply H; lia|]. destruct (IH i (S i)) as [rs ->]; [intros; apply H; lia|]. by eexists.
Qed.

(** RANK counts the rows before. Over rows whose partition and order keys
    evaluate, each to values of one kind that are not NULL, the window function
    gives every row one value: one more than the number of rows that have the
    same partition keys and come before it by the order keys. *)
Theorem rank_counts_the_rows_before (func : string) (args : list Expr) (frame : option WindowFrame) :
  to_lowercase func = "rank"%string -> ob <> [] -> rows <> [] ->
  exists vs, window_values rows (Expr_Window func args pb ob frame) = Some (Ok vs)
    /\ Permutation (map fst vs) (seq 0 (length rows))
    /\ forall j v, In (j, v) vs -> exists c, rows !! j = Some c
         /\ v = Value_Int (1 + zlen (List.filter (fun y => in_part by_part y c && less by_order y c) rows)).
Proof.
  intros Hf Hob Hne. assert (0 < length rows)%nat as Hpos by (destruct rows; [done | cbn; lia]).
  assert (forall k, (0 < k < length rows)%nat -> is_Some (same_at rows sorted_order pb (k - 1) k)) as Htotal.
  { intros k Hk. destruct (sorted_rows !! (k - 1)%nat) as [x|] eqn:Hx; [|apply lookup_ge_None in Hx; rewrite sorted_rows_length in Hx; lia].
    destruct (sorted_rows !! k) as [y|] eqn:Hy; [|apply lookup_ge_None in Hy; rewrite sorted_rows_length in Hy; lia]. rewrite (same_part _ _ _ _ Hx Hy). done. }
  destruct (cut_total (same_at rows sorted_order pb) 0 1 (length sorted_order - 1)) as [ranges Hcut].
  { intros k Hk. rewrite sorted_order_length in Hk. apply Htotal. lia. }
  assert (Forall range_ok ranges) as Hok.
  { apply (cut_spec _ 0 1 (length sorted_order - 1) (length rows)) in Hcut; [done | lia | rewrite sorted_order_length; lia | lia | by left]. }
  set (value := fun p : (nat * nat) * nat => let '((part_start, part_end), i) := p in
        let* v := compute_window_value func args frame ob rows sorted_order part_start part_end i (i - part_start) in
        let* idx := lift (sorted_order !! i) in done (idx, v)).
  assert (window_values rows (Expr_Window func args pb ob frame)
    = traverse value (concat (map (fun r => map (pair r) (seq (fst r) (snd r - fst r))) ranges))) as Hw.
  { cbn [window_values]. pose proof window_order as Ho. unfold part_keys, sort_keys in Ho. rewrite Ho. cbn [lift ebind done].
    unfold partition_ranges. rewrite Hcut. done. }
  destruct (traverse_total value (fun _ iv => exists c, rows !! fst iv = Some c
      /\ snd iv = Value_Int (1 + zlen (List.filter (fun y => in_part by_part y c && less by_order y c) rows)))
      (concat (map (fun r => map (pair r) (seq (fst r) (snd r - fst r))) ranges))) as (vs & Hvs & HP).
  { intros [[s e] i] Hin. apply in_concat in Hin as (l & Hl & Hin). apply in_map_iff in Hl as ([s' e'] & <- & Hr).
    apply in_map_iff in Hin as (i' & [= -> -> ->] & Hi). cbn [fst snd] in Hi. apply in_seq in Hi. pose proof (In_Forall _ _ _ Hok Hr) as Hrange.
    assert (s <= i < e)%nat as Hi' by (destruct Hrange as [H _]; cbn in H; lia).
    assert (i < length rows)%nat as Hilt by (destruct Hrange as [H _]; cbn in H; lia).
    destruct (sorted_order !! i) as [idx|] eqn:Hidx; [|apply lookup_ge_None in Hidx; rewrite sorted_order_length in Hidx; lia].
    pose proof (row_at_sorted i Hilt) as Hat. unfold row_at in Hat. rewrite Hidx in Hat. cbn in Hat.
    destruct (sorted_rows !! i) as [c|] eqn:Hc; [|apply lookup_ge_None in Hc; rewrite sorted_rows_length in Hc; lia].
    destruct (rank_in_range s e i c Hrange Hi' Hc) as [[d Hrank] Hcount].
    exists (idx, Value_Int (1 + before by_order (part sorted_rows s e) c)). unfold value. split; [|exists c; split; [exact Hat | cbn; by rewrite Hcount]].
    unfold compute_window_value. cbv zeta. rewrite Hf. unfold row_at. rewrite Hidx. cbn [mbind option_bind]. rewrite Hat. cbn [lift ebind done].
    cbn [String.eqb Ascii.eqb Bool.eqb one_of existsb orb]. cbv iota.
    rewrite nonempty_match by done. rewrite Hrank. done. }
  exists vs. rewrite Hw. split_and!; [done| |].
  - apply (windows_give_each_row_one_value rows func args pb ob frame); [done|]. by rewrite Hw.
  - intros j v Hin. apply list_elem_of_In, list_elem_of_lookup_1 in Hin as [k Hk]. by destruct (Forall2_lookup_r _ _ _ _ _ HP Hk) as (p & _ & H).
Qed.

End Rank.
