(* ===== verification/SelectExamples.v ===== *)
(** Queries from their text to their answer, over a database in memory: what
    the executor does against what SQL says, and inputs of the theorems on
    queries. *)

From Stdlib Require Import Strings.Byte Strings.String ZArith Lia Bool Permutation Sorted.
From stdpp Require Import base list strings gmap.
From S2P Require Import Prelude OrdMap Utf8 Decimal Compress Flux Rows Jsonb Ast Lexer Parser ParserEnds Float Values JsonOps Eval ExprEq Joins Sorting Windows Planner Select SelectWidths SelectFacts WindowFacts.

Open Scope Z_scope.
Open Scope eval_scope.

Definition parse_query (text : string) : Eval SelectStmt :=
  match sql_parse text with
  | Some (Ok (Stmt_Select s)) => done s
  | Some (Ok _) => fails "not a query"
  | Some (Err e) => fails e
  | None => panics
  end.

Definition run_text (db : MemDb) (txn : option unit) (text : string) : Eval QueryResult :=
  let* s := parse_query text in query no_gpu 20 db txn [] s.

Definition show_cell (c : option bytes) : string := match c with Some b => string_of_list_byte b | None => "NULL" end.
Definition answer (db : MemDb) (txn : option unit) (text : string) : Eval (list (list string)) :=
  let* r := run_text db txn text in done (map (map show_cell) (qr_rows r)).
Definition field_names (fields : list FieldDescription) : list string := map fd_name fields.
Definition described (db : MemDb) (text : string) : Eval (list string) :=
  let* s := parse_query text in let* fields := describe_select no_gpu 20 db s in done (field_names fields).

Definition table (name : string) (cols : list string) (rows : list (list string)) : TableSchema * list Row := (table_of name cols, map row_of rows).

Definition employees : TableSchema * list Row :=
  table "emp" ["id"; "name"; "dept"; "salary"] [["1"; "ann"; "10"; "500"]; ["2"; "bob"; "10"; "300"]; ["3"; "cid"; "20"; "400"]; ["4"; "dan"; "20"; "400"]]%string.
Definition departments : TableSchema * list Row := table "dept" ["did"; "title"] [["10"; "eng"]; ["20"; "ops"]; ["30"; "law"]]%string.
Definition company : MemDb := plain_db [employees; departments].

Definition ta : TableSchema * list Row := table "a" ["id"; "x"] [["1"; "7"]; ["2"; "8"]]%string.
Definition tb : TableSchema * list Row := table "b" ["bid"; "aid"; "x"] [["10"; "1"; "5"]; ["11"; "2"; "6"]]%string.
Definition tc : TableSchema * list Row := table "c" ["cid"; "y"] [["1"; "z"]]%string.
Definition abc : MemDb := plain_db [ta; tb; tc].

(** Expressions without subqueries. *)
#[export] Instance no_mem_world : World MemDb :=
  {| run_select _ _ _ _ := fails "no subqueries"; other_function := no_functions |}.

(** Queries that work as they should. *)
Example company_queries :
  answer company None "SELECT name, title FROM emp JOIN dept ON dept = did WHERE salary > 300 ORDER BY salary DESC, name LIMIT 2"
    = done [["ann"; "eng"]; ["cid"; "ops"]]%string
  /\ answer company None "SELECT dept, count(*), sum(salary) FROM emp GROUP BY dept HAVING count(*) > 1"
    = done [["10"; "2"; "800"]; ["20"; "2"; "800"]]%string
  /\ answer company None "SELECT title FROM dept WHERE NOT EXISTS (SELECT * FROM emp WHERE emp.dept = dept.did)" = done [["law"]]%string
  /\ answer company None "WITH RECURSIVE c(n) AS (SELECT 1 UNION ALL SELECT n + 1 FROM c WHERE n < 3) SELECT n FROM c" = done [["1"]; ["2"]; ["3"]]%string.
Proof. repeat split; vm_compute; reflexivity. Qed.

(** ** Answers that are wrong *)

(** An equality of WHERE is answered from an index of the primary table whatever
    table its qualifier names: creating an index on [a.x] loses the row. *)
Lemma index_lookup_ignores_qualifiers :
  let text := "SELECT a.x, b.x FROM a JOIN b ON id = aid WHERE b.x = 5"%string in
  answer abc None text = done [["7"; "5"]]%string
  /\ answer (mkMemDb [ta; tb] [] [("a", "x")] []) None text = done [].
Proof. split; vm_compute; reflexivity. Qed.

(** The argument of an aggregate is evaluated without the scopes of the tables:
    the sum of [b.x] is the sum of [a.x], which comes first. *)
Lemma aggregates_ignore_qualifiers :
  answer abc None "SELECT b.x FROM a JOIN b ON id = aid" = done [["5"]; ["6"]]%string
  /\ answer abc None "SELECT sum(b.x) FROM a JOIN b ON id = aid" = done [["15"]]%string.
Proof. split; vm_compute; reflexivity. Qed.

(** A subquery of an expression does not see the CTEs of the query; a table that
    does not exist has no rows, so the answer is empty. *)
Lemma subqueries_miss_ctes :
  answer company None "WITH c AS (SELECT 10 AS n) SELECT n FROM c" = done [["10"]]%string
  /\ answer company None "WITH c AS (SELECT 10 AS n) SELECT title FROM dept WHERE did IN (SELECT n FROM c)" = done []
  /\ answer company None "SELECT count(*) FROM nosuch" = done [["0"]]%string.
Proof. repeat split; vm_compute; reflexivity. Qed.

(** ORDER BY and LIMIT behind a UNION belong to its right arm, and UNION groups
    to the right: the duplicates of the first arm stay. *)
Lemma union_applies_to_the_right_arm :
  answer company None "SELECT name FROM emp UNION ALL SELECT title FROM dept ORDER BY title LIMIT 1"
    = done [["ann"]; ["bob"]; ["cid"]; ["dan"]; ["eng"]]%string
  /\ answer abc None "SELECT 1 UNION ALL SELECT 1 UNION SELECT 1" = done [["1"]; ["1"]]%string.
Proof. split; vm_compute; reflexivity. Qed.

(** The arms of a UNION need not have the same columns: rows that do not fit the
    fields are returned. *)
Lemma union_rows_can_miss_fields :
  exists r, run_text abc None "SELECT x FROM a UNION ALL SELECT * FROM b" = done r
    /\ length (qr_fields r) = 1%nat /\ map (@length (option bytes)) (qr_rows r) = [1; 1; 3; 3]%nat.
Proof. eexists. split; [vm_compute; reflexivity | split; vm_compute; reflexivity]. Qed.

(** Reordered joins permute the columns of a star, and the description that was
    sent before does not know: [cid] is sent under the name [bid]. *)
Lemma reordered_joins_permute_columns :
  let text := "SELECT * FROM a JOIN b ON id = aid JOIN c ON id = cid"%string in
  let analyzed := mkMemDb [ta; tb; tc] [] [] [("b", 9); ("c", 1)]%string in
  answer abc None text = done [["1"; "7"; "10"; "1"; "5"; "1"; "z"]]%string
  /\ described analyzed text = done ["id"; "x"; "bid"; "aid"; "x"; "cid"; "y"]%string
  /\ answer analyzed None text = done [["1"; "7"; "1"; "z"; "10"; "1"; "5"]]%string.
Proof. repeat split; vm_compute; reflexivity. Qed.

(** NULL compares equal to everything in a sort: the comparison is no order, and
    what the sort returns is unspecified. *)
Lemma order_by_null_is_no_order :
  let row v := ctx_new (DB := MemDb) [v] (Some (table_of "t" ["x"%string])) in
  let two := row (Some (as_bytes "2")) in
  let null := row None in
  let one := row (Some (as_bytes "1")) in
  let cmp := compare_rows (world := no_mem_world) [(Expr_Ident "x", true)] in
  cmp two null = Some Eq /\ cmp null one = Some Eq /\ cmp two one = Some Gt.
Proof. repeat split; vm_compute; reflexivity. Qed.

(** ** The theorems at work *)

Definition table_fits (t : TableSchema * list Row) : bool :=
  forallb (fun r => Nat.eqb (length (parse_row (encode_cells r))) (length (ts_columns (fst t)))) (snd t).

Lemma mem_rows_fit (tables : list (TableSchema * list Row)) : forallb table_fits tables = true -> rows_fit (plain_db tables).
Proof.
  intros H. assert (forall name schema rows r, table_named name tables = Some (schema, rows) -> In r rows ->
    length (parse_row (encode_cells r)) = length (ts_columns schema)) as Hrow.
  { intros name schema rows r Ht Hr. apply List.find_some in Ht as [Hin _]. rewrite forallb_forall in H. specialize (H _ Hin).
    unfold table_fits in H. rewrite forallb_forall in H. by apply Nat.eqb_eq, H. }
  split.
  - intros txn t schema rows [= <-] [= <-]. assert (match txn with Some _ => tables | None => tables end = tables) as -> by (by destruct txn).
    unfold stored_rows, fits, parse_rows. destruct (table_named t tables) as [[s rows]|] eqn:E; [|constructor]. cbn. rewrite map_map.
    apply Forall_map, Forall_forall. intros r Hr%list_elem_of_In. by apply (Hrow t s rows).
  - intros t schema col v row [= Hg] [= Hl]. unfold mem_lookup in Hl. cbn [md_tables plain_db] in Hl.
    destruct (table_named t tables) as [[s rows]|] eqn:E; [|done]. injection Hg as <-. cbn in Hl.
    destruct (column_position (ts_columns s) col) as [i|]; [|done]. cbn in Hl. apply fmap_Some in Hl as (r & Hr & ->).
    apply List.find_some in Hr as [Hr _]. repeat constructor. cbn. by apply (Hrow t s rows).
  - done.
  - done.
  - done.
  - done.
Qed.

Lemma select_rows_match_fields_witness :
  exists s r, parse_query "SELECT d.title, e.name FROM dept d LEFT JOIN (SELECT * FROM emp WHERE salary > 300) e ON d.did = e.dept ORDER BY name" = done s
    /\ query no_gpu 20 company None [] s = done r /\ qr_rows r <> [] /\ Forall (fun row => length row = length (qr_fields r)) (qr_rows r).
Proof.
  eexists _, _. split; [vm_compute; reflexivity|]. split; [vm_compute; reflexivity|]. split; [discriminate|].
  apply (select_rows_match_fields no_gpu 20 company None []
    (match parse_query "SELECT d.title, e.name FROM dept d LEFT JOIN (SELECT * FROM emp WHERE salary > 300) e ON d.did = e.dept ORDER BY name" with
     | Some (Ok s) => s | _ => select_star None None end)); [apply mem_rows_fit; vm_compute; reflexivity | vm_compute; reflexivity | vm_compute; reflexivity].
Defined.

Lemma limit_is_taken_before_offset_witness :
  exists s r, parse_query "SELECT name FROM emp ORDER BY id LIMIT 2 OFFSET 2" = done s /\ query no_gpu 20 company None [] s = done r
    /\ zlen (qr_rows r) <= Z.max 0 (2 - 2).
Proof.
  eexists _, _. split; [vm_compute; reflexivity|]. split; [vm_compute; reflexivity|].
  apply (limit_is_taken_before_offset no_gpu 20 company None []
    (match parse_query "SELECT name FROM emp ORDER BY id LIMIT 2 OFFSET 2" with Some (Ok s) => s | _ => select_star None None end) _ 2 2);
    [vm_compute; reflexivity | vm_compute; eexists; reflexivity | vm_compute; reflexivity | vm_compute; reflexivity | lia | lia | vm_compute; reflexivity].
Defined.

(** The transaction has inserted the rows of [a]; its subquery does not see them. *)
Lemma subqueries_read_outside_the_transaction_witness :
  let db := mkMemDb [table "a" ["id"; "x"] []]%string [ta] [] [] in
  answer db (Some tt) "SELECT x FROM a" = done [["7"]; ["8"]]%string
  /\ answer db (Some tt) "SELECT x FROM a WHERE x IN (SELECT x FROM a)" = done []
  /\ exists s, parse_query "SELECT EXISTS (SELECT x FROM a)" = done s /\ query no_gpu 20 db (Some tt) [] s = query no_gpu 20 db None [] s.
Proof.
  split; [vm_compute; reflexivity|]. split; [vm_compute; reflexivity|]. eexists. split; [vm_compute; reflexivity|].
  apply subqueries_read_outside_the_transaction; reflexivity.
Defined.

(** The rows of [emp] in their contexts, and their keys. *)
Definition emp_rows : list (RowContext MemDb) := map (fun r => ctx_with_db r (Some (fst employees)) company) (snd employees).
Definition value_of (r : RowContext MemDb) (e : Expr) : Value := match eval r e with Some (Ok v) => v | _ => Value_Null end.
Definition query_of (text : string) : SelectStmt := match parse_query text with Some (Ok s) => s | _ => select_star None None end.

Definition grouping : SelectStmt := Eval vm_compute in query_of "SELECT dept, sum(salary) FROM emp GROUP BY dept".
Definition sorting : SelectStmt := Eval vm_compute in query_of "SELECT name FROM emp WHERE salary > 300 ORDER BY salary DESC LIMIT 2 OFFSET 1".
Definition counting : SelectStmt := Eval vm_compute in query_of "SELECT 1 UNION ALL SELECT n + 1 FROM c WHERE n < 3".

Lemma group_by_partitions_the_rows_witness :
  let s := grouping in
  let key r := [debug_key (value_of r (Expr_Ident "dept"))] in
  exists out, execute_aggregation s emp_rows (Some (fst employees)) company = Some (Ok out)
    /\ first_of_each [] (map key emp_rows) = [[Value_Int 10]; [Value_Int 20]]
    /\ NoDup (first_of_each [] (map key emp_rows)).
Proof.
  intros s key. destruct (execute_aggregation s emp_rows (Some (fst employees)) company) as [[out|]|] eqn:E;
    [|vm_compute in E; discriminate E | vm_compute in E; discriminate E].
  exists out. split; [reflexivity|]. split; [vm_compute; reflexivity|].
  refine (proj1 (group_by_partitions_the_rows (DB := MemDb) s emp_rows out (Some (fst employees)) company key _ _ _ E)).
  - vm_compute. discriminate.
  - vm_compute. reflexivity.
  - intros r Hr. exists [value_of r (Expr_Ident "dept")]. split; [|reflexivity].
    repeat (destruct Hr as [<-|Hr]; [vm_compute; reflexivity|]). destruct Hr.
Defined.

Lemma select_filters_sorts_and_cuts_witness :
  let s := sorting in
  let p r := is_truthy (value_of r (Expr_BinaryOp BinOp_Gt (Expr_Ident "salary") (Expr_Literal (Literal_Int 300)))) in
  process_rows s (Some (fst employees)) company [] emp_rows = done [[Some (as_bytes "cid")]]
  /\ exists sorted, Permutation (List.filter p emp_rows) sorted
       /\ process_rows s (Some (fst employees)) company [] emp_rows
          = traverse (project_row (sel_projections s)) (drop 1 (take 2 sorted)).
Proof.
  intros s p. split; [vm_compute; reflexivity|].
  destruct (select_filters_sorts_and_cuts (DB := MemDb) s (Some (fst employees)) company [] emp_rows p value_of 2 1) as (sorted & H1 & _ & _ & H2).
  - vm_compute. reflexivity.
  - vm_compute. reflexivity.
  - intros r Hr. exists (value_of r (Expr_BinaryOp BinOp_Gt (Expr_Ident "salary") (Expr_Literal (Literal_Int 300)))). split; [|reflexivity].
    repeat (destruct Hr as [<-|Hr]; [vm_compute; reflexivity|]). destruct Hr.
  - intros k [<-|[]]. split.
    + intros r Hr. repeat (destruct Hr as [<-|Hr]; [vm_compute; reflexivity|]). destruct Hr.
    + intros a b Ha Hb. repeat (destruct Ha as [<-|Ha]; [repeat (destruct Hb as [<-|Hb]; [vm_compute; reflexivity|]); destruct Hb|]). destruct Ha.
  - split; [vm_compute; reflexivity | lia].
  - split; [vm_compute; reflexivity | lia].
  - by exists sorted.
Defined.

(** [WITH RECURSIVE c(n) AS (SELECT 1 UNION ALL SELECT n + 1 FROM c WHERE n < 3)] *)
Definition count_rows (i : nat) : list Row := match i with 0 => [[Some (as_bytes "1")]] | 1 => [[Some (as_bytes "2")]] | 2 => [[Some (as_bytes "3")]] | _ => [] end%nat.

Lemma recursive_cte_collects_its_steps_witness :
  let s := counting in
  let rec := execute_select no_gpu 20 company [] [] None in
  let schema := mkTableSchema "c" [schema_column "n" ColumnType_Text] [] [] [] [] in
  materialize_cte rec (mkCte "c" ["n"%string] s true) ∅ = Some (Ok (<["c"%string := (concat (map count_rows [0; 1; 2]%nat), schema)]> ∅)).
Proof.
  intros s rec schema.
  apply (recursive_cte_collects_its_steps rec _ "c" schema ∅ count_rows ["n"%string] s UnionOp_UnionAll
           (mkQueryResult [simple "?column?" OID_INT8] [[Some (as_bytes "1")]] "SELECT 1") 3 eq_refl).
  - vm_compute. reflexivity.
  - reflexivity.
  - reflexivity.
  - lia.
  - unfold RECURSION_LIMIT. lia.
  - intros j Hj. unfold steps.
    exists (select_result [simple "?column?" OID_TEXT] (count_rows (S j))). split; [|reflexivity].
    destruct j as [|[|[|j]]]; [vm_compute; reflexivity | vm_compute; reflexivity | vm_compute; reflexivity | lia].
  - intros j Hj. destruct j as [|[|[|j]]]; try lia; discriminate.
  - reflexivity.
Defined.

(** An offset that overflows. *)
Definition far_frame : option WindowFrame :=
  Some (mkWindowFrame FrameType_Rows (mkFrameBound FrameBoundType_Following (Some (Expr_Literal (Literal_Int 9223372036854775807)))) None).

Lemma window_frame_within_partition_witness :
  resolve_frame_bounds far_frame [] emp_rows [0; 1; 2; 3]%nat 0 4 2 = Some (Ok (0%nat, 3%nat)) /\ (0 <= 0 < 3)%nat /\ (3 <= 4)%nat.
Proof.
  split; [vm_compute; reflexivity|].
  destruct (window_frame_within_partition far_frame [] emp_rows [0; 1; 2; 3]%nat 0 4 2 0 3) as (A & B & _); [lia | vm_compute; reflexivity|].
  split; [exact A | exact B].
Defined.

Lemma rank_counts_the_rows_before_witness :
  let part := [Expr_Ident "dept"] in
  let order := [mkOrderBy (Expr_Ident "salary") true] in
  sortable value_of (part_keys part ++ sort_keys order) emp_rows
  /\ window_values emp_rows (Expr_Window "RANK" [] part order None) = done [(1%nat, Value_Int 1); (0%nat, Value_Int 2); (2%nat, Value_Int 1); (3%nat, Value_Int 1)]
  /\ exists vs, window_values emp_rows (Expr_Window "RANK" [] part order None) = Some (Ok vs) /\ Permutation (map fst vs) (seq 0 (length emp_rows)).
Proof.
  intros part order.
  assert (sortable value_of (part_keys part ++ sort_keys order) emp_rows) as Hs.
  { intros k Hk. assert (k = (Expr_Ident "dept", true) \/ k = (Expr_Ident "salary", true)) as Hk' by (destruct Hk as [<-|[<-|[]]]; [by left | by right]).
    clear Hk. destruct Hk' as [-> | ->]; (split;
      [intros r Hr; repeat (destruct Hr as [<-|Hr]; [vm_compute; reflexivity|]); destruct Hr
      |intros a b Ha Hb; repeat (destruct Ha as [<-|Ha]; [repeat (destruct Hb as [<-|Hb]; [vm_compute; reflexivity|]); destruct Hb|]); destruct Ha]). }
  split; [exact Hs|]. split; [vm_compute; reflexivity|].
  destruct (rank_counts_the_rows_before value_of emp_rows (ctx_empty (DB := MemDb)) part order Hs "RANK" [] None) as (vs & Hv & Hp & _);
    [vm_compute; reflexivity | discriminate | discriminate|].
  by exists vs.
Defined.
