(* ===== verification/JsonSchema.v ===== *)
(** Validation of JSON documents ([storage/json_schema.rs]): the subset of JSON
    Schema that a table's rule is checked with on INSERT and UPDATE.

    A schema is itself a document, and [validate] walks both. [conforms] states
    what the keywords mean. Theorems: in strict mode a document passes exactly
    when it conforms; relaxed mode looks at the outermost type only, and off at
    nothing. *)

From Stdlib Require Import Strings.Byte Strings.Ascii Strings.String ZArith Lia Bool.
From stdpp Require Import base list strings.
From S2P Require Import Prelude OrdMap Utf8 Decimal Jsonb Ast Lexer Float Values JsonOps.

Open Scope Z_scope.

(** [\"{s}\"] of a message *)
Definition quoted (s : string) : string := String "034"%char s +:+ String "034"%char EmptyString.

Inductive Mode := Strict | Relaxed | Off.

Definition mode_parse {std : StdLib} (s : string) : option Mode :=
  let s := to_lowercase s in
  if String.eqb s "strict" then Some Strict
  else if String.eqb s "relaxed" then Some Relaxed
  else if String.eqb s "off" then Some Off
  else None.

Definition json_type_name (v : JSON) : string :=
  match v with
  | VNull => "null"
  | VBool _ => "boolean"
  | VNumber (Jsonb.Float _) => "number"
  | VNumber _ => "integer"
  | VString _ => "string"
  | VArray _ => "array"
  | VObject _ => "object"
  end.

(** An unknown type name rejects nothing. *)
Definition type_matches (declared : string) (instance : JSON) : bool :=
  if String.eqb declared "integer" then match instance with VNumber (PosInt _) | VNumber (NegInt _) => true | _ => false end
  else if String.eqb declared "number" then match instance with VNumber _ => true | _ => false end
  else if String.eqb declared "string" then match instance with VString _ => true | _ => false end
  else if String.eqb declared "boolean" then match instance with VBool _ => true | _ => false end
  else if String.eqb declared "array" then match instance with VArray _ => true | _ => false end
  else if String.eqb declared "object" then match instance with VObject _ => true | _ => false end
  else if String.eqb declared "null" then match instance with VNull => true | _ => false end
  else true.

(** [Number::as_f64], [Value::as_f64] and [Value::as_u64] *)
Definition number_f64 (n : Number) : Z :=
  match n with PosInt n => u64_to_f64 n | NegInt n => f_neg (u64_to_f64 (- n)) | Jsonb.Float bits => bits end.
Definition json_f64 (v : JSON) : option Z := match v with VNumber n => Some (number_f64 n) | _ => None end.
Definition json_u64 (v : JSON) : option Z := match v with VNumber (PosInt n) => Some n | _ => None end.

(** [map.get(key).map(f)], with [f] where the recursion of the caller is seen. *)
Definition get_with {V B : Type} (f : V -> B) (key : string) : list (string * V) -> option B :=
  fix go (m : list (string * V)) : option B :=
    match m with
    | [] => None
    | (k, v) :: m' => if keqb key k then Some (f v) else go m'
    end.

Section Validate.
  Context {js : Json}.

(** The errors of the keywords that look at the value only. *)
Definition enum_errors (schema : list (string * JSON)) (instance : JSON) (path : string) : list string :=
  match om_get "enum" schema with
  | Some (VArray allowed) =>
      if existsb (fun v => json_eqb v instance) allowed then [] else [path +:+ ": value is not one of the allowed enum values"]
  | _ => []
  end.

Definition required_errors (schema : list (string * JSON)) (instance : JSON) (path : string) : list string :=
  match instance, om_get "required" schema with
  | VObject obj, Some (VArray required) =>
      flat_map (fun req => match req with
                           | VString name =>
                               match om_get name obj with Some _ => [] | None => [path +:+ ": missing required property " +:+ quoted name] end
                           | _ => []
                           end) required
  | _, _ => []
  end.

Definition number_errors (schema : list (string * JSON)) (instance : JSON) (path : string) : list string :=
  match instance with
  | VNumber n =>
      (match om_get "minimum" schema ≫= json_f64 with
       | Some min => if f_lt (number_f64 n) min then [path +:+ ": " +:+ json_text instance +:+ " is less than minimum " +:+ f_display min] else []
       | None => []
       end)
      ++ (match om_get "maximum" schema ≫= json_f64 with
          | Some max => if f_lt max (number_f64 n) then [path +:+ ": " +:+ json_text instance +:+ " is greater than maximum " +:+ f_display max] else []
          | None => []
          end)
  | _ => []
  end.

(** [s.len()] counts bytes. *)
Definition length_errors (schema : list (string * JSON)) (instance : JSON) (path : string) : list string :=
  match instance with
  | VString s =>
      (match om_get "minLength" schema ≫= json_u64 with
       | Some min => if zlen (as_bytes s) <? min then [path +:+ ": string shorter than minLength " +:+ to_dec min] else []
       | None => []
       end)
      ++ (match om_get "maxLength" schema ≫= json_u64 with
          | Some max => if max <? zlen (as_bytes s) then [path +:+ ": string longer than maxLength " +:+ to_dec max] else []
          | None => []
          end)
  | _ => []
  end.

(** The mismatch of the [type] keyword. *)
Definition type_error (schema : list (string * JSON)) (instance : JSON) (path : string) : option string :=
  match om_get "type" schema with
  | Some (VString t) =>
      if type_matches t instance then None
      else Some (path +:+ ": expected type " +:+ quoted t +:+ ", got " +:+ quoted (json_type_name instance))
  | _ => None
  end.

Fixpoint validate_at (schema instance : JSON) (path : string) (mode : Mode) : list string :=
  match schema with
  | VObject schema =>
      match type_error schema instance path with
      | Some e => [e]
      | None =>
          match mode with
          | Relaxed => []
          | _ =>
              enum_errors schema instance path
              ++ required_errors schema instance path
              ++ (match instance with
                  | VObject obj =>
                      default [] (get_with (fun props =>
                        match props with
                        | VObject props =>
                            flat_map (fun p : string * JSON =>
                                        match om_get (fst p) obj with
                                        | Some sub_instance => validate_at (snd p) sub_instance (path +:+ "." +:+ fst p) mode
                                        | None => []
                                        end) props
                        | _ => []
                        end) "properties" schema)
                  | _ => []
                  end)
              ++ (match instance with
                  | VArray items =>
                      default [] (get_with (fun item_schema =>
                        concat (imap (fun i item => validate_at item_schema item (path +:+ "[" +:+ to_dec (Z.of_nat i) +:+ "]") mode) items))
                        "items" schema)
                  | _ => []
                  end)
              ++ number_errors schema instance path
              ++ length_errors schema instance path
          end
      end
  | _ => []
  end.

Definition validate (schema instance : JSON) (mode : Mode) : list string :=
  match mode with Off => [] | _ => validate_at schema instance "$" mode end.

(** ** What the keywords mean *)

Inductive conforms : JSON -> JSON -> Prop :=
| conforms_any schema instance : (forall o, schema <> VObject o) -> conforms schema instance
| conforms_object o instance :
    (forall t, om_get "type" o = Some (VString t) -> type_matches t instance = true) ->
    (forall vs, om_get "enum" o = Some (VArray vs) -> exists v, In v vs /\ json_eqb v instance = true) ->
    (forall ns obj name, om_get "required" o = Some (VArray ns) -> instance = VObject obj -> In (VString name) ns -> is_Some (om_get name obj)) ->
    (forall ps obj k s v, om_get "properties" o = Some (VObject ps) -> instance = VObject obj -> In (k, s) ps -> om_get k obj = Some v -> conforms s v) ->
    (forall s items item, om_get "items" o = Some s -> instance = VArray items -> In item items -> conforms s item) ->
    (forall n b, instance = VNumber n -> om_get "minimum" o ≫= json_f64 = Some b -> f_lt (number_f64 n) b = false) ->
    (forall n b, instance = VNumber n -> om_get "maximum" o ≫= json_f64 = Some b -> f_lt b (number_f64 n) = false) ->
    (forall s b, instance = VString s -> om_get "minLength" o ≫= json_u64 = Some b -> b <= zlen (as_bytes s)) ->
    (forall s b, instance = VString s -> om_get "maxLength" o ≫= json_u64 = Some b -> zlen (as_bytes s) <= b) ->
    conforms (VObject o) instance.

Lemma get_with_om_get {V B : Type} (f : V -> B) (key : string) (m : list (string * V)) : get_with f key m = f <$> om_get key m.
Proof. induction m as [|[k v] m IH]; [done|]. cbn. by destruct (keqb key k). Qed.

Lemma flat_map_nil {A B : Type} (f : A -> list B) (l : list A) : flat_map f l = [] <-> forall x, In x l -> f x = [].
Proof.
  induction l as [|x l IH]; cbn; [done|]. rewrite app_nil, IH. split; [intros [Hx Hl] y [<-|]; auto | intros H; split; auto].
Qed.

Lemma concat_imap_nil {A B : Type} (f : nat -> A -> list B) (l : list A) :
  concat (imap f l) = [] <-> forall i x, l !! i = Some x -> f i x = [].
Proof.
  revert f. induction l as [|x l IH]; intros f; cbn; [done|]. rewrite app_nil, IH. split.
  - intros [Hx Hl] [|i] y Hy; cbn in Hy; [by injection Hy as <- | by apply (Hl i)].
  - intros H. split; [by apply (H O) | intros i y Hy; by apply (H (S i))].
Qed.

Lemma and_iff_both (P Q P' Q' : Prop) : (P <-> P') -> (Q <-> Q') -> (P /\ Q <-> P' /\ Q').
Proof. tauto. Qed.

(** Each keyword has no errors exactly when it is met. *)
Lemma enum_errors_nil o instance path :
  enum_errors o instance path = [] <-> forall vs, om_get "enum" o = Some (VArray vs) -> exists v, In v vs /\ json_eqb v instance = true.
Proof.
  unfold enum_errors. destruct (om_get "enum" o) as [[| | | |vs|]|]; try (split; [by intros _ ws [=] | done]).
  destruct (existsb _ vs) eqn:E; split; try done.
  - intros _ ws [= <-]. by apply existsb_exists.
  - intros H. apply not_true_iff_false in E. destruct E. apply existsb_exists. by apply H.
Qed.

Lemma required_errors_nil o instance path :
  required_errors o instance path = []
  <-> forall ns obj name, om_get "required" o = Some (VArray ns) -> instance = VObject obj -> In (VString name) ns -> is_Some (om_get name obj).
Proof.
  unfold required_errors. destruct instance as [| | | | |obj]; try (split; [by intros _ ns obj name _ [=] | done]).
  destruct (om_get "required" o) as [[| | | |ns|]|]; try (split; [by intros _ ns' obj' name [=] | done]).
  rewrite flat_map_nil. split.
  - intros H ns' obj' name [= <-] [= <-] Hin. specialize (H _ Hin). cbn in H. by destruct (om_get name obj).
  - intros H req Hin. destruct req; try done. destruct (H ns obj s eq_refl eq_refl Hin) as [v ->]. done.
Qed.

Lemma number_errors_nil o instance path :
  number_errors o instance path = []
  <-> (forall n b, instance = VNumber n -> om_get "minimum" o ≫= json_f64 = Some b -> f_lt (number_f64 n) b = false)
      /\ (forall n b, instance = VNumber n -> om_get "maximum" o ≫= json_f64 = Some b -> f_lt b (number_f64 n) = false).
Proof.
  unfold number_errors. destruct instance as [| |n| | |]; try (split; [intros _; split; by intros ? ? [=] | done]).
  rewrite app_nil. apply and_iff_both; destruct (_ ≫= json_f64) as [b|]; try (split; [by intros _ ? ? _ [=] | done]).
  - split; [|intros H; by rewrite (H n b)]. intros H n' b' [= <-] [= <-]. by destruct (f_lt _ _).
  - split; [|intros H; by rewrite (H n b)]. intros H n' b' [= <-] [= <-]. by destruct (f_lt _ _).
Qed.

Lemma length_errors_nil o instance path :
  length_errors o instance path = []
  <-> (forall s b, instance = VString s -> om_get "minLength" o ≫= json_u64 = Some b -> b <= zlen (as_bytes s))
      /\ (forall s b, instance = VString s -> om_get "maxLength" o ≫= json_u64 = Some b -> zlen (as_bytes s) <= b).
Proof.
  unfold length_errors. destruct instance as [| | |s| |]; try (split; [intros _; split; by intros ? ? [=] | done]).
  rewrite app_nil. apply and_iff_both; destruct (_ ≫= json_u64) as [b|]; try (split; [by intros _ ? ? _ [=] | done]).
  - split; [|intros H; specialize (H s b eq_refl eq_refl); destruct (Z.ltb_spec (zlen (as_bytes s)) b); [lia | done]].
    intros H s' b' [= <-] [= <-]. destruct (Z.ltb_spec (zlen (as_bytes s)) b); [done | lia].
  - split; [|intros H; specialize (H s b eq_refl eq_refl); destruct (Z.ltb_spec b (zlen (as_bytes s))); [lia | done]].
    intros H s' b' [= <-] [= <-]. destruct (Z.ltb_spec b (zlen (as_bytes s))); [done | lia].
Qed.

Lemma type_error_None o instance path :
  type_error o instance path = None <-> forall t, om_get "type" o = Some (VString t) -> type_matches t instance = true.
Proof.
  unfold type_error. destruct (om_get "type" o) as [[| | |t| |]|]; try (split; [by intros _ t' [=] | done]).
  destruct (type_matches t instance) eqn:E; split; try done.
  - by intros _ t' [= <-].
  - intros H. by rewrite (H t eq_refl) in E.
Qed.

(** Validation decides conformance to a schema and, when it is an object, to
    each of its members: the schemas of properties are two levels down. *)
Definition decides (schema : JSON) : Prop := forall instance path, validate_at schema instance path Strict = [] <-> conforms schema instance.
Definition decides_parts (schema : JSON) : Prop :=
  decides schema /\ match schema with VObject o => forall k s, In (k, s) o -> decides s | _ => True end.

Lemma get_decides o key s : Forall (fun e => decides_parts (snd e)) o -> om_get key o = Some s -> decides_parts s.
Proof. intros H Hg. apply om_get_Some_In in Hg as Hin. rewrite Forall_forall in H. by apply list_elem_of_In, H in Hin. Qed.

(** What the two recursive keywords report. *)
Definition properties_errors (props : JSON) (obj : list (string * JSON)) (path : string) : list string :=
  match props with
  | VObject props =>
      flat_map (fun p : string * JSON =>
                  match om_get (fst p) obj with
                  | Some v => validate_at (snd p) v (path +:+ "." +:+ fst p) Strict
                  | None => []
                  end) props
  | _ => []
  end.

Definition items_errors (s : JSON) (items : list JSON) (path : string) : list string :=
  concat (imap (fun i item => validate_at s item (path +:+ "[" +:+ to_dec (Z.of_nat i) +:+ "]") Strict) items).

Lemma validate_at_strict o instance path :
  validate_at (VObject o) instance path Strict =
  match type_error o instance path with
  | Some e => [e]
  | None =>
      enum_errors o instance path ++ required_errors o instance path
      ++ (match instance with VObject obj => default [] ((fun p => properties_errors p obj path) <$> om_get "properties" o) | _ => [] end)
      ++ (match instance with VArray items => default [] ((fun s => items_errors s items path) <$> om_get "items" o) | _ => [] end)
      ++ number_errors o instance path ++ length_errors o instance path
  end.
Proof. cbn [validate_at]. destruct (type_error o instance path), instance; try done; by rewrite get_with_om_get. Qed.

Lemma properties_errors_nil o obj path :
  Forall (fun e => decides_parts (snd e)) o ->
  default [] ((fun p => properties_errors p obj path) <$> om_get "properties" o) = []
  <-> forall ps k s v, om_get "properties" o = Some (VObject ps) -> In (k, s) ps -> om_get k obj = Some v -> conforms s v.
Proof.
  intros Hd. destruct (om_get "properties" o) as [[| | | | |ps]|] eqn:E; cbn; try (split; [by intros _ ? ? ? ? [=] | done]).
  apply (get_decides _ _ _ Hd) in E as [_ Hps]. rewrite flat_map_nil. split.
  - intros H ps' k s v [= <-] Hin Hv. specialize (H _ Hin). cbn in H. rewrite Hv in H. by eapply Hps.
  - intros H [k s] Hin. cbn. destruct (om_get k obj) as [v|] eqn:Hv; [|done]. eapply Hps; [done|]. by eapply H.
Qed.

Lemma items_errors_nil o items path :
  Forall (fun e => decides_parts (snd e)) o ->
  default [] ((fun s => items_errors s items path) <$> om_get "items" o) = []
  <-> forall s item, om_get "items" o = Some s -> In item items -> conforms s item.
Proof.
  intros Hd. destruct (om_get "items" o) as [s|] eqn:E; cbn; [|split; [by intros _ ? ? [=] | done]].
  apply (get_decides _ _ _ Hd) in E as [Hs _]. unfold items_errors. rewrite concat_imap_nil. split.
  - intros H s' item [= <-] Hin. apply list_elem_of_In, list_elem_of_lookup_1 in Hin as [i Hi]. by eapply Hs, H.
  - intros H i item Hi. apply Hs, H; [done|]. by eapply list_elem_of_In, list_elem_of_lookup_2.
Qed.

Lemma validate_at_decides (schema : JSON) : decides_parts schema.
Proof.
  induction schema as [|b|n|s|items _|o IH] using value_ind'; unfold decides_parts, decides; try (split; [|done]; intros; split; [by constructor | done]).
  split; [|intros k s Hin; rewrite Forall_forall in IH; by apply list_elem_of_In, IH in Hin as [Hs _]].
  intros instance path. rewrite validate_at_strict. destruct (type_error o instance path) as [e|] eqn:Ht.
  { split; [done|]. intros Hc. exfalso. inversion Hc as [? ? Hn|]; subst; [by eapply Hn|]. by rewrite (proj2 (type_error_None o instance path)) in Ht. }
  rewrite type_error_None in Ht. rewrite !app_nil, enum_errors_nil, required_errors_nil, number_errors_nil, length_errors_nil. split.
  - intros (He & Hr & Hp & Hi & (Hn1 & Hn2) & Hl1 & Hl2). apply conforms_object; try done.
    + intros ps obj k s v Hps -> Hin Hv. rewrite (properties_errors_nil _ _ _ IH) in Hp. by eapply Hp.
    + intros s items item Hs -> Hin. rewrite (items_errors_nil _ _ _ IH) in Hi. by eapply Hi.
  - intros Hc. inversion Hc as [? ? Hn|o' d' H1 He Hr Hp Hi Hn1 Hn2 Hl1 Hl2]; subst; [by destruct (Hn o)|]. split_and!; try done.
    + destruct instance; try done. apply (properties_errors_nil _ _ _ IH). intros. by eapply Hp.
    + destruct instance; try done. apply (items_errors_nil _ _ _ IH). intros. by eapply Hi.
Qed.

(** Strict validation is conformance: a document passes exactly when it meets
    every keyword of the schema, at every depth. Relaxed validation looks at
    the outermost type only, and a rule that is off rejects nothing. *)
Theorem validation_is_conformance (schema instance : JSON) :
  (validate schema instance Strict = [] <-> conforms schema instance)
  /\ (validate schema instance Relaxed = []
      <-> forall o t, schema = VObject o -> om_get "type" o = Some (VString t) -> type_matches t instance = true)
  /\ validate schema instance Off = [].
Proof.
  split_and!; [apply validate_at_decides | | done]. cbn. destruct schema as [| | | | |o]; try (split; [by intros _ ? ? [=] | done]). cbn [validate_at].
  destruct (type_error o instance "$") as [e|] eqn:E; split; try done.
  - intros H. assert (type_error o instance "$" = None) as E'; [|by rewrite E in E']. apply type_error_None. intros t. by apply H.
  - intros _ o' t [= <-]. by apply (type_error_None o instance "$").
Qed.

End Validate.
