(* ===== verification/Dml.v ===== *)
(** Changes of rows ([executor/dml.rs]): INSERT, UPDATE and DELETE with their
    constraints, and the events of change capture.

    A statement runs on a state [State]: the database together with the transaction
    that the statement is part of, if any. Rows are read and written through
    [RowStore] ([txn_scan], [txn_read], [txn_write] and [txn_delete]); what else
    of the database the statements use is [Schemas]. An action gives the state
    it leaves also when it fails or panics, because the rows written before
    stay written.

    Parameters: the vectors of [vector/vector.rs] in their canonical form, and
    what evaluating an expression leaves behind in the database, which are the
    sequences that [nextval] advances. *)

From Stdlib Require Import Strings.Byte Strings.Ascii Strings.String ZArith Lia Bool.
From stdpp Require Import base list strings gmap.
From S2P Require Import Prelude OrdMap Utf8 Decimal Txn Compress Flux Rows Jsonb Ast Lexer Parser Float Values JsonOps JsonSchema Eval Joins Sorting Windows Planner Select.

Open Scope Z_scope.
Open Scope eval_scope.

(** ** The database of a statement *)

Class Schemas (State : Type) := {
  tables_get : string -> State -> Result (option TableSchema);
  jsonb_binary_storage : State -> bool;
  (** [rand::random::<[u8; 16]>()] *)
  random_key : State -> State * bytes;
  now_ms : State -> Z;
  flux_publish_cdc : string -> JSON -> State -> State * Result unit;
  (** the state behind the evaluation of an expression *)
  advance : RowContext State -> Expr -> State -> State;
}.

(** [Vector::from_text(text).map(|v| v.to_text())] *)
Class Vectors := canonical_vector : string -> option string.

Section Actions.
  Context {State : Type}.

(** ** Actions: the state they leave and their outcome *)

Definition Act (A : Type) : Type := State -> State * Eval A.

Definition pure {A : Type} (a : A) : Act A := fun s => (s, done a).
Definition lift_eval {A : Type} (m : Eval A) : Act A := fun s => (s, m).
Definition abind {A B : Type} (m : Act A) (k : A -> Act B) : Act B := fun s =>
  match m s with
  | (s', Some (Ok a)) => k a s'
  | (s', Some (Err e)) => (s', Some (Err e))
  | (s', None) => (s', None)
  end.
(** A read of the state, and an operation of the database. *)
Definition reading {A : Type} (f : State -> Result A) : Act A := fun s => (s, Some (f s)).
Definition calling {A : Type} (f : State -> State * Result A) : Act A := fun s => let '(s', r) := f s in (s', Some r).

End Actions.
Arguments Act : clear implicits.

Declare Scope act_scope.
Notation "'do' x '<-' m ';' k" := (abind m (fun x => k))
  (at level 10, x binder, m at level 100, k at level 200) : act_scope.
Open Scope act_scope.

Section Dml.
  Context {State : Type} {rs : RowStore State} {tables : Schemas State} {world : World State}.
  Context {std : StdLib} {crates : Crates} {js : Json} {vectors : Vectors} {dbg : DebugFmt}.

Definition evaluate (ctx : State -> RowContext State) (e : Expr) : Act State Value := fun s => (advance (ctx s) e s, eval (ctx s) e).

(** [eval_expr_with_db(e, db.clone(), params)] *)
Definition evaluate_now (e : Expr) (params : list Value) : Act State Value :=
  evaluate (fun s => mkRowContext [] None (Some s) [] params None []) e.

(** [RowContext::with_db(row, schema, db).with_params(params)]: the database is
    shared, so it is the one at the time of the evaluation. *)
Definition change_ctx (row : Row) (schema : option TableSchema) (params : list Value) (s : State) : RowContext State :=
  with_params params (ctx_with_db row schema s).

(** [cells.get(i).cloned().flatten()] *)
Definition cell_at (cells : Row) (i : nat) : option bytes := default None (cells !! i).

(** ** Stored form *)

Definition stored_cell (binary_json : bool) (col : option TableColumn) (data : bytes) : bytes :=
  if binary_json && match col with Some c => match tc_type c with ColumnType_Json => true | _ => false end | None => false end
  then encode_json_cell data else data.

Definition build_row_value (schema : TableSchema) (cells : Row) (binary_json : bool) : bytes :=
  encode_cells (imap (fun i cell => stored_cell binary_json (ts_columns schema !! i) <$> cell) cells).

(** The key of a row: the primary key's cell, its cells with their lengths, or
    random bytes. *)
Definition key_part (cell : option bytes) : bytes :=
  match cell with
  | Some b => u32_to_be (zlen b mod 2 ^ 32) ++ b
  | None => u32_to_be (2 ^ 32 - 1)
  end.

Definition primary_key (schema : TableSchema) (cells : Row) : bytes :=
  match ts_pk_columns schema with
  | [single] => default [] (cell_at cells single)
  | many => concat (map (fun i => key_part (cell_at cells i)) many)
  end.

Definition row_key_for (schema : TableSchema) (cells : Row) : Act State bytes := fun s =>
  match ts_pk_columns schema with
  | [] => let '(s', key) := random_key s in (s', done key)
  | _ => (s, done (primary_key schema cells))
  end.

(** ** The cells of a new row *)

Definition normalize_vector_cell (col : TableColumn) (cell : option bytes) : option bytes :=
  match tc_type col, cell with
  | ColumnType_Vector, Some b =>
      match from_utf8 b with
      | Some text => match canonical_vector text with Some canonical => Some (as_bytes canonical) | None => cell end
      | None => cell
      end
  | _, _ => cell
  end.

Definition normalize_vector_cells (schema : TableSchema) (cells : Row) : Row :=
  imap (fun i cell => match ts_columns schema !! i with Some col => normalize_vector_cell col cell | None => cell end) cells.

Definition position_of (schema : TableSchema) (name : string) : Result nat :=
  ok_or (column_position (ts_columns schema) name) ("column " +:+ quoted name +:+ " does not exist").

(** Where each value of the row goes; a column that is not there is an error
    when its turn comes. *)
Definition insert_targets (schema : TableSchema) (insert_columns : list string) (row_values : list Expr) : Result (list (Result nat * Expr)) :=
  match insert_columns with
  | [] =>
      if (length row_values =? length (ts_columns schema))%nat then Ok (imap (fun i e => (Ok i, e)) row_values)
      else Err ("INSERT has " +:+ to_dec (zlen row_values) +:+ " value(s) but table " +:+ quoted (ts_name schema)
                +:+ " has " +:+ to_dec (zlen (ts_columns schema)) +:+ " column(s)")
  | _ =>
      if (length insert_columns =? length row_values)%nat
      then Ok (zip_with (fun name e => (position_of schema name, e)) insert_columns row_values)
      else Err ("INSERT column list has " +:+ to_dec (zlen insert_columns) +:+ " entries but VALUES has " +:+ to_dec (zlen row_values))
  end.

(** The cells and which of them were provided. *)
Fixpoint fill_values (targets : list (Result nat * Expr)) (params : list Value) (cells : Row) (provided : list bool) : Act State (Row * list bool) :=
  match targets with
  | [] => pure (cells, provided)
  | (target, e) :: targets' =>
      do idx <- lift_eval (Some target);
      do v <- evaluate_now e params;
      fill_values targets' params (<[idx := to_wire_bytes v]> cells) (<[idx := true]> provided)
  end.

Fixpoint fill_defaults (i : nat) (cols : list TableColumn) (params : list Value) (provided : list bool) (cells : Row) : Act State Row :=
  match cols with
  | [] => pure cells
  | col :: cols' =>
      if default false (provided !! i) then fill_defaults (S i) cols' params provided cells
      else
        match tc_default col with
        | Some text =>
            do e <- lift_eval (parse_expr_text text);
            do v <- evaluate_now e params;
            fill_defaults (S i) cols' params provided (<[i := to_wire_bytes v]> cells)
        | None =>
            if tc_nullable col then fill_defaults (S i) cols' params provided cells
            else lift_eval (fails ("column " +:+ quoted (tc_name col) +:+ " is NOT NULL and has no default"))
        end
  end.

Definition resolve_insert_row (schema : TableSchema) (insert_columns : list string) (row_values : list Expr) (params : list Value) : Act State Row :=
  let n := length (ts_columns schema) in
  do targets <- lift_eval (Some (insert_targets schema insert_columns row_values));
  do filled <- fill_values targets params (replicate n None) (replicate n false);
  do cells <- fill_defaults 0 (ts_columns schema) params (snd filled) (fst filled);
  pure (normalize_vector_cells schema cells).

(** ** Constraints *)

(** The rows with their keys, and their cells. *)
Definition scan_rows (table : string) : Act State (list (bytes * Row)) :=
  do kvs <- reading (rs_scan table);
  pure (map (fun kv => (kv_key kv, parse_row (kv_value kv))) kvs).

Definition has_null (group : list nat) (cells : Row) : bool := existsb (fun i => negb (bool_decide (is_Some (cell_at cells i)))) group.
Definition same_group (group : list nat) (row cells : Row) : bool := forallb (fun i => bool_decide (cell_at row i = cell_at cells i)) group.

(** A row that has the values of a group, other than the one left out. *)
Definition collides (group : list nat) (cells : Row) (exclude_key : option bytes) (row : bytes * Row) : bool :=
  negb (bool_decide (exclude_key = Some (fst row))) && same_group group (snd row) cells.

(** Naming the columns of a group panics when one is out of range. *)
Definition unique_violation (schema : TableSchema) (group : list nat) : Eval unit :=
  match mapM (fun i => tc_name <$> ts_columns schema !! i) group with
  | Some names =>
      fails ("duplicate value violates unique constraint on " +:+ ts_name schema +:+ "(" +:+ join_strings ", " names +:+ ")")
  | None => panics
  end.

Fixpoint check_groups (schema : TableSchema) (groups : list (list nat)) (existing : list (bytes * Row)) (cells : Row) (exclude_key : option bytes) : Eval unit :=
  match groups with
  | [] => done tt
  | group :: groups' =>
      if has_null group cells then check_groups schema groups' existing cells exclude_key
      else if existsb (collides group cells exclude_key) existing then unique_violation schema group
      else check_groups schema groups' existing cells exclude_key
  end.

Definition check_unique_constraints (schema : TableSchema) (cells : Row) (exclude_key : option bytes) : Act State unit :=
  match ts_unique_groups schema with
  | [] => pure tt
  | groups =>
      do existing <- scan_rows (ts_name schema);
      lift_eval (check_groups schema groups existing cells exclude_key)
  end.

Definition foreign_key_violation (schema : TableSchema) (fk : ForeignKey) (val : bytes) : Eval unit :=
  match ts_columns schema !! fk_column fk with
  | Some _ =>
      fails ("insert or update on table " +:+ quoted (ts_name schema) +:+ " violates foreign key constraint: no row in "
             +:+ quoted (fk_ref_table fk) +:+ " with " +:+ fk_ref_column fk +:+ " = " +:+ debug_str (from_utf8_lossy val))
  | None => panics
  end.

Definition check_foreign_key (schema : TableSchema) (cells : Row) (fk : ForeignKey) : Act State unit :=
  match cell_at cells (fk_column fk) with
  | None => pure tt
  | Some val =>
      do found <- reading (tables_get (fk_ref_table fk));
      do ref_schema <- lift_eval (Some (ok_or found ("referenced table " +:+ quoted (fk_ref_table fk) +:+ " does not exist")));
      do ref_idx <- lift_eval (Some (ok_or (column_position (ts_columns ref_schema) (fk_ref_column fk))
                                        ("referenced column " +:+ quoted (fk_ref_column fk) +:+ " does not exist")));
      do ref_rows <- scan_rows (fk_ref_table fk);
      if existsb (fun r => bool_decide (cell_at (snd r) ref_idx = Some val)) ref_rows then pure tt
      else lift_eval (foreign_key_violation schema fk val)
  end.

(** [for x in l { f(x)?; }] *)
Fixpoint for_each {A : Type} (f : A -> Act State unit) (l : list A) : Act State unit :=
  match l with
  | [] => pure tt
  | x :: l' => do _ <- f x; for_each f l'
  end.

Definition check_foreign_keys (schema : TableSchema) (cells : Row) : Act State unit := for_each (check_foreign_key schema cells) (ts_foreign_keys schema).

Definition check_json_rule (schema : TableSchema) (cells : Row) (rule : JsonSchemaRule) : Eval unit :=
  match column_position (ts_columns schema) (js_column rule) with
  | None => done tt
  | Some col_idx =>
      match cell_at cells col_idx ≫= from_utf8 with
      | None => done tt
      | Some text =>
          match json_parse (as_bytes text), json_parse (as_bytes (js_schema rule)) with
          | None, _ => fails ("column " +:+ quoted (js_column rule) +:+ " is not valid JSON")
          | Some _, None => done tt
          | Some doc, Some schema_doc =>
              match validate schema_doc doc (default Strict (mode_parse (js_mode rule))) with
              | [] => done tt
              | errors => fails ("json_schema validation failed for column " +:+ quoted (js_column rule) +:+ ": " +:+ join_strings "; " errors)
              end
          end
      end
  end.

Definition check_json_schemas (schema : TableSchema) (cells : Row) : Act State unit :=
  for_each (fun rule => lift_eval (check_json_rule schema cells rule)) (ts_json_schemas schema).

(** ** Change capture *)

Definition cells_to_json (schema : TableSchema) (cells : Row) : JSON :=
  VObject (fold_left (fun obj cc => om_insert (tc_name (fst cc)) (match snd cc with Some b => VString (from_utf8_lossy b) | None => VNull end) obj)
             (zip (ts_columns schema) cells) []).

Definition cdc_event (schema : TableSchema) (table opname : string) (row_key : bytes) (before after : option Row) (ts : Z) : JSON :=
  let opt cells := match cells with Some c => cells_to_json schema c | None => VNull end in
  VObject (fold_left (fun obj kv => om_insert (fst kv) (snd kv) obj)
    [("op"%string, VString opname); ("table"%string, VString table); ("row_key"%string, VString (hex_encode row_key));
     ("before"%string, opt before); ("after"%string, opt after); ("ts"%string, VNumber (number_from_i64 ts))] []).

(** A failure is logged and not reported. *)
Definition publish_cdc_event (schema : TableSchema) (table opname : string) (row_key : bytes) (before after : option Row) : Act State unit := fun s =>
  (fst (flux_publish_cdc table (cdc_event schema table opname row_key before after (now_ms s)) s), done tt).

(** ** INSERT *)

Definition command_tag (tag : string) : QueryResult := mkQueryResult [] [] tag.

Definition find_table (table : string) : Act State TableSchema :=
  do found <- reading (tables_get table);
  lift_eval (Some (ok_or found ("table " +:+ quoted table +:+ " does not exist"))).

Definition check_constraints (schema : TableSchema) (cells : Row) (exclude_key : option bytes) : Act State unit :=
  do _ <- check_unique_constraints schema cells exclude_key;
  do _ <- check_foreign_keys schema cells;
  check_json_schemas schema cells.

Definition write_row (schema : TableSchema) (table : string) (key : bytes) (cells : Row) : Act State unit := fun s =>
  calling (rs_write table key (build_row_value schema cells (jsonb_binary_storage s))) s.

(** A row with the primary key, in a table that has one. *)
Definition key_taken (schema : TableSchema) (table : string) (key : bytes) : Act State bool :=
  match ts_pk_columns schema with
  | [] => pure false
  | _ => do found <- reading (rs_read table key); pure (bool_decide (is_Some found))
  end.

Definition insert_one (schema : TableSchema) (table : string) (insert_columns : list string) (params : list Value) (row_values : list Expr) : Act State unit :=
  do cells <- resolve_insert_row schema insert_columns row_values params;
  do _ <- check_constraints schema cells None;
  do key <- row_key_for schema cells;
  do taken <- key_taken schema table key;
  if (taken : bool) then lift_eval (fails ("duplicate key value violates unique constraint " +:+ quoted (table +:+ "_pkey")))
  else
    do _ <- write_row schema table key cells;
    publish_cdc_event schema table "insert" key None (Some cells).

Definition execute_insert (ins : InsertStmt) (params : list Value) : Act State QueryResult :=
  do schema <- find_table (ins_table ins);
  do _ <- for_each (insert_one schema (ins_table ins) (ins_columns ins) params) (ins_values ins);
  pure (command_tag ("INSERT 0 " +:+ to_dec (zlen (ins_values ins)))).

(** ** DELETE and UPDATE *)

(** Whether a row satisfies the predicate. *)
Definition row_matches (schema : option TableSchema) (where_ : option Expr) (params : list Value) (row : Row) : Act State bool :=
  match where_ with
  | Some e => do v <- evaluate (change_ctx row schema params) e; pure (is_truthy v)
  | None => pure true
  end.

(** [for row in rows { if f(row)? { n += 1 } }] *)
Fixpoint count_changes (f : bytes * Row -> Act State bool) (rows : list (bytes * Row)) (n : Z) : Act State Z :=
  match rows with
  | [] => pure n
  | row :: rows' => do hit <- f row; count_changes f rows' (if (hit : bool) then n + 1 else n)
  end.

Definition delete_one (schema : option TableSchema) (table : string) (where_ : option Expr) (params : list Value) (row : bytes * Row) : Act State bool :=
  do hit <- row_matches schema where_ params (snd row);
  if (hit : bool) then
    do _ <- calling (rs_delete table (fst row));
    do _ <- match schema with
            | Some sc => publish_cdc_event sc table "delete" (fst row) (Some (snd row)) None
            | None => pure tt
            end;
    pure true
  else pure false.

Definition execute_delete (del : DeleteStmt) (params : list Value) : Act State QueryResult :=
  do schema <- reading (tables_get (del_table del));
  do rows <- scan_rows (del_table del);
  do n <- count_changes (delete_one schema (del_table del) (del_where del) params) rows 0;
  pure (command_tag ("DELETE " +:+ to_dec n)).

(** The assignments see the old row; [new_row[idx]] panics out of range. *)
Fixpoint assign (schema : TableSchema) (ctx : State -> RowContext State) (assignments : list (string * Expr)) (new_row : Row) : Act State Row :=
  match assignments with
  | [] => pure new_row
  | (name, e) :: assignments' =>
      do idx <- lift_eval (Some (position_of schema name));
      do v <- evaluate ctx e;
      if (idx <? length new_row)%nat then assign schema ctx assignments' (<[idx := to_wire_bytes v]> new_row)
      else lift_eval panics
  end.

Definition update_one (schema : TableSchema) (upd : UpdateStmt) (params : list Value) (row : bytes * Row) : Act State bool :=
  do hit <- row_matches (Some schema) (upd_where upd) params (snd row);
  if (hit : bool) then
    do assigned <- assign schema (change_ctx (snd row) (Some schema) params) (upd_assignments upd) (snd row);
    let new_row := normalize_vector_cells schema assigned in
    do _ <- check_constraints schema new_row (Some (fst row));
    do _ <- write_row schema (upd_table upd) (fst row) new_row;
    do _ <- publish_cdc_event schema (upd_table upd) "update" (fst row) (Some (snd row)) (Some new_row);
    pure true
  else pure false.

Definition execute_update (upd : UpdateStmt) (params : list Value) : Act State QueryResult :=
  do schema <- find_table (upd_table upd);
  do rows <- scan_rows (upd_table upd);
  do n <- count_changes (update_one schema upd params) rows 0;
  pure (command_tag ("UPDATE " +:+ to_dec n)).

(** The three statements of [execute_parsed_inner]. *)
Inductive Change := Change_Insert (s : InsertStmt) | Change_Delete (s : DeleteStmt) | Change_Update (s : UpdateStmt).

Definition execute_change (c : Change) (params : list Value) : Act State QueryResult :=
  match c with
  | Change_Insert ins => execute_insert ins params
  | Change_Delete del => execute_delete del params
  | Change_Update upd => execute_update upd params
  end.

End Dml.
