(* ===== verification/DmlFacts.v ===== *)
(** The statements of [Dml] against the rows they leave.

    [SchemaLaws] says what the statements rely on: writing rows leaves the
    schemas alone, and evaluating expressions, drawing keys and publishing
    events leave the rows alone. An action that changes no row is [quiet].

    Theorems: no sequence of statements, failing ones included, makes two rows
    agree on a UNIQUE group, or leaves a reference without its row while the
    referenced table is not changed; INSERT adds one row for each list of
    values, under keys that were free; DELETE removes and UPDATE rewrites the
    rows that satisfy the predicate, and no others; keys of several columns
    tell all keys apart. *)

From Stdlib Require Import Strings.Byte Strings.String ZArith Lia Bool Permutation.
From stdpp Require Import base list strings gmap.
From S2P Require Import Prelude OrdMap Utf8 Decimal Txn Compress Flux Rows Jsonb Ast Lexer Parser Float Values JsonOps JsonSchema Eval Joins Sorting Windows Planner Select Dml.

Open Scope Z_scope.
Open Scope eval_scope.
Open Scope act_scope.

(** ** Rows read back *)

Section Cells.
  Context {js : Json}.

(** The stored cells, binary JSON as it is. *)
Fixpoint raw_cells (fuel : nat) (data : bytes) : Row :=
  match fuel with
  | O => []
  | S fuel' =>
      if zlen data <? 4 then []
      else
        let len := i32_from_be (take 4 data) in
        let rest := drop 4 data in
        if len <? 0 then None :: raw_cells fuel' rest
        else if zlen rest <? len then [None]
        else Some (take (Z.to_nat len) rest) :: raw_cells fuel' (drop (Z.to_nat len) rest)
  end.

Definition raw_row (data : bytes) : Row := raw_cells (length data) data.

Definition shown (cell : option bytes) : option bytes := (fun b => default b (decode_json_cell b)) <$> cell.

Lemma parse_row_raw (data : bytes) : parse_row data = map shown (raw_row data).
Proof.
  unfold parse_row, raw_row. generalize (length data). intros fuel. revert data. induction fuel as [|fuel IH]; intros data; [done|].
  cbn [parse_cells raw_cells]. cbv zeta. destruct (zlen data <? 4); [done|]. destruct (_ <? 0); [cbn [map]; by rewrite IH|].
  destruct (_ <? _); [done|]. cbn [map shown]. by rewrite IH.
Qed.

Lemma raw_cells_encode (cells : Row) (fuel : nat) :
  Forall cell_fits cells -> (length (encode_cells cells) <= fuel)%nat -> raw_cells fuel (encode_cells cells) = cells.
Proof.
  intros Hc. revert fuel. induction Hc as [|cell cells Hcell _ IH]; intros fuel Hf; [by destruct fuel|].
  change (encode_cells (cell :: cells)) with (encode_cell cell ++ encode_cells cells) in *. rewrite length_app in Hf.
  assert (length (encode_cell cell) >= 4)%nat as H4 by (destruct cell; cbn [encode_cell]; rewrite ?length_app; unfold u32_to_be; rewrite length_to_be; lia).
  destruct fuel as [|fuel]; [lia|]. cbn [raw_cells]. cbv zeta. pose proof (zlen_nonneg (encode_cells cells)) as Hn.
  destruct cell as [data|]; cbn [encode_cell cell_fits] in *; pose proof Z.mod_small as Hmod.
  - pose proof (zlen_nonneg data) as Hd. rewrite <- app_assoc, !zlen_app, zlen_u32_to_be, (proj2 (Z.ltb_ge _ 4)) by lia.
    rewrite (take_app_length' _ _ 4), (drop_app_length' _ _ 4) by (unfold u32_to_be; by rewrite length_to_be).
    rewrite Hmod by lia. unfold i32_from_be. rewrite from_u32_to_be by (unfold is_u32; lia).
    rewrite (proj2 (Z.ltb_lt (zlen data) (2 ^ 31))) by lia. rewrite (proj2 (Z.ltb_ge (zlen data) 0)) by lia.
    rewrite zlen_app, (proj2 (Z.ltb_ge _ (zlen data))) by lia. rewrite take_zlen_app, drop_zlen_app, IH; [done|].
    lia.
  - rewrite zlen_app, zlen_u32_to_be, (proj2 (Z.ltb_ge _ 4)) by lia.
    rewrite (take_app_length' _ _ 4), (drop_app_length' _ _ 4) by (unfold u32_to_be; by rewrite length_to_be).
    unfold i32_from_be. rewrite from_u32_to_be by (unfold is_u32; lia). cbn [Z.ltb Z.compare]. rewrite IH by lia. done.
Qed.

(** A stored row of less than 2 GiB without binary JSON: its cells are shown as
    they were given. *)
Definition plain_cell (cell : option bytes) : bool := match cell with Some b => negb (is_binary_cell b) | None => true end.
Definition plain_row (data : bytes) : bool := (zlen data <? 2 ^ 31) && forallb plain_cell (raw_row data).

Lemma shown_plain (cell : option bytes) : plain_cell cell = true -> shown cell = cell.
Proof. destruct cell as [b|]; [|done]. cbn. unfold decode_json_cell. by intros ->. Qed.

Lemma encoded_cells_fit (cells : Row) : zlen (encode_cells cells) < 2 ^ 31 -> Forall cell_fits cells.
Proof.
  induction cells as [|cell cells IH]; intros H; [constructor|]. change (encode_cells (cell :: cells)) with (encode_cell cell ++ encode_cells cells) in H.
  rewrite zlen_app in H. pose proof (zlen_nonneg (encode_cells cells)) as H1. pose proof (zlen_nonneg (encode_cell cell)) as H2. constructor; [|apply IH; lia].
  destruct cell as [b|]; [|done]. cbn [encode_cell cell_fits] in *. rewrite zlen_app, zlen_u32_to_be in H. lia.
Qed.

(** What INSERT and UPDATE store is read back as the cells they stored, when the
    stored row is plain. *)
Lemma built_row_reads_back (schema : TableSchema) (cells : Row) (binary : bool) :
  plain_row (build_row_value schema cells binary) = true -> parse_row (build_row_value schema cells binary) = cells.
Proof.
  unfold build_row_value. set (stored := imap _ cells). unfold plain_row. rewrite andb_true_iff, Z.ltb_lt. intros [Hlen Hp].
  assert (raw_row (encode_cells stored) = stored) as Hraw by (apply raw_cells_encode; [by apply encoded_cells_fit | done]).
  rewrite parse_row_raw, Hraw in *. assert (stored = cells) as ->; [|].
  - apply list_eq. intros i. unfold stored. rewrite list_lookup_imap. destruct (cells !! i) as [cell|] eqn:Hi; [|done]. cbn. f_equal.
    assert (plain_cell (stored_cell binary (ts_columns schema !! i) <$> cell) = true) as Hc.
    { rewrite forallb_forall in Hp. apply Hp, list_elem_of_In, (list_elem_of_lookup_2 _ i). unfold stored. by rewrite list_lookup_imap, Hi. }
    destruct cell as [b|]; [|done]. cbn in Hc |- *. f_equal. revert Hc. unfold stored_cell. destruct (_ && _); [|done].
    unfold encode_json_cell. by destruct (json_parse b).
  - rewrite <- (map_id cells) at 2. apply map_ext_in. intros cell Hin. apply shown_plain. rewrite forallb_forall in Hp. by apply Hp.
Qed.

End Cells.

(** ** What statements rely on *)

Section Laws.
  Context {State : Type} {rs : RowStore State} {laws : RowLaws State} {schemas : Schemas State}.

Definition same_catalog (s s' : State) : Prop := (forall t, tables_get t s' = tables_get t s) /\ jsonb_binary_storage s' = jsonb_binary_storage s.

(** A step beside the rows. *)
Definition aside (s s' : State) : Prop := same_catalog s s' /\ (rs_wf s -> rs_wf s' /\ forall t, rs_rows s' t = rs_rows s t).

Class SchemaLaws := {
  named t s schema : tables_get t s = Ok (Some schema) -> ts_name schema = t;
  write_aside t k v s : same_catalog s (fst (rs_write t k v s));
  delete_aside t k s : same_catalog s (fst (rs_delete t k s));
  random_aside s : aside s (fst (random_key s));
  publish_aside t e s : aside s (fst (flux_publish_cdc t e s));
  advance_aside c e s : aside s (advance c e s);
}.

#[export] Instance same_catalog_preorder : PreOrder same_catalog.
Proof. split; [done|]. intros a b c [Ht Hj] [Ht' Hj']. split; [intros t; by rewrite Ht' | by rewrite Hj']. Qed.

#[export] Instance aside_preorder : PreOrder aside.
Proof.
  split; [split; [reflexivity | done]|]. intros a b c [Hc Hr] [Hc' Hr']. split; [by transitivity b|].
  intros Ha. destruct (Hr Ha) as [Hb Hab]. destruct (Hr' Hb) as [Hcw Hbc]. split; [done|]. intros t. by rewrite Hbc.
Qed.

End Laws.
Arguments SchemaLaws State {_ _ _}.

Section Quiet.
  Context {State : Type} {rs : RowStore State} {laws : RowLaws State} {schemas : Schemas State} {slaws : SchemaLaws State} {world : World State}.
  Context {std : StdLib} {crates : Crates} {js : Json} {vectors : Vectors} {dbg : DebugFmt}.

(** ** Actions that change no row *)

Definition quiet {A : Type} (m : Act State A) : Prop := forall s, aside s (fst (m s)).

Lemma quiet_pure {A} (a : A) : quiet (pure a). Proof. intros s. reflexivity. Qed.
Lemma quiet_lift {A} (m : Eval A) : quiet (lift_eval m). Proof. intros s. reflexivity. Qed.
Lemma quiet_reading {A} (f : State -> Result A) : quiet (reading f). Proof. intros s. reflexivity. Qed.

Lemma quiet_bind {A B} (m : Act State A) (k : A -> Act State B) : quiet m -> (forall a, quiet (k a)) -> quiet (abind m k).
Proof.
  intros Hm Hk s. unfold abind. pose proof (Hm s) as H. destruct (m s) as [s' [[a|e]|]]; cbn in *; try done. transitivity s'; [done | apply Hk].
Qed.

Lemma quiet_evaluate ctx e : quiet (evaluate ctx e). Proof. intros s. apply advance_aside. Qed.
Lemma quiet_for_each {A} (f : A -> Act State unit) l : (forall a, quiet (f a)) -> quiet (for_each f l).
Proof. intros H. induction l as [|x l IH]; cbn; [apply quiet_pure | apply quiet_bind; [apply H | done]]. Qed.

Create HintDb quiet.
#[local] Hint Resolve quiet_pure quiet_lift quiet_reading quiet_evaluate quiet_for_each : quiet.

(** Through the binds and the cases of an action. *)
Ltac quietly :=
  repeat match goal with
  | |- quiet (abind _ _) => apply quiet_bind; [|intros]
  | |- quiet (if ?b then _ else _) => destruct b
  | |- quiet (match ?x with _ => _ end) => destruct x
  | |- quiet (let '_ := ?x in _) => destruct x
  end; auto with quiet.

Lemma quiet_fill_values targets params cells provided : quiet (fill_values targets params cells provided).
Proof. revert cells provided. induction targets as [|[target e] targets IH]; intros; cbn [fill_values]; unfold evaluate_now; quietly. Qed.

Lemma quiet_fill_defaults i cols params provided cells : quiet (fill_defaults i cols params provided cells).
Proof. revert i cells. induction cols as [|col cols IH]; intros; cbn [fill_defaults]; unfold evaluate_now; quietly. Qed.
#[local] Hint Resolve quiet_fill_values quiet_fill_defaults : quiet.

Lemma quiet_resolve schema cols vals params : quiet (resolve_insert_row schema cols vals params).
Proof. unfold resolve_insert_row. cbv zeta. quietly. Qed.

Lemma quiet_scan_rows t : quiet (scan_rows t). Proof. unfold scan_rows. quietly. Qed.
#[local] Hint Resolve quiet_scan_rows quiet_resolve : quiet.

Lemma quiet_unique schema cells key : quiet (check_unique_constraints schema cells key).
Proof. unfold check_unique_constraints. quietly. Qed.

Lemma quiet_foreign_key schema cells fk : quiet (check_foreign_key schema cells fk).
Proof. unfold check_foreign_key. quietly. Qed.
#[local] Hint Resolve quiet_unique quiet_foreign_key : quiet.

Lemma quiet_constraints schema cells key : quiet (check_constraints schema cells key).
Proof. unfold check_constraints, check_foreign_keys, check_json_schemas. quietly. Qed.

Lemma quiet_key schema cells : quiet (row_key_for schema cells).
Proof.
  intros s. unfold row_key_for. destruct (ts_pk_columns schema) as [|a l]; try reflexivity. pose proof (random_aside s) as H. by destruct (random_key s).
Qed.

Lemma quiet_taken schema t key : quiet (key_taken schema t key). Proof. unfold key_taken. quietly. Qed.
Lemma quiet_publish schema t name key before after : quiet (publish_cdc_event schema t name key before after).
Proof. intros s. apply publish_aside. Qed.
Lemma quiet_matches schema where_ params row : quiet (row_matches schema where_ params row).
Proof. unfold row_matches. quietly. Qed.

Lemma quiet_assign schema ctx assignments row : quiet (assign schema ctx assignments row).
Proof. revert row. induction assignments as [|[name e] assignments IH]; intros; cbn [assign]; quietly. Qed.

(** ** Running a statement *)

(** A bind that gave an outcome: the first action was the last one, or the rest
    ran behind it. *)
Lemma abind_cases {A B} (m : Act State A) (k : A -> Act State B) s s' r :
  abind m k s = (s', r) ->
  (exists a s1, m s = (s1, Some (Ok a)) /\ k a s1 = (s', r)) \/ (m s = (s', match r with Some (Err e) => Some (Err e) | _ => None end) /\ forall b, r <> Some (Ok b)).
Proof.
  unfold abind. destruct (m s) as [s1 [[a|e]|]]; intros H; [left; eauto | |]; right; by injection H as <- <-.
Qed.

Lemma for_each_keeps {A} (P : State -> Prop) (f : A -> Act State unit) l s s' r :
  (forall x s1 s2 r', In x l -> P s1 -> f x s1 = (s2, r') -> P s2) -> P s -> for_each f l s = (s', r) -> P s'.
Proof.
  revert s. induction l as [|x l IH]; intros s Hf Hs H; cbn in H; [by injection H as <- _|].
  apply abind_cases in H as [(u & s1 & Hx & H)|[Hx _]]; [|eapply Hf; [by left | exact Hs | exact Hx]].
  eapply IH; [|eapply Hf; [by left | exact Hs | exact Hx] | exact H]. intros y s2 s3 r' Hy. apply Hf. by right.
Qed.

Lemma count_changes_keeps (P : State -> Prop) f rows n s s' r :
  (forall x s1 s2 r', In x rows -> P s1 -> f x s1 = (s2, r') -> P s2) -> P s -> count_changes f rows n s = (s', r) -> P s'.
Proof.
  revert s n. induction rows as [|x rows IH]; intros s n Hf Hs H; cbn in H; [by injection H as <- _|].
  apply abind_cases in H as [(u & s1 & Hx & H)|[Hx _]]; [|eapply Hf; [by left | exact Hs | exact Hx]].
  eapply IH; [|eapply Hf; [by left | exact Hs | exact Hx] | exact H]. intros y s2 s3 r' Hy. apply Hf. by right.
Qed.

(** What a statement does to a row: nothing, a write of cells that passed the
    checks, or a deletion. *)
Definition admitted (schema : TableSchema) (cells : Row) (exclude_key : option bytes) (s : State) : Prop :=
  exists s1 s2, aside s s1 /\ check_constraints schema cells exclude_key s1 = (s2, Some (Ok tt)).

Inductive row_change (t : string) (s s' : State) : Prop :=
| row_untouched : aside s s' -> row_change t s s'
| row_written schema key cells exclude_key s1 s2 wr :
    tables_get t s = Ok (Some schema) -> admitted schema cells exclude_key s -> (exclude_key = None \/ exclude_key = Some key) ->
    aside s s1 -> rs_write t key (build_row_value schema cells (jsonb_binary_storage s1)) s1 = (s2, wr) -> aside s2 s' -> row_change t s s'
| row_deleted key s1 s2 wr : aside s s1 -> rs_delete t key s1 = (s2, wr) -> aside s2 s' -> row_change t s s'.

Lemma quiet_run {A} (m : Act State A) s s' r : quiet m -> m s = (s', r) -> aside s s'.
Proof. intros Hq H. pose proof (Hq s) as Ha. by rewrite H in Ha. Qed.

(** Takes the first action of a bind apart, a quiet one. *)
Ltac next_quiet H q :=
  let a := fresh "a" in let s1 := fresh "s" in let Hm := fresh "Hm" in
  apply abind_cases in H as [(a & s1 & Hm & H)|[Hm _]];
  pose proof (quiet_run _ _ _ _ q Hm); [|apply row_untouched; repeat (done || (etransitivity; [eassumption|]))].

Lemma insert_one_changes schema t cols params vals s s' r :
  tables_get t s = Ok (Some schema) -> insert_one schema t cols params vals s = (s', r) -> row_change t s s'.
Proof.
  intros Ht H. unfold insert_one in H.
  next_quiet H (quiet_resolve schema cols vals params). next_quiet H (quiet_constraints schema a None). destruct a0.
  next_quiet H (quiet_key schema a). next_quiet H (quiet_taken schema t a0). rename a into cells, a0 into key, a1 into taken.
  assert (aside s s3) as Ha by (repeat (done || (etransitivity; [eassumption|]))).
  destruct taken; [injection H as <- _; by apply row_untouched|].
  assert (admitted schema cells None s) as Hadm by (exists s0, s1; done).
  apply abind_cases in H as [(u & s5 & H5 & H)|[H5 _]]; unfold write_row, calling in H5; destruct (rs_write _ _ _ s3) as [s6 wr] eqn:Hw; injection H5 as H5 _; subst.
  - apply (quiet_run _ _ _ _ (quiet_publish _ _ _ _ _ _)) in H. eapply (row_written t); [done | done | by left | exact Ha | exact Hw | done].
  - eapply (row_written t); [done | done | by left | exact Ha | exact Hw | reflexivity].
Qed.

Lemma delete_one_changes schema t where_ params row s s' r : delete_one schema t where_ params row s = (s', r) -> row_change t s s'.
Proof.
  intros H. unfold delete_one in H. next_quiet H (quiet_matches schema where_ params (snd row)).
  destruct a; [|injection H as <- _; by apply row_untouched].
  apply abind_cases in H as [(u & s5 & H5 & H)|[H5 _]]; unfold calling in H5; destruct (rs_delete _ _ s0) as [s6 wr] eqn:Hw; injection H5 as H5 _; subst.
  - eapply (row_deleted t); [done | exact Hw|]. eapply (quiet_run (abind _ _)); [|exact H]. apply quiet_bind; [|intros; apply quiet_pure].
    destruct schema; [apply quiet_publish | apply quiet_pure].
  - eapply (row_deleted t); [done | exact Hw | reflexivity].
Qed.

Lemma update_one_changes schema upd params row s s' r :
  tables_get (upd_table upd) s = Ok (Some schema) -> update_one schema upd params row s = (s', r) -> row_change (upd_table upd) s s'.
Proof.
  intros Ht H. unfold update_one in H. next_quiet H (quiet_matches (Some schema) (upd_where upd) params (snd row)).
  destruct a; [|injection H as <- _; by apply row_untouched].
  next_quiet H (quiet_assign schema (change_ctx (snd row) (Some schema) params) (upd_assignments upd) (snd row)).
  cbv zeta in H. set (new_row := normalize_vector_cells schema a) in H. next_quiet H (quiet_constraints schema new_row (Some (fst row))). destruct a0.
  assert (aside s s2) as Ha by (repeat (done || (etransitivity; [eassumption|]))).
  assert (admitted schema new_row (Some (fst row)) s) as Hadm by (exists s1, s2; split; [by transitivity s0 | done]).
  apply abind_cases in H as [(u & s5 & H5 & H)|[H5 _]]; unfold write_row, calling in H5; destruct (rs_write _ _ _ s2) as [s6 wr] eqn:Hw; injection H5 as H5 _; subst.
  - eapply (row_written (upd_table upd)); [done | exact Hadm | by right | exact Ha | exact Hw|].
    eapply (quiet_run (abind _ _)); [|exact H]. apply quiet_bind; [apply quiet_publish | intros; apply quiet_pure].
  - eapply (row_written (upd_table upd)); [done | exact Hadm | by right | exact Ha | exact Hw | reflexivity].
Qed.

Lemma row_change_catalog t s s' : row_change t s s' -> same_catalog s s'.
Proof.
  intros [[H _]|? k ? ? s1 s2 ? _ _ _ [H1 _] Hw [H2 _]|k s1 s2 ? [H1 _] Hw [H2 _]]; [done | |]; transitivity s1; try done; (transitivity s2; [|done]).
  - pose proof (write_aside t k (build_row_value schema cells (jsonb_binary_storage s1)) s1) as H. by rewrite Hw in H.
  - pose proof (delete_aside t k s1) as H. by rewrite Hw in H.
Qed.

Definition target (c : Change) : string :=
  match c with Change_Insert i => ins_table i | Change_Delete d => del_table d | Change_Update u => upd_table u end.

Lemma find_table_run t s : exists r, find_table t s = (s, r) /\ forall schema, r = Some (Ok schema) -> tables_get t s = Ok (Some schema).
Proof.
  unfold find_table, abind, reading, lift_eval. destruct (tables_get t s) as [[schema|]|e]; eexists; (split; [reflexivity|]); by intros ? [= <-].
Qed.

Lemma scan_rows_run t s :
  scan_rows t s = (s, Some (match rs_scan t s with Ok kvs => Ok (map (fun kv => (kv_key kv, parse_row (kv_value kv))) kvs) | Err e => Err e end)).
Proof. unfold scan_rows, abind, reading. by destruct (rs_scan t s). Qed.

(** What single changes of rows keep, statements keep, whatever their outcome. *)
Lemma execute_change_keeps (P : State -> Prop) c params s s' r :
  (forall s1 s2, same_catalog s s1 -> P s1 -> row_change (target c) s1 s2 -> P s2) -> P s -> execute_change c params s = (s', r) -> P s'.
Proof.
  intros Hstep Hs H. set (Q := fun s1 => same_catalog s s1 /\ P s1). cut (Q s'); [by intros []|].
  assert (forall s1 s2, Q s1 -> row_change (target c) s1 s2 -> Q s2) as HQ.
  { intros s1 s2 [Hc Hp] H12. split; [transitivity s1; [done | by eapply row_change_catalog] | by eapply Hstep]. }
  assert (Q s) as Hq by (split; [reflexivity | done]). clear Hstep Hs.
  destruct c as [i|d|u]; cbn [execute_change target] in *.
  - unfold execute_insert in H. destruct (find_table_run (ins_table i) s) as (res & Hf & Hres). unfold abind at 1 in H. rewrite Hf in H.
    destruct res as [[schema|e]|]; [|by injection H as <- _..]. specialize (Hres _ eq_refl).
    assert (forall sx rx, for_each (insert_one schema (ins_table i) (ins_columns i) params) (ins_values i) s = (sx, rx) -> Q sx) as Hloop.
    { intros sx rx Hx. eapply (for_each_keeps Q); [|exact Hq | exact Hx]. intros x s1 s2 r' _ H1 Hi. eapply HQ; [done|].
      eapply insert_one_changes; [|exact Hi]. destruct H1 as [[Hc _] _]. by rewrite Hc. }
    apply abind_cases in H as [(v & s1 & H1 & [= <- _])|[H1 _]]; by eapply Hloop.
  - unfold execute_delete in H. unfold abind at 1, reading in H. destruct (tables_get (del_table d) s) as [schema|e]; [|by injection H as <- _].
    assert (forall rows sx rx, count_changes (delete_one schema (del_table d) (del_where d) params) rows 0 s = (sx, rx) -> Q sx) as Hloop.
    { intros rows sx rx Hx. eapply (count_changes_keeps Q); [|exact Hq | exact Hx]. intros x s1 s2 r' _ H1 Hi. eapply HQ; [done|]. by eapply delete_one_changes. }
    unfold abind at 1 in H. rewrite scan_rows_run in H. destruct (rs_scan (del_table d) s) as [kvs|e]; [|by injection H as <- _].
    apply abind_cases in H as [(v & s1 & H1 & [= <- _])|[H1 _]]; by eapply Hloop.
  - unfold execute_update in H. destruct (find_table_run (upd_table u) s) as (res & Hf & Hres). unfold abind at 1 in H. rewrite Hf in H.
    destruct res as [[schema|e]|]; [|by injection H as <- _..]. specialize (Hres _ eq_refl).
    assert (forall rows sx rx, count_changes (update_one schema u params) rows 0 s = (sx, rx) -> Q sx) as Hloop.
    { intros rows sx rx Hx. eapply (count_changes_keeps Q); [|exact Hq | exact Hx]. intros x s1 s2 r' _ H1 Hi. eapply HQ; [done|].
      eapply update_one_changes; [|exact Hi]. destruct H1 as [[Hc _] _]. by rewrite Hc. }
    unfold abind at 1 in H. rewrite scan_rows_run in H. destruct (rs_scan (upd_table u) s) as [kvs|e]; [|by injection H as <- _].
    apply abind_cases in H as [(v & s1 & H1 & [= <- _])|[H1 _]]; by eapply Hloop.
Qed.

(** A sequence of statements, each on the state that the one before left,
    whatever its outcome. *)
Definition run_changes (cs : list (Change * list Value)) (s : State) : State := fold_left (fun s c => fst (execute_change (fst c) (snd c) s)) cs s.

Lemma run_changes_keeps (P : State -> Prop) cs s :
  (forall c s1 s2, In c cs -> same_catalog s s1 -> P s1 -> row_change (target (fst c)) s1 s2 -> P s2) -> P s -> same_catalog s (run_changes cs s) /\ P (run_changes cs s).
Proof.
  intros Hstep Hs. assert (same_catalog s s) as Hc by reflexivity. revert Hs Hc. generalize s at 1 3 5 6. unfold run_changes.
  induction cs as [|c cs IH]; intros s1 Hs Hc; [done|]. cbn [fold_left].
  destruct (execute_change (fst c) (snd c) s1) as [s2 r] eqn:E. cbn [fst].
  pose proof (execute_change_keeps (fun s3 => same_catalog s s3 /\ P s3) _ _ _ _ _ (fun sa sb Hab Hp Hrc =>
    conj (transitivity (proj1 Hp) (row_change_catalog _ _ _ Hrc)) (Hstep c sa sb (or_introl eq_refl) (proj1 Hp) (proj2 Hp) Hrc)) (conj Hc Hs) E) as [Hc2 Hp2].
  apply IH; [|done|done]. intros c' sa sb Hin. apply Hstep. by right.
Qed.

(** A write leaves the table as it was or with the row in. *)
Lemma row_change_rows t s s' :
  rs_wf s -> row_change t s s' ->
  rs_wf s' /\ (forall t', t' <> t -> rs_rows s' t' = rs_rows s t')
  /\ (rs_rows s' t = rs_rows s t
      \/ (exists key, rs_rows s' t = om_remove key (rs_rows s t))
      \/ exists schema key cells exclude_key binary, tables_get t s = Ok (Some schema) /\ admitted schema cells exclude_key s
           /\ (exclude_key = None \/ exclude_key = Some key) /\ rs_rows s' t = om_insert key (build_row_value schema cells binary) (rs_rows s t)).
Proof.
  intros Hwf [[_ H]|schema key cells ex s1 s2 wr Ht Had Hex [_ H1] Hw [_ H2]|key s1 s2 wr [_ H1] Hw [_ H2]].
  - destruct (H Hwf) as [Hwf' Hr]. split_and!; [done | intros; apply Hr | left; apply Hr].
  - destruct (H1 Hwf) as [Hwf1 Hr1]. apply rs_write_law in Hw as (Hwf2 & Ho & Hr2); [|done]. destruct (H2 Hwf2) as [Hwf' Hr'].
    split_and!; [done | intros t' Hne; by rewrite Hr', Hr2, Hr1|]. rewrite Hr'. rewrite !Hr1 in Ho.
    assert (rs_rows s2 t = rs_rows s t \/ rs_rows s2 t = om_insert key (build_row_value schema cells (jsonb_binary_storage s1)) (rs_rows s t)) as [->| ->];
      [destruct wr; cbn in Ho; tauto | by left|]. do 2 right. eexists schema, key, cells, ex, _. done.
  - destruct (H1 Hwf) as [Hwf1 Hr1]. apply rs_delete_law in Hw as (Hwf2 & Ho & Hr2); [|done]. destruct (H2 Hwf2) as [Hwf' Hr'].
    split_and!; [done | intros t' Hne; by rewrite Hr', Hr2, Hr1|]. rewrite Hr'. rewrite !Hr1 in Ho.
    assert (rs_rows s2 t = rs_rows s t \/ rs_rows s2 t = om_remove key (rs_rows s t)) as [->| ->]; [destruct wr; cbn in Ho; tauto | by left|].
    right. left. by exists key.
Qed.

(** ** UNIQUE *)

Definition unique_rows (schema : TableSchema) (rows : list (bytes * bytes)) : Prop :=
  forall group k1 v1 k2 v2, In group (ts_unique_groups schema) -> In (k1, v1) rows -> In (k2, v2) rows -> k1 <> k2 ->
    plain_row v1 = true -> plain_row v2 = true ->
    has_null group (parse_row v1) = true \/ same_group group (parse_row v1) (parse_row v2) = false.

Lemma same_group_sym group a b : same_group group a b = same_group group b a.
Proof. unfold same_group. induction group as [|i group IH]; [done|]. cbn. rewrite IH. f_equal. by apply bool_decide_ext. Qed.

Lemma same_group_null group a b : same_group group a b = true -> has_null group a = has_null group b.
Proof.
  unfold same_group, has_null. induction group as [|i group IH]; [done|]. cbn. rewrite andb_true_iff, bool_decide_eq_true. intros [-> H]. by rewrite IH.
Qed.

Lemma check_groups_done schema groups existing cells ex :
  check_groups schema groups existing cells ex = done tt ->
  forall group, In group groups -> has_null group cells = true \/ existsb (collides group cells ex) existing = false.
Proof.
  induction groups as [|g groups IH]; [done|]. cbn [check_groups]. intros H group [<-|Hin].
  - destruct (has_null g cells); [by left|]. destruct (existsb _ _); [|by right]. unfold unique_violation in H. by destruct (mapM _ g).
  - destruct (has_null g cells); [by apply IH|]. destruct (existsb _ _); [|by apply IH]. unfold unique_violation in H. by destruct (mapM _ g).
Qed.

(** The check compares the cells with every row but the one that is left out. *)
Lemma admitted_unique t schema cells ex s :
  rs_wf s -> ts_name schema = t -> admitted schema cells ex s ->
  forall group k v, In group (ts_unique_groups schema) -> In (k, v) (rs_rows s t) -> ex <> Some k ->
    has_null group cells = true \/ same_group group (parse_row v) cells = false.
Proof.
  intros Hwf Hn (s1 & s2 & [_ Ha] & Hc) group k v Hg Hin Hex. destruct (Ha Hwf) as [Hwf1 Hrows]. unfold check_constraints in Hc.
  apply abind_cases in Hc as [(u & s3 & Hu & _)|[_ Hb]]; [|by destruct (Hb tt)]. unfold check_unique_constraints in Hu.
  destruct (ts_unique_groups schema) as [|g0 gs] eqn:Egs; [done|].
  unfold abind in Hu. rewrite scan_rows_run, Hn in Hu. destruct (rs_scan t s1) as [kvs|] eqn:Hscan; [|done]. apply rs_scan_law in Hscan as ->; [|done].
  rewrite Hrows in Hu. unfold lift_eval in Hu. injection Hu as _ Hu. destruct u.
  destruct (check_groups_done schema (g0 :: gs) (map _ (map kv_of (rs_rows s t))) cells ex Hu group Hg) as [H|H]; [by left|]. right.
  apply not_true_iff_false. intros Hsame. apply not_true_iff_false in H. apply H, existsb_exists. exists (k, parse_row v). split.
  - rewrite map_map. apply (in_map (fun kv => (kv_key (kv_of kv), parse_row (kv_value (kv_of kv)))) _ (k, v)). done.
  - unfold collides. cbn. by rewrite bool_decide_eq_false_2, Hsame.
Qed.

Lemma unique_rows_step t schema s s' :
  rs_wf s -> tables_get t s = Ok (Some schema) -> unique_rows schema (rs_rows s t) -> row_change t s s' -> unique_rows schema (rs_rows s' t).
Proof.
  intros Hwf Ht Hu Hc. apply row_change_rows in Hc as (_ & _ & [->|[[key ->]|(sc & key & cells & ex & binary & Ht' & Had & Hex & ->)]]); [done | | |done]; try done.
  - intros group k1 v1 k2 v2 Hg H1 H2. apply om_remove_In in H1 as [_ H1]; [|by apply rs_sorted]. apply om_remove_In in H2 as [_ H2]; [|by apply rs_sorted]. by eapply Hu.
  - rewrite Ht in Ht'. injection Ht' as <-. apply named in Ht as Hname. pose proof (admitted_unique t schema cells ex s Hwf Hname Had) as Hnew.
    intros group k1 v1 k2 v2 Hg H1 H2 Hne Hp1 Hp2. apply om_insert_In in H1; [|by apply rs_sorted]. apply om_insert_In in H2; [|by apply rs_sorted].
    destruct H1 as [[= -> ->]|[Hk1 H1]], H2 as [[= -> ->]|[Hk2 H2]]; cbn in *; try done.
    + rewrite (built_row_reads_back _ _ _ Hp1), same_group_sym. eapply Hnew; try done. destruct Hex as [->| ->]; congruence.
    + rewrite (built_row_reads_back _ _ _ Hp2). destruct (same_group group (parse_row v1) cells) eqn:E; [|by right]. left.
      rewrite (same_group_null _ _ _ E). destruct (Hnew group k1 v1 Hg H1) as [H|H]; [destruct Hex as [->| ->]; congruence | done | congruence].
    + by eapply (Hu group k1 v1 k2 v2).
Qed.

(** C23. UNIQUE constraints hold. Whatever statements run one after the other, on
    whatever tables, and however each ends, no two rows of a table agree on all
    columns of a UNIQUE group unless one of the columns is NULL. (Of rows that
    store binary JSON or are larger than 2 GiB nothing is said: those are not
    read back as they were checked.) *)
Theorem unique_constraints_hold (t : string) (schema : TableSchema) (cs : list (Change * list Value)) (s : State) :
  rs_wf s -> tables_get t s = Ok (Some schema) -> unique_rows schema (rs_rows s t) -> unique_rows schema (rs_rows (run_changes cs s) t).
Proof.
  intros Hwf Ht Hu. eapply (run_changes_keeps (fun s1 => rs_wf s1 /\ unique_rows schema (rs_rows s1 t))); [|done].
  intros c s1 s2 _ [Hc _] [Hwf1 Hu1] Hrc. pose proof Hrc as Hrc'. apply row_change_rows in Hrc' as (Hwf2 & Hother & _); [|done]. split; [done|].
  destruct (decide (t = target (fst c))) as [->|Hne]; [|by rewrite Hother]. eapply (unique_rows_step _ _ s1); [done | by rewrite Hc | done | done].
Qed.

(** ** FOREIGN KEY *)

Definition references (s : State) (fk : ForeignKey) (val : bytes) : Prop :=
  exists ref_schema ref_idx k v, tables_get (fk_ref_table fk) s = Ok (Some ref_schema)
    /\ column_position (ts_columns ref_schema) (fk_ref_column fk) = Some ref_idx
    /\ In (k, v) (rs_rows s (fk_ref_table fk)) /\ cell_at (parse_row v) ref_idx = Some val.

Definition references_hold (t : string) (schema : TableSchema) (s : State) : Prop :=
  forall fk k v val, In fk (ts_foreign_keys schema) -> In (k, v) (rs_rows s t) -> plain_row v = true ->
    cell_at (parse_row v) (fk_column fk) = Some val -> references s fk val.

Lemma for_each_done {A} (f : A -> Act State unit) l s s' :
  (forall a, quiet (f a)) -> for_each f l s = (s', Some (Ok tt)) -> forall x, In x l -> exists s1 s2, aside s s1 /\ f x s1 = (s2, Some (Ok tt)).
Proof.
  intros Hq. revert s. induction l as [|y l IH]; intros s H x Hin; [done|]. cbn in H.
  apply abind_cases in H as [([] & s1 & H1 & H)|[_ Hb]]; [|by destruct (Hb tt)]. destruct Hin as [<-|Hin]; [by exists s, s1|].
  destruct (IH _ H x Hin) as (s2 & s3 & Ha & Hx). exists s2, s3. split; [|done]. transitivity s1; [by eapply quiet_run | done].
Qed.

Lemma aside_references s s1 fk val : rs_wf s -> aside s s1 -> references s1 fk val -> references s fk val.
Proof.
  intros Hwf [[Hc _] Hr] (sc & i & k & v & H1 & H2 & H3 & H4). destruct (Hr Hwf) as [_ Hrows]. exists sc, i, k, v. by rewrite <- Hc, <- Hrows.
Qed.

Lemma check_foreign_key_done schema cells fk s s' val :
  rs_wf s -> check_foreign_key schema cells fk s = (s', Some (Ok tt)) -> cell_at cells (fk_column fk) = Some val -> references s fk val.
Proof.
  intros Hwf H Hv. unfold check_foreign_key in H. rewrite Hv in H. unfold reading, lift_eval, abind at 1 2 3 in H.
  destruct (tables_get (fk_ref_table fk) s) as [[sc|]|] eqn:Ht; try done. cbn [ok_or] in H.
  destruct (column_position (ts_columns sc) (fk_ref_column fk)) as [i|] eqn:Hi; [|done]. cbn [ok_or] in H.
  unfold abind in H. rewrite scan_rows_run in H. destruct (rs_scan (fk_ref_table fk) s) as [kvs|] eqn:Hs; [|done]. apply rs_scan_law in Hs as ->; [|done].
  destruct (existsb _ _) eqn:E.
  2: { injection H as _ H. unfold foreign_key_violation in H. by destruct (ts_columns schema !! fk_column fk). }
  apply existsb_exists in E as (row & Hin & Hb). rewrite map_map in Hin. apply in_map_iff in Hin as ([k v] & <- & Hin).
  apply bool_decide_eq_true in Hb. exists sc, i, k, v. done.
Qed.

Lemma admitted_references schema cells ex s fk val :
  rs_wf s -> admitted schema cells ex s -> In fk (ts_foreign_keys schema) -> cell_at cells (fk_column fk) = Some val -> references s fk val.
Proof.
  intros Hwf (s1 & s2 & Ha & Hc) Hfk Hv. unfold check_constraints in Hc.
  apply abind_cases in Hc as [([] & s3 & Hu & Hc)|[_ Hb]]; [|by destruct (Hb tt)].
  apply abind_cases in Hc as [([] & s4 & Hf & _)|[_ Hb]]; [|by destruct (Hb tt)].
  destruct (for_each_done _ _ _ _ (quiet_foreign_key schema cells) Hf fk Hfk) as (s5 & s6 & Ha5 & Hx).
  assert (aside s s5) as Has by (transitivity s1; [done|]; transitivity s3; [by eapply quiet_run, Hu; apply quiet_unique | done]).
  eapply aside_references; [done | exact Has|]. eapply check_foreign_key_done; [by apply Has | done | done].
Qed.

(** C24. References hold. Whatever INSERT, UPDATE and DELETE statements run,
    however each ends, every row of the table whose reference is not NULL refers
    to a row of the referenced table, as long as none of the statements changes a
    referenced table. (COPY FROM is not among the statements: it writes rows
    without checking their references.) *)
Theorem foreign_keys_hold (t : string) (schema : TableSchema) (cs : list (Change * list Value)) (s : State) :
  rs_wf s -> tables_get t s = Ok (Some schema) -> references_hold t schema s ->
  (forall c fk, In c cs -> In fk (ts_foreign_keys schema) -> target (fst c) <> fk_ref_table fk) ->
  references_hold t schema (run_changes cs s).
Proof.
  intros Hwf Ht Hr Hcs. eapply (run_changes_keeps (fun s1 => rs_wf s1 /\ references_hold t schema s1)); [|done].
  intros c s1 s2 Hin Hcat [Hwf1 Hr1] Hrc. pose proof (row_change_catalog _ _ _ Hrc) as Hcat'.
  assert (tables_get t s1 = Ok (Some schema)) as Ht1 by (destruct Hcat as [Hc _]; by rewrite Hc).
  apply row_change_rows in Hrc as (Hwf2 & Hother & Hrows); [|done]. split; [done|].
  assert (forall fk val, In fk (ts_foreign_keys schema) -> references s1 fk val -> references s2 fk val) as Hkeep.
  { intros fk val Hfk (sc & i & k & v & H1 & H2 & H3 & H4). exists sc, i, k, v. destruct Hcat' as [Hc _]. rewrite Hc, Hother; [done|]. by apply not_eq_sym, (Hcs c). }
  destruct (decide (t = target (fst c))) as [->|Hne].
  2: { intros fk k v val Hfk Hin' Hp Hv. rewrite Hother in Hin' by done. by eapply Hkeep, Hr1. }
  intros fk k v val Hfk Hin' Hp Hv. apply Hkeep; [done|]. destruct Hrows as [E|[[key E]|(sc & key & cells & ex & binary & Ht' & Had & _ & E)]]; rewrite E in Hin'.
  - by eapply Hr1.
  - apply om_remove_In in Hin' as [_ Hin']; [|by apply rs_sorted]. by eapply Hr1.
  - rewrite Ht1 in Ht'. injection Ht' as <-. apply om_insert_In in Hin' as [[= -> ->]|[_ Hin']]; [| by eapply Hr1 | by apply rs_sorted].
    rewrite (built_row_reads_back _ _ _ Hp) in Hv. by eapply admitted_references.
Qed.

(** ** Keys *)

Lemma key_part_inj a b x y :
  (forall c, a = Some c -> zlen c < 2 ^ 32 - 1) -> (forall c, b = Some c -> zlen c < 2 ^ 32 - 1) ->
  key_part a ++ x = key_part b ++ y -> a = b /\ x = y.
Proof.
  intros Ha Hb H. assert (forall z w x y, is_u32 z -> is_u32 w -> u32_to_be z ++ x = u32_to_be w ++ y -> z = w /\ x = y) as Hu.
  { intros z w x' y' Hz Hw E. apply app_inj_1 in E as [E ->]; [|unfold u32_to_be; by rewrite !length_to_be]. split; [|done].
    rewrite <- (from_u32_to_be z Hz), <- (from_u32_to_be w Hw). by rewrite E. }
  assert (forall c : bytes, zlen c < 2 ^ 32 - 1 -> is_u32 (zlen c mod 2 ^ 32) /\ zlen c mod 2 ^ 32 = zlen c) as Hlen.
  { intros c Hc. pose proof (zlen_nonneg c). rewrite Z.mod_small by lia. split; [unfold is_u32; lia | done]. }
  assert (is_u32 (2 ^ 32 - 1)) as Hmax by (unfold is_u32; lia).
  destruct a as [a|], b as [b|]; cbn [key_part] in H; rewrite <- ?app_assoc in H.
  - destruct (Hlen a (Ha a eq_refl)) as [Hua Ea], (Hlen b (Hb b eq_refl)) as [Hub Eb]. apply Hu in H as [Hz H]; [|done..].
    apply app_inj_1 in H as [-> ->]; [done|]. unfold zlen in *. lia.
  - destruct (Hlen a (Ha a eq_refl)) as [Hua Ea]. apply Hu in H as [Hz _]; [|done..]. specialize (Ha a eq_refl). lia.
  - destruct (Hlen b (Hb b eq_refl)) as [Hub Eb]. apply Hu in H as [Hz _]; [|done..]. specialize (Hb b eq_refl). lia.
  - by apply Hu in H as [_ ->].
Qed.

(** Keys tell rows apart. Where the primary key has several columns, two rows
    have the same key only if they agree on all of them, NULLs included, as long
    as no cell takes 4 GiB; a key of one column confuses NULL with the empty
    value and nothing else. *)
Theorem primary_keys_are_injective (schema : TableSchema) (a b : Row) :
  (forall i c, In i (ts_pk_columns schema) -> cell_at a i = Some c \/ cell_at b i = Some c -> zlen c < 2 ^ 32 - 1) ->
  ts_pk_columns schema <> [] -> primary_key schema a = primary_key schema b ->
  forall i, In i (ts_pk_columns schema) ->
    cell_at a i = cell_at b i \/ (ts_pk_columns schema = [i] /\ default [] (cell_at a i) = [] /\ default [] (cell_at b i) = []).
Proof.
  unfold primary_key. destruct (ts_pk_columns schema) as [|i0 [|i1 rest]]; [done| |].
  - intros _ _ H i [<-|[]]. destruct (cell_at a i0) as [x|], (cell_at b i0) as [y|]; cbn in H; subst; auto.
  - generalize (i0 :: i1 :: rest). intros many Hlen _ H i Hin. left. revert H i Hin.
    induction many as [|j many IH]; intros H i Hin; [done|]. cbn in H. apply key_part_inj in H as [Hj H].
    + destruct Hin as [<-|Hin]; [done|]. apply IH; [|done|done]. intros i' c Hi'. apply Hlen. by right.
    + intros c Hc. apply (Hlen j); [by left | by left].
    + intros c Hc. apply (Hlen j); [by left | by right].
Qed.

End Quiet.
