(* ===== verification/DmlRows.v ===== *)
(** What a statement of [Dml] that succeeds leaves: INSERT adds its rows, DELETE
    removes and UPDATE rewrites the rows that satisfy the predicate, and every
    other row of every table stays as it was. *)

From Stdlib Require Import Strings.Byte Strings.String ZArith Lia Bool Permutation.
From stdpp Require Import base list strings gmap.
From S2P Require Import Prelude OrdMap Utf8 Decimal Txn Compress Flux Rows Jsonb Ast Lexer Parser Float Values JsonOps JsonSchema Eval Joins Sorting Windows Planner Select Dml DmlFacts.

Open Scope Z_scope.
Open Scope eval_scope.
Open Scope act_scope.

(** ** Folds over a table's own rows *)

Section Folds.
  Context {K V : Type} {ord : Ord K}.

(** What is done to one row, by its key. *)
Definition apply_to (eff : K * V -> option (option V)) (m : list (K * V)) (e : K * V) : list (K * V) :=
  match eff e with
  | None => m
  | Some None => om_remove (fst e) m
  | Some (Some v) => om_insert (fst e) v m
  end.

Definition effect_on (eff : K * V -> option (option V)) (e : K * V) : option (K * V) :=
  match eff e with
  | None => Some e
  | Some None => None
  | Some (Some v) => Some (fst e, v)
  end.

Definition below (m : list (K * V)) (k : K) : Prop := Forall (fun e => cmp (fst e) k = Lt) m.

Lemma om_remove_at (k : K) (w : V) (pre post : list (K * V)) : below pre k -> om_remove k (pre ++ (k, w) :: post) = pre ++ post.
Proof.
  induction 1 as [|[k' v] pre Hlt _ IH]; cbn; [by rewrite (proj2 (keqb_true k k))|].
  rewrite (proj2 (keqb_false k k')), IH; [done|]. intros ->. by apply lt_cmp_irrefl in Hlt.
Qed.

Lemma om_insert_at (k : K) (v w : V) (pre post : list (K * V)) : below pre k -> om_insert k v (pre ++ (k, w) :: post) = pre ++ (k, v) :: post.
Proof.
  induction 1 as [|[k' v'] pre Hlt _ IH]; cbn; [by rewrite (proj2 (cmp_eq k k))|]. rewrite cmp_antisym. cbn in Hlt. rewrite Hlt. cbn. by rewrite IH.
Qed.

(** Row by row, the effects on a table are those on its rows. *)
Lemma fold_apply_to eff (pre l : list (K * V)) :
  om_sorted l -> (forall e, In e l -> below pre (fst e)) -> fold_left (apply_to eff) l (pre ++ l) = pre ++ omap (effect_on eff) l.
Proof.
  revert pre. induction l as [|[k w] l IH]; intros pre Hl Hpre; [done|]. cbn [fold_left].
  pose proof (Hpre (k, w) (or_introl eq_refl)) as Hk. cbn [fst] in Hk. pose proof Hl as Hl'. apply om_sorted_cons in Hl' as [Hall Hl'].
  assert (forall v e, In e l -> below (pre ++ [(k, v)]) (fst e)) as Hsnoc.
  { intros v e He. apply Forall_app. split; [apply Hpre; by right|]. constructor; [|done]. rewrite Forall_forall in Hall. by apply Hall, list_elem_of_In. }
  unfold apply_to at 2. cbn [omap list_omap]. unfold effect_on at 1. destruct (eff (k, w)) as [[v|]|]; cbn [fst].
  - rewrite om_insert_at by done. specialize (IH (pre ++ [(k, v)]) Hl' (Hsnoc v)). by rewrite <- !app_assoc in IH.
  - rewrite om_remove_at by done. apply IH; [done|]. intros e He. apply Hpre. by right.
  - specialize (IH (pre ++ [(k, w)]) Hl' (Hsnoc w)). by rewrite <- !app_assoc in IH.
Qed.

End Folds.

Section Rows.
  Context {State : Type} {rs : RowStore State} {laws : RowLaws State} {schemas : Schemas State} {slaws : SchemaLaws State} {world : World State}.
  Context {std : StdLib} {crates : Crates} {js : Json} {vectors : Vectors} {dbg : DebugFmt}.

(** The row as the statement sees it. *)
Definition seen (kv : bytes * bytes) : bytes * Row := (fst kv, parse_row (snd kv)).

(** A row's turn: its effect, and whether it counts. *)
Definition turn (t : string) (eff : bytes * bytes -> option (option bytes)) (kv : bytes * bytes) (s s' : State) (hit : bool) : Prop :=
  rs_wf s' /\ same_catalog s s' /\ (forall t', t' <> t -> rs_rows s' t' = rs_rows s t') /\ rs_rows s' t = apply_to eff (rs_rows s t) kv
  /\ hit = bool_decide (is_Some (eff kv)).

(** The database while a statement on the table [t] is at work: as it was before
    but for the rows of [t]. *)
Definition apart (t : string) (s s1 : State) : Prop :=
  rs_wf s1 /\ same_catalog s s1 /\ forall t', t' <> t -> rs_rows s1 t' = rs_rows s t'.

Lemma apart_aside (t : string) (s s1 s2 : State) : apart t s s1 -> aside s1 s2 -> apart t s s2.
Proof.
  intros (Hwf & Hc & Ho) [Hc2 Ha]. destruct (Ha Hwf) as [Hwf2 Hr]. split; [done|]. split; [by transitivity s1|]. intros t' Hne. by rewrite Hr, Ho.
Qed.

Lemma count_changes_turns t eff f kvs n s s' m :
  (forall kv s1 s2 hit, In kv kvs -> apart t s s1 -> f (seen kv) s1 = (s2, Some (Ok hit)) -> turn t eff kv s1 s2 hit) ->
  rs_wf s -> count_changes f (map seen kvs) n s = (s', Some (Ok m)) ->
  (forall t', t' <> t -> rs_rows s' t' = rs_rows s t') /\ rs_rows s' t = fold_left (apply_to eff) kvs (rs_rows s t)
  /\ m = n + zlen (List.filter (fun kv => bool_decide (is_Some (eff kv))) kvs).
Proof.
  intros Hf Hwf. assert (apart t s s) as Hc by (split; [done|]; split; [reflexivity | done]). revert Hc Hf. generalize s at 2 4 5 6. revert n.
  induction kvs as [|kv kvs IH]; intros n s1 Hc Hf H; cbn [map count_changes fold_left] in *.
  { injection H as <- <-. split_and!; [done | done | cbn; unfold zlen; cbn; lia]. }
  apply abind_cases in H as [(hit & s2 & H1 & H)|[_ Hb]]; [|by destruct (Hb m)].
  destruct (Hf kv s1 s2 hit (or_introl eq_refl) Hc H1) as (Hwf2 & Hc2 & Ho & Hr & ->).
  assert (apart t s s2) as Hc' by (destruct Hc as (_ & Hc & Ho1); split; [done|]; split; [by transitivity s1 | intros t' Hne; by rewrite Ho, Ho1]).
  destruct (IH _ s2 Hc' (fun kv' sa sb b Hin => Hf kv' sa sb b (or_intror Hin)) H) as (Ho' & Hr' & Hm).
  split_and!; [intros t' Hne; by rewrite Ho', Ho | by rewrite Hr', Hr|]. rewrite Hm. cbn [List.filter]. destruct (bool_decide _); [rewrite zlen_cons|]; lia.
Qed.

(** A quiet step in front of a turn, and one behind it. *)
Lemma aside_turn t eff kv s s1 s2 s' hit :
  rs_wf s -> aside s s1 -> (rs_wf s1 -> turn t eff kv s1 s2 hit) -> aside s2 s' -> turn t eff kv s s' hit.
Proof.
  intros Hwf [Hc1 Ha1] Hturn [Hc2 Ha2]. destruct (Ha1 Hwf) as [Hwf1 Hr1]. destruct (Hturn Hwf1) as (Hwf2 & Hc & Ho & Hr & Hh). destruct (Ha2 Hwf2) as [Hwf' Hr'].
  split_and!; [done | transitivity s1; [done|]; by transitivity s2 | intros t' Hne; by rewrite Hr', Ho, Hr1 | by rewrite Hr', Hr, Hr1 | done].
Qed.

Definition delete_effect (p : Row -> bool) (kv : bytes * bytes) : option (option bytes) := if p (parse_row (snd kv)) then Some None else None.

Lemma delete_one_turn schema t where_ params p kv s s' hit :
  rs_wf s -> (forall s1, snd (row_matches schema where_ params (parse_row (snd kv)) s1) = done (p (parse_row (snd kv)))) ->
  delete_one schema t where_ params (seen kv) s = (s', Some (Ok hit)) -> turn t (delete_effect p) kv s s' hit.
Proof.
  intros Hwf Hp H. unfold delete_one in H. cbn [seen fst snd] in H. apply abind_cases in H as [(b & s1 & H1 & H)|[_ Hb]]; [|by destruct (Hb hit)].
  pose proof (Hp s) as Hps. rewrite H1 in Hps. injection Hps as ->. apply (quiet_run _ _ _ _ (quiet_matches _ _ _ _)) in H1.
  assert (delete_effect p kv = if p (parse_row (snd kv)) then Some None else None) as He by done. destruct (p (parse_row (snd kv))).
  - apply abind_cases in H as [(u & s2 & H2 & H)|[_ Hb]]; [|by destruct (Hb hit)]. unfold calling in H2. destruct (rs_delete t (fst kv) s1) as [s2' r] eqn:Hd.
    injection H2 as -> ->. eapply (aside_turn _ _ _ s s1 s2); [done | exact H1 | | ].
    + intros Hwf1. pose proof (delete_aside t (fst kv) s1) as Hc. rewrite Hd in Hc. apply rs_delete_law in Hd as (Hwf2 & Hr & Ho); [|done]. cbn in Hr.
      split_and!; [done | done | done | unfold apply_to; by rewrite He|].
      apply abind_cases in H as [(u' & s3 & _ & [= _ <-])|[_ Hb]]; [|by destruct (Hb hit)]. by rewrite He.
    + eapply (quiet_run (abind _ _)); [|exact H]. apply quiet_bind; [|intros; apply quiet_pure]. destruct schema; [apply quiet_publish | apply quiet_pure].
  - injection H as <- <-. eapply (aside_turn _ _ _ s s s); [done | reflexivity | | exact H1]. intros Hwf0.
    split_and!; [done | reflexivity | done | unfold apply_to; by rewrite He | by rewrite He].
Qed.

Lemma omap_delete p kvs : omap (effect_on (delete_effect p)) kvs = List.filter (fun kv => negb (p (parse_row (snd kv)))) kvs.
Proof. induction kvs as [|kv kvs IH]; [done|]. cbn [omap list_omap List.filter]. rewrite <- IH. unfold effect_on at 1, delete_effect at 1. by destruct (p _). Qed.

Lemma filter_ext_bool {A} (f g : A -> bool) l : (forall x, f x = g x) -> List.filter f l = List.filter g l.
Proof. intros H. induction l as [|x l IH]; [done|]. cbn. by rewrite H, IH. Qed.

(** DELETE removes the rows that satisfy its predicate. Where the predicate
    evaluates on every row, the table is left without exactly these rows, every
    other table as it was, and the tag counts them. *)
Theorem delete_removes_matching_rows (del : DeleteStmt) (params : list Value) (schema : option TableSchema) (p : Row -> bool) (s s' : State) (r : QueryResult) :
  rs_wf s -> tables_get (del_table del) s = Ok schema ->
  (forall kv s1, In kv (rs_rows s (del_table del)) ->
     snd (row_matches schema (del_where del) params (parse_row (snd kv)) s1) = done (p (parse_row (snd kv)))) ->
  execute_delete del params s = (s', done r) ->
  rs_rows s' (del_table del) = List.filter (fun kv => negb (p (parse_row (snd kv)))) (rs_rows s (del_table del))
  /\ (forall t, t <> del_table del -> rs_rows s' t = rs_rows s t)
  /\ qr_tag r = "DELETE " +:+ to_dec (zlen (List.filter (fun kv => p (parse_row (snd kv))) (rs_rows s (del_table del)))).
Proof.
  intros Hwf Ht Hp H. unfold execute_delete, abind at 1, reading in H. rewrite Ht in H. unfold abind at 1 in H. rewrite scan_rows_run in H.
  destruct (rs_scan (del_table del) s) as [kvs|e] eqn:Hs; [|done]. apply rs_scan_law in Hs as ->; [|done]. rewrite map_map in H.
  apply abind_cases in H as [(n & s1 & H & Hr)|[_ Hb]]; [|by destruct (Hb r)]. injection Hr as -> <-.
  apply (count_changes_turns (del_table del) (delete_effect p)) in H as (Ho & Hrows & Hn); [|intros kv s2 s3 hit Hin Hap H2; eapply delete_one_turn; [apply Hap | intros; by apply Hp | exact H2] | done].
  split_and!; [|done|].
  - rewrite Hrows. pose proof (fold_apply_to (delete_effect p) [] _ (rs_sorted s (del_table del) Hwf)) as Hf. cbn [app] in Hf. rewrite Hf, omap_delete; [done|]. intros; constructor.
  - cbn [command_tag qr_tag]. rewrite Hn, Z.add_0_l, (filter_ext_bool _ (fun kv => p (parse_row (snd kv)))); [done|]. intros kv. unfold delete_effect. by destruct (p _).
Qed.

(** ** UPDATE *)

(** The row with the values of the assignments, all of the old row. *)
Definition assigned (schema : TableSchema) (val : Row -> Expr -> Value) (row : Row) (assignments : list (string * Expr)) : Row :=
  fold_left (fun new a => match column_position (ts_columns schema) (fst a) with
                          | Some i => <[i := to_wire_bytes (val row (snd a))]> new
                          | None => new
                          end) assignments row.

Lemma assign_run schema ctx assignments (vals : Expr -> Value) new s s' out :
  (forall a s1, In a assignments -> aside s s1 -> eval (ctx s1) (snd a) = done (vals (snd a))) ->
  assign schema ctx assignments new s = (s', Some (Ok out)) ->
  out = fold_left (fun new a => match column_position (ts_columns schema) (fst a) with
                                | Some i => <[i := to_wire_bytes (vals (snd a))]> new
                                | None => new
                                end) assignments new.
Proof.
  revert new s. induction assignments as [|[name e] assignments IH]; intros new s He H; cbn [assign fold_left] in *; [by injection H as _ <-|].
  unfold abind at 1, lift_eval, position_of in H. cbn [fst snd]. destruct (column_position (ts_columns schema) name) as [i|]; [|done]. cbn [ok_or] in H.
  unfold abind at 1, evaluate in H. pose proof (He (name, e) s (or_introl eq_refl)) as Hv. cbn [snd] in Hv. rewrite Hv in H by reflexivity. unfold done in H. destruct (_ <? _)%nat; [|done].
  eapply IH; [|exact H]. intros a s1 Ha Has. apply He; [by right|]. etransitivity; [|exact Has]. apply (quiet_evaluate ctx e s).
Qed.

Definition updated (schema : TableSchema) (upd : UpdateStmt) (val : Row -> Expr -> Value) (binary : bool) (row : Row) : bytes :=
  build_row_value schema (normalize_vector_cells schema (assigned schema val row (upd_assignments upd))) binary.

Definition update_effect (schema : TableSchema) (upd : UpdateStmt) (val : Row -> Expr -> Value) (binary : bool) (p : Row -> bool) (kv : bytes * bytes) : option (option bytes) :=
  if p (parse_row (snd kv)) then Some (Some (updated schema upd val binary (parse_row (snd kv)))) else None.

Lemma update_one_turn schema upd params val p kv binary s s' hit :
  rs_wf s -> jsonb_binary_storage s = binary ->
  (forall s1, aside s s1 -> snd (row_matches (Some schema) (upd_where upd) params (parse_row (snd kv)) s1) = done (p (parse_row (snd kv)))) ->
  (forall a s1, In a (upd_assignments upd) -> aside s s1 ->
     eval (change_ctx (parse_row (snd kv)) (Some schema) params s1) (snd a) = done (val (parse_row (snd kv)) (snd a))) ->
  update_one schema upd params (seen kv) s = (s', Some (Ok hit)) -> turn (upd_table upd) (update_effect schema upd val binary p) kv s s' hit.
Proof.
  intros Hwf Hbin Hp Hval H. unfold update_one in H. cbn [seen fst snd] in H. apply abind_cases in H as [(b & s1 & H1 & H)|[_ Hb]]; [|by destruct (Hb hit)].
  pose proof (Hp s (reflexivity s)) as Hps. rewrite H1 in Hps. injection Hps as ->. apply (quiet_run _ _ _ _ (quiet_matches _ _ _ _)) in H1.
  assert (update_effect schema upd val binary p kv = if p (parse_row (snd kv)) then Some (Some (updated schema upd val binary (parse_row (snd kv)))) else None) as He by done.
  destruct (p (parse_row (snd kv))).
  2: { injection H as <- <-. eapply (aside_turn _ _ _ s s s); [done | reflexivity | | exact H1]. intros Hwf0.
       split_and!; [done | reflexivity | done | unfold apply_to; by rewrite He | by rewrite He]. }
  apply abind_cases in H as [(out & s2 & H2 & H)|[_ Hb]]; [|by destruct (Hb hit)]. pose proof H2 as Hout.
  apply (assign_run _ _ _ (val (parse_row (snd kv)))) in Hout; [|intros a s0 Hin Has; apply Hval; [done | by transitivity s1]]. apply (quiet_run _ _ _ _ (quiet_assign _ _ _ _)) in H2. cbv zeta in H.
  apply abind_cases in H as [(u & s3 & H3 & H)|[_ Hb]]; [|by destruct (Hb hit)]. apply (quiet_run _ _ _ _ (quiet_constraints _ _ _)) in H3.
  assert (aside s s3) as Ha by (transitivity s1; [done|]; by transitivity s2).
  apply abind_cases in H as [(u' & s4 & H4 & H)|[_ Hb]]; [|by destruct (Hb hit)]. unfold write_row, calling in H4.
  assert (jsonb_binary_storage s3 = binary) as Hb3 by (destruct Ha as [[_ Hj] _]; by rewrite Hj).
  rewrite Hb3 in H4. destruct (rs_write _ _ _ s3) as [s4' r] eqn:Hw. injection H4 as -> ->. eapply (aside_turn _ _ _ s s3 s4); [done | exact Ha | |].
  - intros Hwf3. pose proof (write_aside (upd_table upd) (fst kv) (build_row_value schema (normalize_vector_cells schema out) binary) s3) as Hc. rewrite Hw in Hc.
    apply rs_write_law in Hw as (Hwf4 & Hr & Ho); [|done]. cbn in Hr. split_and!; [done | done | done | unfold apply_to; rewrite He; unfold updated, assigned; by rewrite <- Hout|].
    apply abind_cases in H as [(u2 & s5 & _ & [= _ <-])|[_ Hb]]; [|by destruct (Hb hit)]. by rewrite He.
  - eapply (quiet_run (abind _ _)); [|exact H]. apply quiet_bind; [apply quiet_publish | intros; apply quiet_pure].
Qed.

Lemma omap_update schema upd val binary p kvs :
  omap (effect_on (update_effect schema upd val binary p)) kvs
  = map (fun kv => if p (parse_row (snd kv)) then (fst kv, updated schema upd val binary (parse_row (snd kv))) else kv) kvs.
Proof. induction kvs as [|kv kvs IH]; [done|]. cbn [omap list_omap map]. rewrite <- IH. unfold effect_on at 1, update_effect at 1. by destruct (p _). Qed.

(** C26. UPDATE rewrites the rows that satisfy its predicate. When the predicate
    and the assigned expressions evaluate on each row of the table, to values
    that do not depend on the other rows of that table (they may read other
    tables, the schema and the parameters; the rows are rewritten one by one, so
    a subquery on the updated table sees the rows that were rewritten before),
    and the statement succeeds, then exactly these rows are replaced, under their
    old keys, by the row with the assigned values, all computed from the old
    row; every other row of every table is as it was, and the tag counts the
    rows. *)
Theorem update_rewrites_matching_rows (upd : UpdateStmt) (params : list Value) (schema : TableSchema) (p : Row -> bool) (val : Row -> Expr -> Value) (s s' : State) (r : QueryResult) :
  rs_wf s -> tables_get (upd_table upd) s = Ok (Some schema) ->
  (forall kv s1, In kv (rs_rows s (upd_table upd)) -> apart (upd_table upd) s s1 ->
     snd (row_matches (Some schema) (upd_where upd) params (parse_row (snd kv)) s1) = done (p (parse_row (snd kv)))) ->
  (forall kv a s1, In kv (rs_rows s (upd_table upd)) -> In a (upd_assignments upd) -> apart (upd_table upd) s s1 ->
     eval (change_ctx (parse_row (snd kv)) (Some schema) params s1) (snd a) = done (val (parse_row (snd kv)) (snd a))) ->
  execute_update upd params s = (s', done r) ->
  rs_rows s' (upd_table upd)
    = map (fun kv => if p (parse_row (snd kv)) then (fst kv, updated schema upd val (jsonb_binary_storage s) (parse_row (snd kv))) else kv) (rs_rows s (upd_table upd))
  /\ (forall t, t <> upd_table upd -> rs_rows s' t = rs_rows s t)
  /\ qr_tag r = "UPDATE " +:+ to_dec (zlen (List.filter (fun kv => p (parse_row (snd kv))) (rs_rows s (upd_table upd)))).
Proof.
  intros Hwf Ht Hp Hval H. unfold execute_update in H. destruct (find_table_run (upd_table upd) s) as (res & Hf & Hres). unfold abind at 1 in H. rewrite Hf in H.
  destruct res as [[sc|e]|]; try done. specialize (Hres _ eq_refl). rewrite Ht in Hres. injection Hres as <-. unfold abind at 1 in H. rewrite scan_rows_run in H.
  destruct (rs_scan (upd_table upd) s) as [kvs|e] eqn:Hs; [|done]. apply rs_scan_law in Hs as ->; [|done]. rewrite map_map in H.
  apply abind_cases in H as [(n & s1 & H & Hr)|[_ Hb]]; [|by destruct (Hb r)]. injection Hr as -> <-.
  apply (count_changes_turns (upd_table upd) (update_effect schema upd val (jsonb_binary_storage s) p)) in H as (Ho & Hrows & Hn); [| |done].
  2: { intros kv s2 s3 hit Hin Hap H2. eapply update_one_turn; [apply Hap | apply (proj1 (proj2 Hap)) | | |exact H2].
       - intros s4 Has. apply Hp; [done | by eapply apart_aside].
       - intros a s4 Ha Has. apply Hval; [done | done | by eapply apart_aside]. }
  split_and!; [|done|].
  - rewrite Hrows. pose proof (fold_apply_to (update_effect schema upd val (jsonb_binary_storage s) p) [] _ (rs_sorted s (upd_table upd) Hwf)) as Hf'. cbn [app] in Hf'.
    rewrite Hf', omap_update; [done|]. intros; constructor.
  - cbn [command_tag qr_tag]. rewrite Hn, Z.add_0_l, (filter_ext_bool _ (fun kv => p (parse_row (snd kv)))); [done|]. intros kv. unfold update_effect. by destruct (p _).
Qed.

(** ** INSERT *)

Lemma fill_values_length targets params cells provided s s' out :
  fill_values targets params cells provided s = (s', Some (Ok out)) -> length (fst out) = length cells.
Proof.
  revert cells provided s. induction targets as [|[target e] targets IH]; intros cells provided s H; cbn [fill_values] in H; [by injection H as _ <-|].
  apply abind_cases in H as [(i & s1 & _ & H)|[_ Hb]]; [|by destruct (Hb out)]. apply abind_cases in H as [(v & s2 & _ & H)|[_ Hb]]; [|by destruct (Hb out)].
  apply IH in H. by rewrite length_insert in H.
Qed.

Lemma fill_defaults_length i cols params provided cells s s' out :
  fill_defaults i cols params provided cells s = (s', Some (Ok out)) -> length out = length cells.
Proof.
  revert i cells s. induction cols as [|col cols IH]; intros i cells s H; cbn [fill_defaults] in H; [by injection H as _ <-|].
  destruct (default false _); [by eapply IH|]. destruct (tc_default col) as [text|].
  - apply abind_cases in H as [(e & s1 & _ & H)|[_ Hb]]; [|by destruct (Hb out)]. apply abind_cases in H as [(v & s2 & _ & H)|[_ Hb]]; [|by destruct (Hb out)].
    apply IH in H. by rewrite length_insert in H.
  - destruct (tc_nullable col); [by eapply IH | done].
Qed.

Lemma resolve_length schema cols vals params s s' cells :
  resolve_insert_row schema cols vals params s = (s', Some (Ok cells)) -> length cells = length (ts_columns schema).
Proof.
  unfold resolve_insert_row. cbv zeta. intros H. apply abind_cases in H as [(targets & s1 & _ & H)|[_ Hb]]; [|by destruct (Hb cells)].
  apply abind_cases in H as [(filled & s2 & H2 & H)|[_ Hb]]; [|by destruct (Hb cells)]. apply abind_cases in H as [(c & s3 & H3 & H)|[_ Hb]]; [|by destruct (Hb cells)].
  injection H as _ <-. apply fill_values_length in H2. apply fill_defaults_length in H3. unfold normalize_vector_cells. by rewrite length_imap, H3, H2, length_replicate.
Qed.

Definition new_row (schema : TableSchema) (binary : bool) (rows : list (bytes * bytes)) (n : bytes * Row) : list (bytes * bytes) :=
  om_insert (fst n) (build_row_value schema (snd n) binary) rows.

(** A row of its own: as wide as the schema, under its primary key, which no row
    had. *)
Definition fresh_row (schema : TableSchema) (rows : list (bytes * bytes)) (n : bytes * Row) : Prop :=
  length (snd n) = length (ts_columns schema)
  /\ (ts_pk_columns schema <> [] -> fst n = primary_key schema (snd n) /\ om_get (fst n) rows = None).

Lemma insert_one_run schema t cols params vals s s' :
  rs_wf s -> insert_one schema t cols params vals s = (s', Some (Ok tt)) ->
  rs_wf s' /\ same_catalog s s' /\ (forall t', t' <> t -> rs_rows s' t' = rs_rows s t')
  /\ exists n, fresh_row schema (rs_rows s t) n /\ rs_rows s' t = new_row schema (jsonb_binary_storage s) (rs_rows s t) n.
Proof.
  intros Hwf H. unfold insert_one in H. apply abind_cases in H as [(cells & s1 & H1 & H)|[_ Hb]]; [|by destruct (Hb tt)].
  apply resolve_length in H1 as Hlen. apply (quiet_run _ _ _ _ (quiet_resolve _ _ _ _)) in H1.
  apply abind_cases in H as [(u & s2 & H2 & H)|[_ Hb]]; [|by destruct (Hb tt)]. apply (quiet_run _ _ _ _ (quiet_constraints _ _ _)) in H2.
  apply abind_cases in H as [(key & s3 & H3 & H)|[_ Hb]]; [|by destruct (Hb tt)]. pose proof (quiet_run _ _ _ _ (quiet_key _ _) H3) as Ha3.
  apply abind_cases in H as [(taken & s4 & H4 & H)|[_ Hb]]; [|by destruct (Hb tt)]. pose proof (quiet_run _ _ _ _ (quiet_taken _ _ _) H4) as Ha4.
  destruct taken; [done|].
  assert (aside s s3) as Has3 by (transitivity s1; [done|]; by transitivity s2). assert (aside s s4) as [[Hc4 Hj4] Hr4] by by transitivity s3.
  destruct (Hr4 Hwf) as [Hwf4 Hrows4]. apply abind_cases in H as [(u' & s5 & H5 & H)|[_ Hb]]; [|by destruct (Hb tt)].
  unfold write_row, calling in H5. rewrite Hj4 in H5. destruct (rs_write _ _ _ s4) as [s5' r] eqn:Hw. injection H5 as -> ->.
  pose proof (write_aside t key (build_row_value schema cells (jsonb_binary_storage s)) s4) as Hc5. rewrite Hw in Hc5.
  apply rs_write_law in Hw as (Hwf5 & Hr5 & Ho5); [|done]. cbn in Hr5, Hc5. apply (quiet_run _ _ _ _ (quiet_publish _ _ _ _ _ _)) in H as [Hc' Hr'].
  destruct (Hr' Hwf5) as [Hwf' Hrows']. split_and!; [done | | intros t' Hne; by rewrite Hrows', Ho5, Hrows4|].
  { transitivity s4; [done|]. by transitivity s5. }
  exists (key, cells). split; [|rewrite Hrows', Hr5, Hrows4; done]. split; [done|]. cbn [fst snd]. intros Hpk.
  unfold row_key_for in H3. unfold key_taken in H4. destruct (ts_pk_columns schema) as [|i ix]; [done|]. injection H3 as <- <-. split; [done|].
  unfold abind, reading in H4. destruct (rs_read t (primary_key schema cells) s2) as [found|] eqn:Hread; [|done]. injection H4 as _ H4.
  apply rs_read_law in Hread; [|by apply Has3]. destruct Has3 as [_ Hr3]. destruct (Hr3 Hwf) as [_ Hrows3]. rewrite <- Hrows3, <- Hread. by destruct found.
Qed.

Fixpoint fresh_rows (schema : TableSchema) (binary : bool) (rows : list (bytes * bytes)) (news : list (bytes * Row)) : Prop :=
  match news with
  | [] => True
  | n :: news' => fresh_row schema rows n /\ fresh_rows schema binary (new_row schema binary rows n) news'
  end.

(** C25. INSERT adds its rows. The table holds one row more for each list of values,
    with a cell for every column, and what it held before; with a primary key,
    each row is stored under its own, which no row had, those inserted before it
    included. Other tables stay as they were. *)
Theorem insert_adds_its_rows (ins : InsertStmt) (params : list Value) (s s' : State) (r : QueryResult) :
  rs_wf s -> execute_insert ins params s = (s', done r) ->
  exists schema news, tables_get (ins_table ins) s = Ok (Some schema)
    /\ length news = length (ins_values ins)
    /\ fresh_rows schema (jsonb_binary_storage s) (rs_rows s (ins_table ins)) news
    /\ rs_rows s' (ins_table ins) = fold_left (new_row schema (jsonb_binary_storage s)) news (rs_rows s (ins_table ins))
    /\ (forall t, t <> ins_table ins -> rs_rows s' t = rs_rows s t)
    /\ qr_tag r = "INSERT 0 " +:+ to_dec (zlen (ins_values ins)).
Proof.
  intros Hwf H. unfold execute_insert in H. destruct (find_table_run (ins_table ins) s) as (res & Hf & Hres). unfold abind at 1 in H. rewrite Hf in H.
  destruct res as [[schema|e]|]; try done. specialize (Hres _ eq_refl). exists schema.
  apply abind_cases in H as [([] & s1 & H & Hr)|[_ Hb]]; [|by destruct (Hb r)]. injection Hr as -> <-. cbn [command_tag qr_tag].
  cut (exists news, length news = length (ins_values ins) /\ fresh_rows schema (jsonb_binary_storage s) (rs_rows s (ins_table ins)) news
    /\ rs_rows s' (ins_table ins) = fold_left (new_row schema (jsonb_binary_storage s)) news (rs_rows s (ins_table ins))
    /\ forall t, t <> ins_table ins -> rs_rows s' t = rs_rows s t).
  { intros (news & H1 & H2 & H3 & H4). by exists news. }
  clear Hf Hres. revert s Hwf H. induction (ins_values ins) as [|vals values IH]; intros s Hwf H; cbn [for_each] in H.
  { injection H as <-. by exists []. }
  apply abind_cases in H as [([] & s2 & H2 & H)|[_ Hb]]; [|by destruct (Hb tt)]. apply insert_one_run in H2 as (Hwf2 & [_ Hj] & Ho & n & Hn & Hrows); [|done].
  destruct (IH s2 Hwf2 H) as (news & Hl & Hfr & Hr' & Ho'). rewrite Hj, Hrows in *. exists (n :: news).
  split_and!; [cbn; by rewrite Hl | done | done | intros t Hne; by rewrite Ho', Ho].
Qed.

End Rows.
