(* ===== verification/DmlExamples.v ===== *)
(** Statements from their text over a database in memory: inputs of the theorems
    of [DmlFacts] and [DmlRows], and what the constraints let through. *)

From Stdlib Require Import Strings.Byte Strings.String ZArith Lia Bool Permutation.
From stdpp Require Import base list strings gmap.
From S2P Require Import Prelude OrdMap Utf8 Decimal Txn Compress Flux Rows Jsonb Ast Lexer Parser ParserEnds Float Values JsonOps JsonSchema Eval Joins Sorting Windows Planner Select Dml DmlFacts DmlRows.

Open Scope Z_scope.
Open Scope eval_scope.
Open Scope act_scope.

(** ** A database in memory *)

(** Rows, schemas, the number of keys drawn, and the events published. *)
Record MemBase := mkMemBase { mb_rows : MemRows; mb_schemas : list TableSchema; mb_drawn : Z; mb_events : list (string * JSON) }.

Definition set_rows (m : MemRows) (b : MemBase) : MemBase := mkMemBase m (mb_schemas b) (mb_drawn b) (mb_events b).

#[export] Instance base_rows : RowStore MemBase := {|
  rs_write t k v b := let '(m, r) := rs_write t k v (mb_rows b) in (set_rows m b, r);
  rs_delete t k b := let '(m, r) := rs_delete t k (mb_rows b) in (set_rows m b, r);
  rs_read t k b := rs_read t k (mb_rows b);
  rs_scan t b := rs_scan t (mb_rows b);
|}.

#[export] Program Instance base_laws : RowLaws MemBase := {| rs_wf b := rs_wf (mb_rows b); rs_rows b t := rs_rows (mb_rows b) t |}.
Next Obligation. intros b t H. by apply (rs_sorted (mb_rows b)). Qed.
Next Obligation. intros b t k v. apply (rs_read_law (mb_rows b)). Qed.
Next Obligation. intros b t kvs. apply (rs_scan_law (mb_rows b)). Qed.
Next Obligation.
  intros b b' t k v r Hwf H. change (rs_write t k v b) with (let '(m, r) := rs_write t k v (mb_rows b) in (set_rows m b, r)) in H.
  destruct (rs_write t k v (mb_rows b)) as [m r'] eqn:E. injection H as <- <-. by apply (rs_write_law (mb_rows b)) in E.
Qed.
Next Obligation.
  intros b b' t k r Hwf H. change (rs_delete t k b) with (let '(m, r) := rs_delete t k (mb_rows b) in (set_rows m b, r)) in H.
  destruct (rs_delete t k (mb_rows b)) as [m r'] eqn:E. injection H as <- <-. by apply (rs_delete_law (mb_rows b)) in E.
Qed.

#[export] Instance base_schemas : Schemas MemBase := {|
  tables_get t b := Ok (List.find (fun sc => String.eqb (ts_name sc) t) (mb_schemas b));
  jsonb_binary_storage _ := false;
  random_key b := (mkMemBase (mb_rows b) (mb_schemas b) (mb_drawn b + 1) (mb_events b), u64_to_be (mb_drawn b));
  now_ms _ := 0;
  flux_publish_cdc t e b := (mkMemBase (mb_rows b) (mb_schemas b) (mb_drawn b) (mb_events b ++ [(t, e)]), Ok tt);
  advance _ _ b := b;
|}.

#[export] Program Instance base_schema_laws : SchemaLaws MemBase.
Next Obligation. intros t b schema [= H]. apply find_some in H as [_ H]. by apply String.eqb_eq. Qed.
Next Obligation. intros t k v b. cbn. by destruct (mr_update _ _ _). Qed.
Next Obligation. intros t k b. cbn. by destruct (mr_update _ _ _). Qed.
Next Obligation. intros b. split; [done|]. done. Qed.
Next Obligation. intros t e b. split; [done|]. done. Qed.
Next Obligation. intros c e b. reflexivity. Qed.

#[export] Instance base_world : World MemBase :=
  {| run_select _ _ _ _ := fails "no subqueries"; other_function _ name _ := fails ("function " +:+ name +:+ " does not exist") |}.
#[export] Instance no_vectors : Vectors := fun _ => None.

(** ** Running text *)

Definition change_of (text : string) : option Change :=
  match sql_parse text with
  | Some (Ok (Stmt_Insert i)) => Some (Change_Insert i)
  | Some (Ok (Stmt_Delete d)) => Some (Change_Delete d)
  | Some (Ok (Stmt_Update u)) => Some (Change_Update u)
  | _ => None
  end.

Definition run_sql (b : MemBase) (text : string) : MemBase * Eval string :=
  match change_of text with
  | Some c => let '(b', r) := execute_change c [] b in (b', let* q := r in done (qr_tag q))
  | None => (b, fails "not a change")
  end.

(** The statements' tags or errors, and the rows of a table behind them. *)
Fixpoint run_texts (b : MemBase) (texts : list string) : MemBase * list (Eval string) :=
  match texts with
  | [] => (b, [])
  | text :: texts' =>
      let '(b', r) := run_sql b text in
      let '(b'', rest) := run_texts b' texts' in (b'', r :: rest)
  end.

Definition cell_text (c : option bytes) : string := match c with Some b => string_of_list_byte b | None => "NULL" end.
Definition shown_rows (t : string) (b : MemBase) : list (list string) := map (fun kv => map cell_text (parse_row (snd kv))) (rs_rows (mb_rows b) t).

Definition col (name : string) (ty : ColumnType) (nullable is_pk : bool) : TableColumn := mkTableColumn name ty nullable None is_pk.
Definition users : TableSchema :=
  mkTableSchema "users" [col "id" ColumnType_Int8 false true; col "email" ColumnType_Text true false; col "name" ColumnType_Text false false] [0%nat] [[1%nat]] [] [].
Definition orders_t : TableSchema :=
  mkTableSchema "orders" [col "item" ColumnType_Text true false; col "owner" ColumnType_Int8 true false] [] [] [mkForeignKey 1 "users" "id"] [].
Definition shop : MemBase := mkMemBase mem_empty [users; orders_t] 0 [].

Definition after (texts : list string) : MemBase := fst (run_texts shop texts).
Definition outcomes (texts : list string) : list bool :=
  map (fun r => match r with Some (Ok _) => true | _ => false end) (snd (run_texts shop texts)).

(** Statements that do as they should: defaults, keys, UNIQUE and references. *)
Example shop_statements :
  let texts := ["INSERT INTO users VALUES (1, 'a@x', 'ann'), (2, NULL, 'bob')"; "INSERT INTO users VALUES (3, 'a@x', 'eve')";
                "INSERT INTO users (id, name) VALUES (1, 'dup')"; "INSERT INTO orders VALUES ('pen', 2)"; "INSERT INTO orders VALUES ('ink', 7)";
                "UPDATE users SET name = 'anna' WHERE id = 1"; "DELETE FROM users WHERE id = 2"]%string in
  outcomes texts = [true; false; false; true; false; true; true]
  /\ shown_rows "users" (after texts) = [["1"; "a@x"; "anna"]]%string
  /\ shown_rows "orders" (after texts) = [["pen"; "2"]]%string
  /\ map fst (mb_events (after texts)) = ["users"; "users"; "orders"; "users"; "users"]%string.
Proof. vm_compute. split_and!; reflexivity. Qed.

(** ** What the constraints let through *)

(** NOT NULL is looked at for the columns that INSERT does not name: NULL itself
    is stored, by INSERT and by UPDATE. *)
Lemma not_null_is_not_enforced :
  let texts := ["INSERT INTO users VALUES (1, 'a@x', NULL)"; "INSERT INTO users (id) VALUES (2)"; "UPDATE users SET id = NULL"]%string in
  outcomes texts = [true; false; true] /\ shown_rows "users" (after texts) = [["NULL"; "a@x"; "NULL"]]%string.
Proof. vm_compute. by split. Qed.

(** UPDATE of a primary key leaves the row under its old key: the new key can be
    inserted again, and the old one cannot. *)
Lemma update_leaves_the_old_key :
  let texts := ["INSERT INTO users VALUES (1, NULL, 'ann')"; "UPDATE users SET id = 2"; "INSERT INTO users VALUES (2, NULL, 'bob')";
                "INSERT INTO users VALUES (1, NULL, 'eve')"]%string in
  outcomes texts = [true; true; true; false] /\ shown_rows "users" (after texts) = [["2"; "NULL"; "ann"]; ["2"; "NULL"; "bob"]]%string.
Proof. vm_compute. by split. Qed.

(** A statement that fails keeps what it wrote before it failed. *)
Lemma failed_insert_keeps_rows :
  let texts := ["INSERT INTO users VALUES (1, NULL, 'ann'), (2, NULL, 'bob'), (1, NULL, 'eve')"]%string in
  outcomes texts = [false] /\ shown_rows "users" (after texts) = [["1"; "NULL"; "ann"]; ["2"; "NULL"; "bob"]]%string.
Proof. vm_compute. by split. Qed.

(** ** Inputs of the theorems *)

Definition changes (texts : list string) : list (Change * list Value) := map (fun c => (c, [])) (omap change_of texts).

Definition busy : list (Change * list Value) :=
  changes ["INSERT INTO users VALUES (1, 'a@x', 'ann'), (2, NULL, 'bob')"; "INSERT INTO users VALUES (3, 'a@x', 'eve')";
           "UPDATE users SET email = 'a@x' WHERE id = 2"; "UPDATE users SET email = 'b@x' WHERE id = 2"; "INSERT INTO orders VALUES ('pen', 2)"]%string.

Lemma unique_constraints_hold_witness :
  shown_rows "users" (run_changes busy shop) = [["1"; "a@x"; "ann"]; ["2"; "b@x"; "bob"]]%string
  /\ unique_rows users (rs_rows (run_changes busy shop) "users").
Proof. split; [vm_compute; reflexivity|]. apply (unique_constraints_hold "users" users busy shop); [exact mem_empty_wf | reflexivity | intros ? ? ? ? ? _ []]. Defined.

Definition staffed : MemBase := after ["INSERT INTO users VALUES (1, NULL, 'ann'), (2, NULL, 'bob')"]%string.
Definition ordering : list (Change * list Value) :=
  changes ["INSERT INTO orders VALUES ('pen', 2), ('cap', NULL)"; "INSERT INTO orders VALUES ('ink', 7)"; "UPDATE orders SET owner = 1 WHERE item = 'pen'"]%string.

Lemma run_sql_wf (b : MemBase) (text : string) : rs_wf b -> rs_wf (fst (run_sql b text)).
Proof.
  intros Hb. unfold run_sql. destruct (change_of text) as [c|]; [|done]. destruct (execute_change c [] b) as [b' r] eqn:E.
  eapply (execute_change_keeps (fun b => rs_wf b)) in E; [done | | done]. intros s1 s2 _ H1 H2. by apply row_change_rows in H2 as [H2 _].
Qed.

Lemma staffed_wf : rs_wf staffed.
Proof.
  unfold staffed, after. cbn [run_texts]. pose proof (run_sql_wf shop "INSERT INTO users VALUES (1, NULL, 'ann'), (2, NULL, 'bob')" mem_empty_wf) as H.
  by destruct (run_sql shop _).
Qed.

Lemma foreign_keys_hold_witness :
  shown_rows "orders" (run_changes ordering staffed) = [["pen"; "1"]; ["cap"; "NULL"]]%string
  /\ references_hold "orders" orders_t (run_changes ordering staffed).
Proof.
  split; [vm_compute; reflexivity|]. apply (foreign_keys_hold "orders" orders_t ordering staffed).
  - exact staffed_wf.
  - reflexivity.
  - intros fk k v val _ Hin. by vm_compute in Hin.
  - intros c fk Hc Hfk. assert (Forall (fun c => target (fst c) = "orders"%string) ordering) as Hall by (vm_compute; repeat constructor).
    rewrite Forall_forall in Hall. rewrite (Hall c) by by apply list_elem_of_In. destruct Hfk as [<-|[]]. by vm_compute.
Defined.

Definition pairs : TableSchema := mkTableSchema "pairs" [col "a" ColumnType_Text false true; col "b" ColumnType_Text false true; col "c" ColumnType_Text true false] [0; 1]%nat [] [] [].

Lemma primary_keys_are_injective_witness :
  primary_key pairs [text_cell "1"; text_cell "23"] <> primary_key pairs [text_cell "12"; text_cell "3"]
  /\ forall i, In i (ts_pk_columns pairs) ->
    cell_at [text_cell "1"; None; text_cell "x"] i = cell_at [text_cell "1"; None; text_cell "y"] i
    \/ (ts_pk_columns pairs = [i] /\ default [] (cell_at [text_cell "1"; None; text_cell "x"] i) = [] /\ default [] (cell_at [text_cell "1"; None; text_cell "y"] i) = []).
Proof.
  split; [by vm_compute|]. apply (primary_keys_are_injective pairs); [|done | reflexivity].
  intros i c Hi. destruct Hi as [<-|[<-|[]]]; cbn; intros [[= <-]|[= <-]]; by vm_compute.
Defined.

Definition the_delete : DeleteStmt := mkDeleteStmt "users" (Some (Expr_BinaryOp BinOp_Eq (Expr_Ident "id") (Expr_Literal (Literal_Int 2)))).
Definition is_two (row : Row) : bool := bool_decide (cell_at row 0 = text_cell "2").

Lemma delete_removes_matching_rows_witness :
  match execute_delete the_delete [] staffed with
  | (b, Some (Ok r)) =>
      rs_rows b "users" = List.filter (fun kv => negb (is_two (parse_row (snd kv)))) (rs_rows staffed "users") /\ shown_rows "users" b = [["1"; "NULL"; "ann"]]%string
      /\ qr_tag r = "DELETE 1"%string
  | _ => False
  end.
Proof.
  destruct (execute_delete the_delete [] staffed) as [b [[r|e]|]] eqn:E; [|by vm_compute in E..].
  pose proof E as E'. vm_compute in E'. injection E' as Hb Hr.
  split; [|split; [rewrite <- Hb; vm_compute; reflexivity | rewrite <- Hr; vm_compute; reflexivity]]. clear Hb Hr.
  refine (proj1 (delete_removes_matching_rows the_delete [] (Some users) is_two staffed b r _ _ _ _)).
  - exact staffed_wf.
  - reflexivity.
  - intros kv s1 Hin. vm_compute in Hin. destruct Hin as [<-|[<-|[]]]; vm_compute; reflexivity.
  - exact E.
Defined.

Definition the_update : UpdateStmt :=
  mkUpdateStmt "users" [("name"%string, Expr_Literal (Literal_Text "rob")); ("email"%string, Expr_Ident "name")] (del_where the_delete).
Definition old_value (row : Row) (e : Expr) : Value :=
  match eval (ctx_new (DB := MemBase) row (Some users)) e with Some (Ok v) => v | _ => Value_Null end.

Lemma update_rewrites_matching_rows_witness :
  match execute_update the_update [] staffed with
  | (b, Some (Ok r)) =>
      rs_rows b "users" = map (fun kv => if is_two (parse_row (snd kv)) then (fst kv, updated users the_update old_value false (parse_row (snd kv))) else kv) (rs_rows staffed "users")
      /\ shown_rows "users" b = [["1"; "NULL"; "ann"]; ["2"; "bob"; "rob"]]%string /\ qr_tag r = "UPDATE 1"%string
  | _ => False
  end.
Proof.
  destruct (execute_update the_update [] staffed) as [b [[r|e]|]] eqn:E; [|by vm_compute in E..].
  pose proof E as E'. vm_compute in E'. injection E' as Hb Hr.
  split; [|split; [rewrite <- Hb; vm_compute; reflexivity | rewrite <- Hr; vm_compute; reflexivity]]. clear Hb Hr.
  refine (proj1 (update_rewrites_matching_rows the_update [] users is_two old_value staffed b r _ _ _ _ _)).
  - exact staffed_wf.
  - reflexivity.
  - intros kv s1 Hin _. vm_compute in Hin. destruct Hin as [<-|[<-|[]]]; vm_compute; reflexivity.
  - intros kv a s1 Hin Ha _. vm_compute in Hin. destruct Hin as [<-|[<-|[]]]; (destruct Ha as [<-|[<-|[]]]; vm_compute; reflexivity).
  - exact E.
Defined.

Definition the_insert : InsertStmt :=
  mkInsertStmt "users" ["name"; "id"]%string [[Expr_Literal (Literal_Text "cid"); Expr_Literal (Literal_Int 3)]; [Expr_Literal (Literal_Text "dan"); Expr_Literal (Literal_Int 4)]].

Lemma insert_adds_its_rows_witness :
  match execute_insert the_insert [] staffed with
  | (b, Some (Ok r)) =>
      shown_rows "users" b = [["1"; "NULL"; "ann"]; ["2"; "NULL"; "bob"]; ["3"; "NULL"; "cid"]; ["4"; "NULL"; "dan"]]%string
      /\ exists schema news, tables_get "users" staffed = Ok (Some schema) /\ length news = 2%nat
           /\ fresh_rows schema false (rs_rows staffed "users") news
           /\ rs_rows b "users" = fold_left (new_row schema false) news (rs_rows staffed "users")
           /\ (forall t, t <> "users"%string -> rs_rows b t = rs_rows staffed t) /\ qr_tag r = "INSERT 0 2"%string
  | _ => False
  end.
Proof.
  destruct (execute_insert the_insert [] staffed) as [b [[r|e]|]] eqn:E; [|by vm_compute in E..].
  pose proof E as E'. vm_compute in E'. injection E' as Hb Hr. split; [rewrite <- Hb; vm_compute; reflexivity|]. clear Hb Hr.
  exact (insert_adds_its_rows the_insert [] staffed b r staffed_wf E).
Defined.
