(* ===== verification/Pgwire.v ===== *)
(** The PostgreSQL wire protocol ([wire/messages.rs], [wire/codec.rs]): the
    messages of the server and how they are written, the messages of the client
    and how they are read.

    The bytes that a connection still delivers before the client closes it are
    a list; reading waits for bytes, so what matters is whether they come.
    Getting an integer from a buffer that is too short panics, and so does a
    vector for a negative count; [None] is a panic.

    [frontend_bytes] and [backend_read] are the client's side of the protocol,
    from the PostgreSQL documentation. Theorems: the server reads every message
    that a client can send as the client meant it, whatever follows; a client
    reads every message of the server as the server meant it; binary integer
    cells carry the integer; a count that the body does not hold panics. *)

From Stdlib Require Import Strings.Byte Strings.String ZArith Lia Bool.
From stdpp Require Import base list strings.
From S2P Require Import Prelude OrdMap Utf8 Decimal Compress Flux Rows Jsonb Ast Lexer Float Values JsonOps Eval Joins Sorting Windows Planner Select.

Open Scope Z_scope.
Open Scope eval_scope.

(** ** Integers and strings on the wire *)

Definition i16_to_be (z : Z) : bytes := to_be 2 (z mod 2 ^ 16).
Definition i32_to_be (z : Z) : bytes := to_be 4 (z mod 2 ^ 32).
(** [iN::from_be_bytes] *)
Definition signed_from_be (width : Z) (bs : bytes) : Z := let z := from_be bs in if z <? 2 ^ (width - 1) then z else z - 2 ^ width.
Definition cstr (s : string) : bytes := as_bytes s ++ [Byte.x00].

(** ** Messages of the server *)

Inductive TransactionStatus := Status_Idle | Status_InTransaction | Status_Failed.

Definition status_byte (s : TransactionStatus) : byte :=
  match s with Status_Idle => "I" | Status_InTransaction => "T" | Status_Failed => "E" end.

Record ErrorInfo := mkErrorInfo { ei_severity : string; ei_code : string; ei_message : string }.
Definition error_new (code message : string) : ErrorInfo := mkErrorInfo "ERROR" code message.
Definition error_fatal (code message : string) : ErrorInfo := mkErrorInfo "FATAL" code message.

Inductive BackendMessage :=
| B_AuthenticationOk
| B_AuthenticationSASL (mechanisms : list string)
| B_AuthenticationSASLContinue (data : bytes)
| B_AuthenticationSASLFinal (data : bytes)
| B_ParameterStatus (name value : string)
| B_BackendKeyData (pid secret : Z)
| B_ReadyForQuery (status : TransactionStatus)
| B_RowDescription (fields : list FieldDescription)
| B_DataRow (cols : Row)
| B_CommandComplete (tag : string)
| B_ErrorResponse (e : ErrorInfo)
| B_EmptyQueryResponse
| B_NoticeResponse (msg : string)
| B_ParseComplete
| B_BindComplete
| B_CloseComplete
| B_ParameterDescription (types : list Z)
| B_NoData
| B_PortalSuspended
| B_NotificationResponse (pid : Z) (channel payload : string)
| B_CopyInResponse (columns : nat)
| B_CopyOutResponse (columns : nat)
| B_CopyData (data : bytes)
| B_CopyDone.

(** Type byte, length with its own four bytes, body. *)
Definition write_msg (tag : byte) (body : bytes) : bytes := tag :: i32_to_be (4 + zlen body) ++ body.

Definition write_copy_response (tag : byte) (columns : nat) : bytes :=
  write_msg tag ([Byte.x00] ++ i16_to_be (Z.of_nat columns) ++ concat (replicate columns (i16_to_be 0))).

Definition field_bytes (f : FieldDescription) : bytes :=
  cstr (fd_name f) ++ i32_to_be (fd_table_oid f) ++ i16_to_be (fd_col_attr f) ++ i32_to_be (fd_type_oid f)
  ++ i16_to_be (fd_type_size f) ++ i32_to_be (fd_type_modifier f) ++ i16_to_be (fd_format f).

Definition column_bytes (col : option bytes) : bytes :=
  match col with None => i32_to_be (- 1) | Some data => i32_to_be (zlen data) ++ data end.

Definition encode_message (msg : BackendMessage) : bytes :=
  match msg with
  | B_AuthenticationOk => write_msg "R" (i32_to_be 0)
  | B_AuthenticationSASL mechanisms => write_msg "R" (i32_to_be 10 ++ concat (map cstr mechanisms) ++ [Byte.x00])
  | B_AuthenticationSASLContinue data => write_msg "R" (i32_to_be 11 ++ data)
  | B_AuthenticationSASLFinal data => write_msg "R" (i32_to_be 12 ++ data)
  | B_ParameterStatus name value => write_msg "S" (cstr name ++ cstr value)
  | B_BackendKeyData pid secret => write_msg "K" (i32_to_be pid ++ i32_to_be secret)
  | B_ReadyForQuery status => write_msg "Z" [status_byte status]
  | B_RowDescription fields => write_msg "T" (i16_to_be (zlen fields) ++ concat (map field_bytes fields))
  | B_DataRow cols => write_msg "D" (i16_to_be (zlen cols) ++ concat (map column_bytes cols))
  | B_CommandComplete tag => write_msg "C" (cstr tag)
  | B_ErrorResponse e =>
      write_msg "E" ((byte_of_Z 83 :: cstr (ei_severity e)) ++ (byte_of_Z 86 :: cstr (ei_severity e)) ++ (byte_of_Z 67 :: cstr (ei_code e))
                     ++ (byte_of_Z 77 :: cstr (ei_message e)) ++ [Byte.x00])
  | B_EmptyQueryResponse => write_msg "I" []
  | B_NoticeResponse msg => write_msg "N" ((byte_of_Z 77 :: cstr msg) ++ [Byte.x00])
  | B_ParseComplete => write_msg "1" []
  | B_BindComplete => write_msg "2" []
  | B_CloseComplete => write_msg "3" []
  | B_ParameterDescription types => write_msg "t" (i16_to_be (zlen types) ++ concat (map i32_to_be types))
  | B_NoData => write_msg "n" []
  | B_PortalSuspended => write_msg "s" []
  | B_NotificationResponse pid channel payload => write_msg "A" (i32_to_be pid ++ cstr channel ++ cstr payload)
  | B_CopyInResponse columns => write_copy_response "G" columns
  | B_CopyOutResponse columns => write_copy_response "H" columns
  | B_CopyData data => write_msg "d" data
  | B_CopyDone => write_msg "c" []
  end.

(** *** Binary cells *)

(** [str::parse::<f32>] as the bits of the float, and [hex::decode]. *)
Class WireCrates := { parse_f32 : string -> option Z; hex_decode : string -> option bytes }.

Definition OID_INT2 : Z := 21.
Definition OID_INT4 : Z := 23.
Definition OID_FLOAT4 : Z := 700.
Definition OID_BYTEA : Z := 17.

Definition supports_binary (type_oid : Z) : bool :=
  existsb (Z.eqb type_oid) [OID_INT8; OID_INT4; OID_INT2; OID_FLOAT8; OID_FLOAT4; OID_BOOL; OID_TEXT; OID_BYTEA].

Section Cells.
  Context {wc : WireCrates}.

Definition strip_hex_prefix (s : string) : string :=
  match as_bytes s with
  | a :: b :: rest => if byte_eqb a (byte_of_Z 92) && byte_eqb b "x" then string_of_list_byte rest else s
  | _ => s
  end.

Definition text_cell_to_binary (text : bytes) (type_oid : Z) : option bytes :=
  if type_oid =? OID_INT8 then s ← from_utf8 text; i64_to_be <$> parse_signed (2 ^ 63 - 1) (as_bytes (trim s))
  else if type_oid =? OID_INT4 then s ← from_utf8 text; i32_to_be <$> parse_signed (2 ^ 31 - 1) (as_bytes (trim s))
  else if type_oid =? OID_INT2 then s ← from_utf8 text; i16_to_be <$> parse_signed (2 ^ 15 - 1) (as_bytes (trim s))
  else if type_oid =? OID_FLOAT8 then s ← from_utf8 text; u64_to_be <$> parse_float (trim s)
  else if type_oid =? OID_FLOAT4 then s ← from_utf8 text; u32_to_be <$> parse_f32 (trim s)
  else if type_oid =? OID_BOOL then
    if existsb (fun t => bool_decide (as_bytes t = text)) ["t"; "true"; "1"]%string then Some [Byte.x01]
    else if existsb (fun t => bool_decide (as_bytes t = text)) ["f"; "false"; "0"]%string then Some [Byte.x00]
    else None
  else if type_oid =? OID_TEXT then Some text
  else if type_oid =? OID_BYTEA then s ← from_utf8 text; hex_decode (strip_hex_prefix s)
  else None.

End Cells.

(** ** Messages of the client *)

Inductive FrontendMessage :=
| F_Query (query : string)
| F_Parse (name query : string) (param_types : list Z)
| F_Bind (portal stmt : string) (params : Row) (param_formats result_formats : list Z)
| F_Describe (kind : byte) (name : string)
| F_Execute (portal : string) (max_rows : Z)
| F_Close (kind : byte) (name : string)
| F_Sync
| F_Flush
| F_Terminate
| F_CancelRequest
| F_CopyData (data : bytes)
| F_CopyDone
| F_CopyFail (msg : string)
| F_PasswordData (data : bytes).

(** A read from a buffer: the value and what is left, or a panic. *)
Definition Get (A : Type) : Type := bytes -> option (A * bytes).

Definition get_int (n : nat) : Get Z := fun data =>
  if (length data <? n)%nat then None else Some (signed_from_be (8 * Z.of_nat n) (take n data), drop n data).
(** [if data.remaining() >= n { data.get_iN() } else { default }] *)
Definition get_int_or (n : nat) (dflt : Z) : Get Z := fun data => if (length data <? n)%nat then Some (dflt, data) else get_int n data.
Definition get_u8_or (dflt : byte) : Get byte := fun data => match data with b :: data' => Some (b, data') | [] => Some (dflt, []) end.

(** Up to the NUL, or everything where there is none. *)
Fixpoint cstr_split (buf : bytes) : bytes * bytes :=
  match buf with
  | [] => ([], [])
  | b :: buf' => if byte_eqb b Byte.x00 then ([], buf') else let '(s, rest) := cstr_split buf' in (b :: s, rest)
  end.
Definition read_cstr : Get string := fun buf => let '(s, rest) := cstr_split buf in Some (from_utf8_lossy s, rest).

Definition gbind {A B : Type} (m : Get A) (k : A -> Get B) : Get B := fun data => match m data with Some (a, rest) => k a rest | None => None end.
Definition gret {A : Type} (a : A) : Get A := fun data => Some (a, data).
Notation "'get' x '<-' m ';' k" := (gbind m (fun x => k)) (at level 10, x binder, m at level 100, k at level 200).

Fixpoint get_times {A : Type} (n : nat) (g : Get A) : Get (list A) :=
  match n with
  | O => gret []
  | S n' => get x <- g; get xs <- get_times n' g; gret (x :: xs)
  end.

(** [Vec::with_capacity(n as usize)] for an [i16], then [n] rounds: a negative
    count is no capacity. *)
Definition get_vec {A : Type} (g : Get A) : Get (list A) :=
  get n <- get_int_or 2 0;
  if n <? 0 then fun _ => None else get_times (Z.to_nat n) g.

(** A parameter of Bind: as many bytes as announced, or as there are. *)
Definition get_param : Get (option bytes) :=
  get len <- get_int_or 4 (- 1);
  if len <? 0 then gret None else fun data => Some (Some (take (Z.to_nat len) data), drop (Z.to_nat len) data).

Definition read_body (tag : byte) : Get FrontendMessage :=
  if byte_eqb tag "Q" then get q <- read_cstr; gret (F_Query q)
  else if byte_eqb tag "P" then get name <- read_cstr; get query <- read_cstr; get types <- get_vec (get_int 4); gret (F_Parse name query types)
  else if byte_eqb tag "B" then
    get portal <- read_cstr; get stmt <- read_cstr;
    get param_formats <- get_vec (get_int_or 2 0); get params <- get_vec get_param; get result_formats <- get_vec (get_int_or 2 0);
    gret (F_Bind portal stmt params param_formats result_formats)
  else if byte_eqb tag "D" then get kind <- get_u8_or "S"; get name <- read_cstr; gret (F_Describe kind name)
  else if byte_eqb tag "E" then get portal <- read_cstr; get max_rows <- get_int_or 4 0; gret (F_Execute portal max_rows)
  else if byte_eqb tag "C" then get kind <- get_u8_or "S"; get name <- read_cstr; gret (F_Close kind name)
  else if byte_eqb tag "S" then gret F_Sync
  else if byte_eqb tag "H" then gret F_Flush
  else if byte_eqb tag "X" then gret F_Terminate
  else if byte_eqb tag "d" then fun data => Some (F_CopyData data, [])
  else if byte_eqb tag "c" then gret F_CopyDone
  else if byte_eqb tag "f" then get msg <- read_cstr; gret (F_CopyFail msg)
  else if byte_eqb tag "p" then fun data => Some (F_PasswordData data, [])
  else gret F_Sync.

(** [fill]: the bytes come, or the client has closed the connection. *)
Definition fill {A : Type} (n : Z) (input : bytes) (k : Eval A) : Eval A := if zlen input <? n then fails "connection closed by client" else k.

(** [len as usize] of a negative length is a number near 2^64, and [1 + len]
    wraps around for -1. *)
Definition read_message (input : bytes) : Eval (FrontendMessage * bytes) :=
  fill 5 input
    (let tag := nth 0 input Byte.x00 in
     let len := signed_from_be 32 (take 4 (drop 1 input)) mod 2 ^ 64 in
     if len <? 4 then fails "invalid message length"
     else
       let total := (1 + len) mod 2 ^ 64 in
       fill total input
         (if total <? 5 then panics
          else match read_body tag (drop 5 (take (Z.to_nat total) input)) with
               | Some (msg, _) => done (msg, drop (Z.to_nat total) input)
               | None => panics
               end)).

(** *** Startup *)

Record StartupParams := mkStartupParams { sp_protocol_version : Z; sp_params : list (string * string) }.

(** The parameters: pairs up to an empty name; each takes a byte at least. *)
Fixpoint startup_pairs (fuel : nat) (data : bytes) : list (string * string) :=
  match fuel, data with
  | _, [] => []
  | O, _ => []
  | S fuel', _ =>
      let '(k, rest) := cstr_split data in
      if String.eqb (from_utf8_lossy k) "" then []
      else let '(v, rest') := cstr_split rest in (from_utf8_lossy k, from_utf8_lossy v) :: startup_pairs fuel' rest'
  end.

Definition SSL_REQUEST : Z := 80877103.
Definition CANCEL_REQUEST : Z := 80877102.

(** Every SSLRequest is declined with a byte [N] and the next message read; it
    takes eight bytes at least, so the length bounds the loop. *)
Fixpoint read_startup (fuel : nat) (input : bytes) : Eval (StartupParams * bytes * bytes) :=
  match fuel with
  | O => panics
  | S fuel' =>
      fill 4 input
        (let total := signed_from_be 32 (take 4 input) mod 2 ^ 64 in
         if (total <? 8) || (65535 <? total) then fails "invalid startup message length"
         else
           fill total input
             (let data := drop 4 (take (Z.to_nat total) input) in
              let rest := drop (Z.to_nat total) input in
              let protocol_version := signed_from_be 32 (take 4 data) in
              if protocol_version =? SSL_REQUEST then
                let* r := read_startup fuel' rest in let '(sp, rest', sent) := r in done (sp, rest', byte_of_Z 78 :: sent)
              else if protocol_version =? CANCEL_REQUEST then fails "cancel request not supported"
              else done (mkStartupParams protocol_version (startup_pairs (length data) (drop 4 data)), rest, [])))
  end.

(** ** The client's side *)

Definition vec_bytes {A : Type} (enc : A -> bytes) (l : list A) : bytes := i16_to_be (zlen l) ++ concat (map enc l).

(** What a client sends, by the documentation of the protocol. *)
Definition frontend_body (m : FrontendMessage) : byte * bytes :=
  match m with
  | F_Query q => (byte_of_Z 81, cstr q)
  | F_Parse name query types => (byte_of_Z 80, cstr name ++ cstr query ++ vec_bytes i32_to_be types)
  | F_Bind portal stmt params param_formats result_formats =>
      (byte_of_Z 66, cstr portal ++ cstr stmt ++ vec_bytes i16_to_be param_formats ++ vec_bytes column_bytes params ++ vec_bytes i16_to_be result_formats)
  | F_Describe kind name => (byte_of_Z 68, kind :: cstr name)
  | F_Execute portal max_rows => (byte_of_Z 69, cstr portal ++ i32_to_be max_rows)
  | F_Close kind name => (byte_of_Z 67, kind :: cstr name)
  | F_Sync => (byte_of_Z 83, [])
  | F_Flush => (byte_of_Z 72, [])
  | F_Terminate => (byte_of_Z 88, [])
  | F_CancelRequest => (byte_of_Z 0, [])
  | F_CopyData data => (byte_of_Z 100, data)
  | F_CopyDone => (byte_of_Z 99, [])
  | F_CopyFail msg => (byte_of_Z 102, cstr msg)
  | F_PasswordData data => (byte_of_Z 112, data)
  end.

Definition frontend_bytes (m : FrontendMessage) : bytes := let '(tag, body) := frontend_body m in write_msg tag body.

(** Text without NUL, numbers within their width, counts within theirs. *)
Definition wire_text (s : string) : Prop := is_string s /\ Forall (fun b => b <> Byte.x00) (as_bytes s).
Definition is_i16 (z : Z) : Prop := - 2 ^ 15 <= z < 2 ^ 15.
Definition is_i32 (z : Z) : Prop := - 2 ^ 31 <= z < 2 ^ 31.
Definition wire_vec {A : Type} (P : A -> Prop) (l : list A) : Prop := zlen l < 2 ^ 15 /\ Forall P l.

Definition sendable (m : FrontendMessage) : Prop :=
  zlen (snd (frontend_body m)) < 2 ^ 31 - 4
  /\ match m with
     | F_Query s | F_Describe _ s | F_Close _ s | F_CopyFail s => wire_text s
     | F_Parse name query types => wire_text name /\ wire_text query /\ wire_vec is_i32 types
     | F_Bind portal stmt params pf rf => wire_text portal /\ wire_text stmt /\ wire_vec cell_fits params /\ wire_vec is_i16 pf /\ wire_vec is_i16 rf
     | F_Execute portal max_rows => wire_text portal /\ is_i32 max_rows
     | F_CancelRequest => False
     | _ => True
     end.

(** ** Reading what was written *)

(** [g] reads [x] from [enc], whatever is behind it. *)
Definition reads_from {A : Type} (g : Get A) (enc : bytes) (x : A) : Prop := forall rest, g (enc ++ rest) = Some (x, rest).

Lemma signed_to_be (n : nat) (z : Z) : (0 < n)%nat -> - 2 ^ (8 * Z.of_nat n - 1) <= z < 2 ^ (8 * Z.of_nat n - 1) ->
  signed_from_be (8 * Z.of_nat n) (to_be n (z mod 2 ^ (8 * Z.of_nat n))) = z.
Proof.
  intros Hn Hz. unfold signed_from_be. rewrite from_to_be, Z.mod_mod by lia.
  assert (2 ^ (8 * Z.of_nat n) = 2 * 2 ^ (8 * Z.of_nat n - 1)) as E by (rewrite <- Z.pow_succ_r by lia; f_equal; lia).
  set (w := 2 ^ (8 * Z.of_nat n - 1)) in *. rewrite E. destruct (Z_lt_le_dec z 0) as [Hneg|Hpos].
  - replace (z mod (2 * w)) with (z + 2 * w); [destruct (Z.ltb_spec (z + 2 * w) w); lia|].
    apply (Z.mod_unique_pos _ _ (- 1)); lia.
  - rewrite Z.mod_small by lia. destruct (Z.ltb_spec z w); lia.
Qed.

Lemma get_int_reads (n : nat) (z : Z) : (0 < n)%nat -> - 2 ^ (8 * Z.of_nat n - 1) <= z < 2 ^ (8 * Z.of_nat n - 1) ->
  reads_from (get_int n) (to_be n (z mod 2 ^ (8 * Z.of_nat n))) z.
Proof.
  intros Hn Hz rest. unfold get_int. rewrite length_app, length_to_be. destruct (Nat.ltb_spec (n + length rest) n); [lia|].
  rewrite take_app_length', drop_app_length' by by rewrite length_to_be. by rewrite signed_to_be.
Qed.

Lemma get_int_or_reads (n : nat) (dflt z : Z) : (0 < n)%nat -> - 2 ^ (8 * Z.of_nat n - 1) <= z < 2 ^ (8 * Z.of_nat n - 1) ->
  reads_from (get_int_or n dflt) (to_be n (z mod 2 ^ (8 * Z.of_nat n))) z.
Proof.
  intros Hn Hz rest. unfold get_int_or. rewrite length_app, length_to_be. destruct (Nat.ltb_spec (n + length rest) n); [lia|]. by apply get_int_reads.
Qed.

Lemma i16_reads (dflt z : Z) : is_i16 z -> reads_from (get_int_or 2 dflt) (i16_to_be z) z.
Proof. intros H. by apply get_int_or_reads; [lia | exact H]. Qed.
Lemma i32_reads (z : Z) : is_i32 z -> reads_from (get_int 4) (i32_to_be z) z.
Proof. intros H. by apply get_int_reads; [lia | exact H]. Qed.
Lemma i32_or_reads (dflt z : Z) : is_i32 z -> reads_from (get_int_or 4 dflt) (i32_to_be z) z.
Proof. intros H. by apply get_int_or_reads; [lia | exact H]. Qed.

Lemma cstr_split_app (s rest : bytes) : Forall (fun b => b <> Byte.x00) s -> cstr_split (s ++ Byte.x00 :: rest) = (s, rest).
Proof.
  induction 1 as [|b s Hb _ IH]; cbn [cstr_split app]; [done|]. destruct (byte_eqb b Byte.x00) eqn:E; [by apply byte_eqb_true in E|]. by rewrite IH.
Qed.

Lemma cstr_reads (s : string) : wire_text s -> reads_from read_cstr (cstr s) s.
Proof.
  intros [Hs Hn] rest. unfold read_cstr, cstr. rewrite <- app_assoc. cbn [app]. rewrite cstr_split_app by done. by rewrite from_utf8_lossy_as_bytes.
Qed.

Lemma bind_reads {A B : Type} (g : Get A) (k : A -> Get B) (a b : bytes) (x : A) (y : B) :
  reads_from g a x -> reads_from (k x) b y -> reads_from (gbind g k) (a ++ b) y.
Proof. intros Hg Hk rest. unfold gbind. rewrite <- app_assoc, Hg. apply Hk. Qed.

Lemma ret_reads {A : Type} (x : A) : reads_from (gret x) [] x.
Proof. done. Qed.

Lemma last_reads {A B : Type} (g : Get A) (f : A -> B) (a : bytes) (x : A) : reads_from g a x -> reads_from (gbind g (fun x => gret (f x))) a (f x).
Proof. intros Hg. rewrite <- (app_nil_r a). by eapply bind_reads. Qed.

Lemma times_reads {A : Type} (g : Get A) (enc : A -> bytes) (l : list A) :
  Forall (fun x => reads_from g (enc x) x) l -> reads_from (get_times (length l) g) (concat (map enc l)) l.
Proof.
  induction 1 as [|x l Hx _ IH]; [done|]. cbn [length get_times map concat]. eapply bind_reads; [exact Hx|]. by apply last_reads.
Qed.

Lemma vec_reads {A : Type} (g : Get A) (enc : A -> bytes) (P : A -> Prop) (l : list A) :
  (forall x, P x -> reads_from g (enc x) x) -> wire_vec P l -> reads_from (get_vec g) (vec_bytes enc l) l.
Proof.
  intros Hg [Hl HP]. unfold vec_bytes, get_vec. pose proof (zlen_nonneg l). eapply bind_reads; [apply i16_reads; unfold is_i16; lia|].
  destruct (Z.ltb_spec (zlen l) 0); [lia|]. replace (Z.to_nat (zlen l)) with (length l) by (unfold zlen; lia). apply times_reads.
  eapply Forall_impl; [exact HP | exact Hg].
Qed.

Lemma param_reads (c : option bytes) : cell_fits c -> reads_from get_param (column_bytes c) c.
Proof.
  intros Hc. unfold get_param. destruct c as [data|]; cbn [column_bytes cell_fits] in *.
  - pose proof (zlen_nonneg data). eapply bind_reads; [apply i32_or_reads; unfold is_i32; lia|]. destruct (Z.ltb_spec (zlen data) 0); [lia|].
    intros rest. unfold zlen. by rewrite Nat2Z.id, take_app_length, drop_app_length.
  - rewrite <- (app_nil_r (i32_to_be (- 1))). eapply bind_reads; [apply i32_or_reads; unfold is_i32; lia|]. done.
Qed.

Lemma u8_reads (dflt b : byte) : reads_from (get_u8_or dflt) [b] b.
Proof. done. Qed.

(** Decides the tests of a tag that is known. *)
Ltac known_tag :=
  unfold read_body;
  repeat match goal with |- context [if byte_eqb ?a ?b then _ else _] => let r := eval vm_compute in (byte_eqb a b) in change (byte_eqb a b) with r; cbv iota end.

(** The body of every message is read as it was meant. *)
Lemma body_reads (m : FrontendMessage) : sendable m -> exists rest, read_body (fst (frontend_body m)) (snd (frontend_body m)) = Some (m, rest).
Proof.
  assert (forall g enc, reads_from g enc m -> exists rest, g enc = Some (m, rest)) as Hend.
  { intros g enc H. exists []. rewrite <- (app_nil_r enc) at 1. apply H. }
  intros [_ H]. destruct m; cbn [frontend_body fst snd] in *; known_tag; try done; try (by eexists); try apply Hend.
  - by apply (last_reads _ F_Query), cstr_reads.
  - destruct H as (Hn & Hq & Ht). eapply bind_reads; [by apply cstr_reads|]. eapply bind_reads; [by apply cstr_reads|].
    apply (last_reads _ (fun types => F_Parse name query types)), (vec_reads _ _ is_i32); [apply i32_reads | done].
  - destruct H as (Hp & Hs & Hps & Hpf & Hrf). eapply bind_reads; [by apply cstr_reads|]. eapply bind_reads; [by apply cstr_reads|].
    eapply bind_reads; [apply (vec_reads _ _ is_i16); [apply i16_reads | done]|]. eapply bind_reads; [apply (vec_reads _ _ cell_fits); [apply param_reads | done]|].
    apply (last_reads _ (fun rf => F_Bind portal stmt params param_formats rf)), (vec_reads _ _ is_i16); [apply i16_reads | done].
  - eapply (bind_reads _ _ [kind]); [apply u8_reads|]. by apply (last_reads _ (fun n => F_Describe kind n)), cstr_reads.
  - destruct H as [Hp Hm]. eapply bind_reads; [by apply cstr_reads|]. by apply (last_reads _ (fun n => F_Execute portal n)), i32_or_reads.
  - eapply (bind_reads _ _ [kind]); [apply u8_reads|]. by apply (last_reads _ (fun n => F_Close kind n)), cstr_reads.
  - by apply (last_reads _ F_CopyFail), cstr_reads.
Qed.

Lemma read_message_frame (tag : byte) (body rest : bytes) (m : FrontendMessage) (left : bytes) :
  zlen body < 2 ^ 31 - 4 -> read_body tag body = Some (m, left) -> read_message (write_msg tag body ++ rest) = done (m, rest).
Proof.
  intros Hl Hb. pose proof (zlen_nonneg body). pose proof (zlen_nonneg rest). unfold read_message, write_msg. cbn [app nth drop]. rewrite ?drop_0.
  assert (length (i32_to_be (4 + zlen body)) = 4%nat) as H4 by (unfold i32_to_be; by rewrite length_to_be).
  assert (take 4 ((i32_to_be (4 + zlen body) ++ body) ++ rest) = i32_to_be (4 + zlen body)) as ->.
  { rewrite <- app_assoc. by rewrite take_app_length'. }
  assert (signed_from_be 32 (i32_to_be (4 + zlen body)) = 4 + zlen body) as ->.
  { apply (signed_to_be 4 (4 + zlen body)); [lia|]. change (8 * Z.of_nat 4 - 1) with 31. lia. }
  assert (zlen (tag :: (i32_to_be (4 + zlen body) ++ body) ++ rest) = 5 + zlen body + zlen rest) as Hz.
  { rewrite zlen_cons, !zlen_app. unfold zlen at 1. rewrite H4. lia. }
  unfold fill. rewrite Hz. destruct (Z.ltb_spec (5 + zlen body + zlen rest) 5); [lia|]. rewrite (Z.mod_small (4 + zlen body)) by lia.
  destruct (Z.ltb_spec (4 + zlen body) 4); [lia|]. rewrite Z.mod_small by lia. destruct (Z.ltb_spec (5 + zlen body + zlen rest) (1 + (4 + zlen body))); [lia|].
  destruct (Z.ltb_spec (1 + (4 + zlen body)) 5); [lia|].
  assert (length (tag :: i32_to_be (4 + zlen body) ++ body) = Z.to_nat (1 + (4 + zlen body))) as Ht.
  { cbn [length]. rewrite length_app, H4. unfold zlen. lia. }
  change (tag :: (i32_to_be (4 + zlen body) ++ body) ++ rest) with ((tag :: i32_to_be (4 + zlen body) ++ body) ++ rest).
  rewrite take_app_length', drop_app_length' by done. change (drop 5 (tag :: i32_to_be (4 + zlen body) ++ body)) with (drop 4 (i32_to_be (4 + zlen body) ++ body)).
  rewrite drop_app_length' by done. by rewrite Hb.
Qed.

(** A sequence of messages, and what is left of the input behind them. *)
Fixpoint read_messages (n : nat) (input : bytes) : Eval (list FrontendMessage * bytes) :=
  match n with
  | O => done ([], input)
  | S n' => let* r := read_message input in let* q := read_messages n' (snd r) in done (fst r :: fst q, snd q)
  end.

(** C39. The server reads what clients send. Any sequence of messages, queries,
    prepared statements with their parameters, portals and COPY data among them,
    is read back as it was sent, message by message, and no byte of what follows
    is touched. *)
Theorem frontend_messages_roundtrip (ms : list FrontendMessage) (rest : bytes) :
  Forall sendable ms -> read_messages (length ms) (concat (map frontend_bytes ms) ++ rest) = done (ms, rest).
Proof.
  induction 1 as [|m ms Hm _ IH]; [done|]. cbn [length read_messages map concat]. rewrite <- app_assoc.
  destruct (body_reads m Hm) as [left Hb]. unfold frontend_bytes at 1. destruct (frontend_body m) as [tag body] eqn:E. cbn [fst snd] in Hb.
  rewrite (read_message_frame tag body _ m left); [|destruct Hm as [Hl _]; by rewrite E in Hl | done]. cbn [ebind done fst snd]. by rewrite IH.
Qed.

(** ** What a client reads *)

Definition get_rest : Get bytes := fun data => Some (data, []).
Definition get_byte : Get byte := fun data => match data with b :: data' => Some (b, data') | [] => None end.
Definition get_fail {A : Type} : Get A := fun _ => None.

(** Strings up to an empty one. *)
Fixpoint get_strings (fuel : nat) : Get (list string) :=
  match fuel with
  | O => get_fail
  | S fuel' => get s <- read_cstr; if String.eqb s "" then gret [] else get ss <- get_strings fuel'; gret (s :: ss)
  end.

(** Fields of an error or a notice up to a NUL: a code and its text. *)
Fixpoint get_fields (fuel : nat) : Get (list (byte * string)) :=
  match fuel with
  | O => get_fail
  | S fuel' => get c <- get_byte; if byte_eqb c Byte.x00 then gret [] else get s <- read_cstr; get fs <- get_fields fuel'; gret ((c, s) :: fs)
  end.

Definition field_of (c : byte) (fs : list (byte * string)) : string := default EmptyString (snd <$> List.find (fun f => byte_eqb (fst f) c) fs).

Definition get_field_description : Get FieldDescription :=
  get name <- read_cstr; get table_oid <- get_int 4; get col_attr <- get_int_or 2 0; get type_oid <- get_int 4;
  get type_size <- get_int_or 2 0; get type_modifier <- get_int 4; get format <- get_int_or 2 0;
  gret (mkFieldDescription name table_oid col_attr type_oid type_size type_modifier format).

Definition get_status : Get TransactionStatus :=
  get b <- get_byte;
  if byte_eqb b "I" then gret Status_Idle else if byte_eqb b "T" then gret Status_InTransaction else if byte_eqb b "E" then gret Status_Failed else get_fail.

Definition get_copy_columns : Get nat := get f <- get_byte; get formats <- get_vec (get_int_or 2 0); gret (length formats).

Definition get_authentication (fuel : nat) : Get BackendMessage :=
  get code <- get_int 4;
  if code =? 0 then gret B_AuthenticationOk
  else if code =? 10 then get ms <- get_strings fuel; gret (B_AuthenticationSASL ms)
  else if code =? 11 then get d <- get_rest; gret (B_AuthenticationSASLContinue d)
  else if code =? 12 then get d <- get_rest; gret (B_AuthenticationSASLFinal d)
  else get_fail.

(** By the documentation of the protocol. *)
Definition backend_read (fuel : nat) (tag : byte) : Get BackendMessage :=
  if byte_eqb tag "R" then get_authentication fuel
  else if byte_eqb tag "S" then get n <- read_cstr; get v <- read_cstr; gret (B_ParameterStatus n v)
  else if byte_eqb tag "K" then get p <- get_int 4; get s <- get_int 4; gret (B_BackendKeyData p s)
  else if byte_eqb tag "Z" then get s <- get_status; gret (B_ReadyForQuery s)
  else if byte_eqb tag "T" then get fs <- get_vec get_field_description; gret (B_RowDescription fs)
  else if byte_eqb tag "D" then get cols <- get_vec get_param; gret (B_DataRow cols)
  else if byte_eqb tag "C" then get t <- read_cstr; gret (B_CommandComplete t)
  else if byte_eqb tag "E" then get fs <- get_fields fuel; gret (B_ErrorResponse (mkErrorInfo (field_of "S" fs) (field_of "C" fs) (field_of "M" fs)))
  else if byte_eqb tag "I" then gret B_EmptyQueryResponse
  else if byte_eqb tag "N" then get fs <- get_fields fuel; gret (B_NoticeResponse (field_of "M" fs))
  else if byte_eqb tag "1" then gret B_ParseComplete
  else if byte_eqb tag "2" then gret B_BindComplete
  else if byte_eqb tag "3" then gret B_CloseComplete
  else if byte_eqb tag "t" then get ts <- get_vec (get_int 4); gret (B_ParameterDescription ts)
  else if byte_eqb tag "n" then gret B_NoData
  else if byte_eqb tag "s" then gret B_PortalSuspended
  else if byte_eqb tag "A" then get p <- get_int 4; get c <- read_cstr; get l <- read_cstr; gret (B_NotificationResponse p c l)
  else if byte_eqb tag "G" then get n <- get_copy_columns; gret (B_CopyInResponse n)
  else if byte_eqb tag "H" then get n <- get_copy_columns; gret (B_CopyOutResponse n)
  else if byte_eqb tag "d" then get d <- get_rest; gret (B_CopyData d)
  else if byte_eqb tag "c" then gret B_CopyDone
  else get_fail.

(** A frame, and its message. *)
Definition client_read : Get BackendMessage := fun input =>
  match input with
  | tag :: rest =>
      if (length rest <? 4)%nat then None
      else
        let len := Z.to_nat (signed_from_be 32 (take 4 rest) - 4) in
        let body := take len (drop 4 rest) in
        match backend_read (length body) tag body with Some (m, _) => Some (m, drop len (drop 4 rest)) | None => None end
  | [] => None
  end.

Definition field_ok (f : FieldDescription) : Prop :=
  wire_text (fd_name f) /\ is_i32 (fd_table_oid f) /\ is_i16 (fd_col_attr f) /\ is_i32 (fd_type_oid f)
  /\ is_i16 (fd_type_size f) /\ is_i32 (fd_type_modifier f) /\ is_i16 (fd_format f).

(** Text without NUL, numbers within their width, bodies below 2 GiB. *)
Definition backend_ok (m : BackendMessage) : Prop :=
  zlen (encode_message m) < 2 ^ 31
  /\ match m with
     | B_AuthenticationSASL ms => Forall (fun s => wire_text s /\ s <> EmptyString) ms
     | B_ParameterStatus n v => wire_text n /\ wire_text v
     | B_BackendKeyData p s => is_i32 p /\ is_i32 s
     | B_RowDescription fs => wire_vec field_ok fs
     | B_DataRow cols => wire_vec cell_fits cols
     | B_CommandComplete t => wire_text t
     | B_ErrorResponse e => wire_text (ei_severity e) /\ wire_text (ei_code e) /\ wire_text (ei_message e)
     | B_NoticeResponse t => wire_text t
     | B_ParameterDescription ts => wire_vec is_i32 ts
     | B_NotificationResponse p c l => is_i32 p /\ wire_text c /\ wire_text l
     | B_CopyInResponse n | B_CopyOutResponse n => Z.of_nat n < 2 ^ 15
     | _ => True
     end.

Lemma if_reads {A : Type} (b : bool) (g h : Get A) (enc : bytes) (x : A) (v : bool) :
  b = v -> reads_from (if v then g else h) enc x -> reads_from (if b then g else h) enc x.
Proof. by intros ->. Qed.

Lemma byte_reads (b : byte) : reads_from get_byte [b] b. Proof. done. Qed.

Lemma strings_read (fuel : nat) (ms : list string) :
  (length ms < fuel)%nat -> Forall (fun s => wire_text s /\ s <> EmptyString) ms -> reads_from (get_strings fuel) (concat (map cstr ms) ++ [Byte.x00]) ms.
Proof.
  intros Hf Hms. revert fuel Hf. induction Hms as [|s ms [Hs Hne] _ IH]; intros [|fuel] Hf; cbn [length] in Hf; try lia; cbn [get_strings map concat].
  - eapply (bind_reads read_cstr _ (cstr EmptyString) []); [by apply cstr_reads|]. done.
  - rewrite <- app_assoc. eapply bind_reads; [by apply cstr_reads|]. eapply (if_reads _ _ _ _ _ false); [by apply String.eqb_neq|]. apply last_reads, IH. lia.
Qed.

Lemma fields_read (fuel : nat) (fs : list (byte * string)) :
  (length fs < fuel)%nat -> Forall (fun f => fst f <> Byte.x00 /\ wire_text (snd f)) fs ->
  reads_from (get_fields fuel) (concat (map (fun f => fst f :: cstr (snd f)) fs) ++ [Byte.x00]) fs.
Proof.
  intros Hf Hfs. revert fuel Hf. induction Hfs as [|[c s] fs [Hc Hs] _ IH]; intros [|fuel] Hf; cbn [length] in Hf; try lia; cbn [get_fields map concat fst snd] in *.
  - eapply (bind_reads get_byte _ [Byte.x00] []); [apply byte_reads|]. done.
  - change ((c :: cstr s) ++ ?l) with ([c] ++ cstr s ++ l). rewrite <- !app_assoc. eapply bind_reads; [apply byte_reads|].
    eapply (if_reads _ _ _ _ _ false); [destruct (byte_eqb c Byte.x00) eqn:E; [by apply byte_eqb_true in E | done]|].
    eapply bind_reads; [by apply cstr_reads|]. apply last_reads, IH. lia.
Qed.

Lemma field_reads (f : FieldDescription) : field_ok f -> reads_from get_field_description (field_bytes f) f.
Proof.
  intros (H1 & H2 & H3 & H4 & H5 & H6 & H7). unfold get_field_description, field_bytes.
  eapply bind_reads; [by apply cstr_reads|]. eapply bind_reads; [by apply i32_reads|]. eapply bind_reads; [by apply i16_reads|].
  eapply bind_reads; [by apply i32_reads|]. eapply bind_reads; [by apply i16_reads|]. eapply bind_reads; [by apply i32_reads|].
  destruct f as [a b c d e g h]. cbn [fd_name fd_table_oid fd_col_attr fd_type_oid fd_type_size fd_type_modifier fd_format] in *.
  by apply (last_reads _ (fun h => mkFieldDescription a b c d e g h)), i16_reads.
Qed.

Lemma copy_columns_read (n : nat) : Z.of_nat n < 2 ^ 15 ->
  reads_from get_copy_columns ([Byte.x00] ++ i16_to_be (Z.of_nat n) ++ concat (replicate n (i16_to_be 0))) n.
Proof.
  intros Hn. unfold get_copy_columns. eapply bind_reads; [apply byte_reads|].
  assert (i16_to_be (Z.of_nat n) ++ concat (replicate n (i16_to_be 0)) = vec_bytes i16_to_be (replicate n 0)) as ->.
  { unfold vec_bytes, zlen. rewrite length_replicate. do 2 f_equal. clear Hn. induction n as [|n IH]; [done|]. cbn. by rewrite IH. }
  pose proof (last_reads (get_vec (get_int_or 2 0)) length (vec_bytes i16_to_be (replicate n 0)) (replicate n 0)) as Hr. rewrite length_replicate in Hr.
  apply Hr, (vec_reads _ _ is_i16); [apply i16_reads|].
  split; [unfold zlen; by rewrite length_replicate|]. apply Forall_replicate. unfold is_i16. lia.
Qed.

Definition split_msg (m : BackendMessage) : byte * bytes :=
  match encode_message m with tag :: rest => (tag, drop 4 rest) | [] => (Byte.x00, []) end.

Lemma write_msg_split (tag : byte) (body : bytes) : drop 4 (i32_to_be (4 + zlen body) ++ body) = body.
Proof. apply drop_app_length'. unfold i32_to_be. by rewrite length_to_be. Qed.

Lemma encode_message_split (m : BackendMessage) : encode_message m = write_msg (fst (split_msg m)) (snd (split_msg m)).
Proof.
  assert (forall tag body, (match write_msg tag body with tag :: rest => (tag, drop 4 rest) | [] => (Byte.x00, []) end) = (tag, body)) as Hs.
  { intros tag body. unfold write_msg. by rewrite write_msg_split. }
  unfold split_msg. destruct m; cbn [encode_message]; unfold write_copy_response; by rewrite Hs.
Qed.

Ltac backend_tag :=
  unfold backend_read;
  repeat match goal with |- context [if byte_eqb ?a ?b then _ else _] => let r := eval vm_compute in (byte_eqb a b) in change (byte_eqb a b) with r; cbv iota end.

(** A field takes two bytes at least, so the length is fuel enough. *)
Lemma strings_fuel (ms : list string) : (length ms < length (i32_to_be 10 ++ concat (map cstr ms) ++ [Byte.x00]))%nat.
Proof.
  rewrite !length_app. assert (length ms <= length (concat (map cstr ms)))%nat; [|cbn; lia].
  induction ms as [|s ms IH]; [done|]. cbn [map concat length]. rewrite length_app. unfold cstr at 1. rewrite length_app. cbn. lia.
Qed.

Lemma fields_fuel (fs : list (byte * string)) : (length fs < length (concat (map (fun f => fst f :: cstr (snd f)) fs) ++ [Byte.x00]))%nat.
Proof.
  rewrite length_app. assert (length fs <= length (concat (map (fun f => fst f :: cstr (snd f)) fs)))%nat; [|cbn; lia].
  induction fs as [|f fs IH]; [done|]. cbn [map concat length]. rewrite length_app. cbn [length]. lia.
Qed.

Lemma backend_reads (m : BackendMessage) :
  backend_ok m -> exists rest, backend_read (length (snd (split_msg m))) (fst (split_msg m)) (snd (split_msg m)) = Some (m, rest).
Proof.
  intros [_ H]. assert (forall g enc, reads_from g enc m -> exists rest, g enc = Some (m, rest)) as Hend.
  { intros g enc Hr. exists []. rewrite <- (app_nil_r enc) at 1. apply Hr. }
  assert (forall tag body, encode_message m = write_msg tag body -> split_msg m = (tag, body)) as Hs.
  { intros tag body E. unfold split_msg. rewrite E. unfold write_msg. by rewrite write_msg_split. }
  destruct m; cbn [encode_message] in Hs; unfold write_copy_response in Hs; rewrite (Hs _ _ eq_refl); clear Hs; cbn [fst snd]; backend_tag; try (by eexists).
  - apply Hend. unfold get_authentication. eapply bind_reads; [apply i32_reads; unfold is_i32; lia|]. cbn [Z.eqb Pos.eqb].
    apply (last_reads _ B_AuthenticationSASL), strings_read; [apply strings_fuel | done].
  - apply Hend. destruct H. eapply bind_reads; [by apply cstr_reads|]. by apply (last_reads _ (fun v => B_ParameterStatus name v)), cstr_reads.
  - apply Hend. destruct H. eapply bind_reads; [by apply i32_reads|]. by apply (last_reads _ (fun v => B_BackendKeyData pid v)), i32_reads.
  - exists []. destruct status; vm_compute; reflexivity.
  - apply Hend. by apply (last_reads _ B_RowDescription), (vec_reads _ _ field_ok); [apply field_reads|].
  - apply Hend. by apply (last_reads _ B_DataRow), (vec_reads _ _ cell_fits); [apply param_reads|].
  - apply Hend. by apply (last_reads _ B_CommandComplete), cstr_reads.
  - apply Hend. destruct H as (H1 & H2 & H3), e as [sev code msg]. cbn [ei_severity ei_code ei_message] in *.
    set (fs := [(byte_of_Z 83, sev); (byte_of_Z 86, sev); (byte_of_Z 67, code); (byte_of_Z 77, msg)]).
    match goal with |- reads_from (gbind (get_fields (length ?b)) _) ?b _ =>
      assert (b = concat (map (fun f => fst f :: cstr (snd f)) fs) ++ [Byte.x00]) as -> by (unfold fs; cbn [map concat fst snd]; by rewrite <- !app_assoc) end.
    eapply (last_reads _ (fun fs => B_ErrorResponse (mkErrorInfo (field_of "S" fs) (field_of "C" fs) (field_of "M" fs)))  _ fs), fields_read; [apply fields_fuel|].
    unfold fs. repeat (apply List.Forall_cons; [split; [by vm_compute | done]|]). apply List.Forall_nil.
  - apply Hend. set (fs := [(byte_of_Z 77, msg)]).
    match goal with |- reads_from (gbind (get_fields (length ?b)) _) ?b _ =>
      assert (b = concat (map (fun f => fst f :: cstr (snd f)) fs) ++ [Byte.x00]) as -> by (unfold fs; cbn [map concat fst snd app]; by rewrite app_nil_r) end.
    eapply (last_reads _ (fun fs => B_NoticeResponse (field_of "M" fs)) _ fs), fields_read; [apply fields_fuel|].
    unfold fs. repeat (apply List.Forall_cons; [split; [by vm_compute | done]|]). apply List.Forall_nil.
  - apply Hend. by apply (last_reads _ B_ParameterDescription), (vec_reads _ _ is_i32); [apply i32_reads|].
  - apply Hend. destruct H as (H1 & H2 & H3). eapply bind_reads; [by apply i32_reads|]. eapply bind_reads; [by apply cstr_reads|].
    by apply (last_reads _ (fun v => B_NotificationResponse pid channel v)), cstr_reads.
  - apply Hend. by apply (last_reads _ B_CopyInResponse), copy_columns_read.
  - apply Hend. by apply (last_reads _ B_CopyOutResponse), copy_columns_read.
Qed.

(** Clients read what the server sends. Any sequence of the server's messages
    is taken apart by a client into the same messages, row descriptions, rows
    with their NULLs, errors and notices with their fields among them. *)
Theorem backend_messages_roundtrip (ms : list BackendMessage) (rest : bytes) :
  Forall backend_ok ms -> get_times (length ms) client_read (concat (map encode_message ms) ++ rest) = Some (ms, rest).
Proof.
  intros H. apply (times_reads client_read encode_message ms). eapply Forall_impl; [exact H|]. clear. intros m Hm rest.
  destruct (backend_reads m Hm) as [left Hr]. destruct Hm as [Hl _]. rewrite encode_message_split in *. destruct (split_msg m) as [tag body]. cbn [fst snd] in *.
  unfold write_msg in *. rewrite zlen_cons, zlen_app in Hl. assert (length (i32_to_be (4 + zlen body)) = 4%nat) as H4 by (unfold i32_to_be; by rewrite length_to_be).
  unfold zlen at 1 in Hl. rewrite H4 in Hl.
  pose proof (zlen_nonneg body). unfold client_read. cbn [app]. rewrite <- app_assoc. rewrite length_app.
  destruct (Nat.ltb_spec (length (i32_to_be (4 + zlen body)) + length (body ++ rest)) 4); [lia|].
  rewrite take_app_length', drop_app_length' by done.
  assert (signed_from_be 32 (i32_to_be (4 + zlen body)) = 4 + zlen body) as ->.
  { apply (signed_to_be 4 (4 + zlen body)); [lia|]. change (8 * Z.of_nat 4 - 1) with 31. lia. }
  replace (Z.to_nat (4 + zlen body - 4)) with (length body) by (unfold zlen; lia). rewrite take_app_length, drop_app_length. by rewrite Hr.
Qed.

(** ** Binary integers *)

(** Bytes that are characters of their own and no white space. *)
Definition printable (b : byte) : Prop := 32 < Z_of_byte b < 128.

Lemma visible_char (b : byte) (bs : bytes) : printable b -> snd (utf8_head (b :: bs)) = 1%nat /\ is_whitespace [b] = false.
Proof. intros [H1 H2]. split; revert H1 H2; destruct b; vm_compute; done. Qed.

Lemma chars_visible (bs : bytes) (fuel : nat) : Forall printable bs -> (length bs <= fuel)%nat -> chars_fuel fuel bs = map (fun b => [b]) bs.
Proof.
  intros H. revert fuel. induction H as [|b bs Hb _ IH]; intros [|fuel] Hl; cbn [length] in Hl; try lia; try done.
  cbn [chars_fuel map]. rewrite (proj1 (visible_char b bs Hb)). cbn [take drop]. rewrite ?take_0, drop_0. f_equal. apply IH. lia.
Qed.

Lemma trim_start_visible (bs : bytes) : Forall printable bs -> trim_start_chars (map (fun b => [b]) bs) = map (fun b => [b]) bs.
Proof. intros H. destruct H as [|b bs Hb _]; [done|]. cbn [map trim_start_chars]. by rewrite (proj2 (visible_char b [] Hb)). Qed.

Lemma trim_visible (s : string) : Forall printable (as_bytes s) -> trim s = s.
Proof.
  intros H. unfold trim, chars. rewrite chars_visible, trim_start_visible by (done || lia). rewrite <- map_rev, trim_start_visible by by apply List.Forall_rev.
  rewrite <- map_rev, rev_involutive. replace (concat _) with (as_bytes s); [apply string_of_list_byte_of_string|].
  clear. induction (as_bytes s) as [|b bs IH]; [done|]. cbn [map concat app]. by f_equal.
Qed.

Lemma to_dec_visible (n : Z) : Forall printable (as_bytes (to_dec n)).
Proof.
  assert (forall d, 0 <= d < 10 -> printable (digit d)) as Hd by (intros d Hd; pose proof (digit_value d Hd); unfold printable; lia).
  rewrite as_bytes_to_dec. unfold dec_bytes. destruct (Z.ltb_spec n 0).
  - apply List.Forall_cons; [unfold printable; vm_compute; done|]. apply digits_forall; [exact Hd | lia | by apply List.Forall_nil].
  - apply digits_forall; [exact Hd | lia | by apply List.Forall_nil].
Qed.

Lemma parse_signed_to_dec (limit n : Z) : limit < 2 ^ 63 -> - limit - 1 <= n <= limit -> parse_signed limit (as_bytes (to_dec n)) = Some n.
Proof.
  intros Hl [H1 H2]. rewrite as_bytes_to_dec. unfold dec_bytes. assert (2 ^ 63 < 10 ^ 20) by done. destruct (Z.ltb_spec n 0) as [Hn|Hn].
  - pose proof (parse_digits_of 20 (- n) (limit + 1) ltac:(lia) ltac:(lia) ltac:(lia)) as Hp.
    destruct (digits_cons 20 (- n) [] ltac:(lia) ltac:(lia)) as (d & ds & Hd & Heq). unfold parse_signed.
    change (byte_eqb Byte.x2d Byte.x2d) with true. rewrite Heq in *. unfold parse_all. rewrite Hp. simpl. f_equal. lia.
  - apply parse_unsigned_digits; lia.
Qed.

(** The width of an integer type. *)
Definition int_width (type_oid : Z) : option nat :=
  if type_oid =? OID_INT8 then Some 8%nat else if type_oid =? OID_INT4 then Some 4%nat else if type_oid =? OID_INT2 then Some 2%nat else None.

(** A binary integer cell has the width of its type and the value of its text. *)
Lemma binary_integers `{WireCrates} (type_oid n : Z) (w : nat) :
  int_width type_oid = Some w -> - 2 ^ (8 * Z.of_nat w - 1) <= n < 2 ^ (8 * Z.of_nat w - 1) ->
  exists bs, text_cell_to_binary (as_bytes (to_dec n)) type_oid = Some bs /\ length bs = w /\ signed_from_be (8 * Z.of_nat w) bs = n.
Proof.
  intros Hw Hn. assert (from_utf8 (as_bytes (to_dec n)) = Some (to_dec n)) as Hu by (apply from_utf8_as_bytes, is_string_to_dec).
  pose proof (trim_visible _ (to_dec_visible n)) as Ht. exists (to_be w (n mod 2 ^ (8 * Z.of_nat w))). rewrite length_to_be.
  assert (0 < w <= 8)%nat as Hw8 by (unfold int_width in Hw; destruct (type_oid =? OID_INT8); [|destruct (type_oid =? OID_INT4); [|destruct (type_oid =? OID_INT2); [|done]]]; injection Hw as <-; lia).
  split; [|split; [done | apply signed_to_be; lia]].
  unfold int_width in Hw. unfold text_cell_to_binary. destruct (type_oid =? OID_INT8) eqn:E8; [|destruct (type_oid =? OID_INT4) eqn:E4; [|destruct (type_oid =? OID_INT2); [|done]]];
    injection Hw as <-; rewrite Hu; cbn [mbind option_bind]; rewrite Ht, parse_signed_to_dec by lia; done.
Qed.

(** ** Broken messages *)

(** A Parse that announces a parameter type and has none, and a Bind with a
    count below zero, panic, and so does a length of -1. *)
Lemma broken_messages_panic :
  read_message (write_msg (byte_of_Z 80) (cstr "s" ++ cstr "SELECT 1" ++ i16_to_be 1)) = panics
  /\ read_message (write_msg (byte_of_Z 66) (cstr EmptyString ++ cstr "s" ++ i16_to_be (- 1))) = panics
  /\ read_message (byte_of_Z 81 :: i32_to_be (- 1)) = panics.
Proof. repeat split; vm_compute; reflexivity. Qed.

(** ** The round trips at work *)

Ltac wire_ok := repeat (split || apply List.Forall_cons || apply List.Forall_nil || (vm_compute; by (done || constructor))).

Example session_of_messages : list FrontendMessage :=
  [F_Parse "s" "SELECT $1" [23]; F_Bind EmptyString "s" [Some (as_bytes "7"); None] [0] [1]; F_Describe (byte_of_Z 80) EmptyString; F_Execute EmptyString 0; F_Sync].

Lemma frontend_messages_roundtrip_witness :
  read_messages 5 (concat (map frontend_bytes session_of_messages) ++ frontend_bytes F_Terminate) = done (session_of_messages, frontend_bytes F_Terminate).
Proof. apply (frontend_messages_roundtrip session_of_messages). wire_ok. Defined.

Example answer_of_messages : list BackendMessage :=
  [B_RowDescription [simple "n" OID_INT4]; B_DataRow [Some (as_bytes "7"); None]; B_CommandComplete "SELECT 1";
   B_ErrorResponse (error_new "42601" "syntax error"); B_ReadyForQuery Status_InTransaction].

Lemma backend_messages_roundtrip_witness :
  get_times 5 client_read (concat (map encode_message answer_of_messages) ++ []) = Some (answer_of_messages, []).
Proof. apply (backend_messages_roundtrip answer_of_messages). wire_ok. Defined.
