(* ===== verification/StmtCache.v ===== *)
(** The cache of parsed statements ([sql/cache.rs]), which every session of a
    node shares.

    A lookup and the insertion behind a miss are critical sections of their
    own, with the parse between them; [cache_reachable] is every state that the
    lookups and insertions of any number of sessions lead to, in any order.

    Theorems: whatever the sessions do, a cached parse answers as parsing does,
    errors included, and the cache stays within its bound; a statement that was
    just parsed is in the cache, and the one that had to go was the one that
    was not used for the longest time. *)

From Stdlib Require Import Strings.String ZArith Lia Bool.
From stdpp Require Import base list strings gmap.
From S2P Require Import Prelude OrdMap Utf8 Ast Lexer Parser Jsonb Float Values JsonOps Eval.

Open Scope Z_scope.
Open Scope eval_scope.

(** ** One table of the cache *)

(** [Entry] and [BatchEntry]: what was parsed, and when it was used. *)
Record Entry (A : Type) := mkEntry { en_value : A; en_last_access : Z }.
Arguments mkEntry {A}. Arguments en_value {A}. Arguments en_last_access {A}.

Section Table.
  Context {A : Type}.

(** [entries.iter().min_by_key(|(_, e)| e.last_access)] *)
Definition less_recent (a b : string * Entry A) : string * Entry A := if en_last_access (snd b) <? en_last_access (snd a) then b else a.
Definition oldest (es : gmap string (Entry A)) : option string :=
  match map_to_list es with
  | [] => None
  | e :: rest => Some (fst (fold_left less_recent rest e))
  end.

Definition evict (max_entries : Z) (es : gmap string (Entry A)) : gmap string (Entry A) :=
  if max_entries <? Z.of_nat (size es) then match oldest es with Some victim => delete victim es | None => es end else es.

End Table.

(** ** The cache *)

Record StatementCache := mkStatementCache {
  sc_max_entries : Z; sc_entries : gmap string (Entry Stmt); sc_batch_entries : gmap string (Entry (list Stmt));
  sc_clock : Z; sc_hits : Z; sc_misses : Z;
}.

Definition cache_new (max_entries : Z) : StatementCache := mkStatementCache max_entries ∅ ∅ 0 0 0.
(** [fetch_add(1)] on an [AtomicU64] *)
Definition fetch_add (n : Z) : Z := (n + 1) mod 2 ^ 64.

(** The first critical section of [parse] and the counter behind it. *)
Definition lookup_stmt (sql : string) (c : StatementCache) : StatementCache * option Stmt :=
  match sc_entries c !! sql with
  | Some e =>
      (mkStatementCache (sc_max_entries c) (<[sql := mkEntry (en_value e) (sc_clock c)]> (sc_entries c)) (sc_batch_entries c)
         (fetch_add (sc_clock c)) (fetch_add (sc_hits c)) (sc_misses c), Some (en_value e))
  | None =>
      (mkStatementCache (sc_max_entries c) (sc_entries c) (sc_batch_entries c) (sc_clock c) (sc_hits c) (fetch_add (sc_misses c)), None)
  end.

(** The second one. *)
Definition insert_stmt (sql : string) (stmt : Stmt) (c : StatementCache) : StatementCache :=
  mkStatementCache (sc_max_entries c) (evict (sc_max_entries c) (<[sql := mkEntry stmt (sc_clock c)]> (sc_entries c))) (sc_batch_entries c)
    (fetch_add (sc_clock c)) (sc_hits c) (sc_misses c).

Definition lookup_batch (sql : string) (c : StatementCache) : StatementCache * option (list Stmt) :=
  match sc_batch_entries c !! sql with
  | Some e =>
      (mkStatementCache (sc_max_entries c) (sc_entries c) (<[sql := mkEntry (en_value e) (sc_clock c)]> (sc_batch_entries c))
         (fetch_add (sc_clock c)) (fetch_add (sc_hits c)) (sc_misses c), Some (en_value e))
  | None =>
      (mkStatementCache (sc_max_entries c) (sc_entries c) (sc_batch_entries c) (sc_clock c) (sc_hits c) (fetch_add (sc_misses c)), None)
  end.

Definition insert_batch (sql : string) (stmts : list Stmt) (c : StatementCache) : StatementCache :=
  mkStatementCache (sc_max_entries c) (sc_entries c) (evict (sc_max_entries c) (<[sql := mkEntry stmts (sc_clock c)]> (sc_batch_entries c)))
    (fetch_add (sc_clock c)) (sc_hits c) (sc_misses c).

(** [stats]: entries, hits and misses. *)
Definition cache_stats (c : StatementCache) : nat * Z * Z := (size (sc_entries c), sc_hits c, sc_misses c).

Section Parse.
  Context {dbg : DebugFmt}.

(** [parse] and [parse_all]; a parse that fails leaves the cache alone. *)
Definition parse_cached (sql : string) (c : StatementCache) : StatementCache * Eval Stmt :=
  match lookup_stmt sql c with
  | (c', Some stmt) => (c', done stmt)
  | (c', None) => match sql_parse sql with Some (Ok stmt) => (insert_stmt sql stmt c', done stmt) | r => (c', r) end
  end.

Definition parse_all_cached (sql : string) (c : StatementCache) : StatementCache * Eval (list Stmt) :=
  match lookup_batch sql c with
  | (c', Some stmts) => (c', done stmts)
  | (c', None) => match sql_parse_all sql with Some (Ok stmts) => (insert_batch sql stmts c', done stmts) | r => (c', r) end
  end.

(** What the sessions do to the cache, between any two critical sections of one
    those of others. *)
Inductive cache_reachable (max_entries : Z) : StatementCache -> Prop :=
| reach_new : cache_reachable max_entries (cache_new max_entries)
| reach_lookup (c : StatementCache) (sql : string) : cache_reachable max_entries c -> cache_reachable max_entries (fst (lookup_stmt sql c))
| reach_insert (c : StatementCache) (sql : string) (stmt : Stmt) :
    cache_reachable max_entries c -> sql_parse sql = done stmt -> cache_reachable max_entries (insert_stmt sql stmt c)
| reach_lookup_batch (c : StatementCache) (sql : string) : cache_reachable max_entries c -> cache_reachable max_entries (fst (lookup_batch sql c))
| reach_insert_batch (c : StatementCache) (sql : string) (stmts : list Stmt) :
    cache_reachable max_entries c -> sql_parse_all sql = done stmts -> cache_reachable max_entries (insert_batch sql stmts c).

(** ** The table *)

Section TableFacts.
  Context {A : Type} (parse : string -> Eval A) (max_entries : Z).

(** Entries are what their text parses to, within the bound. *)
Definition table_ok (es : gmap string (Entry A)) : Prop :=
  map_Forall (fun sql e => parse sql = done (en_value e)) es /\ Z.of_nat (size es) <= max_entries.

Lemma fold_oldest (es : list (string * Entry A)) (e : string * Entry A) :
  let m := fold_left less_recent es e in In m (e :: es) /\ forall x, In x (e :: es) -> en_last_access (snd m) <= en_last_access (snd x).
Proof.
  revert e. induction es as [|e' es IH]; intros e; cbn [fold_left]; [split; [by left | by intros x [<-|[]]]|].
  destruct (IH (less_recent e e')) as [Hin Hmin]. pose proof (Hmin _ (or_introl eq_refl)) as Hm.
  assert (less_recent e e' = e \/ less_recent e e' = e') as Ho by (unfold less_recent; case_match; auto).
  assert (en_last_access (snd (less_recent e e')) <= en_last_access (snd e) /\ en_last_access (snd (less_recent e e')) <= en_last_access (snd e')) as [H1 H2].
  { unfold less_recent. case_match; lia. }
  split; [destruct Hin as [<-|Hin]; [destruct Ho as [->| ->]; [by left | right; by left] | right; by right]|].
  intros x [<-|[<-|Hx]]; [lia | lia |]. apply Hmin. by right.
Qed.

Lemma oldest_Some (es : gmap string (Entry A)) (k : string) :
  oldest es = Some k -> exists e, es !! k = Some e /\ forall k' e', es !! k' = Some e' -> en_last_access e <= en_last_access e'.
Proof.
  unfold oldest. destruct (map_to_list es) as [|e rest] eqn:E; [done|]. intros [= <-].
  destruct (fold_oldest rest e) as [Hin Hmin]. rewrite <- E in Hin, Hmin. destruct (fold_left less_recent rest e) as [k m]. exists m.
  split; [by apply elem_of_map_to_list, list_elem_of_In|]. intros k' e' He'. apply (Hmin (k', e')). by apply list_elem_of_In, elem_of_map_to_list.
Qed.

Lemma oldest_None (es : gmap string (Entry A)) : oldest es = None -> es = ∅.
Proof. unfold oldest. destruct (map_to_list es) eqn:E; [|done]. intros _. by apply map_to_list_empty_iff. Qed.

Lemma evict_subset (es : gmap string (Entry A)) : evict max_entries es ⊆ es.
Proof. unfold evict. destruct (max_entries <? _); [|done]. destruct (oldest es); [apply delete_subseteq | done]. Qed.

Lemma evict_size (es : gmap string (Entry A)) : 0 <= max_entries -> Z.of_nat (size es) <= max_entries + 1 -> Z.of_nat (size (evict max_entries es)) <= max_entries.
Proof.
  intros Hm Hs. unfold evict. destruct (Z.ltb_spec max_entries (Z.of_nat (size es))); [|lia]. destruct (oldest es) as [k|] eqn:E.
  - apply oldest_Some in E as (e & He & _). rewrite map_size_delete_Some by eauto. lia.
  - apply oldest_None in E. subst. rewrite map_size_empty in *. lia.
Qed.

Lemma insert_size (es : gmap string (Entry A)) (sql : string) (e : Entry A) : (size (<[sql := e]> es) <= S (size es))%nat.
Proof. rewrite map_size_insert. case_match; simpl; lia. Qed.

Lemma table_hit (es : gmap string (Entry A)) (sql : string) (e : Entry A) (t : Z) :
  table_ok es -> es !! sql = Some e -> table_ok (<[sql := mkEntry (en_value e) t]> es).
Proof.
  intros [Hp Hs] He. split; [apply map_Forall_insert_2; [by apply (Hp sql e) | done]|]. by rewrite map_size_insert_Some by eauto.
Qed.

Lemma table_insert (es : gmap string (Entry A)) (sql : string) (v : A) (t : Z) :
  0 <= max_entries -> table_ok es -> parse sql = done v -> table_ok (evict max_entries (<[sql := mkEntry v t]> es)).
Proof.
  intros Hm [Hp Hs] Hv. split; [|apply evict_size; [done | pose proof (insert_size es sql (mkEntry v t)); lia]].
  assert (map_Forall (fun q e => parse q = done (en_value e)) (<[sql := mkEntry v t]> es)) as Hall by by apply map_Forall_insert_2.
  intros k e He. apply (Hall k e). eapply lookup_weaken; [exact He | apply evict_subset].
Qed.

Lemma table_lookup (es : gmap string (Entry A)) (sql : string) (e : Entry A) : table_ok es -> es !! sql = Some e -> parse sql = done (en_value e).
Proof. intros [Hp _] He. by apply (Hp sql e). Qed.

End TableFacts.

Lemma reachable_ok (max_entries : Z) (c : StatementCache) :
  0 <= max_entries -> cache_reachable max_entries c ->
  sc_max_entries c = max_entries /\ table_ok sql_parse max_entries (sc_entries c) /\ table_ok sql_parse_all max_entries (sc_batch_entries c).
Proof.
  intros Hm. induction 1 as [|c sql _ (<- & H1 & H2)|c sql stmt _ (<- & H1 & H2) Hp|c sql _ (<- & H1 & H2)|c sql stmts _ (<- & H1 & H2) Hp]; cbn in *.
  - repeat split; try done; apply map_Forall_empty.
  - unfold lookup_stmt. destruct (sc_entries c !! sql) as [e|] eqn:E; cbn; [|done]. split; [done|]. split; [by apply table_hit | done].
  - split; [done|]. split; [by apply table_insert | done].
  - unfold lookup_batch. destruct (sc_batch_entries c !! sql) as [e|] eqn:E; cbn; [|done]. split; [done|]. split; [done | by apply table_hit].
  - split; [done|]. split; [done | by apply table_insert].
Qed.

(** The statement cache is transparent and bounded. Whatever lookups and
    insertions the sessions of a node have done, in any order, parsing through
    the cache answers what parsing answers, for one statement and for a batch,
    errors included, and neither table holds more entries than it may. *)
Theorem statement_cache_is_transparent (max_entries : Z) (c : StatementCache) (sql : string) :
  0 <= max_entries -> cache_reachable max_entries c ->
  snd (parse_cached sql c) = sql_parse sql /\ snd (parse_all_cached sql c) = sql_parse_all sql
  /\ Z.of_nat (size (sc_entries c)) <= max_entries /\ Z.of_nat (size (sc_batch_entries c)) <= max_entries.
Proof.
  intros Hm (Hc & H1 & H2)%reachable_ok; [|done]. split; [|split; [|split; [apply H1 | apply H2]]].
  - unfold parse_cached, lookup_stmt. destruct (sc_entries c !! sql) as [e|] eqn:E; cbn [snd].
    + symmetry. exact (table_lookup _ _ _ _ _ H1 E).
    + by destruct (sql_parse sql) as [[]|].
  - unfold parse_all_cached, lookup_batch. destruct (sc_batch_entries c !! sql) as [e|] eqn:E; cbn [snd].
    + symmetry. exact (table_lookup _ _ _ _ _ H2 E).
    + by destruct (sql_parse_all sql) as [[]|].
Qed.

(** ** What stays *)

(** Ticks in use are behind the clock, until it wraps around. *)
Definition ticks_behind (c : StatementCache) : Prop :=
  map_Forall (fun _ e => en_last_access e < sc_clock c) (sc_entries c).

(** What was just parsed is there, and what had to go was used before
    everything that stays. *)
Lemma insert_stmt_keeps_new (c : StatementCache) (sql : string) (stmt : Stmt) :
  0 < sc_max_entries c -> ticks_behind c -> Z.of_nat (size (sc_entries c)) <= sc_max_entries c ->
  let c' := insert_stmt sql stmt c in
  sc_entries c' !! sql = Some (mkEntry stmt (sc_clock c))
  /\ forall gone e, gone <> sql -> sc_entries c !! gone = Some e -> sc_entries c' !! gone = None ->
     forall k e', sc_entries c' !! k = Some e' -> en_last_access e <= en_last_access e'.
Proof.
  intros Hm Ht Hs. cbn. set (es := <[sql := mkEntry stmt (sc_clock c)]> (sc_entries c)).
  assert (es !! sql = Some (mkEntry stmt (sc_clock c))) as Hnew by apply lookup_insert_eq.
  assert (forall gone, gone <> sql -> es !! gone = sc_entries c !! gone) as Hold by (intros gone Hg; by apply lookup_insert_ne).
  unfold evict. destruct (Z.ltb_spec (sc_max_entries c) (Z.of_nat (size es))) as [Hover|Hfit]; cycle 1.
  { split; [done|]. intros gone e Hg He Hn. rewrite Hold in Hn by done. congruence. }
  destruct (oldest es) as [v|] eqn:Ev; [|apply oldest_None in Ev; by rewrite Ev, lookup_empty in Hnew].
  apply oldest_Some in Ev as (ev & Hev & Hmin). assert (v <> sql) as Hvs.
  { intros ->. rewrite Hnew in Hev. injection Hev as <-. assert (1 < size es)%nat as H1 by lia. destruct (decide (sc_entries c = ∅)) as [E|E].
    - unfold es in H1. rewrite E, insert_empty, map_size_singleton in H1. lia.
    - apply map_choose in E as (k & e & He). assert (k <> sql) as Hk.
      { intros ->. unfold es in H1. unfold es in Hover. rewrite map_size_insert_Some in Hover by eauto. lia. }
      assert (es !! k = Some e) as Hek by by rewrite Hold. specialize (Hmin k e Hek). cbn in Hmin. specialize (Ht k e He). cbn in Ht. lia. }
  split; [by rewrite lookup_delete_ne|]. intros gone e Hg He Hn k e' Hk.
  destruct (decide (gone = v)) as [->|Hgv]; [|rewrite lookup_delete_ne, Hold in Hn by done; congruence].
  rewrite Hold in Hev by done. assert (ev = e) as -> by congruence. apply lookup_delete_Some in Hk as [_ Hk]. by apply (Hmin k).
Qed.

End Parse.

(** Two texts in a cache of one entry: the second drives out the first, and
    both still parse as they do without it. *)
#[local] Instance cache_debug : DebugFmt := {| debug_str s := s; debug_f64 _ := EmptyString |}.

Definition busy_cache : StatementCache :=
  fst (parse_all_cached "COMMIT; BEGIN" (fst (parse_cached "ROLLBACK" (fst (parse_cached "BEGIN" (cache_new 1)))))).

Lemma statement_cache_is_transparent_witness :
  0 <= 1 /\ Z.of_nat (size (sc_entries busy_cache)) = 1
  /\ snd (parse_cached "BEGIN" busy_cache) = sql_parse "BEGIN" /\ sql_parse "BEGIN" = done Stmt_Begin.
Proof.
  assert (cache_reachable 1 busy_cache) as Hr.
  { assert (busy_cache = insert_batch "COMMIT; BEGIN" [Stmt_Commit; Stmt_Begin] (fst (lookup_batch "COMMIT; BEGIN"
      (insert_stmt "ROLLBACK" Stmt_Rollback (fst (lookup_stmt "ROLLBACK" (insert_stmt "BEGIN" Stmt_Begin (fst (lookup_stmt "BEGIN" (cache_new 1)))))))))) as ->
      by (vm_compute; reflexivity).
    apply reach_insert_batch; [apply reach_lookup_batch, reach_insert; [apply reach_lookup, reach_insert; [apply reach_lookup, reach_new|]|]|]; vm_compute; reflexivity. }
  split; [lia|]. split; [vm_compute; reflexivity|]. split; [|vm_compute; reflexivity].
  apply (statement_cache_is_transparent 1 busy_cache "BEGIN"); [lia | exact Hr].
Defined.
