(* ===== verification/Copy.v ===== *)
(** Bulk loading ([executor/copy.rs], and the lines of [handle_copy_in] in
    [wire/session.rs]): the text format of COPY, rows from lines and lines from
    rows.

    Theorems: lines that COPY TO writes are, however the client cuts them into
    messages, read by COPY FROM as the same rows, each inserted once and in
    order; the insertion stops at the first line that fails. *)

From Stdlib Require Import Strings.Byte Strings.Ascii Strings.String ZArith Lia Bool.
From stdpp Require Import base list strings gmap.
From S2P Require Import Prelude OrdMap Utf8 Decimal Txn Compress Flux Rows Auth Jsonb Ast Lexer Parser Float Values JsonOps JsonSchema Eval Joins Sorting Windows Planner Select Dml.

Open Scope Z_scope.
Open Scope eval_scope.
Open Scope act_scope.

Definition TAB : byte := byte_of_Z 9.
Definition NL : byte := byte_of_Z 10.
Definition CR : byte := byte_of_Z 13.
Definition BACKSLASH : byte := byte_of_Z 92.
(** [\N] *)
Definition NULL_MARK : bytes := [BACKSLASH; byte_of_Z 78].

(** ** Cells and lines *)

(** What stands for the character behind a backslash. *)
Definition unescape (c : bytes) : bytes :=
  if bool_decide (c = [byte_of_Z 116]) then [TAB]
  else if bool_decide (c = [byte_of_Z 110]) then [NL]
  else if bool_decide (c = [byte_of_Z 114]) then [CR]
  else c.

Fixpoint decode_chars (cs : list bytes) : bytes :=
  match cs with
  | [] => []
  | c :: cs' =>
      if bool_decide (c = [BACKSLASH])
      then match cs' with e :: cs'' => unescape e ++ decode_chars cs'' | [] => [] end
      else c ++ decode_chars cs'
  end.

Definition decode_copy_cell (raw : string) : option bytes :=
  if bool_decide (as_bytes raw = NULL_MARK) then None else Some (decode_chars (chars raw)).

Definition escape_byte (b : byte) : bytes :=
  if byte_eqb b TAB then [BACKSLASH; byte_of_Z 116]
  else if byte_eqb b NL then [BACKSLASH; byte_of_Z 110]
  else if byte_eqb b CR then [BACKSLASH; byte_of_Z 114]
  else if byte_eqb b BACKSLASH then [BACKSLASH; BACKSLASH]
  else [b].

Definition encode_copy_cell (cell : option bytes) : bytes :=
  match cell with None => NULL_MARK | Some data => concat (map escape_byte data) end.

Fixpoint tab_separated (cells : list bytes) : bytes :=
  match cells with
  | [] => []
  | [c] => c
  | c :: cells' => c ++ [TAB] ++ tab_separated cells'
  end.

Definition encode_copy_line (row : Row) : bytes := tab_separated (map encode_copy_cell row) ++ [NL].

(** [line.split('\t').map(decode_copy_cell)] *)
Definition decode_copy_line (line : string) : Row := map (fun c => decode_copy_cell (string_of_list_byte c)) (Auth.split_on TAB [] (as_bytes line)).

(** ** Rows *)

Section Copy.
  Context {State : Type} {rs : RowStore State} {tables : Schemas State} {js : Json}.

Definition target_columns (schema : TableSchema) (columns : list string) : Result (list nat) :=
  match columns with
  | [] => Ok (seq 0 (length (ts_columns schema)))
  | _ => foldr (fun name rest => let? i := position_of schema name in let? ixs := rest in Ok (i :: ixs)) (Ok []) columns
  end.

(** [cells[col_idx] = cell] for each; an index that is not there panics. *)
Fixpoint place_cells (pairs : list (option bytes * nat)) (cells : Row) : Eval Row :=
  match pairs with
  | [] => done cells
  | (cell, i) :: pairs' => if (i <? length cells)%nat then place_cells pairs' (<[i := cell]> cells) else panics
  end.

(** A row of decoded cells goes in. *)
Definition insert_copy_cells (table : string) (schema : TableSchema) (target : list nat) (raw_cells : Row) : Act State unit :=
  if negb (length raw_cells =? length target)%nat
  then lift_eval (fails ("COPY: expected " +:+ to_dec (zlen target) +:+ " columns, got " +:+ to_dec (zlen raw_cells)))
  else
    do cells <- lift_eval (place_cells (combine raw_cells target) (replicate (length (ts_columns schema)) None));
    do key <- row_key_for schema cells;
    do taken <- key_taken schema table key;
    if (taken : bool) then lift_eval (fails ("duplicate key value violates unique constraint " +:+ quoted (table +:+ "_pkey")))
    else write_row schema table key cells.

Definition insert_copy_line (table : string) (schema : TableSchema) (target : list nat) (line : string) : Act State unit :=
  insert_copy_cells table schema target (decode_copy_line line).

Definition scan_for_copy (table : string) (target : list nat) : Act State (list Row) :=
  do kvs <- reading (rs_scan table);
  do _ <- reading (tables_get table);
  pure (map (fun row => map (cell_at row) target) (parse_rows (map kv_value kvs))).

(** ** The lines of a COPY FROM *)

(** The bytes of an unfinished line, the rows so far, the first failure. *)
Record CopyIn := mkCopyIn { ci_buf : bytes; ci_row_count : Z; ci_failed : option string }.

(** The finished lines, each without its newline, and what is left. *)
Fixpoint drain_lines (buf : bytes) : list bytes * bytes :=
  match buf with
  | [] => ([], [])
  | b :: buf' =>
      let '(lines, rest) := drain_lines buf' in
      if byte_eqb b NL then ([] :: lines, rest)
      else match lines with l :: lines' => ((b :: l) :: lines', rest) | [] => ([], b :: rest) end
  end.

(** Lines behind a failure are read and dropped. *)
Fixpoint copy_lines (table : string) (schema : TableSchema) (target : list nat) (lines : list bytes) (st : Z * option string) : Act State (Z * option string) :=
  match lines with
  | [] => pure st
  | line :: lines' =>
      match snd st with
      | Some _ => copy_lines table schema target lines' st
      | None => fun s =>
          match insert_copy_line table schema target (from_utf8_lossy line) s with
          | (s', Some (Ok _)) => copy_lines table schema target lines' (fst st + 1, None) s'
          | (s', Some (Err e)) => copy_lines table schema target lines' (fst st, Some e) s'
          | (s', None) => (s', None)
          end
      end
  end.

(** A CopyData message. *)
Definition copy_data (table : string) (schema : TableSchema) (target : list nat) (data : bytes) (c : CopyIn) : Act State CopyIn :=
  let '(lines, rest) := drain_lines (ci_buf c ++ data) in
  do st <- copy_lines table schema target lines (ci_row_count c, ci_failed c);
  pure (mkCopyIn rest (fst st) (snd st)).

Fixpoint copy_chunks (table : string) (schema : TableSchema) (target : list nat) (chunks : list bytes) (c : CopyIn) : Act State CopyIn :=
  match chunks with
  | [] => pure c
  | data :: chunks' => do c' <- copy_data table schema target data c; copy_chunks table schema target chunks' c'
  end.

(** ** What the rows of a COPY do *)

(** The rows one by one, until one fails. *)
Fixpoint insert_copy_rows (table : string) (schema : TableSchema) (target : list nat) (rows : list Row) (n : Z) : Act State (Z * option string) :=
  match rows with
  | [] => pure (n, None)
  | row :: rows' => fun s =>
      match insert_copy_cells table schema target row s with
      | (s', Some (Ok _)) => insert_copy_rows table schema target rows' (n + 1) s'
      | (s', Some (Err e)) => (s', done (n, Some e))
      | (s', None) => (s', None)
      end
  end.

End Copy.

(** ** Cells are read back *)

Ltac head_ranges := unfold utf8_head in *; cbn [byte_at nth take app] in *.

(** A well-formed head is one of the bytes that it takes. *)
Lemma utf8_head_take (bs : bytes) (n : nat) : bs <> [] -> utf8_head bs = (true, n) -> utf8_head (take n bs) = (true, n).
Proof.
  intros Hne H. pose proof (utf8_head_app bs [] n Hne H) as [Hn _]. destruct bs as [|b0 [|b1 [|b2 [|b3 rest]]]]; [done|..]; cbn [length] in Hn;
    unfold utf8_head in H; cbn [byte_at nth] in H; destruct_ifs; try discriminate; injection H as <-; try lia; head_ranges; rewrite ?take_0;
    unfold utf8_head; cbn [byte_at nth]; repeat match goal with Hb : ?b = _ |- context [?b] => rewrite Hb end; reflexivity.
Qed.

Lemma in_range_spec (lo hi : Z) (b : byte) : in_range lo hi b = true -> lo <= Z_of_byte b <= hi.
Proof. unfold in_range. rewrite andb_true_iff, !Z.leb_le. lia. Qed.

(** The characters of valid text: ASCII is a character of its own, and the bytes
    of any other character are above it. *)
Lemma utf8_head_chars (b : byte) (bs : bytes) (n : nat) :
  utf8_head (b :: bs) = (true, n) -> (n = 1%nat /\ Z_of_byte b < 128) \/ ((0 < n)%nat /\ Forall (fun b => 128 <= Z_of_byte b) (take n (b :: bs))).
Proof.
  intros H. pose proof (utf8_head_app (b :: bs) [] n ltac:(done) H) as [Hn _]. destruct bs as [|b1 [|b2 [|b3 rest]]]; cbn [length] in Hn;
    unfold utf8_head in H; cbn [byte_at nth] in H; destruct_ifs; try discriminate; injection H as <-; try lia;
    repeat match goal with Hb : in_range _ _ _ = true |- _ => apply in_range_spec in Hb | Hb : negb _ = false |- _ => apply negb_false_iff in Hb end;
    (left; split; [done | lia]) || (right; split; [lia|]; cbn [take]; rewrite ?take_0; repeat (apply List.Forall_cons; [lia|]); apply List.Forall_nil).
Qed.

(** Characters decoded as bytes. *)
Fixpoint decode_bytes (bs : bytes) : bytes :=
  match bs with
  | [] => []
  | b :: bs' => if byte_eqb b BACKSLASH then match bs' with e :: bs'' => unescape [e] ++ decode_bytes bs'' | [] => [] end else b :: decode_bytes bs'
  end.

(** A byte that is known and not above ASCII. *)
Ltac high_absurd H := exfalso; revert H; vm_compute; let X := fresh in intros X; apply X; reflexivity.

Lemma high_not_backslash (b : byte) : 128 <= Z_of_byte b -> byte_eqb b BACKSLASH = false.
Proof. intros H. destruct (byte_eqb b BACKSLASH) eqn:E; [|done]. apply byte_eqb_true in E as ->. high_absurd H. Qed.

Lemma decode_bytes_high (p q : bytes) : Forall (fun b => 128 <= Z_of_byte b) p -> decode_bytes (p ++ q) = p ++ decode_bytes q.
Proof. induction 1 as [|b p Hb _ IH]; [done|]. cbn [app decode_bytes]. by rewrite high_not_backslash, IH. Qed.

Lemma unescape_high (p : bytes) : Forall (fun b => 128 <= Z_of_byte b) p -> unescape p = p.
Proof.
  intros H. unfold unescape. repeat (case_bool_decide as E; [subst; inversion H as [|? ? Hb _]; subst; high_absurd Hb|clear E]). done.
Qed.

Lemma singleton_is (b c : byte) : bool_decide ([b] = [c]) = byte_eqb b c.
Proof. unfold byte_eqb. apply bool_decide_ext. split; [by intros [= ->] | by intros ->]. Qed.

Lemma decode_chars_bytes (fuel : nat) (bs : bytes) : utf8_valid_fuel fuel bs = true -> decode_chars (chars_fuel fuel bs) = decode_bytes bs.
Proof.
  revert bs. induction fuel as [fuel IH] using lt_wf_ind; intros [|b bs] Hv; [by destruct fuel|]. destruct fuel as [|fuel]; [done|]. cbn [utf8_valid_fuel chars_fuel] in *.
  destruct (utf8_head (b :: bs)) as [ok n] eqn:E. apply andb_true_iff in Hv as [-> Hv]. cbn [snd]. destruct (utf8_head_chars b bs n E) as [[-> Hb]|[Hn Hhigh]].
  - cbn [take drop] in *. rewrite take_0, drop_0 in *. cbn [decode_chars decode_bytes]. rewrite singleton_is. destruct (byte_eqb b BACKSLASH); [|cbn [app]; f_equal; apply IH; [lia | done]].
    destruct bs as [|e bs]; [by destruct fuel|]. destruct fuel as [|fuel]; [done|]. cbn [chars_fuel utf8_valid_fuel] in *.
    destruct (utf8_head (e :: bs)) as [ok m] eqn:E'. apply andb_true_iff in Hv as [-> Hv]. cbn [snd]. rewrite IH by (done || lia).
    destruct (utf8_head_chars e bs m E') as [[-> _]|[Hm Hhigh]]; [cbn [take drop]; by rewrite take_0, drop_0|].
    assert (e :: decode_bytes bs = decode_bytes (e :: bs)) as Hd.
    { cbn [decode_bytes]. rewrite high_not_backslash; [done|]. destruct m; [lia|]. by inversion Hhigh. }
    rewrite (unescape_high [e]) by (destruct m; [lia|]; inversion Hhigh; subst; by apply List.Forall_cons).
    rewrite unescape_high by done. cbn [app]. rewrite Hd. transitivity (decode_bytes (take m (e :: bs) ++ drop m (e :: bs))); [by rewrite decode_bytes_high | by rewrite take_drop].
  - assert (bool_decide (take n (b :: bs) = [BACKSLASH]) = false) as Hne.
    { apply bool_decide_eq_false_2. intros Heq. rewrite Heq in Hhigh. inversion Hhigh as [|? ? Hb _]. high_absurd Hb. }
    cbn [decode_chars]. rewrite Hne, IH by (done || lia). transitivity (decode_bytes (take n (b :: bs) ++ drop n (b :: bs))); [by rewrite decode_bytes_high | by rewrite take_drop].
Qed.

Lemma escape_cases (b : byte) :
  (exists e, escape_byte b = [BACKSLASH; e] /\ unescape [e] = [b] /\ Z_of_byte e < 128 /\ e <> byte_of_Z 78 /\ e <> TAB /\ e <> NL)
  \/ (escape_byte b = [b] /\ b <> BACKSLASH /\ b <> TAB /\ b <> NL).
Proof.
  unfold escape_byte. assert (forall c, byte_eqb b c = true -> b = c) as Ht by (intros c; apply byte_eqb_true).
  assert (forall c, byte_eqb b c = false -> b <> c) as Hf by (intros c E ->; unfold byte_eqb in E; by rewrite bool_decide_eq_true_2 in E).
  destruct (byte_eqb b TAB) eqn:E1; [left; eexists; split; [done|]; rewrite (Ht _ E1); by vm_compute|].
  destruct (byte_eqb b NL) eqn:E2; [left; eexists; split; [done|]; rewrite (Ht _ E2); by vm_compute|].
  destruct (byte_eqb b CR) eqn:E3; [left; eexists; split; [done|]; rewrite (Ht _ E3); by vm_compute|].
  destruct (byte_eqb b BACKSLASH) eqn:E4; [left; eexists; split; [done|]; rewrite (Ht _ E4); by vm_compute|]. right. auto.
Qed.

Lemma decode_escaped (data : bytes) : decode_bytes (concat (map escape_byte data)) = data.
Proof.
  induction data as [|b data IH]; [done|]. cbn [map concat]. destruct (escape_cases b) as [(e & -> & Hu & _)|(-> & Hb & _)]; cbn [app decode_bytes].
  - change (byte_eqb BACKSLASH BACKSLASH) with true. cbv iota. by rewrite Hu, IH.
  - destruct (byte_eqb b BACKSLASH) eqn:E; [by apply byte_eqb_true in E|]. by rewrite IH.
Qed.

Lemma escaped_not_null (data : bytes) : concat (map escape_byte data) <> NULL_MARK.
Proof.
  destruct data as [|b data]; [done|]. cbn [map concat]. destruct (escape_cases b) as [(e & -> & _ & _ & He & _)|(-> & Hb & _)]; cbn [app]; intros [= ? ?]; done.
Qed.

Lemma escaped_plain (data : bytes) : Forall (fun b => b <> TAB /\ b <> NL) (concat (map escape_byte data)).
Proof.
  induction data as [|b data IH]; [by apply List.Forall_nil|]. cbn [map concat].
  destruct (escape_cases b) as [(e & -> & _ & _ & _ & He)|(-> & _ & Hb)]; repeat (apply List.Forall_cons; [done|]); exact IH.
Qed.

Lemma escape_high (b : byte) : 128 <= Z_of_byte b -> escape_byte b = [b].
Proof.
  intros Hb. unfold escape_byte. repeat (destruct (byte_eqb b _) eqn:E; [apply byte_eqb_true in E; subst; high_absurd Hb | clear E]). done.
Qed.

Lemma escaped_valid (fuel : nat) (data : bytes) : utf8_valid_fuel fuel data = true -> utf8_valid (concat (map escape_byte data)) = true.
Proof.
  revert data. induction fuel as [|fuel IH]; intros [|b data] Hv; try done. cbn [utf8_valid_fuel] in Hv. destruct (utf8_head (b :: data)) as [ok n] eqn:E.
  apply andb_true_iff in Hv as [-> Hv]. specialize (IH _ Hv). destruct (utf8_head_chars b data n E) as [[-> Hb]|[Hn Hhigh]].
  - cbn [drop map concat] in *. rewrite drop_0 in IH. apply utf8_valid_app; [|exact IH]. apply utf8_ascii.
    destruct (escape_cases b) as [(e & -> & _ & He & _)|(-> & _)]; repeat (apply List.Forall_cons; [done|]); apply List.Forall_nil.
  - rewrite <- (take_drop n (b :: data)), map_app, concat_app. apply utf8_valid_app; [|exact IH].
    assert (concat (map escape_byte (take n (b :: data))) = take n (b :: data)) as ->.
    { clear E Hv IH. induction Hhigh as [|x l Hx _ IHl]; [done|]. cbn [map concat]. rewrite escape_high by done. cbn [app]. by rewrite IHl. }
    pose proof (utf8_head_take (b :: data) n ltac:(done) E) as Ht. pose proof (utf8_head_app (b :: data) [] n ltac:(done) E) as [Hl _].
    unfold utf8_valid. rewrite length_take, Nat.min_l by done. destruct n as [|n]; [lia|]. cbn [utf8_valid_fuel]. destruct (take (S n) (b :: data)) as [|x l] eqn:Ex; [done|].
    rewrite Ht. cbn [andb]. rewrite <- Ex, drop_ge; [by destruct n|]. rewrite length_take. lia.
Qed.

(** NULL, or text. *)
Definition copyable (cell : option bytes) : Prop := match cell with Some data => utf8_valid data = true | None => True end.

Lemma encoded_cell (cell : option bytes) :
  copyable cell -> utf8_valid (encode_copy_cell cell) = true /\ Forall (fun b => b <> TAB /\ b <> NL) (encode_copy_cell cell)
    /\ decode_copy_cell (string_of_list_byte (encode_copy_cell cell)) = cell.
Proof.
  intros Hc. unfold decode_copy_cell, chars. unfold as_bytes. rewrite list_byte_of_string_of_list_byte. destruct cell as [data|]; cbn [encode_copy_cell copyable] in *; cycle 1.
  { split; [by vm_compute|]. split; [repeat (apply List.Forall_cons; [by vm_compute|]); apply List.Forall_nil | done]. }
  pose proof (escaped_valid _ _ Hc) as Hv. split; [done|]. split; [apply escaped_plain|]. rewrite bool_decide_eq_false_2 by apply escaped_not_null.
  by rewrite decode_chars_bytes, decode_escaped.
Qed.

(** ** Lines are read back *)

Lemma split_tabs (cells : list bytes) :
  cells <> [] -> Forall (fun c => TAB ∉ c) cells -> Auth.split_on TAB [] (tab_separated cells) = cells.
Proof.
  intros Hne H. induction H as [|c cells Hc _ IH]; [done|]. destruct cells as [|c' cells]; cbn [tab_separated].
  - by rewrite split_on_last.
  - cbn [app]. rewrite split_on_sep by done. cbn [app]. f_equal. by apply IH.
Qed.

(** Some columns, each NULL or text. *)
Definition copyable_row (row : Row) : Prop := row <> [] /\ Forall copyable row.

Lemma no_tab (c : bytes) : Forall (fun b => b <> TAB /\ b <> NL) c -> TAB ∉ c.
Proof. intros H Hin. rewrite List.Forall_forall in H. apply list_elem_of_In in Hin. by destruct (H TAB Hin). Qed.

Lemma line_valid (cells : list bytes) : Forall (fun c => utf8_valid c = true) cells -> utf8_valid (tab_separated cells) = true.
Proof.
  induction 1 as [|c cells Hc _ IH]; [done|]. destruct cells as [|c' cells]; [done|]. cbn [tab_separated]. apply utf8_valid_app; [done|].
  apply utf8_valid_app; [by vm_compute | exact IH].
Qed.

Lemma line_no_newline (cells : list bytes) : Forall (Forall (fun b => b <> TAB /\ b <> NL)) cells -> Forall (fun b => b <> NL) (tab_separated cells).
Proof.
  assert (forall c, Forall (fun b => b <> TAB /\ b <> NL) c -> Forall (fun b => b <> NL) c) as Himp by (intros c Hc; eapply Forall_impl; [exact Hc | by intros b []]).
  induction 1 as [|c cells Hc _ IH]; [by apply List.Forall_nil|]. destruct cells as [|c' cells]; [by apply Himp|]. cbn [tab_separated].
  apply Forall_app; split; [by apply Himp|]. apply Forall_app; split; [|exact IH]. apply List.Forall_cons; [by vm_compute | apply List.Forall_nil].
Qed.

(** A line without its newline is text without newlines, and its row. *)
Lemma encoded_line (row : Row) : copyable_row row ->
  let line := tab_separated (map encode_copy_cell row) in Forall (fun b => b <> NL) line /\ decode_copy_line (from_utf8_lossy line) = row.
Proof.
  intros [Hne Hrow]. cbv zeta. assert (Forall (fun c => utf8_valid c = true /\ Forall (fun b => b <> TAB /\ b <> NL) c) (map encode_copy_cell row)) as Hcells.
  { apply Forall_map. eapply Forall_impl; [exact Hrow|]. intros c Hc. destruct (encoded_cell c Hc) as (H1 & H2 & _). done. }
  split; [apply line_no_newline; eapply Forall_impl; [exact Hcells | by intros c []]|].
  assert (utf8_valid (tab_separated (map encode_copy_cell row)) = true) as Hv by (apply line_valid; eapply Forall_impl; [exact Hcells | by intros c []]).
  assert (from_utf8_lossy (tab_separated (map encode_copy_cell row)) = string_of_list_byte (tab_separated (map encode_copy_cell row))) as ->.
  { pose proof (from_utf8_lossy_as_bytes (string_of_list_byte (tab_separated (map encode_copy_cell row)))) as Hl.
    unfold is_string, as_bytes in Hl. rewrite list_byte_of_string_of_list_byte in Hl. by apply Hl. }
  unfold decode_copy_line, as_bytes. rewrite list_byte_of_string_of_list_byte, split_tabs.
  - rewrite map_map. rewrite <- (map_id row) at 2. apply map_ext_in. intros c Hin. rewrite List.Forall_forall in Hrow. by apply encoded_cell, Hrow.
  - by destruct row.
  - eapply Forall_impl; [exact Hcells|]. intros c [_ Hc]. by apply no_tab.
Qed.

Lemma drain_line (line rest : bytes) : Forall (fun b => b <> NL) line ->
  drain_lines (line ++ NL :: rest) = (line :: fst (drain_lines rest), snd (drain_lines rest)).
Proof.
  induction 1 as [|b line Hb _ IH]; cbn [app drain_lines].
  - destruct (drain_lines rest) as [ls r]. done.
  - rewrite IH. destruct (byte_eqb b NL) eqn:E; [by apply byte_eqb_true in E | done].
Qed.

Lemma drain_none (buf : bytes) : Forall (fun b => b <> NL) buf -> drain_lines buf = ([], buf).
Proof. induction 1 as [|b buf Hb _ IH]; [done|]. cbn [drain_lines]. rewrite IH. destruct (byte_eqb b NL) eqn:E; [by apply byte_eqb_true in E | done]. Qed.

Lemma drain_rest (buf : bytes) : Forall (fun b => b <> NL) (snd (drain_lines buf)).
Proof.
  induction buf as [|b buf IH]; [by apply List.Forall_nil|]. cbn [drain_lines]. destruct (drain_lines buf) as [ls r]. cbn [snd] in IH.
  destruct (byte_eqb b NL) eqn:E; [done|]. destruct ls; [|done]. apply List.Forall_cons; [|done]. intros ->. by vm_compute in E.
Qed.

Lemma drain_app (a b : bytes) :
  drain_lines (a ++ b) = (fst (drain_lines a) ++ fst (drain_lines (snd (drain_lines a) ++ b)), snd (drain_lines (snd (drain_lines a) ++ b))).
Proof.
  induction a as [|x a IH]; cbn [app drain_lines]; [cbn [fst snd app]; apply surjective_pairing|]. rewrite IH. destruct (drain_lines a) as [ls r]. cbn [fst snd].
  destruct (byte_eqb x NL) eqn:E; cbn [fst snd app]; [done|]. destruct ls as [|l ls]; cbn [fst snd app drain_lines]; [|done].
  rewrite E. by destruct (drain_lines (r ++ b)) as [[|l ls] r'].
Qed.

Lemma drain_rows (rows : list Row) : Forall copyable_row rows ->
  drain_lines (concat (map encode_copy_line rows)) = (map (fun row => tab_separated (map encode_copy_cell row)) rows, []).
Proof.
  induction 1 as [|row rows Hrow _ IH]; [done|]. cbn [map concat]. unfold encode_copy_line at 1. rewrite <- app_assoc. cbn [app].
  rewrite drain_line by by apply encoded_line. by rewrite IH.
Qed.

Section Loading.
  Context {State : Type} {rs : RowStore State} {tables : Schemas State} {js : Json}.
  Context (table : string) (schema : TableSchema) (target : list nat).

Abbreviation lines_ := (copy_lines (State := State) table schema target).

Lemma copy_lines_failed (lines : list bytes) (n : Z) (e : string) (s : State) : lines_ lines (n, Some e) s = (s, done (n, Some e)).
Proof. induction lines as [|l lines IH]; [done|]. exact IH. Qed.

Lemma copy_lines_app (a b : list bytes) (st : Z * option string) (s : State) :
  lines_ (a ++ b) st s = (do st' <- lines_ a st; lines_ b st') s.
Proof.
  revert st s. induction a as [|l a IH]; intros [n [e|]] s; [done | done | rewrite copy_lines_failed; unfold abind; rewrite copy_lines_failed; symmetry; apply copy_lines_failed|].
  unfold abind. cbn [app copy_lines snd fst]. destruct (insert_copy_line table schema target (from_utf8_lossy l) s) as [s' [[?|?]|]]; cbn [fst]; [..|done]; rewrite IH; unfold abind; done.
Qed.

Lemma copy_chunks_concat (chunks : list bytes) (c : CopyIn) (s : State) :
  Forall (fun b => b <> NL) (ci_buf c) -> copy_chunks table schema target chunks c s = copy_data table schema target (concat chunks) c s.
Proof.
  revert c s. induction chunks as [|d chunks IH]; intros c s Hb; cbn [copy_chunks concat].
  - unfold copy_data. rewrite app_nil_r, drain_none by done. by destruct c.
  - unfold copy_data at 2. rewrite app_assoc, drain_app. unfold copy_data at 1. destruct (drain_lines (ci_buf c ++ d)) as [ls r] eqn:Ed. cbn [fst snd].
    pose proof (drain_rest (ci_buf c ++ d)) as Hr. rewrite Ed in Hr. cbn [snd] in Hr. unfold abind at 1 2 3. rewrite copy_lines_app. unfold abind.
    destruct (lines_ ls (ci_row_count c, ci_failed c) s) as [s' [[st|e]|]]; [|done..]. cbn [pure done]. rewrite IH by done. unfold copy_data. cbn [ci_buf ci_row_count ci_failed].
    destruct (drain_lines (r ++ concat chunks)) as [ls' r']. by destruct st.
Qed.

Lemma copy_lines_rows (rows : list Row) (n : Z) (s : State) : Forall copyable_row rows ->
  lines_ (map (fun row => tab_separated (map encode_copy_cell row)) rows) (n, None) s = insert_copy_rows table schema target rows n s.
Proof.
  intros H. revert n s. induction H as [|row rows Hrow _ IH]; intros n s; [done|]. cbn [map copy_lines insert_copy_rows snd fst].
  unfold insert_copy_line. rewrite (proj2 (encoded_line row Hrow)). destruct (insert_copy_cells table schema target row s) as [s' [[?|?]|]]; [apply IH | apply copy_lines_failed | done].
Qed.

(** C38. COPY FROM reads what COPY TO wrote. Rows of NULLs and text, written as
    lines and cut into messages anywhere, are inserted one by one in their
    order, the same cells, until the first one that fails; no byte is left over. *)
Theorem copy_text_roundtrip (chunks : list bytes) (rows : list Row) (s : State) :
  Forall copyable_row rows -> concat chunks = concat (map encode_copy_line rows) ->
  copy_chunks table schema target chunks (mkCopyIn [] 0 None) s
  = (do r <- insert_copy_rows table schema target rows 0; pure (mkCopyIn [] (fst r) (snd r))) s.
Proof.
  intros Hrows Hc. rewrite copy_chunks_concat by apply List.Forall_nil. rewrite Hc. unfold copy_data. cbn [ci_buf ci_row_count ci_failed app].
  rewrite drain_rows by done. unfold abind. by rewrite copy_lines_rows.
Qed.

(** A last line that no newline ends is dropped. *)
Lemma unfinished_line_is_dropped (line : bytes) (s : State) :
  Forall (fun b => b <> NL) line -> copy_chunks table schema target [line] (mkCopyIn [] 0 None) s = (s, done (mkCopyIn line 0 None)).
Proof. intros H. rewrite copy_chunks_concat by apply List.Forall_nil. unfold copy_data. cbn [concat ci_buf app]. rewrite app_nil_r, drain_none by done. done. Qed.

End Loading.
