(* ===== verification/Executor.v ===== *)
(** The executor's entry ([executor/mod.rs]): a parsed statement, the check of
    its actor and the component that runs it; the parameters of a statement.

    A statement runs on a state as in [Dml]; [through] sets the transaction
    that the state's rows are read and written through. The components that
    are not modelled, the statements that define objects, ANALYZE and MATCH,
    are [other_statement]; what a query leaves behind, the sequences that
    [nextval] advances, is [query_effect], and [describe_effect] when its common
    table expressions run for a description.

    Lemmas: a statement that the check denies changes nothing and is told apart
    from one that fails; the parameters in the condition of a join are not
    counted. [Session] has the theorems of the connections that run statements
    here. *)

From Stdlib Require Import Strings.Byte Strings.String ZArith Lia Bool.
From stdpp Require Import base list strings gmap.
From S2P Require Import Prelude OrdMap Utf8 Decimal Txn Compress Flux Rows Roles Auth Ast Rbac Jsonb Lexer Parser StmtCache Float Values JsonOps JsonSchema Eval Joins Sorting Windows Planner Select Dml.

Open Scope Z_scope.
Open Scope eval_scope.
Open Scope act_scope.

(** ** The parameters of a statement *)

(** The highest [$n] seen so far goes in, and out. *)
Fixpoint scan_select_params (s : SelectStmt) (max : Z) : Z :=
  match s with
  | mkSelectStmt ctes _ projections _ where_ group_by having order_by limit offset un =>
      let max := fold_left (fun m c => scan_cte_params c m) ctes max in
      let max := fold_left (fun m p => scan_projection_params p m) projections max in
      let max := match where_ with Some w => scan_expr_params w max | None => max end in
      let max := fold_left (fun m g => scan_expr_params g m) group_by max in
      let max := match having with Some h => scan_expr_params h max | None => max end in
      let max := fold_left (fun m o => scan_order_params o m) order_by max in
      let max := match limit with Some l => scan_expr_params l max | None => max end in
      let max := match offset with Some o => scan_expr_params o max | None => max end in
      match un with Some (_, rhs) => scan_select_params rhs max | None => max end
  end
with scan_cte_params (c : Cte) (max : Z) : Z := match c with mkCte _ _ sub _ => scan_select_params sub max end
with scan_projection_params (p : Projection) (max : Z) : Z := match p with Projection_Expr e _ => scan_expr_params e max | _ => max end
with scan_order_params (o : OrderBy) (max : Z) : Z := match o with mkOrderBy e _ => scan_expr_params e max end
with scan_list_params (l : InList) (max : Z) : Z :=
  match l with
  | InList_Exprs v => fold_left (fun m e => scan_expr_params e m) v max
  | InList_Subquery sq => scan_select_params sq max
  end
with scan_expr_params (e : Expr) (max : Z) : Z :=
  match e with
  | Expr_Param n => if max <? n then n else max
  | Expr_BinaryOp _ lhs rhs => scan_expr_params rhs (scan_expr_params lhs max)
  | Expr_UnaryOp _ e => scan_expr_params e max
  | Expr_IsNull e _ | Expr_IsTrue e _ | Expr_IsFalse e _ => scan_expr_params e max
  | Expr_Between e low high _ => scan_expr_params high (scan_expr_params low (scan_expr_params e max))
  | Expr_Like e pattern _ => scan_expr_params pattern (scan_expr_params e max)
  | Expr_In e l _ => scan_list_params l (scan_expr_params e max)
  | Expr_Exists sq _ => scan_select_params sq max
  | Expr_Cast e _ => scan_expr_params e max
  | Expr_Function _ args _ => fold_left (fun m a => scan_expr_params a m) args max
  | Expr_Case operand branches else_ =>
      let max := match operand with Some e => scan_expr_params e max | None => max end in
      let max := fold_left (fun m b => scan_expr_params (snd b) (scan_expr_params (fst b) m)) branches max in
      match else_ with Some e => scan_expr_params e max | None => max end
  | Expr_Subquery sq => scan_select_params sq max
  | Expr_Window _ args partition_by order_by _ =>
      let max := fold_left (fun m a => scan_expr_params a m) args max in
      let max := fold_left (fun m p => scan_expr_params p m) partition_by max in
      fold_left (fun m o => scan_order_params o m) order_by max
  | _ => max
  end.

Definition max_param_index (stmt : Stmt) : Z :=
  match stmt with
  | Stmt_Select s => scan_select_params s 0
  | Stmt_Insert i => fold_left (fun m row => fold_left (fun m e => scan_expr_params e m) row m) (ins_values i) 0
  | Stmt_Update u =>
      let max := fold_left (fun m a => scan_expr_params (snd a) m) (upd_assignments u) 0 in
      match upd_where u with Some w => scan_expr_params w max | None => max end
  | Stmt_Delete d => match del_where d with Some w => scan_expr_params w 0 | None => 0 end
  | _ => 0
  end.

(** ** Running a statement *)

Class Engine (State Txn : Type) := {
  (** the state with its rows read and written through a transaction, or directly *)
  through : option Txn -> State -> State;
  db_begin : State -> State * Txn;
  db_commit : Txn -> State -> State * Result unit;
  db_rollback : Txn -> State -> State;
  db_notify : string -> string -> State -> State;
  query_effect : SelectStmt -> list Value -> option Txn -> State -> State;
  describe_effect : SelectStmt -> State -> State;
  other_statement : Stmt -> State -> State * Eval QueryResult;
}.

(** The error of a check, and any other. *)
Inductive ExecError := Denied (msg : string) | Failed (msg : string).
Definition error_text (e : ExecError) : string := match e with Denied m | Failed m => m end.
Definition Outcome : Type := QueryResult + ExecError.

Definition ok_tag (tag : string) : QueryResult := mkQueryResult [] [] tag.

Section Executor.
  Context {State Txn : Type} {rs : RowStore State} {tables : Schemas State} {catalog : Catalog State Txn} {functions : Functions State} {engine : Engine State Txn}.
  Context {world : World State} {std : StdLib} {crates : Crates} {js : Json} {vectors : Vectors} {dbg : DebugFmt} {sorts : SortBy} {cr : Crypto}.
  Context (gpu_pairs : Expr -> option TableSchema -> option TableSchema -> list Row -> list Row -> option (list (nat * nat))).
  (** how deep queries may nest before the stack ends *)
  Context (stack : nat).

(** A role statement: a salt and the time, and its tag. *)
Definition administer (tag : string) (f : bytes -> Z -> State -> State * Result unit) : Act State QueryResult := fun s =>
  let '(s, salt) := random_key (through (Txn := Txn) None s) in
  match f salt (now_ms s) s with (s, Ok _) => (s, done (ok_tag tag)) | (s, Err e) => (s, fails e) end.

Definition run_through (txn : option Txn) (m : Act State QueryResult) : Act State QueryResult := fun s => m (through txn s).

Definition execute_parsed_inner (stmt : Stmt) (params : list Value) (txn : option Txn) : Act State QueryResult :=
  match stmt with
  | Stmt_Select sel => fun s => let s := through txn s in (query_effect sel params txn s, query gpu_pairs stack s txn params sel)
  | Stmt_Insert ins => run_through txn (execute_insert ins params)
  | Stmt_Delete del => run_through txn (execute_delete del params)
  | Stmt_Update upd => run_through txn (execute_update upd params)
  | Stmt_CreateTable _ | Stmt_DropTable _ | Stmt_DropIndex _ | Stmt_CreateIndex _ | Stmt_CreateFunction _ | Stmt_CreateSequence _
  | Stmt_CreateTopic _ | Stmt_Analyze _ | Stmt_Match _ | Stmt_AlterTable _ => other_statement stmt
  | Stmt_Set _ => pure (ok_tag "SET")
  | Stmt_Show sh => pure (mkQueryResult [simple (show_name sh) OID_TEXT] [[Some []]] "SHOW")
  | Stmt_Begin => pure (ok_tag "BEGIN")
  | Stmt_Commit =>
      do _ <- match txn with Some t => calling (db_commit t) | None => pure tt end;
      pure (ok_tag "COMMIT")
  | Stmt_Rollback => fun s => (match txn with Some t => db_rollback t s | None => s end, done (ok_tag "ROLLBACK"))
  | Stmt_DeclareCursor _ | Stmt_Fetch _ | Stmt_MoveCursor _ | Stmt_CloseCursor _ =>
      lift_eval (fails "cursor statements are only supported over the simple query protocol")
  | Stmt_Notify channel payload => fun s => (db_notify channel (default EmptyString payload) s, done (ok_tag "NOTIFY"))
  | Stmt_Listen _ | Stmt_Unlisten _ => lift_eval (fails "LISTEN/UNLISTEN are only supported over the simple query protocol")
  | Stmt_CopyIn _ | Stmt_CopyOut _ => lift_eval (fails "COPY is only supported over the simple query protocol")
  | Stmt_CreateRole c => administer "CREATE ROLE" (execute_create_role c)
  | Stmt_AlterRole a => administer "ALTER ROLE" (execute_alter_role a)
  | Stmt_DropRole d => administer "DROP ROLE" (fun _ _ => execute_drop_role d)
  | Stmt_Grant g => administer "GRANT" (fun _ _ => execute_grant g)
  | Stmt_Revoke r => administer "REVOKE" (fun _ _ => execute_revoke r)
  end.

(** The check reads the catalogues directly; then the statement runs. *)
Definition execute_parsed_as (stmt : Stmt) (params : list Value) (actor : Actor) (txn : option Txn) (s : State) : State * option Outcome :=
  match check actor stmt (through (Txn := Txn) None s) with
  | Err msg => (s, Some (inr (Denied msg)))
  | Ok _ =>
      match execute_parsed_inner stmt params txn s with
      | (s', Some (Ok r)) => (s', Some (inl r))
      | (s', Some (Err e)) => (s', Some (inr (Failed e)))
      | (s', None) => (s', None)
      end
  end.

(** Without an actor and outside a transaction. *)
Definition execute_parsed (stmt : Stmt) (params : list Value) (s : State) : State * option Outcome :=
  execute_parsed_as stmt params actor_unrestricted None s.

Definition execute_query (sql : string) (s : State) : State * option Outcome :=
  match sql_parse sql with
  | Some (Ok stmt) => execute_parsed stmt [] s
  | Some (Err e) => (s, Some (inr (Failed e)))
  | None => (s, None)
  end.

(** Denied statements do nothing; what is not denied fails as itself. *)
Lemma execute_denied (stmt : Stmt) (params : list Value) (actor : Actor) (txn : option Txn) (s s' : State) (msg : string) :
  execute_parsed_as stmt params actor txn s = (s', Some (inr (Denied msg))) -> s' = s /\ check actor stmt (through (Txn := Txn) None s) = Err msg.
Proof.
  unfold execute_parsed_as. destruct (check actor stmt (through None s)) as [u|e] eqn:Ec; [|by intros [= <- <-]].
  by destruct (execute_parsed_inner stmt params txn s) as [s1 [[r|e]|]].
Qed.

End Executor.

(** ** Parameters that are not looked for *)

(** [SELECT * FROM a JOIN b ON $1]: the condition of a join is not scanned, so
    the client is told that the statement has no parameters. *)
Lemma join_params_not_described :
  max_param_index (Stmt_Select (select_star (Some (mkTableWithJoins (mkTableRef "a" None None None)
    [mkJoin JoinType_Inner (mkTableRef "b" None None None) (Some (Expr_Param 1))])) None)) = 0
  /\ max_param_index (Stmt_Select (select_star (Some (plain_table "a")) (Some (Expr_Param 1)))) = 1.
Proof. split; vm_compute; reflexivity. Qed.
