(* ===== verification/Session.v ===== *)
(** A client's connection ([wire/session.rs]): the handshake, the simple and the
    extended query protocol, transactions, cursors, notifications and COPY.

    A session is the database, the extended state, the open transaction, the
    messages that still come from the client before it closes the connection,
    and a log of what the session did: the messages it sent and the calls on
    the database's transactions, in order. Handlers are actions on sessions; an
    error ends the session ([?]); [None] is a handler that never returns: a
    panic of its task, or a parser that does not come to an end ([hangs]).
    Writing to the client does not fail.

    [Wake] says what the loop's [select!] picks next. *)

From Stdlib Require Import Strings.Byte Strings.String ZArith Lia Bool.
From stdpp Require Import base list strings gmap.
From S2P Require Import Prelude OrdMap Utf8 Decimal Txn Compress Flux Rows Roles Auth Ast Rbac Jsonb Lexer Parser StmtCache Float Values JsonOps JsonSchema Eval Joins Sorting Windows Planner Select Dml Copy Executor Pgwire.

Open Scope Z_scope.
Open Scope eval_scope.
Open Scope act_scope.

(** ** State *)

Record CursorState := mkCursorState { cu_fields : list FieldDescription; cu_rows : list Row; cu_pos : nat }.
Record PreparedStmt := mkPreparedStmt { ps_stmt : Stmt; ps_param_types : list Z }.
Record Portal := mkPortal { po_stmt : Stmt; po_params : list Value; po_result_formats : list Z }.

Record ExtendedState := mkExtendedState {
  ext_prepared : gmap string PreparedStmt; ext_portals : gmap string Portal;
  ext_cursors : gmap string CursorState; ext_listening : gset string;
}.
Definition ext_default : ExtendedState := mkExtendedState ∅ ∅ ∅ ∅.

Definition set_prepared (f : gmap string PreparedStmt -> gmap string PreparedStmt) (x : ExtendedState) : ExtendedState :=
  mkExtendedState (f (ext_prepared x)) (ext_portals x) (ext_cursors x) (ext_listening x).
Definition set_portals (f : gmap string Portal -> gmap string Portal) (x : ExtendedState) : ExtendedState :=
  mkExtendedState (ext_prepared x) (f (ext_portals x)) (ext_cursors x) (ext_listening x).
Definition set_cursors (f : gmap string CursorState -> gmap string CursorState) (x : ExtendedState) : ExtendedState :=
  mkExtendedState (ext_prepared x) (ext_portals x) (f (ext_cursors x)) (ext_listening x).
Definition set_listening (f : gset string -> gset string) (x : ExtendedState) : ExtendedState :=
  mkExtendedState (ext_prepared x) (ext_portals x) (ext_cursors x) (f (ext_listening x)).

(** What a session does. *)
Inductive Deed (Txn : Type) :=
| Sent (m : BackendMessage)
| Began (t : Txn)
| Committed (t : Txn)
| RolledBack (t : Txn)
(* [ran] was executed in [txn] for the statement [asked] of the client. *)
| Executed (asked ran : Stmt) (txn : option Txn)
(* A COPY began to work on its table, outside of any transaction. *)
| Copied (copy : CopyStmt).
Arguments Sent {Txn}. Arguments Began {Txn}. Arguments Committed {Txn}. Arguments RolledBack {Txn}. Arguments Executed {Txn}. Arguments Copied {Txn}.

Record Session (State Txn : Type) := mkSession {
  se_db : State; se_ext : ExtendedState; se_txn : option Txn; se_input : list FrontendMessage; se_log : list (Deed Txn);
}.
Arguments mkSession {State Txn}. Arguments se_db {State Txn}. Arguments se_ext {State Txn}. Arguments se_txn {State Txn}.
Arguments se_input {State Txn}. Arguments se_log {State Txn}.

(** ** Formats and parameters *)

(** [f32 as f64] on the bits. *)
Definition widen_f32 (b : Z) : Z :=
  let neg := 2 ^ 31 <=? b in
  let e := b / 2 ^ 23 mod 2 ^ 8 in
  let m := b mod 2 ^ 23 in
  if e =? 255 then (if m =? 0 then with_sign neg F_INF else F_NAN)
  else
    let z := if e =? 0 then m else (m + 2 ^ 23) * 2 ^ (e - 1) in
    round_ratio neg (if neg then - z else z) (2 ^ 149).

Definition is_binary_bool (b : bytes) : bool := negb (byte_eqb (nth 0 b Byte.x00) Byte.x00).

(** By the width alone. *)
Definition sniff_binary (b : bytes) : Value :=
  match length b with
  | 1%nat => Value_Bool (is_binary_bool b)
  | 4%nat => Value_Int (signed_from_be 32 b)
  | 8%nat => Value_Int (signed_from_be 64 b)
  | _ => from_bytes (Some b)
  end.

Definition decode_param (param : option bytes) (format type_oid : Z) : Value :=
  match param with
  | None => Value_Null
  | Some b =>
      if format =? 0 then from_bytes (Some b)
      else if (type_oid =? OID_INT8) && (length b =? 8)%nat then Value_Int (signed_from_be 64 b)
      else if (type_oid =? OID_INT4) && (length b =? 4)%nat then Value_Int (signed_from_be 32 b)
      else if (type_oid =? OID_INT2) && (length b =? 2)%nat then Value_Int (signed_from_be 16 b)
      else if (type_oid =? OID_FLOAT8) && (length b =? 8)%nat then Value_Float (from_be b)
      else if (type_oid =? OID_FLOAT4) && (length b =? 4)%nat then Value_Float (widen_f32 (from_be b))
      else if (type_oid =? OID_BOOL) && (length b =? 1)%nat then Value_Bool (is_binary_bool b)
      else if type_oid =? OID_TEXT then match from_utf8 b with Some s => Value_Text s | None => sniff_binary b end
      else sniff_binary b
  end.

Definition resolve_result_formats (requested : list Z) (oids : list Z) : list Z :=
  imap (fun i type_oid =>
    let want := match requested with [] => 0 | [f] => f | _ => default 0 (requested !! i) end in
    if (want =? 1) && supports_binary type_oid then 1 else 0) oids.

Section Rows.
  Context {wc : WireCrates}.

Definition encode_result_row (row : Row) (oids formats : list Z) : Row :=
  imap (fun i cell =>
    match cell with
    | None => None
    | Some data =>
        if default 0 (formats !! i) =? 1
        then Some (default data (text_cell_to_binary data (default OID_TEXT (oids !! i))))
        else Some data
    end) row.

End Rows.

(** ** Cursors *)

(** [rows.len() - pos] and [rows[pos..end]] panic where the position is past
    the end. *)
Definition fetch_count (count : FetchCount) (c : CursorState) : Eval nat :=
  match count with
  | FetchCount_Next => done 1%nat
  | FetchCount_All => if (length (cu_rows c) <? cu_pos c)%nat then panics else done (length (cu_rows c) - cu_pos c)%nat
  | FetchCount_Count n => done (Z.to_nat (Z.max n 0))
  end.

Definition advance_cursor (count : FetchCount) (c : CursorState) : Eval (CursorState * list Row) :=
  let* n := fetch_count count c in
  let end_ := Nat.min (cu_pos c + n) (length (cu_rows c)) in
  if (end_ <? cu_pos c)%nat then panics
  else done (mkCursorState (cu_fields c) (cu_rows c) end_, take (end_ - cu_pos c) (drop (cu_pos c) (cu_rows c))).

(** ** The SASL message *)

Definition parse_sasl_initial_response (data : bytes) : Result (string * bytes) :=
  if negb (existsb (fun b => byte_eqb b Byte.x00) data) then Err "malformed SASLInitialResponse"%string
  else
    let '(name, rest) := cstr_split data in
    let? mechanism := ok_or (from_utf8 name) "invalid utf-8 sequence" in
    if zlen rest <? 4 then Err "malformed SASLInitialResponse: missing length"%string
    else
      let len := signed_from_be 32 (take 4 rest) in
      if len <? 0 then Ok (mechanism, [])
      else if zlen rest <? 4 + len then Err "SASLInitialResponse length out of bounds"%string
      else Ok (mechanism, take (Z.to_nat len) (drop 4 rest)).

Definition MECHANISM : string := "SCRAM-SHA-256".

Definition sqlstate_for (e : ExecError) : string := match e with Denied _ => "42501" | Failed _ => "42601" end.

(** ** Actions of a session *)

Section Session.
  Context {State Txn : Type} {rs : RowStore State} {tables : Schemas State} {catalog : Catalog State Txn} {functions : Functions State} {engine : Engine State Txn}.
  Context {world : World State} {std : StdLib} {crates : Crates} {js : Json} {vectors : Vectors} {dbg : DebugFmt} {sorts : SortBy} {cr : Crypto} {wc : WireCrates}.
  Context (gpu_pairs : Expr -> option TableSchema -> option TableSchema -> list Row -> list Row -> option (list (nat * nat))).
  Context (stack : nat).

Abbreviation Sess := (Session State Txn).
Abbreviation Do := (Act (Session State Txn)).

Definition note (d : Deed Txn) (s : Sess) : Sess := mkSession (se_db s) (se_ext s) (se_txn s) (se_input s) (se_log s ++ [d]).
Definition put_db (db : State) (s : Sess) : Sess := mkSession db (se_ext s) (se_txn s) (se_input s) (se_log s).
Definition set_txn (txn : option Txn) (s : Sess) : Sess := mkSession (se_db s) (se_ext s) txn (se_input s) (se_log s).
Definition set_ext (f : ExtendedState -> ExtendedState) (s : Sess) : Sess := mkSession (se_db s) (f (se_ext s)) (se_txn s) (se_input s) (se_log s).
Definition set_input (input : list FrontendMessage) (s : Sess) : Sess := mkSession (se_db s) (se_ext s) (se_txn s) input (se_log s).

Definition send (m : BackendMessage) : Do unit := fun s => (note (Sent m) s, done tt).
Definition send_error (e : ErrorInfo) : Do unit := send (B_ErrorResponse e).
Definition modify (f : Sess -> Sess) : Do unit := fun s => (f s, done tt).
Definition getting {A : Type} (f : Sess -> A) : Do A := fun s => (s, done (f s)).
Fixpoint send_all (ms : list BackendMessage) : Do unit :=
  match ms with [] => pure tt | m :: ms' => do _ <- send m; send_all ms' end.

(** [conn.read_message().await?] *)
Definition next_message : Do FrontendMessage := fun s =>
  match se_input s with
  | m :: input => (set_input input s, done m)
  | [] => (s, fails "connection closed by client")
  end.

(** An action on the database whose error the session handles. *)
Definition on_db {A : Type} (m : Act State A) : Do (Result A) := fun s =>
  match m (se_db s) with
  | (db, Some r) => (put_db db s, done r)
  | (db, None) => (put_db db s, panics)
  end.

(** [execute_parsed_as], for the statement [asked] of the client. *)
Definition execute_as (asked stmt : Stmt) (params : list Value) (actor : Actor) (txn : option Txn) : Do Outcome := fun s =>
  let s := note (Executed asked stmt txn) s in
  match execute_parsed_as gpu_pairs stack stmt params actor txn (se_db s) with
  | (db, Some r) => (put_db db s, done r)
  | (db, None) => (put_db db s, panics)
  end.

(** ** Transactions *)

Definition session_begin : Do unit := fun s =>
  match se_txn s with
  | Some _ => (s, done tt)
  | None => let '(db, t) := db_begin (se_db s) in (set_txn (Some t) (note (Began t) (put_db db s)), done tt)
  end.

(** The handle is taken before the commit, and dropped behind it. *)
Definition session_commit : Do (Result unit) := fun s =>
  match se_txn s with
  | None => (s, done (Ok tt))
  | Some t => let '(db, r) := db_commit t (se_db s) in (set_txn None (note (Committed t) (put_db db s)), done r)
  end.

Definition session_rollback : Do unit := fun s =>
  match se_txn s with
  | None => (s, done tt)
  | Some t => (set_txn None (note (RolledBack t) (put_db (db_rollback t (se_db s)) s)), done tt)
  end.

Definition txn_status : Do TransactionStatus := getting (fun s => match se_txn s with Some _ => Status_InTransaction | None => Status_Idle end).
Definition ready (status : TransactionStatus) : Do unit := send (B_ReadyForQuery status).
Definition fail_with (e : ExecError) : Do unit := send_error (error_new (sqlstate_for e) (error_text e)).

(** ** COPY *)

Definition copy_abort (message : string) : Do unit :=
  do _ <- send_error (error_new "42P01" message); ready Status_Idle.

(** The messages of the client up to the end of the copy. *)
Fixpoint copy_in_loop (input : list FrontendMessage) (table : string) (schema : TableSchema) (target : list nat) (c : CopyIn) : Do CopyIn :=
  match input with
  | [] => fun s => (set_input [] s, fails "connection closed by client")
  | m :: input' =>
      match m with
      | F_CopyData data => fun s =>
          match copy_data table schema target data c (se_db s) with
          | (db, Some (Ok c')) => copy_in_loop input' table schema target c' (put_db db s)
          | (db, Some (Err e)) => (put_db db s, fails e)
          | (db, None) => (put_db db s, panics)
          end
      | F_CopyDone => fun s => (set_input input' s, done c)
      | F_CopyFail msg => fun s => (set_input input' s, done (mkCopyIn (ci_buf c) (ci_row_count c) (Some ("COPY aborted by client: " +:+ msg))))
      | _ => copy_in_loop input' table schema target c
      end
  end.

(** The table and the columns of a COPY, or the answer that there are none. *)
Definition copy_target (copy : CopyStmt) : Do (option (TableSchema * list nat)) :=
  do found <- on_db (reading (fun db => tables_get (copy_table copy) (through (Txn := Txn) None db)));
  match found with
  | Err e => do _ <- copy_abort e; pure None
  | Ok None => do _ <- copy_abort ("table " +:+ quoted (copy_table copy) +:+ " does not exist"); pure None
  | Ok (Some schema) =>
      match target_columns schema (copy_columns copy) with
      | Err e => do _ <- copy_abort e; pure None
      | Ok target => pure (Some (schema, target))
      end
  end.

Definition handle_copy_in (copy : CopyStmt) : Do unit :=
  do found <- copy_target copy;
  match found with
  | None => pure tt
  | Some (schema, target) =>
      do _ <- send (B_CopyInResponse (length target));
      do _ <- modify (fun s => note (Copied copy) (put_db (through (Txn := Txn) None (se_db s)) s));
      do input <- getting se_input;
      do c <- copy_in_loop input (copy_table copy) schema target (mkCopyIn [] 0 None);
      do _ <- match ci_failed c with
              | Some msg => send_error (error_new "22P04" msg)
              | None => send (B_CommandComplete ("COPY " +:+ to_dec (ci_row_count c)))
              end;
      ready Status_Idle
  end.

Definition handle_copy_out (copy : CopyStmt) : Do unit :=
  do found <- copy_target copy;
  match found with
  | None => pure tt
  | Some (schema, target) =>
      do _ <- modify (fun s => note (Copied copy) (put_db (through (Txn := Txn) None (se_db s)) s));
      do scanned <- on_db (scan_for_copy (copy_table copy) target);
      match scanned with
      | Err e => copy_abort e
      | Ok rows =>
          do _ <- send (B_CopyOutResponse (length target));
          do _ <- send_all (map (fun row => B_CopyData (encode_copy_line row)) rows);
          do _ <- send B_CopyDone;
          do _ <- send (B_CommandComplete ("COPY " +:+ to_dec (zlen rows)));
          ready Status_Idle
      end
  end.

(** ** Simple queries *)

Definition no_cursor (name : string) : Outcome := inr (Failed ("cursor " +:+ quoted name +:+ " does not exist")).

(** FETCH and MOVE: the cursor moves on, the rows go where [answer] says. *)
Definition move_cursor (f : FetchStmt) (answer : CursorState -> list Row -> QueryResult) : Do Outcome :=
  do cursors <- getting (fun s => ext_cursors (se_ext s));
  match cursors !! fe_cursor f with
  | None => pure (no_cursor (fe_cursor f))
  | Some c =>
      do moved <- lift_eval (advance_cursor (fe_count f) c);
      do _ <- modify (set_ext (set_cursors (<[fe_cursor f := fst moved]>)));
      pure (inl (answer (fst moved) (snd moved)))
  end.

Definition execute_simple (stmt : Stmt) (actor : Actor) : Do Outcome :=
  match stmt with
  | Stmt_Listen channel =>
      do _ <- modify (set_ext (set_listening (fun l => {[channel]} ∪ l)));
      pure (inl (ok_tag "LISTEN"))
  | Stmt_Unlisten channel =>
      do _ <- modify (set_ext (set_listening (fun l => if String.eqb channel "*" then ∅ else l ∖ {[channel]})));
      pure (inl (ok_tag "UNLISTEN"))
  | Stmt_DeclareCursor d =>
      do r <- execute_as stmt (Stmt_Select (dc_query d)) [] actor None;
      match r with
      | inr e => pure (inr e)
      | inl result =>
          do _ <- modify (set_ext (set_cursors (<[dc_name d := mkCursorState (qr_fields result) (qr_rows result) 0]>)));
          pure (inl (ok_tag "DECLARE CURSOR"))
      end
  | Stmt_Fetch f => move_cursor f (fun c rows => mkQueryResult (cu_fields c) rows ("FETCH " +:+ to_dec (zlen rows)))
  | Stmt_MoveCursor f => move_cursor f (fun c rows => ok_tag ("MOVE " +:+ to_dec (zlen rows)))
  | Stmt_CloseCursor name =>
      do cursors <- getting (fun s => ext_cursors (se_ext s));
      match cursors !! name with
      | None => pure (no_cursor name)
      | Some _ => do _ <- modify (set_ext (set_cursors (delete name))); pure (inl (ok_tag "CLOSE CURSOR"))
      end
  | other => do txn <- getting se_txn; execute_as other other [] actor txn
  end.

Definition send_result (r : QueryResult) : Do unit :=
  do _ <- send (B_RowDescription (qr_fields r));
  do _ <- send_all (map B_DataRow (qr_rows r));
  send (B_CommandComplete (qr_tag r)).

(** The statements of a query, up to the first error; [true] when a COPY took
    over and has answered. *)
Fixpoint run_batch (stmts : list Stmt) (actor : Actor) : Do bool :=
  match stmts with
  | [] => pure false
  | stmt :: stmts' =>
      match stmt with
      | Stmt_CopyIn copy => do _ <- handle_copy_in copy; pure true
      | Stmt_CopyOut copy => do _ <- handle_copy_out copy; pure true
      | Stmt_Begin => do _ <- session_begin; do _ <- send (B_CommandComplete "BEGIN"); run_batch stmts' actor
      | Stmt_Commit =>
          do r <- session_commit;
          match r with
          | Err e => do _ <- fail_with (Failed e); pure false
          | Ok _ => do _ <- send (B_CommandComplete "COMMIT"); run_batch stmts' actor
          end
      | Stmt_Rollback => do _ <- session_rollback; do _ <- send (B_CommandComplete "ROLLBACK"); run_batch stmts' actor
      | other =>
          do r <- execute_simple other actor;
          match r with
          | inl result => do _ <- send_result result; run_batch stmts' actor
          | inr e => do _ <- fail_with e; pure false
          end
      end
  end.

(** The parser does not end, as on CREATE TABLE without its closing
    parenthesis: nothing more is heard of the session. *)
Definition hangs {A : Type} : Do A := fun s => (s, None).

Definition handle_simple_query (sql : string) (actor : Actor) : Do unit :=
  if String.eqb sql EmptyString then do _ <- send B_EmptyQueryResponse; ready Status_Idle
  else
    match sql_parse_all sql with
    | None => hangs
    | Some (Err e) => do _ <- send_error (error_new "42601" e); ready Status_Idle
    | Some (Ok []) => do _ <- send B_EmptyQueryResponse; ready Status_Idle
    | Some (Ok stmts) =>
        do answered <- run_batch stmts actor;
        if (answered : bool) then pure tt
        else do status <- txn_status; ready status
    end.

(** ** The extended protocol *)

Definition send_row_description_for (stmt : Stmt) (result_formats : list Z) : Do unit :=
  match stmt with
  | Stmt_Select sel => fun s =>
      let db := through (Txn := Txn) None (se_db s) in
      let described := describe_select (Txn := Txn) gpu_pairs stack db sel in
      let s := put_db (describe_effect sel db) s in
      match described with
      | None => (s, panics)
      | Some (Ok (f :: fs)) =>
          let oids := map fd_type_oid (f :: fs) in
          let with_format f fmt := mkFieldDescription (fd_name f) (fd_table_oid f) (fd_col_attr f) (fd_type_oid f) (fd_type_size f) (fd_type_modifier f) fmt in
          send (B_RowDescription (zip_with with_format (f :: fs) (resolve_result_formats result_formats oids))) s
      | Some _ => send B_NoData s
      end
  | _ => send B_NoData
  end.

Definition handle_parse (name query : string) (param_types : list Z) : Do unit :=
  match sql_parse query with
  | None => hangs
  | Some (Ok stmt) =>
      do _ <- modify (set_ext (set_prepared (<[name := mkPreparedStmt stmt param_types]>)));
      send B_ParseComplete
  | Some (Err e) => send_error (error_new "42601" e)
  end.

Definition bind_values (params : Row) (param_formats param_types : list Z) : list Value :=
  imap (fun i b => decode_param b (default 0 (param_formats !! i)) (default 0 (param_types !! i))) params.

Definition handle_bind (portal stmt : string) (params : Row) (param_formats result_formats : list Z) : Do unit :=
  do prepared <- getting (fun s => ext_prepared (se_ext s));
  match prepared !! stmt with
  | Some p =>
      do _ <- modify (set_ext (set_portals (<[portal := mkPortal (ps_stmt p) (bind_values params param_formats (ps_param_types p)) result_formats]>)));
      send B_BindComplete
  | None => send_error (error_new "26000" ("prepared statement " +:+ quoted stmt +:+ " does not exist"))
  end.

(** As many types as parameters, TEXT where none was declared. *)
Definition described_types (p : PreparedStmt) : list Z :=
  let n := Z.to_nat (Z.max (max_param_index (ps_stmt p)) (zlen (ps_param_types p))) in
  map (fun i => match ps_param_types p !! i with Some t => if t =? 0 then OID_TEXT else t | None => OID_TEXT end) (seq 0 n).

Definition handle_describe (kind : byte) (name : string) : Do unit :=
  do ext <- getting se_ext;
  if byte_eqb kind "S" then
    match ext_prepared ext !! name with
    | Some p => do _ <- send (B_ParameterDescription (described_types p)); send_row_description_for (ps_stmt p) []
    | None => send_error (error_new "26000" ("prepared statement " +:+ quoted name +:+ " does not exist"))
    end
  else
    match ext_portals ext !! name with
    | Some p => send_row_description_for (po_stmt p) (po_result_formats p)
    | None => send_error (error_new "34000" ("portal " +:+ quoted name +:+ " does not exist"))
    end.

(** The rows of an Execute, and whether more are left. *)
Definition portal_rows (result : QueryResult) (max_rows : Z) : list Row * bool :=
  if (0 <? max_rows) && (max_rows <? zlen (qr_rows result)) then (take (Z.to_nat max_rows) (qr_rows result), true) else (qr_rows result, false).

Definition send_portal_result (p : Portal) (result : QueryResult) (max_rows : Z) : Do unit :=
  let '(rows, limited) := portal_rows result max_rows in
  let oids := map fd_type_oid (qr_fields result) in
  let formats := resolve_result_formats (po_result_formats p) oids in
  do _ <- send_all (map (fun row => B_DataRow (encode_result_row row oids formats)) rows);
  send (if (limited : bool) then B_PortalSuspended else B_CommandComplete (qr_tag result)).

Definition handle_execute (portal : string) (max_rows : Z) (actor : Actor) : Do unit :=
  do portals <- getting (fun s => ext_portals (se_ext s));
  match portals !! portal with
  | None => send_error (error_new "34000" ("portal " +:+ quoted portal +:+ " does not exist"))
  | Some p =>
      match po_stmt p with
      | Stmt_Begin => do _ <- session_begin; send (B_CommandComplete "BEGIN")
      | Stmt_Commit =>
          do r <- session_commit;
          match r with
          | Err e => fail_with (Failed e)
          | Ok _ => send (B_CommandComplete "COMMIT")
          end
      | Stmt_Rollback => do _ <- session_rollback; send (B_CommandComplete "ROLLBACK")
      | stmt =>
          do txn <- getting se_txn;
          do r <- execute_as stmt stmt (po_params p) actor txn;
          match r with
          | inl result => send_portal_result p result max_rows
          | inr e => fail_with e
          end
      end
  end.

Definition handle_close (kind : byte) (name : string) : Do unit :=
  do _ <- modify (set_ext (if byte_eqb kind "S" then set_prepared (delete name) else set_portals (delete name)));
  send B_CloseComplete.

(** ** The loop *)

(** One message; [false] ends the session. *)
Definition handle_message (msg : FrontendMessage) (actor : Actor) : Do bool :=
  match msg with
  | F_Query sql => do _ <- handle_simple_query (trim sql) actor; pure true
  | F_Parse name query param_types => do _ <- handle_parse name query param_types; pure true
  | F_Bind portal stmt params param_formats result_formats => do _ <- handle_bind portal stmt params param_formats result_formats; pure true
  | F_Describe kind name => do _ <- handle_describe kind name; pure true
  | F_Execute portal max_rows => do _ <- handle_execute portal max_rows actor; pure true
  | F_Close kind name => do _ <- handle_close kind name; pure true
  | F_Sync => do status <- txn_status; do _ <- ready status; pure true
  | F_Terminate => pure false
  | F_Flush | F_CancelRequest | F_CopyData _ | F_CopyDone | F_CopyFail _ | F_PasswordData _ => pure true
  end.

(** A message of the client, or a notification of another session. *)
Inductive Wake := Wake_Client | Wake_Notification (channel payload : string).

Definition handle_notification (channel payload : string) : Do unit :=
  do ext <- getting se_ext;
  if bool_decide (channel ∈ ext_listening ext) then send (B_NotificationResponse 1 channel payload) else pure tt.

Fixpoint run_query_loop (schedule : list Wake) (actor : Actor) : Do unit :=
  match schedule with
  | [] => pure tt
  | Wake_Client :: schedule' =>
      do msg <- next_message;
      do go <- handle_message msg actor;
      if (go : bool) then run_query_loop schedule' actor else pure tt
  | Wake_Notification channel payload :: schedule' =>
      do _ <- handle_notification channel payload; run_query_loop schedule' actor
  end.

(** ** The handshake *)

(** [nonce] are the random bytes of the server's nonce. *)
Definition authenticate (user : string) (nonce : bytes) : Do unit :=
  do db <- getting (fun s => through (Txn := Txn) None (se_db s));
  do role <- lift_eval (Some (find_role user db));
  do _ <- match role with
          | Some attrs => if ra_can_login attrs then pure tt else lift_eval (fails "role is not permitted to log in")
          | None => pure tt
          end;
  do found <- lift_eval (Some (Auth.find user db));
  do cred <- lift_eval (Some (ok_or found "no such role"));
  do _ <- send (B_AuthenticationSASL [MECHANISM]);
  do m1 <- next_message;
  do initial <- match m1 with F_PasswordData d => pure d | _ => lift_eval (fails "expected SASLInitialResponse") end;
  do parsed <- lift_eval (Some (parse_sasl_initial_response initial));
  do _ <- if String.eqb (fst parsed) MECHANISM then pure tt else lift_eval (fails "unsupported SASL mechanism");
  do first <- lift_eval (Some (server_first (snd parsed) nonce cred));
  do _ <- send (B_AuthenticationSASLContinue (sf_server_first_message first));
  do m2 <- next_message;
  do client_final <- match m2 with F_PasswordData d => pure d | _ => lift_eval (fails "expected SASLResponse") end;
  do server_final <- lift_eval (Some (verify_client_final client_final first cred));
  do _ <- send (B_AuthenticationSASLFinal server_final);
  send B_AuthenticationOk.

Definition PARAMETERS : list (string * string) :=
  [("server_version", "16.0 (TPT Keystone 0.1.0)"); ("server_encoding", "UTF8"); ("client_encoding", "UTF8");
   ("DateStyle", "ISO, MDY"); ("integer_datetimes", "on"); ("TimeZone", "UTC")]%string.

Definition startup_user (params : list (string * string)) : string :=
  default EmptyString (snd <$> List.find (fun p => String.eqb (fst p) "user") params).

(** The handshake up to the query loop: the actor of the connection, or [None]
    when the client was turned away. *)
Definition start_session (startup : StartupParams) (nonce : bytes) : Do (option Actor) :=
  let user := startup_user (sp_params startup) in
  do empty <- (fun s => (s, Some (roles_is_empty (through (Txn := Txn) None (se_db s)))));
  do let_in <- (if (empty : bool) then do _ <- send B_AuthenticationOk; pure true
                else fun s =>
                  match authenticate user nonce s with
                  | (s', Some (Ok _)) => (s', done true)
                  | (s', Some (Err _)) =>
                      (do _ <- send_error (error_fatal "28P01" ("password authentication failed for user " +:+ quoted user)); pure false) s'
                  | (s', None) => (s', None)
                  end);
  if negb let_in then pure None
  else
    do empty <- (fun s => (s, Some (roles_is_empty (through (Txn := Txn) None (se_db s)))));
    do actor <- (if (empty : bool) then pure (Ok actor_unrestricted) else on_db (fun db => calling (for_role user) (through (Txn := Txn) None db)));
    do actor <- lift_eval (Some actor);
    do _ <- send_all (map (fun p => B_ParameterStatus (fst p) (snd p)) PARAMETERS);
    do _ <- send (B_BackendKeyData 1 0);
    do _ <- ready Status_Idle;
    pure (Some actor).

Definition run_session (startup : StartupParams) (nonce : bytes) (schedule : list Wake) : Do unit :=
  do actor <- start_session startup nonce;
  match actor with
  | Some a => run_query_loop schedule a
  | None => pure tt
  end.

End Session.
