(* ===== verification/SessionFacts.v ===== *)
(** Theorems of sessions ([Session]): a simple query is answered by the results
    of its statements and one ReadyForQuery; transactions are opened, used and
    ended one after the other; a cursor gives its rows in order; nobody gets
    past the handshake without the proof of the password.

    [keeps R m]: whatever becomes of [m], the session behind it is related to
    the one before. [says P m]: when [m] comes to its end, the messages it sent
    are as [P] says. Both pass through sequences, so that a handler has them
    when its parts do. *)

From Stdlib Require Import Strings.Byte Strings.String ZArith Lia Bool.
From stdpp Require Import base list strings gmap.
From S2P Require Import Prelude OrdMap Utf8 Decimal Txn Compress Flux Rows Roles Auth Ast Rbac Jsonb Lexer Parser StmtCache Float Values JsonOps JsonSchema Eval Joins Sorting Windows Planner Select Dml Copy Executor Pgwire Session.

Open Scope Z_scope.
Open Scope eval_scope.
Open Scope act_scope.

Create HintDb session.

Section Facts.
  Context {State Txn : Type} {rs : RowStore State} {tables : Schemas State} {catalog : Catalog State Txn} {functions : Functions State} {engine : Engine State Txn}.
  Context {world : World State} {std : StdLib} {crates : Crates} {js : Json} {vectors : Vectors} {dbg : DebugFmt} {sorts : SortBy} {cr : Crypto} {wc : WireCrates}.
  Context (gpu_pairs : Expr -> option TableSchema -> option TableSchema -> list Row -> list Row -> option (list (nat * nat))).
  Context (stack : nat).

Abbreviation Sess := (Session State Txn).
Abbreviation Do := (Act (Session State Txn)).

(** ** Relations that every step keeps *)

Definition keeps {A : Type} (R : Sess -> Sess -> Prop) (m : Do A) : Prop := forall s, R s (fst (m s)).

Section Keeps.
  Context (R : Sess -> Sess -> Prop) `{HR : !PreOrder R}.

Lemma keeps_pure {A : Type} (a : A) : keeps R (pure a).
Proof. intros s. reflexivity. Qed.

Lemma keeps_lift {A : Type} (m : Eval A) : keeps R (lift_eval m).
Proof. intros s. reflexivity. Qed.

Lemma keeps_getting {A : Type} (f : Sess -> A) : keeps R (getting f).
Proof. intros s. reflexivity. Qed.

Lemma keeps_bind {A B : Type} (m : Do A) (k : A -> Do B) : keeps R m -> (forall a, keeps R (k a)) -> keeps R (abind m k).
Proof.
  intros Hm Hk s. unfold abind. specialize (Hm s). destruct (m s) as [s' [[a|e]|]]; cbn [fst] in *; [|done..]. transitivity s'; [done | apply Hk].
Qed.

End Keeps.

(** What the steps of a session do to it, other than to its transaction. *)
Inductive quiet_step : Sess -> Sess -> Prop :=
| q_sent (m : BackendMessage) (s : Sess) : quiet_step s (note (Sent m) s)
| q_db (db : State) (s : Sess) : quiet_step s (put_db db s)
| q_input (input : list FrontendMessage) (s : Sess) : quiet_step s (set_input input s)
| q_copied (copy : CopyStmt) (s : Sess) : quiet_step s (note (Copied copy) s).

Section Handlers.
  Context (R : Sess -> Sess -> Prop) `{HR : !PreOrder R}.
  Context (Hquiet : forall s s', quiet_step s s' -> R s s').
  (** Statements, each in the transaction of its session; the query of DECLARE
      CURSOR in none. *)
  Context (Hexec : forall stmt s, R s (note (Executed stmt stmt (se_txn s)) s)).
  Context (Hdeclare : forall d s, R s (note (Executed (Stmt_DeclareCursor d) (Stmt_Select (dc_query d)) None) s)).
  Context (Hext : forall s, (forall x, R s (set_ext (set_prepared x) s)) /\ (forall x, R s (set_ext (set_portals x) s)) /\ (forall x, R s (set_ext (set_listening x) s))).
  Context (Hcursor : forall s name c, (cu_pos c <= length (cu_rows c))%nat -> R s (set_ext (set_cursors (<[name := c]>)) s)).
  Context (Hclose : forall s name, R s (set_ext (set_cursors (delete name)) s)).
  Context (Hbegin : forall s db t, se_txn s = None -> R s (set_txn (Some t) (note (Began t) (put_db db s)))).
  Context (Hcommit : forall s db t, se_txn s = Some t -> R s (set_txn None (note (Committed t) (put_db db s)))).
  Context (Hrollback : forall s db t, se_txn s = Some t -> R s (set_txn None (note (RolledBack t) (put_db db s)))).

#[local] Hint Resolve keeps_pure keeps_lift keeps_getting : session.

Lemma keeps_send (m : BackendMessage) : keeps R (send m).
Proof. intros s. apply Hquiet. constructor. Qed.

Lemma keeps_next : keeps R next_message.
Proof. intros s. unfold next_message. destruct (se_input s); [reflexivity|]. apply Hquiet. constructor. Qed.

Lemma keeps_on_db {A : Type} (m : Act State A) : keeps R (on_db m).
Proof. intros s. unfold on_db. destruct (m (se_db s)) as [db [r|]]; apply Hquiet; constructor. Qed.

Lemma keeps_set_db (f : State -> State) : keeps R (modify (fun s => put_db (f (se_db s)) s)).
Proof. intros s. apply Hquiet. constructor. Qed.

Lemma keeps_send_all (ms : list BackendMessage) : keeps R (send_all ms).
Proof. induction ms as [|m ms IH]; cbn [send_all]; [apply keeps_pure; apply HR|]. apply keeps_bind; [apply HR | apply keeps_send | done]. Qed.

Lemma keeps_begin : keeps R session_begin.
Proof. intros s. unfold session_begin. destruct (se_txn s) eqn:E; [reflexivity|]. destruct (db_begin (se_db s)) as [db t]. by apply Hbegin. Qed.

Lemma keeps_commit : keeps R session_commit.
Proof. intros s. unfold session_commit. destruct (se_txn s) eqn:E; [|reflexivity]. destruct (db_commit t (se_db s)) as [db r]. by apply Hcommit. Qed.

Lemma keeps_rollback : keeps R session_rollback.
Proof. intros s. unfold session_rollback. destruct (se_txn s) eqn:E; [|reflexivity]. by apply Hrollback. Qed.

Lemma keeps_execute_noted (asked stmt : Stmt) (params : list Value) (actor : Actor) (txn : option Txn) (s : Sess) :
  R s (note (Executed asked stmt txn) s) -> R s (fst (execute_as gpu_pairs stack asked stmt params actor txn s)).
Proof.
  intros Hn. unfold execute_as. etransitivity; [exact Hn|].
  destruct (execute_parsed_as gpu_pairs stack stmt params actor txn _) as [db [r|]]; apply Hquiet; constructor.
Qed.

Lemma keeps_execute_open (stmt : Stmt) (params : list Value) (actor : Actor) :
  keeps R (do txn <- getting se_txn; execute_as gpu_pairs stack stmt stmt params actor txn).
Proof. intros s. unfold abind, getting, done. apply keeps_execute_noted, Hexec. Qed.

Lemma keeps_declare (d : DeclareCursorStmt) (params : list Value) (actor : Actor) :
  keeps R (execute_as gpu_pairs stack (Stmt_DeclareCursor d) (Stmt_Select (dc_query d)) params actor None).
Proof. intros s. apply keeps_execute_noted, Hdeclare. Qed.

Lemma keeps_copied (copy : CopyStmt) (f : State -> State) : keeps R (modify (fun s => note (Copied copy) (put_db (f (se_db s)) s))).
Proof. intros s. etransitivity; apply Hquiet; [apply (q_db (f (se_db s))) | apply (q_copied copy)]. Qed.

Ltac keep := repeat first
  [ apply keeps_bind; [apply HR | | intros ?] | apply keeps_pure; apply HR | apply keeps_lift; apply HR | apply keeps_getting; apply HR | apply keeps_send
  | apply keeps_send_all | apply keeps_on_db | apply keeps_next | apply keeps_set_db | apply keeps_begin | apply keeps_commit | apply keeps_rollback
  | apply keeps_execute_open | apply keeps_declare | apply keeps_copied | match goal with |- keeps R (if ?b then _ else _) => destruct b end
  | match goal with |- keeps R (match ?x with _ => _ end) => destruct x end ].

Lemma keeps_copy_loop (input : list FrontendMessage) (table : string) (schema : TableSchema) (target : list nat) (c : CopyIn) :
  keeps R (copy_in_loop input table schema target c).
Proof.
  revert c. induction input as [|m input IH]; intros c; cbn [copy_in_loop]; [intros s; apply Hquiet; constructor|].
  destruct m; try apply IH; try (intros s; apply Hquiet; constructor). intros s.
  destruct (copy_data table schema target data c (se_db s)) as [db [[c'|e]|]]; [|apply Hquiet; constructor..].
  etransitivity; [apply Hquiet, (q_db db)|]. apply IH.
Qed.

Lemma keeps_copy_abort (msg : string) : keeps R (copy_abort msg).
Proof. unfold copy_abort, send_error, ready. keep. Qed.

Lemma keeps_copy_target (copy : CopyStmt) : keeps R (copy_target copy).
Proof. unfold copy_target. keep; apply keeps_copy_abort. Qed.

Lemma keeps_copy_in (copy : CopyStmt) : keeps R (handle_copy_in copy).
Proof. unfold handle_copy_in, send_error, ready. apply keeps_bind; [apply HR | apply keeps_copy_target|]. intros found. keep. all: apply keeps_copy_loop. Qed.

Lemma keeps_copy_out (copy : CopyStmt) : keeps R (handle_copy_out copy).
Proof. unfold handle_copy_out, ready. apply keeps_bind; [apply HR | apply keeps_copy_target|]. intros found. keep. all: apply keeps_copy_abort. Qed.

Lemma advance_in_range (count : FetchCount) (c c' : CursorState) (rows : list Row) :
  advance_cursor count c = done (c', rows) -> (cu_pos c' <= length (cu_rows c'))%nat.
Proof.
  unfold advance_cursor. destruct (fetch_count count c) as [[n|e]|]; cbn [ebind done]; [|done..].
  destruct (_ <? _)%nat; [done|]. intros [= <- <-]. cbn [cu_pos cu_rows]. lia.
Qed.

Lemma keeps_move (f : FetchStmt) (answer : CursorState -> list Row -> QueryResult) : keeps R (move_cursor f answer).
Proof.
  unfold move_cursor. apply keeps_bind; [apply HR | by apply keeps_getting|]. intros cursors. destruct (cursors !! fe_cursor f) as [c|]; [|by apply keeps_pure].
  intros s. unfold abind, lift_eval. destruct (advance_cursor (fe_count f) c) as [[[c' rows]|e]|] eqn:E; [|reflexivity..].
  cbn [modify pure done fst snd]. apply Hcursor. by eapply advance_in_range.
Qed.

Lemma keeps_execute_simple (stmt : Stmt) (actor : Actor) : keeps R (execute_simple gpu_pairs stack stmt actor).
Proof.
  unfold execute_simple. destruct stmt; try apply keeps_execute_open; try apply keeps_move.
  - apply keeps_bind; [apply HR | apply keeps_declare|]. intros [r|e]; [|by apply keeps_pure].
    apply keeps_bind; [apply HR | | intros; by apply keeps_pure]. intros s'. apply Hcursor. cbn. lia.
  - apply keeps_bind; [apply HR | by apply keeps_getting|]. intros cursors. destruct (cursors !! name); [|by apply keeps_pure].
    apply keeps_bind; [apply HR | | intros; by apply keeps_pure]. intros s'. apply Hclose.
  - apply keeps_bind; [apply HR | | intros; by apply keeps_pure]. intros s'. apply Hext.
  - apply keeps_bind; [apply HR | | intros; by apply keeps_pure]. intros s'. apply Hext.
Qed.

Lemma keeps_send_result (r : QueryResult) : keeps R (send_result r).
Proof. unfold send_result. keep. Qed.

Lemma keeps_run_batch (stmts : list Stmt) (actor : Actor) : keeps R (run_batch gpu_pairs stack stmts actor).
Proof.
  induction stmts as [|stmt stmts IH]; cbn [run_batch]; [by apply keeps_pure|].
  assert (keeps R (do r <- execute_simple gpu_pairs stack stmt actor;
                   match r with inl result => do _ <- send_result result; run_batch gpu_pairs stack stmts actor | inr e => do _ <- fail_with e; pure false end)) as Hother.
  { apply keeps_bind; [apply HR | apply keeps_execute_simple|]. intros [r|e]; unfold fail_with, send_error; repeat first [exact IH | apply keeps_send_result | progress keep]. }
  destruct stmt; try exact Hother; (apply keeps_bind; [apply HR | first [apply keeps_copy_in | apply keeps_copy_out | apply keeps_begin | apply keeps_commit | apply keeps_rollback] | intros r]);
    try (by apply keeps_pure); [| destruct r |]; unfold fail_with, send_error; keep; exact IH.
Qed.

Lemma keeps_simple_query (sql : string) (actor : Actor) : keeps R (handle_simple_query gpu_pairs stack sql actor).
Proof.
  unfold handle_simple_query, send_error, ready, txn_status. destruct (String.eqb sql EmptyString); [keep|].
  destruct (sql_parse_all sql) as [[[|stmt stmts]|e]|]; [keep | | keep..]. apply keeps_bind; [apply HR | apply keeps_run_batch|]. intros []; keep.
Qed.

Lemma keeps_describe_row (stmt : Stmt) (formats : list Z) : keeps R (send_row_description_for gpu_pairs stack stmt formats).
Proof.
  unfold send_row_description_for. destruct stmt; try apply keeps_send. intros st.
  destruct (describe_select _ _ _ _) as [[[|f fs]|e]|]; (etransitivity; [apply Hquiet, (q_db (describe_effect s (through None (se_db st))))|]); try reflexivity; apply keeps_send.
Qed.

Lemma keeps_execute (portal : string) (max_rows : Z) (actor : Actor) : keeps R (handle_execute gpu_pairs stack portal max_rows actor).
Proof.
  unfold handle_execute. apply keeps_bind; [apply HR | by apply keeps_getting|]. intros portals. destruct (portals !! portal) as [p|]; [|apply keeps_send].
  assert (keeps R (do txn <- getting se_txn; do r <- execute_as gpu_pairs stack (po_stmt p) (po_stmt p) (po_params p) actor txn;
                   match r with inl result => send_portal_result p result max_rows | inr e => fail_with e end)) as Hother.
  { intros s. pose proof (keeps_execute_open (po_stmt p) (po_params p) actor s) as He. revert He. unfold abind, getting, done.
    destruct (execute_as gpu_pairs stack (po_stmt p) (po_stmt p) (po_params p) actor (se_txn s) s) as [s' [[r|e]|]]; cbn [fst]; intros He; [|done..].
    etransitivity; [exact He|]. destruct r as [r|e]; [|apply keeps_send]. unfold send_portal_result. destruct (portal_rows r max_rows) as [rows limited].
    refine (keeps_bind R _ _ _ _ _); [apply keeps_send_all | intros _; apply keeps_send]. }
  destruct (po_stmt p); try exact Hother; unfold fail_with, send_error; keep.
Qed.

Lemma keeps_message (msg : FrontendMessage) (actor : Actor) : keeps R (handle_message gpu_pairs stack msg actor).
Proof.
  unfold handle_message. destruct msg; try (by apply keeps_pure); (apply keeps_bind; [apply HR | | intros; try by apply keeps_pure]).
  - apply keeps_simple_query.
  - unfold handle_parse, send_error. destruct (sql_parse query) as [[stmt|e]|]; keep. intros s. apply Hext.
  - unfold handle_bind, send_error. keep. intros s. apply Hext.
  - unfold handle_describe, send_error. keep; apply keeps_describe_row.
  - apply keeps_execute.
  - unfold handle_close. keep. intros s. destruct (byte_eqb kind "S"); apply Hext.
  - unfold txn_status. keep.
  - unfold ready. keep.
Qed.

Lemma keeps_loop (schedule : list Wake) (actor : Actor) : keeps R (run_query_loop gpu_pairs stack schedule actor).
Proof.
  induction schedule as [|[|channel payload] schedule IH]; cbn [run_query_loop]; [by apply keeps_pure|..].
  - apply keeps_bind; [apply HR | apply keeps_next|]. intros msg. apply keeps_bind; [apply HR | apply keeps_message|]. intros []; [exact IH | by apply keeps_pure].
  - apply keeps_bind; [apply HR | | intros; exact IH]. unfold handle_notification. keep.
Qed.

Lemma keeps_read {A : Type} (f : Sess -> Eval A) : keeps R (fun s => (s, f s)).
Proof. intros s. reflexivity. Qed.

Lemma keeps_authenticate (user : string) (nonce : bytes) : keeps R (authenticate user nonce).
Proof. unfold authenticate. keep. Qed.

Lemma keeps_start (startup : StartupParams) (nonce : bytes) : keeps R (start_session startup nonce).
Proof.
  unfold start_session, ready, send_error. apply keeps_bind; [apply HR | apply keeps_read|]. intros empty. apply keeps_bind; [apply HR | |].
  - destruct empty; [keep|]. intros s. pose proof (keeps_authenticate (startup_user (sp_params startup)) nonce s) as Ha.
    destruct (authenticate _ nonce s) as [s' [[u|e]|]]; cbn [fst] in *; [done | | done]. etransitivity; [exact Ha|]. refine (keeps_bind R _ _ _ _ s'); [apply keeps_send | intros; by apply keeps_pure].
  - intros let_in. destruct (negb let_in); [by apply keeps_pure|]. apply keeps_bind; [apply HR | apply keeps_read|]. intros empty'. keep.
Qed.

Lemma keeps_session (startup : StartupParams) (nonce : bytes) (schedule : list Wake) : keeps R (run_session gpu_pairs stack startup nonce schedule).
Proof.
  unfold run_session. apply keeps_bind; [apply HR | apply keeps_start|]. intros [actor|]; [apply keeps_loop | by apply keeps_pure].
Qed.

End Handlers.

(** ** Transactions *)






(** ** Cursors *)

Definition cursors_ok (s : Sess) : Prop := map_Forall (fun _ c => (cu_pos c <= length (cu_rows c))%nat) (ext_cursors (se_ext s)).
Definition cursors_kept (s s' : Sess) : Prop := cursors_ok s -> cursors_ok s'.

#[local] Instance cursors_kept_preorder : PreOrder cursors_kept.
Proof. split; [intros s H; exact H | intros s1 s2 s3 H1 H2 H; exact (H2 (H1 H))]. Qed.

Lemma session_cursors_ok (startup : StartupParams) (nonce : bytes) (schedule : list Wake) (db : State) (input : list FrontendMessage) :
  cursors_ok (fst (run_session gpu_pairs stack startup nonce schedule (mkSession db ext_default None input []))).
Proof.
  assert (keeps cursors_kept (run_session gpu_pairs stack startup nonce schedule)) as H.
  { apply keeps_session; try apply cursors_kept_preorder.
    - intros s s' Hq Hs. by destruct Hq.
    - by intros stmt s Hs.
    - by intros d s Hs.
    - intros s. by repeat split; intros x Hs.
    - intros s name c Hc Hs. cbn. by apply map_Forall_insert_2.
    - intros s name Hs. cbn. by apply map_Forall_delete.
    - by intros s db' t _ Hs.
    - by intros s db' t _ Hs.
    - by intros s db' t _ Hs. }
  apply H. apply map_Forall_empty.
Qed.

(** FETCH after FETCH on one cursor: the rows of each. *)
Fixpoint fetch_each (name : string) (counts : list FetchCount) (actor : Actor) : Do (list (list Row)) :=
  match counts with
  | [] => pure []
  | n :: counts' =>
      do r <- execute_simple gpu_pairs stack (Stmt_Fetch (mkFetchStmt name n)) actor;
      match r with
      | inl result => do rest <- fetch_each name counts' actor; pure (qr_rows result :: rest)
      | inr e => lift_eval (fails (error_text e))
      end
  end.

Lemma advance_total (count : FetchCount) (c : CursorState) : (cu_pos c <= length (cu_rows c))%nat ->
  exists pos', (cu_pos c <= pos' <= length (cu_rows c))%nat /\ (count = FetchCount_All -> pos' = length (cu_rows c))
  /\ advance_cursor count c = done (mkCursorState (cu_fields c) (cu_rows c) pos', take (pos' - cu_pos c) (drop (cu_pos c) (cu_rows c))).
Proof.
  intros Hc. unfold advance_cursor.
  assert (exists n, fetch_count count c = done n /\ (count = FetchCount_All -> n = length (cu_rows c) - cu_pos c)%nat) as (n & -> & Hn).
  { destruct count; cbn [fetch_count]; [by eexists | | by eexists]. destruct (Nat.ltb_spec (length (cu_rows c)) (cu_pos c)); [lia|]. by eexists. }
  exists (Nat.min (cu_pos c + n) (length (cu_rows c))). split; [lia|]. split; [intros E; specialize (Hn E); lia|]. cbn [ebind done].
  destruct (Nat.ltb_spec (Nat.min (cu_pos c + n) (length (cu_rows c))) (cu_pos c)); [lia | done].
Qed.

(** C37. A cursor gives its rows in order. FETCH after FETCH, forward, all or any
    count, give together the rows of the cursor's query from where it stands,
    none twice and none left out, and come to the end with ALL; the cursor of a
    session never stands past its end, so none of them panics. *)
Theorem cursor_gives_rows_in_order (name : string) (counts : list FetchCount) (actor : Actor) (s : Sess) (c : CursorState) :
  cursors_ok s -> ext_cursors (se_ext s) !! name = Some c ->
  exists s' batches c',
    fetch_each name counts actor s = (s', done batches) /\ cursors_ok s'
    /\ ext_cursors (se_ext s') !! name = Some c' /\ cu_rows c' = cu_rows c /\ cu_fields c' = cu_fields c
    /\ (cu_pos c <= cu_pos c' <= length (cu_rows c))%nat
    /\ concat batches = take (cu_pos c' - cu_pos c) (drop (cu_pos c) (cu_rows c))
    /\ (FetchCount_All ∈ counts -> cu_pos c' = length (cu_rows c)).
Proof.
  intros Hok Hc. revert s c Hok Hc. induction counts as [|n counts IH]; intros s c Hok Hc.
  { exists s, [], c. rewrite Nat.sub_diag, take_0. pose proof (Hok _ _ Hc). repeat (split; [done || lia|]). by intros Hin%not_elem_of_nil. }
  cbn [fetch_each execute_simple]. unfold move_cursor. cbn [fe_cursor fe_count].
  destruct (advance_total n c (Hok _ _ Hc)) as (pos & Hpos & Hall & Ha). set (c1 := mkCursorState (cu_fields c) (cu_rows c) pos) in *.
  set (s1 := set_ext (set_cursors (<[name := c1]>)) s).
  destruct (IH s1 c1) as (s' & batches & c' & Hf & Hok' & Hc' & Hr & Hfi & Hp & Hb & Hl).
  { apply map_Forall_insert_2; [cbn; lia | exact Hok]. }
  { cbn. apply lookup_insert_eq. }
  exists s', (take (pos - cu_pos c) (drop (cu_pos c) (cu_rows c)) :: batches), c'. cbn [cu_pos cu_rows cu_fields c1] in *.
  unfold abind, getting, lift_eval, modify, pure at 1. cbn [done]. rewrite Hc, Ha. cbn [done fst snd qr_rows]. fold s1. rewrite Hf. unfold pure, done.
  repeat (split; [done || lia|]). split.
  - cbn [concat]. rewrite Hb. rewrite <- (take_drop (pos - cu_pos c) (take (cu_pos c' - cu_pos c) (drop (cu_pos c) (cu_rows c)))).
    rewrite take_take, Nat.min_l by lia. f_equal. rewrite skipn_firstn_comm, drop_drop. f_equal; [lia|]. f_equal. lia.
  - intros Hin. apply elem_of_cons in Hin as [<-|Hin]; [|by apply Hl]. specialize (Hall eq_refl). lia.
Qed.

(** ** Answers *)

Definition sent (l : list (Deed Txn)) : list BackendMessage := omap (fun d => match d with Sent m => Some m | _ => None end) l.

(** Where [m] comes to its end, [P] holds of the session, the result and the
    messages; where it fails, the client has closed the connection. *)
Definition says {A : Type} (m : Do A) (P : Sess -> A -> list BackendMessage -> Prop) : Prop := forall s,
  match m s with
  | (s', Some (Ok a)) => exists ms, sent (se_log s') = sent (se_log s) ++ ms /\ P s' a ms
  | (s', Some (Err _)) => se_input s' = []
  | (_, None) => True
  end.

Abbreviation silent m := (says m (fun _ _ ms => ms = [])).

Lemma says_bind {A B : Type} (m : Do A) (k : A -> Do B) (P : Sess -> A -> list BackendMessage -> Prop) (Q : Sess -> B -> list BackendMessage -> Prop) :
  says m P -> (forall s a ms, P s a ms -> says (k a) (fun s' b ms' => Q s' b (ms ++ ms'))) -> says (abind m k) Q.
Proof.
  intros Hm Hk s. unfold abind. specialize (Hm s). destruct (m s) as [s1 [[a|e]|]]; [|done..]. destruct Hm as (ms & E & HP).
  specialize (Hk s1 a ms HP s1). destruct (k a s1) as [s2 [[b|e]|]]; [|done..]. destruct Hk as (ms' & E' & HQ).
  exists (ms ++ ms'). split; [by rewrite E', E, app_assoc | done].
Qed.

Lemma says_then {A B : Type} (m : Do A) (k : A -> Do B) (Q : Sess -> B -> list BackendMessage -> Prop) :
  silent m -> (forall a, says (k a) Q) -> says (abind m k) Q.
Proof. intros Hm Hk. eapply says_bind; [exact Hm|]. intros s a ms ->. apply Hk. Qed.

Lemma silent_same {A : Type} (m : Do A) : (forall s, sent (se_log (fst (m s))) = sent (se_log s) /\ forall e, snd (m s) <> Some (Err e)) -> silent m.
Proof.
  intros H s. destruct (H s) as [E He]. destruct (m s) as [s' [[a|e]|]]; cbn [fst snd] in *; [|by destruct (He e) | done]. exists []. by rewrite app_nil_r.
Qed.

Lemma silent_getting {A : Type} (f : Sess -> A) : silent (getting f).
Proof. by apply silent_same. Qed.
Lemma silent_pure {A : Type} (a : A) : silent (pure a).
Proof. by apply silent_same. Qed.
Lemma silent_ext (f : ExtendedState -> ExtendedState) : silent (modify (set_ext f)).
Proof. by apply silent_same. Qed.

Lemma silent_on_db {A : Type} (m : Act State A) : silent (on_db m).
Proof. apply silent_same. intros s. unfold on_db. by destruct (m (se_db s)) as [db [r|]]. Qed.

Lemma sent_app (a b : list (Deed Txn)) : sent (a ++ b) = sent a ++ sent b.
Proof. apply omap_app. Qed.

Lemma silent_execute (asked stmt : Stmt) (params : list Value) (actor : Actor) (txn : option Txn) : silent (execute_as gpu_pairs stack asked stmt params actor txn).
Proof.
  apply silent_same. intros s. unfold execute_as. destruct (execute_parsed_as _ _ _ _ _ _ _) as [db [r|]]; cbn; by rewrite sent_app, app_nil_r.
Qed.

Lemma silent_begin : silent session_begin.
Proof. apply silent_same. intros s. unfold session_begin. destruct (se_txn s); [done|]. destruct (db_begin (se_db s)). cbn. by rewrite sent_app, app_nil_r. Qed.
Lemma silent_commit : silent session_commit.
Proof. apply silent_same. intros s. unfold session_commit. destruct (se_txn s); [|done]. destruct (db_commit _ _). cbn. by rewrite sent_app, app_nil_r. Qed.
Lemma silent_rollback : silent session_rollback.
Proof. apply silent_same. intros s. unfold session_rollback. destruct (se_txn s); [|done]. cbn. by rewrite sent_app, app_nil_r. Qed.

Lemma advance_no_error (count : FetchCount) (c : CursorState) (e : string) : advance_cursor count c <> fails e.
Proof. unfold advance_cursor. destruct count; cbn [fetch_count ebind done]; repeat (case_match; cbn [ebind done]); done. Qed.

Lemma silent_move (f : FetchStmt) (answer : CursorState -> list Row -> QueryResult) : silent (move_cursor f answer).
Proof.
  apply silent_same. intros s. unfold move_cursor, abind, getting, lift_eval, modify, pure. cbn [done].
  destruct (ext_cursors (se_ext s) !! fe_cursor f) as [c|]; [|done]. pose proof (advance_no_error (fe_count f) c) as Hn.
  destruct (advance_cursor (fe_count f) c) as [[[c' rows]|e]|]; [done | by destruct (Hn e) | done].
Qed.

Lemma silent_simple (stmt : Stmt) (actor : Actor) : silent (execute_simple gpu_pairs stack stmt actor).
Proof.
  unfold execute_simple. destruct stmt; try (apply says_then; [apply silent_getting | intros; apply silent_execute]); try apply silent_move.
  - apply says_then; [apply silent_execute|]. intros [r|e]; [|apply silent_pure]. apply says_then; [apply silent_ext | intros; apply silent_pure].
  - apply says_then; [apply silent_getting|]. intros cs. destruct (cs !! name); [|apply silent_pure]. apply says_then; [apply silent_ext | intros; apply silent_pure].
  - apply says_then; [apply silent_ext | intros; apply silent_pure].
  - apply says_then; [apply silent_ext | intros; apply silent_pure].
Qed.

(** What a statement other than COPY does, and what it gives. *)
Definition perform (stmt : Stmt) (actor : Actor) : Do Outcome :=
  match stmt with
  | Stmt_Begin => do _ <- session_begin; pure (inl (ok_tag "BEGIN"))
  | Stmt_Commit => do r <- session_commit; pure (match r with Ok _ => inl (ok_tag "COMMIT") | Err e => inr (Failed e) end)
  | Stmt_Rollback => do _ <- session_rollback; pure (inl (ok_tag "ROLLBACK"))
  | _ => execute_simple gpu_pairs stack stmt actor
  end.

(** The reply to a result: its fields, its rows and its tag; of a statement on
    the transaction the tag alone. *)
Definition reply_to (stmt : Stmt) (r : QueryResult) : list BackendMessage :=
  match stmt with
  | Stmt_Begin | Stmt_Commit | Stmt_Rollback => [B_CommandComplete (qr_tag r)]
  | _ => B_RowDescription (qr_fields r) :: map B_DataRow (qr_rows r) ++ [B_CommandComplete (qr_tag r)]
  end.

Definition failure_reply (e : ExecError) : BackendMessage := B_ErrorResponse (error_new (sqlstate_for e) (error_text e)).

(** The session once these messages are sent. *)
Definition told (ms : list BackendMessage) (s : Sess) : Sess := mkSession (se_db s) (se_ext s) (se_txn s) (se_input s) (se_log s ++ map Sent ms).

Definition status_of (txn : option Txn) : TransactionStatus := match txn with Some _ => Status_InTransaction | None => Status_Idle end.

Definition is_copy (stmt : Stmt) : option (CopyStmt * bool) :=
  match stmt with Stmt_CopyIn copy => Some (copy, true) | Stmt_CopyOut copy => Some (copy, false) | _ => None end.

(** The database a COPY works on. *)
Definition copying (copy : CopyStmt) (s : Sess) : Sess := note (Copied copy) (put_db (through (Txn := Txn) None (se_db s)) s).

(** The exchange of a COPY: the table or its columns are not there; the lines
    of the client are inserted, with the number of rows or the first failure as
    the answer; the rows of the table are sent. *)
Inductive copy_answer (copy : CopyStmt) (s : Sess) : bool -> list BackendMessage -> Prop :=
| copy_refused (inward : bool) (s1 : Sess) (e : ErrorInfo) :
    copy_target copy s = (s1, done None) -> copy_answer copy s inward [B_ErrorResponse e; B_ReadyForQuery Status_Idle]
| copied_in (s1 s2 : Sess) (schema : TableSchema) (target : list nat) (c : CopyIn) :
    copy_target copy s = (s1, done (Some (schema, target))) ->
    let s1' := copying copy (told [B_CopyInResponse (length target)] s1) in
    copy_in_loop (se_input s1') (copy_table copy) schema target (mkCopyIn [] 0 None) s1' = (s2, done c) ->
    copy_answer copy s true
      [B_CopyInResponse (length target);
       match ci_failed c with Some msg => B_ErrorResponse (error_new "22P04" msg) | None => B_CommandComplete ("COPY " +:+ to_dec (ci_row_count c)) end;
       B_ReadyForQuery Status_Idle]
| copied_out (s1 s2 : Sess) (schema : TableSchema) (target : list nat) (rows : list Row) :
    copy_target copy s = (s1, done (Some (schema, target))) ->
    on_db (scan_for_copy (copy_table copy) target) (copying copy s1) = (s2, done (Ok rows)) ->
    copy_answer copy s false
      (B_CopyOutResponse (length target) :: map (fun row => B_CopyData (encode_copy_line row)) rows
         ++ [B_CopyDone; B_CommandComplete ("COPY " +:+ to_dec (zlen rows)); B_ReadyForQuery Status_Idle])
| copy_out_failed (s1 s2 : Sess) (schema : TableSchema) (target : list nat) (e : string) :
    copy_target copy s = (s1, done (Some (schema, target))) ->
    on_db (scan_for_copy (copy_table copy) target) (copying copy s1) = (s2, done (Err e)) ->
    copy_answer copy s false [B_ErrorResponse (error_new "42P01" e); B_ReadyForQuery Status_Idle].

(** The answer to the statements of a query: each in turn is performed on the
    session that the ones before it have left, and its result is replied; the
    first that fails is answered by its error, and the rest are not performed;
    a COPY takes over. *)
Inductive batch_answer (actor : Actor) : list Stmt -> Sess -> list BackendMessage -> Prop :=
| ba_end (s : Sess) : batch_answer actor [] s [B_ReadyForQuery (status_of (se_txn s))]
| ba_done (stmt : Stmt) (stmts : list Stmt) (s s1 : Sess) (r : QueryResult) (ms : list BackendMessage) :
    is_copy stmt = None -> perform stmt actor s = (s1, done (inl r)) -> batch_answer actor stmts (told (reply_to stmt r) s1) ms ->
    batch_answer actor (stmt :: stmts) s (reply_to stmt r ++ ms)
| ba_failed (stmt : Stmt) (stmts : list Stmt) (s s1 : Sess) (e : ExecError) :
    is_copy stmt = None -> perform stmt actor s = (s1, done (inr e)) ->
    batch_answer actor (stmt :: stmts) s [failure_reply e; B_ReadyForQuery (status_of (se_txn s1))]
| ba_copy (stmt : Stmt) (stmts : list Stmt) (s : Sess) (copy : CopyStmt) (inward : bool) (ms : list BackendMessage) :
    is_copy stmt = Some (copy, inward) -> copy_answer copy s inward ms -> batch_answer actor (stmt :: stmts) s ms.

(** A statement of the batch, reached by performing those before it, panics. *)
Inductive batch_panics (actor : Actor) : list Stmt -> Sess -> Prop :=
| bp_here (stmt : Stmt) (stmts : list Stmt) (s s1 : Sess) :
    match is_copy stmt with
    | Some (copy, true) => handle_copy_in copy s
    | Some (copy, false) => handle_copy_out copy s
    | None => let '(s', r) := perform stmt actor s in (s', match r with None => None | Some _ => done tt end)
    end = (s1, None) -> batch_panics actor (stmt :: stmts) s
| bp_later (stmt : Stmt) (stmts : list Stmt) (s s1 : Sess) (r : QueryResult) :
    is_copy stmt = None -> perform stmt actor s = (s1, done (inl r)) -> batch_panics actor stmts (told (reply_to stmt r) s1) ->
    batch_panics actor (stmt :: stmts) s.

(** The answer to the text of a query. *)
Definition query_answer (sql : string) (actor : Actor) (s : Sess) (ms : list BackendMessage) : Prop :=
  if String.eqb sql EmptyString then ms = [B_EmptyQueryResponse; B_ReadyForQuery Status_Idle]
  else
    match sql_parse_all sql with
    | None => False
    | Some (Err e) => ms = [B_ErrorResponse (error_new "42601" e); B_ReadyForQuery Status_Idle]
    | Some (Ok []) => ms = [B_EmptyQueryResponse; B_ReadyForQuery Status_Idle]
    | Some (Ok stmts) => batch_answer actor stmts s ms
    end.

Lemma copy_lines_no_error (table : string) (schema : TableSchema) (target : list nat) (lines : list bytes) (st : Z * option string) (s : State) (e : string) :
  snd (copy_lines table schema target lines st s) <> fails e.
Proof.
  revert st s. induction lines as [|l lines IH]; intros [n [f|]] s; cbn [copy_lines snd fst]; try done; try apply IH.
  destruct (insert_copy_line table schema target (from_utf8_lossy l) s) as [s' [[u|e']|]]; [apply IH | apply IH | done].
Qed.

Lemma copy_data_no_error (table : string) (schema : TableSchema) (target : list nat) (data : bytes) (c : CopyIn) (s : State) (e : string) :
  snd (copy_data table schema target data c s) <> fails e.
Proof.
  unfold copy_data. destruct (drain_lines (ci_buf c ++ data)) as [lines rest]. unfold abind.
  pose proof (copy_lines_no_error table schema target lines (ci_row_count c, ci_failed c) s) as H.
  destruct (copy_lines table schema target lines _ s) as [s' [[st|e']|]]; [done | by destruct (H e') | done].
Qed.

Lemma silent_copy_loop (input : list FrontendMessage) (table : string) (schema : TableSchema) (target : list nat) (c : CopyIn) :
  silent (copy_in_loop input table schema target c).
Proof.
  revert c. induction input as [|m input IH]; intros c; cbn [copy_in_loop]; [done|].
  destruct m; try apply IH; try (by apply silent_same). intros s. pose proof (copy_data_no_error table schema target data c (se_db s)) as Hn.
  destruct (copy_data table schema target data c (se_db s)) as [db [[c'|e]|]]; [|by destruct (Hn e) | done]. apply (IH c' (put_db db s)).
Qed.

Lemma sent_told (ms : list BackendMessage) (s : Sess) : sent (se_log (told ms s)) = sent (se_log s) ++ ms.
Proof. unfold told. cbn [se_log]. rewrite sent_app. f_equal. induction ms as [|m ms IH]; [done|]. cbn [map]. exact (f_equal (cons m) IH). Qed.

Lemma told_app (a b : list BackendMessage) (s : Sess) : told b (told a s) = told (a ++ b) s.
Proof. unfold told. cbn. by rewrite map_app, app_assoc. Qed.

Lemma send_told (m : BackendMessage) (s : Sess) : send m s = (told [m] s, done tt).
Proof. done. Qed.

Lemma told_nil (s : Sess) : told [] s = s.
Proof. unfold told. rewrite app_nil_r. by destruct s. Qed.

Lemma send_all_told (ms : list BackendMessage) (s : Sess) : send_all ms s = (told ms s, done tt).
Proof.
  revert s. induction ms as [|m ms IH]; intros s; cbn [send_all]; [by rewrite told_nil|].
  unfold abind. rewrite send_told. cbn [done]. by rewrite IH, told_app.
Qed.

Lemma send_two (a b : BackendMessage) (s : Sess) : (do _ <- send a; send b) s = (told [a; b] s, done tt).
Proof. unfold abind, send, note, told, done. cbn. by rewrite <- app_assoc. Qed.

Lemma copy_abort_told (msg : string) (s : Sess) : copy_abort msg s = (told [B_ErrorResponse (error_new "42P01" msg); B_ReadyForQuery Status_Idle] s, done tt).
Proof. apply send_two. Qed.

Lemma send_result_told (r : QueryResult) (s : Sess) :
  send_result r s = (told (B_RowDescription (qr_fields r) :: map B_DataRow (qr_rows r) ++ [B_CommandComplete (qr_tag r)]) s, done tt).
Proof. unfold send_result, abind. rewrite send_told. cbn [done]. rewrite send_all_told. cbn [done]. by rewrite send_told, !told_app. Qed.

Lemma silent_perform (stmt : Stmt) (actor : Actor) : silent (perform stmt actor).
Proof.
  unfold perform. destruct stmt; try apply silent_simple.
  - apply says_then; [apply silent_begin | intros; apply silent_pure].
  - apply says_then; [apply silent_commit | intros; apply silent_pure].
  - apply says_then; [apply silent_rollback | intros; apply silent_pure].
Qed.

(** A step of a batch is to perform the statement and to send its reply. *)
Lemma run_batch_cons (stmt : Stmt) (stmts : list Stmt) (actor : Actor) (s : Sess) :
  is_copy stmt = None ->
  run_batch gpu_pairs stack (stmt :: stmts) actor s =
  match perform stmt actor s with
  | (s1, Some (Ok (inl r))) => run_batch gpu_pairs stack stmts actor (told (reply_to stmt r) s1)
  | (s1, Some (Ok (inr e))) => (told [failure_reply e] s1, done false)
  | (s1, Some (Err e)) => (s1, fails e)
  | (s1, None) => (s1, None)
  end.
Proof.
  intros Hc. assert ((do r <- execute_simple gpu_pairs stack stmt actor;
    match r with inl result => do _ <- send_result result; run_batch gpu_pairs stack stmts actor | inr e => do _ <- fail_with e; pure false end) s
    = match execute_simple gpu_pairs stack stmt actor s with
      | (s1, Some (Ok (inl r))) => run_batch gpu_pairs stack stmts actor (told (B_RowDescription (qr_fields r) :: map B_DataRow (qr_rows r) ++ [B_CommandComplete (qr_tag r)]) s1)
      | (s1, Some (Ok (inr e))) => (told [failure_reply e] s1, done false)
      | (s1, Some (Err e)) => (s1, fails e)
      | (s1, None) => (s1, None)
      end) as Hother.
  { unfold abind at 1. destruct (execute_simple gpu_pairs stack stmt actor s) as [s1 [[[r|e]|e]|]]; try done.
    unfold abind. by rewrite send_result_told. }
  destruct stmt; try exact Hother; try discriminate Hc; cbn [run_batch perform reply_to]; unfold abind, session_begin, session_commit, session_rollback, pure.
  - destruct (se_txn s); [done|]. by destruct (db_begin (se_db s)).
  - destruct (se_txn s); [|done]. by destruct (db_commit t (se_db s)) as [db [u|e]].
  - by destruct (se_txn s).
Qed.

(** *** COPY *)

Lemma copy_target_none (copy : CopyStmt) (s s1 : Sess) :
  copy_target copy s = (s1, done None) -> exists e, sent (se_log s1) = sent (se_log s) ++ [B_ErrorResponse e; B_ReadyForQuery Status_Idle].
Proof.
  assert (forall msg (s0 : Sess), (do _ <- copy_abort msg; pure None) s0 = (told [B_ErrorResponse (error_new "42P01" msg); B_ReadyForQuery Status_Idle] s0, done (None : option (TableSchema * list nat)))) as Ha.
  { intros msg s0. unfold abind. by rewrite copy_abort_told. }
  unfold copy_target, abind at 1. pose proof (silent_on_db (reading (fun db => tables_get (copy_table copy) (through (Txn := Txn) None db))) s) as Hs.
  destruct (on_db _ s) as [s0 [[found|e]|]]; [|done..]. destruct Hs as (ms & E & ->). rewrite app_nil_r in E.
  assert (forall msg : string, (do _ <- copy_abort msg; pure None) s0 = (s1, done (None : option (TableSchema * list nat))) ->
    exists e, sent (se_log s1) = sent (se_log s) ++ [B_ErrorResponse e; B_ReadyForQuery Status_Idle]) as Hgo.
  { intros msg. rewrite Ha. intros [= <-]. eexists. by rewrite sent_told, E. }
  destruct found as [[schema|]|e]; [|apply Hgo..]. destruct (target_columns schema (copy_columns copy)); [done | apply Hgo].
Qed.

Lemma copy_target_some (copy : CopyStmt) (s s1 : Sess) r :
  copy_target copy s = (s1, done (Some r)) -> sent (se_log s1) = sent (se_log s).
Proof.
  assert (forall msg (s0 : Sess), exists s2, (do _ <- copy_abort msg; pure None) s0 = (s2, done (None : option (TableSchema * list nat)))) as Ha.
  { intros msg s0. eexists. unfold abind. by rewrite copy_abort_told. }
  unfold copy_target, abind at 1. pose proof (silent_on_db (reading (fun db => tables_get (copy_table copy) (through (Txn := Txn) None db))) s) as Hs.
  destruct (on_db _ s) as [s0 [[found|e]|]]; [|done..]. destruct Hs as (ms & E & ->). rewrite app_nil_r in E.
  destruct found as [[schema|]|e]; [|by destruct (Ha ("table " +:+ quoted (copy_table copy) +:+ " does not exist") s0) as [s2 ->] | by destruct (Ha e s0) as [s2 ->]].
  destruct (target_columns schema (copy_columns copy)) as [t|e]; [by intros [= <- _] | by destruct (Ha e s0) as [s2 ->]].
Qed.

Lemma copy_target_no_error (copy : CopyStmt) (s s1 : Sess) (e : string) : copy_target copy s <> (s1, fails e).
Proof.
  unfold copy_target, abind at 1, on_db. destruct (reading _ (se_db s)) as [db [[[schema|]|e']|]]; cbn [done]; try done.
  by destruct (target_columns schema (copy_columns copy)).
Qed.

Lemma copy_in_answers (copy : CopyStmt) (s : Sess) :
  match handle_copy_in copy s with
  | (s', Some (Ok _)) => exists ms, sent (se_log s') = sent (se_log s) ++ ms /\ copy_answer copy s true ms
  | (s', Some (Err _)) => se_input s' = []
  | (_, None) => True
  end.
Proof.
  unfold handle_copy_in, abind at 1. destruct (copy_target copy s) as [s1 [[[[schema target]|]|e]|]] eqn:Et; [| |by apply copy_target_no_error in Et|done].
  - pose proof (copy_target_some _ _ _ _ Et) as Es. unfold abind at 1. rewrite send_told. cbn [done]. unfold abind at 1, modify. cbn [done].
    unfold abind at 1, getting. cbn [done]. set (s2 := note (Copied copy) _).
    pose proof (silent_copy_loop (se_input s2) (copy_table copy) schema target (mkCopyIn [] 0 None) s2) as Hl. unfold abind at 1.
    destruct (copy_in_loop (se_input s2) (copy_table copy) schema target (mkCopyIn [] 0 None) s2) as [s3 [[c|e]|]] eqn:El; [|done..].
    destruct Hl as (ms & E3 & ->). rewrite app_nil_r in E3. pose proof (copied_in copy s s1 s3 schema target c Et El) as Ha. unfold abind, ready.
    assert (sent (se_log s2) = sent (se_log s) ++ [B_CopyInResponse (length target)]) as E2.
    { unfold s2. cbn. rewrite !sent_app, Es. by rewrite <- app_assoc. }
    destruct (ci_failed c); unfold send_error; rewrite send_told; cbn [done]; rewrite send_told, told_app;
      (eexists; split; [|exact Ha]); by rewrite sent_told, E3, E2, <- app_assoc.
  - destruct (copy_target_none _ _ _ Et) as [e E]. eexists. split; [exact E|]. by apply (copy_refused copy s true s1).
Qed.

Lemma copy_out_answers (copy : CopyStmt) (s : Sess) :
  match handle_copy_out copy s with
  | (s', Some (Ok _)) => exists ms, sent (se_log s') = sent (se_log s) ++ ms /\ copy_answer copy s false ms
  | (s', Some (Err _)) => se_input s' = []
  | (_, None) => True
  end.
Proof.
  unfold handle_copy_out, abind at 1. destruct (copy_target copy s) as [s1 [[[[schema target]|]|e]|]] eqn:Et; [| |by apply copy_target_no_error in Et|done].
  - pose proof (copy_target_some _ _ _ _ Et) as Es. unfold abind at 1, modify. cbn [done]. fold (copying copy s1).
    pose proof (silent_on_db (scan_for_copy (copy_table copy) target) (copying copy s1)) as Hs. unfold abind at 1.
    destruct (on_db (scan_for_copy (copy_table copy) target) (copying copy s1)) as [s2 [[r|e]|]] eqn:Eo; [|done..].
    destruct Hs as (ms & E2 & ->). rewrite app_nil_r in E2.
    assert (sent (se_log s2) = sent (se_log s)) as E.
    { rewrite E2. cbn. by rewrite sent_app, Es, app_nil_r. }
    destruct r as [rows|e].
    + pose proof (copied_out copy s s1 s2 schema target rows Et Eo) as Ha. unfold abind, ready. rewrite send_told. cbn [done].
      rewrite send_all_told. cbn [done]. rewrite send_told. cbn [done]. rewrite send_told. cbn [done]. rewrite send_told, !told_app.
      eexists. split; [|exact Ha]. rewrite sent_told, E. by f_equal.
    + pose proof (copy_out_failed copy s s1 s2 schema target e Et Eo) as Ha. rewrite copy_abort_told. eexists. split; [|exact Ha]. by rewrite sent_told, E.
  - destruct (copy_target_none _ _ _ Et) as [e E]. eexists. split; [exact E|]. by apply (copy_refused copy s false s1).
Qed.

(** *** Batches *)

Lemma run_batch_answers (stmts : list Stmt) (actor : Actor) (s : Sess) :
  match run_batch gpu_pairs stack stmts actor s with
  | (s', Some (Ok answered)) =>
      exists ms, sent (se_log s') = sent (se_log s) ++ ms
      /\ batch_answer actor stmts s (ms ++ if (answered : bool) then [] else [B_ReadyForQuery (status_of (se_txn s'))])
  | (s', Some (Err _)) => se_input s' = []
  | (_, None) => batch_panics actor stmts s
  end.
Proof.
  revert s. induction stmts as [|stmt stmts IH]; intros s.
  { exists []. cbn [run_batch pure done]. rewrite app_nil_r. split; [done | constructor]. }
  destruct (is_copy stmt) as [[copy inward]|] eqn:Hc.
  - assert (run_batch gpu_pairs stack (stmt :: stmts) actor s = (do _ <- (if inward then handle_copy_in copy else handle_copy_out copy); pure true) s) as ->
      by (destruct stmt; try discriminate Hc; by injection Hc as <- <-).
    pose proof (bp_here actor stmt stmts s) as Hp. rewrite Hc in Hp. unfold abind.
    assert (forall h : Do unit, (forall s1, h s = (s1, None) -> batch_panics actor (stmt :: stmts) s) ->
      match h s with
      | (s', Some (Ok _)) => exists ms, sent (se_log s') = sent (se_log s) ++ ms /\ copy_answer copy s inward ms
      | (s', Some (Err _)) => se_input s' = []
      | (_, None) => True
      end -> match (match h s with (s', Some (Ok _)) => pure true s' | (s', Some (Err e)) => (s', fails e) | (s', None) => (s', None) end) with
      | (s', Some (Ok answered)) => exists ms, sent (se_log s') = sent (se_log s) ++ ms
          /\ batch_answer actor (stmt :: stmts) s (ms ++ if (answered : bool) then [] else [B_ReadyForQuery (status_of (se_txn s'))])
      | (s', Some (Err _)) => se_input s' = []
      | (_, None) => batch_panics actor (stmt :: stmts) s
      end) as Hgo.
    { intros h Hpanic Hh. destruct (h s) as [s1 [[u|e]|]]; [|done | by eapply Hpanic]. destruct Hh as (ms & E & Ha). exists ms. split; [exact E|].
      rewrite app_nil_r. by eapply ba_copy. }
    destruct inward; [apply (Hgo (handle_copy_in copy) Hp (copy_in_answers copy s)) | apply (Hgo (handle_copy_out copy) Hp (copy_out_answers copy s))].
  - rewrite run_batch_cons by done. pose proof (silent_perform stmt actor s) as Hs. pose proof (bp_here actor stmt stmts s) as Hp. rewrite Hc in Hp.
    destruct (perform stmt actor s) as [s1 [[[r|e]|e]|]] eqn:Ep.
    + destruct Hs as (ms0 & E0 & ->). rewrite app_nil_r in E0. specialize (IH (told (reply_to stmt r) s1)).
      destruct (run_batch gpu_pairs stack stmts actor (told (reply_to stmt r) s1)) as [s2 [[answered|e]|]]; [|done | by eapply bp_later].
      destruct IH as (ms & E & Hb). exists (reply_to stmt r ++ ms). split; [by rewrite E, sent_told, E0, app_assoc|].
      rewrite <- app_assoc. by eapply ba_done.
    + destruct Hs as (ms0 & E0 & ->). rewrite app_nil_r in E0. exists [failure_reply e]. split; [by rewrite sent_told, E0|].
      change (se_txn (told [failure_reply e] s1)) with (se_txn s1). by eapply ba_failed.
    + exact Hs.
    + by apply (Hp s1).
Qed.

Definition is_ready (m : BackendMessage) : bool := match m with B_ReadyForQuery _ => true | _ => false end.

(** One ReadyForQuery, the last message. *)
Definition ready_last (ms : list BackendMessage) : Prop :=
  exists before status, ms = before ++ [B_ReadyForQuery status] /\ Forall (fun m => is_ready m = false) before.

Lemma not_ready_map {A : Type} (f : A -> BackendMessage) (l : list A) : (forall a, is_ready (f a) = false) -> Forall (fun m => is_ready m = false) (map f l).
Proof. intros Hf. induction l; constructor; auto. Qed.

Lemma reply_not_ready (stmt : Stmt) (r : QueryResult) : Forall (fun m => is_ready m = false) (reply_to stmt r).
Proof.
  unfold reply_to. destruct stmt; try (by repeat constructor); (apply List.Forall_cons; [done|]; apply Forall_app; split; [by apply not_ready_map | by repeat constructor]).
Qed.

Lemma copy_ready_last (copy : CopyStmt) (s : Sess) (inward : bool) (ms : list BackendMessage) : copy_answer copy s inward ms -> ready_last ms.
Proof.
  intros [inw s1 e _|s1 s2 schema target c _ _ _|s1 s2 schema target rows _ _|s1 s2 schema target e _ _].
  - exists [B_ErrorResponse e], Status_Idle. split; [done | by repeat constructor].
  - eexists [_; _], Status_Idle. split; [reflexivity|]. by destruct (ci_failed c); repeat constructor.
  - exists (B_CopyOutResponse (length target) :: map (fun row => B_CopyData (encode_copy_line row)) rows ++ [B_CopyDone; B_CommandComplete ("COPY " +:+ to_dec (zlen rows))]), Status_Idle.
    split; [cbn [app]; by rewrite <- app_assoc|]. apply List.Forall_cons; [done|]. apply Forall_app; split; [by apply not_ready_map | by repeat constructor].
  - eexists [_], Status_Idle. split; [reflexivity | by repeat constructor].
Qed.

Lemma batch_ready_last (actor : Actor) (stmts : list Stmt) (s : Sess) (ms : list BackendMessage) : batch_answer actor stmts s ms -> ready_last ms.
Proof.
  induction 1 as [s|stmt stmts s s1 r ms _ _ _ (before & status & -> & Hb)|stmt stmts s s1 e _ _|stmt stmts s copy inward ms _ Hc].
  - by exists [], (status_of (se_txn s)).
  - exists (reply_to stmt r ++ before), status. split; [by rewrite app_assoc|]. apply Forall_app; split; [apply reply_not_ready | done].
  - exists [failure_reply e], (status_of (se_txn s1)). split; [done | by repeat constructor].
  - by eapply copy_ready_last.
Qed.

(** C35. The answer to a simple query. When the handler of a query returns, the
    messages it has sent are, in order: for each statement of the query, performed
    on what the ones before it have left, the fields, the rows and the tag of
    its own result (for BEGIN, COMMIT and ROLLBACK the tag); for the first one
    that fails its error, and nothing of those behind it; for a COPY, which takes
    over, the exchange with its own row count, rows or error; then one
    ReadyForQuery, the last and only one, which says, but behind a COPY, whether
    a transaction is open. An empty text and one that does not parse have their own
    answers. The handler ends the session without an answer when the client
    closes the connection during a COPY; and it does not return when the parser
    does not end (as on a CREATE TABLE without its closing parenthesis) or when
    a statement that is reached panics. *)
Theorem simple_query_is_answered (sql : string) (actor : Actor) (s : Sess) :
  match handle_simple_query gpu_pairs stack sql actor s with
  | (s', Some (Ok _)) =>
      exists ms, sent (se_log s') = sent (se_log s) ++ ms /\ query_answer sql actor s ms /\ ready_last ms
  | (s', Some (Err _)) => se_input s' = []
  | (_, None) => sql_parse_all sql = None \/ exists stmts, sql_parse_all sql = Some (Ok stmts) /\ batch_panics actor stmts s
  end.
Proof.
  unfold handle_simple_query, query_answer.
  assert (forall m, is_ready m = false -> ready_last [m; B_ReadyForQuery Status_Idle]) as Hone
    by (intros m Hm; exists [m], Status_Idle; split; [done | by repeat constructor]).
  assert (forall m s0, (do _ <- send m; ready Status_Idle) s0 = (told [m; B_ReadyForQuery Status_Idle] s0, done tt)) as Htwo
    by (intros m s0; apply send_two).
  destruct (String.eqb sql EmptyString).
  { rewrite Htwo. eexists. split; [apply sent_told|]. split; [done | by apply Hone]. }
  destruct (sql_parse_all sql) as [[[|stmt stmts]|e]|].
  - rewrite Htwo. eexists. split; [apply sent_told|]. split; [done | by apply Hone].
  - pose proof (run_batch_answers (stmt :: stmts) actor s) as Hb. unfold abind at 1.
    destruct (run_batch gpu_pairs stack (stmt :: stmts) actor s) as [s1 [[answered|e]|]]; [|done | right; by exists (stmt :: stmts)].
    destruct Hb as (ms & E & Hb). destruct answered.
    + rewrite app_nil_r in Hb. exists ms. split; [exact E|]. split; [exact Hb | by eapply batch_ready_last].
    + unfold abind, txn_status, getting, ready. cbn [done]. rewrite send_told.
      eexists. split; [by rewrite sent_told, E, <- app_assoc|]. split; [|by eapply batch_ready_last; exact Hb].
      by destruct (se_txn s1).
  - unfold send_error. rewrite Htwo. eexists. split; [apply sent_told|]. split; [done | by apply Hone].
  - by left.
Qed.

(** ** The handshake *)

Lemma bind_done {A B : Type} (m : Do A) (k : A -> Do B) (s s' : Sess) (b : B) :
  abind m k s = (s', done b) -> exists s1 a, m s = (s1, done a) /\ k a s1 = (s', done b).
Proof. unfold abind. destruct (m s) as [s1 [[a|e]|]]; [|done..]. intros H. by exists s1, a. Qed.

Lemma lift_eval_done {A : Type} (r : Eval A) (s s' : Sess) (a : A) : lift_eval r s = (s', done a) -> s' = s /\ r = done a.
Proof. by intros [= <- ->]. Qed.

Lemma send_done (m : BackendMessage) (s s' : Sess) (u : unit) : send m s = (s', done u) -> se_db s' = se_db s /\ se_input s' = se_input s.
Proof. by intros [= <- _]. Qed.

Lemma send_all_done (ms : list BackendMessage) (s s' : Sess) (u : unit) : send_all ms s = (s', done u) -> se_input s' = se_input s.
Proof.
  revert s. induction ms as [|m ms IH]; intros s; cbn [send_all]; [by intros [= <-]|]. intros (s1 & a & H1%send_done & H2)%bind_done. rewrite (IH _ H2). apply H1.
Qed.

Lemma next_done (s s' : Sess) (m : FrontendMessage) : next_message s = (s', done m) -> se_db s' = se_db s /\ se_input s = m :: se_input s'.
Proof. unfold next_message. destruct (se_input s) as [|m' input] eqn:E; [done|]. intros [= <- <-]. by cbn. Qed.

(** What the client has shown: the exchange of a role that may log in, with the
    proof that the role's credential accepts. *)
Definition authenticated (user : string) (nonce : bytes) (db : State) (shown : list FrontendMessage) : Prop :=
  exists cred initial client_first first client_final server_final,
    shown = [F_PasswordData initial; F_PasswordData client_final]
    /\ Auth.find user db = Ok (Some cred)
    /\ (forall attrs, find_role user db = Ok (Some attrs) -> ra_can_login attrs = true)
    /\ parse_sasl_initial_response initial = Ok (MECHANISM, client_first)
    /\ server_first client_first nonce cred = Ok first
    /\ verify_client_final client_final first cred = Ok server_final.

Lemma authenticate_done (user : string) (nonce : bytes) (s s' : Sess) (u : unit) :
  authenticate user nonce s = (s', done u) ->
  se_db s' = se_db s /\ exists shown, se_input s = shown ++ se_input s' /\ authenticated user nonce (through (Txn := Txn) None (se_db s)) shown.
Proof.
  unfold authenticate. intros (s1 & db & [= <- <-] & H)%bind_done. set (db := through None (se_db s)) in *.
  apply bind_done in H as (s2 & role & (-> & Hrole)%lift_eval_done & H). apply bind_done in H as (s3 & v & Hlogin & H).
  assert (s3 = s /\ forall attrs, role = Some attrs -> ra_can_login attrs = true) as [-> Hcan].
  { destruct role as [attrs|]; [|by injection Hlogin as <-]. destruct (ra_can_login attrs) eqn:El; [|done]. injection Hlogin as <-. split; [done|]. by intros ? [= <-]. }
  apply bind_done in H as (s4 & found & (-> & Hfind)%lift_eval_done & H). apply bind_done in H as (s5 & cred & (-> & Hcred)%lift_eval_done & H).
  apply bind_done in H as (s6 & v6 & (Hd6 & Hi6)%send_done & H). apply bind_done in H as (s7 & m1 & (Hd7 & Hi7)%next_done & H).
  apply bind_done in H as (s8 & initial & H8 & H). destruct m1; try discriminate H8. injection H8 as <- <-.
  apply bind_done in H as (s9 & parsed & (-> & Hparsed)%lift_eval_done & H). apply bind_done in H as (s10 & v10 & H10 & H).
  destruct (String.eqb (fst parsed) MECHANISM) eqn:Em; [|discriminate H10]. injection H10 as <- _. apply String.eqb_eq in Em.
  apply bind_done in H as (s11 & first & (-> & Hfirst)%lift_eval_done & H). apply bind_done in H as (s12 & v12 & (Hd12 & Hi12)%send_done & H).
  apply bind_done in H as (s13 & m2 & (Hd13 & Hi13)%next_done & H). apply bind_done in H as (s14 & final & H14 & H). destruct m2; try discriminate H14. injection H14 as <- <-.
  apply bind_done in H as (s15 & server_final & (-> & Hverify)%lift_eval_done & H). apply bind_done in H as (s16 & v16 & (Hd16 & Hi16)%send_done & H). apply send_done in H as [Hd17 Hi17].
  split; [congruence|]. exists [F_PasswordData data; F_PasswordData data0]. split; [cbn [app]; congruence|].
  exists cred, data, (snd parsed), first, data0, server_final. split; [done|].
  injection Hfind as Hfind. injection Hcred as Hcred. injection Hparsed as Hparsed. injection Hfirst as Hfirst. injection Hverify as Hverify. injection Hrole as Hrole.
  split; [rewrite Hfind; destruct found; [by injection Hcred as -> | done]|]. split; [intros attrs Ha; apply Hcan; congruence|].
  split; [rewrite Hparsed, <- Em; by destruct parsed | done].
Qed.

(** C36. Nobody gets in without the password's proof. Where roles exist, a connection
    comes to its query loop only when the client has answered the SCRAM exchange
    of the role it names, which may log in, with a proof that the role's stored
    credential accepts; it acts as that role and nothing else was read. *)
Theorem handshake_needs_proof (startup : StartupParams) (nonce : bytes) (s s' : Sess) (actor : Actor) :
  let db := through (Txn := Txn) None (se_db s) in
  let user := startup_user (sp_params startup) in
  roles_is_empty db = Ok false -> start_session startup nonce s = (s', done (Some actor)) ->
  exists shown, se_input s = shown ++ se_input s' /\ authenticated user nonce db shown /\ snd (for_role user db) = Ok actor.
Proof.
  cbv zeta. intros Hroles. unfold start_session. set (user := startup_user (sp_params startup)).
  intros (s1 & empty & [= <- He] & H)%bind_done. assert (empty = false) as -> by congruence. cbv iota in H.
  apply bind_done in H as (s2 & let_in & Hauth & H). destruct (authenticate user nonce s) as [sa [[ua|e]|]] eqn:Ea; [|by injection Hauth as <- <-|done].
  injection Hauth as <- <-. apply authenticate_done in Ea as (Hdb & shown & Hin & Hshown). exists shown. cbn [negb] in H. cbv iota in H.
  apply bind_done in H as (s3 & empty & [= <- He2] & H). rewrite Hdb, Hroles in He2. injection He2 as <-. cbv iota in H.
  apply bind_done in H as (s4 & ra & Hfor & H). unfold on_db, calling in Hfor. rewrite Hdb in Hfor.
  destruct (for_role user (through None (se_db s))) as [db' r] eqn:Efor. injection Hfor as <- <-.
  apply bind_done in H as (s5 & a & (-> & Ha)%lift_eval_done & H). injection Ha as ->.
  apply bind_done in H as (s6 & u6 & H6%send_all_done & H). apply bind_done in H as (s7 & u7 & (_ & H7)%send_done & H). apply bind_done in H as (s8 & u8 & (_ & H8)%send_done & H).
  injection H as <- <-. split; [|done]. rewrite Hin, H8, H7, H6. done.
Qed.

End Facts.

(** ** Formats *)

(** Integers survive the extended protocol. An integer in a column of an integer
    type that holds it is sent in the format that Describe announces for the
    client's request, text or binary, and a client that binds what it received
    back as a parameter of that type and format has the same integer. *)
Theorem integer_cells_roundtrip `{WireCrates} (type_oid n want : Z) (w : nat) :
  int_width type_oid = Some w -> - 2 ^ (8 * Z.of_nat w - 1) <= n < 2 ^ (8 * Z.of_nat w - 1) ->
  let formats := resolve_result_formats [want] [type_oid] in
  exists cell format, formats = [format] /\ encode_result_row [Some (as_bytes (to_dec n))] [type_oid] formats = [Some cell]
    /\ decode_param (Some cell) format type_oid = Value_Int n.
Proof.
  intros Hw Hn formats. destruct (binary_integers type_oid n w Hw Hn) as (bs & Hb & Hl & Hv).
  assert (w = 8 \/ w = 4 \/ w = 2)%nat as Hw8.
  { unfold int_width in Hw. destruct (type_oid =? OID_INT8), (type_oid =? OID_INT4), (type_oid =? OID_INT2); naive_solver. }
  assert (supports_binary type_oid = true) as Hs.
  { unfold int_width in Hw. unfold supports_binary. cbn [existsb]. destruct (type_oid =? OID_INT8), (type_oid =? OID_INT4), (type_oid =? OID_INT2); done. }
  exists (if want =? 1 then bs else as_bytes (to_dec n)), (if want =? 1 then 1 else 0).
  assert (formats = [if want =? 1 then 1 else 0]) as -> by (unfold formats, resolve_result_formats; cbn -[supports_binary Z.eqb]; by rewrite Hs, andb_true_r).
  set (text := as_bytes (to_dec n)) in *. split; [done|]. unfold encode_result_row. cbn -[text_cell_to_binary decode_param Z.eqb].
  destruct (want =? 1); cbn [Z.eqb Pos.eqb]; [rewrite Hb|]; (split; [done|]); unfold decode_param; cbn [Z.eqb Pos.eqb].
  - rewrite Hl. unfold int_width in Hw. destruct (type_oid =? OID_INT8); [injection Hw as <-; by rewrite <- Hv|].
    destruct (type_oid =? OID_INT4); [injection Hw as <-; by rewrite <- Hv|]. destruct (type_oid =? OID_INT2); [|done]. injection Hw as <-. by rewrite <- Hv.
  - unfold from_bytes, sniff, text. rewrite from_utf8_as_bytes by apply is_string_to_dec. rewrite parse_i64_to_dec; [done|].
    assert (2 ^ (8 * Z.of_nat w - 1) <= 2 ^ 63) by (apply Z.pow_le_mono_r; lia). lia.
Qed.
