(* ===== verification/SessionExamples.v ===== *)
(** Sessions over a database in memory: inputs of the theorems of [Copy] and
    [SessionFacts], and what sessions do that the protocol does not say. *)

From Stdlib Require Import Strings.Byte Strings.String ZArith Lia Bool.
From stdpp Require Import base list strings gmap.
From S2P Require Import Prelude OrdMap Utf8 Decimal Txn Compress Flux Rows Roles Auth Ast Rbac Jsonb Lexer Parser ParserEnds StmtCache Float Values JsonOps JsonSchema Eval Joins Sorting Windows Planner Select Dml DmlFacts DmlRows DmlExamples Copy Executor Pgwire Session SessionFacts.

Open Scope Z_scope.
Open Scope eval_scope.
Open Scope act_scope.

(** ** A server in memory *)

(** The database, the copy that the open transaction works on, whether rows go
    through it, and the number of the next transaction. *)
Record MemServer := mkMemServer { ms_base : MemBase; ms_open : option MemBase; ms_inside : bool; ms_next : Z }.

Definition current (m : MemServer) : MemBase := if ms_inside m then default (ms_base m) (ms_open m) else ms_base m.
Definition set_current (b : MemBase) (m : MemServer) : MemServer :=
  match ms_inside m, ms_open m with
  | true, Some _ => mkMemServer (ms_base m) (Some b) true (ms_next m)
  | inside, open => mkMemServer b open inside (ms_next m)
  end.
Definition with_current {A : Type} (f : MemBase -> MemBase * A) (m : MemServer) : MemServer * A :=
  let '(b, r) := f (current m) in (set_current b m, r).

#[export] Instance server_rows : RowStore MemServer := {|
  rs_write t k v m := with_current (rs_write t k v) m;
  rs_delete t k m := with_current (rs_delete t k) m;
  rs_read t k m := rs_read t k (current m);
  rs_scan t m := rs_scan t (current m);
|}.
#[export] Instance server_schemas : Schemas MemServer := {|
  tables_get t m := tables_get t (ms_base m);
  jsonb_binary_storage _ := false;
  random_key m := with_current random_key m;
  now_ms _ := 0;
  flux_publish_cdc t e m := with_current (flux_publish_cdc t e) m;
  advance _ _ m := m;
|}.
#[export] Instance server_catalog : Catalog MemServer Z := {|
  get_table m name := tables_get name (ms_base m);
  txn_scan m txn name := Ok (map snd (rs_rows (match txn with Some _ => default (ms_base m) (ms_open m) | None => ms_base m end) name));
  indexed_column _ _ _ := false;
  index_lookup _ _ _ _ := Ok None;
  indexed_column_time _ _ _ := false;
  time_range_query _ _ _ _ _ := None;
  spatial_hits _ _ _ _ := None;
  table_row_count_estimate _ _ := None;
  virtual_table _ _ := None;
  graph_function _ _ _ _ := fails "function does not exist";
|}.
#[export] Instance server_functions : Functions MemServer := fun _ name _ => fails ("function " +:+ name +:+ " does not exist").
#[export] Instance server_world : World MemServer := {| run_select _ _ _ _ := fails "no subqueries"; other_function := server_functions |}.
#[export] Instance server_engine : Engine MemServer Z := {|
  through txn m := mkMemServer (ms_base m) (ms_open m) (match txn with Some _ => true | None => false end) (ms_next m);
  db_begin m := (mkMemServer (ms_base m) (Some (ms_base m)) false (ms_next m + 1), ms_next m);
  db_commit _ m := (mkMemServer (default (ms_base m) (ms_open m)) None false (ms_next m), Ok tt);
  db_rollback _ m := mkMemServer (ms_base m) None false (ms_next m);
  db_notify _ _ m := m;
  query_effect _ _ _ m := m;
  describe_effect _ m := m;
  other_statement _ m := (m, fails "not modelled");
|}.
#[export] Instance no_wire_crates : WireCrates := {| parse_f32 _ := None; hex_decode _ := None |}.

(** ** Running sessions *)

Definition server (b : MemBase) : MemServer := mkMemServer b None false 1.
Definition session_on (b : MemBase) (input : list FrontendMessage) : Session MemServer Z := mkSession (server b) ext_default None input [].

Definition nobody : Actor := mkActor "nobody" false false [].

(** The messages of a client, one after the other. *)
Definition play_as (actor : Actor) (b : MemBase) (input : list FrontendMessage) : Session MemServer Z :=
  fst (run_query_loop no_gpu 20 (repeat Wake_Client (length input)) actor (session_on b input)).
Definition play (b : MemBase) (input : list FrontendMessage) : Session MemServer Z := play_as actor_unrestricted b input.
Definition answers (s : Session MemServer Z) : list BackendMessage := sent (se_log s).
Definition server_table (name : string) (s : Session MemServer Z) : list (list string) := shown_rows name (ms_base (se_db s)).

Definition tags (s : Session MemServer Z) : list string :=
  omap (fun m => match m with B_CommandComplete t => Some t | B_ErrorResponse e => Some ("ERROR " +:+ ei_code e) | B_PortalSuspended => Some "suspended"%string | _ => None end) (answers s).
Definition statuses (s : Session MemServer Z) : list TransactionStatus := omap (fun m => match m with B_ReadyForQuery st => Some st | _ => None end) (answers s).
Definition data_rows (s : Session MemServer Z) : list (list string) := omap (fun m => match m with B_DataRow r => Some (map cell_text r) | _ => None end) (answers s).

Definition staff : MemBase := after ["INSERT INTO users VALUES (1, 'a@x', 'ann'), (2, NULL, 'bob')"]%string.

(** A session that does as it should. *)
Example transaction_session :
  let s := play shop [F_Query "BEGIN; INSERT INTO users VALUES (1, NULL, 'ann')"; F_Query "SELECT name FROM users"; F_Query "ROLLBACK";
                      F_Query "SELECT name FROM users"; F_Query "INSERT INTO users VALUES (2, NULL, 'bob')"] in
  tags s = ["BEGIN"; "INSERT 0 1"; "SELECT 1"; "ROLLBACK"; "SELECT 0"; "INSERT 0 1"]%string
  /\ statuses s = [Status_InTransaction; Status_InTransaction; Status_Idle; Status_Idle; Status_Idle]
  /\ server_table "users" s = [["2"; "NULL"; "bob"]]%string.
Proof. vm_compute. repeat split; reflexivity. Qed.

(** ** Where sessions differ from the protocol *)

(** After a Parse that fails, the messages that the client sent along are not
    skipped up to Sync: the statement that had the name before runs. *)
Lemma failed_parse_runs_the_old_statement :
  let s := play shop [F_Parse "s" "INSERT INTO users VALUES (1, NULL, 'ann')" []; F_Parse "s" "INSERT INTO (" [];
                      F_Bind EmptyString "s" [] [] []; F_Execute EmptyString 0; F_Sync] in
  tags s = ["ERROR 42601"; "INSERT 0 1"]%string /\ server_table "users" s = [["1"; "NULL"; "ann"]]%string.
Proof. vm_compute. by split. Qed.

(** A portal that was suspended starts over: it gives the first row again. *)
Lemma suspended_portal_starts_over :
  let s := play staff [F_Parse "q" "SELECT name FROM users" []; F_Bind "p" "q" [] [] []; F_Execute "p" 1; F_Execute "p" 1; F_Sync] in
  data_rows s = [["ann"]; ["ann"]]%string /\ tags s = ["suspended"; "suspended"]%string.
Proof. vm_compute. by split. Qed.

(** In a transaction, a query that does not parse is answered as if there was
    none. *)
Lemma syntax_error_reports_idle :
  let s := play shop [F_Query "BEGIN"; F_Query "SELEC"; F_Query "; ;"] in
  statuses s = [Status_InTransaction; Status_Idle; Status_Idle] /\ se_txn s = Some 1.
Proof. vm_compute. by split. Qed.

(** A transaction goes on behind an error and commits the rest; the failed state
    of the protocol is never reported. *)
Lemma failed_transaction_commits :
  let s := play shop [F_Query "BEGIN; INSERT INTO users VALUES (1, NULL, 'ann'), (1, NULL, 'eve')"; F_Query "COMMIT"] in
  tags s = ["BEGIN"; "ERROR 42601"; "COMMIT"]%string /\ statuses s = [Status_InTransaction; Status_Idle] /\ server_table "users" s = [["1"; "NULL"; "ann"]]%string.
Proof. vm_compute. repeat split; reflexivity. Qed.

(** A cursor does not see the transaction that it is declared in. *)
Lemma cursor_misses_its_transaction :
  let s := play shop [F_Query "BEGIN; INSERT INTO users VALUES (1, NULL, 'ann')"; F_Query "SELECT name FROM users";
                      F_Query "DECLARE c CURSOR FOR SELECT name FROM users; FETCH ALL FROM c"] in
  tags s = ["BEGIN"; "INSERT 0 1"; "SELECT 1"; "DECLARE CURSOR"; "FETCH 0"]%string.
Proof. vm_compute. reflexivity. Qed.

(** COPY asks for no privilege, in either direction. *)
Lemma copy_needs_no_privilege :
  tags (play_as nobody staff [F_Query "SELECT * FROM users"; F_Query "INSERT INTO users VALUES (3, NULL, 'eve')"]) = ["ERROR 42501"; "ERROR 42501"]%string
  /\ (let s := play_as nobody staff [F_Query "COPY users FROM STDIN"; F_CopyData (encode_copy_line [Some (as_bytes "3"); None; Some (as_bytes "eve")]); F_CopyDone;
                                     F_Query "COPY users (name) TO STDOUT"] in
      tags s = ["COPY 1"; "COPY 3"]%string
      /\ omap (fun m => match m with B_CopyData d => Some (string_of_list_byte (removelast d)) | _ => None end) (answers s) = ["ann"; "bob"; "eve"]%string).
Proof. vm_compute. repeat split; reflexivity. Qed.

(** COPY leaves the open transaction aside, and with it the constraints and the
    events: the row stays behind ROLLBACK, next to one with the same UNIQUE
    value, without a reference, and no event is published. *)
Lemma copy_passes_constraints_by :
  let s := play staff [F_Query "BEGIN; COPY users FROM STDIN"; F_CopyData (encode_copy_line [Some (as_bytes "3"); Some (as_bytes "a@x"); None]); F_CopyDone;
                       F_Query "COPY orders FROM STDIN"; F_CopyData (encode_copy_line [Some (as_bytes "ink"); Some (as_bytes "7")]); F_CopyDone; F_Query "ROLLBACK"] in
  server_table "users" s = [["1"; "a@x"; "ann"]; ["2"; "NULL"; "bob"]; ["3"; "a@x"; "NULL"]]%string /\ server_table "orders" s = [["ink"; "7"]]%string
  /\ length (mb_events (ms_base (se_db s))) = length (mb_events staff).
Proof. vm_compute. repeat split; reflexivity. Qed.

(** One format code stands for every parameter in the protocol, and here for the
    first one only. *)
Lemma single_format_is_for_the_first_parameter :
  bind_values [Some (i32_to_be 65); Some (i32_to_be 65)] [1] [OID_INT4; OID_INT4]
  = [Value_Int 65; Value_Text (string_of_list_byte (i32_to_be 65))].
Proof. vm_compute. reflexivity. Qed.

(** A parameter that Describe calls TEXT is, in the binary format, read by its
    length when the client declared no type: four letters are an integer. *)
Lemma described_text_is_read_as_integer :
  described_types (mkPreparedStmt (Stmt_Select (select_star (Some (plain_table "users")) (Some (Expr_Param 1)))) []) = [OID_TEXT]
  /\ bind_values [Some (as_bytes "anna")] [1] [] = [Value_Int 1634627169].
Proof. vm_compute. by split. Qed.

(** A cell that is no integer goes out as text in a column that was announced as
    binary. *)
Lemma announced_binary_sent_as_text :
  resolve_result_formats [1] [OID_INT8] = [1] /\ encode_result_row [Some (as_bytes "n/a")] [OID_INT8] [1] = [Some (as_bytes "n/a")].
Proof. vm_compute. by split. Qed.

(** An unknown role is turned away at once, a known one is asked for its proof:
    the answers tell them apart. *)
Definition with_bob : MemBase := set_rows bob2 shop.
Definition startup_as (user : string) : StartupParams := mkStartupParams 196608 [("user", user)]%string.

Lemma unknown_roles_are_told_apart :
  let first user := head (answers (fst (start_session (startup_as user) [Byte.x07] (session_on with_bob [F_PasswordData []])))) in
  first "bob"%string = Some (B_AuthenticationSASL [MECHANISM]) /\ first "eve"%string <> Some (B_AuthenticationSASL [MECHANISM]).
Proof. vm_compute. split; [reflexivity | discriminate]. Qed.

(** ** Inputs of the theorems *)

Definition copied : list Row := [[Some (as_bytes "3"); Some [TAB; BACKSLASH; NL]; None]; [Some (as_bytes "4"); None; Some (as_bytes "\N")]].

Lemma copy_text_roundtrip_witness :
  let chunks := [take 3 (concat (map encode_copy_line copied)); drop 3 (concat (map encode_copy_line copied))] in
  copy_chunks "users" users [0; 1; 2]%nat chunks (mkCopyIn [] 0 None) shop
  = (do r <- insert_copy_rows "users" users [0; 1; 2]%nat copied 0; pure (mkCopyIn [] (fst r) (snd r))) shop
  /\ length (rs_rows (fst (insert_copy_rows "users" users [0; 1; 2]%nat copied 0 shop)) "users") = 2%nat.
Proof.
  split; [|vm_compute; reflexivity]. apply (copy_text_roundtrip "users" users [0; 1; 2]%nat).
  - repeat (apply List.Forall_cons; [split; [done|]; repeat (apply List.Forall_cons; [vm_compute; done|]); apply List.Forall_nil|]). apply List.Forall_nil.
  - cbn [concat]. by rewrite app_nil_r, take_drop.
Defined.

Definition cursor_session : Session MemServer Z := play staff [F_Query "DECLARE c CURSOR FOR SELECT name FROM users"].

Lemma cursor_gives_rows_in_order_witness :
  exists c, ext_cursors (se_ext cursor_session) !! "c"%string = Some c /\ length (cu_rows c) = 2%nat
  /\ exists s' batches, fetch_each no_gpu 20 "c" [FetchCount_Count 0; FetchCount_Next; FetchCount_All; FetchCount_All] actor_unrestricted cursor_session = (s', done batches)
     /\ concat batches = cu_rows c.
Proof.
  eexists. split; [vm_compute; reflexivity|]. split; [vm_compute; reflexivity|].
  destruct (cursor_gives_rows_in_order no_gpu 20 "c" [FetchCount_Count 0; FetchCount_Next; FetchCount_All; FetchCount_All] actor_unrestricted cursor_session
    (mkCursorState [simple "name" OID_TEXT] [[Some (as_bytes "ann")]; [Some (as_bytes "bob")]] 0)) as (s' & batches & c' & Hf & _ & _ & _ & _ & _ & Hb & Hl).
  - intros k c. assert (ext_cursors (se_ext cursor_session) = {["c"%string := mkCursorState [simple "name" OID_TEXT] [[Some (as_bytes "ann")]; [Some (as_bytes "bob")]] 0]}) as -> by (vm_compute; reflexivity).
    intros [_ <-]%lookup_singleton_Some. cbn. lia.
  - vm_compute. reflexivity.
  - exists s', batches. split; [exact Hf|]. rewrite Hb, Hl; [vm_compute; reflexivity|]. do 2 (apply elem_of_cons; right). apply elem_of_cons. by left.
Defined.

Definition bob_first : ServerFirst :=
  match server_first (as_bytes "n,,n=bob,r=xyz") [Byte.x07] (derive_credential "secret" [Byte.x01] 4096) with Ok f => f | Err _ => demo_first end.
Definition bob_exchange : list FrontendMessage :=
  [F_PasswordData (cstr MECHANISM ++ i32_to_be 14 ++ as_bytes "n,,n=bob,r=xyz"); F_PasswordData (client_final "secret" [Byte.x01] 4096 (as_bytes "n,,") bob_first)].

Lemma handshake_needs_proof_witness :
  exists shown, bob_exchange = shown /\ authenticated "bob" [Byte.x07] (through (Txn := Z) None (server with_bob)) shown.
Proof.
  destruct (handshake_needs_proof (startup_as "bob") [Byte.x07] (session_on with_bob bob_exchange)
    (fst (start_session (startup_as "bob") [Byte.x07] (session_on with_bob bob_exchange))) (mkActor "bob" false false [])) as (shown & Hin & Ha & _).
  - vm_compute. reflexivity.
  - vm_compute. reflexivity.
  - exists shown. split; [|exact Ha]. cbn [se_input session_on] in Hin. rewrite Hin.
    assert (se_input (fst (start_session (startup_as "bob") [Byte.x07] (session_on with_bob bob_exchange))) = []) as -> by (vm_compute; reflexivity). apply app_nil_r.
Defined.

Lemma integer_cells_roundtrip_witness :
  exists cell format, resolve_result_formats [1] [OID_INT4] = [format] /\ encode_result_row [Some (as_bytes (to_dec (- 7)))] [OID_INT4] [1] = [Some cell]
    /\ decode_param (Some cell) format OID_INT4 = Value_Int (- 7).
Proof. apply (integer_cells_roundtrip OID_INT4 (- 7) 1 4); [reflexivity | lia]. Defined.
