(* ===== verification/Ddl.v ===== *)
(** Definitions of tables, columns, sequences, functions and indexes
    ([executor/ddl.rs] over [storage/database/catalog.rs] and the types of
    [storage/mod.rs]).

    A node has its rows, the object store that all nodes share, and in memory
    the schemas, sequences and functions, the indexes by kind and their files,
    and its topics. Rows are read and rewritten below the indexes
    ([LsmEngine::scan], [write] and [delete] with the flush behind them), which
    is the class [RawRows]. What builds the indexes of each kind and what
    evaluates a default are parameters; a failed operation gives the node it
    leaves. The disk with the index files does not fail. The texts of errors
    leave out the expression or the parser's message that some of them end in. *)

From Stdlib Require Import Strings.Byte Strings.Ascii Strings.String ZArith Lia Bool.
From stdpp Require Import base list strings gmap.
From S2P Require Import Prelude OrdMap Utf8 Decimal ObjectStore Manifest Txn Compress Flux Rows Jsonb Ast Lexer Parser Float Values JsonOps JsonSchema Eval Joins Sorting Windows Planner Select Dml.

Open Scope Z_scope.
Open Scope eval_scope.
Open Scope act_scope.

(** ** Data *)

Record Sequence := mkSequence { seq_name : string; seq_value : Z; seq_increment : Z }.
Record UserFunction := mkUserFunction { uf_name : string; uf_arg_types : list ColumnType; uf_return_type : ColumnType; uf_wasm_bytes : bytes }.

(** The kinds of index, in the order that the database lists them. *)
Inductive IndexKind := Index_BTree | Index_Spatial | Index_Time | Index_Graph | Index_Json | Index_Fts | Index_Vector | Index_IvfPq.
Definition INDEX_KINDS : list IndexKind := [Index_BTree; Index_Spatial; Index_Time; Index_Graph; Index_Json; Index_Fts; Index_Vector; Index_IvfPq].

#[export] Instance IndexKind_eq_dec : EqDecision IndexKind.
Proof. solve_decision. Defined.

(** What CREATE INDEX asks its engine for. *)
Inductive Metric := Metric_L2 | Metric_Cosine.
Inductive IndexSpec :=
| Spec_BTree
| Spec_Spatial
| Spec_Time (value_column : string) (granularity_ms : Z) (retention_ms : option Z)
| Spec_Graph (to_column : string) (type_column : option string)
| Spec_JsonPath (path : string)
| Spec_Fts
| Spec_Vector (metric : Metric) (m ef_construction ef_search : option Z)
| Spec_IvfPq (metric : Metric) (n_lists pq_m n_probe : Z).

(** [LsmEngine::scan], [write] and [delete] on composite keys. *)
Class RawRows (R : Type) := {
  raw_scan : R -> Result (list (bytes * bytes));
  raw_write : string -> bytes -> bytes -> R -> R * Result unit;
  raw_delete : string -> bytes -> R -> R * Result unit;
}.

(** An index file: its stem and its extension. *)
Definition IndexFile : Type := string * string.

Record DbNode (R S : Type) := mkDbNode {
  nd_role : NodeRole; nd_rows : R; nd_store : S;
  nd_schemas : gmap string TableSchema; nd_sequences : gmap string Sequence; nd_functions : gmap string UserFunction;
  nd_indexes : list (IndexKind * (string * string)); nd_files : list IndexFile; nd_names : gmap string string; nd_topics : gset string;
}.
Arguments mkDbNode {R S}. Arguments nd_role {R S}. Arguments nd_rows {R S}. Arguments nd_store {R S}. Arguments nd_schemas {R S}.
Arguments nd_sequences {R S}. Arguments nd_functions {R S}. Arguments nd_indexes {R S}. Arguments nd_files {R S}. Arguments nd_names {R S}. Arguments nd_topics {R S}.

(** ** Types and defaults *)

Section Names.
  Context {std : StdLib}.

(** [ColumnType::from_name] *)
Definition TYPE_NAMES : list (string * ColumnType) :=
  [("int8", ColumnType_Int8); ("bigint", ColumnType_Int8); ("int4", ColumnType_Int4); ("integer", ColumnType_Int4); ("int", ColumnType_Int4);
   ("int2", ColumnType_Int2); ("smallint", ColumnType_Int2); ("float8", ColumnType_Float8); ("double", ColumnType_Float8);
   ("double precision", ColumnType_Float8); ("float", ColumnType_Float8); ("float4", ColumnType_Float4); ("real", ColumnType_Float4);
   ("text", ColumnType_Text); ("varchar", ColumnType_Text); ("char", ColumnType_Text); ("character varying", ColumnType_Text); ("character", ColumnType_Text);
   ("bool", ColumnType_Bool); ("boolean", ColumnType_Bool); ("timestamp", ColumnType_Timestamp); ("timestamptz", ColumnType_Timestamp);
   ("date", ColumnType_Date); ("json", ColumnType_Json); ("jsonb", ColumnType_Json); ("bytea", ColumnType_Bytea); ("blob", ColumnType_Bytea);
   ("geometry", ColumnType_Geometry); ("point", ColumnType_Geometry); ("geography", ColumnType_Geography); ("vector", ColumnType_Vector);
   ("embedding", ColumnType_Vector); ("raster", ColumnType_Raster)]%string.
Definition named_in {A : Type} (name : string) (l : list (string * A)) : option A := snd <$> List.find (fun p => String.eqb (fst p) name) l.
Definition from_name (name : string) : option ColumnType := named_in (to_lowercase name) TYPE_NAMES.

Definition UDF_TYPES : list (string * ColumnType) :=
  [("int8", ColumnType_Int8); ("bigint", ColumnType_Int8); ("float8", ColumnType_Float8); ("double", ColumnType_Float8); ("double precision", ColumnType_Float8);
   ("bool", ColumnType_Bool); ("boolean", ColumnType_Bool); ("float8[]", ColumnType_Float8Array); ("double precision[]", ColumnType_Float8Array);
   ("double[]", ColumnType_Float8Array); ("float[]", ColumnType_Float8Array); ("bytea", ColumnType_Bytea); ("blob", ColumnType_Bytea)]%string.
Definition udf_column_type (name : string) : Result ColumnType :=
  ok_or (named_in (to_lowercase name) UDF_TYPES) ("WASM UDFs only support int8, float8, bool, float8[], and bytea argument/return types, got " +:+ quoted (to_lowercase name)).

End Names.

(** [v.join(sep)] *)
Fixpoint join_texts (sep : string) (l : list string) : string :=
  match l with
  | [] => EmptyString
  | [s] => s
  | s :: l' => s +:+ sep +:+ join_texts sep l'
  end.

Definition APOSTROPHE : string := String "039"%char EmptyString.

(** [s.replace('\'', "''")] *)
Fixpoint double_apostrophes (s : string) : string :=
  match s with
  | EmptyString => EmptyString
  | String c s' => if ascii_dec c "039"%char then String c (String c (double_apostrophes s')) else String c (double_apostrophes s')
  end.

Definition collect_results {A B : Type} (f : A -> Result B) (l : list A) : Result (list B) :=
  foldr (fun a rest => let? b := f a in let? bs := rest in Ok (b :: bs)) (Ok []) l.

Fixpoint default_expr_to_text (e : Expr) : Result string :=
  match e with
  | Expr_Literal (Literal_Int n) => Ok (to_dec n)
  | Expr_Literal (Literal_Float f) => Ok (f_display f)
  | Expr_Literal (Literal_Text s) => Ok (APOSTROPHE +:+ double_apostrophes s +:+ APOSTROPHE)
  | Expr_Literal (Literal_Bool b) => Ok (if b then "true" else "false")%string
  | Expr_Literal Literal_Null => Ok "NULL"%string
  | Expr_Literal (Literal_FloatArray a) => Ok (APOSTROPHE +:+ "{" +:+ join_texts "," (map f_display a) +:+ "}" +:+ APOSTROPHE)
  | Expr_UnaryOp UnOp_Neg e => let? t := default_expr_to_text e in Ok ("-" +:+ t)
  | Expr_Function name args _ =>
      let? texts := (fix all (l : list Expr) : Result (list string) :=
                       match l with [] => Ok [] | a :: l' => let? t := default_expr_to_text a in let? ts := all l' in Ok (t :: ts) end) args in
      Ok (name +:+ "(" +:+ join_texts ", " texts +:+ ")")
  | Expr_Cast e ty => let? t := default_expr_to_text e in Ok (t +:+ "::" +:+ ty)
  | _ => Err "DEFAULT expression too complex to persist in this version (supported: literals, nextval()-style function calls)"%string
  end.

(** ** The catalogue of a node *)

Section Catalogue.
  Context {R S : Type} {raw : RawRows R} {st : ObjectStore S} {js : Json}.
  Context {schema_codec : Bincode TableSchema} {sequence_codec : Bincode Sequence} {function_codec : Bincode UserFunction}.

Abbreviation node := (DbNode R S).

Definition set_nd_rows (r : R) (n : node) : node :=
  mkDbNode (nd_role n) r (nd_store n) (nd_schemas n) (nd_sequences n) (nd_functions n) (nd_indexes n) (nd_files n) (nd_names n) (nd_topics n).
Definition set_nd_store (s : S) (n : node) : node :=
  mkDbNode (nd_role n) (nd_rows n) s (nd_schemas n) (nd_sequences n) (nd_functions n) (nd_indexes n) (nd_files n) (nd_names n) (nd_topics n).
Definition set_schemas (m : gmap string TableSchema) (n : node) : node :=
  mkDbNode (nd_role n) (nd_rows n) (nd_store n) m (nd_sequences n) (nd_functions n) (nd_indexes n) (nd_files n) (nd_names n) (nd_topics n).
Definition set_sequences (m : gmap string Sequence) (n : node) : node :=
  mkDbNode (nd_role n) (nd_rows n) (nd_store n) (nd_schemas n) m (nd_functions n) (nd_indexes n) (nd_files n) (nd_names n) (nd_topics n).
Definition set_functions (m : gmap string UserFunction) (n : node) : node :=
  mkDbNode (nd_role n) (nd_rows n) (nd_store n) (nd_schemas n) (nd_sequences n) m (nd_indexes n) (nd_files n) (nd_names n) (nd_topics n).
Definition set_indexes (l : list (IndexKind * (string * string))) (files : list IndexFile) (n : node) : node :=
  mkDbNode (nd_role n) (nd_rows n) (nd_store n) (nd_schemas n) (nd_sequences n) (nd_functions n) l files (nd_names n) (nd_topics n).
Definition set_names (m : gmap string string) (n : node) : node :=
  mkDbNode (nd_role n) (nd_rows n) (nd_store n) (nd_schemas n) (nd_sequences n) (nd_functions n) (nd_indexes n) (nd_files n) m (nd_topics n).
Definition set_topics (t : gset string) (n : node) : node :=
  mkDbNode (nd_role n) (nd_rows n) (nd_store n) (nd_schemas n) (nd_sequences n) (nd_functions n) (nd_indexes n) (nd_files n) (nd_names n) t.

Abbreviation Do := (Act (DbNode R S)).

Definition observing {A : Type} (f : node -> A) : Do A := fun n => (n, done (f n)).
Definition changing (f : node -> node) : Do unit := fun n => (f n, done tt).
Definition abort_with {A : Type} (msg : string) : Do A := lift_eval (fails msg).

Definition node_writable : Do unit := fun n =>
  match nd_role n with
  | Reader => (n, fails "this node is a read-only replica; send writes to the writer node")
  | Writer => (n, done tt)
  end.

Definition store_put (key : string) (data : bytes) : Do unit := fun n =>
  let '(s, r) := os_put key data (nd_store n) in
  (set_nd_store s n, match r with Ok _ => done tt | Err e => fails e end).
Definition store_delete (key : string) : Do unit := fun n => let '(s, r) := os_delete key (nd_store n) in (set_nd_store s n, Some r).
Definition write_raw (table : string) (key value : bytes) : Do unit := fun n => let '(r, o) := raw_write table key value (nd_rows n) in (set_nd_rows r n, Some o).
Definition delete_raw (table : string) (key : bytes) : Do unit := fun n => let '(r, o) := raw_delete table key (nd_rows n) in (set_nd_rows r n, Some o).

Definition schema_key (name : string) : string := "schemas/" +:+ name +:+ ".bin".
Definition sequence_key (name : string) : string := "sequences/" +:+ name +:+ ".bin".
Definition function_key (name : string) : string := "functions/" +:+ name +:+ ".bin".

(** [get_table] with the error of every caller that needs the table. *)
Definition need_table (table : string) : Do TableSchema := fun n =>
  match nd_schemas n !! table with
  | Some schema => (n, done schema)
  | None => (n, fails ("table " +:+ quoted table +:+ " does not exist"))
  end.

(** *** Tables *)

(** [columns.iter().enumerate().filter(|(_, c)| c.is_pk)] *)
Definition pk_positions (columns : list TableColumn) : list nat :=
  omap (fun p => if tc_is_pk (snd p) then Some (fst p) else None) (combine (seq 0 (length columns)) columns).

Definition create_table_with_constraints (name : string) (columns : list TableColumn) (unique_groups : list (list nat)) (foreign_keys : list ForeignKey) : Do unit :=
  do _ <- node_writable;
  do schemas <- observing nd_schemas;
  match schemas !! name with
  | Some _ => abort_with ("table " +:+ quoted name +:+ " already exists")
  | None =>
      let schema := mkTableSchema name columns (pk_positions columns) unique_groups foreign_keys [] in
      do _ <- store_put (schema_key name) (bc_serialize schema);
      changing (fun n => set_schemas (<[name := schema]> (nd_schemas n)) n)
  end.

Definition update_table_schema (schema : TableSchema) : Do unit :=
  do _ <- node_writable;
  do _ <- store_put (schema_key (ts_name schema)) (bc_serialize schema);
  changing (fun n => set_schemas (<[ts_name schema := schema]> (nd_schemas n)) n).

Definition encode_row_cells (cells : Row) : bytes := encode_cells cells.
(** The loop is that of [executor::parse_rows]. *)
Definition decode_row_cells (value : bytes) : Row := parse_row value.

(** Every row of the table, in the order of the scan: its cells changed and
    written back under its key. *)
Fixpoint rewrite_rows (table : string) (change : Row -> Eval Row) (rows : list (bytes * bytes)) : Do unit :=
  match rows with
  | [] => pure tt
  | (key, value) :: rows' =>
      do cells <- lift_eval (change (decode_row_cells value));
      do _ <- write_raw table key (encode_row_cells cells);
      rewrite_rows table change rows'
  end.

Definition rows_of_table (table : string) : Do (list (bytes * bytes)) := fun n =>
  match raw_scan (nd_rows n) with
  | Ok rows => (n, done (List.filter (fun kv => starts_with (fst kv) (make_prefix table)) rows))
  | Err e => (n, fails e)
  end.

Definition with_columns (columns : list TableColumn) (s : TableSchema) : TableSchema :=
  mkTableSchema (ts_name s) columns (ts_pk_columns s) (ts_unique_groups s) (ts_foreign_keys s) (ts_json_schemas s).

Definition alter_table_add_column (table : string) (new_col : TableColumn) (default_cell : option bytes) : Do unit :=
  do _ <- node_writable;
  do schema <- need_table table;
  if existsb (fun c => String.eqb (tc_name c) (tc_name new_col)) (ts_columns schema)
  then abort_with ("column " +:+ quoted (tc_name new_col) +:+ " of relation " +:+ quoted table +:+ " already exists")
  else
    do rows <- rows_of_table table;
    do _ <- rewrite_rows table (fun cells => done (cells ++ [default_cell])) rows;
    update_table_schema (with_columns (ts_columns schema ++ [new_col]) schema).

(** [retain(|&c| c != idx)], then every position behind it one less. *)
Definition shift (idx c : nat) : nat := if (idx <? c)%nat then Nat.pred c else c.
Definition drop_position (idx : nat) (l : list nat) : list nat := map (shift idx) (List.filter (fun c => negb (c =? idx)%nat) l).
Definition drop_fk_position (idx : nat) (l : list ForeignKey) : list ForeignKey :=
  map (fun fk => mkForeignKey (shift idx (fk_column fk)) (fk_ref_table fk) (fk_ref_column fk)) (List.filter (fun fk => negb (fk_column fk =? idx)%nat) l).

(** [Vec::remove], which panics past the end. *)
Definition remove_at {A : Type} (idx : nat) (l : list A) : Eval (list A) := if (idx <? length l)%nat then done (delete idx l) else panics.

Definition without_column (idx : nat) (s : TableSchema) : TableSchema :=
  mkTableSchema (ts_name s) (delete idx (ts_columns s)) (drop_position idx (ts_pk_columns s)) (map (drop_position idx) (ts_unique_groups s))
    (drop_fk_position idx (ts_foreign_keys s)) (ts_json_schemas s).

Definition has_index (kind : IndexKind) (table column : string) (n : node) : bool :=
  existsb (fun i => bool_decide (fst i = kind) && String.eqb (fst (snd i)) table && String.eqb (snd (snd i)) column) (nd_indexes n).

Definition alter_table_drop_column (table column : string) : Do unit :=
  do _ <- node_writable;
  do schema <- need_table table;
  do idx <- lift_eval (Some (position_of schema column));
  if existsb (Nat.eqb idx) (ts_pk_columns schema)
  then abort_with ("cannot drop column " +:+ quoted column +:+ " because it is part of the primary key")
  else if existsb (existsb (Nat.eqb idx)) (ts_unique_groups schema)
  then abort_with ("cannot drop column " +:+ quoted column +:+ " because it is part of a UNIQUE constraint")
  else if existsb (fun fk => fk_column fk =? idx)%nat (ts_foreign_keys schema)
  then abort_with ("cannot drop column " +:+ quoted column +:+ " because it is part of a FOREIGN KEY constraint")
  else
    do indexed <- observing (has_index Index_BTree table column);
    if (indexed : bool) then abort_with ("cannot drop column " +:+ quoted column +:+ " because an index depends on it")
    else
      do rows <- rows_of_table table;
      do _ <- rewrite_rows table (remove_at idx) rows;
      update_table_schema (without_column idx schema).

Fixpoint delete_rows (table : string) (rows : list (bytes * bytes)) : Do unit :=
  match rows with
  | [] => pure tt
  | (key, _) :: rows' => do _ <- delete_raw table key; delete_rows table rows'
  end.

(** [stem.split_once('_')] gives this table. *)
Fixpoint until_underscore (s : string) : option string :=
  match s with
  | EmptyString => None
  | String c s' => if ascii_dec c "095"%char then Some EmptyString else String c <$> until_underscore s'
  end.

Definition drop_table (name : string) (if_exists : bool) : Do unit :=
  do _ <- node_writable;
  do schemas <- observing nd_schemas;
  match schemas !! name with
  | None => if if_exists then pure tt else abort_with ("table " +:+ quoted name +:+ " does not exist")
  | Some _ =>
      do rows <- rows_of_table name;
      do _ <- delete_rows name rows;
      do _ <- store_delete (schema_key name);
      changing (fun n =>
        set_topics (nd_topics n ∖ {["__cdc_" +:+ name]})
          (set_names (filter (fun p => until_underscore (fst p) <> Some name) (nd_names n))
          (set_indexes (List.filter (fun i => negb (String.eqb (fst (snd i)) name)) (nd_indexes n))
             (List.filter (fun f => negb (bool_decide (until_underscore (fst f) = Some name))) (nd_files n))
             (set_schemas (delete name (nd_schemas n)) n))))
  end.

Definition set_json_schema (table : string) (rule : JsonSchemaRule) : Do unit :=
  do _ <- node_writable;
  do s <- need_table table;
  update_table_schema (mkTableSchema (ts_name s) (ts_columns s) (ts_pk_columns s) (ts_unique_groups s) (ts_foreign_keys s)
    (List.filter (fun r => negb (String.eqb (js_column r) (js_column rule))) (ts_json_schemas s) ++ [rule])).

(** *** Sequences *)

Definition create_sequence (name : string) (start increment : Z) : Do unit :=
  do _ <- node_writable;
  do sequences <- observing nd_sequences;
  match sequences !! name with
  | Some _ => abort_with ("sequence " +:+ quoted name +:+ " already exists")
  | None =>
      let seq := mkSequence name (i64_wrap (start - increment)) increment in
      do _ <- store_put (sequence_key name) (bc_serialize seq);
      changing (fun n => set_sequences (<[name := seq]> (nd_sequences n)) n)
  end.

Definition need_sequence (name : string) : Do Sequence := fun n =>
  match nd_sequences n !! name with
  | Some seq => (n, done seq)
  | None => (n, fails ("sequence " +:+ quoted name +:+ " does not exist"))
  end.

Definition with_value (v : Z) (s : Sequence) : Sequence := mkSequence (seq_name s) v (seq_increment s).

(** The value in memory moves before the store has it. *)
Definition move_sequence (name : string) (seq : Sequence) : Do unit :=
  do _ <- changing (fun n => set_sequences (<[name := seq]> (nd_sequences n)) n);
  store_put (sequence_key name) (bc_serialize seq).

Definition nextval (name : string) : Do Z :=
  do _ <- node_writable;
  do seq <- need_sequence name;
  let value := i64_wrap (seq_value seq + seq_increment seq) in
  do _ <- move_sequence name (with_value value seq);
  pure value.

Definition currval (name : string) : Do Z := do seq <- need_sequence name; pure (seq_value seq).

Definition setval (name : string) (value : Z) (is_called : bool) : Do Z :=
  do _ <- node_writable;
  do seq <- need_sequence name;
  do _ <- move_sequence name (with_value (if is_called then value else i64_wrap (value - seq_increment seq)) seq);
  pure value.

Definition create_function (uf : UserFunction) : Do unit :=
  do _ <- node_writable;
  do functions <- observing nd_functions;
  match functions !! uf_name uf with
  | Some _ => abort_with ("function " +:+ quoted (uf_name uf) +:+ " already exists")
  | None =>
      do _ <- store_put (function_key (uf_name uf)) (bc_serialize uf);
      changing (fun n => set_functions (<[uf_name uf := uf]> (nd_functions n)) n)
  end.

(** *** Indexes *)

Definition index_exists (table column : string) (n : node) : bool := existsb (fun k => has_index k table column n) INDEX_KINDS.

Definition all_index_pairs (n : node) : list (string * string) :=
  concat (map (fun k => map snd (List.filter (fun i => bool_decide (fst i = k)) (nd_indexes n))) INDEX_KINDS).

Definition file_stem (table column : string) : string := table +:+ "_" +:+ column.

Definition index_name_of (table column : string) (n : node) : option string := trim <$> nd_names n !! file_stem table column.

Definition index_name_taken (name : string) (n : node) : bool :=
  existsb (fun p => bool_decide (index_name_of (fst p) (snd p) n = Some name)) (all_index_pairs n).

Definition name_index (table column name : string) : Do unit := changing (fun n => set_names (<[file_stem table column := name]> (nd_names n)) n).

(** In memory by table and column, on disk by the stem. *)
Definition drop_index (table column : string) : Do bool :=
  do _ <- node_writable;
  do exists_ <- observing (index_exists table column);
  if negb exists_ then pure false
  else
    do _ <- changing (fun n =>
      set_names (delete (file_stem table column) (nd_names n))
        (set_indexes (List.filter (fun i => negb (String.eqb (fst (snd i)) table && String.eqb (snd (snd i)) column)) (nd_indexes n))
           (List.filter (fun f => negb (String.eqb (fst f) (file_stem table column))) (nd_files n)) n));
    pure true.

(** *** Opening and refreshing *)

(** The objects under a prefix that decode, put into a map by name; what was
    read before a failure is in the map. *)
Fixpoint load_objects {A : Type} (decode : bytes -> option A) (put : A -> gmap string A -> gmap string A) (keys : list string) (m : gmap string A) (s : S) : S * gmap string A * Result unit :=
  match keys with
  | [] => (s, m, Ok tt)
  | k :: keys' =>
      match os_get k s with
      | (s', Err e) => (s', m, Err e)
      | (s', Ok None) => load_objects decode put keys' m s'
      | (s', Ok (Some (data, _))) => load_objects decode put keys' (match decode data with Some a => put a m | None => m end) s'
      end
  end.

Definition load_prefix {A : Type} (decode : bytes -> option A) (put : A -> gmap string A -> gmap string A) (prefix : string) (m : gmap string A) (s : S) : S * gmap string A * Result unit :=
  match os_list prefix s with
  | (s', Err e) => (s', m, Err e)
  | (s', Ok keys) => load_objects decode put keys m s'
  end.

(** [insert] when a node opens, [entry().or_insert()] when it refreshes. *)
Definition put_always {A : Type} (name : A -> string) (a : A) (m : gmap string A) : gmap string A := <[name a := a]> m.
Definition put_new {A : Type} (name : A -> string) (a : A) (m : gmap string A) : gmap string A :=
  match m !! name a with Some _ => m | None => <[name a := a]> m end.

(** One of the three loops of [open] and of [refresh]. *)
Definition load_map {A : Type} (decode : bytes -> option A) (put : A -> gmap string A -> gmap string A) (prefix : string) (get : node -> gmap string A) (set : gmap string A -> node -> node) : Do unit := fun n =>
  let '(s, m, r) := load_prefix decode put prefix (get n) (nd_store n) in
  (set m (set_nd_store s n), Some r).

Definition load_catalogue : Do unit :=
  do _ <- load_map bc_deserialize (put_always ts_name) "schemas/" nd_schemas set_schemas;
  do _ <- load_map bc_deserialize (put_always uf_name) "functions/" nd_functions set_functions;
  load_map bc_deserialize (put_always seq_name) "sequences/" nd_sequences set_sequences.

(** A node that starts: rows, indexes and topics are what it finds on its disk. *)
Definition open_catalogue (role : NodeRole) (rows : R) (indexes : list (IndexKind * (string * string))) (files : list IndexFile) (names : gmap string string) (topics : gset string) (s : S) : node * Eval unit :=
  load_catalogue (mkDbNode role rows s ∅ ∅ ∅ indexes files names topics).

Definition refresh_catalogue : Do unit :=
  do _ <- load_map bc_deserialize (put_new ts_name) "schemas/" nd_schemas set_schemas;
  do _ <- load_map bc_deserialize (put_new uf_name) "functions/" nd_functions set_functions;
  load_map bc_deserialize (put_new seq_name) "sequences/" nd_sequences set_sequences.

(** ** Statements *)

Section Statements.
  Context {std : StdLib} {crates : Crates} {world : World (DbNode R S)} {dbg : DebugFmt}.
  (** the engines of the indexes, what an evaluation leaves, what checks and registers a WASM module *)
  Context (build_index : IndexSpec -> string -> string -> Do unit).
  Context (after_eval : Expr -> node -> node).
  Context (validate_module : bytes -> string -> list ColumnType -> ColumnType -> Result unit).
  Context (base64_decode : string -> option bytes).
  Context (flux_create_topic : string -> Z -> option Z -> option Z -> Do unit).

(** [options.iter().find(|(k, _)| k.eq_ignore_ascii_case(key))] *)
Definition option_of (options : list (string * string)) (key : string) : option string :=
  snd <$> List.find (fun p => eq_ignore_ascii_case (fst p) key) options.

Definition resolve_column_indices (columns : list TableColumn) (names : list string) : Result (list nat) :=
  collect_results (fun name => ok_or (column_position columns name) ("column " +:+ quoted name +:+ " does not exist")) names.

Definition storage_column (c : ColumnDef) (is_pk : bool) : Result TableColumn :=
  let? default_ := match cd_default c with None => Ok None | Some e => let? t := default_expr_to_text e in Ok (Some t) end in
  Ok (mkTableColumn (cd_name c) (default ColumnType_Text (from_name (cd_col_type c))) (cd_nullable c) default_ is_pk).

(** The columns with what they declare themselves: UNIQUE and REFERENCES. *)
Definition column_constraints (columns : list ColumnDef) : list (list nat) * list ForeignKey :=
  (concat (imap (fun i c => if cd_is_unique c then [[i]] else []) columns),
   concat (imap (fun i c => match cd_references c with Some (t, col) => [mkForeignKey i t col] | None => [] end) columns)).

Definition serial_columns (table : string) (columns : list ColumnDef) : list (nat * string) :=
  concat (imap (fun i c => if cd_is_serial c then [(i, table +:+ "_" +:+ cd_name c +:+ "_seq")] else []) columns).

Fixpoint table_constraints (columns : list TableColumn) (cs : list TableConstraint) (acc : list (list nat) * list ForeignKey) : Result (list (list nat) * list ForeignKey) :=
  match cs with
  | [] => Ok acc
  | TableConstraint_Unique names :: cs' =>
      let? group := resolve_column_indices columns names in table_constraints columns cs' (fst acc ++ [group], snd acc)
  | TableConstraint_ForeignKey column ref_table ref_column :: cs' =>
      let? idx := resolve_column_indices columns [column] in
      table_constraints columns cs' (fst acc, snd acc ++ map (fun i => mkForeignKey i ref_table ref_column) idx)
  end.

(** The rule of [WITH (json_schema_col = ...)]. *)
Definition json_schema_rule (options : list (string * string)) : Result (option JsonSchemaRule) :=
  match option_of options "json_schema_col" with
  | None => Ok None
  | Some col =>
      let? text := ok_or (option_of options "json_schema") "json_schema_col requires WITH (json_schema = '<json schema text>')" in
      let? _ := ok_or (json_parse (as_bytes text)) "invalid json_schema" in
      let mode := default "strict"%string (option_of options "json_schema_mode") in
      let? _ := ok_or (mode_parse mode) ("invalid json_schema_mode " +:+ quoted mode +:+ " (expected strict, relaxed, or off)") in
      Ok (Some (mkJsonSchemaRule col mode text))
  end.

(** A sequence for each SERIAL column, and the default that draws from it. *)
Fixpoint create_serials (serials : list (nat * string)) (columns : list TableColumn) : Do (list TableColumn) :=
  match serials with
  | [] => pure columns
  | (idx, seq_name) :: serials' =>
      do _ <- create_sequence seq_name 1 1;
      create_serials serials'
        (alter (fun c => mkTableColumn (tc_name c) (tc_type c) (tc_nullable c) (Some ("nextval(" +:+ APOSTROPHE +:+ seq_name +:+ APOSTROPHE +:+ ")")) (tc_is_pk c)) idx columns)
  end.

Definition execute_create_table (ct : CreateTableStmt) : Do QueryResult :=
  do schemas <- observing nd_schemas;
  if ct_if_not_exists ct && bool_decide (is_Some (schemas !! ct_table ct)) then pure (command_tag "CREATE TABLE")
  else
    do columns <- lift_eval (Some (collect_results (fun c => storage_column c (cd_is_pk c)) (ct_columns ct)));
    do constraints <- lift_eval (Some (table_constraints columns (ct_table_constraints ct) (column_constraints (ct_columns ct))));
    do _ <- create_table_with_constraints (ct_table ct) columns (fst constraints) (snd constraints);
    do rule <- lift_eval (Some (json_schema_rule (ct_options ct)));
    do _ <- match rule with Some r => set_json_schema (ct_table ct) r | None => pure tt end;
    do _ <- match serial_columns (ct_table ct) (ct_columns ct) with
            | [] => pure tt
            | serials =>
                do columns <- create_serials serials columns;
                do now <- observing nd_schemas;
                match now !! ct_table ct with
                | None => lift_eval panics
                | Some schema => update_table_schema (with_columns columns schema)
                end
            end;
    pure (command_tag "CREATE TABLE").

Definition execute_drop_table (dt : DropTableStmt) : Do QueryResult :=
  do _ <- drop_table (dt_table dt) (dt_if_exists dt); pure (command_tag "DROP TABLE").

Definition execute_drop_index (di : DropIndexStmt) : Do QueryResult :=
  do target <- observing (fun n => List.find (fun p => String.eqb (file_stem (fst p) (snd p) +:+ "_idx") (di_name di) || bool_decide (index_name_of (fst p) (snd p) n = Some (di_name di))) (all_index_pairs n));
  do _ <- match target with
          | Some (table, column) => do _ <- drop_index table column; pure tt
          | None => if di_if_exists di then pure tt else abort_with ("index " +:+ quoted (di_name di) +:+ " does not exist")
          end;
  pure (command_tag "DROP INDEX").

Definition interval_option (options : list (string * string)) (key : string) : Result (option Z) :=
  match option_of options key with
  | None => Ok None
  | Some s => let? v := ok_or (parse_interval s) ("invalid " +:+ key +:+ " " +:+ debug_str s) in Ok (Some v)
  end.

(** [s.parse()] for a [usize] or [u64] *)
Definition unsigned_option (options : list (string * string)) (key problem : string) : Result (option Z) :=
  match option_of options key with
  | None => Ok None
  | Some s => let? v := ok_or (parse_unsigned (2 ^ 64 - 1) (as_bytes s)) (problem +:+ debug_str s) in Ok (Some v)
  end.
Definition usize_option (options : list (string * string)) (key : string) : Result (option Z) := unsigned_option options key ("invalid " +:+ key +:+ " ").

Definition metric_option (options : list (string * string)) : Result Metric :=
  match option_of options "metric" with
  | None => Ok Metric_L2
  | Some s => if eq_ignore_ascii_case s "cosine" then Ok Metric_Cosine else if eq_ignore_ascii_case s "l2" then Ok Metric_L2
              else Err ("unsupported vector metric " +:+ quoted s +:+ " (supported: l2, cosine)")
  end.

Definition is_numeric (t : ColumnType) : bool :=
  match t with ColumnType_Int8 | ColumnType_Int4 | ColumnType_Int2 | ColumnType_Float8 | ColumnType_Float4 => true | _ => false end.

(** The column of the values: named, or the first number beside the timestamp. *)
Definition time_value_column (ci : CreateIndexStmt) (schema : TableSchema) : Result string :=
  match option_of (ci_options ci) "value" with
  | Some v => Ok v
  | None => ok_or (tc_name <$> List.find (fun c => negb (String.eqb (tc_name c) (ci_column ci)) && is_numeric (tc_type c)) (ts_columns schema))
              "USING TIME requires a numeric value column; specify WITH (value = '<column>')"
  end.

Definition method_is (m : string) (names : list string) : bool := existsb (eq_ignore_ascii_case m) names.

(** The method and its options; only TIME looks at the table. *)
Definition index_spec (ci : CreateIndexStmt) : Do IndexSpec :=
  let options := ci_options ci in
  match ci_using ci with
  | None => pure Spec_BTree
  | Some m =>
      if method_is m ["spatial"; "gist"]%string then pure Spec_Spatial
      else if method_is m ["time"; "chronos"]%string then
        do granularity <- lift_eval (Some (interval_option options "interval"));
        do retention <- lift_eval (Some (interval_option options "retention"));
        do schema <- need_table (ci_table ci);
        do value <- lift_eval (Some (time_value_column ci schema));
        pure (Spec_Time value (default 3600000 granularity) retention)
      else if method_is m ["graph"; "plexus"]%string then
        do to_column <- lift_eval (Some (ok_or (option_of options "to") "USING GRAPH requires WITH (to = '<destination column>')"));
        pure (Spec_Graph to_column (option_of options "type"))
      else if method_is m ["jsonpath"]%string then
        do path <- lift_eval (Some (ok_or (option_of options "path") "USING JSONPATH requires WITH (path = '<dot.separated.path>')"));
        pure (Spec_JsonPath path)
      else if method_is m ["gin"; "fts"]%string then pure Spec_Fts
      else if method_is m ["vector"; "hnsw"]%string then
        do metric <- lift_eval (Some (metric_option options));
        do m' <- lift_eval (Some (usize_option options "m"));
        do efc <- lift_eval (Some (usize_option options "ef_construction"));
        do efs <- lift_eval (Some (usize_option options "ef_search"));
        pure (Spec_Vector metric m' efc efs)
      else if method_is m ["ivfpq"; "ivf"]%string then
        do metric <- lift_eval (Some (metric_option options));
        do lists <- lift_eval (Some (usize_option options "lists"));
        do pq_m <- lift_eval (Some (usize_option options "pq_m"));
        do n_probe <- lift_eval (Some (usize_option options "n_probe"));
        pure (Spec_IvfPq metric (default 100 lists) (default 8 pq_m) (default 8 n_probe))
      else abort_with ("unsupported index method " +:+ quoted m +:+ " (supported: default B-Tree, SPATIAL/GIST, TIME/CHRONOS, GRAPH/PLEXUS, JSONPATH, GIN/FTS, VECTOR/HNSW, IVFPQ)")
  end.

Definition execute_create_index (ci : CreateIndexStmt) : Do QueryResult :=
  do there <- observing (index_exists (ci_table ci) (ci_column ci));
  if ci_if_not_exists ci && there then pure (command_tag "CREATE INDEX")
  else
    do taken <- observing (fun n => match ci_name ci with Some name => index_name_taken name n | None => false end);
    if (taken : bool) then abort_with ("relation " +:+ quoted (default EmptyString (ci_name ci)) +:+ " already exists")
    else
      do spec <- index_spec ci;
      do _ <- build_index spec (ci_table ci) (ci_column ci);
      do _ <- match ci_name ci with Some name => name_index (ci_table ci) (ci_column ci) name | None => pure tt end;
      pure (command_tag "CREATE INDEX").

Definition execute_create_sequence (cs : CreateSequenceStmt) : Do QueryResult :=
  do sequences <- observing nd_sequences;
  if cs_if_not_exists cs && existsb (fun p => String.eqb (seq_name (snd p)) (cs_name cs)) (map_to_list sequences) then pure (command_tag "CREATE SEQUENCE")
  else
    do _ <- create_sequence (cs_name cs) (cs_start cs) (cs_increment cs);
    pure (command_tag "CREATE SEQUENCE").

Definition execute_create_topic (ct : CreateTopicStmt) : Do QueryResult :=
  do topics <- observing nd_topics;
  if cto_if_not_exists ct && bool_decide (cto_name ct ∈ topics) then pure (command_tag "CREATE TOPIC")
  else
    do partitions <- lift_eval (Some (match option_of (cto_options ct) "partitions" with
                                      | Some s => ok_or (parse_u32 s) ("invalid partitions value " +:+ debug_str s)
                                      | None => Ok 1
                                      end));
    do retention <- lift_eval (Some (interval_option (cto_options ct) "retention"));
    do retention_bytes <- lift_eval (Some (unsigned_option (cto_options ct) "retention_bytes" "invalid retention_bytes value "));
    do _ <- flux_create_topic (cto_name ct) partitions retention retention_bytes;
    pure (command_tag "CREATE TOPIC").

Definition set_column (name : string) (f : TableColumn -> Result TableColumn) (schema : TableSchema) : Result TableSchema :=
  match column_position (ts_columns schema) name with
  | None => Err ("column " +:+ quoted name +:+ " does not exist")
  | Some i =>
      match ts_columns schema !! i with
      | Some c => let? c' := f c in Ok (with_columns (<[i := c']> (ts_columns schema)) schema)
      | None => Err ("column " +:+ quoted name +:+ " does not exist")
      end
  end.

Definition column_action (action : ColumnAction) (c : TableColumn) : Result TableColumn :=
  match action with
  | ColumnAction_SetDefault e => let? t := default_expr_to_text e in Ok (mkTableColumn (tc_name c) (tc_type c) (tc_nullable c) (Some t) (tc_is_pk c))
  | ColumnAction_DropDefault => Ok (mkTableColumn (tc_name c) (tc_type c) (tc_nullable c) None (tc_is_pk c))
  | ColumnAction_SetNotNull => Ok (mkTableColumn (tc_name c) (tc_type c) false (tc_default c) (tc_is_pk c))
  | ColumnAction_DropNotNull => Ok (mkTableColumn (tc_name c) (tc_type c) true (tc_default c) (tc_is_pk c))
  end.

(** The cell that the rows of the table get: the default from its text. *)
Definition backfill_cell (c : TableColumn) : Do (option bytes) :=
  match tc_default c with
  | None => if tc_nullable c then pure None
            else abort_with ("column " +:+ quoted (tc_name c) +:+ " is NOT NULL and has no default; existing rows cannot be backfilled")
  | Some text =>
      do e <- lift_eval (parse_expr_text text);
      do v <- (fun n => (after_eval e n, eval (mkRowContext [] None (Some n) [] [] None []) e));
      pure (to_wire_bytes v)
  end.

Definition execute_alter_table (at_ : AlterTableStmt) : Do QueryResult :=
  do _ <- match at_action at_ with
          | AlterTableAction_AlterColumn name action =>
              do schema <- need_table (at_table at_);
              do schema' <- lift_eval (Some (set_column name (column_action action) schema));
              update_table_schema schema'
          | AlterTableAction_AddColumn cd =>
              do c <- lift_eval (Some (storage_column cd false));
              do cell <- backfill_cell c;
              alter_table_add_column (at_table at_) c cell
          | AlterTableAction_DropColumn column => alter_table_drop_column (at_table at_) column
          end;
  pure (command_tag "ALTER TABLE").

Definition execute_create_function (cf : CreateFunctionStmt) : Do QueryResult :=
  if negb (eq_ignore_ascii_case (cf_language cf) "wasm")
  then abort_with ("unsupported CREATE FUNCTION language " +:+ quoted (cf_language cf) +:+ " (only " +:+ quoted "wasm" +:+ " is supported)")
  else
    do arg_types <- lift_eval (Some (collect_results (fun a => udf_column_type (snd a)) (cf_args cf)));
    do return_type <- lift_eval (Some (udf_column_type (cf_return_type cf)));
    do wasm <- lift_eval (Some (ok_or (base64_decode (trim (cf_body_base64 cf))) "CREATE FUNCTION body is not valid base64"));
    do _ <- lift_eval (Some (validate_module wasm (cf_name cf) arg_types return_type));
    do _ <- create_function (mkUserFunction (cf_name cf) arg_types return_type wasm);
    pure (command_tag "CREATE FUNCTION").

End Statements.

End Catalogue.
