(* ===== verification/DdlFacts.v ===== *)
(** What changes of the schema leave ([Ddl]).

    [RawLaws] and [ListLaws] say what the statements rely on: a write of a row
    below the indexes changes that row, and a listing of the store shows the
    objects under its prefix. A server is up, with its node, or down, with the
    store alone; [event]s are statements, draws from a sequence, refreshes,
    crashes and starts, and all of them may fail.

    Theorems: in every reachable state the positions that keys and constraints
    of a schema hold are positions of its columns; the values of a sequence are
    never drawn twice; ADD COLUMN and DROP COLUMN change every row of the table
    by that cell, and DROP COLUMN leaves every constraint on the columns it was
    on. *)

From Stdlib Require Import Strings.Byte Strings.Ascii Strings.String ZArith Lia Bool Sorted.
From stdpp Require Import base list strings gmap.
From S2P Require Import Prelude OrdMap Utf8 Decimal ObjectStore Manifest Txn Compress Flux Rows Jsonb Ast Lexer Parser Float Values JsonOps JsonSchema Eval Joins Sorting Windows Planner Select Dml DmlFacts DmlRows Ddl.

Open Scope Z_scope.
Open Scope eval_scope.
Open Scope act_scope.

(** ** What the statements rely on *)

Class RawLaws (R : Type) {raw : RawRows R} := {
  raw_wf : R -> Prop;
  raw_rows : R -> rows;
  raw_sorted (r : R) : raw_wf r -> om_sorted (raw_rows r);
  raw_scan_law (r : R) l : raw_wf r -> raw_scan r = Ok l -> l = raw_rows r;
  raw_write_law (r r' : R) t k v o : raw_wf r -> raw_write t k v r = (r', o) -> raw_wf r' /\ outcome o (raw_rows r) (raw_rows r') (om_insert k v (raw_rows r));
  raw_delete_law (r r' : R) t k o : raw_wf r -> raw_delete t k r = (r', o) -> raw_wf r' /\ outcome o (raw_rows r) (raw_rows r') (om_remove k (raw_rows r));
}.

(** [os_listed] holds of the keys that a listing shows. *)
Class ListLaws (S : Type) {st : ObjectStore S} {laws : StoreLaws S} := {
  os_listed : string -> Prop;
  os_list_law p s s' r : os_wf s -> os_list p s = (s', r) ->
    os_wf s' /\ os_objects s' = os_objects s
    /\ forall keys, r = Ok keys ->
         (forall k, In k keys -> os_key_ok k /\ String.prefix p k = true)
         /\ (forall k, os_listed k -> String.prefix p k = true -> is_Some (os_objects s !! k) -> In k keys);
}.

(** ** Keys of objects *)

Lemma append_inj_l (p a b : string) : (p +:+ a = p +:+ b)%string -> a = b.
Proof. induction p as [|c p IH]; [done|]. intros [= H]. by apply IH. Qed.

Lemma length_append_text (a b : string) : String.length (a +:+ b) = (String.length a + String.length b)%nat.
Proof. induction a as [|c a IH]; [done|]. exact (f_equal Datatypes.S IH). Qed.

Lemma append_inj_r (s a b : string) : (a +:+ s = b +:+ s)%string -> a = b.
Proof.
  revert b. induction a as [|c a IH]; intros [|d b] H; [done | | |].
  - apply (f_equal String.length) in H. rewrite !length_append_text in H. cbn in H. lia.
  - apply (f_equal String.length) in H. rewrite !length_append_text in H. cbn in H. lia.
  - injection H as -> H. f_equal. by apply IH.
Qed.

Lemma schema_key_inj (a b : string) : schema_key a = schema_key b -> a = b.
Proof. intros H. apply append_inj_l, append_inj_r in H. done. Qed.
Lemma sequence_key_inj (a b : string) : sequence_key a = sequence_key b -> a = b.
Proof. intros H. apply append_inj_l, append_inj_r in H. done. Qed.

Lemma prefix_app (p s : string) : String.prefix p (p +:+ s) = true.
Proof. induction p as [|c p IH]; [by destruct s|]. change (String c p +:+ s) with (String c (p +:+ s)). cbn [String.prefix]. by destruct (ascii_dec c c). Qed.

(** ** Positions of columns *)

Definition schema_ok (s : TableSchema) : Prop :=
  ts_pk_columns s = pk_positions (ts_columns s)
  /\ Forall (Forall (fun i => (i < length (ts_columns s))%nat)) (ts_unique_groups s)
  /\ Forall (fun fk => (fk_column fk < length (ts_columns s))%nat) (ts_foreign_keys s).

(** The positions from [k] on. *)
Definition pk_from (k : nat) (columns : list TableColumn) : list nat :=
  omap (fun p => if tc_is_pk (snd p) then Some (fst p) else None) (combine (seq k (length columns)) columns).

Lemma pk_from_cons k c l : pk_from k (c :: l) = (if tc_is_pk c then [k] else []) ++ pk_from (Datatypes.S k) l.
Proof. unfold pk_from. cbn. by destruct (tc_is_pk c). Qed.

Lemma pk_from_app k l1 l2 : pk_from k (l1 ++ l2) = pk_from k l1 ++ pk_from (k + length l1) l2.
Proof.
  revert k. induction l1 as [|c l1 IH]; intros k; [cbn [app length]; by rewrite Nat.add_0_r|].
  cbn [app length]. rewrite !pk_from_cons, IH, <- app_assoc. by rewrite <- plus_n_Sm.
Qed.

Lemma pk_from_range k l i : In i (pk_from k l) -> (k <= i < k + length l)%nat.
Proof.
  revert k. induction l as [|c l IH]; intros k; [done|]. rewrite pk_from_cons, in_app_iff. cbn [length].
  intros [H|H]; [destruct (tc_is_pk c); [destruct H as [<-|[]]; lia | done]|]. apply IH in H. lia.
Qed.

Lemma pk_from_flags k l l' : map tc_is_pk l = map tc_is_pk l' -> pk_from k l = pk_from k l'.
Proof.
  revert k l'. induction l as [|c l IH]; intros k [|c' l']; [done..|]. cbn [map]. intros [= Hc Hl]. by rewrite !pk_from_cons, Hc, (IH _ l').
Qed.

Lemma pk_from_pred k l : map Nat.pred (pk_from (Datatypes.S k) l) = pk_from k l.
Proof. revert k. induction l as [|c l IH]; intros k; [done|]. rewrite !pk_from_cons, map_app, IH. by destruct (tc_is_pk c). Qed.

Lemma drop_position_app idx l1 l2 : drop_position idx (l1 ++ l2) = drop_position idx l1 ++ drop_position idx l2.
Proof. unfold drop_position. by rewrite List.filter_app, map_app. Qed.

Lemma drop_position_below idx l : (forall i, In i l -> (i < idx)%nat) -> drop_position idx l = l.
Proof.
  unfold drop_position. induction l as [|i l IH]; intros H; [done|]. cbn [List.filter]. pose proof (H i (or_introl eq_refl)) as Hi.
  rewrite (proj2 (Nat.eqb_neq i idx)) by lia. cbn [negb map]. rewrite IH by (intros; apply H; by right).
  unfold shift. by rewrite (proj2 (Nat.ltb_ge idx i)) by lia.
Qed.

Lemma drop_position_above idx l : (forall i, In i l -> (idx < i)%nat) -> drop_position idx l = map Nat.pred l.
Proof.
  unfold drop_position. induction l as [|i l IH]; intros H; [done|]. cbn [List.filter]. pose proof (H i (or_introl eq_refl)) as Hi.
  rewrite (proj2 (Nat.eqb_neq i idx)) by lia. cbn [negb map]. rewrite IH by (intros; apply H; by right).
  unfold shift. by rewrite (proj2 (Nat.ltb_lt idx i)) by lia.
Qed.

Lemma pk_positions_delete idx columns : (idx < length columns)%nat -> pk_positions (delete idx columns) = drop_position idx (pk_positions columns).
Proof.
  intros Hi. destruct (lookup_lt_is_Some_2 _ _ Hi) as [c Hc]. rewrite delete_take_drop.
  rewrite <- (take_drop_middle columns idx c Hc) at 3. change pk_positions with (pk_from 0).
  rewrite !pk_from_app, pk_from_cons, !drop_position_app. rewrite length_take_le by lia. cbn [Nat.add]. f_equal.
  - symmetry. apply drop_position_below. intros i H. apply pk_from_range in H. rewrite length_take in H. lia.
  - rewrite (drop_position_above idx (pk_from _ _)), pk_from_pred by (intros i H; apply pk_from_range in H; lia).
    destruct (tc_is_pk c); [|done]. unfold drop_position. cbn. by rewrite Nat.eqb_refl.
Qed.

Lemma shift_range idx i w : i <> idx -> (i < w)%nat -> (idx < w)%nat -> (shift idx i < w - 1)%nat.
Proof. unfold shift. destruct (Nat.ltb_spec idx i); lia. Qed.

Lemma drop_position_range idx w l : (idx < w)%nat -> Forall (fun i => (i < w)%nat) l -> Forall (fun i => (i < w - 1)%nat) (drop_position idx l).
Proof.
  intros Hw Hl. unfold drop_position. induction Hl as [|i l Hi _ IH]; [done|]. cbn [List.filter].
  destruct (Nat.eqb_spec i idx); [done|]. cbn [negb map]. constructor; [by apply shift_range | done].
Qed.

Lemma without_column_ok idx s : (idx < length (ts_columns s))%nat -> schema_ok s -> schema_ok (without_column idx s).
Proof.
  intros Hi (Hpk & Hu & Hf). unfold schema_ok, without_column. cbn [ts_pk_columns ts_columns ts_unique_groups ts_foreign_keys].
  rewrite Hpk, pk_positions_delete, length_delete by (done || by apply lookup_lt_is_Some_2). split_and!; [done | |].
  - apply Forall_fmap. eapply Forall_impl; [exact Hu|]. intros g Hg. cbn. by apply drop_position_range.
  - unfold drop_fk_position. induction Hf as [|fk l Hfk _ IH]; [constructor|]. cbn [List.filter]. destruct (Nat.eqb_spec (fk_column fk) idx); [done|].
    cbn [negb map]. constructor; [|done]. cbn. by apply shift_range.
Qed.

Lemma same_flags_ok columns s : map tc_is_pk columns = map tc_is_pk (ts_columns s) -> schema_ok s -> schema_ok (with_columns columns s).
Proof.
  intros Hf (Hpk & Hu & Hk). assert (length columns = length (ts_columns s)) as Hl by (rewrite <- (length_map tc_is_pk), Hf; apply length_map).
  unfold schema_ok, with_columns. cbn [ts_pk_columns ts_columns ts_unique_groups ts_foreign_keys]. rewrite Hl. split_and!; [|done..].
  rewrite Hpk. symmetry. by apply (pk_from_flags 0).
Qed.

Lemma add_column_ok c s : tc_is_pk c = false -> schema_ok s -> schema_ok (with_columns (ts_columns s ++ [c]) s).
Proof.
  intros Hc (Hpk & Hu & Hk). unfold schema_ok, with_columns. cbn [ts_pk_columns ts_columns ts_unique_groups ts_foreign_keys]. rewrite length_app. cbn [length].
  split_and!.
  - rewrite Hpk. change pk_positions with (pk_from 0). rewrite pk_from_app, pk_from_cons, Hc. by rewrite app_nil_r.
  - eapply Forall_impl; [exact Hu|]. cbn. intros g Hg. eapply Forall_impl; [exact Hg|]. cbn. lia.
  - eapply Forall_impl; [exact Hk|]. cbn. lia.
Qed.

(** ** What CREATE TABLE declares *)

Definition in_range_of (w : nat) (acc : list (list nat) * list ForeignKey) : Prop :=
  Forall (Forall (fun i => (i < w)%nat)) (fst acc) /\ Forall (fun fk => (fk_column fk < w)%nat) (snd acc).

Lemma Forall_concat_imap {A B : Type} (P : B -> Prop) (f : nat -> A -> list B) (l : list A) :
  (forall i a, l !! i = Some a -> Forall P (f i a)) -> Forall P (concat (imap f l)).
Proof.
  intros H. apply Forall_concat. apply Forall_forall. intros x Hx. apply elem_of_lookup_imap in Hx as (i & a & -> & Ha). by apply (H i).
Qed.

Lemma column_constraints_range columns : in_range_of (length columns) (column_constraints columns).
Proof.
  unfold column_constraints. split; cbn [fst snd]; apply Forall_concat_imap; intros i c Hc; apply lookup_lt_Some in Hc.
  - destruct (cd_is_unique c); [|done]. by repeat constructor.
  - destruct (cd_references c) as [[t col]|]; [|done]. by repeat constructor.
Qed.

Lemma column_position_range columns name i : column_position columns name = Some i -> (i < length columns)%nat.
Proof.
  revert i. induction columns as [|c columns IH]; intros i; [done|]. cbn [column_position length]. destruct (String.eqb _ _); [intros [= <-]; lia|].
  destruct (column_position columns name) as [j|]; [|done]. intros [= <-]. specialize (IH j eq_refl). lia.
Qed.

Lemma collect_results_Forall {A B : Type} (P : B -> Prop) (f : A -> Result B) l bs :
  (forall a b, f a = Ok b -> P b) -> collect_results f l = Ok bs -> Forall P bs.
Proof.
  intros Hf. revert bs. induction l as [|a l IH]; intros bs; cbn; [by intros [= <-]|].
  destruct (f a) as [b|] eqn:E; [|done]. cbn. fold (collect_results f l). destruct (collect_results f l) as [bs'|]; [|done]. cbn. intros [= <-]. eauto.
Qed.

Lemma collect_results_length {A B : Type} (f : A -> Result B) l bs : collect_results f l = Ok bs -> length bs = length l.
Proof.
  revert bs. induction l as [|a l IH]; intros bs; cbn; [by intros [= <-]|]. destruct (f a) as [b|]; [|done]. cbn. fold (collect_results f l).
  destruct (collect_results f l) as [bs'|]; [|done]. cbn. intros [= <-]. cbn. by rewrite (IH bs').
Qed.

Lemma resolve_range columns names is_ : resolve_column_indices columns names = Ok is_ -> Forall (fun i => (i < length columns)%nat) is_.
Proof.
  apply collect_results_Forall. intros a b. destruct (column_position columns a) eqn:E; [|done]. intros [= <-]. by apply column_position_range in E.
Qed.

Lemma table_constraints_range columns cs acc acc' :
  in_range_of (length columns) acc -> table_constraints columns cs acc = Ok acc' -> in_range_of (length columns) acc'.
Proof.
  revert acc. induction cs as [|[names|column rt rc] cs IH]; intros acc [Hu Hf]; cbn [table_constraints]; [by intros [= <-]| |];
    (destruct (resolve_column_indices columns _) as [is_|] eqn:E; [|done]); apply resolve_range in E; cbn; apply IH; split; cbn [fst snd]; try done.
  - apply Forall_app. by repeat constructor.
  - apply Forall_app. split; [done|]. apply Forall_fmap. exact E.
Qed.

(** ** Actions that keep a property of the node *)

Section Keeps.
  Context {State : Type} (P : State -> Prop).

(** Whatever the outcome, [P] holds again, and of a result [Q] holds. *)
Definition preserves {A : Type} (m : Act State A) (Q : A -> Prop) : Prop :=
  forall n, P n -> P (fst (m n)) /\ forall a, snd (m n) = done a -> Q a.

Lemma preserves_bind {A B : Type} (m : Act State A) (k : A -> Act State B) (Q : A -> Prop) (Q' : B -> Prop) :
  preserves m Q -> (forall a, Q a -> preserves (k a) Q') -> preserves (abind m k) Q'.
Proof.
  intros Hm Hk n Hn. destruct (Hm n Hn) as [Hn' Hq]. unfold abind. destruct (m n) as [n' [[a|e]|]]; cbn [fst snd] in *; [|done..].
  by apply (Hk a (Hq a eq_refl)).
Qed.

Lemma preserves_pure {A : Type} (a : A) (Q : A -> Prop) : Q a -> preserves (pure a) Q.
Proof. intros Ha n Hn. split; [done|]. by intros ? [= <-]. Qed.

Lemma preserves_lift {A : Type} (e : Eval A) (Q : A -> Prop) : (forall a, e = done a -> Q a) -> preserves (lift_eval e) Q.
Proof. intros He n Hn. split; [done|]. exact He. Qed.

Lemma preserves_weaken {A : Type} (m : Act State A) (Q Q' : A -> Prop) : (forall a, Q a -> Q' a) -> preserves m Q -> preserves m Q'.
Proof. intros H Hm n Hn. destruct (Hm n Hn) as [Hn' Hq]. split; [done|]. intros a Ha. by apply H, Hq. Qed.

End Keeps.

Section KeepsBoth.
  Context {State : Type} (P P' : State -> Prop).

Lemma preserves_both {A : Type} (m : Act State A) (Q Q' : A -> Prop) : preserves P m Q -> preserves P' m Q' -> preserves (fun n => P n /\ P' n) m (fun a => Q a /\ Q' a).
Proof. intros H H' n [Hn Hn']. destruct (H n Hn) as [H1 H2]. destruct (H' n Hn') as [H1' H2']. split; [done|]. intros a Ha. split; auto. Qed.

(** A result of [m] establishes [P'] for what follows. *)
Lemma preserves_establish {A B : Type} (m : Act State A) (k : A -> Act State B) (Q : A -> Prop) (Q' : B -> Prop) :
  preserves P m Q -> (forall n a, P n -> snd (m n) = done a -> P' (fst (m n))) -> (forall a, Q a -> preserves (fun n => P n /\ P' n) (k a) Q') -> preserves P (abind m k) Q'.
Proof.
  intros Hm Hp Hk n Hn. destruct (Hm n Hn) as [Hn' Hq]. specialize (Hp n). unfold abind. destruct (m n) as [n' [[a|e]|]]; cbn [fst snd] in *; [|done..].
  destruct (Hk a (Hq a eq_refl) n' (conj Hn' (Hp a Hn eq_refl))) as [[H _] H']. done.
Qed.

End KeepsBoth.

Section Closed.
  Context {R S : Type} {raw : RawRows R} {st : ObjectStore S} {js : Json}.
  Context {schema_codec : Bincode TableSchema} {sequence_codec : Bincode Sequence} {function_codec : Bincode UserFunction}.
  Context {std : StdLib} {crates : Crates} {world : World (DbNode R S)} {dbg : DebugFmt}.
  Context (build_index : IndexSpec -> string -> string -> Act (DbNode R S) unit).
  Context (after_eval : Expr -> DbNode R S -> DbNode R S).
  Context (validate_module : bytes -> string -> list ColumnType -> ColumnType -> Result unit).
  Context (base64_decode : string -> option bytes).
  Context (flux_create_topic : string -> Z -> option Z -> option Z -> Act (DbNode R S) unit).

Abbreviation node := (DbNode R S).

(** The statements of [executor/ddl.rs]. *)
Inductive DdlStmt :=
| Ddl_CreateTable (ct : CreateTableStmt)
| Ddl_DropTable (dt : DropTableStmt)
| Ddl_DropIndex (di : DropIndexStmt)
| Ddl_CreateIndex (ci : CreateIndexStmt)
| Ddl_CreateSequence (cs : CreateSequenceStmt)
| Ddl_CreateTopic (ct : CreateTopicStmt)
| Ddl_AlterTable (at_ : AlterTableStmt)
| Ddl_CreateFunction (cf : CreateFunctionStmt).

Definition execute_ddl (d : DdlStmt) : Act node QueryResult :=
  match d with
  | Ddl_CreateTable ct => execute_create_table ct
  | Ddl_DropTable dt => execute_drop_table dt
  | Ddl_DropIndex di => execute_drop_index di
  | Ddl_CreateIndex ci => execute_create_index build_index ci
  | Ddl_CreateSequence cs => execute_create_sequence cs
  | Ddl_CreateTopic ct => execute_create_topic flux_create_topic ct
  | Ddl_AlterTable at_ => execute_alter_table after_eval at_
  | Ddl_CreateFunction cf => execute_create_function validate_module base64_decode cf
  end.

(** The objects that a statement may write or delete. *)
Definition objects_of (d : DdlStmt) : list string :=
  match d with
  | Ddl_CreateTable ct => schema_key (ct_table ct) :: map (fun p => sequence_key (snd p)) (serial_columns (ct_table ct) (ct_columns ct))
  | Ddl_DropTable dt => [schema_key (dt_table dt)]
  | Ddl_CreateSequence cs => [sequence_key (cs_name cs)]
  | Ddl_AlterTable at_ => [schema_key (at_table at_)]
  | Ddl_CreateFunction cf => [function_key (cf_name cf)]
  | _ => []
  end.

(** Nothing of the catalogue and the store changes. *)
Definition beside (n n' : node) : Prop :=
  nd_role n' = nd_role n /\ nd_store n' = nd_store n /\ nd_schemas n' = nd_schemas n /\ nd_sequences n' = nd_sequences n /\ nd_functions n' = nd_functions n.

(** A property that the changes of the catalogue keep, one by one. *)
Record closed (K : string -> Prop) (P : node -> Prop) : Prop := {
  c_ok n t s : P n -> nd_schemas n !! t = Some s -> ts_name s = t /\ schema_ok s;
  c_beside n n' : P n -> beside n n' -> P n';
  c_eval e n : P n -> P (after_eval e n);
  c_build spec t c n : P n -> P (fst (build_index spec t c n));
  c_topic t p r b n : P n -> P (fst (flux_create_topic t p r b n));
  c_put_schema s : schema_ok s -> K (schema_key (ts_name s)) ->
    preserves P (do _ <- store_put (schema_key (ts_name s)) (bc_serialize s); changing (fun n => set_schemas (<[ts_name s := s]> (nd_schemas n)) n)) (fun _ => True);
  c_drop_schema t : K (schema_key t) -> preserves P (do _ <- store_delete (schema_key t); changing (fun n => set_schemas (delete t (nd_schemas n)) n)) (fun _ => True);
  c_create_sequence name start increment : K (sequence_key name) -> preserves P (create_sequence name start increment) (fun _ => True);
  c_create_function uf : K (function_key (uf_name uf)) -> preserves P (create_function uf) (fun _ => True);
}.

Section Statements.
  Context {K : string -> Prop} {P : node -> Prop} (HP : closed K P).

Lemma beside_keeps {A : Type} (m : Act node A) : (forall n, beside n (fst (m n))) -> preserves P m (fun _ => True).
Proof. intros H n Hn. split; [|done]. by eapply (c_beside _ _ HP n). Qed.

Lemma beside_refl (n : node) : beside n n.
Proof. done. Qed.

Lemma writable_keeps : preserves P node_writable (fun _ => True).
Proof. apply beside_keeps. intros n. unfold node_writable. by destruct (nd_role n). Qed.

Lemma observing_keeps {A : Type} (f : node -> A) : preserves P (observing f) (fun a => exists n, P n /\ a = f n).
Proof. intros n Hn. split; [done|]. intros a [= <-]. by exists n. Qed.

Lemma abort_keeps {A : Type} (msg : string) (Q : A -> Prop) : preserves P (abort_with msg) Q.
Proof. apply preserves_lift. done. Qed.

Lemma need_table_keeps t : preserves P (need_table t) (fun s => ts_name s = t /\ schema_ok s).
Proof.
  intros n Hn. unfold need_table. destruct (nd_schemas n !! t) as [s|] eqn:E; cbn; [|done]. split; [done|]. intros ? [= <-]. by apply (c_ok _ _ HP n).
Qed.

Lemma update_schema_keeps s : schema_ok s -> K (schema_key (ts_name s)) -> preserves P (update_table_schema s) (fun _ => True).
Proof. intros Hs Hk. eapply preserves_bind; [apply writable_keeps|]. intros _ _. by apply (c_put_schema _ _ HP). Qed.

Lemma write_raw_keeps t k v : preserves P (write_raw t k v) (fun _ => True).
Proof. apply beside_keeps. intros n. unfold write_raw. by destruct (raw_write t k v (nd_rows n)). Qed.

Lemma delete_raw_keeps t k : preserves P (delete_raw t k) (fun _ => True).
Proof. apply beside_keeps. intros n. unfold delete_raw. by destruct (raw_delete t k (nd_rows n)). Qed.

Lemma rewrite_rows_keeps t change l : preserves P (rewrite_rows t change l) (fun _ => True).
Proof.
  induction l as [|[k v] l IH]; [by apply preserves_pure|]. cbn [rewrite_rows]. eapply preserves_bind; [by apply (preserves_lift _ _ (fun _ => True))|]. intros cells _.
  eapply preserves_bind; [apply write_raw_keeps|]. by intros _ _.
Qed.

Lemma delete_rows_keeps t l : preserves P (delete_rows t l) (fun _ => True).
Proof. induction l as [|[k v] l IH]; [by apply preserves_pure|]. cbn [delete_rows]. eapply preserves_bind; [apply delete_raw_keeps|]. by intros _ _. Qed.

Lemma rows_of_table_keeps t : preserves P (rows_of_table t) (fun _ => True).
Proof. apply beside_keeps. intros n. unfold rows_of_table. by destruct (raw_scan (nd_rows n)). Qed.

Lemma lift_keeps {A : Type} (e : Eval A) : preserves P (lift_eval e) (fun a => e = done a).
Proof. by apply preserves_lift. Qed.

Lemma done_ok_keeps {A B : Type} (m : Act node A) (b : B) : preserves P m (fun _ => True) -> preserves P (do _ <- m; pure b) (fun _ => True).
Proof. intros Hm. eapply preserves_bind; [exact Hm|]. intros _ _. by apply preserves_pure. Qed.

Lemma add_column_keeps t c cell : tc_is_pk c = false -> K (schema_key t) -> preserves P (alter_table_add_column t c cell) (fun _ => True).
Proof.
  intros Hc Hk. eapply preserves_bind; [apply writable_keeps|]. intros _ _. eapply preserves_bind; [apply need_table_keeps|]. intros s [<- Hs].
  destruct (existsb _ _); [apply abort_keeps|]. eapply preserves_bind; [apply rows_of_table_keeps|]. intros l _.
  eapply preserves_bind; [apply rewrite_rows_keeps|]. intros _ _. apply update_schema_keeps; [by apply add_column_ok | done].
Qed.

Lemma drop_column_keeps t column : K (schema_key t) -> preserves P (alter_table_drop_column t column) (fun _ => True).
Proof.
  intros Hk. eapply preserves_bind; [apply writable_keeps|]. intros _ _. eapply preserves_bind; [apply need_table_keeps|]. intros s [<- Hs].
  eapply preserves_bind; [apply lift_keeps|]. intros idx Hi. unfold position_of in Hi.
  destruct (column_position (ts_columns s) column) as [i|] eqn:E; [|done]. injection Hi as <-. apply column_position_range in E.
  destruct (existsb _ _); [apply abort_keeps|]. destruct (existsb _ _); [apply abort_keeps|]. destruct (existsb _ _); [apply abort_keeps|].
  eapply preserves_bind; [apply observing_keeps|]. intros [] _; [apply abort_keeps|]. eapply preserves_bind; [apply rows_of_table_keeps|]. intros l _.
  eapply preserves_bind; [apply rewrite_rows_keeps|]. intros _ _. apply update_schema_keeps; [by apply without_column_ok | done].
Qed.

Lemma drop_table_keeps t if_exists : K (schema_key t) -> preserves P (drop_table t if_exists) (fun _ => True).
Proof.
  intros Hk. eapply preserves_bind; [apply writable_keeps|]. intros _ _. eapply preserves_bind; [apply observing_keeps|]. intros m _.
  destruct (m !! t); [|destruct if_exists; [by apply preserves_pure | apply abort_keeps]].
  eapply preserves_bind; [apply rows_of_table_keeps|]. intros l _. eapply preserves_bind; [apply delete_rows_keeps|]. intros _ _ n Hn.
  destruct (c_drop_schema _ _ HP t Hk n Hn) as [H _]. revert H. unfold abind. destruct (store_delete (schema_key t) n) as [n' [[u|e]|]]; cbn; [|done..].
  intros H. split; [|done]. by eapply (c_beside _ _ HP).
Qed.

Lemma set_json_schema_keeps t rule : K (schema_key t) -> preserves P (set_json_schema t rule) (fun _ => True).
Proof.
  intros Hk. eapply preserves_bind; [apply writable_keeps|]. intros _ _. eapply preserves_bind; [apply need_table_keeps|]. intros s [<- Hs].
  by apply update_schema_keeps.
Qed.

Lemma create_serials_keeps serials columns :
  Forall K (map (fun p => sequence_key (snd p)) serials) -> preserves P (create_serials serials columns) (fun columns' => map tc_is_pk columns' = map tc_is_pk columns).
Proof.
  revert columns. induction serials as [|[i name] serials IH]; intros columns Hk; [by apply preserves_pure|]. apply Forall_cons in Hk as [Hk Hks]. cbn [create_serials].
  eapply preserves_bind; [by apply (c_create_sequence _ _ HP)|]. intros _ _. eapply preserves_weaken; [|by apply IH]. cbn. intros columns' ->.
  apply list_eq. intros j. rewrite !list_lookup_fmap. destruct (decide (j = i)) as [->|Hne].
  - rewrite list_lookup_alter_eq. by destruct (columns !! i).
  - by rewrite list_lookup_alter_ne.
Qed.

(** *** CREATE TABLE *)

(** The schema of the table has these flags of primary keys. *)
Definition has_flags (t : string) (flags : list bool) (n : node) : Prop :=
  exists s, nd_schemas n !! t = Some s /\ ts_name s = t /\ map tc_is_pk (ts_columns s) = flags.

Lemma same_schemas_flags {A : Type} t flags (m : Act node A) : (forall n, nd_schemas (fst (m n)) = nd_schemas n) -> preserves (has_flags t flags) m (fun _ => True).
Proof. intros H n (s & Hs & Hf). split; [|done]. exists s. by rewrite H. Qed.

Lemma create_sequence_schemas name start increment (n : node) : nd_schemas (fst (create_sequence name start increment n)) = nd_schemas n.
Proof.
  unfold create_sequence, abind, node_writable, observing, abort_with, lift_eval. destruct (nd_role n); [|done]. cbn. destruct (nd_sequences n !! name); [done|]. cbv zeta.
  unfold store_put. by destruct (os_put _ _ (nd_store n)) as [s' [?|?]].
Qed.

Lemma create_serials_schemas serials columns (n : node) : nd_schemas (fst (create_serials serials columns n)) = nd_schemas n.
Proof.
  revert columns n. induction serials as [|[i name] serials IH]; intros columns n; [done|]. cbn [create_serials]. unfold abind.
  pose proof (create_sequence_schemas name 1 1 n) as H. destruct (create_sequence name 1 1 n) as [n' [[u|e]|]]; cbn [fst] in *; [|done..]. by rewrite IH.
Qed.

Lemma update_schema_flags t flags s : ts_name s = t -> map tc_is_pk (ts_columns s) = flags -> preserves (has_flags t flags) (update_table_schema s) (fun _ => True).
Proof.
  intros <- <- n Hn. split; [|done]. unfold update_table_schema, abind, node_writable, store_put. destruct (nd_role n); [|done].
  destruct (os_put _ _ (nd_store n)) as [s' [?|?]]; [|done]. exists s. cbn. by rewrite lookup_insert_eq.
Qed.

Lemma set_json_schema_flags t flags rule : preserves (has_flags t flags) (set_json_schema t rule) (fun _ => True).
Proof.
  eapply (preserves_bind _ _ _ (fun _ => True)); [apply same_schemas_flags; intros n; unfold node_writable; by destruct (nd_role n)|]. intros _ _.
  apply (preserves_bind _ _ _ (fun s => ts_name s = t /\ map tc_is_pk (ts_columns s) = flags)).
  - intros n (s & Hs & Hname & Hf). unfold need_table. rewrite Hs. split; [by exists s|]. by intros ? [= <-].
  - intros s [Hname Hf]. by apply update_schema_flags.
Qed.

Lemma created_flags t columns groups fks (n : node) u :
  snd (create_table_with_constraints t columns groups fks n) = done u -> has_flags t (map tc_is_pk columns) (fst (create_table_with_constraints t columns groups fks n)).
Proof.
  unfold create_table_with_constraints, abind, node_writable, observing, abort_with, lift_eval. destruct (nd_role n); [|done]. cbn. destruct (nd_schemas n !! t); [done|]. cbv zeta.
  unfold store_put. destruct (os_put _ _ (nd_store n)) as [s' [?|?]]; [|done]. intros _. eexists. cbn. by rewrite lookup_insert_eq.
Qed.

Lemma create_table_with_constraints_keeps t columns groups fks :
  K (schema_key t) -> in_range_of (length columns) (groups, fks) -> preserves P (create_table_with_constraints t columns groups fks) (fun _ => True).
Proof.
  intros Hk [Hu Hf]. eapply preserves_bind; [apply writable_keeps|]. intros _ _. eapply preserves_bind; [apply observing_keeps|]. intros m' _.
  destruct (m' !! _); [apply abort_keeps|]. by apply (c_put_schema _ _ HP (mkTableSchema t columns (pk_positions columns) groups fks [])).
Qed.

(** The SERIAL columns of a table that was just created. *)
Lemma serials_keep t serials columns :
  K (schema_key t) -> Forall K (map (fun p => sequence_key (snd p)) serials) ->
  preserves (fun n => P n /\ has_flags t (map tc_is_pk columns) n)
    (do columns <- create_serials serials columns;
     do now <- observing nd_schemas;
     match now !! t with None => lift_eval panics | Some schema => update_table_schema (with_columns columns schema) end) (fun _ => True).
Proof.
  intros Hk Hks. eapply preserves_bind.
  { apply preserves_both; [by apply create_serials_keeps | by apply same_schemas_flags, create_serials_schemas]. }
  intros columns' [Hflags _]. apply (preserves_bind _ _ _ (fun m => exists s, m !! t = Some s /\ ts_name s = t /\ schema_ok s /\ map tc_is_pk (ts_columns s) = map tc_is_pk columns)).
  - intros n [Hn (s & Hs & Hname & Hf)]. split; [split; [done|by exists s]|]. intros ? [= <-]. exists s. destruct (c_ok _ _ HP n t s Hn Hs). done.
  - intros m (s & -> & Hname & Hs & Hf). eapply preserves_weaken; [|apply preserves_both].
    + done.
    + apply update_schema_keeps; [apply same_flags_ok; [congruence | done] | cbn; congruence].
    + apply update_schema_flags; [done | cbn; congruence].
Qed.

Lemma create_table_keeps ct : Forall K (objects_of (Ddl_CreateTable ct)) -> preserves P (execute_create_table ct) (fun _ => True).
Proof.
  cbn [objects_of]. rewrite Forall_cons. intros [Hk Hks]. eapply preserves_bind; [apply observing_keeps|]. intros m _. destruct (_ && _); [by apply preserves_pure|].
  eapply preserves_bind; [apply lift_keeps|]. intros columns Hcols. injection Hcols as Hcols. apply collect_results_length in Hcols.
  eapply preserves_bind; [apply lift_keeps|]. intros cons Hcons. injection Hcons as Hcons.
  apply table_constraints_range in Hcons; [|rewrite Hcols; apply column_constraints_range].
  eapply (preserves_establish _ (has_flags (ct_table ct) (map tc_is_pk columns))); [apply create_table_with_constraints_keeps; [done | by destruct cons] | intros n u _; apply created_flags|].
  intros _ _. eapply preserves_bind; [apply (preserves_lift _ _ (fun _ => True)); done|]. intros rule _.
  apply (preserves_bind _ _ _ (fun _ => True)).
  { eapply preserves_weaken; [|apply preserves_both; [destruct rule; [by apply set_json_schema_keeps | by apply preserves_pure]|]; destruct rule; [apply set_json_schema_flags | by apply preserves_pure]]. done. }
  intros _ _. eapply preserves_bind; [|intros _ _; by apply preserves_pure]. destruct (serial_columns _ _) as [|p serials]; [by apply (preserves_pure _ _ (fun _ => True))|].
  by apply serials_keep.
Qed.

(** *** The other statements *)

Lemma changing_keeps (f : node -> node) : (forall n, beside n (f n)) -> preserves P (changing f) (fun _ => True).
Proof. intros H. by apply beside_keeps. Qed.

Lemma drop_index_keeps t c : preserves P (drop_index t c) (fun _ => True).
Proof.
  eapply preserves_bind; [apply writable_keeps|]. intros _ _. eapply preserves_bind; [apply observing_keeps|]. intros [] _; [|by apply preserves_pure]. cbn [negb].
  by apply done_ok_keeps, changing_keeps.
Qed.

Lemma index_spec_keeps ci : preserves P (index_spec ci) (fun _ => True).
Proof.
  unfold index_spec. cbv zeta. destruct (ci_using ci) as [m|]; [|by apply preserves_pure].
  repeat match goal with
  | |- preserves _ (if _ then _ else _) _ => destruct (method_is m _)
  | |- preserves _ (pure _) _ => by apply preserves_pure
  | |- preserves _ (abort_with _) _ => apply abort_keeps
  | |- preserves _ (abind (lift_eval _) _) _ => eapply preserves_bind; [apply lift_keeps|]; intros ? _
  | |- preserves _ (abind (need_table _) _) _ => eapply preserves_bind; [apply need_table_keeps|]; intros ? _
  end.
Qed.

Lemma create_index_keeps ci : preserves P (execute_create_index build_index ci) (fun _ => True).
Proof.
  eapply preserves_bind; [apply observing_keeps|]. intros there _. destruct (_ && _); [by apply preserves_pure|].
  eapply preserves_bind; [apply observing_keeps|]. intros [] _; [apply abort_keeps|]. eapply preserves_bind; [apply index_spec_keeps|]. intros spec _.
  eapply (preserves_bind _ _ _ (fun _ => True)); [intros n Hn; split; [by apply (c_build _ _ HP) | done]|]. intros _ _. apply done_ok_keeps.
  destruct (ci_name ci); [by apply changing_keeps | by apply preserves_pure].
Qed.

Lemma alter_table_keeps at_ : K (schema_key (at_table at_)) -> preserves P (execute_alter_table after_eval at_) (fun _ => True).
Proof.
  intros Hk. apply done_ok_keeps. destruct (at_action at_) as [cd|column|name action]; [|by apply drop_column_keeps|].
  - eapply preserves_bind; [apply lift_keeps|]. intros c Hc. injection Hc as Hc.
    apply (preserves_bind _ _ _ (fun _ => True)).
    + unfold backfill_cell. destruct (tc_default c) as [text|]; [|destruct (tc_nullable c); [by apply preserves_pure | apply abort_keeps]].
      eapply preserves_bind; [apply lift_keeps|]. intros e _. apply (preserves_bind _ _ _ (fun _ => True)); [|intros v _; by apply preserves_pure].
      intros n Hn. split; [by apply (c_eval _ _ HP) | done].
    + intros cell _. apply add_column_keeps; [|done]. unfold storage_column in Hc. cbn in Hc.
      destruct (match cd_default cd with None => _ | Some _ => _ end); [|done]. by injection Hc as <-.
  - eapply preserves_bind; [apply need_table_keeps|]. intros s [Hname Hs]. eapply preserves_bind; [apply lift_keeps|]. intros s' Hs'. injection Hs' as Hs'.
    unfold set_column in Hs'. destruct (column_position _ _) as [i|]; [|done]. destruct (ts_columns s !! i) as [c|] eqn:Hc; [|done].
    destruct (column_action action c) as [c'|] eqn:Ha; [|done]. injection Hs' as <-. apply update_schema_keeps; [|cbn; congruence]. apply same_flags_ok; [|done].
    apply list_eq. intros j. rewrite !list_lookup_fmap. destruct (decide (j = i)) as [->|Hne]; [|by rewrite list_lookup_insert_ne].
    rewrite list_lookup_insert_eq, Hc by (by apply lookup_lt_Some in Hc). cbn. f_equal.
    destruct action as [e| | |]; cbn in Ha; [destruct (default_expr_to_text e); [|done]|..]; by injection Ha as <-.
Qed.

Lemma execute_ddl_keeps d : Forall K (objects_of d) -> preserves P (execute_ddl d) (fun _ => True).
Proof.
  intros Hk. destruct d as [ct|dt|di|ci|cs|ct|at_|cf]; cbn [execute_ddl objects_of] in *.
  - by apply create_table_keeps.
  - rewrite Forall_singleton in Hk. unfold execute_drop_table. apply done_ok_keeps. by apply drop_table_keeps.
  - eapply preserves_bind; [apply observing_keeps|]. intros target _. apply done_ok_keeps. destruct target as [[t c]|]; [apply done_ok_keeps, drop_index_keeps|].
    destruct (di_if_exists di); [by apply preserves_pure | apply abort_keeps].
  - apply create_index_keeps.
  - rewrite Forall_singleton in Hk. eapply preserves_bind; [apply observing_keeps|]. intros m _. destruct (_ && _); [by apply preserves_pure|].
    by apply done_ok_keeps, (c_create_sequence _ _ HP).
  - eapply preserves_bind; [apply observing_keeps|]. intros m _. destruct (_ && _); [by apply preserves_pure|]. do 3 (eapply preserves_bind; [apply lift_keeps|]; intros ? _).
    apply done_ok_keeps. intros n Hn. split; [by apply (c_topic _ _ HP) | done].
  - rewrite Forall_singleton in Hk. by apply alter_table_keeps.
  - rewrite Forall_singleton in Hk. unfold execute_create_function. destruct (negb _); [apply abort_keeps|].
    do 4 (eapply preserves_bind; [apply lift_keeps|]; intros ? _). apply done_ok_keeps. by apply (c_create_function _ _ HP).
Qed.
End Statements.

(** ** The catalogue of a node and what is stored *)

  Context {store_laws : StoreLaws S} {list_laws : ListLaws S}.

(** A value that decodes from what was encoded is that value. *)
Definition faithful {A : Type} (bc : Bincode A) : Prop := forall a b, bc_deserialize (bc_serialize a) = Some b -> b = a.
  Context (schema_faithful : faithful schema_codec) (sequence_faithful : faithful sequence_codec).

Definition stored_ok (objs : objects) : Prop :=
  forall k o, objs !! k = Some o ->
    (forall s : TableSchema, String.prefix "schemas/" k = true -> bc_deserialize (fst o) = Some s -> schema_ok s)
    /\ (forall s : Sequence, String.prefix "sequences/" k = true -> bc_deserialize (fst o) = Some s -> k = sequence_key (seq_name s)).

Record catalogue_ok (n : node) : Prop := {
  ok_store : os_wf (nd_store n);
  ok_schemas t s : nd_schemas n !! t = Some s -> ts_name s = t /\ schema_ok s;
  ok_sequences t s : nd_sequences n !! t = Some s -> seq_name s = t;
  ok_stored : stored_ok (os_objects (nd_store n));
}.

Lemma stored_schema (objs : objects) s e : schema_ok s -> stored_ok objs -> stored_ok (<[schema_key (ts_name s) := (bc_serialize s, e)]> objs).
Proof.
  intros Hs Ho k o. rewrite lookup_insert_Some. intros [[<- <-]|[_ H]]; [|by apply Ho]. split; cbn [fst]; [|done].
  intros s' _ H. apply schema_faithful in H. by subst.
Qed.

Lemma stored_sequence (objs : objects) (s : Sequence) e : stored_ok objs -> stored_ok (<[sequence_key (seq_name s) := (bc_serialize s, e)]> objs).
Proof.
  intros Ho k o. rewrite lookup_insert_Some. intros [[<- <-]|[_ H]]; [|by apply Ho]. split; cbn [fst]; [done|].
  intros s' _ H. apply sequence_faithful in H. by subst.
Qed.

Lemma stored_function (objs : objects) name d e : stored_ok objs -> stored_ok (<[function_key name := (d, e)]> objs).
Proof. intros Ho k o. rewrite lookup_insert_Some. intros [[<- <-]|[_ H]]; [done | by apply Ho]. Qed.

Lemma stored_delete (objs : objects) key : stored_ok objs -> stored_ok (delete key objs).
Proof. intros Ho k o. rewrite lookup_delete_Some. intros [_ H]. by apply Ho. Qed.

(** A put that succeeds has written; one that fails may have. *)
Lemma store_put_run key data (n : node) :
  os_wf (nd_store n) -> os_key_ok key ->
  exists s' r, store_put key data n = (set_nd_store s' n, Some r) /\ os_wf s'
    /\ (os_objects s' = os_objects (nd_store n) /\ (exists e, r = Err e) \/ exists e, os_objects s' = <[key := (data, e)]> (os_objects (nd_store n))).
Proof.
  intros Hwf Hk. unfold store_put. destruct (os_put key data (nd_store n)) as [s' [m|e]] eqn:E; apply os_put_law in E as [Hwf' Ho]; try done.
  - exists s', (Ok tt). split_and!; [done | done|]. right. by eexists.
  - exists s', (Err e). split_and!; [done | done|]. destruct Ho as [->|[e' ->]]; [left | right]; eauto.
Qed.

Lemma store_delete_run key (n : node) :
  os_wf (nd_store n) -> os_key_ok key ->
  exists s' r, store_delete key n = (set_nd_store s' n, Some r) /\ os_wf s'
    /\ (os_objects s' = os_objects (nd_store n) \/ os_objects s' = delete key (os_objects (nd_store n))).
Proof.
  intros Hwf Hk. unfold store_delete. destruct (os_delete key (nd_store n)) as [s' [m|e]] eqn:E; apply os_delete_law in E as [Hwf' Ho]; try done; exists s'; eexists; eauto.
Qed.

(** *** Draws from sequences *)

Inductive SeqOp := Op_nextval (name : string) | Op_setval (name : string) (value : Z) (is_called : bool).
Definition op_name (o : SeqOp) : string := match o with Op_nextval name => name | Op_setval name _ _ => name end.
Definition run_op (o : SeqOp) (n : node) : node :=
  match o with Op_nextval name => fst (nextval name n) | Op_setval name v c => fst (setval name v c n) end.

(** What the engines of the indexes, of the topics and of expressions leave:
    the catalogue, and sequences that [nextval] and [setval] have moved. *)
Class Engines := {
  build_beside spec t c n : beside n (fst (build_index spec t c n));
  topic_beside t p r b n : beside n (fst (flux_create_topic t p r b n));
  eval_draws e n : exists ops, Forall (fun o => os_key_ok (sequence_key (op_name o))) ops /\ after_eval e n = fold_left (fun n o => run_op o n) ops n;
}.
  Context {engines : Engines}.

Lemma move_sequence_ok name seq : os_key_ok (sequence_key name) -> seq_name seq = name -> preserves catalogue_ok (move_sequence name seq) (fun _ => True).
Proof.
  intros Hk <- n [Hwf Hs Hq Ho]. split; [|done]. unfold move_sequence, abind, changing.
  destruct (store_put_run (sequence_key (seq_name seq)) (bc_serialize seq) (set_sequences (<[seq_name seq := seq]> (nd_sequences n)) n)) as (s' & r & E & Hwf' & Hobj); [done..|].
  cbn. rewrite E. split; cbn; [done | done | |].
  - intros t s. rewrite lookup_insert_Some. intros [[<- <-]|[_ H]]; [done | by apply Hq].
  - destruct Hobj as [[-> _]|[e ->]]; [done | by apply stored_sequence].
Qed.

Lemma need_sequence_ok name : preserves catalogue_ok (need_sequence name) (fun s => seq_name s = name).
Proof.
  intros n Hn. unfold need_sequence. destruct (nd_sequences n !! name) as [s|] eqn:E; cbn; [|done]. split; [done|]. intros ? [= <-]. by apply (ok_sequences n Hn).
Qed.

Lemma node_writable_run (n : node) : node_writable n = (n, match nd_role n with Writer => done tt | Reader => fails "this node is a read-only replica; send writes to the writer node" end).
Proof. unfold node_writable. by destruct (nd_role n). Qed.

Lemma writable_ok : preserves catalogue_ok node_writable (fun _ => True).
Proof. intros n Hn. by rewrite node_writable_run. Qed.

Lemma nextval_ok name : os_key_ok (sequence_key name) -> preserves catalogue_ok (nextval name) (fun _ => True).
Proof.
  intros Hk. eapply preserves_bind; [apply writable_ok|]. intros _ _. eapply preserves_bind; [apply need_sequence_ok|]. intros s Hs. cbv zeta.
  eapply preserves_bind; [by apply move_sequence_ok|]. intros _ _. by apply preserves_pure.
Qed.

Lemma setval_ok name v c : os_key_ok (sequence_key name) -> preserves catalogue_ok (setval name v c) (fun _ => True).
Proof.
  intros Hk. eapply preserves_bind; [apply writable_ok|]. intros _ _. eapply preserves_bind; [apply need_sequence_ok|]. intros s Hs.
  eapply preserves_bind; [by apply move_sequence_ok|]. intros _ _. by apply preserves_pure.
Qed.

Lemma run_op_ok o n : os_key_ok (sequence_key (op_name o)) -> catalogue_ok n -> catalogue_ok (run_op o n).
Proof. intros Hk Hn. destruct o; cbn in *; [by apply nextval_ok | by apply setval_ok]. Qed.

Lemma catalogue_closed : closed os_key_ok catalogue_ok.
Proof.
  constructor.
  - intros n t s Hn. apply (ok_schemas n Hn).
  - intros n n' [Hwf Hs Hq Ho] (_ & E1 & E2 & E3 & _). split; rewrite ?E1, ?E2, ?E3; done.
  - intros e n Hn. destruct (eval_draws e n) as (ops & Hops & ->). revert n Hn. induction Hops as [|o ops Ho _ IH]; intros n Hn; [done|]. cbn. by apply IH, run_op_ok.
  - intros spec t c n [Hwf Hs Hq Ho]. destruct (build_beside spec t c n) as (_ & E1 & E2 & E3 & _). split; rewrite ?E1, ?E2, ?E3; done.
  - intros t p r b n [Hwf Hs Hq Ho]. destruct (topic_beside t p r b n) as (_ & E1 & E2 & E3 & _). split; rewrite ?E1, ?E2, ?E3; done.
  - intros s Hok Hk n [Hwf Hs Hq Ho]. split; [|done]. unfold abind, changing. destruct (store_put_run (schema_key (ts_name s)) (bc_serialize s) n) as (s' & r & -> & Hwf' & Hobj); [done..|].
    assert (stored_ok (os_objects s')) as Ho' by (destruct Hobj as [[-> _]|[e ->]]; [done | by apply stored_schema]).
    destruct r as [u|e]; split; cbn; try done. intros t s0. rewrite lookup_insert_Some. intros [[<- <-]|[_ H]]; [done | by apply Hs].
  - intros t Hk n [Hwf Hs Hq Ho]. split; [|done]. unfold abind, changing. destruct (store_delete_run (schema_key t) n) as (s' & r & -> & Hwf' & Hobj); [done..|].
    assert (stored_ok (os_objects s')) as Ho' by (destruct Hobj as [-> | ->]; [done | by apply stored_delete]).
    destruct r as [u|e]; split; cbn; try done. intros t' s0. rewrite lookup_delete_Some. intros [_ H]. by apply Hs.
  - intros name start inc Hk. eapply preserves_bind; [apply writable_ok|]. intros _ _ n [Hwf Hs Hq Ho]. split; [|done]. unfold abind, changing, observing, abort_with, lift_eval. cbn.
    destruct (nd_sequences n !! name); [done|]. cbv zeta.
    destruct (store_put_run (sequence_key name) (bc_serialize (mkSequence name (i64_wrap (start - inc)) inc)) n) as (s' & r & -> & Hwf' & Hobj); [done..|].
    assert (stored_ok (os_objects s')) as Ho' by (destruct Hobj as [[-> _]|[e ->]]; [done | by apply (stored_sequence _ (mkSequence name _ inc))]).
    destruct r as [u|e]; split; cbn; try done. intros t s0. rewrite lookup_insert_Some. intros [[<- <-]|[_ H]]; [done | by apply Hq].
  - intros uf Hk. eapply preserves_bind; [apply writable_ok|]. intros _ _ n [Hwf Hs Hq Ho]. split; [|done]. unfold abind, changing, observing, abort_with, lift_eval. cbn.
    destruct (nd_functions n !! uf_name uf); [done|].
    destruct (store_put_run (function_key (uf_name uf)) (bc_serialize uf) n) as (s' & r & -> & Hwf' & Hobj); [done..|].
    assert (stored_ok (os_objects s')) as Ho' by (destruct Hobj as [[-> _]|[e ->]]; [done | by apply stored_function]).
    destruct r as [u|e]; split; cbn; done.
Qed.

(** *** Loading *)

Section Loads.
  Context {A : Type} (decode : bytes -> option A) (put : A -> gmap string A -> gmap string A) (prefix : string) (objs : objects).
  Context (I : gmap string A -> Prop).
  (** [I] stands every object under the prefix. *)
  Context (I_put : forall k o a m, objs !! k = Some o -> String.prefix prefix k = true -> decode (fst o) = Some a -> I m -> I (put a m)).

Lemma load_objects_keep keys m s s' m' r :
  os_wf s -> os_objects s = objs -> (forall k, In k keys -> os_key_ok k /\ String.prefix prefix k = true) -> I m ->
  load_objects decode put keys m s = (s', m', r) -> os_wf s' /\ os_objects s' = objs /\ I m'.
Proof.
  revert m s. induction keys as [|k keys IH]; intros m s Hwf Hobj Hkeys Hm; cbn [load_objects]; [by intros [= <- <- <-]|].
  destruct (Hkeys k (or_introl eq_refl)) as [Hk Hp]. destruct (os_get k s) as [s1 [o|e]] eqn:E; apply os_get_law in E as (Hwf1 & Hobj1 & Ho); try done;
    [|intros [= <- <- <-]; by rewrite Hobj1].
  specialize (Ho _ eq_refl). assert (forall m1, I m1 -> load_objects decode put keys m1 s1 = (s', m', r) -> os_wf s' /\ os_objects s' = objs /\ I m') as Hgo.
  { intros m1 Hm1. apply IH; [done | congruence | intros; apply Hkeys; by right | done]. }
  destruct o as [[data meta]|]; [|by apply Hgo]. destruct (decode data) as [a|] eqn:Ea; [|by apply Hgo]. apply Hgo.
  rewrite Hobj in Ho. destruct (objs !! k) as [[d e]|] eqn:Ek; [|done]. injection Ho as -> _. by eapply (I_put k (d, e)).
Qed.

Lemma load_prefix_keep m s s' m' r :
  os_wf s -> os_objects s = objs -> I m -> load_prefix decode put prefix m s = (s', m', r) -> os_wf s' /\ os_objects s' = objs /\ I m'.
Proof.
  intros Hwf Hobj Hm. unfold load_prefix. destruct (os_list prefix s) as [s1 [keys|e]] eqn:E; apply os_list_law in E as (Hwf1 & Hobj1 & Hk); try done.
  - destruct (Hk _ eq_refl) as [Hk1 _]. apply load_objects_keep; [done | congruence | done | done].
  - intros [= <- <- <-]. by rewrite Hobj1.
Qed.

End Loads.

(** An object that is read makes [I] hold. *)
Lemma load_objects_reach {A : Type} (decode : bytes -> option A) put prefix objs (I : gmap string A -> Prop) k o a keys m s s' m' u :
  (forall k o a m, objs !! k = Some o -> String.prefix prefix k = true -> decode (fst o) = Some a -> I m -> I (put a m)) ->
  objs !! k = Some o -> decode (fst o) = Some a -> (forall m, I (put a m)) ->
  os_wf s -> os_objects s = objs -> (forall k, In k keys -> os_key_ok k /\ String.prefix prefix k = true) -> In k keys ->
  load_objects decode put keys m s = (s', m', Ok u) -> I m'.
Proof.
  intros HI Ho Ha Hput. revert m s. induction keys as [|k1 keys IH]; intros m s Hwf Hobj Hkeys Hin; [done|]. cbn [load_objects].
  destruct (Hkeys k1 (or_introl eq_refl)) as [Hk1 Hp1]. destruct (os_get k1 s) as [s1 [o1|e]] eqn:E; apply os_get_law in E as (Hwf1 & Hobj1 & Ho1); try done.
  specialize (Ho1 _ eq_refl). rewrite Hobj in Ho1. rewrite Hobj in Hobj1. assert (forall k, In k keys -> os_key_ok k /\ String.prefix prefix k = true) as Hkeys' by (intros; apply Hkeys; by right).
  destruct Hin as [->|Hin].
  - rewrite Ho in Ho1. subst o1. destruct o as [d e]. cbn [fst] in Ha. cbn. rewrite Ha. intros H. eapply (load_objects_keep decode put prefix objs I) in H as (_ & _ & H); done.
  - destruct o1 as [[data meta]|]; by eapply IH.
Qed.

Lemma load_map_ok {A : Type} (decode : bytes -> option A) put prefix (get : node -> gmap string A) set (I : gmap string A -> Prop) :
  (forall n, catalogue_ok n -> I (get n)) ->
  (forall n s m, catalogue_ok n -> I m -> os_wf s -> os_objects s = os_objects (nd_store n) -> catalogue_ok (set m (set_nd_store s n))) ->
  (forall objs k o a m, stored_ok objs -> objs !! k = Some o -> String.prefix prefix k = true -> decode (fst o) = Some a -> I m -> I (put a m)) ->
  preserves catalogue_ok (load_map decode put prefix get set) (fun _ => True).
Proof.
  intros Hget Hset Hput n Hn. split; [|done]. unfold load_map. destruct (load_prefix decode put prefix (get n) (nd_store n)) as [[s m] r] eqn:E.
  eapply (load_prefix_keep _ _ _ _ I) in E as (Hwf & Hobj & Hm); [| |apply (ok_store n Hn) | done | by apply Hget].
  - cbn. by apply Hset.
  - intros k o a m0. apply Hput, (ok_stored n Hn).
Qed.

(** Schemas and sequences under their names. *)
Definition schemas_ok (m : gmap string TableSchema) : Prop := forall t s, m !! t = Some s -> ts_name s = t /\ schema_ok s.
Definition sequences_ok (m : gmap string Sequence) : Prop := forall t s, m !! t = Some s -> seq_name s = t.

Lemma load_schemas_ok put : (forall (s : TableSchema) m, put s m = put_always ts_name s m \/ put s m = m) ->
  preserves catalogue_ok (load_map bc_deserialize put "schemas/" nd_schemas set_schemas) (fun _ => True).
Proof.
  intros Hput. apply (load_map_ok _ _ _ _ _ schemas_ok).
  - intros n Hn. exact (ok_schemas n Hn).
  - intros n s m [Hwf Hs Hq Ho] Hm Hwf' Hobj. split; cbn; [done | exact Hm | done | by rewrite Hobj].
  - intros objs k o s m Hok Hk Hp Hd Hm. destruct (Hput s m) as [-> | ->]; [|done]. intros t s0. unfold put_always. rewrite lookup_insert_Some. intros [[<- <-]|[_ H]]; [|by apply Hm].
    split; [done|]. by apply (proj1 (Hok k o Hk)).
Qed.

Lemma load_sequences_ok put : (forall (s : Sequence) m, put s m = put_always seq_name s m \/ put s m = m) ->
  preserves catalogue_ok (load_map bc_deserialize put "sequences/" nd_sequences set_sequences) (fun _ => True).
Proof.
  intros Hput. apply (load_map_ok _ _ _ _ _ sequences_ok).
  - intros n Hn. exact (ok_sequences n Hn).
  - intros n s m [Hwf Hs Hq Ho] Hm Hwf' Hobj. split; cbn; [done | done | exact Hm | by rewrite Hobj].
  - intros objs k o s m Hok Hk Hp Hd Hm. destruct (Hput s m) as [-> | ->]; [|done]. intros t s0. unfold put_always. rewrite lookup_insert_Some. intros [[<- <-]|[_ H]]; [done|by apply Hm].
Qed.

Lemma load_functions_ok put : preserves catalogue_ok (load_map (A := UserFunction) bc_deserialize put "functions/" nd_functions set_functions) (fun _ => True).
Proof. apply (load_map_ok _ _ _ _ _ (fun _ => True)); [done | | done]. intros n s m [Hwf Hs Hq Ho] _ Hwf' Hobj. split; cbn; [done | done | done | by rewrite Hobj]. Qed.

Lemma put_new_cases {A : Type} (name : A -> string) a m : put_new name a m = put_always name a m \/ put_new name a m = m.
Proof. unfold put_new. destruct (m !! name a); auto. Qed.

Lemma refresh_ok : preserves catalogue_ok refresh_catalogue (fun _ => True).
Proof.
  eapply preserves_bind; [apply load_schemas_ok, put_new_cases|]. intros _ _. eapply preserves_bind; [apply load_functions_ok|]. intros _ _.
  apply load_sequences_ok, put_new_cases.
Qed.

(** ** Servers *)

Inductive server := Up (n : node) | Down (s : S).

(** A start finds its rows, indexes and topics on its own disk. *)
Inductive event :=
| E_statement (d : DdlStmt)
| E_draw (o : SeqOp)
| E_refresh
| E_crash
| E_start (role : NodeRole) (rows : R) (indexes : list (IndexKind * (string * string))) (files : list IndexFile) (names : gmap string string) (topics : gset string).

Definition step (e : event) (v : server) : server :=
  match v, e with
  | Up n, E_statement d => Up (fst (execute_ddl d n))
  | Up n, E_draw o => Up (run_op o n)
  | Up n, E_refresh => Up (fst (refresh_catalogue n))
  | Up n, E_crash => Down (nd_store n)
  | Up n, E_start _ _ _ _ _ _ => Up n
  | Down s, E_start role rows indexes files names topics =>
      match open_catalogue role rows indexes files names topics s with
      | (n, Some (Ok _)) => Up n
      | (n, _) => Down (nd_store n)
      end
  | Down s, _ => Down s
  end.

Definition run (evs : list event) (v : server) : server := fold_left (fun v e => step e v) evs v.

(** The names of tables and sequences are names of objects. *)
Definition event_ok (e : event) : Prop :=
  match e with
  | E_statement d => Forall os_key_ok (objects_of d)
  | E_draw o => os_key_ok (sequence_key (op_name o))
  | _ => True
  end.

Definition reachable (v : server) : Prop :=
  exists s evs, os_wf s /\ os_objects s = ∅ /\ Forall event_ok evs /\ v = run evs (Down s).

Definition server_ok (v : server) : Prop :=
  match v with Up n => catalogue_ok n | Down s => os_wf s /\ stored_ok (os_objects s) end.

Lemma load_ok : preserves catalogue_ok load_catalogue (fun _ => True).
Proof.
  eapply preserves_bind; [apply load_schemas_ok; by left|]. intros _ _. eapply preserves_bind; [apply load_functions_ok|]. intros _ _. apply load_sequences_ok. by left.
Qed.

Lemma open_ok role rows indexes files names topics s :
  os_wf s -> stored_ok (os_objects s) -> catalogue_ok (fst (open_catalogue role rows indexes files names topics s)).
Proof. intros Hwf Ho. apply load_ok. by split. Qed.

Lemma step_ok e v : event_ok e -> server_ok v -> server_ok (step e v).
Proof.
  intros He Hv. destruct v as [n|s]; cbn [server_ok] in Hv.
  - destruct e as [d|o| | |]; cbn [step server_ok event_ok] in *; [by apply (execute_ddl_keeps catalogue_closed) | by apply run_op_ok | by apply refresh_ok | | done].
    split; [apply (ok_store n Hv) | apply (ok_stored n Hv)].
  - destruct e as [d|o| | |role rows indexes files names topics]; cbn [step server_ok]; [done..|]. destruct Hv as [Hwf Ho].
    pose proof (open_ok role rows indexes files names topics s Hwf Ho) as H. destruct (open_catalogue _ _ _ _ _ _ s) as [n [[u|e]|]]; cbn in *;
      [done | split; [apply (ok_store n H) | apply (ok_stored n H)]..].
Qed.

Lemma run_ok evs v : Forall event_ok evs -> server_ok v -> server_ok (run evs v).
Proof. intros He. revert v. induction He as [|e evs He _ IH]; intros v Hv; [done|]. cbn. by apply IH, step_ok. Qed.

Lemma reached_ok v : reachable v -> server_ok v.
Proof. intros (s & evs & Hwf & He & Hevs & ->). apply run_ok; [done|]. split; [done|]. intros k o. by rewrite He. Qed.

(** C28. Whatever schemas are created, altered and dropped, with failures of the
    store, crashes and restarts at any point, every schema that a server has is
    listed under its name, its primary key is the columns that are declared so,
    and its constraints are on columns that it has. *)
Theorem schema_positions_stay_valid (n : node) (t : string) (s : TableSchema) :
  reachable (Up n) -> nd_schemas n !! t = Some s -> ts_name s = t /\ schema_ok s.
Proof. intros Hn. apply (ok_schemas n). by apply (reached_ok (Up n)). Qed.

(** ** Values of a sequence *)

Section Values.
  Context {sequence_laws : BincodeLaws Sequence} (name : string) (increment : Z).
  Context (Hinc : 0 < increment) (Hkey : os_key_ok (sequence_key name)) (Hlisted : os_listed (sequence_key name)).
  Context (Hrange : forall v, is_i64 v -> bc_in_range (mkSequence name v increment)).
  (** evaluating a DEFAULT draws from other sequences *)
  Context (Hothers : forall e n, exists ops,
    Forall (fun o => os_key_ok (sequence_key (op_name o)) /\ op_name o <> name) ops /\ after_eval e n = fold_left (fun n o => run_op o n) ops n).

(** The sequence in memory and in the store: not below [m]. *)
Definition held (m : Z) (n : node) : Prop := exists v, nd_sequences n !! name = Some (mkSequence name v increment) /\ m <= v /\ is_i64 v.
Definition persisted (m : Z) (objs : objects) : Prop :=
  exists o p, objs !! sequence_key name = Some o /\ bc_deserialize (fst o) = Some (mkSequence name p increment) /\ m <= p /\ is_i64 p.

Definition tracked (m : Z) (n : node) : Prop := catalogue_ok n /\ held m n /\ persisted m (os_objects (nd_store n)).

Lemma tracked_frame m (n n' : node) :
  catalogue_ok n' -> nd_sequences n' !! name = nd_sequences n !! name -> os_objects (nd_store n') !! sequence_key name = os_objects (nd_store n) !! sequence_key name ->
  tracked m n -> tracked m n'.
Proof. unfold tracked, held, persisted. intros Hok -> -> (_ & Hh & Hp). done. Qed.

Lemma other_put_lookup key data e (objs : objects) : key <> sequence_key name -> (<[key := (data, e)]> objs) !! sequence_key name = objs !! sequence_key name.
Proof. intros H. by rewrite lookup_insert_ne. Qed.

(** A put of another object. *)
Lemma other_put_run key data (n : node) :
  os_wf (nd_store n) -> os_key_ok key -> key <> sequence_key name ->
  exists s' r, store_put key data n = (set_nd_store s' n, Some r) /\ os_objects s' !! sequence_key name = os_objects (nd_store n) !! sequence_key name.
Proof.
  intros Hwf Hk Hne. destruct (store_put_run key data n Hwf Hk) as (s' & r & -> & _ & H). exists s', r. split; [done|].
  destruct H as [[-> _]|[e ->]]; [done | by apply other_put_lookup].
Qed.

Lemma other_sequence_key x : x <> name -> sequence_key x <> sequence_key name.
Proof. intros H E. by apply H, sequence_key_inj. Qed.

Lemma other_move m x seq n : os_key_ok (sequence_key x) -> x <> name -> seq_name seq = x -> tracked m n -> tracked m (fst (move_sequence x seq n)).
Proof.
  intros Hk Hne Hseq Hn. pose proof (proj1 (move_sequence_ok x seq Hk Hseq n (proj1 Hn))) as Hok. revert Hok.
  unfold move_sequence, abind, changing. cbn.
  destruct (other_put_run (sequence_key x) (bc_serialize seq) (set_sequences (<[x := seq]> (nd_sequences n)) n)) as (s' & r & -> & Hobj); [apply Hn | done | by apply other_sequence_key|].
  cbn. intros Hok. apply (tracked_frame m n); [exact Hok | | exact Hobj | exact Hn]. cbn. by rewrite lookup_insert_ne.
Qed.

Lemma tracked_writable m : preserves (tracked m) node_writable (fun _ => True).
Proof. intros n Hn. by rewrite node_writable_run. Qed.

Lemma tracked_need m x : preserves (tracked m) (need_sequence x) (fun s => seq_name s = x).
Proof. intros n Hn. pose proof (need_sequence_ok x n (proj1 Hn)) as [_ Hq]. split; [|done]. unfold need_sequence. by destruct (nd_sequences n !! x). Qed.

Lemma other_op m o n : os_key_ok (sequence_key (op_name o)) -> op_name o <> name -> tracked m n -> tracked m (run_op o n).
Proof.
  intros Hk Hne Hn. assert (forall q v, seq_name q = op_name o -> preserves (tracked m) (do _ <- move_sequence (op_name o) q; pure v) (fun _ : Z => True)) as Hmove.
  { intros q v Hq. eapply (preserves_bind _ _ _ (fun _ => True)); [intros n1 Hn1; split; [by apply other_move | done]|]. intros _ _. by apply preserves_pure. }
  destruct o as [x|x v c]; cbn [op_name run_op] in *.
  - assert (preserves (tracked m) (nextval x) (fun _ => True)) as H; [|by apply H]. eapply preserves_bind; [apply tracked_writable|]. intros _ _.
    eapply preserves_bind; [apply tracked_need|]. intros q Hq. by apply Hmove.
  - assert (preserves (tracked m) (setval x v c) (fun _ => True)) as H; [|by apply H]. eapply preserves_bind; [apply tracked_writable|]. intros _ _.
    eapply preserves_bind; [apply tracked_need|]. intros q Hq. by apply Hmove.
Qed.

Lemma tracked_closed m : closed os_key_ok (tracked m).
Proof.
  constructor.
  - intros n t s [Hn _]. apply (ok_schemas n Hn).
  - intros n n' Hn Hb. pose proof (c_beside _ _ catalogue_closed n n' (proj1 Hn) Hb) as Hok. destruct Hb as (_ & E1 & _ & E3 & _).
    apply (tracked_frame m n); [done | by rewrite E3 | by rewrite E1 | done].
  - intros e n Hn. destruct (Hothers e n) as (ops & Hops & ->). revert n Hn. induction Hops as [|o ops [Hk Hne] _ IH]; intros n Hn; [done|]. cbn. by apply IH, other_op.
  - intros spec t c n Hn. pose proof (c_build _ _ catalogue_closed spec t c n (proj1 Hn)) as Hok. destruct (build_beside spec t c n) as (_ & E1 & _ & E3 & _).
    apply (tracked_frame m n); [done | by rewrite E3 | by rewrite E1 | done].
  - intros t p r b n Hn. pose proof (c_topic _ _ catalogue_closed t p r b n (proj1 Hn)) as Hok. destruct (topic_beside t p r b n) as (_ & E1 & _ & E3 & _).
    apply (tracked_frame m n); [done | by rewrite E3 | by rewrite E1 | done].
  - intros s Hs Hk n Hn. split; [|done]. pose proof (proj1 (c_put_schema _ _ catalogue_closed s Hs Hk n (proj1 Hn))) as Hok. revert Hok. unfold abind, changing.
    destruct (other_put_run (schema_key (ts_name s)) (bc_serialize s) n) as (s' & r & -> & Hobj); [apply Hn | done | done|].
    destruct r as [u|e]; cbn; intros Hok; (apply (tracked_frame m n); [exact Hok | done | exact Hobj | exact Hn]).
  - intros t Hk n Hn. split; [|done]. pose proof (proj1 (c_drop_schema _ _ catalogue_closed t Hk n (proj1 Hn))) as Hok. revert Hok. unfold abind, changing.
    destruct (store_delete_run (schema_key t) n) as (s' & r & -> & _ & Hobj); [apply Hn | done|].
    assert (os_objects s' !! sequence_key name = os_objects (nd_store n) !! sequence_key name) as Hsame by (destruct Hobj as [-> | ->]; [done | by rewrite lookup_delete_ne]).
    destruct r as [u|e]; cbn; intros Hok; (apply (tracked_frame m n); [exact Hok | done | exact Hsame | exact Hn]).
  - intros x start inc Hk n Hn. split; [|done]. pose proof (proj1 (c_create_sequence _ _ catalogue_closed x start inc Hk n (proj1 Hn))) as Hok. revert Hok.
    unfold create_sequence, abind, changing, observing, abort_with, lift_eval. rewrite node_writable_run. destruct (nd_role n); [|done]. cbn.
    destruct (nd_sequences n !! x) as [seq|] eqn:E; [done|]. cbv zeta. assert (x <> name) as Hne by (intros ->; destruct Hn as (_ & (v & Hv & _) & _); congruence).
    destruct (other_put_run (sequence_key x) (bc_serialize (mkSequence x (i64_wrap (start - inc)) inc)) n) as (s' & r & -> & Hobj); [apply Hn | done | by apply other_sequence_key|].
    destruct r as [u|e]; cbn; intros Hok; (apply (tracked_frame m n); [exact Hok | cbn; by rewrite ?lookup_insert_ne | exact Hobj | exact Hn]).
  - intros uf Hk n Hn. split; [|done]. pose proof (proj1 (c_create_function _ _ catalogue_closed uf Hk n (proj1 Hn))) as Hok. revert Hok.
    unfold create_function, abind, changing, observing, abort_with, lift_eval. rewrite node_writable_run. destruct (nd_role n); [|done]. cbn.
    destruct (nd_functions n !! uf_name uf); [done|].
    destruct (other_put_run (function_key (uf_name uf)) (bc_serialize uf) n) as (s' & r & -> & Hobj); [apply Hn | done | done|].
    destruct r as [u|e]; cbn; intros Hok; (apply (tracked_frame m n); [exact Hok | done | exact Hobj | exact Hn]).
Qed.

(** *** Loading keeps the sequence *)

Lemma load_map_run {A : Type} (decode : bytes -> option A) put prefix (get : node -> gmap string A) set (I : gmap string A -> Prop) n n' r :
  os_wf (nd_store n) -> I (get n) ->
  (forall k o a m, os_objects (nd_store n) !! k = Some o -> String.prefix prefix k = true -> decode (fst o) = Some a -> I m -> I (put a m)) ->
  load_map decode put prefix get set n = (n', r) ->
  exists s m, n' = set m (set_nd_store s n) /\ os_objects s = os_objects (nd_store n) /\ I m.
Proof.
  intros Hwf HI Hput. unfold load_map. destruct (load_prefix decode put prefix (get n) (nd_store n)) as [[s m] o] eqn:E. intros [= <- _].
  eapply (load_prefix_keep _ _ _ _ I) in E as (_ & Hobj & Hm); [|exact Hput | done | done | done]. by exists s, m.
Qed.

Lemma load_map_quiet {A : Type} (decode : bytes -> option A) put prefix (get : node -> gmap string A) set n n' r :
  os_wf (nd_store n) -> load_map decode put prefix get set n = (n', r) -> exists s m, n' = set m (set_nd_store s n) /\ os_objects s = os_objects (nd_store n).
Proof. intros Hwf H. eapply (load_map_run _ _ _ _ _ (fun _ => True)) in H as (s & m & -> & Hobj & _); eauto. Qed.

Lemma tracked_refresh m n : tracked m n -> tracked m (fst (refresh_catalogue n)).
Proof.
  intros Hn. assert (preserves (tracked m) refresh_catalogue (fun _ => True)) as H; [|by apply H]. clear n Hn.
  eapply (preserves_bind _ _ _ (fun _ => True)); [|intros _ _; eapply (preserves_bind _ _ _ (fun _ => True)); [|intros _ _]]; intros n Hn; (split; [|done]).
  - pose proof (proj1 (load_schemas_ok (put_new ts_name) (put_new_cases ts_name) n (proj1 Hn))) as Hok. destruct (load_map _ _ _ _ _ n) as [n' r] eqn:E.
    apply load_map_quiet in E as (s & mp & -> & Hobj); [|apply Hn]. cbn in *. apply (tracked_frame m n); [done | done | cbn; by rewrite Hobj | done].
  - pose proof (proj1 (load_functions_ok (put_new uf_name) n (proj1 Hn))) as Hok. destruct (load_map _ _ _ _ _ n) as [n' r] eqn:E.
    apply load_map_quiet in E as (s & mp & -> & Hobj); [|apply Hn]. cbn in *. apply (tracked_frame m n); [done | done | cbn; by rewrite Hobj | done].
  - pose proof (proj1 (load_sequences_ok (put_new seq_name) (put_new_cases seq_name) n (proj1 Hn))) as Hok. destruct (load_map _ _ _ _ _ n) as [n' r] eqn:E.
    destruct Hn as (Hn & (v & Hv & Hrest) & Hp).
    apply (load_map_run _ _ _ _ _ (fun mp => mp !! name = Some (mkSequence name v increment))) in E as (s & mp & -> & Hobj & Hm); [|apply Hn | done|].
    + apply (tracked_frame m n); [done | cbn; congruence | cbn; by rewrite Hobj | split_and!; [done | by exists v | done]].
    + intros k o a mp _ _ _ Hmp. unfold put_new. destruct (mp !! seq_name a) eqn:Ea; [done|]. rewrite lookup_insert_ne; [done|]. congruence.
Qed.

(** A start finds the value that was stored. *)
Lemma load_sequence_held m n n' u :
  catalogue_ok n -> persisted m (os_objects (nd_store n)) ->
  load_map bc_deserialize (put_always seq_name) "sequences/" nd_sequences set_sequences n = (n', Some (Ok u)) -> held m n' /\ os_objects (nd_store n') = os_objects (nd_store n).
Proof.
  intros Hn (o & p & Ho & Hd & Hp). unfold load_map. destruct (load_prefix _ _ _ (nd_sequences n) (nd_store n)) as [[s mp] r] eqn:E. intros [= <- ->].
  unfold load_prefix in E. destruct (os_list "sequences/" (nd_store n)) as [s1 [keys|e]] eqn:El; [|done]. apply os_list_law in El as (Hwf1 & Hobj1 & Hk); [|apply Hn].
  destruct (Hk _ eq_refl) as [Hk1 Hk2]. cbn [nd_store set_sequences set_nd_store].
  assert (forall k o a mp, os_objects (nd_store n) !! k = Some o -> String.prefix "sequences/" k = true -> bc_deserialize (fst o) = Some a ->
    mp !! name = Some (mkSequence name p increment) -> put_always seq_name a mp !! name = Some (mkSequence name p increment)) as Hput.
  { intros k o1 a mp1 Ho1 Hpre Ha Hm. unfold put_always. destruct (decide (seq_name a = name)) as [En|En]; [|by rewrite lookup_insert_ne].
    pose proof (proj2 (ok_stored n Hn k o1 Ho1) a Hpre Ha) as ->. rewrite En in Ho1. rewrite Ho in Ho1. injection Ho1 as <-. rewrite Hd in Ha. injection Ha as <-. by rewrite lookup_insert_eq. }
  split.
  - exists p. split; [|done]. cbn. eapply (load_objects_reach bc_deserialize (put_always seq_name) "sequences/" (os_objects (nd_store n)) (fun mp => mp !! name = Some (mkSequence name p increment)) (sequence_key name) o);
      [exact Hput | exact Ho | exact Hd | intros; apply lookup_insert_eq | exact Hwf1 | exact Hobj1 | exact Hk1 | | exact E].
    apply Hk2; [done | apply prefix_app | by exists o].
  - eapply (load_objects_keep _ _ _ (os_objects (nd_store n)) (fun _ => True)) in E as (_ & H & _); [exact H | done | exact Hwf1 | exact Hobj1 | exact Hk1 | done].
Qed.

Lemma tracked_start m role rows indexes files names topics s n u :
  os_wf s -> stored_ok (os_objects s) -> persisted m (os_objects s) ->
  open_catalogue role rows indexes files names topics s = (n, Some (Ok u)) -> tracked m n.
Proof.
  intros Hwf Hst Hp E. pose proof (open_ok role rows indexes files names topics s Hwf Hst) as Hok. rewrite E in Hok. cbn in Hok. revert E. unfold open_catalogue, load_catalogue.
  set (n0 := mkDbNode role rows s ∅ ∅ ∅ indexes files names topics). assert (catalogue_ok n0) as H0 by (split; [done..|exact Hst]).
  unfold abind. destruct (load_map bc_deserialize (put_always ts_name) _ _ _ n0) as [n1 [[?|?]|]] eqn:E1; [|done..].
  pose proof (proj1 (load_schemas_ok (put_always ts_name) ltac:(by left) n0 H0)) as H1. rewrite E1 in H1. cbn [fst] in H1. apply load_map_quiet in E1 as (s1 & m1 & -> & Ho1); [|done].
  destruct (load_map bc_deserialize (put_always uf_name) _ _ _ _) as [n2 [[?|?]|]] eqn:E2; [|done..].
  pose proof (proj1 (load_functions_ok (put_always uf_name) _ H1)) as H2. rewrite E2 in H2. apply load_map_quiet in E2 as (s2 & m2 & -> & Ho2); [|apply H1].
  cbn [fst] in H2. assert (os_objects s2 = os_objects s) as Hs2 by exact (eq_trans Ho2 Ho1).
  intros E3. apply (load_sequence_held m) in E3 as [Hh Hobj]; [|exact H2 | cbn; by rewrite Hs2]. split_and!; [done | done|]. rewrite Hobj. cbn. by rewrite Hs2.
Qed.

(** *** Draws *)

Definition at_most (n : node) : bool :=
  match nd_sequences n !! name with Some s => seq_value s + seq_increment s <? 2 ^ 63 | None => true end.

Lemma nextval_tracked m n : at_most n = true -> tracked m n ->
  match snd (nextval name n) with Some (Ok x) => m + increment <= x /\ tracked x (fst (nextval name n)) | _ => tracked m (fst (nextval name n)) end.
Proof.
  unfold at_most. intros Hfit (Hok & (v & Hv & Hmv & Hi) & Hp). rewrite Hv in Hfit. cbn in Hfit. apply Z.ltb_lt in Hfit.
  assert (is_i64 (v + increment)) as Hi' by (unfold is_i64 in *; lia).
  pose proof (proj1 (nextval_ok name Hkey n Hok)) as Hok'. revert Hok'. unfold nextval, abind. rewrite node_writable_run.
  destruct (nd_role n); [|intros _; cbn; split_and!; [done | by exists v | done]]. unfold need_sequence. rewrite Hv. cbn [with_value seq_value seq_increment seq_name done]. rewrite i64_wrap_id by done.
  unfold move_sequence, abind, changing. cbn [done].
  destruct (store_put_run (sequence_key name) (bc_serialize (with_value (v + increment) (mkSequence name v increment)))
    (set_sequences (<[name := with_value (v + increment) (mkSequence name v increment)]> (nd_sequences n)) n)) as (s' & r & -> & _ & Hobj); [apply Hok | done|].
  cbn in Hobj |- *. assert (forall m', m' <= v + increment -> held m' (set_nd_store s' (set_sequences (<[name := mkSequence name (v + increment) increment]> (nd_sequences n)) n))) as Hh.
  { intros m' Hm'. exists (v + increment). cbn. by rewrite lookup_insert_eq. }
  assert (forall m' e, m' <= v + increment -> os_objects s' = <[sequence_key name := (bc_serialize (mkSequence name (v + increment) increment), e)]> (os_objects (nd_store n)) -> persisted m' (os_objects s')) as Hpers.
  { intros m' e Hm' ->. eexists _, (v + increment). rewrite lookup_insert_eq. split_and!; [done | by apply bc_roundtrip, Hrange | done | done]. }
  destruct r as [u|err]; cbn; intros Hok'.
  - destruct Hobj as [[_ [e [=]]]|[e Hobj]]. split; [lia|]. split_and!; [done | apply Hh; lia | by apply (Hpers _ e)].
  - split_and!; [done | apply Hh; lia|]. cbn. destruct Hobj as [[-> _]|[e Hobj]]; [done | apply (Hpers _ e); [lia | done]].
Qed.

Definition drawn_value (e : event) (v : server) : option Z :=
  match e, v with
  | E_draw (Op_nextval x), Up n => if String.eqb x name then match snd (nextval x n) with Some (Ok z) => Some z | _ => None end else None
  | _, _ => None
  end.

(** The values that [nextval] returned for the sequence, in turn. *)
Fixpoint drawn (evs : list event) (v : server) : list Z :=
  match evs with
  | [] => []
  | e :: evs' => option_list (drawn_value e v) ++ drawn evs' (step e v)
  end.

(** No draw from the sequence leaves the 64-bit integers. *)
Fixpoint no_wrap (evs : list event) (v : server) : bool :=
  match evs with
  | [] => true
  | e :: evs' => match e, v with E_draw (Op_nextval x), Up n => negb (String.eqb x name) || at_most n | _, _ => true end && no_wrap evs' (step e v)
  end.

Definition never_set (e : event) : Prop := match e with E_draw (Op_setval x _ _) => x <> name | _ => True end.

Definition tracked_server (m : Z) (v : server) : Prop :=
  match v with Up n => tracked m n | Down s => os_wf s /\ stored_ok (os_objects s) /\ persisted m (os_objects s) end.

Definition keeps_stored (m : Z) (n : node) : Prop := os_wf (nd_store n) /\ persisted m (os_objects (nd_store n)).

Lemma load_map_stored {A : Type} m (decode : bytes -> option A) put prefix get (set : gmap string A -> node -> node) :
  (forall mp n, nd_store (set mp n) = nd_store n) -> preserves (keeps_stored m) (load_map decode put prefix get set) (fun _ => True).
Proof.
  intros Hset n [Hn Hpn]. split; [|done]. unfold load_map. destruct (load_prefix decode put prefix (get n) (nd_store n)) as [[s' mp] r] eqn:E.
  eapply (load_prefix_keep _ _ _ _ (fun _ => True)) in E as (Hwf' & Hobj & _); [|done..]. unfold keeps_stored. cbn. rewrite !Hset. cbn. by rewrite Hobj.
Qed.

Lemma load_stored m : preserves (keeps_stored m) load_catalogue (fun _ => True).
Proof. eapply preserves_bind; [by apply load_map_stored|]. intros _ _. eapply preserves_bind; [by apply load_map_stored|]. intros _ _. by apply load_map_stored. Qed.

Lemma tracked_step m e v : event_ok e -> never_set e -> no_wrap [e] v = true -> tracked_server m v ->
  (forall x, drawn_value e v = Some x -> m + increment <= x) /\ tracked_server (default m (drawn_value e v)) (step e v).
Proof.
  intros He Hset Hfit Hv. destruct v as [n|s].
  - destruct e as [d|o| | |]; cbn [step drawn_value tracked_server event_ok default] in *.
    + split; [done|]. by apply (execute_ddl_keeps (tracked_closed m)).
    + destruct o as [x|x w c]; cbn [never_set op_name] in *; [|split; [done | by apply other_op]]. destruct (String.eqb_spec x name) as [->|Hne]; [|split; [done | by apply other_op]].
      cbn in Hfit. rewrite String.eqb_refl, !andb_true_r in Hfit. cbn in Hfit. pose proof (nextval_tracked m n Hfit Hv) as H. cbn [run_op].
      destruct (nextval name n) as [n' [[z|err]|]]; cbn [fst snd] in *; [|by split..]. destruct H as [Hz H]. split; [by intros ? [= <-] | done].
    + split; [done|]. by apply tracked_refresh.
    + split; [done|]. destruct Hv as (Hok & _ & Hp). split_and!; [apply (ok_store n Hok) | apply (ok_stored n Hok) | done].
    + done.
  - destruct e as [d|o| | |role rows indexes files names topics]; [done | by destruct o | done | done|]. cbn [step drawn_value tracked_server default] in *. split; [done|].
    destruct Hv as (Hwf & Hst & Hp). pose proof (open_ok role rows indexes files names topics s Hwf Hst) as Hok.
    pose proof (proj1 (load_stored m (mkDbNode role rows s ∅ ∅ ∅ indexes files names topics) (conj Hwf Hp))) as [Hwf' Hp'].
    change (load_catalogue _) with (open_catalogue role rows indexes files names topics s) in Hwf', Hp'.
    destruct (open_catalogue role rows indexes files names topics s) as [n [[u|err]|]] eqn:E; [by apply (tracked_start m role rows indexes files names topics s n u) | cbn in *; split_and!; [done | apply (ok_stored n Hok) | done]..].
Qed.

Lemma drawn_increases evs m v : Forall event_ok evs -> Forall never_set evs -> no_wrap evs v = true -> tracked_server m v ->
  StronglySorted Z.lt (drawn evs v) /\ Forall (fun x => m + increment <= x) (drawn evs v).
Proof.
  intros He Hs. revert m v Hs. induction He as [|e evs He _ IH]; intros m v Hs Hfit Hv; [by split; constructor|]. apply Forall_cons in Hs as [Hs1 Hs].
  cbn [no_wrap] in Hfit. apply andb_true_iff in Hfit as [Hfit1 Hfit]. destruct (tracked_step m e v He Hs1) as [Hx Hv']; [cbn [no_wrap]; by rewrite andb_true_r | done|].
  destruct (IH _ _ Hs Hfit Hv') as [Hsort Hall]. cbn [drawn]. destruct (drawn_value e v) as [x|]; cbn [option_list app default from_option id] in *; [|done].
  specialize (Hx x eq_refl). split; [constructor; [done|]; eapply Forall_impl; [exact Hall|]; cbn; lia|]. constructor; [done|]. eapply Forall_impl; [exact Hall|]. cbn. lia.
Qed.

Lemma created_tracked start n n' :
  catalogue_ok n -> is_i64 (start - increment) -> create_sequence name start increment n = (n', done tt) -> tracked (start - increment) n'.
Proof.
  intros Hok Hi E. pose proof (proj1 (c_create_sequence _ _ catalogue_closed name start increment Hkey n Hok)) as Hok'. rewrite E in Hok'. revert E.
  unfold create_sequence, abind, changing, observing, abort_with, lift_eval. rewrite node_writable_run. destruct (nd_role n); [|done]. cbn. destruct (nd_sequences n !! name); [done|].
  cbv zeta. rewrite i64_wrap_id by done.
  destruct (store_put_run (sequence_key name) (bc_serialize (mkSequence name (start - increment) increment)) n) as (s' & r & -> & _ & Hobj); [apply Hok | done|].
  destruct r as [u|err]; [|done]. intros [= <-]. split_and!; [done | |].
  - exists (start - increment). cbn. rewrite lookup_insert_eq. split_and!; [done | lia | done].
  - destruct Hobj as [[_ [e [=]]]|[e Hobj]]. eexists _, (start - increment). cbn. rewrite Hobj, lookup_insert_eq.
    split_and!; [done | by apply bc_roundtrip, Hrange | lia | done].
Qed.

(** C27. After CREATE SEQUENCE with an increment above 0, the values that
    [nextval] returns grow from the start value on: none is returned twice,
    whatever statements of schemas and sequences and refreshes run between the
    draws, wherever writes of the value fail, and wherever the server crashes and
    starts again, until the 64 bits are exhausted and as long as nothing sets the
    sequence by [setval]. One server works on the store, names are keys that it
    can hold, and the values are those of the calls of [nextval]: what defaults
    draw inside a statement is not counted among them. *)
Theorem sequence_values_are_fresh (start : Z) (evs : list event) (n n' : node) :
  reachable (Up n) -> is_i64 (start - increment) -> create_sequence name start increment n = (n', done tt) ->
  Forall event_ok evs -> Forall never_set evs -> no_wrap evs (Up n') = true ->
  StronglySorted Z.lt (drawn evs (Up n')) /\ Forall (fun x => start <= x) (drawn evs (Up n')).
Proof.
  intros Hn Hi E He Hs Hfit. destruct (drawn_increases evs (start - increment) (Up n')) as [Hsort Hall]; [done..| |].
  - apply (created_tracked start n); [by apply (reached_ok (Up n)) | done | done].
  - split; [done|]. eapply Forall_impl; [exact Hall|]. cbn. lia.
Qed.

End Values.

End Closed.
