(* ===== verification/DdlRows.v ===== *)
(** The rows behind ALTER TABLE ([Ddl]): ADD COLUMN gives every row of the table
    the new cell, DROP COLUMN takes that cell from every row and leaves every
    key and constraint on the columns it was on. Rows of other tables stay as
    they are. *)

From Stdlib Require Import Strings.Byte Strings.Ascii Strings.String ZArith Lia Bool.
From stdpp Require Import base list strings gmap.
From S2P Require Import Prelude OrdMap Utf8 Decimal ObjectStore Manifest Txn Compress Flux Rows Jsonb Ast Lexer Parser Float Values JsonOps JsonSchema Eval Joins Sorting Windows Planner Select Dml DmlFacts DmlRows Ddl DdlFacts.

Open Scope Z_scope.
Open Scope eval_scope.
Open Scope act_scope.

Section AlterRows.
  Context {R S : Type} {raw : RawRows R} {raw_laws : RawLaws R} {st : ObjectStore S} {js : Json}.
  Context {schema_codec : Bincode TableSchema}.

Abbreviation node := (DbNode R S).

(** The rows of a table as queries see them, and all the other rows. *)
Definition of_table (t : string) (kv : bytes * bytes) : bool := starts_with (fst kv) (make_prefix t).
Definition table_cells (t : string) (n : node) : list (bytes * Row) :=
  map (fun kv => (fst kv, parse_row (snd kv))) (List.filter (of_table t) (raw_rows (nd_rows n))).
Definition other_rows (t : string) (n : node) : rows := List.filter (fun kv => negb (of_table t kv)) (raw_rows (nd_rows n)).

Lemma encoded_reads_back (cells : Row) : plain_row (encode_cells cells) = true -> parse_row (encode_cells cells) = cells.
Proof.
  unfold plain_row. rewrite andb_true_iff, Z.ltb_lt. intros [Hlen Hp].
  assert (raw_row (encode_cells cells) = cells) as Hraw by (apply raw_cells_encode; [by apply encoded_cells_fit | done]).
  rewrite parse_row_raw, Hraw in *. rewrite <- (map_id cells) at 2. apply map_ext_in. intros c Hc. apply shown_plain. rewrite forallb_forall in Hp. by apply Hp.
Qed.

(** ** Rewriting *)

Definition new_value (change : Row -> Eval Row) (kv : bytes * bytes) : option (option bytes) :=
  match change (parse_row (snd kv)) with Some (Ok cells) => Some (Some (encode_cells cells)) | _ => None end.

Lemma rewrite_rows_run t change l (n n' : node) :
  raw_wf (nd_rows n) -> rewrite_rows t change l n = (n', done tt) ->
  Forall (fun kv => exists cells, change (parse_row (snd kv)) = done cells) l
  /\ exists r, n' = set_nd_rows r n /\ raw_wf r /\ raw_rows r = fold_left (apply_to (new_value change)) l (raw_rows (nd_rows n)).
Proof.
  revert n. induction l as [|[k v] l IH]; intros n Hwf; cbn [rewrite_rows].
  - intros [= <-]. split; [done|]. exists (nd_rows n). split_and!; [by destruct n | done..].
  - unfold abind, lift_eval, decode_row_cells, write_raw. destruct (change (parse_row v)) as [[cells|e]|] eqn:Ec; [|done..].
    destruct (raw_write t k (encode_row_cells cells) (nd_rows n)) as [r [u|e]] eqn:Ew; [|done]. apply raw_write_law in Ew as [Hwf' Ho]; [|done].
    intros H. apply (IH (set_nd_rows r n)) in H as [Hall (r' & -> & Hwf2 & Hr)]; [|done]. split; [constructor; [by exists cells | done]|].
    exists r'. split_and!; [done | done|]. rewrite Hr. cbn [fold_left set_nd_rows nd_rows]. f_equal. unfold apply_to, new_value. cbn [fst snd]. by rewrite Ec.
Qed.

Lemma fold_apply_filter (p : bytes * bytes -> bool) eff (l m : rows) :
  fold_left (apply_to eff) (List.filter p l) m = fold_left (apply_to (fun kv => if p kv then eff kv else None)) l m.
Proof.
  revert m. induction l as [|kv l IH]; intros m; [done|]. cbn [List.filter fold_left].
  assert (apply_to (fun kv => if p kv then eff kv else None) m kv = if p kv then apply_to eff m kv else m) as -> by (unfold apply_to; by destruct (p kv)).
  destruct (p kv); cbn [fold_left]; by rewrite IH.
Qed.

(** A change of every row of the table, when it succeeds. *)
Definition changed (change : Row -> Row) (p : bytes * Row) : bytes * Row := (fst p, change (snd p)).

Lemma omap_rewritten t change (f : Row -> Row) (l : rows) :
  (forall cells cells', change cells = done cells' -> cells' = f cells) ->
  Forall (fun kv => exists cells, change (parse_row (snd kv)) = done cells) (List.filter (of_table t) l) ->
  let l' := omap (effect_on (fun kv => if of_table t kv then new_value change kv else None)) l in
  List.filter (of_table t) l' = map (fun kv => (fst kv, encode_cells (f (parse_row (snd kv))))) (List.filter (of_table t) l)
  /\ List.filter (fun kv => negb (of_table t kv)) l' = List.filter (fun kv => negb (of_table t kv)) l.
Proof.
  intros Hf. cbv zeta. induction l as [|[k v] l IH]; [done|]. cbn [List.filter]. destruct (of_table t (k, v)) eqn:Et; cbn [negb].
  - rewrite Forall_cons. intros [[cells Hc] Hall]. destruct (IH Hall) as [IH1 IH2]. cbn [snd] in Hc.
    assert (effect_on (fun kv => if of_table t kv then new_value change kv else None) (k, v) = Some (k, encode_cells (f (parse_row v)))) as E.
    { unfold effect_on, new_value. rewrite Et. cbn [snd fst]. rewrite Hc. by apply Hf in Hc as ->. }
    cbn [omap list_omap]. rewrite E. cbn [List.filter]. change (of_table t (k, encode_cells (f (parse_row v)))) with (of_table t (k, v)). rewrite Et. cbn [negb map fst snd]. by rewrite IH1, IH2.
  - intros Hall. destruct (IH Hall) as [IH1 IH2]. 
    assert (effect_on (fun kv => if of_table t kv then new_value change kv else None) (k, v) = Some (k, v)) as E by (unfold effect_on; by rewrite Et).
    cbn [omap list_omap]. rewrite E. cbn [List.filter]. rewrite Et. cbn [negb]. by rewrite IH1, IH2.
Qed.

Lemma table_rewritten t change (f : Row -> Row) (n n' : node) :
  raw_wf (nd_rows n) -> (forall cells cells', change cells = done cells' -> cells' = f cells) ->
  Forall (fun p => plain_row (encode_cells (f (snd p))) = true) (table_cells t n) ->
  (do l <- rows_of_table t; rewrite_rows t change l) n = (n', done tt) ->
  exists r, n' = set_nd_rows r n /\ raw_wf r /\ table_cells t n' = map (changed f) (table_cells t n) /\ other_rows t n' = other_rows t n.
Proof.
  intros Hwf Hf Hplain. unfold abind, rows_of_table. destruct (raw_scan (nd_rows n)) as [l|] eqn:Hs; [|done]. apply raw_scan_law in Hs as ->; [|done]. cbn [done].
  intros H. apply rewrite_rows_run in H as [Hall (r & -> & Hwf' & Hr)]; [|done]. exists r. split; [done|]. split; [done|].
  change (List.filter (fun kv => starts_with (fst kv) (make_prefix t))) with (List.filter (of_table t)) in *. rewrite fold_apply_filter in Hr.
  pose proof (fold_apply_to (fun kv => if of_table t kv then new_value change kv else None) [] (raw_rows (nd_rows n)) (raw_sorted _ Hwf)) as Hfold.
  cbn [app] in Hfold. rewrite Hfold in Hr by (intros; constructor). unfold table_cells, other_rows in *. cbn [nd_rows set_nd_rows]. rewrite Hr. clear Hfold Hr Hwf'.
  destruct (omap_rewritten t change f (raw_rows (nd_rows n)) Hf Hall) as [-> ->]. split; [|done]. rewrite !map_map. apply map_ext_in. intros kv Hin. unfold changed. cbn [fst snd].
  f_equal. apply encoded_reads_back. rewrite Forall_forall in Hplain. apply (Hplain (fst kv, parse_row (snd kv))), list_elem_of_In. apply (in_map (fun kv => (fst kv, parse_row (snd kv)))), Hin.
Qed.

(** ** ADD COLUMN *)

Lemma abind_assoc {A B C : Type} (m : Act node A) (k : A -> Act node B) (k' : B -> Act node C) (n : node) :
  (do a <- m; (do b <- k a; k' b)) n = (do b <- (do a <- m; k a); k' b) n.
Proof. unfold abind. by destruct (m n) as [n' [[a|e]|]]. Qed.

Lemma abind_done {A B : Type} (m : Act node A) (k : A -> Act node B) (n n' : node) (b : B) :
  (do a <- m; k a) n = (n', done b) -> exists a n1, m n = (n1, done a) /\ k a n1 = (n', done b).
Proof. unfold abind. destruct (m n) as [n1 [[a|e]|]]; [|done..]. intros H. by exists a, n1. Qed.

Lemma update_schema_done (s : TableSchema) (n n' : node) u :
  update_table_schema s n = (n', done u) -> nd_rows n' = nd_rows n /\ nd_schemas n' = <[ts_name s := s]> (nd_schemas n).
Proof.
  unfold update_table_schema, abind, node_writable, changing, store_put. destruct (nd_role n); [|done]. cbn.
  destruct (os_put _ _ (nd_store n)) as [s' [m|e]]; [|done]. by intros [= <-].
Qed.

Lemma same_rows_cells t (n n' : node) : nd_rows n' = nd_rows n -> table_cells t n' = table_cells t n /\ other_rows t n' = other_rows t n.
Proof. unfold table_cells, other_rows. by intros ->. Qed.

(** ALTER TABLE ADD COLUMN that succeeds has added the column to the end of
    the schema and the default's cell to the end of every row of the table, and
    changed no other row and no other schema. *)
Theorem add_column_extends_every_row (t : string) (c : TableColumn) (cell : option bytes) (s : TableSchema) (n n' : node) :
  raw_wf (nd_rows n) -> nd_schemas n !! t = Some s -> ts_name s = t ->
  Forall (fun p => plain_row (encode_cells (snd p ++ [cell])) = true) (table_cells t n) ->
  alter_table_add_column t c cell n = (n', done tt) ->
  nd_schemas n' = <[t := with_columns (ts_columns s ++ [c]) s]> (nd_schemas n)
  /\ table_cells t n' = map (changed (fun cells => cells ++ [cell])) (table_cells t n)
  /\ other_rows t n' = other_rows t n.
Proof.
  intros Hwf Hs Hname Hplain H. apply abind_done in H as (u & n1 & Hw & H). unfold node_writable in Hw. destruct (nd_role n); [|done]. injection Hw as <- _.
  apply abind_done in H as (s0 & n1 & Hn & H). unfold need_table in Hn. rewrite Hs in Hn. injection Hn as <- <-. destruct (existsb _ _); [done|].
  rewrite abind_assoc in H. apply abind_done in H as ([] & n1 & Hrows & H).
  apply (table_rewritten t _ (fun cells => cells ++ [cell])) in Hrows as (r & -> & _ & Hcells & Hother); [|done | by intros ?? [= <-] | done].
  apply update_schema_done in H as [Hr Hsch]. apply (same_rows_cells t) in Hr as [-> ->]. cbn in Hsch. by rewrite Hsch, Hname.
Qed.

(** ** DROP COLUMN *)

Lemma lookup_delete_shift {A : Type} (idx i : nat) (l : list A) : i <> idx -> delete idx l !! shift idx i = l !! i.
Proof.
  intros Hne. unfold shift. destruct (Nat.ltb_spec idx i).
  - rewrite list_lookup_delete_ge by lia. f_equal. lia.
  - rewrite list_lookup_delete_lt by lia. done.
Qed.

Lemma drop_position_absent idx l : ~ In idx l -> drop_position idx l = map (shift idx) l.
Proof.
  unfold drop_position. intros H. f_equal. induction l as [|i l IH]; [done|]. cbn [List.filter]. destruct (Nat.eqb_spec i idx) as [->|]; [by destruct H; left|].
  cbn [negb]. f_equal. apply IH. intros Hin. apply H. by right.
Qed.

(** The names of the columns at these positions. *)
Definition names_at (s : TableSchema) (l : list nat) : list (option string) := map (fun i => tc_name <$> ts_columns s !! i) l.
Definition fk_names (s : TableSchema) : list (option string * string * string) :=
  map (fun fk => (tc_name <$> ts_columns s !! fk_column fk, fk_ref_table fk, fk_ref_column fk)) (ts_foreign_keys s).

Lemma names_at_dropped idx s l : ~ In idx l -> names_at (without_column idx s) (drop_position idx l) = names_at s l.
Proof.
  intros H. rewrite drop_position_absent by done. unfold names_at. rewrite map_map. apply map_ext_in. intros i Hi. cbn. rewrite lookup_delete_shift; [done|]. by intros ->.
Qed.

Lemma fk_names_dropped idx s : (forall fk, In fk (ts_foreign_keys s) -> fk_column fk <> idx) -> fk_names (without_column idx s) = fk_names s.
Proof.
  unfold fk_names, drop_fk_position. cbn [without_column ts_foreign_keys]. unfold drop_fk_position. intros H.
  rewrite map_map. induction (ts_foreign_keys s) as [|fk l IH]; [done|]. cbn [List.filter]. rewrite (proj2 (Nat.eqb_neq _ _) (H fk (or_introl eq_refl))). cbn [negb map]. f_equal.
  - cbn. rewrite lookup_delete_shift; [done|]. apply H. by left.
  - apply IH. intros fk' Hin. apply H. by right.
Qed.

Lemma cell_at_dropped idx i (cells : Row) : i <> idx -> cell_at (delete idx cells) (shift idx i) = cell_at cells i.
Proof. intros H. unfold cell_at. by rewrite lookup_delete_shift. Qed.

Lemma has_null_dropped idx group (cells : Row) : ~ In idx group -> has_null (drop_position idx group) (delete idx cells) = has_null group cells.
Proof.
  intros H. rewrite drop_position_absent by done. unfold has_null. induction group as [|i group IH]; [done|]. cbn [map existsb].
  rewrite cell_at_dropped by (intros ->; apply H; by left). rewrite IH by (intros Hin; apply H; by right). done.
Qed.

Lemma same_group_dropped idx group (a b : Row) : ~ In idx group -> same_group (drop_position idx group) (delete idx a) (delete idx b) = same_group group a b.
Proof.
  intros H. rewrite drop_position_absent by done. unfold same_group. induction group as [|i group IH]; [done|]. cbn [map forallb].
  rewrite !cell_at_dropped by (intros ->; apply H; by left). rewrite IH by (intros Hin; apply H; by right). done.
Qed.

Lemma existsb_eqb_false idx l : existsb (Nat.eqb idx) l = false -> ~ In idx l.
Proof. intros H Hin. apply not_true_iff_false in H. apply H, existsb_exists. exists idx. by rewrite Nat.eqb_refl. Qed.

(** What DROP COLUMN has checked when it changes the table. *)
Lemma drop_column_run t column (s : TableSchema) (n n' : node) :
  nd_schemas n !! t = Some s -> alter_table_drop_column t column n = (n', done tt) ->
  exists idx, column_position (ts_columns s) column = Some idx /\ ~ In idx (ts_pk_columns s) /\ Forall (fun g => ~ In idx g) (ts_unique_groups s)
    /\ (forall fk, In fk (ts_foreign_keys s) -> fk_column fk <> idx)
    /\ exists n1, (do l <- rows_of_table t; rewrite_rows t (remove_at idx) l) n = (n1, done tt) /\ update_table_schema (without_column idx s) n1 = (n', done tt).
Proof.
  intros Hs H. apply abind_done in H as (u & n1 & Hw & H). unfold node_writable in Hw. destruct (nd_role n); [|done]. injection Hw as <- _.
  apply abind_done in H as (s0 & n1 & Hn & H). unfold need_table in Hn. rewrite Hs in Hn. injection Hn as <- <-.
  apply abind_done in H as (idx & n1 & Hi & H). injection Hi as <- Hi. unfold position_of in Hi. destruct (column_position (ts_columns s) column) as [i|] eqn:Ei; [|done]. injection Hi as <-.
  exists i. destruct (existsb _ (ts_pk_columns s)) eqn:E1; [done|]. destruct (existsb _ (ts_unique_groups s)) eqn:E2; [done|]. destruct (existsb _ (ts_foreign_keys s)) eqn:E3; [done|].
  apply abind_done in H as (ix & n1 & Hx & H). injection Hx as <- _. destruct ix; [done|]. rewrite abind_assoc in H. apply abind_done in H as ([] & n1 & Hrows & H).
  split_and!; [done | by apply existsb_eqb_false | | | by exists n1].
  - apply Forall_forall. intros g Hg. apply existsb_eqb_false. apply not_true_iff_false. intros Hin. apply not_true_iff_false in E2. apply E2, existsb_exists. exists g. split; [by apply list_elem_of_In | done].
  - intros fk Hfk Heq. apply not_true_iff_false in E3. apply E3, existsb_exists. exists fk. by rewrite Heq, Nat.eqb_refl.
Qed.

(** C29. ALTER TABLE DROP COLUMN that succeeds has taken the column's cell from
    every row of the table and changed no other row; the primary key, the
    UNIQUE groups and the foreign keys are on the same columns as before, by
    name, and a UNIQUE group compares two rows as it did. *)
Theorem drop_column_keeps_constraints (t column : string) (s : TableSchema) (n n' : node) :
  raw_wf (nd_rows n) -> nd_schemas n !! t = Some s -> ts_name s = t ->
  (forall idx, column_position (ts_columns s) column = Some idx -> Forall (fun p => plain_row (encode_cells (delete idx (snd p))) = true) (table_cells t n)) ->
  alter_table_drop_column t column n = (n', done tt) ->
  exists idx s', column_position (ts_columns s) column = Some idx /\ nd_schemas n' = <[t := s']> (nd_schemas n) /\ ts_columns s' = delete idx (ts_columns s)
    /\ table_cells t n' = map (changed (delete idx)) (table_cells t n) /\ other_rows t n' = other_rows t n
    /\ names_at s' (ts_pk_columns s') = names_at s (ts_pk_columns s)
    /\ map (names_at s') (ts_unique_groups s') = map (names_at s) (ts_unique_groups s)
    /\ fk_names s' = fk_names s
    /\ exists groups, ts_unique_groups s' = map groups (ts_unique_groups s)
         /\ forall g a b, In g (ts_unique_groups s) ->
              has_null (groups g) (delete idx a) = has_null g a /\ same_group (groups g) (delete idx a) (delete idx b) = same_group g a b.
Proof.
  intros Hwf Hs Hname Hplain H. apply (drop_column_run t column s) in H as (idx & Hi & Hpk & Hu & Hf & n1 & Hrows & H); [|done].
  apply (table_rewritten t _ (delete idx)) in Hrows as (r & -> & _ & Hcells & Hother); [|done | | by apply Hplain].
  2: { intros cells cells'. unfold remove_at. destruct (_ <? _)%nat; [by intros [= <-] | done]. }
  apply update_schema_done in H as [Hr Hsch]. apply (same_rows_cells t) in Hr as [-> ->]. exists idx, (without_column idx s).
  split; [done|]. split; [cbn in Hsch; by rewrite Hsch, Hname|]. split; [done|]. split; [done|]. split; [done|]. split; [by apply names_at_dropped|]. split.
  { cbn [without_column ts_unique_groups]. rewrite map_map. apply map_ext_in. intros g Hg. rewrite Forall_forall in Hu. apply names_at_dropped, Hu. by apply list_elem_of_In. }
  split; [by apply fk_names_dropped|]. exists (drop_position idx). split; [done|]. intros g a b Hg.
  rewrite Forall_forall in Hu. assert (~ In idx g) as Hg' by (apply Hu; by apply list_elem_of_In). split; [by apply has_null_dropped | by apply same_group_dropped].
Qed.

End AlterRows.
