(* ===== verification/DdlExamples.v ===== *)
(** Statements of [Ddl] from their text over a store in files: inputs of the
    theorems of [DdlFacts] and [DdlRows], and what schema changes do that their
    documentation does not say. *)

From Stdlib Require Import Strings.Byte Strings.Ascii Strings.String ZArith Lia Bool Sorted.
From stdpp Require Import base list strings gmap.
From S2P Require Import Prelude OrdMap Utf8 Decimal ObjectStore Manifest Txn Compress Flux Rows Jsonb Ast Lexer Parser ParserEnds Float Values JsonOps JsonSchema Eval Joins Sorting Windows Planner Select Dml DmlFacts DmlRows DmlExamples Ddl DdlFacts DdlRows.

Open Scope Z_scope.
Open Scope eval_scope.
Open Scope act_scope.

(** ** Files as a store that lists its objects *)

#[local] Existing Instance demo_sha.

(** No file has a backslash in its name. *)
Definition fs_tidy (s : LocalFs) : Prop := map_Forall (fun k _ => path_for k = k) (fs_files s).

Lemma path_for_idem (k : string) : path_for (path_for k) = path_for k.
Proof.
  induction k as [|c k IH]; [done|]. cbn [path_for]. rewrite IH. f_equal. destruct (Ascii.eqb c ch_backslash) eqn:E; [|by rewrite E]. done.
Qed.

Lemma tidy_insert s s' k d : fs_key_ok k -> fs_tidy s -> fs_files s' = <[k := d]> (fs_files s) -> fs_tidy s'.
Proof. unfold fs_tidy. intros Hk Hs ->. by apply map_Forall_insert_2. Qed.
Lemma tidy_same s s' : fs_tidy s -> fs_files s' = fs_files s -> fs_tidy s'.
Proof. unfold fs_tidy. by intros Hs ->. Qed.

#[local] Program Instance tidy_laws : StoreLaws LocalFs := {| os_wf := fs_tidy; os_objects := fs_objects; os_key_ok := fs_key_ok |}.
Next Obligation.
  intros k s s' r Hs Hk H. pose proof (os_get_law (StoreLaws := local_fs_laws) k s s' r I Hk H) as (_ & Ho & Hr). split_and!; [|done..].
  apply (fs_get_spec k s s' r Hk) in H as [Hf _]. by apply (tidy_same s).
Qed.
Next Obligation.
  intros k d s s' r Hs Hk H. pose proof (os_put_law (StoreLaws := local_fs_laws) k d s s' r I Hk H) as [_ Ho]. split; [|done].
  apply (fs_put_spec k d s s' r Hk) in H. destruct r as [m|e]; [destruct H as [_ H]; by eapply tidy_insert|]. destruct H as [H|H]; [by eapply tidy_same | by eapply tidy_insert].
Qed.
Next Obligation.
  intros k d ex s s' r Hs Hk H. pose proof (os_cas_law (StoreLaws := local_fs_laws) k d ex s s' r I Hk H) as [_ Ho]. split; [|done]. revert H. cbn.
  unfold fs_put_if_match. destruct (fs_get k s) as [s1 [o|e]] eqn:Eg; apply (fs_get_spec k s s1 _ Hk) in Eg as [Hf _]; [|intros [= <- <-]; by eapply tidy_same].
  destruct (negb _); [intros [= <- <-]; by eapply tidy_same|]. assert (fs_tidy s1) as Hs1 by by eapply tidy_same.
  destruct (fs_put k d s1) as [s2 [m|e]] eqn:Ep; apply (fs_put_spec k d s1 s2 _ Hk) in Ep; intros [= <- <-].
  - destruct Ep as [_ Ep]. by eapply (tidy_insert s1).
  - destruct Ep as [Ep|Ep]; [by eapply (tidy_same s1) | by eapply (tidy_insert s1)].
Qed.
Next Obligation.
  intros k s s' r Hs Hk H. pose proof (os_delete_law (StoreLaws := local_fs_laws) k s s' r I Hk H) as [_ Ho]. split; [|done]. revert H. cbn. unfold fs_delete.
  destruct (fs_call s) as [s1 b] eqn:E. apply fs_call_files in E. destruct b; intros [= <- <-]; [by eapply tidy_same|].
  unfold fs_tidy in *. cbn. rewrite E. by apply map_Forall_delete.
Qed.
Next Obligation. intros k d s s' m. apply (os_put_size (StoreLaws := local_fs_laws)). Qed.
Next Obligation. intros k d ex s s' m. apply (os_cas_size (StoreLaws := local_fs_laws)). Qed.

(** A listing leaves out names that look like temporary files. *)
#[local] Program Instance tidy_list_laws : ListLaws LocalFs := {| os_listed k := str_contains ".tmp-" k = false |}.
Next Obligation.
  intros p s s' r Hs. cbn. unfold fs_list. destruct (fs_call s) as [s1 b] eqn:E. apply fs_call_files in E. destruct b; intros [= <- <-].
  - split_and!; [by eapply tidy_same | by apply fs_objects_same | done].
  - split_and!; [by eapply tidy_same | by apply fs_objects_same|]. intros keys [= <-]. split.
    + intros k Hin. apply filter_In in Hin as [Hin Hp]. apply filter_In in Hin as [Hin _]. split; [|done].
      apply in_map_iff in Hin as ([k' d] & <- & Hin). apply list_elem_of_In, elem_of_map_to_list in Hin. rewrite E in Hin. by apply (Hs _ _ Hin).
    + intros k Hl Hp [o Ho]. unfold fs_objects in Ho. rewrite lookup_fmap in Ho. destruct (fs_files s !! k) as [d|] eqn:Ed; [|done].
      apply filter_In. split; [|done]. apply filter_In. split; [|by rewrite Hl]. apply in_map_iff. exists (k, d). split; [done|].
      apply list_elem_of_In, elem_of_map_to_list. by rewrite E.
Qed.

(** ** A codec *)

Fixpoint bits_of (p : positive) : bytes := match p with xH => [] | xO q => Byte.x00 :: bits_of q | xI q => Byte.x01 :: bits_of q end.
Fixpoint of_bits (b : bytes) : positive := match b with [] => xH | Byte.x00 :: b' => xO (of_bits b') | _ :: b' => xI (of_bits b') end.
Lemma of_bits_of (p : positive) : of_bits (bits_of p) = p.
Proof. induction p as [p IH|p IH|]; cbn; by rewrite ?IH. Qed.

Definition codec (A : Type) `{Countable A} : Bincode A := {| bc_serialize a := bits_of (encode a); bc_deserialize b := decode (of_bits b) |}.
Lemma codec_decodes `{Countable A} (a : A) : @bc_deserialize A (codec A) (@bc_serialize A (codec A) a) = Some a.
Proof. cbn. by rewrite of_bits_of, decode_encode. Qed.
Lemma codec_faithful `{Countable A} : faithful (codec A).
Proof. intros a b. rewrite codec_decodes. by intros [= <-]. Qed.
Definition codec_laws (A : Type) `{Countable A} : @BincodeLaws A (codec A) := {| bc_in_range _ := True; bc_roundtrip a _ := codec_decodes a |}.

Definition TYPES : list ColumnType :=
  [ColumnType_Int8; ColumnType_Int4; ColumnType_Int2; ColumnType_Float8; ColumnType_Float4; ColumnType_Text; ColumnType_Bool; ColumnType_Timestamp; ColumnType_Date;
   ColumnType_Json; ColumnType_Bytea; ColumnType_Geometry; ColumnType_Geography; ColumnType_Vector; ColumnType_Raster; ColumnType_Float8Array].
#[local] Instance ColumnType_eq_dec : EqDecision ColumnType.
Proof. solve_decision. Defined.
Definition type_code (t : ColumnType) : nat := default O (fst <$> list_find (eq t) TYPES).
#[local] Program Instance ColumnType_countable : Countable ColumnType := inj_countable type_code (fun i => TYPES !! i) _.
Next Obligation. by intros []. Qed.
#[local] Instance TableColumn_eq_dec : EqDecision TableColumn.
Proof. solve_decision. Defined.
#[local] Program Instance TableColumn_countable : Countable TableColumn :=
  inj_countable' (fun c => (tc_name c, tc_type c, tc_nullable c, tc_default c, tc_is_pk c)) (fun '(n, t, l, d, p) => mkTableColumn n t l d p) _.
Next Obligation. by intros []. Qed.
#[local] Instance ForeignKey_eq_dec : EqDecision ForeignKey.
Proof. solve_decision. Defined.
#[local] Program Instance ForeignKey_countable : Countable ForeignKey :=
  inj_countable' (fun f => (fk_column f, fk_ref_table f, fk_ref_column f)) (fun '(c, t, r) => mkForeignKey c t r) _.
Next Obligation. by intros []. Qed.
#[local] Instance JsonSchemaRule_eq_dec : EqDecision JsonSchemaRule.
Proof. solve_decision. Defined.
#[local] Program Instance JsonSchemaRule_countable : Countable JsonSchemaRule :=
  inj_countable' (fun f => (js_column f, js_mode f, js_schema f)) (fun '(c, t, r) => mkJsonSchemaRule c t r) _.
Next Obligation. by intros []. Qed.
#[local] Instance TableSchema_eq_dec : EqDecision TableSchema.
Proof. solve_decision. Defined.
#[local] Program Instance TableSchema_countable : Countable TableSchema :=
  inj_countable' (fun s => (ts_name s, ts_columns s, ts_pk_columns s, ts_unique_groups s, ts_foreign_keys s, ts_json_schemas s)) (fun '(n, c, p, u, f, j) => mkTableSchema n c p u f j) _.
Next Obligation. by intros []. Qed.
#[local] Instance Sequence_eq_dec : EqDecision Sequence.
Proof. solve_decision. Defined.
#[local] Program Instance Sequence_countable : Countable Sequence :=
  inj_countable' (fun s => (seq_name s, seq_value s, seq_increment s)) (fun '(n, v, i) => mkSequence n v i) _.
Next Obligation. by intros []. Qed.
#[local] Instance UserFunction_eq_dec : EqDecision UserFunction.
Proof. solve_decision. Defined.
#[local] Instance wasm_byte_countable : Countable byte := inj_countable Byte.to_N Byte.of_N Byte.of_to_N.
#[local] Program Instance UserFunction_countable : Countable UserFunction :=
  inj_countable' (fun f => (uf_name f, uf_arg_types f, uf_return_type f, uf_wasm_bytes f)) (fun '(n, a, r, w) => mkUserFunction n a r w) _.
Next Obligation. by intros []. Qed.

#[local] Instance schema_codec : Bincode TableSchema := codec TableSchema.
#[local] Instance sequence_codec : Bincode Sequence := codec Sequence.
#[local] Instance function_codec : Bincode UserFunction := codec UserFunction.
#[local] Instance sequence_codec_laws : BincodeLaws Sequence := codec_laws Sequence.

(** ** A node in memory *)

#[local] Instance list_raw : RawRows rows := {|
  raw_scan r := Ok r;
  raw_write _ k v r := (om_insert k v r, Ok tt);
  raw_delete _ k r := (om_remove k r, Ok tt);
|}.
#[local] Program Instance list_raw_laws : RawLaws rows := {| raw_wf r := om_sorted r; raw_rows r := r |}.
Next Obligation. done. Qed.
Next Obligation. by intros r l _ [= <-]. Qed.
Next Obligation. intros r r' t k v o Hr [= <- <-]. split; [by apply om_insert_sorted | done]. Qed.
Next Obligation. intros r r' t k o Hr [= <- <-]. split; [by apply om_remove_sorted | done]. Qed.

Abbreviation mem_node := (DbNode rows LocalFs).

(** [nextval('name')] in an expression: its value, and what it leaves. *)
#[local] Instance ddl_world : World mem_node := {|
  run_select _ _ _ _ := fails "no subqueries";
  other_function db name args :=
    match db, args with
    | Some n, [Some (Ok (Value_Text s))] => if String.eqb name "nextval" then let* v := snd (nextval s n) in done (Value_Int v) else fails "no such function"
    | _, _ => fails "no such function"
    end |}.
Definition draws_in (e : Expr) (n : mem_node) : mem_node :=
  match e with
  | Expr_Function f [Expr_Literal (Literal_Text s)] _ => if String.eqb f "nextval" then fst (nextval s n) else n
  | _ => n
  end.

Definition record_index (spec : IndexSpec) (t c : string) : Act mem_node unit := changing (fun n =>
  set_indexes (nd_indexes n ++ [(match spec with Spec_BTree => Index_BTree | Spec_Fts => Index_Fts | _ => Index_Spatial end, (t, c))]) (nd_files n ++ [(file_stem t c, "idx")]) n).
Definition record_topic (name : string) (_ : Z) (_ _ : option Z) : Act mem_node unit := changing (fun n => set_topics ({[name]} ∪ nd_topics n) n).
Definition any_module (_ : bytes) (_ : string) (_ : list ColumnType) (_ : ColumnType) : Result unit := Ok tt.
Definition no_base64 (_ : string) : option bytes := None.

Definition ddl_of (text : string) : option DdlStmt :=
  match sql_parse text with
  | Some (Ok (Stmt_CreateTable s)) => Some (Ddl_CreateTable s)
  | Some (Ok (Stmt_DropTable s)) => Some (Ddl_DropTable s)
  | Some (Ok (Stmt_DropIndex s)) => Some (Ddl_DropIndex s)
  | Some (Ok (Stmt_CreateIndex s)) => Some (Ddl_CreateIndex s)
  | Some (Ok (Stmt_CreateSequence s)) => Some (Ddl_CreateSequence s)
  | Some (Ok (Stmt_CreateTopic s)) => Some (Ddl_CreateTopic s)
  | Some (Ok (Stmt_AlterTable s)) => Some (Ddl_AlterTable s)
  | Some (Ok (Stmt_CreateFunction s)) => Some (Ddl_CreateFunction s)
  | _ => None
  end.

Definition execute := execute_ddl record_index draws_in any_module no_base64 record_topic.

(** The statements' tags or errors, one after the other. *)
Fixpoint run_ddl (texts : list string) (n : mem_node) : mem_node * list (Result string) :=
  match texts with
  | [] => (n, [])
  | text :: texts' =>
      let '(n', r) := match ddl_of text with Some d => execute d n | None => (n, fails "no statement of this kind") end in
      let '(n'', rest) := run_ddl texts' n' in
      (n'', (match r with Some (Ok q) => Ok (qr_tag q) | Some (Err e) => Err e | None => Err "panic" end) :: rest)
  end.

Definition empty_fs : LocalFs := mkLocalFs ∅ [].
Definition fresh_node (s : LocalFs) : mem_node := fst (open_catalogue Writer [] [] [] ∅ ∅ s).
Definition column_texts (t : string) (n : mem_node) : list (string * option string) :=
  match nd_schemas n !! t with Some s => map (fun c => (tc_name c, tc_default c)) (ts_columns s) | None => [] end.

Example create_and_alter :
  let '(n, out) := run_ddl ["CREATE TABLE t (id SERIAL PRIMARY KEY, name TEXT UNIQUE, n INT DEFAULT 5)"; "ALTER TABLE t DROP COLUMN n"; "ALTER TABLE t ADD COLUMN m INT"]%string (fresh_node empty_fs) in
  out = [Ok "CREATE TABLE"; Ok "ALTER TABLE"; Ok "ALTER TABLE"]%string
  /\ column_texts "t" n = [("id", Some "nextval('t_id_seq')"); ("name", None); ("m", None)]%string.
Proof. vm_compute. split; reflexivity. Qed.

(** ** Inputs of the theorems *)

Definition no_draws (_ : Expr) (n : mem_node) : mem_node := n.
#[local] Program Instance demo_engines : Engines record_index no_draws record_topic.
Next Obligation. done. Qed.
Next Obligation. done. Qed.
Next Obligation. intros e n. by exists []. Qed.

Definition ddl_run := run record_index no_draws any_module no_base64 record_topic.
Definition demo_reachable := reachable record_index no_draws any_module no_base64 record_topic.
Definition a_start : event (R := rows) := E_start Writer [] [] [] ∅ ∅.
Definition statements (texts : list string) : list (event (R := rows)) := map E_statement (omap ddl_of texts).

(** Tables come and go; the second start fails. *)
Definition busy_events : list (event (R := rows)) :=
  a_start :: statements ["CREATE TABLE t (id SERIAL PRIMARY KEY, a TEXT, b TEXT, c INT REFERENCES u(x), e INT, UNIQUE (b, e))"; "CREATE TABLE gone (x INT)"; "DROP TABLE gone"]%string
  ++ [E_crash; a_start; a_start] ++ statements ["ALTER TABLE t ADD COLUMN d INT"; "ALTER TABLE t DROP COLUMN a"; "ALTER TABLE t DROP COLUMN d"]%string ++ [E_refresh].
Definition busy_fs : LocalFs := mkLocalFs ∅ (repeat false 22 ++ [true]).
Definition is_up (v : server (R := rows) (S := LocalFs)) : bool := match v with Up _ => true | Down _ => false end.
Definition node_of (v : server) : mem_node := match v with Up n => n | Down s => fresh_node s end.
Definition busy_node : mem_node := node_of (ddl_run busy_events (Down busy_fs)).

Lemma up_reachable (evs : list event) (s : LocalFs) :
  fs_tidy s -> fs_objects s = ∅ -> Forall event_ok evs -> is_up (ddl_run evs (Down s)) = true -> demo_reachable (Up (node_of (ddl_run evs (Down s)))).
Proof. intros Hs Ho He Hup. exists s, evs. split; [done|]. split; [done|]. split; [done|]. unfold ddl_run in *. by destruct (run _ _ _ _ _ evs (Down s)). Qed.


Lemma busy_reachable : demo_reachable (Up busy_node).
Proof. apply up_reachable; [done | done | by repeat constructor | vm_compute; reflexivity]. Qed.

Lemma schema_positions_stay_valid_witness :
  exists s, nd_schemas busy_node !! "t"%string = Some s /\ ts_name s = "t"%string /\ schema_ok s.
Proof.
  destruct (nd_schemas busy_node !! "t"%string) as [s|] eqn:E; [|vm_compute in E; discriminate E]. exists s. split; [done|].
  apply (schema_positions_stay_valid record_index no_draws any_module no_base64 record_topic codec_faithful codec_faithful busy_node "t" s busy_reachable E).
Defined.

(** A sequence: two draws fail, one of them after its value was stored; then a
    crash, and a start that is tried twice. *)
Definition seq_fs : LocalFs := mkLocalFs ∅ (repeat false (3 + 4 + 4 + 3) ++ [true; true] ++ [true]).
Definition seq_start : mem_node := node_of (ddl_run [a_start] (Down seq_fs)).
Definition seq_node : mem_node := fst (create_sequence "ids" 10 5 seq_start).
Definition seq_events : list (event (R := rows)) :=
  [E_draw (Op_nextval "ids"); E_draw (Op_nextval "ids"); E_draw (Op_nextval "ids"); E_crash; a_start; a_start; E_draw (Op_setval "other" 1 true);
   E_draw (Op_nextval "ids"); E_refresh; E_draw (Op_nextval "ids")] ++ statements ["CREATE SEQUENCE ids"; "CREATE TABLE ids (n INT)"]%string ++ [E_draw (Op_nextval "ids")].
Definition demo_drawn := drawn record_index no_draws any_module no_base64 record_topic "ids".

Lemma sequence_values_are_fresh_witness :
  demo_drawn seq_events (Up seq_node) = [10; 20; 25; 30] /\ StronglySorted Z.lt (demo_drawn seq_events (Up seq_node)).
Proof.
  split; [vm_compute; reflexivity|].
  apply (sequence_values_are_fresh record_index no_draws any_module no_base64 record_topic codec_faithful codec_faithful "ids" 5) with (start := 10) (n := seq_start);
    [done | done | done | done | by exists [] | | done | vm_compute; reflexivity | by repeat constructor | by repeat constructor | vm_compute; reflexivity].
  apply (up_reachable [a_start] seq_fs); [done | done | by repeat constructor | vm_compute; reflexivity].
Defined.

(** *** Rows *)

Definition text_row (cells : list string) : bytes := encode_cells (map text_cell cells).
Definition filled (texts : list string) (rs : list (string * string * list string)) : mem_node :=
  set_nd_rows (fold_left (fun r '(t, k, cells) => om_insert (make_key t (as_bytes k)) (text_row cells) r) rs []) (fst (run_ddl texts (fresh_node empty_fs))).
Definition two_tables : mem_node :=
  filled ["CREATE TABLE t (id INT PRIMARY KEY, a TEXT, b TEXT, UNIQUE (b))"; "CREATE TABLE t2 (id INT PRIMARY KEY)"]%string
    [("t", "1", ["1"; "x"; "y"]); ("t", "2", ["2"; "z"; "w"]); ("t2", "1", ["1"])]%string.
Definition schema_at (t : string) (n : mem_node) : TableSchema := default (mkTableSchema t [] [] [] [] []) (nd_schemas n !! t).
Definition cells_shown (t : string) (n : mem_node) : list (list string) := map (fun p => map cell_text (snd p)) (table_cells t n).
Definition with_default : mem_node := fst (alter_table_add_column "t" (col "c" ColumnType_Text true false) (text_cell "new") two_tables).
Definition without_a : mem_node := fst (alter_table_drop_column "t" "a" two_tables).

Lemma two_tables_sorted : raw_wf (nd_rows two_tables).
Proof. unfold two_tables, filled. cbn [nd_rows set_nd_rows fold_left]. do 3 apply om_insert_sorted. constructor. Qed.

Lemma plain_forall (f : bytes * Row -> bytes) l : forallb (fun p => plain_row (f p)) l = true -> Forall (fun p => plain_row (f p) = true) l.
Proof. intros H. apply Forall_forall. intros p Hp. rewrite forallb_forall in H. by apply H, list_elem_of_In. Qed.

Lemma schema_at_lookup (t : string) (n : mem_node) : bool_decide (is_Some (nd_schemas n !! t)) = true -> nd_schemas n !! t = Some (schema_at t n).
Proof. unfold schema_at. intros H. apply bool_decide_eq_true in H as [s ->]. done. Qed.

Lemma add_column_extends_every_row_witness :
  cells_shown "t" with_default = [["1"; "x"; "y"; "new"]; ["2"; "z"; "w"; "new"]]%string /\ other_rows "t" with_default = other_rows "t" two_tables.
Proof.
  split; [vm_compute; reflexivity|].
  apply (add_column_extends_every_row "t" (col "c" ColumnType_Text true false) (text_cell "new") (schema_at "t" two_tables) two_tables with_default two_tables_sorted);
    [apply schema_at_lookup; vm_compute; reflexivity | vm_compute; reflexivity | apply plain_forall; vm_compute; reflexivity|].
  unfold with_default. rewrite (surjective_pairing (alter_table_add_column _ _ _ _)) at 1. by f_equal.
Defined.

Lemma drop_column_keeps_constraints_witness :
  cells_shown "t" without_a = [["1"; "y"]; ["2"; "w"]]%string
  /\ exists idx s', column_position (ts_columns (schema_at "t" two_tables)) "a" = Some idx /\ nd_schemas without_a = <["t"%string := s']> (nd_schemas two_tables)
       /\ map (names_at s') (ts_unique_groups s') = map (names_at (schema_at "t" two_tables)) (ts_unique_groups (schema_at "t" two_tables)).
Proof.
  split; [vm_compute; reflexivity|].
  destruct (drop_column_keeps_constraints "t" "a" (schema_at "t" two_tables) two_tables without_a two_tables_sorted) as (idx & s' & Hi & Hs & _ & _ & _ & _ & Hu & _).
  - apply schema_at_lookup. vm_compute. reflexivity.
  - vm_compute. reflexivity.
  - intros idx Hi. assert (idx = 1%nat) as -> by (vm_compute in Hi; congruence). apply plain_forall. vm_compute. reflexivity.
  - unfold without_a. rewrite (surjective_pairing (alter_table_drop_column _ _ _)) at 1. by f_equal.
  - exists idx, s'. exact (conj Hi (conj Hs Hu)).
Defined.

(** ** What the statements do besides *)

Definition on (n : mem_node) (texts : list string) : mem_node * list (Result string) := run_ddl texts n.
Definition is_err (r : Result string) : bool := match r with Err _ => true | Ok _ => false end.

(** Two servers on one store draw the same value: a refresh keeps the value that
    a server has in memory. *)
Lemma two_servers_draw_the_same_value :
  let n1 := fst (create_sequence "ids" 1 1 (fresh_node empty_fs)) in
  let n2 := fresh_node (nd_store n1) in
  let '(n1', v1) := nextval "ids" n1 in
  let n2' := fst (refresh_catalogue (set_nd_store (nd_store n1') n2)) in
  v1 = done 1 /\ snd (nextval "ids" n2') = done 1.
Proof. vm_compute. split; reflexivity. Qed.

(** Past the largest integer a sequence goes on with the least. *)
Lemma nextval_wraps :
  let n := fst (create_sequence "ids" (2 ^ 63 - 1) 1 (fresh_node empty_fs)) in
  let '(n', v) := nextval "ids" n in v = done (2 ^ 63 - 1) /\ snd (nextval "ids" n') = done (- 2 ^ 63).
Proof. vm_compute. split; reflexivity. Qed.

(** The text of a DEFAULT need not be its expression: [- -5] becomes a comment. *)
Lemma negated_default_becomes_a_comment :
  let e := Expr_UnaryOp UnOp_Neg (Expr_UnaryOp UnOp_Neg (Expr_Literal (Literal_Int 5))) in
  parse_expr_text "- -5" = done e
  /\ match default_expr_to_text e with Ok text => text = "--5"%string /\ match parse_expr_text text with Some (Err _) => True | _ => False end | Err _ => False end.
Proof. vm_compute. repeat split. Qed.

(** ALTER TABLE ADD COLUMN drops UNIQUE and REFERENCES without a word. *)
Lemma add_column_ignores_constraints :
  let '(n, out) := on (fresh_node empty_fs) ["CREATE TABLE u (x INT)"; "CREATE TABLE t (id INT)"; "ALTER TABLE t ADD COLUMN a INT UNIQUE REFERENCES u(x)"]%string in
  out = [Ok "CREATE TABLE"; Ok "CREATE TABLE"; Ok "ALTER TABLE"]%string /\ ts_unique_groups (schema_at "t" n) = [] /\ ts_foreign_keys (schema_at "t" n) = [].
Proof. vm_compute. repeat split. Qed.

(** ADD COLUMN with a DEFAULT that draws gives all rows the same value. *)
Lemma add_column_draws_once :
  cells_shown "t" (fst (on two_tables ["CREATE SEQUENCE s"; "ALTER TABLE t ADD COLUMN n INT DEFAULT nextval('s')"]%string)) = [["1"; "x"; "y"; "1"]; ["2"; "z"; "w"; "1"]]%string.
Proof. vm_compute. reflexivity. Qed.

(** A table that could not be created with its rule is there without it. *)
Lemma failed_create_table_leaves_the_table :
  let '(n, out) := on (fresh_node empty_fs) ["CREATE TABLE t (doc JSON) WITH (json_schema_col = 'doc')"; "CREATE TABLE t (doc JSON)"]%string in
  map is_err out = [true; true] /\ nd_schemas n !! "t"%string = Some (mkTableSchema "t" [mkTableColumn "doc" ColumnType_Json true None false] [] [] [] []).
Proof. vm_compute. split; reflexivity. Qed.

(** Two columns of one name are accepted. *)
Lemma duplicate_columns_are_accepted :
  let '(n, out) := on (fresh_node empty_fs) ["CREATE TABLE t (a INT, a TEXT)"]%string in
  out = [Ok "CREATE TABLE"]%string /\ map fst (column_texts "t" n) = ["a"; "a"]%string.
Proof. vm_compute. split; reflexivity. Qed.

(** DROP TABLE removes the index files of tables whose names begin with this name
    and an underscore, and leaves those of a table with an underscore. *)
Lemma drop_table_removes_other_tables_files :
  let setup := ["CREATE TABLE a (x INT)"; "CREATE TABLE a_b (x INT)"; "CREATE INDEX ON a_b (x)"]%string in
  let n := fst (on (fresh_node empty_fs) setup) in
  nd_files n = [("a_b_x", "idx")]%string
  /\ nd_files (fst (on n ["DROP TABLE a"]%string)) = [] /\ nd_indexes (fst (on n ["DROP TABLE a"]%string)) = [(Index_BTree, ("a_b", "x"))]%string
  /\ nd_files (fst (on n ["DROP TABLE a_b"]%string)) = [("a_b_x", "idx")]%string /\ nd_indexes (fst (on n ["DROP TABLE a_b"]%string)) = [].
Proof. vm_compute. repeat split. Qed.

(** Two indexes of different tables can have one default name and one stem. *)
Lemma index_names_collide :
  file_stem "a_b" "c" = file_stem "a" "b_c"
  /\ let n := fst (on (fresh_node empty_fs) ["CREATE TABLE a_b (c INT)"; "CREATE TABLE a (b_c INT)"; "CREATE INDEX ON a (b_c)"; "CREATE INDEX ON a_b (c)"; "DROP INDEX a_b_c_idx"]%string) in
     nd_indexes n = [(Index_BTree, ("a_b", "c"))]%string /\ nd_files n = [].
Proof. vm_compute. repeat split. Qed.

(** DROP COLUMN looks at the B-tree indexes and at the table's own references. *)
Lemma drop_column_leaves_indexes_and_references :
  let '(n, out) := on (fresh_node empty_fs)
    ["CREATE TABLE u (x INT, y TEXT)"; "CREATE TABLE t (a INT REFERENCES u(x))"; "CREATE INDEX ON u USING gin (y)"; "ALTER TABLE u DROP COLUMN x"; "ALTER TABLE u DROP COLUMN y"]%string in
  forallb (fun r => negb (is_err r)) out = true /\ map tc_name (ts_columns (schema_at "u" n)) = []
  /\ ts_foreign_keys (schema_at "t" n) = [mkForeignKey 0 "u" "x"] /\ nd_indexes n = [(Index_Fts, ("u", "y"))]%string.
Proof. vm_compute. repeat split. Qed.

(** A table whose name looks like a temporary file is not there after a restart,
    nor is the first of two tables whose names differ in a slash and a backslash. *)
Definition create_quoted (name column : string) : string := "CREATE TABLE " +:+ quoted name +:+ " (" +:+ column +:+ " INT)".
Definition restarted (n : mem_node) : mem_node := fresh_node (nd_store n).
Lemma tables_are_lost_on_restart :
  let '(n, out) := on (fresh_node empty_fs) [create_quoted "a.tmp-b" "x"] in
  let '(n2, out2) := on (fresh_node empty_fs) [create_quoted "a/b" "x"; create_quoted (String "a" (String "092"%char "b")) "y"] in
  out = [Ok "CREATE TABLE"]%string /\ map fst (column_texts "a.tmp-b" n) = ["x"]%string /\ column_texts "a.tmp-b" (restarted n) = []
  /\ out2 = [Ok "CREATE TABLE"; Ok "CREATE TABLE"]%string /\ map fst (column_texts "a/b" n2) = ["x"]%string /\ column_texts "a/b" (restarted n2) = [].
Proof. vm_compute. repeat split. Qed.
