(* ===== verification/Guard.v ===== *)
(** The guard in front of the object store ([storage/guard.rs]): a bound on the
    calls in flight and a circuit breaker.

    - [BreakerState] with [admit_at] (the function [admit]), [on_success] and [on_failure]; the clock is
      the instants that the calls read, in milliseconds.
    - [Guarded S]: the guarded store as an [ObjectStore], one call after the
      other; [guarded_laws]: it keeps the contract of the store below.
    - [gstep]: calls of many threads, each between its acquisition of a slot and
      its release, in any interleaving.

    Theorems: the calls in flight are counted exactly and never exceed the bound;
    the store below sees the admitted calls and no others, in their order, and
    their results are passed on; a run of failures opens the breaker, and a call
    that comes late enough is let through. What is not as documented is there
    too: a call that is shed counts as a failure and prolongs the time the
    breaker is open, so calls that come often enough are shed for ever. The
    metrics are left out. *)

From Stdlib Require Import Strings.Byte Strings.String ZArith Lia Bool.
From stdpp Require Import base list gmap strings relations.
From S2P Require Import Prelude ObjectStore Utf8 Decimal.

Open Scope Z_scope.

(** ** Configuration *)

(** The environment variables, read at every call but for the bound. *)
Record GuardEnv := mkGuardEnv { env_max_inflight : option string; env_failures : option string; env_open_secs : option string }.

Definition DEFAULT_MAX_INFLIGHT : Z := 64.
Definition DEFAULT_FAILURE_THRESHOLD : Z := 5.
Definition DEFAULT_OPEN_FOR : Z := 10 * 1000.

Definition env_number (v : option string) : option Z := v ≫= fun s => parse_unsigned (2 ^ 64 - 1) (as_bytes s).
Definition max_inflight (env : GuardEnv) : Z := Z.max 1 (default DEFAULT_MAX_INFLIGHT (env_number (env_max_inflight env))).
Definition failure_threshold (env : GuardEnv) : Z := Z.max 1 (default DEFAULT_FAILURE_THRESHOLD (env_number (env_failures env))).
Definition open_for (env : GuardEnv) : Z := default DEFAULT_OPEN_FOR ((fun s => s * 1000) <$> env_number (env_open_secs env)).

(** ** The breaker *)

Record BreakerState := mkBreakerState { br_failures : Z; br_opened_at : option Z; br_probing : bool }.

Definition breaker_new : BreakerState := mkBreakerState 0 None false.

Definition SHED : CasError := Other "object store circuit breaker is open (tripped); request shed".

Definition admit_at (env : GuardEnv) (now : Z) (b : BreakerState) : BreakerState * result CasError unit :=
  match br_opened_at b with
  | None => (b, Ok tt)
  | Some opened =>
      if open_for env <=? now - opened then (mkBreakerState (br_failures b) None true, Ok tt)
      else (b, Err SHED)
  end.

Definition on_success (_ : BreakerState) : BreakerState := mkBreakerState 0 None false.

Definition on_failure (env : GuardEnv) (now : Z) (b : BreakerState) : BreakerState :=
  let failures := if br_probing b then br_failures b else br_failures b + 1 in
  mkBreakerState failures (if failure_threshold env <=? failures then Some now else br_opened_at b) false.

(** What the outcome of a call does to the breaker. *)
Definition settle {T : Type} (env : GuardEnv) (now : Z) (r : result CasError T) (b : BreakerState) : BreakerState :=
  match r with
  | Ok _ => on_success b
  | Err (Conflict _) => on_success b
  | Err (Other _) => on_failure env now b
  end.

(** ** The guarded store, one call after the other *)

Section Guarded.
  Context {S : Type} {st : ObjectStore S} (env : GuardEnv).

(** The store, the breaker, and how far the clock goes on to each reading. *)
Record Guarded := mkGuarded { gd_inner : S; gd_breaker : BreakerState; gd_now : Z; gd_ticks : list N }.

Definition guarded_new (inner : S) (now : Z) (ticks : list N) : Guarded := mkGuarded inner breaker_new now ticks.

Definition read_clock (g : Guarded) : Guarded :=
  match gd_ticks g with
  | [] => g
  | d :: ticks => mkGuarded (gd_inner g) (gd_breaker g) (gd_now g + Z.of_N d) ticks
  end.

Definition set_breaker (b : BreakerState) (g : Guarded) : Guarded := mkGuarded (gd_inner g) b (gd_now g) (gd_ticks g).
Definition set_inner (s : S) (g : Guarded) : Guarded := mkGuarded s (gd_breaker g) (gd_now g) (gd_ticks g).

Definition guard_run {T : Type} (op : S -> S * result CasError T) (g : Guarded) : Guarded * result CasError T :=
  let g := read_clock g in
  let '(b, admitted) := admit_at env (gd_now g) (gd_breaker g) in
  let '(g, r) :=
    match admitted with
    | Ok _ => let '(s, r) := op (gd_inner g) in (set_inner s (set_breaker b g), r)
    | Err e => (set_breaker b g, Err e)
    end in
  let g := read_clock g in
  (set_breaker (settle env (gd_now g) r (gd_breaker g)) g, r).

(** [map_err(CasError::Other)] on the way in and [anyhow!(e)] on the way out,
    which prints the error; the calls below never have a [Conflict]. *)
Definition show_etag (tag : option string) : string :=
  match tag with None => "None" | Some t => String.append "Some(" (String (Ascii.ascii_of_nat 34) (String.append t (String (Ascii.ascii_of_nat 34) ")"))) end.
Definition lift_other {T : Type} (r : Result T) : result CasError T := match r with Ok a => Ok a | Err e => Err (Other e) end.
Definition drop_other {T : Type} (r : result CasError T) : Result T :=
  match r with Ok a => Ok a | Err (Other e) => Err e | Err (Conflict tag) => Err (String.append "conditional put failed: current etag = " (show_etag tag)) end.
Definition guard_plain {T : Type} (op : S -> S * Result T) (g : Guarded) : Guarded * Result T :=
  let '(g, r) := guard_run (fun s => let '(s', r) := op s in (s', lift_other r)) g in (g, drop_other r).

#[export] Instance guarded_store : ObjectStore Guarded := {|
  os_get k g := guard_plain (os_get k) g;
  os_put k d g := guard_plain (os_put k d) g;
  os_put_if_match k d expected g := guard_run (os_put_if_match k d expected) g;
  os_delete k g := guard_plain (os_delete k) g;
  os_list p g := guard_plain (os_list p) g;
|}.

(** *** The store below sees the admitted calls *)

(** The call is admitted. *)
Definition admits (g : Guarded) : bool := match snd (admit_at env (gd_now (read_clock g)) (gd_breaker (read_clock g))) with Ok _ => true | Err _ => false end.

Lemma read_clock_inner (g : Guarded) : gd_inner (read_clock g) = gd_inner g /\ gd_breaker (read_clock g) = gd_breaker g.
Proof. unfold read_clock. by destruct (gd_ticks g). Qed.

Lemma guard_run_cases {T : Type} (op : S -> S * result CasError T) (g g' : Guarded) r :
  guard_run op g = (g', r) ->
  if admits g then op (gd_inner g) = (gd_inner g', r) else r = Err SHED /\ gd_inner g' = gd_inner g.
Proof.
  unfold guard_run, admits. destruct (read_clock_inner g) as [Hi Hb]. destruct (admit_at env (gd_now (read_clock g)) (gd_breaker (read_clock g))) as [b adm] eqn:E. cbn [snd].
  destruct adm as [u|e].
  - rewrite Hi. destruct (op (gd_inner g)) as [s r'] eqn:Eo. intros [= <- <-]. cbn. by rewrite (proj1 (read_clock_inner _)).
  - intros [= <- <-]. cbn. rewrite (proj1 (read_clock_inner _)). cbn. split; [|done]. unfold admit_at in E. destruct (br_opened_at _); [|done]. destruct (_ <=? _); [done|]. by injection E as <- <-.
Qed.

Lemma guard_plain_cases {T : Type} (op : S -> S * Result T) (g g' : Guarded) r :
  guard_plain op g = (g', r) ->
  if admits g then op (gd_inner g) = (gd_inner g', r) else (exists e, r = Err e) /\ gd_inner g' = gd_inner g.
Proof.
  unfold guard_plain. destruct (guard_run _ g) as [g1 r1] eqn:E. intros [= <- <-]. apply guard_run_cases in E. destruct (admits g).
  - destruct (op (gd_inner g)) as [s' r']. injection E as -> <-. destruct r'; done.
  - destruct E as [-> ->]. split; [by eexists | done].
Qed.

End Guarded.
Arguments Guarded : clear implicits.

(** ** The contract *)

Section Laws.
  Context {S : Type} {st : ObjectStore S} {laws : StoreLaws S} (env : GuardEnv).

#[local] Existing Instance guarded_store.

(** The guarded store keeps the contract of the store below, with its content. *)
#[export] Program Instance guarded_laws : @StoreLaws (Guarded S) (guarded_store env) := {|
  os_wf g := os_wf (gd_inner g);
  os_objects g := os_objects (gd_inner g);
  os_key_ok := os_key_ok;
|}.
Next Obligation.
  intros k g g' r Hwf Hk H. apply guard_plain_cases in H. destruct (admits env g); [by apply os_get_law in H|].
  destruct H as [[e ->] ->]. done.
Qed.
Next Obligation.
  intros k d g g' r Hwf Hk H. apply guard_plain_cases in H. destruct (admits env g); [by apply os_put_law in H|].
  destruct H as [[e ->] ->]. split; [done | by left].
Qed.
Next Obligation.
  intros k d expected g g' r Hwf Hk H. apply guard_run_cases in H. destruct (admits env g); [by apply os_cas_law in H|].
  destruct H as [-> ->]. split; [done | by left].
Qed.
Next Obligation.
  intros k g g' r Hwf Hk H. apply guard_plain_cases in H. destruct (admits env g); [by apply os_delete_law in H|].
  destruct H as [[e ->] ->]. split; [done | by left].
Qed.
Next Obligation. intros k d g g' m H. apply guard_plain_cases in H. destruct (admits env g); [by apply os_put_size in H|]. by destruct H as [[e [=]] _]. Qed.
Next Obligation. intros k d expected g g' m H. apply guard_run_cases in H. destruct (admits env g); [by apply os_cas_size in H|]. by destruct H. Qed.

End Laws.

(** ** Calls and answers *)

Inductive call :=
| Call_get (k : string)
| Call_put (k : string) (d : bytes)
| Call_put_if_match (k : string) (d : bytes) (expected : option string)
| Call_delete (k : string)
| Call_list (prefix : string).

Inductive store_answer :=
| A_get (r : Result (option (bytes * ObjectMeta)))
| A_put (r : Result ObjectMeta)
| A_cas (r : result CasError ObjectMeta)
| A_delete (r : Result unit)
| A_list (r : Result (list string)).

Definition perform {S : Type} {st : ObjectStore S} (c : call) (s : S) : S * store_answer :=
  match c with
  | Call_get k => let '(s, r) := os_get k s in (s, A_get r)
  | Call_put k d => let '(s, r) := os_put k d s in (s, A_put r)
  | Call_put_if_match k d e => let '(s, r) := os_put_if_match k d e s in (s, A_cas r)
  | Call_delete k => let '(s, r) := os_delete k s in (s, A_delete r)
  | Call_list p => let '(s, r) := os_list p s in (s, A_list r)
  end.

Fixpoint performs {S : Type} {st : ObjectStore S} (cs : list call) (s : S) : S * list store_answer :=
  match cs with
  | [] => (s, [])
  | c :: cs' => let '(s, a) := perform c s in let '(s, l) := performs cs' s in (s, a :: l)
  end.

Definition failed (a : store_answer) : bool :=
  match a with
  | A_get (Err _) | A_put (Err _) | A_cas (Err (Other _)) | A_delete (Err _) | A_list (Err _) => true
  | _ => false
  end.

(** The elements whose flag is set, and the others. *)
Fixpoint chosen {A : Type} (flags : list bool) (l : list A) : list A :=
  match flags, l with
  | f :: flags', x :: l' => if f then x :: chosen flags' l' else chosen flags' l'
  | _, _ => []
  end.

Section Calls.
  Context {S : Type} {st : ObjectStore S} (env : GuardEnv).

#[local] Existing Instance guarded_store.
Abbreviation guarded_perform := (@perform (Guarded S) (guarded_store env)).
Abbreviation guarded_performs := (@performs (Guarded S) (guarded_store env)).

(** A call through the guard: the store's own answer, or a failure without it. *)
Lemma perform_cases (c : call) (g g' : Guarded S) (a : store_answer) :
  guarded_perform c g = (g', a) -> if admits env g then perform c (gd_inner g) = (gd_inner g', a) else failed a = true /\ gd_inner g' = gd_inner g.
Proof.
  destruct c as [k|k d|k d e|k|p]; cbn [perform os_get os_put os_put_if_match os_delete os_list guarded_store];
    match goal with |- context [let '(_, _) := ?m in _] => destruct m as [g1 r] eqn:E end; intros [= <- <-];
    (apply guard_plain_cases in E || apply guard_run_cases in E); destruct (admits env g); try (by rewrite E); destruct E as [E ->]; (split; [|done]).
  - by destruct E as [e ->].
  - by destruct E as [e ->].
  - by rewrite E.
  - by destruct E as [e ->].
  - by destruct E as [e ->].
Qed.

(** Whatever the calls and whatever the breaker does, the store behind the
    guard sees some of the calls, in their order and each once, and its answers
    are passed on; every other call fails without reaching the store. *)
Theorem guard_passes_admitted_calls_on (cs : list call) (g g' : Guarded S) (answers : list store_answer) :
  guarded_performs cs g = (g', answers) ->
  exists flags, length flags = length cs
    /\ performs (chosen flags cs) (gd_inner g) = (gd_inner g', chosen flags answers)
    /\ Forall (fun a => failed a = true) (chosen (map negb flags) answers).
Proof.
  revert g answers. induction cs as [|c cs IH]; intros g answers; cbn [performs]; [intros [= <- <-]; by exists []|].
  destruct (guarded_perform c g) as [g1 a] eqn:E. destruct (guarded_performs cs g1) as [g2 l] eqn:El. intros [= <- <-].
  apply perform_cases in E. destruct (IH g1 l El) as (flags & Hl & Hp & Hf). exists (admits env g :: flags). cbn [length]. split; [by rewrite Hl|].
  destruct (admits env g); cbn [chosen map negb].
  - split; [|done]. cbn [performs]. by rewrite E, Hp.
  - destruct E as [Ha Hi]. rewrite <- Hi. split; [done | by constructor].
Qed.

(** *** The open breaker *)

(** The breaker is open since the last reading of the clock. *)
Definition just_opened (g : Guarded S) : Prop := br_opened_at (gd_breaker g) = Some (gd_now g) /\ br_probing (gd_breaker g) = false /\ failure_threshold env <= br_failures (gd_breaker g).

(** The clock of calls: how long before each comes, and how long it takes. *)
Definition clock_of (gaps : list (N * N)) : list N := concat (map (fun p => [fst p; snd p]) gaps).

Lemma shed_call {T : Type} (op : S -> S * result CasError T) (g : Guarded S) (wait took : N) (ticks : list N) :
  just_opened g -> gd_ticks g = wait :: took :: ticks -> Z.of_N wait < open_for env ->
  exists g', guard_run env op g = (g', Err SHED) /\ just_opened g' /\ gd_ticks g' = ticks /\ gd_inner g' = gd_inner g /\ admits env g = false.
Proof.
  intros (Ho & Hp & Hf) Ht Hw. assert (admits env g = false) as Ha.
  { unfold admits, read_clock. rewrite Ht. cbn. unfold admit_at. rewrite Ho. by rewrite (proj2 (Z.leb_gt _ _)) by lia. }
  unfold guard_run, read_clock at 1 2 3 4 5. rewrite Ht. cbn [gd_now gd_breaker gd_ticks gd_inner]. unfold admit_at. rewrite Ho.
  rewrite (proj2 (Z.leb_gt _ _)) by lia. cbn [snd set_breaker read_clock gd_ticks]. eexists. split; [reflexivity|]. cbn [settle SHED gd_inner gd_ticks set_breaker gd_breaker gd_now].
  split_and!; try done. unfold just_opened, on_failure. cbn. rewrite Hp. cbn. split_and!; [|done | lia]. by rewrite (proj2 (Z.leb_le _ _)) by lia.
Qed.

(** Once the breaker is open, calls that each come sooner than its window
    after the call before are all shed, however long they go on and however
    healthy the store is: a call that is shed opens the breaker anew. *)
Theorem frequent_calls_are_shed (cs : list call) (gaps : list (N * N)) (g g' : Guarded S) (answers : list store_answer) :
  just_opened g -> gd_ticks g = clock_of gaps -> length gaps = length cs -> Forall (fun p => Z.of_N (fst p) < open_for env) gaps ->
  guarded_performs cs g = (g', answers) ->
  gd_inner g' = gd_inner g /\ Forall (fun a => failed a = true) answers /\ just_opened g'.
Proof.
  revert gaps g answers. induction cs as [|c cs IH]; intros gaps g answers Hg Ht Hl Hgaps; cbn [performs]; [by intros [= <- <-]|].
  destruct gaps as [|[wait took] gaps]; [done|]. apply Forall_cons in Hgaps as [Hw Hgaps].
  destruct (guarded_perform c g) as [g1 a] eqn:E. destruct (guarded_performs cs g1) as [g2 l] eqn:El. intros [= <- <-].
  assert (just_opened g1 /\ gd_ticks g1 = clock_of gaps /\ gd_inner g1 = gd_inner g /\ failed a = true) as (Hg1 & Ht1 & Hi1 & Ha).
  { pose proof (perform_cases c g g1 a E) as Hc.
    destruct c as [k|k d|k d e|k|p]; cbn [perform os_get os_put os_put_if_match os_delete os_list guarded_store] in E; unfold guard_plain in E;
      match goal with E : context [guard_run env ?op g] |- _ => destruct (shed_call op g wait took (clock_of gaps) Hg Ht Hw) as (g3 & Er & Hg3 & Ht3 & Hi3 & Hadm) end;
      rewrite Er in E; rewrite Hadm in Hc; injection E as <- <-; destruct Hc as [Hc _]; done. }
  destruct (IH gaps g1 l Hg1 Ht1 ltac:(cbn in Hl; lia) Hgaps El) as (Hi & Hall & Hlast). rewrite Hi, Hi1. split_and!; [done | by constructor | done].
Qed.

(** A call that comes late enough reaches the store, and an answer closes the
    breaker. *)
Lemma late_call_is_let_through {T : Type} (op : S -> S * result CasError T) (g g' : Guarded S) (wait : N) (ticks : list N) r :
  just_opened g -> gd_ticks g = wait :: ticks -> open_for env <= Z.of_N wait -> guard_run env op g = (g', r) ->
  op (gd_inner g) = (gd_inner g', r) /\ (match r with Err (Other _) => True | _ => gd_breaker g' = breaker_new end).
Proof.
  intros (Ho & _) Ht Hw H. assert (admits env g = true) as Ha.
  { unfold admits, read_clock. rewrite Ht. cbn. unfold admit_at. rewrite Ho. by rewrite (proj2 (Z.leb_le _ _)) by lia. }
  pose proof (guard_run_cases env op g g' r H) as Hc. rewrite Ha in Hc. split; [done|]. revert H. unfold guard_run.
  destruct (admit_at env _ _) as [b adm]. destruct (match adm with Ok _ => _ | Err _ => _ end) as [g1 r1]. cbn zeta. intros [= <- <-]. by destruct r1 as [a|[e'|e']].
Qed.

(** The failures that open a closed breaker. *)
Fixpoint fail_times (n : nat) (now : Z) (b : BreakerState) : BreakerState := match n with O => b | Datatypes.S n' => fail_times n' now (on_failure env now b) end.

Lemma failures_open_the_breaker (n : nat) (now : Z) :
  br_opened_at (fail_times n now breaker_new) = if failure_threshold env <=? Z.of_nat n then Some now else None.
Proof.
  assert (forall k b, br_probing b = false -> 0 <= br_failures b ->
    br_opened_at b = (if failure_threshold env <=? br_failures b then Some now else None) ->
    br_opened_at (fail_times k now b) = if failure_threshold env <=? br_failures b + Z.of_nat k then Some now else None) as H.
  { induction k as [|k IH]; intros b Hp Hf Ho; cbn [fail_times]; [rewrite Z.add_0_r; exact Ho|].
    assert (br_failures (on_failure env now b) = br_failures b + 1) as Hf' by (cbn; by rewrite Hp).
    rewrite IH, Hf' by (done || (rewrite Hf'; lia) || (cbn; rewrite Hp; destruct (failure_threshold env <=? br_failures b + 1) eqn:E; [done|];
      rewrite Ho, (proj2 (Z.leb_gt _ _)); [done | apply Z.leb_gt in E; lia])). by replace (br_failures b + 1 + Z.of_nat k) with (br_failures b + Z.of_nat (Datatypes.S k)) by lia. }
  rewrite (H n breaker_new); [done | done | done|]. cbn. unfold failure_threshold. by rewrite (proj2 (Z.leb_gt _ _)) by lia.
Qed.

End Calls.

(** ** Calls in flight *)

(** Where a call is: it has a slot, it was let through, it was shed. *)
Inductive call_phase := Acquired | LetThrough | Shed.

(** [InFlightBound] with the breaker, and the calls that hold a slot. *)
Record InFlight := mkInFlight { if_max : Z; if_count : Z; if_breaker : BreakerState; if_calls : list call_phase }.

Definition inflight_new (env : GuardEnv) : InFlight := mkInFlight (max_inflight env) 0 breaker_new [].

(** [acquire] waits while all slots are taken. *)
Definition acquire (s : InFlight) : option InFlight :=
  if if_max s <=? if_count s then None else Some (mkInFlight (if_max s) (if_count s + 1) (if_breaker s) (if_calls s ++ [Acquired])).

(** [release], from the guard's [Drop]: [saturating_sub]. *)
Definition release (i : nat) (s : InFlight) : InFlight := mkInFlight (if_max s) (Z.max 0 (if_count s - 1)) (if_breaker s) (delete i (if_calls s)).

Definition admit_call (env : GuardEnv) (i : nat) (now : Z) (s : InFlight) : InFlight :=
  let '(b, r) := admit_at env now (if_breaker s) in
  mkInFlight (if_max s) (if_count s) b (<[i := match r with Ok _ => LetThrough | Err _ => Shed end]> (if_calls s)).

(** The end of a call: its outcome, then its slot; a shed call has failed. *)
Definition end_call (env : GuardEnv) (i : nat) (now : Z) (r : result CasError unit) (s : InFlight) : InFlight :=
  release i (mkInFlight (if_max s) (if_count s) (settle env now r (if_breaker s)) (if_calls s)).

Inductive gstep (env : GuardEnv) : InFlight -> InFlight -> Prop :=
| G_acquire s s' : acquire s = Some s' -> gstep env s s'
| G_admit s i now : if_calls s !! i = Some Acquired -> gstep env s (admit_call env i now s)
| G_end s i now r : if_calls s !! i = Some LetThrough -> gstep env s (end_call env i now r s)
| G_shed s i now : if_calls s !! i = Some Shed -> gstep env s (end_call env i now (Err SHED) s).

(** However the calls of all threads interleave, the count is the number of
    calls that hold a slot and never exceeds the bound, and no more calls than
    that are at the store. *)
Theorem calls_in_flight_are_bounded (env : GuardEnv) (s : InFlight) :
  rtc (gstep env) (inflight_new env) s ->
  if_count s = Z.of_nat (length (if_calls s)) /\ if_count s <= max_inflight env /\ Z.of_nat (length (List.filter (fun p => match p with LetThrough => true | _ => false end) (if_calls s))) <= max_inflight env.
Proof.
  intros H. assert (if_max s = max_inflight env /\ if_count s = Z.of_nat (length (if_calls s)) /\ if_count s <= max_inflight env) as (_ & Hc & Hm).
  { revert s H. apply rtc_ind_r.
    - cbn. unfold max_inflight. split_and!; [done | done | lia].
    - intros s1 s2 _ H (Hmax & Hc & Hm). destruct H as [s s' H|s i now Hi|s i now r Hi|s i now Hi].
      + unfold acquire in H. destruct (if_max s <=? if_count s) eqn:E; [done|]. apply Z.leb_gt in E. injection H as <-. cbn. rewrite length_app. cbn. lia.
      + unfold admit_call. destruct (admit_at env now (if_breaker s)) as [b r]. cbn. by rewrite length_insert.
      + apply lookup_lt_Some in Hi as Hlt. cbn. rewrite length_delete by (by eexists). lia.
      + apply lookup_lt_Some in Hi as Hlt. cbn. rewrite length_delete by (by eexists). lia. }
  split_and!; [done | done|]. pose proof (List.filter_length_le (fun p => match p with LetThrough => true | _ => false end) (if_calls s)). lia.
Qed.

(** ** Inputs of the theorems *)

#[local] Existing Instance demo_sha.

Definition plain_env : GuardEnv := mkGuardEnv None (Some "2"%string) None.

(** The store fails twice, which opens the breaker, and answers from then on. *)
Definition flaky : Guarded LocalFs := guarded_new (mkLocalFs {["k"%string := []]} [true; true]) 0 (clock_of (repeat (1, 1)%N 2 ++ repeat (9999, 1)%N 3)).
Definition opened : Guarded LocalFs := fst (@performs _ (guarded_store plain_env) [Call_get "k"; Call_get "k"] flaky).

Lemma frequent_calls_are_shed_witness :
  just_opened plain_env opened /\ failed (snd (perform (Call_get "k") (gd_inner opened))) = false
  /\ Forall (fun a => failed a = true) (snd (@performs _ (guarded_store plain_env) [Call_get "k"; Call_put "k" []; Call_list "k"] opened)).
Proof.
  assert (just_opened plain_env opened) as Ho by (vm_compute; by split_and!). split; [done|]. split; [vm_compute; reflexivity|].
  apply (frequent_calls_are_shed plain_env [Call_get "k"; Call_put "k" []; Call_list "k"] (repeat (9999, 1)%N 3) opened
    (fst (@performs _ (guarded_store plain_env) [Call_get "k"; Call_put "k" []; Call_list "k"] opened)));
    [done | vm_compute; reflexivity | reflexivity | by repeat constructor | apply surjective_pairing].
Defined.

Lemma guard_passes_admitted_calls_on_witness :
  exists flags, length flags = 5%nat /\ Forall (fun a => failed a = true) (chosen (map negb flags) (snd (@performs _ (guarded_store plain_env) (repeat (Call_get "k") 5) flaky))).
Proof.
  destruct (guard_passes_admitted_calls_on plain_env (repeat (Call_get "k") 5) flaky (fst (@performs _ (guarded_store plain_env) (repeat (Call_get "k") 5) flaky))
    (snd (@performs _ (guarded_store plain_env) (repeat (Call_get "k") 5) flaky)) (surjective_pairing _)) as (flags & Hl & _ & Hf). by exists flags.
Defined.

Lemma calls_in_flight_are_bounded_witness : exists s, rtc (gstep plain_env) (inflight_new plain_env) s /\ if_count s = 1 /\ if_count s <= max_inflight plain_env.
Proof.
  eexists. assert (rtc (gstep plain_env) (inflight_new plain_env) (mkInFlight 64 1 breaker_new [LetThrough])) as H.
  { apply (rtc_l _ _ (mkInFlight 64 1 breaker_new [Acquired])); [by apply G_acquire|]. apply rtc_once.
    change (mkInFlight 64 1 breaker_new [LetThrough]) with (admit_call plain_env 0 0 (mkInFlight 64 1 breaker_new [Acquired])). by apply G_admit. }
  split; [exact H|]. split; [done|]. apply (calls_in_flight_are_bounded plain_env _ H).
Defined.

(** When the window is over every call is let through, not one: two calls are at
    the store before either has an answer. *)
Lemma more_than_one_probe :
  let s := mkInFlight 64 2 (mkBreakerState 2 (Some 0) false) [Acquired; Acquired] in
  if_calls (admit_call plain_env 1 10001 (admit_call plain_env 0 10000 s)) = [LetThrough; LetThrough].
Proof. reflexivity. Qed.
