(* ===== verification/Chronos.v ===== *)
(** Time indexes ([storage/ts_index.rs], [storage/database/time.rs] and the part
    of [storage_engine.rs] that maintains them).

    Rows go into buckets of a fixed span; a bucket that is not the newest is
    sealed, its series compressed by the codecs of [Compress], and past the
    retention only its rollup is left. [None] is a panic. The index file is a
    value next to the index; the disk does not fail.

    Theorems: the index refines a list of entries from which an insertion evicts
    the old ones ([refines]); a range query returns the keys of the entries in the
    range that the retention leaves, in whatever order they came and whichever
    buckets were sealed and opened again; the rollup of a bucket is that of every
    value ever put into it; an index opened from its file has every entry again,
    evicted ones too; and a new index without retention answers a range as a scan
    of the table. What it does that a scan would not: a row written again is found
    twice, rows past the retention or without a number are not found. *)

From Stdlib Require Import Strings.Byte Strings.String Sorted ZArith Lia Bool Permutation.
From stdpp Require Import base list strings gmap.
From S2P Require Import Prelude OrdMap Utf8 Decimal ObjectStore Manifest Txn Compress Flux Rows Jsonb Float Values JsonOps Eval Sorting GraphIndex.

Open Scope Z_scope.

(** ** Data *)

Record TimeBucketPolicy := mkTimeBucketPolicy { tp_granularity_ms : Z; tp_retention_ms : option Z }.

(** The value is an [f64], by its bits. *)
Record TsEntry := mkTsEntry { te_row_key : bytes; te_ts : Z; te_value : Z }.

Record Rollup := mkRollup { ro_count : Z; ro_sum : Z; ro_min : Z; ro_max : Z }.

(** [f64::min] and [f64::max] *)
Definition f_min (a b : Z) : Z := if is_nan a then b else if is_nan b then a else if f_lt b a then b else a.
Definition f_max (a b : Z) : Z := if is_nan a then b else if is_nan b then a else if f_lt a b then b else a.

Definition rollup_new : Rollup := mkRollup 0 0 F_INF (f_neg F_INF).
Definition rollup_add (r : Rollup) (value : Z) : Rollup :=
  mkRollup ((ro_count r + 1) mod 2 ^ 64) (f_add (ro_sum r) value) (f_min (ro_min r) value) (f_max (ro_max r) value).
Definition rollup_avg (r : Rollup) : Z := if ro_count r =? 0 then 0 else f_div (ro_sum r) (f_of_Z (ro_count r)).

Record CompressedSeries := mkCompressedSeries { cs_ts_deltas : bytes; cs_values : bytes; cs_row_keys : list bytes }.

Inductive BucketState :=
| Open (entries : list TsEntry)
| Sealed (series : CompressedSeries)
| Downsampled.

Record Bucket := mkBucket { bk_rollup : Rollup; bk_state : BucketState }.

Record TimeIndex := mkTimeIndex { ti_policy : TimeBucketPolicy; ti_value_column : string; ti_buckets : list (Z * Bucket); ti_newest_ts : Z }.

Definition I64_LEAST : Z := - 2 ^ 63.

(** ** Buckets *)

(** [ts.div_euclid(g) * g]: division by zero and the overflow of the quotient
    panic, the product wraps. *)
Definition bucket_start (ts granularity : Z) : option Z :=
  if (granularity =? 0) || ((ts =? I64_LEAST) && (granularity =? -1)) then None
  else Some (i64_wrap (Z.sgn granularity * (ts / Z.abs granularity) * granularity)).

Definition by_ts (a b : TsEntry) : comparison := Z.compare (te_ts a) (te_ts b).

Definition compress_entries (entries : list TsEntry) : CompressedSeries :=
  let sorted := stable_sort by_ts entries in
  mkCompressedSeries (delta_delta_encode (map te_ts sorted)) (gorilla_encode (map te_value sorted)) (map te_row_key sorted).

Definition decompress (series : CompressedSeries) : list (Z * Z * bytes) :=
  combine (combine (delta_delta_decode (cs_ts_deltas series)) (gorilla_decode (cs_values series))) (cs_row_keys series).

Definition ts_entry_of (p : Z * Z * bytes) : TsEntry := mkTsEntry (snd p) (fst (fst p)) (snd (fst p)).

(** The state of a bucket with a new entry. *)
Definition push_entry (e : TsEntry) (s : BucketState) : BucketState :=
  match s with
  | Open entries => Open (entries ++ [e])
  | Sealed series => Open (map ts_entry_of (decompress series) ++ [e])
  | Downsampled => Open [e]
  end.

Definition set_buckets (b : list (Z * Bucket)) (idx : TimeIndex) : TimeIndex := mkTimeIndex (ti_policy idx) (ti_value_column idx) b (ti_newest_ts idx).
Definition set_newest (ts : Z) (idx : TimeIndex) : TimeIndex := mkTimeIndex (ti_policy idx) (ti_value_column idx) (ti_buckets idx) ts.

Definition seal_bucket (newest_start : Z) (p : Z * Bucket) : Z * Bucket :=
  if fst p =? newest_start then p
  else match bk_state (snd p) with
       | Open entries => (fst p, mkBucket (bk_rollup (snd p)) (Sealed (compress_entries entries)))
       | _ => p
       end.

Definition seal_non_newest_buckets (idx : TimeIndex) : option TimeIndex :=
  newest_start ← bucket_start (ti_newest_ts idx) (tp_granularity_ms (ti_policy idx));
  Some (set_buckets (map (seal_bucket newest_start) (ti_buckets idx)) idx).

Definition evict_bucket (cutoff granularity : Z) (p : Z * Bucket) : Z * Bucket :=
  if i64_wrap (fst p + granularity) <=? cutoff then (fst p, mkBucket (bk_rollup (snd p)) Downsampled) else p.

Definition apply_retention_to (idx : TimeIndex) : TimeIndex :=
  match tp_retention_ms (ti_policy idx) with
  | None => idx
  | Some retention =>
      set_buckets (map (evict_bucket (i64_wrap (ti_newest_ts idx - retention)) (tp_granularity_ms (ti_policy idx))) (ti_buckets idx)) idx
  end.

Definition apply_insert (e : TsEntry) (retention : bool) (idx : TimeIndex) : option TimeIndex :=
  start ← bucket_start (te_ts e) (tp_granularity_ms (ti_policy idx));
  let idx := if ti_newest_ts idx <? te_ts e then set_newest (te_ts e) idx else idx in
  let bucket := default (mkBucket rollup_new (Open [])) (om_get start (ti_buckets idx)) in
  let bucket := mkBucket (rollup_add (bk_rollup bucket) (te_value e)) (push_entry e (bk_state bucket)) in
  idx ← seal_non_newest_buckets (set_buckets (om_insert start bucket (ti_buckets idx)) idx);
  Some (if retention then apply_retention_to idx else idx).

(** ** Queries *)

(** The buckets from [lo] on, to the first that starts after [t1]. *)
Fixpoint buckets_in (lo t1 : Z) (l : list (Z * Bucket)) : list (Z * Bucket) :=
  match l with
  | [] => []
  | p :: l' => if fst p <? lo then buckets_in lo t1 l' else if t1 <? fst p then [] else p :: buckets_in lo t1 l'
  end.

Definition in_span (t0 t1 ts : Z) : bool := (t0 <=? ts) && (ts <=? t1).

Definition bucket_hits (t0 t1 : Z) (b : Bucket) : list bytes :=
  match bk_state b with
  | Open entries => map te_row_key (List.filter (fun e => in_span t0 t1 (te_ts e)) entries)
  | Sealed series => map snd (List.filter (fun p => in_span t0 t1 (fst (fst p))) (decompress series))
  | Downsampled => []
  end.

Definition query_range (t0 t1 : Z) (idx : TimeIndex) : option (list bytes) :=
  lo ← bucket_start t0 (tp_granularity_ms (ti_policy idx));
  Some (concat (map (fun p => bucket_hits t0 t1 (snd p)) (buckets_in lo t1 (ti_buckets idx)))).

Definition query_rollups (t0 t1 : Z) (idx : TimeIndex) : option (list (Z * Rollup)) :=
  lo ← bucket_start t0 (tp_granularity_ms (ti_policy idx));
  Some (map (fun p => (fst p, bk_rollup (snd p))) (buckets_in lo t1 (ti_buckets idx))).

(** ** The index file *)

Section File.
  Context {bc : Bincode TsEntry}.

Definition time_header (idx : TimeIndex) : bytes :=
  i64_to_be (tp_granularity_ms (ti_policy idx)) ++ i64_to_be (default (-1) (tp_retention_ms (ti_policy idx)))
  ++ to_be 2 (zlen (as_bytes (ti_value_column idx)) mod 2 ^ 16) ++ as_bytes (ti_value_column idx).

(** [read_exact] *)
Definition read_header_exact (n : Z) (file : bytes) : Result (bytes * bytes) :=
  if zlen file <? n then Err "failed to fill whole buffer"%string else Ok (take (Z.to_nat n) file, drop (Z.to_nat n) file).

Definition time_index_new (policy : TimeBucketPolicy) (value_column : string) : TimeIndex := mkTimeIndex policy value_column [] I64_LEAST.

Fixpoint replay_entries (fuel : nat) (rest : bytes) (idx : TimeIndex) : option (Result TimeIndex) :=
  match fuel with
  | O => None
  | S fuel' =>
      match read_frame rest with
      | Err e => Some (Err e)
      | Ok None => Some (Ok idx)
      | Ok (Some (buf, rest)) =>
          match bc_deserialize buf with
          | None => Some (Err "bincode"%string)
          | Some e => match apply_insert e false idx with Some idx => replay_entries fuel' rest idx | None => None end
          end
      end
  end.

Definition read_time_header (file : bytes) : Result (TimeIndex * bytes) :=
  let? '(header, file) := read_header_exact 16 file in
  let retention_raw := i64_from_be (drop 8 header) in
  let policy := mkTimeBucketPolicy (i64_from_be (take 8 header)) (if retention_raw <? 0 then None else Some retention_raw) in
  let? '(len, file) := read_header_exact 2 file in
  let? '(col, file) := read_header_exact (from_be len) file in
  let? column := ok_or (from_utf8 col) "invalid utf-8 sequence" in
  Ok (time_index_new policy column, file).

(** [TimeIndex::open] on the file, if there is one; the file behind it. *)
Definition time_index_open (file : option bytes) (policy : TimeBucketPolicy) (value_column : string) : option (bytes * Result TimeIndex) :=
  match file with
  | None => let idx := time_index_new policy value_column in Some (time_header idx, Ok idx)
  | Some file =>
      match read_time_header file with
      | Err e => Some (file, Err e)
      | Ok (idx, rest) => r ← replay_entries (S (length rest)) rest idx; Some (file, r)
      end
  end.

(** [TimeIndex::insert]: the record is in the file before the index has it. *)
Definition time_index_insert (e : TsEntry) (idx : TimeIndex) (file : bytes) : bytes * option TimeIndex :=
  (file ++ frame (bc_serialize e), apply_insert e true idx).

End File.

(** ** The database *)

Section Database.
  Context {bc : Bincode TsEntry} {js : Json}.

(** The [i64] and the [f64] of a stored cell. *)
Definition decode_i64 (b : bytes) : option Z := from_utf8 b ≫= parse_i64.
Definition decode_f64 (b : bytes) : option Z := from_utf8 b ≫= parse_float.

(** The entry of a row, when both of its columns are numbers. *)
Definition entry_of_row (key value : bytes) (ts_idx val_idx : nat) : option TsEntry :=
  match decode_column value ts_idx, decode_column value val_idx with
  | Some t, Some v => match decode_i64 t, decode_f64 v with Some t, Some v => Some (mkTsEntry key t v) | _, _ => None end
  | _, _ => None
  end.

(** The rows of a table into a new index. *)
Fixpoint backfill_time (rows : list KeyValue) (ts_idx val_idx : nat) (idx : TimeIndex) (file : bytes) : bytes * option TimeIndex :=
  match rows with
  | [] => (file, Some idx)
  | kv :: rows' =>
      match entry_of_row (kv_key kv) (kv_value kv) ts_idx val_idx with
      | None => backfill_time rows' ts_idx val_idx idx file
      | Some e => match time_index_insert e idx file with (file, Some idx) => backfill_time rows' ts_idx val_idx idx file | r => r end
      end
  end.

(** [create_time_index] on the index's file, the columns of the table and the
    scan of its rows: the file behind it and the index. *)
Definition create_time_index (role : NodeRole) (file : option bytes) (columns : option (list string)) (rows : Result (list KeyValue))
    (column value_column : string) (policy : TimeBucketPolicy) : option (option bytes * Result TimeIndex) :=
  match role with
  | Reader => Some (file, Err "this node is a read-only replica; send writes to the writer node"%string)
  | Writer =>
      match time_index_open file policy value_column with
      | None => None
      | Some (file, Err e) => Some (Some file, Err e)
      | Some (file, Ok idx) =>
          match (let? columns := ok_or columns "table does not exist" in
                 let? ts_idx := column_position column columns in
                 let? val_idx := column_position value_column columns in
                 let? rows := rows in Ok (ts_idx, val_idx, rows)) with
          | Err e => Some (Some file, Err e)
          | Ok (ts_idx, val_idx, rows) =>
              match backfill_time rows ts_idx val_idx idx file with
              | (file, Some idx) => Some (Some file, Ok idx)
              | (_, None) => None
              end
          end
      end
  end.

(** The part of [maintain_indexes_on_write] for a time index: a row that is
    written goes into the index when both of its columns are numbers. *)
Definition maintain_time (key value : bytes) (columns : list string) (column value_column : string) (idx : TimeIndex) (file : bytes) : bytes * option TimeIndex :=
  match position column columns, position value_column columns with
  | Some ts_pos, Some val_pos =>
      match entry_of_row key value ts_pos val_pos with
      | None => (file, Some idx)
      | Some e => time_index_insert e idx file
      end
  | _, _ => (file, Some idx)
  end.

(** [time_range_query] over the keys of the index: the rows that can be read. *)
Definition time_range_rows (read : bytes -> Result (option bytes)) (t0 t1 : Z) (idx : TimeIndex) : option (list KeyValue) :=
  match query_range t0 t1 idx with
  | None => None
  | Some keys => Some (concat (map (fun k => match read k with Ok (Some v) => [mkKeyValue k v] | _ => [] end) keys))
  end.

End Database.

(** ** The index as a list of entries *)

Section Refinement.
  Context (g : Z) (retention : option Z).

(** Times whose bucket and cutoff are 64-bit integers, and values that are bits. *)
Definition sample_fits (e : TsEntry) : Prop :=
  0 < g /\ match retention with Some r => 0 <= r | None => True end
  /\ - 2 ^ 63 + g + default 0 retention <= te_ts e /\ te_ts e + g < 2 ^ 63 /\ is_u64 (te_value e).

Definition start_of (ts : Z) : Z := ts / g * g.

(** An entry stays while the end of its bucket is after the cutoff. *)
Definition stays (newest : Z) (e : TsEntry) : bool :=
  match retention with None => true | Some r => negb (start_of (te_ts e) + g <=? newest - r) end.

(** What an insertion leaves of the entries: the newest time, the entries kept,
    all the entries. *)
Record Entries := mkEntries { en_newest : Z; en_kept : list TsEntry; en_all : list TsEntry }.

Definition no_entries : Entries := mkEntries I64_LEAST [] [].

Definition insert_entry (evict : bool) (s : Entries) (e : TsEntry) : Entries :=
  let newest := Z.max (en_newest s) (te_ts e) in
  let kept := en_kept s ++ [e] in
  mkEntries newest (if evict then List.filter (stays newest) kept else kept) (en_all s ++ [e]).

(** The entries of the bucket that starts at [s]. *)
Definition at_start (s : Z) (l : list TsEntry) : list TsEntry := List.filter (fun e => start_of (te_ts e) =? s) l.

Definition bucket_entries (b : Bucket) : list TsEntry :=
  match bk_state b with Open entries => entries | Sealed series => map ts_entry_of (decompress series) | Downsampled => [] end.

Definition rollup_of (l : list TsEntry) : Rollup := fold_left rollup_add (map te_value l) rollup_new.

Record refines (idx : TimeIndex) (s : Entries) : Prop := {
  rf_policy : ti_policy idx = mkTimeBucketPolicy g retention;
  rf_newest : ti_newest_ts idx = en_newest s;
  rf_sorted : om_sorted (ti_buckets idx);
  rf_bound : en_newest s + g < 2 ^ 63;
  rf_kept e : In e (en_kept s) -> In e (en_all s);
  rf_less : (length (en_kept s) <= length (en_all s))%nat;
  rf_ok : Forall sample_fits (en_all s);
  rf_few : zlen (en_all s) < 2 ^ 32;
  rf_bucket k : match om_get k (ti_buckets idx) with
                | Some b => Permutation (bucket_entries b) (at_start k (en_kept s)) /\ bk_rollup b = rollup_of (at_start k (en_all s))
                | None => at_start k (en_all s) = []
                end;
}.

Lemma bucket_start_ok (ts : Z) : 0 < g -> - 2 ^ 63 + g <= ts -> ts < 2 ^ 63 -> bucket_start ts g = Some (start_of ts).
Proof.
  intros Hg Hlo Hhi. unfold bucket_start, start_of. rewrite (proj2 (Z.eqb_neq g 0)), (proj2 (Z.eqb_neq g (-1))) by lia. rewrite andb_false_r. cbn [orb].
  rewrite Z.sgn_pos, Z.abs_eq, Z.mul_1_l by lia. rewrite i64_wrap_id; [done|]. pose proof (Z.mul_div_le ts g Hg). pose proof (Z.mul_succ_div_gt ts g Hg). unfold is_i64. nia.
Qed.

Lemma start_of_range (ts : Z) : 0 < g -> start_of ts <= ts < start_of ts + g.
Proof. intros Hg. unfold start_of. pose proof (Z.mul_div_le ts g Hg). pose proof (Z.mul_succ_div_gt ts g Hg). nia. Qed.

(** Starts are multiples: the one after another is at least a span after it. *)
Lemma start_of_next (a b : Z) : 0 < g -> start_of a < start_of b -> start_of a + g <= start_of b.
Proof. intros Hg. unfold start_of. generalize (a / g) (b / g). intros x y H. assert (x < y) by nia. nia. Qed.

(** *** Sealing *)

Lemma combine_maps {A B C : Type} (f : A -> B) (h : A -> C) (l : list A) : combine (map f l) (map h l) = map (fun x => (f x, h x)) l.
Proof. induction l as [|x l IH]; [done|]. cbn. by rewrite IH. Qed.

Lemma decompress_compress (l : list TsEntry) :
  Forall sample_fits l -> zlen l < 2 ^ 32 -> map ts_entry_of (decompress (compress_entries l)) = stable_sort by_ts l.
Proof.
  intros Hok Hlen. set (sorted := stable_sort by_ts l). assert (Forall sample_fits sorted) as Hs.
  { apply Forall_forall. intros e He. rewrite Forall_forall in Hok. apply Hok, list_elem_of_In, (stable_sort_in by_ts). by apply list_elem_of_In. }
  assert (zlen sorted = zlen l) as Hl by (unfold zlen, sorted; by rewrite (Permutation_length (stable_sort_perm by_ts l))).
  unfold decompress, compress_entries. fold sorted. cbn [cs_ts_deltas cs_values cs_row_keys].
  rewrite delta_delta_roundtrip, gorilla_roundtrip.
  - rewrite !combine_maps, map_map. rewrite <- (map_id sorted) at 2. apply map_ext. by intros [].
  - apply Forall_fmap. eapply Forall_impl; [exact Hs|]. intros e (_ & _ & _ & _ & H). exact H.
  - unfold is_u32, zlen in *. rewrite length_map. pose proof (zlen_nonneg l). unfold zlen in *. lia.
  - apply Forall_fmap. eapply Forall_impl; [exact Hs|]. intros e (Hg & Hr & H1 & H2 & _). unfold is_i64. cbn. destruct retention; cbn in *; lia.
  - unfold is_u64, zlen in *. rewrite length_map. lia.
Qed.

(** *** Buckets in order *)

Lemma om_get_map {V : Type} (f : Z * V -> Z * V) (k : Z) (l : list (Z * V)) :
  (forall p, fst (f p) = fst p) -> om_get k (map f l) = (fun v => snd (f (k, v))) <$> om_get k l.
Proof.
  intros Hf. induction l as [|[k' v] l IH]; [done|]. cbn [map om_get]. destruct (f (k', v)) as [k'' v''] eqn:E. pose proof (Hf (k', v)) as H. rewrite E in H. cbn in H. subst k''.
  destruct (keqb k k') eqn:Ek; [|exact IH]. apply keqb_true in Ek as ->. cbn. by rewrite E.
Qed.

Lemma om_sorted_map {V : Type} (f : Z * V -> Z * V) (l : list (Z * V)) : (forall p, fst (f p) = fst p) -> om_sorted l -> om_sorted (map f l).
Proof.
  intros Hf Hl. induction Hl as [|p l _ IH Hall]; [constructor|]. cbn. constructor; [done|]. apply Forall_fmap. eapply Forall_impl; [exact Hall|]. cbn. intros q. by rewrite !Hf.
Qed.

(** *** Insertion *)

Lemma at_start_app k l l' : at_start k (l ++ l') = at_start k l ++ at_start k l'.
Proof. apply List.filter_app. Qed.

Lemma at_start_one k e : at_start k [e] = if start_of (te_ts e) =? k then [e] else [].
Proof. done. Qed.

Lemma at_start_nil k l : at_start k l = [] <-> forall e, In e l -> start_of (te_ts e) <> k.
Proof.
  unfold at_start. split.
  - intros H e He Hk. assert (In e []) as []. rewrite <- H. apply filter_In. split; [done | by apply Z.eqb_eq].
  - induction l as [|e l IH]; intros H; [done|]. cbn. rewrite (proj2 (Z.eqb_neq _ _) (H e (or_introl eq_refl))). apply IH. intros; apply H. by right.
Qed.

(** What holds of the buckets and the entries, whatever the order in a bucket. *)
Definition buckets_hold (buckets : list (Z * Bucket)) (kept all : list TsEntry) : Prop :=
  forall k, match om_get k buckets with
            | Some b => Permutation (bucket_entries b) (at_start k kept) /\ bk_rollup b = rollup_of (at_start k all)
            | None => at_start k all = []
            end.

Lemma push_entry_entries e b r : bucket_entries (mkBucket r (push_entry e (bk_state b))) = bucket_entries b ++ [e].
Proof. unfold bucket_entries. by destruct (bk_state b). Qed.

Lemma rollup_of_snoc l e : rollup_of (l ++ [e]) = rollup_add (rollup_of l) (te_value e).
Proof. unfold rollup_of. rewrite map_app, fold_left_app. done. Qed.

Lemma insert_holds buckets kept all e :
  om_sorted buckets -> (forall x, In x kept -> In x all) -> buckets_hold buckets kept all ->
  let start := start_of (te_ts e) in
  let b := default (mkBucket rollup_new (Open [])) (om_get start buckets) in
  buckets_hold (om_insert start (mkBucket (rollup_add (bk_rollup b) (te_value e)) (push_entry e (bk_state b))) buckets) (kept ++ [e]) (all ++ [e]).
Proof.
  intros Hs Hsub H start b k. rewrite om_get_insert by done. destruct (keqb k start) eqn:Ek.
  - apply keqb_true in Ek as ->. rewrite push_entry_entries. cbn [bk_rollup]. rewrite !at_start_app, !at_start_one. unfold start at 2 4. rewrite Z.eqb_refl. rewrite rollup_of_snoc.
    specialize (H start). unfold b. destruct (om_get start buckets) as [b0|]; cbn [default from_option id].
    + destruct H as [Hp ->]. split; [by apply Permutation_app_tail | done].
    + assert (at_start start kept = []) as -> by (apply at_start_nil; intros x Hx; rewrite at_start_nil in H; by apply H, Hsub). rewrite H. by split.
  - apply keqb_false in Ek. specialize (H k). rewrite !at_start_app, !at_start_one. rewrite (proj2 (Z.eqb_neq (start_of (te_ts e)) k)) by (intros <-; by apply Ek). by rewrite !app_nil_r.
Qed.

Lemma seal_keeps_key newest p : fst (seal_bucket newest p) = fst p.
Proof. unfold seal_bucket. destruct (_ =? _); [done|]. by destruct (bk_state (snd p)). Qed.

Lemma seal_holds newest buckets kept all :
  Forall sample_fits all -> zlen all < 2 ^ 32 -> (length kept <= length all)%nat -> (forall x, In x kept -> In x all) ->
  buckets_hold buckets kept all -> buckets_hold (map (seal_bucket newest) buckets) kept all.
Proof.
  intros Hok Hfew Hless Hsub H k. rewrite om_get_map by apply seal_keeps_key. specialize (H k). destruct (om_get k buckets) as [b|]; cbn [fmap option_fmap option_map]; [|done].
  unfold seal_bucket. cbn [fst snd]. destruct (k =? newest); [done|]. destruct (bk_state b) as [es|series|] eqn:Eb; cbn [snd]; [|done..].
  destruct H as [Hp Hr]. split; [|done]. unfold bucket_entries in *. rewrite Eb in Hp. cbn [bk_state]. rewrite decompress_compress.
  - etransitivity; [symmetry; apply stable_sort_perm | done].
  - apply Forall_forall. intros x Hx. rewrite Forall_forall in Hok. apply Hok, list_elem_of_In, Hsub. apply list_elem_of_In in Hx. apply (Permutation_in _ Hp) in Hx. by apply filter_In in Hx as [Hx _].
  - unfold zlen in *. rewrite (Permutation_length Hp). pose proof (List.filter_length_le (fun e => start_of (te_ts e) =? k) kept). unfold at_start. lia.
Qed.

Lemma evict_keeps_key cutoff p : fst (evict_bucket cutoff g p) = fst p.
Proof. unfold evict_bucket. by destruct (_ <=? _). Qed.

Lemma at_start_stays newest r k l : retention = Some r ->
  at_start k (List.filter (stays newest) l) = if k + g <=? newest - r then [] else at_start k l.
Proof.
  intros Hr. unfold at_start, stays. rewrite Hr. induction l as [|e l IH]; [by destruct (_ <=? _)|]. cbn [List.filter].
  destruct (start_of (te_ts e) =? k) eqn:Ek.
  - apply Z.eqb_eq in Ek as Ek'. rewrite Ek'. destruct (k + g <=? newest - r) eqn:Ec; cbn [negb List.filter]; [done|]. rewrite Ek. by rewrite IH.
  - destruct (negb _); cbn [List.filter]; [rewrite Ek|]; exact IH.
Qed.

Lemma evict_holds newest r buckets kept all :
  retention = Some r -> is_i64 (newest - r) -> Forall sample_fits all -> (forall x, In x kept -> In x all) ->
  buckets_hold buckets kept all -> buckets_hold (map (evict_bucket (i64_wrap (newest - r)) g) buckets) (List.filter (stays newest) kept) all.
Proof.
  intros Hr Hcut Hok Hsub H k. rewrite om_get_map by (intros; apply evict_keeps_key). specialize (H k). destruct (om_get k buckets) as [b|]; cbn [fmap option_fmap option_map]; [|done].
  destruct H as [Hp Hroll]. rewrite (at_start_stays newest r) by done. unfold evict_bucket. cbn [fst snd]. rewrite (i64_wrap_id (newest - r)) by done.
  destruct (at_start k kept) as [|e0 l0] eqn:Ek.
  - apply Permutation_sym, Permutation_nil in Hp. destruct (i64_wrap (k + g) <=? newest - r), (k + g <=? newest - r); cbn [snd]; rewrite ?Hp; done.
  - assert (In e0 (at_start k kept)) as Hin by (rewrite Ek; by left). apply filter_In in Hin as [Hin Hst]. apply Z.eqb_eq in Hst.
    apply Hsub in Hin. rewrite Forall_forall in Hok. apply list_elem_of_In in Hin. destruct (Hok e0 Hin) as (Hg & H0 & H1 & H2 & _).
    pose proof (start_of_range (te_ts e0) Hg) as Hrng. rewrite Hst in Hrng. rewrite i64_wrap_id by (unfold is_i64, default in *; rewrite Hr in *; cbn in *; lia).
    destruct (k + g <=? newest - r); cbn [snd]; done.
Qed.

Lemma insert_refines evict e idx s :
  refines idx s -> sample_fits e -> zlen (en_all s) + 1 < 2 ^ 32 -> exists idx', apply_insert e evict idx = Some idx' /\ refines idx' (insert_entry evict s e).
Proof.
  intros [Hpol Hnew Hsort Hbound Hkept Hless Hok Hfew Hb] He Hmore. pose proof He as (Hg & Hr & H1 & H2 & _). unfold apply_insert. rewrite Hpol. cbn [tp_granularity_ms].
  rewrite bucket_start_ok by (destruct retention; cbn in *; lia). cbn [mbind option_bind].
  set (idx1 := if ti_newest_ts idx <? te_ts e then set_newest (te_ts e) idx else idx).
  set (newest := Z.max (en_newest s) (te_ts e)).
  assert (ti_newest_ts idx1 = newest /\ ti_policy idx1 = mkTimeBucketPolicy g retention /\ ti_buckets idx1 = ti_buckets idx) as (En & Ep & Eb).
  { unfold idx1, newest. rewrite Hnew. destruct (Z.ltb_spec (en_newest s) (te_ts e)); cbn; rewrite ?Hnew; split_and!; try done; lia. }
  pose proof (insert_holds (ti_buckets idx) (en_kept s) (en_all s) e Hsort Hkept Hb) as Hins. cbn zeta in Hins. rewrite Eb.
  set (buckets := om_insert _ _ (ti_buckets idx)) in *. unfold seal_non_newest_buckets. cbn [set_buckets ti_newest_ts ti_policy]. rewrite En, Ep. cbn [tp_granularity_ms].
  rewrite bucket_start_ok by (unfold newest; destruct retention; cbn in *; lia). cbn [mbind option_bind]. eexists. split; [reflexivity|].
  assert (Forall sample_fits (en_all s ++ [e])) as Hok' by (apply Forall_app_2; [done | by apply Forall_singleton]).
  assert (zlen (en_all s ++ [e]) < 2 ^ 32) as Hfew' by (rewrite zlen_app; change (zlen [e]) with 1; lia).
  assert (length (en_kept s ++ [e]) <= length (en_all s ++ [e]))%nat as Hless' by (rewrite !length_app; cbn; lia).
  assert (forall x, In x (en_kept s ++ [e]) -> In x (en_all s ++ [e])) as Hkept' by (intros x; rewrite !in_app_iff; intros [H|H]; auto).
  assert (om_sorted buckets) as Hs1 by by apply om_insert_sorted.
  pose proof (seal_holds (start_of newest) buckets _ _ Hok' Hfew' Hless' Hkept' Hins) as Hseal.
  set (sealed := map (seal_bucket (start_of newest)) buckets) in *. assert (om_sorted sealed) as Hs2 by (apply om_sorted_map; [intros; apply seal_keeps_key | done]).
  assert (newest + g < 2 ^ 63) as Hnb by (unfold newest; lia).
  destruct evict; [|split; cbn; try done; rewrite ?En; done].
  unfold apply_retention_to. cbn [set_buckets ti_policy ti_newest_ts ti_buckets]. rewrite Ep, En. cbn [tp_retention_ms tp_granularity_ms]. destruct retention as [r|] eqn:Er.
  - split; cbn [set_buckets ti_policy ti_newest_ts ti_buckets en_newest en_kept en_all insert_entry]; try done; try (by rewrite Ep, ?Er); try exact En.
    + apply om_sorted_map; [intros; apply evict_keeps_key | done].
    + intros x Hx. apply filter_In in Hx as [Hx _]. by apply Hkept'.
    + pose proof (List.filter_length_le (stays newest) (en_kept s ++ [e])). fold newest. lia.
    + fold newest. refine (evict_holds newest r sealed _ _ _ _ _ _ _); try done. unfold is_i64. cbn in *. lia.
  - assert (forall l, List.filter (stays newest) l = l) as Hall by (intros l; unfold stays; rewrite Er; induction l as [|x l IH]; cbn; congruence).
    split; cbn [set_buckets ti_policy ti_newest_ts ti_buckets en_newest en_kept en_all insert_entry]; fold newest; rewrite ?Hall; try done; try (by rewrite Ep, ?Er); try exact En.
Qed.

Lemma new_refines column : 0 < g -> - 2 ^ 63 + g < 2 ^ 63 -> refines (time_index_new (mkTimeBucketPolicy g retention) column) no_entries.
Proof. intros Hg H. split; try done. constructor. Qed.

Definition inserts (evict : bool) (es : list TsEntry) (idx : TimeIndex) : option TimeIndex := foldl (fun i e => i ≫= apply_insert e evict) (Some idx) es.

Lemma inserts_refine evict es idx s :
  refines idx s -> Forall sample_fits es -> zlen (en_all s) + zlen es < 2 ^ 32 ->
  exists idx', inserts evict es idx = Some idx' /\ refines idx' (foldl (insert_entry evict) s es).
Proof.
  intros Hr Hes. revert idx s Hr. induction Hes as [|e es He _ IH]; intros idx s Hr Hlen; [by exists idx|]. rewrite zlen_cons in Hlen. pose proof (zlen_nonneg es).
  destruct (insert_refines evict e idx s Hr He ltac:(lia)) as (idx1 & E1 & Hr1). unfold inserts. cbn [foldl mbind option_bind]. rewrite E1.
  apply (IH idx1); [done|]. cbn. rewrite zlen_app. change (zlen [e]) with 1. lia.
Qed.

(** *** Which entries are kept *)

Definition newest_of_entries (es : list TsEntry) : Z := foldl (fun n e => Z.max n (te_ts e)) I64_LEAST es.

Lemma stays_antitone n n' e : n <= n' -> stays n' e = true -> stays n e = true.
Proof. unfold stays. destruct retention; [|done]. rewrite !negb_true_iff, !Z.leb_gt. lia. Qed.

Lemma filter_stays_twice n n' l : n <= n' -> List.filter (stays n') (List.filter (stays n) l) = List.filter (stays n') l.
Proof.
  intros Hn. induction l as [|e l IH]; [done|]. cbn [List.filter]. destruct (stays n e) eqn:E; cbn [List.filter]; [by rewrite IH|].
  destruct (stays n' e) eqn:E'; [|done]. apply (stays_antitone n) in E'; [congruence | done].
Qed.

Lemma entries_kept evict es :
  foldl (insert_entry evict) no_entries es
  = mkEntries (newest_of_entries es) (if evict then List.filter (stays (newest_of_entries es)) es else es) es.
Proof.
  induction es as [|e es IH] using rev_ind; [by destruct evict|]. rewrite foldl_snoc, IH. unfold insert_entry, newest_of_entries. rewrite foldl_snoc. cbn [en_newest en_kept en_all].
  destruct evict; [|done]. f_equal. rewrite !List.filter_app. by rewrite filter_stays_twice by lia.
Qed.

(** *** Queries *)

Definition start_in (lo t1 : Z) (p : Z * Bucket) : bool := (lo <=? fst p) && (fst p <=? t1).

Lemma buckets_in_filter lo t1 l : om_sorted l -> buckets_in lo t1 l = List.filter (start_in lo t1) l.
Proof.
  intros Hl. induction Hl as [|p l _ IH Hall]; [done|]. cbn [buckets_in List.filter]. unfold start_in at 1. rewrite IH.
  destruct (Z.ltb_spec (fst p) lo); [by rewrite (proj2 (Z.leb_gt lo (fst p)))|]. rewrite (proj2 (Z.leb_le lo (fst p))) by lia. cbn [andb].
  destruct (Z.ltb_spec t1 (fst p)); [|by rewrite (proj2 (Z.leb_le (fst p) t1))]. rewrite (proj2 (Z.leb_gt (fst p) t1)) by lia. symmetry.
  clear IH. induction Hall as [|q l Hq _ IHl]; [done|]. cbn. apply (proj1 (Z_lt_cmp _ _)) in Hq. unfold start_in. rewrite (proj2 (Z.leb_gt (fst q) t1)) by lia. by rewrite andb_false_r.
Qed.

Lemma filter_comm {A : Type} (p q : A -> bool) l : List.filter p (List.filter q l) = List.filter q (List.filter p l).
Proof. induction l as [|x l IH]; [done|]. cbn. destruct (q x) eqn:Eq, (p x) eqn:Ep; cbn; rewrite ?Ep, ?Eq, ?IH; done. Qed.

Lemma filter_halves {A : Type} (p : A -> bool) l : Permutation (List.filter p l ++ List.filter (fun x => negb (p x)) l) l.
Proof.
  induction l as [|x l IH]; [done|]. cbn. destruct (p x); cbn; [by constructor|]. etransitivity; [symmetry; apply Permutation_middle | by constructor].
Qed.

(** Entries are those of their starts. *)
Lemma starts_partition ks l : NoDup ks -> (forall e, In e l -> In (start_of (te_ts e)) ks) -> Permutation (concat (map (fun k => at_start k l) ks)) l.
Proof.
  intros Hnd. revert l. induction Hnd as [|k ks Hk _ IH]; intros l Hin; cbn [map concat].
  - destruct l as [|e l]; [done|]. destruct (Hin e). by left.
  - etransitivity; [|apply (filter_halves (fun e => start_of (te_ts e) =? k) l)]. apply Permutation_app_head.
    rewrite <- (IH (List.filter (fun e => negb (start_of (te_ts e) =? k)) l)).
    + apply reflexive_eq. f_equal. apply map_ext_in. intros k' Hk'. unfold at_start. rewrite filter_comm. assert (k' <> k) as Hne by (intros ->; apply Hk, list_elem_of_In, Hk').
      clear IH Hin. induction l as [|e l IHl]; [done|]. cbn. destruct (Z.eqb_spec (start_of (te_ts e)) k'); cbn; [|exact IHl]. rewrite (proj2 (Z.eqb_neq _ _)) by congruence. cbn. f_equal. exact IHl.
    + intros e He. apply filter_In in He as [He Hne]. destruct (Hin e He) as [Hk0|]; [|done]. cbn in Hne. by rewrite <- Hk0, Z.eqb_refl in Hne.
Qed.

Lemma bucket_hits_entries t0 t1 b : bucket_hits t0 t1 b = map te_row_key (List.filter (fun e => in_span t0 t1 (te_ts e)) (bucket_entries b)).
Proof.
  unfold bucket_hits, bucket_entries. destruct (bk_state b) as [es|series|]; [done| |done]. induction (decompress series) as [|p l IH]; [done|]. cbn [List.filter map].
  cbn [ts_entry_of te_ts]. destruct (in_span t0 t1 (fst (fst p))); cbn [map te_row_key ts_entry_of]; by rewrite IH.
Qed.

(** An entry has its bucket. *)
Lemma entry_bucket idx s e : refines idx s -> In e (en_all s) -> exists b, In (start_of (te_ts e), b) (ti_buckets idx).
Proof.
  intros H He. pose proof (rf_bucket _ _ H (start_of (te_ts e))) as Hb. destruct (om_get (start_of (te_ts e)) (ti_buckets idx)) as [b|] eqn:E.
  - exists b. by apply om_get_Some_In.
  - rewrite at_start_nil in Hb. by destruct (Hb e He).
Qed.

Lemma bucket_keys_NoDup (f : Z * Bucket -> bool) (l : list (Z * Bucket)) : om_sorted l -> NoDup (map fst (List.filter f l)).
Proof.
  intros Hl. induction Hl as [|p l _ IH Hall]; [constructor|]. cbn [List.filter]. destruct (f p); [|done]. cbn [map]. constructor; [|done].
  intros Hin. apply list_elem_of_In, in_map_iff in Hin as (q & Hq & Hin). apply filter_In in Hin as [Hin _]. rewrite Forall_forall in Hall.
  apply list_elem_of_In, Hall, (proj1 (Z_lt_cmp _ _)) in Hin. lia.
Qed.

Lemma query_range_refines idx s t0 t1 :
  0 < g -> refines idx s -> - 2 ^ 63 + g <= t0 < 2 ^ 63 ->
  exists keys, query_range t0 t1 idx = Some keys /\ Permutation keys (map te_row_key (List.filter (fun e => in_span t0 t1 (te_ts e)) (en_kept s))).
Proof.
  intros Hg H Ht0. unfold query_range. rewrite (rf_policy _ _ H). cbn [tp_granularity_ms]. rewrite bucket_start_ok by lia. cbn [mbind option_bind]. eexists. split; [reflexivity|].
  rewrite buckets_in_filter by apply (rf_sorted _ _ H). set (P := fun e => in_span t0 t1 (te_ts e)). set (bs := List.filter _ (ti_buckets idx)).
  rewrite <- (starts_partition (map fst bs) (List.filter P (en_kept s))).
  - rewrite map_map, concat_map, map_map. assert (forall p, In p bs -> In p (ti_buckets idx)) as Hbs by (intros p Hp; by apply filter_In in Hp as [Hp _]).
    induction bs as [|p bs IH]; [done|]. cbn [map concat]. apply Permutation_app; [|apply IH; intros; apply Hbs; by right].
    rewrite bucket_hits_entries. unfold at_start. rewrite filter_comm. apply Permutation_map. fold (at_start (fst p) (en_kept s)).
    pose proof (rf_bucket _ _ H (fst p)) as Hb. rewrite (om_get_In (fst p) (snd p)) in Hb; [|apply (rf_sorted _ _ H) | rewrite <- surjective_pairing; apply Hbs; by left].
    destruct Hb as [Hb _]. clear -Hb. fold P. induction Hb; cbn; [done | destruct (P x); [by constructor | done] | destruct (P x), (P y); try done; apply perm_swap | etransitivity; eassumption].
  - apply bucket_keys_NoDup, (rf_sorted _ _ H).
  - intros e He. apply filter_In in He as [He Hp]. unfold P, in_span in Hp. apply andb_prop in Hp as [H1%Z.leb_le H2%Z.leb_le].
    destruct (entry_bucket idx s e H (rf_kept _ _ H e He)) as (b & Hb). apply in_map_iff. exists (start_of (te_ts e), b). split; [done|]. apply filter_In. split; [done|].
    unfold start_in. cbn [fst]. pose proof (start_of_range (te_ts e) Hg). apply andb_true_intro. rewrite !Z.leb_le. split; [|lia].
    unfold start_of. apply Z.mul_le_mono_nonneg_r; [lia|]. by apply Z.div_le_mono.
Qed.

Lemma query_rollups_refines idx s t0 t1 :
  0 < g -> refines idx s -> - 2 ^ 63 + g <= t0 < 2 ^ 63 ->
  exists rs, query_rollups t0 t1 idx = Some rs /\ NoDup (map fst rs)
    /\ (forall k r, In (k, r) rs -> r = rollup_of (at_start k (en_all s)))
    /\ (forall e, In e (en_all s) -> start_of t0 <= start_of (te_ts e) <= t1 -> In (start_of (te_ts e)) (map fst rs)).
Proof.
  intros Hg H Ht0. unfold query_rollups. rewrite (rf_policy _ _ H). cbn [tp_granularity_ms]. rewrite bucket_start_ok by lia. cbn [mbind option_bind]. eexists. split; [reflexivity|].
  rewrite buckets_in_filter by apply (rf_sorted _ _ H). rewrite map_map. cbn [fst]. split; [apply bucket_keys_NoDup, (rf_sorted _ _ H)|]. split.
  - intros k r Hin. apply in_map_iff in Hin as (p & [= <- <-] & Hp). apply filter_In in Hp as [Hp _]. pose proof (rf_bucket _ _ H (fst p)) as Hb.
    rewrite (om_get_In (fst p) (snd p)) in Hb; [by destruct Hb | apply (rf_sorted _ _ H) | by rewrite <- surjective_pairing].
  - intros e He Hspan. destruct (entry_bucket idx s e H He) as (b & Hb). apply in_map_iff. exists (start_of (te_ts e), b). split; [done|].
    apply filter_In. split; [done|]. unfold start_in. cbn [fst]. apply andb_true_intro. rewrite !Z.leb_le. lia.
Qed.

(** *** The file *)

Section Written.
  Context {bc : Bincode TsEntry} {laws : BincodeLaws TsEntry}.

(** A new index and its file, after insertions. *)
Fixpoint insert_all (es : list TsEntry) (idx : TimeIndex) (file : bytes) : bytes * option TimeIndex :=
  match es with
  | [] => (file, Some idx)
  | e :: es' => match time_index_insert e idx file with (file, Some idx) => insert_all es' idx file | r => r end
  end.

Definition entry_frame_ok (e : TsEntry) : Prop := bc_in_range e /\ zlen (bc_serialize e) < 2 ^ 32.

Lemma inserts_None evict es : foldl (fun i e => i ≫= apply_insert e evict) None es = None.
Proof. by induction es. Qed.

Lemma written_file es idx file idx' : inserts true es idx = Some idx' -> insert_all es idx file = (file ++ frames es, Some idx').
Proof.
  revert idx file. unfold inserts. induction es as [|e es IH]; intros idx file; cbn [foldl insert_all mbind option_bind]; [intros [= <-]; cbn; by rewrite app_nil_r|].
  unfold time_index_insert. destruct (apply_insert e true idx) as [idx1|]; [|by rewrite inserts_None]. intros H. rewrite (IH idx1 _ H).
  change (frames (e :: es)) with (frame (bc_serialize e) ++ frames es). by rewrite app_assoc.
Qed.

Lemma replay_inserts es idx idx' fuel :
  Forall entry_frame_ok es -> (length es < fuel)%nat -> inserts false es idx = Some idx' -> replay_entries fuel (frames es) idx = Some (Ok idx').
Proof.
  intros Hes. revert idx fuel. unfold inserts. induction Hes as [|e es [Hr Hl] _ IH]; intros idx [|fuel] Hf; try (cbn in Hf; lia); cbn [foldl replay_entries mbind option_bind]; [by intros [= <-]|].
  change (frames (e :: es)) with (frame (bc_serialize e) ++ frames es). rewrite read_frame_frame, bc_roundtrip by done.
  destruct (apply_insert e false idx) as [idx1|]; [|by rewrite inserts_None]. apply IH. cbn in Hf. lia.
Qed.

Lemma read_header_exact_app (n : Z) (b rest : bytes) : zlen b = n -> read_header_exact n (b ++ rest) = Ok (b, rest).
Proof.
  intros Hb. unfold read_header_exact. pose proof (zlen_nonneg rest). rewrite zlen_app, (proj2 (Z.ltb_ge _ n)) by lia.
  by rewrite take_app_length', drop_app_length' by (unfold zlen in Hb; lia).
Qed.

(** The policy and the column of an index are read back from its file. *)
Lemma time_header_roundtrip column rest :
  is_i64 g -> match retention with Some r => 0 <= r < 2 ^ 63 | None => True end -> is_string column -> zlen (as_bytes column) < 2 ^ 16 ->
  read_time_header (time_header (time_index_new (mkTimeBucketPolicy g retention) column) ++ rest) = Ok (time_index_new (mkTimeBucketPolicy g retention) column, rest).
Proof.
  intros Hg Hr Hcol Hlen. unfold read_time_header, time_header. cbn [ti_policy ti_value_column tp_granularity_ms tp_retention_ms time_index_new].
  assert (forall z, length (i64_to_be z) = 8%nat) as H8 by (intros z; apply length_to_be). rewrite (app_assoc (i64_to_be g)), <- !app_assoc, (app_assoc (i64_to_be g)).
  rewrite read_header_exact_app by (unfold zlen; rewrite length_app, !H8; done). cbv beta iota.
  rewrite (take_app_length' _ _ 8), (drop_app_length' _ _ 8) by (by rewrite H8). rewrite !i64_be_roundtrip by (done || (destruct retention; cbn; unfold is_i64; lia)).
  rewrite read_header_exact_app by (unfold zlen; by rewrite length_to_be). cbv beta iota. pose proof (zlen_nonneg (as_bytes column)).
  rewrite from_to_be, !Z.mod_small by (rewrite ?Z.mod_small; lia). rewrite read_header_exact_app by done. cbv beta iota. rewrite from_utf8_as_bytes by done. cbn [ok_or].
  destruct retention as [r|]; cbn [default from_option id]; [|done]. by rewrite (proj2 (Z.ltb_ge r 0)) by lia.
Qed.

End Written.
End Refinement.

(** ** What the index answers *)

Section Answers.
  Context (policy : TimeBucketPolicy) (column : string) (es : list TsEntry).

Abbreviation g := (tp_granularity_ms policy).
Abbreviation retention := (tp_retention_ms policy).

(** Samples that the machine integers can hold, and fewer than [2 ^ 32]. *)
Definition samples_ok : Prop := 0 < g < 2 ^ 63 /\ Forall (sample_fits g retention) es /\ zlen es < 2 ^ 32.

Definition in_reach (t0 : Z) : Prop := - 2 ^ 63 + g <= t0 < 2 ^ 63.

(** The row keys of the samples in a range, in the order of their insertion. *)
Definition keys_in (t0 t1 : Z) (p : TsEntry -> bool) : list bytes := map te_row_key (List.filter (fun e => in_span t0 t1 (te_ts e)) (List.filter p es)).

Lemma new_index_refines evict :
  samples_ok -> exists idx, inserts evict es (time_index_new policy column) = Some idx
    /\ refines g retention idx (mkEntries (newest_of_entries es) (if evict then List.filter (stays g retention (newest_of_entries es)) es else es) es).
Proof.
  intros (Hg & Hes & Hfew). destruct policy as [g0 r0]. cbn [tp_granularity_ms tp_retention_ms] in *. rewrite <- entries_kept.
  apply inserts_refine; [apply new_refines; lia | done | exact Hfew].
Qed.

(** C30. A range query returns the keys of the samples in the range, each as often
    as it was inserted, but for those whose bucket ended before the retention of
    the newest sample: whatever order they came in, and whichever buckets were
    sealed, compressed and opened again in between. *)
Theorem range_query_is_exact (t0 t1 : Z) :
  samples_ok -> in_reach t0 ->
  exists idx keys, inserts true es (time_index_new policy column) = Some idx /\ query_range t0 t1 idx = Some keys
    /\ Permutation keys (keys_in t0 t1 (stays g retention (newest_of_entries es))).
Proof.
  intros Hok Ht. destruct (new_index_refines true Hok) as (idx & Hi & Hr). exists idx.
  destruct (query_range_refines g retention idx _ t0 t1 (proj1 (proj1 Hok)) Hr Ht) as (keys & Hq & Hp). by exists keys.
Qed.

(** The rollup of a bucket is that of all the values that were ever inserted
    into it, in their order, evicted ones too, and every bucket has one. *)
Theorem rollups_cover_evicted_samples (t0 t1 : Z) :
  samples_ok -> in_reach t0 ->
  exists idx rs, inserts true es (time_index_new policy column) = Some idx /\ query_rollups t0 t1 idx = Some rs /\ NoDup (map fst rs)
    /\ (forall k r, In (k, r) rs -> r = rollup_of (at_start g k es))
    /\ (forall e, In e es -> start_of g t0 <= start_of g (te_ts e) <= t1 -> In (start_of g (te_ts e)) (map fst rs)).
Proof.
  intros Hok Ht. destruct (new_index_refines true Hok) as (idx & Hi & Hr). exists idx.
  destruct (query_rollups_refines g retention idx _ t0 t1 (proj1 (proj1 Hok)) Hr Ht) as (rs & Hq & Hn & H1 & H2). by exists rs.
Qed.

(** An index opened from the file that insertions left has the policy and the
    column it was created with, whatever the caller passes, and every sample
    again: those that the retention had evicted are found too. *)
Theorem reopened_index_has_every_sample {bc : Bincode TsEntry} {laws : BincodeLaws TsEntry} (policy' : TimeBucketPolicy) (column' : string) (t0 t1 : Z) :
  samples_ok -> match retention with Some r => 0 <= r < 2 ^ 63 | None => True end -> is_string column -> zlen (as_bytes column) < 2 ^ 16 ->
  Forall entry_frame_ok es -> in_reach t0 ->
  exists file idx keys,
    fst (insert_all es (time_index_new policy column) (time_header (time_index_new policy column))) = file
    /\ time_index_open (Some file) policy' column' = Some (file, Ok idx) /\ ti_policy idx = policy
    /\ query_range t0 t1 idx = Some keys /\ Permutation keys (keys_in t0 t1 (fun _ => true)).
Proof.
  intros Hok Hret Hcol Hlen Hrec Ht. destruct (new_index_refines true Hok) as (left & Hi & _). destruct (new_index_refines false Hok) as (idx & Hi' & Hr).
  rewrite (written_file es _ (time_header (time_index_new policy column)) left Hi). cbn [fst]. eexists. exists idx.
  destruct (query_range_refines g retention idx _ t0 t1 (proj1 (proj1 Hok)) Hr Ht) as (keys & Hq & Hp). exists keys. split; [reflexivity|].
  assert (policy = mkTimeBucketPolicy g retention) as Epol by by destruct policy.
  split_and!; [| by rewrite (rf_policy _ _ _ _ Hr), <- Epol | done|].
  - unfold time_index_open. assert (is_i64 g) as Hg by (unfold is_i64; destruct Hok as [? _]; lia).
    pose proof (time_header_roundtrip g retention column (frames es) Hg Hret Hcol Hlen) as Hh. rewrite <- Epol in Hh. rewrite Hh.
    rewrite (replay_inserts es _ idx) by (done || (pose proof (length_frames es); lia)). cbn [mbind option_bind]. done.
  - unfold keys_in. assert (List.filter (fun _ : TsEntry => true) es = es) as -> by (clear; induction es as [|e l IH]; cbn; congruence). done.
Qed.

End Answers.

(** ** Index scans and table scans *)

Section Scans.
  Context {bc : Bincode TsEntry} {js : Json}.

Definition entry_at (ts_idx val_idx : nat) (kv : KeyValue) : option TsEntry := entry_of_row (kv_key kv) (kv_value kv) ts_idx val_idx.

(** Backfilling inserts the entries of the rows that have one. *)
Lemma backfill_writes rows ts_idx val_idx idx file :
  backfill_time rows ts_idx val_idx idx file = insert_all (omap (entry_at ts_idx val_idx) rows) idx file.
Proof.
  revert idx file. induction rows as [|kv rows IH]; intros idx file; [done|]. cbn [backfill_time omap list_omap]. change (entry_of_row _ _ _ _) with (entry_at ts_idx val_idx kv).
  destruct (entry_at ts_idx val_idx kv) as [e|]; [|apply IH]. cbn [insert_all]. destruct (time_index_insert e idx file) as [file' [idx'|]]; [apply IH | done].
Qed.

Definition row_in_span (ts_idx val_idx : nat) (t0 t1 : Z) (kv : KeyValue) : bool :=
  match entry_at ts_idx val_idx kv with Some e => in_span t0 t1 (te_ts e) | None => false end.

Lemma entry_at_key ts_idx val_idx kv e : entry_at ts_idx val_idx kv = Some e -> te_row_key e = kv_key kv.
Proof.
  unfold entry_at, entry_of_row. destruct (decode_column _ ts_idx); [|done]. destruct (decode_column _ val_idx); [|done].
  destruct (decode_i64 _); [|done]. destruct (decode_f64 _); [|done]. by intros [= <-].
Qed.

Lemma keys_of_rows rows ts_idx val_idx t0 t1 :
  map te_row_key (List.filter (fun e => in_span t0 t1 (te_ts e)) (omap (entry_at ts_idx val_idx) rows)) = map kv_key (List.filter (row_in_span ts_idx val_idx t0 t1) rows).
Proof.
  induction rows as [|kv rows IH]; [done|]. cbn [omap list_omap List.filter]. unfold row_in_span at 1. destruct (entry_at ts_idx val_idx kv) as [e|] eqn:E; [|exact IH].
  cbn [List.filter]. destruct (in_span t0 t1 (te_ts e)); [|exact IH]. cbn [map]. rewrite (entry_at_key _ _ _ _ E). f_equal. exact IH.
Qed.

(** C31. A time index without retention that is created on a table answers a range
    as a scan of the table would: with the rows, each once, whose time is in the
    range and whose value column holds a number. *)
Theorem time_scan_is_a_table_scan (columns : list string) (rows : list KeyValue) (column value_column : string) (ts_idx val_idx : nat) (gran t0 t1 : Z) (read : bytes -> Result (option bytes)) :
  let policy := mkTimeBucketPolicy gran None in
  column_position column columns = Ok ts_idx -> column_position value_column columns = Ok val_idx ->
  samples_ok policy (omap (entry_at ts_idx val_idx) rows) -> in_reach policy t0 ->
  (forall kv, In kv rows -> read (kv_key kv) = Ok (Some (kv_value kv))) ->
  exists file idx hits, create_time_index Writer None (Some columns) (Ok rows) column value_column policy = Some (Some file, Ok idx)
    /\ time_range_rows read t0 t1 idx = Some hits
    /\ Permutation hits (List.filter (row_in_span ts_idx val_idx t0 t1) rows).
Proof.
  intros policy Hc Hv Hok Ht Hread. destruct (new_index_refines policy value_column _ true Hok) as (idx & Hi & Hr).
  destruct (query_range_refines gran None idx _ t0 t1 (proj1 (proj1 Hok)) Hr Ht) as (keys & Hq & Hp).
  eexists. exists idx. eexists. unfold create_time_index. cbn [time_index_open ok_or]. rewrite Hc, Hv, backfill_writes, (written_file _ _ _ idx Hi). split; [reflexivity|].
  unfold time_range_rows. rewrite Hq. split; [reflexivity|]. cbn [en_kept] in Hp.
  assert (forall l, List.filter (stays gran None (newest_of_entries (omap (entry_at ts_idx val_idx) rows))) l = l) as Hall by (induction l as [|x l IH]; cbn; congruence).
  cbn [tp_granularity_ms tp_retention_ms policy] in Hp. rewrite Hall, keys_of_rows in Hp. rewrite Hp. apply reflexive_eq. rewrite map_map.
  clear -Hread. induction rows as [|kv rows IH]; [done|]. cbn [List.filter]. destruct (row_in_span ts_idx val_idx t0 t1 kv); [|apply IH; intros; apply Hread; by right].
  cbn [map concat]. rewrite Hread by by left. cbn [app]. destruct kv as [k v]. cbn [kv_key kv_value]. f_equal. apply IH. intros. apply Hread. by right.
Qed.

End Scans.

(** ** Inputs of the theorems, and what the index does not do *)

#[local] Instance demo_bincode_ts : Bincode TsEntry := {|
  bc_serialize e := i64_to_be (te_ts e) ++ u64_to_be (te_value e) ++ te_row_key e;
  bc_deserialize b := if zlen b <? 16 then None else Some (mkTsEntry (drop 16 b) (i64_from_be (take 8 b)) (from_be (take 8 (drop 8 b))));
|}.

#[local] Program Instance demo_bincode_ts_laws : BincodeLaws TsEntry := {| bc_in_range e := is_i64 (te_ts e) /\ is_u64 (te_value e); |}.
Next Obligation.
  intros [k t v] [Ht Hv]. unfold bc_deserialize, bc_serialize, demo_bincode_ts. cbn [te_ts te_value te_row_key] in *.
  assert (forall z, length (i64_to_be z) = 8%nat) as H1 by (intros z; apply length_to_be). assert (forall z, length (u64_to_be z) = 8%nat) as H2 by (intros z; apply length_to_be).
  rewrite !zlen_app. pose proof (zlen_nonneg k). rewrite (proj2 (Z.ltb_ge _ 16)) by (unfold zlen in *; rewrite H1, H2; lia).
  rewrite (take_app_length' _ _ 8), i64_be_roundtrip by (done || by rewrite H1). rewrite (drop_app_length' _ _ 8) by (by rewrite H1).
  rewrite (take_app_length' _ _ 8), from_u64_to_be by (done || by rewrite H2). change 16%nat with (8 + 8)%nat. rewrite <- drop_drop.
  by rewrite (drop_app_length' _ _ 8), (drop_app_length' _ _ 8) by (rewrite ?H1, ?H2; done).
Qed.

#[local] Instance plain_cells : Json := {| json_parse _ := None; json_print _ := [] |}.

(** Two samples of the first hour, one of the fourth, and a late one of the first. *)
Definition hour : Z := 3600000.
Definition demo_sample (k : string) (ts : Z) (value : Z) : TsEntry := mkTsEntry (as_bytes k) ts (f_of_Z value).
Definition demo_samples : list TsEntry := [demo_sample "a" 1000 10; demo_sample "b" 2000 20; demo_sample "c" (3 * hour + 5) 30; demo_sample "d" 1500 40].
Definition no_retention : TimeBucketPolicy := mkTimeBucketPolicy hour None.
Definition one_hour : TimeBucketPolicy := mkTimeBucketPolicy hour (Some hour).

Lemma demo_samples_fit : samples_ok no_retention demo_samples /\ samples_ok one_hour demo_samples.
Proof.
  split; (split; [by vm_compute|]); (split; [|by vm_compute]); repeat constructor; by vm_compute.
Qed.

Lemma range_query_is_exact_witness :
  exists idx keys, inserts true demo_samples (time_index_new no_retention "v") = Some idx /\ query_range 0 2000 idx = Some keys /\ Permutation keys (map as_bytes ["a"; "b"; "d"]%string).
Proof. apply (range_query_is_exact no_retention "v" demo_samples 0 2000); [apply demo_samples_fit | by vm_compute]. Defined.

Lemma rollups_cover_evicted_samples_witness :
  exists idx rs, inserts true demo_samples (time_index_new one_hour "v") = Some idx /\ query_rollups 0 2000 idx = Some rs
    /\ (forall k r, In (k, r) rs -> r = rollup_of (at_start hour k demo_samples)).
Proof.
  destruct (rollups_cover_evicted_samples one_hour "v" demo_samples 0 2000) as (idx & rs & H1 & H2 & _ & H3 & _); [apply demo_samples_fit | by vm_compute|].
  exists idx, rs. exact (conj H1 (conj H2 H3)).
Defined.

(** The samples of the first hour were evicted when the last was inserted, and
    are found again once the index has been opened from its file. *)
Lemma reopened_index_has_every_sample_witness :
  (inserts true demo_samples (time_index_new one_hour "v") ≫= query_range 0 2000) = Some []
  /\ exists file idx keys, time_index_open (Some file) no_retention "w" = Some (file, Ok idx) /\ query_range 0 2000 idx = Some keys
       /\ Permutation keys (map as_bytes ["a"; "b"; "d"]%string).
Proof.
  split; [by vm_compute|]. destruct (reopened_index_has_every_sample one_hour "v" demo_samples no_retention "w" 0 2000) as (file & idx & keys & _ & H1 & _ & H2 & H3);
    [apply demo_samples_fit | by vm_compute | by vm_compute | by vm_compute | repeat constructor; by vm_compute | by vm_compute |].
  exists file, idx, keys. split; [exact H1|]. split; [exact H2|]. vm_compute in H3. vm_compute. exact H3.
Defined.

(** *** What an index scan does that a table scan does not *)

(** A table of times and values; a cell is text. *)
Definition cells (l : list string) : bytes := encode_cells (map (fun s => Some (as_bytes s)) l).
Definition demo_columns : list string := ["ts"; "v"]%string.
Definition demo_readings : list KeyValue := [mkKeyValue (as_bytes "a") (cells ["1000"; "10"]%string); mkKeyValue (as_bytes "b") (cells ["2000"; "20"]%string);
  mkKeyValue (as_bytes "c") (encode_cells [Some (as_bytes "1500"); None])].
Definition demo_read (rows : list KeyValue) (k : bytes) : Result (option bytes) := Ok (kv_value <$> List.find (fun kv => if decide (kv_key kv = k) then true else false) rows).

(** The rows in the range, but for the one whose value is NULL. *)
Lemma time_scan_is_a_table_scan_witness :
  exists file idx hits, create_time_index Writer None (Some demo_columns) (Ok demo_readings) "ts" "v" no_retention = Some (Some file, Ok idx)
    /\ time_range_rows (demo_read demo_readings) 0 2000 idx = Some hits /\ Permutation hits (take 2 demo_readings).
Proof.
  apply (time_scan_is_a_table_scan demo_columns demo_readings "ts" "v" 0 1 hour 0 2000 (demo_read demo_readings)); [reflexivity | reflexivity | | by vm_compute |].
  - split; [by vm_compute|]. split; [|by vm_compute]. repeat constructor; by vm_compute.
  - intros kv [<-|[<-|[<-|[]]]]; vm_compute; reflexivity.
Defined.

Definition once_done {A : Type} (r : bytes * option A) (k : A -> bytes -> option (list bytes)) : option (list bytes) := match r with (file, Some a) => k a file | _ => None end.

(** A row that is written again, with the same time, is found twice: the index
    never loses the entry of the row as it was. *)
Lemma updated_row_is_found_twice :
  once_done (maintain_time (as_bytes "a") (cells ["1000"; "10"]%string) demo_columns "ts" "v" (time_index_new no_retention "v") [])
    (fun idx file => once_done (maintain_time (as_bytes "a") (cells ["1000"; "11"]%string) demo_columns "ts" "v" idx file)
      (fun idx _ => map kv_key <$> time_range_rows (fun _ => Ok (Some (cells ["1000"; "11"]%string))) 0 2000 idx))
  = Some [as_bytes "a"; as_bytes "a"].
Proof. vm_compute. reflexivity. Qed.

(** A row past the retention is in the table and is not found. *)
Lemma old_row_is_not_found :
  (inserts true demo_samples (time_index_new one_hour "v") ≫= time_range_rows (fun _ => Ok (Some [])) 0 2000) = Some [].
Proof. vm_compute. reflexivity. Qed.

(** An interval of zero is accepted, and the first row panics. *)
Lemma interval_of_zero_panics :
  parse_interval "0 hours" = Some 0
  /\ create_time_index Writer None (Some demo_columns) (Ok demo_readings) "ts" "v" (mkTimeBucketPolicy 0 None) = None
  /\ snd (maintain_time (as_bytes "a") (cells ["1000"; "10"]%string) demo_columns "ts" "v" (time_index_new (mkTimeBucketPolicy 0 None) "v") []) = None.
Proof. split_and!; vm_compute; reflexivity. Qed.
