(* ===== verification/Mirror.v ===== *)
(** The audit trail and the provenance log ([mirror/audit.rs],
    [mirror/provenance.rs]), with the helpers of [mirror/mod.rs] and
    [synapse/mod.rs] for identifiers, counters and cells.

    Both keep rows of a system table over the class [RowStore], ordered by a
    counter of the process ([Ambient]); SHA-256 is the parameter [Sha256], the
    wall clock any function of the number of readings, and not even monotone.

    Theorems: while one process writes the trail, one record after the other, the
    chain of every session verifies, whatever writes fail and whatever else the
    database does, and a record appends one entry to its session and touches no
    other; of two chains that verify with the same last hash the entries are the
    same, up to the separator between actor, action and details, or there is a
    collision of the hash at hand. What verification does not see: an end that was
    cut off, and separators that moved; and what it sees where nobody tampered:
    the counter starts again when the process does, and two records at a time
    read the same last entry. *)

From Stdlib Require Import Strings.Byte Strings.String Sorted ZArith Lia Bool Permutation.
From stdpp Require Import base list gmap strings sorting.
From S2P Require Import Prelude OrdMap Utf8 Decimal ObjectStore Txn Compress Rows Lexer Float Values Sorting Auth.

Open Scope Z_scope.

(** ** Counters, clocks and cells *)

(** [mirror::SEQ], [synapse::ID_SEQ], and how often the clock was read. *)
Record Ambient := mkAmbient { am_seq : Z; am_id_seq : Z; am_reads : nat }.

(** The counters of a process that has just started. *)
Definition process_start (reads : nat) : Ambient := mkAmbient 0 0 reads.

Definition mirror_next_seq (a : Ambient) : Z * Ambient := (am_seq a, mkAmbient ((am_seq a + 1) mod 2 ^ 64) (am_id_seq a) (am_reads a)).

(** [cell_text], [cell_i64] *)
Definition text_of_cell (cell : option bytes) : option string := cell ≫= from_utf8.
Definition i64_of_cell (cell : option bytes) : option Z := text_of_cell cell ≫= parse_i64.

Section Clock.
  Context (clock : nat -> Z).

Definition read_now (a : Ambient) : Z * Ambient := (clock (am_reads a), mkAmbient (am_seq a) (am_id_seq a) (S (am_reads a))).

Definition id_text (prefix : string) (ms seq : Z) : string := (prefix ++ "-" ++ to_dec ms ++ "-" ++ to_dec seq)%string.

Definition new_id (prefix : string) (a : Ambient) : string * Ambient :=
  let seq := am_id_seq a in
  let '(ms, a) := read_now (mkAmbient (am_seq a) ((seq + 1) mod 2 ^ 64) (am_reads a)) in
  (id_text prefix ms seq, a).

End Clock.

(** ** The audit trail *)

Definition AUDIT : string := "_mirror_audit".

Definition GENESIS : string := "0000000000000000000000000000000000000000000000000000000000000000".

Record AuditEntry := mkAuditEntry {
  au_id : string; au_session_id : string; au_seq : Z; au_ts : Z; au_actor : string; au_action : string; au_details : string;
  au_prev_hash : string; au_hash : string;
}.

Definition decode_audit (value : bytes) : option AuditEntry :=
  id ← text_of_cell (decode_cell value 0);
  session ← text_of_cell (decode_cell value 1);
  seq ← i64_of_cell (decode_cell value 2);
  ts ← i64_of_cell (decode_cell value 3);
  actor ← text_of_cell (decode_cell value 4);
  action ← text_of_cell (decode_cell value 5);
  let details := default EmptyString (text_of_cell (decode_cell value 6)) in
  prev_hash ← text_of_cell (decode_cell value 7);
  hash ← text_of_cell (decode_cell value 8);
  Some (mkAuditEntry id session seq ts actor action details prev_hash hash).

Definition encode_audit (e : AuditEntry) : bytes :=
  encode_cells [text_cell (au_id e); text_cell (au_session_id e); int_cell (au_seq e); int_cell (au_ts e); text_cell (au_actor e);
    text_cell (au_action e); text_cell (au_details e); text_cell (au_prev_hash e); text_cell (au_hash e)].

Definition BAR : byte := Byte.x7c.

Section Audit.
  Context {sha : Sha256}.

(** What is hashed. *)
Definition hash_input (prev_hash : string) (seq ts : Z) (actor action details : string) : bytes :=
  as_bytes prev_hash ++ BAR :: dec_bytes seq ++ BAR :: dec_bytes ts ++ BAR :: as_bytes actor ++ BAR :: as_bytes action ++ BAR :: as_bytes details.

Definition compute_hash (prev_hash : string) (seq ts : Z) (actor action details : string) : string :=
  sha256_hex (hash_input prev_hash seq ts actor action details).

(** The loop of [verify_chain]. *)
Fixpoint verify_from (expected_prev : string) (entries : list AuditEntry) : bool :=
  match entries with
  | [] => true
  | e :: entries' =>
      if negb (String.eqb (au_prev_hash e) expected_prev) then false
      else if negb (String.eqb (compute_hash (au_prev_hash e) (au_seq e) (au_ts e) (au_actor e) (au_action e) (au_details e)) (au_hash e)) then false
      else verify_from (au_hash e) entries'
  end.

Definition by_seq (a b : AuditEntry) : comparison := Z.compare (au_seq a) (au_seq b).
Definition of_session (session_id : string) (e : AuditEntry) : bool := String.eqb (au_session_id e) session_id.

Record AuditReport := mkAuditReport { ar_session_id : string; ar_entries : list AuditEntry; ar_tamper_evident : bool }.

Section Trail.
  Context {S : Type} {rs : RowStore S} (clock : nat -> Z).

Definition entries_for (session_id : string) (s : S) : Result (list AuditEntry) :=
  let? kvs := rs_scan AUDIT s in
  Ok (stable_sort by_seq (List.filter (of_session session_id) (omap (fun kv => decode_audit (kv_value kv)) kvs))).

Definition last_hash (prev : string) (entries : list AuditEntry) : string := match last entries with Some e => au_hash e | None => prev end.

(** The entry that [record] is about to write. *)
Definition next_entry (session_id actor action details : string) (before : list AuditEntry) (a : Ambient) : AuditEntry * Ambient :=
  let prev_hash := last_hash GENESIS before in
  let '(n, a) := mirror_next_seq a in
  let seq := i64_wrap n in
  let '(ts, a) := read_now clock a in
  let hash := compute_hash prev_hash seq ts actor action details in
  let '(id, a) := new_id clock "audit" a in
  (mkAuditEntry id session_id seq ts actor action details prev_hash hash, a).

Definition record (session_id actor action details : string) (a : Ambient) (s : S) : Ambient * S * Result string :=
  match entries_for session_id s with
  | Err e => (a, s, Err e)
  | Ok before =>
      let '(e, a) := next_entry session_id actor action details before a in
      let '(s, r) := rs_write AUDIT (as_bytes (au_id e)) (encode_audit e) s in
      (a, s, match r with Ok _ => Ok (au_id e) | Err x => Err x end)
  end.

Definition verify_chain (session_id : string) (s : S) : Result bool :=
  let? entries := entries_for session_id s in Ok (verify_from GENESIS entries).

Definition generate_report (session_id : string) (s : S) : Result AuditReport :=
  let? entries := entries_for session_id s in
  let? ok := verify_chain session_id s in
  Ok (mkAuditReport session_id entries ok).

End Trail.
End Audit.

(** ** Provenance *)

Definition PROVENANCE : string := "_mirror_provenance".

Record ProvenanceRecord := mkProvenanceRecord { pr_fact_ref : string; pr_source : string; pr_confidence : option Z; pr_ts : Z }.

Definition decode_provenance (value : bytes) : option ProvenanceRecord :=
  fact_ref ← text_of_cell (decode_cell value 1);
  source ← text_of_cell (decode_cell value 2);
  let confidence := text_of_cell (decode_cell value 3) ≫= parse_float in
  ts ← i64_of_cell (decode_cell value 5);
  Some (mkProvenanceRecord fact_ref source confidence ts).

Section Provenance.
  Context {S : Type} {rs : RowStore S} (clock : nat -> Z).

Definition assert_fact (fact_ref source : string) (confidence : option Z) (a : Ambient) (s : S) : Ambient * S * Result string :=
  let '(id, a) := new_id clock "prov" a in
  let '(n, a) := mirror_next_seq a in
  let '(ts, a) := read_now clock a in
  let cells := [text_cell id; text_cell fact_ref; text_cell source; confidence ≫= (fun c => text_cell (f_display c)); int_cell (i64_wrap n); int_cell ts] in
  let '(s, r) := rs_write PROVENANCE (as_bytes id) (encode_cells cells) s in
  (a, s, match r with Ok _ => Ok id | Err x => Err x end).

Definition by_first (p q : Z * ProvenanceRecord) : comparison := Z.compare (fst p) (fst q).

Definition numbered (fact_ref : string) (kv : KeyValue) : option (Z * ProvenanceRecord) :=
  seq ← i64_of_cell (decode_cell (kv_value kv) 4);
  r ← decode_provenance (kv_value kv);
  if String.eqb (pr_fact_ref r) fact_ref then Some (seq, r) else None.

Definition history (fact_ref : string) (s : S) : Result (list ProvenanceRecord) :=
  let? kvs := rs_scan PROVENANCE s in
  Ok (map snd (stable_sort by_first (omap (numbered fact_ref) kvs))).

Definition latest (fact_ref : string) (s : S) : Result (option ProvenanceRecord) :=
  let? l := history fact_ref s in Ok (last l).

End Provenance.

(** ** What verification shows *)

(** Texts are cut at the first separator in one way. *)
Lemma cut_at_first (x : byte) (a b a' b' : bytes) : x ∉ a -> x ∉ a' -> a ++ x :: b = a' ++ x :: b' -> a = a' /\ b = b'.
Proof.
  revert a'. induction a as [|y a IH]; intros [|y' a'] Ha Ha' H; cbn in H.
  - by injection H as <-.
  - injection H as -> _. destruct Ha'. by left.
  - injection H as -> _. destruct Ha. by left.
  - injection H as -> H. destruct (IH a') as [-> ->]; [by intros ?; apply Ha; right | by intros ?; apply Ha'; right | done | done].
Qed.

Lemma dec_bytes_forall (P : byte -> Prop) (n : Z) : (forall d, 0 <= d < 10 -> P (digit d)) -> (n < 0 -> P Byte.x2d) -> Forall P (dec_bytes n).
Proof.
  intros Hd Hm. unfold dec_bytes. destruct (Z.ltb_spec n 0); [apply Forall_cons_2; [auto|]|]; apply digits_forall; (done || lia || constructor).
Qed.

Lemma digit_range (d : Z) : 0 <= d < 10 -> 48 <= Z_of_byte (digit d) <= 57.
Proof. intros H. pose proof (digit_value d H). lia. Qed.

Lemma bar_not_in_dec (n : Z) : BAR ∉ dec_bytes n.
Proof.
  intros H. assert (Forall (fun b => b <> BAR) (dec_bytes n)) as Hf by (apply dec_bytes_forall; [|done]; intros d Hd E; pose proof (digit_range d Hd) as Hr; rewrite E in Hr; change (Z_of_byte BAR) with 124 in Hr; lia).
  rewrite Forall_forall in Hf. by apply (Hf BAR).
Qed.

Lemma dec_bytes_inj (m n : Z) : is_i64 m -> is_i64 n -> dec_bytes m = dec_bytes n -> m = n.
Proof.
  intros Hm Hn H. assert (to_dec m = to_dec n) as E by (unfold to_dec; by rewrite H).
  pose proof (parse_i64_to_dec m Hm) as H1. rewrite E, (parse_i64_to_dec n Hn) in H1. by injection H1.
Qed.

(** A digest in hexadecimal: 64 digits. *)
Definition is_hex (b : byte) : Prop := 48 <= Z_of_byte b <= 57 \/ 97 <= Z_of_byte b <= 102.

Class HexDigest (sha : Sha256) : Prop := {
  digest_hex (x : bytes) : Forall is_hex (as_bytes (sha256_hex x));
  digest_size (x : bytes) : zlen (as_bytes (sha256_hex x)) = 64;
}.

Section Tampering.
  Context {sha : Sha256} {hex : HexDigest sha}.

Lemma bar_not_in_digest (x : bytes) : BAR ∉ as_bytes (sha256_hex x).
Proof.
  intros H. pose proof (digest_hex x) as Hf. rewrite Forall_forall in Hf. apply Hf in H. unfold is_hex in H. change (Z_of_byte BAR) with 124 in H. lia.
Qed.

Definition entry_input (e : AuditEntry) : bytes := hash_input (au_prev_hash e) (au_seq e) (au_ts e) (au_actor e) (au_action e) (au_details e).

(** What the hash of an entry fixes. *)
Definition sealed_parts (e : AuditEntry) : Z * Z * bytes := (au_seq e, au_ts e, as_bytes (au_actor e) ++ BAR :: as_bytes (au_action e) ++ BAR :: as_bytes (au_details e)).

Definition numbers_fit (e : AuditEntry) : Prop := is_i64 (au_seq e) /\ is_i64 (au_ts e).

Lemma last_hash_snoc g es e : last_hash g (es ++ [e]) = au_hash e.
Proof. unfold last_hash. by rewrite last_snoc. Qed.

Lemma last_hash_cons g e es : last_hash g (e :: es) = last_hash (au_hash e) es.
Proof. unfold last_hash. rewrite last_cons. by destruct (last es). Qed.

Lemma verify_snoc g es e :
  verify_from g (es ++ [e]) = true <-> verify_from g es = true /\ au_prev_hash e = last_hash g es /\ sha256_hex (entry_input e) = au_hash e.
Proof.
  revert g. induction es as [|x es IH]; intros g; cbn [app verify_from].
  - change (last_hash g []) with g. destruct (String.eqb_spec (au_prev_hash e) g); cbn [negb]; [|naive_solver].
    unfold compute_hash, entry_input. destruct (String.eqb_spec (sha256_hex (hash_input (au_prev_hash e) (au_seq e) (au_ts e) (au_actor e) (au_action e) (au_details e))) (au_hash e)); cbn [negb]; naive_solver.
  - rewrite last_hash_cons. destruct (negb (String.eqb (au_prev_hash x) g)); [naive_solver|]. destruct (negb _); [naive_solver|]. apply IH.
Qed.

Lemma entry_input_inj (e e' : AuditEntry) :
  BAR ∉ as_bytes (au_prev_hash e) -> BAR ∉ as_bytes (au_prev_hash e') -> numbers_fit e -> numbers_fit e' ->
  entry_input e = entry_input e' -> au_prev_hash e = au_prev_hash e' /\ sealed_parts e = sealed_parts e'.
Proof.
  intros H1 H2 [Hs Ht] [Hs' Ht'] H. unfold entry_input, hash_input in H. apply cut_at_first in H as [Hp H]; [|done..].
  apply cut_at_first in H as [Hseq H]; [|apply bar_not_in_dec..]. apply cut_at_first in H as [Hts H]; [|apply bar_not_in_dec..].
  split; [|unfold sealed_parts; rewrite (dec_bytes_inj _ _ Hs Hs' Hseq), (dec_bytes_inj _ _ Ht Ht' Hts); by rewrite H].
  rewrite <- (string_of_list_byte_of_string (au_prev_hash e)), <- (string_of_list_byte_of_string (au_prev_hash e')). f_equal. exact Hp.
Qed.

(** Two trails show a collision of the hash: an entry of the one and an entry of
    the other whose inputs to the hash differ and have one digest, or an entry
    of one of them whose digest is the hash before the first entry. *)
Definition trails_collide (es es' : list AuditEntry) : Prop :=
  (exists e e', e ∈ es /\ e' ∈ es' /\ entry_input e <> entry_input e' /\ sha256_hex (entry_input e) = sha256_hex (entry_input e'))
  \/ (exists e, e ∈ es ++ es' /\ sha256_hex (entry_input e) = GENESIS).

Lemma trails_collide_snoc (es es' : list AuditEntry) (e e' : AuditEntry) : trails_collide es es' -> trails_collide (es ++ [e]) (es' ++ [e']).
Proof. intros [(x & y & Hx & Hy & H)|(x & Hx & H)]; [left; exists x, y | right; exists x]; set_solver. Qed.

(** C32. Two trails of a session that both verify and end with the same hash have
    the same entries, each with its number, its time and its actor, action and
    details as one text, or they show a collision of the hash themselves: an
    entry of the one and an entry of the other whose inputs differ and have one
    digest, or an entry of one of them whose digest is the hash before the
    first entry. *)
Theorem tampering_needs_a_collision (es es' : list AuditEntry) :
  Forall numbers_fit es -> Forall numbers_fit es' ->
  verify_from GENESIS es = true -> verify_from GENESIS es' = true -> last_hash GENESIS es = last_hash GENESIS es' ->
  map sealed_parts es = map sealed_parts es' \/ trails_collide es es'.
Proof.
  intros Hn. revert es'. induction es as [|e es IH] using rev_ind; intros es'; destruct es' as [|e' es' _] using rev_ind; intros Hn' H H' Hl.
  - by left.
  - apply verify_snoc in H' as (_ & _ & H'). rewrite last_hash_snoc in Hl. right; right. exists e'. rewrite H', <- Hl. set_solver.
  - apply verify_snoc in H as (_ & _ & H). rewrite last_hash_snoc in Hl. right; right. exists e. rewrite H, Hl. set_solver.
  - apply verify_snoc in H as (Hv & Hp & Hh), H' as (Hv' & Hp' & Hh'). rewrite !last_hash_snoc in Hl. apply Forall_app in Hn as [Hn [He _]%Forall_cons], Hn' as [Hn' [He' _]%Forall_cons].
    destruct (decide (entry_input e = entry_input e')) as [E|E]; [|right; left; exists e, e'; rewrite Hh, Hh', Hl; set_solver].
    assert (forall l, verify_from GENESIS l = true -> BAR ∉ as_bytes (last_hash GENESIS l)) as Hbar.
    { intros l. destruct l as [|x l _] using rev_ind; [intros _; vm_compute; clear; by intros H; repeat (apply elem_of_cons in H as [H|H]; [done|]); apply elem_of_nil in H|].
      intros Hx. apply verify_snoc in Hx as (_ & _ & Hx). rewrite last_hash_snoc, <- Hx. apply bar_not_in_digest. }
    destruct (entry_input_inj e e') as [Ep Es]; [rewrite Hp; auto | rewrite Hp'; auto | done | done | done|].
    destruct (IH Hn es' Hn' Hv Hv') as [Hm|Hc]; [congruence | | right; by apply trails_collide_snoc]. left. rewrite !map_app, Hm. cbn. by rewrite Es.
Qed.

(** A trail from which the last entries are missing verifies. *)
Lemma cut_trail_verifies g es tail : verify_from g (es ++ tail) = true -> verify_from g es = true.
Proof. induction tail as [|e tail IH] using rev_ind; [by rewrite app_nil_r|]. rewrite app_assoc. intros H. apply verify_snoc in H as [H _]. auto. Qed.

(** Where a separator stands is not sealed. *)
Lemma separators_may_move p seq ts a b c d :
  compute_hash p seq ts (a ++ "|" ++ b) c d = compute_hash p seq ts a (b ++ "|" ++ c) d.
Proof.
  assert (forall s t, as_bytes (s ++ "|" ++ t) = as_bytes s ++ BAR :: as_bytes t) as Hb.
  { intros s t. rewrite !as_bytes_app. done. }
  unfold compute_hash, hash_input. rewrite !Hb, <- !app_assoc. done.
Qed.

End Tampering.

(** ** The trail of one process *)

Definition text_fits (s : string) : Prop := is_string s /\ zlen (as_bytes s) < 2 ^ 31.

Definition audit_fits (e : AuditEntry) : Prop :=
  Forall text_fits [au_id e; au_session_id e; au_actor e; au_action e; au_details e; au_prev_hash e; au_hash e] /\ numbers_fit e.

Lemma text_of_text_cell s : is_string s -> text_of_cell (text_cell s) = Some s.
Proof. intros H. unfold text_of_cell, text_cell. cbn. by apply from_utf8_as_bytes. Qed.

Lemma i64_of_int_cell n : is_i64 n -> i64_of_cell (int_cell n) = Some n.
Proof.
  intros H. unfold i64_of_cell, text_of_cell, int_cell. cbn [mbind option_bind]. rewrite <- as_bytes_to_dec, from_utf8_as_bytes by apply is_string_to_dec. by apply parse_i64_to_dec.
Qed.

Lemma int_cell_fits n : cell_fits (int_cell n).
Proof. cbn. pose proof (zlen_dec_bytes n). lia. Qed.

(** An entry reads back from its row. *)
Lemma decode_encode_audit e : audit_fits e -> decode_audit (encode_audit e) = Some e.
Proof.
  intros [Ht [Hs Hts]]. rewrite !Forall_cons in Ht. destruct Ht as ((H1 & L1) & (H2 & L2) & (H3 & L3) & (H4 & L4) & (H5 & L5) & (H6 & L6) & (H7 & L7) & _).
  unfold decode_audit, encode_audit. set (cells := [_; _; _; _; _; _; _; _; _]).
  assert (Forall cell_fits cells) as Hc by (unfold cells; repeat (apply Forall_cons_2; [first [apply int_cell_fits | done]|]); apply Forall_nil_2).
  rewrite !decode_encode_cells by done. unfold cells. cbn [lookup list_lookup default from_option id].
  rewrite !text_of_text_cell, !i64_of_int_cell by done. cbn. by destruct e.
Qed.

Lemma om_insert_fresh {V : Type} (k : bytes) (v : V) m : om_get k m = None -> Permutation (om_insert k v m) ((k, v) :: m).
Proof.
  induction m as [|[k' v'] m IH]; [done|]. cbn [om_get om_insert]. unfold keqb. destruct (cmp k k'); [done | done|]. intros H. rewrite IH by done. apply perm_swap.
Qed.

Lemma om_get_absent {V : Type} (k : bytes) (m : list (bytes * V)) : ~ In k (map fst m) -> om_get k m = None.
Proof. intros H. destruct (om_get k m) as [v|] eqn:E; [|done]. apply om_get_Some_In in E. destruct H. apply in_map_iff. by exists (k, v). Qed.

(** *** Identifiers *)

Lemma dash_not_in_dec n : 0 <= n -> Byte.x2d ∉ dec_bytes n.
Proof.
  intros Hn H. assert (Forall (fun b => b <> Byte.x2d) (dec_bytes n)) as Hf by (apply dec_bytes_forall; [intros d Hd; by apply digit_no_sign | lia]).
  rewrite Forall_forall in Hf. by apply (Hf Byte.x2d).
Qed.

Lemma id_bytes prefix ms n : as_bytes (id_text prefix ms n) = as_bytes prefix ++ Byte.x2d :: dec_bytes ms ++ Byte.x2d :: dec_bytes n.
Proof. unfold id_text. rewrite !as_bytes_app, !as_bytes_to_dec. reflexivity. Qed.

(** The counter at the end of an identifier is its own. *)
Lemma id_text_inj prefix ms n ms' n' : 0 <= n < 2 ^ 63 -> 0 <= n' < 2 ^ 63 -> as_bytes (id_text prefix ms n) = as_bytes (id_text prefix ms' n') -> n = n'.
Proof.
  intros Hn Hn' H. rewrite !id_bytes in H. apply (f_equal (@rev byte)) in H. rewrite !rev_app_distr in H. cbn [rev] in H. rewrite !rev_app_distr in H. cbn [rev] in H. rewrite <- !app_assoc in H.
  cbn [app] in H. apply cut_at_first in H as [H _]; [|rewrite list_elem_of_In, <- in_rev, <- list_elem_of_In; apply dash_not_in_dec; lia..].
  apply (f_equal (@rev byte)) in H. rewrite !rev_involutive in H. apply dec_bytes_inj in H; [done | unfold is_i64; lia..].
Qed.

Section Process.
  Context {sha : Sha256} {hex : HexDigest sha} {S : Type} {rs : RowStore S} {laws : RowLaws S} (clock : nat -> Z).
  Context (clock_ok : forall n, is_i64 (clock n)).

Definition row_of_entry (e : AuditEntry) : bytes * bytes := (as_bytes (au_id e), encode_audit e).

Definition issued (n : Z) (e : AuditEntry) : Prop := exists ms k, au_id e = id_text "audit" ms k /\ 0 <= k < n.

(** The rows of the table are the entries that one process has written, in the
    order of their numbers, and the entries of each session are a chain. *)
Record trail (a : Ambient) (s : S) (es : list AuditEntry) : Prop := {
  tr_wf : rs_wf s;
  tr_rows : Permutation (rs_rows s AUDIT) (map row_of_entry es);
  tr_fits : Forall audit_fits es;
  tr_order : StronglySorted (fun x y => au_seq x < au_seq y) es;
  tr_below : Forall (fun e => 0 <= au_seq e < am_seq a) es;
  tr_issued : Forall (issued (am_id_seq a)) es;
  tr_counters : 0 <= am_seq a < 2 ^ 63 /\ 0 <= am_id_seq a < 2 ^ 63;
  tr_chains session : verify_from GENESIS (List.filter (of_session session) es) = true;
}.

Lemma strictly_ordered_eq (es : list AuditEntry) x y : StronglySorted (fun x y => au_seq x < au_seq y) es -> In x es -> In y es -> au_seq x = au_seq y -> x = y.
Proof.
  intros Hs. induction Hs as [|e es _ IH Hall]; [by intros []|]. rewrite Forall_forall in Hall.
  intros [<-|Hx] [<-|Hy] E; [done | apply list_elem_of_In, Hall in Hy; lia | apply list_elem_of_In, Hall in Hx; lia | auto].
Qed.

Lemma filter_sorted {A : Type} (R : A -> A -> Prop) (p : A -> bool) (l : list A) : StronglySorted R l -> StronglySorted R (List.filter p l).
Proof.
  intros Hl. induction Hl as [|x l _ IH Hall]; [constructor|]. cbn. destruct (p x); [|done]. constructor; [done|].
  rewrite Forall_forall in Hall |- *. intros y Hy. apply Hall, list_elem_of_In. apply list_elem_of_In, filter_In in Hy as [Hy _]. done.
Qed.

Lemma filter_perm {A : Type} (p : A -> bool) (l l' : list A) : Permutation l l' -> Permutation (List.filter p l) (List.filter p l').
Proof.
  intros H. induction H as [|x l l' _ IH|x y l|l l' l'' _ IH1 _ IH2]; cbn; [done | destruct (p x); [by constructor | done] | destruct (p x), (p y); try done; apply perm_swap | etransitivity; eassumption].
Qed.

Lemma by_seq_le x y : not_greater by_seq x y <-> au_seq x <= au_seq y.
Proof. reflexivity. Qed.

Lemma by_seq_preorder (l : list AuditEntry) : total_preorder by_seq l.
Proof.
  split.
  - intros x y _ _. unfold by_seq. rewrite (Z.compare_antisym (au_seq x)). done.
  - intros x y z _ _ _. rewrite !by_seq_le. lia.
Qed.

(** Reading the entries of a session gives those that were written, in order. *)
Lemma entries_of_trail a s es session l : trail a s es -> entries_for session s = Ok l -> l = List.filter (of_session session) es.
Proof.
  intros Ht H. unfold entries_for in H. destruct (rs_scan AUDIT s) as [kvs|x] eqn:E; [|done]. injection H as <-. apply rs_scan_law in E as ->; [|apply (tr_wf _ _ _ Ht)].
  assert (Permutation (omap (fun kv => decode_audit (kv_value kv)) (map kv_of (rs_rows s AUDIT))) es) as Hp.
  { rewrite (tr_rows _ _ _ Ht), map_map. pose proof (tr_fits _ _ _ Ht) as Hf. clear -Hf. induction Hf as [|e es He _ IH]; [done|].
    cbn [map omap list_omap kv_of row_of_entry kv_value fst snd]. rewrite decode_encode_audit by done. by constructor. }
  set (l := List.filter _ _). assert (Permutation (stable_sort by_seq l) (List.filter (of_session session) es)) as Hl.
  { etransitivity; [symmetry; apply stable_sort_perm|]. by apply filter_perm. }
  apply (StronglySorted_unique_strong (not_greater by_seq)); [| apply stable_sort_sorted, by_seq_preorder | | done].
  - intros x y Hx Hy H1 H2. rewrite Hl in Hx. apply list_elem_of_In, filter_In in Hx as [Hx _], Hy as [Hy _].
    apply (strictly_ordered_eq es); [apply (tr_order _ _ _ Ht) | done | done|]. rewrite by_seq_le in H1, H2. lia.
  - apply (StronglySorted_weaken (fun x y => au_seq x < au_seq y)); [|apply filter_sorted, (tr_order _ _ _ Ht)].
    intros x y H. rewrite by_seq_le. lia.
Qed.

Lemma digest_fits x : text_fits (sha256_hex x).
Proof.
  split; [|rewrite digest_size; done]. unfold is_string. apply utf8_ascii. eapply Forall_impl; [apply digest_hex|]. unfold is_hex. cbn. intros b Hb. lia.
Qed.

Lemma id_fits ms n : text_fits (id_text "audit" ms n).
Proof.
  split.
  - unfold is_string. rewrite id_bytes. apply utf8_ascii. apply Forall_app_2; [by repeat constructor|]. apply Forall_cons_2; [done|].
    assert (forall k, Forall (fun b => Z_of_byte b < 128) (dec_bytes k)) as Hd by (intros k; apply dec_bytes_forall; [intros d Hd; pose proof (digit_range d Hd); lia | done]).
    apply Forall_app_2; [apply Hd|]. apply Forall_cons_2; [done | apply Hd].
  - rewrite id_bytes, zlen_app, zlen_cons, zlen_app, zlen_cons. pose proof (zlen_dec_bytes ms). pose proof (zlen_dec_bytes n). change (zlen (as_bytes "audit")) with 5. lia.
Qed.

(** The entry that comes next, and the counters behind it. *)
Record appended (session actor action details : string) (a a' : Ambient) (es : list AuditEntry) (e : AuditEntry) : Prop := {
  ap_fields : au_session_id e = session /\ au_actor e = actor /\ au_action e = action /\ au_details e = details;
  ap_fits : audit_fits e;
  ap_seq : au_seq e = am_seq a /\ am_seq a' = am_seq a + 1;
  ap_id : exists ms, au_id e = id_text "audit" ms (am_id_seq a);
  ap_id_seq : am_id_seq a' = am_id_seq a + 1;
  ap_hash : au_prev_hash e = last_hash GENESIS (List.filter (of_session session) es) /\ sha256_hex (entry_input e) = au_hash e;
}.

Lemma next_entry_appended session actor action details a a' s es e :
  trail a s es -> Forall text_fits [session; actor; action; details] -> am_seq a + 1 < 2 ^ 63 -> am_id_seq a + 1 < 2 ^ 63 ->
  next_entry clock session actor action details (List.filter (of_session session) es) a = (e, a') -> appended session actor action details a a' es e.
Proof.
  intros Ht Hargs Hseq Hid H. pose proof (tr_counters _ _ _ Ht) as [H1 H2]. unfold next_entry, mirror_next_seq, new_id, read_now in H. cbn [am_seq am_id_seq am_reads] in H.
  rewrite i64_wrap_id in H by (unfold is_i64; lia). injection H as <- <-. cbn [am_seq am_id_seq]. rewrite !Z.mod_small by lia. rewrite !Forall_cons in Hargs. destruct Hargs as (Fs & Fa & Fc & Fd & _).
  assert (text_fits (last_hash GENESIS (List.filter (of_session session) es))) as Fp.
  { unfold last_hash. destruct (last (List.filter (of_session session) es)) as [x|] eqn:E; [|by split].
    apply last_Some_elem_of, list_elem_of_In, filter_In in E as [E _]. pose proof (tr_fits _ _ _ Ht) as Hf. rewrite Forall_forall in Hf. apply list_elem_of_In, Hf in E as [E _].
    rewrite !Forall_cons in E. tauto. }
  split; try done; [|by eexists]. split; [|split; [cbn; unfold is_i64; lia | apply clock_ok]]. cbn. repeat (apply Forall_cons_2; [first [done | apply id_fits | apply digest_fits]|]). apply Forall_nil_2.
Qed.

Lemma issued_weaken n m e : n <= m -> issued n e -> issued m e.
Proof. intros H (ms & k & E & Hk). exists ms, k. split; [done | lia]. Qed.

(** Other work may move the counters and leaves the table alone. *)
Lemma trail_kept a a' s s' es :
  trail a s es -> am_seq a <= am_seq a' < 2 ^ 63 -> am_id_seq a <= am_id_seq a' < 2 ^ 63 -> rs_wf s' -> rs_rows s' AUDIT = rs_rows s AUDIT -> trail a' s' es.
Proof.
  intros [Hwf Hr Hf Ho Hb Hi [Hc1 Hc2] Hv] H1 H2 Hwf' Er. split; try done; [by rewrite Er | | | lia].
  - eapply Forall_impl; [exact Hb|]. cbn. lia.
  - eapply Forall_impl; [exact Hi|]. intros e. apply issued_weaken. lia.
Qed.

Lemma ordered_snoc {A : Type} (R : A -> A -> Prop) (l : list A) (x : A) : StronglySorted R l -> Forall (fun y => R y x) l -> StronglySorted R (l ++ [x]).
Proof. intros Hl Hx. induction Hl as [|y l _ IH Hall]; cbn; [repeat constructor|]. apply Forall_cons in Hx as [Hy Hx]. constructor; [auto|]. apply Forall_app_2; [done | by repeat constructor]. Qed.

Lemma trail_appended session actor action details a a' s s' es e :
  trail a s es -> appended session actor action details a a' es e -> am_seq a + 1 < 2 ^ 63 -> am_id_seq a + 1 < 2 ^ 63 ->
  rs_wf s' -> rs_rows s' AUDIT = om_insert (as_bytes (au_id e)) (encode_audit e) (rs_rows s AUDIT) -> trail a' s' (es ++ [e]).
Proof.
  intros [Hwf Hr Hf Ho Hb Hi [Hc1 Hc2] Hv] [(Hse & _) Hfit [Hq Hq'] (ms & Hid) Hid' [Hp Hh]] H1 H2 Hwf' Er. split.
  - done.
  - rewrite Er, om_insert_fresh, Hr, map_app by (apply om_get_absent; rewrite (Permutation_map fst Hr), map_map; intros Hin; apply in_map_iff in Hin as (x & Ex & Hx);
      rewrite Forall_forall in Hi; apply list_elem_of_In, Hi in Hx as (ms' & k & Ek & Hk); cbn in Ex; rewrite Ek, Hid in Ex; apply id_text_inj in Ex; lia).
    rewrite Permutation_app_comm. done.
  - apply Forall_app_2; [done | by apply Forall_cons_2].
  - apply ordered_snoc; [done|]. eapply Forall_impl; [exact Hb|]. cbn. lia.
  - apply Forall_app_2; [eapply Forall_impl; [exact Hb|]; cbn; lia|]. apply Forall_cons_2; [lia | done].
  - apply Forall_app_2; [eapply Forall_impl; [exact Hi|]; intros x; apply issued_weaken; lia|]. apply Forall_cons_2; [|done]. exists ms, (am_id_seq a). split; [done | lia].
  - lia.
  - intros t. rewrite List.filter_app. cbn [List.filter]. unfold of_session at 2. rewrite Hse. destruct (String.eqb_spec session t) as [<-|Hne]; [|by rewrite app_nil_r].
    apply verify_snoc. split; [apply Hv | done].
Qed.

(** A record in a trail: it fails before the write, or the entry is appended, or
    its write fails and it may be there or not. *)
Lemma record_step session actor action details a a' s s' es r :
  trail a s es -> Forall text_fits [session; actor; action; details] -> am_seq a + 1 < 2 ^ 63 -> am_id_seq a + 1 < 2 ^ 63 ->
  record clock session actor action details a s = (a', s', r) ->
  exists es', trail a' s' es' /\ (es' = es \/ exists e, es' = es ++ [e] /\ appended session actor action details a a' es e)
    /\ (forall id, r = Ok id -> exists e, es' = es ++ [e] /\ au_id e = id /\ appended session actor action details a a' es e).
Proof.
  intros Ht Hargs H1 H2 H. unfold record in H. destruct (entries_for session s) as [before|x] eqn:E.
  2: { injection H as <- <- <-. exists es. split; [done|]. split; [by left | done]. }
  apply (entries_of_trail a s es) in E as ->; [|done]. destruct (next_entry clock session actor action details _ a) as [e a1] eqn:En.
  apply (next_entry_appended _ _ _ _ a a1 s es e Ht Hargs H1 H2) in En as Hap. destruct (rs_write AUDIT (as_bytes (au_id e)) (encode_audit e) s) as [s1 w] eqn:Ew.
  apply rs_write_law in Ew as (Hwf & Hout & _); [|apply (tr_wf _ _ _ Ht)]. injection H as <- <- <-.
  assert (rs_rows s1 AUDIT = om_insert (as_bytes (au_id e)) (encode_audit e) (rs_rows s AUDIT) -> trail a1 s1 (es ++ [e])) as Happ by (intros Er; by eapply trail_appended).
  destruct w as [u|x]; cbn in Hout.
  - exists (es ++ [e]). split; [auto|]. split; [right; by exists e|]. intros id [= <-]. by exists e.
  - destruct Hout as [Er|Er].
    + exists (es ++ [e]). split; [auto|]. split; [right; by exists e | done].
    + exists es. split; [|split; [by left | done]]. destruct Hap as [_ _ [_ Hq] _ Hi _]. destruct (tr_counters _ _ _ Ht). eapply trail_kept; [exact Ht | lia | lia | done | done].
Qed.

(** What happens while one process runs: records, one after the other, and any
    other work of the database and of the counters. *)
Inductive audit_run : Ambient -> S -> Prop :=
| AR_start a s : rs_wf s -> rs_rows s AUDIT = [] -> 0 <= am_seq a < 2 ^ 63 -> 0 <= am_id_seq a < 2 ^ 63 -> audit_run a s
| AR_record a s session actor action details a' s' r :
    audit_run a s -> Forall text_fits [session; actor; action; details] -> am_seq a + 1 < 2 ^ 63 -> am_id_seq a + 1 < 2 ^ 63 ->
    record clock session actor action details a s = (a', s', r) -> audit_run a' s'
| AR_other a s a' s' :
    audit_run a s -> am_seq a <= am_seq a' < 2 ^ 63 -> am_id_seq a <= am_id_seq a' < 2 ^ 63 -> rs_wf s' -> rs_rows s' AUDIT = rs_rows s AUDIT -> audit_run a' s'.

Lemma audit_run_trail a s : audit_run a s -> exists es, trail a s es.
Proof.
  induction 1 as [a s Hwf Hr H1 H2|a s session actor action details a' s' r _ [es IH] Hargs H1 H2 H|a s a' s' _ [es IH] H1 H2 Hwf Hr].
  - exists []. split; try done; by rewrite ?Hr; constructor.
  - destruct (record_step _ _ _ _ _ _ _ _ _ _ IH Hargs H1 H2 H) as (es' & Ht & _). by exists es'.
  - exists es. by eapply trail_kept.
Qed.

(** While one process writes the trail, one record after the other, whichever
    of its writes fail and whatever else the database does, every session
    verifies whenever its entries can be read, and its report says so. *)
Theorem untouched_trail_verifies (a : Ambient) (s : S) (session : string) :
  audit_run a s ->
  match generate_report session s with
  | Ok report => verify_chain session s = Ok true /\ ar_tamper_evident report = true
  | Err _ => exists e, rs_scan AUDIT s = Err e
  end.
Proof.
  intros [es Ht]%audit_run_trail. unfold generate_report, verify_chain. destruct (entries_for session s) as [l|x] eqn:E.
  - apply (entries_of_trail a s es) in E as ->; [|done]. rewrite (tr_chains _ _ _ Ht session). done.
  - unfold entries_for in E. destruct (rs_scan AUDIT s) as [kvs|y]; [done | by exists y].
Qed.

(** A record that succeeds appends its entry, with the session, the actor, the
    action and the details it was given, to the entries of its session, and leaves
    those of every other session as they were. *)
Theorem record_appends_to_its_session (a a' : Ambient) (s s' : S) (session actor action details id other : string) (before after_ : list AuditEntry) :
  audit_run a s -> Forall text_fits [session; actor; action; details] -> am_seq a + 1 < 2 ^ 63 -> am_id_seq a + 1 < 2 ^ 63 ->
  record clock session actor action details a s = (a', s', Ok id) ->
  entries_for other s = Ok before -> entries_for other s' = Ok after_ ->
  if String.eqb session other
  then exists e, after_ = before ++ [e] /\ au_id e = id /\ au_session_id e = session /\ au_actor e = actor /\ au_action e = action /\ au_details e = details
  else after_ = before.
Proof.
  intros [es Ht]%audit_run_trail Hargs H1 H2 H Eb Ea. destruct (record_step _ _ _ _ _ _ _ _ _ _ Ht Hargs H1 H2 H) as (es' & Ht' & _ & Hok).
  destruct (Hok id eq_refl) as (e & -> & Hid & Hap). apply (entries_of_trail a s es) in Eb as ->; [|done]. apply (entries_of_trail a' s' (es ++ [e])) in Ea as ->; [|done].
  destruct (ap_fields _ _ _ _ _ _ _ _ Hap) as (Hs & F). rewrite List.filter_app. cbn [List.filter]. unfold of_session at 2 5. rewrite Hs.
  destruct (String.eqb session other); [|by rewrite app_nil_r]. exists e. by rewrite <- Hs at 1.
Qed.
End Process.

(** ** Assertions *)

Lemma om_insert_between {V : Type} (k : bytes) (v : V) m : om_get k m = None -> exists l1 l2, m = l1 ++ l2 /\ om_insert k v m = l1 ++ (k, v) :: l2.
Proof.
  induction m as [|[k' v'] m IH]; [by exists [], []|]. cbn [om_get om_insert]. unfold keqb. destruct (cmp k k'); [done | by exists [], ((k', v') :: m)|].
  intros H. destruct (IH H) as (l1 & l2 & -> & ->). by exists ((k', v') :: l1), l2.
Qed.

Section Greatest.
  Context {A : Type} (f : A -> A -> comparison).

Lemma insert_greatest x l : Forall (fun y => f x y = Gt) l -> insert_sorted f x l = l ++ [x].
Proof. induction 1 as [|y l Hy _ IH]; [done|]. cbn. by rewrite Hy, IH. Qed.

Lemma insert_before_greatest x y l : f y x <> Gt -> insert_sorted f y (l ++ [x]) = insert_sorted f y l ++ [x].
Proof. intros Hy. induction l as [|z l IH]; cbn; [by destruct (f y x)|]. destruct (f y z); [done | done|]. by rewrite IH. Qed.

(** An element greater than all others goes to the end. *)
Lemma sort_greatest x l1 l2 :
  Forall (fun y => f x y = Gt /\ f y x <> Gt) (l1 ++ l2) -> stable_sort f (l1 ++ x :: l2) = stable_sort f (l1 ++ l2) ++ [x].
Proof.
  induction l1 as [|y l1 IH]; cbn [app stable_sort]; intros H.
  - apply insert_greatest. apply Forall_forall. intros y Hy. rewrite Forall_forall in H. apply H, list_elem_of_In, (stable_sort_in f), list_elem_of_In, Hy.
  - apply Forall_cons in H as [[_ Hy] H]. rewrite IH by done. by apply insert_before_greatest.
Qed.

End Greatest.

Section Assertions.
  Context {S : Type} {rs : RowStore S} {laws : RowLaws S} (clock : nat -> Z).

(** The confidence prints to a text that reads back. *)
Definition confidence_ok (c : option Z) : Prop := match c with Some c => text_fits (f_display c) /\ parse_float (f_display c) = Some c | None => True end.

Definition number_of (kv : KeyValue) : option Z := i64_of_cell (decode_cell (kv_value kv) 4).

(** An assertion that succeeds, with a number above those that were taken and
    an identifier of its own, is the last of the history of its fact, and the
    latest one, with the source and the confidence it was given; the histories of
    the other facts are as they were. *)
Theorem assertion_is_the_latest (a a' : Ambient) (s s' : S) (fact source id other : string) (confidence : option Z) (before after_ : list ProvenanceRecord) (kvs : list KeyValue) :
  rs_wf s -> text_fits fact -> text_fits source -> confidence_ok confidence -> (forall n, is_i64 (clock n)) -> 0 <= am_seq a < 2 ^ 63 ->
  rs_scan PROVENANCE s = Ok kvs -> Forall (fun kv => match number_of kv with Some n => n < am_seq a | None => True end) kvs ->
  ~ In (as_bytes (fst (new_id clock "prov" a))) (map kv_key kvs) -> text_fits (fst (new_id clock "prov" a)) ->
  assert_fact clock fact source confidence a s = (a', s', Ok id) -> history other s = Ok before -> history other s' = Ok after_ ->
  if String.eqb fact other
  then exists ts, after_ = before ++ [mkProvenanceRecord fact source confidence ts] /\ latest other s' = Ok (Some (mkProvenanceRecord fact source confidence ts))
  else after_ = before.
Proof.
  intros Hwf [Hf Lf] [Hs Ls] Hc Hclock Hseq Hscan Hbelow Hfresh [_ Lid] H Hb Ha. unfold assert_fact in H. destruct (new_id clock "prov" a) as [i a1] eqn:Ei. cbn [fst] in Hfresh, Lid.
  assert (am_seq a1 = am_seq a) as Eseq by (unfold new_id, read_now in Ei; by injection Ei as <- <-).
  unfold mirror_next_seq, read_now in H. cbn [am_seq am_id_seq am_reads] in H. rewrite Eseq, i64_wrap_id in H by (unfold is_i64; lia).
  set (ts := clock (am_reads a1)) in *. set (cells := [_; _; _; _; _; _]) in H. destruct (rs_write PROVENANCE (as_bytes i) (encode_cells cells) s) as [s1 w] eqn:Ew.
  injection H as <- <- Hw. destruct w as [u|x]; [|done]. injection Hw as <-. apply rs_write_law in Ew as (Hwf' & Hrows & _); [|done]. cbn [outcome] in Hrows.
  apply rs_scan_law in Hscan as Ekvs; [|done]. subst kvs. rewrite map_map in Hfresh. change (map (fun x => kv_key (kv_of x)) (rs_rows s PROVENANCE)) with (map fst (rs_rows s PROVENANCE)) in Hfresh.
  destruct (om_insert_between (as_bytes i) (encode_cells cells) (rs_rows s PROVENANCE) (om_get_absent _ _ Hfresh)) as (l1 & l2 & E1 & E2).
  assert (Forall cell_fits cells) as Hcells.
  { unfold cells. repeat (apply Forall_cons_2; [first [apply int_cell_fits | done | idtac]|]); [|apply Forall_nil_2]. destruct confidence as [c|]; [apply Hc | done]. }
  assert (numbered other (mkKeyValue (as_bytes i) (encode_cells cells)) = if String.eqb fact other then Some (am_seq a, mkProvenanceRecord fact source confidence ts) else None) as Hnew.
  { unfold numbered, decode_provenance. cbn [kv_value]. rewrite !decode_encode_cells by done. unfold cells. cbn [lookup list_lookup default from_option id].
    rewrite !text_of_text_cell, !i64_of_int_cell by (done || apply Hclock || (unfold is_i64; lia)). cbn [mbind option_bind].
    destruct confidence as [c|]; cbn [mbind option_bind]; [destruct Hc as [[Hcs _] Hcp]; rewrite text_of_text_cell by done; cbn [mbind option_bind]; rewrite Hcp|]; cbn; by destruct (String.eqb fact other). }
  assert (forall kv n r, In kv (map kv_of (rs_rows s PROVENANCE)) -> numbered other kv = Some (n, r) -> n < am_seq a) as Hlow.
  { intros kv n r Hin Hn. rewrite Forall_forall in Hbelow. apply list_elem_of_In, Hbelow in Hin. unfold numbered, number_of in Hn, Hin. destruct (i64_of_cell (decode_cell (kv_value kv) 4)) as [m|]; [|done]. cbn [mbind option_bind] in Hn.
    destruct (decode_provenance (kv_value kv)) as [r'|]; [|done]. cbn [mbind option_bind] in Hn. destruct (String.eqb (pr_fact_ref r') other); [|done]. by injection Hn as <- <-. }
  unfold latest. rewrite Ha. unfold history in Ha, Hb. rewrite Hscan in Hb. injection Hb as <-. destruct (rs_scan PROVENANCE s1) as [kvs1|] eqn:Escan; [|done].
  apply rs_scan_law in Escan; [|done]. injection Ha as <-. subst kvs1. rewrite Hrows. rewrite E2. rewrite E1 in Hlow |- *. rewrite !map_app, !omap_app. cbn [map omap list_omap]. change (kv_of (as_bytes i, encode_cells cells)) with (mkKeyValue (as_bytes i) (encode_cells cells)).
  rewrite Hnew. destruct (String.eqb fact other); [|done]. exists ts.
  rewrite sort_greatest, map_app; [cbn [map snd]; by rewrite last_snoc|]. rewrite <- omap_app. apply Forall_forall. intros [n r] Hin. apply list_elem_of_omap in Hin as (kv & Hin & Hn).
  rewrite <- map_app in Hin. apply Hlow in Hn; [|by apply list_elem_of_In]. unfold by_first. cbn [fst]. split; [by apply Z.compare_gt_iff | rewrite (proj2 (Z.compare_lt_iff n (am_seq a))); done].
Qed.

End Assertions.

(** ** Inputs of the theorems, and what verification says of them *)

(** A digest of the right form for running the model. *)
Definition hex_text (b : bytes) : bytes := concat (map (fun x => [hex_digit (Z_of_byte x / 16); hex_digit (Z_of_byte x mod 16)]) b).
Definition mix (b : bytes) : Z := fold_left (fun acc x => (acc * 131 + Z_of_byte x + 1) mod 2 ^ 256) b 7.
#[local] Instance demo_digest : Sha256 := fun b => string_of_list_byte (hex_text (to_be 32 (mix b))).

Lemma hex_digit_hex d : 0 <= d < 16 -> is_hex (hex_digit d).
Proof. intros H. unfold is_hex, hex_digit. rewrite Z_of_byte_of_Z, Z.mod_small by (destruct (Z.ltb_spec d 10); lia). destruct (Z.ltb_spec d 10); lia. Qed.

#[local] Instance demo_digest_hex : HexDigest demo_digest.
Proof.
  assert (forall b, Forall is_hex (hex_text b) /\ zlen (hex_text b) = 2 * zlen b) as H.
  { induction b as [|x b [IH1 IH2]]; [by split|]. change (hex_text (x :: b)) with (hex_digit (Z_of_byte x / 16) :: hex_digit (Z_of_byte x mod 16) :: hex_text b). rewrite !zlen_cons. split; [|lia].
    pose proof (Z_of_byte_range x). repeat apply Forall_cons_2; [| |done]; apply hex_digit_hex; [|apply Z.mod_pos_bound; lia].
    split; [apply Z.div_pos; lia | apply Z.div_lt_upper_bound; lia]. }
  split; intros x; unfold sha256_hex, demo_digest, as_bytes; rewrite list_byte_of_string_of_list_byte; [apply H|].
  rewrite (proj2 (H _)). unfold zlen. by rewrite length_to_be.
Qed.

Definition wall (n : nat) : Z := 1700000000000 + Z.of_nat n mod 2 ^ 40.

Definition act (actor action : string) (p : Ambient * MemRows) : Ambient * MemRows := fst (record wall "s1" actor action "" (fst p) (snd p)).
Definition acts (l : list (string * string)) (p : Ambient * MemRows) : Ambient * MemRows := foldl (fun p q => act (fst q) (snd q) p) p l.

Definition started : Ambient * MemRows := (process_start 0, mem_empty).
Definition two_acts : Ambient * MemRows := acts [("agent", "call"); ("system", "check")]%string started.

Lemma short_texts_fit (l : list string) : forallb (fun s => forallb (fun b => Z_of_byte b <? 128) (as_bytes s) && (zlen (as_bytes s) <? 100)) l = true -> Forall text_fits l.
Proof.
  intros H. apply Forall_forall. intros s Hs. rewrite forallb_forall in H. apply list_elem_of_In, H in Hs. apply andb_prop in Hs as [H1 H2%Z.ltb_lt]. split; [|lia].
  apply utf8_ascii, Forall_forall. intros b Hb. rewrite forallb_forall in H1. apply list_elem_of_In, H1 in Hb. by apply Z.ltb_lt.
Qed.

Lemma wall_ok n : is_i64 (wall n).
Proof. pose proof (Z.mod_pos_bound (Z.of_nat n) (2 ^ 40) ltac:(lia)). unfold is_i64, wall. lia. Qed.

Lemma two_acts_run : audit_run wall (fst two_acts) (snd two_acts).
Proof.
  eapply (AR_record wall (fst (act "agent" "call" started)) (snd (act "agent" "call" started)) "s1" "system" "check" "");
    [|by apply short_texts_fit | by vm_compute | by vm_compute | rewrite (surjective_pairing (record _ _ _ _ _ _ _)); f_equal; by rewrite <- surjective_pairing].
  eapply (AR_record wall (fst started) (snd started) "s1" "agent" "call" "");
    [|by apply short_texts_fit | by vm_compute | by vm_compute | rewrite (surjective_pairing (record _ _ _ _ _ _ _)); f_equal; by rewrite <- surjective_pairing].
  apply AR_start; [exact mem_empty_rs_wf | reflexivity | by vm_compute | by vm_compute].
Qed.

Lemma untouched_trail_verifies_witness :
  audit_run wall (fst two_acts) (snd two_acts) /\ verify_chain "s1" (snd two_acts) = Ok true.
Proof.
  split; [exact two_acts_run|]. pose proof (untouched_trail_verifies wall wall_ok (fst two_acts) (snd two_acts) "s1" two_acts_run) as H.
  destruct (generate_report "s1" (snd two_acts)) as [r|x]; [exact (proj1 H) | destruct H as [e He]; discriminate He].
Defined.

Lemma record_appends_to_its_session_witness :
  exists e, entries_for "s1" (snd (acts [("x", "y")]%string two_acts)) = Ok ((match entries_for "s1" (snd two_acts) with Ok l => l | Err _ => [] end) ++ [e]) /\ au_actor e = "x"%string.
Proof.
  destruct (record_appends_to_its_session wall wall_ok (fst two_acts) (fst (acts [("x", "y")]%string two_acts)) (snd two_acts) (snd (acts [("x", "y")]%string two_acts))
    "s1" "x" "y" "" (id_text "audit" 1700000000005 2) "s1" (match entries_for "s1" (snd two_acts) with Ok l => l | Err _ => [] end)
    (match entries_for "s1" (snd (acts [("x", "y")]%string two_acts)) with Ok l => l | Err _ => [] end))
    as (e & H & _ & _ & Ha & _); [exact two_acts_run | by apply short_texts_fit | by vm_compute | by vm_compute | vm_compute; reflexivity | vm_compute; reflexivity | vm_compute; reflexivity |].
  exists e. split; [rewrite <- H; vm_compute; reflexivity | exact Ha].
Defined.

(** The entries of a session, as they are read. *)
Definition entries_read (p : Ambient * MemRows) : list AuditEntry := match entries_for "s1" (snd p) with Ok l => l | Err _ => [] end.

Lemma numbers_fit_all (l : list AuditEntry) :
  forallb (fun e => (- 2 ^ 63 <=? au_seq e) && (au_seq e <? 2 ^ 63) && (- 2 ^ 63 <=? au_ts e) && (au_ts e <? 2 ^ 63)) l = true -> Forall numbers_fit l.
Proof.
  intros H. apply Forall_forall. intros e He. rewrite forallb_forall in H. apply list_elem_of_In, H in He. rewrite !andb_true_iff, !Z.leb_le, !Z.ltb_lt in He. unfold numbers_fit, is_i64. lia.
Qed.

(** Two trails that differ in where the separator stands. *)
Definition trail_one : list AuditEntry := [fst (next_entry wall "s1" "a|b" "c" "" [] (process_start 0))].
Definition trail_other : list AuditEntry := [fst (next_entry wall "s1" "a" "b|c" "" [] (process_start 0))].

Lemma tampering_needs_a_collision_witness :
  map au_actor trail_one <> map au_actor trail_other
  /\ (map sealed_parts trail_one = map sealed_parts trail_other \/ trails_collide trail_one trail_other).
Proof.
  split; [by vm_compute|]. apply (tampering_needs_a_collision trail_one trail_other);
    [apply numbers_fit_all; vm_compute; reflexivity | apply numbers_fit_all; vm_compute; reflexivity | vm_compute; reflexivity | vm_compute; reflexivity | vm_compute; reflexivity].
Defined.

(** An entry that was changed, with its hash as it was, does not verify. *)
Lemma changed_details_are_seen :
  verify_from GENESIS (match entries_read two_acts with e :: l => mkAuditEntry (au_id e) (au_session_id e) (au_seq e) (au_ts e) (au_actor e) (au_action e) "changed" (au_prev_hash e) (au_hash e) :: l | [] => [] end) = false.
Proof. vm_compute. reflexivity. Qed.

(** The last entry is taken away, and the trail verifies. *)
Lemma deleted_end_is_not_seen :
  match entries_read two_acts with
  | [e1; e2] => verify_chain "s1" (fst (rs_delete AUDIT (as_bytes (au_id e2)) (snd two_acts))) = Ok true
  | _ => False
  end.
Proof. vm_compute. reflexivity. Qed.

(** The process starts again, and so does its counter: the entry of the next
    record sorts before those it is chained to, and the trail that nobody touched
    does not verify. *)
Lemma restart_breaks_the_chain : verify_chain "s1" (snd (act "agent" "call" (process_start 100, snd two_acts))) = Ok false.
Proof. vm_compute. reflexivity. Qed.

(** Two records of one session at a time read the same last entry; the trail does
    not verify. *)
Lemma concurrent_records_break_the_chain :
  let before := entries_read two_acts in
  let '(e1, a) := next_entry wall "s1" "agent" "call" "" before (fst two_acts) in
  let '(e2, a) := next_entry wall "s1" "system" "check" "" before a in
  let s := fst (rs_write AUDIT (as_bytes (au_id e1)) (encode_audit e1) (snd two_acts)) in
  verify_chain "s1" (fst (rs_write AUDIT (as_bytes (au_id e2)) (encode_audit e2) s)) = Ok false.
Proof. vm_compute. reflexivity. Qed.

Definition asserted : Ambient * MemRows := fst (assert_fact wall "f" "human" None (fst started) (snd started)).

Lemma numbers_below (l : list KeyValue) (m : Z) :
  forallb (fun kv => match number_of kv with Some n => n <? m | None => true end) l = true -> Forall (fun kv => match number_of kv with Some n => n < m | None => True end) l.
Proof.
  intros H. apply Forall_forall. intros kv Hkv. rewrite forallb_forall in H. apply list_elem_of_In, H in Hkv. destruct (number_of kv); [by apply Z.ltb_lt | done].
Qed.

Lemma assertion_is_the_latest_witness :
  exists ts, latest "f" (snd (fst (assert_fact wall "f" "agent" None (fst asserted) (snd asserted)))) = Ok (Some (mkProvenanceRecord "f" "agent" None ts)).
Proof.
  destruct (assertion_is_the_latest wall (fst asserted) (fst (fst (assert_fact wall "f" "agent" None (fst asserted) (snd asserted)))) (snd asserted)
    (snd (fst (assert_fact wall "f" "agent" None (fst asserted) (snd asserted)))) "f" "agent" (id_text "prov" 1700000000002 1) "f" None
    (match history "f" (snd asserted) with Ok l => l | Err _ => [] end)
    (match history "f" (snd (fst (assert_fact wall "f" "agent" None (fst asserted) (snd asserted)))) with Ok l => l | Err _ => [] end)
    (match rs_scan PROVENANCE (snd asserted) with Ok l => l | Err _ => [] end)) as (ts & _ & H).
  - apply (rs_write_law (snd started) (snd asserted) PROVENANCE (as_bytes (id_text "prov" 1700000000000 0)) (encode_cells [text_cell (id_text "prov" 1700000000000 0); text_cell "f"; text_cell "human"; None; int_cell 0; int_cell 1700000000001]) (Ok tt));
      [exact mem_empty_rs_wf | vm_compute; reflexivity].
  - by apply (Forall_inv (short_texts_fit ["f"%string] eq_refl)).
  - by apply (Forall_inv (short_texts_fit ["agent"%string] eq_refl)).
  - exact I.
  - exact wall_ok.
  - by vm_compute.
  - vm_compute; reflexivity.
  - apply numbers_below. vm_compute. reflexivity.
  - vm_compute. by intros [[=]|[]].
  - apply (Forall_inv (short_texts_fit [id_text "prov" 1700000000002 1] eq_refl)).
  - vm_compute; reflexivity.
  - vm_compute; reflexivity.
  - vm_compute; reflexivity.
  - exists ts. exact H.
Defined.
