(* ===== verification/Agents.v ===== *)
(** Agents ([synapse/actor.rs]), their shared work ([synapse/coordination.rs]) and
    what they keep ([synapse/memory.rs], [synapse/tools.rs]).

    An actor is a function from the messages in its mailbox to their replies; its
    behaviour, which the caller supplies, is a parameter with a state of its own.
    A mailbox is first in, first out and every call of the registry sends at most
    one message, so a message is handled when it is sent; a reply that never comes
    is an error. The tables are over the class [RowStore], the task queues over
    the topics of [Flux], the clock as in [Mirror]. Recall by embedding belongs to
    the vector engine, which is not modelled.

    Theorems: an actor's state is that of its behaviour run on the payloads that
    came while it was running, in order; a checkpoint is there for the agent that
    is started from it, whatever process starts it; the tasks of a workflow are
    handed to a group in the order of their delegation, each until it is
    completed; shared state is that of the last write to its identifier; garbage
    collection deletes the short memories that have expired and nothing else. *)

From Stdlib Require Import Strings.Byte Strings.String Sorted ZArith Lia Bool Permutation.
From stdpp Require Import base list gmap strings.
From S2P Require Import Prelude OrdMap Utf8 Decimal ObjectStore Manifest Txn Compress Flux Rows Lexer Float Values Sorting Auth Mirror.

Open Scope Z_scope.

(** ** Actors *)

Inductive AgentStatus := Running | Paused | Terminated.

Definition status_str (s : AgentStatus) : string := match s with Running => "running" | Paused => "paused" | Terminated => "terminated" end.

(** [AgentState] is its short-term memory. *)
Abbreviation AgentState := (gmap string string).

Inductive AgentMessage := Msg_Deliver (payload : string) | Msg_Pause | Msg_Resume | Msg_Checkpoint | Msg_Terminate.

Definition CHECKPOINT : string := "__checkpoint".

Section Actors.
  Context {B : Type} (step : B -> AgentState -> string -> B * AgentState * string).

(** The variables of [actor_loop]; [ac_over] once the loop has ended. *)
Record AgentActor := mkActor { ac_step : B; ac_state : AgentState; ac_status : AgentStatus; ac_last_checkpoint : string; ac_over : bool }.

Definition actor_new (b : B) (state : AgentState) : AgentActor := mkActor b state Running EmptyString false.

(** One turn of [actor_loop], with the reply, if the message is answered. *)
Definition actor_turn (m : AgentMessage) (x : AgentActor) : AgentActor * option string :=
  if ac_over x then (x, None)
  else
    match m with
    | Msg_Deliver payload =>
        match ac_status x with
        | Running =>
            let '(b, state, out) := step (ac_step x) (ac_state x) payload in
            (mkActor b state (ac_status x) (ac_last_checkpoint x) false, Some out)
        | _ => (x, Some EmptyString)
        end
    | Msg_Pause => (mkActor (ac_step x) (ac_state x) Paused (ac_last_checkpoint x) false, None)
    | Msg_Resume => (mkActor (ac_step x) (ac_state x) Running (ac_last_checkpoint x) false, None)
    | Msg_Checkpoint =>
        let last_checkpoint := default (ac_last_checkpoint x) (ac_state x !! CHECKPOINT) in
        (mkActor (ac_step x) (ac_state x) (ac_status x) last_checkpoint false, Some last_checkpoint)
    | Msg_Terminate => (mkActor (ac_step x) (ac_state x) (ac_status x) (ac_last_checkpoint x) true, None)
    end.

Fixpoint actor_loop (mailbox : list AgentMessage) (x : AgentActor) : AgentActor * list (option string) :=
  match mailbox with
  | [] => (x, [])
  | m :: mailbox' => let '(x, r) := actor_turn m x in let '(x, l) := actor_loop mailbox' x in (x, r :: l)
  end.

(** [AgentHandle::send] and [checkpoint] wait for the reply, the others do not. *)
Definition ask (id : string) (m : AgentMessage) (x : AgentActor) : AgentActor * Result string :=
  let '(x, r) := actor_turn m x in (x, ok_or r ("agent " +:+ id +:+ " mailbox closed")).
Definition tell (id : string) (m : AgentMessage) (x : AgentActor) : AgentActor * Result unit :=
  if ac_over x then (x, Err ("agent " +:+ id +:+ " mailbox closed")) else (fst (actor_turn m x), Ok tt).

(** ** The registry *)

Definition AGENTS : string := "_synapse_agents".

Definition agent_row (id name status checkpoint : string) (created_at updated_at : Z) : bytes :=
  encode_cells [text_cell id; text_cell name; text_cell status; text_cell checkpoint; int_cell created_at; int_cell updated_at].

Section Registry.
  Context {S : Type} {rs : RowStore S} (clock : nat -> Z).

(** The live agents, the database, and the process around them. *)
Record Registry := mkRegistry { rg_handles : gmap string AgentActor; rg_db : S; rg_ambient : Ambient }.

Definition registry_new (db : S) (a : Ambient) : Registry := mkRegistry ∅ db a.

Definition set_handle (id : string) (x : AgentActor) (g : Registry) : Registry := mkRegistry (<[id := x]> (rg_handles g)) (rg_db g) (rg_ambient g).

Definition rg_now (g : Registry) : Z * Registry := let '(t, a) := read_now clock (rg_ambient g) in (t, mkRegistry (rg_handles g) (rg_db g) a).

Definition persist (id name : string) (status : AgentStatus) (checkpoint : string) (created_at : Z) (g : Registry) : Registry * Result unit :=
  let '(now, g) := rg_now g in
  let '(s, r) := rs_write AGENTS (as_bytes id) (agent_row id name (status_str status) checkpoint created_at now) (rg_db g) in
  (mkRegistry (rg_handles g) s (rg_ambient g), r).

(** A new task, the row, then the handle; without the row the handle is dropped. *)
Definition start_agent (id name : string) (b : B) (state : AgentState) (checkpoint : string) (g : Registry) : Registry * Result unit :=
  let '(now, g) := rg_now g in
  match persist id name Running checkpoint now g with
  | (g, Err e) => (g, Err e)
  | (g, Ok _) => (set_handle id (actor_new b state) g, Ok tt)
  end.

Definition spawn (id name : string) (b : B) (g : Registry) : Registry * Result unit := start_agent id name b ∅ EmptyString g.

Definition stored_checkpoint (row : option bytes) : string := default EmptyString (row ≫= (fun v => text_of_cell (decode_cell v 3))).

Definition resume_from_checkpoint (id name : string) (b : B) (g : Registry) : Registry * Result unit :=
  match rs_read AGENTS (as_bytes id) (rg_db g) with
  | Err e => (g, Err e)
  | Ok row =>
      let checkpoint := stored_checkpoint row in
      start_agent id name b (if String.eqb checkpoint EmptyString then ∅ else {[CHECKPOINT := checkpoint]}) checkpoint g
  end.

Definition list_live (g : Registry) : list string := map fst (map_to_list (rg_handles g)).

(** The message of a status, and the handle that goes with it. *)
Definition notify (id : string) (status : AgentStatus) (g : Registry) : Registry * Result unit :=
  match rg_handles g !! id with
  | None => (g, Ok tt)
  | Some x =>
      match tell id (match status with Paused => Msg_Pause | Running => Msg_Resume | Terminated => Msg_Terminate end) x with
      | (x, Err e) => (set_handle id x g, Err e)
      | (x, Ok _) => (match status with Terminated => mkRegistry (delete id (rg_handles g)) (rg_db g) (rg_ambient g) | _ => set_handle id x g end, Ok tt)
      end
  end.

(** The row of an agent, again, with a status and a checkpoint. *)
Definition rewrite_row (id : string) (status : AgentStatus) (checkpoint : bytes -> string) (g : Registry) : Registry * Result unit :=
  match rs_read AGENTS (as_bytes id) (rg_db g) with
  | Err e => (g, Err e)
  | Ok None => (g, Err ("agent " +:+ id +:+ " not found"))
  | Ok (Some row) =>
      let name := default EmptyString (text_of_cell (decode_cell row 1)) in
      let '(created_at, g) := match i64_of_cell (decode_cell row 4) with Some t => (t, g) | None => rg_now g end in
      persist id name status (checkpoint row) created_at g
  end.

Definition set_status (id : string) (status : AgentStatus) (g : Registry) : Registry * Result unit :=
  match notify id status g with
  | (g, Err e) => (g, Err e)
  | (g, Ok _) => rewrite_row id status (fun row => stored_checkpoint (Some row)) g
  end.

Definition checkpoint (id : string) (g : Registry) : Registry * Result string :=
  match rg_handles g !! id with
  | None =>
      match rs_read AGENTS (as_bytes id) (rg_db g) with
      | Err e => (g, Err e)
      | Ok None => (g, Err ("agent " +:+ id +:+ " not found"))
      | Ok (Some row) => (g, Ok (stored_checkpoint (Some row)))
      end
  | Some x =>
      match ask id Msg_Checkpoint x with
      | (x, Err e) => (set_handle id x g, Err e)
      | (x, Ok c) =>
          match rewrite_row id Running (fun _ => c) (set_handle id x g) with
          | (g, Err e) => (g, Err e)
          | (g, Ok _) => (g, Ok c)
          end
      end
  end.

Definition shown_agent (kv : KeyValue) : string * string * string * string :=
  let cell i := default EmptyString (text_of_cell (decode_cell (kv_value kv) i)) in (cell 0%nat, cell 1%nat, cell 2%nat, cell 3%nat).

Definition list_all (g : Registry) : Result (list (string * string * string * string)) :=
  let? kvs := rs_scan AGENTS (rg_db g) in Ok (map shown_agent kvs).

End Registry.
End Actors.
Arguments AgentActor : clear implicits.
Arguments Registry : clear implicits.

(** ** Tasks of a workflow *)

Section Tasks.
  Context {bcr : Bincode FluxRecord} {bco : Bincode OffsetCommit} (hash : bytes -> Z).

Definition task_topic (workflow : string) : string := ("__synapse_tasks_" ++ workflow)%string.

Definition ensure_workflow_topic (role : NodeRole) (workflow : string) (t : Topics) : Topics * Result string :=
  let topic := task_topic workflow in
  match flux_num_partitions topic t with
  | Some _ => (t, Ok topic)
  | None =>
      match create_topic role topic 1 (mkRetentionPolicy None None) t with
      | (t, Err e) => (t, Err e)
      | (t, Ok _) => (t, Ok topic)
      end
  end.

Definition delegate_task (role : NodeRole) (workflow task_json : string) (now : Z) (t : Topics) : Topics * Result Z :=
  match ensure_workflow_topic role workflow t with
  | (t, Err e) => (t, Err e)
  | (t, Ok topic) =>
      match topic_publish hash role topic (Some 0) None (as_bytes task_json) now t with
      | (t, Err e) => (t, Err e)
      | (t, Ok (_, offset)) => (t, Ok offset)
      end
  end.

Definition claim_task (role : NodeRole) (workflow group : string) (t : Topics) : Topics * Result (option (Z * string)) :=
  match ensure_workflow_topic role workflow t with
  | (t, Err e) => (t, Err e)
  | (t, Ok topic) => (t, let? records := topic_poll topic 0 group 1 t in Ok ((fun r => (fr_offset r, from_utf8_lossy (fr_value r))) <$> head records))
  end.

Definition complete_task (role : NodeRole) (workflow group : string) (offset : Z) (t : Topics) : Topics * Result unit :=
  match ensure_workflow_topic role workflow t with
  | (t, Err e) => (t, Err e)
  | (t, Ok topic) => topic_commit topic 0 group (u64_add offset 1) t
  end.

End Tasks.

(** ** Shared state *)

Definition STATE_TABLE : string := "_synapse_shared_state".

Definition state_id (workflow key : string) : string := (workflow ++ ":" ++ key)%string.

Section SharedState.
  Context {S : Type} {rs : RowStore S}.

Definition set_shared_state (workflow key value updated_by : string) (now : Z) (s : S) : S * Result unit :=
  let id := state_id workflow key in
  rs_write STATE_TABLE (as_bytes id)
    (encode_cells [text_cell id; text_cell workflow; text_cell key; text_cell value; text_cell updated_by; int_cell now]) s.

Definition get_shared_state (workflow key : string) (s : S) : Result (option string) :=
  let? row := rs_read STATE_TABLE (as_bytes (state_id workflow key)) s in
  Ok (row ≫= (fun v => text_of_cell (decode_cell v 3))).

Definition state_entry (workflow : string) (kv : KeyValue) : option (string * string) :=
  wf ← text_of_cell (decode_cell (kv_value kv) 1);
  if negb (String.eqb wf workflow) then None
  else
    key ← text_of_cell (decode_cell (kv_value kv) 2);
    Some (key, default EmptyString (text_of_cell (decode_cell (kv_value kv) 3))).

Definition list_shared_state (workflow : string) (s : S) : Result (list (string * string)) :=
  let? kvs := rs_scan STATE_TABLE s in Ok (omap (state_entry workflow) kvs).

(** ** Tools *)

Definition TOOLS : string := "_synapse_tools".

Record ToolDef := mkToolDef { td_name : string; td_description : string; td_schema_json : string }.

Definition decode_tool (value : bytes) : option ToolDef :=
  name ← text_of_cell (decode_cell value 0);
  Some (mkToolDef name (default EmptyString (text_of_cell (decode_cell value 1))) (default EmptyString (text_of_cell (decode_cell value 2)))).

(** [embedding] is the text of the vector. *)
Definition register_tool (name description schema_json : string) (embedding : option string) (now : Z) (s : S) : S * Result unit :=
  rs_write TOOLS (as_bytes name)
    (encode_cells [text_cell name; text_cell description; text_cell schema_json; embedding ≫= text_cell; int_cell now]) s.

Definition get_tool (name : string) (s : S) : Result (option ToolDef) :=
  let? row := rs_read TOOLS (as_bytes name) s in Ok (row ≫= decode_tool).

Definition list_tools (s : S) : Result (list ToolDef) :=
  let? kvs := rs_scan TOOLS s in Ok (omap (fun kv => decode_tool (kv_value kv)) kvs).

End SharedState.

(** ** Memories *)

Definition MEMORY : string := "_synapse_memory".

Record MemoryEntry := mkMemoryEntry { me_id : string; me_agent_id : string; me_tier : string; me_key : option string; me_content : string; me_ts : Z }.

Definition decode_memory (value : bytes) : option MemoryEntry :=
  id ← text_of_cell (decode_cell value 0);
  agent_id ← text_of_cell (decode_cell value 1);
  tier ← text_of_cell (decode_cell value 2);
  let key := text_of_cell (decode_cell value 3) in
  content ← text_of_cell (decode_cell value 4);
  ts ← i64_of_cell (decode_cell value 7);
  Some (mkMemoryEntry id agent_id tier key content ts).

Section Memories.
  Context {S : Type} {rs : RowStore S} (clock : nat -> Z).

Definition memory_cells (id agent_id tier : string) (key : option string) (content : string) (embedding : option string) (seq ts : Z) (expires_at : option Z) : list (option bytes) :=
  [text_cell id; text_cell agent_id; text_cell tier; key ≫= text_cell; text_cell content; embedding ≫= text_cell; int_cell seq; int_cell ts; expires_at ≫= int_cell].

Definition memory_insert (agent_id tier : string) (key : option string) (content : string) (embedding : option string) (expires_at : option Z)
    (a : Ambient) (s : S) : Ambient * S * Result string :=
  let '(id, a) := new_id clock "mem" a in
  let '(seq, a) := read_now clock a in
  let '(ts, a) := read_now clock a in
  let '(s, r) := rs_write MEMORY (as_bytes id) (encode_cells (memory_cells id agent_id tier key content embedding seq ts expires_at)) s in
  (a, s, match r with Ok _ => Ok id | Err e => Err e end).

Definition remember_short (agent_id : string) (key : option string) (content : string) (ttl_ms : Z) (a : Ambient) (s : S) : Ambient * S * Result string :=
  let '(now, a) := read_now clock a in memory_insert agent_id "short" key content None (Some (i64_wrap (now + ttl_ms))) a s.

Definition remember_long (agent_id : string) (key : option string) (content : string) (a : Ambient) (s : S) : Ambient * S * Result string :=
  memory_insert agent_id "long" key content None None a s.

Definition remember_episodic (agent_id content : string) (a : Ambient) (s : S) : Ambient * S * Result string :=
  memory_insert agent_id "episodic" None content None None a s.

Definition by_memory_ts (x y : MemoryEntry) : comparison := Z.compare (me_ts x) (me_ts y).

Definition is_long (agent_id key : string) (e : MemoryEntry) : bool :=
  String.eqb (me_tier e) "long" && String.eqb (me_agent_id e) agent_id && bool_decide (me_key e = Some key).

Definition recall_long (agent_id key : string) (s : S) : Result (option string) :=
  let? kvs := rs_scan MEMORY s in
  Ok (me_content <$> last (stable_sort by_memory_ts (List.filter (is_long agent_id key) (omap (fun kv => decode_memory (kv_value kv)) kvs)))).

(** [hits] is the answer of the time index. *)
Definition recall_episodic (agent_id : string) (hits : option (list KeyValue)) : list MemoryEntry :=
  match hits with
  | None => []
  | Some rows =>
      stable_sort by_memory_ts
        (List.filter (fun e => String.eqb (me_tier e) "episodic" && String.eqb (me_agent_id e) agent_id) (omap (fun kv => decode_memory (kv_value kv)) rows))
  end.

Definition expired (now : Z) (value : bytes) : bool :=
  match text_of_cell (decode_cell value 2), i64_of_cell (decode_cell value 8) with
  | Some tier, Some exp => String.eqb tier "short" && (exp <? now)
  | _, _ => false
  end.

Fixpoint gc_loop (now : Z) (kvs : list KeyValue) (deleted : Z) (s : S) : S * Result Z :=
  match kvs with
  | [] => (s, Ok deleted)
  | kv :: kvs' =>
      if expired now (kv_value kv) then
        match rs_delete MEMORY (kv_key kv) s with
        | (s, Err e) => (s, Err e)
        | (s, Ok _) => gc_loop now kvs' (deleted + 1) s
        end
      else gc_loop now kvs' deleted s
  end.

Definition gc (a : Ambient) (s : S) : Ambient * S * Result Z :=
  let '(now, a) := read_now clock a in
  match rs_scan MEMORY s with
  | Err e => (a, s, Err e)
  | Ok kvs => let '(s, r) := gc_loop now kvs 0 s in (a, s, r)
  end.

End Memories.

(** ** What an actor does *)

Section Behaviour.
  Context {B : Type} (step : B -> AgentState -> string -> B * AgentState * string).

(** The payloads that reach the behaviour. *)
Fixpoint served (status : AgentStatus) (mailbox : list AgentMessage) : list string :=
  match mailbox with
  | [] => []
  | Msg_Deliver p :: l => match status with Running => p :: served status l | _ => served status l end
  | Msg_Pause :: l => served Paused l
  | Msg_Resume :: l => served Running l
  | Msg_Checkpoint :: l => served status l
  | Msg_Terminate :: _ => []
  end.

Fixpoint run_steps (payloads : list string) (b : B) (m : AgentState) : B * AgentState * list string :=
  match payloads with
  | [] => (b, m, [])
  | p :: l => let '(b, m, out) := step b m p in let '(b, m, outs) := run_steps l b m in (b, m, out :: outs)
  end.

(** The replies to deliveries, and what they should be given the outputs. *)
Fixpoint delivery_replies (mailbox : list AgentMessage) (replies : list (option string)) : list (option string) :=
  match mailbox, replies with
  | Msg_Deliver _ :: l, r :: rs => r :: delivery_replies l rs
  | _ :: l, _ :: rs => delivery_replies l rs
  | _, _ => []
  end.

Fixpoint expected_replies (status : AgentStatus) (over : bool) (mailbox : list AgentMessage) (outs : list string) : list (option string) :=
  match mailbox with
  | [] => []
  | Msg_Deliver _ :: l =>
      if over then None :: expected_replies status over l outs
      else match status, outs with
           | Running, out :: outs => Some out :: expected_replies status over l outs
           | _, _ => Some EmptyString :: expected_replies status over l outs
           end
  | Msg_Pause :: l => expected_replies Paused over l outs
  | Msg_Resume :: l => expected_replies Running over l outs
  | Msg_Checkpoint :: l => expected_replies status over l outs
  | Msg_Terminate :: l => expected_replies status true l outs
  end.

Lemma actor_over (mailbox : list AgentMessage) (x : AgentActor B) : ac_over x = true -> actor_loop step mailbox x = (x, map (fun _ => None) mailbox).
Proof. intros Hx. induction mailbox as [|m l IH]; [done|]. cbn [actor_loop]. unfold actor_turn. rewrite Hx, IH. done. Qed.

Lemma replies_over (mailbox : list AgentMessage) status outs : delivery_replies mailbox (map (fun _ => None) mailbox) = expected_replies status true mailbox outs.
Proof. revert status. induction mailbox as [|m l IH]; intros status; [done|]. destruct m; cbn; [by rewrite (IH status) | apply IH..]. Qed.

(** Whatever messages come, the state of an actor and of its behaviour is that
    of the behaviour run on the payloads that came while it was running, in their
    order; each of these is answered with its output, a payload that comes while
    it is paused with the empty text, and one behind a Terminate not at all. *)
Theorem actor_runs_its_behaviour (mailbox : list AgentMessage) (x x' : AgentActor B) (replies : list (option string)) :
  ac_over x = false -> actor_loop step mailbox x = (x', replies) ->
  exists outs, run_steps (served (ac_status x) mailbox) (ac_step x) (ac_state x) = (ac_step x', ac_state x', outs)
    /\ delivery_replies mailbox replies = expected_replies (ac_status x) false mailbox outs.
Proof.
  revert x replies. induction mailbox as [|m l IH]; intros x replies Hx; cbn [actor_loop]; [intros [= <- <-]; by exists []|].
  destruct (actor_turn step m x) as [x1 r] eqn:E. destruct (actor_loop step l x1) as [x2 rs] eqn:El. intros [= <- <-]. unfold actor_turn in E. rewrite Hx in E.
  destruct m as [p| | | |]; cbn [served delivery_replies expected_replies].
  - destruct (ac_status x) eqn:Es.
    + destruct (step (ac_step x) (ac_state x) p) as [[b m] out] eqn:Ep. injection E as <- <-. destruct (IH (mkActor b m Running (ac_last_checkpoint x) false) rs eq_refl El) as (outs & Hr & Hd). cbn [ac_step ac_state ac_status] in Hr, Hd.
      exists (out :: outs). cbn [run_steps]. rewrite Ep, Hr. split; [done | by rewrite Hd].
    + injection E as <- <-. destruct (IH _ _ Hx El) as (outs & Hr & Hd). rewrite Es in Hr, Hd. exists outs. split; [done | by rewrite Hd].
    + injection E as <- <-. destruct (IH _ _ Hx El) as (outs & Hr & Hd). rewrite Es in Hr, Hd. exists outs. split; [done | by rewrite Hd].
  - injection E as <- <-. by eapply IH in El.
  - injection E as <- <-. by eapply IH in El.
  - injection E as <- <-. by eapply IH in El.
  - injection E as <- <-. rewrite actor_over in El by done. injection El as <- <-. exists []. split; [done|]. apply replies_over.
Qed.

End Behaviour.

(** ** Rows that read back *)

Lemma decode_cell_size (value : bytes) (idx : nat) (b : bytes) : decode_cell value idx = Some b -> zlen b < 2 ^ 31.
Proof.
  unfold decode_cell. generalize (S (length value)). intros fuel. revert value idx. induction fuel as [|fuel IH]; intros value idx; cbn [decode_cell_loop]; [done|].
  destruct (zlen value <? 4); [done|]. destruct (Z.ltb_spec (i32_from_be (take 4 value)) 0) as [H|H]; [destruct idx; [done | apply IH]|].
  destruct (Z.ltb_spec (zlen (drop 4 value)) (i32_from_be (take 4 value))); [done|]. destruct idx as [|idx]; [|apply IH]. intros [= <-].
  assert (i32_from_be (take 4 value) < 2 ^ 31) as Hlt.
  { unfold i32_from_be in *. destruct (Z.ltb_spec (from_be (take 4 value)) (2 ^ 31)); [done|]. pose proof (from_be_range (take 4 value)) as Hr.
    assert (256 ^ zlen (take 4 value) <= 256 ^ 4) by (apply Z.pow_le_mono_r; [lia|]; unfold zlen; rewrite length_take; lia). change (256 ^ 4) with (2 ^ 32) in *. lia. }
  unfold zlen. rewrite length_take. lia.
Qed.

Lemma text_of_cell_fits (value : bytes) (idx : nat) (s : string) : text_of_cell (decode_cell value idx) = Some s -> text_fits s.
Proof.
  unfold text_of_cell. destruct (decode_cell value idx) as [b|] eqn:E; [|done]. cbn [mbind option_bind]. intros H. apply decode_cell_size in E. unfold from_utf8 in H.
  destruct (utf8_valid b) eqn:Eu; [|done]. injection H as <-. unfold text_fits, is_string, as_bytes. by rewrite list_byte_of_string_of_list_byte.
Qed.

Lemma text_or_empty_fits (value : bytes) (idx : nat) : text_fits (default EmptyString (text_of_cell (decode_cell value idx))).
Proof. destruct (text_of_cell (decode_cell value idx)) as [s|] eqn:E; [by apply text_of_cell_fits in E | by split]. Qed.

(** The text of a cell of a row whose cells fit. *)
Lemma read_text_cell (cells : list (option bytes)) (idx : nat) (s : string) :
  Forall cell_fits cells -> cells !! idx = Some (text_cell s) -> is_string s -> text_of_cell (decode_cell (encode_cells cells) idx) = Some s.
Proof. intros Hc Hi Hs. rewrite decode_encode_cells, Hi by done. cbn [default from_option id]. by apply text_of_text_cell. Qed.

Ltac cells_fit := repeat (apply Forall_cons_2; [first [apply int_cell_fits | done | (cbn; lia)]|]); apply Forall_nil_2.

(** ** Checkpoints *)

Section Checkpoints.
  Context {B : Type} (step : B -> AgentState -> string -> B * AgentState * string) {S : Type} {rs : RowStore S} {laws : RowLaws S} (clock : nat -> Z).

Lemma status_fits st : text_fits (status_str st).
Proof. by destruct st; split. Qed.

Lemma agent_row_checkpoint id name st c t1 t2 :
  text_fits id -> text_fits name -> text_fits c -> stored_checkpoint (Some (agent_row id name (status_str st) c t1 t2)) = c.
Proof.
  intros [_ H1] [_ H2] [H3 H3']. unfold stored_checkpoint, agent_row. cbn [mbind option_bind]. erewrite read_text_cell; [done | | reflexivity | done].
  destruct (status_fits st) as [_ H4]. cells_fit.
Qed.

Lemma persist_row id name st c created (g g' : Registry B S) :
  rs_wf (rg_db g) -> persist clock id name st c created g = (g', Ok tt) ->
  rs_wf (rg_db g') /\ rg_handles g' = rg_handles g /\ exists now, om_get (as_bytes id) (rs_rows (rg_db g') AGENTS) = Some (agent_row id name (status_str st) c created now).
Proof.
  intros Hwf. unfold persist, rg_now, read_now. cbn [rg_db rg_handles rg_ambient]. destruct (rs_write _ _ _ _) as [s r] eqn:E. intros [= <- ->]. apply rs_write_law in E as (Hwf' & Hr & _); [|done].
  cbn [outcome] in Hr. cbn [rg_db rg_handles]. split_and!; [done | done|]. exists (clock (am_reads (rg_ambient g))). rewrite Hr, om_get_insert by by apply rs_sorted. unfold keqb. by rewrite cmp_refl.
Qed.

Lemma read_persisted id (g : Registry B S) row : rs_wf (rg_db g) -> om_get (as_bytes id) (rs_rows (rg_db g) AGENTS) = Some row -> forall r, rs_read AGENTS (as_bytes id) (rg_db g) = Ok r -> r = Some row.
Proof. intros Hwf H r Hr. apply rs_read_law in Hr; [|done]. congruence. Qed.

Definition checkpoint_of (x : AgentActor B) : string := default (ac_last_checkpoint x) (ac_state x !! CHECKPOINT).

(** A checkpoint that a live agent has made, and that was stored, is what an
    agent started from it in any later process begins with; its next checkpoint,
    before any message, is the same text. *)
Theorem checkpoint_survives_restart (id name : string) (b : B) (x : AgentActor B) (g g1 g2 : Registry B S) (a : Ambient) (c : string) :
  rs_wf (rg_db g) -> text_fits id -> rg_handles g !! id = Some x -> text_fits (checkpoint_of x) ->
  checkpoint step clock id g = (g1, Ok c) ->
  resume_from_checkpoint clock id name b (registry_new (rg_db g1) a) = (g2, Ok tt) ->
  c = checkpoint_of x
  /\ exists y, rg_handles g2 !! id = Some y /\ ac_status y = Running /\ ac_step y = b /\ (c <> EmptyString -> ac_state y !! CHECKPOINT = Some c) /\ checkpoint_of y = c.
Proof.
  intros Hwf Hid Hx Hfit Hc Hr. unfold checkpoint in Hc. rewrite Hx in Hc. unfold ask, actor_turn in Hc. destruct (ac_over x); [done|]. cbn [ok_or] in Hc. fold (checkpoint_of x) in Hc.
  destruct (rewrite_row _ _ _ _ _) as [g' w] eqn:Ew. destruct w as [u|e]; [|done]. injection Hc as <- <-. split; [done|].
  assert (rs_wf (rg_db g') /\ exists row, om_get (as_bytes id) (rs_rows (rg_db g') AGENTS) = Some row /\ stored_checkpoint (Some row) = checkpoint_of x) as (Hwf' & row & Hrow & Hcp).
  { unfold rewrite_row in Ew. destruct (rs_read _ _ _) as [[old|]|]; [|done..]. destruct u.
    destruct (i64_of_cell (decode_cell old 4)) as [t|]; [|unfold rg_now in Ew; destruct (read_now _ _) as [t am]]; apply persist_row in Ew as (Hwf' & _ & now & Hrow); try done;
      (split; [done|]); eexists; (split; [exact Hrow|]); apply agent_row_checkpoint; [done | apply text_or_empty_fits | done | done | apply text_or_empty_fits | done]. }
  unfold resume_from_checkpoint in Hr. cbn [rg_db registry_new] in Hr. destruct (rs_read AGENTS (as_bytes id) (rg_db g')) as [r|] eqn:Erd; [|done].
  apply (read_persisted id g' row) in Erd as ->; [|done..]. rewrite Hcp in Hr. unfold start_agent in Hr. destruct (rg_now clock (registry_new (rg_db g') a)) as [now g3].
  destruct (persist _ _ _ _ _ _ _) as [g4 [u'|]]; [|done]. injection Hr as <-. eexists. cbn [set_handle rg_handles]. split; [apply lookup_insert_eq|]. cbn [actor_new ac_status ac_step ac_state].
  split_and!; [done | done| |].
  - intros Hne. rewrite (proj2 (String.eqb_neq _ _) Hne). apply lookup_singleton_eq.
  - unfold checkpoint_of at 1. cbn [ac_state ac_last_checkpoint actor_new]. destruct (String.eqb_spec (checkpoint_of x) EmptyString) as [->|]; [done|]. by rewrite lookup_singleton_eq.
Qed.

End Checkpoints.

(** ** The last write wins *)

Section LastWrite.
  Context {S : Type} {rs : RowStore S} {laws : RowLaws S}.

(** Behind a write of shared state that succeeds, its key reads as the value
    that was written, and every other identifier reads as before. *)
Theorem shared_state_is_the_last_write (workflow key value updated_by : string) (now : Z) (s s' : S) (other_workflow other_key : string) (r r' : option string) :
  rs_wf s -> text_fits (state_id workflow key) -> text_fits workflow -> text_fits key -> text_fits value -> text_fits updated_by ->
  set_shared_state workflow key value updated_by now s = (s', Ok tt) ->
  get_shared_state other_workflow other_key s = Ok r -> get_shared_state other_workflow other_key s' = Ok r' ->
  r' = if String.eqb (state_id other_workflow other_key) (state_id workflow key) then Some value else r.
Proof.
  intros Hwf [_ H1] [_ H2] [_ H3] [H4 H4'] [_ H5] Hset Hg Hg'. unfold set_shared_state in Hset. apply rs_write_law in Hset as (Hwf' & Hrows & _); [|done]. cbn [outcome] in Hrows.
  unfold get_shared_state in Hg, Hg'. destruct (rs_read STATE_TABLE _ s) as [row|] eqn:E; [|done]. destruct (rs_read STATE_TABLE _ s') as [row'|] eqn:E'; [|done]. injection Hg as <-. injection Hg' as <-.
  apply rs_read_law in E, E'; [|done..]. rewrite Hrows, om_get_insert in E' by by apply rs_sorted. subst row row'.
  destruct (String.eqb_spec (state_id other_workflow other_key) (state_id workflow key)) as [->|Hne].
  - unfold keqb. rewrite cmp_refl. cbn [mbind option_bind]. erewrite read_text_cell; [done | cells_fit | reflexivity | done].
  - destruct (keqb _ _) eqn:Ek; [|done]. apply keqb_true in Ek. destruct Hne. rewrite <- (string_of_list_byte_of_string (state_id other_workflow other_key)), <- (string_of_list_byte_of_string (state_id workflow key)). by f_equal.
Qed.

(** A tool that was registered is found under its name. *)
Lemma registered_tool_is_found (name description schema_json : string) (embedding : option string) (now : Z) (s s' : S) r :
  rs_wf s -> text_fits name -> text_fits description -> text_fits schema_json -> (forall e, embedding = Some e -> text_fits e) ->
  register_tool name description schema_json embedding now s = (s', Ok tt) -> get_tool name s' = Ok r -> r = Some (mkToolDef name description schema_json).
Proof.
  intros Hwf [H1 H1'] [H2 H2'] [H3 H3'] He Hset Hg. unfold register_tool in Hset. apply rs_write_law in Hset as (Hwf' & Hrows & _); [|done]. cbn [outcome] in Hrows.
  unfold get_tool in Hg. destruct (rs_read TOOLS _ s') as [row|] eqn:E; [|done]. injection Hg as <-. apply rs_read_law in E; [|done]. rewrite Hrows, om_get_insert in E by by apply rs_sorted.
  unfold keqb in E. rewrite cmp_refl in E. subst row. cbn [mbind option_bind]. unfold decode_tool. set (cells := [_; _; _; _; _]).
  assert (Forall cell_fits cells) as Hc by (unfold cells; repeat (apply Forall_cons_2; [first [apply int_cell_fits | done | (destruct embedding as [e|]; [by apply (He e) | done])]|]); apply Forall_nil_2).
  rewrite (read_text_cell cells 0 name), (read_text_cell cells 1 description), (read_text_cell cells 2 schema_json) by done. done.
Qed.

(** *** Garbage collection *)

Definition live_row (now : Z) (row : bytes * bytes) : bool := negb (expired now (snd row)).

Lemma gc_loop_rows now (l : list (bytes * bytes)) (n : Z) (s s' : S) (r : Result Z) :
  rs_wf s -> (forall k, In k (map fst l) -> exists v, In (k, v) l /\ om_get k (rs_rows s MEMORY) = Some v) -> NoDup (map fst l) ->
  gc_loop now (map kv_of l) n s = (s', r) ->
  rs_wf s' /\ (forall t, t <> MEMORY -> rs_rows s' t = rs_rows s t)
  /\ (forall k v, om_get k (rs_rows s' MEMORY) = Some v -> om_get k (rs_rows s MEMORY) = Some v)
  /\ (forall k v, om_get k (rs_rows s MEMORY) = Some v -> ~ (In (k, v) l /\ expired now v = true) -> om_get k (rs_rows s' MEMORY) = Some v)
  /\ (forall m, r = Ok m -> m = n + zlen (List.filter (fun p => expired now (snd p)) l) /\ forall k v, In (k, v) l -> expired now v = true -> om_get k (rs_rows s' MEMORY) = None).
Proof.
  revert n s. induction l as [|[k v] l IH]; intros n s Hwf Hin Hnd; cbn [map gc_loop kv_of kv_value kv_key fst snd].
  - intros [= <- <-]. split_and!; try done. intros m [= <-]. split; [cbn [List.filter]; rewrite zlen_nil; lia | done].
  - cbn [map] in Hnd. apply NoDup_cons in Hnd as [Hk Hnd]. assert (om_get k (rs_rows s MEMORY) = Some v) as Hkv.
    { destruct (Hin k ltac:(by left)) as (v' & [[= <-]|Hv'] & Hg); [done|]. destruct Hk. apply list_elem_of_In, in_map_iff. by exists (k, v'). }
    destruct (expired now v) eqn:Ex.
    + destruct (rs_delete MEMORY k s) as [s1 w] eqn:Ed. apply rs_delete_law in Ed as (Hwf1 & Hout & Hoth); [|done].
      destruct w as [u|e]; cbn [outcome] in Hout.
      * assert (forall k', om_get k' (rs_rows s1 MEMORY) = if keqb k' k then None else om_get k' (rs_rows s MEMORY)) as Hget by (intros k'; rewrite Hout; apply om_get_remove; by apply rs_sorted).
        intros H. apply IH in H as (Hwf' & Ho' & Hsub & Hkeep & Hn); [|done| |done].
        2: { intros k' Hk'. destruct (Hin k' ltac:(by right)) as (v' & [[= <- <-]|Hv'] & Hg); [by destruct Hk; apply list_elem_of_In|]. exists v'. split; [done|]. rewrite Hget.
             destruct (keqb k' k) eqn:E; [|done]. apply keqb_true in E as ->. by destruct Hk; apply list_elem_of_In. }
        split_and!; [done | intros t Ht; rewrite Ho', Hoth by done; done | | |].
        -- intros k' v' Hv'. apply Hsub in Hv'. rewrite Hget in Hv'. by destruct (keqb k' k).
        -- intros k' v' Hv' Hnot. apply Hkeep; [|intros [H1 H2]; apply Hnot; split; [by right | done]]. rewrite Hget. destruct (keqb k' k) eqn:E; [|done].
           apply keqb_true in E as ->. destruct Hnot. rewrite Hkv in Hv'. injection Hv' as <-. split; [by left | done].
        -- intros m Hm. destruct (Hn m Hm) as [-> Hgone]. cbn [List.filter snd]. rewrite Ex, zlen_cons. split; [lia|]. intros k' v' [[= <- <-]|Hv'] He; [|by eapply Hgone].
           destruct (om_get k (rs_rows s' MEMORY)) as [v'|] eqn:E; [|done]. apply Hsub in E. rewrite Hget in E. unfold keqb in E. by rewrite cmp_refl in E.
      * intros [= <- <-]. split_and!; [done | done | | | done].
        -- intros k' v' Hv'. destruct Hout as [Hout|Hout]; rewrite Hout in Hv'; [|done]. rewrite om_get_remove in Hv' by by apply rs_sorted. by destruct (keqb k' k).
        -- intros k' v' Hv' Hnot. destruct Hout as [Hout|Hout]; rewrite Hout; [|done]. rewrite om_get_remove by by apply rs_sorted. destruct (keqb k' k) eqn:E; [|done].
           apply keqb_true in E as ->. destruct Hnot. rewrite Hkv in Hv'. injection Hv' as <-. split; [by left | done].
    + intros H. apply IH in H as (Hwf' & Ho' & Hsub & Hkeep & Hn); [|done| |done].
      2: { intros k' Hk'. destruct (Hin k' ltac:(by right)) as (v' & [[= <- <-]|Hv'] & Hg); [by destruct Hk; apply list_elem_of_In|]. by exists v'. }
      split_and!; [done | done | done | |].
      -- intros k' v' Hv' Hnot. apply Hkeep; [done|]. intros [H1 H2]. apply Hnot. split; [by right | done].
      -- intros m Hm. destruct (Hn m Hm) as [-> Hgone]. cbn [List.filter snd]. rewrite Ex. split; [done|]. intros k' v' [[= <- <-]|Hv'] He; [congruence | by eapply Hgone].
Qed.

Lemma om_get_filtered {V : Type} (p : bytes * V -> bool) (m : list (bytes * V)) (k : bytes) :
  om_sorted m -> om_get k (List.filter p m) = match om_get k m with Some v => if p (k, v) then Some v else None | None => None end.
Proof.
  induction m as [|[k' v'] m IH]; [done|]. rewrite om_sorted_cons. intros [Hall Hs]. cbn [List.filter om_get]. destruct (keqb k k') eqn:E.
  - apply keqb_true in E as ->. destruct (p (k', v')); cbn [om_get]; [unfold keqb; by rewrite cmp_refl|]. destruct (om_get k' (List.filter p m)) as [v|] eqn:Eg; [|done].
    apply om_get_Some_In, filter_In in Eg as [Hin _]. rewrite Forall_forall in Hall. apply list_elem_of_In, Hall in Hin. by apply lt_cmp_irrefl in Hin.
  - destruct (p (k', v')); cbn [om_get]; rewrite ?E; by apply IH.
Qed.

Lemma om_sorted_filter {V : Type} (p : bytes * V -> bool) (m : list (bytes * V)) : om_sorted m -> om_sorted (List.filter p m).
Proof. apply filter_sorted. Qed.

(** Collecting garbage deletes the short memories that have expired, and counts
    them; every other row, of this table and of the others, is as it was, and when
    a deletion fails on the way nothing but expired ones is gone. *)
Theorem gc_deletes_expired_memories (clock : nat -> Z) (a a' : Ambient) (s s' : S) (r : Result Z) :
  rs_wf s -> gc clock a s = (a', s', r) ->
  let now := clock (am_reads a) in
  (forall t, t <> MEMORY -> rs_rows s' t = rs_rows s t)
  /\ (forall k v, om_get k (rs_rows s MEMORY) = Some v -> expired now v = false -> om_get k (rs_rows s' MEMORY) = Some v)
  /\ (forall n, r = Ok n -> rs_rows s' MEMORY = List.filter (live_row now) (rs_rows s MEMORY)
      /\ n = zlen (List.filter (fun p => expired now (snd p)) (rs_rows s MEMORY))).
Proof.
  intros Hwf H now. unfold gc, read_now in H. fold now in H. destruct (rs_scan MEMORY s) as [kvs|e] eqn:E; [|by injection H as <- <- <-].
  apply rs_scan_law in E as ->; [|done]. pose proof (rs_sorted s MEMORY Hwf) as Hs. destruct (gc_loop now (map kv_of (rs_rows s MEMORY)) 0 s) as [s1 r1] eqn:Eg. injection H as <- <- <-.
  apply gc_loop_rows in Eg as (Hwf' & Ho & Hsub & Hkeep & Hn); [|done | | by apply NoDup_ListNoDup, om_sorted_NoDup].
  2: { intros k Hk. apply in_map_iff in Hk as ([k' v] & <- & Hk). exists v. split; [done|]. by apply om_get_In. }
  split_and!; [done | intros k v Hv He; apply Hkeep; [done | intros [_ He']; congruence]|]. intros n ->. destruct (Hn n eq_refl) as [-> Hgone]. split; [|done].
  apply om_ext; [by apply rs_sorted | by apply om_sorted_filter|]. intros k. rewrite om_get_filtered by done. unfold live_row. cbn [snd].
  destruct (om_get k (rs_rows s MEMORY)) as [v|] eqn:Ev.
  - destruct (expired now v) eqn:Ex; cbn [negb]; [apply (Hgone k v); [by apply om_get_Some_In | done]|]. apply Hkeep; [done | intros [_ He']; congruence].
  - destruct (om_get k (rs_rows s1 MEMORY)) as [v|] eqn:E1; [|done]. apply Hsub in E1. congruence.
Qed.
End LastWrite.

(** ** Task queues *)

(** What a queue promises: tasks in order, and where each group stands. *)
Record Queues := mkQueues { q_tasks : gmap string (list string); q_next : gmap (string * string) Z }.

Inductive TaskOp :=
| Delegate (workflow task : string) (now : Z)
| Claim (workflow group : string)
| Complete (workflow group : string) (offset : Z).

Inductive TaskResult := R_offset (r : Result Z) | R_task (r : Result (option (Z * string))) | R_done (r : Result unit).

Definition tasks_of (w : string) (q : Queues) : list string := default [] (q_tasks q !! w).
Definition next_of (w g : string) (q : Queues) : Z := default 0 (q_next q !! (w, g)).

Definition queue_op (op : TaskOp) (q : Queues) : Queues * TaskResult :=
  match op with
  | Delegate w x _ => (mkQueues (<[w := tasks_of w q ++ [x]]> (q_tasks q)) (q_next q), R_offset (Ok (zlen (tasks_of w q))))
  | Claim w g =>
      (mkQueues (<[w := tasks_of w q]> (q_tasks q)) (q_next q),
       R_task (Ok ((fun x => (next_of w g q, x)) <$> tasks_of w q !! Z.to_nat (next_of w g q))))
  | Complete w g offset => (mkQueues (<[w := tasks_of w q]> (q_tasks q)) (<[(w, g) := offset + 1]> (q_next q)), R_done (Ok tt))
  end.

Section Delegation.
  Context {bcr : Bincode FluxRecord} {bco : Bincode OffsetCommit} (hash : bytes -> Z).

Definition task_op (op : TaskOp) (t : Topics) : Topics * TaskResult :=
  match op with
  | Delegate w x now => let '(t, r) := delegate_task hash Writer w x now t in (t, R_offset r)
  | Claim w g => let '(t, r) := claim_task Writer w g t in (t, R_task r)
  | Complete w g offset => let '(t, r) := complete_task Writer w g offset t in (t, R_done r)
  end.

Fixpoint run_ops {A : Type} (f : TaskOp -> A -> A * TaskResult) (ops : list TaskOp) (x : A) : A * list TaskResult :=
  match ops with
  | [] => (x, [])
  | op :: ops' => let '(x, r) := f op x in let '(x, l) := run_ops f ops' x in (x, r :: l)
  end.

Definition op_ok (op : TaskOp) : Prop :=
  match op with Delegate _ x _ => is_string x | Claim _ _ => True | Complete _ _ offset => 0 <= offset /\ offset + 1 < 2 ^ 64 end.

(** The records of tasks, from an offset on, at any times. *)
Inductive task_records : Z -> list string -> list FluxRecord -> Prop :=
| TR_nil n : task_records n [] []
| TR_cons n x now xs rs : task_records (n + 1) xs rs -> task_records n (x :: xs) (mkFluxRecord n None (as_bytes x) now :: rs).

Record holds_queue (l : FluxLog) (tasks : list string) (next : string -> Z) : Prop := {
  hq_partition : exists p, fl_partitions l = [p] /\ task_records 0 tasks (pt_records p) /\ pt_next_offset p = zlen tasks;
  hq_retention : fl_retention l = mkRetentionPolicy None None;
  hq_next g : default 0 (fl_offsets l !! (g, 0)) = next g;
}.

Definition implements (t : Topics) (q : Queues) : Prop :=
  (forall w, match q_tasks q !! w with
             | Some tasks => exists l, tp_topics t !! task_topic w = Some l /\ holds_queue l tasks (fun g => next_of w g q)
             | None => tp_topics t !! task_topic w = None /\ tp_dirs t !! task_topic w = None /\ forall g, next_of w g q = 0
             end)
  /\ (forall w tasks, q_tasks q !! w = Some tasks -> Forall is_string tasks) /\ (forall w g, 0 <= next_of w g q < 2 ^ 64).

Lemma task_topic_inj w w' : task_topic w = task_topic w' -> w = w'.
Proof. unfold task_topic. intros H. repeat (injection H as H). done. Qed.

Lemma task_records_snoc n xs rs x now : task_records n xs rs -> task_records n (xs ++ [x]) (rs ++ [mkFluxRecord (n + zlen xs) None (as_bytes x) now]).
Proof.
  induction 1 as [n|n y t xs rs _ IH]; cbn [app].
  - rewrite zlen_nil, Z.add_0_r. repeat constructor.
  - constructor. rewrite zlen_cons. by replace (n + (1 + zlen xs)) with (n + 1 + zlen xs) by lia.
Qed.

(** Polling one record from an offset on. *)
Lemma task_records_poll n xs rs from :
  task_records n xs rs -> 0 <= from ->
  (fun r => (fr_offset r, fr_value r)) <$> head (take 1 (List.filter (fun r => fr_offset r >=? from) rs))
  = (fun x => (Z.max n from, as_bytes x)) <$> xs !! Z.to_nat (from - n).
Proof.
  induction 1 as [n|n x t xs rs Hrs IH]; intros Hf; [done|]. cbn [List.filter fr_offset]. destruct (Z.geb_spec n from).
  - replace (Z.to_nat (from - n)) with 0%nat by lia. cbn. by rewrite Z.max_l by lia.
  - rewrite IH by done. replace (Z.to_nat (from - n)) with (S (Z.to_nat (from - (n + 1)))) by lia. cbn [lookup list_lookup]. by replace (Z.max (n + 1) from) with (Z.max n from) by lia.
Qed.

Definition known_workflow (w : string) (q : Queues) : Queues := mkQueues (<[w := tasks_of w q]> (q_tasks q)) (q_next q).

Lemma next_of_known w w' g q : next_of w' g (known_workflow w q) = next_of w' g q.
Proof. done. Qed.

Lemma ensure_implements t q w :
  implements t q -> exists t', ensure_workflow_topic Writer w t = (t', Ok (task_topic w)) /\ implements t' (known_workflow w q).
Proof.
  intros (Hq & Hs & Hn). unfold ensure_workflow_topic, flux_num_partitions. pose proof (Hq w) as Hw. destruct (q_tasks q !! w) as [tasks|] eqn:E.
  - destruct Hw as (l & Hl & Hh). rewrite Hl. exists t. split; [done|]. unfold known_workflow, tasks_of. rewrite E. cbn [default from_option id]. rewrite insert_id by done. done.
  - destruct Hw as (Ht & Hd & Hz). rewrite Ht. cbn [fmap option_fmap option_map]. unfold create_topic, role_writable, create_in, dir_of. rewrite Ht, Hd. cbn. eexists. split; [reflexivity|].
    unfold known_workflow, tasks_of. rewrite E. cbn [default from_option id]. split_and!; cbn [q_tasks tp_topics tp_dirs].
    + intros w'. destruct (decide (w' = w)) as [->|Hne].
      * rewrite !lookup_insert_eq. eexists. split; [reflexivity|]. split; cbn; [exists partition_new; repeat constructor | done|]. intros g. rewrite lookup_empty. cbn. symmetry. apply Hz.
      * rewrite lookup_insert_ne by done. rewrite !lookup_insert_ne by (intros Ht'; by apply Hne, task_topic_inj). apply Hq.
    + intros w' tasks Hw'. apply lookup_insert_Some in Hw' as [[_ <-]|[_ Hw']]; [done | by eapply Hs].
    + done.
Qed.

Lemma known_tasks w q : q_tasks (known_workflow w q) !! w = Some (tasks_of w q).
Proof. apply lookup_insert_eq. Qed.

(** Changing the log of one workflow. *)
Lemma implements_update t q w l dir tasks next :
  implements t q -> q_tasks q !! w <> None -> Forall is_string tasks -> (forall g, 0 <= default 0 (next !! (w, g)) < 2 ^ 64) ->
  (forall w' g, w' <> w -> next !! (w', g) = q_next q !! (w', g)) ->
  holds_queue l tasks (fun g => default 0 (next !! (w, g))) ->
  implements (mkTopics (<[task_topic w := l]> (tp_topics t)) (<[task_topic w := dir]> (tp_dirs t))) (mkQueues (<[w := tasks]> (q_tasks q)) next).
Proof.
  intros (Hq & Hs & Hn) _ Hstr Hb Hoth Hh. split_and!; cbn [q_tasks tp_topics tp_dirs].
  - intros w'. destruct (decide (w' = w)) as [->|Hne].
    + rewrite !lookup_insert_eq. by exists l.
    + rewrite lookup_insert_ne by done. rewrite !lookup_insert_ne by (intros Ht'; by apply Hne, task_topic_inj). pose proof (Hq w') as Hw'.
      assert (forall g, next_of w' g (mkQueues (<[w := tasks]> (q_tasks q)) next) = next_of w' g q) as Enext by (intros g; unfold next_of; cbn [q_next]; by rewrite Hoth).
      destruct (q_tasks q !! w'); [|destruct Hw' as (H1 & H2 & H3); split_and!; [done | done | intros g; by rewrite Enext]].
      destruct Hw' as (l' & Hl & [Hp Hr Hx]). exists l'. split; [done|]. split; [done | done|]. intros g. rewrite Hx. symmetry. apply Enext.
  - intros w' tasks' Hw'. apply lookup_insert_Some in Hw' as [[_ <-]|[_ Hw']]; [done | by eapply Hs].
  - intros w' g. unfold next_of. cbn [q_next]. destruct (decide (w' = w)) as [->|Hne]; [apply Hb | rewrite Hoth by done; apply Hn].
Qed.

Lemma delegate_implements t q w x now :
  implements t q -> is_string x -> zlen (tasks_of w q) + 1 < 2 ^ 64 ->
  exists t', delegate_task hash Writer w x now t = (t', Ok (zlen (tasks_of w q))) /\ implements t' (fst (queue_op (Delegate w x now) q)).
Proof.
  intros Hi Hx Hlen. destruct (ensure_implements t q w Hi) as (t1 & E & Hi1). unfold delegate_task. rewrite E. pose proof (proj1 Hi1 w) as Hw. rewrite known_tasks in Hw.
  destruct Hw as (l & Hl & [(p & Hp & Hr & Hno) Hret Hnx]). pose proof (zlen_nonneg (tasks_of w q)). unfold topic_publish, role_writable. rewrite Hl. unfold publish, publish_target, num_partitions. rewrite Hp. cbn [length zlen].
  change (0 <? zlen [p] mod 2 ^ 32) with true. cbv beta iota. change (Z.to_nat 0) with 0%nat. cbn [lookup list_lookup]. unfold append. rewrite Hret. unfold apply_retention. cbn [retention_ms retention_bytes]. rewrite Hno. eexists. split; [reflexivity|].
  cbn [queue_op fst]. rewrite (u64_add_small (zlen (tasks_of w q)) 1) by lia.
  pose proof (implements_update t1 (known_workflow w q) w) as Hu. cbn [known_workflow q_tasks q_next] in Hu. rewrite <- (insert_insert_eq (q_tasks q) w (tasks_of w q ++ [x]) (tasks_of w q)).
  eapply Hu; [done | by rewrite lookup_insert_eq | | apply Hi | done |].
  - apply Forall_app_2; [|by apply Forall_singleton]. unfold tasks_of. destruct (q_tasks q !! w) as [tasks|] eqn:Et; [|done]. by eapply (proj1 (proj2 Hi)).
  - split; cbn [fl_partitions fl_retention fl_offsets]; [|done|exact Hnx]. eexists. split; [reflexivity|]. cbn [pt_records pt_next_offset push_record]. split; [|rewrite zlen_app; by change (zlen [x]) with 1].
    apply (task_records_snoc 0 _ _ x now Hr).
Qed.

Lemma claim_implements t q w g :
  implements t q -> exists t', claim_task Writer w g t = (t', Ok ((fun x => (next_of w g q, x)) <$> tasks_of w q !! Z.to_nat (next_of w g q))) /\ implements t' (known_workflow w q).
Proof.
  intros Hi. destruct (ensure_implements t q w Hi) as (t1 & E & Hi1). unfold claim_task. rewrite E. exists t1. split; [|done]. f_equal. pose proof (proj1 Hi1 w) as Hw. rewrite known_tasks in Hw.
  destruct Hw as (l & Hl & [(p & Hp & Hr & Hno) Hret Hnx]). unfold topic_poll, flux_poll. rewrite Hl. cbn [ok_or]. rewrite Hp. change (Z.to_nat 0) with 0%nat. cbn [lookup list_lookup ok_or]. rewrite Hnx, next_of_known. f_equal.
  pose proof (proj2 (proj2 Hi) w g) as Hb. pose proof (task_records_poll 0 _ _ (next_of w g q) Hr (proj1 Hb)) as Hpoll. rewrite Z.sub_0_r, Z.max_r in Hpoll by lia.
  unfold partition_poll. destruct (head _) as [r|]; cbn [fmap option_fmap option_map] in Hpoll |- *; destruct (tasks_of w q !! Z.to_nat (next_of w g q)) as [x|] eqn:Ex; cbn in Hpoll; try done.
  injection Hpoll as -> ->. cbn. rewrite from_utf8_lossy_as_bytes; [done|]. unfold tasks_of in Ex. destruct (q_tasks q !! w) as [tasks|] eqn:Et; [|done]. cbn in Ex.
  pose proof (proj1 (proj2 Hi) w tasks Et) as Hstr. rewrite Forall_lookup in Hstr. by eapply Hstr.
Qed.

Lemma complete_implements t q w g offset :
  implements t q -> 0 <= offset -> offset + 1 < 2 ^ 64 ->
  exists t', complete_task Writer w g offset t = (t', Ok tt) /\ implements t' (fst (queue_op (Complete w g offset) q)).
Proof.
  intros Hi Ho Hb. destruct (ensure_implements t q w Hi) as (t1 & E & Hi1). unfold complete_task. rewrite E. pose proof (proj1 Hi1 w) as Hw. rewrite known_tasks in Hw.
  destruct Hw as (l & Hl & [(p & Hp & Hr & Hno) Hret Hnx]). unfold topic_commit, flux_commit. rewrite Hl, Hp. change (negb (0 <? zlen [p])) with false. cbv beta iota. eexists. split; [reflexivity|].
  cbn [queue_op fst]. rewrite u64_add_small by lia. pose proof (implements_update t1 (known_workflow w q) w) as Hu. cbn [known_workflow q_tasks q_next] in Hu. rewrite <- (insert_insert_eq (q_tasks q) w (tasks_of w q) (tasks_of w q)).
  eapply Hu; [done | by rewrite lookup_insert_eq | | | |].
  - unfold tasks_of. destruct (q_tasks q !! w) as [tasks|] eqn:Et; [|done]. by eapply (proj1 (proj2 Hi)).
  - intros g'. destruct (decide (g' = g)) as [->|Hne]; [rewrite lookup_insert_eq; cbn; lia|]. rewrite lookup_insert_ne by congruence. apply Hi.
  - intros w' g' Hne. by rewrite lookup_insert_ne by congruence.
  - split; cbn [fl_partitions fl_retention fl_offsets]; [by exists p | done|]. intros g'. destruct (decide (g' = g)) as [->|Hne]; [by rewrite !lookup_insert_eq|].
    rewrite !lookup_insert_ne by congruence. apply Hnx.
Qed.

Lemma op_implements t q op :
  implements t q -> op_ok op -> (forall w, zlen (tasks_of w q) + 1 < 2 ^ 64) ->
  exists t', task_op op t = (t', snd (queue_op op q)) /\ implements t' (fst (queue_op op q)).
Proof.
  intros Hi Hop Hlen. destruct op as [w x now|w g|w g offset]; cbn [task_op op_ok] in *.
  - destruct (delegate_implements t q w x now Hi Hop (Hlen w)) as (t' & E & Hi'). exists t'. by rewrite E.
  - destruct (claim_implements t q w g Hi) as (t' & E & Hi'). exists t'. by rewrite E.
  - destruct (complete_implements t q w g offset Hi (proj1 Hop) (proj2 Hop)) as (t' & E & Hi'). exists t'. by rewrite E.
Qed.

Definition no_topics : Topics := mkTopics ∅ ∅.
Definition no_queues : Queues := mkQueues ∅ ∅.

Lemma no_topics_implement : implements no_topics no_queues.
Proof. split_and!; [intros w; cbn; rewrite !lookup_empty; split_and!; try done; intros g; unfold next_of; cbn; by rewrite lookup_empty | done | intros w g; unfold next_of; cbn; by rewrite lookup_empty]. Qed.

Lemma tasks_of_op w op q : zlen (tasks_of w (fst (queue_op op q))) <= zlen (tasks_of w q) + 1.
Proof.
  destruct op as [w' x now|w' g|w' g offset]; cbn [queue_op fst]; unfold tasks_of at 1; cbn [q_tasks]; (destruct (decide (w = w')) as [->|Hne]; [rewrite lookup_insert_eq | rewrite lookup_insert_ne by done; fold (tasks_of w q); lia]);
    cbn [default from_option id]; rewrite ?zlen_app; try change (zlen [x]) with 1; lia.
Qed.

(** C33. The task queues over the topics do what the queues promise: from the start,
    for any operations on any workflows and groups, every result is the queue's. A
    group is handed the task at its position, the same one until it completes it,
    and the next one then; a workflow's tasks are numbered in the order of their
    delegation, and workflows and groups do not touch each other. *)
Theorem tasks_are_handed_out_in_order (ops : list TaskOp) :
  Forall op_ok ops -> zlen ops < 2 ^ 63 ->
  snd (run_ops task_op ops no_topics) = snd (run_ops queue_op ops no_queues).
Proof.
  intros Hops Hlen. assert (forall w, zlen (tasks_of w no_queues) + zlen ops < 2 ^ 63) as Hb by (intros w; exact Hlen). clear Hlen. pose proof no_topics_implement as Hi. revert Hb Hi.
  generalize no_topics as t, no_queues as q. induction Hops as [|op ops Hop _ IH]; intros t q Hb Hi; [done|]. cbn [run_ops]. pose proof (zlen_nonneg ops) as Hn. setoid_rewrite zlen_cons in Hb.
  destruct (op_implements t q op Hi Hop) as (t' & E & Hi'); [intros w; specialize (Hb w); lia|]. rewrite E. destruct (queue_op op q) as [q' r] eqn:Eq. cbn [fst snd] in *.
  assert (forall w, zlen (tasks_of w q') + zlen ops < 2 ^ 63) as Hb' by (intros w; pose proof (tasks_of_op w op q) as H; rewrite Eq in H; cbn [fst] in H; specialize (Hb w); lia).
  specialize (IH t' q' Hb' Hi'). destruct (run_ops task_op ops t') as [t2 l]. destruct (run_ops queue_op ops q') as [q2 l2]. cbn [snd] in *. by rewrite IH.
Qed.
End Delegation.

(** ** Inputs of the theorems, and what agents do not do *)

(** An agent that counts, and keeps the count as its checkpoint. *)
Definition counting (b : Z) (m : AgentState) (payload : string) : Z * AgentState * string := (b + 1, <[CHECKPOINT := to_dec (b + 1)]> m, to_dec (b + 1)).

Lemma actor_runs_its_behaviour_witness :
  exists outs, run_steps counting ["a"; "c"]%string 0 ∅ = (2, {[CHECKPOINT := "2"%string]}, outs)
    /\ delivery_replies [Msg_Deliver "a"; Msg_Pause; Msg_Deliver "b"; Msg_Resume; Msg_Deliver "c"; Msg_Terminate; Msg_Deliver "d"] [Some "1"; None; Some ""; None; Some "2"; None; None]%string
       = expected_replies Running false [Msg_Deliver "a"; Msg_Pause; Msg_Deliver "b"; Msg_Resume; Msg_Deliver "c"; Msg_Terminate; Msg_Deliver "d"] outs.
Proof.
  destruct (actor_runs_its_behaviour counting [Msg_Deliver "a"; Msg_Pause; Msg_Deliver "b"; Msg_Resume; Msg_Deliver "c"; Msg_Terminate; Msg_Deliver "d"] (actor_new 0 ∅)
    (mkActor 2 {[CHECKPOINT := "2"%string]} Running "" true) [Some "1"; None; Some ""; None; Some "2"; None; None]%string)
    as (outs & H1 & H2); [reflexivity | vm_compute; reflexivity|]. exists outs. split; [exact H1 | exact H2].
Defined.

(** An agent that is there, was sent one message and is then paused. *)
Definition seconds (n : nat) : Z := 1000 * (Z.of_nat n mod 2 ^ 40).
Definition with_agent : Registry Z MemRows := fst (spawn seconds "x" "counter" 0 (registry_new mem_empty (process_start 0))).
Definition busy_agent : Registry Z MemRows :=
  set_handle "x" (fst (actor_loop counting [Msg_Deliver "a"] (default (actor_new 0 ∅) (rg_handles with_agent !! "x"%string)))) with_agent.

Lemma checkpoint_survives_restart_witness :
  exists y, rg_handles (fst (resume_from_checkpoint seconds "x" "counter" 0 (registry_new (rg_db (fst (checkpoint counting seconds "x" busy_agent))) (process_start 50)))) !! "x"%string = Some y
    /\ ac_status y = Running /\ ac_step y = 0 /\ ("1"%string <> EmptyString -> ac_state y !! CHECKPOINT = Some "1"%string) /\ checkpoint_of y = "1"%string.
Proof.
  apply (checkpoint_survives_restart counting seconds "x" "counter" 0 (mkActor 1 {[CHECKPOINT := "1"%string]} Running "" false) busy_agent (fst (checkpoint counting seconds "x" busy_agent))
    (fst (resume_from_checkpoint seconds "x" "counter" 0 (registry_new (rg_db (fst (checkpoint counting seconds "x" busy_agent))) (process_start 50)))) (process_start 50) "1").
  - apply (rs_write_law mem_empty (rg_db busy_agent) AGENTS (as_bytes "x") (agent_row "x" "counter" "running" "" 0 1000) (Ok tt)); [exact mem_empty_rs_wf | vm_compute; reflexivity].
  - apply (Forall_inv (short_texts_fit ["x"%string] eq_refl)).
  - vm_compute; reflexivity.
  - apply (Forall_inv (short_texts_fit ["1"%string] eq_refl)).
  - vm_compute; reflexivity.
  - vm_compute; reflexivity.
Defined.

(** A paused agent whose state is checkpointed is stored as running. *)
Lemma checkpoint_stores_paused_agent_as_running :
  let g := fst (set_status counting seconds "x" Paused busy_agent) in
  list_all g = Ok [("x", "counter", "paused", "")]%string
  /\ list_all (fst (checkpoint counting seconds "x" g)) = Ok [("x", "counter", "running", "1")]%string
  /\ (ac_status <$> rg_handles (fst (checkpoint counting seconds "x" g)) !! "x"%string) = Some Paused.
Proof. vm_compute. split_and!; reflexivity. Qed.

(** A message to an agent that was terminated is an error, not an empty reply. *)
Lemma terminated_agent_answers_with_an_error :
  snd (ask counting "x" (Msg_Deliver "a") (fst (actor_loop counting [Msg_Terminate] (actor_new 0 ∅)))) = Err "agent x mailbox closed"%string.
Proof. reflexivity. Qed.

(** Two keys of two workflows share one identifier: the second write replaces the
    row of the first. *)
Lemma shared_state_collides :
  let s := fst (set_shared_state "a:b" "c" "one" "x" 0 mem_empty) in
  let s := fst (set_shared_state "a" "b:c" "two" "y" 1 s) in
  get_shared_state "a:b" "c" s = Ok (Some "two"%string) /\ list_shared_state "a:b" s = Ok [].
Proof. vm_compute. split; reflexivity. Qed.

Lemma shared_state_is_the_last_write_witness :
  get_shared_state "w" "k" (fst (set_shared_state "w" "k" "v" "x" 0 mem_empty)) = Ok (Some "v"%string)
  /\ Some "v"%string = if String.eqb (state_id "w" "k") (state_id "w" "k") then Some "v"%string else None.
Proof.
  split; [vm_compute; reflexivity|].
  apply (shared_state_is_the_last_write "w" "k" "v" "x" 0 mem_empty (fst (set_shared_state "w" "k" "v" "x" 0 mem_empty)) "w" "k" None (Some "v"%string));
    [exact mem_empty_rs_wf | apply (Forall_inv (short_texts_fit [state_id "w" "k"] eq_refl)) | apply (Forall_inv (short_texts_fit ["w"%string] eq_refl)) | apply (Forall_inv (short_texts_fit ["k"%string] eq_refl))
    | apply (Forall_inv (short_texts_fit ["v"%string] eq_refl)) | apply (Forall_inv (short_texts_fit ["x"%string] eq_refl)) | vm_compute; reflexivity | vm_compute; reflexivity | vm_compute; reflexivity].
Defined.

(** A short memory that has expired by the third second, and a long one. *)
Definition two_memories : MemRows :=
  snd (fst (remember_long seconds "x" None "stays" (process_start 0) (snd (fst (remember_short seconds "x" None "goes" 10 (process_start 0) mem_empty))))).

Lemma gc_deletes_expired_memories_witness :
  rs_rows (snd (fst (gc seconds (process_start 9) two_memories))) MEMORY = List.filter (live_row 9000) (rs_rows two_memories MEMORY)
  /\ 1 = zlen (List.filter (fun p => expired 9000 (snd p)) (rs_rows two_memories MEMORY)).
Proof.
  apply (gc_deletes_expired_memories seconds (process_start 9) (mkAmbient 0 0 10) two_memories (snd (fst (gc seconds (process_start 9) two_memories))) (Ok 1)); [|vm_compute; reflexivity | reflexivity].
  intros t r H. assert (om_sorted (K := bytes) (mr_get MEMORY two_memories)) as Hs by (vm_compute; repeat constructor).
  assert (t = MEMORY) as -> by (destruct (decide (t = MEMORY)) as [|Hne]; [done|]; exfalso; unfold two_memories in H; cbn in H; rewrite !lookup_insert_ne in H by congruence; done).
  unfold mr_get in Hs. by rewrite H in Hs.
Defined.

#[local] Existing Instance demo_bincode_record.
#[local] Existing Instance demo_bincode_commit.

Lemma tasks_are_handed_out_in_order_witness :
  snd (run_ops (task_op (fun _ => 0)) [Delegate "w" "one" 5; Delegate "w" "two" 6; Claim "w" "g"; Claim "w" "g"; Complete "w" "g" 0; Claim "w" "g"; Claim "w" "h"] no_topics)
  = [R_offset (Ok 0); R_offset (Ok 1); R_task (Ok (Some (0, "one"%string))); R_task (Ok (Some (0, "one"%string))); R_done (Ok tt); R_task (Ok (Some (1, "two"%string))); R_task (Ok (Some (0, "one"%string)))].
Proof.
  rewrite (tasks_are_handed_out_in_order (fun _ => 0)); [vm_compute; reflexivity | repeat constructor; vm_compute; done | vm_compute; reflexivity].
Defined.
