(* ===== verification/Replay.v ===== *)
(** Traces of agents and their replay ([mirror/trace.rs], [mirror/replay.rs]) over
    the topics of [Flux]. The JSON of an event is a parameter ([EventJson]).

    Theorems: the replay of a session is what was recorded in it, in order, each
    event with its position; the first error that is found has no failure before
    it; a cursor stays on an event and visits all of them, one by one. *)

From Stdlib Require Import Strings.Byte Strings.String Sorted ZArith Lia Bool Permutation.
From stdpp Require Import base list gmap strings.
From S2P Require Import Prelude OrdMap Utf8 Manifest Txn Compress Flux Sorting Mirror DdlExamples.

Open Scope Z_scope.

(** ** Events *)

Record TraceEvent := mkTraceEvent {
  ev_offset : Z; ev_ts : Z; ev_agent_id : string; ev_session_id : string; ev_kind : string; ev_detail : string;
  ev_tool_name : option string; ev_input : option string; ev_output : option string; ev_error : option string;
}.

(** [serde_json::to_vec] of the object and [from_slice]; the object has no offset,
    which is 0 when it is read. *)
Class EventJson := { event_to_json : TraceEvent -> bytes; event_from_json : bytes -> option TraceEvent }.
Class EventJsonLaws {ej : EventJson} := {
  event_roundtrip e : ev_offset e = 0 -> event_from_json (event_to_json e) = Some e;
}.

Definition trace_topic (session_id : string) : string := ("__mirror_trace_" ++ session_id)%string.

Section Trace.
  Context {bcr : Bincode FluxRecord} {bco : Bincode OffsetCommit} {ej : EventJson} (hash : bytes -> Z).

Definition decode_event (r : FluxRecord) : option TraceEvent :=
  (fun e => mkTraceEvent (fr_offset r) (fr_timestamp_ms r) (ev_agent_id e) (ev_session_id e) (ev_kind e) (ev_detail e) (ev_tool_name e) (ev_input e) (ev_output e) (ev_error e))
  <$> event_from_json (fr_value r).

Definition ensure_trace_topic (role : NodeRole) (session_id : string) (t : Topics) : Topics * Result string :=
  let topic := trace_topic session_id in
  match flux_num_partitions topic t with
  | Some _ => (t, Ok topic)
  | None =>
      match create_topic role topic 1 (mkRetentionPolicy None None) t with
      | (t, Err e) => (t, Err e)
      | (t, Ok _) => (t, Ok topic)
      end
  end.

(** [Tracer::record]; [ts] and [now] are the two readings of the clock. *)
Definition trace_record (role : NodeRole) (agent_id session_id kind detail : string) (tool_name input output error : option string) (ts now : Z) (t : Topics) : Topics * Result Z :=
  match ensure_trace_topic role session_id t with
  | (t, Err e) => (t, Err e)
  | (t, Ok topic) =>
      let event := mkTraceEvent 0 ts agent_id session_id kind detail tool_name input output error in
      match topic_publish hash role topic (Some 0) None (event_to_json event) now t with
      | (t, Err e) => (t, Err e)
      | (t, Ok (_, offset)) => (t, Ok offset)
      end
  end.

Definition record_decision (role : NodeRole) (agent_id session_id detail : string) := trace_record role agent_id session_id "decision" detail None None None None.
Definition record_tool_call (role : NodeRole) (agent_id session_id tool_name input output : string) :=
  trace_record role agent_id session_id "tool_call" ("called " ++ tool_name)%string (Some tool_name) (Some input) (Some output) None.
Definition record_error (role : NodeRole) (agent_id session_id : string) (tool_name : option string) (error : string) :=
  trace_record role agent_id session_id "error" error tool_name None None (Some error).
Definition record_outcome (role : NodeRole) (agent_id session_id detail : string) := trace_record role agent_id session_id "outcome" detail None None None None.

(** ** Replay *)

Definition by_offset (a b : TraceEvent) : comparison := Z.compare (ev_offset a) (ev_offset b).

Definition replay_session (session_id : string) (t : Topics) : list TraceEvent :=
  match flux_all (trace_topic session_id) 0 t with
  | None => []
  | Some records => stable_sort by_offset (omap decode_event records)
  end.

Definition replay_up_to (session_id : string) (offset : Z) (t : Topics) : list TraceEvent :=
  List.filter (fun e => ev_offset e <=? offset) (replay_session session_id t).

Definition is_failure (e : TraceEvent) : bool := String.eqb (ev_kind e) "error" || match ev_error e with Some _ => true | None => false end.

Definition find_first_error (session_id : string) (t : Topics) : option TraceEvent := List.find is_failure (replay_session session_id t).

(** ** Cursors *)

Record SessionCursor := mkSessionCursor { sc_events : list TraceEvent; sc_pos : nat }.

Definition cursor_open (session_id : string) (t : Topics) : SessionCursor := mkSessionCursor (replay_session session_id t) 0.
Definition cursor_current (c : SessionCursor) : option TraceEvent := sc_events c !! sc_pos c.
Definition cursor_step (c : SessionCursor) : SessionCursor :=
  if (sc_pos c + 1 <? length (sc_events c))%nat then mkSessionCursor (sc_events c) (sc_pos c + 1) else c.
Definition cursor_back (c : SessionCursor) : SessionCursor := mkSessionCursor (sc_events c) (sc_pos c - 1).

Fixpoint position_of_offset (offset : Z) (events : list TraceEvent) : option nat :=
  match events with
  | [] => None
  | e :: l => if ev_offset e =? offset then Some 0%nat else S <$> position_of_offset offset l
  end.
Definition cursor_seek (offset : Z) (c : SessionCursor) : SessionCursor * option TraceEvent :=
  match position_of_offset offset (sc_events c) with
  | None => (c, None)
  | Some i => let c := mkSessionCursor (sc_events c) i in (c, cursor_current c)
  end.

(** ** A session is replayed as it was recorded *)

Context {laws : EventJsonLaws}.

(** What a session holds: a single partition without retention, with the events
    at their positions. *)
Definition holds_events (t : Topics) (session_id : string) (events : list TraceEvent) : Prop :=
  match tp_topics t !! trace_topic session_id with
  | None => events = [] /\ tp_dirs t !! trace_topic session_id = None
  | Some l => fl_retention l = mkRetentionPolicy None None
      /\ exists p, fl_partitions l = [p] /\ pt_next_offset p = zlen events /\ omap decode_event (pt_records p) = events
  end /\ (forall i e, events !! i = Some e -> ev_offset e = Z.of_nat i).

Lemma trace_topic_inj s s' : trace_topic s = trace_topic s' -> s = s'.
Proof. unfold trace_topic. intros H. repeat (injection H as H). done. Qed.

Lemma offsets_in_order (events : list TraceEvent) (n : Z) :
  (forall i e, events !! i = Some e -> ev_offset e = n + Z.of_nat i) -> stable_sort by_offset events = events.
Proof.
  revert n. induction events as [|e l IH]; intros n H; [done|]. cbn [stable_sort]. rewrite (IH (n + 1)) by (intros i x Hx; rewrite (H (S i) x Hx); lia).
  destruct l as [|e' l]; [done|]. cbn [insert_sorted]. unfold by_offset. rewrite (H 0%nat e eq_refl), (H 1%nat e' eq_refl). by rewrite (proj2 (Z.compare_lt_iff _ _)) by lia.
Qed.

Lemma replay_events t s events : holds_events t s events -> replay_session s t = events.
Proof.
  intros [Ht Ho]. unfold replay_session, flux_all, all_records. destruct (tp_topics t !! trace_topic s) as [l|]; cbn [mbind option_bind]; [|by destruct Ht as [-> _]].
  destruct Ht as (_ & p & Hp & _ & He). rewrite Hp. change (Z.to_nat 0) with 0%nat. cbn [lookup list_lookup fmap option_fmap option_map]. change (partition_all p) with (pt_records p). rewrite He. by apply (offsets_in_order events 0).
Qed.

Lemma ensure_trace_holds t s events :
  holds_events t s events -> exists t', ensure_trace_topic Writer s t = (t', Ok (trace_topic s)) /\ holds_events t' s events /\ (exists l, tp_topics t' !! trace_topic s = Some l)
    /\ (forall s' events', s' <> s -> holds_events t s' events' -> holds_events t' s' events').
Proof.
  intros [Ht Ho]. unfold ensure_trace_topic, flux_num_partitions. destruct (tp_topics t !! trace_topic s) as [l|] eqn:E.
  - exists t. split; [done|]. split_and!; [|by exists l | done]. split; [by rewrite E | done].
  - destruct Ht as [-> Hd]. cbn [fmap option_fmap option_map]. unfold create_topic, role_writable, create_in, dir_of. rewrite E, Hd. cbn. eexists. split; [reflexivity|]. split_and!.
    + split; [|done]. cbn [tp_topics]. rewrite lookup_insert_eq. split; [done|]. by exists partition_new.
    + cbn [tp_topics]. rewrite lookup_insert_eq. by eexists.
    + intros s' events' Hne [Ht' Ho']. split; [|done]. cbn [tp_topics tp_dirs]. by rewrite !lookup_insert_ne by (intros Hx; by apply Hne, trace_topic_inj).
Qed.

Lemma record_holds t s events agent kind detail tool input output error ts now :
  holds_events t s events -> zlen events + 1 < 2 ^ 64 ->
  exists t', trace_record Writer agent s kind detail tool input output error ts now t = (t', Ok (zlen events))
    /\ holds_events t' s (events ++ [mkTraceEvent (zlen events) now agent s kind detail tool input output error])
    /\ (forall s' events', s' <> s -> holds_events t s' events' -> holds_events t' s' events').
Proof.
  intros Hh Hlen. destruct (ensure_trace_holds t s events Hh) as (t1 & E & [Ht1 Ho] & (l & Hl) & Hoth). unfold trace_record. rewrite E. rewrite Hl in Ht1. destruct Ht1 as (Hret & p & Hp & Hn & He).
  pose proof (zlen_nonneg events). unfold topic_publish, role_writable. rewrite Hl. unfold publish, publish_target, num_partitions. rewrite Hp.
  change (0 <? zlen [p] mod 2 ^ 32) with true. cbv beta iota. change (Z.to_nat 0) with 0%nat. cbn [lookup list_lookup]. unfold append. rewrite Hret. unfold apply_retention. cbn [retention_ms retention_bytes]. rewrite Hn. eexists. split; [reflexivity|].
  split; [split|].
  - cbn [tp_topics]. rewrite lookup_insert_eq. split; [done|]. eexists. split; [reflexivity|]. cbn [pt_next_offset pt_records push_record]. rewrite u64_add_small, zlen_app by lia. split; [done|].
    rewrite omap_app, He. f_equal. cbn [omap list_omap]. unfold decode_event. cbn [fr_value]. by rewrite event_roundtrip.
  - intros i e Hi. apply lookup_app_Some in Hi as [Hi|[Hge Hi]]; [by apply Ho|]. apply list_lookup_singleton_Some in Hi as [Hi <-]. cbn. unfold zlen. lia.
  - intros s' events' Hne Hs'. apply Hoth in Hs' as [Hs' Ho']; [|done]. split; [|done]. cbn [tp_topics tp_dirs]. by rewrite !lookup_insert_ne by (intros Hx; by apply Hne, trace_topic_inj).
Qed.

(** What agents record. *)
Record Recorded := mkRecorded {
  rc_agent : string; rc_session : string; rc_kind : string; rc_detail : string; rc_tool : option string; rc_input : option string; rc_output : option string; rc_error : option string; rc_ts : Z; rc_now : Z;
}.

Definition do_record (t : Topics) (r : Recorded) : Topics :=
  fst (trace_record Writer (rc_agent r) (rc_session r) (rc_kind r) (rc_detail r) (rc_tool r) (rc_input r) (rc_output r) (rc_error r) (rc_ts r) (rc_now r) t).

Definition event_at (i : nat) (r : Recorded) : TraceEvent :=
  mkTraceEvent (Z.of_nat i) (rc_now r) (rc_agent r) (rc_session r) (rc_kind r) (rc_detail r) (rc_tool r) (rc_input r) (rc_output r) (rc_error r).

Definition recorded_in (s : string) (rs : list Recorded) : list Recorded := List.filter (fun r => String.eqb (rc_session r) s) rs.

(** Whatever agents record in whatever sessions, the replay of a session is the
    events recorded in it, in their order, each at its position. *)
Theorem replay_is_what_was_recorded (rs : list Recorded) (s : string) :
  zlen rs < 2 ^ 63 -> replay_session s (foldl do_record (mkTopics ∅ ∅) rs) = imap event_at (recorded_in s rs).
Proof.
  intros Hlen. apply replay_events. revert s. induction rs as [|r rs IH] using rev_ind; intros s; [split; [by cbn; rewrite lookup_empty | done]|].
  rewrite zlen_app in Hlen. change (zlen [r]) with 1 in Hlen. pose proof (zlen_nonneg rs). assert (zlen rs < 2 ^ 63) as Hl by lia. specialize (IH Hl). rewrite foldl_snoc. unfold recorded_in. rewrite List.filter_app. cbn [List.filter]. fold (recorded_in s rs).
  assert (zlen (imap event_at (recorded_in (rc_session r) rs)) <= zlen rs) as Hle.
  { unfold zlen. rewrite length_imap. unfold recorded_in. pose proof (List.filter_length_le (fun x => String.eqb (rc_session x) (rc_session r)) rs). lia. }
  destruct (record_holds _ _ _ (rc_agent r) (rc_kind r) (rc_detail r) (rc_tool r) (rc_input r) (rc_output r) (rc_error r) (rc_ts r) (rc_now r) (IH (rc_session r))) as (t' & E & Hin & Hother); [lia|].
  unfold do_record at 1. rewrite E. cbn [fst]. destruct (String.eqb_spec (rc_session r) s) as [<-|Hne].
  - rewrite imap_app. cbn [imap]. unfold event_at at 2. cbn. rewrite Nat.add_0_r. unfold zlen in Hin. rewrite length_imap in Hin. exact Hin.
  - rewrite app_nil_r. by apply Hother.
Qed.

(** Nothing before the first error is a failure. *)
Lemma first_error_is_first s t e :
  find_first_error s t = Some e -> exists l1 l2, replay_session s t = l1 ++ e :: l2 /\ is_failure e = true /\ Forall (fun x => is_failure x = false) l1.
Proof.
  unfold find_first_error. induction (replay_session s t) as [|x l IH]; cbn; [done|]. destruct (is_failure x) eqn:Ex.
  - intros [= ->]. by exists [], l.
  - intros H. destruct (IH H) as (l1 & l2 & -> & He & Hl). exists (x :: l1), l2. split_and!; [done | done | by constructor].
Qed.

(** Stepping from the first event on visits the events in order, and then stays. *)
Lemma steps_visit_events n s t :
  cursor_current (Nat.iter n cursor_step (cursor_open s t)) = replay_session s t !! Nat.min n (length (replay_session s t) - 1).
Proof.
  assert (forall m, Nat.iter m cursor_step (cursor_open s t) = mkSessionCursor (replay_session s t) (Nat.min m (length (replay_session s t) - 1))) as H.
  { induction m as [|m IH]; [done|]. change (Nat.iter (S m) cursor_step (cursor_open s t)) with (cursor_step (Nat.iter m cursor_step (cursor_open s t))). rewrite IH. unfold cursor_step. cbn [sc_pos sc_events]. destruct (Nat.ltb_spec (Nat.min m (length (replay_session s t) - 1) + 1) (length (replay_session s t))); f_equal; lia. }
  by rewrite H.
Qed.

End Trace.

(** ** Inputs of the theorem *)

(** A codec of events. *)
#[local] Instance TraceEvent_eq_dec : EqDecision TraceEvent.
Proof. solve_decision. Defined.
#[local] Program Instance TraceEvent_countable : Countable TraceEvent :=
  inj_countable' (fun e => (ev_offset e, ev_ts e, ev_agent_id e, ev_session_id e, ev_kind e, ev_detail e, ev_tool_name e, ev_input e, ev_output e, ev_error e))
    (fun '(o, t, a, s, k, d, n, i, u, r) => mkTraceEvent o t a s k d n i u r) _.
Next Obligation. by intros []. Qed.
#[local] Instance demo_event_json : EventJson := {| event_to_json := @bc_serialize _ (codec TraceEvent); event_from_json := @bc_deserialize _ (codec TraceEvent) |}.
#[local] Instance demo_event_json_laws : EventJsonLaws := {| event_roundtrip e _ := codec_decodes e |}.
#[local] Existing Instance demo_bincode_record.
#[local] Existing Instance demo_bincode_commit.

Definition tool_failed : Recorded := mkRecorded "a" "s" "error" "boom" (Some "search"%string) None None (Some "boom"%string) 1 2.
Definition decided : Recorded := mkRecorded "a" "s" "decision" "look" None None None None 0 1.
Definition elsewhere : Recorded := mkRecorded "b" "t" "outcome" "done" None None None None 5 6.

(** Two sessions at a time: the error of one is found at its position. *)
Lemma replay_is_what_was_recorded_witness :
  find_first_error "s" (foldl (do_record (fun _ => 0)) (mkTopics ∅ ∅) [decided; elsewhere; tool_failed]) = Some (event_at 1 tool_failed).
Proof. unfold find_first_error. rewrite (replay_is_what_was_recorded (fun _ => 0)) by (vm_compute; reflexivity). reflexivity. Defined.
